(* ===== verification/_CoqProject ===== *)
-Q . S2P
Prelude.v
LowerBound.v
Bits.v
GarbageSlab.v
Sync.v
Region.v
VHandle.v
VHandleFacts.v
VHandleAppend.v
VHandleProps.v
GCRun.v
RowStore.v
Execution.v
Serializability.v
VersionBuffer.v
ContentionManager.v
BinPack.v
Locality.v
ContentionReset.v
ContentionProps.v
Heap.v
SchedQueue.v
Dispatch.v
DispatchProps.v
Mem.v
MemProps.v
SlabMem.v
SlabPool.v
SlabFacts.v
SlabProps.v
DataRegion.v
RegionProps.v
SizeCode.v
PWVGraph.v
PWVFacts.v
PWVProps.v
Locks.v
PWVSched.v
CommitBuffer.v
SqlTypes.v
VarStr.v
Piece.v
BufferPlan.v
PlanFacts.v
PlanProps.v
Epoch.v
EpochFacts.v
EpochProps.v
EpochTxns.v
EpochMem.v
LocalDispatch.v
Wire.v
Channel.v
HashIndex.v
Batcher.v
AutoTune.v
IndexOp.v
IndexFacts.v
IndexProps.v
SliceMap.v
Shipping.v
Shipment.v
ReadyQueue.v
Future.v
CoroSched.v
CoroFacts.v
CoroProps.v
Tpcc.v
TpccKeys.v
TpccTxns.v
TpccOrder.v
TpccPayment.v
TpccDelivery.v
TpccProps.v
TpccQueries.v
TpccLoad.v
TpccInsert.v
Ermia.v
VHandleReplay.v
Ycsb.v
