(* ===== verification/Prelude.v ===== *)
(** * Felis: a verification development

    Felis is a deterministic, epoch-based multi-version database engine. In each
    epoch a batch of transactions gets serial ids; in the initialization phase
    every transaction announces the rows it will write by appending a pending
    version; in the execution phase the pieces of the transactions run in
    parallel, reads wait for the versions they depend on, and the outcome must be
    that of the serial order. Between epochs, old versions are collected and the
    load is rebalanced. This library models the C++ code under src/ as Rocq
    functions and step relations and proves the properties that make its parts
    correct.

    ** Conventions

    Machine integers are [Z] with the wrap-around written out ([u8] .. [u64],
    [i32]); arrays are lists with checked accesses ([load], [store]); code that
    can abort, access memory out of range or spin returns [result] ([Aborted],
    [OutOfRange], [Blocked]). Operations that hold a lock in the source are
    atomic functions on an explicit state; code whose interleavings matter
    (reader/writer synchronization, the MCS lock, the execution phase) is a step
    relation. Random generators, hash functions, the data region and the
    callbacks of other components are arguments. Memory is sequentially
    consistent. Loops of the source are structural where they can be; otherwise
    they carry fuel, and the theorems show that the fuel given by the operation
    is enough (a loop that runs out of it would be an error value).

    ** Files and the code they model

    - [Prelude], [Bits]: the result monad, machine words, arrays, sums, bit
      lemmas, tactics; [LowerBound]: util/lowerbound.h and std::lower_bound.
    - [VHandle] (vhandle.cc [SortedArrayVHandle]): the sorted version array, its
      growth, append, read, write and [Collect]; [VHandleFacts],
      [VHandleAppend], [VHandleProps]: its theory.
    - [Sync] (vhandle_sync.cc [SpinnerSlot]): the wait/notify protocol in the
      version cells, as a step relation.
    - [GarbageSlab], [GCRun] (gc.cc): the registry of rows with
      garbage, and the collection pass.
    - [RowStore], [Execution], [Serializability] (txn.cc and the row operations):
      an interface of row stores (a class whose laws the version arrays
      discharge), the execution phase on it, and serializability.
    - [VersionBuffer], [ContentionManager], [BinPack], [ContentionReset],
      [ContentionProps] (contention_manager.cc): batched appends in per-core
      buffers, their flush, and the assignment of hot rows to cores.
    - [Locality] (locality_manager.cc): spreading load over the cores.
    - [Heap], [SchedQueue], [Dispatch], [DispatchProps] (routine_sched.cc/.h):
      the per-core dispatch of pieces; [PWVGraph], [PWVFacts],
      [PWVProps] (pwv_graph.cc): the dependency graph of piecewise execution;
      [PWVSched] (routine_sched.cc [PWVScheduler]): its scheduling policy.
    - [Mem], [MemProps] (mem.cc/.h): pools, per-core allocators and the bump
      allocator; [SlabMem]: the metaslabs of a node; [SlabPool], [SlabFacts],
      [SlabProps]: the slab pools on top of them; [Region], [DataRegion],
      [RegionProps]: size classes and the data region.
    - [SizeCode] (chkpt/ermia_size_encode.cc): 8-bit size codes.
    - [Locks] (util/locks.cc): the spin lock and the MCS lock.
    - [CommitBuffer] (commit_buffer.cc): the table of repeated writes.
    - [SqlTypes], [VarStr] (sqltypes.h, varstr.h): rows, keys, strings and views.
    - [Piece] (piece.cc): routine trees and the packets that carry them.
    - [BufferPlan], [PlanFacts], [PlanProps] (node_config.cc): the plan of the
      messages of a phase, its counters per level, source and destination, and
      their exchange between nodes.
    - [Epoch], [EpochFacts], [EpochProps] (epoch.cc): the control routine, the
      workers of the cores and the completion counter, as events of one node;
      [EpochTxns]: generation and distribution of the transactions; [EpochMem]:
      promise memory and the objects of an epoch.
    - [LocalDispatch] (node_config.cc [LocalDispatcherImpl]): the queues that carry
      pieces to the cores of a node.
    - [Wire], [Channel] (tcp_node.cc): the messages between nodes and the channels
      of bytes that carry them; [Batcher] (node_config.cc [TransportBatcher],
      tcp_node.cc): the counts of sent messages that decide when a channel is
      flushed, and the settling of the receiver's counts.
    - [AutoTune] (threshold_autotune.h): tuning of the splitting threshold.
    - [HashIndex] (hashtable_index_impl.cc): the lock-free chains of the index, as
      a step relation.
    - [ReadyQueue], [Future] (coro_sched.cpp, txn.h): the concurrent list of
      coroutines that can go on, and the protocol between a coroutine that waits for
      a future and the threads that set it, as step relations; [CoroSched],
      [CoroFacts], [CoroProps] (coro_sched.cpp): the coroutine scheduler of a core.
    - [IndexOp], [IndexFacts], [IndexProps] (txn.cc, txn.h, txn_cc.h): the contexts
      of index operations, their encoding, the routing of keys to nodes, and lookups
      and insertions on the nodes.
    - [SliceMap] (slice.cc [SliceMappingTable]): the owners of slices and the
      operations that replicate them; [Shipping] (shipping.cc, shipping.h, slice.cc):
      sessions, dirty handles, the scanner of a slice and a migration as events of
      scanner, sender and writers; [Shipment] (shipping.h, entity.cc): rows as bytes,
      batches of vectors, and the receiver.
    - [Tpcc] (benchmark/tpcc/tpcc.cc [ClientBase], util/random.h): the random numbers,
      in integers and in doubles rounded to 53 bits, the configuration, sharding by
      warehouse and the inputs of the transactions; [TpccKeys] (tpcc.h,
      index_common.h): keys, hash functions and generated order ids; [TpccTxns]
      (new_order.cc, payment.cc, delivery.cc, txn_cc.h): the pieces that the
      transactions attach and what they do to rows and futures, and the runs of
      pieces in any order; [TpccOrder], [TpccPayment], [TpccDelivery], [TpccProps]:
      their theory; [TpccQueries] (stock_level.cc, order_status.cc); [TpccLoad]: the
      loaders, whose retries are given [2 ^ 48] rounds of fuel: the generator of random
      numbers is shown to run through all its states in as many steps; [TpccInsert] (new_order.cc [PrepareInsert], delivery.cc [Prepare]): the
      insertions and lookups of NewOrder and Delivery through the index operations.
    - [Ycsb] (benchmark/ycsb/ycsb.cc): the keys, pieces and loader of YCSB; the pieces
      run one shared access at a time.
    - [Ermia] (chkpt/ermia.cc): checkpoint files, their export and the reader.
    - [VHandleReplay] (vhandle.cc [LinkListVHandle], [CalvinVHandle]): the two row
      formats that are compiled out by default. The linked list discharges the laws of
      [RowStore.MVStore], so the theorems of [Execution] hold for it; Calvin's rows have
      their own execution, in which accesses take turns.

    ** What is shown

    The core result is [Serializability.epoch_serializable]: from any state that
    the initialization phase can leave, every interleaving of the reads and
    writes of the transactions ends with the database of the serial execution;
    with it, every read returns the serial value, the execution phase cannot get
    stuck before its transactions are done, and it terminates. It rests on the
    version array (append keeps the versions sorted and adds a pending one, a
    read finds the newest older version, a write fills its own version, a
    collection does not change what readers can see) and on the wait protocol (no
    reader sees a pending value, no wake-up is lost). The batching of hot rows is
    shown to lose no version; dispatch to follow the priorities and never to
    abort; piecewise execution to respect the serial order per row and to make
    progress; an epoch's phases to end exactly when every piece planned for the
    node has run, and the epochs to run to their end; the plan of a phase to count
    each message once, and both sides of the network to agree on it; the queues and
    channels to deliver each piece once; the coroutine scheduler to lose no coroutine
    and no piece, not to abort when futures are not signalled, and not to miss a
    wake-up of a future; the index to have one row per key, and an operation on
    several keys to reach each key once, on the node of its slice; a migration to ship
    the newest value of every row (when no update falls into the sending of its row),
    and a shipment to arrive as it was sent; slice owners to be the same on all nodes;
    allocators to return disjoint memory, up to the data region of all cores and sizes
    with its lists of objects freed by other cores; encodings to round-trip and
    keep the order of keys; locks to exclude. For the TPC-C workload, the inputs that
    clients generate are well formed for every seed although ranges are computed in
    floating point; the loaders end for every seed with rows that fit their columns and
    pass their checks; NewOrder inserts the rows of its order once each and updates every
    stock once, Payment pays once with the tax that travels in a future, and Delivery
    delivers the orders of all districts, whatever the order in which their pieces run.
    A YCSB transaction completes in all of its modes, with the last write after the
    others where it depends on them. A checkpoint file is read back as it was exported.
    Rows as linked lists give the guarantees of the sorted arrays, and Calvin's ordered
    accesses execute an epoch as its serial order.

    Theorems named in the manifest's findings show where the code departs from
    its intent, for instance [CommitBuffer.duplicates_never_found],
    [GCRun.prepare_stops_at_empty_core], [SqlTypes.key_u16_decode].

    ** Bounds and fuel

    [FastLowerBound], [lower_bound] and the table search of the size codes halve
    an interval: the fuel is the number of bits of its length. [gc_block] runs
    once per set bit of a 64-bit bitmap and once per 16K versions. [pick_loop]
    visits each free entry once. Packet decoding is bounded by the packet's
    length, which exceeds the depth of the tree; polling a channel by the length
    of its input. The retry loops of the TPC-C generators have fuel: the theorems on
    them hold for every fuel, and say that the input is well formed or that the fuel
    ran out; the retries of the loaders end within [2 ^ 48] rounds, the period of the
    generator. [Channel.Send.Alloc] needs two rounds for a message that fits. The theorems on 32-bit counters
    state the ranges in which they do not wrap.

    ** Not modelled

    Sockets and connection setup (the rest of tcp_node.cc), RDMA, process setup
    and console (main.cc, module.cc, console.cc),
    logging, probes and statistics; stacks and register switches of coroutines
    (coroutine.c, coro_switch.asm); the Masstree index (a wrapper around a
    library); the distributed variant of YCSB; in TPC-C's transactions the columns
    that none of them changes, and the resources of piecewise execution. *)

From Stdlib Require Export ZArith Lia.
From stdpp Require Export sorting gmap functions prelude list.

#[global] Open Scope Z_scope.

Declare Scope felis_scope.
Delimit Scope felis_scope with felis.
#[global] Open Scope felis_scope.

(** * Faults and the result monad

    [Aborted] is [std::abort] / [abort_if]; [OutOfRange] is an access outside
    the object (undefined behaviour in C++); [Blocked] is a spin loop whose
    condition does not hold in the current state. *)

Inductive Fault := Aborted | OutOfRange | Blocked.

#[export] Instance Fault_eq_dec : EqDecision Fault.
Proof. solve_decision. Defined.

Inductive result (A : Type) := Ok (a : A) | Err (f : Fault).
Arguments Ok {A} a.
Arguments Err {A} f.

#[export] Instance result_eq_dec `{EqDecision A} : EqDecision (result A).
Proof. solve_decision. Defined.

#[export] Instance result_ret : MRet result := fun A a => Ok a.
#[export] Instance result_bind : MBind result := fun A B k m =>
  match m with Ok a => k a | Err f => Err f end.
#[export] Instance result_fmap : FMap result := fun A B k m =>
  match m with Ok a => Ok (k a) | Err f => Err f end.

(** [abort_if(cond, ...)] of log.h *)
Definition abort_if (b : bool) : result unit := if b then Err Aborted else Ok tt.

Lemma bind_ok {A B} (m : result A) (k : A → result B) b :
  (m ≫= k) = Ok b ↔ ∃ a, m = Ok a ∧ k a = Ok b.
Proof. destruct m; cbn; naive_solver. Qed.

Lemma abort_if_ok b u : abort_if b = Ok u ↔ b = false.
Proof. destruct b, u; cbn; naive_solver. Qed.

(** * Machine integers: values are [Z], the wrap-around is explicit *)

Definition u8 (z : Z) : Z := z mod 2 ^ 8.
Definition u16 (z : Z) : Z := z mod 2 ^ 16.
Definition u32 (z : Z) : Z := z mod 2 ^ 32.
Definition u64 (z : Z) : Z := z mod 2 ^ 64.
Definition i32 (z : Z) : Z := (z + 2 ^ 31) mod 2 ^ 32 - 2 ^ 31.
Definition i16 (z : Z) : Z := (z + 2 ^ 15) mod 2 ^ 16 - 2 ^ 15.

Lemma u8_id z : 0 ≤ z < 2 ^ 8 → u8 z = z.
Proof. apply Z.mod_small. Qed.
Lemma u16_id z : 0 ≤ z < 2 ^ 16 → u16 z = z.
Proof. apply Z.mod_small. Qed.
Lemma u32_id z : 0 ≤ z < 2 ^ 32 → u32 z = z.
Proof. apply Z.mod_small. Qed.
Lemma u64_id z : 0 ≤ z < 2 ^ 64 → u64 z = z.
Proof. apply Z.mod_small. Qed.
Lemma i16_id z : - 2 ^ 15 ≤ z < 2 ^ 15 → i16 z = z.
Proof. intros H. unfold i16. rewrite Z.mod_small; lia. Qed.
Lemma i32_id z : - 2 ^ 31 ≤ z < 2 ^ 31 → i32 z = z.
Proof. intros. unfold i32. rewrite Z.mod_small; lia. Qed.
Lemma u32_range z : 0 ≤ u32 z < 2 ^ 32.
Proof. apply Z.mod_pos_bound. lia. Qed.
Lemma u64_range z : 0 ≤ u64 z < 2 ^ 64.
Proof. apply Z.mod_pos_bound. lia. Qed.

(** [util::Align] of util/arch.h (default alignment 16), on [size_t] *)
Definition Align (x a : Z) : Z := u64 (a * u64 (u64 (x - 1) / a + 1)).

(** [__builtin_clz] on a non-zero 32-bit value, [__builtin_clzl] on a 64-bit one *)
Definition clz32 (x : Z) : Z := 31 - Z.log2 x.
Definition clz64 (x : Z) : Z := 63 - Z.log2 x.

Fixpoint pos_ctz (p : positive) : Z :=
  match p with xO q => 1 + pos_ctz q | _ => 0 end.
(** [__builtin_ctzll] on a non-zero value; [__builtin_ffsll] is [0] on zero *)
Definition ctz (x : Z) : Z := match x with Zpos p => pos_ctz p | _ => 0 end.
Definition ffs (x : Z) : Z := match x with Zpos p => 1 + pos_ctz p | _ => 0 end.

Fixpoint pos_popcount (p : positive) : Z :=
  match p with xO q => pos_popcount q | xI q => 1 + pos_popcount q | xH => 1 end.
Definition popcount (x : Z) : Z := match x with Zpos p => pos_popcount p | _ => 0 end.

(** size literals of literals.h *)
Definition K_ (n : Z) : Z := Z.shiftl n 10.
Definition M_ (n : Z) : Z := Z.shiftl n 20.

(** * Arrays of 64-bit cells

    An array is the list of its cells. [l .[ i ]] is the total read used in
    specifications; [load] and [store] are the checked accesses of the code. *)

Abbreviation len l := (Z.of_nat (length l)).

Definition at_ (l : list Z) (i : Z) : Z := nth (Z.to_nat i) l 0.
Notation "l .[ i ]" := (at_ l i) (at level 1, i at level 200, left associativity, format "l .[ i ]") : felis_scope.

Definition load (l : list Z) (i : Z) : result Z :=
  if (0 <=? i) && (i <? len l) then Ok (l.[i]) else Err OutOfRange.
Definition store (l : list Z) (i x : Z) : result (list Z) :=
  if (0 <=? i) && (i <? len l) then Ok (<[Z.to_nat i := x]> l) else Err OutOfRange.

(** [tab n f] is the array whose cell [i] holds [f i] *)
Definition tab (n : Z) (f : Z → Z) : list Z := f <$> seqZ 0 n.

(** [std::move(l + a, l + b, l + d)]: on [uint64_t] it is [memmove] *)
Definition memmove (l : list Z) (a b d : Z) : result (list Z) :=
  if (0 <=? a) && (a <=? b) && (b <=? len l) && (0 <=? d) && (d + (b - a) <=? len l)
  then Ok (tab (len l) (fun k => if (d <=? k) && (k <? d + (b - a)) then l.[a + (k - d)] else l.[k]))
  else Err OutOfRange.

(** [std::fill(l + a, l + b, x)] *)
Definition fill (l : list Z) (a b x : Z) : result (list Z) :=
  if (0 <=? a) && (a <=? b) && (b <=? len l)
  then Ok (tab (len l) (fun k => if (a <=? k) && (k <? b) then x else l.[k]))
  else Err OutOfRange.

(** the [n] cells from index [a] on, as a list *)
Definition seg (l : list Z) (a n : Z) : list Z := at_ l <$> seqZ a n.

(** the cells of [a, b) are in ascending order *)
Definition sorted_in (l : list Z) (a b : Z) : Prop :=
  ∀ i j, a ≤ i → i ≤ j → j < b → l.[i] ≤ l.[j].

(** * Automation *)

Create HintDb felis.
Create Rewrite HintDb arrays.

(** split every integer comparison of the goal *)
Ltac zcase :=
  repeat match goal with
  | |- context [?a <? ?b] => destruct (Z.ltb_spec a b)
  | |- context [?a <=? ?b] => destruct (Z.leb_spec a b)
  | |- context [?a =? ?b] => destruct (Z.eqb_spec a b)
  end; cbn [andb orb negb].

(** the boolean guards in the hypotheses, as propositions *)
Ltac zprop :=
  repeat match goal with
  | H : _ && _ = true |- _ => apply andb_true_iff in H; destruct H
  | H : _ || _ = false |- _ => apply orb_false_iff in H; destruct H
  | H : negb _ = true |- _ => apply negb_true_iff in H
  | H : negb _ = false |- _ => apply negb_false_iff in H
  | H : (_ <? _) = true |- _ => apply Z.ltb_lt in H
  | H : (_ <? _) = false |- _ => apply Z.ltb_ge in H
  | H : (_ <=? _) = true |- _ => apply Z.leb_le in H
  | H : (_ <=? _) = false |- _ => apply Z.leb_gt in H
  | H : (_ =? _) = true |- _ => apply Z.eqb_eq in H
  | H : (_ =? _) = false |- _ => apply Z.eqb_neq in H
  end.

(** case analysis on the functions updated with [<[a := x]> f] *)
Ltac fn_cases :=
  repeat (unfold insert, fn_insert in *; cbn in *; case_decide; subst; try done).

(** open the binds of a computation that succeeded *)
Ltac inv_ok :=
  repeat match goal with
  | H : Ok _ = Ok _ |- _ => injection H as H; subst
  | H : Err _ = Ok _ |- _ => discriminate H
  | H : Ok _ = Err _ |- _ => discriminate H
  | H : mret _ = Ok _ |- _ => injection H as H; subst
  | H : (_ ≫= _) = Ok _ |- _ =>
      apply bind_ok in H; let a := fresh "v" in let E := fresh "E" in
      destruct H as (a & E & H); cbn beta iota in H
  | H : abort_if _ = Ok _ |- _ => apply abort_if_ok in H
  end.

(** * Lemmas on arrays *)

Lemma load_in l i : 0 ≤ i < len l → load l i = Ok (l.[i]).
Proof. intros. unfold load. zcase; [done|lia..]. Qed.

Lemma load_ok l i x : load l i = Ok x ↔ 0 ≤ i < len l ∧ x = l.[i].
Proof. unfold load. zcase; naive_solver lia. Qed.

Lemma store_in l i x : 0 ≤ i < len l → store l i x = Ok (<[Z.to_nat i := x]> l).
Proof. intros. unfold store. zcase; [done|lia..]. Qed.

Lemma store_ok l i x l' :
  store l i x = Ok l' ↔ 0 ≤ i < len l ∧ l' = <[Z.to_nat i := x]> l.
Proof. unfold store. zcase; naive_solver lia. Qed.

Lemma at_insert l i j x :
  0 ≤ i < len l → 0 ≤ j → (<[Z.to_nat i := x]> l).[j] = if j =? i then x else l.[j].
Proof.
  intros Hi Hj. unfold at_. rewrite !nth_lookup. zcase.
  - subst. rewrite list_lookup_insert_eq; [done|lia].
  - rewrite list_lookup_insert_ne; [done|lia].
Qed.

Lemma at_lookup l i x : l !! Z.to_nat i = Some x → l.[i] = x.
Proof. intros H. unfold at_. by apply nth_lookup_Some. Qed.

Lemma lookup_at l i : 0 ≤ i < len l → l !! Z.to_nat i = Some (l.[i]).
Proof.
  intros. unfold at_. rewrite nth_lookup.
  destruct (l !! Z.to_nat i) eqn:E; [done|]. apply lookup_ge_None in E. lia.
Qed.

Lemma len_tab n f : 0 ≤ n → len (tab n f) = n.
Proof. intros. unfold tab. rewrite length_fmap, length_seqZ. lia. Qed.

Lemma at_tab n f i : 0 ≤ i < n → (tab n f).[i] = f i.
Proof.
  intros. apply at_lookup. unfold tab.
  rewrite list_lookup_fmap, lookup_seqZ_lt by lia. cbn. f_equal. f_equal. lia.
Qed.

Lemma len_insert (l : list Z) i x : len (<[i := x]> l) = len l.
Proof. by rewrite length_insert. Qed.

(** the effect of a block move, cell by cell *)
Lemma memmove_in l a b d :
  0 ≤ a ≤ b → b ≤ len l → 0 ≤ d → d + (b - a) ≤ len l →
  ∃ l', memmove l a b d = Ok l' ∧ len l' = len l ∧
    ∀ k, 0 ≤ k < len l →
      l'.[k] = if (d <=? k) && (k <? d + (b - a)) then l.[a + (k - d)] else l.[k].
Proof.
  intros. unfold memmove.
  replace ((0 <=? a) && (a <=? b) && (b <=? len l) && (0 <=? d) && (d + (b - a) <=? len l))
    with true by (symmetry; zcase; lia).
  eexists. split; [done|]. split; [apply len_tab; lia|].
  intros. by rewrite at_tab.
Qed.

Lemma fill_in l a b x :
  0 ≤ a ≤ b → b ≤ len l →
  ∃ l', fill l a b x = Ok l' ∧ len l' = len l ∧
    ∀ k, 0 ≤ k < len l → l'.[k] = if (a <=? k) && (k <? b) then x else l.[k].
Proof.
  intros. unfold fill.
  replace ((0 <=? a) && (a <=? b) && (b <=? len l)) with true by (symmetry; zcase; lia).
  eexists. split; [done|]. split; [apply len_tab; lia|].
  intros. by rewrite at_tab.
Qed.

Lemma len_seg l a n : 0 ≤ n → len (seg l a n) = n.
Proof. intros. unfold seg. rewrite length_fmap, length_seqZ. lia. Qed.

Lemma at_seg l a n i : 0 ≤ i < n → (seg l a n).[i] = l.[a + i].
Proof.
  intros. apply at_lookup. unfold seg.
  rewrite list_lookup_fmap, lookup_seqZ_lt by lia. cbn. f_equal. f_equal. lia.
Qed.

(** two arrays of the same length with the same cells are equal *)
Lemma array_ext l1 l2 :
  len l1 = len l2 → (∀ i, 0 ≤ i < len l1 → l1.[i] = l2.[i]) → l1 = l2.
Proof.
  intros Hlen Hi. apply list_eq. intros i.
  destruct (decide (i < length l1)%nat) as [H|H].
  - specialize (Hi (Z.of_nat i) ltac:(lia)).
    pose proof (lookup_at l1 (Z.of_nat i) ltac:(lia)) as E1.
    pose proof (lookup_at l2 (Z.of_nat i) ltac:(lia)) as E2.
    rewrite Nat2Z.id in *. congruence.
  - rewrite !lookup_ge_None_2 by lia. done.
Qed.

Lemma seg_ext l1 l2 a n :
  (∀ i, a ≤ i < a + n → l1.[i] = l2.[i]) → seg l1 a n = seg l2 a n.
Proof.
  intros H. unfold seg. apply list_fmap_ext. intros k z Hz.
  apply lookup_seqZ in Hz as [-> ?]. apply H. lia.
Qed.

Lemma seg_app l a n m : 0 ≤ n → 0 ≤ m → seg l a (n + m) = seg l a n ++ seg l (a + n) m.
Proof. intros. unfold seg. by rewrite seqZ_app, fmap_app by lia. Qed.

Lemma seg_cons l a n : 0 < n → seg l a n = l.[a] :: seg l (a + 1) (n - 1).
Proof.
  intros. unfold seg. rewrite seqZ_cons by lia. cbn [fmap list_fmap].
  do 3 f_equal; lia.
Qed.

Lemma seg_nil l a n : n ≤ 0 → seg l a n = [].
Proof. intros. unfold seg. by rewrite seqZ_nil. Qed.

Lemma sorted_in_seg l a n : sorted_in l a (a + n) → StronglySorted Z.le (seg l a n).
Proof.
  destruct (decide (0 ≤ n)) as [Hn|]; [|rewrite seg_nil by lia; constructor].
  revert n Hn a. apply (natlike_ind (fun n => ∀ a, _ → _)).
  - intros a _. rewrite seg_nil by lia. constructor.
  - intros n Hn IH a Hs. rewrite seg_cons by lia. constructor.
    + replace (Z.succ n - 1) with n by lia. apply IH.
      intros i j ???. apply Hs; lia.
    + apply Forall_forall. intros x Hx. unfold seg in Hx.
      apply list_elem_of_fmap in Hx as (k & -> & Hk).
      apply elem_of_seqZ in Hk. apply Hs; lia.
Qed.

Lemma seg_sorted_in l a n : StronglySorted Z.le (seg l a n) → sorted_in l a (a + n).
Proof.
  destruct (decide (0 ≤ n)) as [Hn|]; [|intros _ i j ???; lia].
  revert n Hn a. apply (natlike_ind (fun n => ∀ a, _ → _)); [intros a _ i j ???; lia|].
  intros n Hn IH a Hs i j Hi Hij Hj. rewrite seg_cons in Hs by lia.
  replace (Z.succ n - 1) with n in Hs by lia. apply StronglySorted_inv in Hs as [Hs Hf].
  destruct (Z.eq_dec i a) as [->|]; [|apply (IH (a + 1) Hs); lia].
  destruct (Z.eq_dec j a) as [->|]; [lia|]. rewrite Forall_forall in Hf. apply Hf.
  unfold seg. apply list_elem_of_fmap. exists j. split; [done|]. apply elem_of_seqZ. lia.
Qed.

(** * Sums *)

(** the sum of [f] over a list of indices *)
Definition sum_over {A} (f : A → Z) (l : list A) : Z := foldr (fun x s => f x + s) 0 l.

Lemma sum_over_ext {A} (f g : A → Z) l : (∀ x, x ∈ l → f x = g x) → sum_over f l = sum_over g l.
Proof.
  induction l as [|x l IH]; intros H; [done|]. cbn. rewrite H by left. f_equal. apply IH.
  intros y Hy. apply H. by right.
Qed.
Lemma sum_over_le {A} (f g : A → Z) l : (∀ x, x ∈ l → f x ≤ g x) → sum_over f l ≤ sum_over g l.
Proof.
  induction l as [|x l IH]; intros H; [done|]. cbn. apply Z.add_le_mono; [apply H; left|].
  apply IH. intros y Hy. apply H. by right.
Qed.
Lemma sum_over_const {A} c (l : list A) : sum_over (fun _ => c) l = c * len l.
Proof. induction l as [|x l IH]; cbn [sum_over foldr length] in *; [lia|]. fold (sum_over (fun _ : A => c) l). lia. Qed.
Lemma sum_over_app {A} (f : A → Z) l1 l2 : sum_over f (l1 ++ l2) = sum_over f l1 + sum_over f l2.
Proof. induction l1 as [|x l IH]; cbn; [done|]. unfold sum_over in *. lia. Qed.
Lemma sum_over_nonneg {A} (f : A → Z) l : (∀ x, x ∈ l → 0 ≤ f x) → 0 ≤ sum_over f l.
Proof. intros H. rewrite <- (sum_over_le (fun _ => 0) f l H), sum_over_const. lia. Qed.
(** changing one summand *)
Lemma sum_over_update {A} (f g : A → Z) l a :
  NoDup l → a ∈ l → (∀ x, x ∈ l → x ≠ a → g x = f x) → sum_over g l = sum_over f l + (g a - f a).
Proof.
  induction l as [|x l IH]; intros Hnd Ha He; [by apply elem_of_nil in Ha|].
  apply NoDup_cons in Hnd as [Hx Hnd]. cbn. fold (sum_over f l) (sum_over g l).
  apply elem_of_cons in Ha as [<-|Ha].
  - rewrite (sum_over_ext g f l); [lia|]. intros y Hy. apply He; [by right|]. by intros ->.
  - rewrite IH; [rewrite (He x); [lia|left|by intros ->]|done|done|]. intros y Hy. apply He. by right.
Qed.

(** * Lemmas on filters *)

Lemma filter_none {A} (P : A → Prop) `{∀ x, Decision (P x)} (l : list A) : (∀ x, x ∈ l → ¬ P x) → filter P l = [].
Proof.
  induction l as [|x l IH]; intros Hn; [done|]. rewrite filter_cons_False by (apply Hn; left).
  apply IH. intros y Hy. apply Hn. by right.
Qed.

Lemma filter_all {A} (P : A → Prop) `{∀ x, Decision (P x)} (l : list A) : (∀ x, x ∈ l → P x) → filter P l = l.
Proof.
  induction l as [|x l IH]; intros Hn; [done|]. rewrite filter_cons_True by (apply Hn; left).
  f_equal. apply IH. intros y Hy. apply Hn. by right.
Qed.

Lemma filter_ext_in {A} (P Q : A → Prop) `{∀ x, Decision (P x)} `{∀ x, Decision (Q x)} (l : list A) :
  (∀ x, x ∈ l → P x ↔ Q x) → filter P l = filter Q l.
Proof.
  induction l as [|x l IH]; intros Hn; [done|].
  assert (Hx : P x ↔ Q x) by (apply Hn; left). assert (Hl : filter P l = filter Q l) by (apply IH; intros; apply Hn; by right).
  destruct (decide (P x)); [rewrite !filter_cons_True by tauto|rewrite !filter_cons_False by tauto]; by rewrite Hl.
Qed.

(** two filters that differ on one element *)
Lemma filter_drop_one {A} (l : list A) (P Q : A → Prop) `{∀ x, Decision (P x)} `{∀ x, Decision (Q x)} x :
  NoDup l → x ∈ l → P x → ¬ Q x → (∀ y, y ∈ l → y ≠ x → P y ↔ Q y) → len (filter P l) = len (filter Q l) + 1.
Proof.
  induction l as [|y l IH]; intros Hnd Hx HP HQ Hy; [by apply elem_of_nil in Hx|].
  apply NoDup_cons in Hnd as [Hn' Hnd]. apply elem_of_cons in Hx as [<-|Hx].
  - rewrite filter_cons_True, filter_cons_False by done. cbn [length].
    rewrite (filter_ext_in P Q l); [lia|]. intros z Hz. apply Hy; [by right|]. by intros ->.
  - assert (Hyx : y ≠ x) by (by intros ->). assert (HPQ := Hy y (list_elem_of_here _ _) Hyx).
    assert (IH' : len (filter P l) = len (filter Q l) + 1) by (apply IH; try done; intros; apply Hy; [by right|done]).
    destruct (decide (P y)); [rewrite !filter_cons_True by tauto; cbn [length]; lia|].
    rewrite !filter_cons_False by tauto. lia.
Qed.

(** * Loops *)

(** a loop over the elements of [l] *)
Fixpoint for_each {A S} (f : A → S → result S) (l : list A) (s : S) : result S :=
  match l with [] => Ok s | x :: l => s ← f x s; for_each f l s end.

Lemma for_each_inv {A S} (f : A → S → result S) (P : list A → S → Prop) (l : list A) s :
  P [] s →
  (∀ d x r s, l = d ++ x :: r → P d s → ∃ s', f x s = Ok s' ∧ P (d ++ [x]) s') →
  ∃ s', for_each f l s = Ok s' ∧ P l s'.
Proof.
  intros H0 Hs. cut (∀ r d s, l = d ++ r → P d s → ∃ s', for_each f r s = Ok s' ∧ P l s'); [by intros H; apply (H l [])|].
  clear s H0. induction r as [|x r IH]; intros d s -> Hd; cbn.
  - rewrite app_nil_r. eauto.
  - destruct (Hs d x r s eq_refl Hd) as (s' & -> & Hd'). cbn. apply (IH (d ++ [x])); [|done].
    by rewrite <- app_assoc.
Qed.

(** the same for a body that may abort *)
Lemma for_each_abort {A S} (f : A → S → result S) (P : list A → S → Prop) (l : list A) s :
  P [] s →
  (∀ d x r s, l = d ++ x :: r → P d s → f x s = Err Aborted ∨ ∃ s', f x s = Ok s' ∧ P (d ++ [x]) s') →
  for_each f l s = Err Aborted ∨ ∃ s', for_each f l s = Ok s' ∧ P l s'.
Proof.
  intros H0 Hs. cut (∀ r d s, l = d ++ r → P d s → for_each f r s = Err Aborted ∨ ∃ s', for_each f r s = Ok s' ∧ P l s'); [by intros H; apply (H l [])|].
  clear s H0. induction r as [|x r IH]; intros d s -> Hd; cbn.
  - right. rewrite app_nil_r. eauto.
  - destruct (Hs d x r s eq_refl Hd) as [->|(s' & -> & Hd')]; [by left|]. cbn. apply (IH (d ++ [x])); [|done].
    by rewrite <- app_assoc.
Qed.

Lemma for_each_app {A S} (f : A → S → result S) l1 l2 s :
  for_each f (l1 ++ l2) s = (s ← for_each f l1 s; for_each f l2 s).
Proof. revert s. induction l1 as [|x l1 IH]; intros s; cbn; [done|]. destruct (f x s); cbn; [apply IH|done]. Qed.

Lemma for_each_ext {A S} (f g : A → S → result S) l s : (∀ x s, x ∈ l → f x s = g x s) → for_each f l s = for_each g l s.
Proof.
  revert s. induction l as [|x l IH]; intros s H; cbn; [done|]. rewrite H by left. destruct (g x s); cbn; [|done].
  apply IH. intros y t Hy. apply H. by right.
Qed.

(** the element at an index, checked *)
Definition nth_r {A} (l : list A) (i : Z) : result A :=
  match (if 0 <=? i then l !! Z.to_nat i else None) with Some x => Ok x | None => Err OutOfRange end.

Lemma nth_r_ok {A} (l : list A) i x : nth_r l i = Ok x ↔ 0 ≤ i ∧ l !! Z.to_nat i = Some x.
Proof. unfold nth_r. zcase; [destruct (l !! Z.to_nat i); naive_solver|]. split; [done|lia]. Qed.
Lemma nth_r_in {A} (l : list A) (i : Z) x : 0 ≤ i → l !! Z.to_nat i = Some x → nth_r l i = Ok x.
Proof. intros. by apply nth_r_ok. Qed.

#[export] Hint Resolve sorted_in_seg seg_sorted_in : felis.
#[export] Hint Rewrite len_tab len_insert len_seg using lia : arrays.
#[export] Hint Rewrite at_tab at_insert at_seg using lia : arrays.
