(* ===== verification/LowerBound.v ===== *)
(** Binary searches over version arrays: [std::lower_bound] and
    [std::upper_bound] as the standard library's loops, and the branch-free
    [util::FastLowerBound] of util/lowerbound.h.

    Pointers into an array are indices: a range [start, end) of the code is the
    pair of indices [first, last) into the list of cells. *)

From S2P Require Import Prelude.

(** ** The standard library's searches *)

Fixpoint lower_bound_loop (fuel : nat) (l : list Z) (first n v : Z) : result Z :=
  match fuel with
  | O => Ok first
  | S fuel =>
      if n <=? 0 then Ok first else
      let half := n / 2 in
      let mid := first + half in
      x ← load l mid;
      if x <? v
      then lower_bound_loop fuel l (mid + 1) (n - half - 1) v
      else lower_bound_loop fuel l first half v
  end.

Definition lower_bound (l : list Z) (first last v : Z) : result Z :=
  lower_bound_loop (Z.to_nat (last - first)) l first (last - first) v.

Fixpoint upper_bound_loop (fuel : nat) (l : list Z) (first n v : Z) : result Z :=
  match fuel with
  | O => Ok first
  | S fuel =>
      if n <=? 0 then Ok first else
      let half := n / 2 in
      let mid := first + half in
      x ← load l mid;
      if v <? x
      then upper_bound_loop fuel l first half v
      else upper_bound_loop fuel l (mid + 1) (n - half - 1) v
  end.

Definition upper_bound (l : list Z) (first last v : Z) : result Z :=
  upper_bound_loop (Z.to_nat (last - first)) l first (last - first) v.

(** ** [util::FastLowerBound] *)

(** The [for] loop over [x = n - 1, ..., 0]; [ret] is an [unsigned int]. *)
Fixpoint FastLowerBound_steps (n : nat) (l : list Z) (start maxstep value ret : Z) : result Z :=
  match n with
  | O => Ok ret
  | S x =>
      let stepping := Z.shiftl 1 (Z.of_nat x) in
      if stepping <? maxstep then
        c ← load l (start + (ret + stepping));
        FastLowerBound_steps x l start maxstep value
          (u32 (ret + (if c <=? value then 1 else 0) * stepping))
      else FastLowerBound_steps x l start maxstep value ret
  end.

Definition FastLowerBound (l : list Z) (start end_ value : Z) : result Z :=
  let n := u32 (end_ - start) in
  if n =? 0 then Ok start else
  let maxstep := u32 (Z.shiftl 1 (31 - clz32 n)) in
  c ← (if maxstep <? n then c ← load l (start + maxstep); mret (c <=? value) else mret false);
  ret ← FastLowerBound_steps 12 l start maxstep value ((if (c : bool) then 1 else 0) * (n - maxstep));
  c ← load l (start + ret);
  if c <=? value then Ok (start + ret + 1) else Ok (start + ret).

(** ** Specifications *)

(** [i] splits [a, b) into the cells below [v] and the others *)
Definition lb_point (l : list Z) (a b v i : Z) : Prop :=
  a ≤ i ≤ b ∧ (∀ k, a ≤ k < i → l.[k] < v) ∧ (∀ k, i ≤ k < b → v ≤ l.[k]).

(** [i] splits [a, b) into the cells up to [v] and the others *)
Definition ub_point (l : list Z) (a b v i : Z) : Prop :=
  a ≤ i ≤ b ∧ (∀ k, a ≤ k < i → l.[k] ≤ v) ∧ (∀ k, i ≤ k < b → v < l.[k]).

Lemma lb_point_unique l a b v i j : lb_point l a b v i → lb_point l a b v j → i = j.
Proof.
  intros (Hi & Hi1 & Hi2) (Hj & Hj1 & Hj2).
  destruct (Z.lt_total i j) as [?|[?|?]]; [|done|].
  - specialize (Hj1 i ltac:(lia)). specialize (Hi2 i ltac:(lia)). lia.
  - specialize (Hi1 j ltac:(lia)). specialize (Hj2 j ltac:(lia)). lia.
Qed.

Lemma lower_bound_loop_spec fuel : ∀ l first n v,
  0 ≤ first → 0 ≤ n ≤ Z.of_nat fuel → first + n ≤ len l →
  sorted_in l first (first + n) →
  ∃ i, lower_bound_loop fuel l first n v = Ok i ∧ lb_point l first (first + n) v i.
Proof.
  induction fuel as [|fuel IH]; intros l first n v Hf Hn Hl Hs; cbn.
  { exists first. split; [done|]. split_and!; intros; lia. }
  destruct (Z.leb_spec n 0).
  { exists first. split; [done|]. split_and!; intros; lia. }
  assert (Hh : 0 ≤ n / 2 < n) by (split; [apply Z.div_pos|apply Z.div_lt]; lia).
  rewrite load_in by lia. cbn.
  destruct (Z.ltb_spec (l.[first + n / 2]) v).
  - destruct (IH l (first + n / 2 + 1) (n - n / 2 - 1) v) as (i & Hi & Hb & H1 & H2); [lia..| |].
    { intros ?????. apply Hs; lia. }
    exists i. split; [done|]. split_and!; [lia|lia| |].
    + intros k Hk. destruct (decide (k ≤ first + n / 2)); [|apply H1; lia].
      assert (l.[k] ≤ l.[first + n / 2]) by (apply Hs; lia). lia.
    + intros k Hk. apply H2. lia.
  - destruct (IH l first (n / 2) v) as (i & Hi & Hb & H1 & H2); [lia..| |].
    { intros ?????. apply Hs; lia. }
    exists i. split; [done|]. split_and!; [lia|lia|done|].
    intros k Hk. destruct (decide (k < first + n / 2)); [apply H2; lia|].
    assert (l.[first + n / 2] ≤ l.[k]) by (apply Hs; lia). lia.
Qed.

Lemma lower_bound_spec l a b v :
  0 ≤ a ≤ b → b ≤ len l → sorted_in l a b →
  ∃ i, lower_bound l a b v = Ok i ∧ lb_point l a b v i.
Proof.
  intros. unfold lower_bound.
  destruct (lower_bound_loop_spec (Z.to_nat (b - a)) l a (b - a) v) as (i & ? & ?);
    replace (a + (b - a)) with b in * by lia; [lia..|done|eauto].
Qed.

Lemma upper_bound_loop_spec fuel : ∀ l first n v,
  0 ≤ first → 0 ≤ n ≤ Z.of_nat fuel → first + n ≤ len l →
  sorted_in l first (first + n) →
  ∃ i, upper_bound_loop fuel l first n v = Ok i ∧ ub_point l first (first + n) v i.
Proof.
  induction fuel as [|fuel IH]; intros l first n v Hf Hn Hl Hs; cbn.
  { exists first. split; [done|]. split_and!; intros; lia. }
  destruct (Z.leb_spec n 0).
  { exists first. split; [done|]. split_and!; intros; lia. }
  assert (Hh : 0 ≤ n / 2 < n) by (split; [apply Z.div_pos|apply Z.div_lt]; lia).
  rewrite load_in by lia. cbn.
  destruct (Z.ltb_spec v (l.[first + n / 2])).
  - destruct (IH l first (n / 2) v) as (i & Hi & Hb & H1 & H2); [lia..| |].
    { intros ?????. apply Hs; lia. }
    exists i. split; [done|]. split_and!; [lia|lia|done|].
    intros k Hk. destruct (decide (k < first + n / 2)); [apply H2; lia|].
    assert (l.[first + n / 2] ≤ l.[k]) by (apply Hs; lia). lia.
  - destruct (IH l (first + n / 2 + 1) (n - n / 2 - 1) v) as (i & Hi & Hb & H1 & H2); [lia..| |].
    { intros ?????. apply Hs; lia. }
    exists i. split; [done|]. split_and!; [lia|lia| |].
    + intros k Hk. destruct (decide (k ≤ first + n / 2)); [|apply H1; lia].
      assert (l.[k] ≤ l.[first + n / 2]) by (apply Hs; lia). lia.
    + intros k Hk. apply H2. lia.
Qed.

Lemma upper_bound_spec l a b v :
  0 ≤ a ≤ b → b ≤ len l → sorted_in l a b →
  ∃ i, upper_bound l a b v = Ok i ∧ ub_point l a b v i.
Proof.
  intros. unfold upper_bound.
  destruct (upper_bound_loop_spec (Z.to_nat (b - a)) l a (b - a) v) as (i & ? & ?);
    replace (a + (b - a)) with b in * by lia; [lia..|done|eauto].
Qed.

(** ** Correctness of the branch-free search *)

Section FastLowerBound.
Context (l : list Z) (start n value : Z).
Context (Hstart : 0 ≤ start) (Hn : 0 < n < 2 ^ 13) (Hlen : start + n ≤ len l).
Context (Hsorted : sorted_in l start (start + n)).

(** the window [ret, ret + w] of possible answers, relative to [start] *)
Definition flb_window (w ret : Z) : Prop :=
  0 ≤ ret ∧ 0 < w ∧ ret + w ≤ n ∧
  (0 < ret → l.[start + ret] ≤ value) ∧
  (∀ k, ret + w ≤ k < n → value < l.[start + k]).

Lemma flb_window_step s ret :
  flb_window (2 * s) ret →
  flb_window s (ret + (if l.[start + (ret + s)] <=? value then 1 else 0) * s).
Proof using Hsorted Hn.
  intros (? & ? & ? & Hr & Ha).
  destruct (Z.leb_spec (l.[start + (ret + s)]) value).
  - split_and!; [lia..| |]; intros.
    + by replace (start + (ret + 1 * s)) with (start + (ret + s)) by lia.
    + apply Ha. lia.
  - split_and!; [lia..| |].
    + intros ?. replace (ret + 0 * s) with ret by lia. apply Hr. lia.
    + intros k Hk. assert (l.[start + (ret + s)] ≤ l.[start + k]) by (apply Hsorted; lia).
      lia.
Qed.

(** the loop halves the window down to one candidate *)
Lemma FastLowerBound_steps_spec q : ∀ (x : nat) ret,
  0 ≤ q → flb_window (2 ^ Z.min q (Z.of_nat x)) ret →
  ∃ r, FastLowerBound_steps x l start (2 ^ q) value ret = Ok r ∧ flb_window 1 r.
Proof using Hsorted Hn Hstart Hlen.
  induction x as [|x IH]; intros ret Hq Hw.
  { exists ret. split; [done|]. by rewrite Z.min_r in Hw by lia. }
  cbn [FastLowerBound_steps]. rewrite Z.shiftl_1_l.
  destruct (Z.ltb_spec (2 ^ Z.of_nat x) (2 ^ q)) as [Hlt|Hge].
  - apply Z.pow_lt_mono_r_iff in Hlt; [|lia..].
    rewrite Z.min_r in Hw by lia.
    replace (Z.of_nat (S x)) with (Z.succ (Z.of_nat x)) in Hw by lia.
    rewrite Z.pow_succ_r in Hw by lia.
    assert (0 < 2 ^ Z.of_nat x) by (apply Z.pow_pos_nonneg; lia).
    pose proof Hw as (? & ? & ? & _). rewrite load_in by lia. cbn.
    apply flb_window_step in Hw. pose proof Hw as (? & ? & ? & _).
    rewrite u32_id by lia. apply IH; [done|]. by rewrite Z.min_r by lia.
  - apply Z.pow_le_mono_r_iff in Hge; [|lia..]. apply IH; [done|].
    rewrite Z.min_l in Hw |- * by lia. done.
Qed.

Lemma flb_window_init q :
  0 ≤ q → 2 ^ q ≤ n < 2 * 2 ^ q →
  flb_window (2 ^ q)
    ((if (2 ^ q <? n) && (l.[start + 2 ^ q] <=? value) then 1 else 0) * (n - 2 ^ q)).
Proof using Hsorted Hn.
  intros Hq Hm. assert (0 < 2 ^ q) by (apply Z.pow_pos_nonneg; lia).
  destruct (Z.ltb_spec (2 ^ q) n); cbn [andb];
    [destruct (Z.leb_spec (l.[start + 2 ^ q]) value)|].
  - split_and!; [lia..| |intros; lia].
    intros. assert (l.[start + 1 * (n - 2 ^ q)] ≤ l.[start + 2 ^ q]) by (apply Hsorted; lia). lia.
  - split_and!; [lia..|]. intros k Hk.
    assert (l.[start + 2 ^ q] ≤ l.[start + k]) by (apply Hsorted; lia). lia.
  - split_and!; [lia..|]. intros; lia.
Qed.

(** [FastLowerBound] reads inside the range and finds the upper-bound point *)
Lemma FastLowerBound_ub :
  ∃ i, FastLowerBound l start (start + n) value = Ok i ∧
       ub_point l start (start + n) value i.
Proof using Hsorted Hn Hstart Hlen.
  unfold FastLowerBound. replace (start + n - start) with n by lia.
  rewrite u32_id by lia. destruct (Z.eqb_spec n 0); [lia|].
  unfold clz32. replace (31 - (31 - Z.log2 n)) with (Z.log2 n) by lia.
  set (q := Z.log2 n). rewrite Z.shiftl_1_l.
  pose proof (Z.log2_spec n ltac:(lia)) as Hq. pose proof (Z.log2_nonneg n).
  fold q in Hq, H. rewrite Z.pow_succ_r in Hq by lia.
  assert (q ≤ 12) by (enough (q < 13) by lia; apply (Z.pow_lt_mono_r_iff 2); lia).
  rewrite u32_id by lia.
  pose proof (flb_window_init q H ltac:(lia)) as Hw.
  destruct (FastLowerBound_steps_spec q 12
    ((if (2 ^ q <? n) && (l.[start + 2 ^ q] <=? value) then 1 else 0) * (n - 2 ^ q)))
    as (r & Hr & Hwr); [done|by rewrite Z.min_l by lia|].
  assert (Hc : (if 2 ^ q <? n then c ← load l (start + 2 ^ q); mret (c <=? value) else mret false)
          = Ok ((2 ^ q <? n) && (l.[start + 2 ^ q] <=? value))).
  { destruct (Z.ltb_spec (2 ^ q) n); [|done]. by rewrite load_in by lia. }
  rewrite Hc. cbn [mbind result_bind]. rewrite Hr. cbn [mbind result_bind].
  destruct Hwr as (? & _ & ? & Hr1 & Hr2). rewrite load_in by lia. cbn [mbind result_bind].
  destruct (Z.leb_spec (l.[start + r]) value).
  - eexists. split; [done|]. split_and!; [lia..| |].
    + intros k Hk. assert (l.[k] ≤ l.[start + r]) by (apply Hsorted; lia). lia.
    + intros k Hk. replace k with (start + (k - start)) by lia. apply Hr2. lia.
  - assert (r = 0) as -> by (destruct (Z.eq_dec r 0); [done|]; specialize (Hr1 ltac:(lia)); lia).
    eexists. split; [done|]. split_and!; [lia..| |].
    + intros k Hk. lia.
    + intros k Hk. assert (l.[start + 0] ≤ l.[k]) by (apply Hsorted; lia). lia.
Qed.
End FastLowerBound.
