(* ===== verification/Bits.v ===== *)
(** Bit-scan and population-count builtins on 64-bit words:
    what [ctz], [ffs] and [popcount] compute, in terms of [Z.testbit]. *)

From S2P Require Import Prelude.

(** number of set bits among bits [0, n) *)
Fixpoint bitsum (n : nat) (x : Z) : Z :=
  match n with
  | O => 0
  | S n => bitsum n x + Z.b2z (Z.testbit x (Z.of_nat n))
  end.

Lemma ctz_testbit x : 0 < x → Z.testbit x (ctz x) = true ∧ 0 ≤ ctz x.
Proof.
  destruct x as [|p|p]; [lia| |lia]. intros _. cbn [ctz].
  induction p as [p IH|p IH|]; cbn [pos_ctz]; [done| |done].
  destruct IH as [IH ?]. split; [|lia].
  replace (Z.pos p~0) with (2 * Z.pos p) by lia.
  replace (1 + pos_ctz p) with (Z.succ (pos_ctz p)) by lia.
  rewrite Z.testbit_even_succ by lia. done.
Qed.

Lemma ctz_below x i : 0 < x → 0 ≤ i < ctz x → Z.testbit x i = false.
Proof.
  destruct x as [|p|p]; [lia| |lia]. intros _. cbn [ctz].
  revert i. induction p as [p IH|p IH|]; cbn [pos_ctz]; intros i Hi; [lia| |lia].
  replace (Z.pos p~0) with (2 * Z.pos p) by lia.
  destruct (Z.eq_dec i 0) as [->|]; [apply Z.testbit_even_0|].
  replace i with (Z.succ (i - 1)) by lia. rewrite Z.testbit_even_succ by lia.
  apply IH. lia.
Qed.

Lemma ctz_bound x n : 0 < x < 2 ^ n → 0 ≤ ctz x < n.
Proof.
  intros [H0 Hn]. pose proof (ctz_testbit x H0) as [Ht Hp]. split; [done|].
  destruct (Z.lt_ge_cases (ctz x) n); [done|].
  assert (x < 2 ^ ctz x).
  { eapply Z.lt_le_trans; [apply Hn|]. apply Z.pow_le_mono_r; lia. }
  rewrite Z.bits_above_log2 in Ht; [done|lia|]. apply Z.log2_lt_pow2; lia.
Qed.

Lemma ffs_ctz x : 0 < x → ffs x = 1 + ctz x.
Proof. by destruct x. Qed.

Lemma bitsum_even n x : bitsum (S n) (2 * x) = bitsum n x.
Proof.
  induction n as [|n IH].
  { cbn [bitsum]. by rewrite Z.testbit_even_0. }
  change (bitsum (S (S n)) (2 * x)) with
    (bitsum (S n) (2 * x) + Z.b2z (Z.testbit (2 * x) (Z.of_nat (S n)))).
  rewrite IH. cbn [bitsum]. replace (Z.of_nat (S n)) with (Z.succ (Z.of_nat n)) by lia.
  by rewrite Z.testbit_even_succ by lia.
Qed.

Lemma bitsum_odd n x : bitsum (S n) (2 * x + 1) = 1 + bitsum n x.
Proof.
  induction n as [|n IH].
  { cbn [bitsum]. by rewrite Z.testbit_odd_0. }
  change (bitsum (S (S n)) (2 * x + 1)) with
    (bitsum (S n) (2 * x + 1) + Z.b2z (Z.testbit (2 * x + 1) (Z.of_nat (S n)))).
  rewrite IH. cbn [bitsum]. replace (Z.of_nat (S n)) with (Z.succ (Z.of_nat n)) by lia.
  rewrite Z.testbit_odd_succ by lia. lia.
Qed.

Lemma bitsum_0 n : bitsum n 0 = 0.
Proof. induction n as [|n IH]; cbn [bitsum]; [done|]. rewrite IH, Z.bits_0. done. Qed.

(** [popcount] counts the set bits *)
Lemma popcount_bitsum n x : 0 ≤ x < 2 ^ Z.of_nat n → popcount x = bitsum n x.
Proof.
  intros [H0 Hn]. destruct x as [|p|p]; [by rewrite bitsum_0| |lia]. cbn [popcount].
  clear H0. revert n Hn. induction p as [p IH|p IH|]; intros n Hn; cbn [pos_popcount].
  - destruct n as [|n]; [cbn in Hn; lia|].
    replace (Z.pos p~1) with (2 * Z.pos p + 1) in * by lia.
    rewrite bitsum_odd, (IH n); [lia|].
    rewrite Nat2Z.inj_succ, Z.pow_succ_r in Hn by lia. lia.
  - destruct n as [|n]; [cbn in Hn; lia|].
    replace (Z.pos p~0) with (2 * Z.pos p) in * by lia.
    rewrite bitsum_even. apply IH.
    rewrite Nat2Z.inj_succ, Z.pow_succ_r in Hn by lia. lia.
  - destruct n as [|n]; [cbn in Hn; lia|].
    change 1 with (2 * 0 + 1) at 2. by rewrite bitsum_odd, bitsum_0.
Qed.

Lemma bitsum_ext n x y :
  (∀ i, 0 ≤ i < Z.of_nat n → Z.testbit x i = Z.testbit y i) → bitsum n x = bitsum n y.
Proof.
  induction n as [|n IH]; intros H; cbn [bitsum]; [done|].
  rewrite IH, (H (Z.of_nat n)); [done|lia|]. intros. apply H. lia.
Qed.

(** changing one bit changes the sum by that bit *)
Lemma bitsum_change n x y i :
  0 ≤ i < Z.of_nat n →
  (∀ j, 0 ≤ j → j ≠ i → Z.testbit y j = Z.testbit x j) →
  bitsum n y = bitsum n x - Z.b2z (Z.testbit x i) + Z.b2z (Z.testbit y i).
Proof.
  intros Hi Hj. induction n as [|n IH]; cbn [bitsum]; [lia|].
  destruct (Z.eq_dec i (Z.of_nat n)) as [->|].
  - rewrite (bitsum_ext n y x); [lia|]. intros. apply Hj; lia.
  - rewrite IH by lia. rewrite (Hj (Z.of_nat n)); lia.
Qed.

Lemma bitsum_bounds n x : 0 ≤ bitsum n x ≤ Z.of_nat n.
Proof.
  induction n as [|n IH]; cbn [bitsum]; [lia|].
  destruct (Z.testbit x (Z.of_nat n)); cbn [Z.b2z]; lia.
Qed.

(** a clear bit exists unless every bit is set *)
Lemma bitsum_full n x :
  bitsum n x = Z.of_nat n ↔ ∀ i, 0 ≤ i < Z.of_nat n → Z.testbit x i = true.
Proof.
  induction n as [|n IH]; cbn [bitsum]; [split; [lia|done]|].
  pose proof (bitsum_bounds n x).
  destruct (Z.testbit x (Z.of_nat n)) eqn:E; cbn [Z.b2z]; split.
  - intros H1 i Hi. destruct (Z.eq_dec i (Z.of_nat n)) as [->|]; [done|].
    apply IH; lia.
  - intros H1. assert (bitsum n x = Z.of_nat n) by (apply IH; intros; apply H1; lia). lia.
  - lia.
  - intros H1. specialize (H1 (Z.of_nat n) ltac:(lia)). congruence.
Qed.

Lemma bitsum_zero n x :
  bitsum n x = 0 ↔ ∀ i, 0 ≤ i < Z.of_nat n → Z.testbit x i = false.
Proof.
  induction n as [|n IH]; cbn [bitsum]; [split; [lia|done]|].
  pose proof (bitsum_bounds n x).
  destruct (Z.testbit x (Z.of_nat n)) eqn:E; cbn [Z.b2z]; split.
  - lia.
  - intros H1. specialize (H1 (Z.of_nat n) ltac:(lia)). congruence.
  - intros H1 i Hi. destruct (Z.eq_dec i (Z.of_nat n)) as [->|]; [done|]. apply IH; lia.
  - intros H1. assert (bitsum n x = 0) by (apply IH; intros; apply H1; lia). lia.
Qed.

(** a word below [2 ^ n] has no bit from [n] on *)
Lemma testbit_high x n j : 0 ≤ x < 2 ^ n → 0 ≤ n ≤ j → Z.testbit x j = false.
Proof.
  intros Hx Hj. destruct (Z.eq_dec x 0) as [->|]; [apply Z.bits_0|].
  apply Z.bits_above_log2; [lia|]. eapply Z.lt_le_trans; [|apply Hj].
  apply Z.log2_lt_pow2; lia.
Qed.

(** the one-bit masks of the code: [1ULL << i] set and cleared in a word *)
Lemma testbit_set x i j :
  0 ≤ i → 0 ≤ j → Z.testbit (Z.lor x (Z.shiftl 1 i)) j = Z.testbit x j || (j =? i).
Proof.
  intros. rewrite Z.lor_spec, Z.shiftl_1_l, Z.pow2_bits_eqb by lia.
  f_equal. zcase; lia.
Qed.

Lemma u64_bits x j : 0 ≤ j → Z.testbit (u64 x) j = (j <? 64) && Z.testbit x j.
Proof.
  intros. unfold u64. zcase.
  - apply Z.mod_pow2_bits_low. lia.
  - apply Z.mod_pow2_bits_high. lia.
Qed.

Lemma testbit_clear x i j :
  0 ≤ i → 0 ≤ j < 64 →
  Z.testbit (Z.land x (u64 (Z.lnot (Z.shiftl 1 i)))) j = Z.testbit x j && negb (j =? i).
Proof.
  intros. rewrite Z.land_spec, u64_bits by lia.
  replace (j <? 64) with true by (symmetry; zcase; lia). cbn [andb].
  rewrite Z.lnot_spec, Z.shiftl_1_l, Z.pow2_bits_eqb by lia.
  f_equal. f_equal. zcase; lia.
Qed.

Lemma lor_range x i n : 0 ≤ x < 2 ^ n → 0 ≤ i < n → 0 ≤ Z.lor x (Z.shiftl 1 i) < 2 ^ n.
Proof.
  intros. split.
  - apply Z.lor_nonneg. split; [lia|]. rewrite Z.shiftl_1_l. apply Z.pow_nonneg. lia.
  - rewrite Z.shiftl_1_l. destruct (Z.eq_dec x 0) as [->|].
    { rewrite Z.lor_0_l. apply Z.pow_lt_mono_r; lia. }
    pose proof (Z.pow_pos_nonneg 2 i ltac:(lia) ltac:(lia)).
    assert (0 < Z.lor x (2 ^ i)).
    { assert (0 ≤ Z.lor x (2 ^ i)) by (apply Z.lor_nonneg; lia).
      destruct (Z.eq_dec (Z.lor x (2 ^ i)) 0) as [E|]; [|lia].
      apply Z.lor_eq_0_iff in E. lia. }
    apply Z.log2_lt_pow2; [done|]. rewrite Z.log2_lor by lia.
    apply Z.max_lub_lt; [apply Z.log2_lt_pow2; lia|]. rewrite Z.log2_pow2; lia.
Qed.

Lemma land_range x y n : 0 ≤ x < 2 ^ n → 0 ≤ y → 0 ≤ n → 0 ≤ Z.land x y < 2 ^ n.
Proof.
  intros Hx Hy Hn. assert (0 ≤ Z.land x y) by (apply Z.land_nonneg; lia).
  split; [done|]. destruct (Z.eq_dec (Z.land x y) 0) as [->|]; [lia|].
  destruct (Z.eq_dec x 0) as [->|]; [rewrite Z.land_0_l in *; lia|].
  apply Z.log2_lt_pow2; [lia|].
  destruct (Z.eq_dec y 0) as [->|]; [rewrite Z.land_0_r in *; lia|].
  eapply Z.le_lt_trans; [apply Z.log2_land; lia|].
  apply Z.min_lt_iff. left. apply Z.log2_lt_pow2; lia.
Qed.

Lemma lor_range_both x y n : 0 ≤ x < 2 ^ n → 0 ≤ y < 2 ^ n → 0 ≤ n → 0 ≤ Z.lor x y < 2 ^ n.
Proof.
  intros Hx Hy Hn. assert (E : Z.lor x y = Z.lor x y mod 2 ^ n).
  { apply Z.bits_inj'. intros j Hj. destruct (Z.lt_ge_cases j n).
    - by rewrite Z.mod_pow2_bits_low by lia.
    - rewrite Z.mod_pow2_bits_high, Z.lor_spec, !(testbit_high _ n) by lia. done. }
  rewrite E. apply Z.mod_pos_bound. lia.
Qed.

(** ** The set bits of a word, in ascending order *)

Fixpoint pos_bits (p : positive) : list Z :=
  match p with
  | xH => [0]
  | xO q => Z.succ <$> pos_bits q
  | xI q => 0 :: (Z.succ <$> pos_bits q)
  end.
Definition bits (x : Z) : list Z := match x with Zpos p => pos_bits p | _ => [] end.

Lemma popcount_bits x : popcount x = len (bits x).
Proof.
  destruct x as [|p|p]; [done| |done]. cbn. induction p as [p IH|p IH|]; cbn; rewrite ?length_fmap; lia.
Qed.

Lemma elem_of_bits x i : 0 ≤ x → i ∈ bits x ↔ 0 ≤ i ∧ Z.testbit x i = true.
Proof.
  destruct x as [|p|p]; [intros _; rewrite Z.testbit_0_l; cbn; split; [intros []%elem_of_nil|naive_solver]| |lia].
  intros _. cbn [bits]. revert i. induction p as [p IH|p IH|]; intros i; cbn [pos_bits].
  - rewrite elem_of_cons, list_elem_of_fmap. change (Z.pos p~1) with (2 * Z.pos p + 1). split.
    + intros [->|(j & -> & [? Hj]%IH)]; [by rewrite Z.testbit_odd_0|].
      split; [lia|]. by rewrite Z.testbit_odd_succ by lia.
    + intros [Hi Ht]. destruct (Z.eq_dec i 0) as [->|]; [by left|right]. exists (i - 1). split; [lia|].
      apply IH. split; [lia|]. rewrite <- Z.testbit_odd_succ by lia. by replace (Z.succ (i - 1)) with i by lia.
  - rewrite list_elem_of_fmap. change (Z.pos p~0) with (2 * Z.pos p). split.
    + intros (j & -> & [? Hj]%IH). split; [lia|]. by rewrite Z.testbit_even_succ by lia.
    + intros [Hi Ht]. destruct (Z.eq_dec i 0) as [->|]; [by rewrite Z.testbit_even_0 in Ht|].
      exists (i - 1). split; [lia|]. apply IH. split; [lia|].
      rewrite <- Z.testbit_even_succ by lia. by replace (Z.succ (i - 1)) with i by lia.
  - rewrite list_elem_of_singleton. split; [intros ->; done|]. intros [Hi Ht].
    destruct (Z.eq_dec i 0); [done|]. rewrite (Z.bits_above_log2 1 i) in Ht; cbn; [done|lia|lia].
Qed.

(** the first set bit is found by [ctz], the others behind it *)
Lemma bits_ctz x :
  0 < x → bits x = ctz x :: (Z.add (ctz x + 1) <$> bits (Z.shiftr x (ctz x + 1))).
Proof.
  destruct x as [|p|p]; [lia| |lia]. intros _. cbn [bits ctz].
  induction p as [p IH|p IH|]; cbn [pos_bits pos_ctz]; [| |done].
  { f_equal. change (bits (Z.shiftr (Z.pos p~1) (0 + 1))) with (pos_bits p).
    apply list_fmap_ext. intros ? y _. lia. }
  rewrite IH. cbn [fmap list_fmap]. f_equal; [lia|]. rewrite <- list_fmap_compose.
  replace (Z.shiftr (Z.pos p~0) (1 + pos_ctz p + 1)) with (Z.shiftr (Z.pos p) (pos_ctz p + 1)).
  + apply list_fmap_ext. intros ? y _. cbn. lia.
  + pose proof (ctz_testbit (Zpos p) ltac:(lia)) as [_ Hc]. cbn in Hc.
    replace (1 + pos_ctz p + 1) with (1 + (pos_ctz p + 1)) by lia. by rewrite <- (Z.shiftr_shiftr _ 1) by lia.
Qed.
