(* ===== verification/GarbageSlab.v ===== *)
(** The registry of rows that hold garbage versions (gc.cc): blocks of row
    slots, one slab per core with a free queue and, for each epoch residue,
    a half-full and a full queue; [GC::AddRow] and [GC::RemoveRow].

    A queue of the code is a circular [GenericListNode] list: here the list of
    the block addresses from [head.next] on, so that [InsertAfter(&head)]
    conses and [head.next] is the first element (LinkList.v justifies this). *)

From S2P Require Import Prelude Bits.

(** ** Data *)

Definition kBlockSize : Z := 512.
(** [kBlockSize / 8 - 4] *)
Definition kMaxNrRows : Z := kBlockSize / 8 - 4.
Definition kNrQueue : Z := 200.
(** [sizeof(util::GenericListNode<GarbageBlock>)], the offset of [rows] *)
Definition kListNodeSize : Z := 16.

Record GarbageBlock := mkBlock {
  rows : list Z;          (* kMaxNrRows row pointers, 0 is nullptr *)
  alloc_core : Z;
  q_idx : Z;
  bitmap : Z;             (* uint64_t *)
}.

(** the queues of all slabs: [g_slabs[c]->free], [->half[q]], [->full[q]] *)
Inductive QueueId := QFree (core : Z) | QHalf (core q : Z) | QFull (core q : Z).

#[export] Instance QueueId_eq_dec : EqDecision QueueId.
Proof. solve_decision. Defined.

Record GC := mkGC {
  queues : QueueId → list Z;
  blocks : gmap Z GarbageBlock;
  g_gc_every_epoch : Z;
}.

Definition set_queue (g : GC) (p : QueueId) (l : list Z) : GC :=
  mkGC (<[p := l]> (queues g)) (blocks g) (g_gc_every_epoch g).
Definition set_block (g : GC) (b : Z) (blk : GarbageBlock) : GC :=
  mkGC (queues g) (<[b := blk]> (blocks g)) (g_gc_every_epoch g).

Definition get_block (g : GC) (b : Z) : result GarbageBlock :=
  match blocks g !! b with Some blk => Ok blk | None => Err OutOfRange end.

(** [blk->InsertAfter(&queue)] *)
Definition push_front (g : GC) (p : QueueId) (b : Z) : GC := set_queue g p (b :: queues g p).

(** [blk->Remove()]: unlinks the block from the queue of the slab it is in *)
Definition unlink (g : GC) (core q b : Z) : GC :=
  let del := filter (fun x => x ≠ b) in
  let g := set_queue g (QFree core) (del (queues g (QFree core))) in
  let g := set_queue g (QHalf core q) (del (queues g (QHalf core q))) in
  set_queue g (QFull core q) (del (queues g (QFull core q))).

(** the address of [blk->rows[idx]] *)
Definition slot_addr (b idx : Z) : Z := b + kListNodeSize + 8 * idx.

(** [blk->rows[idx] = row] with the new bitmap *)
Definition write_slot (g : GC) (b idx row bm : Z) : result GC :=
  blk ← get_block g b;
  rs ← store (rows blk) idx row;
  mret (set_block g b (mkBlock rs (alloc_core blk) (q_idx blk) bm)).

(** ** Operations *)

(** [GarbageBlockSlab::Add] of the slab of [core] *)
Definition slab_Add (g : GC) (core row q : Z) : result (GC * Z) :=
  match queues g (QHalf core q) with
  | b :: _ =>
      blk ← get_block g b;
      let idx := ffs (u64 (Z.lnot (bitmap blk))) - 1 in
      _ ← abort_if ((idx <? 0) || (kBlockSize <=? idx));
      let bm := Z.lor (bitmap blk) (Z.shiftl 1 idx) in
      let g := if popcount bm =? kMaxNrRows - 1
               then push_front (unlink g core q b) (QFull core q) b else g in
      g ← write_slot g b idx row bm;
      mret (g, slot_addr b idx)
  | [] =>
      match queues g (QFree core) with
      | [] => Err Aborted  (* "no more blocks!" *)
      | b :: rest =>
          blk ← get_block g b;
          let g := push_front (set_queue g (QFree core) rest) (QHalf core q) b in
          let g := set_block g b (mkBlock (rows blk) core q (bitmap blk)) in
          g ← write_slot g b 0 row 1;
          mret (g, slot_addr b 0)
      end
  end.

(** [GarbageBlockSlab::Remove] *)
Definition slab_Remove (g : GC) (core b idx : Z) : result GC :=
  blk ← get_block g b;
  let q := q_idx blk in
  let g := if popcount (bitmap blk) =? kMaxNrRows
           then push_front (unlink g core q b) (QHalf core q) b
           else if popcount (bitmap blk) =? 1
           then push_front (unlink g core q b) (QFree core) b
           else g in
  write_slot g b idx 0 (Z.land (bitmap blk) (u64 (Z.lnot (Z.shiftl 1 idx)))).

(** [GC::AddRow]; [core] is [CurrentThreadPoolId() - 1] *)
Definition AddRow (g : GC) (core row epoch_nr : Z) : result (GC * Z) :=
  _ ← abort_if (epoch_nr =? 0);
  slab_Add g core row (epoch_nr mod g_gc_every_epoch g).

(** [GC::RemoveRow]: the block and the slot are computed from the handle *)
Definition RemoveRow (g : GC) (gc_handle : Z) : result GC :=
  let base := kBlockSize * (gc_handle / kBlockSize) in
  let idx := (gc_handle - base - kListNodeSize) / 8 in
  blk ← get_block g base;
  slab_Remove g (alloc_core blk) base idx.

(** ** The registry as a map from live slots to rows *)

Definition live (g : GC) (b i : Z) : option Z :=
  blk ← blocks g !! b;
  if Z.testbit (bitmap blk) i then rows blk !! Z.to_nat i else None.

(** a block's state, given the queue it is linked in *)
Definition block_ok (p : option QueueId) (b : Z) (blk : GarbageBlock) : Prop :=
  0 < b ∧ b mod kBlockSize = 0 ∧ len (rows blk) = kMaxNrRows ∧
  0 ≤ bitmap blk < 2 ^ kMaxNrRows ∧
  match p with
  | Some (QFree _) => bitmap blk = 0
  | Some (QHalf c q) => 1 ≤ popcount (bitmap blk) ≤ kMaxNrRows - 2 ∧ alloc_core blk = c ∧ q_idx blk = q
  | Some (QFull c q) => 1 ≤ popcount (bitmap blk) ≤ kMaxNrRows - 1 ∧ alloc_core blk = c ∧ q_idx blk = q
  | None => True
  end.

(** every block is linked in at most one queue and its bitmap fits the queue *)
Definition gc_wf_at (loc : Z → option QueueId) (g : GC) : Prop :=
  (∀ p b, b ∈ queues g p ↔ loc b = Some p) ∧ (∀ p, NoDup (queues g p)) ∧
  (∀ b p, loc b = Some p → is_Some (blocks g !! b)) ∧
  (∀ b blk, blocks g !! b = Some blk → block_ok (loc b) b blk).
Definition gc_wf (g : GC) : Prop := ∃ loc, gc_wf_at loc g.

(** the block is in some queue *)
Definition linked (g : GC) (b : Z) : Prop := ∃ p, b ∈ queues g p.

(** [handle] is the slot of a linked block and holds [row] *)
Definition registered (g : GC) (handle row : Z) : Prop :=
  ∃ b i, handle = slot_addr b i ∧ linked g b ∧ 0 ≤ i < kMaxNrRows ∧ live g b i = Some row.

(** ** Lemmas *)

Lemma kMaxNrRows_60 : kMaxNrRows = 60. Proof. reflexivity. Qed.

Lemma slot_decode b idx :
  b mod kBlockSize = 0 → 0 ≤ idx < kMaxNrRows →
  kBlockSize * (slot_addr b idx / kBlockSize) = b ∧
  (slot_addr b idx - b - kListNodeSize) / 8 = idx.
Proof.
  rewrite kMaxNrRows_60. unfold slot_addr, kBlockSize, kListNodeSize. intros Hb Hi.
  pose proof (Z.div_mod b 512 ltac:(lia)). split.
  - replace (b + 16 + 8 * idx) with (16 + 8 * idx + b / 512 * 512) by lia.
    rewrite Z.div_add, Z.div_small by lia. lia.
  - replace (b + 16 + 8 * idx - b - 16) with (idx * 8) by lia. by rewrite Z.div_mul by lia.
Qed.

(** the slot that [Add] picks is the lowest clear bit of the block *)
Lemma free_slot bm :
  0 ≤ bm < 2 ^ kMaxNrRows → popcount bm < kMaxNrRows →
  let idx := ffs (u64 (Z.lnot bm)) - 1 in
  0 ≤ idx < kMaxNrRows ∧ Z.testbit bm idx = false.
Proof.
  rewrite kMaxNrRows_60. intros Hb Hp idx.
  assert (Hz : ∀ i, 0 ≤ i < 64 → Z.testbit (u64 (Z.lnot bm)) i = negb (Z.testbit bm i)).
  { intros i Hi. rewrite u64_bits, Z.lnot_spec by lia.
    replace (i <? 64) with true by (symmetry; zcase; lia). done. }
  assert (Hex : ∃ i, 0 ≤ i < 60 ∧ Z.testbit bm i = false).
  { destruct (decide (Exists (fun i => Z.testbit bm i = false) (seqZ 0 60))) as [He|He].
    - apply Exists_exists in He as (i & Hi & ?). apply elem_of_seqZ in Hi. exists i. split; [lia|done].
    - exfalso. rewrite (popcount_bitsum 60) in Hp by lia.
      assert (bitsum 60 bm = 60); [|lia]. apply (bitsum_full 60). intros i Hi.
      destruct (Z.testbit bm i) eqn:E; [done|]. destruct He. apply Exists_exists.
      exists i. split; [apply elem_of_seqZ; lia|done]. }
  destruct Hex as (i & Hi & Hbi).
  assert (Hpos : 0 < u64 (Z.lnot bm)).
  { pose proof (u64_range (Z.lnot bm)).
    destruct (Z.eq_dec (u64 (Z.lnot bm)) 0) as [E|]; [|lia].
    specialize (Hz i ltac:(lia)). rewrite E, Z.bits_0, Hbi in Hz. done. }
  assert (Hidx : idx = ctz (u64 (Z.lnot bm))) by (unfold idx; rewrite ffs_ctz; lia).
  pose proof (ctz_testbit _ Hpos) as [Ht H0]. rewrite <- Hidx in Ht, H0.
  pose proof (ctz_bound _ 64 (conj Hpos (proj2 (u64_range _)))) as Hb2. rewrite <- Hidx in Hb2.
  split.
  - split; [lia|]. destruct (Z.lt_ge_cases i idx) as [Hlt|]; [|lia].
    pose proof (ctz_below _ i Hpos ltac:(lia)) as Hc. rewrite Hz, Hbi in Hc by lia. done.
  - rewrite Hz in Ht by lia. by apply negb_true_iff in Ht.
Qed.

Lemma popcount_set bm i :
  0 ≤ bm < 2 ^ kMaxNrRows → 0 ≤ i < kMaxNrRows → Z.testbit bm i = false →
  0 ≤ Z.lor bm (Z.shiftl 1 i) < 2 ^ kMaxNrRows ∧
  popcount (Z.lor bm (Z.shiftl 1 i)) = popcount bm + 1.
Proof.
  rewrite kMaxNrRows_60. intros Hb Hi Ht.
  pose proof (lor_range bm i 60 Hb Hi) as Hr. split; [done|].
  rewrite !(popcount_bitsum 60) by lia.
  rewrite (bitsum_change 60 bm (Z.lor bm (Z.shiftl 1 i)) i); [|lia|].
  - rewrite Ht, testbit_set by lia. rewrite Ht. rewrite Z.eqb_refl. cbn [Z.b2z orb andb negb]. lia.
  - intros j ??. rewrite testbit_set by lia. replace (j =? i) with false by (symmetry; zcase; lia).
    by rewrite orb_false_r.
Qed.

Lemma popcount_clear bm i :
  0 ≤ bm < 2 ^ kMaxNrRows → 0 ≤ i < kMaxNrRows → Z.testbit bm i = true →
  0 ≤ Z.land bm (u64 (Z.lnot (Z.shiftl 1 i))) < 2 ^ kMaxNrRows ∧
  popcount (Z.land bm (u64 (Z.lnot (Z.shiftl 1 i)))) = popcount bm - 1.
Proof.
  rewrite kMaxNrRows_60. intros Hb Hi Ht.
  pose proof (land_range bm (u64 (Z.lnot (Z.shiftl 1 i))) 60 Hb
    (proj1 (u64_range _)) ltac:(lia)) as Hr. split; [done|].
  rewrite !(popcount_bitsum 60) by lia.
  rewrite (bitsum_change 60 bm _ i); [|lia|].
  - rewrite Ht, testbit_clear by lia. rewrite Ht. rewrite Z.eqb_refl. cbn [Z.b2z orb andb negb]. lia.
  - intros j ??. destruct (Z.lt_ge_cases j 64).
    + rewrite testbit_clear by lia. replace (j =? i) with false by (symmetry; zcase; lia).
      by rewrite andb_true_r.
    + by rewrite !(testbit_high _ 60) by lia.
Qed.

(** moving a block to the front of another queue of its slab *)
Lemma unlink_elem loc g core q b x p :
  gc_wf_at loc g →
  loc b = Some (QFree core) ∨ loc b = Some (QHalf core q) ∨ loc b = Some (QFull core q) →
  x ∈ queues (unlink g core q b) p ↔ x ∈ queues g p ∧ x ≠ b.
Proof.
  intros (Hl & _) Hb. unfold unlink, set_queue; cbn [queues].
  assert (Hout : p ≠ QFree core → p ≠ QHalf core q → p ≠ QFull core q → x ∈ queues g p → x ≠ b).
  { intros ??? Hx ->. apply Hl in Hx. destruct Hb as [E|[E|E]]; rewrite E in Hx; congruence. }
  destruct (decide (p = QFull core q)) as [->|];
    [rewrite fn_lookup_insert|rewrite fn_lookup_insert_ne by done].
  { rewrite list_elem_of_filter, !fn_lookup_insert_ne by done. naive_solver. }
  destruct (decide (p = QHalf core q)) as [->|];
    [rewrite fn_lookup_insert|rewrite fn_lookup_insert_ne by done].
  { rewrite list_elem_of_filter, !fn_lookup_insert_ne by done. naive_solver. }
  destruct (decide (p = QFree core)) as [->|];
    [rewrite fn_lookup_insert|rewrite fn_lookup_insert_ne by done].
  { rewrite list_elem_of_filter. naive_solver. }
  naive_solver.
Qed.

Lemma unlink_nodup loc g core q b p : gc_wf_at loc g → NoDup (queues (unlink g core q b) p).
Proof.
  intros (_ & Hn & _). unfold unlink, set_queue; cbn [queues].
  destruct (decide (p = QFull core q)) as [->|];
    [rewrite fn_lookup_insert|rewrite fn_lookup_insert_ne by done].
  { rewrite !fn_lookup_insert_ne by done. by apply NoDup_filter. }
  destruct (decide (p = QHalf core q)) as [->|];
    [rewrite fn_lookup_insert|rewrite fn_lookup_insert_ne by done].
  { rewrite !fn_lookup_insert_ne by done. by apply NoDup_filter. }
  destruct (decide (p = QFree core)) as [->|];
    [rewrite fn_lookup_insert|rewrite fn_lookup_insert_ne by done]; [by apply NoDup_filter|done].
Qed.

Lemma relink loc g core q b p' :
  gc_wf_at loc g →
  loc b = Some (QFree core) ∨ loc b = Some (QHalf core q) ∨ loc b = Some (QFull core q) →
  (∀ p x, x ∈ queues (push_front (unlink g core q b) p' b) p ↔ <[b := Some p']> loc x = Some p) ∧
  (∀ p, NoDup (queues (push_front (unlink g core q b) p' b) p)).
Proof.
  intros Hwf Hb. pose proof Hwf as (Hl & _). split; intros p.
  - intros x. unfold push_front, set_queue; cbn [queues].
    destruct (decide (p' = p)) as [->|];
      [rewrite fn_lookup_insert, elem_of_cons|rewrite fn_lookup_insert_ne by done];
      rewrite (unlink_elem loc) by done; rewrite Hl;
      (destruct (decide (b = x)) as [->|];
        [rewrite fn_lookup_insert|rewrite fn_lookup_insert_ne by done]); naive_solver.
  - unfold push_front, set_queue; cbn [queues].
    destruct (decide (p' = p)) as [->|];
      [rewrite fn_lookup_insert|rewrite fn_lookup_insert_ne by done];
      [|by eapply unlink_nodup].
    apply NoDup_cons. split; [|by eapply unlink_nodup].
    rewrite (unlink_elem loc) by done. naive_solver.
Qed.

Lemma gc_wf_update loc loc' g g' b blk' :
  gc_wf_at loc g →
  (∀ p x, x ∈ queues g' p ↔ loc' x = Some p) → (∀ p, NoDup (queues g' p)) →
  blocks g' = <[b := blk']> (blocks g) →
  (∀ x, x ≠ b → loc' x = loc x) → is_Some (loc' b) → block_ok (loc' b) b blk' →
  gc_wf g' ∧ (∀ x, linked g x → linked g' x).
Proof.
  intros (Hl0 & _ & Hs & Hb) Hl Hn Hblk Hloc [pb Hpb] Hok. split; [exists loc'; split_and!; [done..| |]|].
  - intros x p Hx. rewrite Hblk. destruct (decide (x = b)) as [->|].
    + rewrite lookup_insert_eq. eauto.
    + rewrite lookup_insert_ne by done. rewrite Hloc in Hx by done. eauto.
  - intros x blk. rewrite Hblk. destruct (decide (x = b)) as [->|].
    + rewrite lookup_insert_eq. naive_solver.
    + rewrite lookup_insert_ne by done. rewrite Hloc by done. apply Hb.
  - intros x [p Hp]. apply Hl0 in Hp. destruct (decide (x = b)) as [->|].
    + exists pb. by apply Hl.
    + exists p. apply Hl. by rewrite Hloc.
Qed.

(** the live slots after one block is replaced *)
Lemma live_set_block g g' b blk' b' i' :
  blocks g' = <[b := blk']> (blocks g) →
  live g' b' i' = if decide (b' = b) then
    (if Z.testbit (bitmap blk') i' then rows blk' !! Z.to_nat i' else None) else live g b' i'.
Proof.
  intros Hb. unfold live. rewrite Hb. destruct (decide (b' = b)) as [->|].
  - by rewrite lookup_insert_eq.
  - by rewrite lookup_insert_ne by done.
Qed.

(** [Add] in a half-full block *)
Lemma slab_Add_half loc g core row q b rest :
  gc_wf_at loc g → queues g (QHalf core q) = b :: rest →
  ∃ g' i, slab_Add g core row q = Ok (g', slot_addr b i) ∧ 0 ≤ i < kMaxNrRows ∧
    b mod kBlockSize = 0 ∧ live g b i = None ∧ (gc_wf g' ∧ ∀ x, linked g x → linked g' x) ∧
    ∀ b' i', 0 ≤ i' → live g' b' i' = if decide (b' = b ∧ i' = i) then Some row else live g b' i'.
Proof.
  intros Hwf Hq. pose proof Hwf as (Hl & Hn & Hs & Hb).
  assert (Hloc : loc b = Some (QHalf core q)) by (apply Hl; rewrite Hq; left).
  destruct (Hs _ _ Hloc) as [blk Hblk]. pose proof (Hb _ _ Hblk) as Hok. rewrite Hloc in Hok.
  destruct Hok as (? & ? & Hrows & Hbm & Hpc & Hac & Hqi).
  destruct (free_slot (bitmap blk) Hbm ltac:(lia)) as [Hi Hfree].
  unfold slab_Add, get_block. rewrite Hq, Hblk. cbn [mbind result_bind].
  set (i := ffs (u64 (Z.lnot (bitmap blk))) - 1) in *.
  destruct (popcount_set _ _ Hbm Hi Hfree) as [Hbm' Hpc'].
  set (bm := Z.lor (bitmap blk) (Z.shiftl 1 i)) in *.
  replace ((i <? 0) || (kBlockSize <=? i)) with false
    by (unfold kBlockSize; rewrite kMaxNrRows_60 in Hi; symmetry; zcase; lia).
  cbn [abort_if mbind result_bind].
  set (g1 := if popcount bm =? kMaxNrRows - 1
             then push_front (unlink g core q b) (QFull core q) b else g).
  set (loc' := if popcount bm =? kMaxNrRows - 1 then <[b := Some (QFull core q)]> loc else loc).
  assert (Hg1 : blocks g1 = blocks g ∧
    (∀ p x, x ∈ queues g1 p ↔ loc' x = Some p) ∧ (∀ p, NoDup (queues g1 p))).
  { subst g1 loc'. destruct (Z.eqb_spec (popcount bm) (kMaxNrRows - 1)); [|done].
    split; [done|]. apply relink; auto. }
  destruct Hg1 as (Hb1 & Hl1 & Hn1).
  unfold write_slot, get_block. rewrite Hb1, Hblk. cbn [mbind result_bind].
  rewrite store_in by lia. cbn [mbind result_bind mret result_ret].
  set (blk' := mkBlock (<[Z.to_nat i := row]> (rows blk)) (alloc_core blk) (q_idx blk) bm).
  exists (set_block g1 b blk'), i. split; [done|]. split; [done|]. split; [done|].
  assert (Hbe : blocks (set_block g1 b blk') = <[b := blk']> (blocks g)) by (cbn; by rewrite Hb1).
  split; [by unfold live; rewrite Hblk; cbn; rewrite Hfree|]. split.
  - eapply (gc_wf_update loc loc'); [done..|exact Hbe| | |].
    + intros x Hx. subst loc'. case_match; [by rewrite fn_lookup_insert_ne|done].
    + subst loc'. case_match; [rewrite fn_lookup_insert|rewrite ?Hloc, ?Hp]; eauto.
    + unfold block_ok. cbn [rows bitmap alloc_core q_idx blk'].
      split_and!; [done..|by rewrite len_insert|lia|lia|].
      subst loc'. destruct (Z.eqb_spec (popcount bm) (kMaxNrRows - 1)).
      * rewrite fn_lookup_insert. split_and!; [lia..|done|done].
      * rewrite Hloc. split_and!; [lia..|done|done].
  - intros b' i' Hi'. rewrite (live_set_block g _ b blk') by done.
    destruct (decide (b' = b)) as [->|]; [|rewrite decide_False by naive_solver; done].
    cbn [bitmap rows blk']. subst bm. rewrite testbit_set by lia.
    destruct (decide (b = b ∧ i' = i)) as [[_ ->]|Hne].
    + rewrite Z.eqb_refl, orb_true_r. apply list_lookup_insert_eq. lia.
    + replace (i' =? i) with false by (symmetry; apply Z.eqb_neq; naive_solver).
      rewrite orb_false_r. unfold live. rewrite Hblk. cbn.
      destruct (Z.testbit (bitmap blk) i'); [|done]. apply list_lookup_insert_ne. naive_solver lia.
Qed.

(** [Add] in a block taken from the free queue *)
Lemma slab_Add_free loc g core row q b rest :
  gc_wf_at loc g → queues g (QHalf core q) = [] → queues g (QFree core) = b :: rest →
  ∃ g', slab_Add g core row q = Ok (g', slot_addr b 0) ∧
    b mod kBlockSize = 0 ∧ live g b 0 = None ∧ (gc_wf g' ∧ ∀ x, linked g x → linked g' x) ∧
    ∀ b' i', 0 ≤ i' → live g' b' i' = if decide (b' = b ∧ i' = 0) then Some row else live g b' i'.
Proof.
  intros Hwf Hh Hf. pose proof Hwf as (Hl & Hn & Hs & Hb).
  assert (Hloc : loc b = Some (QFree core)) by (apply Hl; rewrite Hf; left).
  destruct (Hs _ _ Hloc) as [blk Hblk]. pose proof (Hb _ _ Hblk) as Hok. rewrite Hloc in Hok.
  destruct Hok as (? & ? & Hrows & Hbm & Hz).
  unfold slab_Add, get_block, write_slot, get_block. rewrite Hh, Hf, Hblk.
  cbn [mbind result_bind set_block push_front set_queue blocks queues].
  rewrite lookup_insert_eq. cbn [mbind result_bind rows alloc_core q_idx].
  rewrite store_in by (rewrite Hrows, kMaxNrRows_60; lia). cbn [mbind result_bind mret result_ret].
  match goal with |- context [mret (?x, _)] => set (g' := x) end.
  set (blk' := mkBlock (<[Z.to_nat 0 := row]> (rows blk)) core q 1).
  assert (Hbe : blocks g' = <[b := blk']> (blocks g)) by (cbn; by rewrite insert_insert_eq).
  assert (Hlive : ∀ i, live g b i = None) by (intros; unfold live; rewrite Hblk; cbn; by rewrite Hz, Z.bits_0).
  exists g'. split; [done|]. split; [done|]. split; [by rewrite Hlive|]. split.
  - eapply (gc_wf_update loc (<[b := Some (QHalf core q)]> loc)); [done|..|exact Hbe| | |].
    + intros p x. cbn. destruct (decide (p = QHalf core q)) as [->|];
        [rewrite fn_lookup_insert, (fn_lookup_insert_ne (queues g)), Hh, elem_of_cons by done
        |rewrite (fn_lookup_insert_ne _ (QHalf core q)) by done];
        (destruct (decide (b = x)) as [<-|];
          [rewrite (fn_lookup_insert loc)|rewrite (fn_lookup_insert_ne loc) by done]).
      * naive_solver.
      * rewrite <- Hl, Hh. set_solver.
      * destruct (decide (p = QFree core)) as [->|];
          [rewrite fn_lookup_insert|rewrite (fn_lookup_insert_ne (queues g)), Hl by done]; [|naive_solver].
        specialize (Hn (QFree core)). rewrite Hf in Hn. apply NoDup_cons in Hn. naive_solver.
      * destruct (decide (p = QFree core)) as [->|];
          [rewrite fn_lookup_insert|by rewrite (fn_lookup_insert_ne (queues g)), Hl by done].
        rewrite <- Hl, Hf. set_solver.
    + intros p. cbn. destruct (decide (p = QHalf core q)) as [->|];
        [rewrite fn_lookup_insert, (fn_lookup_insert_ne (queues g)), Hh by done; apply NoDup_singleton
        |rewrite fn_lookup_insert_ne by done].
      destruct (decide (p = QFree core)) as [->|];
        [rewrite fn_lookup_insert|by rewrite fn_lookup_insert_ne by done].
      specialize (Hn (QFree core)). rewrite Hf in Hn. by apply NoDup_cons in Hn as [_ ?].
    + intros x Hx. by rewrite fn_lookup_insert_ne.
    + rewrite fn_lookup_insert. eauto.
    + rewrite fn_lookup_insert. unfold block_ok. cbn [rows bitmap alloc_core q_idx blk'].
      rewrite len_insert. split_and!; done.
  - intros b' i' Hi'. rewrite (live_set_block g _ b blk') by done.
    destruct (decide (b' = b)) as [->|]; [|rewrite decide_False by naive_solver; done].
    cbn [bitmap rows blk']. destruct (Z.eq_dec i' 0) as [->|].
    + rewrite decide_True by done. apply list_lookup_insert_eq. rewrite kMaxNrRows_60 in *. lia.
    + rewrite decide_False by naive_solver. rewrite Hlive.
      rewrite Z.bits_above_log2; [done|lia|]. cbn. lia.
Qed.

(** ** Properties *)

Lemma AddRow_ok g core row epoch_nr :
  gc_wf g → epoch_nr ≠ 0 →
  queues g (QHalf core (epoch_nr mod g_gc_every_epoch g)) ≠ [] ∨ queues g (QFree core) ≠ [] →
  ∃ g' b i, AddRow g core row epoch_nr = Ok (g', slot_addr b i) ∧
    0 ≤ i < kMaxNrRows ∧ b mod kBlockSize = 0 ∧ live g b i = None ∧
    (gc_wf g' ∧ ∀ x, linked g x → linked g' x) ∧ linked g b ∧
    ∀ b' i', 0 ≤ i' → live g' b' i' = if decide (b' = b ∧ i' = i) then Some row else live g b' i'.
Proof.
  intros [loc Hwf] He Hq. unfold AddRow.
  replace (epoch_nr =? 0) with false by (symmetry; by apply Z.eqb_neq). cbn [abort_if mbind result_bind].
  destruct (queues g (QHalf core (epoch_nr mod g_gc_every_epoch g))) as [|b rest] eqn:Hh.
  - destruct (queues g (QFree core)) as [|b rest] eqn:Hf; [by destruct Hq|].
    destruct (slab_Add_free loc g core row _ b rest Hwf Hh Hf) as (g' & ? & ? & ? & ? & ?).
    exists g', b, 0. rewrite kMaxNrRows_60. split_and!; auto; try lia; [apply H2|apply H2|].
    exists (QFree core). rewrite Hf. left.
  - destruct (slab_Add_half loc g core row _ b rest Hwf Hh) as (g' & i & ? & ? & ? & ? & ? & ?).
    exists g', b, i. split_and!; auto; try lia; [apply H3|apply H3|].
    eexists (QHalf core _). rewrite Hh. left.
Qed.

Lemma RemoveRow_ok g b i row :
  gc_wf g → linked g b → 0 ≤ i < kMaxNrRows → live g b i = Some row →
  ∃ g', RemoveRow g (slot_addr b i) = Ok g' ∧ (gc_wf g' ∧ ∀ x, linked g x → linked g' x) ∧
    g_gc_every_epoch g' = g_gc_every_epoch g ∧
    (∀ core, queues g (QFree core) ≠ [] → queues g' (QFree core) ≠ []) ∧
    ∀ b' i', 0 ≤ i' < 64 → live g' b' i' = if decide (b' = b ∧ i' = i) then None else live g b' i'.
Proof.
  intros [loc Hwf] [p Hp] Hi Hlive. pose proof Hwf as (Hl & Hn & Hs & Hb).
  apply Hl in Hp. destruct (Hs _ _ Hp) as [blk Hblk]. pose proof (Hb _ _ Hblk) as Hok.
  destruct Hok as (? & Hal & Hrows & Hbm & Hst).
  unfold live in Hlive. rewrite Hblk in Hlive. cbn in Hlive.
  destruct (Z.testbit (bitmap blk) i) eqn:Ht; [|done].
  destruct (popcount_clear _ _ Hbm Hi Ht) as [Hbm' Hpc'].
  destruct (slot_decode b i Hal Hi) as [Hd1 Hd2].
  unfold RemoveRow. rewrite Hd1, Hd2. unfold get_block at 1. rewrite Hblk. cbn [mbind result_bind].
  unfold slab_Remove, get_block at 1. rewrite Hblk. cbn [mbind result_bind].
  set (bm := Z.land (bitmap blk) (u64 (Z.lnot (Z.shiftl 1 i)))) in *.
  assert (Hpl : loc b = Some (QHalf (alloc_core blk) (q_idx blk)) ∨
                loc b = Some (QFull (alloc_core blk) (q_idx blk))).
  { rewrite Hp in Hst. destruct p; [rewrite Hst, Z.bits_0 in Ht; done|..];
      destruct Hst as (_ & <- & <-); rewrite Hp; auto. }
  assert (Hrange : 1 ≤ popcount (bitmap blk) ≤ kMaxNrRows - 1).
  { destruct Hpl as [E|E]; rewrite E in Hst; lia. }
  replace (popcount (bitmap blk) =? kMaxNrRows) with false by (symmetry; apply Z.eqb_neq; lia).
  set (g1 := if popcount (bitmap blk) =? 1 then
     push_front (unlink g (alloc_core blk) (q_idx blk) b) (QFree (alloc_core blk)) b else g).
  set (loc' := if popcount (bitmap blk) =? 1 then <[b := Some (QFree (alloc_core blk))]> loc else loc).
  assert (Hg1 : blocks g1 = blocks g ∧
    (∀ p x, x ∈ queues g1 p ↔ loc' x = Some p) ∧ (∀ p, NoDup (queues g1 p))).
  { subst g1 loc'. destruct (Z.eqb_spec (popcount (bitmap blk)) 1); [|done].
    split; [done|]. apply relink; [done|naive_solver]. }
  destruct Hg1 as (Hb1 & Hl1 & Hn1).
  unfold write_slot, get_block. rewrite Hb1, Hblk. cbn [mbind result_bind].
  rewrite store_in by lia. cbn [mbind result_bind mret result_ret].
  set (blk' := mkBlock (<[Z.to_nat i := 0]> (rows blk)) (alloc_core blk) (q_idx blk) bm).
  exists (set_block g1 b blk'). split; [done|].
  assert (Hbe : blocks (set_block g1 b blk') = <[b := blk']> (blocks g)) by (cbn; by rewrite Hb1).
  split; [|split; [by subst g1; case_match|split]].
  - eapply (gc_wf_update loc loc'); [done..|exact Hbe| | |].
    + intros x Hx. subst loc'. case_match; [by rewrite fn_lookup_insert_ne|done].
    + subst loc'. case_match; [rewrite fn_lookup_insert|rewrite ?Hloc, ?Hp]; eauto.
    + unfold block_ok. cbn [rows bitmap alloc_core q_idx blk'].
      split_and!; [done..|by rewrite len_insert|lia|lia|].
      subst loc'. destruct (Z.eqb_spec (popcount (bitmap blk)) 1) as [E1|].
      * rewrite fn_lookup_insert. rewrite (popcount_bitsum 60) in Hpc' by (rewrite kMaxNrRows_60 in *; lia).
        rewrite E1 in Hpc'. apply Z.bits_inj'. intros j Hj. rewrite Z.bits_0.
        destruct (Z.lt_ge_cases j 60) as [|Hj60]; [eapply (bitsum_zero 60); lia|].
        apply (testbit_high _ 60); rewrite kMaxNrRows_60 in *; lia.
      * destruct Hpl as [E|E]; rewrite E in Hst |- *; (split_and!; [lia..|done|done]).
  - intros core Hc. cbn [queues set_block]. destruct (queues g (QFree core)) as [|x ?] eqn:Hx; [done|].
    assert (Hx1 : x ∈ queues g1 (QFree core)); [|by destruct (queues g1 (QFree core)); [apply elem_of_nil in Hx1|]].
    assert (Hlx : loc x = Some (QFree core)) by (apply Hl; rewrite Hx; left).
    apply Hl1. subst loc'. case_match; [|done].
    rewrite fn_lookup_insert_ne; [done|]. intros ->. destruct Hpl; congruence.
  - intros b' i' Hi'. rewrite (live_set_block g _ b blk') by done.
    destruct (decide (b' = b)) as [->|]; [|rewrite decide_False by naive_solver; done].
    cbn [bitmap rows blk']. subst bm. rewrite testbit_clear by lia.
    destruct (decide (b = b ∧ i' = i)) as [[_ ->]|Hne].
    + by rewrite Z.eqb_refl, andb_false_r.
    + replace (i' =? i) with false by (symmetry; apply Z.eqb_neq; naive_solver).
      rewrite andb_true_r. unfold live. rewrite Hblk. cbn.
      destruct (Z.testbit (bitmap blk) i'); [|done]. apply list_lookup_insert_ne. naive_solver lia.
Qed.

Lemma linked_aligned g b : gc_wf g → linked g b → 0 < b ∧ b mod kBlockSize = 0.
Proof.
  intros [loc (Hl & _ & Hs & Hb)] [p Hp]. apply Hl in Hp as Hloc.
  destruct (Hs _ _ Hloc) as [blk Hblk]. apply Hb in Hblk. unfold block_ok in Hblk. naive_solver.
Qed.

Lemma slot_addr_inj b i b' i' :
  b mod kBlockSize = 0 → b' mod kBlockSize = 0 → 0 ≤ i < kMaxNrRows → 0 ≤ i' < kMaxNrRows →
  slot_addr b i = slot_addr b' i' → b = b' ∧ i = i'.
Proof.
  intros Hb Hb' Hi Hi' E. destruct (slot_decode b i Hb Hi) as [D1 D2].
  destruct (slot_decode b' i' Hb' Hi') as [D1' D2']. rewrite E in D1, D2.
  assert (b = b') by congruence. subst b'. split; [done|congruence].
Qed.

(** what is left of [registered] when one slot changes *)
Lemma registered_frame g g' b i :
  gc_wf g → (∀ x, linked g x → linked g' x) →
  linked g b → 0 ≤ i < kMaxNrRows →
  (∀ b' i', 0 ≤ i' < 64 → ¬ (b' = b ∧ i' = i) → live g' b' i' = live g b' i') →
  ∀ h r, registered g h r → h ≠ slot_addr b i → registered g' h r.
Proof.
  intros Hwf Hlk Hb Hi Hlive h r (b1 & i1 & -> & Hb1 & Hi1 & Hr) Hne.
  exists b1, i1. split_and!; [done|by apply Hlk|lia|lia|].
  rewrite Hlive; [done|rewrite kMaxNrRows_60 in *; lia|]. intros [-> ->]. done.
Qed.

Lemma AddRow_registered g core row epoch_nr :
  gc_wf g → epoch_nr ≠ 0 →
  queues g (QHalf core (epoch_nr mod g_gc_every_epoch g)) ≠ [] ∨ queues g (QFree core) ≠ [] →
  ∃ g' hd, AddRow g core row epoch_nr = Ok (g', hd) ∧ gc_wf g' ∧ hd ≠ 0 ∧ registered g' hd row ∧
    (∀ r, ¬ registered g hd r) ∧ (∀ h r, registered g h r → registered g' h r).
Proof.
  intros Hwf He Hq.
  destruct (AddRow_ok g core row epoch_nr Hwf He Hq)
    as (g' & b & i & Hadd & Hi & Hal & Hfree & [Hwf' Hlk] & Hb & Hlive).
  destruct (linked_aligned g b Hwf Hb) as [Hpos _].
  assert (Hnot : ∀ r, ¬ registered g (slot_addr b i) r).
  { intros r (b1 & i1 & E & Hb1 & Hi1 & Hr). destruct (linked_aligned g b1 Hwf Hb1) as [_ Hal1].
    destruct (slot_addr_inj _ _ _ _ Hal Hal1 Hi Hi1 E) as [<- <-]. congruence. }
  exists g', (slot_addr b i). split_and!; [done..|unfold slot_addr, kListNodeSize; lia| |done|].
  - exists b, i. split_and!; [done|by apply Hlk|lia|lia|]. rewrite Hlive by lia. by rewrite decide_True.
  - intros h r Hr. eapply (registered_frame g g' b i); [done..| |done|].
    + intros b' i' ? Hne. rewrite Hlive by lia. by rewrite decide_False.
    + intros ->. by apply (Hnot r).
Qed.

Lemma RemoveRow_registered g hd row :
  gc_wf g → registered g hd row →
  ∃ g', RemoveRow g hd = Ok g' ∧ gc_wf g' ∧ g_gc_every_epoch g' = g_gc_every_epoch g ∧
    (∀ core, queues g (QFree core) ≠ [] → queues g' (QFree core) ≠ []) ∧
    (∀ r, ¬ registered g' hd r) ∧
    (∀ h r, registered g h r → h ≠ hd → registered g' h r).
Proof.
  intros Hwf (b & i & -> & Hb & Hi & Hr).
  destruct (RemoveRow_ok g b i row Hwf Hb Hi Hr) as (g' & Hrem & [Hwf' Hlk] & Hev & Hfree & Hlive).
  destruct (linked_aligned g b Hwf Hb) as [_ Hal].
  exists g'. split_and!; [done..| |].
  - intros r (b1 & i1 & E & Hb1 & Hi1 & Hr1). destruct (linked_aligned g' b1 Hwf' Hb1) as [_ Hal1].
    destruct (slot_addr_inj _ _ _ _ Hal Hal1 Hi Hi1 E) as [<- <-].
    rewrite Hlive in Hr1 by (rewrite kMaxNrRows_60 in *; lia). by rewrite decide_True in Hr1.
  - eapply registered_frame; [done..|]. intros. rewrite Hlive by lia. by rewrite decide_False.
Qed.
