(* ===== verification/Sync.v ===== *)
(** Waiting for version data (vhandle_sync.h, vhandle_sync.cc): the pending
    magic value, the two implementations of [VHandleSyncService], and the
    [SpinnerSlot] protocol between waiting readers and the writer of one cell,
    as a step relation over atomic accesses. *)

From S2P Require Import Prelude Bits.

(** vhandle.h: the value of a version that has not been written yet *)
Definition kPendingValue : Z := 0xFE1FE190FFFFFFFF.

(** What readers and writers of a version array rely on: the magic value is
    recognised as pending. Client theorems are stated against this class. *)
Class SyncService := {
  IsPendingVal : Z → bool;
  IsPendingVal_init : IsPendingVal kPendingValue = true;
}.

(** [SpinnerSlot::IsPendingVal] *)
Definition SpinnerSlot_IsPendingVal (val : Z) : bool :=
  Z.shiftr val 32 =? Z.shiftr kPendingValue 32.
(** [SimpleSync::IsPendingVal] *)
Definition SimpleSync_IsPendingVal (val : Z) : bool := val =? kPendingValue.

#[export] Instance SpinnerSlot : SyncService :=
  {| IsPendingVal := SpinnerSlot_IsPendingVal; IsPendingVal_init := eq_refl |}.
Definition SimpleSync : SyncService :=
  {| IsPendingVal := SimpleSync_IsPendingVal; IsPendingVal_init := eq_refl |}.

(** ** Slots: [SpinnerSlot::slot], as an index of the buffer of 64-byte slots,
    one 4096-byte page per NUMA zone *)

Definition kNrCorePerNode : Z := 8.
Definition slot (idx : Z) : Z := 64 * (idx / kNrCorePerNode) + idx mod kNrCorePerNode.

(** cores never share a slot, and every slot is inside the buffer *)
Lemma slot_inj i j : 0 ≤ i → 0 ≤ j → slot i = slot j → i = j.
Proof.
  intros Hi Hj. unfold slot, kNrCorePerNode. pose proof (Z.mod_pos_bound i 8). pose proof (Z.mod_pos_bound j 8).
  pose proof (Z.div_mod i 8). pose proof (Z.div_mod j 8). lia.
Qed.

Lemma slot_in_buffer i nr_threads :
  0 ≤ i < nr_threads → 0 ≤ slot i < 64 * ((nr_threads - 1) / kNrCorePerNode + 1).
Proof.
  intros Hi. unfold slot, kNrCorePerNode. pose proof (Z.mod_pos_bound i 8). pose proof (Z.div_pos i 8).
  pose proof (Z.div_le_mono i (nr_threads - 1) 8). lia.
Qed.

Module Spinner.

(** ** State of one version cell, the per-core slots and the threads *)

(** where a reader is inside [WaitForData] *)
Inductive WaitPc :=
| WStart             (* about to read [*addr] *)
| WCas (val : Z)     (* about to compare-and-swap [val] to [val & ~mask] *)
| WSpin              (* in [Spin], polling its slot *)
| WAwake             (* [Spin] returned, about to read [*addr] again *)
| WDone.             (* returned to [ReadWithVersion] *)

(** where the writer is inside [OfferData] *)
Inductive OfferPc :=
| OStart                  (* about to read [*addr] *)
| OCas (oldval : Z)       (* about to compare-and-swap [oldval] to the data *)
| ONotify (bitmap : Z)    (* in [Notify] with the remaining bitmap *)
| ODone.

Record SpinState := mkSpin {
cell : Z;               (* the version's object cell *)
done : Z → bool;        (* [slot(core)->done] *)
waiter : Z → WaitPc;
offer : OfferPc;
}.

Definition mask64 (core : Z) : Z := u64 (Z.shiftl 1 core).
Definition low32 : Z := Z.shiftl 1 32 - 1.

(** [val & ~mask]: the reader's registration in the pending bitmap *)
Definition register (val core : Z) : Z := Z.land val (u64 (Z.lnot (mask64 core))).
(** [mask - (oldval & mask)]: the registered readers *)
Definition waiting_bitmap (oldval : Z) : Z := low32 - Z.land oldval low32.

(** [bitmap &= ~(1 << idx)]: the shift and the complement are on [int] *)
Definition clear_notified (bitmap idx : Z) : Z := Z.land bitmap (u64 (Z.lnot (i32 (Z.shiftl 1 idx)))).

(** the reader's decision after it sees [val] in the cell *)
Definition wait_next (val : Z) : WaitPc :=
if SpinnerSlot_IsPendingVal val then WCas val else WDone.

Definition set_waiter (s : SpinState) (c : Z) (w : WaitPc) : SpinState :=
mkSpin (cell s) (done s) (<[c := w]> (waiter s)) (offer s).
Definition set_done (s : SpinState) (c : Z) (b : bool) : SpinState :=
mkSpin (cell s) (<[c := b]> (done s)) (waiter s) (offer s).
Definition set_cell (s : SpinState) (v : Z) : SpinState :=
mkSpin v (done s) (waiter s) (offer s).
Definition set_offer (s : SpinState) (o : OfferPc) : SpinState :=
mkSpin (cell s) (done s) (waiter s) o.

(** One atomic action of a reader on core [c] or of the writer of [obj].
  [step_preempt] is [Spin] returning because the routine was preempted;
  [step_other] is a notification of the same core for another cell. *)
Inductive step (nr_cores obj : Z) : SpinState → SpinState → Prop :=
| step_start s c : 0 ≤ c < nr_cores → waiter s c = WStart →
    step nr_cores obj s (set_waiter s c (wait_next (cell s)))
| step_cas_ok s c val : 0 ≤ c < nr_cores → waiter s c = WCas val → cell s = val →
    step nr_cores obj s (set_waiter (set_cell s (register val c)) c WSpin)
| step_cas_fail s c val : 0 ≤ c < nr_cores → waiter s c = WCas val → cell s ≠ val →
    step nr_cores obj s (set_waiter s c (wait_next (cell s)))
| step_wake s c : 0 ≤ c < nr_cores → waiter s c = WSpin → done s c = true →
    step nr_cores obj s (set_waiter (set_done s c false) c WAwake)
| step_preempt s c : 0 ≤ c < nr_cores → waiter s c = WSpin →
    step nr_cores obj s (set_waiter s c WAwake)
| step_recheck s c : 0 ≤ c < nr_cores → waiter s c = WAwake →
    step nr_cores obj s (set_waiter s c (wait_next (cell s)))
| step_other s c : step nr_cores obj s (set_done s c true)
| step_offer_read s : offer s = OStart →
    step nr_cores obj s (set_offer s (OCas (cell s)))
| step_offer_ok s oldval : offer s = OCas oldval → cell s = oldval →
    step nr_cores obj s (set_offer (set_cell s obj) (ONotify (waiting_bitmap oldval)))
| step_offer_fail s oldval : offer s = OCas oldval → cell s ≠ oldval →
    step nr_cores obj s (set_offer s (OCas (cell s)))
| step_notify s bitmap : offer s = ONotify bitmap → bitmap ≠ 0 →
    step nr_cores obj s
      (set_offer (set_done s (ctz bitmap) true)
         (ONotify (clear_notified bitmap (ctz bitmap))))
| step_notify_end s : offer s = ONotify 0 →
    step nr_cores obj s (set_offer s ODone).

(** no reader has started, nothing has been written *)
Definition initial (s : SpinState) : Prop :=
cell s = kPendingValue ∧ (∀ c, waiter s c = WStart) ∧ offer s = OStart.

(** [Notify] as a function, with fuel for the 64 bits of the bitmap *)
Fixpoint Notify (fuel : nat) (bitmap : Z) (d : Z → bool) : Z → bool :=
match fuel with
| O => d
| S fuel =>
    if bitmap =? 0 then d else
    let idx := ctz bitmap in
    Notify fuel (clear_notified bitmap idx) (<[idx := true]> d)
end.

(** ** Invariant *)

Definition pending (v : Z) : Prop := SpinnerSlot_IsPendingVal v = true.

(** a spinning reader is registered, woken, or about to be notified *)
Definition reachable_wake (s : SpinState) (c : Z) : Prop :=
(pending (cell s) ∧ Z.testbit (cell s) c = false) ∨ done s c = true ∨
(∃ bm, offer s = ONotify bm ∧ Z.testbit bm c = true).

Record inv (nr_cores obj : Z) (s : SpinState) : Prop := {
inv_range : 0 ≤ cell s < 2 ^ 64;
inv_cell : match offer s with
           | OStart | OCas _ => pending (cell s)
           | ONotify bm => cell s = obj ∧ 0 ≤ bm < 2 ^ 32
           | ODone => cell s = obj
           end;
inv_spin : ∀ c, 0 ≤ c < nr_cores → waiter s c = WSpin → reachable_wake s c;
inv_cas : ∀ c v, 0 ≤ c < nr_cores → waiter s c = WCas v → pending v;
inv_done : ∀ c, 0 ≤ c < nr_cores → waiter s c = WDone → ¬ pending (cell s);
}.

Lemma mask64_eq c : 0 ≤ c < 32 → mask64 c = Z.shiftl 1 c.
Proof.
intros. unfold mask64. apply u64_id. rewrite Z.shiftl_1_l. split; [apply Z.pow_nonneg; lia|].
apply Z.pow_lt_mono_r; lia.
Qed.

Lemma clear_notified_eq bitmap idx : 0 ≤ bitmap < 2 ^ 32 → 0 ≤ idx < 32 →
clear_notified bitmap idx = Z.land bitmap (u64 (Z.lnot (Z.shiftl 1 idx))).
Proof.
intros Hb Hi. unfold clear_notified. rewrite Z.shiftl_1_l.
destruct (decide (idx = 31)) as [->|].
- assert (Hm : Z.land bitmap (Z.ones 32) = bitmap) by (rewrite Z.land_ones, Z.mod_small by lia; done).
  rewrite <- Hm, <- !Z.land_assoc. apply (f_equal (Z.land bitmap)). reflexivity.
- rewrite i32_id; [done|]. pose proof (Z.pow_nonneg 2 idx). pose proof (Z.pow_lt_mono_r 2 idx 31). lia.
Qed.

(** registration clears one of the low 32 bits: the value stays pending *)
Lemma register_pending v c :
0 ≤ v < 2 ^ 64 → 0 ≤ c < 32 → pending v →
pending (register v c) ∧ 0 ≤ register v c < 2 ^ 64 ∧
Z.testbit (register v c) c = false ∧
∀ j, 0 ≤ j < 64 → j ≠ c → Z.testbit (register v c) j = Z.testbit v j.
Proof.
intros Hv Hc Hp. unfold register. rewrite mask64_eq by done.
assert (Ht : ∀ j, 0 ≤ j < 64 → Z.testbit (Z.land v (u64 (Z.lnot (Z.shiftl 1 c)))) j
                                = Z.testbit v j && negb (j =? c)) by (intros; apply testbit_clear; lia).
assert (Hr := land_range v (u64 (Z.lnot (Z.shiftl 1 c))) 64 Hv (proj1 (u64_range _)) ltac:(lia)).
split_and!; [|lia|lia|rewrite Ht, Z.eqb_refl, andb_false_r by lia; done|].
- unfold pending, SpinnerSlot_IsPendingVal in *. apply Z.eqb_eq in Hp. apply Z.eqb_eq.
  rewrite <- Hp. apply Z.bits_inj'. intros j Hj. rewrite !Z.shiftr_spec by done.
  destruct (Z.lt_ge_cases (j + 32) 64).
  + rewrite Ht by lia. replace (j + 32 =? c) with false by (symmetry; apply Z.eqb_neq; lia).
    apply andb_true_r.
  + by rewrite !(testbit_high _ 64) by lia.
- intros j Hj Hne. rewrite Ht by lia.
  replace (j =? c) with false by (symmetry; by apply Z.eqb_neq). apply andb_true_r.
Qed.

(** the bitmap of the registered readers is the complement of the low word *)
Lemma waiting_bitmap_spec v :
0 ≤ waiting_bitmap v < 2 ^ 32 ∧
∀ c, 0 ≤ c < 32 → Z.testbit (waiting_bitmap v) c = negb (Z.testbit v c).
Proof.
unfold waiting_bitmap, low32. rewrite Z.shiftl_1_l.
replace (2 ^ 32 - 1) with (Z.ones 32) by done. rewrite Z.land_ones by lia.
pose proof (Z.mod_pos_bound v (2 ^ 32) ltac:(lia)). rewrite Z.ones_equiv.
split; [lia|]. intros c Hc.
replace (Z.pred (2 ^ 32) - v mod 2 ^ 32) with (Z.pred (2 ^ 32 - v mod 2 ^ 32)) by lia.
replace (Z.pred (2 ^ 32 - v mod 2 ^ 32)) with (Z.lnot (v mod 2 ^ 32) + 1 * 2 ^ 32)
  by (unfold Z.lnot; lia).
rewrite <- (Z.mod_pow2_bits_low (Z.lnot _ + _) 32 c) by lia.
rewrite Z.mod_add by lia. rewrite Z.mod_pow2_bits_low by lia.
rewrite Z.lnot_spec by lia. by rewrite Z.mod_pow2_bits_low by lia.
Qed.

Ltac spin_cases c c' :=
destruct (decide (c = c')) as [<-|];
[rewrite ?fn_lookup_insert in *|rewrite ?(fn_lookup_insert_ne (waiter _)) in * by done].

Lemma wait_next_not_spin v : wait_next v ≠ WSpin.
Proof. unfold wait_next. by case_match. Qed.
Lemma wait_next_done v : wait_next v = WDone → ¬ pending v.
Proof. unfold wait_next, pending. case_match; congruence. Qed.

Lemma wait_next_cas v w : wait_next v = WCas w → pending w.
Proof. unfold wait_next, pending. case_match; congruence. Qed.

(** a reader that re-reads the cell keeps the invariant *)
Lemma inv_wait_next n obj s c :
inv n obj s → inv n obj (set_waiter s c (wait_next (cell s))).
Proof.
intros [Hr Hcell Hspin Hcas Hdone]. split; cbn; [done..| | |].
- intros c' Hc' Hw. spin_cases c c'; [by apply wait_next_not_spin in Hw|]. by apply Hspin.
- intros c' v Hc' Hw. spin_cases c c'; [by eapply wait_next_cas|]. by eapply Hcas.
- intros c' Hc' Hw. spin_cases c c'; [by apply wait_next_done|]. by eapply Hdone.
Qed.

(** leaving [Spin] keeps the invariant: other readers are not concerned *)
Lemma inv_awake n obj s d c :
inv n obj s → (∀ c', c' ≠ c → d c' = done s c') →
inv n obj (mkSpin (cell s) d (<[c := WAwake]> (waiter s)) (offer s)).
Proof.
intros [Hr Hcell Hspin Hcas Hdone] Hd. split; cbn; [done..| | |].
- intros c' Hc' Hw. spin_cases c c'; [done|].
  destruct (Hspin c' Hc' Hw) as [?|[?|?]]; [by left|right; left|by right; right].
  cbn. by rewrite Hd.
- intros c' v Hc' Hw. spin_cases c c'; [done|]. by eapply Hcas.
- intros c' Hc' Hw. spin_cases c c'; [done|]. by eapply Hdone.
Qed.

(** registering core [c] in a pending cell *)
Lemma inv_register n obj s c :
n ≤ 32 → 0 ≤ c < n → inv n obj s → pending (cell s) → ¬ pending obj →
inv n obj (set_waiter (set_cell s (register (cell s) c)) c WSpin).
Proof.
intros Hn Hc [Hr Hcell Hspin Hcas Hdone] Hp Hobj.
destruct (register_pending (cell s) c Hr ltac:(lia) Hp) as (Hp' & Hr' & Hb & Hj).
split; cbn; [done|..].
- destruct (offer s); [done|done|..]; exfalso; apply Hobj.
  + by destruct Hcell as [<- _].
  + by rewrite <- Hcell.
- intros c' Hc' Hw. spin_cases c c'; [by left|].
  destruct (Hspin c' Hc' Hw) as [[? Hb']|[?|?]]; [left|by right; left|by right; right].
  cbn. split; [done|]. rewrite Hj by lia. done.
- intros c' v Hc' Hw. spin_cases c c'; [done|]. by eapply Hcas.
- intros c' Hc' Hw. spin_cases c c'; [done|]. by destruct (Hdone c' Hc' Hw).
Qed.

(** one round of [Notify] *)
Lemma inv_notify n obj s bm :
n ≤ 32 → inv n obj s → offer s = ONotify bm → bm ≠ 0 →
inv n obj (set_offer (set_done s (ctz bm) true)
  (ONotify (clear_notified bm (ctz bm)))).
Proof.
intros Hn [Hr Hcell Hspin Hcas Hdone] Ho Hbm. rewrite Ho in Hcell. destruct Hcell as [Hcell Hb].
pose proof (ctz_bound bm 32 ltac:(lia)) as Hk. destruct (ctz_testbit bm ltac:(lia)) as [_ Hk0].
rewrite clear_notified_eq by lia.
split; cbn; [done| | |done|done].
- split; [done|]. apply land_range; [done|apply u64_range|lia].
- intros c Hc Hw. destruct (decide (c = ctz bm)) as [->|Hne].
  { right; left. cbn. by rewrite fn_lookup_insert. }
  destruct (Hspin c Hc Hw) as [?|[Hd|(bm' & Ho' & Ht)]]; [by left|right; left|right; right].
  + cbn. by rewrite fn_lookup_insert_ne.
  + assert (bm' = bm) as -> by congruence. eexists; split; [done|].
    rewrite testbit_clear by lia. rewrite Ht.
    replace (c =? ctz bm) with false by (symmetry; by apply Z.eqb_neq). done.
Qed.

Lemma inv_step n obj s s' :
n ≤ 32 → 0 ≤ obj < 2 ^ 64 → ¬ pending obj → inv n obj s → step n obj s s' → inv n obj s'.
Proof.
intros Hn Hob Hobj Hinv Hstep. pose proof Hinv as [Hr Hcell Hspin Hcas Hdone].
destruct Hstep as [s c Hc Hw|s c val Hc Hw Hv|s c val Hc Hw Hv|s c Hc Hw Hd|s c Hc Hw
  |s c Hc Hw|s c|s Ho|s old Ho Hv|s old Ho Hv|s bm Ho Hbm|s Ho];
  try (by apply inv_wait_next).
- subst val. apply inv_register; eauto.
- apply (inv_awake n obj s (done (set_done s c false))); [done|].
  intros. cbn. by rewrite fn_lookup_insert_ne.
- by apply (inv_awake n obj s).
- split; cbn; [done..| |done|done]. intros c' Hc' Hw.
  destruct (Hspin c' Hc' Hw) as [?|[Hd|?]]; [by left|right; left|by right; right].
  cbn. destruct (decide (c = c')) as [<-|]; [by rewrite fn_lookup_insert|by rewrite fn_lookup_insert_ne].
- rewrite Ho in Hcell. split; cbn; [done..| |done|done]. intros c' Hc' Hw.
  destruct (Hspin c' Hc' Hw) as [?|[?|(? & E & _)]]; [by left|by right; left|congruence].
- subst old. rewrite Ho in Hcell. destruct (waiting_bitmap_spec (cell s)) as [Hb Hbit].
  split; cbn; [done|done| |done|done]. intros c' Hc' Hw.
  destruct (Hspin c' Hc' Hw) as [[_ Ht]|[?|(? & E & _)]]; [right; right|by right; left|congruence].
  eexists. split; [done|]. rewrite Hbit by lia. by rewrite Ht.
- rewrite Ho in Hcell. split; cbn; [done..| |done|done]. intros c' Hc' Hw.
  destruct (Hspin c' Hc' Hw) as [?|[?|(? & E & _)]]; [by left|by right; left|congruence].
- by apply inv_notify.
- rewrite Ho in Hcell. split; cbn; [done|naive_solver| |done|done]. intros c' Hc' Hw.
  destruct (Hspin c' Hc' Hw) as [?|[?|(bm & E & Ht)]]; [by left|by right; left|].
  assert (bm = 0) as -> by congruence. by rewrite Z.bits_0 in Ht.
Qed.

Lemma inv_init n obj s : initial s → inv n obj s.
Proof.
intros (Hc & Hw & Ho). split.
- rewrite Hc. done.
- rewrite Ho, Hc. reflexivity.
- intros. congruence.
- intros c v ? E. rewrite Hw in E. done.
- intros. congruence.
Qed.

Lemma inv_reachable n obj s s' :
n ≤ 32 → 0 ≤ obj < 2 ^ 64 → ¬ pending obj → initial s → rtc (step n obj) s s' → inv n obj s'.
Proof.
intros ??? Hi Hs. assert (Hinv : inv n obj s) by by apply inv_init.
clear Hi. induction Hs as [|s s1 s2 H12 _ IH]; [done|]. apply IH. by eapply inv_step.
Qed.

(** [Notify] sets exactly the slots of the bitmap, within one round per bit *)
Lemma Notify_ok fuel : ∀ bitmap d c,
0 ≤ bitmap < 2 ^ 32 → popcount bitmap ≤ Z.of_nat fuel → 0 ≤ c < 32 →
Notify fuel bitmap d c = d c || Z.testbit bitmap c.
Proof.
induction fuel as [|fuel IH]; intros bitmap d c Hb Hf Hc; cbn [Notify].
- rewrite (popcount_bitsum 32) in Hf by lia. pose proof (bitsum_bounds 32 bitmap).
  assert (Hz : bitsum 32 bitmap = 0) by lia.
  rewrite (proj1 (bitsum_zero 32 bitmap) Hz) by lia. by rewrite orb_false_r.
- destruct (Z.eqb_spec bitmap 0) as [->|]; [by rewrite Z.bits_0, orb_false_r|].
  pose proof (ctz_bound bitmap 32 ltac:(lia)) as Hk.
  destruct (ctz_testbit bitmap ltac:(lia)) as [Hset Hk0]. rewrite clear_notified_eq by lia.
  pose proof (land_range bitmap (u64 (Z.lnot (Z.shiftl 1 (ctz bitmap)))) 32 Hb
    (proj1 (u64_range _)) ltac:(lia)) as Hr.
  rewrite IH; [|done| |done].
  + rewrite testbit_clear by lia. destruct (decide (c = ctz bitmap)) as [->|Hne].
    * rewrite fn_lookup_insert, Hset. by rewrite orb_true_r.
    * rewrite fn_lookup_insert_ne by done.
      replace (c =? ctz bitmap) with false by (symmetry; by apply Z.eqb_neq).
      by rewrite andb_true_r.
  + rewrite (popcount_bitsum 32) in Hf |- * by lia.
    rewrite (bitsum_change 32 bitmap _ (ctz bitmap)); [|lia|].
    * rewrite Hset, testbit_clear, Z.eqb_refl, andb_false_r by lia. cbn [Z.b2z]. lia.
    * intros j Hj Hne. destruct (Z.lt_ge_cases j 64).
      { rewrite testbit_clear by lia.
        replace (j =? ctz bitmap) with false by (symmetry; by apply Z.eqb_neq). apply andb_true_r. }
      by rewrite !(testbit_high _ 32) by lia.
Qed.

(** once the data is there, a reader needs at most two of its own steps *)
Lemma reader_finishes n obj s c :
inv n obj s → offer s = ODone → SpinnerSlot_IsPendingVal obj = false → 0 ≤ c < n →
∃ s', rtc (step n obj) s s' ∧ waiter s' c = WDone ∧ cell s' = obj.
Proof.
intros [_ Hcell Hspin Hcas _] Ho Hobj Hc. rewrite Ho in Hcell.
assert (Hnext : wait_next (cell s) = WDone) by (unfold wait_next; by rewrite Hcell, Hobj).
destruct (waiter s c) as [|v| | |] eqn:Hw.
- eexists. split; [eapply rtc_once, step_start; eauto|]. cbn. by rewrite fn_lookup_insert.
- eexists. split; [eapply rtc_once, step_cas_fail; eauto|].
  + specialize (Hcas c v Hc Hw). unfold pending in Hcas. intros E. rewrite E in Hcell. congruence.
  + cbn. by rewrite fn_lookup_insert.
- assert (Hd : done s c = true).
  { destruct (Hspin c Hc Hw) as [[Hp _]|[?|(? & E & _)]]; [|done|congruence].
    unfold pending in Hp. congruence. }
  eexists. split; [eapply rtc_l; [by eapply step_wake|]; eapply rtc_once, step_recheck; [done|]|].
  + cbn. by rewrite fn_lookup_insert.
  + cbn. by rewrite fn_lookup_insert.
- eexists. split; [eapply rtc_once, step_recheck; eauto|]. cbn. by rewrite fn_lookup_insert.
- exists s. split; [done|]. done.
Qed.

(** ** Properties *)

(** C14. Readers return from [WaitForData] with the writer's data in the
  cell, never with a pending marker, whatever the interleaving of the
  compare-and-swaps of up to 32 readers and the writer. *)
Theorem reader_sees_data n obj s s' c :
n ≤ 32 → 0 ≤ obj < 2 ^ 64 → SpinnerSlot_IsPendingVal obj = false →
initial s → rtc (step n obj) s s' → 0 ≤ c < n → waiter s' c = WDone → cell s' = obj.
Proof.
intros Hn Hob Hobj Hi Hs Hc Hw.
pose proof (inv_reachable n obj s s' Hn Hob ltac:(unfold pending; congruence) Hi Hs)
  as [_ Hcell _ _ Hdone].
specialize (Hdone c Hc Hw). destruct (offer s'); naive_solver.
Qed.

(** No lost wake-up: once the writer has returned from [OfferData],
  every reader that is still polling its slot finds it set, and every
  reader can return with the data by its own steps. *)
Theorem no_lost_wakeup n obj s s' c :
n ≤ 32 → 0 ≤ obj < 2 ^ 64 → SpinnerSlot_IsPendingVal obj = false →
initial s → rtc (step n obj) s s' → offer s' = ODone → 0 ≤ c < n →
(waiter s' c = WSpin → done s' c = true) ∧
∃ s'', rtc (step n obj) s' s'' ∧ waiter s'' c = WDone ∧ cell s'' = obj.
Proof.
intros Hn Hob Hobj Hi Hs Ho Hc.
pose proof (inv_reachable n obj s s' Hn Hob ltac:(unfold pending; congruence) Hi Hs) as Hinv.
split; [|by apply reader_finishes]. intros Hw. destruct Hinv as [_ Hcell Hspin _ _].
rewrite Ho in Hcell. destruct (Hspin c Hc Hw) as [[Hp _]|[?|(? & E & _)]]; [|done|congruence].
unfold pending in Hp. congruence.
Qed.

(** [Notify] ends within one round per registered reader and sets exactly
  the slots of the bitmap that [OfferData] computes from the old cell. *)
Theorem Notify_sets_bitmap oldval d c :
0 ≤ c < 32 → Notify 32 (waiting_bitmap oldval) d c = d c || negb (Z.testbit oldval c).
Proof.
intros Hc. destruct (waiting_bitmap_spec oldval) as [Hb Ht]. rewrite Notify_ok; [by rewrite Ht|done| |done].
rewrite (popcount_bitsum 32) by lia. pose proof (bitsum_bounds 32 (waiting_bitmap oldval)). lia.
Qed.

(** The magic number has room for 32 cores only: on any core from 32 to
  63 registering either leaves the marker unchanged, so that the reader is
  never in the bitmap, or destroys it, so that the cell no longer reads as
  pending. *)
Theorem register_beyond_32 core :
32 ≤ core < 64 →
register kPendingValue core = kPendingValue ∨
SpinnerSlot_IsPendingVal (register kPendingValue core) = false.
Proof.
intros Hc.
assert (Hall : Forall (fun c => register kPendingValue c = kPendingValue ∨
  SpinnerSlot_IsPendingVal (register kPendingValue c) = false) (seqZ 32 32)).
{ repeat (apply Forall_cons; split; [vm_compute; auto|]); apply Forall_nil_2. }
rewrite Forall_forall in Hall. apply Hall, elem_of_seqZ. lia.
Qed.

(** ** Witnesses: a reader on core 0 registers, the writer of 4096 comes *)

Definition w0 : SpinState := mkSpin kPendingValue (fun _ => false) (fun _ => WStart) OStart.
Definition w1 : SpinState := set_waiter w0 0 (WCas kPendingValue).
Definition w2 : SpinState := set_waiter (set_cell w1 (register kPendingValue 0)) 0 WSpin.
Definition w3 : SpinState := set_offer w2 (OCas (cell w2)).
Definition w4 : SpinState := set_offer (set_cell w3 4096) (ONotify 1).
Definition w5 : SpinState := set_offer (set_done w4 0 true) (ONotify 0).
Definition w6 : SpinState := set_offer w5 ODone.
Definition w7 : SpinState := set_waiter (set_done w6 0 false) 0 WAwake.
Definition w8 : SpinState := set_waiter w7 0 WDone.

Lemma witness_run6 : rtc (step 1 4096) w0 w6.
Proof.
eapply rtc_l; [apply (step_start _ _ w0 0); [lia|done]|].
eapply rtc_l; [apply (step_cas_ok _ _ w1 0 kPendingValue); [lia|done|done]|].
eapply rtc_l; [by apply (step_offer_read _ _ w2)|].
eapply rtc_l; [by eapply (step_offer_ok _ _ w3)|].
eapply rtc_l; [by apply (step_notify _ _ w4 1)|].
eapply rtc_l; [by apply (step_notify_end _ _ w5)|]. done.
Qed.

Lemma witness_run8 : rtc (step 1 4096) w0 w8.
Proof.
etrans; [apply witness_run6|].
eapply rtc_l; [apply (step_wake _ _ w6 0); [lia|done|done]|].
eapply rtc_l; [apply (step_recheck _ _ w7 0); [lia|done]|]. done.
Qed.

Lemma reader_sees_data_witness : cell w8 = 4096.
Proof.
apply (reader_sees_data 1 4096 w0 w8 0); [lia|lia|done|done|apply witness_run8|lia|done].
Defined.

Lemma no_lost_wakeup_witness : done w6 0 = true.
Proof.
apply (no_lost_wakeup 1 4096 w0 w6 0); [lia|lia|done|done|apply witness_run6|done|lia|done].
Defined.

Lemma Notify_sets_bitmap_witness :
Notify 32 (waiting_bitmap (register kPendingValue 5)) (fun _ => false) 5 = true.
Proof. rewrite (Notify_sets_bitmap _ _ 5); [done|lia]. Defined.

Lemma register_beyond_32_witness : SpinnerSlot_IsPendingVal (register kPendingValue 40) = false.
Proof. destruct (register_beyond_32 40) as [H|H]; [lia|discriminate H|exact H]. Defined.
End Spinner.
