(* ===== verification/Region.v ===== *)
(** Size classes of the data region (mem.h [ParallelRegion]): which requests
    the region serves, and the slab page geometry behind each class. *)

From S2P Require Import Prelude.

(** [ParallelRegion::kMaxPools] *)
Definition kMaxPools : Z := 20.

(** [ParallelRegion::SizeToClass]: [-1] means "invalid size class".
    [64 - __builtin_clzl(sz - 1) - 5]; the builtin is not defined at 0, so
    the request [sz = 1] is outside the model's domain. *)
Definition SizeToClass (sz : Z) : Z :=
  let idx := 64 - clz64 (u64 (sz - 1)) - 5 in
  if kMaxPools <=? idx then -1 else if idx <? 0 then 0 else idx.

(** the chunk size of class [k] in [ParallelRegion::InitPools] *)
Definition class_chunk_size (k : Z) : Z := Z.shiftl 1 (k + 5).

(** [ParallelRegion::Alloc] returns [nullptr] exactly on an invalid class;
    an exhausted pool aborts inside the region. *)
Definition region_serves (sz : Z) : bool := 0 <=? SizeToClass sz.

Lemma SizeToClass_fits sz :
  2 ≤ sz ≤ 2 ^ 24 → 0 ≤ SizeToClass sz < kMaxPools ∧ sz ≤ class_chunk_size (SizeToClass sz).
Proof.
  intros H. unfold SizeToClass, clz64, class_chunk_size, kMaxPools. rewrite u64_id by lia.
  replace (64 - (63 - Z.log2 (sz - 1)) - 5) with (Z.log2 (sz - 1) - 4) by lia.
  pose proof (Z.log2_spec (sz - 1) ltac:(lia)) as [Hl Hu].
  pose proof (Z.log2_nonneg (sz - 1)).
  assert (Z.log2 (sz - 1) < 24) by (apply Z.log2_lt_pow2; lia).
  rewrite Z.shiftl_1_l.
  destruct (Z.leb_spec 20 (Z.log2 (sz - 1) - 4)); [lia|].
  destruct (Z.ltb_spec (Z.log2 (sz - 1) - 4) 0).
  - split; [lia|]. change (2 ^ (0 + 5)) with 32.
    assert (2 ^ Z.succ (Z.log2 (sz - 1)) ≤ 2 ^ 4) by (apply Z.pow_le_mono_r; lia). lia.
  - split; [lia|]. replace (Z.log2 (sz - 1) - 4 + 5) with (Z.succ (Z.log2 (sz - 1))) by lia. lia.
Qed.

(** the class chosen is the smallest one that fits *)
Lemma SizeToClass_tight sz :
  2 ≤ sz ≤ 2 ^ 24 → 0 < SizeToClass sz → class_chunk_size (SizeToClass sz - 1) < sz.
Proof.
  intros H. unfold SizeToClass, clz64, class_chunk_size, kMaxPools. rewrite u64_id by lia.
  replace (64 - (63 - Z.log2 (sz - 1)) - 5) with (Z.log2 (sz - 1) - 4) by lia.
  pose proof (Z.log2_spec (sz - 1) ltac:(lia)) as [Hl Hu]. rewrite Z.shiftl_1_l.
  destruct (Z.leb_spec 20 (Z.log2 (sz - 1) - 4)); [lia|].
  destruct (Z.ltb_spec (Z.log2 (sz - 1) - 4) 0); [lia|]. intros _.
  replace (Z.log2 (sz - 1) - 4 - 1 + 5) with (Z.log2 (sz - 1)) by lia. lia.
Qed.

Lemma region_serves_small sz : 2 ≤ sz ≤ 2 ^ 24 → region_serves sz = true.
Proof. intros. unfold region_serves. apply Z.leb_le. by apply SizeToClass_fits. Qed.
