(* ===== verification/VHandle.v ===== *)
(** The sorted version array of a row (vhandle.h, vhandle.cc
    [SortedArrayVHandle]) and its garbage collection (gc.cc [GC::Collect],
    [GC::IsDataGarbage], [GC::FreeIfGarbage]).

    The version array is one block of [2 * capacity] cells: cells
    [0, capacity) hold version numbers (serial ids), cells
    [capacity, 2 * capacity) the object pointers. Operations run under the
    row's lock, so they are functions from a state to a state. *)

From S2P Require Import Prelude LowerBound Region Sync GarbageSlab.

(** ** State *)

Record VHandle := mkVHandle {
  addr : Z;                  (* address of the handle *)
  alloc_by_regionid : Z;
  this_coreid : Z;
  cont_affinity : Z;         (* int8_t *)
  inline_used : Z;           (* uint8_t, 0xFF when the handle is not inlined *)
  capacity : Z;              (* unsigned int *)
  size : Z;                  (* unsigned int *)
  cur_start : Z;             (* unsigned int *)
  latest_version : Z;        (* int, -1 when nothing is written *)
  nr_ondsplt : Z;            (* int *)
  versions_ptr : Z;          (* the pointer [versions] *)
  versions : list Z;         (* the 2 * capacity cells it points to *)
  buf_pos : Z;               (* -1 when the row has no version buffer *)
  gc_handle : Z;             (* 0 when the row is not registered *)
}.

Definition set_size (h : VHandle) (x : Z) : VHandle :=
  mkVHandle (addr h) (alloc_by_regionid h) (this_coreid h) (cont_affinity h) (inline_used h)
    (capacity h) x (cur_start h) (latest_version h) (nr_ondsplt h) (versions_ptr h)
    (versions h) (buf_pos h) (gc_handle h).
Definition set_cur_start (h : VHandle) (x : Z) : VHandle :=
  mkVHandle (addr h) (alloc_by_regionid h) (this_coreid h) (cont_affinity h) (inline_used h)
    (capacity h) (size h) x (latest_version h) (nr_ondsplt h) (versions_ptr h)
    (versions h) (buf_pos h) (gc_handle h).
Definition set_latest (h : VHandle) (x : Z) : VHandle :=
  mkVHandle (addr h) (alloc_by_regionid h) (this_coreid h) (cont_affinity h) (inline_used h)
    (capacity h) (size h) (cur_start h) x (nr_ondsplt h) (versions_ptr h)
    (versions h) (buf_pos h) (gc_handle h).
Definition set_versions (h : VHandle) (x : list Z) : VHandle :=
  mkVHandle (addr h) (alloc_by_regionid h) (this_coreid h) (cont_affinity h) (inline_used h)
    (capacity h) (size h) (cur_start h) (latest_version h) (nr_ondsplt h) (versions_ptr h)
    x (buf_pos h) (gc_handle h).
Definition set_gc_handle (h : VHandle) (x : Z) : VHandle :=
  mkVHandle (addr h) (alloc_by_regionid h) (this_coreid h) (cont_affinity h) (inline_used h)
    (capacity h) (size h) (cur_start h) (latest_version h) (nr_ondsplt h) (versions_ptr h)
    (versions h) (buf_pos h) x.
Definition set_nr_ondsplt (h : VHandle) (x : Z) : VHandle :=
  mkVHandle (addr h) (alloc_by_regionid h) (this_coreid h) (cont_affinity h) (inline_used h)
    (capacity h) (size h) (cur_start h) (latest_version h) x (versions_ptr h)
    (versions h) (buf_pos h) (gc_handle h).
Definition set_cont_affinity (h : VHandle) (x : Z) : VHandle :=
  mkVHandle (addr h) (alloc_by_regionid h) (this_coreid h) x (inline_used h)
    (capacity h) (size h) (cur_start h) (latest_version h) (nr_ondsplt h) (versions_ptr h)
    (versions h) (buf_pos h) (gc_handle h).
Definition set_inline_used (h : VHandle) (x : Z) : VHandle :=
  mkVHandle (addr h) (alloc_by_regionid h) (this_coreid h) (cont_affinity h) x
    (capacity h) (size h) (cur_start h) (latest_version h) (nr_ondsplt h) (versions_ptr h)
    (versions h) (buf_pos h) (gc_handle h).
Definition set_buf_pos (h : VHandle) (x : Z) : VHandle :=
  mkVHandle (addr h) (alloc_by_regionid h) (this_coreid h) (cont_affinity h) (inline_used h)
    (capacity h) (size h) (cur_start h) (latest_version h) (nr_ondsplt h) (versions_ptr h)
    (versions h) x (gc_handle h).
(** [versions = new_versions; capacity = new_cap; alloc_by_regionid = region] *)
Definition set_array (h : VHandle) (region cap ptr : Z) (vs : list Z) : VHandle :=
  mkVHandle (addr h) region (this_coreid h) (cont_affinity h) (inline_used h)
    cap (size h) (cur_start h) (latest_version h) (nr_ondsplt h) ptr
    vs (buf_pos h) (gc_handle h).

(** What an operation sees of its thread and of the rest of the process. *)
Record Env := mkEnv {
  env_core : Z;            (* [go::Scheduler::CurrentThreadPoolId() - 1] *)
  env_affinity : Z;        (* [mem::ParallelPool::CurrentAffinity()] *)
  env_alloc : Z → Z;       (* address the data region returns for a size *)
  env_junk : Z → Z;        (* contents of a freshly allocated array *)
  str_len : Z → Z;         (* [VarStr::length] of the object at an address *)
  str_region : Z → Z;      (* its [region_id] *)
}.

(** The garbage registry, what has been handed back to the data region as
    (pointer, allocating core, size), and [stats[core].nr_bytes]. *)
Record World := mkWorld {
  w_gc : GC;
  w_freed : list (Z * Z * Z);
  w_nr_bytes : Z → Z;
}.

(** ** Construction and inlined storage *)

(** [SortedArrayVHandle::SortedArrayVHandle]: four versions next to the header *)
Definition SortedArrayVHandle (env : Env) (this : Z) (cells : list Z) : VHandle :=
  mkVHandle this (env_affinity env) (env_affinity env) (-1) 0xFF 4 0 0 (-1) 0
    (this + 64) cells (-1) 0.

(** [NewInline] *)
Definition NewInline (env : Env) (this : Z) (cells : list Z) : VHandle :=
  set_inline_used (SortedArrayVHandle env this cells) 0.

Definition is_inlined (h : VHandle) : bool := negb (inline_used h =? 0xFF).

(** the search loop of [AllocFromInline] over [off = off, off + 1, ...] *)
Fixpoint inline_search (n : nat) (used mask off last : Z) : option Z :=
  match n with
  | O => None
  | S n =>
      if last <? off then None
      else if Z.land used (Z.shiftl mask off) =? 0 then Some off
      else inline_search n used mask (off + 1) last
  end.

(** [AllocFromInline]: [None] is [nullptr] *)
Definition AllocFromInline (h : VHandle) (sz : Z) : VHandle * option Z :=
  if negb (inline_used h =? 0xFF) then
    let sz := Align sz 32 in
    if 128 <? sz then (h, None) else
    let mask := u8 (Z.shiftl 1 (Z.shiftr sz 5) - 1) in
    match inline_search 5 (inline_used h) mask 0 (4 - Z.shiftr sz 5) with
    | Some off => (set_inline_used h (u8 (Z.lor (inline_used h) (Z.shiftl mask off))),
                   Some (addr h + 128 + Z.shiftl off 5))
    | None => (h, None)
    end
  else (h, None).

(** [FreeToInline] *)
Definition FreeToInline (h : VHandle) (p sz : Z) : VHandle :=
  if negb (inline_used h =? 0xFF) then
    let sz := Align sz 16 in
    if 128 <? sz then h else
    let mask := u8 (Z.shiftl 1 (Z.shiftr sz 4) - 1) in
    let off := u8 (Z.shiftr (p - addr h - 128) 4) in
    set_inline_used h (u8 (Z.land (inline_used h) (Z.lnot (Z.shiftl mask off))))
  else h.

(** [ShouldScanSkip] *)
Definition ShouldScanSkip (h : VHandle) (sid : Z) : result bool :=
  first ← load (versions h) 0; mret (sid <=? first).

(** ** Garbage *)

(** [GC::IsDataGarbage] *)
Definition IsDataGarbage (row : VHandle) (data : Z) : result bool :=
  if data =? 0 then mret false else
  if (addr row <? data) && (data <? addr row + 256) then
    _ ← abort_if (negb (is_inlined row)); mret false
  else mret true.

(** [GC::FreeIfGarbage]: [delete p] gives the string back to the data region;
    [sizeof(VarStr)] is 4 *)
Definition FreeIfGarbage (env : Env) (w : World) (row : VHandle) (p : Z) : result (World * bool) :=
  g ← IsDataGarbage row p;
  if g : bool then
    mret (mkWorld (w_gc w) (w_freed w ++ [(p, str_region env p, 4 + str_len env p)])
            (<[env_core env := w_nr_bytes w (env_core env) + str_len env p]> (w_nr_bytes w)), true)
  else mret (w, false).

(** the scan of [GC::Collect]: how many leading versions are superseded by a
    version of an older epoch than [cur_epoch_nr] *)
Fixpoint Collect_scan (fuel : nat) (h : VHandle) (cur_epoch_nr limit i : Z) : result Z :=
  match fuel with
  | O => Ok i
  | S fuel =>
      if (i <? u32 (size h - 1)) && (i <? limit) then
        v ← load (versions h) (i + 1);
        if Z.shiftr v 32 <? cur_epoch_nr
        then Collect_scan fuel h cur_epoch_nr limit (i + 1) else Ok i
      else Ok i
  end.

(** its loop over the objects to free, [n] of them from index [j] on *)
Fixpoint Collect_free (env : Env) (n : nat) (w : World) (h : VHandle) (j : Z) : result World :=
  match n with
  | O => Ok w
  | S n =>
      p ← load (versions h) (capacity h + j);
      '(w, _) ← FreeIfGarbage env w h p;
      Collect_free env n w h (j + 1)
  end.

(** [GC::Collect]: returns the number of versions dropped *)
Definition Collect (env : Env) (w : World) (h : VHandle) (cur_epoch_nr limit : Z)
    : result (World * VHandle * Z) :=
  i ← Collect_scan (Z.to_nat limit) h cur_epoch_nr limit 0;
  if i =? 0 then mret (w, h, 0) else
  w ← Collect_free env (Z.to_nat i) w h 0;
  vs ← memmove (versions h) (capacity h + i) (capacity h + size h) (capacity h);
  vs ← memmove vs i (size h) 0;
  let h := set_versions h vs in
  let h := set_size h (u32 (size h - i)) in
  let h := set_cur_start h (u32 (cur_start h - i)) in
  mret (w, set_latest h (latest_version h - i), i).

(** ** Growing the array *)

(** [EnlargePair64Array]: [None] is [nullptr]. The old array is freed unless
    it is the one stored next to the header. *)
Definition EnlargePair64Array (env : Env) (w : World) (row : VHandle) (old_cap new_cap : Z)
    : option (World * Z * list Z) :=
  let new_len := new_cap * 8 in
  if negb (region_serves (2 * new_len)) then None else
  let old_p := versions row in
  let cells := tab (2 * new_cap) (fun k =>
    if k <? old_cap then old_p.[k]
    else if (new_cap <=? k) && (k <? new_cap + old_cap) then old_p.[old_cap + (k - new_cap)]
    else env_junk env k) in
  let w := if negb (versions_ptr row - addr row =? 64)
           then mkWorld (w_gc w) (w_freed w ++ [(versions_ptr row, alloc_by_regionid row, 2 * (old_cap * 8))])
                  (w_nr_bytes w)
           else w in
  Some (w, env_alloc env (2 * new_len), cells).

(** [std::max(8U, 1U << (32 - __builtin_clz(size)))] *)
Definition grown_capacity (sz : Z) : Z := Z.max 8 (u32 (Z.shiftl 1 (32 - clz32 sz))).

(** the reallocation branch of [IncreaseSize] *)
Definition grow_if_full (env : Env) (w : World) (h : VHandle) : result (World * VHandle) :=
  if capacity h <? size h then
    let new_cap := grown_capacity (size h) in
    match EnlargePair64Array env w h (capacity h) new_cap with
    | None => Err Aborted
    | Some (w, p, cells) => mret (w, set_array h (env_affinity env) new_cap p cells)
    end
  else mret (w, h).

(** the branch of [IncreaseSize] taken by the first append of an epoch;
    [objects] was computed before it, for the same array *)
Definition register_garbage (env : Env) (w : World) (h : VHandle) (handle latest epoch_nr : Z)
    : result (World * VHandle) :=
  if cur_start h =? u32 (latest + 1) then mret (w, h) else
  let h := set_cur_start h (u32 (latest + 1)) in
  let garbage_left := K_ 16 <=? latest in
  '(w, h) ← (if negb (handle =? 0) then
       '(w, h) ← (if 0 <? latest then
            '(w, h, _) ← Collect env w h epoch_nr (Z.min (K_ 16) latest); mret (w, h)
          else mret (w, h));
       gc ← RemoveRow (w_gc w) handle;
       mret (mkWorld gc (w_freed w) (w_nr_bytes w), set_gc_handle h 0)
     else mret (w, h));
  let latest := latest_version h in
  garbage_left ← (if negb garbage_left && (0 <=? latest) then
       o ← load (versions h) (capacity h + latest); IsDataGarbage h o
     else mret garbage_left);
  if garbage_left : bool then
    '(gc, hd) ← AddRow (w_gc w) (env_core env) (addr h) epoch_nr;
    mret (mkWorld gc (w_freed w) (w_nr_bytes w), set_gc_handle h hd)
  else mret (w, h).

(** [SortedArrayVHandle::IncreaseSize] *)
Definition IncreaseSize (env : Env) (w : World) (h : VHandle) (delta epoch_nr : Z)
    : result (World * VHandle) :=
  let handle := gc_handle h in
  '(w, h) ← (if (capacity h <? u32 (size h + delta)) && (K_ 512 <=? capacity h) then
       '(w, h, _) ← Collect env w h epoch_nr (K_ 16); mret (w, h)
     else mret (w, h));
  let latest := latest_version h in
  let h := set_size h (u32 (size h + delta)) in
  '(w, h) ← grow_if_full env w h;
  vs ← fill (versions h) (capacity h + (size h - delta)) (capacity h + size h) kPendingValue;
  register_garbage env w (set_versions h vs) handle latest epoch_nr.

(** ** Inserting a version *)

(** [BookNewVersionNoLock] *)
Definition BookNewVersionNoLock (h : VHandle) (sid pos : Z) : result VHandle :=
  vs ← store (versions h) pos sid; mret (set_versions h vs).

(** [AbsorbNewVersionNoLock]: moves the version booked at [end_] to its place,
    leaving [extra_shift] free cells below it *)
Definition AbsorbNewVersionNoLock (h : VHandle) (end_ extra_shift : Z) : result (VHandle * Z) :=
  let vs := versions h in
  if end_ =? 0 then
    v ← load vs 0; vs ← store vs extra_shift v; mret (set_versions h vs, 0)
  else
    last ← load vs end_;
    let mark := Z.land (end_ - 1) (u32 (Z.lnot 0x03FF)) in
    i ← FastLowerBound vs mark end_ last;
    i ← (if i =? mark then lower_bound vs 0 mark last else mret i);
    vs ← memmove vs i end_ (i + 1 + extra_shift);
    vs ← store vs (i + extra_shift) last;
    mret (set_versions h vs, i).

(** [AppendNewVersionNoLock] *)
Definition AppendNewVersionNoLock (env : Env) (w : World) (h : VHandle)
    (sid epoch_nr ondemand_split_weight : Z) : result (World * VHandle) :=
  let h := if negb (ondemand_split_weight =? 0)
           then set_nr_ondsplt h (i32 (nr_ondsplt h + ondemand_split_weight)) else h in
  '(w, h) ← IncreaseSize env w h 1 epoch_nr;
  h ← BookNewVersionNoLock h sid (size h - 1);
  '(h, _) ← AbsorbNewVersionNoLock h (size h - 1) 0;
  mret (w, h).

(** ** Reading and writing *)

(** [WithVersion]: the index of the version [sid] reads, [None] is [nullptr] *)
Definition WithVersion (h : VHandle) (sid : Z) : result (option Z) :=
  let vs := versions h in
  let latest := latest_version h in
  let search start end_ :=
    p ← lower_bound vs start end_ sid;
    mret (if p =? 0 then None else Some (p - 1)) in
  if 0 <=? latest then
    vl ← load vs latest;
    if vl <? sid then
      let start := latest + 1 in
      found ← (if size h <=? start then mret true else x ← load vs start; mret (sid <=? x));
      if found : bool then mret (Some (start - 1)) else search start (size h)
    else
      let end_ := latest in
      x ← load vs (end_ - 1);
      if x <? sid then mret (Some (end_ - 1)) else search (cur_start h) end_
  else search (cur_start h) (size h).

(** [ReadWithVersion]: [None] is [nullptr]; a pending object is waited for *)
Definition ReadWithVersion `{SyncService} (h : VHandle) (sid : Z) : result (option Z) :=
  pos ← WithVersion h sid;
  match pos with
  | None => mret None
  | Some pos =>
      o ← load (versions h) (capacity h + pos);
      if IsPendingVal o then Err Blocked else mret (Some o)
  end.

(** [ReadExactVersion] (its assertions are the caller's obligations) *)
Definition ReadExactVersion (h : VHandle) (version_idx : Z) : result Z :=
  load (versions h) (capacity h + version_idx).

(** the index that [WriteWithVersion] finds for [sid]; it aborts with
    "Diverging outcomes" when the row has no such version *)
Definition write_index (h : VHandle) (sid : Z) : result Z :=
  let it := latest_version h + 1 in
  x ← load (versions h) it;
  if x =? sid then mret it else
  it ← lower_bound (versions h) (cur_start h) (size h) sid;
  if it =? size h then Err Aborted else
  x ← load (versions h) it;
  if x =? sid then mret it else Err Aborted.

(** [WriteWithVersion] *)
Definition WriteWithVersion (env : Env) (w : World) (h : VHandle) (sid obj epoch_nr : Z)
    : result (World * VHandle) :=
  let pos := latest_version h in
  it ← write_index h sid;
  vs ← store (versions h) (capacity h + it) obj;
  let h := set_latest (set_versions h vs) (Z.max pos it) in
  if it =? u32 (size h - 1) then mret (w, set_cont_affinity (set_nr_ondsplt h 0) (-1)) else
  g ← IsDataGarbage h obj;
  if g && (gc_handle h =? 0) then
    '(gc, hd) ← AddRow (w_gc w) (env_core env) (addr h) epoch_nr;
    mret (mkWorld gc (w_freed w) (w_nr_bytes w), set_gc_handle h hd)
  else mret (w, h).

(** [WriteExactVersion] *)
Definition WriteExactVersion (h : VHandle) (version_idx obj : Z) : result VHandle :=
  _ ← abort_if (size h <=? version_idx);
  vs ← store (versions h) (capacity h + version_idx) obj;
  mret (set_latest (set_versions h vs) (Z.max (latest_version h) version_idx)).
