(* ===== verification/VHandleFacts.v ===== *)
(** Correctness of the sorted version array.

    [entries h] is the abstract row: the list of (version, object) pairs in
    version order. The abstract operations on it ([insert_pending],
    [read_entry], [write_entry]) say what a multi-versioned row promises; the
    lemmas show that [Collect], [AppendNewVersionNoLock], [ReadWithVersion]
    and [WriteWithVersion] implement them on the array. *)

From S2P Require Import Prelude LowerBound Region Sync GarbageSlab VHandle.

(** ** The abstract row *)

Definition entry (h : VHandle) (k : Z) : Z * Z := ((versions h).[k], (versions h).[capacity h + k]).
Definition entries (h : VHandle) : list (Z * Z) := entry h <$> seqZ 0 (size h).

(** the fields fit the array *)
Record shape (h : VHandle) : Prop := {
  sh_size : 0 ≤ size h ≤ capacity h;
  sh_cap : 4 ≤ capacity h ≤ 2 ^ 20;
  sh_len : len (versions h) = 2 * capacity h;
  sh_latest : -1 ≤ latest_version h < size h;
  sh_start : 0 ≤ cur_start h < 2 ^ 32;
}.

(** a row between operations: the versions are also in order *)
Record wf (h : VHandle) : Prop := {
  wf_shape : shape h;
  wf_sorted : sorted_in (versions h) 0 (size h);
}.

(** objects inside the handle belong to inlined handles only *)
Definition objects_ok (h : VHandle) : Prop :=
  ∀ k, 0 ≤ k < size h → let o := (versions h).[capacity h + k] in
    addr h < o < addr h + 256 → is_inlined h = true.

(** a new pending version, after the versions up to [sid] *)
Definition insert_pending (sid : Z) (r : list (Z * Z)) : list (Z * Z) :=
  filter (fun e => e.1 ≤ sid) r ++ (sid, kPendingValue) :: filter (fun e => sid < e.1) r.
(** the version that transaction [sid] reads *)
Definition read_entry (sid : Z) (r : list (Z * Z)) : option (Z * Z) :=
  last (filter (fun e => e.1 < sid) r).
(** the row after [sid] has written [o] *)
Definition write_entry (sid o : Z) (r : list (Z * Z)) : list (Z * Z) :=
  (fun e => if e.1 =? sid then (sid, o) else e) <$> r.

(** ** Generic facts on tabulated lists *)

Lemma fmap_seqZ_ext {A} (f g : Z → A) a b n :
  (∀ k, 0 ≤ k < n → f (a + k) = g (b + k)) → f <$> seqZ a n = g <$> seqZ b n.
Proof.
  intros H. apply list_eq. intros i. rewrite !list_lookup_fmap.
  destruct (decide (Z.of_nat i < n)) as [|Hn].
  - rewrite !lookup_seqZ_lt by lia. cbn. f_equal. apply H. lia.
  - by rewrite !lookup_seqZ_ge by lia.
Qed.

Lemma drop_fmap_seqZ {A} (f : Z → A) n i :
  0 ≤ i ≤ n → drop (Z.to_nat i) (f <$> seqZ 0 n) = f <$> seqZ i (n - i).
Proof.
  intros Hi. replace n with (i + (n - i)) at 1 by lia.
  rewrite seqZ_app, fmap_app by lia. rewrite drop_app_length'; [done|by rewrite length_fmap, length_seqZ].
Qed.

Lemma elem_of_fmap_seqZ {A} (f : Z → A) a n x :
  x ∈ f <$> seqZ a n ↔ ∃ k, x = f k ∧ a ≤ k < a + n.
Proof. rewrite list_elem_of_fmap. setoid_rewrite elem_of_seqZ. done. Qed.

(** a predicate that holds exactly below [p] selects the first [p] entries *)
Lemma filter_prefix {A} (P : A → Prop) `{∀ x, Decision (P x)} (f : Z → A) n p :
  0 ≤ p ≤ n → (∀ k, 0 ≤ k < p → P (f k)) → (∀ k, p ≤ k < n → ¬ P (f k)) →
  filter P (f <$> seqZ 0 n) = f <$> seqZ 0 p.
Proof.
  intros Hp H1 H2. replace n with (p + (n - p)) by lia.
  rewrite seqZ_app, fmap_app, filter_app by lia. rewrite filter_all, filter_none, app_nil_r; [done|..];
    intros x Hx; apply elem_of_fmap_seqZ in Hx as (k & -> & ?); [apply H2|apply H1]; lia.
Qed.

Lemma filter_suffix {A} (P : A → Prop) `{∀ x, Decision (P x)} (f : Z → A) n p :
  0 ≤ p ≤ n → (∀ k, 0 ≤ k < p → ¬ P (f k)) → (∀ k, p ≤ k < n → P (f k)) →
  filter P (f <$> seqZ 0 n) = f <$> seqZ p (n - p).
Proof.
  intros Hp H1 H2. replace n with (p + (n - p)) at 1 by lia.
  rewrite seqZ_app, fmap_app, filter_app by lia. rewrite (filter_none _ (f <$> seqZ 0 p)), filter_all; [done|..];
    intros x Hx; apply elem_of_fmap_seqZ in Hx as (k & -> & ?); [apply H2|apply H1]; lia.
Qed.

(** ** Garbage collection of a row *)

Lemma IsDataGarbage_ok row data :
  (addr row < data < addr row + 256 → is_inlined row = true) →
  ∃ g, IsDataGarbage row data = Ok g ∧
    (g = true ↔ data ≠ 0 ∧ ¬ (addr row < data < addr row + 256)).
Proof.
  intros H. unfold IsDataGarbage. destruct (Z.eqb_spec data 0); [eexists; naive_solver|].
  destruct ((addr row <? data) && (data <? addr row + 256)) eqn:E; zprop.
  - rewrite H by lia. cbn. eexists. split; [done|]. split; [done|]. naive_solver lia.
  - eexists. split; [done|]. split; [|done]. intros _. split; [done|]. intros [??].
    apply andb_false_iff in E as [E|E]; zprop; lia.
Qed.

(** the string objects among the versions [j, j + n) *)
Definition garbage_of (env : Env) (h : VHandle) (l : list (Z * Z)) : list (Z * Z * Z) :=
  (fun e => (e.2, str_region env e.2, 4 + str_len env e.2)) <$>
  filter (fun e => e.2 ≠ 0 ∧ ¬ (addr h < e.2 < addr h + 256)) l.

Lemma Collect_free_ok env h n : ∀ w j,
  len (versions h) = 2 * capacity h → 0 ≤ j → j + Z.of_nat n ≤ size h ≤ capacity h → objects_ok h →
  ∃ w', Collect_free env n w h j = Ok w' ∧ w_gc w' = w_gc w ∧
    w_freed w' = w_freed w ++ garbage_of env h (entry h <$> seqZ j (Z.of_nat n)).
Proof.
  induction n as [|n IH]; intros w j Hlen Hj Hn Hok.
  { exists w. split_and!; [done..|]. cbn. by rewrite app_nil_r. }
  cbn [Collect_free]. rewrite load_in by lia. cbn [mbind result_bind].
  destruct (IsDataGarbage_ok h (versions h).[capacity h + j]) as (g & Hg & Hgi); [apply Hok; lia|].
  unfold FreeIfGarbage. rewrite Hg. cbn [mbind result_bind].
  rewrite seqZ_cons by lia. cbn [fmap list_fmap].
  replace (Z.succ j) with (j + 1) by lia. replace (Z.pred (Z.of_nat (S n))) with (Z.of_nat n) by lia.
  destruct g; cbn [mret result_ret mbind result_bind].
  - match goal with |- context [Collect_free env n ?w1 h] =>
      destruct (IH w1 (j + 1)) as (w' & -> & Hgc & Hfr); [done|lia..|done|] end.
    exists w'. split_and!; [done..|]. rewrite Hfr. cbn [w_freed]. unfold garbage_of.
    rewrite filter_cons_True by (cbn [entry snd]; naive_solver). cbn. by rewrite <- app_assoc.
  - edestruct (IH w (j + 1)) as (w' & -> & Hgc & Hfr); [done|lia..|done|].
    exists w'. split_and!; [done..|]. rewrite Hfr. unfold garbage_of.
    rewrite filter_cons_False; [done|]. cbn [entry snd]. naive_solver.
Qed.

Lemma Collect_scan_ok fuel : ∀ h e limit i,
  shape h → 0 ≤ i < size h → limit ≤ i + Z.of_nat fuel →
  ∃ j, Collect_scan fuel h e limit i = Ok j ∧ i ≤ j < size h ∧ (i < j → j ≤ limit) ∧
    (i < j → Z.shiftr (versions h).[j] 32 < e) ∧
    (j = size h - 1 ∨ limit ≤ j ∨ e ≤ Z.shiftr (versions h).[j + 1] 32).
Proof.
  induction fuel as [|fuel IH]; intros h e limit i Hwf Hi Hl; cbn [Collect_scan].
  { exists i. split; [done|]. split; [lia|]. split; [lia|]. split; [lia|]. lia. }
  pose proof Hwf as [? ? ? ? ?]. rewrite u32_id by lia.
  destruct (Z.ltb_spec i (size h - 1)); destruct (Z.ltb_spec i limit); cbn [andb];
    try (exists i; split; [done|]; split; [lia|]; split; [lia|]; split; lia).
  rewrite load_in by lia. cbn [mbind result_bind].
  destruct (Z.ltb_spec (Z.shiftr (versions h).[i + 1] 32) e).
  - destruct (IH h e limit (i + 1)) as (j & -> & ? & ? & Hsh & Hend); [done|lia..|].
    exists j. split; [done|]. split; [lia|]. split; [lia|]. split; [|done].
    intros _. destruct (decide (j = i + 1)) as [->|]; [done|]. apply Hsh. lia.
  - exists i. split; [done|]. split; [lia|]. split; [lia|]. split; [lia|]. lia.
Qed.

(** [h'] is [h] without its first [i] versions *)
Record trimmed (h h' : VHandle) (i : Z) : Prop := {
  tr_range : 0 ≤ i < size h;
  tr_eq : h' = set_latest (set_cur_start (set_size (set_versions h (versions h'))
    (size h - i)) (u32 (cur_start h - i))) (latest_version h - i);
  tr_len : len (versions h') = len (versions h);
  tr_cells : ∀ k, 0 ≤ k < size h - i →
    (versions h').[k] = (versions h).[k + i] ∧
    (versions h').[capacity h + k] = (versions h).[capacity h + k + i];
}.

Lemma trimmed_entries h h' i : trimmed h h' i → entries h' = drop (Z.to_nat i) (entries h).
Proof.
  intros [Hi Heq Hlen Hc]. unfold entries. rewrite drop_fmap_seqZ by lia.
  replace (size h') with (size h - i) by (by rewrite Heq). apply fmap_seqZ_ext. intros k Hk.
  unfold entry. replace (capacity h') with (capacity h) by (by rewrite Heq).
  destruct (Hc k ltac:(lia)) as [E1 E2]. rewrite Z.add_0_l. rewrite E1, E2. f_equal; f_equal; lia.
Qed.

Lemma Collect_ok env w h e limit :
  shape h → 0 < size h → 0 ≤ limit → objects_ok h →
  ∃ w' h' i, Collect env w h e limit = Ok (w', h', i) ∧ trimmed h h' i ∧ i ≤ limit ∧
    (0 < i → Z.shiftr (versions h).[i] 32 < e) ∧
    (i = size h - 1 ∨ limit ≤ i ∨ e ≤ Z.shiftr (versions h).[i + 1] 32) ∧
    w_gc w' = w_gc w ∧
    w_freed w' = w_freed w ++ garbage_of env h (take (Z.to_nat i) (entries h)).
Proof.
  intros Hsh Hs Hl Hok. pose proof Hsh as [? ? ? ? ?].
  destruct (Collect_scan_ok (Z.to_nat limit) h e limit 0) as (i & Hscan & Hi & Hil & Hsup & Hmax); [done|lia..|].
  unfold Collect. rewrite Hscan. cbn [mbind result_bind].
  destruct (Z.eqb_spec i 0) as [->|Hi0].
  { exists w, h, 0. cbn. rewrite app_nil_r. split_and!; try done; try lia. split; [lia|..].
    - rewrite !Z.sub_0_r, u32_id by lia. by destruct h.
    - done.
    - intros k Hk. by rewrite !Z.add_0_r. }
  destruct (Collect_free_ok env h (Z.to_nat i) w 0) as (w' & Hfree & Hgc & Hfr); [done|lia..|done|].
  rewrite Hfree. cbn [mbind result_bind].
  destruct (memmove_in (versions h) (capacity h + i) (capacity h + size h) (capacity h))
    as (v1 & -> & Hl1 & Hv1); [lia..|]. cbn [mbind result_bind].
  destruct (memmove_in v1 i (size h) 0) as (v2 & -> & Hl2 & Hv2); [lia..|]. cbn [mbind result_bind].
  do 3 eexists. split; [done|]. split; [|split_and!; [lia|lia..|done|]].
  - split; [lia|cbn -[u32]; rewrite u32_id by lia; done|cbn; lia|].
    intros k Hk. cbn [versions capacity set_latest set_cur_start set_size set_versions]. split.
    + rewrite Hv2 by lia. replace ((0 <=? k) && (k <? 0 + (size h - i))) with true by (symmetry; zcase; lia).
      rewrite Hv1 by lia. zcase; try lia; f_equal; lia.
    + rewrite Hv2 by lia. zcase; try lia. rewrite Hv1 by lia. zcase; try lia. f_equal. lia.
  - rewrite Hfr. do 2 f_equal. unfold entries. rewrite <- fmap_take. f_equal.
    replace (size h) with (i + (size h - i)) by lia. rewrite seqZ_app by lia.
    rewrite take_app_length'; [|by rewrite length_seqZ]. f_equal. lia.
Qed.

(** ** Reading *)

Lemma sorted_in_sub l a b a' b' : sorted_in l a b → a ≤ a' → b' ≤ b → sorted_in l a' b'.
Proof. intros H ?? i j ???. apply H; lia. Qed.
#[export] Hint Resolve sorted_in_sub : felis.

(** [sid] belongs to the epoch that started at [cur_start]: it is above all
    older versions *)
Definition in_epoch (h : VHandle) (sid : Z) : Prop :=
  cur_start h ≤ size h ∧ ∀ k, 0 ≤ k < cur_start h → (versions h).[k] < sid.

(** the search of [WithVersion] in a window whose outside is decided *)
Lemma search_ok h sid a b :
  wf h → 0 ≤ a ≤ b → b ≤ size h →
  (∀ k, 0 ≤ k < a → (versions h).[k] < sid) → (∀ k, b ≤ k < size h → sid ≤ (versions h).[k]) →
  ∃ p, lower_bound (versions h) a b sid = Ok p ∧ lb_point (versions h) 0 (size h) sid p.
Proof.
  intros [[? ? ? ? ?] Hso] Hab Hb H1 H2.
  destruct (lower_bound_spec (versions h) a b sid) as (p & Hp & Hr & Hlo & Hhi); [lia..|eauto with felis lia|].
  exists p. split; [done|]. split; [lia|]. split; intros k Hk.
  - destruct (Z.lt_ge_cases k a); [apply H1; lia|apply Hlo; lia].
  - destruct (Z.lt_ge_cases k b); [apply Hhi; lia|apply H2; lia].
Qed.

Lemma WithVersion_ok h sid :
  wf h → in_epoch h sid → ¬ (latest_version h = 0 ∧ sid ≤ (versions h).[0]) →
  ∃ p, lb_point (versions h) 0 (size h) sid p ∧
    WithVersion h sid = Ok (if p =? 0 then None else Some (p - 1)).
Proof.
  intros Hwf [Hcs Hep] Hnz. pose proof Hwf as [[? ? ? ? ?] Hso].
  unfold WithVersion. destruct (Z.leb_spec 0 (latest_version h)) as [Hl|Hl].
  2:{ destruct (search_ok h sid (cur_start h) (size h)) as (p & -> & Hp); [done|lia..|done|lia|].
      exists p. split; [done|]. done. }
  rewrite (load_in _ (latest_version h)) by lia. cbn [mbind result_bind].
  destruct (Z.ltb_spec (versions h).[latest_version h] sid) as [Hlt|Hge].
  - assert (Hbelow : ∀ k, 0 ≤ k < latest_version h + 1 → (versions h).[k] < sid).
    { intros k Hk. eapply Z.le_lt_trans; [apply (Hso k (latest_version h)); lia|done]. }
    destruct (Z.leb_spec (size h) (latest_version h + 1)) as [Hend|Hend]; cbn [mret result_ret mbind result_bind].
    + exists (latest_version h + 1). split; [split; [lia|]; split; [done|lia]|].
      replace (latest_version h + 1 =? 0) with false by (symmetry; zcase; lia). done.
    + rewrite (load_in _ (latest_version h + 1)) by lia. cbn [mbind result_bind mret result_ret].
      destruct (Z.leb_spec sid (versions h).[latest_version h + 1]) as [Hle|Hgt].
      * exists (latest_version h + 1). split.
        { split; [lia|]. split; [done|]. intros k Hk.
          eapply Z.le_trans; [exact Hle|apply Hso; lia]. }
        replace (latest_version h + 1 =? 0) with false by (symmetry; zcase; lia). done.
      * destruct (search_ok h sid (latest_version h + 1) (size h)) as (p & -> & Hp); [done|lia..|done|lia|].
        exists p. done.
  - assert (Hnz' : 0 < latest_version h).
    { destruct (Z.eq_dec (latest_version h) 0) as [E|]; [|lia]. destruct Hnz. by rewrite E in Hge. }
    assert (Habove : ∀ k, latest_version h ≤ k < size h → sid ≤ (versions h).[k]).
    { intros k Hk. eapply Z.le_trans; [exact Hge|apply Hso; lia]. }
    rewrite (load_in _ (latest_version h - 1)) by lia. cbn [mbind result_bind].
    destruct (Z.ltb_spec (versions h).[latest_version h - 1] sid) as [Hlt|Hgt].
    + exists (latest_version h). split.
      { split; [lia|]. split; [|done]. intros k Hk. eapply Z.le_lt_trans; [apply (Hso k (latest_version h - 1)); lia|done]. }
      replace (latest_version h =? 0) with false by (symmetry; zcase; lia). done.
    + assert (cur_start h ≤ latest_version h).
      { destruct (Z.lt_ge_cases (latest_version h) (cur_start h)); [|lia].
        specialize (Hep (latest_version h) ltac:(lia)). lia. }
      destruct (search_ok h sid (cur_start h) (latest_version h)) as (p & -> & Hp); [done|lia..|done|done|].
      exists p. done.
Qed.

Lemma read_entry_lb h sid p :
  lb_point (versions h) 0 (size h) sid p →
  read_entry sid (entries h) = if p =? 0 then None else Some (entry h (p - 1)).
Proof.
  intros (Hp & Hlo & Hhi). unfold read_entry, entries.
  rewrite (filter_prefix _ _ (size h) p); [|lia|done|intros k Hk; cbn; specialize (Hhi k); lia].
  destruct (Z.eqb_spec p 0) as [->|]; [done|].
  replace p with ((p - 1) + 1) at 1 by lia. rewrite seqZ_app, fmap_app by lia.
  rewrite last_app. cbn. done.
Qed.

Section Reading.
Context `{SyncService}.

(** what a reader gets from the row it reads *)
Definition read_result (r : option (Z * Z)) : result (option Z) :=
  match r with
  | None => Ok None
  | Some (_, o) => if IsPendingVal o then Err Blocked else Ok (Some o)
  end.

Lemma ReadWithVersion_ok h sid :
  wf h → in_epoch h sid → ¬ (latest_version h = 0 ∧ sid ≤ (versions h).[0]) →
  ReadWithVersion h sid = read_result (read_entry sid (entries h)).
Proof.
  intros Hwf Hep Hnz. destruct (WithVersion_ok h sid Hwf Hep Hnz) as (p & Hp & Hw).
  unfold ReadWithVersion. rewrite Hw, (read_entry_lb h sid p Hp). cbn [mbind result_bind].
  destruct (Z.eqb_spec p 0); [done|]. destruct Hp as [Hr _]. destruct Hwf as [[? ? ? ? ?] _].
  rewrite load_in by lia. done.
Qed.
End Reading.

(** ** Writing *)

(** version [k] is the only one of transaction [sid] *)
Definition version_at (h : VHandle) (sid k : Z) : Prop :=
  0 ≤ k < size h ∧ ∀ j, 0 ≤ j < size h → ((versions h).[j] = sid ↔ j = k).

Lemma write_index_ok h sid k :
  wf h → cur_start h ≤ k → version_at h sid k →
  (latest_version h + 1 = size h → (versions h).[size h] ≠ sid) →
  write_index h sid = Ok k.
Proof.
  intros Hwf Hk [Hkr Huniq] Hstale. pose proof Hwf as [[? ? ? ? ?] Hso].
  unfold write_index. rewrite (load_in _ (latest_version h + 1)) by lia. cbn [mbind result_bind].
  destruct (Z.eqb_spec (versions h).[latest_version h + 1] sid) as [E|E].
  - destruct (Z.eq_dec (latest_version h + 1) (size h)) as [E2|]; [rewrite E2 in E; by destruct Hstale|].
    apply Huniq in E; [|lia]. by rewrite E.
  - destruct (lower_bound_spec (versions h) (cur_start h) (size h) sid) as (i & -> & Hi & Hlo & Hhi);
      [lia..|eauto with felis lia|]. cbn [mbind result_bind].
    assert (Hvk : (versions h).[k] = sid) by by apply Huniq.
    assert (i = k) as ->.
    { destruct (Z.lt_total i k) as [?|[?|?]]; [|done|].
      - specialize (Hhi i ltac:(lia)). pose proof (Hso i k ltac:(lia) ltac:(lia) ltac:(lia)).
        apply Huniq; lia.
      - specialize (Hlo k ltac:(lia)). lia. }
    replace (k =? size h) with false by (symmetry; zcase; lia).
    rewrite load_in by lia. cbn [mbind result_bind]. by rewrite Hvk, Z.eqb_refl.
Qed.

(** the array after the object of version [k] is replaced *)
Lemma entries_store h k o :
  shape h → 0 ≤ k < size h →
  entries (set_versions h (<[Z.to_nat (capacity h + k) := o]> (versions h))) =
  (fun j => if j =? k then ((versions h).[k], o) else entry h j) <$> seqZ 0 (size h).
Proof.
  intros [? ? ? ? ?] Hk. unfold entries. cbn [size set_versions]. apply fmap_seqZ_ext. intros j Hj.
  unfold entry. cbn [versions capacity set_versions]. rewrite !at_insert by lia.
  replace (0 + j =? capacity h + k) with false by (symmetry; zcase; lia).
  destruct (Z.eqb_spec (0 + j) k) as [<-|].
  - by rewrite Z.eqb_refl.
  - by replace (capacity h + (0 + j) =? capacity h + k) with false by (symmetry; zcase; lia).
Qed.

Lemma write_entry_at h sid k o :
  version_at h sid k →
  write_entry sid o (entries h) =
  (fun j => if j =? k then ((versions h).[k], o) else entry h j) <$> seqZ 0 (size h).
Proof.
  intros [Hk Hu]. unfold write_entry, entries. rewrite <- list_fmap_compose.
  apply fmap_seqZ_ext. intros j Hj. cbn -[at_ Z.add]. destruct (Z.eqb_spec (0 + j) k) as [->|Hne].
  - assert ((versions h).[k] = sid) as -> by by apply Hu. by rewrite Z.eqb_refl.
  - destruct (Z.eqb_spec (versions h).[0 + j] sid) as [E|]; [|done]. apply Hu in E; lia.
Qed.

(** the row's registration is up to date *)
Definition reg_inv (g : GC) (h : VHandle) : Prop :=
  gc_wf g ∧ (gc_handle h = 0 ∨ registered g (gc_handle h) (addr h)).
(** [AddRow] on this core in this epoch finds a block *)
Definition can_register (g : GC) (core epoch_nr : Z) : Prop :=
  epoch_nr ≠ 0 ∧ queues g (QFree core) ≠ [].

(** the objects of the row changed, not its versions *)
Record same_versions (h h' : VHandle) : Prop := {
  sv_addr : addr h' = addr h;
  sv_inline : inline_used h' = inline_used h;
  sv_cap : capacity h' = capacity h;
  sv_size : size h' = size h;
  sv_start : cur_start h' = cur_start h;
  sv_len : len (versions h') = len (versions h);
  sv_cells : ∀ j, 0 ≤ j < capacity h → (versions h').[j] = (versions h).[j];
}.

Lemma same_versions_wf h h' :
  wf h → same_versions h h' → -1 ≤ latest_version h' < size h → wf h'.
Proof.
  intros [[? ? ? ? ?] Hso] [? ? E1 E2 E3 E4 Hc] ?. split; [split; rewrite ?E1, ?E2, ?E3, ?E4; done|].
  intros i j ???. rewrite !Hc by lia. apply Hso; lia.
Qed.

Lemma same_versions_refl h : same_versions h h.
Proof. by split. Qed.

Lemma write_store_ok h k o :
  shape h → 0 ≤ k < size h →
  let h' := set_latest (set_versions h (<[Z.to_nat (capacity h + k) := o]> (versions h)))
              (Z.max (latest_version h) k) in
  same_versions h h' ∧ -1 ≤ latest_version h' < size h.
Proof.
  intros [? ? ? ? ?] Hk h'. split; [|cbn; lia]. split; try done; cbn [h' versions set_latest set_versions]; [by rewrite len_insert|].
  intros j Hj. rewrite at_insert by lia. by replace (j =? capacity h + k) with false by (symmetry; zcase; lia).
Qed.

Lemma AddRow_inv g core row e r :
  AddRow g core row e = Ok r →
  e ≠ 0 ∧ (queues g (QHalf core (e mod g_gc_every_epoch g)) ≠ [] ∨ queues g (QFree core) ≠ []).
Proof.
  unfold AddRow, slab_Add. intros H. inv_ok. zprop. split; [done|].
  destruct (queues g (QHalf core _)); [|by left]. destruct (queues g (QFree core)); [done|by right].
Qed.

Section Writing.
Context (env : Env) (w : World) (h : VHandle) (sid k obj epoch_nr : Z).
Context (Hwf : wf h) (Hk : cur_start h ≤ k) (Hva : version_at h sid k).
Context (Hstale : latest_version h + 1 = size h → (versions h).[size h] ≠ sid).
Context (Hobj : addr h < obj < addr h + 256 → is_inlined h = true).
Context (Hreg : reg_inv (w_gc w) h).

(** the effect of a write *)
Lemma WriteWithVersion_ok w' h' :
  WriteWithVersion env w h sid obj epoch_nr = Ok (w', h') →
  entries h' = write_entry sid obj (entries h) ∧ wf h' ∧ same_versions h h' ∧
  latest_version h' = Z.max (latest_version h) k ∧ reg_inv (w_gc w') h' ∧
  (∀ hd r, registered (w_gc w) hd r → registered (w_gc w') hd r) ∧
  (versions h').[capacity h + k] = obj ∧
  (∀ j, 0 ≤ j < 2 * capacity h → j ≠ capacity h + k → (versions h').[j] = (versions h).[j]).
Proof using All.
  intros HW. pose proof Hwf as [Hsh _]. pose proof Hsh as [? ? ? ? ?]. pose proof Hva as [Hkr _].
  destruct (write_store_ok h k obj Hsh Hkr) as [Hsv Hlat].
  unfold WriteWithVersion in HW. rewrite (write_index_ok h sid k) in HW by done. cbn [mbind result_bind] in HW.
  rewrite store_in in HW by lia. cbn [mbind result_bind] in HW.
  set (h1 := set_latest _ _) in *.
  assert (He : entries h1 = write_entry sid obj (entries h)).
  { rewrite (write_entry_at h sid k) by done. by rewrite <- entries_store. }
  assert (Hw1 : wf h1) by by eapply same_versions_wf.
  assert (Hcell : (versions h1).[capacity h + k] = obj ∧
    ∀ j, 0 ≤ j < 2 * capacity h → j ≠ capacity h + k → (versions h1).[j] = (versions h).[j]).
  { cbn [versions h1 set_latest set_versions]. rewrite at_insert by lia. rewrite Z.eqb_refl. split; [done|].
    intros j ??. rewrite at_insert by lia. zcase; [lia|done]. }
  destruct Hcell as [Hc1 Hc2].
  destruct (Z.eqb_spec k (u32 (size h1 - 1))); [injection HW as <- <-|].
  { split; [exact He|]. split; [destruct Hw1 as [[]]; by split; [split|]|]. split; [by destruct Hsv|].
    do 2 (split; [done|]). done. }
  destruct (IsDataGarbage_ok h1 obj) as (g & Hg & _); [done|]. rewrite Hg in HW. cbn [mbind result_bind] in HW.
  destruct (g && (gc_handle h1 =? 0)) eqn:Eg; [|injection HW as <- <-; repeat (split; [done|]); done].
  change (addr h1) with (addr h) in HW. apply bind_ok in HW as ([gc hd] & Hadd & HW). injection HW as <- <-.
  destruct Hreg as [Hgwf _]. destruct (AddRow_inv _ _ _ _ _ Hadd).
  destruct (AddRow_registered (w_gc w) (env_core env) (addr h) epoch_nr) as
    (gc' & hd' & Hadd' & Hgwf' & Hhd & Hrg & _ & Hfr); [done..|]. rewrite Hadd in Hadd'. injection Hadd' as <- <-.
  split; [exact He|]. split; [destruct Hw1 as [[]]; by split; [split|]|]. split; [by destruct Hsv|].
  split; [done|]. split; [split; [exact Hgwf'|right; exact Hrg]|]. split; [exact Hfr|]. split; [exact Hc1|exact Hc2].
Qed.

(** a write succeeds when the registry has a free block *)
Lemma WriteWithVersion_total :
  can_register (w_gc w) (env_core env) epoch_nr →
  ∃ w' h', WriteWithVersion env w h sid obj epoch_nr = Ok (w', h').
Proof using All.
  intros [Hep Hroom]. pose proof Hwf as [[? ? ? ? ?] _]. pose proof Hva as [Hkr _].
  unfold WriteWithVersion. rewrite (write_index_ok h sid k) by done. cbn [mbind result_bind].
  rewrite store_in by lia. cbn [mbind result_bind]. case_match; [by do 2 eexists|].
  edestruct (IsDataGarbage_ok) as (g & -> & _); [|cbn [mbind result_bind]]; [done|].
  case_match; [|by do 2 eexists]. destruct Hreg as [Hgwf _].
  destruct (AddRow_registered (w_gc w) (env_core env) (addr h) epoch_nr) as (gc & hd & Hadd & _); [done..|by right|].
  cbn [addr set_latest set_versions]. rewrite Hadd. by do 2 eexists.
Qed.
End Writing.
