(* ===== verification/VHandleAppend.v ===== *)
(** Correctness of inserting a version: [AbsorbNewVersionNoLock],
    [IncreaseSize] and [AppendNewVersionNoLock] of vhandle.cc. *)

From S2P Require Import Prelude LowerBound Bits GarbageSlab Sync Region VHandle VHandleFacts.

(** ** Placing a booked version *)

Lemma land_mark x : 0 ≤ x < 2 ^ 32 → Z.land x (u32 (Z.lnot 0x03FF)) = 1024 * (x / 1024).
Proof.
  intros Hx. replace (1024 * (x / 1024)) with (Z.shiftl (Z.shiftr x 10) 10)
    by (rewrite Z.shiftl_mul_pow2, Z.shiftr_div_pow2 by lia; change (2 ^ 10) with 1024; lia).
  change (u32 (Z.lnot 0x03FF)) with (Z.shiftl (Z.ones 22) 10).
  apply Z.bits_inj'. intros n Hn. rewrite Z.land_spec, !Z.shiftl_spec by lia.
  destruct (Z.lt_ge_cases n 10).
  - rewrite !(Z.testbit_neg_r _ (n - 10)) by lia. by rewrite andb_false_r.
  - rewrite Z.shiftr_spec by lia. replace (n - 10 + 10) with n by lia.
    destruct (Z.lt_ge_cases n 32).
    + rewrite Z.ones_spec_low by lia. by rewrite andb_true_r.
    + rewrite (testbit_high x 32) by lia. done.
Qed.

(** the index where the version [last] is put among the first [end_] ones *)
Definition insertion_point (l : list Z) (end_ last i : Z) : Prop :=
  0 ≤ i ≤ end_ ∧ (∀ k, 0 ≤ k < i → l.[k] ≤ last) ∧ (∀ k, i ≤ k < end_ → last ≤ l.[k]).

(** [vs'] is [vs] with the cells from [i] on moved up, [extra] cells free
    below [last] *)
Definition absorbed (vs vs' : list Z) (end_ extra i last : Z) : Prop :=
  len vs' = len vs ∧ (∀ k, 0 ≤ k < i → vs'.[k] = vs.[k]) ∧ vs'.[i + extra] = last ∧
  (∀ k, i ≤ k < end_ → vs'.[k + 1 + extra] = vs.[k]) ∧
  (∀ k, end_ + extra < k < len vs → vs'.[k] = vs.[k]).

(** the two-step search: the last block of 1024 first, then what is below *)
Lemma absorb_search vs end_ last :
  0 < end_ < 2 ^ 31 → end_ ≤ len vs → sorted_in vs 0 end_ →
  let mark := Z.land (end_ - 1) (u32 (Z.lnot 0x03FF)) in
  ∃ i, (i ← FastLowerBound vs mark end_ last;
        if i =? mark then lower_bound vs 0 mark last else mret i) = Ok i ∧
    insertion_point vs end_ last i.
Proof.
  intros Hend Hlen Hso mark. unfold mark. rewrite land_mark by lia.
  pose proof (Z.div_mod (end_ - 1) 1024 ltac:(lia)). pose proof (Z.mod_pos_bound (end_ - 1) 1024 ltac:(lia)).
  set (m := 1024 * ((end_ - 1) / 1024)) in *.
  assert (0 ≤ m) by (pose proof (Z.div_pos (end_ - 1) 1024); lia).
  destruct (FastLowerBound_ub vs m (end_ - m) last) as (i & Hi & Hr & Hlo & Hhi); [lia..| |].
  { replace (m + (end_ - m)) with end_ by lia. eauto with felis lia. }
  replace (m + (end_ - m)) with end_ in * by lia.
  rewrite Hi. cbn [mbind result_bind]. destruct (Z.eqb_spec i m) as [->|].
  - destruct (lower_bound_spec vs 0 m last) as (i & -> & Hr2 & Hlo2 & Hhi2); [lia..|eauto with felis lia|].
    exists i. split; [done|]. split; [lia|]. split; intros k Hk; [specialize (Hlo2 k); lia|].
    destruct (Z.lt_ge_cases k m); [apply Hhi2; lia|specialize (Hhi k); lia].
  - exists i. split; [done|]. split; [lia|]. split; intros k Hk; [|specialize (Hhi k); lia].
    eapply Z.le_trans; [apply (Hso k (Z.max k m)); lia|apply Hlo; lia].
Qed.

Lemma AbsorbNewVersionNoLock_ok h end_ extra :
  len (versions h) = 2 * capacity h → 0 ≤ end_ < 2 ^ 31 → 0 ≤ extra → end_ + extra < capacity h →
  sorted_in (versions h) 0 end_ →
  ∃ vs i, AbsorbNewVersionNoLock h end_ extra = Ok (set_versions h vs, i) ∧
    insertion_point (versions h) end_ (versions h).[end_] i ∧
    absorbed (versions h) vs end_ extra i (versions h).[end_].
Proof.
  intros Hlen Hend Hx Hcap Hso. unfold AbsorbNewVersionNoLock.
  destruct (Z.eqb_spec end_ 0) as [->|Hnz].
  - rewrite load_in by lia. cbn [mbind result_bind]. rewrite store_in by lia. cbn [mbind result_bind].
    do 2 eexists. split; [done|]. split; [split_and!; lia|]. split_and!.
    + by rewrite len_insert.
    + lia.
    + rewrite at_insert by lia. by rewrite Z.add_0_l, Z.eqb_refl.
    + lia.
    + intros k Hk. rewrite at_insert by lia. by replace (k =? extra) with false by (symmetry; zcase; lia).
  - rewrite (load_in _ end_) by lia. cbn [mbind result_bind]. set (last := (versions h).[end_]).
    destruct (absorb_search (versions h) end_ last) as (i & Hs & Hip); [lia..|done|].
    set (mark := Z.land _ _) in *.
    destruct (FastLowerBound (versions h) mark end_ last) as [i0|]; [|done].
    cbn [mbind result_bind] in *. rewrite Hs. cbn [mbind result_bind].
    destruct Hip as (Hir & Hlo & Hhi).
    destruct (memmove_in (versions h) i end_ (i + 1 + extra)) as (v1 & -> & Hl1 & Hv1); [lia..|].
    cbn [mbind result_bind]. rewrite store_in by lia. cbn [mbind result_bind].
    do 2 eexists. split; [done|]. split; [done|]. split_and!.
    + by rewrite len_insert.
    + intros k Hk. rewrite at_insert by lia. rewrite Hv1 by lia. zcase; try lia; done.
    + rewrite at_insert by lia. by rewrite Z.eqb_refl.
    + intros k Hk. rewrite at_insert by lia. rewrite Hv1 by lia. zcase; try lia. f_equal. lia.
    + intros k Hk. rewrite at_insert by lia. rewrite Hv1 by lia. zcase; try lia; done.
Qed.

(** ** Growing the array *)

Lemma grown_capacity_ok sz : 4 ≤ sz < 2 ^ 20 → sz < grown_capacity sz ≤ 2 ^ 20.
Proof.
  intros H. unfold grown_capacity, clz32. replace (32 - (31 - Z.log2 sz)) with (Z.succ (Z.log2 sz)) by lia.
  rewrite Z.shiftl_1_l. pose proof (Z.log2_spec sz ltac:(lia)).
  assert (Z.log2 sz < 20) by (apply Z.log2_lt_pow2; lia).
  assert (2 ^ Z.succ (Z.log2 sz) ≤ 2 ^ 20) by (apply Z.pow_le_mono_r; lia).
  rewrite u32_id by lia. lia.
Qed.

(** [h'] has room for the versions of [h], which it keeps *)
Record roomy (h h' : VHandle) : Prop := {
  ro_eq : h' = set_array h (alloc_by_regionid h') (capacity h') (versions_ptr h') (versions h');
  ro_cap : capacity h ≤ capacity h' ≤ 2 ^ 20;
  ro_size : size h ≤ capacity h';
  ro_len : len (versions h') = 2 * capacity h';
  ro_cells : ∀ k, 0 ≤ k < capacity h →
    (versions h').[k] = (versions h).[k] ∧
    (versions h').[capacity h' + k] = (versions h).[capacity h + k];
}.

Lemma grow_if_full_ok env w h :
  4 ≤ capacity h ≤ 2 ^ 20 → len (versions h) = 2 * capacity h → size h < 2 ^ 20 →
  ∃ w' h', grow_if_full env w h = Ok (w', h') ∧ roomy h h' ∧ w_gc w' = w_gc w.
Proof.
  intros Hc Hl Hs. unfold grow_if_full. destruct (Z.ltb_spec (capacity h) (size h)) as [Hfull|Hfit].
  2:{ exists w, h. split; [done|]. split; [|done]. split; [by destruct h|lia..|done|done]. }
  pose proof (grown_capacity_ok (size h) ltac:(lia)) as Hg. set (nc := grown_capacity (size h)) in *.
  unfold EnlargePair64Array. rewrite region_serves_small by lia. cbn [negb].
  do 2 eexists. split; [done|]. split; [|by case_match].
  split; cbn [capacity versions size set_array]; [done|lia|lia|apply len_tab; lia|].
  intros k Hk. rewrite !at_tab by lia. split; zcase; try lia. f_equal. lia.
Qed.

(** ** The first append of an epoch *)

Lemma trimmed_refl h : 0 < size h → 0 ≤ cur_start h < 2 ^ 32 → trimmed h h 0.
Proof.
  intros. split; [lia| |done|].
  - rewrite !Z.sub_0_r, u32_id by lia. by destruct h.
  - intros k Hk. by rewrite !Z.add_0_r.
Qed.

(** the collection step of [register_garbage] *)
Lemma register_collect_ok env w h e latest :
  shape h → 0 < size h → objects_ok h → latest < size h →
  ∃ w' h' i, (if 0 <? latest then
       '(w, h, _) ← Collect env w h e (Z.min (K_ 16) latest); mret (w, h)
     else mret (w, h)) = Ok (w', h') ∧ trimmed h h' i ∧ i ≤ Z.max 0 latest ∧ w_gc w' = w_gc w.
Proof.
  intros Hsh Hs Hok Hl. pose proof Hsh as [? ? ? ? ?].
  destruct (Z.ltb_spec 0 latest).
  - destruct (Collect_ok env w h e (Z.min (K_ 16) latest)) as (w' & h' & i & -> & Htr & Hi & _ & _ & Hg & _);
      [done..|unfold K_; rewrite Z.shiftl_mul_pow2; lia|done|].
    exists w', h', i. split; [done|]. split; [done|]. split; [lia|done].
  - exists w, h, 0. split; [done|]. split; [by apply trimmed_refl|]. split; [lia|done].
Qed.

Lemma trimmed_objects_ok h h' i : trimmed h h' i → objects_ok h → objects_ok h'.
Proof.
  intros [Hi Heq Hlen Hc] Hok k. rewrite Heq. cbn [size capacity addr versions set_latest set_cur_start set_size set_versions].
  intros Hk. destruct (Hc k Hk) as [_ ->]. intros Ho. rewrite <- Z.add_assoc in Ho.
  apply (Hok (k + i)); [lia|exact Ho].
Qed.

(** what [register_garbage] does before it looks for garbage left: the old
    registration is collected and dropped *)
Lemma register_remove_ok env w h e handle latest :
  handle = gc_handle h → latest = latest_version h →
  shape h → 0 < size h → objects_ok h → reg_inv (w_gc w) h →
  queues (w_gc w) (QFree (env_core env)) ≠ [] →
  ∃ w' h1 i, (if negb (handle =? 0) then
       '(w, h) ← (if 0 <? latest then
            '(w, h, _) ← Collect env w h e (Z.min (K_ 16) latest); mret (w, h)
          else mret (w, h));
       gc ← RemoveRow (w_gc w) handle;
       mret (mkWorld gc (w_freed w) (w_nr_bytes w), set_gc_handle h 0)
     else mret (w, h)) = Ok (w', set_gc_handle h1 0) ∧ trimmed h h1 i ∧ i ≤ Z.max 0 latest ∧
     gc_wf (w_gc w') ∧ queues (w_gc w') (QFree (env_core env)) ≠ [].
Proof.
  intros -> -> Hsh Hs Hok [Hgwf Hreg] Hroom. pose proof Hsh as [? ? ? Hlat ?].
  destruct (Z.eqb_spec (gc_handle h) 0) as [E0|E0]; cbn [negb].
  - exists w, h, 0. split; [rewrite <- E0; by destruct h|]. split; [by apply trimmed_refl|].
    split; [lia|done].
  - destruct Hreg as [|Hreg]; [done|].
    destruct (register_collect_ok env w h e (latest_version h)) as (w1 & h1 & i & Hc & Htr & Hi & Hgc);
      [done..|lia|].
    destruct (RemoveRow_registered (w_gc w) (gc_handle h) (addr h)) as (g' & Hrm & Hwf' & _ & Hfree & _);
      [done..|].
    rewrite Hc. cbn [mbind result_bind]. rewrite Hgc, Hrm.
    exists (mkWorld g' (w_freed w1) (w_nr_bytes w1)), h1, i. split_and!; [done..|by apply Hfree].
Qed.

(** its test for garbage left *)
Lemma register_left_ok h0 h1 i (gl : bool) :
  shape h0 → objects_ok h0 → trimmed h0 h1 i →
  ∃ gl' : bool, (if negb gl && (0 <=? latest_version (set_gc_handle h1 0)) then
       o ← load (versions (set_gc_handle h1 0)) (capacity (set_gc_handle h1 0) + latest_version (set_gc_handle h1 0));
       IsDataGarbage (set_gc_handle h1 0) o
     else mret gl) = Ok gl'.
Proof.
  intros [? ? ? ? ?] Hok Htr. pose proof Htr as [Hir Heq Hlen Hcells].
  cbn [set_gc_handle latest_version versions capacity].
  replace (latest_version h1) with (latest_version h0 - i) by by rewrite Heq.
  replace (capacity h1) with (capacity h0) by by rewrite Heq.
  destruct (negb _ && (0 <=? latest_version h0 - i)) eqn:E; [|by eexists]. zprop.
  rewrite load_in by lia. cbn [mbind result_bind].
  edestruct (IsDataGarbage_ok (set_gc_handle h1 0)) as (g & -> & _); [|by eexists].
  intros Ho. apply (trimmed_objects_ok h0 h1 i Htr Hok (latest_version h0 - i)).
  - replace (size h1) with (size h0 - i) by (by rewrite Heq). lia.
  - by replace (capacity h1) with (capacity h0) by (by rewrite Heq).
Qed.

(** only the first append of an epoch needs a free block *)
Definition may_register (g : GC) (h : VHandle) (core e : Z) : Prop :=
  cur_start h ≠ latest_version h + 1 → can_register g core e.

Lemma register_garbage_ok env w h e :
  shape h → 0 < size h → objects_ok h → reg_inv (w_gc w) h → may_register (w_gc w) h (env_core env) e →
  ∃ w' h1 i hd, register_garbage env w h (gc_handle h) (latest_version h) e = Ok (w', set_gc_handle h1 hd) ∧
    trimmed (set_cur_start h (latest_version h + 1)) h1 i ∧ i ≤ Z.max 0 (latest_version h) ∧
    reg_inv (w_gc w') (set_gc_handle h1 hd) ∧ (cur_start h = latest_version h + 1 → w_gc w' = w_gc w).
Proof.
  intros Hsh Hs Hok Hreg Hcan. pose proof Hsh as [? ? ? ? ?].
  unfold register_garbage. rewrite !u32_id by lia. remember (set_cur_start h (latest_version h + 1)) as h0 eqn:Eh0.
  destruct (Z.eqb_spec (cur_start h) (latest_version h + 1)) as [Ecs|Ecs].
  { exists w, h, 0, (gc_handle h). assert (h0 = h) as -> by (subst h0; rewrite <- Ecs; by destruct h).
    assert (set_gc_handle h (gc_handle h) = h) as -> by by destruct h.
    split; [done|]. split; [by apply trimmed_refl|]. split; [lia|]. split; [done|done]. }
  destruct (Hcan Ecs) as [He Hroom].
  assert (Hsh0 : shape h0) by (subst h0; split; cbn; lia).
  assert (Hok0 : objects_ok h0) by by subst.
  destruct (register_remove_ok env w h0 e (gc_handle h) (latest_version h))
    as (w1 & h1 & i & -> & Htr & Hi & Hgwf1 & Hroom1); [by subst|by subst|done|by subst|done|by subst|done|].
  cbn [mbind result_bind].
  destruct (register_left_ok h0 h1 i (K_ 16 <=? latest_version h)) as [gl ->]; [done..|].
  cbn [mbind result_bind]. destruct gl.
  - destruct (AddRow_registered (w_gc w1) (env_core env) (addr h1) e) as (g' & hd & Ha & Hw' & _ & Hrg & _);
      [done..|by right|].
    change (addr (set_gc_handle h1 0)) with (addr h1). rewrite Ha. cbn [mbind result_bind].
    exists (mkWorld g' (w_freed w1) (w_nr_bytes w1)), h1, i, hd. split; [done|]. split; [done|]. split; [done|]. split; [|done]. split; [exact Hw'|right; exact Hrg].
  - exists w1, h1, i, 0. split; [done|]. split; [done|]. split; [done|]. split; [|done]. split; [exact Hgwf1|by left].
Qed.

(** ** [IncreaseSize] *)

(** a row during the initialization phase of epoch [e]: the written versions
    are of older epochs, the others of this epoch and pending *)
Record init_ok (h : VHandle) (e : Z) : Prop := {
  in_wf : wf h;
  in_old : ∀ k, 0 ≤ k ≤ latest_version h → Z.shiftr (versions h).[k] 32 < e;
  in_new : ∀ k, latest_version h < k < size h → Z.shiftr (versions h).[k] 32 = e ∧
    (versions h).[capacity h + k] = kPendingValue;
  in_objects : objects_ok h;
  in_addr : addr h + 256 ≤ kPendingValue;
  in_empty : size h = 0 → capacity h < K_ 512;
}.

(** [h'] is [h] without its first [i] versions and with [delta] more cells,
    whose objects are pending *)
Record extended (h h' : VHandle) (i delta : Z) : Prop := {
  ex_addr : addr h' = addr h;
  ex_inline : inline_used h' = inline_used h;
  ex_buf : buf_pos h' = buf_pos h;
  ex_ondsplt : nr_ondsplt h' = nr_ondsplt h;
  ex_cap : 4 ≤ capacity h' ≤ 2 ^ 20;
  ex_len : len (versions h') = 2 * capacity h';
  ex_drop : 0 ≤ i ≤ size h;
  ex_size : size h' = size h - i + delta ∧ size h' ≤ capacity h';
  ex_latest : latest_version h' = latest_version h - i;
  ex_cells : ∀ k, 0 ≤ k < size h - i →
    (versions h').[k] = (versions h).[k + i] ∧
    (versions h').[capacity h' + k] = (versions h).[capacity h + k + i];
  ex_pending : ∀ k, size h - i ≤ k < size h' → (versions h').[capacity h' + k] = kPendingValue;
}.

(** dropping versions of an extended row *)
Lemma extended_trimmed h h1 h2 i j delta :
  extended h h1 i delta → trimmed h1 h2 j → 0 ≤ delta → 0 ≤ j ≤ size h - i → extended h h2 (i + j) delta.
Proof.
  intros [E1 E2 E3 E4 E5 E6 Ed [E7 E8] E9 Hc Hp] [Hj Heq Hlen Hc2] Hd Hjs.
  replace (capacity h1) with (capacity h2) in * by (by rewrite Heq).
  split; try (rewrite Heq; cbn; lia).
  - done.
  - lia.
  - lia.
  - replace (size h2) with (size h1 - j) by (by rewrite Heq). lia.
  - intros k Hk. destruct (Hc2 k ltac:(lia)) as [-> ->]. rewrite <- Z.add_assoc.
    destruct (Hc (k + j) ltac:(lia)) as [-> ->]. split; f_equal; lia.
  - intros k. replace (size h2) with (size h1 - j) by (by rewrite Heq). intros Hk.
    destruct (Hc2 k ltac:(lia)) as [_ ->]. rewrite <- Z.add_assoc. apply Hp. lia.
Qed.

Lemma extended_refl h : shape h → extended h h 0 0.
Proof.
  intros [? ? ? ? ?]. split; try done; try lia. intros k Hk. by rewrite !Z.add_0_r.
Qed.

(** the early collection, for arrays of 512K cells and more *)
Lemma early_collect_ok env w h delta e :
  init_ok h e → 0 < delta →
  ∃ w' h' i, (if (capacity h <? u32 (size h + delta)) && (K_ 512 <=? capacity h) then
       '(w, h, _) ← Collect env w h e (K_ 16); mret (w, h)
     else mret (w, h)) = Ok (w', h') ∧
    extended h h' i 0 ∧ 0 ≤ i ≤ Z.max 0 (latest_version h) ∧
    gc_handle h' = gc_handle h ∧ cur_start h' = u32 (cur_start h - i) ∧ w_gc w' = w_gc w.
Proof.
  intros [[Hsh _] Hold Hnew Hok _ Hemp] Hd. pose proof Hsh as [? ? ? ? ?].
  pose proof (extended_refl h Hsh) as Hrefl.
  destruct ((capacity h <? _) && _) eqn:E; [|exists w, h, 0; rewrite Z.sub_0_r, u32_id by lia; split_and!; try done; lia].
  destruct (Z.eq_dec (size h) 0) as [E0|]; [zprop; specialize (Hemp E0); lia|].
  destruct (Collect_ok env w h e (K_ 16)) as (w' & h' & i & -> & Htr & Hi & Hsup & _ & Hg & _);
    [done|lia|unfold K_; rewrite Z.shiftl_mul_pow2; lia|done|].
  pose proof (tr_range _ _ _ Htr).
  exists w', h', i. split; [done|]. split; [by apply (extended_trimmed h h h' 0 i 0); try lia|]. split.
  { destruct (Z.eq_dec i 0); [lia|]. split; [lia|].
    destruct (Z.le_gt_cases i (latest_version h)); [lia|].
    specialize (Hsup ltac:(lia)). destruct (Hnew i ltac:(lia)). lia. }
  destruct Htr as [_ -> _ _]. split; [done|]. split; [done|done].
Qed.

(** making room for [delta] pending versions *)
Lemma reserve_ok env w h h1 i delta :
  extended h h1 i 0 → 0 < delta → 0 ≤ size h → size h + delta < 2 ^ 20 →
  ∃ w' h2 vs, grow_if_full env w (set_size h1 (u32 (size h1 + delta))) = Ok (w', h2) ∧
    fill (versions h2) (capacity h2 + (size h2 - delta)) (capacity h2 + size h2) kPendingValue = Ok vs ∧
    extended h (set_versions h2 vs) i delta ∧ gc_handle h2 = gc_handle h1 ∧
    cur_start h2 = cur_start h1 ∧ w_gc w' = w_gc w.
Proof.
  intros [E1 E2 E3 E4 E5 E6 Ed [E7 E8] E9 Hc _] Hd Hs Hmax. rewrite u32_id by lia.
  destruct (grow_if_full_ok env w (set_size h1 (size h1 + delta))) as (w2 & h2 & -> & Hro & Hg2); [cbn; lia..|].
  destruct Hro as [Heq2 Hcap2 Hsz2 Hlen2 Hc2]. cbn [capacity size versions set_size] in Hcap2, Hsz2, Hc2.
  assert (B1 : size h2 = size h1 + delta) by by rewrite Heq2.
  destruct (fill_in (versions h2) (capacity h2 + (size h2 - delta)) (capacity h2 + size h2) kPendingValue)
    as (v3 & Hf & Hl3 & Hv3); [lia..|].
  exists w2, h2, v3. split; [done|]. split; [done|]. split; [|by rewrite Heq2].
  split; cbn [addr inline_used buf_pos nr_ondsplt capacity versions size latest_version set_versions];
    try (rewrite Heq2; cbn; done); try lia.
  - intros k Hk. destruct (Hc k ltac:(lia)) as [<- <-]. destruct (Hc2 k ltac:(lia)) as [<- <-].
    rewrite !Hv3 by lia. split; zcase; try lia; done.
  - intros k Hk. rewrite Hv3 by lia. zcase; try lia; done.
Qed.

Lemma extended_objects_ok h h' i delta :
  objects_ok h → addr h + 256 ≤ kPendingValue → extended h h' i delta → objects_ok h'.
Proof.
  intros Hok Ha [E1 E2 E3 E4 E5 E6 Ed [E7 E8] E9 Hc Hp] k Hk. cbn zeta. unfold is_inlined. rewrite E1, E2.
  destruct (Z.lt_ge_cases k (size h - i)) as [Hlt|].
  - destruct (Hc k ltac:(lia)) as [_ ->]. rewrite <- Z.add_assoc. apply (Hok (k + i)). lia.
  - rewrite Hp by lia. lia.
Qed.

Lemma IncreaseSize_ok env w h delta e :
  init_ok h e → 0 < delta → size h + delta < 2 ^ 20 →
  reg_inv (w_gc w) h → may_register (w_gc w) h (env_core env) e →
  ∃ w' h' i, IncreaseSize env w h delta e = Ok (w', h') ∧ extended h h' i delta ∧
    cur_start h' = latest_version h' + 1 ∧ 0 ≤ i ≤ Z.max 0 (latest_version h) ∧ reg_inv (w_gc w') h' ∧
    (cur_start h = latest_version h + 1 → w_gc w' = w_gc w).
Proof.
  intros Hin Hd Hmax Hreg Hcan. pose proof Hin as [[Hsh Hso] Hold Hnew Hok Haddr Hemp].
  pose proof Hsh as [? ? ? ? ?]. unfold IncreaseSize.
  destruct (early_collect_ok env w h delta e Hin Hd) as (w1 & h1 & i & -> & Hex & Hi & Hgh & Hcs & Hg1).
  cbn [mbind result_bind].
  destruct (reserve_ok env w1 h h1 i delta Hex Hd ltac:(lia) Hmax) as
    (w2 & h2 & vs & -> & Hf & Hex2 & Hgh2 & Hcs2 & Hg2). cbn [mbind result_bind]. rewrite Hf. cbn [mbind result_bind].
  set (h3 := set_versions h2 vs) in *. pose proof (extended_objects_ok _ _ _ _ Hok Haddr Hex2) as Hok3.
  pose proof Hex2 as [F1 F2 F3 F4 F5 F6 Fd [F7 F8] F9 Fc Fp].
  assert (Hcs3 : cur_start h3 = u32 (cur_start h - i)) by (cbn; congruence). pose proof (u32_range (cur_start h - i)).
  assert (Hsh3 : shape h3) by (split; lia).
  replace (latest_version h1) with (latest_version h3) by (rewrite F9; by destruct Hex).
  assert (Egh : gc_handle h3 = gc_handle h) by (cbn; congruence). rewrite <- Egh.
  destruct (register_garbage_ok env w2 h3 e) as (w3 & h4 & j & hd & -> & Htr & Hj & Hri & Hsame);
    [done|lia|done|..].
  { rewrite Hg2, Hg1. destruct Hreg as [? Hr]. split; [done|]. by rewrite F1, Egh. }
  { rewrite Hg2, Hg1. intros Hne. apply Hcan. intros E. apply Hne. rewrite Hcs3, E, u32_id; lia. }
  exists w3, (set_gc_handle h4 hd), (i + j). split; [done|].
  pose proof (tr_range _ _ _ Htr) as Hjr. 
  assert (Hx : extended h (set_cur_start h3 (latest_version h3 + 1)) i delta) by by destruct Hex2.
  assert (Hx4 : extended h h4 (i + j) delta) by (eapply extended_trimmed; [done..|lia|lia]).
  split; [by destruct Hx4|]. split; [|split; [lia|split; [done|]]];
    [|intros E; rewrite Hsame, Hg2, Hg1; [done|]; rewrite Hcs3, E, u32_id; lia].
  destruct Htr as [_ -> _ _]. cbn -[u32 h3]. rewrite u32_id; lia.
Qed.

(** ** [AppendNewVersionNoLock] *)

Lemma insert_pending_tab (f : Z → Z * Z) n p sid :
  0 ≤ p ≤ n → (∀ k, 0 ≤ k < p → (f k).1 ≤ sid) → (∀ k, p ≤ k < n → sid < (f k).1) →
  insert_pending sid (f <$> seqZ 0 n) =
  (fun k => if k <? p then f k else if k =? p then (sid, kPendingValue) else f (k - 1)) <$> seqZ 0 (n + 1).
Proof.
  intros Hp Hlo Hhi. unfold insert_pending.
  rewrite (filter_prefix _ f n p), (filter_suffix _ f n p); [|lia|..|lia|done|];
    [|intros k Hk; specialize (Hlo k); lia|done|intros k Hk; specialize (Hhi k); lia].
  replace (n + 1) with (p + (1 + (n - p))) by lia. rewrite !seqZ_app, !fmap_app by lia. f_equal.
  - apply fmap_seqZ_ext. intros k Hk. zcase; try lia; done.
  - rewrite (seqZ_cons (0 + p) 1), (seqZ_nil _ (Z.pred 1)) by lia. cbn [fmap list_fmap app]. f_equal.
    + zcase; try lia; done.
    + apply fmap_seqZ_ext. intros k Hk. zcase; try lia. f_equal. lia.
Qed.

Lemma shiftr_lt_mono a b n : 0 ≤ n → Z.shiftr a n < Z.shiftr b n → a < b.
Proof.
  intros Hn. rewrite !Z.shiftr_div_pow2 by done. intros H.
  destruct (Z.lt_ge_cases a b); [done|]. pose proof (Z.div_le_mono b a (2 ^ n)). lia.
Qed.

(** the array after a version was booked at its end and absorbed at [j] *)
Record inserted (h1 h' : VHandle) (sid j : Z) : Prop := {
  is_eq : h' = set_versions h1 (versions h');
  is_len : len (versions h') = len (versions h1);
  is_point : insertion_point (versions h1) (size h1 - 1) sid j;
  is_cells : ∀ k, 0 ≤ k < size h1 → (versions h').[k] =
    if k <? j then (versions h1).[k] else if k =? j then sid else (versions h1).[k - 1];
  is_objects : ∀ k, 0 ≤ k < size h1 →
    (versions h').[capacity h1 + k] = (versions h1).[capacity h1 + k];
}.

Lemma book_absorb_ok h1 sid :
  4 ≤ capacity h1 ≤ 2 ^ 20 → len (versions h1) = 2 * capacity h1 → 0 < size h1 ≤ capacity h1 →
  sorted_in (versions h1) 0 (size h1 - 1) →
  ∃ h' j, (h ← BookNewVersionNoLock h1 sid (size h1 - 1);
           AbsorbNewVersionNoLock h (size h - 1) 0) = Ok (h', j) ∧ inserted h1 h' sid j.
Proof.
  intros Hc Hl Hs Hso. unfold BookNewVersionNoLock. rewrite store_in by lia. cbn [mbind result_bind mret result_ret].
  set (vs := <[Z.to_nat (size h1 - 1) := sid]> (versions h1)). change (size (set_versions h1 vs)) with (size h1).
  assert (Hvs : ∀ k, 0 ≤ k → vs.[k] = if k =? size h1 - 1 then sid else (versions h1).[k])
    by (intros; apply at_insert; lia).
  destruct (AbsorbNewVersionNoLock_ok (set_versions h1 vs) (size h1 - 1) 0) as (vs' & j & -> & Hp & Ha);
    cbn [versions capacity set_versions]; [unfold vs; rewrite len_insert; lia|lia..| |].
  { intros a b ???. rewrite !Hvs by lia. zcase; try lia. apply Hso; lia. }
  exists (set_versions h1 vs'), j. split; [done|].
  cbn [versions set_versions] in Hp, Ha. rewrite Hvs, Z.eqb_refl in Hp, Ha by lia.
  destruct Hp as (Hj & Hlo & Hhi). destruct Ha as (Hlen & A1 & A2 & A3 & A4).
  assert (Hlv : len vs = len (versions h1)) by (unfold vs; by rewrite len_insert).
  split; [done|cbn; lia|..]; cbn [versions set_versions].
  - split; [lia|]. split; intros k Hk; [specialize (Hlo k ltac:(lia))|specialize (Hhi k ltac:(lia))];
      rewrite Hvs in * by lia; zcase; destruct (Z.eqb_spec k (size h1 - 1)); lia.
  - intros k Hk. destruct (Z.ltb_spec k j); [|destruct (Z.eqb_spec k j) as [->|]].
    + rewrite A1, Hvs by lia. zcase; [lia|done].
    + by rewrite Z.add_0_r in A2.
    + replace k with (k - 1 + 1 + 0) at 1 by lia. rewrite A3, Hvs by lia. zcase; [lia|done].
  - intros k Hk. rewrite A4, Hvs by lia. zcase; [lia|done].
Qed.

(** the new version lands above everything that is written *)
Lemma inserted_above h h1 h' e sid i j :
  init_ok h e → Z.shiftr sid 32 = e → extended h h1 i 1 → 0 ≤ i ≤ Z.max 0 (latest_version h) →
  inserted h1 h' sid j → latest_version h1 < j.
Proof.
  intros [[[? ? ? ? ?] Hso] Hold Hnew _ _ _] Hsid [_ _ _ _ E5 E6 Ed [E7 E8] E9 Hc Hp] Hi [_ _ (Hj & Hlo & Hhi) _ _].
  destruct (Z.lt_ge_cases (latest_version h1) j) as [|Hge]; [done|].
  specialize (Hhi (latest_version h1) ltac:(lia)).
  destruct (Hc (latest_version h1) ltac:(lia)) as [Ev _]. rewrite Ev in Hhi.
  specialize (Hold (latest_version h1 + i) ltac:(lia)).
  assert ((versions h).[latest_version h1 + i] < sid); [|lia].
  eapply (shiftr_lt_mono _ _ 32); lia.
Qed.

(** the result, entry by entry: the objects of the moved versions are pending
    as well *)
Lemma inserted_entry h h1 h' e sid i j k :
  init_ok h e → Z.shiftr sid 32 = e → extended h h1 i 1 → 0 ≤ i ≤ Z.max 0 (latest_version h) →
  inserted h1 h' sid j → 0 ≤ k < size h + 1 - i →
  entry h' k = if k <? j then entry h (i + k) else
      if k =? j then (sid, kPendingValue) else entry h (i + k - 1).
Proof.
  intros Hin Hsid Hex Hi Hins Hk. pose proof (inserted_above h h1 h' e sid i j Hin Hsid Hex Hi Hins) as Hab.
  destruct Hin as [[[? ? ? ? ?] Hso] _ Hnew _ _ _]. destruct Hex as [_ _ _ _ E5 E6 Ed [E7 E8] E9 Hc Hp].
  destruct Hins as [Heq Hlen (Hj & _) Hcells Hobj].
  assert (Hent : ∀ k, 0 ≤ k < size h - i → entry h1 k = entry h (i + k)).
  { intros k' Hk'. unfold entry. destruct (Hc k' ltac:(lia)) as [-> ->]. f_equal; f_equal; lia. }
  unfold entry at 1. replace (capacity h') with (capacity h1) by (by rewrite Heq).
  rewrite Hcells, Hobj by lia. destruct (Z.ltb_spec k j); [rewrite <- Hent by lia; done|].
  assert (Hpend : (versions h1).[capacity h1 + k] = kPendingValue).
  { destruct (Z.lt_ge_cases k (size h - i)); [|apply Hp; lia].
    destruct (Hc k ltac:(lia)) as [_ ->]. rewrite <- Z.add_assoc. apply Hnew. lia. }
  rewrite Hpend. destruct (Z.eqb_spec k j); [done|].
  replace (i + k - 1) with (i + (k - 1)) by lia. rewrite <- Hent by lia. unfold entry. f_equal.
  destruct (Hc (k - 1) ltac:(lia)) as [_ ->]. rewrite <- Z.add_assoc. symmetry. apply Hnew. lia.
Qed.

Lemma inserted_entries h h1 h' e sid i j :
  init_ok h e → Z.shiftr sid 32 = e → extended h h1 i 1 → 0 ≤ i ≤ Z.max 0 (latest_version h) →
  inserted h1 h' sid j →
  entries h' = drop (Z.to_nat i) (insert_pending sid (entries h)).
Proof.
  intros Hin Hsid Hex Hi Hins. pose proof (inserted_above h h1 h' e sid i j Hin Hsid Hex Hi Hins) as Hab.
  pose proof (fun k => inserted_entry h h1 h' e sid i j k Hin Hsid Hex Hi Hins) as He'.
  destruct Hin as [[[? ? ? ? ?] Hso] Hold Hnew _ _ _]. destruct Hex as [_ _ _ _ E5 E6 Ed [E7 E8] E9 Hc Hp].
  destruct Hins as [Heq Hlen (Hj & Hlo & Hhi) _ _].
  destruct (upper_bound_spec (versions h) 0 (size h) sid) as (p & _ & Hpr & Hplo & Hphi); [lia..|done|].
  unfold entries at 2. rewrite (insert_pending_tab (entry h) (size h) p); [|done..].
  assert (Hjp : i + j ≤ p).
  { destruct (Z.le_gt_cases (i + j) p); [done|]. specialize (Hlo (p - i)). 
    destruct (Z.le_gt_cases i p).
    - specialize (Hlo ltac:(lia)). destruct (Hc (p - i) ltac:(lia)) as [E _]. rewrite E in Hlo.
      replace (p - i + i) with p in Hlo by lia. specialize (Hphi p). lia.
    - specialize (Hphi p ltac:(lia)). specialize (Hold p ltac:(lia)).
      enough ((versions h).[p] < sid) by lia. eapply (shiftr_lt_mono _ _ 32); lia. }
  assert (Hsame : ∀ k, i + j ≤ k < p → entry h k = (sid, kPendingValue)).
  { intros k Hk. unfold entry. destruct (Hnew k ltac:(lia)) as [_ ->]. f_equal.
    specialize (Hplo k ltac:(lia)). specialize (Hhi (k - i) ltac:(lia)).
    destruct (Hc (k - i) ltac:(lia)) as [E _]. rewrite E in Hhi. replace (k - i + i) with k in Hhi by lia. lia. }
  rewrite drop_fmap_seqZ by lia. unfold entries.
  replace (size h') with (size h + 1 - i) by (rewrite Heq; cbn; lia).
  apply fmap_seqZ_ext. intros k Hk. rewrite Z.add_0_l, He' by lia.
  zcase; try lia; try done; rewrite ?(Hsame (i + k)), ?(Hsame (i + k - 1)) by lia; done.
Qed.

(** the invariant of the initialization phase after the insertion *)
Lemma inserted_init_ok h h1 h' e sid i j :
  init_ok h e → Z.shiftr sid 32 = e → extended h h1 i 1 → 0 ≤ i ≤ Z.max 0 (latest_version h) →
  cur_start h1 = latest_version h1 + 1 →
  inserted h1 h' sid j → init_ok h' e.
Proof.
  intros Hin Hsid Hex Hi Hcs Hins. pose proof (inserted_above h h1 h' e sid i j Hin Hsid Hex Hi Hins) as Hab.
  pose proof (fun k => inserted_entry h h1 h' e sid i j k Hin Hsid Hex Hi Hins) as He'.
  pose proof (extended_objects_ok h h1 i 1 (in_objects _ _ Hin) (in_addr _ _ Hin) Hex) as Hok1.
  destruct Hin as [[[? ? ? ? ?] Hso] Hold Hnew _ Haddr _]. destruct Hex as [E1 _ _ _ E5 E6 Ed [E7 E8] E9 Hc Hp].
  destruct Hins as [Heq Hlen (Hj & Hlo & Hhi) Hcells Hobj].
  assert (S1 : size h' = size h1) by by rewrite Heq.
  assert (S2 : capacity h' = capacity h1) by by rewrite Heq.
  assert (S3 : latest_version h' = latest_version h1) by by rewrite Heq.
  assert (S4 : cur_start h' = cur_start h1) by by rewrite Heq.
  assert (S5 : addr h' = addr h1) by by rewrite Heq.
  assert (S6 : inline_used h' = inline_used h1) by by rewrite Heq.
  assert (Hso1 : ∀ a b, 0 ≤ a → a ≤ b → b < size h - i → (versions h1).[a] ≤ (versions h1).[b]).
  { intros a b ???. destruct (Hc a ltac:(lia)) as [-> _]. destruct (Hc b ltac:(lia)) as [-> _]. apply Hso; lia. }
  split; [split; [split; lia|]|..].
  - intros a b Ha Hab' Hb. rewrite !Hcells by lia. zcase; try lia;
      first [apply Hso1; lia|specialize (Hlo a); lia|specialize (Hhi (b - 1)); lia].
  - intros k Hk. rewrite Hcells by lia. zcase; try lia. destruct (Hc k ltac:(lia)) as [-> _]. apply Hold. lia.
  - intros k Hk. change (Z.shiftr (entry h' k).1 32 = e ∧ (entry h' k).2 = kPendingValue).
    rewrite He' by lia. zcase; try lia; [apply (Hnew (i + k))|done|apply (Hnew (i + k - 1))]; lia.
  - intros k. unfold is_inlined. rewrite S1, S2, S5, S6. cbn zeta. intros Hk. rewrite Hobj by lia. by apply Hok1.
  - lia.
  - lia.
Qed.

Lemma AppendNewVersionNoLock_ok env w h sid e weight :
  init_ok h e → Z.shiftr sid 32 = e → size h + 1 < 2 ^ 20 →
  reg_inv (w_gc w) h → may_register (w_gc w) h (env_core env) e →
  ∃ w' h' i, AppendNewVersionNoLock env w h sid e weight = Ok (w', h') ∧
    entries h' = drop (Z.to_nat i) (insert_pending sid (entries h)) ∧
    0 ≤ i ≤ Z.max 0 (latest_version h) ∧ latest_version h' = latest_version h - i ∧
    cur_start h' = latest_version h' + 1 ∧ addr h' = addr h ∧ init_ok h' e ∧ reg_inv (w_gc w') h'.
Proof.
  intros Hin Hsid Hmax Hreg Hcan. unfold AppendNewVersionNoLock.
  set (h0 := if negb (weight =? 0) then set_nr_ondsplt h (i32 (nr_ondsplt h + weight)) else h).
  assert (Hin0 : init_ok h0 e) by (subst h0; case_match; [destruct Hin as [[[]] ? ? ? ? ?]; by split; [split; [split|]|..]|done]).
  assert (E0 : entries h0 = entries h ∧ size h0 = size h ∧ latest_version h0 = latest_version h ∧ addr h0 = addr h
    ∧ reg_inv (w_gc w) h0 ∧ may_register (w_gc w) h0 (env_core env) e) by (subst h0; by case_match).
  destruct E0 as (Eent & Esz & Elat & Eaddr & Hreg0 & Hcan0).
  destruct (IncreaseSize_ok env w h0 1 e Hin0) as (w1 & h1 & i & -> & Hex & Hcs & Hi & Hri & _); [lia..|done|done|].
  cbn [mbind result_bind].
  pose proof Hin0 as [[[? ? ? ? ?] Hso] _ _ _ _ _]. pose proof Hex as [E1 _ _ _ E5 E6 Ed [E7 E8] E9 Hc Hp].
  destruct (book_absorb_ok h1 sid) as (h' & j & Hba & Hins); [lia..| |].
  { intros a b ???. destruct (Hc a ltac:(lia)) as [-> _]. destruct (Hc b ltac:(lia)) as [-> _]. apply Hso; lia. }
  destruct (BookNewVersionNoLock h1 sid (size h1 - 1)) as [hb|]; [|done]. cbn [mbind result_bind] in *.
  rewrite Hba. cbn [mbind result_bind].
  exists w1, h', i. split; [done|].
  split; [rewrite <- Eent; eapply inserted_entries; done|].
  pose proof (inserted_init_ok h0 h1 h' e sid i j Hin0 Hsid Hex Hi Hcs Hins).
  destruct Hins as [Heq _ _ _ _].
  assert (latest_version h' = latest_version h1) by by rewrite Heq.
  assert (cur_start h' = cur_start h1) by by rewrite Heq.
  assert (addr h' = addr h1) by by rewrite Heq.
  split; [lia|]. split; [lia|]. split; [lia|]. split; [congruence|]. split; [done|]. by rewrite Heq.
Qed.

(** ** Collection and readers *)

Lemma trimmed_read h h' i sid :
  wf h → trimmed h h' i → (0 < i → (versions h).[i] < sid) →
  read_entry sid (entries h') = read_entry sid (entries h).
Proof.
  intros Hwf Htr Hlt. pose proof Hwf as [[? ? ? ? ?] Hso].
  destruct (lower_bound_spec (versions h) 0 (size h) sid) as (p & _ & Hp); [lia..|done|].
  pose proof Hp as (Hpr & Hlo & Hhi). destruct Htr as [Hi Heq Hlen Hc].
  destruct (Z.eq_dec i 0) as [->|Hi0].
  { unfold entries. replace (size h') with (size h) by (rewrite Heq; cbn; lia). f_equal. apply fmap_seqZ_ext. intros k Hk.
    unfold entry. replace (capacity h') with (capacity h) by (by rewrite Heq).
    destruct (Hc (0 + k) ltac:(lia)) as [-> ->]. by rewrite !Z.add_0_r. }
  assert (Hip : i < p).
  { destruct (Z.lt_ge_cases i p); [done|]. specialize (Hhi i ltac:(lia)). specialize (Hlt ltac:(lia)). lia. }
  rewrite (read_entry_lb h sid p Hp), (read_entry_lb h' sid (p - i)).
  - replace (p =? 0) with false by (symmetry; zcase; lia). replace (p - i =? 0) with false by (symmetry; zcase; lia).
    f_equal. unfold entry. replace (capacity h') with (capacity h) by (by rewrite Heq).
    destruct (Hc (p - i - 1) ltac:(lia)) as [-> ->]. f_equal; f_equal; lia.
  - replace (size h') with (size h - i) by (by rewrite Heq). split; [lia|]. split; intros k Hk;
      (destruct (Hc k ltac:(lia)) as [-> _]); [apply Hlo; lia|apply Hhi; lia].
Qed.

Lemma trimmed_wf h h' i : wf h → trimmed h h' i → i ≤ latest_version h + 1 → wf h'.
Proof.
  intros [[? ? ? ? ?] Hso] [Hi Heq Hlen Hc] Hl.
  assert (S1 : size h' = size h - i) by by rewrite Heq.
  assert (S2 : capacity h' = capacity h) by by rewrite Heq.
  assert (S3 : latest_version h' = latest_version h - i) by by rewrite Heq.
  split; [split; try lia; rewrite Heq; apply u32_range|].
  intros a b ???. destruct (Hc a ltac:(lia)) as [-> _]. destruct (Hc b ltac:(lia)) as [-> _]. apply Hso; lia.
Qed.

(** * Concrete states for the witnesses: a garbage registry with one free block
    on core 0 and a row with a written and a pending version. *)

Module Sample.
Definition gc : GC := mkGC
  (fun q => match q with QFree c => if c =? 0 then [512] else [] | _ => [] end)
  {[512 := mkBlock (replicate 60 0) 0 0 0]} 4.
Definition env : Env := mkEnv 0 0 (fun _ => 65536) (fun _ => 0) (fun _ => 8) (fun _ => 0).
Definition world : World := mkWorld gc [] (fun _ => 0).
Definition row2 : VHandle :=
  mkVHandle 1024 0 0 (-1) 0xFF 4 2 1 0 0 1088 [5; 4294967552; 0; 0; 4096; kPendingValue; 0; 0] (-1) 0.

Lemma gc_ok : gc_wf gc.
Proof.
  exists (fun b => if b =? 512 then Some (QFree 0) else None). split_and!.
  - intros p b. destruct p as [c|c q|c q]; cbn.
    + destruct (Z.eqb_spec c 0) as [->|].
      * rewrite list_elem_of_singleton. case_match; zprop; naive_solver.
      * case_match; set_solver.
    + case_match; set_solver.
    + case_match; set_solver.
  - intros p. destruct p as [c|c q|c q]; cbn; [case_match; repeat constructor; set_solver|constructor..].
  - intros b p. cbn. case_match; [|done]. zprop. subst. by eexists.
  - intros b blk Hb. cbn in Hb. apply lookup_singleton_Some in Hb as [<- <-].
    split_and!; try done.
Qed.
End Sample.

(** the sample row: one written version of epoch 0 and a pending one of epoch 1 *)
Lemma sample_init_ok : init_ok Sample.row2 1.
Proof.
  split; [split; [split; cbn; lia|]|..].
  - intros i j ???. cbn in *. assert (i = 0 ∨ i = 1) as [->| ->] by lia; assert (j = 0 ∨ j = 1) as [->| ->] by lia; done.
  - intros k Hk. cbn in Hk. assert (k = 0) as -> by lia. done.
  - intros k Hk. cbn in Hk. assert (k = 1) as -> by lia. done.
  - intros k Hk. cbn in Hk. assert (k = 0 ∨ k = 1) as [->| ->] by lia; vm_compute; intros [? ?]; discriminate.
  - done.
  - done.
Qed.

Lemma sample_can_register : can_register Sample.gc 0 1.
Proof. done. Qed.
