(* ===== verification/VHandleProps.v ===== *)
(** The contract of a sorted version array: what appending, reading, writing
    and collecting do to the abstract row ([entries]). *)

From S2P Require Import Prelude LowerBound Region Sync GarbageSlab VHandle VHandleFacts VHandleAppend.

(** ** Properties *)

(** C5. Appending a version in the initialization phase of epoch [e] inserts
    exactly (sid, pending) into the row's version list in version order and
    keeps the object of every other version, although only the version half
    of the array is shifted; up to [latest_version] superseded versions are
    collected from the front. The invariant of the phase and the row's
    registration with the garbage collector are preserved. *)
Theorem append_inserts_pending env w h sid e weight :
  init_ok h e → Z.shiftr sid 32 = e → size h + 1 < 2 ^ 20 →
  reg_inv (w_gc w) h → may_register (w_gc w) h (env_core env) e →
  ∃ w' h' i, AppendNewVersionNoLock env w h sid e weight = Ok (w', h') ∧
    entries h' = drop (Z.to_nat i) (insert_pending sid (entries h)) ∧
    0 ≤ i ≤ Z.max 0 (latest_version h) ∧ latest_version h' = latest_version h - i ∧
    cur_start h' = latest_version h' + 1 ∧ addr h' = addr h ∧ init_ok h' e ∧ reg_inv (w_gc w') h'.
Proof. apply AppendNewVersionNoLock_ok. Qed.

(** A read by [sid] returns the object of the newest version below [sid],
    waits exactly when that object is pending, and returns [nullptr] exactly
    when there is no such version. *)
Theorem read_newest_below h sid :
  wf h → in_epoch h sid → ¬ (latest_version h = 0 ∧ sid ≤ (versions h).[0]) →
  ReadWithVersion h sid = read_result (read_entry sid (entries h)).
Proof. apply ReadWithVersion_ok. Qed.

(** A write by [sid] to a row that has exactly one version of [sid]
    succeeds, replaces the object of that version and of no other, and raises
    [latest_version] to it; the row stays well-formed and registered. *)
Theorem write_own_version env w h sid k obj epoch_nr :
  wf h → cur_start h ≤ k → version_at h sid k →
  (latest_version h + 1 = size h → (versions h).[size h] ≠ sid) →
  (addr h < obj < addr h + 256 → is_inlined h = true) →
  reg_inv (w_gc w) h → can_register (w_gc w) (env_core env) epoch_nr →
  ∃ w' h', WriteWithVersion env w h sid obj epoch_nr = Ok (w', h') ∧
    entries h' = write_entry sid obj (entries h) ∧ wf h' ∧
    latest_version h' = Z.max (latest_version h) k ∧ reg_inv (w_gc w') h'.
Proof.
  intros Hwf Hk Hva Hst Hobj Hreg Hcan.
  destruct (WriteWithVersion_total env w h sid k obj epoch_nr Hwf Hk Hva Hst Hobj Hreg Hcan) as (w' & h' & HW).
  exists w', h'. split; [done|].
  destruct (WriteWithVersion_ok _ _ _ _ _ _ _ Hwf Hk Hva Hst Hobj Hreg _ _ HW) as (He & Hw & _ & Hl & Hr & _).
  done.
Qed.

(** C12. Collecting a row in epoch [e] never changes what transactions of
    epoch [e] or later read from it: it drops a prefix of versions that are
    superseded by a version of an older epoch, and gives back exactly the
    string objects of that prefix. *)
Theorem collect_preserves_reads env w h e limit :
  wf h → 0 < size h → 0 ≤ limit → objects_ok h →
  (∀ k, latest_version h < k < size h → e ≤ Z.shiftr (versions h).[k] 32) →
  ∃ w' h' i, Collect env w h e limit = Ok (w', h', i) ∧ wf h' ∧
    entries h' = drop (Z.to_nat i) (entries h) ∧
    w_freed w' = w_freed w ++ garbage_of env h (take (Z.to_nat i) (entries h)) ∧
    ∀ sid, e ≤ Z.shiftr sid 32 → read_entry sid (entries h') = read_entry sid (entries h).
Proof.
  intros Hwf Hs Hl Hok Hnew. pose proof Hwf as [[? ? ? ? ?] Hso].
  destruct (Collect_ok env w h e limit) as (w' & h' & i & HC & Htr & Hi & Hsup & _ & _ & Hfr); [apply Hwf|done..|].
  pose proof (tr_range _ _ _ Htr) as Hir.
  exists w', h', i. split; [done|]. split.
  { apply (trimmed_wf h h' i Hwf Htr). destruct (Z.eq_dec i 0); [lia|].
    destruct (Z.le_gt_cases i (latest_version h)); [lia|].
    specialize (Hsup ltac:(lia)). specialize (Hnew i ltac:(lia)). lia. }
  split; [by apply trimmed_entries|]. split; [done|]. intros sid Hsid.
  apply (trimmed_read h h' i sid Hwf Htr). intros Hi0. specialize (Hsup Hi0).
  eapply (shiftr_lt_mono _ _ 32); lia.
Qed.

(** A fresh row takes its first version in any epoch; readers above that version wait for it and readers at or below it get
    [nullptr]. *)
Theorem fresh_row_first_append env w this cells sid e :
  len cells = 8 → this + 256 ≤ kPendingValue → Z.shiftr sid 32 = e →
  gc_wf (w_gc w) → can_register (w_gc w) (env_core env) e →
  ∃ w' h', AppendNewVersionNoLock env w (SortedArrayVHandle env this cells) sid e 0 = Ok (w', h') ∧
    entries h' = [(sid, kPendingValue)] ∧
    (∀ sid', sid < sid' → ReadWithVersion h' sid' = Err Blocked) ∧
    (∀ sid', sid' ≤ sid → ReadWithVersion h' sid' = Ok None).
Proof.
  intros Hl Ha Hsid Hg Hcan.
  destruct (AppendNewVersionNoLock_ok env w (SortedArrayVHandle env this cells) sid e 0)
    as (w' & h' & i & HA & He & Hi & Hlat & Hcs & Had & Hin & _); [|done|cbn; lia|split; [done|by left]|by intros _|].
  { split; [split; [split; cbn; lia|intros a b; cbn; lia]|cbn; lia|cbn; lia|intros k; cbn; lia|exact Ha|done]. }
  change (latest_version (SortedArrayVHandle env this cells)) with (-1) in Hi, Hlat. assert (i = 0) as -> by lia.
  change (entries h' = [(sid, kPendingValue)]) in He.
  exists w', h'. split; [done|]. split; [done|]. destruct Hin as [Hwf _ _ _ _ _].
  assert (Hep : ∀ sid', in_epoch h' sid') by (intros sid'; destruct Hwf as [[? ? ? ? ?] _]; split; lia).
  split; intros sid' Hlt; (rewrite ReadWithVersion_ok; [rewrite He|done|done|intros [? _]; lia]); unfold read_entry.
  - by rewrite filter_cons_True by done.
  - by rewrite filter_cons_False by (cbn [fst]; lia).
Qed.

(** ** Witnesses *)

Lemma append_inserts_pending_witness :
  ∃ w' h' i, AppendNewVersionNoLock Sample.env Sample.world Sample.row2 4294967400 1 0 = Ok (w', h') ∧
    entries h' = drop (Z.to_nat i) [(5, 4096); (4294967400, kPendingValue); (4294967552, kPendingValue)].
Proof.
  destruct (append_inserts_pending Sample.env Sample.world Sample.row2 4294967400 1 0 sample_init_ok)
    as (w' & h' & i & HA & He & _); [done|done|split; [apply Sample.gc_ok|by left]|by intros _|].
  exists w', h', i. split; [exact HA|exact He].
Defined.

Lemma read_newest_below_witness : ReadWithVersion Sample.row2 4294967552 = Ok (Some 4096).
Proof.
  apply (read_newest_below Sample.row2 4294967552); [apply sample_init_ok| |vm_compute; intros [_ H]; by apply H].
  split; [done|]. intros k Hk. cbn in Hk. assert (k = 0) as -> by lia. done.
Defined.

Lemma write_own_version_witness :
  ∃ w' h', WriteWithVersion Sample.env Sample.world Sample.row2 4294967552 8192 1 = Ok (w', h') ∧
    entries h' = [(5, 4096); (4294967552, 8192)].
Proof.
  destruct (write_own_version Sample.env Sample.world Sample.row2 4294967552 1 8192 1) as (w' & h' & HW & He & _);
    [apply sample_init_ok|done| |done|vm_compute; intros [? ?]; discriminate|split; [apply Sample.gc_ok|by left]|done|].
  - split; [cbn; lia|]. intros j Hj. cbn in Hj. assert (j = 0 ∨ j = 1) as [->| ->] by lia; done.
  - exists w', h'. split; [exact HW|exact He].
Defined.

Lemma collect_preserves_reads_witness :
  ∃ w' h' i, Collect Sample.env Sample.world Sample.row2 1 16 = Ok (w', h', i) ∧
    read_entry 4294967552 (entries h') = Some (5, 4096).
Proof.
  destruct (collect_preserves_reads Sample.env Sample.world Sample.row2 1 16) as (w' & h' & i & HC & _ & _ & _ & Hr);
    [apply sample_init_ok|done|done|apply sample_init_ok| |].
  - intros k Hk. cbn in Hk. assert (k = 1) as -> by lia. done.
  - exists w', h', i. split; [exact HC|]. by rewrite (Hr 4294967552) by done.
Defined.

Lemma fresh_row_first_append_witness :
  ∃ w' h', AppendNewVersionNoLock Sample.env Sample.world
      (SortedArrayVHandle Sample.env 1024 (replicate 8 0)) 4294967552 1 0 = Ok (w', h') ∧
    entries h' = [(4294967552, kPendingValue)].
Proof.
  destruct (fresh_row_first_append Sample.env Sample.world 1024 (replicate 8 0) 4294967552 1)
    as (w' & h' & HA & He & _); [done|done|done|apply Sample.gc_ok|done|].
  exists w', h'. split; [exact HA|exact He].
Defined.
