(* ===== verification/GCRun.v ===== *)
(** The garbage collection pass of an epoch (gc.cc [GC::PrepareGCForAllCores],
    [GC::RunGC], [GC::Process]): the registered rows of one epoch class are
    taken out of the slabs and collected block by block. *)

From S2P Require Import Prelude LowerBound Bits GarbageSlab Sync Region VHandle VHandleFacts VHandleAppend.

(** * The garbage registry as its clients see it: a handle stands for one
    registered row until it is given back. *)

(** Registering a row succeeds when the core has a half-full or free
    block, returns a non-zero handle that no row was registered under, and
    keeps every other registration. *)
Theorem add_row_registers g core row epoch_nr :
  gc_wf g → epoch_nr ≠ 0 →
  queues g (QHalf core (epoch_nr mod g_gc_every_epoch g)) ≠ [] ∨ queues g (QFree core) ≠ [] →
  ∃ g' hd, AddRow g core row epoch_nr = Ok (g', hd) ∧ gc_wf g' ∧ hd ≠ 0 ∧ registered g' hd row ∧
    (∀ r, ¬ registered g hd r) ∧ (∀ h r, registered g h r → registered g' h r).
Proof. apply AddRow_registered. Qed.

(** Giving a handle back, which decodes the block and the slot from the
    address, removes exactly that registration. *)
Theorem remove_row_unregisters g hd row :
  gc_wf g → registered g hd row →
  ∃ g', RemoveRow g hd = Ok g' ∧ gc_wf g' ∧
    (∀ r, ¬ registered g' hd r) ∧ (∀ h r, registered g h r → h ≠ hd → registered g' h r).
Proof.
  intros Hwf Hr. destruct (RemoveRow_registered g hd row Hwf Hr) as (g' & ? & ? & _ & _ & ? & ?).
  by exists g'.
Qed.

(** ** Witnesses *)

Lemma add_row_registers_witness :
  ∃ g' hd, AddRow Sample.gc 0 1024 1 = Ok (g', hd) ∧ registered g' hd 1024.
Proof.
  destruct (add_row_registers Sample.gc 0 1024 1) as (g' & hd & HA & _ & _ & Hr & _);
    [apply Sample.gc_ok|done|right; done|].
  exists g', hd. split; [exact HA|exact Hr].
Defined.

Lemma remove_row_unregisters_witness :
  ∃ g g' hd, AddRow Sample.gc 0 1024 1 = Ok (g, hd) ∧ RemoveRow g hd = Ok g' ∧ ∀ r, ¬ registered g' hd r.
Proof.
  destruct (AddRow_registered Sample.gc 0 1024 1) as (g & hd & HA & Hwf & _ & Hr & _);
    [apply Sample.gc_ok|done|right; done|].
  destruct (remove_row_unregisters g hd 1024 Hwf Hr) as (g' & HR & _ & Hn & _).
  exists g, g', hd. split; [exact HA|]. split; [exact HR|exact Hn].
Defined.


(** [collect_head] as the list it heads, the rows by address, and the
    statistics [nr_rows], [nr_blocks], [straggler] of the running core *)
Record GCState := mkGCState {
  gs_world : World;
  gs_collect : list Z;
  gs_rows : gmap Z VHandle;
  gs_nr_rows : Z;
  gs_nr_blocks : Z;
  gs_straggler : bool;
}.

Definition set_gs_gc (s : GCState) (g : GC) : GCState :=
  mkGCState (mkWorld g (w_freed (gs_world s)) (w_nr_bytes (gs_world s))) (gs_collect s) (gs_rows s)
    (gs_nr_rows s) (gs_nr_blocks s) (gs_straggler s).

(** [PrepareGCForAllCores]: the loop over [core_id]; the whole function
    returns at the first core that has nothing to collect *)
Fixpoint prepare_loop (cores : list Z) (q : Z) (g : GC) (collect : list Z) : GC * list Z :=
  match cores with
  | [] => (g, collect)
  | c :: cores =>
      let full := queues g (QFull c q) in
      let half := queues g (QHalf c q) in
      match full, half with
      | [], [] => (g, collect)
      | _, _ => prepare_loop cores q (set_queue (set_queue g (QFull c q) []) (QHalf c q) [])
                  (full ++ half ++ collect)
      end
  end.

Definition PrepareGCForAllCores (lazy : bool) (nr_threads cur_epoch_nr : Z) (s : GCState) : GCState :=
  if lazy then s else
  let q := (cur_epoch_nr + 1) mod g_gc_every_epoch (w_gc (gs_world s)) in
  let '(g, collect) := prepare_loop (seqZ 0 nr_threads) q (w_gc (gs_world s)) (gs_collect s) in
  mkGCState (mkWorld g (w_freed (gs_world s)) (w_nr_bytes (gs_world s))) collect (gs_rows s)
    (gs_nr_rows s) (gs_nr_blocks s) (gs_straggler s).

(** [GC::Process] of the row at an address: [Collect] under the row's lock *)
Definition Process (env : Env) (s : GCState) (row cur_epoch_nr limit : Z) : result (GCState * Z) :=
  match gs_rows s !! row with
  | None => Err OutOfRange
  | Some h =>
      '(w, h, n) ← Collect env (gs_world s) h cur_epoch_nr limit;
      mret (mkGCState w (gs_collect s) (<[row := h]> (gs_rows s)) (gs_nr_rows s) (gs_nr_blocks s) (gs_straggler s), n)
  end.

(** the row is done: [b->rows[i]->gc_handle = 0; b->bitmap &= ~(1ULL << i); s.nr_rows++] *)
Definition finish_row (s : GCState) (b i row : Z) : result GCState :=
  blk ← get_block (w_gc (gs_world s)) b;
  match gs_rows s !! row with
  | None => Err OutOfRange
  | Some h =>
      let blk := mkBlock (rows blk) (alloc_core blk) (q_idx blk)
                   (Z.land (bitmap blk) (u64 (Z.lnot (u64 (Z.shiftl 1 i))))) in
      let s := set_gs_gc s (set_block (w_gc (gs_world s)) b blk) in
      mret (mkGCState (gs_world s) (gs_collect s) (<[row := set_gc_handle h 0]> (gs_rows s))
        (gs_nr_rows s + 1) (gs_nr_blocks s) (gs_straggler s))
  end.

(** the loop over the rows of a block: [false] when the pass ends early *)
Fixpoint gc_block (env : Env) (fuel : nat) (s : GCState) (b cur_epoch_nr : Z) : result (GCState * bool) :=
  match fuel with
  | O => Err Blocked
  | S fuel =>
      blk ← get_block (w_gc (gs_world s)) b;
      if bitmap blk =? 0 then
        let s := set_gs_gc s (push_front (w_gc (gs_world s)) (QFree (alloc_core blk)) b) in
        mret (mkGCState (gs_world s) (gs_collect s) (gs_rows s) (gs_nr_rows s) (gs_nr_blocks s + 1) (gs_straggler s), true)
      else
        let i := ffs (bitmap blk) - 1 in
        row ← load (rows blk) i;
        '(s, n) ← Process env s row cur_epoch_nr (K_ 16);
        if n <? K_ 16 then
          s ← finish_row s b i row;
          gc_block env fuel s b cur_epoch_nr
        else match gs_collect s with
        | [] =>
            let q := (cur_epoch_nr + 1) mod g_gc_every_epoch (w_gc (gs_world s)) in
            let queue := if popcount (bitmap blk) =? kMaxNrRows
                         then QFull (alloc_core blk) q else QHalf (alloc_core blk) q in
            let s := set_gs_gc s (push_front (w_gc (gs_world s)) queue b) in
            mret (mkGCState (gs_world s) (gs_collect s) (gs_rows s) (gs_nr_rows s + 1) (gs_nr_blocks s) true, false)
        | _ => gc_block env fuel s b cur_epoch_nr
        end
  end.

(** [GC::RunGC]: pops blocks off [collect_head] until it is empty *)
Fixpoint RunGC (env : Env) (fuel : nat) (lazy : bool) (s : GCState) (cur_epoch_nr : Z) : result GCState :=
  if lazy then mret s else
  match fuel with
  | O => Err Blocked
  | S fuel =>
      match gs_collect s with
      | [] => mret s
      | b :: rest =>
          let s := mkGCState (gs_world s) rest (gs_rows s) (gs_nr_rows s) (gs_nr_blocks s) (gs_straggler s) in
          '(s, go_on) ← gc_block env fuel s b cur_epoch_nr;
          if go_on : bool then RunGC env fuel lazy s cur_epoch_nr else mret s
      end
  end.

(** ** A row that can be collected in epoch [e], and what collection does to it *)

Record collectable (e : Z) (h : VHandle) : Prop := {
  cb_wf : wf h;
  cb_size : 0 < size h ≤ K_ 16;
  cb_objects : objects_ok h;
  cb_new : ∀ k, latest_version h < k < size h → e ≤ Z.shiftr (versions h).[k] 32;
}.

Record collected (e : Z) (h h' : VHandle) : Prop := {
  cd_wf : wf h';
  cd_handle : gc_handle h' = 0;
  cd_suffix : ∃ i : nat, entries h' = drop i (entries h);
  cd_reads : ∀ sid, e ≤ Z.shiftr sid 32 → read_entry sid (entries h') = read_entry sid (entries h);
  cd_clean : ∀ k v o, (1 ≤ k)%nat → entries h' !! k = Some (v, o) → e ≤ Z.shiftr v 32;
}.

Lemma shiftr_mono a b n : 0 ≤ n → a ≤ b → Z.shiftr a n ≤ Z.shiftr b n.
Proof. intros Hn H. rewrite !Z.shiftr_div_pow2 by done. apply Z.div_le_mono; [|done]. pose proof (Z.pow_pos_nonneg 2 n); lia. Qed.

Lemma wf_set_gc_handle h x : wf h → wf (set_gc_handle h x).
Proof. intros [[]]. by split; [split|]. Qed.

Lemma collect_row env w e h :
  collectable e h →
  ∃ w' h' n, Collect env w h e (K_ 16) = Ok (w', h', n) ∧ n < K_ 16 ∧ w_gc w' = w_gc w ∧
    collected e h (set_gc_handle h' 0).
Proof.
  intros [Hwf Hs Hok Hnew]. pose proof Hwf as [Hsh Hso]. pose proof Hsh as [? ? ? ? ?].
  destruct (Collect_ok env w h e (K_ 16)) as (w' & h' & i & HC & Htr & Hi & Hsup & Hmax & Hg & _);
    [done|lia|lia|done|].
  pose proof Htr as [Hir Heq Hlen Hc]. exists w', h', i. split; [done|]. split; [lia|]. split; [done|].
  change (entries (set_gc_handle h' 0)) with (entries h').
  assert (Hle : i ≤ latest_version h + 1).
  { destruct (Z.eq_dec i 0); [lia|]. destruct (Z.le_gt_cases i (latest_version h)); [lia|].
    specialize (Hsup ltac:(lia)). specialize (Hnew i ltac:(lia)). lia. }
  split.
  - by apply wf_set_gc_handle, (trimmed_wf h h' i).
  - done.
  - exists (Z.to_nat i). exact (trimmed_entries _ _ _ Htr).
  - intros sid Hsid. apply (trimmed_read h h' i sid Hwf Htr). intros Hi0. specialize (Hsup Hi0).
    eapply (shiftr_lt_mono _ _ 32); lia.
  - intros k v o Hk Hlk. change (entries (set_gc_handle h' 0)) with (entries h') in Hlk.
    rewrite (trimmed_entries _ _ _ Htr), lookup_drop in Hlk. unfold entries in Hlk.
    rewrite list_lookup_fmap in Hlk. destruct (seqZ 0 (size h) !! (Z.to_nat i + k)%nat) as [z|] eqn:Ez; [|done].
    apply lookup_seqZ in Ez as [-> Hz]. cbn in Hlk. injection Hlk as <- _.
    destruct Hmax as [?|[?|Hmax]]; [lia|lia|].
    eapply Z.le_trans; [exact Hmax|]. apply shiftr_mono; [lia|]. apply Hso; lia.
Qed.

(** ** One block *)

Record block_ready (e : Z) (s : GCState) (b : Z) (blk : GarbageBlock) : Prop := {
  br_block : blocks (w_gc (gs_world s)) !! b = Some blk;
  br_rows : len (rows blk) = kMaxNrRows;
  br_bitmap : 0 ≤ bitmap blk < 2 ^ kMaxNrRows;
  br_live : ∀ i, 0 ≤ i < kMaxNrRows → Z.testbit (bitmap blk) i = true →
    ∃ h, gs_rows s !! (rows blk).[i] = Some h ∧ collectable e h;
  br_inj : ∀ i j, 0 ≤ i < kMaxNrRows → 0 ≤ j < kMaxNrRows → Z.testbit (bitmap blk) i = true →
    Z.testbit (bitmap blk) j = true → (rows blk).[i] = (rows blk).[j] → i = j;
}.

(** row [r] is registered in the block *)
Definition in_block (blk : GarbageBlock) (r : Z) : Prop :=
  ∃ i, 0 ≤ i < kMaxNrRows ∧ Z.testbit (bitmap blk) i = true ∧ (rows blk).[i] = r.

(** the block without its slot [i] *)
Definition drop_slot (blk : GarbageBlock) (i : Z) : GarbageBlock :=
  mkBlock (rows blk) (alloc_core blk) (q_idx blk) (Z.land (bitmap blk) (u64 (Z.lnot (u64 (Z.shiftl 1 i))))).

Lemma drop_slot_bits blk i :
  0 ≤ bitmap blk < 2 ^ kMaxNrRows → 0 ≤ i < kMaxNrRows → Z.testbit (bitmap blk) i = true →
  0 ≤ bitmap (drop_slot blk i) < 2 ^ kMaxNrRows ∧
  popcount (bitmap (drop_slot blk i)) = popcount (bitmap blk) - 1 ∧
  ∀ j, 0 ≤ j < kMaxNrRows → Z.testbit (bitmap (drop_slot blk i)) j = Z.testbit (bitmap blk) j && negb (j =? i).
Proof.
  intros Hb Hi Ht. cbn [bitmap drop_slot]. rewrite kMaxNrRows_60 in *.
  assert (Hs : u64 (Z.shiftl 1 i) = Z.shiftl 1 i).
  { apply u64_id. rewrite Z.shiftl_1_l. pose proof (Z.pow_pos_nonneg 2 i). pose proof (Z.pow_lt_mono_r 2 i 64). lia. }
  rewrite Hs. destruct (popcount_clear (bitmap blk) i) as [? ?]; [rewrite kMaxNrRows_60; lia..|done|].
  rewrite kMaxNrRows_60 in *. split; [lia|]. split; [done|]. intros j Hj. by rewrite testbit_clear by lia.
Qed.

Lemma in_block_drop blk i r :
  0 ≤ bitmap blk < 2 ^ kMaxNrRows → 0 ≤ i < kMaxNrRows → Z.testbit (bitmap blk) i = true →
  (∀ j, 0 ≤ j < kMaxNrRows → Z.testbit (bitmap blk) j = true → (rows blk).[i] = (rows blk).[j] → i = j) →
  in_block (drop_slot blk i) r ↔ in_block blk r ∧ r ≠ (rows blk).[i].
Proof.
  intros Hb Hi Ht Hinj. destruct (drop_slot_bits blk i Hb Hi Ht) as (_ & _ & Hbit). split.
  - intros (j & Hj & Hbj & <-). rewrite Hbit in Hbj by done. apply andb_true_iff in Hbj as [Hbj Hne]. zprop.
    split; [by exists j|]. cbn [rows drop_slot]. intros E. symmetry in E. apply Hinj in E; [lia|done|done].
  - intros [(j & Hj & Hbj & <-) Hne]. exists j. split; [done|]. split; [|done]. rewrite Hbit, Hbj by done.
    destruct (Z.eqb_spec j i) as [->|]; done.
Qed.

(** the lowest registered slot *)
Lemma lowest_slot bm : 0 ≤ bm < 2 ^ kMaxNrRows → bm ≠ 0 →
  0 ≤ ffs bm - 1 < kMaxNrRows ∧ Z.testbit bm (ffs bm - 1) = true.
Proof.
  rewrite kMaxNrRows_60. intros Hb Hne. rewrite ffs_ctz by lia. replace (ctz bm + 1 - 1) with (ctz bm) by lia.
  replace (1 + ctz bm - 1) with (ctz bm) by lia.
  destruct (ctz_testbit bm) as [? ?]; [lia|]. pose proof (ctz_bound bm 60 ltac:(lia)). split; [lia|done].
Qed.

(** one round of the loop over a block *)
Lemma gc_round env e s b blk :
  block_ready e s b blk → bitmap blk ≠ 0 →
  let i := ffs (bitmap blk) - 1 in let r := (rows blk).[i] in
  0 ≤ i < kMaxNrRows ∧ Z.testbit (bitmap blk) i = true ∧
  ∃ h h' s1, gs_rows s !! r = Some h ∧ collected e h h' ∧
    (∀ fuel, gc_block env (S fuel) s b e = gc_block env fuel s1 b e) ∧
    gs_collect s1 = gs_collect s ∧ gs_rows s1 = <[r := h']> (gs_rows s) ∧
    (∀ b', b' ≠ b → blocks (w_gc (gs_world s1)) !! b' = blocks (w_gc (gs_world s)) !! b') ∧
    block_ready e s1 b (drop_slot blk i).
Proof.
  intros [Hblk Hrows Hbm Hlive Hinj] Hne i r. destruct (lowest_slot _ Hbm Hne) as [Hi Ht].
  split; [done|]. split; [done|]. destruct (Hlive i Hi Ht) as (h & Hh & Hcol).
  destruct (collect_row env (gs_world s) e h Hcol) as (w' & h' & n & HC & Hn & Hg & Hcd).
  exists h, (set_gc_handle h' 0). eexists. split; [done|]. split; [done|]. split; [|split; [|split; [|split]]].
  - intros fuel. cbn [gc_block]. unfold get_block at 1. rewrite Hblk. cbn [mbind result_bind].
    replace (bitmap blk =? 0) with false by (symmetry; by apply Z.eqb_neq). fold i.
    rewrite load_in by lia. cbn [mret result_ret mbind result_bind]. unfold Process. rewrite Hh, HC. cbn [mret result_ret mbind result_bind].
    replace (n <? K_ 16) with true by (symmetry; by apply Z.ltb_lt).
    unfold finish_row at 1, get_block at 1. cbn [mbind result_bind gs_world gs_rows]. rewrite Hg, Hblk. cbn [mbind result_bind].
    rewrite lookup_insert_eq. cbn [mbind result_bind]. reflexivity.
  - done.
  - cbn [gs_rows set_gs_gc]. by rewrite insert_insert_eq.
  - intros b' Hb'. cbn. by rewrite lookup_insert_ne.
  - destruct (drop_slot_bits blk i Hbm Hi Ht) as (Hb' & _ & Hbit).
    split; cbn [gs_world set_gs_gc w_gc blocks set_block gs_rows].
    + by rewrite lookup_insert_eq.
    + done.
    + done.
    + intros j Hj Hbj. rewrite Hbit in Hbj by done. apply andb_true_iff in Hbj as [Hbj Hji]. zprop.
      destruct (Hlive j Hj Hbj) as (hj & Hhj & Hcj). exists hj. split; [|done].
      rewrite !lookup_insert_ne; [done|..]; intros E; apply Hinj in E; done.
    + intros j k Hj Hk Hbj Hbk. rewrite Hbit in Hbj, Hbk by done.
      apply andb_true_iff in Hbj as [Hbj _]. apply andb_true_iff in Hbk as [Hbk _]. by apply Hinj.
Qed.

Lemma gc_block_ok env e b fuel : ∀ s blk,
  block_ready e s b blk → popcount (bitmap blk) < Z.of_nat fuel →
  ∃ s', gc_block env fuel s b e = Ok (s', true) ∧ gs_collect s' = gs_collect s ∧
    b ∈ queues (w_gc (gs_world s')) (QFree (alloc_core blk)) ∧
    (∀ b', b' ≠ b → blocks (w_gc (gs_world s')) !! b' = blocks (w_gc (gs_world s)) !! b') ∧
    (∀ r h, gs_rows s !! r = Some h → in_block blk r → ∃ h', gs_rows s' !! r = Some h' ∧ collected e h h') ∧
    (∀ r, ¬ in_block blk r → gs_rows s' !! r = gs_rows s !! r).
Proof.
  induction fuel as [|fuel IH]; intros s blk Hbr Hf.
  { destruct Hbr as [_ _ Hbm _ _]. rewrite kMaxNrRows_60 in Hbm. rewrite (popcount_bitsum 60) in Hf by lia.
    pose proof (bitsum_bounds 60 (bitmap blk)). lia. }
  destruct (Z.eq_dec (bitmap blk) 0) as [E0|Hne].
  { destruct Hbr as [Hblk _ _ _ _]. cbn [gc_block]. unfold get_block. rewrite Hblk. cbn [mbind result_bind].
    rewrite E0, Z.eqb_refl. eexists. split; [done|]. split; [done|]. split.
    - cbn. rewrite fn_lookup_insert. left.
    - split; [done|]. split; [|done]. intros r h _ (i & _ & Hb & _). by rewrite E0, Z.bits_0 in Hb. }
  destruct (gc_round env e s b blk Hbr Hne) as (Hi & Ht & h0 & h0' & s1 & Hh0 & Hcd & Hstep & Hcol & Hrw & Hfr & Hbr1).
  set (i := ffs (bitmap blk) - 1) in *. destruct Hbr as [_ _ Hbm _ Hinj].
  destruct (drop_slot_bits blk i Hbm Hi Ht) as (_ & Hpc & _).
  destruct (IH s1 _ Hbr1 ltac:(lia)) as (s' & Hrun & Hc' & Hq & Hfr' & Hin & Hout).
  assert (Hiff := fun r => in_block_drop blk i r Hbm Hi Ht (fun j Hj Hb => Hinj i j Hi Hj Ht Hb)).
  exists s'. rewrite Hstep, Hrun. split; [done|]. split; [congruence|]. split; [done|].
  split; [intros b' Hb'; by rewrite Hfr', Hfr|]. split.
  - intros r h Hr Hb. destruct (decide (r = (rows blk).[i])) as [->|Hr1].
    + rewrite Hout, Hrw, lookup_insert_eq by (rewrite Hiff; naive_solver). exists h0'. split; [done|]. congruence.
    + apply Hin; [|by apply Hiff]. by rewrite Hrw, lookup_insert_ne.
  - intros r Hb. rewrite Hout by (rewrite Hiff; naive_solver). rewrite Hrw, lookup_insert_ne; [done|].
    intros <-. apply Hb. by exists i.
Qed.

(** ** A whole pass *)

Lemma block_ready_frame e s s' b blk :
  block_ready e s b blk → blocks (w_gc (gs_world s')) !! b = blocks (w_gc (gs_world s)) !! b →
  (∀ r, in_block blk r → gs_rows s' !! r = gs_rows s !! r) → block_ready e s' b blk.
Proof.
  intros [Hblk Hrows Hbm Hlive Hinj] Hb Hr. split; [congruence|done|done| |done].
  intros i Hi Ht. rewrite Hr by by exists i. by apply Hlive.
Qed.

(** the blocks of a pass: ready, distinct, and without common rows *)
Definition pass_ready (e : Z) (s : GCState) (blks : list (Z * GarbageBlock)) : Prop :=
  (∀ b blk, (b, blk) ∈ blks → block_ready e s b blk) ∧ NoDup blks.*1 ∧
  (∀ b blk b' blk' r, (b, blk) ∈ blks → (b', blk') ∈ blks → in_block blk r → in_block blk' r → b = b').

Lemma block_popcount e s b blk : block_ready e s b blk → popcount (bitmap blk) ≤ 60.
Proof.
  intros [_ _ Hbm _ _]. rewrite kMaxNrRows_60 in Hbm. rewrite (popcount_bitsum 60) by lia.
  pose proof (bitsum_bounds 60 (bitmap blk)). lia.
Qed.

Lemma RunGC_ok env e blks : ∀ s fuel,
  gs_collect s = blks.*1 → pass_ready e s blks → (62 + length blks ≤ fuel)%nat →
  ∃ s', RunGC env fuel false s e = Ok s' ∧ gs_collect s' = [] ∧
    (∀ r h, gs_rows s !! r = Some h → (∃ b blk, (b, blk) ∈ blks ∧ in_block blk r) →
      ∃ h', gs_rows s' !! r = Some h' ∧ collected e h h') ∧
    (∀ r, (∀ b blk, (b, blk) ∈ blks → ¬ in_block blk r) → gs_rows s' !! r = gs_rows s !! r).
Proof.
  induction blks as [|[b blk] blks IH]; intros s fuel Hc (Hrd & Hnd & Hdj) Hf.
  { destruct fuel as [|fuel]; [cbn in Hf; lia|]. cbn [RunGC]. rewrite Hc. exists s. split; [done|]. split; [done|].
    split; [|done]. intros r h _ (b & blk & []%elem_of_nil & _). }
  destruct fuel as [|fuel]; [cbn in Hf; lia|]. cbn [RunGC]. rewrite Hc. cbn [fmap list_fmap fst].
  set (s0 := mkGCState _ _ _ _ _ _). cbn in Hnd. apply NoDup_cons in Hnd as [Hb Hnd].
  assert (Hrd0 : block_ready e s0 b blk).
  { eapply (block_ready_frame e s); [apply Hrd; left|done|done]. }
  destruct (gc_block_ok env e b fuel s0 blk Hrd0) as (s1 & -> & Hc1 & _ & Hfr & Hin & Hout).
  { pose proof (block_popcount _ _ _ _ Hrd0). cbn in Hf. lia. }
  cbn [mbind result_bind].
  assert (Hdis : ∀ b' blk' r, (b', blk') ∈ blks → in_block blk' r → ¬ in_block blk r).
  { intros b' blk' r Hb' Hr' Hr. apply Hb. assert (b = b') as ->.
    { eapply (Hdj b blk b' blk' r); [left|by right|done|done]. }
    apply list_elem_of_fmap. by exists (b', blk'). }
  destruct (IH s1 fuel) as (s' & -> & Hc' & Hin' & Hout').
  - by rewrite Hc1.
  - split; [|split; [done|]].
    + intros b' blk' Hb'. eapply (block_ready_frame e s); [apply Hrd; by right| |].
      * rewrite Hfr; [done|]. intros ->. apply Hb, list_elem_of_fmap. by exists (b, blk').
      * intros r Hr. rewrite Hout; [done|]. by eapply Hdis.
    + intros b1 k1 b2 k2 r H1 H2. apply Hdj; by right.
  - cbn in Hf. lia.
  - exists s'. split; [done|]. split; [done|]. split.
    + intros r h Hr (b' & blk' & [E|Hb']%elem_of_cons & Hblk').
      * injection E as -> ->. destruct (Hin r h Hr Hblk') as (h' & Hh' & Hcd). exists h'. split; [|done].
        rewrite Hout'; [done|]. intros b2 k2 Hb2 Hk2. by eapply Hdis.
      * apply Hin'; [|by eauto]. rewrite Hout; [done|]. by eapply Hdis.
    + intros r Hr. rewrite Hout'; [|intros b' blk' Hb'; apply (Hr b'); by right].
      rewrite Hout; [done|]. apply (Hr b). left.
Qed.

(** ** Properties *)


(** Preparing a pass stops at the first core without registered rows of
    the class: if that is core 0, nothing of any other core is collected. *)
Theorem prepare_stops_at_empty_core nr_threads e s :
  let q := (e + 1) mod g_gc_every_epoch (w_gc (gs_world s)) in
  0 < nr_threads →
  queues (w_gc (gs_world s)) (QFull 0 q) = [] → queues (w_gc (gs_world s)) (QHalf 0 q) = [] →
  PrepareGCForAllCores false nr_threads e s = s.
Proof.
  intros q Hn H1 H2. unfold PrepareGCForAllCores. fold q. rewrite seqZ_cons by done. cbn [prepare_loop].
  rewrite H1, H2. by destruct s as [[] ?].
Qed.

(** ** Witnesses: one block in which the sample row is registered *)

Module GCSample.
Definition blk : GarbageBlock := mkBlock (1024 :: replicate 59 0) 0 2 1.
Definition state : GCState := mkGCState
  (mkWorld (mkGC (fun _ => []) {[512 := blk]} 4) [] (fun _ => 0)) [512] {[1024 := Sample.row2]} 0 0 false.

Lemma row2_collectable : collectable 1 Sample.row2.
Proof.
  split; [split; [split; cbn; lia|]|done|..].
  - intros i j ???. cbn in *. assert (i = 0 ∨ i = 1) as [->| ->] by lia; assert (j = 0 ∨ j = 1) as [->| ->] by lia; done.
  - intros k Hk. cbn in Hk. assert (k = 0 ∨ k = 1) as [->| ->] by lia; vm_compute; intros [? ?]; discriminate.
  - intros k Hk. cbn in Hk. assert (k = 1) as -> by lia. done.
Qed.

Lemma only_slot i : 0 ≤ i → Z.testbit 1 i = true → i = 0.
Proof. intros Hi Ht. destruct (Z.eq_dec i 0); [done|]. rewrite Z.bits_above_log2 in Ht; [done|lia|cbn; lia]. Qed.

Lemma ready : pass_ready 1 state [(512, blk)].
Proof.
  split; [|split].
  - intros b blk' Hb. apply list_elem_of_singleton in Hb. injection Hb as -> ->. split; [done..| |].
    + intros i Hi Ht. apply only_slot in Ht as ->; [|lia]. exists Sample.row2. split; [done|apply row2_collectable].
    + intros i j Hi Hj H1 H2 _. apply only_slot in H1, H2; lia.
  - apply NoDup_singleton.
  - intros b k b' k' r H1 H2 _ _. apply list_elem_of_singleton in H1, H2. congruence.
Qed.
End GCSample.


Lemma prepare_stops_at_empty_core_witness :
  PrepareGCForAllCores false 4 1 GCSample.state = GCSample.state.
Proof. apply (prepare_stops_at_empty_core 4 1 GCSample.state); done. Defined.
