(* ===== verification/RowStore.v ===== *)
(** The interface between the version storage of the rows and the execution
    of transactions, and its implementation by sorted version arrays.

    [MVStore] says what the execution phase of an epoch relies on: a read
    returns the newest version below the reader (or waits for it), a write
    fills in exactly the writer's own version. [array_store] discharges the
    laws with the lemmas on [SortedArrayVHandle]. *)

From S2P Require Import Prelude LowerBound Sync GarbageSlab VHandle VHandleFacts.

Class MVStore `{SyncService} (E : Z → Prop) (S : Type) := {
  st_entries : S → Z → list (Z * Z);     (* row -> its (version, object) pairs *)
  st_ok : S → Prop;                      (* invariant of the execution phase *)
  st_room : S → Prop;                    (* the garbage registry has free blocks *)
  st_val_ok : Z → Z → Prop;              (* objects that may be stored in a row *)
  st_read : S → Z → Z → result (option Z);
  st_write : S → Z → Z → Z → result S;
  st_val_not_pending : ∀ r o, st_val_ok r o → IsPendingVal o = false;
  st_read_law : ∀ s r sid, st_ok s → E sid → read_entry sid (st_entries s r) ≠ None →
    st_read s r sid = read_result (read_entry sid (st_entries s r));
  st_write_law : ∀ s r sid o l1 x l2, st_ok s → E sid → st_val_ok r o →
    st_entries s r = l1 ++ (sid, x) :: l2 → sid ∉ l1.*1 → sid ∉ l2.*1 →
    ∀ s', st_write s r sid o = Ok s' →
      st_ok s' ∧ ∀ r', st_entries s' r' =
        if decide (r' = r) then write_entry sid o (st_entries s r) else st_entries s r';
  st_write_total : ∀ s r sid o l1 x l2, st_ok s → st_room s → E sid → st_val_ok r o →
    st_entries s r = l1 ++ (sid, x) :: l2 → sid ∉ l1.*1 → sid ∉ l2.*1 →
    ∃ s', st_write s r sid o = Ok s';
}.

(** ** The implementation by version arrays *)

Section ArrayStore.
Context (E : Z → Prop).                       (* the serial ids of the epoch *)
Context (epoch_nr : Z) (env_of : Z → Env).    (* the core that runs a transaction *)
Context (row_addr : Z → Z) (row_inlined : Z → Z).

Record ArrayStore := mkStore { as_world : World; as_rows : Z → VHandle }.

(** the invariant of one row during the execution phase *)
Record row_ok (g : GC) (r : Z) (h : VHandle) : Prop := {
  rk_wf : wf h;
  rk_epoch : ∀ sid, E sid → in_epoch h sid;
  rk_stale : ∀ sid, E sid → (versions h).[size h] ≠ sid;
  rk_reg : reg_inv g h;
  rk_addr : addr h = row_addr r;
  rk_inlined : inline_used h = row_inlined r;
}.

Definition as_ok (s : ArrayStore) : Prop := ∀ r, row_ok (w_gc (as_world s)) r (as_rows s r).
Definition as_room (s : ArrayStore) : Prop :=
  epoch_nr ≠ 0 ∧ ∀ sid, queues (w_gc (as_world s)) (QFree (env_core (env_of sid))) ≠ [].
(** an object is a string, never a pending marker or a serial id, and lies
    inside the handle only if the handle is inlined *)
Definition as_val_ok (r o : Z) : Prop :=
  SpinnerSlot_IsPendingVal o = false ∧ ¬ E o ∧
  (row_addr r < o < row_addr r + 256 → row_inlined r ≠ 0xFF).
Definition as_write (s : ArrayStore) (r sid o : Z) : result ArrayStore :=
  '(w, h) ← WriteWithVersion (env_of sid) (as_world s) (as_rows s r) sid o epoch_nr;
  mret (mkStore w (<[r := h]> (as_rows s))).

(** where a version is, from the abstract row to the array *)
Lemma entries_index h l1 sid x l2 :
  wf h → entries h = l1 ++ (sid, x) :: l2 → sid ∉ l1.*1 → sid ∉ l2.*1 →
  version_at h sid (len l1).
Proof.
  intros [[? ? ? ? ?] _] He H1 H2.
  assert (Hlen : size h = len l1 + 1 + len l2).
  { assert (Hl : len (entries h) = size h) by (unfold entries; rewrite length_fmap, length_seqZ; lia).
    rewrite <- Hl, He, length_app. cbn. lia. }
  assert (Hlk : ∀ j, 0 ≤ j < size h → (l1 ++ (sid, x) :: l2) !! Z.to_nat j = Some (entry h j)).
  { intros j Hj. rewrite <- He. unfold entries. rewrite list_lookup_fmap, lookup_seqZ_lt by lia.
    cbn -[entry]. do 2 f_equal. lia. }
  split; [lia|]. intros j Hj. specialize (Hlk j Hj). split; [intros Hv|intros ->].
  - destruct (Z.lt_total j (len l1)) as [Hlt|[->|Hgt]]; [|done|].
    + rewrite lookup_app_l in Hlk by lia. destruct H1. apply list_elem_of_fmap. exists (entry h j).
      split; [done|]. by apply list_elem_of_lookup_2 in Hlk.
    + rewrite lookup_app_r in Hlk by lia. rewrite lookup_cons_ne_0 in Hlk by lia.
      destruct H2. apply list_elem_of_fmap. exists (entry h j).
      split; [done|]. by apply list_elem_of_lookup_2 in Hlk.
  - rewrite Nat2Z.id in Hlk. rewrite lookup_app_r, Nat.sub_diag in Hlk by lia. cbn in Hlk.
    by injection Hlk.
Qed.

Lemma inlined_iff h r : inline_used h = row_inlined r → row_inlined r ≠ 0xFF → is_inlined h = true.
Proof. intros E1 E2. unfold is_inlined. rewrite E1. by apply negb_true_iff, Z.eqb_neq. Qed.

(** the hypotheses of the lemmas on writes, from the store's invariant *)
Lemma as_write_pre s r sid o l1 x l2 :
  as_ok s → E sid → as_val_ok r o →
  entries (as_rows s r) = l1 ++ (sid, x) :: l2 → sid ∉ l1.*1 → sid ∉ l2.*1 →
  let h := as_rows s r in
  wf h ∧ cur_start h ≤ len l1 ∧ version_at h sid (len l1) ∧ (versions h).[size h] ≠ sid ∧
  (addr h < o < addr h + 256 → is_inlined h = true) ∧ reg_inv (w_gc (as_world s)) h.
Proof.
  intros Hok HE (_ & _ & Hin) He H1 H2 h. destruct (Hok r) as [Hwf Hep Hst Hreg Ha Hi].
  pose proof (entries_index _ _ _ _ _ Hwf He H1 H2) as Hva. split_and!; try done; try apply Hreg; [|by apply Hst|].
  - destruct (Hep sid HE) as [_ Hlt]. destruct (Z.le_gt_cases (cur_start (as_rows s r)) (len l1)); [done|].
    specialize (Hlt (len l1) ltac:(lia)). destruct Hva as [Hr Hu].
    assert ((versions (as_rows s r)).[len l1] = sid) by by apply Hu. lia.
  - unfold h. rewrite Ha. intros. eapply inlined_iff; [done|auto].
Qed.

Lemma as_write_law s r sid o l1 x l2 :
  as_ok s → E sid → as_val_ok r o →
  entries (as_rows s r) = l1 ++ (sid, x) :: l2 → sid ∉ l1.*1 → sid ∉ l2.*1 →
  ∀ s', as_write s r sid o = Ok s' →
    as_ok s' ∧ ∀ r', entries (as_rows s' r') =
      if decide (r' = r) then write_entry sid o (entries (as_rows s r)) else entries (as_rows s r').
Proof.
  intros Hok HE Hv He H1 H2 s' HW.
  destruct (as_write_pre s r sid o l1 x l2) as (Hwf & Hcs & Hva & Hst & Hin & Hreg); [done..|].
  unfold as_write in HW. apply bind_ok in HW as ([w' h'] & HW & HR). injection HR as <-.
  destruct (WriteWithVersion_ok _ _ _ _ _ _ _ Hwf Hcs Hva (fun _ => Hst) Hin Hreg _ _ HW)
    as (He' & Hwf' & Hsv & Hlat & Hreg' & Hfr & Hc1 & Hc2).
  split; intros r'; cbn [as_rows as_world].
  - destruct (decide (r = r')) as [<-|Hne]; [rewrite fn_lookup_insert|rewrite fn_lookup_insert_ne by done].
    + destruct (Hok r) as [_ Hep Hst' _ Ha Hi]. pose proof Hwf as [[? ? ? ? ?] _].
      destruct Hsv as [S1 S2 S3 S4 S5 S6 S7]. split; [done|..|done|congruence|congruence].
      * intros sid' HE'. destruct (Hep sid' HE') as [? Hlt]. split; [lia|]. rewrite S5.
        intros k Hk. rewrite S7 by lia. by apply Hlt.
      * intros sid' HE'. rewrite S4.
        destruct (Z.eq_dec (size (as_rows s r)) (capacity (as_rows s r) + len l1)) as [->|].
        -- rewrite Hc1. intros ->. by destruct Hv as (_ & ? & _).
        -- rewrite Hc2 by lia. by apply Hst'.
    + destruct (Hok r') as [? ? ? [_ Hr'] ? ?]. split; try done. split; [apply Hreg'|].
      destruct Hr' as [|Hr']; [by left|right; by apply Hfr].
  - destruct (decide (r' = r)) as [->|Hne]; [by rewrite fn_lookup_insert|by rewrite fn_lookup_insert_ne by done].
Qed.

Lemma as_write_total s r sid o l1 x l2 :
  as_ok s → as_room s → E sid → as_val_ok r o →
  entries (as_rows s r) = l1 ++ (sid, x) :: l2 → sid ∉ l1.*1 → sid ∉ l2.*1 →
  ∃ s', as_write s r sid o = Ok s'.
Proof.
  intros Hok [He0 Hroom] HE Hv He H1 H2.
  destruct (as_write_pre s r sid o l1 x l2) as (Hwf & Hcs & Hva & Hst & Hin & Hreg); [done..|].
  destruct (WriteWithVersion_total (env_of sid) (as_world s) (as_rows s r) sid (len l1) o epoch_nr)
    as (w' & h' & HW); [done..|].
  unfold as_write. rewrite HW. by eexists.
Qed.

Lemma as_read_law s r sid :
  as_ok s → E sid → read_entry sid (entries (as_rows s r)) ≠ None →
  ReadWithVersion (as_rows s r) sid = read_result (read_entry sid (entries (as_rows s r))).
Proof.
  intros Hok HE Hne. destruct (Hok r) as [Hwf Hep _ _ _ _].
  apply ReadWithVersion_ok; [done|by apply Hep|]. intros [Hl Hle]. apply Hne.
  pose proof Hwf as [[? ? ? ? ?] Hso].
  rewrite (read_entry_lb _ sid 0); [done|]. split; [lia|]. split; [lia|].
  intros k Hk. eapply Z.le_trans; [exact Hle|apply Hso; lia].
Qed.

#[export] Instance array_store : MVStore E ArrayStore := {|
  st_entries s r := entries (as_rows s r);
  st_ok := as_ok;
  st_room := as_room;
  st_val_ok := as_val_ok;
  st_read s r sid := ReadWithVersion (as_rows s r) sid;
  st_write := as_write;
  st_val_not_pending r o H := proj1 H;
  st_read_law := as_read_law;
  st_write_law := as_write_law;
  st_write_total := as_write_total;
|}.
End ArrayStore.
