(* ===== verification/Execution.v ===== *)
(** The execution phase of an epoch: transactions run concurrently on their
    cores, each a program of row reads and row writes (txn.h [TxnRow::Read],
    [TxnRow::Write], which call [ReadWithVersion] and [WriteWithVersion] of
    the row with the transaction's serial id).

    Serializability is proved against the interface [MVStore]: whatever the
    interleaving, every read returns what it returns when the transactions
    run one after the other in the order of their serial ids, and so do the
    final values of the rows. No interleaving gets stuck. *)

From S2P Require Import Prelude LowerBound Sync GarbageSlab VHandle VHandleFacts RowStore.

(** a piece of a transaction; the continuation of a read gets the object *)
Inductive Prog :=
  | Done
  | Read (row : Z) (k : Z → Prog)
  | Write (row obj : Z) (p : Prog).

(** ** Serial semantics: reads see the state before the transaction *)

Fixpoint run (σ : Z → Z) (p : Prog) (acc : Z → option Z) : Z → option Z :=
  match p with
  | Done => acc
  | Read r k => run σ (k (σ r)) acc
  | Write r o p => run σ p (<[r := Some o]> acc)
  end.

(** a transaction writes a row at most once, and only storable objects *)
Fixpoint write_once (val_ok : Z → Z → Prop) (σ : Z → Z) (p : Prog) (acc : Z → option Z) : Prop :=
  match p with
  | Done => True
  | Read r k => write_once val_ok σ (k (σ r)) acc
  | Write r o p => acc r = None ∧ val_ok r o ∧ write_once val_ok σ p (<[r := Some o]> acc)
  end.

Definition apply_writes (σ : Z → Z) (w : Z → option Z) : Z → Z := fun r => default (σ r) (w r).

Section Serial.
Context (prog : Z → Prog).
Definition serial_step (σ : Z → Z) (sid : Z) : Z → Z := apply_writes σ (run σ (prog sid) (fun _ => None)).
Definition serial (σ : Z → Z) (l : list Z) : Z → Z := foldl serial_step σ l.
End Serial.

Lemma serial_app prog σ l1 l2 : serial prog σ (l1 ++ l2) = serial prog (serial prog σ l1) l2.
Proof. apply foldl_app. Qed.

Lemma run_mono σ val_ok p : ∀ acc r o,
  write_once val_ok σ p acc → acc r = Some o → run σ p acc r = Some o.
Proof.
  induction p as [|r' k IH|r' o' p IH]; intros acc r o Hw Ha; cbn in *; [done|by apply IH|].
  destruct Hw as (Hn & _ & Hw). apply IH; [done|].
  rewrite fn_lookup_insert_ne; [done|]. intros ->. congruence.
Qed.

(** ** Concurrent execution *)

Section Execution.
Context `{SS : SyncService} (E : Z → Prop) {S : Type} {St : MVStore E S}.
Context (prog : Z → Prog) (sids : list Z).

(** the rows and, for every transaction, what is left of it *)
Record ExecState := mkExec { ex_store : S; ex_pc : Z → Prog }.

(** one read or write of the transaction [sid]; a read of a pending version
    does not step (it spins in [WaitForData]) *)
Inductive estep : ExecState → ExecState → Prop :=
  | estep_read s pc sid r k o : sid ∈ sids → pc sid = Read r k →
      st_read s r sid = Ok (Some o) →
      estep (mkExec s pc) (mkExec s (<[sid := k o]> pc))
  | estep_write s pc sid r o p s' : sid ∈ sids → pc sid = Write r o p →
      st_write s r sid o = Ok s' →
      estep (mkExec s pc) (mkExec s' (<[sid := p]> pc)).

Context (σ0 : Z → Z) (old : Z → list (Z * Z)).

(** what the serial execution shows to [sid] and what [sid] writes in it *)
Definition before (sid : Z) : Z → Z := serial prog σ0 (filter (fun x => x < sid) sids).
Definition writes (sid : Z) : Z → option Z := run (before sid) (prog sid) (fun _ => None).

(** the versions of row [r] of this epoch, when [acc] has been written *)
Definition new_entry (acc : Z → Z → option Z) (r sid : Z) : option (Z * Z) :=
  match writes sid r with
  | Some _ => Some (sid, default kPendingValue (acc sid r))
  | None => None
  end.
Definition row_entries (acc : Z → Z → option Z) (r : Z) : list (Z * Z) :=
  old r ++ omap (new_entry acc r) sids.

(** The state after the initialization phase: the transactions are at their
    beginning, every row has its old versions, the newest with the value
    [σ0], and a pending version for each transaction that writes the row. *)
Record initialized (x : ExecState) : Prop := {
  iz_sids : StronglySorted Z.lt sids;
  iz_epoch : ∀ sid, sid ∈ sids → E sid;
  iz_old : ∀ r sid, sid ∈ sids → ∀ e, e ∈ old r → e.1 < sid;
  iz_base : ∀ r, ∃ v, last (old r) = Some (v, σ0 r) ∧ IsPendingVal (σ0 r) = false;
  iz_once : ∀ sid, sid ∈ sids → write_once st_val_ok (before sid) (prog sid) (fun _ => None);
  iz_ok : st_ok (ex_store x);
  iz_pc : ∀ sid, ex_pc x sid = prog sid;
  iz_rows : ∀ r, st_entries (ex_store x) r = row_entries (fun _ _ => None) r;
}.

(** the invariant of the execution phase: [acc] is what has been written *)
Record exec_inv (acc : Z → Z → option Z) (x : ExecState) : Prop := {
  ei_ok : st_ok (ex_store x);
  ei_rows : ∀ r, st_entries (ex_store x) r = row_entries acc r;
  ei_rest : ∀ sid, sid ∈ sids → run (before sid) (ex_pc x sid) (acc sid) = writes sid;
  ei_once : ∀ sid, sid ∈ sids → write_once st_val_ok (before sid) (ex_pc x sid) (acc sid);
  ei_vals : ∀ sid r o, acc sid r = Some o → st_val_ok r o;
}.

Section Invariant.
Context (Hsids : StronglySorted Z.lt sids).
Context (Hepoch : ∀ sid, sid ∈ sids → E sid).
Context (Hold : ∀ r sid, sid ∈ sids → ∀ e, e ∈ old r → e.1 < sid).
Context (Hbase : ∀ r, ∃ v, last (old r) = Some (v, σ0 r) ∧ IsPendingVal (σ0 r) = false).

(** the transactions before and after one of them *)
Lemma sids_around l1 sid l2 : sids = l1 ++ sid :: l2 →
  (∀ x, x ∈ l1 → x < sid) ∧ (∀ x, x ∈ l2 → sid < x).
Proof.
  intros Hl. rewrite Hl in Hsids. apply StronglySorted_app in Hsids as (H12 & _ & Hs2). split.
  - intros x Hx. apply H12; [done|left].
  - apply StronglySorted_inv in Hs2 as [_ Hf]. by rewrite Forall_forall in Hf.
Qed.

Lemma filter_before l1 sid l2 : sids = l1 ++ sid :: l2 → filter (fun x => x < sid) sids = l1.
Proof.
  intros Hl. destruct (sids_around _ _ _ Hl) as [H1 H2]. rewrite Hl.
  rewrite filter_app, filter_all by auto. rewrite filter_cons_False by lia.
  rewrite filter_none, app_nil_r; [done|]. intros x Hx. specialize (H2 x Hx). lia.
Qed.

Lemma before_prefix l1 sid l2 : sids = l1 ++ sid :: l2 → before sid = serial prog σ0 l1.
Proof. intros Hl. unfold before. by rewrite (filter_before _ _ _ Hl). Qed.

Lemma new_entry_key acc r sid e : new_entry acc r sid = Some e → e.1 = sid.
Proof. unfold new_entry. case_match; naive_solver. Qed.

Lemma elem_of_new acc r (l : list Z) e : e ∈ omap (new_entry acc r) l → e.1 ∈ l.
Proof.
  rewrite list_elem_of_omap. intros (sid & Hin & He). by apply new_entry_key in He as ->.
Qed.

(** a reader's version is the last one of the transactions before it *)
Lemma read_row acc r l1 sid l2 : sids = l1 ++ sid :: l2 →
  read_entry sid (row_entries acc r) = last (old r ++ omap (new_entry acc r) l1).
Proof.
  intros Hl. destruct (sids_around _ _ _ Hl) as [H1 H2].
  unfold read_entry, row_entries. rewrite Hl at 1. rewrite omap_app, !filter_app.
  rewrite (filter_all _ (old r)), (filter_all _ (omap _ l1)), (filter_none _ (omap _ (sid :: l2))), app_nil_r; [done|..].
  - intros e He. apply elem_of_new in He. apply elem_of_cons in He as [->|He]; [lia|]. specialize (H2 _ He). lia.
  - intros e He. apply elem_of_new in He. by apply H1.
  - intros e He. apply (Hold r sid); [|done]. rewrite Hl. apply elem_of_app. right. left.
Qed.

(** if it is not pending, it holds the value of the serial execution *)
Lemma last_serial acc x r l1 : ∀ l2,
  exec_inv acc x → sids = l1 ++ l2 →
  ∃ e, last (old r ++ omap (new_entry acc r) l1) = Some e ∧
    (IsPendingVal e.2 = false → e.2 = serial prog σ0 l1 r) ∧
    ((∀ sid, sid ∈ l1 → acc sid r = writes sid r) → IsPendingVal e.2 = false).
Proof.
  intros l2 Hinv. revert l2. induction l1 as [|sid l1 IH] using rev_ind; intros l2 Hl.
  { destruct (Hbase r) as (v & Hv & Hp). exists (v, σ0 r). rewrite app_nil_r. by rewrite Hv. }
  rewrite <- app_assoc in Hl. cbn in Hl. assert (Hin : sid ∈ sids) by (rewrite Hl; apply elem_of_app; right; left).
  rewrite omap_app, app_assoc. cbn [omap list_omap]. rewrite serial_app. cbn [serial foldl].
  unfold serial_step, apply_writes. rewrite <- (before_prefix _ _ _ Hl). fold (writes sid).
  destruct (IH _ Hl) as (e & He & Hv & Hc). unfold new_entry at 2.
  destruct (writes sid r) as [o|] eqn:Hw; cbn [default].
  - eexists. rewrite last_snoc. split; [done|]. cbn [snd]. destruct (acc sid r) as [o'|] eqn:Ha; cbn [default].
    + pose proof (run_mono _ _ _ _ r o' (ei_once _ _ Hinv sid Hin) Ha) as Hm.
      rewrite (ei_rest _ _ Hinv sid Hin), Hw in Hm. injection Hm as ->. split; [done|]. intros _.
      eapply st_val_not_pending, (ei_vals _ _ Hinv), Ha.
    + rewrite IsPendingVal_init. split; [done|]. intros Hall.
      specialize (Hall sid). rewrite Ha, Hw in Hall. discriminate Hall. apply elem_of_app. right. left.
  - exists e. rewrite app_nil_r. split; [done|]. split; [by rewrite (before_prefix _ _ _ Hl)|].
    intros Hall. apply Hc. intros s' Hs'. apply Hall. apply elem_of_app. by left.
Qed.

(** ** The invariant is preserved *)

Definition acc_write (acc : Z → Z → option Z) (sid r o : Z) : Z → Z → option Z :=
  <[sid := <[r := Some o]> (acc sid)]> acc.

Lemma acc_write_at acc sid r o sid' r' :
  acc_write acc sid r o sid' r' = if decide (sid' = sid ∧ r' = r) then Some o else acc sid' r'.
Proof.
  unfold acc_write. destruct (decide (sid = sid')) as [<-|].
  - rewrite fn_lookup_insert. destruct (decide (r = r')) as [<-|].
    + rewrite fn_lookup_insert. by rewrite decide_True.
    + rewrite fn_lookup_insert_ne by done. rewrite decide_False; [done|naive_solver].
  - rewrite fn_lookup_insert_ne by done. rewrite decide_False; [done|naive_solver].
Qed.

Lemma new_entries_write acc sid r o r' (l : list Z) :
  omap (new_entry (acc_write acc sid r o) r') l =
  if decide (r' = r) then write_entry sid o (omap (new_entry acc r) l) else omap (new_entry acc r') l.
Proof.
  unfold write_entry. induction l as [|x l IH]; [by case_decide|]. cbn [omap list_omap]. rewrite IH.
  assert (Hx : new_entry (acc_write acc sid r o) r' x = if decide (r' = r)
    then (fun e => if e.1 =? sid then (sid, o) else e) <$> new_entry acc r x else new_entry acc r' x).
  { unfold new_entry. rewrite acc_write_at. destruct (decide (r' = r)) as [->|].
    - destruct (writes x r); [|done]. cbn. destruct (Z.eqb_spec x sid) as [->|];
        [by rewrite decide_True|rewrite decide_False; [done|naive_solver]].
    - rewrite decide_False; [done|naive_solver]. }
  rewrite Hx. case_decide; [|done]. by destruct (new_entry acc r x).
Qed.

Lemma row_entries_write acc sid r o r' : sid ∈ sids →
  row_entries (acc_write acc sid r o) r' =
  if decide (r' = r) then write_entry sid o (row_entries acc r) else row_entries acc r'.
Proof.
  intros Hin. unfold row_entries. rewrite new_entries_write. destruct (decide (r' = r)) as [->|Hne]; [|done].
  unfold write_entry. rewrite fmap_app. f_equal.
  symmetry. rewrite <- (list_fmap_id (old r)) at 2. apply list_fmap_ext. intros i e He.
  apply list_elem_of_lookup_2 in He. specialize (Hold r sid Hin e He).
  replace (e.1 =? sid) with false by (symmetry; zcase; lia). done.
Qed.

(** the place of a transaction's own version *)
Lemma row_entries_split acc r sid : sid ∈ sids → writes sid r ≠ None →
  ∃ l1 x l2, row_entries acc r = l1 ++ (sid, x) :: l2 ∧ sid ∉ l1.*1 ∧ sid ∉ l2.*1.
Proof.
  intros Hin Hw. apply list_elem_of_split in Hin as Hl. destruct Hl as (l1 & l2 & Hl).
  destruct (sids_around _ _ _ Hl) as [H1 H2].
  assert (Hre : row_entries acc r = (old r ++ omap (new_entry acc r) l1) ++
    (sid, default kPendingValue (acc sid r)) :: omap (new_entry acc r) l2).
  { unfold row_entries. rewrite Hl at 1. rewrite omap_app. cbn [omap list_omap]. unfold new_entry at 2.
    destruct (writes sid r); [|done]. by rewrite <- app_assoc. }
  do 3 eexists. split; [exact Hre|].
  split; intros (e & He & Hx)%list_elem_of_fmap.
  - apply elem_of_app in Hx as [Hx|Hx]; [specialize (Hold r sid Hin e Hx); lia|].
    apply elem_of_new, H1 in Hx. lia.
  - apply elem_of_new, H2 in Hx. lia.
Qed.

(** what a transaction reads is what the serial execution shows to it *)
Lemma exec_inv_read acc x sid r o :
  exec_inv acc x → sid ∈ sids → st_read (ex_store x) r sid = Ok (Some o) → o = before sid r.
Proof.
  intros Hinv Hin Hread. apply list_elem_of_split in Hin as Hl. destruct Hl as (l1 & l2 & Hl).
  pose proof Hinv as [Hok Hrows _ _ _].
  destruct (last_serial acc _ r l1 _ Hinv Hl) as (e & He & Hv & _).
  rewrite <- (read_row acc r l1 sid l2 Hl), <- Hrows in He.
  rewrite st_read_law, He in Hread; [|done|by apply Hepoch|by rewrite He].
  destruct e as [v o']. cbn in *. destruct (IsPendingVal o'); [done|]. injection Hread as <-.
  rewrite (before_prefix _ _ _ Hl). by apply Hv.
Qed.

Lemma exec_inv_step acc x x' :
  exec_inv acc x → estep x x' → ∃ acc', exec_inv acc' x'.
Proof.
  intros Hinv Hstep. pose proof Hinv as [Hok Hrows Hrest Honce Hvals].
  destruct Hstep as [s pc sid r k o Hin Hpc Hread|s pc sid r o p s' Hin Hpc Hwrite]; cbn [ex_store ex_pc] in *.
  - exists acc. assert (Ho : o = before sid r) by by eapply exec_inv_read.
    subst o. specialize (Hrest sid Hin) as Hr1. specialize (Honce sid Hin) as Ho1. rewrite Hpc in Hr1, Ho1.
    split; [done..| | |done]; cbn [ex_pc]; intros sid' Hin';
      (destruct (decide (sid = sid')) as [<-|];
        [rewrite fn_lookup_insert|rewrite fn_lookup_insert_ne by done]); auto.
  - specialize (Hrest sid Hin) as Hr1. specialize (Honce sid Hin) as Ho1. rewrite Hpc in Hr1, Ho1.
    cbn in Hr1, Ho1. destruct Ho1 as (Hnone & Hvok & Ho1).
    assert (Hw : writes sid r ≠ None).
    { rewrite <- Hr1. erewrite run_mono; [done|exact Ho1|by rewrite fn_lookup_insert]. }
    destruct (row_entries_split acc r sid Hin Hw) as (l1 & y & l2 & Hsp & Hn1 & Hn2).
    destruct (st_write_law s r sid o l1 y l2 Hok (Hepoch _ Hin) Hvok) with s' as [Hok' He'];
      [by rewrite Hrows|done..|].
    exists (acc_write acc sid r o). split; cbn [ex_store ex_pc]; [done|..].
    + intros r'. rewrite He', row_entries_write by done. case_decide; by rewrite Hrows.
    + intros sid' Hin'. unfold acc_write. destruct (decide (sid = sid')) as [<-|];
        [by rewrite !fn_lookup_insert|by rewrite !fn_lookup_insert_ne by done; auto].
    + intros sid' Hin'. unfold acc_write. destruct (decide (sid = sid')) as [<-|];
        [by rewrite !fn_lookup_insert|by rewrite !fn_lookup_insert_ne by done; auto].
    + intros sid' r' o'. rewrite acc_write_at. case_decide as Hd; [|by apply Hvals].
      destruct Hd as [-> ->]. by intros [= <-].
Qed.

Lemma exec_inv_steps acc x x' :
  exec_inv acc x → rtc estep x x' → ∃ acc', exec_inv acc' x'.
Proof.
  intros Hinv Hsteps. revert acc Hinv. induction Hsteps as [x|x y z Hxy _ IH]; intros acc Hinv; [by exists acc|].
  destruct (exec_inv_step _ _ _ Hinv Hxy) as [acc' ?]. by eapply IH.
Qed.

(** when everything is done the rows hold the serial values *)
Lemma exec_inv_final acc x r :
  exec_inv acc x → (∀ sid, sid ∈ sids → ex_pc x sid = Done) →
  ∃ v, last (st_entries (ex_store x) r) = Some (v, serial prog σ0 sids r).
Proof.
  intros Hinv Hdone. destruct (last_serial acc x r sids [] Hinv) as ([v o] & He & Hv & Hp); [by rewrite app_nil_r|].
  rewrite (ei_rows _ _ Hinv). unfold row_entries. rewrite He. exists v. cbn in *. rewrite <- Hv; [done|].
  apply Hp. intros sid Hin. rewrite <- (ei_rest _ _ Hinv sid Hin), Hdone by done. done.
Qed.

(** the first unfinished transaction can go on *)
Lemma exec_inv_progress acc x l1 sid l2 :
  exec_inv acc x → st_room (ex_store x) → sids = l1 ++ sid :: l2 →
  (∀ s, s ∈ l1 → ex_pc x s = Done) → ex_pc x sid ≠ Done → ∃ x', estep x x'.
Proof.
  intros Hinv Hroom Hl Hdone Hnd. assert (Hin : sid ∈ sids) by (rewrite Hl; apply elem_of_app; right; left).
  pose proof Hinv as [Hok Hrows Hrest Honce Hvals]. destruct x as [s pc]; cbn [ex_store ex_pc] in *.
  destruct (pc sid) as [|r k|r o p] eqn:Hpc; [done|..].
  - destruct (last_serial acc _ r l1 _ Hinv Hl) as (e & He & _ & Hp).
    rewrite <- (read_row acc r l1 sid l2 Hl), <- Hrows in He.
    eexists. eapply (estep_read s pc sid r k e.2); [done..|].
    rewrite st_read_law, He; [|done|by apply Hepoch|by rewrite He].
    destruct e as [v o]. cbn in *. rewrite Hp; [done|]. intros s' Hs'.
    rewrite <- (Hrest s'), Hdone; [done|done|rewrite Hl; apply elem_of_app; by left].
  - specialize (Hrest sid Hin) as Hr1. specialize (Honce sid Hin) as Ho1. rewrite Hpc in Hr1, Ho1.
    cbn in Hr1, Ho1. destruct Ho1 as (Hnone & Hvok & Ho1).
    assert (Hw : writes sid r ≠ None).
    { rewrite <- Hr1. erewrite run_mono; [done|exact Ho1|by rewrite fn_lookup_insert]. }
    destruct (row_entries_split acc r sid Hin Hw) as (l3 & y & l4 & Hsp & Hn1 & Hn2).
    destruct (st_write_total s r sid o l3 y l4 Hok Hroom (Hepoch _ Hin) Hvok) as [s' Hs'];
      [by rewrite Hrows|done..|].
    eexists. by eapply estep_write.
Qed.
End Invariant.

Lemma initialized_inv x : initialized x → exec_inv (fun _ _ => None) x.
Proof.
  intros [? ? ? ? Honce Hok Hpc Hrows]. split; [done|done|..|done].
  - intros sid Hin. by rewrite Hpc.
  - intros sid Hin. rewrite Hpc. by apply Honce.
Qed.

(** the first transaction of a list that is not finished *)
Lemma first_unfinished (pc : Z → Prog) l :
  (∀ sid, sid ∈ l → pc sid = Done) ∨
  ∃ l1 sid l2, l = l1 ++ sid :: l2 ∧ (∀ s, s ∈ l1 → pc s = Done) ∧ pc sid ≠ Done.
Proof.
  induction l as [|x l IH]; [left; intros ? []%elem_of_nil|].
  assert (Hd : pc x = Done ∨ pc x ≠ Done) by (destruct (pc x); [left|right..]; done).
  destruct Hd as [Hd|Hd]; [|right; exists [], x, l; split_and!; [done|intros ? []%elem_of_nil|done]].
  destruct IH as [IH|(l1 & sid & l2 & -> & H1 & H2)].
  - left. intros sid [->|?]%elem_of_cons; auto.
  - right. exists (x :: l1), sid, l2. split_and!; [done| |done]. intros s [->|?]%elem_of_cons; auto.
Qed.

(** ** Termination *)

Definition child (p q : Prog) : Prop :=
  match q with Done => False | Read _ k => ∃ o, p = k o | Write _ _ p' => p = p' end.

Lemma child_wf p : Acc child p.
Proof.
  induction p as [|r k IH|r o p IH]; constructor; intros q Hq; cbn in Hq; [done| |by subst].
  destruct Hq as [o ->]. apply IH.
Qed.

Definition pc_step (l : list Z) (pc' pc : Z → Prog) : Prop :=
  ∃ sid, sid ∈ l ∧ child (pc' sid) (pc sid) ∧ ∀ s, s ≠ sid → pc' s = pc s.

Lemma pc_step_wf l : ∀ pc, Acc (pc_step l) pc.
Proof.
  induction l as [|a l IH]; intros pc.
  { constructor. intros pc' (sid & []%elem_of_nil & _). }
  remember (pc a) as p eqn:Hp. revert pc Hp. induction (child_wf p) as [p _ IHp]. intros pc Hp.
  induction (IH pc) as [pc _ IHpc]. constructor. intros pc' (sid & Hin & Hc & Hne).
  destruct (decide (sid = a)) as [->|Hsa]; [eapply IHp; [|done]; by subst|].
  apply elem_of_cons in Hin as [->|Hin]; [done|].
  apply IHpc; [by exists sid|]. rewrite Hne by done. done.
Qed.

Lemma estep_wf x : Acc (flip estep) x.
Proof.
  remember (ex_pc x) as pc eqn:Hpc. revert x Hpc. induction (pc_step_wf sids pc) as [pc _ IH].
  intros x Hpc. constructor. intros x' Hstep. eapply IH; [|done]. subst pc.
  destruct Hstep as [s pc sid r k o Hin Hpc _|s pc sid r o p s' Hin Hpc _]; cbn [ex_pc]; exists sid;
    rewrite fn_lookup_insert, Hpc; (split_and!; [done|cbn; eauto|intros; by rewrite fn_lookup_insert_ne]).
Qed.
End Execution.
