(* ===== verification/Serializability.v ===== *)
(** Correctness of an epoch's execution phase on sorted version arrays: the
    theorems of [Execution] with the rows stored as [SortedArrayVHandle]s. *)

From S2P Require Import Prelude LowerBound Sync GarbageSlab VHandle VHandleFacts RowStore Execution VHandleAppend.

(** ** A concrete epoch, used by the witnesses

    Epoch 1 with two transactions that both read and write row 0. *)

Module Demo.
Import Sample.
Definition sid1 : Z := 4294967552.   (* epoch 1, sequence 1, node 0 *)
Definition sid2 : Z := 4294967808.
Definition E (sid : Z) : Prop := sid = sid1 ∨ sid = sid2.
Definition sids : list Z := [sid1; sid2].
Definition prog (sid : Z) : Prog :=
  if sid =? sid1 then Read 0 (fun o => Write 0 (o + 4096) Done)
  else if sid =? sid2 then Read 0 (fun o => Write 0 (2 * o) Done) else Done.

Definition row (r : Z) : VHandle :=
  if r =? 0
  then mkVHandle 1024 0 0 (-1) 0xFF 4 3 1 0 0 1088 [5; sid1; sid2; 0; 4096; kPendingValue; kPendingValue; 0] (-1) 0
  else mkVHandle 1024 0 0 (-1) 0xFF 4 1 1 0 0 1088 [5; 0; 0; 0; 4096; 0; 0; 0] (-1) 0.
Definition store : ArrayStore := mkStore world row.
Definition x0 : ExecState := mkExec store prog.
Definition σ0 (r : Z) : Z := 4096.
Definition old (r : Z) : list (Z * Z) := [(5, 4096)].

#[export] Instance demo_store : MVStore E ArrayStore :=
  array_store E 1 (fun _ => env) (fun _ => 1024) (fun _ => 0xFF).

Lemma row_ok_demo r : row_ok E (fun _ => 1024) (fun _ => 0xFF) gc r (row r).
Proof.
  unfold row. destruct (Z.eqb_spec r 0) as [->|].
  - split; cbn [addr inline_used]; [| | |split; [apply gc_ok|by left]|done|done].
    + split; [split; cbn; lia|]. intros i j ???. cbn in *.
      assert (i = 0 ∨ i = 1 ∨ i = 2) as [->|[->| ->]] by lia;
      assert (j = 0 ∨ j = 1 ∨ j = 2) as [->|[->| ->]] by lia; vm_compute; try done; lia.
    + intros sid [->| ->]; (split; [done|]; intros k Hk; cbn in Hk; assert (k = 0) as -> by lia; done).
    + intros sid [->| ->]; done.
  - split; cbn [addr inline_used]; [| | |split; [apply gc_ok|by left]|done|done].
    + split; [split; cbn; lia|]. intros i j ???. cbn in *.
      assert (i = 0) as -> by lia. assert (j = 0) as -> by lia. done.
    + intros sid [->| ->]; (split; [done|]; intros k Hk; cbn in Hk; assert (k = 0) as -> by lia; done).
    + intros sid [->| ->]; done.
Qed.

Lemma initialized_demo : initialized E prog sids σ0 old x0.
Proof.
  split.
  - repeat constructor.
  - unfold sids, E. set_solver.
  - intros r sid Hin e He. unfold old in He. apply list_elem_of_singleton in He as ->.
    unfold sids in Hin. apply elem_of_cons in Hin as [->|Hin%list_elem_of_singleton]; [done|by subst].
  - intros r. by exists 5.
  - intros sid Hin. unfold sids in Hin.
    assert (HE : ∀ o, (o =? sid1) = false → (o =? sid2) = false → ¬ E o) by (intros o ?? [->| ->]; done).
    apply elem_of_cons in Hin as [->|Hin%list_elem_of_singleton]; [|subst]; cbn;
      (split; [done|]; split; [|done]; split; [done|]; split; [by apply HE|]; vm_compute; intuition discriminate).
  - intros r. apply row_ok_demo.
  - done.
  - intros r. unfold row_entries, sids. cbn [omap list_omap].
    assert (Hw : ∀ s, s = sid1 ∨ s = sid2 → writes prog sids σ0 s r =
      <[0 := Some (if s =? sid1 then 8192 else 16384)]> (fun _ : Z => None) r).
    { intros s [->| ->]; done. }
    unfold new_entry. rewrite !Hw by auto. cbn [st_entries demo_store array_store as_rows store x0 ex_store].
    unfold row. destruct (Z.eqb_spec r 0) as [->|].
    + rewrite !fn_lookup_insert. vm_compute. done.
    + rewrite !fn_lookup_insert_ne by done. vm_compute. done.
Qed.
End Demo.

(** ** Properties *)

Section EpochTheorems.
Context (E : Z → Prop) (epoch_nr : Z) (env_of : Z → Env) (row_addr row_inlined : Z → Z).
Context (prog : Z → Prog) (sids : list Z) (σ0 : Z → Z) (old : Z → list (Z * Z)).
Local Notation St := (array_store E epoch_nr env_of row_addr row_inlined).
Context (x0 x : ExecState (S := ArrayStore)).

(** the invariant at every state of an execution *)
Lemma reachable_inv :
  initialized (St := St) E prog sids σ0 old x0 → rtc (estep (St := St) E sids) x0 x →
  ∃ acc, exec_inv (St := St) E prog sids σ0 old acc x.
Proof.
  intros Hinit Hsteps. pose proof (initialized_inv (St := St) _ _ _ _ _ _ Hinit) as Hinv. destruct Hinit.
  by eapply (exec_inv_steps (St := St) E).
Qed.

(** C1. Serializability: when every transaction of the epoch has finished,
    in whatever interleaving, the newest version of each row holds the value
    that executing the transactions one by one, in serial id order, gives. *)
Theorem epoch_serializable :
  initialized (St := St) E prog sids σ0 old x0 →
  rtc (estep (St := St) E sids) x0 x →
  (∀ sid, sid ∈ sids → ex_pc x sid = Done) →
  ∀ r, ∃ v, last (entries (as_rows (ex_store x) r)) = Some (v, serial prog σ0 sids r).
Proof.
  intros Hinit Hsteps Hdone r. destruct (reachable_inv Hinit Hsteps) as [acc Hacc]. destruct Hinit.
  by apply (exec_inv_final (St := St) E prog sids σ0 old) with (acc := acc).
Qed.

(** C2. Whenever a transaction reads a row during the execution phase and
    the read returns, it returns the value the row has just before the
    transaction in the serial execution. *)
Theorem reads_are_serial sid r o :
  initialized (St := St) E prog sids σ0 old x0 →
  rtc (estep (St := St) E sids) x0 x →
  sid ∈ sids → ReadWithVersion (as_rows (ex_store x) r) sid = Ok (Some o) →
  o = before prog sids σ0 sid r.
Proof.
  intros Hinit Hsteps Hin Hread. destruct (reachable_inv Hinit Hsteps) as [acc Hacc]. destruct Hinit.
  by apply (exec_inv_read (St := St) E prog sids σ0 old) with (acc := acc) (x := x).
Qed.

(** C3. Deadlock freedom: as long as some transaction is not finished and
    the garbage registry has free blocks, some transaction can make a step:
    waiting for versions of lower serial ids never forms a cycle. *)
Theorem epoch_progress sid :
  initialized (St := St) E prog sids σ0 old x0 →
  rtc (estep (St := St) E sids) x0 x →
  as_room epoch_nr env_of (ex_store x) →
  sid ∈ sids → ex_pc x sid ≠ Done →
  ∃ x', estep (St := St) E sids x x'.
Proof.
  intros Hinit Hsteps Hroom Hin Hnd. destruct (reachable_inv Hinit Hsteps) as [acc Hacc]. destruct Hinit.
  destruct (first_unfinished (ex_pc x) sids) as [Hall|(l1 & sid' & l2 & Hl & Hd & Hnd')]; [by apply Hall in Hin|].
  eapply (exec_inv_progress (St := St) E prog sids σ0 old); done.
Qed.
End EpochTheorems.


(** ** Witnesses *)

Module DemoRun.
Import Sample Demo.

(** the state after [sid2] has been waiting for [sid1]'s write *)
Definition x1 : ExecState := mkExec store (<[sid1 := Write 0 8192 Done]> prog).
Definition s2 : ArrayStore := default store (match as_write 1 (fun _ => env) store 0 sid1 8192 with Ok s => Some s | Err _ => None end).
Definition x2 : ExecState := mkExec s2 (<[sid1 := Done]> (ex_pc x1)).
Definition x3 : ExecState := mkExec s2 (<[sid2 := Write 0 16384 Done]> (ex_pc x2)).
Definition s4 : ArrayStore := default store (match as_write 1 (fun _ => env) s2 0 sid2 16384 with Ok s => Some s | Err _ => None end).
Definition x4 : ExecState := mkExec s4 (<[sid2 := Done]> (ex_pc x3)).

Lemma steps_demo : rtc (estep (St := demo_store) E sids) x0 x4.
Proof.
  eapply (rtc_l _ _ x1).
  { eapply (estep_read E sids _ _ sid1 0 (fun o => Write 0 (o + 4096) Done) 4096); [left|done|vm_compute; done]. }
  eapply (rtc_l _ _ x2).
  { eapply (estep_write E sids _ _ sid1 0 8192 Done s2); [left|done|vm_compute; done]. }
  eapply (rtc_l _ _ x3).
  { eapply (estep_read E sids _ _ sid2 0 (fun o => Write 0 (2 * o) Done) 8192); [right; left|done|vm_compute; done]. }
  eapply (rtc_l _ _ x4); [|done].
  eapply (estep_write E sids _ _ sid2 0 16384 Done s4); [right; left|done|vm_compute; done].
Qed.
End DemoRun.

Lemma epoch_serializable_witness :
  ∃ v, last (entries (as_rows (ex_store DemoRun.x4) 0)) =
       Some (v, serial Demo.prog Demo.σ0 Demo.sids 0).
Proof.
  apply (epoch_serializable Demo.E 1 (fun _ => Sample.env) (fun _ => 1024) (fun _ => 0xFF)
    Demo.prog Demo.sids Demo.σ0 Demo.old Demo.x0 DemoRun.x4 Demo.initialized_demo DemoRun.steps_demo).
  intros sid Hin. unfold Demo.sids in Hin.
  apply elem_of_cons in Hin as [->|Hin%list_elem_of_singleton]; [done|by subst].
Defined.

Lemma reads_are_serial_witness : 8192 = before Demo.prog Demo.sids Demo.σ0 Demo.sid2 0.
Proof.
  apply (reads_are_serial Demo.E 1 (fun _ => Sample.env) (fun _ => 1024) (fun _ => 0xFF)
    Demo.prog Demo.sids Demo.σ0 Demo.old Demo.x0 DemoRun.x4 Demo.sid2 0 8192
    Demo.initialized_demo DemoRun.steps_demo); [right; left|vm_compute; done].
Defined.

Lemma epoch_progress_witness : ∃ x', estep (St := Demo.demo_store) Demo.E Demo.sids Demo.x0 x'.
Proof.
  apply (epoch_progress Demo.E 1 (fun _ => Sample.env) (fun _ => 1024) (fun _ => 0xFF)
    Demo.prog Demo.sids Demo.σ0 Demo.old Demo.x0 Demo.x0 Demo.sid1 Demo.initialized_demo (rtc_refl _ _));
    [|left|done].
  split; [done|]. intros sid. done.
Defined.
