(* ===== verification/VersionBuffer.v ===== *)
(** Batched appends to contended rows (contention_manager.cc
    [VersionBufferHandle::Append], [FlushIntoNoLock] and
    [VersionBufferHead::ScanAndFinalize]): versions are collected in a per-core
    buffer of the row and merged into its version array in one go. *)

From S2P Require Import Prelude LowerBound Region Sync GarbageSlab VHandle VHandleFacts VHandleAppend.

Definition kMaxBatch : Z := 255.

Record VersionBuffer := mkBuf {
  buf_cnt : Z;             (* uint32_t *)
  ondsplt_cnt : Z;         (* uint32_t *)
  buf_versions : list Z;   (* kMaxBatch cells *)
}.

(** [VersionPrealloc] of one core: a bit and a buffer for every position *)
Record VersionPrealloc := mkPrealloc {
  pa_bitmap : Z → bool;
  version_buffers : Z → VersionBuffer;
}.

Definition set_buf (pa : VersionPrealloc) (pos : Z) (b : VersionBuffer) (bit : bool) : VersionPrealloc :=
  mkPrealloc (<[pos := bit]> (pa_bitmap pa)) (<[pos := b]> (version_buffers pa)).

(** the versions waiting in a buffer *)
Definition buffered (b : VersionBuffer) : list Z := take (Z.to_nat (buf_cnt b)) (buf_versions b).

(** the loop of [FlushIntoNoLock] over [i = n - 1, ..., 0] *)
Fixpoint flush_loop (n : nat) (h : VHandle) (vs : list Z) (end_ : Z) : result VHandle :=
  match n with
  | O => Ok h
  | S n =>
      v ← load vs (Z.of_nat n);
      h ← BookNewVersionNoLock h v end_;
      '(h, end_) ← AbsorbNewVersionNoLock h end_ (Z.of_nat n);
      flush_loop n h vs end_
  end.

(** [VersionBufferHandle::FlushIntoNoLock] *)
Definition FlushIntoNoLock (h : VHandle) (pa : VersionPrealloc) (pos end_ : Z) : result (VHandle * VersionPrealloc) :=
  let buf := version_buffers pa pos in
  let vs := merge_sort Z.le (buffered buf) ++ drop (Z.to_nat (buf_cnt buf)) (buf_versions buf) in
  h ← flush_loop (Z.to_nat (buf_cnt buf)) h vs end_;
  mret (set_nr_ondsplt h (i32 (nr_ondsplt h + ondsplt_cnt buf)), set_buf pa pos (mkBuf 0 0 vs) false).

(** [handle->IncreaseSize(buf->buf_cnt, epoch_nr)] and the flush after it *)
Definition flush_buffer (env : Env) (w : World) (h : VHandle) (pa : VersionPrealloc) (pos epoch_nr : Z)
    : result (World * VHandle * VersionPrealloc) :=
  let cnt := buf_cnt (version_buffers pa pos) in
  '(w, h) ← IncreaseSize env w h cnt epoch_nr;
  '(h, pa) ← FlushIntoNoLock h pa pos (u32 (size h - cnt));
  mret (w, h, pa).

(** [VersionBufferHandle::Append]; [trylock] is what [handle->lock.TryLock]
    returns *)
Definition VersionBuffer_Append (env : Env) (w : World) (h : VHandle) (pa : VersionPrealloc)
    (pos sid epoch_nr : Z) (is_ondemand_split trylock : bool) : result (World * VHandle * VersionPrealloc) :=
  let buf := version_buffers pa pos in
  if buf_cnt buf =? kMaxBatch then
    '(w, h) ← AppendNewVersionNoLock env w h sid epoch_nr (Z.b2z is_ondemand_split);
    let h := if is_ondemand_split then set_nr_ondsplt h (i32 (nr_ondsplt h + 1)) else h in
    flush_buffer env w h pa pos epoch_nr
  else
    vs ← store (buf_versions buf) (buf_cnt buf) sid;
    let buf := mkBuf (buf_cnt buf + 1)
      (if is_ondemand_split then u32 (ondsplt_cnt buf + 1) else ondsplt_cnt buf) vs in
    let bit := if buf_cnt buf - 1 =? 0 then true else pa_bitmap pa pos in
    let pa := set_buf pa pos buf bit in
    if (kMaxBatch / 2 <? buf_cnt buf) && trylock then flush_buffer env w h pa pos epoch_nr
    else mret (w, h, pa).

(** ** The versions of the current epoch *)

(** versions above [latest_version], in order *)
Definition new_versions (h : VHandle) : list Z :=
  seg (versions h) (latest_version h + 1) (size h - latest_version h - 1).
(** the written part of the row *)
Definition written (h : VHandle) : list (Z * Z) := entry h <$> seqZ 0 (latest_version h + 1).

(** ** The merge *)

(** State of the merge of [old] (ascending) and the versions above [i]: the
    first [m] old versions are in place, the cells from [m + i] on hold the
    merged rest *)
Record merging (vs : list Z) (old bs : list Z) (total m i : Z) (rest : list Z) : Prop := {
  mg_m : 0 ≤ m ≤ len old;
  mg_i : 0 ≤ i ≤ len bs;
  mg_total : total = len old + len bs;
  mg_old : seg vs 0 m = take (Z.to_nat m) old;
  mg_rest : seg vs (m + i) (total - (m + i)) = rest;
  mg_perm : rest ≡ₚ drop (Z.to_nat m) old ++ drop (Z.to_nat i) bs;
  mg_sorted : StronglySorted Z.le rest;
  mg_below : ∀ x y, x ∈ take (Z.to_nat m) old ++ take (Z.to_nat i) bs → y ∈ rest → x ≤ y;
}.

Lemma seg_lookup l a n k x : seg l a n !! k = Some x ↔ x = l.[a + Z.of_nat k] ∧ Z.of_nat k < n.
Proof.
  unfold seg. rewrite list_lookup_fmap. destruct (decide (Z.of_nat k < n)).
  - rewrite lookup_seqZ_lt by done. cbn. naive_solver.
  - rewrite lookup_seqZ_ge by lia. cbn. naive_solver.
Qed.

Lemma elem_of_seg l a n x : x ∈ seg l a n ↔ ∃ k, a ≤ k < a + n ∧ x = l.[k].
Proof.
  unfold seg. rewrite list_elem_of_fmap. setoid_rewrite elem_of_seqZ. naive_solver.
Qed.

(** splitting the part that is still in place at the insertion point *)
Lemma take_split_seg vs (old : list Z) m j :
  0 ≤ j ≤ m → m ≤ len old → seg vs 0 m = take (Z.to_nat m) old →
  seg vs 0 j = take (Z.to_nat j) old ∧
  drop (Z.to_nat j) old = seg vs j (m - j) ++ drop (Z.to_nat m) old.
Proof.
  intros Hj Hm Hs. replace m with (j + (m - j)) in Hs at 1 by lia. rewrite seg_app, Z.add_0_l in Hs by lia.
  assert (Hlj : length (seg vs 0 j) = Z.to_nat j) by (unfold seg; rewrite length_fmap, length_seqZ; done).
  split.
  - apply (f_equal (take (Z.to_nat j))) in Hs. rewrite take_app_length' in Hs by done.
    rewrite Hs, take_take. f_equal. lia.
  - rewrite <- (take_drop (Z.to_nat m) old) at 1. rewrite <- Hs, drop_app_le, drop_app_length'; [done|done|].
    rewrite length_app. lia.
Qed.

Lemma drop_pred (bs : list Z) i :
  0 < i ≤ len bs → drop (Z.to_nat (i - 1)) bs = bs.[i - 1] :: drop (Z.to_nat i) bs ∧
  take (Z.to_nat i) bs = take (Z.to_nat (i - 1)) bs ++ [bs.[i - 1]].
Proof.
  intros Hi. pose proof (lookup_at bs (i - 1) ltac:(lia)) as Hl.
  replace (Z.to_nat i) with (S (Z.to_nat (i - 1))) by lia. split.
  - by rewrite (drop_S _ _ _ Hl).
  - by rewrite (take_S_r _ _ _ Hl).
Qed.

Lemma sorted_seg_le vs n a b : sorted_in vs 0 n → 0 ≤ a → a ≤ b → b < n → vs.[a] ≤ vs.[b].
Proof. intros H ???. by apply H. Qed.

(** one round: the greatest buffered version left goes to its place *)
Lemma merging_step vs vs' old bs total m i rest j :
  merging vs old bs total m i rest → 0 < i → total ≤ len vs →
  StronglySorted Z.le bs → sorted_in vs 0 m →
  insertion_point vs m bs.[i - 1] j → absorbed vs vs' m (i - 1) j bs.[i - 1] →
  merging vs' old bs total j (i - 1) (bs.[i - 1] :: seg vs j (m - j) ++ rest).
Proof.
  intros [Hm Hi Ht Ho Hr Hp Hs Hb] Hi0 Hlen Hbs Hso (Hj & Hlo & Hhi) (Hl & A1 & A2 & A3 & A4).
  destruct (take_split_seg vs old m j Hj ltac:(lia) Ho) as [Htj Hdj].
  destruct (drop_pred bs i ltac:(lia)) as [Hdi Hti]. set (b := bs.[i - 1]) in *.
  assert (Hmid : ∀ x, x ∈ seg vs j (m - j) → b ≤ x ∧ x ∈ take (Z.to_nat m) old).
  { intros x Hx. rewrite <- Ho. apply elem_of_seg in Hx as (k & Hk & ->). split; [apply Hhi; lia|].
    apply elem_of_seg. exists k. split; [lia|done]. }
  assert (Hbr : ∀ y, y ∈ rest → b ≤ y).
  { intros y Hy. apply Hb; [|done]. rewrite Hti. set_solver. }
  assert (Hxb : ∀ x, x ∈ take (Z.to_nat j) old ++ take (Z.to_nat (i - 1)) bs → x ≤ b).
  { intros x [Hx|Hx]%elem_of_app.
    - rewrite <- Htj in Hx. apply elem_of_seg in Hx as (k & Hk & ->). apply Hlo. lia.
    - rewrite <- (take_drop (Z.to_nat (i - 1)) bs), Hdi in Hbs. apply StronglySorted_app in Hbs as (H12 & _ & _).
      apply H12; [done|left]. }
  split; try lia.
  - rewrite <- Htj. apply seg_ext. intros k Hk. apply A1. lia.
  - rewrite seg_cons, A2 by lia. f_equal.
    replace (total - (j + (i - 1)) - 1) with ((m - j) + (total - (m + i))) by lia. rewrite seg_app by lia. f_equal.
    + unfold seg. apply fmap_seqZ_ext. intros k Hk.
      replace (j + (i - 1) + 1 + k) with ((j + k) + 1 + (i - 1)) by lia. apply A3. lia.
    + rewrite <- Hr. unfold seg. apply fmap_seqZ_ext. intros k Hk.
      replace (j + (i - 1) + 1 + (m - j) + k) with (m + i + k) by lia. apply A4. lia.
  - rewrite Hdj, Hdi, Hp. rewrite <- !app_assoc. rewrite !Permutation_middle. done.
  - constructor.
    + apply StronglySorted_app_2; [|by apply sorted_in_seg; intros a c ???; apply Hso; lia|done].
      intros x y Hx Hy. apply Hb; [|done]. apply Hmid in Hx as [_ ?]. set_solver.
    + apply Forall_forall. intros x Hx. apply elem_of_app in Hx as [Hx|Hx]; [by apply Hmid|by apply Hbr].
  - intros x y Hx Hy. specialize (Hxb x Hx). apply elem_of_cons in Hy as [->|[Hy|Hy]%elem_of_app]; [done|..].
    + apply Hmid in Hy. lia.
    + specialize (Hbr y Hy). lia.
Qed.

(** booking into the gap keeps the merge *)
Lemma merging_book vs old bs total m i rest x :
  merging vs old bs total m i rest → 0 < i → total ≤ len vs →
  merging (<[Z.to_nat m := x]> vs) old bs total m i rest.
Proof.
  intros [Hm Hi Ht Ho Hr Hp Hs Hb] Hi0 Hl. split; try done.
  - rewrite <- Ho. apply seg_ext. intros k Hk. rewrite at_insert by lia. zcase; [lia|done].
  - rewrite <- Hr. apply seg_ext. intros k Hk. rewrite at_insert by lia. zcase; [lia|done].
Qed.

Lemma merging_sorted vs old bs total m i rest :
  merging vs old bs total m i rest → StronglySorted Z.le old → sorted_in vs 0 m.
Proof.
  intros [Hm _ _ Ho _ _ _ _] Hs. apply (seg_sorted_in vs 0 m). rewrite Ho.
  rewrite <- (take_drop (Z.to_nat m) old) in Hs. by apply StronglySorted_app in Hs as (_ & ? & _).
Qed.

(** the whole flush loop *)
Lemma flush_loop_ok old bs arr total n : ∀ h m rest,
  merging (versions h) old bs total m (Z.of_nat n) rest →
  len (versions h) = 2 * capacity h → total ≤ capacity h → capacity h ≤ 2 ^ 20 →
  StronglySorted Z.le old → StronglySorted Z.le bs →
  (∀ k, 0 ≤ k < len bs → load arr k = Ok bs.[k]) →
  ∃ vs m' rest', flush_loop n h arr m = Ok (set_versions h vs) ∧ len vs = len (versions h) ∧
    merging vs old bs total m' 0 rest' ∧
    (∀ k, total ≤ k < len vs → vs.[k] = (versions h).[k]).
Proof.
  induction n as [|n IH]; intros h m rest Hmg Hl Hcap Hc20 Hold Hbs Harr.
  { exists (versions h), m, rest. split; [by destruct h|]. done. }
  pose proof Hmg as [Hm Hi Ht _ _ _ _ _].
  cbn [flush_loop]. rewrite Harr by lia. cbn [mbind result_bind].
  unfold BookNewVersionNoLock at 1. rewrite store_in by lia. cbn [mbind result_bind mret result_ret].
  set (vb := <[Z.to_nat m := bs.[Z.of_nat n]]> (versions h)).
  assert (Hvb : len vb = len (versions h)) by (unfold vb; by rewrite len_insert).
  assert (Hmb : merging vb old bs total m (Z.of_nat (S n)) rest) by (apply merging_book; [done|lia|lia]).
  destruct (AbsorbNewVersionNoLock_ok (set_versions h vb) m (Z.of_nat n)) as (v1 & j & -> & Hip & Hab);
    cbn [versions capacity set_versions]; [lia..|by eapply merging_sorted|].
  cbn [mbind result_bind versions set_versions] in *.
  assert (Hb : vb.[m] = bs.[Z.of_nat n]) by (unfold vb; rewrite at_insert, Z.eqb_refl by lia; done).
  rewrite Hb in Hip, Hab.
  pose proof (merging_step vb v1 old bs total m (Z.of_nat (S n)) rest j) as Hst.
  replace (Z.of_nat (S n) - 1) with (Z.of_nat n) in Hst by lia.
  specialize (Hst Hmb ltac:(lia) ltac:(lia) Hbs ltac:(by eapply merging_sorted) Hip Hab).
  destruct Hab as (Hl1 & _ & _ & _ & A4). destruct Hip as (Hj & _).
  destruct (IH (set_versions h v1) j _ Hst) as (vs & m' & rest' & Hrun & Hlv & Hmg' & Hobj);
    [cbn; lia|done..|].
  exists vs, m', rest'. cbn [versions set_versions] in *. split; [exact Hrun|]. split; [lia|]. split; [done|].
  intros k Hk. rewrite Hobj by lia. rewrite A4 by lia. unfold vb. rewrite at_insert by lia. zcase; [lia|done].
Qed.

(** at the end the array is the ascending merge *)
Lemma merging_done vs old bs total m rest :
  merging vs old bs total m 0 rest → StronglySorted Z.le old →
  seg vs 0 total ≡ₚ old ++ bs ∧ StronglySorted Z.le (seg vs 0 total).
Proof.
  intros [Hm _ Ht Ho Hr Hp Hs Hb] Hold.
  assert (Hseg : seg vs 0 total = take (Z.to_nat m) old ++ rest).
  { replace total with (m + (total - m)) at 1 by lia. rewrite seg_app, Ho by lia. f_equal. rewrite <- Hr.
    f_equal; lia. }
  rewrite Hseg. split.
  - rewrite Hp. change (Z.to_nat 0) with 0%nat. rewrite drop_0, app_assoc, take_drop. done.
  - rewrite <- (take_drop (Z.to_nat m) old) in Hold. apply StronglySorted_app in Hold as (_ & H1 & _).
    apply StronglySorted_app_2; [|done..]. intros x y Hx Hy. apply Hb; [|done]. apply elem_of_app. by left.
Qed.

Definition of_epoch (e : Z) (l : list Z) : Prop := ∀ x, x ∈ l → Z.shiftr x 32 = e.

(** sorting the new versions behind the older ones *)
Lemma merge_unique l p ns bs e :
  l ≡ₚ (p ++ ns) ++ bs → StronglySorted Z.le l → StronglySorted Z.le p →
  (∀ x, x ∈ p → Z.shiftr x 32 < e) → of_epoch e ns → of_epoch e bs →
  l = p ++ merge_sort Z.le (ns ++ bs).
Proof.
  intros Hp Hl Hps Hold Hn Hb. apply (StronglySorted_unique Z.le); [done|..].
  - apply StronglySorted_app_2; [|done|apply StronglySorted_merge_sort; apply _].
    intros x y Hx Hy. rewrite merge_sort_Permutation in Hy. apply Z.lt_le_incl, (shiftr_lt_mono _ _ 32); [lia|].
    specialize (Hold x Hx). apply elem_of_app in Hy as [Hy|Hy]; [rewrite (Hn y Hy)|rewrite (Hb y Hy)]; lia.
  - rewrite Hp, merge_sort_Permutation. by rewrite app_assoc.
Qed.

(** a row after [bs] have been merged into its current versions *)
Record flushed (e : Z) (h h' : VHandle) (bs : list Z) : Prop := {
  fl_init : init_ok h' e;
  fl_new : new_versions h' ≡ₚ new_versions h ++ bs;
  fl_written : ∃ i, 0 ≤ i ≤ Z.max 0 (latest_version h) ∧ latest_version h' = latest_version h - i ∧
    written h' = drop (Z.to_nat i) (written h);
  fl_start : cur_start h' = latest_version h' + 1;
  fl_addr : addr h' = addr h;
}.

Section FlushArray.
Context (e : Z) (h h1 : VHandle) (i : Z) (vs bs : list Z).
Context (Hin : init_ok h e) (Hex : extended h h1 i (len bs)) (Hi : 0 ≤ i ≤ Z.max 0 (latest_version h)).
Context (Hcs : cur_start h1 = latest_version h1 + 1) (Hbs : of_epoch e bs) (Hb0 : 0 < len bs).
Context (Hlv : len vs = len (versions h1)).
Context (Hperm : seg vs 0 (size h1) ≡ₚ seg (versions h1) 0 (size h - i) ++ bs).
Context (Hsort : StronglySorted Z.le (seg vs 0 (size h1))).
Context (Hobj : ∀ k, size h1 ≤ k < len vs → vs.[k] = (versions h1).[k]).

(** the written versions stay where they are, the new ones are merged *)
Lemma flush_split :
  seg vs 0 (latest_version h1 + 1) = seg (versions h1) 0 (latest_version h1 + 1) ∧
  seg vs (latest_version h1 + 1) (size h1 - (latest_version h1 + 1)) = merge_sort Z.le (new_versions h ++ bs).
Proof.
  destruct Hin as [[[? ? ? ? ?] Hso] Hold Hnew _ Haddr _]. destruct Hex as [E1 E2 _ _ E5 E6 Ed [E7 E8] E9 Hc Hp].
  set (L := latest_version h1) in *.
  assert (Hseg1 : seg (versions h1) 0 (size h - i) = seg (versions h1) 0 (L + 1) ++ new_versions h).
  { replace (size h - i) with ((L + 1) + (size h - i - (L + 1))) by lia. rewrite seg_app by lia. f_equal.
    unfold new_versions, seg. replace (size h - i - (L + 1)) with (size h - latest_version h - 1) by lia.
    apply fmap_seqZ_ext. intros k Hk. destruct (Hc (0 + (L + 1) + k) ltac:(lia)) as [-> _]. f_equal. lia. }
  assert (Hmerge : seg vs 0 (size h1) = seg (versions h1) 0 (L + 1) ++ merge_sort Z.le (new_versions h ++ bs)).
  { apply (merge_unique _ _ _ _ e); [by rewrite <- Hseg1|done|..|done].
    - apply sorted_in_seg. intros a b ???. destruct (Hc a ltac:(lia)) as [-> _]. destruct (Hc b ltac:(lia)) as [-> _].
      apply Hso; lia.
    - intros x Hx. apply elem_of_seg in Hx as (k & Hk & ->). destruct (Hc k ltac:(lia)) as [-> _]. apply Hold. lia.
    - intros x Hx. unfold new_versions in Hx. apply elem_of_seg in Hx as (k & Hk & ->). apply Hnew. lia. }
  replace (size h1) with ((L + 1) + (size h1 - (L + 1))) in Hmerge at 1 by lia.
  rewrite seg_app in Hmerge by lia. apply app_inj_1 in Hmerge; [done|]. unfold seg. by rewrite !length_fmap.
Qed.

Lemma flush_low k : 0 ≤ k ≤ latest_version h1 → vs.[k] = (versions h1).[k].
Proof.
  intros Hk. destruct flush_split as [Hs1 _].
  rewrite <- (Z.add_0_l k), <- !(at_seg _ 0 (latest_version h1 + 1)), Hs1 by lia. done.
Qed.

Lemma flush_high k : latest_version h1 < k < size h1 → Z.shiftr vs.[k] 32 = e.
Proof.
  intros Hk. destruct flush_split as [_ Hs2]. destruct Hin as [_ _ Hnew _ _ _].
  assert (Hx : vs.[k] ∈ merge_sort Z.le (new_versions h ++ bs)).
  { rewrite <- Hs2. apply elem_of_seg. exists k. split; [lia|done]. }
  rewrite merge_sort_Permutation in Hx. apply elem_of_app in Hx as [Hx|Hx]; [|by apply Hbs].
  unfold new_versions in Hx. apply elem_of_seg in Hx as (j & Hj & ->). apply Hnew. lia.
Qed.

Lemma flush_object k : 0 ≤ k < size h1 → vs.[capacity h1 + k] = (versions h1).[capacity h1 + k].
Proof. intros Hk. destruct Hex as [_ _ _ _ E5 E6 _ [E7 E8] _ _ _]. apply Hobj. lia. Qed.

Lemma flush_init_ok : init_ok (set_versions h1 vs) e.
Proof.
  pose proof (extended_objects_ok h h1 i _ (in_objects _ _ Hin) (in_addr _ _ Hin) Hex) as Hok1.
  destruct Hin as [[[? ? ? ? ?] Hso] Hold Hnew _ Haddr _]. destruct Hex as [E1 E2 _ _ E5 E6 Ed [E7 E8] E9 Hc Hp].
  split; [split; [split; cbn; lia|]|..]; cbn [versions capacity size latest_version addr set_versions].
  - by apply (seg_sorted_in vs 0 (size h1)).
  - intros k Hk. rewrite flush_low by lia. destruct (Hc k ltac:(lia)) as [-> _]. apply Hold. lia.
  - intros k Hk. split; [by apply flush_high|]. rewrite flush_object by lia.
    destruct (Z.lt_ge_cases k (size h - i)); [|apply Hp; lia].
    destruct (Hc k ltac:(lia)) as [_ ->]. rewrite <- Z.add_assoc. apply Hnew. lia.
  - intros k. cbn [versions capacity size addr set_versions]. intros Hk. rewrite flush_object by done. by apply Hok1.
  - lia.
  - lia.
Qed.

Lemma flush_flushed : flushed e h (set_versions h1 vs) bs.
Proof.
  split; [apply flush_init_ok|..|done|by destruct Hex].
  - unfold new_versions at 1. cbn [versions size latest_version set_versions].
    replace (size h1 - latest_version h1 - 1) with (size h1 - (latest_version h1 + 1)) by lia.
    destruct flush_split as [_ ->]. apply merge_sort_Permutation.
  - exists i. split; [done|]. split; [by destruct Hex|]. unfold written. cbn [latest_version set_versions].
    destruct Hin as [[[? ? ? ? ?] _] _ _ _ _ _]. pose proof Hex as [E1 E2 _ _ E5 E6 Ed [E7 E8] E9 Hc Hp].
    rewrite drop_fmap_seqZ by lia. replace (latest_version h + 1 - i) with (latest_version h1 + 1) by lia.
    apply fmap_seqZ_ext. intros k Hk. unfold entry. cbn [versions capacity set_versions].
    rewrite flush_low, flush_object by lia. destruct (Hc (0 + k) ltac:(lia)) as [-> ->]. f_equal; f_equal; lia.
Qed.
End FlushArray.

(** a buffer that holds versions of epoch [e] *)
Record buf_ok (e : Z) (b : VersionBuffer) : Prop := {
  bo_cnt : 0 ≤ buf_cnt b ≤ kMaxBatch;
  bo_len : len (buf_versions b) = kMaxBatch;
  bo_epoch : of_epoch e (buffered b);
}.

Lemma len_buffered e b : buf_ok e b → len (buffered b) = buf_cnt b.
Proof. intros [H1 H2 _]. unfold buffered. rewrite length_take. lia. Qed.

Lemma init_ok_ondsplt h e x : init_ok h e → init_ok (set_nr_ondsplt h x) e.
Proof. intros [[[]]]. by split; [split; [split|]|..]. Qed.

(** [IncreaseSize] followed by the flush *)
Lemma flush_buffer_ok env w h pa pos e :
  init_ok h e → buf_ok e (version_buffers pa pos) → 0 < buf_cnt (version_buffers pa pos) →
  size h + kMaxBatch < 2 ^ 20 → reg_inv (w_gc w) h → may_register (w_gc w) h (env_core env) e →
  ∃ w' h' vs, flush_buffer env w h pa pos e = Ok (w', h', set_buf pa pos (mkBuf 0 0 vs) false) ∧
    len vs = kMaxBatch ∧ flushed e h h' (buffered (version_buffers pa pos)) ∧ reg_inv (w_gc w') h' ∧
    (cur_start h = latest_version h + 1 → w_gc w' = w_gc w).
Proof.
  intros Hin Hbuf Hcnt Hmax Hreg Hcan. set (b := version_buffers pa pos) in *.
  pose proof (len_buffered e b Hbuf) as Hlb. destruct Hbuf as [Hb1 Hb2 Hb3]. unfold flush_buffer. fold b.
  destruct (IncreaseSize_ok env w h (buf_cnt b) e Hin Hcnt ltac:(lia) Hreg Hcan)
    as (w1 & h1 & i & -> & Hex & Hcs & Hi & Hri & Hsame). cbn [mbind result_bind].
  pose proof Hin as [[[? ? ? ? ?] Hso] _ _ _ _ _]. pose proof Hex as [E1 E2 _ _ E5 E6 Ed [E7 E8] E9 Hc Hp].
  unfold FlushIntoNoLock. fold b. set (sorted := merge_sort Z.le (buffered b)).
  set (arr := sorted ++ drop (Z.to_nat (buf_cnt b)) (buf_versions b)).
  assert (Hls : len sorted = buf_cnt b) by (unfold sorted; rewrite merge_sort_Permutation; lia).
  rewrite u32_id by lia. replace (size h1 - buf_cnt b) with (size h - i) by lia.
  set (old := seg (versions h1) 0 (size h - i)).
  assert (Hlo : len old = size h - i) by (apply len_seg; lia).
  assert (Hold : StronglySorted Z.le old).
  { apply sorted_in_seg. intros a c ???. destruct (Hc a ltac:(lia)) as [-> _].
    destruct (Hc c ltac:(lia)) as [-> _]. apply Hso; lia. }
  destruct (flush_loop_ok old sorted arr (size h1) (Z.to_nat (buf_cnt b)) h1 (size h - i) [])
    as (vs & m' & rest' & -> & Hlvs & Hmg & Hobj).
  - split; try lia; try done.
    + rewrite take_ge by lia. done.
    + rewrite seg_nil by lia. done.
    + rewrite !drop_ge by lia. done.
    + constructor.
    + intros x y _ Hy. by apply elem_of_nil in Hy.
  - done.
  - done.
  - lia.
  - done.
  - apply StronglySorted_merge_sort; apply _.
  - intros k Hk. rewrite load_in by (unfold arr; rewrite length_app; lia). f_equal. unfold at_, arr.
    rewrite app_nth1 by lia. done.
  - cbn [mbind result_bind]. destruct (merging_done _ _ _ _ _ _ Hmg Hold) as [Hperm Hsort].
    do 3 eexists. split; [done|]. split; [unfold arr; rewrite length_app, length_drop; lia|].
    assert (Hf : flushed e h (set_versions h1 vs) (buffered b)).
    { apply (flush_flushed e h h1 i); try done; try lia; [by rewrite Hlb|].
      rewrite Hperm. unfold sorted. by rewrite merge_sort_Permutation. }
    split; [|split; [exact Hri|exact Hsame]]. destruct Hf as [F1 F2 F3 F4 F5]. split; try done. by apply init_ok_ondsplt.
Qed.

(** ** Appending through a buffer *)

Lemma flushed_trans e h h1 h2 bs1 bs2 :
  flushed e h h1 bs1 → flushed e h1 h2 bs2 → flushed e h h2 (bs1 ++ bs2).
Proof.
  intros [_ Hn1 (i & Hi & Hl1 & Hw1) _ Ha1] [Hin Hn2 (j & Hj & Hl2 & Hw2) Hs Ha2]. split; try done.
  - by rewrite Hn2, Hn1, app_assoc.
  - exists (i + j). split; [lia|]. split; [lia|]. rewrite Hw2, Hw1, drop_drop. f_equal. lia.
  - congruence.
Qed.

(** the abstract row split into its written and its new part *)
Lemma entries_split h : shape h → entries h = written h ++ (entry h <$> seqZ (latest_version h + 1) (size h - latest_version h - 1)).
Proof.
  intros [? ? ? ? ?]. unfold entries, written.
  replace (size h) with ((latest_version h + 1) + (size h - latest_version h - 1)) at 1 by lia.
  by rewrite seqZ_app, fmap_app, Z.add_0_l by lia.
Qed.

Lemma new_versions_keys h : new_versions h = (entry h <$> seqZ (latest_version h + 1) (size h - latest_version h - 1)).*1.
Proof. unfold new_versions, seg. rewrite <- list_fmap_compose. done. Qed.

Lemma length_written h : shape h → len (written h) = latest_version h + 1.
Proof. intros [? ? ? ? ?]. unfold written. rewrite length_fmap, length_seqZ. lia. Qed.

Lemma filter_partition (sid : Z) (l : list (Z * Z)) :
  filter (fun e => e.1 ≤ sid) l ++ filter (fun e => sid < e.1) l ≡ₚ l.
Proof.
  induction l as [|x l IH]; [done|]. destruct (Z.le_gt_cases x.1 sid).
  - rewrite filter_cons_True, filter_cons_False by lia. cbn. by rewrite IH.
  - rewrite filter_cons_False, filter_cons_True by lia. rewrite <- Permutation_middle. by rewrite IH.
Qed.

(** a single append is the merge of one version *)
Lemma append_flushed env w h sid e weight :
  init_ok h e → Z.shiftr sid 32 = e → size h + 1 < 2 ^ 20 →
  reg_inv (w_gc w) h → may_register (w_gc w) h (env_core env) e →
  ∃ w' h', AppendNewVersionNoLock env w h sid e weight = Ok (w', h') ∧ flushed e h h' [sid] ∧ reg_inv (w_gc w') h'
    ∧ size h' ≤ size h + 1.
Proof.
  intros Hin Hsid Hmax Hreg Hcan.
  destruct (AppendNewVersionNoLock_ok env w h sid e weight Hin Hsid Hmax Hreg Hcan)
    as (w' & h' & i & HA & He & Hi & Hl & Hcs & Ha & Hin' & Hri).
  pose proof (wf_shape _ (in_wf _ _ Hin)) as Hsh. pose proof (wf_shape _ (in_wf _ _ Hin')) as Hsh'.
  pose proof (length_written h Hsh) as Hlw. pose proof (length_written h' Hsh') as Hlw'.
  destruct Hin as [_ Hold Hnew _ _ _]. pose proof Hsh as [? ? ? ? ?].
  exists w', h'. split; [done|]. rewrite (entries_split h Hsh), (entries_split h' Hsh') in He.
  set (N := entry h <$> _) in He. set (N' := entry h' <$> _) in He.
  unfold insert_pending in He. rewrite !filter_app, (filter_all _ (written h)), (filter_none _ (written h)) in He; cycle 1.
  { intros x Hx. unfold written in Hx. apply elem_of_fmap_seqZ in Hx as (k & -> & Hk). specialize (Hold k ltac:(lia)).
    cbn. enough ((versions h).[k] < sid) by lia. eapply (shiftr_lt_mono _ _ 32); lia. }
  { intros x Hx. unfold written in Hx. apply elem_of_fmap_seqZ in Hx as (k & -> & Hk). specialize (Hold k ltac:(lia)).
    cbn. apply Z.lt_le_incl. eapply (shiftr_lt_mono _ _ 32); lia. }
  cbn [app] in He. rewrite <- app_assoc, drop_app_le in He by lia.
  apply app_inj_1 in He; [|rewrite length_drop; lia]. destruct He as [He1 He2].
  assert (Hperm : N'.*1 ≡ₚ N.*1 ++ [sid]).
  { rewrite He2. rewrite <- Permutation_middle, filter_partition. cbn. by rewrite Permutation_cons_append. }
  split; [|split; [done|]].
  - split; try done; [by rewrite !new_versions_keys|]. exists i. done.
  - apply Permutation_length in Hperm. rewrite length_app, !length_fmap in Hperm. unfold N, N' in Hperm.
    rewrite !length_fmap, !length_seqZ in Hperm. cbn in Hperm. destruct Hsh'. lia.
Qed.

(** nothing is lost and nothing is duplicated: the versions of the epoch in
    the row and in the buffer *)
Definition in_flight (h : VHandle) (pa : VersionPrealloc) (pos : Z) : list Z :=
  new_versions h ++ buffered (version_buffers pa pos).

(** what an append through the buffer leaves behind *)
Record appended (e : Z) (h h' : VHandle) (pa pa' : VersionPrealloc) (pos sid : Z) : Prop := {
  ap_init : init_ok h' e;
  ap_buf : buf_ok e (version_buffers pa' pos);
  ap_bit : pa_bitmap pa' pos = negb (buf_cnt (version_buffers pa' pos) =? 0);
  ap_versions : in_flight h' pa' pos ≡ₚ sid :: in_flight h pa pos;
  ap_written : ∃ i, written h' = drop i (written h);
  ap_others : ∀ p, p ≠ pos → version_buffers pa' p = version_buffers pa p ∧ pa_bitmap pa' p = pa_bitmap pa p;
}.

Lemma flushed_appended e h h' pa pos sid vs :
  flushed e h h' (sid :: buffered (version_buffers pa pos)) → len vs = kMaxBatch →
  appended e h h' pa (set_buf pa pos (mkBuf 0 0 vs) false) pos sid.
Proof.
  intros [Hin Hn (i & _ & _ & Hw) _ _] Hl. split; cbn [version_buffers pa_bitmap set_buf].
  - done.
  - rewrite fn_lookup_insert. split; [unfold kMaxBatch; cbn; lia|done|]. intros x []%elem_of_nil.
  - by rewrite !fn_lookup_insert.
  - unfold in_flight. cbn [version_buffers set_buf]. rewrite fn_lookup_insert, Hn, app_nil_r.
    by rewrite <- Permutation_middle.
  - by exists (Z.to_nat i).
  - intros p Hp. by rewrite !fn_lookup_insert_ne.
Qed.

(** the buffer with one more version *)
Lemma buffered_store e b sid vs x :
  buf_ok e b → buf_cnt b < kMaxBatch → Z.shiftr sid 32 = e → store (buf_versions b) (buf_cnt b) sid = Ok vs →
  buf_ok e (mkBuf (buf_cnt b + 1) x vs) ∧ buffered (mkBuf (buf_cnt b + 1) x vs) = buffered b ++ [sid].
Proof.
  intros [H1 H2 H3] Hlt Hsid Hst. apply store_ok in Hst as [Hr ->].
  assert (Hb : buffered (mkBuf (buf_cnt b + 1) x (<[Z.to_nat (buf_cnt b) := sid]> (buf_versions b))) = buffered b ++ [sid]).
  { unfold buffered. cbn [buf_cnt buf_versions]. replace (Z.to_nat (buf_cnt b + 1)) with (S (Z.to_nat (buf_cnt b))) by lia.
    erewrite take_S_r; [|apply list_lookup_insert_eq; lia]. f_equal. by rewrite take_insert_ge by lia. }
  split; [|done]. split; cbn [buf_cnt buf_versions]; [lia|by rewrite len_insert|].
  rewrite Hb. intros y [Hy|Hy%list_elem_of_singleton]%elem_of_app; [by apply H3|by subst].
Qed.

Lemma VersionBuffer_Append_ok env w h pa pos sid e split_ trylock :
  init_ok h e → Z.shiftr sid 32 = e → buf_ok e (version_buffers pa pos) →
  pa_bitmap pa pos = negb (buf_cnt (version_buffers pa pos) =? 0) →
  size h + 1 + kMaxBatch < 2 ^ 20 → reg_inv (w_gc w) h → may_register (w_gc w) h (env_core env) e →
  ∃ w' h' pa', VersionBuffer_Append env w h pa pos sid e split_ trylock = Ok (w', h', pa') ∧
    appended e h h' pa pa' pos sid ∧ reg_inv (w_gc w') h'.
Proof.
  intros Hin Hsid Hbuf Hbit Hmax Hreg Hcan. unfold VersionBuffer_Append. set (b := version_buffers pa pos) in *.
  pose proof Hbuf as [Hb1 Hb2 Hb3]. destruct (Z.eqb_spec (buf_cnt b) kMaxBatch) as [Hfull|Hnf].
  - destruct (append_flushed env w h sid e (Z.b2z split_)) as (w1 & h1 & -> & Hf1 & Hr1 & Hs1);
      [done..|unfold kMaxBatch in *; lia|done|done|]. cbn [mbind result_bind].
    set (h2 := if split_ then _ else _).
    assert (Hf2 : flushed e h h2 [sid] ∧ reg_inv (w_gc w1) h2 ∧ size h2 ≤ size h + 1).
    { subst h2. destruct split_; [|done]. split; [|done]. destruct Hf1. split; try done. by apply init_ok_ondsplt. }
    destruct Hf2 as (Hf2 & Hr2 & Hs2).
    destruct (flush_buffer_ok env w1 h2 pa pos e) as (w3 & h3 & vs & -> & Hl & Hf3 & Hr3 & _);
      [by destruct Hf2|done|fold b; rewrite Hfull; done|lia|done|intros E; by destruct Hf2|].
    exists w3, h3. eexists. split; [done|]. split; [|done]. apply flushed_appended; [|done].
    by apply (flushed_trans e h h2 h3 [sid]).
  - destruct (store (buf_versions b) (buf_cnt b) sid) as [vs|] eqn:Hst;
      [|by rewrite store_in in Hst by lia]. cbn [mbind result_bind].
    set (x := if split_ then _ else _). cbn [buf_cnt]. replace (buf_cnt b + 1 - 1) with (buf_cnt b) by lia.
    destruct (buffered_store e b sid vs x Hbuf ltac:(lia) Hsid Hst) as [Hbuf' Hbd].
    set (b' := mkBuf (buf_cnt b + 1) x vs) in *. set (pa1 := set_buf pa pos b' _).
    assert (Hb' : version_buffers pa1 pos = b') by (cbn; by rewrite fn_lookup_insert).
    destruct ((kMaxBatch / 2 <? buf_cnt b + 1) && trylock).
    + destruct (flush_buffer_ok env w h pa1 pos e) as (w3 & h3 & vs3 & -> & Hl & Hf3 & Hr3 & _);
        [done|by rewrite Hb'|rewrite Hb'; cbn; lia|lia|done|done|].
      exists w3, h3. eexists. split; [done|]. split; [|done]. rewrite Hb', Hbd in Hf3.
      assert (Hf4 : flushed e h h3 (sid :: buffered (version_buffers pa pos))).
      { destruct Hf3 as [? Hn ? ? ?]. split; try done. rewrite Hn. by rewrite <- Permutation_cons_append. }
      destruct (flushed_appended e h h3 pa pos sid vs3 Hf4 Hl) as [A1 A2 A3 A4 A5 A6].
      split; cbn [version_buffers pa_bitmap set_buf pa1] in *; try done.
      * by rewrite fn_lookup_insert in *.
      * by rewrite !fn_lookup_insert in *.
      * unfold in_flight in *. cbn [version_buffers set_buf pa1] in *. by rewrite fn_lookup_insert in *.
      * intros p Hp. by rewrite !fn_lookup_insert_ne by done.
    + exists w, h, pa1. split; [done|]. split; [|done]. split.
      * done.
      * by rewrite Hb'.
      * cbn. rewrite !fn_lookup_insert. cbn [buf_cnt b'].
        replace (buf_cnt b + 1 =? 0) with false by (symmetry; zcase; lia). rewrite Hbit. fold b. by destruct (buf_cnt b =? 0).
      * unfold in_flight. rewrite Hb', Hbd. fold b. rewrite app_assoc. by rewrite <- Permutation_cons_append.
      * by exists 0%nat.
      * intros p Hp. cbn. by rewrite !fn_lookup_insert_ne.
Qed.
