(* ===== verification/ContentionManager.v ===== *)
(** The contention manager (contention_manager.cc): positions of contended
    rows in the per-core version buffers, the end-of-phase flush, and the
    top-level [SortedArrayVHandle::AppendNewVersion] that chooses between the
    buffer and the row lock. *)

From S2P Require Import Prelude LowerBound Region Sync GarbageSlab VHandle VHandleFacts VHandleAppend VersionBuffer.

(** ** State *)

(** [VersionBufferHead] *)
Record VersionBufferHead := mkHead {
  base_pos : Z;
  hd_pos : Z;                (* atomic_int pos *)
  owner_core : Z;
  backrefs : list Z;         (* the rows installed at positions [0, hd_pos) *)
}.
Definition kMaxPos : Z := 8192.

(** [VersionBufferHeadAllocation] of one NUMA zone; [al_free] is what is left
    in its pool of heads *)
Record HeadAllocation := mkAlloc { al_base_pos : Z; al_pos : Z; al_free : Z }.

Record ContentionManager := mkCM {
  buffer_heads : Z → list VersionBufferHead;   (* per core, newest first *)
  preallocs : Z → VersionPrealloc;             (* g_preallocs *)
  g_alloc : Z → HeadAllocation;                (* per NUMA zone *)
}.

Definition set_heads (cm : ContentionManager) (core : Z) (l : list VersionBufferHead) : ContentionManager :=
  mkCM (<[core := l]> (buffer_heads cm)) (preallocs cm) (g_alloc cm).
Definition set_prealloc (cm : ContentionManager) (core : Z) (pa : VersionPrealloc) : ContentionManager :=
  mkCM (buffer_heads cm) (<[core := pa]> (preallocs cm)) (g_alloc cm).

(** ** Operations *)

(** [VersionBufferHeadAllocation::AllocHead]: the pool returns [nullptr] when
    it is empty, and [p->base_pos] is written without a test *)
Definition AllocHead (cm : ContentionManager) (core : Z) : result (ContentionManager * VersionBufferHead) :=
  let zone := core / kNrCorePerNode in
  let al := g_alloc cm zone in
  if al_free al <=? 0 then Err OutOfRange else
  mret (mkCM (buffer_heads cm) (preallocs cm)
          (<[zone := mkAlloc (al_base_pos al) (al_pos al + kMaxPos) (al_free al - 1)]> (g_alloc cm)),
        mkHead (al_base_pos al + al_pos al) 0 core []).

(** [VersionBufferHead::IncrementPos]: clears the owner's buffer at the next
    position *)
Definition IncrementPos (cm : ContentionManager) (hd : VersionBufferHead) : ContentionManager * VersionBufferHead :=
  let p := hd_pos hd + 1 in
  let hd := mkHead (base_pos hd) p (owner_core hd) (backrefs hd) in
  if p =? kMaxPos then (cm, hd) else
  let abs_pos := base_pos hd + p in
  let pa := preallocs cm (owner_core hd) in
  (set_prealloc cm (owner_core hd)
     (set_buf pa abs_pos (mkBuf 0 0 (buf_versions (version_buffers pa abs_pos))) false), hd).

(** the installing branch of [GetOrInstallBufferPos] *)
Definition install (cm : ContentionManager) (core row : Z) (hd : VersionBufferHead) (rest : list VersionBufferHead)
    (h : VHandle) : ContentionManager * VHandle * Z :=
  let p := base_pos hd + hd_pos hd in
  let '(cm, hd) := IncrementPos cm (mkHead (base_pos hd) (hd_pos hd) (owner_core hd) (backrefs hd ++ [row])) in
  (set_heads cm core (hd :: rest), set_buf_pos h p, p).

(** [VersionBufferHead::GetOrInstallBufferPos] of the core's newest head; the
    compare-and-swap on [buf_pos] makes it atomic *)
Definition GetOrInstallBufferPos (cm : ContentionManager) (core row : Z) (h : VHandle)
    : result (ContentionManager * VHandle * Z) :=
  if negb (buf_pos h =? -1) then mret (cm, h, buf_pos h) else
  match buffer_heads cm core with
  | [] => Err OutOfRange
  | hd :: rest =>
      if kMaxPos <=? hd_pos hd then
        '(cm, nhd) ← AllocHead cm core;
        mret (install cm core row nhd (hd :: rest) h)
      else mret (install cm core row hd rest h)
  end.

(** [SortedArrayVHandle::AppendNewVersion] with [kVHandleBatchAppend] on;
    [trylock1] and [trylock2] are the results of the two [TryLock]s *)
Definition AppendNewVersion (env : Env) (g_lock_elision kVHandleBatchAppend kOnDemandSplitting : bool)
    (g_splitting_threshold : Z) (trylock1 trylock2 : bool)
    (w : World) (cm : ContentionManager) (row : Z) (h : VHandle) (sid epoch_nr weight : Z)
    : result (World * ContentionManager * VHandle) :=
  let slowpath cm h :=
    '(w, h) ← AppendNewVersionNoLock env w h sid epoch_nr weight; mret (w, cm, h) in
  let core := env_core env in
  if g_lock_elision then slowpath cm h else
  if sid =? 0 then slowpath cm h else
  if kVHandleBatchAppend then
    if (buf_pos h =? -1) && (u32 (size h - cur_start h) <? g_splitting_threshold) && trylock1
    then slowpath cm h
    else
      '(cm, h, pos) ← GetOrInstallBufferPos cm core row h;
      '(w, h, pa) ← VersionBuffer_Append env w h (preallocs cm core) pos sid epoch_nr (negb (weight =? 0)) trylock2;
      mret (w, set_prealloc cm core pa, h)
  else if kOnDemandSplitting then
    '(cm, h) ← (if (buf_pos h =? -1) && (g_splitting_threshold <=? u32 (size h - cur_start h))
                then '(cm, h, _) ← GetOrInstallBufferPos cm core row h; mret (cm, h) else mret (cm, h));
    slowpath cm h
  else slowpath cm h.

(** one pass of [VersionBufferHead::ScanAndFinalize] over (position, row)
    pairs: returns the number of rows whose lock was taken *)
Fixpoint scan_pass (env : Env) (l : list (Z * Z)) (try_lock : Z → bool) (disable_trylock reset : bool) (epoch_nr : Z)
    (w : World) (pa : VersionPrealloc) (rows : Z → VHandle) (retry : Z)
    : result (World * VersionPrealloc * (Z → VHandle) * Z) :=
  match l with
  | [] => mret (w, pa, rows, retry)
  | (p, row) :: l =>
      let rows := if reset then <[row := set_buf_pos (rows row) (-1)]> rows else rows in
      if negb (pa_bitmap pa p) then scan_pass env l try_lock disable_trylock reset epoch_nr w pa rows retry
      else if disable_trylock || try_lock row then
        '(w, h, pa) ← flush_buffer env w (rows row) pa p epoch_nr;
        scan_pass env l try_lock disable_trylock reset epoch_nr w pa (<[row := h]> rows) retry
      else scan_pass env l try_lock disable_trylock reset epoch_nr w pa rows (retry + 1)
  end.

(** [VersionBufferHead::ScanAndFinalize]: passes until no row was locked;
    [locks n] is what [TryLock] returns in pass [n] *)
Fixpoint ScanAndFinalize (env : Env) (fuel : nat) (l : list (Z * Z)) (locks : nat → Z → bool)
    (disable_trylock reset : bool) (epoch_nr : Z) (w : World) (pa : VersionPrealloc) (rows : Z → VHandle)
    : result (World * VersionPrealloc * (Z → VHandle)) :=
  match fuel with
  | O => Err Blocked
  | S fuel =>
      '(w, pa, rows, retry) ← scan_pass env l (locks fuel) disable_trylock reset epoch_nr w pa rows 0;
      let disable_trylock := disable_trylock || (retry =? 1) in
      if 0 <? retry then ScanAndFinalize env fuel l locks disable_trylock reset epoch_nr w pa rows
      else mret (w, pa, rows)
  end.

(** the (position, row) pairs of a head *)
Definition head_pairs (hd : VersionBufferHead) : list (Z * Z) :=
  zip (seqZ (base_pos hd) (hd_pos hd)) (backrefs hd).

(** [ContentionManager::FinalizeFlush]: every core flushes its own buffers of
    the rows of all heads *)
Fixpoint finalize_heads (env : Env) (fuel : nat) (heads : list VersionBufferHead) (locks : nat → Z → bool) (epoch_nr : Z)
    (w : World) (pa : VersionPrealloc) (rows : Z → VHandle) : result (World * VersionPrealloc * (Z → VHandle)) :=
  match heads with
  | [] => mret (w, pa, rows)
  | hd :: heads =>
      '(w, pa, rows) ← ScanAndFinalize env fuel (head_pairs hd) locks false false epoch_nr w pa rows;
      finalize_heads env fuel heads locks epoch_nr w pa rows
  end.

Definition FinalizeFlush (env : Env) (fuel : nat) (locks : nat → Z → bool) (nr_threads epoch_nr : Z)
    (w : World) (cm : ContentionManager) (rows : Z → VHandle) : result (World * ContentionManager * (Z → VHandle)) :=
  let heads := mjoin (buffer_heads cm <$> seqZ 0 nr_threads) in
  '(w, pa, rows) ← finalize_heads env fuel heads locks epoch_nr w (preallocs cm (env_core env)) rows;
  mret (w, set_prealloc cm (env_core env) pa, rows).

(** ** The end-of-phase flush *)

(** a row and its buffer of one core before the flush in epoch [e] *)
Record scan_ready (e : Z) (g : GC) (pa : VersionPrealloc) (rows : Z → VHandle) (p row : Z) : Prop := {
  sr_init : init_ok (rows row) e;
  sr_buf : buf_ok e (version_buffers pa p);
  sr_bit : pa_bitmap pa p = negb (buf_cnt (version_buffers pa p) =? 0);
  sr_busy : pa_bitmap pa p = true → size (rows row) + kMaxBatch < 2 ^ 20 ∧ reg_inv g (rows row) ∧
    cur_start (rows row) = latest_version (rows row) + 1;
}.

(** after it: the buffer is empty and the row has its versions *)
Record scanned (e : Z) (rows rows' : Z → VHandle) (pa pa' : VersionPrealloc) (p row : Z) : Prop := {
  sd_init : init_ok (rows' row) e;
  sd_buf : buf_ok e (version_buffers pa' p);
  sd_empty : buf_cnt (version_buffers pa' p) = 0;
  sd_bit : pa_bitmap pa' p = false;
  sd_versions : new_versions (rows' row) ≡ₚ in_flight (rows row) pa p;
}.

Definition untouched (rows rows' : Z → VHandle) (pa pa' : VersionPrealloc) (p row : Z) : Prop :=
  rows' row = rows row ∧ version_buffers pa' p = version_buffers pa p ∧ pa_bitmap pa' p = pa_bitmap pa p.

Lemma scan_ready_frame e g rows rows' pa pa' p row :
  scan_ready e g pa rows p row → untouched rows rows' pa pa' p row → scan_ready e g pa' rows' p row.
Proof. intros [] (E1 & E2 & E3). split; rewrite ?E1, ?E2, ?E3; done. Qed.

Lemma scanned_frame e rows rows1 rows' pa pa1 pa' p row :
  untouched rows rows1 pa pa1 p row → scanned e rows1 rows' pa1 pa' p row → scanned e rows rows' pa pa' p row.
Proof. intros (E1 & E2 & _) [? ? ? ? Hv]. split; try done. rewrite Hv. unfold in_flight. by rewrite E1, E2. Qed.

(** a clear bit means that there is nothing to do *)
Lemma scanned_idle e g rows pa p row :
  scan_ready e g pa rows p row → pa_bitmap pa p = false → scanned e rows rows pa pa p row.
Proof.
  intros [Hi Hb Hbit _] E. rewrite E in Hbit. symmetry in Hbit. apply negb_false_iff in Hbit. zprop.
  assert (Hn : buffered (version_buffers pa p) = []) by (unfold buffered; by rewrite Hbit).
  split; try done. unfold in_flight. by rewrite Hn, app_nil_r.
Qed.

Lemma flush_scanned env w rows pa p row e :
  scan_ready e (w_gc w) pa rows p row → pa_bitmap pa p = true →
  ∃ w' h' vs, flush_buffer env w (rows row) pa p e = Ok (w', h', set_buf pa p (mkBuf 0 0 vs) false) ∧
    w_gc w' = w_gc w ∧
    scanned e rows (<[row := h']> rows) pa (set_buf pa p (mkBuf 0 0 vs) false) p row.
Proof.
  intros [Hi Hb Hbit Hbusy] E. destruct (Hbusy E) as (Hs & Hr & Hst). rewrite E in Hbit. symmetry in Hbit.
  apply negb_true_iff in Hbit. zprop. pose proof (bo_cnt _ _ Hb).
  destruct (flush_buffer_ok env w (rows row) pa p e) as (w' & h' & vs & HF & Hl & Hf & Hr' & Hg);
    [done|done|lia|done|done|intros ?; done|].
  exists w', h', vs. split; [done|]. split; [by apply Hg|]. destruct Hf as [F1 F2 _ _ _].
  split; cbn [version_buffers pa_bitmap set_buf]; rewrite ?fn_lookup_insert; try done.
  split; [unfold kMaxBatch; cbn; lia|done|]. intros x []%elem_of_nil.
Qed.

Lemma scanned_ready e g rows rows' pa pa' p row :
  scanned e rows rows' pa pa' p row → scan_ready e g pa' rows' p row.
Proof. intros [Hi Hb He Hbit _]. split; rewrite ?Hbit, ?He; done. Qed.

(** one pass over distinct positions and rows: every pair is either done or,
    if its lock was taken, as before *)
Lemma scan_pass_ok env e lk dis l : ∀ w pa rows n,
  NoDup l.*1 → NoDup l.*2 → (∀ p row, (p, row) ∈ l → scan_ready e (w_gc w) pa rows p row) →
  ∃ w' pa' rows' n', scan_pass env l lk dis false e w pa rows n = Ok (w', pa', rows', n') ∧
    w_gc w' = w_gc w ∧ (n ≤ n' ∧ ((∀ row, dis || lk row = true) → n' = n)) ∧
    (∀ p row, (p, row) ∈ l → scanned e rows rows' pa pa' p row ∨
      (dis || lk row = false ∧ n < n' ∧ untouched rows rows' pa pa' p row)) ∧
    (∀ p row, p ∉ l.*1 → row ∉ l.*2 → untouched rows rows' pa pa' p row).
Proof.
  induction l as [|[p row] l IH]; intros w pa rows n Hn1 Hn2 Hrd; cbn [scan_pass fmap list_fmap fst snd] in *.
  { exists w, pa, rows, n. split; [done|]. split; [done|]. split; [split; [lia|done]|]. split; [|done].
    intros p row []%elem_of_nil. }
  apply NoDup_cons in Hn1 as [Hp Hn1]. apply NoDup_cons in Hn2 as [Hrow Hn2].
  assert (Hne : ∀ p' row', (p', row') ∈ l → p' ≠ p ∧ row' ≠ row).
  { intros p' row' Hin. split; intros ->; [apply Hp|apply Hrow]; apply list_elem_of_fmap; by eexists (_, _). }
  pose proof (Hrd p row ltac:(left)) as Hr0.
  (* what the rest of the pass does, from a state that differs at [p], [row] only *)
  assert (Hrest : ∀ w1 pa1 rows1 n1, w_gc w1 = w_gc w → n ≤ n1 → (dis || lk row = true → n1 = n) →
    (∀ p' row', p' ≠ p → row' ≠ row → untouched rows rows1 pa pa1 p' row') →
    (scanned e rows rows1 pa pa1 p row ∨ (dis || lk row = false ∧ n < n1 ∧ untouched rows rows1 pa pa1 p row)) →
    ∃ w' pa' rows' n', scan_pass env l lk dis false e w1 pa1 rows1 n1 = Ok (w', pa', rows', n') ∧
      w_gc w' = w_gc w ∧ (n ≤ n' ∧ ((∀ row, dis || lk row = true) → n' = n)) ∧
      (∀ p' row', (p', row') ∈ (p, row) :: l → scanned e rows rows' pa pa' p' row' ∨
        (dis || lk row' = false ∧ n < n' ∧ untouched rows rows' pa pa' p' row')) ∧
      (∀ p' row', p' ∉ p :: l.*1 → row' ∉ row :: l.*2 → untouched rows rows' pa pa' p' row')).
  { intros w1 pa1 rows1 n1 Hg1 Hn1' Heq1 Hun Hpr.
    destruct (IH w1 pa1 rows1 n1 Hn1 Hn2) as (w' & pa' & rows' & n' & -> & Hg & [Hle Heq] & Hin & Hout).
    { intros p' row' Hin. rewrite Hg1. eapply scan_ready_frame; [apply Hrd; by right|]. apply Hun; by apply (Hne p' row'). }
    exists w', pa', rows', n'. split; [done|]. split; [congruence|].
    split; [split; [lia|]; intros Hall; rewrite Heq, Heq1; auto|].
    assert (Hfin : untouched rows1 rows' pa1 pa' p row) by by apply Hout.
    split.
    - intros p' row' [E|Hin']%elem_of_cons.
      + injection E as -> ->. destruct Hfin as (F1 & F2 & F3). destruct Hpr as [[S1 S2 S3 S4 S5]|(Hlk & Hlt & U1 & U2 & U3)].
        * left. split; rewrite ?F1, ?F2, ?F3; done.
        * right. split; [done|]. split; [lia|]. split_and!; congruence.
      + destruct (Hne p' row' Hin') as [Hp' Hr']. specialize (Hun p' row' Hp' Hr').
        destruct (Hin p' row' Hin') as [Hs|(Hlk & Hlt & Hu)]; [left; by eapply scanned_frame|].
        right. split; [done|]. split; [lia|]. destruct Hun as (U1 & U2 & U3), Hu as (V1 & V2 & V3). split_and!; congruence.
    - intros p' row' Hp' Hr'. apply not_elem_of_cons in Hp' as [Hp1 Hp2], Hr' as [Hr1 Hr2].
      specialize (Hun p' row' Hp1 Hr1). destruct Hun as (U1 & U2 & U3), (Hout p' row' Hp2 Hr2) as (V1 & V2 & V3).
      split_and!; congruence. }
  destruct (pa_bitmap pa p) eqn:Ebit; cbn [negb].
  - destruct (dis || lk row) eqn:Elk.
    + destruct (flush_scanned env w rows pa p row e Hr0 Ebit) as (w1 & h1 & vs & -> & Hg1 & Hsc).
      cbn [mbind result_bind]. apply Hrest; [done|lia|done| |by left].
      intros p' row' ??. unfold untouched. cbn. by rewrite !fn_lookup_insert_ne.
    + apply Hrest; [done|lia|done|done|]. right. split; [done|]. split; [lia|done].
  - apply Hrest; [done|lia|done|done|]. left. by eapply scanned_idle.
Qed.

(** the passes end when all locks are free in one of them *)
Lemma ScanAndFinalize_ok env e l locks fuel : ∀ dis w pa rows,
  NoDup l.*1 → NoDup l.*2 → (∀ p row, (p, row) ∈ l → scan_ready e (w_gc w) pa rows p row) →
  (∀ row, locks 0%nat row = true) →
  ∃ w' pa' rows', ScanAndFinalize env (S fuel) l locks dis false e w pa rows = Ok (w', pa', rows') ∧
    w_gc w' = w_gc w ∧ (∀ p row, (p, row) ∈ l → scanned e rows rows' pa pa' p row) ∧
    (∀ p row, p ∉ l.*1 → row ∉ l.*2 → untouched rows rows' pa pa' p row).
Proof.
  induction fuel as [|fuel IH]; intros dis w pa rows Hn1 Hn2 Hrd Hlk.
  - cbn [ScanAndFinalize].
    destruct (scan_pass_ok env e (locks 0%nat) dis l w pa rows 0 Hn1 Hn2 Hrd)
       as (w1 & pa1 & rows1 & n & -> & Hg & [_ Hn] & Hin & Hout). cbn [mbind result_bind].
    rewrite Hn by (intros; by rewrite Hlk, orb_true_r). cbn [Z.ltb Z.compare].
    exists w1, pa1, rows1. split; [done|]. split; [done|]. split; [|done].
    intros p row Hp. destruct (Hin p row Hp) as [?|(E & _)]; [done|]. by rewrite Hlk, orb_true_r in E.
  - change (ScanAndFinalize env (S (S fuel)) l locks dis false e w pa rows) with
      ('(w, pa, rows, retry) ← scan_pass env l (locks (S fuel)) dis false e w pa rows 0;
       if 0 <? retry then ScanAndFinalize env (S fuel) l locks (dis || (retry =? 1)) false e w pa rows
       else mret (w, pa, rows)).
    destruct (scan_pass_ok env e (locks (S fuel)) dis l w pa rows 0 Hn1 Hn2 Hrd)
       as (w1 & pa1 & rows1 & n & -> & Hg & [Hn0 Hn] & Hin & Hout). cbn [mbind result_bind].
    destruct (Z.ltb_spec 0 n).
    + destruct (IH (dis || (n =? 1)) w1 pa1 rows1 Hn1 Hn2) as (w2 & pa2 & rows2 & -> & Hg2 & Hin2 & Hout2); [|done|].
      { intros p row Hp. rewrite Hg. destruct (Hin p row Hp) as [Hs|(_ & _ & Hu)]; [by eapply scanned_ready|].
        eapply scan_ready_frame; [by apply Hrd|done]. }
      exists w2, pa2, rows2. split; [done|]. split; [congruence|]. split.
      * intros p row Hp. destruct (Hin p row Hp) as [Hs|(_ & _ & Hu)]; [|by eapply scanned_frame; [|apply Hin2]].
        destruct Hs as [S1 S2 S3 S4 S5], (Hin2 p row Hp) as [T1 T2 T3 T4 T5]. split; try done.
        rewrite T5. unfold in_flight. unfold buffered at 1. rewrite S3. by rewrite app_nil_r.
      * intros p row Hp Hr. destruct (Hout p row Hp Hr) as (U1 & U2 & U3), (Hout2 p row Hp Hr) as (V1 & V2 & V3).
        split_and!; congruence.
    + exists w1, pa1, rows1. split; [done|]. split; [done|]. split; [|done].
      intros p row Hp. destruct (Hin p row Hp) as [?|(_ & ? & _)]; [done|lia].
Qed.

Lemma finalize_heads_ok env e locks fuel heads : ∀ w pa rows,
  let l := mjoin (head_pairs <$> heads) in
  NoDup l.*1 → NoDup l.*2 → (∀ p row, (p, row) ∈ l → scan_ready e (w_gc w) pa rows p row) →
  (∀ row, locks 0%nat row = true) →
  ∃ w' pa' rows', finalize_heads env (S fuel) heads locks e w pa rows = Ok (w', pa', rows') ∧
    w_gc w' = w_gc w ∧ (∀ p row, (p, row) ∈ l → scanned e rows rows' pa pa' p row) ∧
    (∀ p row, p ∉ l.*1 → row ∉ l.*2 → untouched rows rows' pa pa' p row).
Proof.
  induction heads as [|hd heads IH]; intros w pa rows l Hn1 Hn2 Hrd Hlk; cbn [finalize_heads].
  { exists w, pa, rows. split; [done|]. split; [done|]. split; [|done]. intros p row []%elem_of_nil. }
  set (l1 := head_pairs hd) in *. set (l2 := mjoin (head_pairs <$> heads)) in *.
  assert (Hl : l = l1 ++ l2) by done. clearbody l. subst l.
  rewrite fmap_app in Hn1, Hn2. apply NoDup_app in Hn1 as (Hn1 & Hd1 & Hm1). apply NoDup_app in Hn2 as (Hn2 & Hd2 & Hm2).
  assert (Hin1 : ∀ p row, (p, row) ∈ l1 → p ∈ l1.*1 ∧ row ∈ l1.*2).
  { intros p row Hp. split; apply list_elem_of_fmap; by exists (p, row). }
  assert (Hin2 : ∀ p row, (p, row) ∈ l2 → p ∈ l2.*1 ∧ row ∈ l2.*2).
  { intros p row Hp. split; apply list_elem_of_fmap; by exists (p, row). }
  destruct (ScanAndFinalize_ok env e l1 locks fuel false w pa rows Hn1 Hn2) as (w1 & pa1 & rows1 & -> & Hg1 & Hs1 & Hu1);
    [intros p row Hp; apply Hrd, elem_of_app; by left|done|]. cbn [mbind result_bind].
  assert (Hu12 : ∀ p row, (p, row) ∈ l2 → untouched rows rows1 pa pa1 p row).
  { intros p row Hp. destruct (Hin2 p row Hp). apply Hu1; intros Hx; [by apply (Hd1 p)|by apply (Hd2 row)]. }
  destruct (IH w1 pa1 rows1 Hm1 Hm2) as (w2 & pa2 & rows2 & -> & Hg2 & Hs2 & Hu2); [|done|].
  { intros p row Hp. rewrite Hg1. eapply scan_ready_frame; [apply Hrd, elem_of_app; by right|by apply Hu12]. }
  exists w2, pa2, rows2. split; [done|]. split; [congruence|]. split.
  - intros p row [Hp|Hp]%elem_of_app; [|by eapply scanned_frame; [apply Hu12|apply Hs2]].
    destruct (Hin1 p row Hp). destruct (Hu2 p row) as (V1 & V2 & V3);
      [intros Hx; by apply (Hd1 p)|intros Hx; by apply (Hd2 row)|].
    destruct (Hs1 p row Hp) as [S1 S2 S3 S4 S5]. split; rewrite ?V1, ?V2, ?V3; done.
  - intros p row Hp Hr. rewrite fmap_app, not_elem_of_app in Hp, Hr. destruct Hp as [Hp1 Hp2], Hr as [Hr1 Hr2].
    destruct (Hu1 p row Hp1 Hr1) as (U1 & U2 & U3), (Hu2 p row Hp2 Hr2) as (V1 & V2 & V3). split_and!; congruence.
Qed.

(** ** Positions *)

(** installing a row takes a position no other row of the head has *)
Lemma install_pairs cm core row hd rest h cm' h' p :
  len (backrefs hd) = hd_pos hd → install cm core row hd rest h = (cm', h', p) →
  h' = set_buf_pos h p ∧ p = base_pos hd + hd_pos hd ∧
  ∃ hd', buffer_heads cm' = <[core := hd' :: rest]> (buffer_heads cm) ∧
    head_pairs hd' = head_pairs hd ++ [(p, row)] ∧
    hd_pos hd' = hd_pos hd + 1 ∧ base_pos hd' = base_pos hd ∧ len (backrefs hd') = hd_pos hd'.
Proof.
  intros Hl. unfold install, IncrementPos. cbn [hd_pos base_pos owner_core backrefs].
  assert (Hp : zip (seqZ (base_pos hd) (hd_pos hd + 1)) (backrefs hd ++ [row]) =
    zip (seqZ (base_pos hd) (hd_pos hd)) (backrefs hd) ++ [(base_pos hd + hd_pos hd, row)]).
  { rewrite seqZ_app by lia. rewrite zip_with_app; [done|]. rewrite length_seqZ. lia. }
  intros E. destruct (hd_pos hd + 1 =? kMaxPos); injection E as <- <- <-;
    (split; [done|]; split; [done|]; eexists; split; [reflexivity|];
     unfold head_pairs; cbn [hd_pos base_pos backrefs]; split; [exact Hp|];
     rewrite length_app; cbn [length]; lia).
Qed.
