(* ===== verification/BinPack.v ===== *)
(** Spreading the contended rows over the cores (contention_manager.cc
    [Reset], [BinPack], [PackLeftOver]): the dynamic program of [BinPack] fills
    one core as far as its limit allows. *)

From S2P Require Import Prelude.

(** ** Definitions *)

Section Definitions.
(** [row->nr_ondemand_split()] *)
Variable weight : Z → Z.

(** one round of the table: [f[w]] and [trace[i][w]] from the previous row;
    [w] is [size_t], so a negative weight is a huge one *)
Definition pick (pf : list Z) (wi w : Z) : bool :=
  (u64 wi <=? w) && (pf.[w] <? i32 (pf.[w - wi] + wi)).
Definition dp_cell (pf : list Z) (wi w : Z) : Z :=
  if pick pf wi w then i32 (pf.[w - wi] + wi) else pf.[w].
Definition dp_row (limit : Z) (pf : list Z) (wi : Z) : list Z := tab limit (dp_cell pf wi).
Definition dp_trace (limit : Z) (pf : list Z) (wi : Z) : list bool := pick pf wi <$> seqZ 0 limit.

(** the first loop over the knapsacks ([None] is [nullptr]) *)
Fixpoint bp_fill (limit : Z) (ks : list (option Z)) (pf : list Z) : list Z * list (list bool) :=
  match ks with
  | [] => (pf, [])
  | None :: ks => let '(pf, ts) := bp_fill limit ks pf in (pf, [] :: ts)
  | Some r :: ks =>
      let '(f, ts) := bp_fill limit ks (dp_row limit pf (weight r)) in
      (f, dp_trace limit pf (weight r) :: ts)
  end.

(** the second loop, from the last knapsack to the first: the rest of the
    capacity, the knapsacks left and the affinities *)
Fixpoint bp_back (label : Z) (ks : list (option Z)) (ts : list (list bool)) (w : Z) (aff : Z → Z)
    : result (Z * list (option Z) * (Z → Z)) :=
  match ks, ts with
  | [], _ => mret (w, [], aff)
  | None :: ks, _ :: ts =>
      '(w, ks, aff) ← bp_back label ks ts w aff; mret (w, None :: ks, aff)
  | Some r :: ks, t :: ts =>
      '(w, ks, aff) ← bp_back label ks ts w aff;
      match t !! Z.to_nat w with
      | None => Err OutOfRange
      | Some true => mret (w - weight r, None :: ks, <[r := label]> aff)
      | Some false => mret (w, Some r :: ks, aff)
      end
  | _ :: _, [] => Err OutOfRange
  end.

(** [ContentionManager::BinPack] *)
Definition BinPack (ks : list (option Z)) (aff : Z → Z) (label limit : Z)
    : result (Z * list (option Z) * (Z → Z)) :=
  if limit =? 0 then mret (0, ks, aff) else
  let '(pf, ts) := bp_fill limit ks (tab limit (fun _ => 0)) in
  maxcap ← load pf (limit - 1);
  '(_, ks, aff) ← bp_back label ks ts (limit - 1) aff;
  mret (maxcap, ks, aff).

(** [ContentionManager::PackLeftOver] *)
Fixpoint PackLeftOver (ks : list (option Z)) (aff : Z → Z) (label : Z) : Z → Z :=
  match ks with
  | [] => aff
  | None :: ks => PackLeftOver ks aff label
  | Some r :: ks => PackLeftOver ks (<[r := label]> aff) label
  end.

(** the loop of [Reset] over the cores but the last, with the capacity each
    core leaves to the next one ([int delta]) *)
Fixpoint pack_cores (n : nat) (core hard_limit delta : Z) (ks : list (option Z)) (aff : Z → Z)
    : result (Z * list (option Z) * (Z → Z)) :=
  match n with
  | O => mret (delta, ks, aff)
  | S n =>
      '(cap, ks, aff) ← BinPack ks aff core (u64 (hard_limit + 1 + delta));
      pack_cores n (core + 1) hard_limit (i32 (hard_limit + delta - cap)) ks aff
  end.

(** the binpacking of [Reset] *)
Definition pack_rows (nr_threads sum : Z) (ks : list (option Z)) (aff : Z → Z) : result (Z → Z) :=
  '(_, ks, aff) ← pack_cores (Z.to_nat (nr_threads - 1)) 0 (sum / nr_threads) 0 ks aff;
  mret (PackLeftOver ks aff (nr_threads - 1)).

(** ** What is packed *)

Definition rows_of (ks : list (option Z)) : list Z := omap id ks.
Definition total (l : list Z) : Z := foldr Z.add 0 (weight <$> l).

(** [ch] taken out of [ks] leaves [ks'] *)
Inductive taken : list (option Z) → list Z → list (option Z) → Prop :=
| taken_nil : taken [] [] []
| taken_null ks ch ks' : taken ks ch ks' → taken (None :: ks) ch (None :: ks')
| taken_keep r ks ch ks' : taken ks ch ks' → taken (Some r :: ks) ch (Some r :: ks')
| taken_pick r ks ch ks' : taken ks ch ks' → taken (Some r :: ks) (r :: ch) (None :: ks').

(** the affinities after labelling the rows of [ch] *)
Definition labelled (label : Z) (ch : list Z) (aff : Z → Z) : Z → Z :=
  foldr (fun r aff => <[r := label]> aff) aff ch.

Hypothesis weight_pos : ∀ r, 0 ≤ weight r < 2 ^ 31.

Lemma total_cons r l : total (r :: l) = weight r + total l.
Proof. done. Qed.
Lemma total_app l1 l2 : total (l1 ++ l2) = total l1 + total l2.
Proof. induction l1 as [|r l1 IH]; [done|]. rewrite <- app_comm_cons, !total_cons. lia. Qed.
Lemma total_nonneg l : 0 ≤ total l.
Proof. induction l as [|r l IH]; [done|]. rewrite total_cons. pose proof (weight_pos r). lia. Qed.
Lemma total_perm l1 l2 : l1 ≡ₚ l2 → total l1 = total l2.
Proof. induction 1; rewrite ?total_cons; lia. Qed.

Lemma taken_rows ks ch ks' : taken ks ch ks' → rows_of ks ≡ₚ ch ++ rows_of ks'.
Proof using Type.
  clear weight_pos weight.
  induction 1 as [| |r ks ch ks' _ IH|r ks ch ks' _ IH]; cbn; [done|done|..].
  - rewrite IH. by rewrite Permutation_middle.
  - by rewrite IH.
Qed.

Lemma taken_length ks ch ks' : taken ks ch ks' → length ks' = length ks.
Proof using Type.
  clear weight_pos weight. induction 1; cbn; congruence. Qed.

(** a table row is admissible if no cell exceeds its capacity *)
Definition table_ok (limit : Z) (pf : list Z) : Prop :=
  len pf = limit ∧ ∀ w, 0 ≤ w < limit → 0 ≤ pf.[w] ≤ w.

Section Table.
Context (limit : Z) (Hlim : 0 < limit ≤ 2 ^ 31).

Lemma pick_spec pf wi w :
  table_ok limit pf → 0 ≤ wi < 2 ^ 31 → 0 ≤ w < limit →
  pick pf wi w = bool_decide (wi ≤ w ∧ pf.[w] < pf.[w - wi] + wi) ∧
  (wi ≤ w → i32 (pf.[w - wi] + wi) = pf.[w - wi] + wi).
Proof.
  intros [Hl Hpf] Hwi Hw. unfold pick. rewrite u64_id by lia.
  destruct (Z.leb_spec wi w) as [H|H]; cbn [andb].
  - specialize (Hpf (w - wi) ltac:(lia)) as Hq. rewrite i32_id by lia. split; [|done].
    destruct (Z.ltb_spec pf.[w] (pf.[w - wi] + wi)); [rewrite bool_decide_true|rewrite bool_decide_false]; lia.
  - split; [|lia]. rewrite bool_decide_false; lia.
Qed.

(** a cell is the better of leaving the row out and taking it *)
Lemma dp_cell_spec pf wi w :
  table_ok limit pf → 0 ≤ wi < 2 ^ 31 → 0 ≤ w < limit →
  pf.[w] ≤ dp_cell pf wi w ∧ (wi ≤ w → pf.[w - wi] + wi ≤ dp_cell pf wi w) ∧
  (if pick pf wi w then wi ≤ w ∧ dp_cell pf wi w = pf.[w - wi] + wi else dp_cell pf wi w = pf.[w]).
Proof.
  intros Hok Hwi Hw. destruct (pick_spec pf wi w Hok Hwi Hw) as [Hp Hi]. unfold dp_cell. rewrite Hp.
  case_bool_decide as E; [|lia]. rewrite Hi by lia. lia.
Qed.

Lemma dp_row_ok pf wi : table_ok limit pf → 0 ≤ wi < 2 ^ 31 → table_ok limit (dp_row limit pf wi).
Proof.
  intros Hok Hwi. split; [apply len_tab; lia|]. intros w Hw. unfold dp_row. rewrite at_tab by done.
  destruct (dp_cell_spec pf wi w Hok Hwi Hw) as (H1 & H2 & H3). destruct Hok as [_ Hpf].
  pose proof (Hpf w Hw). destruct (pick pf wi w); [|lia]. pose proof (Hpf (w - wi) ltac:(lia)). lia.
Qed.

(** the table after all rows, and the way back through the traces *)
Lemma bp_fill_ok label ks : ∀ pf, table_ok limit pf →
  ∃ f ts, bp_fill limit ks pf = (f, ts) ∧ table_ok limit f ∧
  (∀ w sub, 0 ≤ w < limit → sub `sublist_of` rows_of ks → total sub ≤ w → pf.[w - total sub] + total sub ≤ f.[w]) ∧
  (∀ w aff, 0 ≤ w < limit → ∃ ch ks', bp_back label ks ts w aff = Ok (w - total ch, ks', labelled label ch aff) ∧
    taken ks ch ks' ∧ total ch ≤ w ∧ f.[w] = pf.[w - total ch] + total ch).
Proof.
  induction ks as [|[r|] ks IH]; intros pf Hpf; cbn [bp_fill].
  - exists pf, []. split; [done|]. split; [done|]. split.
    + intros w sub Hw Hs%sublist_nil_r Ht. subst. cbn. rewrite Z.sub_0_r. lia.
    + intros w aff Hw. exists [], []. cbn. rewrite Z.sub_0_r. repeat split; [constructor|lia|lia].
  - pose proof (weight_pos r) as Hr. set (wi := weight r) in *.
    destruct (IH _ (dp_row_ok pf wi Hpf Hr)) as (f & ts & -> & Hf & Hopt & Hback).
    assert (Hc : ∀ w, 0 ≤ w < limit → (dp_row limit pf wi).[w] = dp_cell pf wi w)
      by (intros; unfold dp_row; by rewrite at_tab).
    exists f, (dp_trace limit pf wi :: ts). split; [done|]. split; [done|]. split.
    + intros w sub Hw Hs Ht.
      apply sublist_cons_r in Hs as [Hs|(sub' & -> & Hs)].
      * pose proof (total_nonneg sub). specialize (Hopt w sub Hw Hs Ht). rewrite Hc in Hopt by lia.
        destruct (dp_cell_spec pf wi (w - total sub) Hpf Hr ltac:(lia)) as (H1 & _ & _). lia.
      * rewrite total_cons in *. fold wi in Ht |- *. pose proof (total_nonneg sub').
        specialize (Hopt w sub' Hw Hs ltac:(lia)). rewrite Hc in Hopt by lia.
        destruct (dp_cell_spec pf wi (w - total sub') Hpf Hr ltac:(lia)) as (_ & H2 & _).
        replace (w - (wi + total sub')) with (w - total sub' - wi) by lia. lia.
    + intros w aff Hw. destruct (Hback w aff Hw) as (ch & ks' & HB & Hk & Ht & Hfw).
      pose proof (total_nonneg ch). rewrite Hc in Hfw by lia.
      destruct (dp_cell_spec pf wi (w - total ch) Hpf Hr ltac:(lia)) as (_ & _ & H3).
      cbn [bp_back]. rewrite HB. cbn [mbind result_bind]. unfold dp_trace.
      rewrite list_lookup_fmap, lookup_seqZ_lt by lia. cbn [fmap option_fmap option_map].
      replace (0 + Z.of_nat (Z.to_nat (w - total ch))) with (w - total ch) by lia.
      destruct (pick pf wi (w - total ch)).
      * exists (r :: ch), (None :: ks'). rewrite total_cons. fold wi.
        replace (w - (wi + total ch)) with (w - total ch - wi) by lia. split; [done|].
        split; [by constructor|]. lia.
      * exists ch, (Some r :: ks'). split; [done|]. split; [by constructor|]. lia.
  - destruct (IH pf Hpf) as (f & ts & -> & Hf & Hopt & Hback). exists f, ([] :: ts).
    split; [done|]. split; [done|]. split; [exact Hopt|].
    intros w aff Hw. destruct (Hback w aff Hw) as (ch & ks' & HB & Hk & ?).
    exists ch, (None :: ks'). cbn [bp_back]. rewrite HB. cbn. split; [done|]. split; [by constructor|done].
Qed.

(** [BinPack] takes a heaviest selection that fits below the limit *)
Lemma BinPack_ok ks aff label :
  ∃ ch ks', BinPack ks aff label limit = Ok (total ch, ks', labelled label ch aff) ∧
    taken ks ch ks' ∧ total ch < limit ∧
    ∀ sub, sub `sublist_of` rows_of ks → total sub < limit → total sub ≤ total ch.
Proof.
  assert (H0 : table_ok limit (tab limit (fun _ => 0))).
  { split; [apply len_tab; lia|]. intros w Hw. rewrite at_tab by done. lia. }
  unfold BinPack. rewrite (proj2 (Z.eqb_neq limit 0)) by lia.
  destruct (bp_fill_ok label ks _ H0) as (f & ts & -> & [Hl Hf] & Hopt & Hback).
  rewrite (load_in _ (limit - 1)) by lia. cbn [mbind result_bind].
  destruct (Hback (limit - 1) aff ltac:(lia)) as (ch & ks' & -> & Hk & Ht & Hv). cbn [mbind result_bind].
  pose proof (total_nonneg ch). rewrite at_tab in Hv by lia.
  exists ch, ks'. split; [rewrite Hv; done|]. split; [done|]. split; [lia|].
  intros sub Hs Hlt. pose proof (total_nonneg sub). specialize (Hopt (limit - 1) sub ltac:(lia) Hs ltac:(lia)).
  rewrite at_tab in Hopt by lia. lia.
Qed.
End Table.

(** ** All cores *)

Lemma labelled_other label ch aff r : r ∉ ch → labelled label ch aff r = aff r.
Proof using Type.
  clear weight_pos weight.
  induction ch as [|x ch IH]; [done|]. rewrite not_elem_of_cons. intros [? ?]. cbn.
  rewrite fn_lookup_insert_ne by done. by apply IH.
Qed.
Lemma labelled_in label ch aff r : r ∈ ch → labelled label ch aff r = label.
Proof using Type.
  clear weight_pos weight.
  induction ch as [|x ch IH]; [intros []%elem_of_nil|]. rewrite elem_of_cons. intros H. cbn.
  destruct (decide (x = r)) as [->|Hne]; [by rewrite fn_lookup_insert|].
  rewrite fn_lookup_insert_ne by done. apply IH. naive_solver.
Qed.

Lemma PackLeftOver_ok ks label : ∀ aff r,
  PackLeftOver ks aff label r = if decide (r ∈ rows_of ks) then label else aff r.
Proof using Type.
  clear weight_pos weight.
  induction ks as [|[x|] ks IH]; intros aff r; cbn [PackLeftOver rows_of omap list_omap id].
  - by rewrite decide_False by apply not_elem_of_nil.
  - rewrite IH. fold (rows_of ks). destruct (decide (r = x)) as [->|Hne].
    + rewrite fn_lookup_insert. rewrite (decide_True (P := x ∈ x :: rows_of ks)) by left. by case_decide.
    + rewrite fn_lookup_insert_ne by done. apply decide_ext. rewrite elem_of_cons. naive_solver.
  - apply IH.
Qed.

(** after the loop over the cores: every row taken has the label of a core,
    no core is loaded beyond its share and what the cores before left it, and
    the capacity handed on never goes negative *)
Lemma pack_cores_ok H n : ∀ core delta ks aff,
  0 ≤ H → 0 ≤ delta → H * (Z.of_nat n + 1) + delta < 2 ^ 31 → NoDup (rows_of ks) →
  ∃ delta' ks' aff' out, pack_cores n core H delta ks aff = Ok (delta', ks', aff') ∧
    0 ≤ delta' ∧ rows_of ks ≡ₚ out ++ rows_of ks' ∧ total out + delta' = H * Z.of_nat n + delta ∧
    (∀ r, r ∉ out → aff' r = aff r) ∧ (∀ r, r ∈ out → core ≤ aff' r < core + Z.of_nat n) ∧
    (∀ m, 0 ≤ m ≤ Z.of_nat n → total (filter (fun r => aff' r < core + m) out) ≤ H * m + delta).
Proof.
  induction n as [|n IH]; intros core delta ks aff HH Hd Hb Hnd; cbn [pack_cores].
  { exists delta, ks, aff, []. split; [done|]. split; [done|]. split; [done|]. split; [cbn; lia|].
    split; [done|]. split; [intros r []%elem_of_nil|]. intros m Hm. cbn. nia. }
  rewrite u64_id by nia.
  destruct (BinPack_ok (H + 1 + delta) ltac:(nia) ks aff core) as (ch & ks1 & -> & Hk & Ht & _).
  cbn [mbind result_bind]. pose proof (total_nonneg ch). apply taken_rows in Hk.
  rewrite Hk, NoDup_app in Hnd. destruct Hnd as (_ & Hdis & Hnd1). rewrite i32_id by nia.
  destruct (IH (core + 1) (H + delta - total ch) ks1 (labelled core ch aff)) as
    (d' & ks' & aff' & out & -> & Hd' & Hp & Htot & Hun & Hin & Hcum); [done|lia|nia|done|].
  assert (Hch : ∀ r, r ∈ ch → aff' r = core).
  { intros r Hr. rewrite Hun; [by apply labelled_in|]. intros Hr'. apply (Hdis r Hr). rewrite Hp. set_solver. }
  exists d', ks', aff', (ch ++ out). split; [done|]. split; [done|]. split; [by rewrite Hk, Hp, app_assoc|].
  split; [rewrite total_app; nia|]. split.
  { intros r Hr. apply not_elem_of_app in Hr as [? ?]. rewrite Hun by done. by apply labelled_other. }
  split.
  { intros r [Hr|Hr]%elem_of_app; [rewrite Hch by done; lia|]. specialize (Hin r Hr). lia. }
  intros m Hm. rewrite filter_app, total_app. destruct (Z.eq_dec m 0) as [->|Hm0].
  - assert (E : ∀ l, (∀ r, r ∈ l → core ≤ aff' r) → filter (fun r => aff' r < core + 0) l = []).
    { intros l Hl. apply filter_none. intros r Hr. specialize (Hl r Hr). lia. }
    rewrite !E; [cbn; nia|intros r Hr; specialize (Hin r Hr); lia|intros r Hr; rewrite Hch by done; lia].
  - specialize (Hcum (m - 1) ltac:(lia)). replace (core + 1 + (m - 1)) with (core + m) in Hcum by lia.
    assert (E : filter (fun r => aff' r < core + m) ch = ch).
    { apply filter_all. intros r Hr. rewrite Hch by done. lia. }
    rewrite E. nia.
Qed.
End Definitions.

(** all rows are placed *)
Lemma pack_rows_ok weight nr_threads sum ks aff :
  (∀ r, 0 ≤ weight r < 2 ^ 31) → 0 < nr_threads → 0 ≤ sum < 2 ^ 31 → NoDup (rows_of ks) →
  ∃ aff', pack_rows weight nr_threads sum ks aff = Ok aff' ∧
    (∀ r, r ∉ rows_of ks → aff' r = aff r) ∧
    (∀ r, r ∈ rows_of ks → 0 ≤ aff' r < nr_threads) ∧
    (∀ m, 0 ≤ m < nr_threads → total weight (filter (fun r => aff' r < m) (rows_of ks)) ≤ sum / nr_threads * m).
Proof.
  intros Hw Hn Hs Hnd. unfold pack_rows. assert (Hq : 0 ≤ sum / nr_threads) by (apply Z.div_pos; lia).
  assert (Hb : sum / nr_threads * nr_threads ≤ sum) by (rewrite Z.mul_comm; apply Z.mul_div_le; lia).
  destruct (pack_cores_ok weight Hw (sum / nr_threads) (Z.to_nat (nr_threads - 1)) 0 0 ks aff) as
    (d & ks' & a & out & -> & Hd & Hp & Ht & Hun & Hin & Hcum); [done|lia|nia|done|].
  cbn [mbind result_bind]. eexists. split; [done|].
  assert (Hdis : ∀ r, r ∈ out → r ∉ rows_of ks') by (rewrite Hp, NoDup_app in Hnd; naive_solver).
  rewrite Z2Nat.id in * by lia. split_and!.
  - intros r Hr. rewrite Hp, not_elem_of_app in Hr. rewrite PackLeftOver_ok, decide_False by tauto. apply Hun; tauto.
  - intros r Hr. rewrite PackLeftOver_ok. case_decide; [lia|]. rewrite Hp, elem_of_app in Hr.
    destruct Hr as [Hr|]; [|done]. specialize (Hin r Hr). lia.
  - intros m Hm. specialize (Hcum m ltac:(lia)). rewrite Z.add_0_r in Hcum. etrans; [|exact Hcum].
    rewrite (total_perm weight _ (filter (fun r => a r < 0 + m) out)); [done|].
    rewrite Hp, filter_app, (filter_none _ (rows_of ks')), app_nil_r.
    + rewrite (filter_ext_in _ (fun r => a r < 0 + m) out); [done|].
      intros r Hr. rewrite ?PackLeftOver_ok, decide_False by by apply Hdis. lia.
    + intros r Hr. rewrite ?PackLeftOver_ok. case_decide; [lia|done].
Qed.

(** ** Properties *)

(** C16. [BinPack] gives the core a heaviest selection of the rows left that
    stays below the limit: it returns the weight of that selection, labels and
    removes exactly its rows, and no other selection below the limit is
    heavier. *)
Theorem binpack_optimal weight ks aff label limit :
  (∀ r, 0 ≤ weight r < 2 ^ 31) → 0 < limit ≤ 2 ^ 31 →
  ∃ ch ks', BinPack weight ks aff label limit = Ok (total weight ch, ks', labelled label ch aff) ∧
    taken ks ch ks' ∧ total weight ch < limit ∧
    ∀ sub, sub `sublist_of` rows_of ks → total weight sub < limit → total weight sub ≤ total weight ch.
Proof. intros Hw Hl. by apply BinPack_ok. Qed.

(** weights of the sample rows *)
Definition sample_weight (r : Z) : Z := r mod 8.
Lemma sample_weight_pos r : 0 ≤ sample_weight r < 2 ^ 31.
Proof. unfold sample_weight. pose proof (Z.mod_pos_bound r 8 ltac:(lia)). lia. Qed.

Lemma binpack_optimal_witness :
  (fst ∘ fst <$> BinPack sample_weight [Some 3; None; Some 5; Some 4] (fun _ => -1) 2 9 = Ok 8) ∧
  ∃ ch ks', BinPack sample_weight [Some 3; None; Some 5; Some 4] (fun _ => -1) 2 9 =
      Ok (total sample_weight ch, ks', labelled 2 ch (fun _ => -1)) ∧
    taken [Some 3; None; Some 5; Some 4] ch ks' ∧ total sample_weight ch < 9 ∧
    ∀ sub, sub `sublist_of` rows_of [Some 3; None; Some 5; Some 4] → total sample_weight sub < 9 →
      total sample_weight sub ≤ total sample_weight ch.
Proof.
  split; [by vm_compute|]. apply (binpack_optimal sample_weight); [apply sample_weight_pos|lia].
Defined.

(** The binpacking of [Reset] labels every contended row with a core, and
    for every [m] short of the last core the first [m] cores together get no
    more than [m] shares of the total weight; the capacity handed from core to
    core never becomes negative, so the limit passed to [BinPack] does not
    wrap. *)
Theorem pack_rows_balanced weight nr_threads sum ks aff :
  (∀ r, 0 ≤ weight r < 2 ^ 31) → 0 < nr_threads → 0 ≤ sum < 2 ^ 31 → NoDup (rows_of ks) →
  ∃ aff', pack_rows weight nr_threads sum ks aff = Ok aff' ∧
    (∀ r, r ∉ rows_of ks → aff' r = aff r) ∧
    (∀ r, r ∈ rows_of ks → 0 ≤ aff' r < nr_threads) ∧
    (∀ m, 0 ≤ m < nr_threads → total weight (filter (fun r => aff' r < m) (rows_of ks)) ≤ sum / nr_threads * m).
Proof. apply pack_rows_ok. Qed.

Lemma pack_rows_balanced_witness :
  ∃ aff', pack_rows sample_weight 2 12 [Some 3; Some 5; Some 4] (fun _ => -1) = Ok aff' ∧
    (∀ r, r ∉ rows_of [Some 3; Some 5; Some 4] → aff' r = -1) ∧
    (∀ r, r ∈ rows_of [Some 3; Some 5; Some 4] → 0 ≤ aff' r < 2) ∧
    (∀ m, 0 ≤ m < 2 → total sample_weight (filter (fun r => aff' r < m) (rows_of [Some 3; Some 5; Some 4])) ≤ 12 / 2 * m).
Proof.
  apply (pack_rows_balanced sample_weight 2 12 [Some 3; Some 5; Some 4] (fun _ => -1));
    [apply sample_weight_pos|lia|lia|apply (bool_decide_unpack _); by vm_compute].
Defined.
