(* ===== verification/Locality.v ===== *)
(** The locality manager (locality_manager.cc): it collects the planned load
    of every core, spreads the load above the average over the other cores as
    a cumulative distribution, and draws the core of a piece from it. *)

From S2P Require Import Prelude Bits Sync.

(** ** State *)

(** [LocalityManager::WeightDist]; [nr_dist] is the length of [dist]. The
    counters are [long]s and are kept unbounded. *)
Record WeightDist := mkWD {
  weight : Z;
  dist : list Z;
  cores : list Z;
  load_ : Z;
  weights_per_core : Z → Z;
}.
Abbreviation Weights := (Z → WeightDist).    (* per_core_weights *)
Definition kPrealloc : Z := 1024.

Definition set_weight (w : WeightDist) (x : Z) : WeightDist := mkWD x (dist w) (cores w) (load_ w) (weights_per_core w).
Definition set_load (w : WeightDist) (x : Z) : WeightDist := mkWD (weight w) (dist w) (cores w) x (weights_per_core w).
Definition set_planned (w : WeightDist) (c x : Z) : WeightDist :=
  mkWD (weight w) (dist w) (cores w) (load_ w) (<[c := x]> (weights_per_core w)).
Definition set_dist (w : WeightDist) (d c : list Z) : WeightDist := mkWD (weight w) d c (load_ w) (weights_per_core w).

Definition nr_dist (w : WeightDist) : Z := len (dist w).

(** ** Operations *)

Section Operations.
Variable g_nr_threads : Z.

(** [LocalityManager::Reset]: the flexible array [weights_per_core] lies
    behind [sizeof(WeightDist)] and is not cleared *)
Definition Reset (st : Weights) : Weights :=
  fun i => if (0 <=? i) && (i <? g_nr_threads) then mkWD 0 [] [] 0 (weights_per_core (st i)) else st i.

(** [LocalityManager::PlanLoad] on [current_core] *)
Definition PlanLoad (st : Weights) (current_core core delta : Z) : result Weights :=
  if (0 <=? core) && (core <? g_nr_threads) then
    let w := st current_core in
    mret (<[current_core := set_planned w core (weights_per_core w core + delta)]> st)
  else Err OutOfRange.

(** the two inner loops of [Balance] *)
Definition collect_weight (core : Z) (st : Weights) (j : Z) : Weights :=
  let st := <[core := set_weight (st core) (weight (st core) + weights_per_core (st j) core)]> st in
  <[j := set_planned (st j) core 0]> st.
Definition collect_core (st : Weights) (core : Z) : Weights :=
  let st := foldl (collect_weight core) st (seqZ 0 g_nr_threads) in
  <[core := set_load (st core) (weight (st core))]> st.

(** the cores [OffloadCore] walks: those of the core's own node first *)
Definition walk_cores (st : Weights) (core limit : Z) : list Z :=
  let node := core / kNrCorePerNode in
  filter (fun i => i ≠ core ∧ load_ (st i) < limit)
    (seqZ (node * kNrCorePerNode) (Z.min ((node + 1) * kNrCorePerNode) g_nr_threads - node * kNrCorePerNode)) ++
  filter (fun i => i / kNrCorePerNode ≠ node ∧ load_ (st i) < limit) (seqZ 0 g_nr_threads).

(** the loop of [OffloadCore]: [d = w.nr_dist - 1] walks the cores in order *)
Fixpoint offload_loop (core limit : Z) (walk : list Z) (load_cdf : Z) (st : Weights) : Weights :=
  let w := st core in
  if load_cdf <? weight w then
    match walk with
    | [] => st
    | cur :: walk =>
        let delta := Z.min (weight w - load_cdf) (limit - load_ (st cur)) in
        let load_cdf := load_cdf + delta in
        let st := <[core := set_dist w (dist w ++ [load_cdf]) (cores w ++ [cur])]> st in
        let st := <[cur := set_load (st cur) (load_ (st cur) + delta)]> st in
        offload_loop core limit walk load_cdf st
    end
  else st.

Definition OffloadCore (st : Weights) (core limit : Z) : Weights :=
  offload_loop core limit (walk_cores st core limit) limit st.

(** the body of the second loop of [Balance] *)
Definition distribute (average : Z) (st : Weights) (core : Z) : Weights :=
  let w := st core in
  if average <? weight w
  then OffloadCore (<[core := set_load (set_dist w [average] [core]) average]> st) core average
  else <[core := set_dist w [weight w] [core]]> st.

Fixpoint distribute_loop (average : Z) (l : list Z) (st : Weights) (nr_prealloc : Z) : result Weights :=
  match l with
  | [] => mret st
  | core :: l =>
      let st := distribute average st core in
      let nr_prealloc := nr_prealloc + nr_dist (st core) in
      _ ← abort_if (kPrealloc <? nr_prealloc);
      distribute_loop average l st nr_prealloc
  end.

Definition total_weight (st : Weights) : Z := sum_over (fun c => weight (st c)) (seqZ 0 g_nr_threads).

(** [LocalityManager::Balance]: collects all weights, then distributes *)
Definition Balance (st : Weights) : result Weights :=
  let st := foldl collect_core st (seqZ 0 g_nr_threads) in
  let average := Z.quot (total_weight st) g_nr_threads in
  distribute_loop average (seqZ 0 g_nr_threads) st 0.

End Operations.

(** [std::upper_bound] on a short array: the first index above [x] *)
Fixpoint upper_bound (l : list Z) (x : Z) : Z :=
  match l with
  | [] => 0
  | y :: l => if x <? y then 0 else 1 + upper_bound l x
  end.

(** [LocalityManager::GetScheduleCore]; [rnd] is [local_rand.Next()].
    [w.dist[w.nr_dist - 1]] is read before [nr_dist == 0] is tested *)
Definition GetScheduleCore (st : Weights) (core rnd : Z) : result Z :=
  let w := st core in
  _ ← load (dist w) (nr_dist w - 1);
  if nr_dist w =? 0 then mret core else
  if nr_dist w =? 1 then load (cores w) 0 else
  last ← load (dist w) (nr_dist w - 1);
  if last =? 0 then Err OutOfRange else    (* division by zero *)
  load (cores w) (upper_bound (dist w) (rnd mod last)).

(** the loop of [LocalityManager::SelectRow]: [it] is the index reached *)
Fixpoint select_loop (fuel : nat) (bitmap sel it : Z) : result Z :=
  match fuel with
  | O => Err Blocked
  | S fuel =>
      let skip := ctz bitmap in
      let it := it + skip in
      if sel =? 0 then mret it else
      if 64 <=? skip + 1 then Err OutOfRange else    (* the shift is undefined *)
      let bitmap := Z.shiftr bitmap (skip + 1) in
      if bitmap =? 0 then Err Aborted else select_loop fuel bitmap (sel - 1) (it + 1)
  end.

(** [LocalityManager::SelectRow]: the index of the row selected, [None] for
    [nullptr]; [rnd] is [local_rand.Next()] *)
Definition SelectRow (bitmap rnd : Z) : result (option Z) :=
  if bitmap =? 0 then mret None else
  Some <$> select_loop 64 bitmap (rnd mod popcount bitmap) 0.

(** ** Selecting a row *)

(** the loop returns the [sel]-th set bit *)
Lemma select_loop_ok fuel : ∀ b n sel it,
  0 < b < 2 ^ n → 0 ≤ n ≤ Z.of_nat fuel → n ≤ 64 → 0 ≤ sel < popcount b →
  ∃ i, bits b !! Z.to_nat sel = Some i ∧ select_loop fuel b sel it = Ok (it + i).
Proof.
  induction fuel as [|fuel IH]; intros b n sel it Hb Hf Hn Hs.
  { replace n with 0 in Hb by lia. lia. }
  cbn [select_loop]. rewrite popcount_bits, bits_ctz in Hs by lia. rewrite bits_ctz by lia.
  pose proof (ctz_bound b n Hb). set (c := ctz b) in *. set (b' := Z.shiftr b (c + 1)) in *.
  destruct (Z.eqb_spec sel 0) as [->|Hs0]; [by exists c|].
  cbn [length] in Hs. rewrite length_fmap in Hs.
  assert (Hb' : 0 < b').
  { destruct (Z.eq_dec b' 0) as [E|]; [rewrite E in Hs; cbn in Hs; lia|].
    assert (0 ≤ b') by (apply Z.shiftr_nonneg; lia). lia. }
  assert (Hlt : b' < 2 ^ (n - (c + 1))).
  { unfold b'. rewrite Z.shiftr_div_pow2 by lia. apply Z.div_lt_upper_bound; [apply Z.pow_pos_nonneg; lia|].
    rewrite <- Z.pow_add_r by lia. replace (c + 1 + (n - (c + 1))) with n by lia. lia. }
  assert (Hc : c + 1 < n).
  { destruct (Z.lt_ge_cases (c + 1) n); [done|]. replace (n - (c + 1)) with 0 in Hlt by lia. lia. }
  rewrite (proj2 (Z.leb_gt 64 (c + 1))), (proj2 (Z.eqb_neq b' 0)) by lia.
  destruct (IH b' (n - (c + 1)) (sel - 1) (it + c + 1)) as (i & Hi & ->); [lia|lia|lia|rewrite popcount_bits; lia|].
  exists (c + 1 + i). split; [|f_equal; lia].
  replace (Z.to_nat sel) with (S (Z.to_nat (sel - 1))) by lia.
  trans ((Z.add (c + 1) <$> bits b') !! Z.to_nat (sel - 1)); [done|]. by rewrite list_lookup_fmap, Hi.
Qed.

Lemma SelectRow_ok bitmap rnd :
  0 ≤ bitmap < 2 ^ 64 → 0 ≤ rnd →
  SelectRow bitmap rnd = Ok (bits bitmap !! Z.to_nat (rnd mod popcount bitmap)).
Proof.
  intros Hb Hr. unfold SelectRow. destruct (Z.eqb_spec bitmap 0) as [->|Hne]; [done|].
  assert (0 < popcount bitmap) by (rewrite popcount_bits, bits_ctz by lia; cbn [length]; lia).
  destruct (select_loop_ok 64 bitmap 64 (rnd mod popcount bitmap) 0) as (i & -> & ->);
    [lia|lia|lia|by apply Z.mod_pos_bound|done].
Qed.

(** ** Collecting the weights *)

Section Collect.
Context (n : Z).

(** the weight planned for a core by all cores *)
Definition planned (st : Weights) (core : Z) : Z :=
  sum_over (fun j => weights_per_core (st j) core) (seqZ 0 n).

Lemma collect_weight_at core st j :
  let st' := collect_weight core st j in
  weight (st' core) = weight (st core) + weights_per_core (st j) core ∧
  (∀ c, c ≠ core → weight (st' c) = weight (st c)) ∧ (∀ c, load_ (st' c) = load_ (st c)) ∧
  (∀ i c, weights_per_core (st' i) c = if decide (c = core ∧ i = j) then 0 else weights_per_core (st i) c).
Proof.
  unfold collect_weight. split_and!; intros; fn_cases; naive_solver.
Qed.

Lemma collect_weight_fold core l : ∀ st, NoDup l →
  let st' := foldl (collect_weight core) st l in
  weight (st' core) = weight (st core) + sum_over (fun j => weights_per_core (st j) core) l ∧
  (∀ c, c ≠ core → weight (st' c) = weight (st c)) ∧
  (∀ c, load_ (st' c) = load_ (st c)) ∧
  (∀ j c, weights_per_core (st' j) c = if bool_decide (c = core ∧ j ∈ l) then 0 else weights_per_core (st j) c).
Proof.
  induction l as [|j l IH]; intros st Hnd; cbn [foldl sum_over foldr].
  { split_and!; try done; [lia|]. intros j c. rewrite bool_decide_false; [done|]. intros [_ []%elem_of_nil]. }
  apply NoDup_cons in Hnd as [Hj Hnd]. destruct (IH (collect_weight core st j) Hnd) as (H1 & H2 & H3 & H4).
  set (st1 := collect_weight core st j) in *.
  destruct (collect_weight_at core st j) as (E1 & E2 & E3 & E4). fold st1 in E1, E2, E3, E4.
  split_and!.
  - rewrite H1, E1. fold (sum_over (fun j => weights_per_core (st j) core) l).
    rewrite (sum_over_ext _ (fun j => weights_per_core (st j) core) l); [lia|].
    intros i Hi. rewrite E4, decide_False; [done|]. by intros [_ ->].
  - intros c Hc. by rewrite H2, E2.
  - intros c. by rewrite H3, E3.
  - intros i c. rewrite H4, E4. repeat case_bool_decide; repeat case_decide; try done; set_solver.
Qed.
Lemma collect_core_at st core :
  let st' := collect_core n st core in
  weight (st' core) = weight (st core) + planned st core ∧ load_ (st' core) = weight (st' core) ∧
  (∀ c, c ≠ core → weight (st' c) = weight (st c) ∧ load_ (st' c) = load_ (st c) ∧ planned st' c = planned st c) ∧
  planned st' core = 0.
Proof.
  unfold collect_core. cbv zeta. destruct (collect_weight_fold core (seqZ 0 n) st (NoDup_seqZ 0 n)) as (H1 & H2 & H3 & H4).
  set (st1 := foldl _ _ _) in *. unfold planned. split_and!.
  - rewrite fn_lookup_insert. cbn. by rewrite H1.
  - by rewrite !fn_lookup_insert.
  - intros c Hc. rewrite fn_lookup_insert_ne by done. split_and!; [by apply H2|done|].
    apply sum_over_ext. intros j Hj. trans (weights_per_core (st1 j) c); [fn_cases|].
    rewrite H4, bool_decide_false; [done|]. by intros [].
  - rewrite (sum_over_ext _ (fun _ => 0)), sum_over_const; [lia|]. intros j Hj.
    trans (weights_per_core (st1 j) core); [fn_cases|]. by rewrite H4, bool_decide_true.
Qed.

Lemma collect_fold l : ∀ st, NoDup l →
  let st' := foldl (collect_core n) st l in
  (∀ c, c ∈ l → weight (st' c) = weight (st c) + planned st c ∧ load_ (st' c) = weight (st' c)) ∧
  (∀ c, c ∉ l → weight (st' c) = weight (st c) ∧ load_ (st' c) = load_ (st c) ∧ planned st' c = planned st c) ∧
  (∀ c, c ∈ l → planned st' c = 0).
Proof.
  induction l as [|x l IH]; intros st Hnd; cbn [foldl].
  { split_and!; [intros c []%elem_of_nil|done|intros c []%elem_of_nil]. }
  apply NoDup_cons in Hnd as [Hx Hnd]. destruct (IH (collect_core n st x) Hnd) as (H1 & H2 & H3).
  destruct (collect_core_at st x) as (E1 & E2 & E3 & E4). set (st1 := collect_core n st x) in *. split_and!.
  - intros c [->|Hc]%elem_of_cons.
    + destruct (H2 x Hx) as (-> & -> & _). done.
    + destruct (H1 c Hc) as [-> ->]. destruct (E3 c) as (-> & _ & ->); [|done]. by intros ->.
  - intros c [Hne Hc]%not_elem_of_cons. destruct (H2 c Hc) as (-> & -> & ->). by apply E3.
  - intros c [->|Hc]%elem_of_cons; [|by apply H3]. by destruct (H2 x Hx) as (_ & _ & ->).
Qed.
End Collect.

(** ** Distributing the load *)

(** the number of cores below the average *)
Definition light (n limit : Z) (st : Weights) : Z :=
  sum_over (fun c => if load_ (st c) <? limit then 1 else 0) (seqZ 0 n).

Definition total_load (n : Z) (st : Weights) : Z := sum_over (fun c => load_ (st c)) (seqZ 0 n).

(** the distribution of a core: an increasing cumulative distribution that
    starts with the core's own share *)
Record cdf_ok (n core : Z) (w : WeightDist) : Prop := {
  co_len : length (cores w) = length (dist w);
  co_head : head (cores w) = Some core;
  co_cores : ∀ c, c ∈ cores w → 0 ≤ c < n;
  co_nodup : NoDup (cores w);
  co_sorted : StronglySorted Z.lt (dist w);
  co_weight : ∀ d, d ∈ dist w → 0 ≤ d ≤ weight w;
}.

Section Offload.
Context (n limit : Z).

(** what [OffloadCore] leaves behind, from the entries [walk] still to visit *)
Record offloaded (core load_cdf : Z) (walk : list Z) (st st' : Weights) (ds cs : list Z) : Prop := {
  of_dist : dist (st' core) = dist (st core) ++ ds;
  of_cores : cores (st' core) = cores (st core) ++ cs;
  of_own : weight (st' core) = weight (st core) ∧ load_ (st' core) = load_ (st core);
  of_len : length cs = length ds;
  of_sub : cs `prefix_of` walk;
  of_sorted : StronglySorted Z.lt (load_cdf :: ds);
  of_below : ∀ d, d ∈ ds → d ≤ weight (st core);
  of_other : ∀ c, c ≠ core → st' c = set_load (st c) (load_ (st' c)) ∧ load_ (st c) ≤ load_ (st' c) ∧
    (c ∉ walk → load_ (st' c) = load_ (st c)) ∧ (c ∈ walk → load_ (st' c) ≤ limit);
  of_all : default load_cdf (last ds) = weight (st core) ∨ ∀ c, c ∈ walk → load_ (st' c) = limit;
  of_light : light n limit st' + len ds ≤ light n limit st + 1;
  of_sum : total_load n st' = total_load n st + (default load_cdf (last ds) - load_cdf);
}.

Lemma offloaded_nil core cdf walk st :
  cdf = weight (st core) ∨ (walk = [] ∧ cdf ≤ weight (st core)) → (∀ c, c ∈ walk → load_ (st c) < limit) →
  offloaded core cdf walk st st [] [].
Proof.
  intros Hd Hw. split; rewrite ?app_nil_r; try done.
  - apply prefix_nil.
  - repeat constructor.
  - intros d []%elem_of_nil.
  - intros c Hc. split; [by destruct (st c)|]. split; [lia|]. split; [done|]. intros Hc'. specialize (Hw c Hc'). lia.
  - destruct Hd as [->|[-> _]]; [by left|]. right. intros c []%elem_of_nil.
  - cbn. lia.
  - cbn. lia.
Qed.

(** handing a share to the next core *)
Definition share (core cur : Z) (st : Weights) (cdf delta : Z) : Weights :=
  let st := <[core := set_dist (st core) (dist (st core) ++ [cdf + delta]) (cores (st core) ++ [cur])]> st in
  <[cur := set_load (st cur) (load_ (st cur) + delta)]> st.

Lemma share_at core cur st cdf delta :
  core ≠ cur →
  share core cur st cdf delta core = set_dist (st core) (dist (st core) ++ [cdf + delta]) (cores (st core) ++ [cur]) ∧
  share core cur st cdf delta cur = set_load (st cur) (load_ (st cur) + delta) ∧
  (∀ c, c ≠ core → c ≠ cur → share core cur st cdf delta c = st c).
Proof. intros Hne. unfold share. split_and!; intros; fn_cases. Qed.

Lemma share_light core cur st cdf delta :
  core ≠ cur → 0 ≤ cur < n → load_ (st cur) < limit →
  light n limit (share core cur st cdf delta) =
  light n limit st - (if load_ (st cur) + delta <? limit then 0 else 1).
Proof.
  intros Hne Hc Hl. destruct (share_at core cur st cdf delta Hne) as (Ecore & Ecur & Eo). unfold light.
  rewrite (sum_over_update (fun c => if load_ (st c) <? limit then 1 else 0) _ _ cur).
  - rewrite Ecur. cbn. rewrite (proj2 (Z.ltb_lt (load_ (st cur)) limit)) by lia. case_match; lia.
  - apply NoDup_seqZ.
  - apply elem_of_seqZ. lia.
  - intros c _ Hc'. destruct (decide (c = core)) as [->|]; [by rewrite Ecore|by rewrite Eo].
Qed.

Lemma share_load core cur st cdf delta :
  core ≠ cur → 0 ≤ cur < n → total_load n (share core cur st cdf delta) = total_load n st + delta.
Proof.
  intros Hne Hc. destruct (share_at core cur st cdf delta Hne) as (Ecore & Ecur & Eo). unfold total_load.
  rewrite (sum_over_update (fun c => load_ (st c)) _ _ cur).
  - rewrite Ecur. cbn. lia.
  - apply NoDup_seqZ.
  - apply elem_of_seqZ. lia.
  - intros c _ Hc'. destruct (decide (c = core)) as [->|]; [by rewrite Ecore|by rewrite Eo].
Qed.

Lemma offloaded_light core cdf walk st st' ds cs :
  offloaded core cdf walk st st' ds cs → light n limit st' ≤ light n limit st.
Proof.
  intros [_ _ [_ Ho] _ _ _ _ Hoth _ _ _]. apply sum_over_le. intros c _.
  destruct (decide (c = core)) as [->|Hc]; [by rewrite Ho|]. destruct (Hoth c Hc) as (_ & ? & _). zcase; lia.
Qed.

Lemma offloaded_cons core cdf cur walk st st' ds cs delta :
  delta = Z.min (weight (st core) - cdf) (limit - load_ (st cur)) →
  core ≠ cur → cur ∉ walk → 0 ≤ cur < n → load_ (st cur) < limit → cdf < weight (st core) →
  offloaded core (cdf + delta) walk (share core cur st cdf delta) st' ds cs →
  offloaded core cdf (cur :: walk) st st' ((cdf + delta) :: ds) (cur :: cs).
Proof.
  intros Hdelta Hne Hcur Hcn Hl Hlt Hof. pose proof (offloaded_light _ _ _ _ _ _ _ Hof) as Hli.
  destruct Hof as [O1 O2 [O3 O3'] O4 O5 O6 O7 O8 O9 O10 O11].
  rewrite share_light in Hli, O10 by done.
  destruct (share_at core cur st cdf delta Hne) as (Ecore & Ecur & Eo). set (st1 := share core cur st cdf delta) in *.
  rewrite Ecore in O1, O2, O3, O3', O7, O9. cbn [dist cores weight load_ set_dist] in *.
  assert (Hd : 0 < delta) by lia.
  assert (Hcur' : load_ (st' cur) = load_ (st cur) + delta ∧ st' cur = set_load (st1 cur) (load_ (st' cur))).
  { destruct (O8 cur) as (E & _ & Hn & _); [done|]. rewrite Hn by done. rewrite Ecur. split; [done|].
    rewrite Hn, Ecur in E by done. done. }
  split; try done.
  - by rewrite O1, <- app_assoc.
  - by rewrite O2, <- app_assoc.
  - cbn. by rewrite O4.
  - by apply prefix_cons.
  - constructor; [done|]. constructor; [lia|]. apply StronglySorted_inv in O6 as [_ Hf].
    eapply Forall_impl; [exact Hf|]. intros d Hdd. cbn in Hdd. lia.
  - intros d [->|Hdd]%elem_of_cons; [lia|by apply O7].
  - intros c Hc. destruct (decide (c = cur)) as [->|Hcc].
    + destruct Hcur' as [E1 E2]. rewrite E2, Ecur. cbn. split; [done|]. rewrite E1. split; [lia|]. split; [|lia].
      intros Hx. exfalso. apply Hx. left.
    + destruct (O8 c Hc) as (E1 & E2 & E3 & E4). rewrite Eo in E1, E2, E3 by done. split; [done|]. split; [lia|].
      split; [intros [_ Hx]%not_elem_of_cons; by apply E3|]. intros [?|Hx]%elem_of_cons; [done|by apply E4].
  - destruct (Z.eq_dec delta (weight (st core) - cdf)) as [E|E].
    + left. destruct ds as [|d ds]; [cbn; lia|]. exfalso. apply StronglySorted_inv in O6 as [_ Hf].
      apply Forall_cons in Hf as [Hf _]. specialize (O7 d ltac:(left)). lia.
    + rewrite last_cons. destruct O9 as [O9|O9].
      * left. destruct (last ds); done.
      * right. intros c [->|Hc]%elem_of_cons; [|by apply O9]. destruct Hcur' as [-> _]. lia.
  - cbn [length]. destruct (Z.ltb_spec (load_ (st cur) + delta) limit); [|lia].
    assert (ds = []) as ->; [|cbn; lia]. destruct ds as [|d ds]; [done|]. exfalso.
    apply StronglySorted_inv in O6 as [_ Hf]. apply Forall_cons in Hf as [Hf _]. specialize (O7 d ltac:(left)). lia.
  - rewrite O11, last_cons. unfold st1. rewrite share_load by done. destruct (last ds); cbn; lia.
Qed.

Lemma offload_loop_ok core walk : ∀ load_cdf st,
  0 ≤ core < n → core ∉ walk → NoDup walk → (∀ c, c ∈ walk → 0 ≤ c < n ∧ load_ (st c) < limit) →
  load_cdf ≤ weight (st core) →
  ∃ ds cs, offloaded core load_cdf walk st (offload_loop core limit walk load_cdf st) ds cs.
Proof.
  induction walk as [|cur walk IH]; intros cdf st Hcore Hn Hnd Hw Hle; cbn [offload_loop].
  - exists [], []. case_match; apply offloaded_nil; naive_solver.
  - destruct (Z.ltb_spec cdf (weight (st core))) as [Hlt|Hge].
    2: { exists [], []. apply offloaded_nil; [left; lia|]. intros c Hc. by apply Hw. }
    set (delta := Z.min _ _). apply not_elem_of_cons in Hn as [Hne Hn]. apply NoDup_cons in Hnd as [Hcw Hnd].
    destruct (Hw cur ltac:(left)) as [Hcn Hcl].
    fold (share core cur st cdf delta).
    destruct (share_at core cur st cdf delta Hne) as (Ecore & Ecur & Eo).
    destruct (IH (cdf + delta) (share core cur st cdf delta) Hcore Hn Hnd) as (ds & cs & Hof).
    { intros c Hc. rewrite Eo; [apply Hw; by right|by intros ->|by intros ->]. }
    { rewrite Ecore. cbn. lia. }
    exists ((cdf + delta) :: ds), (cur :: cs).
    exact (offloaded_cons core cdf cur walk st _ ds cs delta eq_refl Hne Hcw Hcn Hcl Hlt Hof).
Qed.

Lemma walk_cores_ok st core :
  0 ≤ core < n → NoDup (walk_cores n st core limit) ∧
  ∀ c, c ∈ walk_cores n st core limit ↔ c ≠ core ∧ 0 ≤ c < n ∧ load_ (st c) < limit.
Proof.
  intros Hc. unfold walk_cores. set (node := core / kNrCorePerNode).
  assert (Hk : 0 < kNrCorePerNode) by done.
  assert (Hnode : ∀ c, c / kNrCorePerNode = node ↔ node * kNrCorePerNode ≤ c < (node + 1) * kNrCorePerNode).
  { intros c. pose proof (Z.div_mod c kNrCorePerNode ltac:(lia)) as E. pose proof (Z.mod_pos_bound c kNrCorePerNode Hk).
    split; [intros <-; nia|]. intros H'. symmetry. apply (Z.div_unique c _ _ (c - kNrCorePerNode * node)); lia. }
  assert (0 ≤ node) by (apply Z.div_pos; lia). split.
  - apply NoDup_app. split_and!; [apply NoDup_filter, NoDup_seqZ| |apply NoDup_filter, NoDup_seqZ].
    intros c [_ Hc1%elem_of_seqZ]%list_elem_of_filter [[Hc2 _] _]%list_elem_of_filter. apply Hc2, Hnode. lia.
  - intros c. rewrite elem_of_app, !list_elem_of_filter, !elem_of_seqZ. specialize (Hnode c). specialize (Hnode) as Hn2.
    pose proof (proj1 (Hnode)) as Hn3. split.
    + intros [[[? ?] ?]|[[Hne ?] ?]]; split_and!; try lia. intros ->. by apply Hne.
    + intros (? & ? & ?). destruct (Z.eq_dec (c / kNrCorePerNode) node) as [E|E]; [left|right; split; [done|lia]].
      specialize (Hn3 E). split; [done|]. lia.
Qed.
End Offload.

(** ** Balancing *)

Section Balance.
Context (n avg : Z) (W : Z → Z) (Havg : 0 ≤ avg) (HW0 : ∀ c, 0 ≤ c < n → 0 ≤ W c).

Definition spread (st : Weights) (c : Z) : Prop :=
  last (dist (st c)) = Some (W c) ∨ ∀ c', 0 ≤ c' < n → avg ≤ load_ (st c').

(** the state of [Balance] when the cores below [k] are distributed *)
Record balancing (k : Z) (st : Weights) (prealloc light0 : Z) : Prop := {
  ba_weight : ∀ c, 0 ≤ c < n → weight (st c) = W c;
  ba_load : ∀ c, 0 ≤ c < n → ¬ (k ≤ c ∧ avg < W c) → load_ (st c) ≤ avg;
  ba_heavy : ∀ c, k ≤ c < n → avg < W c → load_ (st c) = W c;
  ba_cdf : ∀ c, 0 ≤ c < k → cdf_ok n c (st c) ∧ spread st c;
  ba_sum : total_load n st = sum_over (fun c => default 0 (last (dist (st c)))) (seqZ 0 k) + sum_over W (seqZ k (n - k));
  ba_room : prealloc + light n avg st ≤ 2 * k + light0;
}.

(** what a core's step has to leave behind *)
Lemma balancing_step k st st' prealloc light0 ds :
  0 ≤ k < n → balancing k st prealloc light0 →
  (∀ c, c ≠ k → st' c = set_load (st c) (load_ (st' c)) ∧ load_ (st c) ≤ load_ (st' c) ∧
    (load_ (st' c) = load_ (st c) ∨ load_ (st' c) ≤ avg ∧ load_ (st c) < avg)) →
  weight (st' k) = W k → load_ (st' k) ≤ avg → (avg < W k → load_ (st' k) = avg) →
  (W k ≤ avg → load_ (st k) = load_ (st' k)) →
  cdf_ok n k (st' k) → spread st' k → dist (st' k) = ds →
  total_load n st' = total_load n st - W k + default 0 (last ds) →
  light n avg st' + len ds ≤ light n avg st + 2 →
  balancing (k + 1) st' (prealloc + nr_dist (st' k)) light0.
Proof.
  intros Hk [B1 B2 B2' B3 B4 B5] Ho Hw Hl Hl1 Hl2 Hcdf Hsp Hds Hsum Hlight. split.
  - intros c Hc. destruct (decide (c = k)) as [->|Hne]; [done|]. destruct (Ho c Hne) as [-> _]. by apply B1.
  - intros c Hc Hn. destruct (decide (c = k)) as [->|Hne]; [done|]. destruct (Ho c Hne) as (_ & _ & [->|[? _]]); [|done].
    apply B2; [done|]. intros [? ?]. apply Hn. lia.
  - intros c Hc Hh. destruct (Ho c ltac:(lia)) as (_ & _ & [->|[_ ?]]); [apply B2'; lia|].
    specialize (B2' c ltac:(lia) Hh). lia.
  - intros c Hc. destruct (decide (c = k)) as [->|Hne]; [done|]. destruct (B3 c ltac:(lia)) as [Hcd Hs].
    destruct (Ho c Hne) as [E _]. split; [rewrite E; by destruct Hcd|]. unfold spread in *. rewrite E. cbn.
    destruct Hs as [Hs|Hs]; [by left|right]. intros c' Hc'. specialize (Hs c' Hc').
    destruct (decide (c' = k)) as [->|Hne']; [|destruct (Ho c' Hne') as (_ & ? & _); lia].
    destruct (Z.lt_ge_cases avg (W k)) as [Hlt|Hge]; [rewrite Hl1; lia|]. rewrite <- Hl2; lia.
  - rewrite Hsum, B4, seqZ_app, sum_over_app by lia.
    rewrite (seqZ_cons k (n - k)) by lia. cbn [sum_over foldr seqZ fmap seq list_fmap Z.to_nat].
    replace (Z.pred (n - k)) with (n - (k + 1)) by lia. fold (sum_over W (seqZ (k + 1) (n - (k + 1)))).
    rewrite (sum_over_ext (fun c => default 0 (last (dist (st' c)))) (fun c => default 0 (last (dist (st c)))) (seqZ 0 k)).
    + change (seqZ (0 + k) 1) with [0 + k]. rewrite Z.add_0_l. cbn. rewrite Hds.
      replace (Z.succ k) with (k + 1) by lia. unfold sum_over. lia.
    + intros c Hc%elem_of_seqZ. by destruct (Ho c ltac:(lia)) as [-> _].
  - unfold nr_dist. rewrite Hds. lia.
Qed.

Lemma distribute_light k st prealloc light0 :
  0 ≤ k < n → balancing k st prealloc light0 → W k ≤ avg →
  balancing (k + 1) (distribute n avg st k) (prealloc + nr_dist (distribute n avg st k k)) light0.
Proof.
  intros Hk HB HW. pose proof HB as [B1 B2 B2' B3 B4 B5]. unfold distribute. rewrite B1 by done.
  rewrite (proj2 (Z.ltb_ge avg (W k))) by done. set (st' := <[k := _]> st).
  assert (Ek : st' k = set_dist (st k) [W k] [k]) by (unfold st'; by rewrite fn_lookup_insert).
  assert (Eo : ∀ c, c ≠ k → st' c = st c) by (intros c Hc; unfold st'; by rewrite fn_lookup_insert_ne).
  assert (El : ∀ c, load_ (st' c) = load_ (st c)).
  { intros c. destruct (decide (c = k)) as [->|]; [by rewrite Ek|by rewrite Eo]. }
  assert (Hlo : load_ (st k) ≤ avg) by (apply B2; [done|lia]).
  apply (balancing_step k st st' prealloc light0 [W k]); rewrite ?Ek; try done.
  - intros c Hc. rewrite Eo by done. split; [by destruct (st c)|]. split; [lia|by left].
  - cbn. by apply B1.
  - lia.
  - split; cbn; try done; [|apply NoDup_singleton|repeat constructor|].
    + intros c ->%list_elem_of_singleton. lia.
    + intros d ->%list_elem_of_singleton. specialize (HW0 k Hk). rewrite B1; lia.
  - left. by rewrite Ek.
  - unfold total_load. rewrite (sum_over_ext _ (fun c => load_ (st c))) by (intros; apply El). cbn. lia.
  - unfold light. rewrite (sum_over_ext _ (fun c => if load_ (st c) <? avg then 1 else 0)) by (intros; by rewrite El). cbn. lia.
Qed.

Lemma distribute_heavy k st prealloc light0 :
  0 ≤ k < n → balancing k st prealloc light0 → avg < W k →
  balancing (k + 1) (distribute n avg st k) (prealloc + nr_dist (distribute n avg st k k)) light0.
Proof.
  intros Hk HB HW. pose proof HB as [B1 B2 B2' B3 B4 B5]. unfold distribute. rewrite B1 by done.
  rewrite (proj2 (Z.ltb_lt avg (W k))) by done. unfold OffloadCore.
  set (st0 := <[k := _]> st).
  assert (Ek : st0 k = set_load (set_dist (st k) [avg] [k]) avg) by (unfold st0; by rewrite fn_lookup_insert).
  assert (Eo : ∀ c, c ≠ k → st0 c = st c) by (intros c Hc; unfold st0; by rewrite fn_lookup_insert_ne).
  assert (Hlk : load_ (st k) = W k) by (apply B2'; lia).
  destruct (walk_cores_ok n avg st0 k Hk) as [Hnd Hwalk]. set (walk := walk_cores n st0 k avg) in *.
  destruct (offload_loop_ok n avg k walk avg st0) as (ds & cs & [O1 O2 [O3 O3'] O4 O5 O6 O7 O8 O9 O10 O11]);
    [done|intros Hx; apply Hwalk in Hx; naive_solver|done|intros c Hc; apply Hwalk in Hc; naive_solver|rewrite Ek; cbn; rewrite B1; lia|].
  set (st' := offload_loop k avg walk avg st0) in *. rewrite Ek in O1, O2, O3, O3', O7, O9. cbn in O1, O2, O3, O3', O7, O9.
  rewrite B1 in O7, O9, O3 by done.
  assert (Hlast : last (avg :: ds) = Some (default avg (last ds))) by (rewrite last_cons; by destruct (last ds)).
  assert (Hincl : ∀ c, c ∈ cs → c ∈ walk) by (intros c Hc; destruct O5 as [l ->]; apply elem_of_app; by left).
  apply (balancing_step k st st' prealloc light0 (avg :: ds)); try done.
  - intros c Hc. destruct (O8 c Hc) as (E1 & E2 & E3 & E4). rewrite Eo in E1, E2, E3 by done.
    split; [done|]. split; [done|]. destruct (decide (c ∈ walk)) as [Hin|Hout]; [right|left; by apply E3].
    split; [by apply E4|]. apply Hwalk in Hin. rewrite <- (Eo c Hc). lia.
  - lia.
  - lia.
  - split; rewrite ?O1, ?O2, ?O3; cbn; try done; try lia.
    + intros c [->|Hc]%elem_of_cons; [done|]. apply Hincl, Hwalk in Hc. naive_solver.
    + apply NoDup_cons. split; [intros Hc; apply Hincl, Hwalk in Hc; naive_solver|]. destruct O5 as [l El].
      rewrite El in Hnd. by apply NoDup_app in Hnd as [? _].
    + intros d [->|Hd]%elem_of_cons; [lia|]. split; [|by apply O7]. apply StronglySorted_inv in O6 as [_ Hf].
      rewrite Forall_forall in Hf. specialize (Hf d Hd). lia.
  - unfold spread. rewrite O1, Hlast. destruct O9 as [->|Hall]; [by left|right].
    intros c Hc. destruct (decide (c = k)) as [->|Hne]; [lia|].
    destruct (decide (c ∈ walk)) as [Hin|Hout]; [rewrite Hall by done; lia|].
    destruct (O8 c Hne) as (_ & E2 & _). destruct (Z.lt_ge_cases (load_ (st0 c)) avg); [|lia].
    exfalso. by apply Hout, Hwalk.
  - rewrite O11, Hlast. cbn [default]. unfold total_load.
    rewrite (sum_over_update (fun c => load_ (st c)) (fun c => load_ (st0 c)) _ k).
    + rewrite Ek, Hlk. cbn. lia.
    + apply NoDup_seqZ.
    + apply elem_of_seqZ. lia.
    + intros c _ Hc. by rewrite Eo.
  - cbn [length]. etrans; [|apply Z.add_le_mono_r; eapply Z.eq_le_incl].
    2: { unfold light. apply (sum_over_ext (fun c => if load_ (st0 c) <? avg then 1 else 0)). intros c _.
         destruct (decide (c = k)) as [->|]; [|by rewrite Eo]. rewrite Ek, Hlk. cbn. zcase; lia. }
    fold (light n avg st0). lia.
Qed.

Lemma light_bound st : 0 ≤ n → 0 ≤ light n avg st ≤ n.
Proof.
  intros Hn. split; [apply sum_over_nonneg; intros; case_match; lia|].
  etrans; [apply (sum_over_le _ (fun _ => 1)); intros; case_match; lia|]. rewrite sum_over_const, length_seqZ. lia.
Qed.

Lemma distribute_loop_ok m : ∀ k st prealloc,
  0 ≤ k → k + Z.of_nat m = n → n ≤ 64 → balancing k st prealloc n →
  ∃ st' prealloc', distribute_loop n avg (seqZ k (Z.of_nat m)) st prealloc = Ok st' ∧ balancing n st' prealloc' n.
Proof.
  induction m as [|m IH]; intros k st prealloc Hk Hm Hn HB.
  { exists st, prealloc. split; [done|]. replace k with n in HB by lia. done. }
  rewrite seqZ_cons by lia. cbn [distribute_loop].
  assert (HB' : balancing (k + 1) (distribute n avg st k) (prealloc + nr_dist (distribute n avg st k k)) n).
  { destruct (Z.lt_ge_cases avg (W k)); [apply distribute_heavy; [lia|done|done]|apply distribute_light; [lia|done|done]]. }
  set (st1 := distribute n avg st k) in *.
  pose proof (ba_room _ _ _ _ HB'). pose proof (light_bound st1 ltac:(lia)).
  rewrite (proj2 (Z.ltb_ge kPrealloc _)) by (unfold kPrealloc; lia). cbn [abort_if mbind result_bind].
  replace (Z.pred (Z.of_nat (S m))) with (Z.of_nat m) by lia. apply IH; [lia|lia|done|done].
Qed.
End Balance.

Lemma balancing_start n avg st W :
  (∀ c, 0 ≤ c < n → weight (st c) = W c ∧ load_ (st c) = W c) → 0 ≤ n → balancing n avg W 0 st 0 n.
Proof.
  intros H Hn. split.
  - intros c Hc. by apply H.
  - intros c Hc Hl. destruct (H c Hc) as [_ ->]. lia.
  - intros c Hc _. by apply H.
  - intros c Hc. lia.
  - cbn [seqZ Z.to_nat seq fmap list_fmap sum_over foldr]. rewrite Z.sub_0_r. unfold total_load.
    rewrite (sum_over_ext _ W); [done|]. intros c Hc%elem_of_seqZ. apply H. lia.
  - pose proof (light_bound n avg st Hn). lia.
Qed.

(** the distribution is followed: [upper_bound] finds the share of the seed *)
Lemma upper_bound_ok l x : ∀ y, last l = Some y → x < y →
  0 ≤ upper_bound l x < len l ∧ x < l.[upper_bound l x] ∧ (0 < upper_bound l x → l.[upper_bound l x - 1] ≤ x).
Proof.
  induction l as [|a l IH]; intros y Hy Hx; [done|]. cbn [upper_bound]. destruct (Z.ltb_spec x a) as [Hlt|Hge].
  { split_and!; [lia|cbn [length]; lia|done|lia]. }
  assert (Hl : last l = Some y).
  { destruct l as [|b l]; [|done]. injection Hy as ->. lia. }
  destruct (IH y Hl Hx) as (H1 & H2 & H3). set (u := upper_bound l x) in *.
  assert (Hat : ∀ i, 0 ≤ i → (a :: l).[1 + i] = l.[i]).
  { intros i Hi. unfold at_. by replace (Z.to_nat (1 + i)) with (S (Z.to_nat i)) by lia. }
  split; [cbn [length]; lia|]. split; [rewrite Hat; lia|]. intros _. replace (1 + u - 1) with u by lia.
  destruct (Z.eq_dec u 0) as [->|]; [done|]. replace u with (1 + (u - 1)) by lia. rewrite Hat by lia. apply H3. lia.
Qed.

Lemma last_at (l : list Z) : l ≠ [] → last l = Some l.[len l - 1].
Proof.
  intros Hn. rewrite last_lookup. destruct l as [|a l]; [done|].
  rewrite <- (lookup_at _ (len (a :: l) - 1)) by (cbn [length]; lia). f_equal. cbn [length]. lia.
Qed.

Lemma GetScheduleCore_ok n st core rnd :
  cdf_ok n core (st core) →
  let w := st core in
  ∃ i, GetScheduleCore st core rnd = Ok (cores w).[i] ∧ 0 ≤ i < nr_dist w ∧ 0 ≤ (cores w).[i] < n ∧
    (1 < nr_dist w → let seed := rnd mod (dist w).[nr_dist w - 1] in
      seed < (dist w).[i] ∧ (0 < i → (dist w).[i - 1] ≤ seed)).
Proof.
  intros [C1 C2 C3 C4 C5 C6] w. fold w in C1, C2, C3, C4, C5, C6. unfold GetScheduleCore, nr_dist. fold w.
  assert (Hne : dist w ≠ []) by (intros E; rewrite E in C1; destruct (cores w); done).
  assert (Hlen : 0 < len (dist w)) by (destruct (dist w); [done|cbn [length]; lia]).
  assert (Hcore : ∀ i, 0 ≤ i < len (dist w) → 0 ≤ (cores w).[i] < n).
  { intros i Hi. apply C3. apply (list_elem_of_lookup_2 _ (Z.to_nat i)), lookup_at. lia. }
  rewrite (load_in _ (len (dist w) - 1)) by lia. cbn [mbind result_bind].
  rewrite (proj2 (Z.eqb_neq (len (dist w)) 0)) by lia.
  destruct (Z.eqb_spec (len (dist w)) 1) as [E1|E1].
  { exists 0. rewrite (load_in _ 0) by lia. split; [done|]. split; [lia|]. split; [apply Hcore; lia|]. lia. }
  assert (Hpos : 0 < (dist w).[len (dist w) - 1]).
  { pose proof (last_at (dist w) Hne) as Hl. destruct (dist w) as [|d0 [|d1 l]]; [done|done|].
    set (y := at_ _ _) in *. apply StronglySorted_inv in C5 as [_ Hf]. rewrite Forall_forall in Hf.
    specialize (C6 d0 ltac:(left)). specialize (Hf y (last_Some_elem_of (d1 :: l) _ Hl)). lia. }
  rewrite (proj2 (Z.eqb_neq (dist w).[len (dist w) - 1] 0)) by lia.
  destruct (upper_bound_ok (dist w) (rnd mod (dist w).[len (dist w) - 1]) _ (last_at _ Hne)) as (H1 & H2 & H3);
    [by apply Z.mod_pos_bound|].
  set (i := upper_bound _ _) in *. exists i. rewrite (load_in _ i) by lia.
  split; [done|]. split; [done|]. split; [by apply Hcore|]. done.
Qed.

(** ** Properties *)

(** [Balance] on up to 64 cores never exhausts the preallocated entries
    and spreads the planned load: every core ends with at most the average
    load; its distribution is a strictly increasing cumulative distribution
    over distinct existing cores that starts with itself; all of its weight is
    handed out, unless every core already carries the full average; and the
    loads are exactly what the distributions hand out. *)
Theorem balance_spreads n st :
  0 < n ≤ 64 → (∀ c, 0 ≤ c < n → 0 ≤ weight (st c) + planned n st c) →
  let W c := weight (st c) + planned n st c in
  let avg := sum_over W (seqZ 0 n) / n in
  ∃ st', Balance n st = Ok st' ∧
    (∀ c, 0 ≤ c < n → weight (st' c) = W c ∧ load_ (st' c) ≤ avg ∧ cdf_ok n c (st' c) ∧
      (last (dist (st' c)) = Some (W c) ∨ ∀ c', 0 ≤ c' < n → load_ (st' c') = avg)) ∧
    total_load n st' = sum_over (fun c => default 0 (last (dist (st' c)))) (seqZ 0 n).
Proof.
  intros Hn Hpos W avg. unfold Balance.
  destruct (collect_fold n (seqZ 0 n) st (NoDup_seqZ 0 n)) as (HC & _ & _). set (st1 := foldl _ _ _) in *.
  assert (HW : total_weight n st1 = sum_over W (seqZ 0 n)).
  { apply sum_over_ext. intros c Hc. by destruct (HC c Hc) as [-> _]. }
  assert (Hsum : 0 ≤ sum_over W (seqZ 0 n)).
  { apply sum_over_nonneg. intros c Hc%elem_of_seqZ. apply Hpos. lia. }
  rewrite HW, Z.quot_div_nonneg by lia. fold avg. assert (Havg : 0 ≤ avg) by (apply Z.div_pos; lia).
  destruct (distribute_loop_ok n avg W Havg Hpos (Z.to_nat n) 0 st1 0) as (st' & p & Hrun & [B1 B2 _ B3 B4 _]);
    [lia|lia|lia| |].
  { apply balancing_start; [|lia]. intros c Hc. destruct (HC c) as [E1 E2]; [apply elem_of_seqZ; lia|].
    rewrite E2, E1. done. }
  rewrite Z2Nat.id in Hrun by lia. exists st'. split; [done|].
  rewrite Z.sub_diag in B4. cbn [seqZ Z.to_nat seq fmap list_fmap] in B4. split.
  - intros c Hc. split; [by apply B1|]. destruct (B3 c Hc) as [Hcd Hs].
    assert (Hload : ∀ c, 0 ≤ c < n → load_ (st' c) ≤ avg) by (intros c' Hc'; apply B2; [done|lia]).
    split; [by apply Hload|]. split; [done|]. destruct Hs as [Hs|Hs]; [by left|right].
    intros c' Hc'. specialize (Hs c' Hc'). specialize (Hload c' Hc'). lia.
  - rewrite B4. change (seqZ n 0) with ([] : list Z). cbn. lia.
Qed.

(** two cores, the first with all the load *)
Definition sample_weights : Weights := fun c =>
  mkWD 0 [] [] 0 (fun d => if (c =? 1) && (d =? 0) then 10 else 0).

Lemma balance_spreads_witness :
  ∃ st', Balance 2 sample_weights = Ok st' ∧ (dist (st' 0) = [5; 10] ∧ cores (st' 0) = [0; 1]) ∧ load_ (st' 1) ≤ 5.
Proof.
  destruct (balance_spreads 2 sample_weights) as (st' & HB & Hc & _); [lia| |].
  { intros c Hr. assert (c = 0 ∨ c = 1) as [->| ->] by lia; vm_compute; done. }
  exists st'. split; [done|]. destruct (Hc 1 ltac:(lia)) as (_ & Hl & _). split; [|exact Hl].
  clear Hc Hl. vm_compute in HB. injection HB as <-. split; reflexivity.
Defined.

(** After balancing, [GetScheduleCore] draws the core of a piece from the
    cumulative distribution: the core returned exists and is the one whose
    share contains the random seed. *)
Theorem schedule_follows_cdf n st core rnd :
  cdf_ok n core (st core) →
  let w := st core in
  ∃ i, GetScheduleCore st core rnd = Ok (cores w).[i] ∧ 0 ≤ i < nr_dist w ∧ 0 ≤ (cores w).[i] < n ∧
    (1 < nr_dist w → let seed := rnd mod (dist w).[nr_dist w - 1] in
      seed < (dist w).[i] ∧ (0 < i → (dist w).[i - 1] ≤ seed)).
Proof. apply GetScheduleCore_ok. Qed.

Definition sample_balanced : Weights := fun _ => mkWD 10 [5; 10] [0; 1] 5 (fun _ => 0).
Lemma sample_cdf_ok : cdf_ok 2 0 (sample_balanced 0).
Proof.
  split; cbn; try done.
  - intros c Hc. set_unfold in Hc. lia.
  - apply (bool_decide_unpack _). by vm_compute.
  - repeat constructor; lia.
  - intros d Hd. set_unfold in Hd. lia.
Qed.

Lemma schedule_follows_cdf_witness :
  GetScheduleCore sample_balanced 0 17 = Ok 1 ∧
  ∃ i, GetScheduleCore sample_balanced 0 17 = Ok (cores (sample_balanced 0)).[i] ∧ 0 ≤ i < 2.
Proof.
  split; [reflexivity|]. destruct (schedule_follows_cdf 2 sample_balanced 0 17 sample_cdf_ok) as (i & Hi & Hr & _).
  exists i. split; [exact Hi|exact Hr].
Defined.

(** [SelectRow] never aborts and never shifts by the word size: it returns
    the row of the set bit whose rank is the random number modulo the number
    of set bits, so every set bit can be selected and only set bits are. *)
Theorem select_row_uniform bitmap rnd :
  0 ≤ bitmap < 2 ^ 64 → 0 ≤ rnd →
  SelectRow bitmap rnd = Ok (bits bitmap !! Z.to_nat (rnd mod popcount bitmap)).
Proof. apply SelectRow_ok. Qed.

Lemma select_row_uniform_witness : SelectRow 0x8000000000000012 5 = Ok (Some 63).
Proof. rewrite select_row_uniform; [reflexivity|lia|lia]. Defined.

(** Between [Reset] and the next [Balance] a core has no distribution, and
    [GetScheduleCore] reads in front of the array before it looks at
    [nr_dist]. *)
Theorem schedule_after_reset_faults n st core rnd :
  0 ≤ core < n → GetScheduleCore (Reset n st) core rnd = Err OutOfRange.
Proof.
  intros Hc. unfold GetScheduleCore, Reset. rewrite (proj2 (Z.leb_le 0 core)), (proj2 (Z.ltb_lt core n)) by lia. done.
Qed.

Lemma schedule_after_reset_faults_witness : GetScheduleCore (Reset 2 sample_balanced) 1 0 = Err OutOfRange.
Proof. apply schedule_after_reset_faults. lia. Defined.
