(* ===== verification/ContentionReset.v ===== *)
(** The end of an epoch in the contention manager (contention_manager.cc
    [ContentionManager::Reset]): the rows give up their buffers, the contended
    ones are assigned to cores, and every core gets a fresh buffer head. *)

From S2P Require Import Prelude LowerBound Region Sync GarbageSlab VHandle VHandleFacts VHandleAppend VersionBuffer ContentionManager BinPack Bits Locality.

(** ** Definitions *)

(** conversion to [int8_t] *)
Definition i8 (z : Z) : Z := (z + 2 ^ 7) mod 2 ^ 8 - 2 ^ 7.

Record SplitOptions := mkOpts {
  kOnDemandSplitting : bool;
  kBinpackSplitting : bool;
  g_splitting_threshold : Z;     (* long *)
}.

Section Reset.
Context (opts : SplitOptions) (nr_threads core_id : Z).

(** [row->size - row->nr_updated() > g_splitting_threshold] *)
Definition contended (h : VHandle) : bool :=
  g_splitting_threshold opts <? u32 (size h - u32 (latest_version h + 1)).

(** the rows of all heads, in the order of the loops *)
Definition buffered_rows (cm : ContentionManager) : list Z :=
  mjoin ((fun core => mjoin (backrefs <$> buffer_heads cm core)) <$> seqZ 0 nr_threads).

(** the first loop: every row gives up its buffer; [sum] is [unsigned int] *)
Fixpoint reset_rows (l : list Z) (rows : Z → VHandle) (sum : Z) : (Z → VHandle) * Z :=
  match l with
  | [] => (rows, sum)
  | row :: l =>
      let rows := <[row := set_buf_pos (rows row) (-1)]> rows in
      if kOnDemandSplitting opts && contended (rows row)
      then reset_rows l rows (u32 (sum + nr_ondsplt (rows row)))
      else reset_rows l rows sum
  end.

(** [g_nr_threads * (s + row->nr_ondsplt / 2) / sum], stored in an [int8_t] *)
Definition affinity (s w sum : Z) : Z := i8 (u64 (nr_threads * u32 (s + Z.quot w 2)) / sum).

(** the second loop, for [sum != 0] *)
Fixpoint assign_rows (l : list Z) (sum s : Z) (rows : Z → VHandle) (lm : Weights) (ks : list (option Z))
    : result ((Z → VHandle) * Weights * list (option Z)) :=
  match l with
  | [] => mret (rows, lm, ks)
  | row :: l =>
      if negb (contended (rows row)) then assign_rows l sum s rows lm ks else
      let w := nr_ondsplt (rows row) in
      let aff := affinity s w sum in
      let rows := <[row := set_cont_affinity (rows row) aff]> rows in
      let s := u32 (s + w) in
      if kBinpackSplitting opts then assign_rows l sum s rows lm (ks ++ [Some row]) else
      lm ← PlanLoad nr_threads lm core_id aff w;
      assign_rows l sum s rows lm ks
  end.

(** the heads go back to their pools *)
Definition free_heads (cm : ContentionManager) : Z → HeadAllocation :=
  fun zone =>
    let al := g_alloc cm zone in
    let freed := sum_over (fun core => if core / kNrCorePerNode =? zone then len (buffer_heads cm core) else 0)
                   (seqZ 0 nr_threads) in
    mkAlloc (al_base_pos al)
      (if zone <? nr_threads / kNrCorePerNode then 0 else al_pos al)
      (al_free al + freed).

(** a fresh head for every core *)
Fixpoint new_heads (l : list Z) (cm : ContentionManager) : result ContentionManager :=
  match l with
  | [] => mret cm
  | core :: l =>
      '(cm, hd) ← AllocHead cm core;
      new_heads l (set_heads cm core [hd])
  end.

(** [ContentionManager::Reset]: the manager, the rows, the contention locality
    manager and [est_split] *)
Definition ContentionManager_Reset (cm : ContentionManager) (rows : Z → VHandle) (lm : Weights)
    : result (ContentionManager * (Z → VHandle) * Weights * Z) :=
  let l := buffered_rows cm in
  let '(rows, sum) := reset_rows l rows 0 in
  let sum := if sum <? nr_threads then 0 else sum in
  '(rows, lm, ks) ← (if sum =? 0 then mret (rows, lm, []) else assign_rows l sum 0 rows lm []);
  rows ← (if kBinpackSplitting opts && (0 <? sum) then
            aff ← pack_rows (fun r => nr_ondsplt (rows r)) nr_threads sum ks (fun r => cont_affinity (rows r));
            mret (fun r => if bool_decide (Some r ∈ ks) then set_cont_affinity (rows r) (i8 (aff r)) else rows r)
          else mret rows);
  cm ← new_heads (seqZ 0 nr_threads) (mkCM (buffer_heads cm) (preallocs cm) (free_heads cm));
  mret (cm, rows, lm, sum).

(** ** The loops *)

Definition released (h : VHandle) : VHandle := set_buf_pos h (-1).

Lemma contended_released h : contended (released h) = contended h.
Proof. by destruct h. Qed.

(** the weight of the contended rows of a list *)
Definition split_weight (rows : Z → VHandle) (l : list Z) : Z :=
  sum_over (fun r => if contended (rows r) then nr_ondsplt (rows r) else 0) l.

Lemma split_weight_cons rows x l :
  split_weight rows (x :: l) = (if contended (rows x) then nr_ondsplt (rows x) else 0) + split_weight rows l.
Proof. done. Qed.

Lemma reset_rows_ok l : ∀ rows sum,
  NoDup l → (∀ r, 0 ≤ nr_ondsplt (rows r)) → 0 ≤ sum → sum + split_weight rows l < 2 ^ 32 →
  ∃ rows', reset_rows l rows sum = (rows', if kOnDemandSplitting opts then sum + split_weight rows l else sum) ∧
    ∀ r, rows' r = if decide (r ∈ l) then released (rows r) else rows r.
Proof.
  induction l as [|x l IH]; intros rows sum Hnd Hw Hs Hb; cbn [reset_rows].
  { exists rows. split; [cbn; by rewrite Z.add_0_r; destruct (kOnDemandSplitting opts)|].
    intros r. by rewrite decide_False by apply not_elem_of_nil. }
  apply NoDup_cons in Hnd as [Hx Hnd]. fold (released (rows x)). set (rows1 := <[x := released (rows x)]> rows).
  assert (E1 : rows1 x = released (rows x)) by (unfold rows1; by rewrite fn_lookup_insert).
  assert (Eo : ∀ r, r ≠ x → rows1 r = rows r) by (intros r Hr; unfold rows1; by rewrite fn_lookup_insert_ne).
  assert (Hsw : split_weight rows1 l = split_weight rows l).
  { apply sum_over_ext. intros r Hr. rewrite Eo; [done|by intros ->]. }
  assert (Hw1 : ∀ r, 0 ≤ nr_ondsplt (rows1 r)).
  { intros r. destruct (decide (r = x)) as [->|]; [rewrite E1; apply Hw|rewrite Eo by done; apply Hw]. }
  assert (Hsl : 0 ≤ split_weight rows l) by (apply sum_over_nonneg; intros r _; destruct (contended _); [apply Hw|done]).
  rewrite E1, contended_released. change (nr_ondsplt (released (rows x))) with (nr_ondsplt (rows x)).
  rewrite split_weight_cons in Hb |- *.
  specialize (Hw x) as Hwx.
  assert (Hfin : ∀ r rows', (∀ r, rows' r = if decide (r ∈ l) then released (rows1 r) else rows1 r) →
    rows' r = if decide (r ∈ x :: l) then released (rows r) else rows r).
  { intros r rows' ->. destruct (decide (r = x)) as [->|Hne].
    - rewrite decide_False, decide_True by (done || left). done.
    - rewrite Eo by done. apply decide_ext. rewrite elem_of_cons. naive_solver. }
  destruct (kOnDemandSplitting opts) eqn:Eopt; cbn [andb].
  - destruct (contended (rows x)).
    + rewrite u32_id by lia. destruct (IH rows1 (sum + nr_ondsplt (rows x)) Hnd Hw1) as (rows' & -> & Hr); [lia|lia|].
      exists rows'. split; [f_equal; lia|]. intros r. by apply Hfin.
    + destruct (IH rows1 sum Hnd Hw1) as (rows' & -> & Hr); [lia|lia|].
      exists rows'. split; [f_equal; lia|]. intros r. by apply Hfin.
  - destruct (IH rows1 sum Hnd Hw1) as (rows' & -> & Hr); [lia|destruct (contended (rows x)); lia|].
    exists rows'. split; [done|]. intros r. by apply Hfin.
Qed.

Lemma affinity_range s w sum :
  0 < nr_threads ≤ 64 → 0 ≤ s → 0 < w → s + w ≤ sum → sum < 2 ^ 31 → 0 ≤ affinity s w sum < nr_threads.
Proof.
  intros Hn Hs Hw Hb Hsum. unfold affinity. assert (0 ≤ Z.quot w 2 < w) by (rewrite Z.quot_div_nonneg by lia; split;
    [apply Z.div_pos; lia|apply Z.div_lt; lia]).
  rewrite u32_id by lia. rewrite u64_id by nia.
  assert (Hq : 0 ≤ nr_threads * (s + Z.quot w 2) / sum < nr_threads).
  { split; [apply Z.div_pos; nia|]. apply Z.div_lt_upper_bound; nia. }
  unfold i8. rewrite Z.mod_small; lia.
Qed.

Lemma assign_rows_ok l sum : ∀ s rows lm ks,
  0 < nr_threads ≤ 64 → 0 ≤ s → s + split_weight rows l ≤ sum → sum < 2 ^ 31 → NoDup l →
  (∀ r, r ∈ l → contended (rows r) = true → 0 < nr_ondsplt (rows r)) →
  ∃ rows' lm', assign_rows l sum s rows lm ks =
      Ok (rows', lm', if kBinpackSplitting opts then ks ++ (Some <$> filter (fun r => contended (rows r)) l) else ks) ∧
    (∀ r, rows' r = set_cont_affinity (rows r) (cont_affinity (rows' r))) ∧
    (∀ r, r ∈ l → contended (rows r) = true → 0 ≤ cont_affinity (rows' r) < nr_threads) ∧
    (∀ r, r ∉ l → rows' r = rows r).
Proof.
  intros s rows lm ks Hn. revert s rows lm ks. induction l as [|x l IH]; intros s rows lm ks Hs Hb Hsum Hnd Hpos; cbn [assign_rows].
  { exists rows, lm. split; [cbn; by rewrite app_nil_r; destruct (kBinpackSplitting opts)|].
    split; [intros r; by destruct (rows r)|]. split; [|done]. intros r []%elem_of_nil. }
  apply NoDup_cons in Hnd as [Hx Hnd]. rewrite split_weight_cons in Hb.
  assert (Hsl : 0 ≤ split_weight rows l).
  { apply sum_over_nonneg. intros r Hr. destruct (contended (rows r)) eqn:E; [|done].
    specialize (Hpos r ltac:(by right) E). lia. }
  destruct (contended (rows x)) eqn:Ex; cbn [negb].
  - specialize (Hpos x ltac:(left) Ex) as Hw. set (w := nr_ondsplt (rows x)) in *. set (aff := affinity s w sum).
    assert (Haff : 0 ≤ aff < nr_threads) by (apply affinity_range; lia).
    set (rows1 := <[x := _]> rows).
    assert (E1 : rows1 x = set_cont_affinity (rows x) aff) by (unfold rows1; by rewrite fn_lookup_insert).
    assert (Eo : ∀ r, r ≠ x → rows1 r = rows r) by (intros r Hr; unfold rows1; by rewrite fn_lookup_insert_ne).
    assert (El : ∀ r, r ∈ l → rows1 r = rows r) by (intros r Hr; apply Eo; by intros ->).
    assert (Hsw : split_weight rows1 l = split_weight rows l) by (apply sum_over_ext; intros r Hr; by rewrite El).
    assert (Hfl : filter (fun r => contended (rows1 r)) l = filter (fun r => contended (rows r)) l).
    { apply filter_ext_in. intros r Hr. by rewrite El. }
    assert (Hfin : ∀ rows', (∀ r, rows' r = set_cont_affinity (rows1 r) (cont_affinity (rows' r))) →
      (∀ r, r ∈ l → contended (rows1 r) = true → 0 ≤ cont_affinity (rows' r) < nr_threads) →
      (∀ r, r ∉ l → rows' r = rows1 r) →
      (∀ r, rows' r = set_cont_affinity (rows r) (cont_affinity (rows' r))) ∧
      (∀ r, r ∈ x :: l → contended (rows r) = true → 0 ≤ cont_affinity (rows' r) < nr_threads) ∧
      (∀ r, r ∉ x :: l → rows' r = rows r)).
    { intros rows' H1 H2 H3. split_and!.
      - intros r. destruct (decide (r = x)) as [->|Hne]; [by rewrite H3, E1 by done|]. rewrite H1 at 1. by rewrite Eo.
      - intros r [->|Hr]%elem_of_cons Hc; [rewrite H3, E1 by done; exact Haff|]. apply H2; [done|]. by rewrite El.
      - intros r [Hne Hr]%not_elem_of_cons. by rewrite H3, Eo. }
    assert (Hp1 : ∀ r, r ∈ l → contended (rows1 r) = true → 0 < nr_ondsplt (rows1 r)).
    { intros r Hr. rewrite El by done. apply Hpos. by right. }
    rewrite u32_id by lia. rewrite filter_cons_True by (by rewrite Ex).
    destruct (kBinpackSplitting opts) eqn:Ebp.
    + destruct (IH (s + w) rows1 lm (ks ++ [Some x])) as (rows' & lm' & -> & H1 & H2 & H3); [lia|lia|done|done|done|].
      exists rows', lm'. split; [by rewrite Hfl, <- app_assoc|]. by apply Hfin.
    + unfold PlanLoad. rewrite (proj2 (Z.leb_le 0 aff)), (proj2 (Z.ltb_lt aff nr_threads)) by lia.
      cbn [andb mbind result_bind mret result_ret]. set (lm1 := <[core_id := _]> lm).
      destruct (IH (s + w) rows1 lm1 ks) as (rows' & lm' & -> & H1 & H2 & H3); [lia|lia|done|done|done|].
      exists rows', lm'. split; [done|]. by apply Hfin.
  - destruct (IH s rows lm ks) as (rows' & lm' & -> & H1 & H2 & H3); [lia|lia|done|done|intros r Hr; apply Hpos; by right|].
    exists rows', lm'. rewrite filter_cons_False by (rewrite Ex; intros []). split; [done|]. split; [done|]. split.
    + intros r [->|Hr]%elem_of_cons Hc; [congruence|by apply H2].
    + intros r [_ Hr]%not_elem_of_cons. by apply H3.
Qed.

(** ** The fresh heads *)

(** what is left to allocate in the zone of each core of [l] *)
Definition enough (al : Z → HeadAllocation) (l : list Z) : Prop :=
  ∀ zone, sum_over (fun core => if core / kNrCorePerNode =? zone then 1 else 0) l ≤ al_free (al zone).

Definition fresh_head (core base : Z) : VersionBufferHead := mkHead base 0 core [].

Lemma new_heads_ok l : ∀ cm,
  NoDup l → enough (g_alloc cm) l →
  ∃ cm', new_heads l cm = Ok cm' ∧ preallocs cm' = preallocs cm ∧
    (∀ core, core ∉ l → buffer_heads cm' core = buffer_heads cm core) ∧
    (∀ l1 core l2, l = l1 ++ core :: l2 →
      buffer_heads cm' core = [fresh_head core (al_base_pos (g_alloc cm (core / kNrCorePerNode)) +
        (al_pos (g_alloc cm (core / kNrCorePerNode)) +
         kMaxPos * sum_over (fun c => if c / kNrCorePerNode =? core / kNrCorePerNode then 1 else 0) l1))]).
Proof.
  induction l as [|x l IH]; intros cm Hnd Hen; cbn [new_heads].
  { exists cm. split; [done|]. split; [done|]. split; [done|]. intros [|??] ?? E; done. }
  apply NoDup_cons in Hnd as [Hx Hnd]. set (z := x / kNrCorePerNode).
  assert (Hfree : 0 < al_free (g_alloc cm z)).
  { specialize (Hen z). cbn [sum_over foldr] in Hen. fold z in Hen. rewrite Z.eqb_refl in Hen.
    assert (0 ≤ sum_over (fun core => if core / kNrCorePerNode =? z then 1 else 0) l).
    { apply sum_over_nonneg. intros c _. destruct (_ =? _); lia. }
    unfold sum_over in *. lia. }
  unfold AllocHead. fold z. rewrite (proj2 (Z.leb_gt (al_free (g_alloc cm z)) 0)) by done.
  cbn [mbind result_bind mret result_ret]. set (cm1 := set_heads _ x _).
  assert (Eg : g_alloc cm1 z = mkAlloc (al_base_pos (g_alloc cm z)) (al_pos (g_alloc cm z) + kMaxPos) (al_free (g_alloc cm z) - 1))
    by (cbn; by rewrite fn_lookup_insert).
  assert (Ego : ∀ z', z' ≠ z → g_alloc cm1 z' = g_alloc cm z') by (intros z' Hz; cbn; by rewrite fn_lookup_insert_ne).
  destruct (IH cm1 Hnd) as (cm' & -> & Hp & Hout & Hin).
  { intros z'. specialize (Hen z'). cbn [sum_over foldr] in Hen. fold z in Hen.
    destruct (Z.eqb_spec z z') as [<-|Hne]; [rewrite Eg; cbn; unfold sum_over; lia|].
    rewrite Ego by done. unfold sum_over. lia. }
  exists cm'. split; [done|]. split; [done|]. split.
  - intros core [Hne Hc]%not_elem_of_cons. rewrite Hout by done. cbn. by rewrite fn_lookup_insert_ne.
  - intros l1 core l2 E. destruct l1 as [|y l1]; injection E as -> E.
    + rewrite Hout by done. cbn. rewrite fn_lookup_insert. fold z. unfold fresh_head. do 2 f_equal. lia.
    + rewrite (Hin l1 core l2 E). do 2 f_equal. cbn [sum_over foldr].
      fold (sum_over (fun c => if c / kNrCorePerNode =? core / kNrCorePerNode then 1 else 0) l1).
      destruct (Z.eqb_spec z (core / kNrCorePerNode)) as [<-|Hne].
      * rewrite Eg. cbn [al_base_pos al_pos]. fold z. rewrite Z.eqb_refl. lia.
      * rewrite Ego by done. fold z. rewrite (proj2 (Z.eqb_neq z (core / kNrCorePerNode))) by done. lia.
Qed.

(** what a reset does to a row *)
Definition reset_row (h h' : VHandle) : Prop :=
  h' = set_cont_affinity (released h) (cont_affinity h').

Lemma released_weight h : nr_ondsplt (released h) = nr_ondsplt h.
Proof. done. Qed.

(** the number of cores of the own node that come before *)
Lemma zone_rank core :
  0 ≤ core → sum_over (fun c => if c / kNrCorePerNode =? core / kNrCorePerNode then 1 else 0) (seqZ 0 core) = core mod kNrCorePerNode.
Proof.
  intros Hc. set (K := kNrCorePerNode). assert (HK : 0 < K) by done.
  pose proof (Z.div_mod core K ltac:(lia)) as E. pose proof (Z.mod_pos_bound core K HK) as Hm.
  set (q := core / K) in *. assert (0 ≤ q) by (apply Z.div_pos; lia).
  replace (seqZ 0 core) with (seqZ 0 (K * q) ++ seqZ (K * q) (core mod K)).
  2: { rewrite <- (Z.add_0_l (K * q)) at 2. rewrite <- seqZ_app by nia. f_equal. lia. }
  rewrite sum_over_app, (sum_over_ext _ (fun _ => 0) (seqZ 0 (K * q))), (sum_over_ext _ (fun _ => 1) (seqZ (K * q) _)).
  - rewrite !sum_over_const, !length_seqZ. lia.
  - intros c Hc'%elem_of_seqZ. rewrite (proj2 (Z.eqb_eq (c / K) q)); [done|]. symmetry.
    apply (Z.div_unique c K q (c - K * q)); lia.
  - intros c Hc'%elem_of_seqZ. rewrite (proj2 (Z.eqb_neq (c / K) q)); [done|].
    assert (c / K < q); [|lia]. apply Z.div_lt_upper_bound; lia.
Qed.

(** the estimate [Reset] arrives at *)
Definition estimate (rows : Z → VHandle) (l : list Z) : Z :=
  let sum := if kOnDemandSplitting opts then split_weight rows l else 0 in
  if sum <? nr_threads then 0 else sum.

Lemma rows_of_some l : rows_of (Some <$> l) = l.
Proof. unfold rows_of. induction l as [|x l IH]; cbn; [done|]. by rewrite IH. Qed.

(** the affinities after [assign_rows] and, where it is on, the binpacking *)
Lemma reset_affinities_ok l rows rows0 lm est :
  0 < nr_threads ≤ 64 → NoDup l → (∀ r, 0 ≤ nr_ondsplt (rows r) < 2 ^ 31) →
  (∀ r, r ∈ l → contended (rows r) = true → 0 < nr_ondsplt (rows r)) → split_weight rows l < 2 ^ 31 →
  est = estimate rows l → (∀ r, rows0 r = if decide (r ∈ l) then released (rows r) else rows r) →
  ∃ rows1 lm' ks rows',
    (if est =? 0 then mret (rows0, lm, []) else assign_rows l est 0 rows0 lm []) = Ok (rows1, lm', ks) ∧
    (if kBinpackSplitting opts && (0 <? est) then
       aff ← pack_rows (fun r => nr_ondsplt (rows1 r)) nr_threads est ks (fun r => cont_affinity (rows1 r));
       mret (fun r => if bool_decide (Some r ∈ ks) then set_cont_affinity (rows1 r) (i8 (aff r)) else rows1 r)
     else mret rows1) = Ok rows' ∧
    (∀ r, r ∈ l → reset_row (rows r) (rows' r)) ∧ (∀ r, r ∉ l → rows' r = rows r) ∧
    (est ≠ 0 → ∀ r, r ∈ l → contended (rows r) = true → 0 ≤ cont_affinity (rows' r) < nr_threads).
Proof.
  intros Hn Hnd Hw Hpos Hb -> Hrows0. set (est := estimate rows l).
  assert (Hin0 : ∀ r, r ∈ l → rows0 r = released (rows r)) by (intros r Hr; by rewrite Hrows0, decide_True).
  assert (Hsw : split_weight rows0 l = split_weight rows l).
  { apply sum_over_ext. intros r Hr. by rewrite Hin0, contended_released. }
  assert (Hs0 : 0 ≤ split_weight rows l).
  { apply sum_over_nonneg. intros r _. specialize (Hw r). destruct (contended _); lia. }
  destruct (Z.eqb_spec est 0) as [E0|E0].
  { exists rows0, lm, [], rows0. rewrite E0, andb_false_r. split; [done|]. split; [done|]. split.
    - intros r Hr. rewrite Hin0 by done. by destruct (rows r).
    - split; [|done]. intros r Hr. by rewrite Hrows0, decide_False. }
  assert (Hest : est = split_weight rows l ∧ 0 < est < 2 ^ 31).
  { unfold est, estimate in *. destruct (kOnDemandSplitting opts); [|destruct (0 <? nr_threads); lia].
    destruct (_ <? nr_threads); lia. }
  destruct (assign_rows_ok l est 0 rows0 lm []) as (rows1 & lm' & -> & H1 & H2 & H3); [done|lia|lia|lia|done| |].
  { intros r Hr. rewrite Hin0, contended_released by done. by apply Hpos. }
  assert (Hrow : ∀ r a, set_cont_affinity (rows1 r) a = set_cont_affinity (rows0 r) a) by (intros r a; by rewrite H1).
  assert (Hc1 : ∀ r, r ∈ l → reset_row (rows r) (rows1 r)).
  { intros r Hr. unfold reset_row. rewrite <- Hin0 by done. apply H1. }
  rewrite (proj2 (Z.ltb_lt 0 est)), andb_true_r by lia. destruct (kBinpackSplitting opts).
  - eexists rows1, lm', _. cbn [app]. set (ks := Some <$> filter _ l).
    assert (Hks : ∀ r, r ∈ rows_of ks ↔ r ∈ l ∧ contended (rows r) = true).
    { intros r. unfold ks. rewrite rows_of_some, list_elem_of_filter. split.
      - intros [Hc Hr]. split; [done|]. rewrite Hin0, contended_released in Hc by done. by apply Is_true_eq_true.
      - intros [Hr Hc]. split; [|done]. rewrite Hin0, contended_released by done. by rewrite Hc. }
    destruct (pack_rows_ok (fun r => nr_ondsplt (rows1 r)) nr_threads est ks (fun r => cont_affinity (rows1 r))) as
      (aff & -> & _ & Hr & _); [|lia|lia|unfold ks; rewrite rows_of_some; by apply NoDup_filter|].
    { intros r. rewrite H1. cbn. rewrite Hrows0. destruct (decide _); apply Hw. }
    eexists. split; [done|]. split; [done|].
    assert (Hmem : ∀ r, Some r ∈ ks ↔ r ∈ rows_of ks).
    { intros r. unfold ks. rewrite rows_of_some, list_elem_of_fmap. naive_solver. }
    assert (Hi8 : ∀ r, r ∈ rows_of ks → 0 ≤ i8 (aff r) < nr_threads).
    { intros r Hin. specialize (Hr r Hin). unfold i8. rewrite Z.mod_small; lia. }
    split_and!.
    + intros r Hin. case_bool_decide as E; [|by apply Hc1]. unfold reset_row. cbn. rewrite Hrow, Hin0 by done. done.
    + intros r Hout. rewrite bool_decide_false; [by rewrite H3, Hrows0, decide_False|].
      intros Hx. apply Hmem, Hks in Hx. tauto.
    + intros _ r Hin Hc. rewrite bool_decide_true by by apply Hmem, Hks. cbn. apply Hi8. by apply Hks.
  - exists rows1, lm', [], rows1. split; [done|]. split; [done|]. split; [done|]. split.
    + intros r Hout. by rewrite H3, Hrows0, decide_False.
    + intros _ r Hin Hc. apply H2; [done|]. by rewrite Hin0, contended_released.
Qed.

Lemma Reset_ok cm rows lm :
  let l := buffered_rows cm in
  0 < nr_threads ≤ 64 → nr_threads mod kNrCorePerNode = 0 → NoDup l → (∀ r, 0 ≤ nr_ondsplt (rows r) < 2 ^ 31) →
  (∀ r, r ∈ l → contended (rows r) = true → 0 < nr_ondsplt (rows r)) → split_weight rows l < 2 ^ 31 →
  enough (free_heads cm) (seqZ 0 nr_threads) →
  ∃ cm' rows' lm', ContentionManager_Reset cm rows lm = Ok (cm', rows', lm', estimate rows l) ∧
    (∀ r, r ∈ l → reset_row (rows r) (rows' r)) ∧ (∀ r, r ∉ l → rows' r = rows r) ∧
    (estimate rows l ≠ 0 → ∀ r, r ∈ l → contended (rows r) = true → 0 ≤ cont_affinity (rows' r) < nr_threads) ∧
    (∀ core, 0 ≤ core < nr_threads → buffer_heads cm' core =
      [fresh_head core (al_base_pos (g_alloc cm (core / kNrCorePerNode)) + kMaxPos * (core mod kNrCorePerNode))]).
Proof.
  intros l Hn Hmod Hnd Hw Hpos Hb Hen. unfold ContentionManager_Reset. fold l.
  assert (Hs0 : 0 ≤ split_weight rows l).
  { apply sum_over_nonneg. intros r _. specialize (Hw r). destruct (contended _); lia. }
  destruct (reset_rows_ok l rows 0) as (rows0 & -> & Hrows0); [done|intros r; apply Hw|lia|lia|].
  replace (if kOnDemandSplitting opts then 0 + split_weight rows l else 0) with
    (if kOnDemandSplitting opts then split_weight rows l else 0) by (destruct (kOnDemandSplitting opts); lia).
  fold (estimate rows l).
  destruct (reset_affinities_ok l rows rows0 lm (estimate rows l)) as (rows1 & lm' & ks & rows' & -> & H1 & H2 & H3 & H4); [done..|].
  cbn [mbind result_bind] in H1 |- *. rewrite H1. cbn [mbind result_bind].
  destruct (new_heads_ok (seqZ 0 nr_threads) (mkCM (buffer_heads cm) (preallocs cm) (free_heads cm))) as (cm' & -> & _ & _ & Hh);
    [apply NoDup_seqZ|done|].
  cbn [mbind result_bind]. exists cm', rows', lm'. split; [done|]. split; [done|]. split; [done|]. split; [done|].
  intros core Hc. rewrite (Hh (seqZ 0 core) core (seqZ (core + 1) (nr_threads - core - 1))).
  - cbn [g_alloc free_heads al_base_pos al_pos]. rewrite zone_rank by lia.
    rewrite (proj2 (Z.ltb_lt (core / kNrCorePerNode) (nr_threads / kNrCorePerNode))); [by rewrite Z.add_0_l|].
    apply Z.div_lt_upper_bound; [done|]. pose proof (Z.div_mod nr_threads kNrCorePerNode ltac:(done)). lia.
  - replace nr_threads with (core + (1 + (nr_threads - core - 1))) at 1 by lia. rewrite seqZ_app by lia. f_equal.
    rewrite seqZ_app by lia. rewrite Z.add_0_l. done.
Qed.
End Reset.
