(* ===== verification/ContentionProps.v ===== *)
(** What the contention manager promises: batched appends neither lose nor
    duplicate a version, the flush at the end of the phase merges every buffer
    into its row, and the reset hands out affinities and fresh positions. *)

From S2P Require Import Prelude LowerBound Region Sync GarbageSlab VHandle VHandleFacts VHandleAppend VersionBuffer ContentionManager BinPack Bits Locality ContentionReset.

(** ** Properties *)

(** C15. An append through a row's version buffer succeeds and adds exactly one
    version to those of the epoch that are in the row or in the buffer, whether
    it is only buffered, flushed after [TryLock], or flushed because the buffer
    was full; written versions are kept (up to collected ones), the bit of the
    position says whether its buffer is non-empty, and no other buffer is
    touched. *)
Theorem batched_append_keeps_versions env w h pa pos sid e split_ trylock :
  init_ok h e → Z.shiftr sid 32 = e → buf_ok e (version_buffers pa pos) →
  pa_bitmap pa pos = negb (buf_cnt (version_buffers pa pos) =? 0) →
  size h + 1 + kMaxBatch < 2 ^ 20 → reg_inv (w_gc w) h → may_register (w_gc w) h (env_core env) e →
  ∃ w' h' pa', VersionBuffer_Append env w h pa pos sid e split_ trylock = Ok (w', h', pa') ∧
    appended e h h' pa pa' pos sid ∧ reg_inv (w_gc w') h'.
Proof. apply VersionBuffer_Append_ok. Qed.

(** [FinalizeFlush] of a core returns whenever the row locks are free in
    its last pass, and then every buffer of that core is empty and its versions
    are in their row, next to the versions the row already had; rows and
    buffers that are not installed in any head are untouched. *)
Theorem finalize_flush_merges env e locks fuel nr_threads w cm rows :
  let l := mjoin (head_pairs <$> mjoin (buffer_heads cm <$> seqZ 0 nr_threads)) in
  let pa := preallocs cm (env_core env) in
  NoDup l.*1 → NoDup l.*2 → (∀ p row, (p, row) ∈ l → scan_ready e (w_gc w) pa rows p row) →
  (∀ row, locks 0%nat row = true) →
  ∃ w' cm' rows', FinalizeFlush env (S fuel) locks nr_threads e w cm rows = Ok (w', cm', rows') ∧
    buffer_heads cm' = buffer_heads cm ∧
    (∀ p row, (p, row) ∈ l → scanned e rows rows' pa (preallocs cm' (env_core env)) p row) ∧
    (∀ p row, p ∉ l.*1 → row ∉ l.*2 → untouched rows rows' pa (preallocs cm' (env_core env)) p row) ∧
    (∀ core, core ≠ env_core env → preallocs cm' core = preallocs cm core).
Proof.
  intros l pa Hn1 Hn2 Hrd Hlk. unfold FinalizeFlush. fold pa.
  destruct (finalize_heads_ok env e locks fuel _ w pa rows Hn1 Hn2 Hrd Hlk) as (w' & pa' & rows' & -> & _ & Hs & Hu).
  cbn [mbind result_bind mret result_ret]. eexists _, _, _. split; [done|]. cbn. split; [done|].
  rewrite fn_lookup_insert. split; [done|]. split; [done|]. intros core Hc. by rewrite fn_lookup_insert_ne.
Qed.

(** [Reset] succeeds when the pools have a head for every core: every
    installed row gives up its buffer and is otherwise unchanged but for its
    affinity; if rows are split, every contended row gets the number of an
    existing core, with and without binpacking; and every core gets an empty
    head whose positions overlap with no other core of its node. *)
Theorem reset_assigns_cores opts nr_threads core_id cm rows lm :
  let l := buffered_rows nr_threads cm in
  0 < nr_threads ≤ 64 → nr_threads mod kNrCorePerNode = 0 → NoDup l → (∀ r, 0 ≤ nr_ondsplt (rows r) < 2 ^ 31) →
  (∀ r, r ∈ l → contended opts (rows r) = true → 0 < nr_ondsplt (rows r)) → split_weight opts rows l < 2 ^ 31 →
  enough (free_heads nr_threads cm) (seqZ 0 nr_threads) →
  ∃ cm' rows' lm', ContentionManager_Reset opts nr_threads core_id cm rows lm =
      Ok (cm', rows', lm', estimate opts nr_threads rows l) ∧
    (∀ r, r ∈ l → reset_row (rows r) (rows' r)) ∧ (∀ r, r ∉ l → rows' r = rows r) ∧
    (estimate opts nr_threads rows l ≠ 0 → ∀ r, r ∈ l → contended opts (rows r) = true →
      0 ≤ cont_affinity (rows' r) < nr_threads) ∧
    (∀ core, 0 ≤ core < nr_threads → buffer_heads cm' core =
      [fresh_head core (al_base_pos (g_alloc cm (core / kNrCorePerNode)) + kMaxPos * (core mod kNrCorePerNode))]).
Proof. apply Reset_ok. Qed.

(** ** Witnesses *)

(** the sample row installed at position 3 with one buffered version *)
Definition sample_buf : VersionBuffer := mkBuf 1 0 (4294967400 :: replicate 254 0).
Definition sample_prealloc : VersionPrealloc :=
  mkPrealloc (fun p => p =? 3) (fun p => if p =? 3 then sample_buf else mkBuf 0 0 (replicate 255 0)).

Lemma sample_buf_ok : buf_ok 1 sample_buf.
Proof. split; [done|done|]. intros x Hx. cbn in Hx. apply list_elem_of_singleton in Hx as ->. done. Qed.

Lemma batched_append_keeps_versions_witness :
  ∃ w' h' pa', VersionBuffer_Append Sample.env Sample.world Sample.row2 sample_prealloc 3 4294967500 1 false true = Ok (w', h', pa') ∧
    in_flight h' pa' 3 ≡ₚ [4294967500; 4294967552; 4294967400].
Proof.
  destruct (batched_append_keeps_versions Sample.env Sample.world Sample.row2 sample_prealloc 3 4294967500 1 false true)
    as (w' & h' & pa' & HA & Happ & _);
    [apply sample_init_ok|done|apply sample_buf_ok|done|done|split; [apply Sample.gc_ok|by left]|by intros _|].
  exists w', h', pa'. split; [exact HA|exact (ap_versions _ _ _ _ _ _ _ Happ)].
Defined.

Definition sample_cm : ContentionManager :=
  mkCM (fun core => if core =? 0 then [mkHead 3 1 0 [7]] else [mkHead 8192 0 core []]) (fun _ => sample_prealloc)
    (fun zone => mkAlloc (zone * 65536) 65536 0).
(** the sample row before its second version was appended *)
Definition sample_row1 : VHandle := set_cur_start Sample.row2 1.

Lemma sample_row1_ok : init_ok sample_row1 1.
Proof. destruct sample_init_ok as [[[? ? ? ? ?] ?] ? ? ? ? ?]. split; [split; [split; cbn in *; lia|]|..]; done. Qed.

Lemma finalize_flush_merges_witness :
  ∃ w' cm' rows', FinalizeFlush Sample.env 1 (fun _ _ => true) 8 1 Sample.world sample_cm (fun _ => sample_row1) = Ok (w', cm', rows') ∧
    new_versions (rows' 7) ≡ₚ [4294967552; 4294967400].
Proof.
  destruct (finalize_flush_merges Sample.env 1 (fun _ _ => true) 0 8 Sample.world sample_cm (fun _ => sample_row1))
    as (w' & cm' & rows' & HF & _ & Hs & _).
  - apply NoDup_singleton.
  - apply NoDup_singleton.
  - intros p row Hp. apply list_elem_of_singleton in Hp. injection Hp as -> ->.
    split; [apply sample_row1_ok|apply sample_buf_ok|done|]. intros _.
    split; [done|]. split; [|done]. split; [apply Sample.gc_ok|by left].
  - done.
  - exists w', cm', rows'. split; [exact HF|]. exact (sd_versions _ _ _ _ _ _ _ (Hs 3 7 ltac:(left))).
Defined.

Definition sample_opts : SplitOptions := mkOpts true true 0.
Definition sample_hot : VHandle := set_nr_ondsplt (set_buf_pos Sample.row2 3) 12.

Lemma reset_assigns_cores_witness :
  ∃ cm' rows' lm', ContentionManager_Reset sample_opts 8 0 sample_cm (fun _ => sample_hot) (fun _ => mkWD 0 [] [] 0 (fun _ => 0)) =
      Ok (cm', rows', lm', 12) ∧
    buf_pos (rows' 7) = -1 ∧ 0 ≤ cont_affinity (rows' 7) < 8.
Proof.
  destruct (reset_assigns_cores sample_opts 8 0 sample_cm (fun _ => sample_hot) (fun _ => mkWD 0 [] [] 0 (fun _ => 0)))
    as (cm' & rows' & lm' & HR & Hr & _ & Ha & _).
  - lia.
  - reflexivity.
  - apply NoDup_singleton.
  - intros _. vm_compute. split; [discriminate|reflexivity].
  - intros _ _ _. reflexivity.
  - reflexivity.
  - intros zone. destruct (decide (zone = 0)) as [->|Hz]; [vm_compute; discriminate|].
    rewrite (sum_over_ext _ (fun _ => 0)), sum_over_const.
    + cbn. apply sum_over_nonneg. intros core _. destruct (_ =? _); [destruct (core =? 0)|]; cbn; lia.
    + intros core Hc%elem_of_seqZ. rewrite (Z.div_small core) by (unfold kNrCorePerNode; lia).
      by rewrite (proj2 (Z.eqb_neq 0 zone)).
  - exists cm', rows', lm'. split; [exact HR|]. split; [by rewrite (Hr 7 ltac:(left))|].
    apply Ha; [discriminate|left|reflexivity].
Defined.

(** ** Divergences *)

(** A contended row of weight zero behind all the weight gets affinity
    [nr_threads], which is no core. *)
Lemma weightless_row_affinity nr_threads sum :
  0 < nr_threads ≤ 64 → 0 < sum < 2 ^ 31 → affinity nr_threads sum 0 sum = nr_threads.
Proof.
  intros Hn Hs. unfold affinity. cbn [Z.quot Z.quotrem fst]. rewrite Z.add_0_r, u32_id, u64_id by nia.
  rewrite Z.div_mul by lia. unfold i8. rewrite Z.mod_small; lia.
Qed.

(** A split append to a full buffer counts its weight twice. *)
Lemma full_append_counts_twice :
  let pa := mkPrealloc (fun _ => true) (fun _ => mkBuf 255 0 (replicate 255 4294967400)) in
  ∃ w' h' pa', VersionBuffer_Append Sample.env Sample.world sample_row1 pa 3 4294967500 1 true true = Ok (w', h', pa') ∧
    nr_ondsplt h' = nr_ondsplt sample_row1 + 2.
Proof. vm_compute. eexists _, _, _. split; reflexivity. Qed.
