(* ===== verification/Heap.v ===== *)
(** [std::push_heap] and [std::pop_heap] on an array, as sift-up and sift-down
    with the comparator "greater": the least element is at index 0. *)

From S2P Require Import Prelude.

#[local] Open Scope nat_scope.

(** what a comparator "greater" has to satisfy: the negation is a total
    preorder *)
Class StrictOrderB {A} (gt : A → A → bool) : Prop := {
  gt_asym : ∀ a b, gt a b = true → gt b a = false;
  gt_false_trans : ∀ a b c, gt a b = false → gt b c = false → gt a c = false;
}.

Section Heap.
Context {A : Type} `{!Inhabited A} (gt : A → A → bool).

(** ** The operations *)

Definition swap (l : list A) (i j : nat) : list A := <[i := l !!! j]> (<[j := l !!! i]> l).
Definition par (i : nat) : nat := Nat.div2 (i - 1).

Fixpoint sift_up (fuel : nat) (l : list A) (i : nat) : list A :=
  match fuel with
  | O => l
  | S fuel =>
      if (i =? 0)%nat then l
      else if gt (l !!! par i) (l !!! i) then sift_up fuel (swap l (par i) i) (par i) else l
  end.

Fixpoint sift_down (fuel : nat) (l : list A) (i : nat) : list A :=
  match fuel with
  | O => l
  | S fuel =>
      let c := 2 * i + 1 in
      if (length l <=? c)%nat then l else
      let c := if (c + 1 <? length l)%nat && gt (l !!! c) (l !!! (c + 1)) then c + 1 else c in
      if gt (l !!! i) (l !!! c) then sift_down fuel (swap l i c) c else l
  end.

(** [std::push_heap(q, q + n, gt)]: the last element is the new one *)
Definition push_heap (l : list A) : list A := sift_up (length l) l (length l - 1).
(** [std::pop_heap(q, q + n, gt)]: the first element goes to the end *)
Definition pop_heap (l : list A) : list A :=
  let m := length l - 1 in
  let l1 := swap l 0 m in
  sift_down m (take m l1) 0 ++ drop m l1.

(** ** The heap order *)

Definition heap (l : list A) : Prop := ∀ j, 0 < j < length l → gt (l !!! par j) (l !!! j) = false.

Lemma par_spec j : 0 < j → j = 2 * par j + 1 ∨ j = 2 * par j + 2.
Proof.
  intros Hj. unfold par. pose proof (Nat.div2_odd (j - 1)) as E.
  destruct (Nat.odd (j - 1)); cbn [Nat.b2n] in E; lia.
Qed.

Lemma length_swap l i j : length (swap l i j) = length l.
Proof. unfold swap. by rewrite !length_insert. Qed.

Lemma swap_lookup l i j k :
  i < length l → j < length l →
  swap l i j !!! k = if decide (k = i) then l !!! j else if decide (k = j) then l !!! i else l !!! k.
Proof.
  intros Hi Hj. unfold swap. case_decide as E1; [subst; rewrite list_lookup_total_insert_eq; [done|by rewrite length_insert]|].
  rewrite list_lookup_total_insert_ne by done.
  case_decide as E2; [subst; by rewrite list_lookup_total_insert_eq|by rewrite list_lookup_total_insert_ne].
Qed.

Lemma swap_perm l i j : i < length l → j < length l → swap l i j ≡ₚ l.
Proof.
  intros Hi Hj. apply Permutation_inj. split; [apply length_swap|].
  exists (fun k => if decide (k = i) then j else if decide (k = j) then i else k). split.
  - intros a b H. repeat case_decide; congruence.
  - intros k. unfold swap. destruct (decide (k = i)) as [->|Hne].
    + rewrite list_lookup_insert_eq by (by rewrite length_insert). symmetry. by apply list_lookup_lookup_total_lt.
    + rewrite list_lookup_insert_ne by done. case_decide as E; [subst|by rewrite list_lookup_insert_ne].
      rewrite list_lookup_insert_eq by done. symmetry. by apply list_lookup_lookup_total_lt.
Qed.

Context `{!StrictOrderB gt}.

Lemma gt_irrefl a : gt a a = false.
Proof. destruct (gt a a) eqn:E; [|done]. by rewrite (gt_asym _ _ E) in E. Qed.

(** ** Sift-up *)

(** a heap but for the element at [i], which may be too small *)
Record below_hole (l : list A) (i : nat) : Prop := {
  bh_other : ∀ j, 0 < j < length l → j ≠ i → gt (l !!! par j) (l !!! j) = false;
  bh_child : ∀ j, 0 < j < length l → par j = i → 0 < i → gt (l !!! par i) (l !!! j) = false;
}.

Lemma below_hole_step l i :
  below_hole l i → 0 < i < length l → gt (l !!! par i) (l !!! i) = true → below_hole (swap l (par i) i) (par i).
Proof.
  intros [H1 H2] Hi Hgt. pose proof (par_spec i ltac:(lia)) as Hp. set (p := par i) in *.
  assert (Hs : ∀ k, swap l p i !!! k = if decide (k = p) then l !!! i else if decide (k = i) then l !!! p else l !!! k)
    by (intros; apply swap_lookup; lia).
  assert (Hpar : ∀ j, 0 < j → par j < j) by (intros j Hj; destruct (par_spec j Hj); lia).
  pose proof (gt_asym _ _ Hgt) as Hxy.
  split; rewrite length_swap.
  - intros j Hj Hne. pose proof (Hpar j ltac:(lia)). rewrite !Hs. rewrite (decide_False (P := j = p)) by done.
    destruct (decide (par j = p)) as [Ep|Ep].
    + destruct (decide (j = i)) as [->|Hji]; [done|].
      apply (gt_false_trans _ (l !!! p)); [done|]. rewrite <- Ep. by apply H1.
    + destruct (decide (par j = i)) as [Ei|Ei].
      * rewrite decide_False by lia. apply H2; [done|done|lia].
      * destruct (decide (j = i)) as [->|Hji]; [done|]. by apply H1.
  - intros j Hj Ep Hp0. pose proof (Hpar p Hp0). rewrite !Hs. rewrite (decide_False (P := par p = p)), (decide_False (P := par p = i)) by lia.
    pose proof (Hpar j ltac:(lia)). rewrite (decide_False (P := j = p)) by lia.
    assert (Hpp : gt (l !!! par p) (l !!! p) = false) by (apply H1; lia).
    destruct (decide (j = i)) as [->|Hji]; [done|].
    apply (gt_false_trans _ (l !!! p)); [done|]. rewrite <- Ep. by apply H1.
Qed.

Lemma sift_up_ok fuel : ∀ l i, i ≤ fuel → i < length l → below_hole l i →
  heap (sift_up fuel l i) ∧ sift_up fuel l i ≡ₚ l.
Proof.
  induction fuel as [|fuel IH]; intros l i Hf Hi Hh; cbn [sift_up].
  { split; [|done]. intros j Hj. apply (bh_other _ _ Hh); lia. }
  destruct (Nat.eqb_spec i 0) as [->|Hi0].
  { split; [|done]. intros j Hj. apply (bh_other _ _ Hh); lia. }
  destruct (gt (l !!! par i) (l !!! i)) eqn:E.
  - pose proof (par_spec i ltac:(lia)). destruct (IH (swap l (par i) i) (par i)) as [H1 H2];
      [lia|rewrite length_swap; lia|apply below_hole_step; [done|lia|done]|].
    split; [done|]. rewrite H2. apply swap_perm; lia.
  - split; [|done]. intros j Hj. destruct (decide (j = i)) as [->|]; [done|]. by apply (bh_other _ _ Hh).
Qed.

Lemma push_heap_ok l x : heap l → heap (push_heap (l ++ [x])) ∧ push_heap (l ++ [x]) ≡ₚ l ++ [x].
Proof.
  intros Hh. unfold push_heap. rewrite length_app. cbn [length]. apply sift_up_ok; [lia|rewrite length_app; cbn; lia|].
  assert (Hpar : ∀ j, 0 < j → par j < j) by (intros j Hj; destruct (par_spec j Hj); lia).
  replace (length l + 1 - 1) with (length l) by lia.
  split; rewrite length_app; cbn [length].
  - intros j Hj Hne. specialize (Hpar j ltac:(lia)). rewrite !lookup_total_app_l by lia. apply Hh. lia.
  - intros j Hj Hp _. specialize (Hpar j ltac:(lia)). lia.
Qed.

(** ** Sift-down *)

(** a heap but for the element at [i], which may be too large *)
Record above_hole (l : list A) (i : nat) : Prop := {
  ah_other : ∀ j, 0 < j < length l → par j ≠ i → gt (l !!! par j) (l !!! j) = false;
  ah_child : ∀ j, 0 < j < length l → par j = i → 0 < i → gt (l !!! par i) (l !!! j) = false;
}.

Lemma above_hole_step l i c :
  above_hole l i → 0 < c < length l → par c = i → gt (l !!! i) (l !!! c) = true →
  (∀ j, 0 < j < length l → par j = i → gt (l !!! c) (l !!! j) = false) → above_hole (swap l i c) c.
Proof.
  intros [H1 H2] Hc Hp Hgt Hmin. assert (Hpar : ∀ j, 0 < j → par j < j) by (intros j Hj; destruct (par_spec j Hj); lia).
  pose proof (Hpar c ltac:(lia)).
  assert (Hs : ∀ k, swap l i c !!! k = if decide (k = i) then l !!! c else if decide (k = c) then l !!! i else l !!! k)
    by (intros; apply swap_lookup; lia).
  pose proof (gt_asym _ _ Hgt) as Hxy.
  split; rewrite length_swap.
  - intros j Hj Hne. pose proof (Hpar j ltac:(lia)). rewrite !Hs.
    destruct (decide (par j = i)) as [Ei|Ei].
    + rewrite decide_False by lia. destruct (decide (j = c)) as [->|Hjc]; [done|]. by apply Hmin.
    + rewrite (decide_False (P := par j = c)) by done. destruct (decide (j = i)) as [->|Hji].
      * apply H2; [done|done|lia].
      * rewrite decide_False by (by intros ->). by apply H1.
  - intros j Hj Ep Hc0. pose proof (Hpar j ltac:(lia)). rewrite !Hs, Hp.
    rewrite decide_True, (decide_False (P := j = i)), (decide_False (P := j = c)) by lia.
    rewrite <- Ep. apply H1; lia.
Qed.

Lemma sift_down_ok fuel : ∀ l i, length l ≤ fuel + i → i ≤ length l → above_hole l i →
  heap (sift_down fuel l i) ∧ sift_down fuel l i ≡ₚ l.
Proof.
  induction fuel as [|fuel IH]; intros l i Hf Hi Hh; cbn [sift_down].
  { split; [|done]. intros j Hj. apply (ah_other _ _ Hh); [lia|]. destruct (par_spec j ltac:(lia)); lia. }
  destruct (Nat.leb_spec (length l) (2 * i + 1)) as [Hle|Hgt].
  { split; [|done]. intros j Hj. apply (ah_other _ _ Hh); [lia|]. destruct (par_spec j ltac:(lia)); lia. }
  set (c := if _ && _ then _ else _).
  assert (Hc : (c = 2 * i + 1 ∨ c = 2 * i + 2) ∧ c < length l ∧
    ∀ j, 0 < j < length l → par j = i → gt (l !!! c) (l !!! j) = false).
  { unfold c. destruct (Nat.ltb_spec (2 * i + 1 + 1) (length l)) as [H2|H2]; cbn [andb].
    - destruct (gt (l !!! (2 * i + 1)) (l !!! (2 * i + 1 + 1))) eqn:E; (split; [lia|]; split; [lia|]); intros j Hj Hp;
        pose proof (par_spec j ltac:(lia)) as Hjs; rewrite Hp in Hjs; destruct Hjs as [->| ->].
      + by apply gt_asym.
      + replace (2 * i + 2) with (2 * i + 1 + 1) by lia. apply gt_irrefl.
      + apply gt_irrefl.
      + by replace (2 * i + 2) with (2 * i + 1 + 1) by lia.
    - split; [lia|]. split; [lia|]. intros j Hj Hp. pose proof (par_spec j ltac:(lia)) as Hjs. rewrite Hp in Hjs.
      assert (j = 2 * i + 1) as -> by lia. apply gt_irrefl. }
  destruct Hc as (Hci & Hcl & Hmin).
  assert (Hpc : par c = i) by (pose proof (par_spec c ltac:(lia)); lia).
  destruct (gt (l !!! i) (l !!! c)) eqn:E.
  - destruct (IH (swap l i c) c) as [H1 H2]; [rewrite length_swap; lia|rewrite length_swap; lia|by apply above_hole_step; try lia|].
    split; [done|]. rewrite H2. apply swap_perm; lia.
  - split; [|done]. intros j Hj. destruct (decide (par j = i)) as [Ep|]; [|by apply (ah_other _ _ Hh)].
    rewrite Ep. apply (gt_false_trans _ (l !!! c)); [done|]. by apply Hmin.
Qed.

(** the first element is a least one *)
Lemma heap_min l : heap l → ∀ j, j < length l → gt (l !!! 0) (l !!! j) = false.
Proof.
  intros Hh. induction j as [j IH] using lt_wf_ind. intros Hj. destruct (decide (j = 0)) as [->|Hne]; [apply gt_irrefl|].
  pose proof (par_spec j ltac:(lia)). apply (gt_false_trans _ (l !!! par j)); [apply IH; lia|]. apply Hh. lia.
Qed.

Lemma heap_min_elem l x : heap l → x ∈ l → gt (l !!! 0) x = false.
Proof.
  intros Hh (j & Hj)%list_elem_of_lookup. pose proof (lookup_lt_Some _ _ _ Hj).
  rewrite <- (list_lookup_total_correct _ _ _ Hj). by apply heap_min.
Qed.

Lemma pop_heap_ok x l : heap (x :: l) →
  ∃ l', pop_heap (x :: l) = l' ++ [x] ∧ heap l' ∧ l' ≡ₚ l.
Proof.
  intros Hh. unfold pop_heap. cbn [length]. replace (S (length l) - 1) with (length l) by lia.
  set (m := length l). set (l1 := swap (x :: l) 0 m).
  assert (Hl1 : length l1 = S m) by (unfold l1; by rewrite length_swap).
  assert (Hd : drop m l1 = [x]).
  { assert (Hm : l1 !! m = Some x).
    { rewrite list_lookup_lookup_total_lt by lia. unfold l1. rewrite swap_lookup by (cbn; lia).
      case_decide as E; [by rewrite E|]. by rewrite decide_True. }
    rewrite (drop_S _ _ _ Hm). f_equal. apply drop_ge. lia. }
  assert (Ht : ∀ k, k < m → take m l1 !!! k = (x :: l) !!! if decide (k = 0) then m else k).
  { intros k Hk. rewrite lookup_total_take_lt by done. unfold l1. rewrite swap_lookup by (cbn; lia).
    case_decide; [done|]. by rewrite decide_False by lia. }
  rewrite Hd. destruct (sift_down_ok m (take m l1) 0) as [H1 H2].
  - rewrite length_take. lia.
  - lia.
  - split; rewrite length_take; intros j Hj Hp; [|lia]. pose proof (par_spec j ltac:(lia)).
    rewrite !Ht by lia. rewrite !decide_False by lia. apply Hh. cbn. lia.
  - exists (sift_down m (take m l1) 0). split; [done|]. split; [done|]. rewrite H2.
    apply (Permutation_cons_inv (a := x)). rewrite Permutation_cons_append, <- Hd, take_drop.
    apply swap_perm; cbn; lia.
Qed.
End Heap.
