(* ===== verification/SchedQueue.v ===== *)
(** The priority queue of pieces on one core (routine_sched.cc
    [ConservativePriorityScheduler], [AddToPriorityQueue]): a heap of distinct
    scheduling keys and a hash table with the pieces of every key, in arrival
    order. *)

From S2P Require Import Prelude Heap.

(** ** State *)

(** a [PieceRoutine] and its scheduling key *)
Record Routine := mkRt { rt_id : Z; sched_key : Z }.
(** [PriorityQueueValue]: [v_state] is the suspended coroutine, if any *)
Record PQValue := mkVal { v_routine : Routine; v_state : option Z }.
(** [PriorityQueueHashEntry] *)
Record HashEntry := mkEnt { e_key : Z; e_values : list PQValue }.

#[export] Instance Routine_eq_dec : EqDecision Routine.
Proof. solve_decision. Defined.
#[export] Instance PQValue_eq_dec : EqDecision PQValue.
Proof. solve_decision. Defined.

(** the heap holds a key and the pointer to the key's hash entry; the table
    has one entry per key, so the key stands for the pointer *)
Record Sched := mkSched {
  ht : Z → list HashEntry;
  pq : list Z;
}.

Definition kHashTableSize : Z := 100001.
(** [EpochExecutionDispatchService::Hash] *)
Definition Hash (key : Z) : Z := u32 (Z.shiftr key 8).
Definition bucket (key : Z) : Z := Hash key mod kHashTableSize.
Definition Greater (a b : Z) : bool := b <? a.
Definition vkey (v : PQValue) : Z := sched_key (v_routine v).

Definition empty_sched : Sched := mkSched (fun _ => []) [].

(** ** Operations *)

(** the search of [AddToPriorityQueue] in a bucket *)
Fixpoint find_entry (key : Z) (l : list HashEntry) : option HashEntry :=
  match l with
  | [] => None
  | e :: l => if e_key e =? key then Some e else find_entry key l
  end.
(** writing through the entry found *)
Fixpoint set_values (key : Z) (vs : list PQValue) (l : list HashEntry) : list HashEntry :=
  match l with
  | [] => []
  | e :: l => if e_key e =? key then mkEnt key vs :: l else e :: set_values key vs l
  end.
(** [ent->Remove()] *)
Fixpoint remove_entry (key : Z) (l : list HashEntry) : list HashEntry :=
  match l with
  | [] => []
  | e :: l => if e_key e =? key then l else e :: remove_entry key l
  end.

Definition values_of (s : Sched) (key : Z) : list PQValue :=
  match find_entry key (ht s (bucket key)) with Some e => e_values e | None => [] end.

(** [ConservativePriorityScheduler::IngestPending] on the entry of [key] *)
Definition IngestPending (s : Sched) (key : Z) (value : PQValue) : Sched :=
  let vs := values_of s key in
  let q := if decide (vs = []) then push_heap Greater (pq s ++ [key]) else pq s in
  mkSched (<[bucket key := set_values key (vs ++ [value]) (ht s (bucket key))]> (ht s)) q.

(** [EpochExecutionDispatchService::AddToPriorityQueue] *)
Definition AddToPriorityQueue (s : Sched) (rt : Routine) (state : option Z) : Sched :=
  let key := sched_key rt in
  let hl := ht s (bucket key) in
  let s := match find_entry key hl with
           | Some _ => s
           | None => mkSched (<[bucket key := hl ++ [mkEnt key []]]> (ht s)) (pq s)
           end in
  IngestPending s key (mkVal rt state).

(** [ConservativePriorityScheduler::Pick]: the first piece of the least key *)
Definition Pick (s : Sched) : result PQValue :=
  match pq s with
  | [] => Err OutOfRange
  | top :: _ => match values_of s top with [] => Err OutOfRange | v :: _ => Ok v end
  end.

(** [ConservativePriorityScheduler::Consume] of the piece [Pick] returned *)
Definition Consume (s : Sched) : result Sched :=
  match pq s with
  | [] => Err OutOfRange
  | top :: _ =>
      match values_of s top with
      | [] => Err OutOfRange
      | _ :: vs =>
          let s := mkSched (<[bucket top := set_values top vs (ht s (bucket top))]> (ht s)) (pq s) in
          if decide (vs = []) then
            mret (mkSched (<[bucket top := remove_entry top (ht s (bucket top))]> (ht s))
                    (take (length (pq s) - 1) (pop_heap Greater (pq s))))
          else mret s
      end
  end.

(** ** The stable priority queue it implements *)

(** the queue's content, in arrival order *)
Definition of_key (key : Z) (ab : list PQValue) : list PQValue := filter (fun v => vkey v = key) ab.

Record sched_inv (s : Sched) (ab : list PQValue) : Prop := {
  si_heap : heap Greater (pq s);
  si_nodup : NoDup (pq s);
  si_keys : ∀ k, k ∈ pq s ↔ of_key k ab ≠ [];
  si_values : ∀ k, values_of s k = of_key k ab;
  si_table : ∀ b e, e ∈ ht s b → bucket (e_key e) = b ∧ e_values e ≠ [];
  si_unique : ∀ b, NoDup (e_key <$> ht s b);
}.

#[export] Instance Greater_order : StrictOrderB Greater.
Proof. split; unfold Greater; intros; zcase; zprop; try done; lia. Qed.

(** [v] is the first of the pieces with the least key *)
Definition first_least (ab : list PQValue) (v : PQValue) (l1 l2 : list PQValue) : Prop :=
  ab = l1 ++ v :: l2 ∧ (∀ x, x ∈ l1 → vkey v < vkey x) ∧ (∀ x, x ∈ l2 → vkey v ≤ vkey x).

(** *** Buckets *)

Lemma find_entry_some key l e : find_entry key l = Some e → e ∈ l ∧ e_key e = key.
Proof.
  induction l as [|x l IH]; cbn; [done|]. destruct (Z.eqb_spec (e_key x) key).
  - intros [= ->]. split; [left|done].
  - intros H. destruct (IH H). split; [by right|done].
Qed.
Lemma find_entry_none key l : find_entry key l = None ↔ key ∉ (e_key <$> l).
Proof.
  induction l as [|x l IH]; cbn; [split; [intros _; apply not_elem_of_nil|done]|].
  destruct (Z.eqb_spec (e_key x) key) as [<-|Hne]; rewrite not_elem_of_cons.
  - split; [done|]. by intros [? _].
  - rewrite IH. naive_solver.
Qed.

Lemma find_set_values key vs k l :
  find_entry k (set_values key vs l) =
  if decide (k = key) then (match find_entry key l with Some _ => Some (mkEnt key vs) | None => None end) else find_entry k l.
Proof.
  induction l as [|x l IH]; cbn; [by case_decide|]. destruct (Z.eqb_spec (e_key x) key) as [E|E]; cbn.
  - destruct (Z.eqb_spec key k) as [->|Hne]; [by rewrite decide_True|]. rewrite decide_False by done.
    by rewrite E, (proj2 (Z.eqb_neq key k)).
  - destruct (Z.eqb_spec (e_key x) k) as [<-|]; [by rewrite decide_False by done|done].
Qed.
Lemma set_values_keys key vs l : e_key <$> set_values key vs l = e_key <$> l.
Proof. induction l as [|x l IH]; cbn; [done|]. destruct (Z.eqb_spec (e_key x) key) as [<-|]; cbn; [done|by rewrite IH]. Qed.
Lemma elem_of_set_values key vs l e : e ∈ set_values key vs l → e = mkEnt key vs ∨ (e ∈ l ∧ (NoDup (e_key <$> l) → e_key e ≠ key)).
Proof.
  induction l as [|x l IH]; cbn; [intros []%elem_of_nil|]. destruct (Z.eqb_spec (e_key x) key) as [<-|Hne].
  - intros [->|He]%elem_of_cons; [by left|right]. split; [by right|]. intros [Hx _]%NoDup_cons Hk. apply Hx.
    apply list_elem_of_fmap. by exists e.
  - intros [->|He]%elem_of_cons; [right; split; [left|done]|]. destruct (IH He) as [?|[? Hn]]; [by left|right].
    split; [by right|]. intros [_ Hd]%NoDup_cons. by apply Hn.
Qed.

Lemma remove_entry_keys key l e :
  NoDup (e_key <$> l) → NoDup (e_key <$> remove_entry key l) ∧ (e ∈ remove_entry key l ↔ e ∈ l ∧ e_key e ≠ key) ∧
  (∀ k, find_entry k (remove_entry key l) = if decide (k = key) then None else find_entry k l).
Proof.
  induction l as [|x l IH]; cbn; intros Hnd.
  { split; [done|]. split; [|intros k; by case_decide]. split; [intros []%elem_of_nil|]. by intros [[]%elem_of_nil _]. }
  apply NoDup_cons in Hnd as [Hx Hnd]. destruct (IH Hnd) as (H1 & H2 & H3).
  destruct (Z.eqb_spec (e_key x) key) as [<-|Hne]; cbn.
  - split; [done|]. split.
    + split; [intros He|intros [[->|He]%elem_of_cons Hk]; done]. split; [by right|]. intros E. apply Hx.
      apply list_elem_of_fmap. by exists e.
    + intros k. case_decide as E; [subst; by apply find_entry_none|]. by rewrite (proj2 (Z.eqb_neq (e_key x) k)).
  - split.
    { apply NoDup_cons. split; [|done]. intros (y & Ey & Hy)%list_elem_of_fmap. apply Hx. apply list_elem_of_fmap.
      exists y. split; [done|]. revert Hy. clear. induction l as [|z l IH]; cbn; [done|].
      destruct (_ =? _); [by right|]. intros [->|?]%elem_of_cons; [left|right; auto]. }
    split.
    + rewrite !elem_of_cons, H2. naive_solver.
    + intros k. rewrite H3. destruct (Z.eqb_spec (e_key x) k) as [<-|]; [by rewrite decide_False|done].
Qed.

(** *** Adding *)

Lemma values_of_put f key l q k :
  values_of (mkSched (<[bucket key := l]> f) q) k =
  if decide (bucket k = bucket key) then (match find_entry k l with Some e => e_values e | None => [] end)
  else values_of (mkSched f q) k.
Proof.
  unfold values_of. cbn [ht]. case_decide as E; [by rewrite E, fn_lookup_insert|by rewrite fn_lookup_insert_ne].
Qed.

(** the table after [AddToPriorityQueue] has looked up or made the entry *)
Definition with_entry (s : Sched) (key : Z) : Sched :=
  match find_entry key (ht s (bucket key)) with
  | Some _ => s
  | None => mkSched (<[bucket key := ht s (bucket key) ++ [mkEnt key []]]> (ht s)) (pq s)
  end.

Lemma find_entry_app k l e :
  find_entry k (l ++ [e]) = match find_entry k l with Some x => Some x | None => if e_key e =? k then Some e else None end.
Proof. induction l as [|x l IH]; cbn; [done|]. by destruct (e_key x =? k). Qed.

Lemma with_entry_ok s key :
  (∀ b, NoDup (e_key <$> ht s b)) → (∀ b e, e ∈ ht s b → bucket (e_key e) = b ∧ e_values e ≠ []) →
  let s' := with_entry s key in
  pq s' = pq s ∧ (∀ k, values_of s' k = values_of s k) ∧ (∀ b, NoDup (e_key <$> ht s' b)) ∧
  is_Some (find_entry key (ht s' (bucket key))) ∧
  (∀ b e, e ∈ ht s' b → bucket (e_key e) = b ∧ (e_key e = key ∨ e_values e ≠ [])).
Proof.
  intros Hu Ht. unfold with_entry. destruct (find_entry key (ht s (bucket key))) as [e0|] eqn:E; cbn [ht pq].
  { split_and!; [done|done|done|by rewrite E; eexists|]. intros b e He. destruct (Ht b e He). auto. }
  split; [done|]. split.
  { intros k. rewrite values_of_put. case_decide as Ek; [|done]. rewrite find_entry_app. unfold values_of. rewrite Ek.
    destruct (find_entry k (ht s (bucket key))); [done|]. cbn [e_key]. by destruct (Z.eqb_spec key k) as [->|]. }
  split.
  { intros b. destruct (decide (bucket key = b)) as [<-|Hb]; [|by rewrite fn_lookup_insert_ne].
    rewrite fn_lookup_insert, fmap_app. apply NoDup_app. split_and!; [done| |apply NoDup_singleton].
    intros x Hx ->%list_elem_of_singleton. by apply find_entry_none in E. }
  split.
  { rewrite fn_lookup_insert, find_entry_app, E. cbn. rewrite Z.eqb_refl. by eexists. }
  intros b e. destruct (decide (bucket key = b)) as [<-|Hb]; [rewrite fn_lookup_insert|rewrite fn_lookup_insert_ne by done].
  - intros [He| ->%list_elem_of_singleton]%elem_of_app; [destruct (Ht _ e He); auto|]. cbn. auto.
  - intros He. destruct (Ht b e He); auto.
Qed.

Lemma of_key_app k ab v : of_key k (ab ++ [v]) = of_key k ab ++ (if decide (vkey v = k) then [v] else []).
Proof.
  unfold of_key. rewrite filter_app. destruct (decide (vkey v = k)) as [E|E].
  - by rewrite (filter_cons_True _ v []).
  - by rewrite (filter_cons_False _ v []).
Qed.

Lemma AddToPriorityQueue_ok s ab rt st :
  sched_inv s ab → sched_inv (AddToPriorityQueue s rt st) (ab ++ [mkVal rt st]).
Proof.
  intros [Hh Hnd Hk Hv Ht Hu]. set (key := sched_key rt). set (v := mkVal rt st).
  change (AddToPriorityQueue s rt st) with (IngestPending (with_entry s key) key v).
  destruct (with_entry_ok s key Hu Ht) as (W1 & W2 & W3 & [e0 W4] & W5). set (s1 := with_entry s key) in *.
  assert (Hvk : vkey v = key) by done.
  unfold IngestPending. rewrite W2, Hv, W1. set (vs := of_key key ab).
  set (q' := if decide (vs = []) then _ else _).
  assert (Hq : heap Greater q' ∧ NoDup q' ∧ ∀ k, k ∈ q' ↔ k ∈ pq s ∨ k = key).
  { unfold q'. case_decide as E.
    - destruct (push_heap_ok Greater (pq s) key Hh) as [H1 H2]. split; [done|].
      assert (Hn : key ∉ pq s) by (rewrite Hk; by intros H).
      split.
      { rewrite H2. apply NoDup_app. split; [done|]. split; [|apply NoDup_singleton].
        intros x Hx ->%list_elem_of_singleton. done. }
      intros k. rewrite H2, elem_of_app, list_elem_of_singleton. done.
    - split; [done|]. split; [done|]. intros k. split; [by left|]. intros [?| ->]; [done|]. by apply Hk. }
  destruct Hq as (Q1 & Q2 & Q3). split; cbn [pq ht]; try done.
  - intros k. rewrite Q3, Hk, of_key_app, Hvk. case_decide as E.
    + subst k. split; [intros _ Hx; by apply app_eq_nil in Hx as [_ ?]|]. intros _. by right.
    + rewrite app_nil_r. naive_solver.
  - intros k. rewrite values_of_put, of_key_app, Hvk, find_set_values, W4.
    destruct (decide (k = key)) as [->|Hne].
    + rewrite !decide_True by done. cbn. done.
    + rewrite (decide_False (P := key = k)) by done. rewrite app_nil_r, <- Hv, <- W2. unfold values_of.
      by case_decide as E; [rewrite E|].
  - intros b e. destruct (decide (bucket key = b)) as [<-|Hb]; [rewrite fn_lookup_insert|rewrite fn_lookup_insert_ne by done].
    + intros [->|[He Hn]]%elem_of_set_values; [split; [done|]; cbn; intros Hx; by apply app_eq_nil in Hx as [_ ?]|].
      destruct (W5 _ e He) as [? [E|?]]; [|done]. by apply Hn in E.
    + intros He. destruct (W5 b e He) as [Eb [E|?]]; [|done]. rewrite E in Eb. done.
  - intros b. destruct (decide (bucket key = b)) as [<-|Hb]; [rewrite fn_lookup_insert, set_values_keys|rewrite fn_lookup_insert_ne by done]; done.
Qed.

(** *** Picking and consuming *)

Lemma first_of_key k ab v vs :
  of_key k ab = v :: vs → ∃ l1 l2, ab = l1 ++ v :: l2 ∧ vkey v = k ∧ (∀ x, x ∈ l1 → vkey x ≠ k) ∧ of_key k l2 = vs.
Proof.
  unfold of_key. induction ab as [|x ab IH]; [done|]. destruct (decide (vkey x = k)) as [E|E].
  - rewrite filter_cons_True by done. intros [= -> <-]. exists [], ab. split_and!; try done. intros y []%elem_of_nil.
  - rewrite filter_cons_False by done. intros H. destruct (IH H) as (l1 & l2 & -> & Hv & Hl & Hf).
    exists (x :: l1), l2. split_and!; try done. intros y [->|Hy]%elem_of_cons; [done|by apply Hl].
Qed.

(** the top of the heap is the least key of the pieces *)
Lemma top_least s ab : sched_inv s ab → ab ≠ [] →
  ∃ top rest v vs l1 l2, pq s = top :: rest ∧ values_of s top = v :: vs ∧ vkey v = top ∧
    ab = l1 ++ v :: l2 ∧ (∀ x, x ∈ l1 → vkey x ≠ top) ∧ of_key top l2 = vs ∧ (∀ x, x ∈ ab → top ≤ vkey x).
Proof.
  intros [Hh Hnd Hk Hv Ht Hu] Hne.
  assert (Hin : ∀ x, x ∈ ab → vkey x ∈ pq s).
  { intros x Hx. apply Hk. unfold of_key. intros E. by apply (filter_nil_not_elem_of _ _ x) in E. }
  destruct ab as [|x0 ab0] eqn:Eab; [done|]. rewrite <- Eab in *. clear Hne.
  destruct (pq s) as [|top rest] eqn:Eq.
  { specialize (Hin x0). rewrite Eab in Hin. specialize (Hin ltac:(left)). by apply elem_of_nil in Hin. }
  assert (Htop : of_key top ab ≠ []) by (apply Hk; left).
  destruct (of_key top ab) as [|v vs] eqn:Ev; [done|].
  destruct (first_of_key top ab v vs Ev) as (l1 & l2 & El & Hvk & Hl1 & Hf).
  exists top, rest, v, vs, l1, l2. split; [done|]. split; [by rewrite Hv|]. split; [done|]. split; [done|].
  split; [done|]. split; [done|]. intros x Hx. pose proof (heap_min_elem Greater _ _ Hh (Hin x Hx)) as Hm.
  cbn in Hm. unfold Greater in Hm. zprop. done.
Qed.

Lemma Pick_ok s ab : sched_inv s ab → ab ≠ [] → ∃ v l1 l2, Pick s = Ok v ∧ first_least ab v l1 l2.
Proof.
  intros Hi Hne. destruct (top_least s ab Hi Hne) as (top & rest & v & vs & l1 & l2 & Eq & Ev & Hvk & El & H1 & _ & Hm).
  exists v, l1, l2. unfold Pick. rewrite Eq, Ev. split; [done|]. split; [done|]. rewrite Hvk. split.
  - intros x Hx. specialize (H1 x Hx). specialize (Hm x). rewrite El in Hm. specialize (Hm ltac:(apply elem_of_app; by left)). lia.
  - intros x Hx. apply Hm. rewrite El. apply elem_of_app. right. by right.
Qed.

Lemma of_key_remove k l1 v l2 :
  of_key k (l1 ++ l2) = of_key k l1 ++ of_key k l2 ∧ (vkey v ≠ k → of_key k (l1 ++ v :: l2) = of_key k (l1 ++ l2)).
Proof.
  unfold of_key. split; [apply filter_app|]. intros H. rewrite !filter_app. by rewrite filter_cons_False.
Qed.

Lemma Consume_ok s ab : sched_inv s ab → ab ≠ [] →
  ∃ v l1 l2 s', Pick s = Ok v ∧ first_least ab v l1 l2 ∧ Consume s = Ok s' ∧ sched_inv s' (l1 ++ l2).
Proof.
  intros Hi Hne. destruct (top_least s ab Hi Hne) as (top & rest & v & vs & l1 & l2 & Eq & Ev & Hvk & El & H1 & Hf & Hm).
  assert (Hpick : Pick s = Ok v ∧ first_least ab v l1 l2).
  { unfold Pick. rewrite Eq, Ev. split; [done|]. split; [done|]. rewrite Hvk. rewrite El in Hm. split.
    - intros x Hx. specialize (H1 x Hx). specialize (Hm x ltac:(apply elem_of_app; by left)). lia.
    - intros x Hx. apply Hm. apply elem_of_app. right. by right. }
  destruct Hpick as [HP HL]. exists v, l1, l2. unfold Consume. rewrite Eq, Ev.
  destruct Hi as [Hh Hnd Hk Hv Ht Hu].
  assert (Hl1 : of_key top l1 = []) by (apply filter_none; done).
  assert (Htop : of_key top (l1 ++ l2) = vs) by (rewrite (proj1 (of_key_remove top l1 v l2)), Hl1; done).
  assert (Hoth : ∀ k, k ≠ top → of_key k (l1 ++ l2) = of_key k ab).
  { intros k Hk'. rewrite El. symmetry. apply of_key_remove. congruence. }
  assert (Hfe : is_Some (find_entry top (ht s (bucket top)))).
  { unfold values_of in Ev. destruct (find_entry top (ht s (bucket top))); [by eexists|done]. }
  destruct Hfe as [e0 Hfe].
  set (tb := set_values top vs (ht s (bucket top))).
  assert (Hftb : ∀ k, find_entry k tb = if decide (k = top) then Some (mkEnt top vs) else find_entry k (ht s (bucket top))).
  { intros k. unfold tb. rewrite find_set_values, Hfe. done. }
  assert (Hutb : NoDup (e_key <$> tb)) by (unfold tb; by rewrite set_values_keys).
  cbn [ht pq]. case_decide as Evs.
  - rewrite fn_lookup_insert. eexists. split; [done|]. split; [done|]. split; [done|].
    destruct (pop_heap_ok Greater top rest) as (q' & Hp & Hq1 & Hq2); [by rewrite <- Eq|].
    assert (Hql : length q' = length rest) by (by rewrite Hq2).
    rewrite Hp. cbn [length]. replace (S (length rest) - 1)%nat with (length rest) by lia. rewrite take_app_length' by done.
    rewrite Eq in Hnd. apply NoDup_cons in Hnd as [Hn1 Hn2].
    destruct (remove_entry_keys top tb e0 Hutb) as (R1 & _ & R3).
    split; cbn [pq ht]; try done.
    + by rewrite Hq2.
    + intros k. rewrite Hq2. destruct (decide (k = top)) as [->|Hkt].
      * rewrite Htop, Evs. naive_solver.
      * rewrite Hoth by done. rewrite <- Hk, Eq, elem_of_cons. naive_solver.
    + intros k. rewrite values_of_put, R3, Hftb. destruct (decide (k = top)) as [->|Hkt].
      * rewrite decide_True by done. by rewrite Htop, Evs.
      * rewrite Hoth, <- Hv by done. unfold values_of. case_decide as Eb; [by rewrite Eb|].
        cbn [ht]. by rewrite fn_lookup_insert_ne.
    + intros b e. destruct (decide (bucket top = b)) as [<-|Hb];
        [rewrite fn_lookup_insert|rewrite !fn_lookup_insert_ne by done; apply Ht].
      intros He. destruct (remove_entry_keys top tb e Hutb) as (_ & R2 & _). apply R2 in He as [He Hek].
      apply elem_of_set_values in He as [->|[He _]]; [done|]. by apply Ht.
    + intros b. destruct (decide (bucket top = b)) as [<-|Hb]; [by rewrite fn_lookup_insert|by rewrite !fn_lookup_insert_ne].
  - eexists. split; [done|]. split; [done|]. split; [done|]. rewrite <- Eq. split; cbn [pq ht].
    + done.
    + done.
    + intros k. rewrite Hk. destruct (decide (k = top)) as [->|Hkt]; [|by rewrite Hoth].
      rewrite Htop, <- Hv, Ev. done.
    + intros k. rewrite values_of_put, Hftb. destruct (decide (k = top)) as [->|Hkt].
      * by rewrite decide_True, Htop.
      * rewrite Hoth, <- Hv by done. unfold values_of. by case_decide as Eb; [rewrite Eb|].
    + intros b e. destruct (decide (bucket top = b)) as [<-|Hb]; [rewrite fn_lookup_insert|rewrite !fn_lookup_insert_ne by done; apply Ht].
      intros [->|[He _]]%elem_of_set_values; [done|by apply Ht].
    + intros b. destruct (decide (bucket top = b)) as [<-|Hb]; [by rewrite fn_lookup_insert|by rewrite fn_lookup_insert_ne].
Qed.

Lemma empty_sched_ok : sched_inv empty_sched [].
Proof.
  split.
  - intros j Hj. cbn in Hj. lia.
  - constructor.
  - intros k. split; [by intros ?%elem_of_nil|done].
  - done.
  - intros b e []%elem_of_nil.
  - intros b. constructor.
Qed.
