(* ===== verification/Dispatch.v ===== *)
(** The execution dispatch service of one core (routine_sched.cc
    [EpochExecutionDispatchService] with the conservative policy): the queue of
    unordered pieces, the ring of pending pieces, the priority queue and the
    window of preempted coroutines. *)

From S2P Require Import Prelude Heap SchedQueue.

(** ** State *)

Record WaitState := mkWait {
  ws_state : Z;            (* the preempted ExecutionRoutine *)
  ws_sched_key : Z;
  preempt_ts : Z;
  preempt_key : Z;
  preempt_times : Z;
}.

(** [Greater] on wait states *)
Definition WGreater (a b : WaitState) : bool :=
  if preempt_key b <? preempt_key a then true
  else if preempt_key a <? preempt_key b then false
  else ws_sched_key b <? ws_sched_key a.

#[export] Instance WaitState_inhabited : Inhabited WaitState := populate (mkWait 0 0 0 0 0).
#[export] Instance WGreater_order : StrictOrderB WGreater.
Proof.
  split; unfold WGreater; intros; repeat case_match; zprop; try done; zcase; try done; try lia.
Qed.

Definition kOutOfOrderWindow : Z := 25.
Definition keyThreshold : Z := 17000.
Definition max_backoff : Z := 40.

Record Pending := mkPending { ring : Z → Routine; p_start : Z; p_end : Z }.       (* atomic_uint counters *)
Record Waiting := mkWaiting { states : list WaitState; unique_preempts : Z; w_len : Z }.
Record ZeroQueue := mkZQ { zq_q : Z → Routine; zq_end : Z; zq_start : Z }.
Inductive Running := kSleeping | kRunning | kDeciding.
Record State := mkState { current_sched_key : Z; ts : Z; completed : Z; running : Running }.
Record Queue := mkQ {
  pol : Sched;
  pending : Pending;
  waiting : Waiting;
  zq : ZeroQueue;
  st : State;
}.

(** ** Adding pieces *)

Section Operations.
(** [g_max_item / g_nr_threads] *)
Variable max_item_percore : Z.

(** the loop of [Add] up to the point where it ends or jumps to [again]: the
    routines left, the counts and the arrays *)
Fixpoint add_pass (rs : list Routine) (zend pend plimit zdelta pdelta : Z) (zs ps : Z → Routine)
    : result (list Routine * Z * Z * (Z → Routine) * (Z → Routine)) :=
  match rs with
  | [] => mret ([], zdelta, pdelta, zs, ps)
  | r :: rs' =>
      if sched_key r =? 0 then
        let pos := zend + zdelta in
        _ ← abort_if (max_item_percore <=? pos);
        add_pass rs' zend pend plimit (zdelta + 1) pdelta (<[pos := r]> zs) ps
      else if plimit <=? pdelta then mret (rs, zdelta, pdelta, zs, ps)
      else add_pass rs' zend pend plimit zdelta (pdelta + 1) zs (<[(pend + pdelta) mod max_item_percore := r]> ps)
  end.

(** [again]: the counts start from zero, [i] does not; [starts] are the values
    of [pending.start] the passes read *)
Fixpoint add_again (starts : list Z) (rs : list Routine) (zend pend : Z) (zs ps : Z → Routine)
    : result (Z * Z * (Z → Routine) * (Z → Routine)) :=
  match starts with
  | [] => Err Blocked
  | start :: starts =>
      '(rest, zdelta, pdelta, zs, ps) ←
        add_pass rs zend pend (u64 (max_item_percore - u64 (pend - start))) 0 0 zs ps;
      match rest with
      | [] => mret (zdelta, pdelta, zs, ps)
      | _ :: _ => add_again starts rest zend pend zs ps
      end
  end.

(** [EpochExecutionDispatchService::Add], under the queue's lock *)
Definition Add (q : Queue) (rs : list Routine) (starts : list Z) : result Queue :=
  let z := zq q in let p := pending q in
  '(zdelta, pdelta, zs, ps) ← add_again starts rs (zq_end z) (p_end p) (zq_q z) (ring p);
  mret (mkQ (pol q) (mkPending ps (p_start p) (u32 (p_end p + pdelta))) (waiting q)
          (mkZQ zs (u64 (zq_end z + zdelta)) (zq_start z)) (st q)).

(** [ProcessPending]: [plen] is a [long] computed from an [unsigned] end and a
    [size_t] start, and compared as an unsigned number *)
Definition pending_count (p : Pending) : Z := u64 (p_end p - p_start p).
Definition ProcessPending (q : Queue) : Queue :=
  let p := pending q in
  let plen := pending_count p in
  let pol' := foldl (fun s i => AddToPriorityQueue s (ring p ((p_start p + i) mod max_item_percore)) None)
                (pol q) (seqZ 0 plen) in
  mkQ pol' (mkPending (ring p) (u32 (p_start p + plen)) (p_end p)) (waiting q) (zq q) (st q).

(** ** Peeking *)

(** [ConservativePriorityScheduler::ShouldPickWaiting] *)
Definition ShouldPickWaiting (s : Sched) (ws : WaitState) : bool :=
  match pq s with [] => true | top :: _ => preempt_key ws <? top end.

Inductive Peeked :=
  | NotReady
  | PoppedZero (r : Routine)
  | PoppedWaiting (ws : WaitState)
  | PoppedPiece (v : PQValue)
  | Declined
  | Drained (n : Z).          (* the completions notified *)

Definition set_running (s : State) (x : Running) : State := mkState (current_sched_key s) (ts s) (completed s) x.

(** the zero-queue part of [Peek] *)
Definition peek_zero (should_pop : option Routine → option Z → bool) (q : Queue) : Peeked * Queue :=
  let z := zq q in
  let r := zq_q z (zq_start z) in
  let s := set_running (st q) kRunning in
  if should_pop (Some r) None then
    (PoppedZero r, mkQ (pol q) (pending q) (waiting q) (mkZQ (zq_q z) (zq_end z) (zq_start z + 1))
                     (mkState (sched_key r) (ts s) (completed s) (running s)))
  else (Declined, mkQ (pol q) (pending q) (waiting q) z s).

Definition peek_waiting (should_pop : option Routine → option Z → bool) (q : Queue) (ws : WaitState) : Peeked * Queue :=
  let w := waiting q in
  if should_pop None (Some (ws_state ws)) then
    let n := Z.to_nat (w_len w) in
    (PoppedWaiting ws,
     mkQ (pol q) (pending q)
       (mkWaiting (pop_heap WGreater (take n (states w)) ++ drop n (states w)) (unique_preempts w) (w_len w - 1))
       (zq q) (mkState (ws_sched_key ws) (ts (st q) + 1) (completed (st q)) (running (st q))))
  else (Declined, q).

Definition peek_piece (should_pop : option Routine → option Z → bool) (q : Queue) : result (Peeked * Queue) :=
  node ← Pick (pol q);
  if should_pop (Some (v_routine node)) (v_state node) then
    pol' ← Consume (pol q);
    mret (PoppedPiece node, mkQ pol' (pending q) (waiting q) (zq q)
            (mkState (vkey node) (ts (st q) + 1) (completed (st q)) (running (st q))))
  else mret (Declined, q).

(** [EpochExecutionDispatchService::Peek]; [ready] is [IsReady], [should_pop]
    the listener's answer *)
Definition Peek (ready : bool) (should_pop : option Routine → option Z → bool) (q : Queue) (tot_bubbles : Z)
    : result (Peeked * Queue * Z) :=
  if negb ready then
    mret (NotReady, mkQ (pol q) (pending q) (waiting q) (zq q) (set_running (st q) kSleeping), tot_bubbles)
  else if zq_start (zq q) <? zq_end (zq q) then mret (peek_zero should_pop q, tot_bubbles)
  else
    let idle := bool_decide (pq (pol q) = []) && (w_len (waiting q) =? 0) && (p_end (pending q) =? p_start (pending q)) in
    let q := mkQ (pol q) (pending q) (waiting q) (zq q) (set_running (st q) (if idle then kSleeping else kRunning)) in
    let q := ProcessPending q in
    let w := waiting q in
    let ws := states w !!! 0%nat in
    if (0 <? w_len w) && ((w_len w =? kOutOfOrderWindow) || ShouldPickWaiting (pol q) ws)
    then mret (peek_waiting should_pop q ws, tot_bubbles)
    else if negb (bool_decide (pq (pol q) = [])) then
      '(p, q) ← peek_piece should_pop q; mret (p, q, tot_bubbles)
    else
      let s := st q in
      mret (Drained (completed s + tot_bubbles),
            mkQ (pol q) (pending q) (waiting q) (zq q) (mkState (current_sched_key s) (ts s) 0 (running s)), 0).

(** ** Preemption and completion *)

(** the wait state [Preempt] writes into the next slot of the heap *)
Definition wait_slot (s : State) (old : WaitState) (routine_state : Z) : WaitState :=
  let times := if ws_sched_key old =? current_sched_key s then u64 (preempt_times old + 1) else 1 in
  mkWait routine_state (current_sched_key s) (ts s)
    (u64 (current_sched_key s + keyThreshold * Z.min times max_backoff)) times.

(** [EpochExecutionDispatchService::Preempt] *)
Definition Preempt (q : Queue) (routine_state : Z) : result (bool * Queue) :=
  let q := ProcessPending q in
  let s := st q in let w := waiting q in
  if current_sched_key s =? 0 then mret (false, q) else
  _ ← abort_if (w_len w =? kOutOfOrderWindow);
  let n := Z.to_nat (w_len w) in
  let old := states w !!! n in
  let ws := wait_slot s old routine_state in
  let uniq := if ws_sched_key old =? current_sched_key s then unique_preempts w else u32 (unique_preempts w + 1) in
  let sts := <[n := ws]> (states w) in
  if (w_len w =? 0) && ShouldPickWaiting (pol q) ws
  then mret (false, mkQ (pol q) (pending q) (mkWaiting sts uniq (w_len w)) (zq q) s)
  else mret (true, mkQ (pol q) (pending q)
               (mkWaiting (push_heap WGreater (take (S n) sts) ++ drop (S n) sts) uniq (w_len w + 1)) (zq q) s).

(** [EpochExecutionDispatchService::Complete] *)
Definition Complete (q : Queue) : Queue :=
  let s := st q in
  mkQ (pol q) (pending q) (waiting q) (zq q) (mkState (current_sched_key s) (ts s) (completed s + 1) (running s)).

(** [EpochExecutionDispatchService::AddBubble] on [tot_bubbles] *)
Definition AddBubble (tot_bubbles : Z) : Z := u64 (tot_bubbles + 1).

(** [EpochExecutionDispatchService::Reset] of one core: the pending ring and
    the window keep their counters *)
Definition Dispatch_Reset (q : Queue) : result Queue :=
  let s := st q in
  match running s with
  | kDeciding => Err Blocked
  | _ =>
      _ ← abort_if (negb (bool_decide (pq (pol q) = [])));
      mret (mkQ (pol q) (pending q) (waiting q) (mkZQ (zq_q (zq q)) 0 0) (mkState 0 0 (completed s) (running s)))
  end.

(** [EpochExecutionDispatchService::IsRunning]: spins while deciding *)
Definition IsRunning (q : Queue) : result bool :=
  match running (st q) with kDeciding => Err Blocked | kRunning => mret true | kSleeping => mret false end.
End Operations.

(** ** Contents and invariant *)

(** an unordered piece *)
Definition is_zero (r : Routine) : Prop := sched_key r = 0.
#[export] Instance is_zero_dec r : Decision (is_zero r) := decide (sched_key r = 0).
Abbreviation zeros rs := (filter is_zero rs).
Abbreviation ordered rs := (filter (fun r => ¬ is_zero r) rs).

Section Invariant.
Context (max : Z) (Hmax : 0 < max < 2 ^ 32).

Definition zero_list (q : Queue) : list Routine :=
  zq_q (zq q) <$> seqZ (zq_start (zq q)) (zq_end (zq q) - zq_start (zq q)).
Definition pending_list (q : Queue) : list Routine :=
  (fun i => ring (pending q) (i mod max)) <$> seqZ (p_start (pending q)) (p_end (pending q) - p_start (pending q)).
Definition waiting_list (q : Queue) : list WaitState := take (Z.to_nat (w_len (waiting q))) (states (waiting q)).

Record queue_inv (q : Queue) (ab : list PQValue) : Prop := {
  qi_pol : sched_inv (pol q) ab;
  qi_pending : 0 ≤ p_start (pending q) ≤ p_end (pending q) ∧ p_end (pending q) < 2 ^ 32 ∧
    p_end (pending q) - p_start (pending q) ≤ max;
  qi_zero : 0 ≤ zq_start (zq q) ≤ zq_end (zq q) ∧ zq_end (zq q) ≤ max;
  qi_window : len (states (waiting q)) = kOutOfOrderWindow ∧ 0 ≤ w_len (waiting q) ≤ kOutOfOrderWindow;
  qi_heap : heap WGreater (waiting_list q);
}.

Definition fresh (r : Routine) : PQValue := mkVal r None.

Lemma process_fold (f : Z → Routine) l : ∀ s ab,
  sched_inv s ab → sched_inv (foldl (fun s i => AddToPriorityQueue s (f i) None) s l) (ab ++ (fresh ∘ f <$> l)).
Proof.
  induction l as [|i l IH]; intros s ab Hs; cbn; [by rewrite app_nil_r|].
  rewrite cons_middle, app_assoc. apply IH. by apply AddToPriorityQueue_ok.
Qed.

(** the pending pieces go to the priority queue in order *)
Lemma ProcessPending_ok q ab :
  queue_inv q ab →
  queue_inv (ProcessPending max q) (ab ++ (fresh <$> pending_list q)) ∧ pending_list (ProcessPending max q) = [] ∧
  waiting (ProcessPending max q) = waiting q ∧ zq (ProcessPending max q) = zq q ∧ st (ProcessPending max q) = st q.
Proof.
  intros [Q1 Q2 Q3 Q4 Q5]. unfold ProcessPending, pending_count. set (p := pending q) in *.
  rewrite u64_id by lia. rewrite u32_id by lia. split; [|split; [|done]].
  - split; cbn [pol pending waiting zq p_start p_end]; try done; [|lia].
    replace (fresh <$> pending_list q) with
      (fresh ∘ (fun i => ring p ((p_start p + i) mod max)) <$> seqZ 0 (p_end p - p_start p)); [by apply process_fold|].
    unfold pending_list. fold p. rewrite <- list_fmap_compose. apply list_eq. intros i. rewrite !list_lookup_fmap.
    destruct (decide (Z.of_nat i < p_end p - p_start p)).
    + rewrite !lookup_seqZ_lt by lia. cbn. by rewrite Z.add_0_l.
    + by rewrite !lookup_seqZ_ge by lia.
  - unfold pending_list. cbn [pending p_start p_end]. by rewrite seqZ_nil by lia.
Qed.

(** *** Adding *)

Lemma mod_differs x d : 0 < d < max → (x + d) mod max ≠ x mod max.
Proof.
  intros Hd E. assert (Hz : ((x + d) - x) mod max = 0) by (rewrite Zminus_mod, E, Z.sub_diag; by apply Z.mod_0_l; lia).
  replace (x + d - x) with d in Hz by lia. rewrite Z.mod_small in Hz; lia.
Qed.

Lemma add_pass_ok zend pend plimit rs : ∀ zdelta pdelta zs ps,
  0 ≤ pdelta → pdelta + len (ordered rs) ≤ plimit → plimit ≤ max → zend + zdelta + len (zeros rs) ≤ max →
  ∃ zs' ps', add_pass max rs zend pend plimit zdelta pdelta zs ps =
      Ok ([], zdelta + len (zeros rs), pdelta + len (ordered rs), zs', ps') ∧
    zs' <$> seqZ (zend + zdelta) (len (zeros rs)) = zeros rs ∧ (∀ i, i < zend + zdelta → zs' i = zs i) ∧
    (fun i => ps' (i mod max)) <$> seqZ (pend + pdelta) (len (ordered rs)) = ordered rs ∧
    (∀ i, pend + pdelta + len (ordered rs) - max ≤ i < pend + pdelta → ps' (i mod max) = ps (i mod max)).
Proof.
  induction rs as [|r rs IH]; intros zdelta pdelta zs ps Hp Hpl Hlim Hz; cbn [add_pass].
  { exists zs, ps. rewrite !filter_nil. cbn. rewrite !Z.add_0_r. done. }
  destruct (Z.eqb_spec (sched_key r) 0) as [E|E].
  - rewrite (filter_cons_True is_zero), (filter_cons_False (fun r => ¬ is_zero r)) in * by (unfold is_zero; tauto).
    cbn [length] in Hz |- *.
    rewrite (proj2 (Z.leb_gt max (zend + zdelta))) by lia. cbn [abort_if mbind result_bind].
    destruct (IH (zdelta + 1) pdelta (<[zend + zdelta := r]> zs) ps) as (zs' & ps' & -> & H1 & H2 & H3 & H4); [lia..|].
    exists zs', ps'. split; [do 5 f_equal; lia|]. split; [|split; [|done]].
    + rewrite seqZ_cons by lia. cbn. f_equal.
      * rewrite H2 by lia. apply fn_lookup_insert.
      * rewrite <- H1 at 2. f_equal. f_equal; lia.
    + intros i Hi. rewrite H2 by lia. apply fn_lookup_insert_ne. lia.
  - rewrite (filter_cons_False is_zero), (filter_cons_True (fun r => ¬ is_zero r)) in * by (unfold is_zero; tauto).
    cbn [length] in Hpl |- *. rewrite (proj2 (Z.leb_gt plimit pdelta)) by lia.
    destruct (IH zdelta (pdelta + 1) zs (<[(pend + pdelta) mod max := r]> ps)) as (zs' & ps' & -> & H1 & H2 & H3 & H4); [lia..|].
    exists zs', ps'. split; [do 4 f_equal; lia|]. split; [done|]. split; [done|]. split.
    + rewrite seqZ_cons by lia. cbn. f_equal.
      * rewrite H4 by lia. apply fn_lookup_insert.
      * rewrite <- H3 at 2. f_equal. f_equal; lia.
    + intros i Hi. rewrite H4 by lia. apply fn_lookup_insert_ne.
      intros Heq. apply (mod_differs i (pend + pdelta - i)); [lia|]. rewrite <- Heq. f_equal. lia.
Qed.

(** a batch that fits is appended to the two queues, in order *)
Lemma Add_ok q ab rs starts :
  queue_inv q ab → zq_end (zq q) + len (zeros rs) ≤ max →
  p_end (pending q) - p_start (pending q) + len (ordered rs) ≤ max → p_end (pending q) + len (ordered rs) < 2 ^ 32 →
  ∃ q', Add max q rs (p_start (pending q) :: starts) = Ok q' ∧ queue_inv q' ab ∧
    zero_list q' = zero_list q ++ zeros rs ∧ pending_list q' = pending_list q ++ ordered rs ∧
    pol q' = pol q ∧ waiting q' = waiting q ∧ st q' = st q.
Proof.
  intros [Q1 Q2 Q3 Q4 Q5] Hz Hp Hw. unfold Add. cbn [add_again]. set (z := zq q) in *. set (p := pending q) in *.
  rewrite (u64_id (p_end p - p_start p)) by lia. rewrite u64_id by lia.
  destruct (add_pass_ok (zq_end z) (p_end p) (max - (p_end p - p_start p)) rs 0 0 (zq_q z) (ring p))
    as (zs' & ps' & -> & H1 & H2 & H3 & H4); [lia..|].
  rewrite !Z.add_0_l, !Z.add_0_r in *. cbn [mbind result_bind mret result_ret].
  rewrite u32_id by lia. rewrite u64_id by lia. eexists. split; [done|]. split.
  { split; cbn [pol pending waiting zq p_start p_end zq_start zq_end]; try done; lia. }
  unfold zero_list, pending_list. cbn [pending zq p_start p_end zq_start zq_end zq_q ring]. fold z p. split; [|split; [|done]].
  - replace (zq_end z + len (zeros rs) - zq_start z) with ((zq_end z - zq_start z) + len (zeros rs)) by lia.
    rewrite seqZ_app, fmap_app by lia. f_equal.
    + apply list_fmap_ext. intros k i Hi. apply lookup_seqZ in Hi as [-> ?]. apply H2. lia.
    + rewrite <- H1 at 2. do 2 f_equal. lia.
  - replace (p_end p + len (ordered rs) - p_start p) with ((p_end p - p_start p) + len (ordered rs)) by lia.
    rewrite seqZ_app, fmap_app by lia. f_equal.
    + apply list_fmap_ext. intros k i Hi. apply lookup_seqZ in Hi as [-> ?]. apply H4. lia.
    + rewrite <- H3 at 2. do 2 f_equal. lia.
Qed.
(** *** Peeking *)

Lemma pq_empty s ab : sched_inv s ab → pq s = [] ↔ ab = [].
Proof.
  intros Hs. split.
  - intros E. destruct ab as [|v ab]; [done|]. destruct (top_least s (v :: ab) Hs) as (?&?&?&?&?&?& Eq & _); [done|].
    by rewrite E in Eq.
  - intros ->. destruct (pq s) as [|k l] eqn:E; [done|]. assert (Hk : k ∈ pq s) by (rewrite E; left).
    by apply (si_keys _ _ Hs) in Hk.
Qed.

(** the waiting coroutine is preferred to all pieces, strictly *)
Lemma ShouldPickWaiting_ok s ab ws :
  sched_inv s ab → ShouldPickWaiting s ws = true ↔ ∀ v, v ∈ ab → preempt_key ws < vkey v.
Proof.
  intros Hs. unfold ShouldPickWaiting. destruct (pq s) as [|top rest] eqn:E.
  { apply (pq_empty s ab Hs) in E as ->. split; [|done]. intros _ v []%elem_of_nil. }
  assert (Hne : ab ≠ []) by (intros H; apply (pq_empty s ab Hs) in H; congruence).
  destruct (top_least s ab Hs Hne) as (t & r & v & vs & l1 & l2 & Eq & _ & Hv & El & _ & _ & Hm).
  rewrite E in Eq. injection Eq as <- <-. split.
  - intros Hlt x Hx. zprop. specialize (Hm x Hx). lia.
  - intros H. apply Z.ltb_lt. rewrite <- Hv. apply H. rewrite El. apply elem_of_app. right. left.
Qed.

(** all ordered pieces, in arrival order *)
Definition pieces (q : Queue) (ab : list PQValue) : list PQValue := ab ++ (fresh <$> pending_list q).
Definition least_waiting (q : Queue) (ws : WaitState) : Prop :=
  ws ∈ waiting_list q ∧ ∀ x, x ∈ waiting_list q → WGreater ws x = false.

(** what [Peek] may do with the queue *)
Inductive peek_spec (sp : option Routine → option Z → bool) (q : Queue) (ab : list PQValue) (bubbles : Z) :
    Peeked → Queue → list PQValue → Prop :=
| ps_zero r q' :
    zero_list q = r :: zero_list q' → sp (Some r) None = true →
    pending_list q' = pending_list q → waiting q' = waiting q → current_sched_key (st q') = sched_key r →
    peek_spec sp q ab bubbles (PoppedZero r) q' ab
| ps_waiting ws q' :
    zero_list q = [] → zero_list q' = [] → pending_list q' = [] → least_waiting q ws →
    w_len (waiting q) = kOutOfOrderWindow ∨ (∀ v, v ∈ pieces q ab → preempt_key ws < vkey v) →
    sp None (Some (ws_state ws)) = true → waiting_list q ≡ₚ ws :: waiting_list q' →
    w_len (waiting q') = w_len (waiting q) - 1 → current_sched_key (st q') = ws_sched_key ws →
    peek_spec sp q ab bubbles (PoppedWaiting ws) q' (pieces q ab)
| ps_piece v l1 l2 q' :
    zero_list q = [] → zero_list q' = [] → pending_list q' = [] → first_least (pieces q ab) v l1 l2 →
    (∀ ws, least_waiting q ws → vkey v ≤ preempt_key ws) → w_len (waiting q) < kOutOfOrderWindow →
    sp (Some (v_routine v)) (v_state v) = true → waiting q' = waiting q → current_sched_key (st q') = vkey v →
    peek_spec sp q ab bubbles (PoppedPiece v) q' (l1 ++ l2)
| ps_declined r w q' ab' :
    sp r w = false → zero_list q' = zero_list q → pieces q' ab' = pieces q ab → waiting q' = waiting q →
    peek_spec sp q ab bubbles Declined q' ab'
| ps_drained q' :
    zero_list q = [] → pieces q ab = [] → waiting_list q = [] → zero_list q' = [] → pending_list q' = [] →
    waiting q' = waiting q → completed (st q') = 0 →
    peek_spec sp q ab bubbles (Drained (completed (st q) + bubbles)) q' [].

Lemma zero_list_cons q : zq_start (zq q) < zq_end (zq q) →
  zero_list q = zq_q (zq q) (zq_start (zq q)) ::
    (zq_q (zq q) <$> seqZ (zq_start (zq q) + 1) (zq_end (zq q) - (zq_start (zq q) + 1))).
Proof. intros H. unfold zero_list. rewrite seqZ_cons by lia. cbn. do 3 f_equal; lia. Qed.

Lemma peek_zero_ok sp q ab b :
  queue_inv q ab → zq_start (zq q) < zq_end (zq q) →
  let '(p, q') := peek_zero sp q in queue_inv q' ab ∧ peek_spec sp q ab b p q' ab.
Proof.
  intros [Q1 Q2 Q3 Q4 Q5] Hz. unfold peek_zero. destruct (sp _ None) eqn:E.
  - split; [split; cbn [pol pending waiting zq zq_start zq_end]; try done; lia|].
    eapply ps_zero; [by rewrite zero_list_cons|done..].
  - split; [done|]. by eapply ps_declined.
Qed.

Lemma waiting_head q ab : queue_inv q ab → 0 < w_len (waiting q) →
  ∃ rest, waiting_list q = (states (waiting q) !!! 0%nat) :: rest ∧ least_waiting q (states (waiting q) !!! 0%nat).
Proof.
  intros [_ _ _ [Q4 Q4'] Q5] Hw.
  assert (Hn : ∃ n, Z.to_nat (w_len (waiting q)) = S n) by (exists (Z.to_nat (w_len (waiting q) - 1)); lia).
  destruct Hn as [n Hn].
  destruct (states (waiting q)) as [|ws l] eqn:E; [by cbn in Q4|].
  assert (Hwl : waiting_list q = ws :: take n l) by (unfold waiting_list; by rewrite Hn, E).
  exists (take n l). split; [done|]. rewrite Hwl in Q5. split; [rewrite Hwl; left|].
  intros x Hx. rewrite Hwl in Hx. by apply (heap_min_elem WGreater _ _ Q5).
Qed.

Lemma peek_waiting_ok sp q ab ws rest :
  queue_inv q ab → 0 < w_len (waiting q) → waiting_list q = ws :: rest →
  let '(p, q') := peek_waiting sp q ws in
  queue_inv q' ab ∧ zq q' = zq q ∧ pending q' = pending q ∧
  ((p = PoppedWaiting ws ∧ sp None (Some (ws_state ws)) = true ∧ waiting_list q ≡ₚ ws :: waiting_list q' ∧
    w_len (waiting q') = w_len (waiting q) - 1 ∧ current_sched_key (st q') = ws_sched_key ws) ∨
   (p = Declined ∧ sp None (Some (ws_state ws)) = false ∧ q' = q)).
Proof.
  intros [Q1 Q2 Q3 [Q4 Q4'] Q5] Hw Hl. unfold peek_waiting. destruct (sp _ _) eqn:E.
  2: { split; [done|]. split; [done|]. split; [done|]. by right. }
  cbv zeta. fold (waiting_list q). set (n := Z.to_nat (w_len (waiting q))). rewrite Hl.
  destruct (pop_heap_ok WGreater ws rest) as (l' & Hp & Hh & Hperm); [by rewrite <- Hl|]. rewrite Hp.
  assert (Hlen : length l' = (n - 1)%nat).
  { rewrite Hperm. assert (S (length rest) = n) by (change (S (length rest)) with (length (ws :: rest)); rewrite <- Hl;
      unfold waiting_list; rewrite length_take; lia). lia. }
  assert (Htake : take (Z.to_nat (w_len (waiting q) - 1)) ((l' ++ [ws]) ++ drop n (states (waiting q))) = l').
  { rewrite <- app_assoc. apply take_app_length'. lia. }
  split; [|split; [done|]; split; [done|]; left; split; [done|]; split; [done|]; split; [|done]].
  - split; cbn [pol pending waiting zq states w_len]; try done; [|unfold waiting_list; cbn [waiting states w_len]; by rewrite Htake].
    split; [|lia]. rewrite !length_app, length_drop. cbn [length]. lia.
  - unfold waiting_list. cbn [waiting states w_len]. by rewrite Htake, Hperm.
Qed.

Lemma peek_piece_ok sp q ab :
  queue_inv q ab → ab ≠ [] →
  ∃ p q' ab', peek_piece sp q = Ok (p, q') ∧ queue_inv q' ab' ∧ zq q' = zq q ∧ pending q' = pending q ∧ waiting q' = waiting q ∧
    ∃ v l1 l2, first_least ab v l1 l2 ∧
    ((p = PoppedPiece v ∧ sp (Some (v_routine v)) (v_state v) = true ∧ ab' = l1 ++ l2 ∧ current_sched_key (st q') = vkey v) ∨
     (p = Declined ∧ sp (Some (v_routine v)) (v_state v) = false ∧ q' = q ∧ ab' = ab)).
Proof.
  intros [Q1 Q2 Q3 Q4 Q5] Hne. destruct (Consume_ok (pol q) ab Q1 Hne) as (v & l1 & l2 & s' & HP & HL & HC & Hs').
  unfold peek_piece. rewrite HP. cbn [mbind result_bind]. destruct (sp _ _) eqn:E.
  - rewrite HC. cbn [mbind result_bind]. eexists _, _, (l1 ++ l2). split; [done|]. split; [by split|].
    split; [done|]. split; [done|]. split; [done|]. exists v, l1, l2. split; [done|]. by left.
  - eexists _, _, ab. split; [done|]. split; [done|]. split; [done|]. split; [done|]. split; [done|].
    exists v, l1, l2. split; [done|]. by right.
Qed.

Lemma Peek_ok sp q ab b :
  queue_inv q ab →
  ∃ p q' ab' b', Peek max true sp q b = Ok (p, q', b') ∧ queue_inv q' ab' ∧ peek_spec sp q ab b p q' ab'.
Proof.
  intros HQ. unfold Peek. cbn [negb]. destruct (Z.ltb_spec (zq_start (zq q)) (zq_end (zq q))) as [Hz|Hz].
  { pose proof (peek_zero_ok sp q ab b HQ Hz) as H. destruct (peek_zero sp q) as [p q']. destruct H as [H1 H2].
    exists p, q', ab, b. done. }
  set (q0 := mkQ _ _ _ _ _).
  assert (HQ0 : queue_inv q0 ab) by (destruct HQ; split; done).
  destruct (ProcessPending_ok q0 ab HQ0) as (HQ1 & Hp1 & Hw1 & Hz1 & Hs1).
  change (fresh <$> pending_list q0) with (fresh <$> pending_list q) in HQ1. fold (pieces q ab) in HQ1.
  set (q1 := ProcessPending max q0) in *. change (waiting q0) with (waiting q) in Hw1. change (zq q0) with (zq q) in Hz1.
  assert (Hzl : zero_list q = []) by (unfold zero_list; by rewrite seqZ_nil by lia).
  assert (Hzl1 : ∀ q', zq q' = zq q1 → zero_list q' = []) by (intros q' Hq'; unfold zero_list; by rewrite Hq', Hz1, seqZ_nil by lia).
  assert (Hpl1 : ∀ q', pending q' = pending q1 → pending_list q' = []) by (intros q' Hq'; unfold pending_list in *; by rewrite Hq').
  assert (Hwl : waiting_list q1 = waiting_list q) by (unfold waiting_list; by rewrite Hw1).
  assert (Hlw : ∀ ws, least_waiting q1 ws ↔ least_waiting q ws) by (intros; unfold least_waiting; by rewrite Hwl).
  pose proof (qi_window _ _ HQ1) as [_ Hwin]. rewrite Hw1 in Hwin |- *.
  destruct (Z.ltb_spec 0 (w_len (waiting q))) as [Hpos|Hnone]; cbn [andb].
  - destruct (waiting_head q1 (pieces q ab) HQ1) as (rest & Hhd & Hleast); [by rewrite Hw1|].
    rewrite Hw1 in Hhd, Hleast. set (ws := states (waiting q) !!! 0%nat) in *.
    pose proof (ShouldPickWaiting_ok (pol q1) (pieces q ab) ws (qi_pol _ _ HQ1)) as Hspw.
    destruct ((w_len (waiting q) =? kOutOfOrderWindow) || ShouldPickWaiting (pol q1) ws) eqn:Hc.
    + pose proof (peek_waiting_ok sp q1 (pieces q ab) ws rest HQ1) as H. rewrite Hw1 in H. specialize (H Hpos Hhd).
      destruct (peek_waiting sp q1 ws) as [p q']. destruct H as (HQ' & Hz' & Hp' & Hcase).
      exists p, q', (pieces q ab), b. split; [done|]. split; [done|].
      destruct Hcase as [(-> & E1 & E2 & E3 & E4)|(-> & E1 & ->)].
      * rewrite Hwl in E2. apply Hlw in Hleast. apply ps_waiting; auto.
        apply orb_true_iff in Hc as [Hc|Hc]; [left; by zprop|right; by apply Hspw].
      * eapply ps_declined; [done|by rewrite Hzl, Hzl1| |done]. unfold pieces at 1. rewrite Hp1. by rewrite app_nil_r.
    + apply orb_false_iff in Hc as [Hc1 Hc2]. zprop.
      assert (Hne : pieces q ab ≠ []).
      { intros E. rewrite E in Hspw. assert (Ht : ShouldPickWaiting (pol q1) ws = true) by (apply Hspw; intros v []%elem_of_nil).
        congruence. }
      rewrite bool_decide_false by (intros E; by apply (pq_empty _ _ (qi_pol _ _ HQ1)) in E). cbn [negb].
      destruct (peek_piece_ok sp q1 (pieces q ab) HQ1 Hne) as (p & q' & ab' & -> & HQ' & Hz' & Hp' & Hw' & v & l1 & l2 & HL & Hcase).
      exists p, q', ab', b. split; [done|]. split; [done|].
      destruct Hcase as [(-> & E1 & -> & E3)|(-> & E1 & -> & ->)].
      * apply ps_piece; auto; [|lia].
        intros ws' [Hin' Hmin']. apply Hlw in Hleast as [Hin Hmin].
        assert (Hle : ¬ ∀ x, x ∈ pieces q ab → preempt_key ws < vkey x) by (rewrite <- Hspw, Hc2; done).
        destruct (Z.le_gt_cases (vkey v) (preempt_key ws)) as [Hv|Hv].
        -- specialize (Hmin ws' Hin'). unfold WGreater in Hmin. destruct (Z.ltb_spec (preempt_key ws') (preempt_key ws)); [done|lia].
        -- exfalso. apply Hle. intros x Hx. destruct HL as (El & HL1 & HL2). rewrite El in Hx.
           apply elem_of_app in Hx as [Hx|[->|Hx]%elem_of_cons]; [specialize (HL1 x Hx)| |specialize (HL2 x Hx)]; lia.
      * eapply ps_declined; [done|by rewrite Hzl, Hzl1| |done]. unfold pieces at 1. rewrite Hp1. by rewrite app_nil_r.
  - assert (Hwn : waiting_list q = []) by (unfold waiting_list; by replace (w_len (waiting q)) with 0 by lia).
    case_bool_decide as E; cbn [negb].
    + apply (pq_empty _ _ (qi_pol _ _ HQ1)) in E. eexists _, _, (pieces q ab), 0. split; [done|]. split.
      { destruct HQ1. split; done. }
      rewrite Hs1, E. cbn [st set_running completed q0]. apply ps_drained; auto.
    + assert (Hne : pieces q ab ≠ []) by (intros E'; by apply (pq_empty _ _ (qi_pol _ _ HQ1)) in E').
      destruct (peek_piece_ok sp q1 (pieces q ab) HQ1 Hne) as (p & q' & ab' & -> & HQ' & Hz' & Hp' & Hw' & v & l1 & l2 & HL & Hcase).
      exists p, q', ab', b. split; [done|]. split; [done|].
      destruct Hcase as [(-> & E1 & -> & E3)|(-> & E1 & -> & ->)].
      * apply ps_piece; auto; [|unfold kOutOfOrderWindow; lia]. intros ws' [Hin' _]. rewrite Hwn in Hin'. by apply elem_of_nil in Hin'.
      * eapply ps_declined; [done|by rewrite Hzl, Hzl1| |done]. unfold pieces at 1. rewrite Hp1. by rewrite app_nil_r.
Qed.
End Invariant.
