(* ===== verification/DispatchProps.v ===== *)
(** What the dispatch service promises: pieces are served in priority order
    and none is lost, preemption keeps the window within its bounds in every
    run, and what happens when a ring fills up or its counters wrap. *)

From S2P Require Import Prelude Heap SchedQueue Dispatch.

(** ** Preemption *)

Lemma Preempt_ok max q ab rs :
  0 < max < 2 ^ 32 → queue_inv max q ab →
  (current_sched_key (st q) ≠ 0 → w_len (waiting q) < kOutOfOrderWindow) →
  let ws := wait_slot (st q) (states (waiting q) !!! Z.to_nat (w_len (waiting q))) rs in
  ∃ b q', Preempt max q rs = Ok (b, q') ∧ queue_inv max q' (pieces max q ab) ∧ pending_list max q' = [] ∧
    zq q' = zq q ∧ st q' = st q ∧
    if b : bool then current_sched_key (st q) ≠ 0 ∧ waiting_list q' ≡ₚ ws :: waiting_list q ∧
      w_len (waiting q') = w_len (waiting q) + 1
    else waiting_list q' = waiting_list q ∧ w_len (waiting q') = w_len (waiting q) ∧
      (current_sched_key (st q) = 0 ∨ (waiting_list q = [] ∧ ∀ v, v ∈ pieces max q ab → preempt_key ws < vkey v)).
Proof.
  intros Hmax HQ Hroom ws. unfold Preempt.
  destruct (ProcessPending_ok max Hmax q ab HQ) as (HQ1 & Hp1 & Hw1 & Hz1 & Hs1). fold (pieces max q ab) in HQ1.
  set (q1 := ProcessPending max q) in *. rewrite Hs1, Hw1.
  destruct (Z.eqb_spec (current_sched_key (st q)) 0) as [E0|E0].
  { eexists false, q1. split; [done|]. split; [done|]. split; [done|]. split; [done|]. split; [done|].
    unfold waiting_list. rewrite Hw1. auto. }
  specialize (Hroom E0). rewrite (proj2 (Z.eqb_neq (w_len (waiting q)) kOutOfOrderWindow)) by lia.
  cbn [abort_if mbind result_bind]. destruct HQ1 as [Q1 Q2 Q3 [Q4 Q4'] Q5]. rewrite Hw1 in Q4, Q4'.
  set (n := Z.to_nat (w_len (waiting q))) in *. fold ws. set (uniq := if _ =? _ then _ else _).
  assert (Hn : (n < length (states (waiting q)))%nat) by (unfold kOutOfOrderWindow in *; lia).
  assert (Hwl1 : waiting_list q1 = take n (states (waiting q))) by (unfold waiting_list; by rewrite Hw1).
  pose proof (ShouldPickWaiting_ok (pol q1) (pieces max q ab) ws Q1) as Hspw.
  destruct ((w_len (waiting q) =? 0) && ShouldPickWaiting (pol q1) ws) eqn:Hc.
  - apply andb_true_iff in Hc as [Hc1 Hc2]. zprop.
    eexists false, _. split; [done|]. split; [|split; [done|]; split; [done|]; split; [done|]].
    + split; cbn [pol pending waiting zq states w_len]; try done.
      * split; [by rewrite length_insert|done].
      * unfold waiting_list in *. cbn [waiting states w_len]. rewrite Hc1, take_0. intros j Hj. cbn in Hj. lia.
    + unfold waiting_list. cbn [waiting states w_len]. rewrite Hc1, !take_0. split; [done|]. split; [done|]. right.
      split; [done|]. by apply Hspw.
  - set (sts := <[n := ws]> (states (waiting q))).
    assert (Ht : take (S n) sts = take n (states (waiting q)) ++ [ws]).
    { unfold sts. erewrite take_S_r; [|by apply list_lookup_insert_eq]. f_equal. by rewrite take_insert_ge by lia. }
    rewrite Hwl1 in Q5. destruct (push_heap_ok WGreater (take n (states (waiting q))) ws Q5) as [Hh Hperm]. rewrite Ht.
    assert (Hlen : length (push_heap WGreater (take n (states (waiting q)) ++ [ws])) = S n).
    { rewrite Hperm, length_app, length_take. cbn. lia. }
    assert (Htk : take (Z.to_nat (w_len (waiting q) + 1)) (push_heap WGreater (take n (states (waiting q)) ++ [ws]) ++ drop (S n) sts) =
      push_heap WGreater (take n (states (waiting q)) ++ [ws])) by (apply take_app_length'; lia).
    eexists true, _. split; [done|]. split; [|split; [done|]; split; [done|]; split; [done|]].
    + split; cbn [pol pending waiting zq states w_len]; try done.
      * split; [|lia]. rewrite length_app, Hlen, length_drop. unfold sts. rewrite length_insert.
        unfold kOutOfOrderWindow in *. lia.
      * unfold waiting_list. cbn [waiting states w_len]. by rewrite Htk.
    + split; [done|]. split; [|done]. unfold waiting_list. cbn [waiting states w_len]. rewrite Htk, Hperm.
      fold n. symmetry. apply Permutation_cons_append.
Qed.

(** ** Runs of one core *)

(** the queue and whether a coroutine of the core is running *)
Record Core := mkCore { queue : Queue; busy : bool }.

Definition popped (p : Peeked) : bool :=
  match p with PoppedZero _ | PoppedWaiting _ | PoppedPiece _ => true | _ => false end.

(** the steps of a core: other threads add pieces at any time; the idle core
    peeks; the running coroutine is preempted or completes. The adds are those
    that fit, and the pending counter has not wrapped. *)
Inductive core_step (max : Z) : Core → Core → Prop :=
| cs_add c rs q' :
    Add max (queue c) rs [p_start (pending (queue c))] = Ok q' →
    zq_end (zq (queue c)) + len rs ≤ max →
    p_end (pending (queue c)) - p_start (pending (queue c)) + len rs ≤ max → p_end (pending (queue c)) + len rs < 2 ^ 32 →
    core_step max c (mkCore q' (busy c))
| cs_peek c sp bubbles bubbles' p q' :
    busy c = false → Peek max true sp (queue c) bubbles = Ok (p, q', bubbles') → core_step max c (mkCore q' (popped p))
| cs_preempt c rs b q' :
    busy c = true → Preempt max (queue c) rs = Ok (b, q') → core_step max c (mkCore q' (negb b))
| cs_complete c : busy c = true → core_step max c (mkCore (Complete (queue c)) false).

Definition core_start (zs ps : Z → Routine) : Core :=
  mkCore (mkQ empty_sched (mkPending ps 0 0) (mkWaiting (replicate 25 (mkWait 0 0 0 0 0)) 0 0) (mkZQ zs 0 0)
            (mkState 0 0 0 kSleeping)) false.

(** the window has room whenever the running coroutine can be preempted *)
Definition core_inv (max : Z) (c : Core) : Prop :=
  (∃ ab, queue_inv max (queue c) ab) ∧
  (busy c = true → current_sched_key (st (queue c)) ≠ 0 → w_len (waiting (queue c)) < kOutOfOrderWindow).

Lemma core_start_inv max zs ps : 0 < max → core_inv max (core_start zs ps).
Proof.
  intros Hm. split; [|done]. exists []. split; cbn; try done; try lia.
  apply empty_sched_ok.
Qed.

(** an ordered piece is never in the zero queue *)
Definition zeros_only (q : Queue) : Prop := ∀ r, r ∈ zero_list q → sched_key r = 0.

Lemma filter_len {A} (P : A → Prop) `{∀ x, Decision (P x)} (l : list A) : len (filter P l) ≤ len l.
Proof. induction l as [|x l IH]; [done|]. rewrite filter_cons. case_decide; cbn [length]; lia. Qed.

Lemma core_step_inv max c c' : 0 < max < 2 ^ 32 →
  core_inv max c → zeros_only (queue c) → core_step max c c' → core_inv max c' ∧ zeros_only (queue c').
Proof.
  intros Hmax [[ab HQ] Hroom] Hz Hst. destruct Hst as [c rs q' HA H1 H2 H3|c sp b b' p q' Hb HP|c rs b q' Hb HP|c Hb].
  - destruct (Add_ok max Hmax (queue c) ab rs [] HQ) as (q'' & HA' & HQ' & Hzl & _ & _ & Hw & Hs).
    1: pose proof (filter_len is_zero rs); lia.
    1,2: pose proof (filter_len (fun r => ¬ is_zero r) rs); lia.
    rewrite HA in HA'. injection HA' as <-. split; [split; [by exists ab|]; cbn [queue busy]; by rewrite Hw, Hs|].
    intros r Hr. cbn [queue] in Hr. rewrite Hzl in Hr. apply elem_of_app in Hr as [Hr|Hr]; [by apply Hz|].
    by apply list_elem_of_filter in Hr as [? _].
  - destruct (Peek_ok max Hmax sp (queue c) ab b HQ) as (p' & q'' & ab' & b'' & HP' & HQ' & Hsp).
    rewrite HP in HP'. injection HP' as <- <- <-. split.
    + split; [by exists ab'|]. cbn [queue busy]. intros Hp Hk. destruct Hsp; try done.
      * exfalso. apply Hk. rewrite H3. apply Hz. rewrite H. left.
      * pose proof (qi_window _ _ _ HQ) as [_ ?]. lia.
      * by rewrite H6.
    + cbn [queue]. intros r Hr. destruct Hsp as [r0 q' E|ws q' _ E|v l1 l2 q' _ E|r0 w0 q' ab' _ E|q' _ _ _ E];
        rewrite ?E in Hr; try (by apply elem_of_nil in Hr); apply Hz; [rewrite E; by right|done].
  - destruct (Preempt_ok max (queue c) ab rs Hmax HQ) as (b' & q'' & HP' & HQ' & _ & Hzq & Hs & Hcase).
    { intros Hk. by apply Hroom. }
    rewrite HP in HP'. injection HP' as <- <-. split.
    + split; [by exists (pieces max (queue c) ab)|]. cbn [queue busy]. intros Hn Hk. destruct b; [done|].
      destruct Hcase as (_ & -> & _). apply Hroom; [done|]. by rewrite <- Hs.
    + intros r Hr. apply Hz. cbn [queue] in Hr. unfold zero_list in *. by rewrite <- Hzq.
  - split; [|done]. split; [|done]. exists ab. destruct HQ. split; done.
Qed.

Lemma core_run_inv max c c' : 0 < max < 2 ^ 32 →
  core_inv max c → zeros_only (queue c) → rtc (core_step max) c c' → core_inv max c' ∧ zeros_only (queue c').
Proof.
  intros Hmax Hi Hz Hr. induction Hr as [|c c1 c2 Hs _ IH]; [done|].
  destruct (core_step_inv max c c1 Hmax Hi Hz Hs). by apply IH.
Qed.

(** ** Properties *)


(** A batch of pieces that fits is appended to the queue of unordered
    pieces and to the ring of pending pieces, in order, around the end of the
    ring; processing the ring moves it to the priority queue in order. *)
Theorem add_appends_batch max q ab rs starts :
  0 < max < 2 ^ 32 → queue_inv max q ab → zq_end (zq q) + len (filter is_zero rs) ≤ max →
  p_end (pending q) - p_start (pending q) + len (filter (fun r => ¬ is_zero r) rs) ≤ max →
  p_end (pending q) + len (filter (fun r => ¬ is_zero r) rs) < 2 ^ 32 →
  ∃ q', Add max q rs (p_start (pending q) :: starts) = Ok q' ∧ queue_inv max q' ab ∧
    zero_list q' = zero_list q ++ filter is_zero rs ∧
    pending_list max q' = pending_list max q ++ filter (fun r => ¬ is_zero r) rs ∧
    queue_inv max (ProcessPending max q') (pieces max q' ab) ∧ pending_list max (ProcessPending max q') = [].
Proof.
  intros Hm HQ H1 H2 H3. destruct (Add_ok max Hm q ab rs starts HQ H1 H2 H3) as (q' & HA & HQ' & Hz & Hp & _).
  exists q'. destruct (ProcessPending_ok max Hm q' ab HQ') as (HP1 & HP2 & _). done.
Qed.


(** ** Witnesses *)

Module DispatchSample.
Definition r (id key : Z) : Routine := mkRt id key.
Definition q0 : Queue := queue (core_start (fun _ => mkRt 0 0) (fun _ => mkRt 0 0)).
Lemma q0_inv : queue_inv 8 q0 [].
Proof. destruct (core_start_inv 8 (fun _ => mkRt 0 0) (fun _ => mkRt 0 0) ltac:(lia)) as [[ab H] _].
  assert (ab = []) as ->; [|exact H]. apply (pq_empty _ _ (qi_pol _ _ _ H)). done. Qed.
End DispatchSample.

Lemma add_appends_batch_witness :
  let rs := [DispatchSample.r 1 700; DispatchSample.r 2 0; DispatchSample.r 3 300] in
  ∃ q', Add 8 DispatchSample.q0 rs [0] = Ok q' ∧
    zero_list q' = [DispatchSample.r 2 0] ∧ pending_list 8 q' = [DispatchSample.r 1 700; DispatchSample.r 3 300].
Proof.
  intros rs. destruct (add_appends_batch 8 DispatchSample.q0 [] rs []) as (q' & HA & _ & Hz & Hp & _);
    [lia|apply DispatchSample.q0_inv|vm_compute; discriminate|vm_compute; discriminate|vm_compute; reflexivity|].
  exists q'. split; [exact HA|]. split; [exact Hz|exact Hp].
Defined.



(** ** Divergences *)

(** When the ring fills up in the middle of a batch, [Add] starts over with
    fresh counts and overwrites the pieces of the batch it had already
    written: piece 1 is lost. *)
Lemma add_full_ring_loses :
  let q := mkQ empty_sched (mkPending (fun _ => mkRt 9 900) 0 1) (waiting DispatchSample.q0) (zq DispatchSample.q0) (st DispatchSample.q0) in
  ∃ q', Add 2 q [DispatchSample.r 1 700; DispatchSample.r 2 300] [0; 1] = Ok q' ∧
    p_end (pending q') = 2 ∧ ring (pending q') 1 = DispatchSample.r 2 300 ∧ ring (pending q') 0 = mkRt 9 900.
Proof. eexists. split; [reflexivity|]. split; [reflexivity|]. split; reflexivity. Qed.

(** The counters of the ring are 32 bits wide and never reset; once the end
    has wrapped, [ProcessPending] computes a length close to [2 ^ 64]. *)
Lemma pending_wrap_explodes ps start n :
  0 ≤ n < start → start < 2 ^ 32 → pending_count (mkPending ps start n) = 2 ^ 64 - (start - n).
Proof.
  intros H1 H2. unfold pending_count, u64. cbn [p_end p_start].
  symmetry. apply (Z.mod_unique _ _ (-1)); lia.
Qed.
