(* ===== verification/Mem.v ===== *)
(** Memory pools (mem.h, mem.cc): the intrusive free lists of [WeakPool] and
    [BasicPool], and the per-core [ParallelAllocator] that passes objects freed
    by other cores back to their owner at quiescence. *)

From S2P Require Import Prelude Bits.

(** ** Pools *)

(** the word stored at every address; free objects are linked through their
    first word *)
Abbreviation Memory := (Z → Z).

(** [WeakPool] *)
Record Pool := mkPool {
  p_data : Z;
  p_len : Z;
  p_head : Z;          (* 0 is nullptr *)
  p_capacity : Z;
  p_used : Z;
}.

(** the loop of the constructor *)
Definition link_chunk (data chunk_size cap : Z) (m : Memory) (i : Z) : Memory :=
  let p := data + i * chunk_size in
  <[p := if i =? cap - 1 then 0 else p + chunk_size]> m.
Definition WeakPool (m : Memory) (chunk_size cap data : Z) : Memory * Pool :=
  (foldl (link_chunk data chunk_size cap) m (seqZ 0 cap), mkPool data (cap * chunk_size) data cap 0).

(** [WeakPool::Alloc] *)
Definition WeakPool_Alloc (m : Memory) (p : Pool) : Z * Pool :=
  if p_head p =? 0 then (0, p) else
  (p_head p, mkPool (p_data p) (p_len p) (m (p_head p)) (p_capacity p) (p_used p + p_len p / p_capacity p)).

(** [WeakPool::Free]; writing through [nullptr] faults *)
Definition WeakPool_Free (m : Memory) (p : Pool) (ptr : Z) : result (Memory * Pool) :=
  if ptr =? 0 then Err OutOfRange else
  mret (<[ptr := p_head p]> m,
        mkPool (p_data p) (p_len p) ptr (p_capacity p) (p_used p - p_len p / p_capacity p)).

(** [BasicPool::CheckPointer] *)
Definition CheckPointer (p : Pool) (ptr : Z) : result Z :=
  if ptr =? 0 then mret (-1) else
  if (ptr <? p_data p) || (p_data p + p_len p <=? ptr) then Err Aborted else
  let off := ptr - p_data p in
  let chunk := p_len p / p_capacity p in
  if negb (off mod chunk =? 0) then Err Aborted else mret (off / chunk).

Definition BasicPool_Alloc (m : Memory) (p : Pool) : result (Z * Pool) :=
  let '(ptr, p) := WeakPool_Alloc m p in
  _ ← CheckPointer p ptr;
  mret (ptr, p).
Definition BasicPool_Free (m : Memory) (p : Pool) (ptr : Z) : result (Memory * Pool) :=
  _ ← CheckPointer p ptr;
  WeakPool_Free m p ptr.

(** ** Per-core allocation *)

(** [ParallelAllocator::ConsolidateFreeList] *)
Record Csld := mkCsld { dice : Z; bitmap : Z; heads : Z → Z }.

(** [ParallelAllocator<BasicPool>]; [free_lists] and [free_tails] are indexed
    by the freeing core and the allocating core *)
Record PAlloc := mkPA {
  pa_mem : Memory;
  pools : Z → Pool;
  free_lists : Z → Z → Z;
  free_tails : Z → Z → Z;
  csld_free_lists : Z → Csld;
}.
Definition kMaxNrPools : Z := 64.

(** the [int] expression [1 << i], converted to [uint64_t]; the shift is
    defined below the width of [int] only *)
Definition int_bit (i : Z) : result Z := if (0 <=? i) && (i <? 32) then mret (i32 (Z.shiftl 1 i)) else Err OutOfRange.

Definition set2 (f : Z → Z → Z) (i j x : Z) : Z → Z → Z := <[i := <[j := x]> (f i)]> f.

(** [ParallelAllocator::Alloc] on core [cur] *)
Definition ParallelAllocator_Alloc (pa : PAlloc) (cur : Z) : result (Z * PAlloc) :=
  let c := csld_free_lists pa cur in
  if negb (bitmap c =? 0) then
    let n := Z.shiftr (bitmap c) (dice c) in
    let d := if n =? 0 then ctz (bitmap c) else ctz n + dice c in
    let p := heads c d in
    if p =? 0 then Err OutOfRange else
    let head := pa_mem pa p in
    bm ← (if head =? 0 then bit ← int_bit d; mret (Z.land (bitmap c) (u64 (Z.lnot bit))) else mret (bitmap c));
    mret (p, mkPA (pa_mem pa) (pools pa) (free_lists pa) (free_tails pa)
               (<[cur := mkCsld d bm (<[d := head]> (heads c))]> (csld_free_lists pa)))
  else
    '(p, pool) ← BasicPool_Alloc (pa_mem pa) (pools pa cur);
    mret (p, mkPA (pa_mem pa) (<[cur := pool]> (pools pa)) (free_lists pa) (free_tails pa) (csld_free_lists pa)).

(** [ParallelAllocator::Free] on core [cur] *)
Definition ParallelAllocator_Free (g_nr_cores : Z) (pa : PAlloc) (cur ptr alloc_core : Z) : result PAlloc :=
  _ ← abort_if ((alloc_core <? 0) || (kMaxNrPools <=? alloc_core));
  _ ← abort_if ((g_nr_cores <=? alloc_core) && negb (cur =? alloc_core));
  if cur =? alloc_core then
    '(m, pool) ← BasicPool_Free (pa_mem pa) (pools pa cur) ptr;
    mret (mkPA m (<[cur := pool]> (pools pa)) (free_lists pa) (free_tails pa) (csld_free_lists pa))
  else if ptr =? 0 then Err OutOfRange else
    let old := free_lists pa cur alloc_core in
    mret (mkPA (<[ptr := old]> (pa_mem pa)) (pools pa) (set2 (free_lists pa) cur alloc_core ptr)
            (if old =? 0 then set2 (free_tails pa) cur alloc_core ptr else free_tails pa) (csld_free_lists pa)).

(** the body of [ParallelAllocator::Quiescence] for core [i]'s list *)
Definition splice (pa : PAlloc) (cur i : Z) : result PAlloc :=
  let tail := free_tails pa i cur in
  let c := csld_free_lists pa cur in
  if tail =? 0 then mret pa else
  bit ← int_bit i;
  mret (mkPA (<[tail := heads c i]> (pa_mem pa)) (pools pa)
          (set2 (free_lists pa) i cur 0) (set2 (free_tails pa) i cur 0)
          (<[cur := mkCsld (dice c) (Z.lor (bitmap c) (u64 bit)) (<[i := free_lists pa i cur]> (heads c))]> (csld_free_lists pa))).

Fixpoint Quiescence_loop (pa : PAlloc) (cur : Z) (l : list Z) : result PAlloc :=
  match l with
  | [] => mret pa
  | i :: l => pa ← splice pa cur i; Quiescence_loop pa cur l
  end.
Definition ParallelAllocator_Quiescence (g_nr_cores : Z) (pa : PAlloc) (cur : Z) : result PAlloc :=
  Quiescence_loop pa cur (seqZ 0 g_nr_cores).

(** ** Linked lists in memory *)

(** [l] is the list linked from [h] *)
Fixpoint chain (m : Memory) (h : Z) (l : list Z) : Prop :=
  match l with
  | [] => h = 0
  | a :: l => h = a ∧ a ≠ 0 ∧ chain m (m a) l
  end.

Lemma chain_frame m a x h l : a ∉ l → chain m h l → chain (<[a := x]> m) h l.
Proof.
  revert h. induction l as [|b l IH]; intros h Ha; [done|]. apply not_elem_of_cons in Ha as [Hne Ha]. cbn.
  intros (-> & Hb & Hc). split; [done|]. split; [done|]. rewrite fn_lookup_insert_ne by done. by apply IH.
Qed.

Lemma chain_nonzero m h l a : chain m h l → a ∈ l → a ≠ 0.
Proof.
  revert h. induction l as [|b l IH]; intros h Hc Ha; [by apply elem_of_nil in Ha|].
  destruct Hc as (_ & Hb & Hc). apply elem_of_cons in Ha as [->|Ha]; [done|by eapply IH].
Qed.

Lemma chain_empty m h l : chain m h l → h = 0 ↔ l = [].
Proof. destruct l as [|a l]; cbn; [done|]. intros (-> & Ha & _). done. Qed.

(** writing the last link appends *)
Lemma chain_append m h l1 a t l2 :
  NoDup (l1 ++ [a]) → (∀ x, x ∈ l1 ++ [a] → x ∉ l2) →
  chain m h (l1 ++ [a]) → chain m t l2 → chain (<[a := t]> m) h ((l1 ++ [a]) ++ l2).
Proof.
  revert h. induction l1 as [|b l1 IH]; intros h Hnd Hdis Hc Ht.
  - cbn in *. destruct Hc as (-> & Ha & _). split; [done|]. split; [done|]. rewrite fn_lookup_insert.
    apply chain_frame; [|done]. apply Hdis. left.
  - cbn in *. apply NoDup_cons in Hnd as [Hb Hnd]. destruct Hc as (-> & Hb0 & Hc). split; [done|]. split; [done|].
    rewrite fn_lookup_insert_ne by (intros ->; apply Hb, elem_of_app; right; left).
    apply IH; [done|intros x Hx; apply Hdis; by right|done|done].
Qed.

(** the constructor links all chunks *)
Definition chunk_addr (data chunk : Z) (i : Z) : Z := data + i * chunk.

Lemma link_chunk_fold data chunk cap n : ∀ k m,
  0 < chunk → 0 < data → 0 ≤ k → k + Z.of_nat n = cap →
  let m' := foldl (link_chunk data chunk cap) m (seqZ k (Z.of_nat n)) in
  (∀ i, k ≤ i < cap → m' (chunk_addr data chunk i) = if i =? cap - 1 then 0 else chunk_addr data chunk (i + 1)) ∧
  (∀ a, (∀ i, k ≤ i < cap → a ≠ chunk_addr data chunk i) → m' a = m a).
Proof.
  induction n as [|n IH]; intros k m Hc Hd Hk Hn.
  { cbn. split; [lia|done]. }
  rewrite seqZ_cons by lia. cbn [foldl]. replace (Z.pred (Z.of_nat (S n))) with (Z.of_nat n) by lia.
  destruct (IH (Z.succ k) (link_chunk data chunk cap m k) Hc Hd ltac:(lia) ltac:(lia)) as [H1 H2]. split.
  - intros i Hi. destruct (Z.eq_dec i k) as [->|Hne]; [|apply H1; lia].
    rewrite H2 by (intros j Hj; unfold chunk_addr; nia). unfold link_chunk, chunk_addr. rewrite fn_lookup_insert.
    destruct (k =? cap - 1); [done|]. lia.
  - intros a Ha. rewrite H2 by (intros i Hi; apply Ha; lia). unfold link_chunk. apply fn_lookup_insert_ne.
    intros E. apply (Ha k); [lia|]. unfold chunk_addr. lia.
Qed.

Lemma chain_of_chunks m data chunk cap n : ∀ k,
  0 < chunk → 0 < data → 0 ≤ k → k + Z.of_nat n = cap → (0 < n)%nat →
  (∀ i, k ≤ i < cap → m (chunk_addr data chunk i) = if i =? cap - 1 then 0 else chunk_addr data chunk (i + 1)) →
  chain m (chunk_addr data chunk k) (chunk_addr data chunk <$> seqZ k (Z.of_nat n)).
Proof.
  induction n as [|n IH]; intros k Hc Hd Hk Hn H0 Hm; [lia|]. rewrite seqZ_cons by lia. cbn [fmap list_fmap chain].
  split; [done|]. split; [unfold chunk_addr; nia|]. rewrite Hm by lia.
  replace (Z.pred (Z.of_nat (S n))) with (Z.of_nat n) by lia. destruct n as [|n].
  - cbn. rewrite (proj2 (Z.eqb_eq k (cap - 1))) by lia. done.
  - rewrite (proj2 (Z.eqb_neq k (cap - 1))) by lia. replace (k + 1) with (Z.succ k) by lia.
    apply IH; [done|done|lia|lia|lia|]. intros i Hi. apply Hm. lia.
Qed.

(** ** The free objects *)

(** where a free object can be: in the pool of its core, consolidated by its
    core from core [i]'s list, or in the list of a freeing core *)
Inductive Ix := IPool (c : Z) | ICsld (c i : Z) | IFree (cur c : Z).
#[export] Instance Ix_eq_dec : EqDecision Ix.
Proof. solve_decision. Defined.

Definition owner (ix : Ix) : Z := match ix with IPool c | ICsld c _ | IFree _ c => c end.
Definition head_of (pa : PAlloc) (ix : Ix) : Z :=
  match ix with
  | IPool c => p_head (pools pa c)
  | ICsld c i => heads (csld_free_lists pa c) i
  | IFree cur c => free_lists pa cur c
  end.

(** a pointer [CheckPointer] accepts *)
Definition valid_ptr (p : Pool) (ptr : Z) : Prop := ptr ≠ 0 ∧ ∃ i, CheckPointer p ptr = Ok i.
Definition same_pool (p q : Pool) : Prop := p_data p = p_data q ∧ p_len p = p_len q ∧ p_capacity p = p_capacity q.

(** bit [j] of the bitmap of core [c]: the bits from 31 on go together, since
    [1 << 31] is a negative [int] *)
Definition bit_of (L : Ix → list Z) (c j : Z) : bool := negb (bool_decide (L (ICsld c (Z.min j 31)) = [])).

Record pa_inv (n : Z) (pa : PAlloc) (L : Ix → list Z) : Prop := {
  pi_chain : ∀ ix, chain (pa_mem pa) (head_of pa ix) (L ix);
  pi_nodup : ∀ ix, NoDup (L ix);
  pi_disjoint : ∀ ix jx a, a ∈ L ix → a ∈ L jx → ix = jx;
  pi_tail : ∀ cur c, free_tails pa cur c = default 0 (last (L (IFree cur c)));
  pi_bitmap : ∀ c, 0 ≤ bitmap (csld_free_lists pa c) < 2 ^ 64 ∧
    ∀ j, 0 ≤ j < 64 → Z.testbit (bitmap (csld_free_lists pa c)) j = bit_of L c j;
  pi_dice : ∀ c, 0 ≤ dice (csld_free_lists pa c) < 32;
  pi_cores : ∀ c i, ¬ 0 ≤ i < n → L (ICsld c i) = [];
  pi_valid : ∀ ix a, a ∈ L ix → valid_ptr (pools pa (owner ix)) a;
}.

Lemma CheckPointer_same p q ptr : same_pool p q → CheckPointer p ptr = CheckPointer q ptr.
Proof. intros (E1 & E2 & E3). unfold CheckPointer. by rewrite E1, E2, E3. Qed.
Lemma valid_ptr_same p q ptr : same_pool p q → valid_ptr p ptr → valid_ptr q ptr.
Proof. intros Hs [H0 [i Hi]]. split; [done|]. exists i. by rewrite <- (CheckPointer_same p q). Qed.

(** *** The bitmap *)

Lemma int_bit_test i j : 0 ≤ i < 32 → 0 ≤ j < 64 →
  Z.testbit (u64 (i32 (Z.shiftl 1 i))) j = if i =? 31 then 31 <=? j else j =? i.
Proof.
  intros Hi Hj. rewrite u64_bits by lia. rewrite (proj2 (Z.ltb_lt j 64)) by lia. cbn [andb].
  rewrite Z.shiftl_1_l. destruct (Z.eqb_spec i 31) as [->|Hne].
  - change (i32 (2 ^ 31)) with (- 2 ^ 31). rewrite Z.bits_opp by lia.
    change (Z.pred (2 ^ 31)) with (Z.ones 31). destruct (Z.leb_spec 31 j).
    + by rewrite Z.ones_spec_high by lia.
    + by rewrite Z.ones_spec_low by lia.
  - rewrite i32_id. 2: { split; [pose proof (Z.pow_pos_nonneg 2 i); lia|apply Z.pow_lt_mono_r; lia]. }
    rewrite Z.pow2_bits_eqb by lia. apply Z.eqb_sym.
Qed.
Lemma int_bit_lnot_test i j : 0 ≤ i < 32 → 0 ≤ j < 64 →
  Z.testbit (u64 (Z.lnot (i32 (Z.shiftl 1 i)))) j = negb (if i =? 31 then 31 <=? j else j =? i).
Proof.
  intros Hi Hj. rewrite u64_bits by lia. rewrite (proj2 (Z.ltb_lt j 64)) by lia. cbn [andb]. rewrite Z.lnot_spec by lia.
  f_equal. rewrite <- int_bit_test, u64_bits, (proj2 (Z.ltb_lt j 64)) by lia. done.
Qed.

(** the bitmap of a core is zero exactly when nothing is consolidated *)
Lemma bitmap_zero n pa L c :
  n ≤ 32 → pa_inv n pa L → bitmap (csld_free_lists pa c) = 0 ↔ ∀ i, L (ICsld c i) = [].
Proof.
  intros Hn Hi. destruct (pi_bitmap _ _ _ Hi c) as [Hr Hb]. split.
  - intros E i. destruct (decide (0 ≤ i < n)) as [Hin|Hout]; [|by apply (pi_cores _ _ _ Hi)].
    specialize (Hb i ltac:(lia)). rewrite E, Z.bits_0 in Hb. unfold bit_of in Hb. symmetry in Hb.
    apply negb_false_iff, bool_decide_eq_true in Hb. by replace (Z.min i 31) with i in Hb by lia.
  - intros H. apply Z.bits_inj'. intros j Hj. rewrite Z.bits_0. destruct (Z.lt_ge_cases j 64).
    + rewrite Hb by lia. unfold bit_of. rewrite H. done.
    + by apply (testbit_high _ 64).
Qed.

(** the list the dice falls on is not empty *)
Lemma dice_hits n pa L c :
  0 ≤ n ≤ 32 → pa_inv n pa L → bitmap (csld_free_lists pa c) ≠ 0 →
  let cs := csld_free_lists pa c in
  let nn := Z.shiftr (bitmap cs) (dice cs) in
  let d := if nn =? 0 then ctz (bitmap cs) else ctz nn + dice cs in
  0 ≤ d < 32 ∧ L (ICsld c d) ≠ [].
Proof.
  intros Hn Hi Hne cs nn d. destruct (pi_bitmap _ _ _ Hi c) as [Hr Hb]. fold cs in Hr, Hb, Hne.
  pose proof (pi_dice _ _ _ Hi c) as Hd. fold cs in Hd.
  assert (Hset : Z.testbit (bitmap cs) d = true ∧ 0 ≤ d ∧
    (∀ j, 0 ≤ j < d → (nn = 0 ∨ dice cs ≤ j) → Z.testbit (bitmap cs) j = false)).
  { unfold d. destruct (Z.eqb_spec nn 0) as [E|E].
    - destruct (ctz_testbit (bitmap cs)) as [H1 H2]; [lia|]. split; [done|]. split; [done|].
      intros j Hj _. apply (ctz_below (bitmap cs)); [lia|done].
    - assert (Hnn : 0 < nn) by (assert (0 ≤ nn) by (apply Z.shiftr_nonneg; lia); lia).
      destruct (ctz_testbit nn Hnn) as [H1 H2]. unfold nn in H1 at 1. rewrite Z.shiftr_spec in H1 by done.
      split; [done|]. split; [lia|]. intros j Hj [?|Hj2]; [done|].
      replace j with ((j - dice cs) + dice cs) by lia. rewrite <- Z.shiftr_spec by lia. apply (ctz_below nn); [done|lia]. }
  destruct Hset as (H1 & H2 & H3).
  assert (Hd64 : d < 64).
  { destruct (Z.lt_ge_cases d 64); [done|]. rewrite (testbit_high _ 64) in H1; [done|done|lia]. }
  assert (Hd32 : d < 32).
  { destruct (Z.lt_ge_cases d 32); [done|]. exfalso.
    assert (E : Z.testbit (bitmap cs) 31 = false) by (apply H3; [lia|right; lia]).
    rewrite Hb in E, H1 by lia. unfold bit_of in *. replace (Z.min d 31) with (Z.min 31 31) in H1 by lia. congruence. }
  split; [lia|]. rewrite Hb in H1 by lia. unfold bit_of in H1. apply negb_true_iff, bool_decide_eq_false in H1.
  by replace (Z.min d 31) with d in H1 by lia.
Qed.

(** *** Allocation *)

(** taking the first object of a list *)
Definition pop_list (L : Ix → list Z) (ix : Ix) : Ix → list Z := <[ix := tail (L ix)]> L.

Lemma pop_list_sub L ix jx a : a ∈ pop_list L ix jx → a ∈ L jx.
Proof. unfold pop_list. fn_cases. destruct (L jx); [done|by right]. Qed.

Lemma bit_of_pop L c d j a rest :
  0 ≤ d < 32 → 0 ≤ j < 64 → L (ICsld c d) = a :: rest →
  bit_of (pop_list L (ICsld c d)) c j =
  if bool_decide (rest = []) then bit_of L c j && negb (if d =? 31 then 31 <=? j else j =? d) else bit_of L c j.
Proof.
  intros Hd Hj E. unfold bit_of, pop_list. destruct (decide (Z.min j 31 = d)) as [Em|Em].
  - rewrite Em, fn_lookup_insert, E. cbn [tail].
    assert ((if d =? 31 then 31 <=? j else j =? d) = true) as -> by (destruct (Z.eqb_spec d 31); zcase; lia).
    case_bool_decide; cbn; by rewrite ?andb_false_r.
  - rewrite fn_lookup_insert_ne by congruence.
    assert ((if d =? 31 then 31 <=? j else j =? d) = false) as -> by (destruct (Z.eqb_spec d 31); zcase; lia).
    cbn [negb]. rewrite andb_true_r. by destruct (bool_decide (rest = [])).
Qed.

Lemma Alloc_csld_ok n pa L cur :
  0 ≤ n ≤ 32 → pa_inv n pa L → bitmap (csld_free_lists pa cur) ≠ 0 →
  ∃ d p rest pa', ParallelAllocator_Alloc pa cur = Ok (p, pa') ∧ L (ICsld cur d) = p :: rest ∧
    pa_inv n pa' (pop_list L (ICsld cur d)).
Proof.
  intros Hn Hi Hne. destruct (dice_hits n pa L cur Hn Hi Hne) as [Hd Hl]. unfold ParallelAllocator_Alloc.
  set (c := csld_free_lists pa cur) in *. rewrite (proj2 (Z.eqb_neq (bitmap c) 0)) by done. cbn [negb].
  set (d := if _ =? 0 then _ else _) in *. destruct (L (ICsld cur d)) as [|p rest] eqn:E; [done|].
  pose proof (pi_chain _ _ _ Hi (ICsld cur d)) as Hch. rewrite E in Hch. cbn in Hch. fold c in Hch.
  destruct Hch as (Hh & Hp0 & Hch). rewrite Hh, (proj2 (Z.eqb_neq p 0)) by done.
  destruct (pi_bitmap _ _ _ Hi cur) as [Hr Hb]. fold c in Hr, Hb.
  set (bm := if bool_decide (rest = []) then Z.land (bitmap c) (u64 (Z.lnot (i32 (Z.shiftl 1 d)))) else bitmap c).
  assert (Hbm : (if pa_mem pa p =? 0 then bit ← int_bit d; mret (Z.land (bitmap c) (u64 (Z.lnot bit))) else mret (bitmap c)) = Ok bm).
  { pose proof (chain_empty _ _ _ Hch) as Hce. unfold int_bit. rewrite (proj2 (Z.leb_le 0 d)), (proj2 (Z.ltb_lt d 32)) by lia.
    unfold bm. case_bool_decide as Er; [apply Hce in Er as ->; done|].
    rewrite (proj2 (Z.eqb_neq (pa_mem pa p) 0)) by tauto. done. }
  rewrite Hbm. cbn [mbind result_bind]. exists d, p, rest. eexists. split; [done|]. split; [done|].
  assert (Hrb : 0 ≤ bm < 2 ^ 64).
  { unfold bm. case_bool_decide; [|done]. pose proof (u64_range (Z.lnot (i32 (Z.shiftl 1 d)))). apply land_range; lia. }
  split; cbn [pa_mem pools free_lists free_tails csld_free_lists].
  - intros ix. unfold pop_list. destruct (decide (ix = ICsld cur d)) as [->|Hix].
    + rewrite fn_lookup_insert, E. cbn. rewrite !fn_lookup_insert. cbn. by rewrite fn_lookup_insert.
    + rewrite fn_lookup_insert_ne by done. pose proof (pi_chain _ _ _ Hi ix) as Hc. destruct ix as [c'|c' i|c1 c2]; try done.
      cbn in *. destruct (decide (cur = c')) as [<-|Hcc]; [rewrite fn_lookup_insert|by rewrite fn_lookup_insert_ne].
      cbn. rewrite fn_lookup_insert_ne by congruence. done.
  - intros ix. unfold pop_list. destruct (decide (ix = ICsld cur d)) as [->|Hix];
      [rewrite fn_lookup_insert, E|rewrite fn_lookup_insert_ne by done; apply (pi_nodup _ _ _ Hi)].
    pose proof (pi_nodup _ _ _ Hi (ICsld cur d)) as Hnd. rewrite E in Hnd. by apply NoDup_cons in Hnd as [_ ?].
  - intros ix jx a Ha Hb'. apply pop_list_sub in Ha, Hb'. by eapply (pi_disjoint _ _ _ Hi).
  - intros c1 c2. unfold pop_list. rewrite fn_lookup_insert_ne by done. apply (pi_tail _ _ _ Hi).
  - intros c'. destruct (decide (cur = c')) as [<-|Hcc].
    + rewrite fn_lookup_insert. cbn. split; [done|]. intros j Hj. rewrite (bit_of_pop L cur d j p rest) by done.
      unfold bm. case_bool_decide; [|by apply Hb]. rewrite Z.land_spec, int_bit_lnot_test, Hb by lia. done.
    + rewrite fn_lookup_insert_ne by done. destruct (pi_bitmap _ _ _ Hi c') as [H1 H2]. split; [done|].
      intros j Hj. rewrite H2 by done. unfold bit_of, pop_list. by rewrite fn_lookup_insert_ne by congruence.
  - intros c'. destruct (decide (cur = c')) as [<-|Hcc]; [rewrite fn_lookup_insert; done|rewrite fn_lookup_insert_ne by done].
    apply (pi_dice _ _ _ Hi).
  - intros c' i Hout. unfold pop_list. destruct (decide (ICsld cur d = ICsld c' i)) as [[= <- <-]|Hne'];
      [|rewrite fn_lookup_insert_ne by done; by apply (pi_cores _ _ _ Hi)].
    rewrite (pi_cores _ _ _ Hi cur d Hout) in E. done.
  - intros ix a Ha. apply pop_list_sub in Ha. by apply (pi_valid _ _ _ Hi).
Qed.

Lemma Alloc_pool_ok n pa L cur :
  n ≤ 32 → pa_inv n pa L → bitmap (csld_free_lists pa cur) = 0 →
  ∃ p pa', ParallelAllocator_Alloc pa cur = Ok (p, pa') ∧
    ((p = 0 ∧ L (IPool cur) = [] ∧ pa_inv n pa' L) ∨
     (∃ rest, L (IPool cur) = p :: rest ∧ pa_inv n pa' (pop_list L (IPool cur)))).
Proof.
  intros Hn Hi Hz. unfold ParallelAllocator_Alloc. rewrite (proj2 (Z.eqb_eq _ 0) Hz). cbn [negb].
  unfold BasicPool_Alloc, WeakPool_Alloc. set (pl := pools pa cur).
  pose proof (pi_chain _ _ _ Hi (IPool cur)) as Hch. cbn in Hch. fold pl in Hch.
  destruct (Z.eqb_spec (p_head pl) 0) as [E|E].
  - cbn [mbind result_bind CheckPointer Z.eqb mret result_ret]. eexists 0, _. split; [done|]. left. split; [done|].
    split; [by apply (chain_empty _ _ _ Hch)|].
    assert (Ep : ∀ c, (<[cur := pl]> (pools pa)) c = pools pa c) by (intros; unfold pl; fn_cases).
    destruct Hi as [I1 I2 I3 I4 I5 I6 I7 I8]. split; try done.
    + intros ix. specialize (I1 ix). destruct ix as [c|c i|c1 c2]; cbn in *; [by rewrite Ep|done|done].
    + intros ix a Ha. cbn. rewrite Ep. by apply I8.
  - destruct (L (IPool cur)) as [|p rest] eqn:EL; [done|]. cbn in Hch. destruct Hch as (Hh & Hp0 & Hch). rewrite Hh.
    set (pl' := mkPool _ _ _ _ _). assert (Hsame : same_pool pl pl') by done.
    destruct (pi_valid _ _ _ Hi (IPool cur) p) as [_ [k Hk]]; [rewrite EL; left|]. cbn in Hk. fold pl in Hk.
    rewrite <- (CheckPointer_same pl pl'), Hk by done. cbn [mbind result_bind]. exists p. eexists. split; [done|]. right.
    exists rest. split; [done|]. split; cbn [pa_mem pools free_lists free_tails csld_free_lists].
    + intros ix. unfold pop_list. destruct (decide (ix = IPool cur)) as [->|Hix].
      * rewrite fn_lookup_insert, EL. cbn. rewrite fn_lookup_insert. done.
      * rewrite fn_lookup_insert_ne by done. pose proof (pi_chain _ _ _ Hi ix) as Hc. destruct ix as [c|c i|c1 c2]; try done.
        cbn in *. by rewrite fn_lookup_insert_ne by congruence.
    + intros ix. unfold pop_list. destruct (decide (ix = IPool cur)) as [->|Hix];
        [rewrite fn_lookup_insert, EL|rewrite fn_lookup_insert_ne by done; apply (pi_nodup _ _ _ Hi)].
      pose proof (pi_nodup _ _ _ Hi (IPool cur)) as Hnd. rewrite EL in Hnd. by apply NoDup_cons in Hnd as [_ ?].
    + intros ix jx a Ha Hb. apply pop_list_sub in Ha, Hb. by eapply (pi_disjoint _ _ _ Hi).
    + intros c1 c2. unfold pop_list. rewrite fn_lookup_insert_ne by done. apply (pi_tail _ _ _ Hi).
    + intros c. destruct (pi_bitmap _ _ _ Hi c) as [H1 H2]. split; [done|]. intros j Hj. rewrite H2 by done.
      unfold bit_of, pop_list. by rewrite fn_lookup_insert_ne by done.
    + apply (pi_dice _ _ _ Hi).
    + intros c i Hout. unfold pop_list. rewrite fn_lookup_insert_ne by done. by apply (pi_cores _ _ _ Hi).
    + intros ix a Ha. apply pop_list_sub in Ha. apply (pi_valid _ _ _ Hi) in Ha.
      destruct (decide (cur = owner ix)) as [Eo|Hne]; [rewrite <- Eo in *|by rewrite fn_lookup_insert_ne].
      rewrite fn_lookup_insert. by apply (valid_ptr_same pl).
Qed.

(** *** Freeing *)

(** putting an object in front of a list *)
Definition push_list (L : Ix → list Z) (ix : Ix) (a : Z) : Ix → list Z := <[ix := a :: L ix]> L.
Definition all_free (L : Ix → list Z) (a : Z) : Prop := ∃ ix, a ∈ L ix.

Lemma elem_of_push L ix a jx b : b ∈ push_list L ix a jx ↔ (jx = ix ∧ b = a) ∨ b ∈ L jx.
Proof.
  unfold push_list. destruct (decide (ix = jx)) as [->|Hne].
  - rewrite fn_lookup_insert, elem_of_cons. naive_solver.
  - rewrite fn_lookup_insert_ne by done. naive_solver.
Qed.

(** the parts of the invariant that do not depend on how the object is linked *)
Lemma push_inv n pa pa' L ix a :
  pa_inv n pa L → ¬ all_free L a → a ≠ 0 → ix = IPool (owner ix) ∨ (∃ cur, ix = IFree cur (owner ix)) →
  pa_mem pa' = <[a := head_of pa ix]> (pa_mem pa) → head_of pa' ix = a →
  (∀ jx, jx ≠ ix → head_of pa' jx = head_of pa jx) →
  (∀ c, same_pool (pools pa c) (pools pa' c)) → csld_free_lists pa' = csld_free_lists pa →
  (∀ cur c, free_tails pa' cur c = if decide (ix = IFree cur c ∧ L ix = []) then a else free_tails pa cur c) →
  valid_ptr (pools pa (owner ix)) a → pa_inv n pa' (push_list L ix a).
Proof.
  intros Hi Hfresh Ha0 Hix Hm Hh Ho Hp Hc Ht Hv.
  assert (Hcs : ∀ c i, push_list L ix a (ICsld c i) = L (ICsld c i)).
  { intros c i. unfold push_list. apply fn_lookup_insert_ne. destruct Hix as [->|[cur ->]]; done. }
  split.
  - intros jx. rewrite Hm. pose proof (pi_chain _ _ _ Hi jx) as Hch. unfold push_list.
    destruct (decide (ix = jx)) as [->|Hne].
    + rewrite fn_lookup_insert, Hh. cbn. split; [done|]. split; [done|]. rewrite fn_lookup_insert.
      apply chain_frame; [|done]. intros H. apply Hfresh. by exists jx.
    + rewrite fn_lookup_insert_ne, Ho by done. apply chain_frame; [|done]. intros H. apply Hfresh. by exists jx.
  - intros jx. unfold push_list. destruct (decide (ix = jx)) as [->|Hne];
      [rewrite fn_lookup_insert|rewrite fn_lookup_insert_ne by done; apply (pi_nodup _ _ _ Hi)].
    apply NoDup_cons. split; [intros H; apply Hfresh; by exists jx|apply (pi_nodup _ _ _ Hi)].
  - intros jx kx b [[-> ->]|Hb]%elem_of_push [[-> E]|Hb']%elem_of_push; try done.
    + exfalso. apply Hfresh. by exists kx.
    + subst b. exfalso. apply Hfresh. by exists jx.
    + by eapply (pi_disjoint _ _ _ Hi).
  - intros cur c. rewrite Ht. unfold push_list. case_decide as E.
    + destruct E as [E1 E2]. rewrite E1, fn_lookup_insert, <- E1, E2. done.
    + destruct (decide (ix = IFree cur c)) as [E1|E1].
      * rewrite E1, fn_lookup_insert, (pi_tail _ _ _ Hi). rewrite last_cons.
        destruct (last (L (IFree cur c))) eqn:El; [done|]. apply last_None in El. exfalso. apply E. by rewrite E1.
      * rewrite fn_lookup_insert_ne by done. apply (pi_tail _ _ _ Hi).
  - intros c. rewrite Hc. destruct (pi_bitmap _ _ _ Hi c) as [H1 H2]. split; [done|]. intros j Hj. rewrite H2 by done.
    unfold bit_of. by rewrite Hcs.
  - intros c. rewrite Hc. apply (pi_dice _ _ _ Hi).
  - intros c i Hout. rewrite Hcs. by apply (pi_cores _ _ _ Hi).
  - intros jx b [[-> ->]|Hb]%elem_of_push; [by apply (valid_ptr_same (pools pa (owner ix)))|].
    apply (valid_ptr_same (pools pa (owner jx))); [done|]. by apply (pi_valid _ _ _ Hi).
Qed.

Lemma Free_ok n pa L cur ptr ac :
  pa_inv n pa L → n ≤ kMaxNrPools → 0 ≤ ac < n → ¬ all_free L ptr → valid_ptr (pools pa ac) ptr →
  ∃ pa', ParallelAllocator_Free n pa cur ptr ac = Ok pa' ∧
    pa_inv n pa' (push_list L (if decide (cur = ac) then IPool ac else IFree cur ac) ptr).
Proof.
  intros Hi Hn Hac Hfresh Hv. destruct Hv as [H0 [k Hk]]. unfold ParallelAllocator_Free.
  rewrite (proj2 (Z.ltb_ge ac 0)), (proj2 (Z.leb_gt kMaxNrPools ac)), (proj2 (Z.leb_gt n ac)) by lia.
  cbn [orb andb abort_if mbind result_bind]. destruct (decide (cur = ac)) as [->|Hne].
  - rewrite Z.eqb_refl. unfold BasicPool_Free, WeakPool_Free. rewrite Hk, (proj2 (Z.eqb_neq ptr 0)) by done.
    cbn [mbind result_bind mret result_ret]. eexists. split; [done|].
    apply (push_inv n pa _ L (IPool ac) ptr Hi Hfresh H0); cbn; try done; [by left|by rewrite fn_lookup_insert| | |].
    + intros jx Hj. destruct jx as [c|c i|c1 c2]; try done. cbn. by rewrite fn_lookup_insert_ne by congruence.
    + intros c. destruct (decide (ac = c)) as [<-|]; [by rewrite fn_lookup_insert|by rewrite fn_lookup_insert_ne].
    + split; [done|]. by exists k.
  - rewrite (proj2 (Z.eqb_neq cur ac)), (proj2 (Z.eqb_neq ptr 0)) by done. eexists. split; [done|].
    pose proof (pi_chain _ _ _ Hi (IFree cur ac)) as Hch. cbn in Hch.
    apply (push_inv n pa _ L (IFree cur ac) ptr Hi Hfresh H0); cbn; try done; [right; by exists cur| | | |].
    + unfold set2. by rewrite !fn_lookup_insert.
    + intros jx Hj. destruct jx as [c|c i|c1 c2]; try done. cbn. unfold set2.
      destruct (decide (cur = c1)) as [<-|]; [rewrite fn_lookup_insert|by rewrite fn_lookup_insert_ne].
      by rewrite fn_lookup_insert_ne by congruence.
    + intros c1 c2. unfold set2. pose proof (chain_empty _ _ _ Hch) as Hce. case_decide as E.
      * destruct E as [[= <- <-] E2]. rewrite (proj2 (Z.eqb_eq _ 0)) by tauto. by rewrite !fn_lookup_insert.
      * destruct (Z.eqb_spec (free_lists pa cur ac) 0) as [E0|E0]; [|done].
        destruct (decide (cur = c1)) as [<-|]; [rewrite fn_lookup_insert|by rewrite fn_lookup_insert_ne].
        destruct (decide (ac = c2)) as [<-|]; [|by rewrite fn_lookup_insert_ne]. exfalso. apply E. split; [done|tauto].
    + split; [done|]. by exists k.
Qed.

(** *** Quiescence *)

(** moving core [i]'s list of objects of [cur] to the consolidated lists *)
Definition splice_list (L : Ix → list Z) (cur i : Z) : Ix → list Z :=
  <[IFree i cur := []]> (<[ICsld cur i := L (IFree i cur) ++ L (ICsld cur i)]> L).

Lemma splice_list_at L cur i ix :
  splice_list L cur i ix =
  if decide (ix = IFree i cur) then [] else
  if decide (ix = ICsld cur i) then L (IFree i cur) ++ L (ICsld cur i) else L ix.
Proof.
  unfold splice_list. case_decide as E1; [by rewrite E1, fn_lookup_insert|]. rewrite fn_lookup_insert_ne by done.
  case_decide as E2; [by rewrite E2, fn_lookup_insert|]. by rewrite fn_lookup_insert_ne.
Qed.

Lemma splice_empty n pa L cur i :
  pa_inv n pa L → L (IFree i cur) = [] → pa_inv n pa (splice_list L cur i).
Proof.
  intros Hi E. assert (Hx : ∀ ix, splice_list L cur i ix = L ix).
  { intros ix. rewrite splice_list_at. repeat case_decide; subst; rewrite ?E; done. }
  destruct Hi as [I1 I2 I3 I4 I5 I6 I7 I8]. split; try (intros; rewrite ?Hx in *; by eauto).
  intros c. destruct (I5 c) as [H1 H2]. split; [done|]. intros j Hj. rewrite H2 by done. unfold bit_of. by rewrite Hx.
Qed.

Lemma splice_ok n pa L cur i :
  n ≤ 32 → pa_inv n pa L → 0 ≤ i < n → ∃ pa', splice pa cur i = Ok pa' ∧ pa_inv n pa' (splice_list L cur i).
Proof.
  intros Hn Hi Hin. unfold splice. set (c := csld_free_lists pa cur). rewrite (pi_tail _ _ _ Hi).
  destruct (last (L (IFree i cur))) as [t|] eqn:El; cbn [from_option id].
  2: { apply last_None in El. rewrite Z.eqb_refl. exists pa. split; [done|]. by apply splice_empty. }
  apply last_Some in El as [l1 El]. pose proof (pi_chain _ _ _ Hi (IFree i cur)) as Hch. cbn in Hch. rewrite El in Hch.
  assert (Ht0 : t ≠ 0) by (eapply chain_nonzero; [exact Hch|apply elem_of_app; right; left]).
  rewrite (proj2 (Z.eqb_neq t 0)) by done. unfold int_bit. rewrite (proj2 (Z.leb_le 0 i)), (proj2 (Z.ltb_lt i 32)) by lia.
  cbn [andb mbind result_bind mret result_ret]. eexists. split; [done|].
  pose proof Hi as [I1 I2 I3 I4 I5 I6 I7 I8].
  assert (Htin : t ∈ L (IFree i cur)) by (rewrite El; apply elem_of_app; right; left).
  assert (Hsub : ∀ ix a, a ∈ splice_list L cur i ix → ∃ jx, a ∈ L jx ∧ owner jx = owner ix ∧
    (jx = ix ∨ (ix = ICsld cur i ∧ jx = IFree i cur)) ∧ ix ≠ IFree i cur).
  { intros ix a. rewrite splice_list_at. case_decide as E1; [intros []%elem_of_nil|]. case_decide as E2.
    - subst. intros [Ha|Ha]%elem_of_app; [exists (IFree i cur)|exists (ICsld cur i)]; naive_solver.
    - intros Ha. exists ix. naive_solver. }
  split; cbn [pa_mem pools free_lists free_tails csld_free_lists].
  - intros ix. rewrite splice_list_at. case_decide as E1; [subst; cbn; unfold set2; by rewrite !fn_lookup_insert|].
    case_decide as E2.
    + subst. cbn. rewrite fn_lookup_insert. cbn. rewrite fn_lookup_insert. rewrite El.
      apply chain_append; [rewrite <- El; apply I2| |done|apply (I1 (ICsld cur i))].
      intros x Hx Hx'. rewrite <- El in Hx. by specialize (I3 _ _ _ Hx Hx').
    + apply chain_frame; [intros Hx; by specialize (I3 _ _ _ Htin Hx)|]. specialize (I1 ix).
      destruct ix as [c'|c' i'|c1 c2]; try done; cbn in *.
      * destruct (decide (cur = c')) as [<-|]; [rewrite fn_lookup_insert|by rewrite fn_lookup_insert_ne]. cbn.
        by rewrite fn_lookup_insert_ne by congruence.
      * unfold set2. destruct (decide (i = c1)) as [<-|]; [rewrite fn_lookup_insert|by rewrite fn_lookup_insert_ne].
        by rewrite fn_lookup_insert_ne by congruence.
  - intros ix. rewrite splice_list_at. case_decide; [constructor|]. case_decide; [|apply I2].
    apply NoDup_app. split; [apply I2|]. split; [|apply I2]. intros x Hx Hx'. by specialize (I3 _ _ _ Hx Hx').
  - intros ix jx a Ha Hb. destruct (Hsub _ _ Ha) as (ix' & Ha' & _ & C1 & N1), (Hsub _ _ Hb) as (jx' & Hb' & _ & C2 & N2).
    pose proof (I3 _ _ _ Ha' Hb'). naive_solver.
  - intros c1 c2. unfold set2. rewrite splice_list_at. destruct (decide (IFree c1 c2 = IFree i cur)) as [[= -> ->]|Hne].
    + by rewrite !fn_lookup_insert.
    + rewrite decide_False by done. destruct (decide (i = c1)) as [<-|]; [rewrite fn_lookup_insert|by rewrite fn_lookup_insert_ne].
      by rewrite fn_lookup_insert_ne by congruence.
  - intros c'. destruct (decide (cur = c')) as [<-|Hcc].
    + rewrite fn_lookup_insert. cbn. destruct (I5 cur) as [H1 H2]. fold c in H1, H2. split.
      { pose proof (u64_range (i32 (Z.shiftl 1 i))) as Hu. apply lor_range_both; lia. }
      intros j Hj. rewrite Z.lor_spec, H2, int_bit_test by lia. unfold bit_of. rewrite splice_list_at.
      rewrite (decide_False (P := ICsld cur (Z.min j 31) = IFree i cur)) by done.
      destruct (decide (ICsld cur (Z.min j 31) = ICsld cur i)) as [[= Em]|Em].
      * assert ((if i =? 31 then 31 <=? j else j =? i) = true) as -> by (destruct (Z.eqb_spec i 31); zcase; lia).
        rewrite orb_true_r, El. symmetry. apply negb_true_iff, bool_decide_eq_false. by destruct l1.
      * assert ((if i =? 31 then 31 <=? j else j =? i) = false) as ->.
        { destruct (Z.eqb_spec i 31) as [->|]; zcase; try done; exfalso; apply Em; f_equal; lia. }
        by rewrite orb_false_r.
    + rewrite fn_lookup_insert_ne by done. destruct (I5 c') as [H1 H2]. split; [done|]. intros j Hj. rewrite H2 by done.
      unfold bit_of. rewrite splice_list_at, !decide_False by congruence. done.
  - intros c'. destruct (decide (cur = c')) as [<-|]; [rewrite fn_lookup_insert|rewrite fn_lookup_insert_ne by done]; apply I6.
  - intros c' i' Hout. rewrite splice_list_at. rewrite !decide_False by (congruence || (intros [= -> ->]; done)). by apply I7.
  - intros ix a Ha. destruct (Hsub _ _ Ha) as (jx & Hj & Ho & _). rewrite <- Ho. by apply I8.
Qed.
