(* ===== verification/MemProps.v ===== *)
(** What the pools promise: no object is handed out twice, objects freed by
    other cores come back to their owner at quiescence, a fresh pool hands out
    its chunks one by one, and a bump allocator's blocks do not overlap. *)

From S2P Require Import Prelude Bits Mem.

(** ** The bump allocator (mem.h, mem.cc [Brk]) *)

Record Brk := mkBrk { b_offset : Z; b_limit : Z; b_data : Z }.

(** [Brk::Alloc]; with [thread_safe] the update of [offset] is one atomic
    step, so both branches read and advance it *)
Definition Brk_Alloc (b : Brk) (s : Z) : result (Z * Brk) :=
  let s := Align s 16 in
  let off := b_offset b in
  let b := mkBrk (u64 (off + s)) (b_limit b) (b_data b) in
  if b_limit b <? u64 (off + s) then Err Aborted else mret (b_data b + off, b).
Definition Brk_Check (b : Brk) (s : Z) : bool := u64 (b_offset b + s) <=? b_limit b.
Definition Brk_Reset (b : Brk) : Brk := mkBrk 0 (b_limit b) (b_data b).
(** [Brk::New]: the header lies in front of the data ([sizeof(Brk)] is 32) *)
Definition Brk_New (buf sz : Z) : Brk := mkBrk 0 (u64 (sz - Align 32 16)) (buf + Align 32 16).

(** a series of requests *)
Fixpoint alloc_all (b : Brk) (sizes : list Z) : result (list (Z * Z) * Brk) :=
  match sizes with
  | [] => mret ([], b)
  | s :: sizes =>
      '(p, b) ← Brk_Alloc b s;
      '(l, b) ← alloc_all b sizes;
      mret ((p, s) :: l, b)
  end.

Lemma Align_ok x a : 0 < a ≤ 2 ^ 20 → 0 < x ≤ 2 ^ 62 → x ≤ Align x a < x + a ∧ Align x a mod a = 0.
Proof.
  intros Ha Hx. unfold Align. rewrite (u64_id (x - 1)) by lia.
  pose proof (Z.div_mod (x - 1) a ltac:(lia)) as E. pose proof (Z.mod_pos_bound (x - 1) a ltac:(lia)).
  assert (0 ≤ (x - 1) / a) by (apply Z.div_pos; lia).
  assert (Hq : (x - 1) / a ≤ x - 1) by (apply Z.div_le_upper_bound; nia).
  rewrite (u64_id ((x - 1) / a + 1)) by lia. rewrite u64_id by nia. split; [nia|].
  rewrite Z.mul_comm. apply Z.mod_mul. lia.
Qed.

(** the blocks of a series lie one behind the other *)
Inductive packed : Z → list (Z * Z) → Z → Prop :=
| packed_nil a : packed a [] a
| packed_cons a p s l b c : a ≤ p → p + s ≤ b → packed b l c → packed a ((p, s) :: l) c.

Lemma packed_le a l b : packed a l b → (∀ p s, (p, s) ∈ l → 0 ≤ s) → a ≤ b.
Proof.
  induction 1 as [|a p s l b c H1 H2 _ IH]; intros Hs; [lia|].
  specialize (Hs p s ltac:(left)) as Hps. assert (b ≤ c) by (apply IH; intros; eapply Hs; by right). lia.
Qed.

Lemma packed_bounds a l b : packed a l b → (∀ p s, (p, s) ∈ l → 0 ≤ s) → ∀ p s, (p, s) ∈ l → a ≤ p ∧ p + s ≤ b.
Proof.
  induction 1 as [|a p0 s0 l b c H1 H2 Hp IH]; intros Hs p s Hin; [by apply elem_of_nil in Hin|].
  assert (Hs' : ∀ p s, (p, s) ∈ l → 0 ≤ s) by (intros; eapply Hs; by right).
  pose proof (packed_le _ _ _ Hp Hs'). pose proof (Hs p0 s0 ltac:(left)).
  apply elem_of_cons in Hin as [[= -> ->]|Hin]; [lia|]. destruct (IH Hs' p s Hin). lia.
Qed.

Lemma packed_disjoint a l b : packed a l b → (∀ p s, (p, s) ∈ l → 0 ≤ s) →
  ∀ i j p s q t, (i < j)%nat → l !! i = Some (p, s) → l !! j = Some (q, t) → a ≤ p ∧ p + s ≤ q ∧ q + t ≤ b.
Proof.
  induction 1 as [|a p0 s0 l b c H1 H2 Hp IH]; intros Hs i j p s q t Hij Hi Hj; [done|].
  assert (Hs' : ∀ p s, (p, s) ∈ l → 0 ≤ s) by (intros; eapply Hs; by right).
  assert (Hin : ∀ k x y, l !! k = Some (x, y) → b ≤ x ∧ x + y ≤ c).
  { intros k x y Hk. by apply (packed_bounds _ _ _ Hp Hs'), (list_elem_of_lookup_2 _ k). }
  destruct i as [|i], j as [|j]; cbn in *; try lia.
  - injection Hi as <- <-. destruct (Hin j q t Hj). lia.
  - destruct (IH Hs' i j p s q t ltac:(lia) Hi Hj). pose proof (Hs p0 s0 ltac:(left)). lia.
Qed.

Lemma alloc_all_ok sizes : ∀ b l b',
  (∀ s, s ∈ sizes → 0 < s ≤ 2 ^ 62) → 0 ≤ b_offset b ≤ b_limit b → b_limit b ≤ 2 ^ 62 → alloc_all b sizes = Ok (l, b') →
  l.*2 = sizes ∧ b_data b' = b_data b ∧ b_limit b' = b_limit b ∧ b_offset b' ≤ b_limit b ∧
  packed (b_data b + b_offset b) l (b_data b + b_offset b') ∧
  (∀ p s, (p, s) ∈ l → (p - (b_data b + b_offset b)) mod 16 = 0).
Proof.
  induction sizes as [|s sizes IH]; intros b l b' Hs Hb Hl H; cbn [alloc_all] in H.
  { injection H as <- <-. split_and!; try done; [lia|constructor|intros p s []%elem_of_nil]. }
  pose proof (Hs s ltac:(left)) as Hs0. destruct (Align_ok s 16 ltac:(lia) Hs0) as [Ha Hm].
  unfold Brk_Alloc in H. rewrite u64_id in H by lia. set (a := Align s 16) in *.
  cbn [b_limit b_data] in H. destruct (Z.ltb_spec (b_limit b) (b_offset b + a)); [done|].
  cbn [mbind result_bind mret result_ret] in H.
  destruct (alloc_all _ sizes) as [[l1 b1]|] eqn:E; [|done]. cbn [mbind result_bind] in H. injection H as <- <-.
  destruct (IH (mkBrk (b_offset b + a) (b_limit b) (b_data b)) l1 b1) as (H1 & H2 & H3 & H4 & H5 & H6);
    [intros; apply Hs; by right|cbn; lia|cbn; lia|exact E|].
  cbn [b_data b_limit b_offset] in *. split; [cbn; by rewrite H1|]. split; [done|]. split; [done|]. split; [done|]. split.
  - apply (packed_cons _ _ _ _ (b_data b + (b_offset b + a))); [lia|lia|done].
  - intros p t [[= -> ->]|Hin]%elem_of_cons; [by rewrite Z.sub_diag|]. specialize (H6 p t Hin).
    replace (p - (b_data b + b_offset b)) with ((p - (b_data b + (b_offset b + a))) + a) by lia.
    by rewrite Z.add_mod, H6, Hm by lia.
Qed.

(** ** Quiescence as a whole *)

Fixpoint splice_all (L : Ix → list Z) (cur : Z) (l : list Z) : Ix → list Z :=
  match l with [] => L | i :: l => splice_all (splice_list L cur i) cur l end.

Lemma Quiescence_loop_ok n cur l : ∀ pa L,
  n ≤ 32 → pa_inv n pa L → (∀ i, i ∈ l → 0 ≤ i < n) →
  ∃ pa', Quiescence_loop pa cur l = Ok pa' ∧ pa_inv n pa' (splice_all L cur l).
Proof.
  induction l as [|i l IH]; intros pa L Hn Hi Hl; cbn [Quiescence_loop splice_all]; [by exists pa|].
  destruct (splice_ok n pa L cur i Hn Hi (Hl i ltac:(left))) as (pa1 & -> & H1). cbn [mbind result_bind].
  apply IH; [done|done|]. intros j Hj. apply Hl. by right.
Qed.

Lemma splice_all_at cur l : ∀ L ix, NoDup l →
  splice_all L cur l ix =
  match ix with
  | IFree i c => if decide (c = cur ∧ i ∈ l) then [] else L ix
  | ICsld c i => if decide (c = cur ∧ i ∈ l) then L (IFree i cur) ++ L ix else L ix
  | IPool _ => L ix
  end.
Proof.
  induction l as [|x l IH]; intros L ix Hnd; cbn [splice_all].
  { destruct ix; try done; rewrite decide_False; try done; by intros [_ []%elem_of_nil]. }
  apply NoDup_cons in Hnd as [Hx Hnd]. rewrite IH by done. destruct ix as [c|c i|i c]; rewrite ?splice_list_at.
  - by rewrite !decide_False.
  - destruct (decide (c = cur ∧ i ∈ l)) as [[-> Hi]|Hni].
    + rewrite (decide_True (P := cur = cur ∧ i ∈ x :: l)) by (split; [done|by right]).
      rewrite !decide_False by (congruence || (intros [= ->]; done)). done.
    + rewrite (decide_False (P := ICsld c i = IFree x cur)) by done. destruct (decide (ICsld c i = ICsld cur x)) as [[= -> ->]|Hne].
      * by rewrite decide_True by (split; [done|left]).
      * rewrite decide_False; [done|]. intros [-> [->|Hi]%elem_of_cons]; [done|]. by apply Hni.
  - destruct (decide (c = cur ∧ i ∈ l)) as [[-> Hi]|Hni].
    + by rewrite decide_True by (split; [done|by right]).
    + destruct (decide (IFree i c = IFree x cur)) as [[= -> ->]|Hne].
      * by rewrite decide_True by (split; [done|left]).
      * rewrite decide_False by done. rewrite decide_False; [done|]. intros [-> [->|Hi]%elem_of_cons]; [done|]. by apply Hni.
Qed.

(** a fresh pool: its chunks, linked in order *)
Lemma fresh_pool_ok m chunk cap data :
  0 < chunk → 0 < data → 0 < cap →
  let '(m', p) := WeakPool m chunk cap data in
  let l := chunk_addr data chunk <$> seqZ 0 cap in
  chain m' (p_head p) l ∧ NoDup l ∧ (∀ a, a ∈ l → valid_ptr p a) ∧
  (∀ a, a ∉ l → m' a = m a).
Proof.
  intros Hc Hd Hcap. unfold WeakPool. cbv zeta.
  destruct (link_chunk_fold data chunk cap (Z.to_nat cap) 0 m Hc Hd ltac:(lia) ltac:(lia)) as [H1 H2].
  rewrite Z2Nat.id in H1, H2 by lia. set (m' := foldl _ _ _) in *. split_and!.
  - pose proof (chain_of_chunks m' data chunk cap (Z.to_nat cap) 0) as Hch. rewrite Z2Nat.id in Hch by lia.
    cbn [p_head]. replace data with (chunk_addr data chunk 0) at 1 by (unfold chunk_addr; lia). apply Hch; lia || done.
  - apply NoDup_fmap_2_strong; [|apply NoDup_seqZ]. intros x y _ _. unfold chunk_addr. nia.
  - intros a (i & -> & Hi%elem_of_seqZ)%list_elem_of_fmap. unfold chunk_addr. split; [nia|]. exists i. unfold CheckPointer.
    cbn [p_data p_len p_capacity]. rewrite (proj2 (Z.eqb_neq _ 0)) by nia.
    rewrite (proj2 (Z.ltb_ge (data + i * chunk) data)), (proj2 (Z.leb_gt (data + cap * chunk) (data + i * chunk))) by nia.
    cbn [orb]. rewrite (Z.mul_comm cap chunk), Z.div_mul by lia.
    replace (data + i * chunk - data) with (i * chunk) by lia. rewrite Z.mod_mul, Z.div_mul by lia. done.
  - intros a Ha. apply H2. intros i Hi ->. apply Ha. apply list_elem_of_fmap. exists i. split; [done|]. apply elem_of_seqZ. lia.
Qed.

(** ** Properties *)

(** On up to 32 cores, [Alloc] never faults or aborts. It returns an
    object of the core's own free lists and takes it out of them, so no object
    that is still free elsewhere is handed out and none is handed out twice;
    it returns [nullptr] only when the core's pool and its consolidated lists
    are empty. *)
Theorem alloc_unique n pa L cur :
  0 ≤ n ≤ 32 → pa_inv n pa L →
  ∃ p pa' L', ParallelAllocator_Alloc pa cur = Ok (p, pa') ∧ pa_inv n pa' L' ∧
    ((p = 0 ∧ L' = L ∧ L (IPool cur) = [] ∧ ∀ i, L (ICsld cur i) = []) ∨
     (∃ ix rest, (ix = IPool cur ∨ ∃ i, ix = ICsld cur i) ∧ L ix = p :: rest ∧ L' = <[ix := rest]> L ∧ ¬ all_free L' p)).
Proof.
  intros Hn Hi.
  assert (Hout : ∀ ix p rest pa', L ix = p :: rest → pa_inv n pa' (pop_list L ix) →
    pop_list L ix = <[ix := rest]> L ∧ ¬ all_free (pop_list L ix) p).
  { intros ix p rest pa' E _. split; [unfold pop_list; by rewrite E|]. intros [jx Hj]. pose proof (pop_list_sub _ _ _ _ Hj) as Hj'.
    assert (jx = ix) as -> by (apply (pi_disjoint _ _ _ Hi jx ix p); [done|rewrite E; left]).
    unfold pop_list in Hj. rewrite fn_lookup_insert, E in Hj. pose proof (pi_nodup _ _ _ Hi ix) as Hnd. rewrite E in Hnd.
    by apply NoDup_cons in Hnd as [? _]. }
  destruct (decide (bitmap (csld_free_lists pa cur) = 0)) as [Hz|Hz].
  - pose proof (proj1 (bitmap_zero n pa L cur ltac:(lia) Hi) Hz) as Hcs.
    destruct (Alloc_pool_ok n pa L cur ltac:(lia) Hi Hz) as (p & pa' & HA & [(-> & Hp & HI)|(rest & Hp & HI)]).
    + exists 0, pa', L. split; [done|]. split; [done|]. by left.
    + exists p, pa', (pop_list L (IPool cur)). split; [done|]. split; [done|]. right. exists (IPool cur), rest.
      split; [by left|]. split; [done|]. by eapply Hout.
  - destruct (Alloc_csld_ok n pa L cur Hn Hi Hz) as (d & p & rest & pa' & HA & Hp & HI).
    exists p, pa', (pop_list L (ICsld cur d)). split; [done|]. split; [done|]. right. exists (ICsld cur d), rest.
    split; [right; by exists d|]. split; [done|]. by eapply Hout.
Qed.

(** An object freed by another core goes to that core's list, and after
    the owner's quiescence everything other cores freed is in the owner's own
    lists, with the invariant kept throughout: the object can be allocated
    again, by its owner only. *)
Theorem quiescence_returns_objects n pa L cur ptr ac :
  0 ≤ n ≤ 32 → pa_inv n pa L → 0 ≤ ac < n → 0 ≤ cur < n → cur ≠ ac →
  ¬ all_free L ptr → valid_ptr (pools pa ac) ptr →
  ∃ pa1 pa2 L1 L2, ParallelAllocator_Free n pa cur ptr ac = Ok pa1 ∧ pa_inv n pa1 L1 ∧
    L1 = <[IFree cur ac := ptr :: L (IFree cur ac)]> L ∧
    ParallelAllocator_Quiescence n pa1 ac = Ok pa2 ∧ pa_inv n pa2 L2 ∧
    ptr ∈ L2 (ICsld ac cur) ∧ (∀ i, 0 ≤ i < n → L2 (IFree i ac) = [] ∧ L2 (ICsld ac i) = L1 (IFree i ac) ++ L1 (ICsld ac i)) ∧
    (∀ ix, owner ix ≠ ac → L2 ix = L1 ix).
Proof.
  intros Hn Hi Hac Hcur Hne Hfresh Hv.
  destruct (Free_ok n pa L cur ptr ac Hi ltac:(unfold kMaxNrPools; lia) Hac Hfresh Hv) as (pa1 & HF & H1).
  rewrite decide_False in H1 by done. set (L1 := push_list L (IFree cur ac) ptr) in *.
  destruct (Quiescence_loop_ok n ac (seqZ 0 n) pa1 L1 ltac:(lia) H1) as (pa2 & HQ & H2).
  { intros i Hin%elem_of_seqZ. lia. }
  exists pa1, pa2, L1, (splice_all L1 ac (seqZ 0 n)). split; [done|]. split; [done|]. split; [done|].
  split; [done|]. split; [done|].
  assert (Hall : ∀ i, 0 ≤ i < n → splice_all L1 ac (seqZ 0 n) (IFree i ac) = [] ∧
    splice_all L1 ac (seqZ 0 n) (ICsld ac i) = L1 (IFree i ac) ++ L1 (ICsld ac i)).
  { intros i Hin. rewrite !splice_all_at by apply NoDup_seqZ.
    rewrite !decide_True by (split; [done|apply elem_of_seqZ; lia]). done. }
  split; [|split; [done|]].
  - destruct (Hall cur Hcur) as [_ ->]. unfold L1, push_list. rewrite fn_lookup_insert. left.
  - intros ix Ho. rewrite splice_all_at by apply NoDup_seqZ. destruct ix as [c|c i|i c]; cbn in Ho; [done|..];
      rewrite decide_False; try done; by intros [? _].
Qed.

(** The blocks a bump allocator hands out between resets are aligned, lie
    inside its buffer and do not overlap. *)
Theorem brk_blocks_disjoint sizes b l b' :
  (∀ s, s ∈ sizes → 0 < s ≤ 2 ^ 62) → b_limit b ≤ 2 ^ 62 → 0 ≤ b_limit b → alloc_all (Brk_Reset b) sizes = Ok (l, b') →
  l.*2 = sizes ∧
  (∀ p s, (p, s) ∈ l → b_data b ≤ p ∧ p + s ≤ b_data b + b_limit b ∧ (p - b_data b) mod 16 = 0) ∧
  (∀ i j p s q t, (i < j)%nat → l !! i = Some (p, s) → l !! j = Some (q, t) → p + s ≤ q).
Proof.
  intros Hs Hl Hl0 HA.
  destruct (alloc_all_ok sizes (Brk_Reset b) l b' Hs ltac:(cbn; lia) Hl HA) as (H1 & H2 & H3 & H4 & H5 & H6).
  cbn [Brk_Reset b_data b_offset b_limit] in *. rewrite Z.add_0_r in *.
  assert (Hpos : ∀ p s, (p, s) ∈ l → 0 ≤ s).
  { intros p s Hin. assert (Hs' : s ∈ l.*2) by (apply list_elem_of_fmap; by exists (p, s)). rewrite H1 in Hs'. specialize (Hs s Hs'). lia. }
  split; [done|]. split.
  - intros p s Hin. destruct (packed_bounds _ _ _ H5 Hpos p s Hin). split; [done|]. split; [lia|by eapply H6].
  - intros i j p s q t Hij Hpi Hqj. by destruct (packed_disjoint _ _ _ H5 Hpos i j p s q t Hij Hpi Hqj) as (_ & ? & _).
Qed.

(** ** Witnesses *)

Module MemSample.
Definition m0 : Memory := fun _ => 0.
Definition fresh := WeakPool m0 64 2 4096.
(** two cores; core 0 owns two chunks, core 1 none *)
Definition pa : PAlloc := mkPA (fst fresh) (fun c => if c =? 0 then snd fresh else mkPool 0 0 0 1 0)
  (fun _ _ => 0) (fun _ _ => 0) (fun _ => mkCsld 0 0 (fun _ => 0)).
Definition L : Ix → list Z := fun ix => match ix with IPool c => if c =? 0 then [4096; 4160] else [] | _ => [] end.

Lemma pa_ok : pa_inv 2 pa L.
Proof.
  assert (Hf : chain (fst fresh) (p_head (snd fresh)) [4096; 4160]) by (vm_compute; naive_solver).
  split.
  - intros [c|c i|i c]; try done. unfold head_of, L, pa. cbn [pools pa_mem]. destruct (c =? 0); [exact Hf|done].
  - intros [c|c i|i c]; cbn; [|constructor..]. destruct (c =? 0); [|constructor]. apply (bool_decide_unpack _). by vm_compute.
  - intros [c|c i|i c] [c'|c' i'|i' c'] a; cbn; intros H1 H2; try (by apply elem_of_nil in H1); try (by apply elem_of_nil in H2).
    destruct (Z.eqb_spec c 0), (Z.eqb_spec c' 0); subst; try done; try (by apply elem_of_nil in H1); by apply elem_of_nil in H2.
  - done.
  - intros c. cbn. split; [lia|]. intros j Hj. by rewrite Z.bits_0.
  - intros c. cbn. lia.
  - done.
  - intros [c|c i|i c] a; cbn; intros H; try (by apply elem_of_nil in H). destruct (Z.eqb_spec c 0); [|by apply elem_of_nil in H].
    apply elem_of_cons in H as [->| ->%list_elem_of_singleton]; (split; [done|]); by eexists.
Qed.
End MemSample.

Lemma alloc_unique_witness :
  ∃ p pa' L', ParallelAllocator_Alloc MemSample.pa 0 = Ok (p, pa') ∧ p = 4096 ∧ pa_inv 2 pa' L'.
Proof.
  destruct (alloc_unique 2 MemSample.pa MemSample.L 0 ltac:(lia) MemSample.pa_ok) as (p & pa' & L' & HA & HI & _).
  exists p, pa', L'. split; [exact HA|]. split; [|exact HI]. clear HI. vm_compute in HA. by injection HA as <- _.
Defined.

Lemma quiescence_returns_objects_witness :
  ∃ pa0 pa1 pa2 (L2 : Ix → list Z), ParallelAllocator_Alloc MemSample.pa 0 = Ok (4096, pa0) ∧
    ParallelAllocator_Free 2 pa0 1 4096 0 = Ok pa1 ∧ ParallelAllocator_Quiescence 2 pa1 0 = Ok pa2 ∧ 4096 ∈ L2 (ICsld 0 1).
Proof.
  destruct (Alloc_pool_ok 2 MemSample.pa MemSample.L 0 ltac:(lia) MemSample.pa_ok eq_refl)
    as (p & pa0 & HA & [(_ & Hp & _)|(rest & Hp & HI)]); [done|].
  injection Hp as <- <-.
  assert (Hpl : same_pool (pools MemSample.pa 0) (pools pa0 0)) by (vm_compute in HA; injection HA as <-; vm_compute; done).
  destruct (quiescence_returns_objects 2 pa0 (pop_list MemSample.L (IPool 0)) 1 4096 0)
    as (pa1 & pa2 & L1 & L2 & HF & _ & _ & HQ & _ & Hin & _); [lia|exact HI|lia|lia|done| | |].
  - intros [ix Hx]. destruct ix as [c|c i|i c]; unfold pop_list in Hx; fn_cases; [|cbn in Hx..].
    all: try (destruct c; set_solver). all: set_solver.
  - apply (valid_ptr_same (pools MemSample.pa 0)); [exact Hpl|]. split; [done|]. by exists 0.
  - exists pa0, pa1, pa2, L2. split; [exact HA|]. split; [exact HF|]. split; [exact HQ|exact Hin].
Defined.

Lemma brk_blocks_disjoint_witness :
  ∃ l b', alloc_all (Brk_Reset (mkBrk 7 128 4096)) [20; 16; 40] = Ok (l, b') ∧ l = [(4096, 20); (4128, 16); (4144, 40)] ∧
    (∀ i j p s q t, (i < j)%nat → l !! i = Some (p, s) → l !! j = Some (q, t) → p + s ≤ q).
Proof.
  eexists _, _. split; [reflexivity|]. split; [reflexivity|].
  apply (brk_blocks_disjoint [20; 16; 40] (mkBrk 7 128 4096) _ (mkBrk 96 128 4096));
    [intros s Hs; set_unfold in Hs; lia|cbn; lia|cbn; lia|reflexivity].
Defined.
