(* ===== verification/SlabMem.v ===== *)
(** The slab memory of one NUMA node (mem.cc [MetaSlab], [SlabMemory]): 64 MB
    metaslabs that are either one large page or up to 32 small pages of 2 MB. *)

From S2P Require Import Prelude Bits.

(** ** State and operations *)

(** [MetaSlab]; its data pointer follows from its index *)
Record MetaSlab := mkMeta { large_slab : bool; alloc_bitmap : Z }.    (* uint32_t *)
(** [SlabMemory]: the pool of metaslabs is a free list of indices *)
Record SlabMemory := mkSM {
  sm_pool : list Z;
  sm_meta : Z → MetaSlab;
  sm_half_full : list Z;
  sm_data : Z;               (* p + data_offset *)
}.
Definition kSlabPageSize : Z := M_ 2.
Definition kLargeSlabPageSize : Z := M_ 64.
Definition full_bitmap : Z := 2 ^ 32 - 1.

(** [SlabMemory::NewMetaSlab]: the index, or nothing when the pool is empty *)
Definition NewMetaSlab (m : SlabMemory) : option (Z * SlabMemory) :=
  match sm_pool m with
  | [] => None
  | i :: pool => Some (i, mkSM pool (<[i := mkMeta false 0]> (sm_meta m)) (sm_half_full m) (sm_data m))
  end.

(** the page address of a slab *)
Definition metaslab_ptr (m : SlabMemory) (i : Z) : Z := sm_data m + i * kLargeSlabPageSize.

(** the first free small page of the first half-full metaslab *)
Definition take_page (m : SlabMemory) : result (Z * Z * Z * SlabMemory) :=
  match sm_half_full m with
  | [] => Err OutOfRange
  | i :: rest =>
      let b := alloc_bitmap (sm_meta m i) in
      let idx := ctz (Z.lxor b full_bitmap) in
      let b := Z.lor b (u32 (Z.shiftl 1 idx)) in
      mret (i, idx, metaslab_ptr m i + idx * kSlabPageSize,
            mkSM (sm_pool m) (<[i := mkMeta (large_slab (sm_meta m i)) b]> (sm_meta m))
              (if b =? full_bitmap then rest else i :: rest) (sm_data m))
  end.

(** [SlabMemory::AllocSlab]: metaslab index, slab index and page address, or
    nothing for [nullptr] *)
Definition AllocSlab (m : SlabMemory) (large : bool) : result (option (Z * Z * Z) * SlabMemory) :=
  if large then
    match NewMetaSlab m with
    | None => mret (None, m)
    | Some (i, m) =>
        mret (Some (i, 0, metaslab_ptr m i),
              mkSM (sm_pool m) (<[i := mkMeta true (alloc_bitmap (sm_meta m i))]> (sm_meta m)) (sm_half_full m) (sm_data m))
    end
  else
    match sm_half_full m, NewMetaSlab m with
    | [], None => mret (None, m)
    | [], Some (i, m) =>
        '(i, idx, p, m) ← take_page (mkSM (sm_pool m) (sm_meta m) (i :: sm_half_full m) (sm_data m));
        mret (Some (i, idx, p), m)
    | _, _ => '(i, idx, p, m) ← take_page m; mret (Some (i, idx, p), m)
    end.

(** [SlabMemory::FreeSlab] of slab [idx] of metaslab [i] *)
Definition FreeSlab (m : SlabMemory) (i idx : Z) : SlabMemory :=
  let ms := sm_meta m i in
  if large_slab ms then mkSM (i :: sm_pool m) (sm_meta m) (sm_half_full m) (sm_data m) else
  let half := if alloc_bitmap ms =? full_bitmap then i :: sm_half_full m else sm_half_full m in
  let b := Z.land (alloc_bitmap ms) (Z.lxor (u32 (Z.shiftl 1 idx)) full_bitmap) in
  let meta := <[i := mkMeta false b]> (sm_meta m) in
  if negb (b =? 0) then mkSM (sm_pool m) meta half (sm_data m)
  else mkSM (i :: sm_pool m) meta (filter (fun j => j ≠ i) half) (sm_data m).

(** ** The pages handed out *)

Inductive Kind := Free | Large | Small (b : Z).

(** page [pg] is the small page [pg mod 32] of metaslab [pg / 32] *)
Definition live (kind : Z → Kind) (pg : Z) : bool :=
  match kind (pg / 32) with Free => false | Large => true | Small b => Z.testbit b (pg mod 32) end.

Record sm_inv (nr : Z) (m : SlabMemory) (kind : Z → Kind) : Prop := {
  sv_pool : NoDup (sm_pool m) ∧ ∀ i, i ∈ sm_pool m ↔ 0 ≤ i < nr ∧ kind i = Free;
  sv_half : NoDup (sm_half_full m) ∧
    ∀ i, i ∈ sm_half_full m ↔ 0 ≤ i < nr ∧ ∃ b, kind i = Small b ∧ b ≠ full_bitmap;
  sv_large : ∀ i, kind i = Large → 0 ≤ i < nr ∧ large_slab (sm_meta m i) = true;
  sv_small : ∀ i b, kind i = Small b → 0 ≤ i < nr ∧ sm_meta m i = mkMeta false b ∧ 0 < b < 2 ^ 32;
}.

(** the lowest clear bit of a bitmap that is not full *)
Lemma ctz_clear b : 0 ≤ b < 2 ^ 32 → b ≠ full_bitmap →
  let idx := ctz (Z.lxor b full_bitmap) in 0 ≤ idx < 32 ∧ Z.testbit b idx = false.
Proof.
  intros Hb Hne idx.
  assert (Hx : 0 < Z.lxor b full_bitmap < 2 ^ 32).
  { assert (H0 : Z.lxor b full_bitmap ≠ 0) by (intros E; by apply Z.lxor_eq in E).
    assert (0 ≤ Z.lxor b full_bitmap) by (apply Z.lxor_nonneg; unfold full_bitmap; lia).
    split; [lia|]. apply Z.log2_lt_pow2; [lia|]. eapply Z.le_lt_trans; [apply Z.log2_lxor; unfold full_bitmap; lia|].
    apply Z.max_lub_lt; [|reflexivity]. destruct (Z.eq_dec b 0) as [->|]; [reflexivity|]. apply Z.log2_lt_pow2; lia. }
  pose proof (ctz_bound _ 32 Hx) as Hr. destruct (ctz_testbit _ (proj1 Hx)) as [Ht _]. fold idx in Hr, Ht. split; [done|].
  rewrite Z.lxor_spec in Ht. change full_bitmap with (Z.ones 32) in Ht. rewrite Z.ones_spec_low in Ht by lia.
  by destruct (Z.testbit b idx).
Qed.

Lemma shiftl1_u32 idx : 0 ≤ idx < 32 → u32 (Z.shiftl 1 idx) = Z.shiftl 1 idx.
Proof. intros H. apply u32_id. rewrite Z.shiftl_1_l. split; [apply Z.pow_nonneg; lia|apply Z.pow_lt_mono_r; lia]. Qed.

(** *** Taking a small page *)

Lemma take_page_ok nr m kind i rest :
  sm_inv nr m kind → sm_half_full m = i :: rest →
  ∃ b idx m', kind i = Small b ∧ take_page m = Ok (i, idx, metaslab_ptr m i + idx * kSlabPageSize, m') ∧
    0 ≤ idx < 32 ∧ Z.testbit b idx = false ∧ sm_data m' = sm_data m ∧
    sm_inv nr m' (<[i := Small (Z.lor b (Z.shiftl 1 idx))]> kind).
Proof.
  intros [[P1 P2] [H1 H2] L S] Eh. unfold take_page. rewrite Eh.
  destruct (proj1 (H2 i)) as (Hin & b & Hk & Hnf); [rewrite Eh; left|].
  destruct (S i b Hk) as (_ & Em & Hb). rewrite Em. cbn [alloc_bitmap large_slab].
  destruct (ctz_clear b ltac:(lia) Hnf) as [Hidx Hclr]. set (idx := ctz _) in *. rewrite shiftl1_u32 by done.
  set (b' := Z.lor b (Z.shiftl 1 idx)). exists b, idx. eexists. split; [done|]. split; [done|]. split; [done|]. split; [done|].
  split; [done|]. assert (Hb' : 0 ≤ b' < 2 ^ 32) by (apply lor_range; lia).
  assert (Hb0 : b' ≠ 0).
  { intros E. assert (Ht : Z.testbit b' idx = true) by (unfold b'; rewrite testbit_set by lia; rewrite Z.eqb_refl; apply orb_true_r).
    rewrite E, Z.bits_0 in Ht. done. }
  rewrite Eh in H1. apply NoDup_cons in H1 as [Hi1 Hi2].
  assert (Hk' : ∀ j, (<[i := Small b']> kind) j = if decide (j = i) then Small b' else kind j).
  { intros j. case_decide; [subst; by rewrite fn_lookup_insert|by rewrite fn_lookup_insert_ne]. }
  split; cbn [sm_pool sm_meta sm_half_full].
  - split; [done|]. intros j. rewrite P2, Hk'. case_decide; [|done]. subst j. rewrite Hk. by split; intros [_ ?].
  - split; [destruct (b' =? full_bitmap); [done|by apply NoDup_cons]|]. intros j. rewrite Hk'.
    assert (Hj : j ∈ (if b' =? full_bitmap then rest else i :: rest) ↔ (j = i ∧ b' ≠ full_bitmap) ∨ (j ≠ i ∧ j ∈ sm_half_full m)).
    { rewrite Eh, elem_of_cons. destruct (Z.eqb_spec b' full_bitmap) as [E|E]; rewrite ?elem_of_cons; split.
      - intros Hj. right. split; [by intros ->|by right].
      - by intros [[_ ?]|[? [?|?]]].
      - intros [->|Hj]; [by left|]. right. split; [by intros ->|by right].
      - intros [[-> _]|[_ ?]]; [by left|done]. }
    rewrite Hj, H2. case_decide as E.
    + subst j. split; [intros [[_ Hf]|[? _]]; [|done]; split; [done|by exists b']|]. intros (_ & c & [= <-] & Hf). by left.
    + split; [intros [[? _]|[_ ?]]; done|]. intros Hx. by right.
  - intros j. rewrite Hk'. case_decide; [done|]. intros Hl. destruct (L j Hl). by rewrite fn_lookup_insert_ne.
  - intros j c. rewrite Hk'. case_decide as E; [intros [= <-]; subst; rewrite fn_lookup_insert; split_and!; try done; lia|].
    intros Hs. rewrite fn_lookup_insert_ne by done. by apply S.
Qed.

(** the pages after a small page was taken *)
Lemma live_small kind i b idx pg :
  kind i = Small b → 0 ≤ idx < 32 →
  live (<[i := Small (Z.lor b (Z.shiftl 1 idx))]> kind) pg = live kind pg || (pg =? i * 32 + idx).
Proof.
  intros Hk Hidx. unfold live. pose proof (Z.div_mod pg 32 ltac:(lia)). pose proof (Z.mod_pos_bound pg 32 ltac:(lia)).
  destruct (decide (pg / 32 = i)) as [E|E].
  - rewrite E, fn_lookup_insert, Hk, testbit_set by lia. f_equal. zcase; lia.
  - rewrite fn_lookup_insert_ne by done. replace (pg =? i * 32 + idx) with false; [by rewrite orb_false_r|].
    symmetry. apply Z.eqb_neq. intros ->. apply E. rewrite Z.div_add_l, Z.div_small by lia. lia.
Qed.

Lemma new_meta_ok nr m kind i m' :
  sm_inv nr m kind → NewMetaSlab m = Some (i, m') →
  kind i = Free ∧ 0 ≤ i < nr ∧ sm_pool m = i :: sm_pool m' ∧ sm_meta m' = <[i := mkMeta false 0]> (sm_meta m) ∧
  sm_half_full m' = sm_half_full m ∧ sm_data m' = sm_data m ∧ i ∉ sm_half_full m ∧ i ∉ sm_pool m'.
Proof.
  intros [[P1 P2] [H1 H2] _ _]. unfold NewMetaSlab. destruct (sm_pool m) as [|j pool] eqn:E; [done|].
  intros [= <- <-]. cbn. destruct (proj1 (P2 j)) as [? ?]; [left|]. apply NoDup_cons in P1 as [? ?].
  do 6 (split; [done|]). split; [|done]. intros Hh. apply H2 in Hh as (_ & b & Hb & _). congruence.
Qed.

Lemma AllocSlab_small_ok nr m kind :
  sm_inv nr m kind →
  ∃ r m', AllocSlab m false = Ok (r, m') ∧ sm_data m' = sm_data m ∧
    match r with
    | None => m' = m ∧ sm_pool m = [] ∧ sm_half_full m = []
    | Some (i, idx, p) => 0 ≤ i < nr ∧ 0 ≤ idx < 32 ∧ p = sm_data m + (i * 32 + idx) * kSlabPageSize ∧
        live kind (i * 32 + idx) = false ∧
        ∃ kind', sm_inv nr m' kind' ∧ (∀ pg, live kind' pg = live kind pg || (pg =? i * 32 + idx)) ∧
          (∀ j, j ≠ i → kind' j = kind j) ∧ kind i ≠ Large ∧ kind' i ≠ Large
    end.
Proof.
  intros Hi. unfold AllocSlab.
  assert (Hptr : ∀ i idx, metaslab_ptr m i + idx * kSlabPageSize = sm_data m + (i * 32 + idx) * kSlabPageSize).
  { intros. unfold metaslab_ptr, kLargeSlabPageSize, kSlabPageSize. change (M_ 64) with (32 * M_ 2). lia. }
  assert (Hpg : ∀ i idx, 0 ≤ idx < 32 → (i * 32 + idx) / 32 = i ∧ (i * 32 + idx) mod 32 = idx).
  { intros i idx Hx. rewrite Z.div_add_l, Z.div_small by lia. split; [lia|].
    rewrite Z.add_comm, Z.mod_add, Z.mod_small by lia. done. }
  destruct (sm_half_full m) as [|i rest] eqn:Eh.
  - destruct (NewMetaSlab m) as [[i m1]|] eqn:En.
    2: { eexists None, m. split; [done|]. split; [done|]. split; [done|]. split; [|done].
         unfold NewMetaSlab in En. by destruct (sm_pool m). }
    destruct (new_meta_ok nr m kind i m1 Hi En) as (Hk & Hin & Hp & Hm & Hh & Hd & _ & Hnp).
    set (m2 := mkSM _ _ (i :: _) _).
    assert (Ht : take_page m2 = Ok (i, 0, metaslab_ptr m i + 0 * kSlabPageSize,
      mkSM (sm_pool m1) (<[i := mkMeta false 1]> (<[i := mkMeta false 0]> (sm_meta m))) [i] (sm_data m))).
    { unfold take_page, m2. cbn [sm_half_full sm_meta sm_pool sm_data]. rewrite Hm, fn_lookup_insert, Hh, Eh, Hd.
      unfold metaslab_ptr. cbn [sm_data]. reflexivity. }
    rewrite Ht. cbn [mbind result_bind]. eexists (Some (i, 0, _)), _. split; [done|]. split; [done|].
    split; [done|]. split; [lia|]. split; [apply Hptr|]. destruct (Hpg i 0 ltac:(lia)) as [Hd1 Hd2].
    split; [unfold live; by rewrite Hd1, Hk|].
    exists (<[i := Small 1]> kind). destruct Hi as [[P1 P2] [H1 H2] L S].
    assert (Hk' : ∀ j, (<[i := Small 1]> kind) j = if decide (j = i) then Small 1 else kind j).
    { intros j. case_decide; [subst; by rewrite fn_lookup_insert|by rewrite fn_lookup_insert_ne]. }
    split.
    { split; cbn [sm_pool sm_meta sm_half_full].
      - rewrite Hp in P1, P2. apply NoDup_cons in P1 as [? P1]. split; [done|]. intros j. rewrite Hk'.
        specialize (P2 j). rewrite elem_of_cons in P2. case_decide as E.
        + subst j. split; [done|]. by intros [_ ?].
        + rewrite <- P2. split; [by right|]. by intros [?|?].
      - split; [apply NoDup_singleton|]. intros j. rewrite list_elem_of_singleton, Hk'. case_decide as E.
        + subst. split; [|done]. intros _. split; [done|]. by exists 1.
        + specialize (H2 j). rewrite Eh in H2. split; [done|]. intros Hx. by apply H2, elem_of_nil in Hx.
      - intros j. rewrite Hk'. case_decide; [done|]. intros Hl. destruct (L j Hl). by rewrite !fn_lookup_insert_ne.
      - intros j c. rewrite Hk'. case_decide as E; [intros [= <-]; subst; rewrite fn_lookup_insert; split_and!; try done; lia|].
        intros Hs. rewrite !fn_lookup_insert_ne by done. by apply S. }
    split; [|split; [intros j Hj; by rewrite Hk', decide_False|by rewrite Hk', decide_True, Hk]].
    intros pg. unfold live. rewrite Hk'. pose proof (Z.div_mod pg 32 ltac:(lia)). pose proof (Z.mod_pos_bound pg 32 ltac:(lia)).
    case_decide as E.
    + rewrite E, Hk. cbn [orb]. destruct (Z.eqb_spec pg (i * 32 + 0)) as [->|Hne]; [by rewrite Hd2|].
      apply Z.bits_above_log2; [lia|]. cbn. lia.
    + replace (pg =? i * 32 + 0) with false; [by rewrite orb_false_r|]. symmetry. apply Z.eqb_neq. intros ->. by rewrite Hd1 in E.
  - destruct (take_page_ok nr m kind i rest Hi Eh) as (b & idx & m' & Hk & Ht & Hidx & Hclr & Hd & Hi').
    destruct (proj1 (proj2 (sv_half _ _ _ Hi) i)) as [Hin _]; [rewrite Eh; left|].
    replace (match NewMetaSlab m with Some _ => _ | None => _ end) with
      ('(i, idx, p, m) ← take_page m; mret (Some (i, idx, p), m) : result (option (Z * Z * Z) * SlabMemory)) by (by destruct (NewMetaSlab m) as [[??]|]).
    rewrite Ht. cbn [mbind result_bind]. eexists (Some (i, idx, _)), m'. split; [done|]. split; [done|].
    split; [done|]. split; [done|]. split; [apply Hptr|]. destruct (Hpg i idx Hidx) as [Hd1 Hd2].
    split; [unfold live; by rewrite Hd1, Hd2, Hk|]. eexists. split; [exact Hi'|]. split; [intros pg; by apply live_small|]. split; [intros j Hj; by rewrite fn_lookup_insert_ne|by rewrite fn_lookup_insert, Hk].
Qed.

Lemma AllocSlab_large_ok nr m kind :
  sm_inv nr m kind →
  ∃ r m', AllocSlab m true = Ok (r, m') ∧ sm_data m' = sm_data m ∧
    match r with
    | None => m' = m ∧ sm_pool m = []
    | Some (i, idx, p) => 0 ≤ i < nr ∧ idx = 0 ∧ p = sm_data m + i * 32 * kSlabPageSize ∧
        (∀ k, 0 ≤ k < 32 → live kind (i * 32 + k) = false) ∧
        ∃ kind', sm_inv nr m' kind' ∧ (∀ pg, live kind' pg = live kind pg || (pg / 32 =? i)) ∧
          (∀ j, j ≠ i → kind' j = kind j) ∧ kind' i = Large
    end.
Proof.
  intros Hi. unfold AllocSlab. destruct (NewMetaSlab m) as [[i m1]|] eqn:En.
  2: { eexists None, m. split; [done|]. split; [done|]. split; [done|].
       unfold NewMetaSlab in En. by destruct (sm_pool m). }
  destruct (new_meta_ok nr m kind i m1 Hi En) as (Hk & Hin & Hp & Hm & Hh & Hd & Hnh & Hnp).
  eexists (Some (i, 0, _)), _. split; [done|]. split; [done|]. split; [done|]. split; [done|].
  split; [unfold metaslab_ptr, kLargeSlabPageSize, kSlabPageSize; rewrite Hd; change (M_ 64) with (32 * M_ 2); lia|].
  split.
  { intros k Hk'. unfold live. rewrite Z.div_add_l, Z.div_small, Z.add_0_r by lia. by rewrite Hk. }
  exists (<[i := Large]> kind). destruct Hi as [[P1 P2] [H1 H2] L S].
  assert (Hk' : ∀ j, (<[i := Large]> kind) j = if decide (j = i) then Large else kind j).
  { intros j. case_decide; [subst; by rewrite fn_lookup_insert|by rewrite fn_lookup_insert_ne]. }
  split.
  - split; cbn [sm_pool sm_meta sm_half_full].
    + rewrite Hp in P1, P2. apply NoDup_cons in P1 as [? P1]. split; [done|]. intros j. rewrite Hk'.
      specialize (P2 j). rewrite elem_of_cons in P2. case_decide as E.
      * subst j. split; [done|]. by intros [_ ?].
      * rewrite <- P2. split; [by right|]. by intros [?|?].
    + rewrite Hh. split; [done|]. intros j. rewrite Hk', H2. case_decide as E; [|done]. subst j. rewrite Hk.
      split; intros (_ & b & ? & _); done.
    + intros j. rewrite Hk', Hm. case_decide as E; [subst j; intros _; split; [done|by rewrite fn_lookup_insert]|].
      intros Hl. destruct (L j Hl). split; [done|]. by rewrite !fn_lookup_insert_ne.
    + intros j c. rewrite Hk', Hm. case_decide as E; [done|]. intros Hs. rewrite !fn_lookup_insert_ne by done. by apply S.
  - split; [|split; [intros j Hj; by rewrite Hk', decide_False|by rewrite Hk', decide_True]].
    intros pg. unfold live. rewrite Hk'. case_decide as E.
    + rewrite E, Hk, Z.eqb_refl. done.
    + rewrite (proj2 (Z.eqb_neq (pg / 32) i)) by done. by rewrite orb_false_r.
Qed.

(** *** Freeing *)

Lemma clear_bit b idx j : 0 ≤ b < 2 ^ 32 → 0 ≤ idx < 32 → 0 ≤ j →
  Z.testbit (Z.land b (Z.lxor (u32 (Z.shiftl 1 idx)) full_bitmap)) j = Z.testbit b j && negb (j =? idx).
Proof.
  intros Hb Hi Hj. rewrite shiftl1_u32 by done. rewrite Z.land_spec, Z.lxor_spec, Z.shiftl_1_l, Z.pow2_bits_eqb by lia.
  change full_bitmap with (Z.ones 32). destruct (Z.lt_ge_cases j 32).
  - rewrite Z.ones_spec_low by lia. rewrite (Z.eqb_sym idx j). by destruct (j =? idx).
  - rewrite (testbit_high b 32) by lia. done.
Qed.

Lemma FreeSlab_ok nr m kind i idx :
  sm_inv nr m kind → 0 ≤ idx < 32 → live kind (i * 32 + idx) = true →
  ∃ kind', sm_inv nr (FreeSlab m i idx) kind' ∧ sm_data (FreeSlab m i idx) = sm_data m ∧
    (∀ pg, live kind' pg = live kind pg && negb (match kind i with Large => pg / 32 =? i | _ => pg =? i * 32 + idx end)) ∧
    (∀ j, j ≠ i → kind' j = kind j) ∧ kind' i ≠ Large.
Proof.
  intros Hi Hidx Hl. pose proof Hi as [[P1 P2] [H1 H2] L S].
  assert (Hpg : (i * 32 + idx) / 32 = i ∧ (i * 32 + idx) mod 32 = idx).
  { rewrite Z.div_add_l, Z.div_small by lia. split; [lia|]. rewrite Z.add_comm, Z.mod_add, Z.mod_small by lia. done. }
  destruct Hpg as [Hd Hm]. unfold live in Hl. rewrite Hd, Hm in Hl. unfold FreeSlab.
  assert (Hk' : ∀ k j, (<[i := k]> kind) j = if decide (j = i) then k else kind j).
  { intros k j. case_decide; [subst; by rewrite fn_lookup_insert|by rewrite fn_lookup_insert_ne]. }
  destruct (kind i) as [| |b] eqn:Ek; [done|..].
  - destruct (L i Ek) as [Hin Hlg]. rewrite Hlg. exists (<[i := Free]> kind). split; [|split; [done|]].
    + split; cbn [sm_pool sm_meta sm_half_full].
      * split; [apply NoDup_cons; split; [rewrite P2; intros [_ ?]; congruence|done]|]. intros j.
        rewrite elem_of_cons, P2, Hk'. case_decide as E; [subst j; split; [done|by left]|]. split; [by intros [?|?]|by right].
      * split; [done|]. intros j. rewrite H2, Hk'. case_decide as E; [|done]. subst j. rewrite Ek. split; intros (_ & c & ? & _); done.
      * intros j. rewrite Hk'. case_decide; [done|apply L].
      * intros j c. rewrite Hk'. case_decide; [done|apply S].
    + split; [|split; [intros j Hj; by rewrite Hk', decide_False|by rewrite Hk', decide_True]].
      intros pg. unfold live. rewrite Hk'. case_decide as E.
      * by rewrite E, Ek, Z.eqb_refl.
      * rewrite (proj2 (Z.eqb_neq (pg / 32) i)) by done. by rewrite andb_true_r.
  - destruct (S i b Ek) as (Hin & Em & Hb). rewrite Em. cbn [large_slab alloc_bitmap].
    set (b' := Z.land b _). assert (Htest : ∀ j, 0 ≤ j → Z.testbit b' j = Z.testbit b j && negb (j =? idx)) by (intros; apply clear_bit; lia).
    assert (Hb' : 0 ≤ b' < 2 ^ 32).
    { apply land_range; [lia| |lia]. apply Z.lxor_nonneg. pose proof (u32_range (Z.shiftl 1 idx)). unfold full_bitmap. lia. }
    assert (Hnf : b' ≠ full_bitmap).
    { intros E. specialize (Htest idx ltac:(lia)). rewrite E, Z.eqb_refl, andb_false_r in Htest.
      change full_bitmap with (Z.ones 32) in Htest. by rewrite Z.ones_spec_low in Htest by lia. }
    set (half := if b =? full_bitmap then _ else _).
    assert (Hhalf : NoDup half ∧ ∀ j, j ∈ half ↔ j = i ∨ j ∈ sm_half_full m).
    { unfold half. destruct (Z.eqb_spec b full_bitmap) as [E|E].
      - split; [|intros j; apply elem_of_cons]. apply NoDup_cons. split; [|done]. rewrite H2. intros (_ & c & Ec & Hc). congruence.
      - split; [done|]. intros j. split; [by right|]. intros [->|?]; [|done]. apply H2. split; [done|]. by exists b. }
    destruct Hhalf as [Hh1 Hh2].
    assert (Hlive : ∀ k, (k = Free ∧ b' = 0 ∨ k = Small b') → ∀ pg, live (<[i := k]> kind) pg = live kind pg && negb (pg =? i * 32 + idx)).
    { intros k Hkk pg. unfold live. rewrite Hk'. pose proof (Z.div_mod pg 32 ltac:(lia)). pose proof (Z.mod_pos_bound pg 32 ltac:(lia)).
      case_decide as E.
      - rewrite E, Ek. assert (Heq : (pg =? i * 32 + idx) = (pg mod 32 =? idx)) by (zcase; lia). rewrite Heq.
        destruct Hkk as [[-> E0]| ->]; [|apply Htest; lia]. specialize (Htest (pg mod 32) ltac:(lia)). by rewrite E0, Z.bits_0 in Htest.
      - replace (pg =? i * 32 + idx) with false; [by rewrite andb_true_r|]. symmetry. apply Z.eqb_neq. intros ->. by rewrite Hd in E. }
    destruct (Z.eqb_spec b' 0) as [E0|E0]; cbn [negb].
    + exists (<[i := Free]> kind). split; [|split; [done|split; [apply Hlive; by left|split; [intros j Hj; by rewrite Hk', decide_False|by rewrite Hk', decide_True]]]].
      split; cbn [sm_pool sm_meta sm_half_full].
      * split; [apply NoDup_cons; split; [rewrite P2; intros [_ ?]; congruence|done]|]. intros j.
        rewrite elem_of_cons, P2, Hk'. case_decide as E; [subst j; split; [done|by left]|]. split; [by intros [?|?]|by right].
      * split; [by apply NoDup_filter|]. intros j. rewrite list_elem_of_filter, Hh2, H2, Hk'. case_decide as E.
        -- subst j. split; [by intros [? _]|]. by intros (_ & c & ? & _).
        -- split; [by intros [_ [?|?]]|]. intros Hx. split; [done|by right].
      * intros j. rewrite Hk'. case_decide; [done|]. intros Hlj. destruct (L j Hlj). by rewrite fn_lookup_insert_ne.
      * intros j c. rewrite Hk'. case_decide; [done|]. intros Hs. rewrite fn_lookup_insert_ne by done. by apply S.
    + exists (<[i := Small b']> kind). split; [|split; [done|split; [apply Hlive; by right|split; [intros j Hj; by rewrite Hk', decide_False|by rewrite Hk', decide_True]]]].
      split; cbn [sm_pool sm_meta sm_half_full].
      * split; [done|]. intros j. rewrite P2, Hk'. case_decide as E; [|done]. subst j. rewrite Ek. by split; intros [_ ?].
      * split; [done|]. intros j. rewrite Hh2, H2, Hk'. case_decide as E.
        -- subst j. split; [intros _; split; [done|by exists b']|by left].
        -- split; [by intros [?|?]|by right].
      * intros j. rewrite Hk'. case_decide; [done|]. intros Hlj. destruct (L j Hlj). by rewrite fn_lookup_insert_ne.
      * intros j c. rewrite Hk'. case_decide as E; [intros [= <-]; subst j; rewrite fn_lookup_insert; split; [done|]; split; [done|lia]|].
        intros Hs. rewrite fn_lookup_insert_ne by done. by apply S.
Qed.

(** ** Properties *)

(** The slab memory never hands out the same page twice: a small slab is a
    2 MB page, a large slab a whole 64 MB metaslab, that was not in use and
    now is; the other pages in use stay in use; [nullptr] is returned only when
    the node has no metaslab left (and, for a small slab, no page in a
    half-full one). *)
Theorem slab_pages_unique nr m kind large :
  sm_inv nr m kind →
  ∃ r m', AllocSlab m large = Ok (r, m') ∧ sm_data m' = sm_data m ∧
    match r with
    | None => m' = m ∧ sm_pool m = [] ∧ (large = false → sm_half_full m = [])
    | Some (i, idx, p) => p = sm_data m + (i * 32 + idx) * kSlabPageSize ∧
        let page pg := if large then pg / 32 =? i else pg =? i * 32 + idx in
        (∀ pg, page pg = true → live kind pg = false) ∧
        ∃ kind', sm_inv nr m' kind' ∧ ∀ pg, live kind' pg = live kind pg || page pg
    end.
Proof.
  intros Hi. destruct large.
  - destruct (AllocSlab_large_ok nr m kind Hi) as (r & m' & HA & Hd & Hr). exists r, m'. split; [done|]. split; [done|].
    destruct r as [[[i idx] p]|]; [|naive_solver]. destruct Hr as (Hin & -> & -> & Hfree & kind' & HI & Hl & _).
    split; [lia|]. split; [|by exists kind']. intros pg Hpg. apply Z.eqb_eq in Hpg.
    pose proof (Z.div_mod pg 32 ltac:(lia)). pose proof (Z.mod_pos_bound pg 32 ltac:(lia)).
    replace pg with (i * 32 + pg mod 32) by lia. by apply Hfree.
  - destruct (AllocSlab_small_ok nr m kind Hi) as (r & m' & HA & Hd & Hr). exists r, m'. split; [done|]. split; [done|].
    destruct r as [[[i idx] p]|]; [|naive_solver]. destruct Hr as (Hin & _ & -> & Hfree & kind' & HI & Hl & _).
    split; [done|]. split; [|by exists kind']. intros pg ->%Z.eqb_eq. done.
Qed.

(** Freeing a slab in use gives back exactly its page (the whole metaslab
    for a large slab), keeps every other page, and returns a metaslab with no
    page left to the pool; the invariant that every metaslab is either in the
    pool, in the half-full list, full or large is preserved. *)
Theorem slab_free_exact nr m kind i idx :
  sm_inv nr m kind → 0 ≤ idx < 32 → live kind (i * 32 + idx) = true →
  ∃ kind', sm_inv nr (FreeSlab m i idx) kind' ∧ sm_data (FreeSlab m i idx) = sm_data m ∧
    ∀ pg, live kind' pg = live kind pg && negb (match kind i with Large => pg / 32 =? i | _ => pg =? i * 32 + idx end).
Proof. intros Hi Hx Hl. destruct (FreeSlab_ok nr m kind i idx Hi Hx Hl) as (kind' & HI & Hd & Hl' & _). by exists kind'. Qed.

(** *** Witnesses *)

Definition sample_sm : SlabMemory := mkSM [0; 1] (fun _ => mkMeta false 0) [] 4096.
Lemma sample_sm_ok : sm_inv 2 sample_sm (fun _ => Free).
Proof.
  split; cbn [sm_pool sm_half_full sample_sm].
  - split; [apply (bool_decide_unpack _); by vm_compute|]. intros i. rewrite !elem_of_cons. split.
    + intros [->|[->|[]%elem_of_nil]]; split; done.
    + intros [Hi _]. assert (i = 0 ∨ i = 1) as [->| ->] by lia; auto.
  - split; [constructor|]. intros i. split; [intros []%elem_of_nil|]. by intros (_ & b & ? & _).
  - done.
  - done.
Qed.

Lemma slab_pages_unique_witness :
  ∃ i idx p m', AllocSlab sample_sm false = Ok (Some (i, idx, p), m') ∧ p = 4096 + (i * 32 + idx) * kSlabPageSize.
Proof.
  destruct (slab_pages_unique 2 sample_sm _ false sample_sm_ok) as (r & m' & HA & _ & Hr).
  destruct r as [[[i idx] p]|]; [|discriminate HA]. exists i, idx, p, m'. split; [exact HA|]. apply (proj1 Hr).
Defined.

Lemma slab_free_exact_witness :
  ∃ m i p kind', AllocSlab sample_sm true = Ok (Some (i, 0, p), m) ∧ sm_inv 2 (FreeSlab m i 0) kind' ∧ live kind' (i * 32) = false.
Proof.
  destruct (AllocSlab_large_ok 2 sample_sm _ sample_sm_ok) as (r & m & HA & _ & Hr).
  destruct r as [[[i idx] p]|]; [|discriminate HA]. destruct Hr as (Hi & -> & _ & _ & kind1 & HI & Hl & _).
  destruct (slab_free_exact 2 m kind1 i 0 HI ltac:(lia)) as (kind' & HI' & _ & Hl').
  - rewrite Hl, Z.add_0_r, Z.div_mul, Z.eqb_refl by lia. apply orb_true_r.
  - exists m, i, p, kind'. split; [exact HA|]. split; [exact HI'|]. rewrite Hl'.
    destruct (kind1 i); rewrite ?Z.div_mul, ?Z.add_0_r, Z.eqb_refl by lia; apply andb_false_r.
Defined.
