(* ===== verification/SlabPool.v ===== *)
(** The slab pools (mem.cc [SlabPool], [InitSlab], [FindSlabMemory]): every core and
    size class has a pool of slabs, which are pages of the nodes' slab memories cut into
    chunks; empty slabs are kept up to a limit and then given back. *)

From S2P Require Import Prelude Bits Mem MemProps SlabMem.

(** ** Layout *)

(** [sizeof(Slab)]: a list node and a [BasicPool]; [sizeof(MetaSlab)]: a list node, the
    flag, the bitmap, the pointer, and 32 slabs *)
Definition kSizeofSlab : Z := 16 + 64.
Definition kSlabsOffset : Z := 16 + 8 + 8.
Definition kSizeofMetaSlab : Z := kSlabsOffset + 32 * kSizeofSlab.

(** the constant fields of [SlabMemory] *)
Record Layout := mkLayout { n_p : Z; n_data_offset : Z; n_data_len : Z }.
(** the constant fields of [SlabPool] *)
Record SlabConf := mkConf { chunk_size : Z; nr_buffer : Z; numa_node : Z }.

(** a [Slab] is named by its node, its metaslab and its place there *)
Record Slab := mkSlab { s_node : Z; s_meta : Z; s_idx : Z }.
#[export] Instance Slab_eq_dec : EqDecision Slab.
Proof. solve_decision. Defined.

(** [SlabPool]: the lists start at [next]; [stats] *)
Record SlabPool := mkSP { empty : list Slab; half_full : list Slab; nr_empty : Z; sp_used : Z; sp_watermark : Z }.

(** the words of memory, [g_slabmem], the pools inside the slabs, and the slab pools *)
Record SlabHeap := mkHeap { h_mem : Memory; h_nodes : Z → SlabMemory; h_slabs : Slab → Pool; h_pools : Z → SlabPool }.

(** [SlabPool::PageSize] *)
Definition PageSize (chunk : Z) : Z := if K_ 512 <=? chunk then kLargeSlabPageSize else kSlabPageSize.

Section SlabPool.
(** [N] NUMA nodes; slab pools are named by numbers *)
Context (N : Z) (lay : Z → Layout) (conf : Z → SlabConf).

Definition is_large_slab (pid : Z) : bool := K_ 512 <=? chunk_size (conf pid).
Definition slab_capacity (pid : Z) : Z := PageSize (chunk_size (conf pid)) / chunk_size (conf pid).

(** ** Finding slabs by address *)

(** [SlabMemory::Contains], [FindSlabMemory] *)
Definition Contains (n ptr : Z) : bool := (n_p (lay n) <? ptr) && (ptr <? n_p (lay n) + n_data_len (lay n)).
Definition FindSlabMemory (ptr default_numa_node : Z) : result Z :=
  if negb ((0 <=? default_numa_node) && (default_numa_node <? N)) then Err OutOfRange else
  if Contains default_numa_node ptr then Ok default_numa_node else
  match filter (fun n => Contains n ptr = true) (seqZ 0 N) with n :: _ => Ok n | [] => Err OutOfRange end.

(** the address of a slab's header, and back ([GetMetaSlab], and the index in [FreeSlab]) *)
Definition slab_addr (s : Slab) : Z := n_p (lay (s_node s)) + s_meta s * kSizeofMetaSlab + kSlabsOffset + s_idx s * kSizeofSlab.
Definition GetMetaSlab (n slab : Z) : Z := (slab - n_p (lay n)) / kSizeofMetaSlab.
Definition slab_index (n slab : Z) : Z := (slab - (n_p (lay n) + GetMetaSlab n slab * kSizeofMetaSlab + kSlabsOffset)) / kSizeofSlab.
(** [SlabMemory::GetSlab]: the slab of an object *)
Definition GetSlab (n ptr : Z) (large : bool) : Slab :=
  let off := ptr - n_p (lay n) - n_data_offset (lay n) in
  mkSlab n (off / kLargeSlabPageSize) (if large then 0 else (off mod kLargeSlabPageSize) / kSlabPageSize).

(** ** Slabs of a pool *)

Definition set_pool (pid : Z) (sp : SlabPool) (h : SlabHeap) : SlabHeap := mkHeap (h_mem h) (h_nodes h) (h_slabs h) (<[pid := sp]> (h_pools h)).
Definition set_slab (s : Slab) (m : Memory) (pl : Pool) (h : SlabHeap) : SlabHeap := mkHeap m (h_nodes h) (<[s := pl]> (h_slabs h)) (h_pools h).
Definition set_node (n : Z) (sm : SlabMemory) (h : SlabHeap) : SlabHeap := mkHeap (h_mem h) (<[n := sm]> (h_nodes h)) (h_slabs h) (h_pools h).

(** [Remove] and [InsertAfter] of a slab; a slab is in lists of its own pool only *)
Definition Slab_Remove (s : Slab) (sp : SlabPool) : SlabPool :=
  mkSP (filter (fun t => t ≠ s) (empty sp)) (filter (fun t => t ≠ s) (half_full sp)) (nr_empty sp) (sp_used sp) (sp_watermark sp).
Definition insert_empty (s : Slab) (sp : SlabPool) : SlabPool := mkSP (s :: empty sp) (half_full sp) (nr_empty sp) (sp_used sp) (sp_watermark sp).
Definition insert_half_full (s : Slab) (sp : SlabPool) : SlabPool := mkSP (empty sp) (s :: half_full sp) (nr_empty sp) (sp_used sp) (sp_watermark sp).
Definition set_nr_empty (n : Z) (sp : SlabPool) : SlabPool := mkSP (empty sp) (half_full sp) n (sp_used sp) (sp_watermark sp).
Definition is_detached (s : Slab) (sp : SlabPool) : bool := negb (bool_decide (s ∈ empty sp)) && negb (bool_decide (s ∈ half_full sp)).
(** [stats.used], [stats.watermark] *)
Definition add_used (d : Z) (sp : SlabPool) : SlabPool :=
  mkSP (empty sp) (half_full sp) (nr_empty sp) (sp_used sp + d) (if 0 <? d then Z.max (sp_used sp + d) (sp_watermark sp) else sp_watermark sp).

(** a page of the first of the nodes that has one *)
Fixpoint alloc_page (large : bool) (nodes : list Z) (h : SlabHeap) : result (option (Slab * Z * SlabHeap)) :=
  match nodes with
  | [] => Ok None
  | n :: nodes =>
      if negb ((0 <=? n) && (n <? N)) then Err OutOfRange else
      '(r, m) ← AllocSlab (h_nodes h n) large;
      match r with
      | Some (i, idx, p) => Ok (Some (mkSlab n i idx, p, set_node n m h))
      | None => alloc_page large nodes (set_node n m h)
      end
  end.

(** [SlabPool::RefillSlab]: the pool's own node first; the constructor of [Slab] links it
    into the empty list and cuts its page into chunks *)
Definition RefillSlab (pid : Z) (h : SlabHeap) : result (Slab * SlabHeap) :=
  r ← alloc_page (is_large_slab pid) (numa_node (conf pid) :: seqZ 0 N) h;
  match r with
  | None => Err Aborted
  | Some (s, p, h) =>
      let sp := h_pools h pid in
      let sp := insert_empty s (set_nr_empty (u32 (nr_empty sp + 1)) sp) in
      let '(m, pl) := WeakPool (h_mem h) (chunk_size (conf pid)) (slab_capacity pid) p in
      Ok (s, set_pool pid sp (set_slab s m pl h))
  end.

(** [SlabMemory::FreeSlab] of a slab's address *)
Definition free_slab_at (n slab : Z) (h : SlabHeap) : SlabHeap :=
  set_node n (FreeSlab (h_nodes h n) (GetMetaSlab n slab) (slab_index n slab)) h.

(** [SlabPool::ReturnSlab]: the last slab of the empty list *)
Definition ReturnSlab (pid : Z) (h : SlabHeap) : result SlabHeap :=
  let sp := h_pools h pid in
  match last (empty sp) with
  | None => Err OutOfRange
  | Some s =>
      let sp := Slab_Remove s sp in
      n ← FindSlabMemory (slab_addr s) (numa_node (conf pid));
      let h := free_slab_at n (slab_addr s) (set_pool pid sp h) in
      Ok (set_pool pid (set_nr_empty (u32 (nr_empty sp - 1)) sp) h)
  end.

(** ** Objects *)

(** an object of slab [s] *)
Definition slab_object (s : Slab) (h : SlabHeap) : result (Z * SlabHeap) :=
  '(o, pl) ← BasicPool_Alloc (h_mem h) (h_slabs h s);
  Ok (o, set_slab s (h_mem h) pl h).
(** [is_full], [is_empty] of the pool of a slab *)
Definition is_full (pl : Pool) : bool := p_head pl =? 0.
Definition is_empty (pl : Pool) : bool := p_used pl =? 0.

(** [SlabPool::Alloc] *)
Definition SlabPool_Alloc (pid : Z) (h : SlabHeap) : result (Z * SlabHeap) :=
  if chunk_size (conf pid) =? 0 then Ok (0, h) else
  let h := set_pool pid (add_used (chunk_size (conf pid)) (h_pools h pid)) h in
  match half_full (h_pools h pid) with
  | s :: _ =>
      '(o, h) ← slab_object s h;
      let sp := h_pools h pid in
      Ok (o, set_pool pid (if is_full (h_slabs h s) then Slab_Remove s sp else sp) h)
  | [] =>
      '(s, h) ← match empty (h_pools h pid) with [] => RefillSlab pid h | s :: _ => Ok (s, h) end;
      '(o, h) ← slab_object s h;
      let sp := insert_half_full s (Slab_Remove s (h_pools h pid)) in
      Ok (o, set_pool pid (set_nr_empty (u32 (nr_empty sp - 1)) sp) h)
  end.

(** the lists after an object of slab [s] was freed *)
Definition free_relist (s : Slab) (pl : Pool) (sp : SlabPool) : SlabPool :=
  let sp := if is_detached s sp then insert_half_full s sp else sp in
  if is_empty pl then
    let sp := insert_empty s (Slab_Remove s sp) in set_nr_empty (u32 (nr_empty sp + 1)) sp
  else sp.

(** [SlabPool::Free] *)
Definition SlabPool_Free (pid ptr : Z) (h : SlabHeap) : result SlabHeap :=
  let h := set_pool pid (add_used (- chunk_size (conf pid)) (h_pools h pid)) h in
  n ← FindSlabMemory ptr (numa_node (conf pid));
  let s := GetSlab n ptr (is_large_slab pid) in
  '(m, pl) ← BasicPool_Free (h_mem h) (h_slabs h s) ptr;
  let h := set_slab s m pl h in
  let h := set_pool pid (free_relist s pl (h_pools h pid)) h in
  if nr_buffer (conf pid) <? nr_empty (h_pools h pid) then ReturnSlab pid h else Ok h.

(** the constructor of [SlabPool] *)
Fixpoint refill_loop (fuel : nat) (pid : Z) (h : SlabHeap) : result SlabHeap :=
  if negb (nr_empty (h_pools h pid) <? nr_buffer (conf pid)) then Ok h else
  match fuel with O => Err Blocked | S fuel => '(_, h) ← RefillSlab pid h; refill_loop fuel pid h end.
Definition SlabPool_new (pid : Z) (h : SlabHeap) : result SlabHeap :=
  refill_loop (Z.to_nat (nr_buffer (conf pid))) pid (set_pool pid (mkSP [] [] 0 0 0) h).

End SlabPool.

(** [InitSlab] on [N] nodes: [addr n] is the memory [AllocMemory] returns for node [n] *)
Definition init_nr_metaslabs (memsz : Z) : Z := u64 (memsz - 1) / kLargeSlabPageSize + 1.
Definition init_layout (addr : Z → Z) (N memsz n : Z) : Layout :=
  let memsz := memsz / N in
  mkLayout (addr n) (Align (init_nr_metaslabs memsz * kSizeofMetaSlab) kLargeSlabPageSize) memsz.
Definition init_nr_pages (memsz : Z) : Z :=
  init_nr_metaslabs memsz - Align (init_nr_metaslabs memsz * kSizeofMetaSlab) kLargeSlabPageSize / kLargeSlabPageSize.
Definition InitSlab (addr : Z → Z) (N memsz : Z) : Z → SlabMemory := fun n =>
  mkSM (seqZ 0 (init_nr_pages (memsz / N))) (fun _ => mkMeta false 0) []
    (addr n + n_data_offset (init_layout addr N memsz n)).
