(* ===== verification/SlabFacts.v ===== *)
(** Facts on slab pools: the pages of slabs and the chunks of pages are disjoint, the
    invariant of the slab pools, and the steps of its preservation. *)

From S2P Require Import Prelude Bits Mem MemProps SlabMem SlabPool.

Section SlabFacts.
Context (N : Z) (lay : Z → Layout) (conf : Z → SlabConf) (nr : Z → Z).

(** what [InitSlab] and the constructors of the pools set up: [nr n] metaslabs on node [n] *)
Record heap_env : Prop := {
  he_node : ∀ n, 0 ≤ n < N → 0 < n_p (lay n) ∧ 0 ≤ nr n ∧ nr n * kSizeofMetaSlab ≤ n_data_offset (lay n) ∧
    n_data_offset (lay n) + nr n * kLargeSlabPageSize ≤ n_data_len (lay n);
  he_disjoint : ∀ n k, 0 ≤ n < N → 0 ≤ k < N → n ≠ k →
    n_p (lay n) + n_data_len (lay n) ≤ n_p (lay k) ∨ n_p (lay k) + n_data_len (lay k) ≤ n_p (lay n);
  he_conf : ∀ pid, 8 ≤ chunk_size (conf pid) ≤ M_ 32 ∧ 0 ≤ nr_buffer (conf pid) < 2 ^ 32 - 1 ∧ 0 ≤ numa_node (conf pid) < N;
}.
Context (HE : heap_env).

Abbreviation chunk pid := (chunk_size (conf pid)).
Abbreviation cap := (slab_capacity conf).
Abbreviation large := (is_large_slab conf).

(** ** Pages and chunks *)

Definition page_addr (s : Slab) : Z := n_p (lay (s_node s)) + n_data_offset (lay (s_node s)) + (s_meta s * 32 + s_idx s) * kSlabPageSize.
Definition chunks (s : Slab) (pid : Z) : list Z := chunk_addr (page_addr s) (chunk pid) <$> seqZ 0 (cap pid).

(** the slabs in use: the metaslab exists, and a large slab is the only one of its metaslab *)
Definition slab_ok (kind : Z → Z → Kind) (s : Slab) (pid : Z) : Prop :=
  0 ≤ s_node s < N ∧ 0 ≤ s_idx s < 32 ∧ 0 ≤ s_meta s < nr (s_node s) ∧
  live (kind (s_node s)) (s_meta s * 32 + s_idx s) = true ∧
  (kind (s_node s) (s_meta s) = Large ↔ large pid = true) ∧ (large pid = true → s_idx s = 0).

Lemma page_size_eq pid : PageSize (chunk pid) = if large pid then 32 * kSlabPageSize else kSlabPageSize.
Proof. unfold PageSize, is_large_slab. by destruct (_ <=? _). Qed.

Lemma cap_bounds pid : 2 ≤ cap pid ∧ cap pid * chunk pid ≤ PageSize (chunk pid).
Proof.
  destruct (he_conf HE pid) as [Hc _]. unfold slab_capacity. split.
  - apply Z.div_le_lower_bound; [lia|]. unfold PageSize. change (M_ 32) with (2 ^ 25) in Hc. change (K_ 512) with (2 ^ 19).
    change kLargeSlabPageSize with (2 ^ 26). change kSlabPageSize with (2 ^ 21). destruct (Z.leb_spec (2 ^ 19) (chunk pid)); lia.
  - rewrite Z.mul_comm. apply Z.mul_div_le. lia.
Qed.

Lemma in_chunks s pid a : a ∈ chunks s pid ↔ ∃ i, 0 ≤ i < cap pid ∧ a = page_addr s + i * chunk pid.
Proof.
  unfold chunks, chunk_addr. rewrite list_elem_of_fmap. split; intros (i & H1 & H2).
  - exists i. apply elem_of_seqZ in H2. split; [lia|done].
  - exists i. split; [done|]. apply elem_of_seqZ. lia.
Qed.
Lemma len_chunks s pid : len (chunks s pid) = cap pid.
Proof. unfold chunks. rewrite length_fmap, length_seqZ. pose proof (cap_bounds pid). lia. Qed.
Lemma NoDup_chunks s pid : NoDup (chunks s pid).
Proof.
  apply NoDup_fmap_2_strong; [|apply NoDup_seqZ]. intros x y _ _. unfold chunk_addr. destruct (he_conf HE pid) as [? _]. nia.
Qed.
Lemma chunk_in_page s pid a : a ∈ chunks s pid → page_addr s ≤ a ∧ a + chunk pid ≤ page_addr s + PageSize (chunk pid).
Proof. rewrite in_chunks. intros (i & Hi & ->). pose proof (cap_bounds pid). destruct (he_conf HE pid) as [? _]. nia. Qed.
Lemma chunks_apart s pid a b : a ∈ chunks s pid → b ∈ chunks s pid → a ≠ b → a + chunk pid ≤ b ∨ b + chunk pid ≤ a.
Proof. rewrite !in_chunks. intros (i & Hi & ->) (j & Hj & ->) Hne. destruct (he_conf HE pid) as [? _]. assert (i < j ∨ j < i) as [?|?] by nia; nia. Qed.

(** a page lies in the data of its node *)
Lemma page_in_node kind s pid : slab_ok kind s pid →
  n_p (lay (s_node s)) + n_data_offset (lay (s_node s)) ≤ page_addr s ∧
  page_addr s + PageSize (chunk pid) ≤ n_p (lay (s_node s)) + n_data_len (lay (s_node s)).
Proof.
  intros (Hn & Hx & Hm & _ & _ & Hl). destruct (he_node HE _ Hn) as (_ & _ & _ & Hd). unfold page_addr. rewrite page_size_eq.
  change kLargeSlabPageSize with (32 * kSlabPageSize) in Hd. assert (0 < kSlabPageSize) by done.
  destruct (large pid) eqn:E; [rewrite Hl in * by done|]; nia.
Qed.

Lemma page_pos kind s pid : slab_ok kind s pid → 0 < page_addr s.
Proof.
  intros Hs. destruct (page_in_node _ _ _ Hs) as [H _]. destruct Hs as (Hn & _ & Hm & _). destruct (he_node HE _ Hn) as (H0 & _ & H1 & _).
  assert (0 < kSizeofMetaSlab) by done. nia.
Qed.

(** the pages of two slabs do not overlap *)
Lemma pages_apart kind s t pid qid : slab_ok kind s pid → slab_ok kind t qid → s ≠ t →
  page_addr s + PageSize (chunk pid) ≤ page_addr t ∨ page_addr t + PageSize (chunk qid) ≤ page_addr s.
Proof.
  intros Hs Ht Hne. pose proof (page_in_node _ _ _ Hs) as [Ps1 Ps2]. pose proof (page_in_node _ _ _ Ht) as [Pt1 Pt2].
  destruct Hs as (Hn & Hx & Hm & _ & Hk & Hl), Ht as (Hn' & Hx' & Hm' & _ & Hk' & Hl'). destruct (decide (s_node s = s_node t)) as [En|En].
  2: { destruct (he_node HE _ Hn) as (? & ? & ? & _), (he_node HE _ Hn') as (? & ? & ? & _). assert (0 < kSizeofMetaSlab) by done.
       destruct (he_disjoint HE _ _ Hn Hn' En); [left|right]; nia. }
  unfold page_addr. rewrite <- En in *. rewrite !page_size_eq. assert (0 < kSlabPageSize) by done. destruct (decide (s_meta s = s_meta t)) as [Em|Em].
  - rewrite <- Em in *. assert (El : large pid = large qid) by (destruct (large pid), (large qid); naive_solver). rewrite <- El in *.
    destruct (large pid); [exfalso; apply Hne; destruct s, t; cbn in *; f_equal; naive_solver lia|].
    assert (s_idx s ≠ s_idx t) by (intros Ei; apply Hne; destruct s, t; cbn in *; congruence). nia.
  - destruct (large pid), (large qid); rewrite ?Hl, ?Hl' by done; nia.
Qed.

Lemma objects_apart kind s t pid qid a b : slab_ok kind s pid → slab_ok kind t qid → a ∈ chunks s pid → b ∈ chunks t qid →
  (s = t → pid = qid) → a ≠ b → a + chunk pid ≤ b ∨ b + chunk qid ≤ a.
Proof.
  intros Hs Ht Ha Hb Ho Hne. destruct (decide (s = t)) as [->|Hst].
  - rewrite <- (Ho eq_refl) in *. by apply (chunks_apart t).
  - pose proof (chunk_in_page _ _ _ Ha). pose proof (chunk_in_page _ _ _ Hb). destruct (pages_apart kind s t pid qid Hs Ht Hst); lia.
Qed.
Lemma chunk_slab kind s t pid qid a : slab_ok kind s pid → slab_ok kind t qid → a ∈ chunks s pid → a ∈ chunks t qid → s = t.
Proof.
  intros Hs Ht Ha Hb. destruct (decide (s = t)) as [->|Hst]; [done|]. exfalso.
  pose proof (chunk_in_page _ _ _ Ha). pose proof (chunk_in_page _ _ _ Hb). destruct (he_conf HE pid) as [? _], (he_conf HE qid) as [? _].
  destruct (pages_apart kind s t pid qid Hs Ht Hst); lia.
Qed.

(** ** The invariant *)

(** what the metaslabs are used for, the pool that owns a slab, and its free chunks *)
Record Ghost := mkGhost { g_kind : Z → Z → Kind; g_owner : Slab → option Z; g_free : Slab → list Z }.

Definition pool_ok (m : Memory) (pl : Pool) (s : Slab) (pid : Z) (l : list Z) : Prop :=
  p_data pl = page_addr s ∧ p_len pl = cap pid * chunk pid ∧ p_capacity pl = cap pid ∧ p_used pl = (cap pid - len l) * chunk pid ∧
  chain m (p_head pl) l ∧ NoDup l ∧ (∀ a, a ∈ l → a ∈ chunks s pid).

Definition lists_ok (g : Ghost) (pid : Z) (sp : SlabPool) : Prop :=
  NoDup (empty sp) ∧ NoDup (half_full sp) ∧
  (∀ s, s ∈ empty sp ↔ g_owner g s = Some pid ∧ len (g_free g s) = cap pid) ∧
  (∀ s, s ∈ half_full sp ↔ g_owner g s = Some pid ∧ 0 < len (g_free g s) < cap pid) ∧
  nr_empty sp = len (empty sp).

Record heap_inv (g : Ghost) (h : SlabHeap) : Prop := {
  hi_node : ∀ n, 0 ≤ n < N → sm_inv (nr n) (h_nodes h n) (g_kind g n) ∧
    sm_data (h_nodes h n) = n_p (lay n) + n_data_offset (lay n);
  hi_own : ∀ s pid, g_owner g s = Some pid → slab_ok (g_kind g) s pid;
  hi_pool : ∀ s pid, g_owner g s = Some pid → pool_ok (h_mem h) (h_slabs h s) s pid (g_free g s);
  hi_lists : ∀ pid, lists_ok g pid (h_pools h pid);
}.

(** the objects in use: chunks of slabs of the pool that are not free *)
Definition allocated (g : Ghost) (pid a : Z) : Prop := ∃ s, g_owner g s = Some pid ∧ a ∈ chunks s pid ∧ a ∉ g_free g s.

Definition set_free (s : Slab) (l : list Z) (g : Ghost) : Ghost := mkGhost (g_kind g) (g_owner g) (<[s := l]> (g_free g)).

Lemma mem_chain_ext m m' l : ∀ h, (∀ a, a ∈ l → m' a = m a) → chain m h l → chain m' h l.
Proof.
  induction l as [|a l IH]; intros h Hm; [done|]. cbn. intros (-> & Ha & Hc). split; [done|]. split; [done|].
  rewrite Hm by left. apply IH; [|done]. intros b Hb. apply Hm. by right.
Qed.

Lemma free_len m pl s pid l : pool_ok m pl s pid l → len l ≤ cap pid.
Proof.
  intros (_ & _ & _ & _ & _ & Hnd & Hin). rewrite <- (len_chunks s pid). apply Nat2Z.inj_le, submseteq_length, NoDup_submseteq; done.
Qed.
Lemma free_all m pl s pid l a : pool_ok m pl s pid l → len l = cap pid → a ∈ chunks s pid → a ∈ l.
Proof.
  intros (_ & _ & _ & _ & _ & Hnd & Hin) Hl Ha. destruct (decide (a ∈ l)) as [|Hna]; [done|]. exfalso.
  assert (Hle : (length (a :: l) ≤ length (chunks s pid))%nat).
  { apply submseteq_length, NoDup_submseteq; [by apply NoDup_cons|]. intros b [->|Hb]%elem_of_cons; [done|by apply Hin]. }
  pose proof (len_chunks s pid). cbn in Hle. lia.
Qed.

(** changes to one slab *)
Lemma relist_inv g h pid s m pl l sp :
  heap_inv g h → g_owner g s = Some pid → (∀ a, a ∉ chunks s pid → m a = h_mem h a) → pool_ok m pl s pid l →
  lists_ok (set_free s l g) pid sp → heap_inv (set_free s l g) (set_pool pid sp (set_slab s m pl h)).
Proof.
  intros Hi Ho Hm Hp Hl. destruct Hi as [I1 I2 I3 I4]. split; cbn; [done|done|..].
  - intros t qid Ht. destruct (decide (s = t)) as [<-|Hne].
    + rewrite Ho in Ht. injection Ht as <-. by rewrite !fn_lookup_insert.
    + rewrite !fn_lookup_insert_ne by done. destruct (I3 t qid Ht) as (P1 & P2 & P3 & P4 & P5 & P6 & P7).
      do 4 (split; [done|]). split; [|done]. apply (mem_chain_ext (h_mem h)); [|done]. intros a Ha. apply Hm. intros Ha'.
      apply Hne. by apply (chunk_slab (g_kind g) s t pid qid a); [apply I2|apply I2| |apply P7].
  - intros qid. destruct (decide (pid = qid)) as [<-|Hne]; [by rewrite fn_lookup_insert|rewrite fn_lookup_insert_ne by done].
    destruct (I4 qid) as (L1 & L2 & L3 & L4 & L5). do 2 (split; [done|]). cbn.
    assert (Hf : ∀ t, g_owner g t = Some qid → (<[s := l]> (g_free g)) t = g_free g t).
    { intros t Ht. apply fn_lookup_insert_ne. intros <-. congruence. }
    split; [intros t; rewrite L3|split; [intros t; rewrite L4|done]]; split; intros [H1 H2]; (split; [done|]); first [by rewrite Hf|by rewrite Hf in H2].
Qed.

Lemma pool_inv g h pid sp : heap_inv g h → lists_ok g pid sp → heap_inv g (set_pool pid sp h).
Proof.
  intros [I1 I2 I3 I4] Hl. split; cbn; try done. intros qid. destruct (decide (pid = qid)) as [<-|?]; [by rewrite fn_lookup_insert|by rewrite fn_lookup_insert_ne].
Qed.
Lemma add_used_lists g pid d sp : lists_ok g pid sp → lists_ok g pid (add_used d sp).
Proof. done. Qed.

(** ** Objects of a slab *)

Lemma chunk_valid m pl s pid l a : pool_ok m pl s pid l → 0 < page_addr s → a ∈ chunks s pid → valid_ptr pl a.
Proof.
  intros (P1 & P2 & P3 & _) Hp Ha. pose proof (cap_bounds pid) as [Hc _]. destruct (he_conf HE pid) as [Hch _].
  pose proof (fresh_pool_ok m (chunk pid) (cap pid) (page_addr s) ltac:(lia) Hp ltac:(lia)) as Hf. unfold WeakPool in Hf. cbv zeta in Hf.
  destruct Hf as (_ & _ & Hv & _). eapply valid_ptr_same; [|by apply Hv]. by split.
Qed.
Lemma chunk_of_len pid : (cap pid * chunk pid) / cap pid = chunk pid.
Proof. pose proof (cap_bounds pid). rewrite Z.mul_comm. apply Z.div_mul. lia. Qed.

Lemma pool_take m pl s pid o l : pool_ok m pl s pid (o :: l) → 0 < page_addr s →
  ∃ pl', BasicPool_Alloc m pl = Ok (o, pl') ∧ pool_ok m pl' s pid l ∧ is_full pl' = bool_decide (l = []).
Proof.
  intros Hp Hpos. pose proof (chunk_valid _ _ _ _ _ o Hp Hpos) as Hv. destruct Hp as (P1 & P2 & P3 & P4 & P5 & P6 & P7).
  destruct P5 as (Hh & Ho & Hc). destruct Hv as (_ & k & Hk); [apply P7; left|]. unfold BasicPool_Alloc, WeakPool_Alloc.
  rewrite Hh, (proj2 (Z.eqb_neq o 0)) by done. set (pl' := mkPool _ _ _ _ _). rewrite <- (CheckPointer_same pl pl') by done. rewrite Hk. cbn [mbind result_bind].
  exists pl'. split; [done|]. apply NoDup_cons in P6 as [Hn P6]. split.
  - split_and!; cbn; try done.
    + rewrite P2, P3, P4, chunk_of_len. cbn [length]. lia.
    + intros a Ha. apply P7. by right.
  - unfold is_full, pl'. cbn [p_head]. pose proof (chain_empty _ _ _ Hc). case_bool_decide; zcase; naive_solver.
Qed.

Lemma pool_give m pl s pid a l : pool_ok m pl s pid l → 0 < page_addr s → a ∈ chunks s pid → a ∉ l →
  ∃ pl', BasicPool_Free m pl a = Ok (<[a := p_head pl]> m, pl') ∧ pool_ok (<[a := p_head pl]> m) pl' s pid (a :: l) ∧
    is_empty pl' = bool_decide (len (a :: l) = cap pid).
Proof.
  intros Hp Hpos Ha Hn. pose proof (chunk_valid _ _ _ _ _ a Hp Hpos Ha) as (H0 & k & Hk). destruct Hp as (P1 & P2 & P3 & P4 & P5 & P6 & P7).
  unfold BasicPool_Free, WeakPool_Free. rewrite Hk. cbn [mbind result_bind]. rewrite (proj2 (Z.eqb_neq a 0)) by done.
  eexists. split; [done|]. split.
  - split_and!; cbn; try done.
    + rewrite P2, P3, P4, chunk_of_len. cbn [length]. lia.
    + split; [done|]. split; [done|]. rewrite fn_lookup_insert. by apply chain_frame.
    + by apply NoDup_cons.
    + intros b [->|Hb]%elem_of_cons; [done|by apply P7].
  - unfold is_empty. cbn [p_used]. rewrite P2, P3, P4, chunk_of_len. cbn [length]. destruct (he_conf HE pid) as [? _].
    case_bool_decide; zcase; try done; exfalso; nia.
Qed.

(** ** New slabs *)

(** page [idx] of metaslab [i] is taken for a slab *)
Definition fresh_page (lg : bool) (i idx : Z) (kind kind' : Z → Kind) : Prop :=
  (∀ k, lg = true → 0 ≤ k < 32 → live kind (i * 32 + k) = false) ∧ live kind (i * 32 + idx) = false ∧
  live kind' (i * 32 + idx) = true ∧ (∀ pg, live kind pg = true → live kind' pg = true) ∧
  (∀ j, j ≠ i → kind' j = kind j) ∧ (kind' i = Large ↔ lg = true) ∧ (lg = false → kind i ≠ Large) ∧ (lg = true → idx = 0).

Lemma AllocSlab_fresh n m kind lg : sm_inv (nr n) m kind → sm_data m = n_p (lay n) + n_data_offset (lay n) →
  AllocSlab m lg = Ok (None, m) ∨
  ∃ i idx m' kind', AllocSlab m lg = Ok (Some (i, idx, page_addr (mkSlab n i idx)), m') ∧ 0 ≤ i < nr n ∧ 0 ≤ idx < 32 ∧
    sm_inv (nr n) m' kind' ∧ sm_data m' = sm_data m ∧ fresh_page lg i idx kind kind'.
Proof.
  intros Hi Hd. destruct lg.
  - destruct (AllocSlab_large_ok _ _ _ Hi) as ([[[i idx] p]|] & m' & HA & Hd' & Hr); [right|left; destruct Hr as [-> _]; done].
    destruct Hr as (Hin & -> & -> & Hfree & kind' & HI & Hl & Hj & Hk). exists i, 0, m', kind'. rewrite HA. split; [rewrite Hd; unfold page_addr; cbn; do 4 f_equal; lia|].
    do 4 (split; [done|]). split; [auto|]. split; [by apply Hfree|].
    split; [rewrite Hl; replace ((i * 32 + 0) / 32) with i by (apply (Z.div_unique _ _ _ 0); lia); rewrite Z.eqb_refl; apply orb_true_r|]. split; [intros pg E; by rewrite Hl, E|]. by repeat split.
  - destruct (AllocSlab_small_ok _ _ _ Hi) as ([[[i idx] p]|] & m' & HA & Hd' & Hr); [right|left; destruct Hr as [-> _]; done].
    destruct Hr as (Hin & Hx & -> & Hfree & kind' & HI & Hl & Hj & Hk & Hk'). exists i, idx, m', kind'. rewrite HA. split; [by rewrite Hd|].
    do 4 (split; [done|]). split; [done|]. split; [done|]. split; [rewrite Hl, Z.eqb_refl; apply orb_true_r|]. split; [intros pg E; by rewrite Hl, E|]. by repeat split.
Qed.

Lemma alloc_page_ok lg nodes : ∀ g h, (∀ n, n ∈ nodes → 0 ≤ n < N) → heap_inv g h →
  (alloc_page N lg nodes h = Ok None ∧ ∀ n, n ∈ nodes → AllocSlab (h_nodes h n) lg = Ok (None, h_nodes h n)) ∨
  ∃ n i idx h' kind', alloc_page N lg nodes h = Ok (Some (mkSlab n i idx, page_addr (mkSlab n i idx), h')) ∧
    h_mem h' = h_mem h ∧ h_slabs h' = h_slabs h ∧ h_pools h' = h_pools h ∧
    0 ≤ n < N ∧ 0 ≤ i < nr n ∧ 0 ≤ idx < 32 ∧ fresh_page lg i idx (g_kind g n) kind' ∧
    ∀ k, 0 ≤ k < N → sm_inv (nr k) (h_nodes h' k) ((<[n := kind']> (g_kind g)) k) ∧ sm_data (h_nodes h' k) = n_p (lay k) + n_data_offset (lay k).
Proof.
  induction nodes as [|n nodes IH]; intros g h Hn Hi; cbn [alloc_page]; [left; split; [done|]; by intros n []%elem_of_nil|].
  pose proof (Hn n ltac:(left)) as Hn0. rewrite (proj2 (Z.leb_le 0 n)), (proj2 (Z.ltb_lt n N)) by lia. cbn [andb negb].
  destruct (hi_node _ _ Hi n Hn0) as [Hsm Hd]. destruct (AllocSlab_fresh n _ _ lg Hsm Hd) as [HA|(i & idx & m' & kind' & HA & Hin & Hx & Hsm' & Hd' & Hf)].
  - rewrite HA. cbn [mbind result_bind]. set (h1 := set_node n (h_nodes h n) h). assert (Hnode : ∀ k, h_nodes h1 k = h_nodes h k) by (intros k; unfold h1; cbn; fn_cases).
    assert (Hi1 : heap_inv g h1) by (destruct Hi as [I1 I2 I3 I4]; split; try done; intros k Hk; rewrite Hnode; by apply I1).
    destruct (IH g h1) as [[E Hall]|Hres]; [intros k Hk; apply Hn; by right|done| |by right].
    left. split; [done|]. intros k [->|Hk]%elem_of_cons; [done|]. rewrite <- Hnode. by apply Hall.
  - rewrite HA. cbn [mbind result_bind]. right. exists n, i, idx. eexists _, kind'. split; [done|]. do 6 (split; [done|]). split; [done|]. intros k Hk. cbn.
    destruct (decide (n = k)) as [<-|Hne]; [rewrite !fn_lookup_insert; split; [done|by rewrite Hd']|rewrite !fn_lookup_insert_ne by done; by apply (hi_node _ _ Hi)].
Qed.

(** the slabs in use stay valid when a page is taken *)
Lemma fresh_slab_ok kind kind' n i idx t pid qid : fresh_page (large pid) i idx (kind n) kind' → 0 ≤ idx < 32 →
  slab_ok kind t qid → slab_ok (<[n := kind']> kind) t qid ∧ t ≠ mkSlab n i idx.
Proof.
  intros (F1 & F2 & F3 & F4 & F5 & F6 & F7 & F8) Hx (Hn & Hti & Htm & Hl & Hk & Hlx). split.
  - unfold slab_ok. destruct (decide (n = s_node t)) as [En|En]; [|by rewrite !fn_lookup_insert_ne].
    rewrite <- En in *. rewrite !fn_lookup_insert. split; [done|]. split; [done|]. split; [done|]. split; [by apply F4|]. split; [|done].
    destruct (decide (s_meta t = i)) as [Em|Em]; [|by rewrite F5]. rewrite Em in *. destruct (large pid) eqn:El; [by rewrite F1 in Hl|].
    rewrite F6. rewrite <- Hk. split; [done|]. intros E. by destruct F7.
  - intros ->. cbn in *. congruence.
Qed.

Definition add_slab (s : Slab) (pid : Z) (kind' : Z → Kind) (g : Ghost) : Ghost :=
  mkGhost (<[s_node s := kind']> (g_kind g)) (<[s := Some pid]> (g_owner g)) (<[s := chunks s pid]> (g_free g)).

Lemma add_slab_lists g s pid kind' qid sp : g_owner g s = None → lists_ok g qid sp → nr_empty sp < 2 ^ 32 - 1 →
  lists_ok (add_slab s pid kind' g) qid (if decide (pid = qid) then insert_empty s (set_nr_empty (u32 (nr_empty sp + 1)) sp) else sp).
Proof.
  intros Ho (L1 & L2 & L3 & L4 & L5) Hb. assert (Hne : s ∉ empty sp) by (rewrite L3; intros [? _]; congruence).
  assert (Hold : ∀ t, s ≠ t → g_owner (add_slab s pid kind' g) t = g_owner g t ∧ g_free (add_slab s pid kind' g) t = g_free g t).
  { intros t Ht. cbn. by rewrite !fn_lookup_insert_ne. }
  assert (Hh : ∀ t, t ∈ half_full sp ↔ g_owner (add_slab s pid kind' g) t = Some qid ∧ 0 < len (g_free (add_slab s pid kind' g) t) < cap qid).
  { intros t. destruct (decide (s = t)) as [<-|Hst]; [|destruct (Hold t Hst) as [-> ->]; apply L4]. cbn. rewrite !fn_lookup_insert, len_chunks, L4.
    split; [intros [? _]; congruence|]. intros [[= ->] ?]. lia. }
  unfold lists_ok. destruct (decide (pid = qid)) as [<-|Hpq]; cbn [insert_empty set_nr_empty empty half_full nr_empty].
  - split; [by apply NoDup_cons|]. split; [done|]. split; [|split; [done|rewrite u32_id by lia; cbn; lia]]. intros t. rewrite elem_of_cons, L3. cbn.
    destruct (decide (s = t)) as [<-|Hst]; [rewrite !fn_lookup_insert, len_chunks; split; [done|by left]|rewrite !fn_lookup_insert_ne by done].
    split; [by intros [?|?]|by right].
  - split; [done|]. split; [done|]. split; [|done]. intros t. destruct (decide (s = t)) as [<-|Hst]; [|destruct (Hold t Hst) as [-> ->]; apply L3].
    cbn. rewrite !fn_lookup_insert. split; [done|]. intros [[= ->] _]. done.
Qed.

Lemma RefillSlab_ok g h pid : heap_inv g h → (∀ qid, nr_empty (h_pools h qid) < 2 ^ 32 - 1) →
  (RefillSlab N conf pid h = Err Aborted ∧ ∀ n, 0 ≤ n < N → AllocSlab (h_nodes h n) (large pid) = Ok (None, h_nodes h n)) ∨
  ∃ s h' kind', RefillSlab N conf pid h = Ok (s, h') ∧ g_owner g s = None ∧ heap_inv (add_slab s pid kind' g) h' ∧
    (∀ a, a ∉ chunks s pid → h_mem h' a = h_mem h a) ∧
    h_pools h' = <[pid := insert_empty s (set_nr_empty (u32 (nr_empty (h_pools h pid) + 1)) (h_pools h pid))]> (h_pools h).
Proof.
  intros Hi Hb. unfold RefillSlab. destruct (he_conf HE pid) as (Hch & _ & Hnn).
  destruct (alloc_page_ok (large pid) (numa_node (conf pid) :: seqZ 0 N) g h) as [[E Hall]|(n & i & idx & h' & kind' & E & E1 & E2 & E3 & Hn & Hin & Hx & Hf & Hsm)].
  - intros n [->|Hn%elem_of_seqZ]%elem_of_cons; lia.
  - done.
  - left. rewrite E. cbn [mbind result_bind]. split; [done|]. intros n Hn. apply Hall. right. apply elem_of_seqZ. lia.
  - right. rewrite E. cbn [mbind result_bind]. set (s := mkSlab n i idx) in *. destruct Hi as [I1 I2 I3 I4].
    assert (Ho : g_owner g s = None).
    { destruct (g_owner g s) as [qid|] eqn:Eo; [|done]. destruct (I2 s qid Eo) as (_ & _ & _ & Hl & _). destruct Hf as (_ & Hf & _). cbn in Hl. congruence. }
    assert (Hs : slab_ok (<[n := kind']> (g_kind g)) s pid).
    { destruct Hf as (F1 & F2 & F3 & F4 & F5 & F6 & F7 & F8). unfold slab_ok, s. cbn. rewrite !fn_lookup_insert. by repeat split; try lia; try apply F6. }
    assert (Hpos : 0 < page_addr s) by (by eapply page_pos). pose proof (cap_bounds pid) as [Hcap _].
    pose proof (fresh_pool_ok (h_mem h') (chunk pid) (cap pid) (page_addr s) ltac:(lia) Hpos ltac:(lia)) as Hp.
    destruct (WeakPool (h_mem h') (chunk pid) (cap pid) (page_addr s)) as [m pl] eqn:Ew. cbv zeta in Hp. change (chunk_addr _ _ <$> _) with (chunks s pid) in Hp.
    destruct Hp as (P1 & P2 & _ & P4). rewrite E1 in P4. exists s. eexists _, kind'. split; [done|]. split; [done|]. split; [|split; [done|by cbn; rewrite E3]].
    assert (Hpl : p_data pl = page_addr s ∧ p_len pl = cap pid * chunk pid ∧ p_capacity pl = cap pid ∧ p_used pl = 0).
    { unfold WeakPool in Ew. injection Ew as _ <-. done. }
    assert (Hf' : ∀ t qid, g_owner g t = Some qid → slab_ok (<[n := kind']> (g_kind g)) t qid ∧ t ≠ s).
    { intros t qid Ht. apply (fresh_slab_ok (g_kind g) kind' n i idx t pid qid); [done|done|by apply I2]. }
    split; cbn [h_nodes h_mem h_slabs h_pools set_pool set_slab g_kind g_owner g_free add_slab s_node s].
    + done.
    + intros t qid. destruct (decide (s = t)) as [<-|Hne]; [rewrite fn_lookup_insert; by intros [= <-]|rewrite fn_lookup_insert_ne by done]. intros Ht. by apply Hf'.
    + intros t qid. destruct (decide (s = t)) as [<-|Hne].
      * rewrite !fn_lookup_insert. intros [= <-]. destruct Hpl as (? & ? & ? & Hu). split_and!; try done. rewrite Hu, len_chunks. lia.
      * rewrite !fn_lookup_insert_ne by done. intros Ht. rewrite E2. destruct (I3 t qid Ht) as (Q1 & Q2 & Q3 & Q4 & Q5 & Q6 & Q7).
        do 4 (split; [done|]). split; [|done]. apply (mem_chain_ext (h_mem h)); [|done]. intros a Ha. apply P4. intros Ha'. apply Hne.
        by apply (chunk_slab (<[n := kind']> (g_kind g)) s t pid qid a); [done|apply Hf'| |apply Q7].
    + intros qid. rewrite E3. pose proof (add_slab_lists g s pid kind' qid (h_pools h qid) Ho (I4 qid) (Hb qid)) as HL.
      destruct (decide (pid = qid)) as [<-|Hpq]; [by rewrite fn_lookup_insert|by rewrite fn_lookup_insert_ne].
Qed.

(** ** Addresses *)

Lemma find_ok n ptr d : 0 ≤ n < N → 0 ≤ d < N → n_p (lay n) < ptr < n_p (lay n) + n_data_len (lay n) → FindSlabMemory N lay ptr d = Ok n.
Proof.
  intros Hn Hd Hp. assert (Hc : ∀ k, 0 ≤ k < N → Contains lay k ptr = true → k = n).
  { intros k Hk Hc. unfold Contains in Hc. zprop. destruct (decide (k = n)) as [|Hne]; [done|]. destruct (he_disjoint HE k n Hk Hn Hne); lia. }
  assert (Hcn : Contains lay n ptr = true) by (unfold Contains; zcase; done || lia).
  unfold FindSlabMemory. rewrite (proj2 (Z.leb_le 0 d)), (proj2 (Z.ltb_lt d N)) by lia. cbn [andb negb].
  destruct (Contains lay d ptr) eqn:E; [by rewrite (Hc d)|].
  destruct (filter _ _) as [|k l] eqn:Ef.
  - exfalso. assert (Hin : n ∈ filter (fun n => Contains lay n ptr = true) (seqZ 0 N)) by (apply list_elem_of_filter; split; [done|apply elem_of_seqZ; lia]).
    rewrite Ef in Hin. by apply elem_of_nil in Hin.
  - assert (Hin : k ∈ filter (fun n => Contains lay n ptr = true) (seqZ 0 N)) by (rewrite Ef; left).
    apply list_elem_of_filter in Hin as [Hk Hin%elem_of_seqZ]. by rewrite (Hc k) by (lia || done).
Qed.

Lemma find_object kind s pid a : slab_ok kind s pid → a ∈ chunks s pid →
  FindSlabMemory N lay a (numa_node (conf pid)) = Ok (s_node s) ∧ GetSlab lay (s_node s) a (large pid) = s.
Proof.
  intros Hs Ha. pose proof (page_in_node _ _ _ Hs) as [Hp1 Hp2]. pose proof (chunk_in_page _ _ _ Ha) as [Hc1 Hc2].
  destruct Hs as (Hn & Hx & Hm & _ & _ & Hl). destruct (he_node HE _ Hn) as (H0 & _ & H1 & _). destruct (he_conf HE pid) as (Hch & _ & Hnn).
  assert (0 < kSizeofMetaSlab) by done. split; [apply find_ok; [done|done|nia]|].
  rewrite page_size_eq in Hc2. unfold page_addr in *. destruct s as [n i idx]. cbn in *. unfold GetSlab.
  set (r := a - (n_p (lay n) + n_data_offset (lay n) + (i * 32 + idx) * kSlabPageSize)) in *.
  replace (a - n_p (lay n) - n_data_offset (lay n)) with ((i * 32 + idx) * kSlabPageSize + r) by (unfold r; lia).
  change kLargeSlabPageSize with (32 * kSlabPageSize). assert (HK : 0 < kSlabPageSize) by done. set (K := kSlabPageSize) in *.
  assert (Hq : 0 ≤ idx * K + r < 32 * K) by (destruct (large pid); [rewrite Hl by done; lia|nia]).
  replace ((i * 32 + idx) * K + r) with ((idx * K + r) + i * (32 * K)) by lia. rewrite Z.div_add, Z.mod_add, Z.div_small, Z.mod_small by lia.
  destruct (large pid); [by rewrite Hl|]. rewrite Z.div_add_l, Z.div_small by lia. f_equal; lia.
Qed.

Lemma find_slab kind s pid : slab_ok kind s pid →
  FindSlabMemory N lay (slab_addr lay s) (numa_node (conf pid)) = Ok (s_node s) ∧
  GetMetaSlab lay (s_node s) (slab_addr lay s) = s_meta s ∧ slab_index lay (s_node s) (slab_addr lay s) = s_idx s.
Proof.
  intros (Hn & Hx & Hm & _). destruct (he_node HE _ Hn) as (H0 & _ & H1 & H2). destruct (he_conf HE pid) as (_ & _ & Hnn).
  assert (HL : 0 < kLargeSlabPageSize) by done. destruct s as [n i idx]. cbn in *.
  unfold slab_addr, slab_index, GetMetaSlab, kSizeofMetaSlab, kSlabsOffset, kSizeofSlab in *. cbn [s_node s_meta s_idx].
  assert (Hq : (n_p (lay n) + i * (16 + 8 + 8 + 32 * (16 + 64)) + (16 + 8 + 8) + idx * (16 + 64) - n_p (lay n)) / (16 + 8 + 8 + 32 * (16 + 64)) = i).
  { symmetry. apply (Z.div_unique _ _ _ ((16 + 8 + 8) + idx * (16 + 64))); lia. }
  split; [apply find_ok; [done|done|nia]|]. split; [done|]. rewrite Hq. symmetry. apply (Z.div_unique _ _ _ 0); lia.
Qed.

(** ** Slabs given back *)

Definition drop_slab (s : Slab) (kind' : Z → Kind) (g : Ghost) : Ghost := mkGhost (<[s_node s := kind']> (g_kind g)) (<[s := None]> (g_owner g)) (g_free g).

Lemma filter_ne_id (s : Slab) (l : list Slab) : s ∉ l → filter (fun t => t ≠ s) l = l.
Proof.
  induction l as [|t l IH]; [done|]. intros [Hne Hl]%not_elem_of_cons. rewrite filter_cons_True by congruence. by rewrite IH.
Qed.
Lemma filter_remove_length (s : Slab) (l : list Slab) : NoDup l → s ∈ l → len (filter (fun t => t ≠ s) l) = len l - 1.
Proof.
  induction l as [|t l IH]; intros Hnd Hin; [by apply elem_of_nil in Hin|]. apply NoDup_cons in Hnd as [Ht Hnd].
  destruct (decide (t = s)) as [->|Hne].
  - rewrite filter_cons_False by (by intros []). rewrite filter_ne_id by done. cbn [length]. lia.
  - rewrite filter_cons_True by done. cbn [length]. apply elem_of_cons in Hin as [->|Hin]; [done|]. specialize (IH Hnd Hin). lia.
Qed.

Lemma drop_slab_ok g s pid kind' : g_owner g s = Some pid → (∀ t qid, g_owner g t = Some qid → slab_ok (g_kind g) t qid) →
  (∀ pg, live kind' pg = live (g_kind g (s_node s)) pg && negb (match g_kind g (s_node s) (s_meta s) with Large => pg / 32 =? s_meta s | _ => pg =? s_meta s * 32 + s_idx s end)) →
  (∀ j, j ≠ s_meta s → kind' j = g_kind g (s_node s) j) → kind' (s_meta s) ≠ Large →
  ∀ t qid, t ≠ s → g_owner g t = Some qid → slab_ok (<[s_node s := kind']> (g_kind g)) t qid.
Proof.
  intros Ho Hok Hl Hj Hk t qid Hne Ht. pose proof (Hok s pid Ho) as (_ & Hsx & Hsm & Hsl & Hsk & Hsi). pose proof (Hok t qid Ht) as (Hn & Hx & Hm & Htl & Htk & Hti).
  unfold slab_ok. destruct (decide (s_node s = s_node t)) as [En|En]; [|rewrite !fn_lookup_insert_ne by done; exact (Hok t qid Ht)].
  rewrite En in *. rewrite !fn_lookup_insert. do 3 (split; [done|]).
  assert (Hdiv : (s_meta t * 32 + s_idx t) / 32 = s_meta t) by (symmetry; apply (Z.div_unique _ _ _ (s_idx t)); lia).
  rewrite Hl, Htl, Hdiv. destruct (decide (s_meta t = s_meta s)) as [Em|Em].
  - rewrite Em in *. assert (s_idx t ≠ s_idx s) by (intros Ei; apply Hne; destruct s, t; cbn in *; congruence).
    assert (Hnl : g_kind g (s_node t) (s_meta s) ≠ Large) by (intros E; rewrite E in *; rewrite Hsi, Hti in *; naive_solver).
    assert (Hpg : (s_meta s * 32 + s_idx t =? s_meta s * 32 + s_idx s) = false) by (apply Z.eqb_neq; lia).
    replace (negb _) with true by (destruct (g_kind g (s_node t) (s_meta s)); [by rewrite Hpg|done|by rewrite Hpg]).
    split; [done|]. split; [|done]. rewrite <- Htk. by split.
  - rewrite Hj by done. assert (Hpg : (s_meta t * 32 + s_idx t =? s_meta s * 32 + s_idx s) = false) by (apply Z.eqb_neq; lia).
    rewrite (proj2 (Z.eqb_neq _ _) Em), Hpg. split; [by destruct (g_kind g _ (s_meta s))|by split].
Qed.

Lemma ReturnSlab_ok g h pid : heap_inv g h → empty (h_pools h pid) ≠ [] → nr_empty (h_pools h pid) < 2 ^ 32 →
  ∃ s h' kind', ReturnSlab N lay conf pid h = Ok h' ∧ g_owner g s = Some pid ∧ len (g_free g s) = cap pid ∧
    heap_inv (drop_slab s kind' g) h' ∧ h_mem h' = h_mem h ∧ nr_empty (h_pools h' pid) = nr_empty (h_pools h pid) - 1 ∧
    (∀ qid, qid ≠ pid → h_pools h' qid = h_pools h qid).
Proof.
  intros Hi Hne Hb. pose proof Hi as [I1 I2 I3 I4]. destruct (I4 pid) as (L1 & L2 & L3 & L4 & L5). unfold ReturnSlab.
  destruct (last (empty (h_pools h pid))) as [s|] eqn:El; [|by apply last_None in El].
  assert (Hin : s ∈ empty (h_pools h pid)) by (apply last_Some_elem_of; done). pose proof (proj1 (L3 s) Hin) as [Ho Hf].
  pose proof (I2 s pid Ho) as Hs. destruct (find_slab _ _ _ Hs) as (-> & Hgm & Hgi). cbn [mbind result_bind]. unfold free_slab_at. rewrite Hgm, Hgi.
  pose proof Hs as (Hn & Hx & Hm & Hl & _). destruct (I1 _ Hn) as [Hsm Hd].
  destruct (FreeSlab_ok _ _ _ _ _ Hsm Hx Hl) as (kind' & HI & Hd' & Hl' & Hj & Hk). exists s. eexists _, kind'. split; [done|]. split; [done|]. split; [done|].
  pose proof (filter_remove_length s _ L1 Hin) as Hlen. assert (1 ≤ len (empty (h_pools h pid))) by (destruct (empty (h_pools h pid)); [done|cbn [length]; lia]).
  split; [|split; [done|split]].
  - split; cbn.
    + intros k Hk'. destruct (decide (s_node s = k)) as [<-|Hnk]; [rewrite !fn_lookup_insert; split; [done|by rewrite Hd']|rewrite !fn_lookup_insert_ne by done; by apply I1].
    + intros t qid. destruct (decide (s = t)) as [<-|Hst]; [by rewrite fn_lookup_insert|rewrite fn_lookup_insert_ne by done]. intros Ht.
      by apply (drop_slab_ok g s pid kind' Ho I2 Hl' Hj Hk).
    + intros t qid. destruct (decide (s = t)) as [<-|Hst]; [by rewrite fn_lookup_insert|rewrite fn_lookup_insert_ne by done]. apply I3.
    + intros qid. destruct (decide (pid = qid)) as [<-|Hpq].
      * rewrite fn_lookup_insert. unfold lists_ok. cbn. split; [by apply NoDup_filter|]. split; [by apply NoDup_filter|]. split; [|split].
        -- intros t. rewrite list_elem_of_filter, L3. destruct (decide (s = t)) as [<-|Hst]; [rewrite fn_lookup_insert; naive_solver|rewrite fn_lookup_insert_ne by done; naive_solver].
        -- intros t. rewrite list_elem_of_filter, L4. destruct (decide (s = t)) as [<-|Hst]; [rewrite fn_lookup_insert; naive_solver|rewrite fn_lookup_insert_ne by done; naive_solver].
        -- rewrite L5 in *. rewrite u32_id by lia. lia.
      * rewrite !fn_lookup_insert_ne by done. destruct (I4 qid) as (M1 & M2 & M3 & M4 & M5). do 2 (split; [done|]). cbn.
        split; [|split; [|done]]; intros t; [rewrite M3|rewrite M4]; (destruct (decide (s = t)) as [<-|Hst]; [rewrite fn_lookup_insert; naive_solver|by rewrite fn_lookup_insert_ne]).
  - cbn. rewrite fn_lookup_insert. cbn. rewrite L5 in *. apply u32_id. lia.
  - intros qid Hq. cbn. by rewrite !fn_lookup_insert_ne by done.
Qed.

End SlabFacts.
