(* ===== verification/SlabProps.v ===== *)
(** What the slab pools promise: objects of all pools are disjoint, an object handed out
    was not in use, and slabs are given back when a pool has more empty ones than it
    keeps. *)

From S2P Require Import Prelude Bits Mem MemProps SlabMem SlabPool SlabFacts.

Section SlabProps.
Context (N : Z) (lay : Z → Layout) (conf : Z → SlabConf) (nr : Z → Z) (HE : heap_env N lay conf nr).

Abbreviation chunk pid := (chunk_size (conf pid)).
Abbreviation cap := (slab_capacity conf).
Abbreviation hinv := (heap_inv N lay conf nr).
Abbreviation alloc' := (allocated lay conf).
Abbreviation lists := (lists_ok conf).

(** no pool keeps more empty slabs than it may *)
Definition buffered (h : SlabHeap) : Prop := ∀ pid, nr_empty (h_pools h pid) ≤ nr_buffer (conf pid).

(** ** Lists *)

Lemma lists_relist g s pid l sp sp' : lists g pid sp → g_owner g s = Some pid → NoDup (empty sp') → NoDup (half_full sp') →
  (∀ t, t ≠ s → t ∈ empty sp' ↔ t ∈ empty sp) → (∀ t, t ≠ s → t ∈ half_full sp' ↔ t ∈ half_full sp) →
  (s ∈ empty sp' ↔ len l = cap pid) → (s ∈ half_full sp' ↔ 0 < len l < cap pid) → nr_empty sp' = len (empty sp') → lists (set_free s l g) pid sp'.
Proof.
  intros (L1 & L2 & L3 & L4 & L5) Ho N1 N2 E1 E2 S1 S2 Hn. split; [done|]. split; [done|]. cbn. split; [|split; [|done]]; intros t;
    (destruct (decide (t = s)) as [->|Hne]; [rewrite fn_lookup_insert|rewrite fn_lookup_insert_ne by done]).
  - rewrite S1. naive_solver.
  - by rewrite E1, L3.
  - rewrite S2. naive_solver.
  - by rewrite E2, L4.
Qed.

Lemma take_half_lists g s pid o l sp : lists g pid sp → g_owner g s = Some pid → g_free g s = o :: l → s ∈ half_full sp →
  lists (set_free s l g) pid (if bool_decide (l = []) then Slab_Remove s sp else sp).
Proof.
  intros HL Ho Hf Hs. pose proof HL as (L1 & L2 & L3 & L4 & L5). pose proof (proj1 (L4 s) Hs) as [_ Hlen]. rewrite Hf in Hlen. cbn [length] in Hlen.
  assert (Hne : s ∉ empty sp) by (rewrite L3, Hf; intros [_ ?]; cbn [length] in *; lia).
  case_bool_decide as El.
  - subst l. cbn in Hlen. eapply lists_relist; [done|done|..]; unfold Slab_Remove; cbn [empty half_full nr_empty]; rewrite ?filter_ne_id by done; try done.
    + by apply NoDup_filter.
    + intros t Ht. rewrite list_elem_of_filter. naive_solver.
    + split; [done|cbn; lia].
    + rewrite list_elem_of_filter. split; [naive_solver|cbn; lia].
  - eapply lists_relist; [done|done|done|done|done|done|..|done].
    + split; [done|lia].
    + split; [|done]. intros _. destruct l; [done|cbn [length] in *; lia].
Qed.

Lemma take_empty_lists g s pid o l sp : lists g pid sp → g_owner g s = Some pid → g_free g s = o :: l → s ∈ empty sp → nr_empty sp < 2 ^ 32 →
  lists (set_free s l g) pid (set_nr_empty (u32 (nr_empty sp - 1)) (insert_half_full s (Slab_Remove s sp))).
Proof.
  intros HL Ho Hf Hs Hb. pose proof HL as (L1 & L2 & L3 & L4 & L5). pose proof (proj1 (L3 s) Hs) as [_ Hlen]. rewrite Hf in Hlen. cbn [length] in Hlen.
  assert (Hne : s ∉ half_full sp) by (rewrite L4, Hf; intros [_ ?]; cbn [length] in *; lia). pose proof (cap_bounds N lay conf nr HE pid) as [Hc _].
  assert (1 ≤ len (empty sp)) by (destruct (empty sp); [by apply elem_of_nil in Hs|cbn [length]; lia]).
  eapply lists_relist; [done|done|..]; unfold Slab_Remove; cbn [empty half_full nr_empty set_nr_empty insert_half_full]; rewrite ?(filter_ne_id s (half_full sp)) by done.
  - by apply NoDup_filter.
  - by apply NoDup_cons.
  - intros t Ht. rewrite list_elem_of_filter. naive_solver.
  - intros t Ht. rewrite elem_of_cons. naive_solver.
  - rewrite list_elem_of_filter. split; [naive_solver|lia].
  - rewrite elem_of_cons. split; [lia|by left].
  - rewrite filter_remove_length, u32_id by (done || lia). lia.
Qed.

Lemma free_lists_ok g s pid a pl sp : lists g pid sp → g_owner g s = Some pid → len (g_free g s) < cap pid → nr_empty sp < 2 ^ 32 - 1 →
  is_empty pl = bool_decide (len (a :: g_free g s) = cap pid) → lists (set_free s (a :: g_free g s) g) pid (free_relist s pl sp).
Proof.
  intros HL Ho Hlt Hb Hp. pose proof HL as (L1 & L2 & L3 & L4 & L5). set (l := g_free g s) in *. pose proof (cap_bounds N lay conf nr HE pid) as [Hc _].
  assert (Hne : s ∉ empty sp) by (rewrite L3; fold l; intros [_ ?]; lia). unfold free_relist, is_detached. rewrite Hp, (bool_decide_false (s ∈ empty sp)) by done. clear Hp. cbn [negb andb].
  set (sp1 := if negb (bool_decide (s ∈ half_full sp)) then insert_half_full s sp else sp).
  assert (H1 : empty sp1 = empty sp ∧ nr_empty sp1 = nr_empty sp ∧ NoDup (half_full sp1) ∧ s ∈ half_full sp1 ∧ ∀ t, t ≠ s → t ∈ half_full sp1 ↔ t ∈ half_full sp).
  { unfold sp1. case_bool_decide as Es; cbn; [done|]. do 2 (split; [done|]). split; [by apply NoDup_cons|]. split; [left|].
    intros t Ht. rewrite elem_of_cons. naive_solver. }
  destruct H1 as (E1 & E2 & E3 & E4 & E5). case_bool_decide as El; cbn [length] in El.
  - eapply lists_relist; [done|done|..]; unfold Slab_Remove; cbn [empty half_full nr_empty set_nr_empty insert_empty]; rewrite ?E1, ?E2, ?(filter_ne_id s (empty sp)) by done.
    + by apply NoDup_cons.
    + by apply NoDup_filter.
    + intros t Ht. rewrite elem_of_cons. naive_solver.
    + intros t Ht. rewrite list_elem_of_filter, E5 by done. naive_solver.
    + rewrite elem_of_cons. split; [cbn [length]; lia|by left].
    + rewrite list_elem_of_filter. split; [naive_solver|cbn [length]; lia].
    + rewrite u32_id by lia. cbn [length]. lia.
  - eapply lists_relist; [done|done|..]; rewrite ?E1, ?E2; try done.
    + split; [|done]. intros _. cbn [length]. lia.
Qed.

(** ** The objects in use *)

Lemma allocated_take g h s pid o l : hinv g h → g_owner g s = Some pid → g_free g s = o :: l →
  (∀ qid, ¬ alloc' g qid o) ∧ ∀ qid a, alloc' (set_free s l g) qid a ↔ alloc' g qid a ∨ (qid = pid ∧ a = o).
Proof.
  intros [I1 I2 I3 I4] Ho Hf. destruct (I3 s pid Ho) as (_ & _ & _ & _ & _ & Hnd & Hin). rewrite Hf in Hnd, Hin. apply NoDup_cons in Hnd as [Hol Hnd].
  assert (Hoc : o ∈ chunks lay conf s pid) by (apply Hin; left). split.
  - intros qid (t & Ht & Hc & Hn). assert (s = t) as <- by (by eapply (chunk_slab N lay conf nr HE); [apply I2|apply I2| |]). apply Hn. rewrite Hf. left.
  - intros qid a. split.
    + intros (t & Ht & Hc & Hn). cbn in *. destruct (decide (s = t)) as [<-|Hst]; [rewrite fn_lookup_insert in Hn|rewrite fn_lookup_insert_ne in Hn by done; left; by exists t].
      rewrite Ho in Ht. injection Ht as <-. destruct (decide (a = o)) as [->|Hne]; [by right|]. left. exists s. split; [done|]. split; [done|]. rewrite Hf. by intros [->|?]%elem_of_cons.
    + intros [(t & Ht & Hc & Hn)|[-> ->]].
      * exists t. split; [done|]. split; [done|]. cbn. destruct (decide (s = t)) as [<-|Hst]; [rewrite fn_lookup_insert|by rewrite fn_lookup_insert_ne].
        intros Ha. apply Hn. rewrite Hf. by right.
      * exists s. split; [done|]. split; [done|]. cbn. by rewrite fn_lookup_insert.
Qed.

Lemma allocated_add g s pid kind' : g_owner g s = None → ∀ qid a, alloc' (add_slab lay conf s pid kind' g) qid a ↔ alloc' g qid a.
Proof.
  intros Ho qid a. split; intros (t & Ht & Hc & Hn); cbn in *.
  - destruct (decide (s = t)) as [<-|Hst]; [rewrite !fn_lookup_insert in *; injection Ht as <-; done|]. rewrite !fn_lookup_insert_ne in * by done. by exists t.
  - assert (s ≠ t) by (intros <-; congruence). exists t. cbn. by rewrite !fn_lookup_insert_ne.
Qed.

Lemma allocated_give g h s pid a : hinv g h → g_owner g s = Some pid → a ∈ chunks lay conf s pid → a ∉ g_free g s →
  ∀ qid b, alloc' (set_free s (a :: g_free g s) g) qid b ↔ alloc' g qid b ∧ b ≠ a.
Proof.
  intros [I1 I2 I3 I4] Ho Ha Hn qid b. split.
  - intros (t & Ht & Hc & Hb). cbn in *. destruct (decide (s = t)) as [<-|Hst].
    + rewrite fn_lookup_insert in Hb. apply not_elem_of_cons in Hb as [Hba Hb]. split; [by exists s|done].
    + rewrite fn_lookup_insert_ne in Hb by done. split; [by exists t|]. intros ->. apply Hst.
      by eapply (chunk_slab N lay conf nr HE); [apply I2|apply I2| |].
  - intros [(t & Ht & Hc & Hb) Hne]. exists t. split; [done|]. split; [done|]. cbn.
    destruct (decide (s = t)) as [<-|Hst]; [rewrite fn_lookup_insert|by rewrite fn_lookup_insert_ne]. by apply not_elem_of_cons.
Qed.

Lemma allocated_drop g h s pid kind' : hinv g h → g_owner g s = Some pid → len (g_free g s) = cap pid →
  ∀ qid b, alloc' (drop_slab s kind' g) qid b ↔ alloc' g qid b.
Proof.
  intros [I1 I2 I3 I4] Ho Hf qid b. split; intros (t & Ht & Hc & Hb); cbn in *.
  - destruct (decide (s = t)) as [<-|Hst]; [by rewrite fn_lookup_insert in Ht|rewrite fn_lookup_insert_ne in Ht by done; by exists t].
  - destruct (decide (s = t)) as [<-|Hst]; [|exists t; cbn; by rewrite fn_lookup_insert_ne]. exfalso. rewrite Ho in Ht. injection Ht as <-.
    apply Hb. apply (free_all N lay conf nr HE (h_mem h) (h_slabs h s) s pid); [by apply I3|done|done].
Qed.

Lemma allocated_pool g h pid qid a : hinv g h → alloc' g pid a → alloc' g qid a → pid = qid.
Proof.
  intros [I1 I2 I3 I4] (s & Hs & Hc & _) (t & Ht & Hc' & _).
  assert (s = t) as <- by (by eapply (chunk_slab N lay conf nr HE); [apply I2|apply I2| |]). congruence.
Qed.

(** objects in use do not overlap *)
Lemma allocated_apart g h pid qid a b : hinv g h → alloc' g pid a → alloc' g qid b → a ≠ b → a + chunk pid ≤ b ∨ b + chunk qid ≤ a.
Proof.
  intros [I1 I2 I3 I4] (s & Hs & Ha & _) (t & Ht & Hb & _) Hne.
  apply (objects_apart N lay conf nr HE (g_kind g) s t); [by apply I2|by apply I2|done|done|intros ->; congruence|done].
Qed.

(** an object in use lies in the memory of a node *)
Lemma allocated_addr g h pid a : hinv g h → alloc' g pid a → ∃ n, 0 ≤ n < N ∧ n_p (lay n) ≤ a ∧ 0 < a ∧ a + chunk pid ≤ n_p (lay n) + n_data_len (lay n).
Proof.
  intros [I1 I2 I3 I4] (s & Hs & Ha & _). pose proof (I2 s pid Hs) as Hok. pose proof (chunk_in_page N lay conf nr HE _ _ _ Ha).
  pose proof (page_in_node N lay conf nr HE _ _ _ Hok). pose proof (page_pos N lay conf nr HE _ _ _ Hok). destruct Hok as (Hn & _ & Hm & _).
  destruct (he_node _ _ _ _ HE _ Hn) as (? & ? & ? & _). exists (s_node s). assert (0 < kSizeofMetaSlab) by done. split; [done|]. nia.
Qed.

(** ** Operations *)

Lemma buffered_range h pid : buffered h → nr_empty (h_pools h pid) < 2 ^ 32 - 1.
Proof. intros Hb. specialize (Hb pid). destruct (he_conf _ _ _ _ HE pid) as (_ & ? & _). lia. Qed.

Lemma slab_object_ok g h s pid o l : hinv g h → g_owner g s = Some pid → g_free g s = o :: l →
  o ≠ 0 ∧ ∃ pl, slab_object s h = Ok (o, set_slab s (h_mem h) pl h) ∧ is_full pl = bool_decide (l = []) ∧
  ∀ sp, lists (set_free s l g) pid sp → hinv (set_free s l g) (set_pool pid sp (set_slab s (h_mem h) pl h)).
Proof.
  intros Hi Ho Hf. pose proof (hi_pool _ _ _ _ _ _ Hi s pid Ho) as Hp. rewrite Hf in Hp.
  assert (Hpos : 0 < page_addr lay s) by (eapply (page_pos N lay conf nr HE); by apply (hi_own _ _ _ _ _ _ Hi)).
  split; [by destruct Hp as (_ & _ & _ & _ & (_ & ? & _) & _)|]. destruct (pool_take N lay conf nr HE _ _ _ _ _ _ Hp Hpos) as (pl & HA & Hp' & Hfl).
  exists pl. unfold slab_object. rewrite HA. split; [done|]. split; [done|]. intros sp Hl. by apply relist_inv.
Qed.

Lemma SlabPool_Alloc_ok g h pid : hinv g h → buffered h →
  (SlabPool_Alloc N conf pid h = Err Aborted ∧ half_full (h_pools h pid) = [] ∧ empty (h_pools h pid) = [] ∧
   ∀ n, 0 ≤ n < N → AllocSlab (h_nodes h n) (is_large_slab conf pid) = Ok (None, h_nodes h n)) ∨
  ∃ o h' g', SlabPool_Alloc N conf pid h = Ok (o, h') ∧ hinv g' h' ∧ buffered h' ∧ o ≠ 0 ∧ (∀ qid, ¬ alloc' g qid o) ∧
    (∀ qid a, alloc' g' qid a ↔ alloc' g qid a ∨ (qid = pid ∧ a = o)) ∧
    (∀ qid a x, alloc' g qid a → a ≤ x < a + chunk qid → h_mem h' x = h_mem h x).
Proof.
  intros Hi Hb. unfold SlabPool_Alloc. destruct (he_conf _ _ _ _ HE pid) as (Hch & Hnb & _). rewrite (proj2 (Z.eqb_neq _ 0)) by lia.
  set (sp1 := add_used (chunk pid) (h_pools h pid)). set (h1 := set_pool pid sp1 h).
  assert (Hi1 : hinv g h1) by (apply pool_inv; [done|apply add_used_lists, (hi_lists _ _ _ _ _ _ Hi)]).
  assert (Hq : h_pools h1 pid = sp1) by apply fn_lookup_insert. assert (Hbq : ∀ qid, nr_empty (h_pools h1 qid) = nr_empty (h_pools h qid)).
  { intros qid. unfold h1, sp1. cbn. destruct (decide (pid = qid)) as [<-|?]; [by rewrite fn_lookup_insert|by rewrite fn_lookup_insert_ne]. }
  assert (Hb1 : buffered h1) by (intros qid; rewrite Hbq; apply Hb).
  pose proof (hi_lists _ _ _ _ _ _ Hi1 pid) as HL. rewrite Hq in *. pose proof HL as (L1 & L2 & L3 & L4 & L5). pose proof (cap_bounds N lay conf nr HE pid) as [Hcap _].
  destruct (half_full sp1) as [|s rest] eqn:Eh.
  - assert (Hfin : ∀ g2 h2 s, hinv g2 h2 → s ∈ empty (h_pools h2 pid) → nr_empty (h_pools h2 pid) ≤ nr_buffer (conf pid) + 1 →
      (∀ qid, qid ≠ pid → nr_empty (h_pools h2 qid) ≤ nr_buffer (conf qid)) → (∀ qid a, alloc' g2 qid a ↔ alloc' g qid a) →
      (∀ qid a x, alloc' g qid a → a ≤ x < a + chunk qid → h_mem h2 x = h_mem h x) →
      ∃ o h' g', ('(o, h') ← slab_object s h2;
          let sp := insert_half_full s (Slab_Remove s (h_pools h' pid)) in
          Ok (o, set_pool pid (set_nr_empty (u32 (nr_empty sp - 1)) sp) h')) = Ok (o, h') ∧ hinv g' h' ∧ buffered h' ∧ o ≠ 0 ∧ (∀ qid, ¬ alloc' g qid o) ∧
        (∀ qid a, alloc' g' qid a ↔ alloc' g qid a ∨ (qid = pid ∧ a = o)) ∧ (∀ qid a x, alloc' g qid a → a ≤ x < a + chunk qid → h_mem h' x = h_mem h x)).
    { intros g2 h2 s Hi2 Hs Hb2 Hb2' Ha Hm. pose proof (hi_lists _ _ _ _ _ _ Hi2 pid) as HL2. pose proof HL2 as (_ & _ & M3 & _ & M5).
      pose proof (proj1 (M3 s) Hs) as [Ho Hlen]. destruct (g_free g2 s) as [|o l] eqn:Ef; [cbn in Hlen; lia|].
      destruct (slab_object_ok g2 h2 s pid o l Hi2 Ho Ef) as (Ho0 & pl & -> & _ & Hset). cbn [mbind result_bind].
      destruct (allocated_take g2 h2 s pid o l Hi2 Ho Ef) as [Hno Hall]. eexists o, _, _. split; [done|]. split; [apply Hset, (take_empty_lists g2 s pid o l (h_pools h2 pid)); try done; lia|].
      assert (1 ≤ len (empty (h_pools h2 pid))) by (destruct (empty (h_pools h2 pid)); [by apply elem_of_nil in Hs|cbn [length]; lia]).
      split. { intros qid. cbn. destruct (decide (pid = qid)) as [<-|?]; [rewrite fn_lookup_insert; cbn; rewrite u32_id by lia; lia|rewrite fn_lookup_insert_ne by done; by apply Hb2']. }
      split; [done|]. split; [intros qid; rewrite <- Ha; apply Hno|]. split; [intros qid a; by rewrite Hall, Ha|]. done. }
    destruct (empty sp1) as [|s es] eqn:Ee.
    + destruct (RefillSlab_ok N lay conf nr HE g h1 pid Hi1) as [[HR Hall]|(s & h2 & kind' & HR & Hos & Hi2 & Hm & Hp2)]; [intros qid; by apply buffered_range| |].
      { left. rewrite HR. split; [done|]. by split. }
      right. rewrite HR. cbn [mbind result_bind]. rewrite Hq in Hp2. apply (Hfin (add_slab lay conf s pid kind' g) h2 s); [done|..].
      * rewrite Hp2, fn_lookup_insert. left.
      * rewrite Hp2, fn_lookup_insert. assert (Hz : nr_empty sp1 = 0) by (by rewrite L5, ?Ee). unfold insert_empty, set_nr_empty. cbn [nr_empty]. rewrite Hz, u32_id; lia.
      * intros qid Hqq. rewrite Hp2, fn_lookup_insert_ne by done. apply Hb1.
      * by apply allocated_add.
      * intros qid a x (t & Ht & Hc & _) Hx. rewrite Hm; [done|]. intros Hx'. assert (Hst : s ≠ t) by (intros <-; congruence).
        assert (Hot : g_owner (add_slab lay conf s pid kind' g) t = Some qid) by (cbn; by rewrite fn_lookup_insert_ne).
        assert (Hos' : g_owner (add_slab lay conf s pid kind' g) s = Some pid) by (cbn; by rewrite fn_lookup_insert).
        pose proof (chunk_in_page N lay conf nr HE _ _ _ Hc). pose proof (chunk_in_page N lay conf nr HE _ _ _ Hx').
        destruct (pages_apart N lay conf nr HE _ s t pid qid (hi_own _ _ _ _ _ _ Hi2 _ _ Hos') (hi_own _ _ _ _ _ _ Hi2 _ _ Hot) Hst); lia.
    + right. cbn [mbind result_bind]. apply (Hfin g h1 s); [done|rewrite Hq, Ee; left|rewrite Hq; pose proof (Hb1 pid); rewrite Hq in *; lia|intros; apply Hb1|done|done].
  - right. destruct (proj1 (L4 s)) as [Ho Hlen]; [left|]. destruct (g_free g s) as [|o l] eqn:Ef; [cbn in Hlen; lia|].
    destruct (slab_object_ok g h1 s pid o l Hi1 Ho Ef) as (Ho0 & pl & -> & Hfl & Hset). cbn [mbind result_bind].
    destruct (allocated_take g h1 s pid o l Hi1 Ho Ef) as [Hno Hall]. eexists o, _, _. split; [done|]. cbn [h_slabs h_pools set_slab]. rewrite fn_lookup_insert, Hfl, Hq.
    split; [apply Hset; eapply take_half_lists; [done|done|done|rewrite Eh; left]|].
    split. { intros qid. cbn. destruct (decide (pid = qid)) as [<-|?]; [rewrite fn_lookup_insert|rewrite fn_lookup_insert_ne by done; apply Hb1].
             specialize (Hb1 pid). rewrite Hq in Hb1. by case_bool_decide. }
    split; [done|]. split; [done|]. by split.
Qed.

Lemma SlabPool_Free_ok g h pid a : hinv g h → buffered h → alloc' g pid a →
  ∃ h' g', SlabPool_Free N lay conf pid a h = Ok h' ∧ hinv g' h' ∧ buffered h' ∧
    (∀ qid b, alloc' g' qid b ↔ alloc' g qid b ∧ b ≠ a) ∧ (∀ x, x ≠ a → h_mem h' x = h_mem h x).
Proof.
  intros Hi Hb (s & Ho & Ha & Hn). unfold SlabPool_Free. destruct (he_conf _ _ _ _ HE pid) as (Hch & Hnb & _).
  set (sp1 := add_used (- chunk pid) (h_pools h pid)). set (h1 := set_pool pid sp1 h).
  assert (Hi1 : hinv g h1) by (apply pool_inv; [done|apply add_used_lists, (hi_lists _ _ _ _ _ _ Hi)]). assert (Hq : h_pools h1 pid = sp1) by apply fn_lookup_insert.
  pose proof (hi_own _ _ _ _ _ _ Hi1 s pid Ho) as Hs. destruct (find_object N lay conf nr HE _ _ _ a Hs Ha) as [HF HG]. rewrite HF. cbn [mbind result_bind]. rewrite HG.
  pose proof (hi_pool _ _ _ _ _ _ Hi1 s pid Ho) as Hp. pose proof (page_pos N lay conf nr HE _ _ _ Hs) as Hpos.
  destruct (pool_give N lay conf nr HE _ _ _ _ a _ Hp Hpos Ha Hn) as (pl & -> & Hp' & He). cbn [mbind result_bind].
  assert (Hlt : len (g_free g s) < cap pid).
  { pose proof (free_len N lay conf nr HE _ _ _ _ _ Hp). destruct (Z.eq_dec (len (g_free g s)) (cap pid)) as [E|]; [|lia].
    exfalso. apply Hn. by eapply (free_all N lay conf nr HE). }
  pose proof (hi_lists _ _ _ _ _ _ Hi1 pid) as HL. rewrite Hq in HL. assert (Hr : nr_empty sp1 < 2 ^ 32 - 1) by (by apply (buffered_range h pid)).
  pose proof (free_lists_ok g s pid a pl sp1 HL Ho Hlt Hr He) as HL'. set (m := <[a := _]> (h_mem h1)) in *.
  set (g2 := set_free s (a :: g_free g s) g) in *. cbn [h_pools set_slab]. rewrite Hq. set (sp2 := free_relist s pl sp1) in *.
  set (h2 := set_pool pid sp2 (set_slab s m pl h1)). assert (Hi2 : hinv g2 h2).
  { apply (relist_inv N lay conf nr HE); try done. intros x Hx. unfold m. apply fn_lookup_insert_ne. by intros ->. }
  assert (Hq2 : h_pools h2 pid = sp2) by apply fn_lookup_insert. rewrite Hq2.
  assert (Hm : ∀ x, x ≠ a → h_mem h2 x = h_mem h x) by (intros x Hx; cbn; unfold m; by rewrite fn_lookup_insert_ne).
  pose proof (allocated_give g h s pid a Hi Ho Ha Hn) as Hall. fold g2 in Hall.
  assert (Hn2 : nr_empty sp2 ≤ nr_buffer (conf pid) + 1).
  { pose proof (Hb pid) as Hbp. unfold sp2, free_relist. change (nr_empty (h_pools h pid)) with (nr_empty sp1) in Hbp.
    destruct HL as (_ & _ & _ & _ & HL). destruct (is_detached s sp1), (is_empty pl); cbn [insert_half_full Slab_Remove insert_empty set_nr_empty nr_empty]; rewrite ?u32_id; lia. }
  assert (Hoth : ∀ qid, qid ≠ pid → h_pools h2 qid = h_pools h qid) by (intros qid Hqq; cbn; by rewrite !fn_lookup_insert_ne).
  destruct (Z.ltb_spec (nr_buffer (conf pid)) (nr_empty sp2)) as [Hgt|Hle].
  - destruct HL' as (_ & _ & _ & _ & HL'). destruct (ReturnSlab_ok N lay conf nr HE g2 h2 pid Hi2) as (t & h3 & kind' & HR & Hot & Hft & Hi3 & Hm3 & Hn3 & Ho3).
    + rewrite Hq2. intros E. rewrite HL', E in Hgt. cbn in Hgt. lia.
    + rewrite Hq2. lia.
    + exists h3, (drop_slab t kind' g2). split; [done|]. split; [done|]. split; [|split].
      * intros qid. destruct (decide (qid = pid)) as [->|Hqq]; [rewrite Hn3, Hq2; lia|rewrite Ho3, Hoth by done; apply Hb].
      * intros qid b. by rewrite (allocated_drop g2 h2 t pid) by done.
      * intros x Hx. rewrite Hm3. by apply Hm.
  - exists h2, g2. split; [done|]. split; [done|]. split; [|done].
    intros qid. destruct (decide (qid = pid)) as [->|Hqq]; [by rewrite Hq2|rewrite Hoth by done; apply Hb].
Qed.

(** the constructor fills the buffer of empty slabs *)
Lemma refill_loop_ok fuel pid : ∀ g h, hinv g h → buffered h → nr_buffer (conf pid) - nr_empty (h_pools h pid) ≤ Z.of_nat fuel →
  refill_loop N conf fuel pid h = Err Aborted ∨
  ∃ h' g', refill_loop N conf fuel pid h = Ok h' ∧ hinv g' h' ∧ buffered h' ∧ nr_empty (h_pools h' pid) = nr_buffer (conf pid) ∧
    (∀ qid a, alloc' g' qid a ↔ alloc' g qid a) ∧ ∀ s qid, g_owner g' s = Some qid → g_owner g s = Some qid ∨ qid = pid.
Proof.
  induction fuel as [|fuel IH]; intros g h Hi Hb Hf; cbn [refill_loop]; (destruct (Z.ltb_spec (nr_empty (h_pools h pid)) (nr_buffer (conf pid))) as [Hlt|Hge]; cbn [negb];
    [|right; exists h, g; pose proof (Hb pid); do 3 (split; [done|]); split; [lia|split; [done|by left]]]); [lia|].
  destruct (RefillSlab_ok N lay conf nr HE g h pid Hi) as [[-> _]|(s & h2 & kind' & -> & Hos & Hi2 & _ & Hp2)]; [intros; by apply buffered_range|by left|].
  cbn [mbind result_bind]. assert (Hne : nr_empty (h_pools h2 pid) = nr_empty (h_pools h pid) + 1).
  { rewrite Hp2, fn_lookup_insert. cbn. apply u32_id. pose proof (buffered_range h pid Hb). destruct (hi_lists _ _ _ _ _ _ Hi pid) as (_ & _ & _ & _ & Hz). lia. }
  destruct (IH _ h2 Hi2) as [->|(h' & g' & -> & H1 & H2 & H3 & H4 & H5)]; [|lia|by left|].
  - intros qid. destruct (decide (pid = qid)) as [<-|?]; [lia|]. rewrite Hp2, fn_lookup_insert_ne by done. apply Hb.
  - right. exists h', g'. do 4 (split; [done|]). split; [intros qid a; by rewrite H4, allocated_add|]. intros t qid [Ht|?]%H5; [|by right]. cbn in Ht.
    destruct (decide (s = t)) as [<-|?]; [rewrite fn_lookup_insert in Ht; right; congruence|rewrite fn_lookup_insert_ne in Ht by done; by left].
Qed.

Lemma SlabPool_new_ok g h pid : hinv g h → buffered h → (∀ s, g_owner g s ≠ Some pid) →
  SlabPool_new N conf pid h = Err Aborted ∨
  ∃ h' g', SlabPool_new N conf pid h = Ok h' ∧ hinv g' h' ∧ buffered h' ∧ nr_empty (h_pools h' pid) = nr_buffer (conf pid) ∧
    (∀ qid a, alloc' g' qid a ↔ alloc' g qid a) ∧ ∀ s qid, g_owner g' s = Some qid → g_owner g s = Some qid ∨ qid = pid.
Proof.
  intros Hi Hb Ho. destruct (he_conf _ _ _ _ HE pid) as (_ & Hnb & _). apply refill_loop_ok.
  - apply pool_inv; [done|]. do 2 (split; [constructor|]). split; [|split; [|done]]; intros s; (split; [intros []%elem_of_nil|intros [? _]; by apply Ho in H]).
  - intros qid. cbn. destruct (decide (pid = qid)) as [<-|?]; [rewrite fn_lookup_insert; cbn; lia|rewrite fn_lookup_insert_ne by done; apply Hb].
  - cbn. rewrite fn_lookup_insert. cbn. lia.
Qed.

(** ** Histories *)

(** requests to the pools; [used] lists the objects in use *)
Inductive HeapOp := OAlloc (pid : Z) | OFree (pid a : Z).
Fixpoint heap_run (ops : list HeapOp) (used : list (Z * Z)) (h : SlabHeap) : result (list (Z * Z) * SlabHeap) :=
  match ops with
  | [] => Ok (used, h)
  | OAlloc pid :: ops => '(o, h) ← SlabPool_Alloc N conf pid h; heap_run ops ((pid, o) :: used) h
  | OFree pid a :: ops => h ← SlabPool_Free N lay conf pid a h; heap_run ops (filter (fun x => x ≠ (pid, a)) used) h
  end.
(** only objects in use are freed *)
Fixpoint legal (ops : list HeapOp) (used : list (Z * Z)) (h : SlabHeap) : bool :=
  match ops with
  | [] => true
  | OAlloc pid :: ops => match SlabPool_Alloc N conf pid h with Ok (o, h) => legal ops ((pid, o) :: used) h | Err _ => true end
  | OFree pid a :: ops => bool_decide ((pid, a) ∈ used) &&
      match SlabPool_Free N lay conf pid a h with Ok h => legal ops (filter (fun x => x ≠ (pid, a)) used) h | Err _ => true end
  end.

(** Slab pools of any number of cores and size classes share the memory of the nodes. In
    any history of allocations and of frees of objects in use, no request faults: it
    succeeds, or aborts because every node is out of pages. The objects in use, of all
    pools together, never overlap, none of them is the null pointer, and no pool keeps
    more empty slabs than its buffer allows. *)
Theorem slab_objects_disjoint ops : ∀ g h used,
  hinv g h → buffered h → NoDup used → (∀ pid a, alloc' g pid a ↔ (pid, a) ∈ used) → legal ops used h = true →
  heap_run ops used h = Err Aborted ∨
  ∃ used' h' g', heap_run ops used h = Ok (used', h') ∧ hinv g' h' ∧ buffered h' ∧ NoDup used' ∧ (∀ pid a, alloc' g' pid a ↔ (pid, a) ∈ used') ∧
    ∀ i j pid qid a b, used' !! i = Some (pid, a) → used' !! j = Some (qid, b) → i ≠ j → a + chunk pid ≤ b ∨ b + chunk qid ≤ a.
Proof.
  induction ops as [|[pid|pid a] ops IH]; intros g h used Hi Hb Hnd Hu Hl; cbn [heap_run legal] in *.
  - right. exists used, h, g. do 5 (split; [done|]). intros i j pid qid a b Hia Hjb Hij. apply (allocated_apart g h); [done|apply Hu, (list_elem_of_lookup_2 _ i); done|apply Hu, (list_elem_of_lookup_2 _ j); done|].
    intros ->. apply Hij. assert (pid = qid) as -> by (by apply (allocated_pool g h pid qid b); [|apply Hu, (list_elem_of_lookup_2 _ i)|apply Hu, (list_elem_of_lookup_2 _ j)]).
    by eapply NoDup_lookup.
  - destruct (SlabPool_Alloc_ok g h pid Hi Hb) as [[E _]|(o & h' & g' & E & Hi' & Hb' & Ho & Hno & Hall & _)]; rewrite E in *; cbn [mbind result_bind]; [by left|].
    apply (IH g' h'); [done|done|apply NoDup_cons; split; [rewrite <- Hu; apply Hno|done]| |done].
    intros qid a. rewrite Hall, Hu, elem_of_cons. naive_solver.
  - apply andb_true_iff in Hl as [Hin%bool_decide_eq_true Hl].
    destruct (SlabPool_Free_ok g h pid a Hi Hb (proj2 (Hu pid a) Hin)) as (h' & g' & E & Hi' & Hb' & Hall & _). rewrite E in *. cbn [mbind result_bind].
    apply (IH g' h'); [done|done|by apply NoDup_filter| |done]. intros qid b. rewrite Hall, list_elem_of_filter, Hu.
    split; [intros [Hq Hne]; split; [congruence|done]|]. intros [Hne Hq]. split; [done|]. intros ->. apply Hne. f_equal.
    by apply (allocated_pool g h qid pid a); [|apply Hu|apply Hu].
Qed.

End SlabProps.

(** ** The start *)

Section InitSlab.
Context (addr : Z → Z) (N memsz : Z) (conf : Z → SlabConf).
Abbreviation pages := (init_nr_pages (memsz / N)).

(** [OSMemory::Alloc] returns blocks of their own; the memory of a node is a number of large pages *)
Context (HN : 0 < N) (q : Z) (Hq : 1 ≤ q < 2 ^ 30) (Hmem : memsz / N = q * kLargeSlabPageSize).
Context (Haddr : ∀ n, 0 ≤ n < N → 0 < addr n).
Context (Hdis : ∀ n k, 0 ≤ n < N → 0 ≤ k < N → n ≠ k → addr n + memsz / N ≤ addr k ∨ addr k + memsz / N ≤ addr n).
Context (Hconf : ∀ pid, 8 ≤ chunk_size (conf pid) ≤ M_ 32 ∧ 0 ≤ nr_buffer (conf pid) < 2 ^ 32 - 1 ∧ 0 ≤ numa_node (conf pid) < N).

Lemma init_pages_eq : init_nr_metaslabs (memsz / N) = q ∧
  ∃ d, Align (q * kSizeofMetaSlab) kLargeSlabPageSize = d * kLargeSlabPageSize ∧ q * kSizeofMetaSlab ≤ d * kLargeSlabPageSize ∧ pages = q - d ∧ 0 ≤ q - d.
Proof.
  assert (HL : kLargeSlabPageSize = 2 ^ 26) by done. assert (HS : kSizeofMetaSlab = 2592) by done.
  assert (Hnr : init_nr_metaslabs (memsz / N) = q).
  { unfold init_nr_metaslabs. rewrite Hmem, HL, u64_id by lia. rewrite <- (Z.div_unique (q * 2 ^ 26 - 1) (2 ^ 26) (q - 1) (2 ^ 26 - 1)) by lia. lia. }
  split; [done|]. rewrite HL, HS. pose proof (Z.div_mod (q * 2592 - 1) (2 ^ 26) ltac:(done)) as Hdm. pose proof (Z.mod_pos_bound (q * 2592 - 1) (2 ^ 26) ltac:(done)).
  set (d0 := (q * 2592 - 1) / 2 ^ 26) in *. set (d := d0 + 1).
  assert (Hd0 : 0 ≤ d0 < q) by (split; [apply Z.div_pos; lia|apply Z.div_lt_upper_bound; lia]).
  assert (HA : Align (q * 2592) (2 ^ 26) = d * 2 ^ 26).
  { unfold Align. rewrite (u64_id (q * 2592 - 1)) by lia. fold d0. rewrite (u64_id (d0 + 1)), u64_id by lia. unfold d. lia. }
  exists d. split; [done|]. split; [unfold d; lia|]. unfold init_nr_pages. rewrite Hnr, HS, HL, HA, Z.div_mul by lia. unfold d. lia.
Qed.

Lemma InitSlab_env : heap_env N (init_layout addr N memsz) conf (fun _ => pages).
Proof.
  destruct init_pages_eq as (Hnr & d & HA & Hd & Hp & H0). split.
  - intros n Hn. unfold init_layout. cbn [n_p n_data_offset n_data_len]. rewrite Hnr, HA, Hp, Hmem. split; [by apply Haddr|]. split; [done|].
    assert (0 < kSizeofMetaSlab) by done. assert (0 ≤ d) by (assert (0 < kLargeSlabPageSize) by done; nia). split; [nia|lia].
  - intros n k Hn Hk Hne. cbn. by apply Hdis.
  - done.
Qed.

Definition init_heap (m : Memory) (slabs : Slab → Pool) : SlabHeap := mkHeap m (InitSlab addr N memsz) slabs (fun _ => mkSP [] [] 0 0 0).
Definition init_ghost : Ghost := mkGhost (fun _ _ => Free) (fun _ => None) (fun _ => []).

Lemma InitSlab_inv m slabs : heap_inv N (init_layout addr N memsz) conf (fun _ => pages) init_ghost (init_heap m slabs) ∧
  buffered conf (init_heap m slabs) ∧ ∀ pid a, ¬ allocated (init_layout addr N memsz) conf init_ghost pid a.
Proof.
  split; [|split; [intros pid; cbn; destruct (Hconf pid) as (_ & ? & _); lia|by intros pid a (s & ? & _)]]. split; cbn; [|done|done|].
  - intros n Hn. split; [|done]. split; cbn.
    + split; [apply NoDup_seqZ|]. intros i. rewrite elem_of_seqZ. split; [intros; split; [lia|done]|intros [? _]; lia].
    + split; [constructor|]. intros i. split; [intros []%elem_of_nil|]. by intros (_ & b & ? & _).
    + done.
    + done.
  - intros pid. do 2 (split; [constructor|]). split; [|split; [|done]]; intros s; (split; [intros []%elem_of_nil|by intros [? _]]).
Qed.
End InitSlab.

(** when the memory of a node is not a number of large pages, the last metaslab reaches
    beyond it *)
Lemma InitSlab_overruns addr N memsz n : 0 < memsz / N < 2 ^ 56 → (memsz / N) mod kLargeSlabPageSize ≠ 0 → 0 < init_nr_pages (memsz / N) →
  n_data_len (init_layout addr N memsz n) < n_data_offset (init_layout addr N memsz n) + init_nr_pages (memsz / N) * kLargeSlabPageSize.
Proof.
  intros Hm Hmod Hp. unfold init_layout, init_nr_pages in *. cbn [n_data_len n_data_offset]. set (s := memsz / N) in *.
  assert (Hnr : s < init_nr_metaslabs s * kLargeSlabPageSize ∧ init_nr_metaslabs s ≤ 2 ^ 30 ∧ 1 ≤ init_nr_metaslabs s).
  { unfold init_nr_metaslabs. rewrite u64_id by lia. change kLargeSlabPageSize with (2 ^ 26) in *.
    pose proof (Z.div_mod (s - 1) (2 ^ 26) ltac:(lia)). pose proof (Z.mod_pos_bound (s - 1) (2 ^ 26) ltac:(lia)). assert (0 ≤ (s - 1) / 2 ^ 26 < 2 ^ 30) by (split; [apply Z.div_pos; lia|apply Z.div_lt_upper_bound; lia]).
    split; [|lia]. assert (s ≠ ((s - 1) / 2 ^ 26 + 1) * 2 ^ 26) by (intros E; apply Hmod; rewrite E; apply Z.mod_mul; lia). lia. }
  set (k := init_nr_metaslabs s) in *. assert (HA : Align (k * kSizeofMetaSlab) kLargeSlabPageSize / kLargeSlabPageSize * kLargeSlabPageSize = Align (k * kSizeofMetaSlab) kLargeSlabPageSize).
  { unfold Align. change kLargeSlabPageSize with (2 ^ 26). change kSizeofMetaSlab with 2592. rewrite (u64_id (k * 2592 - 1)) by lia.
    assert (0 ≤ (k * 2592 - 1) / 2 ^ 26 < 2 ^ 30) by (split; [apply Z.div_pos; lia|apply Z.div_lt_upper_bound; lia]).
    rewrite (u64_id ((k * 2592 - 1) / 2 ^ 26 + 1)), u64_id by lia. rewrite (Z.mul_comm (2 ^ 26) (_ + 1)), Z.div_mul by lia. done. }
  rewrite Z.mul_sub_distr_r, HA. lia.
Qed.

(** ** Witness *)

(** one node with four large pages; pools of 256 KB and of 16 MB chunks *)
Module SlabSamples.
Definition addr (_ : Z) : Z := 2 ^ 40.
Definition conf (pid : Z) : SlabConf := mkConf (if pid =? 0 then K_ 256 else M_ 16) 1 0.
Definition h0 : SlabHeap := init_heap addr 1 (M_ 256) (fun _ => 0) (fun _ => mkPool 0 0 0 0 0).
Definition base : Z := 2 ^ 40 + M_ 64.
Definition ops : list HeapOp := [OAlloc 0; OAlloc 1; OAlloc 0; OFree 0 base; OAlloc 1; OFree 0 (base + K_ 256); OAlloc 0].
Lemma conf_ok pid : 8 ≤ chunk_size (conf pid) ≤ M_ 32 ∧ 0 ≤ nr_buffer (conf pid) < 2 ^ 32 - 1 ∧ 0 ≤ numa_node (conf pid) < 1.
Proof. unfold conf. cbn. destruct (pid =? 0); vm_compute; split_and!; congruence. Qed.
Lemma one_node n k : 0 ≤ n < 1 → 0 ≤ k < 1 → n ≠ k → addr n + M_ 256 / 1 ≤ addr k ∨ addr k + M_ 256 / 1 ≤ addr n.
Proof. lia. Qed.
Lemma env_ok : heap_env 1 (init_layout addr 1 (M_ 256)) conf (fun _ => init_nr_pages (M_ 256 / 1)).
Proof. by apply (InitSlab_env addr 1 (M_ 256) conf 4); [| |intros n Hn|exact one_node|exact conf_ok]. Qed.
End SlabSamples.

Lemma slab_objects_disjoint_witness :
  ∃ used h, heap_run 1 (init_layout SlabSamples.addr 1 (M_ 256)) SlabSamples.conf SlabSamples.ops [] SlabSamples.h0 = Ok (used, h) ∧
    used.*1 = [0; 1; 1] ∧ (used.*2).[2] + M_ 16 ≤ (used.*2).[1].
Proof.
  pose proof (InitSlab_inv SlabSamples.addr 1 (M_ 256) SlabSamples.conf SlabSamples.conf_ok (fun _ => 0) (fun _ => mkPool 0 0 0 0 0)) as (Hi & Hb & Hn).
  destruct (slab_objects_disjoint 1 (init_layout SlabSamples.addr 1 (M_ 256)) SlabSamples.conf _ SlabSamples.env_ok SlabSamples.ops _ SlabSamples.h0 [] Hi Hb)
    as [E|(used & h & g & E & _)].
  - constructor.
  - intros pid a. split; [intros H; by apply Hn in H|intros []%elem_of_nil].
  - by vm_compute.
  - vm_compute in E. discriminate E.
  - exists used, h. split; [exact E|]. assert (Eu : used = match heap_run 1 (init_layout SlabSamples.addr 1 (M_ 256)) SlabSamples.conf SlabSamples.ops [] SlabSamples.h0 with Ok (u, _) => u | Err _ => [] end) by (by rewrite E).
    rewrite Eu. split; vm_compute; [reflexivity|congruence].
Defined.
