(* ===== verification/DataRegion.v ===== *)
(** The data region (mem.cc [ParallelSlabPool], [ParallelRegion]; mem.h
    [ParallelAllocator] over slab pools): a request goes to the pool of its size class and
    core; objects freed by other cores wait in lists until their owner's quiescence. *)

From S2P Require Import Prelude Bits Sync Region Mem SlabMem SlabPool.

(** ** State *)

(** the lists of a [ParallelAllocator], indexed by the freeing and the allocating core *)
Record PLists := mkPL { r_free_lists : Z → Z → Z; r_free_tails : Z → Z → Z; r_csld : Z → Csld }.
(** the slab pools of all classes and cores, and the lists of every class *)
Record DataRegion := mkDR { dr_heap : SlabHeap; dr_lists : Z → PLists }.

(** the slab pool of class [k] and core [core] *)
Definition pool_id (k core : Z) : Z := k * kMaxNrPools + core.

(** [ParallelAllocationPolicy::CurrentAffinity]; [thread] is the thread-pool id *)
Definition CurrentAffinity (g_affinity thread : Z) : result Z :=
  let aff := if g_affinity =? -1 then thread - 1 else g_affinity in
  if (aff <? 0) || (kMaxNrPools <=? aff) then Err Aborted else Ok aff.

(** [ParallelAllocationPolicy::SetCurrentAffinity]: the owner of each core's lock *)
Definition SetCurrentAffinity (g_nr_cores me aff : Z) (locks : Z → option Z) (g_affinity : Z) : result ((Z → option Z) * Z) :=
  let locks := if g_affinity =? -1 then locks else <[g_affinity := None]> locks in
  if (g_nr_cores <=? aff) || (aff <? -1) then Err Aborted else
  if aff =? -1 then Ok (locks, aff) else
  match locks aff with Some _ => Err Blocked | None => Ok (<[aff := Some me]> locks, aff) end.

Section DataRegion.
(** [caps] are the [proposed_caps] of the classes *)
Context (N : Z) (lay : Z → Layout) (g_nr_cores : Z) (caps : Z → Z).

(** the pools that [InitPools] and the constructor of [ParallelSlabPool] create *)
Definition region_conf (pid : Z) : SlabConf :=
  let k := pid / kMaxNrPools in
  let core := pid mod kMaxNrPools in
  if (0 <=? k) && (k <? kMaxPools) && (core <? g_nr_cores) then
    mkConf (class_chunk_size k) (u32 (u64 (caps k * class_chunk_size k) / PageSize (class_chunk_size k))) (core / kNrCorePerNode)
  else mkConf (class_chunk_size 0) 0 0.

Definition set_lists (k : Z) (l : PLists) (st : DataRegion) : DataRegion := mkDR (dr_heap st) (<[k := l]> (dr_lists st)).
Definition set_mem (m : Memory) (st : DataRegion) : DataRegion :=
  mkDR (mkHeap m (h_nodes (dr_heap st)) (h_slabs (dr_heap st)) (h_pools (dr_heap st))) (dr_lists st).
(** only the cores of the node have pools *)
Definition has_pool (core : Z) : bool := (0 <=? core) && (core <? g_nr_cores).

(** [ParallelAllocator<SlabPool>::Alloc] *)
Definition ParallelSlabPool_Alloc (k cur : Z) (st : DataRegion) : result (Z * DataRegion) :=
  if negb (has_pool cur) then Err OutOfRange else
  let l := dr_lists st k in
  let c := r_csld l cur in
  if negb (bitmap c =? 0) then
    let n := Z.shiftr (bitmap c) (dice c) in
    let d := if n =? 0 then ctz (bitmap c) else ctz n + dice c in
    let p := heads c d in
    if p =? 0 then Err OutOfRange else
    let head := h_mem (dr_heap st) p in
    bm ← (if head =? 0 then bit ← int_bit d; mret (Z.land (bitmap c) (u64 (Z.lnot bit))) else mret (bitmap c));
    Ok (p, set_lists k (mkPL (r_free_lists l) (r_free_tails l) (<[cur := mkCsld d bm (<[d := head]> (heads c))]> (r_csld l))) st)
  else
    '(p, h) ← SlabPool_Alloc N region_conf (pool_id k cur) (dr_heap st);
    Ok (p, mkDR h (dr_lists st)).

(** [ParallelAllocator<SlabPool>::Free] *)
Definition ParallelSlabPool_Free (k cur ptr alloc_core : Z) (st : DataRegion) : result DataRegion :=
  _ ← abort_if ((alloc_core <? 0) || (kMaxNrPools <=? alloc_core));
  _ ← abort_if ((g_nr_cores <=? alloc_core) && negb (cur =? alloc_core));
  if negb (has_pool cur) then Err OutOfRange else
  if cur =? alloc_core then
    h ← SlabPool_Free N lay region_conf (pool_id k cur) ptr (dr_heap st);
    Ok (mkDR h (dr_lists st))
  else if ptr =? 0 then Err OutOfRange else
    let l := dr_lists st k in
    let old := r_free_lists l cur alloc_core in
    Ok (set_lists k (mkPL (set2 (r_free_lists l) cur alloc_core ptr)
                       (if old =? 0 then set2 (r_free_tails l) cur alloc_core ptr else r_free_tails l) (r_csld l))
          (set_mem (<[ptr := old]> (h_mem (dr_heap st))) st)).

(** the body of [ParallelAllocator<SlabPool>::Quiescence] for core [i]'s list *)
Definition splice_slab (k cur i : Z) (st : DataRegion) : result DataRegion :=
  let l := dr_lists st k in
  let tail := r_free_tails l i cur in
  let c := r_csld l cur in
  if tail =? 0 then Ok st else
  bit ← int_bit i;
  Ok (set_lists k (mkPL (set2 (r_free_lists l) i cur 0) (set2 (r_free_tails l) i cur 0)
                     (<[cur := mkCsld (dice c) (Z.lor (bitmap c) (u64 bit)) (<[i := r_free_lists l i cur]> (heads c))]> (r_csld l)))
        (set_mem (<[tail := heads c i]> (h_mem (dr_heap st))) st)).
Definition ParallelSlabPool_Quiescence (k cur : Z) (st : DataRegion) : result DataRegion :=
  for_each (splice_slab k cur) (seqZ 0 g_nr_cores) st.

(** [ParallelRegion::Alloc] *)
Definition Region_Alloc (cur sz : Z) (st : DataRegion) : result (Z * DataRegion) :=
  let k := SizeToClass sz in
  if k <? 0 then Ok (0, st) else
  '(r, st) ← ParallelSlabPool_Alloc k cur st;
  if r =? 0 then Err Aborted else Ok (r, st).
(** [ParallelRegion::Free] *)
Definition Region_Free (cur ptr alloc_core sz : Z) (st : DataRegion) : result DataRegion :=
  if ptr =? 0 then Ok st else
  let k := SizeToClass sz in
  if k <? 0 then Err Aborted else ParallelSlabPool_Free k cur ptr alloc_core st.
(** [ParallelRegion::Quiescence] *)
Definition Region_Quiescence (cur : Z) (st : DataRegion) : result DataRegion :=
  for_each (fun k => ParallelSlabPool_Quiescence k cur) (seqZ 0 kMaxPools) st.

(** the constructor of [ParallelSlabPool] and [InitPools]; the threads of [InitPools] take
    slabs under the locks of the nodes, in some order of the classes *)
Definition new_lists : PLists := mkPL (fun _ _ => 0) (fun _ _ => 0) (fun _ => mkCsld 0 0 (fun _ => 0)).
Definition ParallelSlabPool_new (k : Z) (st : DataRegion) : result DataRegion :=
  h ← for_each (fun core => SlabPool_new N region_conf (pool_id k core)) (seqZ 0 g_nr_cores) (dr_heap st);
  Ok (set_lists k new_lists (mkDR h (dr_lists st))).
Definition InitPools (order : list Z) (st : DataRegion) : result DataRegion := for_each ParallelSlabPool_new order st.

End DataRegion.

(** [ParallelRegion::set_pool_capacity], and the entries of [ApplyFromConf] *)
Definition set_pool_capacity (sz cap : Z) (caps : Z → Z) : result (Z → Z) :=
  let k := SizeToClass sz in if k <? 0 then Err Aborted else Ok (<[k := cap]> caps).
Definition ApplyFromConf (entries : list (Z * Z)) (caps : Z → Z) : result (Z → Z) :=
  for_each (fun x => set_pool_capacity x.1 (u64 (x.2 * 1024))) entries caps.
