(* ===== verification/RegionProps.v ===== *)
(** What the data region promises: requests of all cores and sizes get memory of their
    own, large enough, that stays theirs until it is freed, by whichever core. *)

From S2P Require Import Prelude Bits Sync Region Mem MemProps SlabMem SlabPool SlabFacts SlabProps DataRegion.

Section RegionProps.
Context (N : Z) (lay : Z → Layout) (nc : Z) (caps : Z → Z) (nr : Z → Z).
Abbreviation conf := (region_conf nc caps).
Context (HE : heap_env N lay conf nr) (Hnc : 0 ≤ nc ≤ 32).
(** addresses have 64 bits *)
Context (HB : ∀ n, 0 ≤ n < N → n_p (lay n) + n_data_len (lay n) ≤ 2 ^ 64).

Abbreviation alloc' := (allocated lay conf).
Abbreviation class_ok k := (0 ≤ k < kMaxPools).
Abbreviation core_ok c := (0 ≤ c < nc).

(** ** The lists of a class, seen as an allocator whose pools are empty *)

Definition any_pool : Pool := mkPool 1 (2 ^ 64) 0 (2 ^ 64) 0.
Definition pa_of (st : DataRegion) (k : Z) : PAlloc :=
  mkPA (h_mem (dr_heap st)) (fun _ => any_pool) (r_free_lists (dr_lists st k)) (r_free_tails (dr_lists st k)) (r_csld (dr_lists st k)).

Lemma any_pool_valid a : 0 < a ≤ 2 ^ 64 → valid_ptr any_pool a.
Proof.
  intros Ha. split; [lia|]. exists (a - 1). unfold CheckPointer, any_pool. cbn [p_data p_len p_capacity].
  rewrite (proj2 (Z.eqb_neq a 0)), (proj2 (Z.ltb_ge a 1)), (proj2 (Z.leb_gt _ a)) by lia. cbn [orb].
  rewrite Z.div_same, Z.mod_1_r, Z.div_1_r by lia. done.
Qed.

(** the invariant: objects in the lists are objects of the slab pools *)
Record region_inv (g : Ghost) (L : Z → Ix → list Z) (st : DataRegion) : Prop := {
  rv_heap : heap_inv N lay conf nr g (dr_heap st);
  rv_buf : buffered conf (dr_heap st);
  rv_pa : ∀ k, class_ok k → pa_inv nc (pa_of st k) (L k);
  rv_pool : ∀ k c, L k (IPool c) = [];
  rv_own : ∀ k ix a, class_ok k → a ∈ L k ix → core_ok (owner ix) ∧ alloc' g (pool_id k (owner ix)) a;
}.

(** an object of class [k] of core [c] in use *)
Definition in_use (g : Ghost) (L : Z → Ix → list Z) (k c a : Z) : Prop :=
  class_ok k ∧ core_ok c ∧ alloc' g (pool_id k c) a ∧ ∀ ix, a ∉ L k ix.

Lemma pool_id_inj k c k' c' : core_ok c → core_ok c' → pool_id k c = pool_id k' c' → k = k' ∧ c = c'.
Proof. unfold pool_id, kMaxNrPools. lia. Qed.
Lemma pool_id_conf k c : class_ok k → core_ok c → chunk_size (conf (pool_id k c)) = class_chunk_size k.
Proof.
  intros Hk Hc. unfold region_conf, pool_id, kMaxNrPools. rewrite Z.div_add_l, Z.div_small by lia. rewrite (Z.add_comm (k * 64)), Z.mod_add, Z.mod_small by lia.
  rewrite Z.add_0_r, (proj2 (Z.leb_le 0 k)), (proj2 (Z.ltb_lt k kMaxPools)), (proj2 (Z.ltb_lt c nc)) by lia. done.
Qed.

Lemma pa_inv_mem n pa L m' : pa_inv n pa L → (∀ ix a, a ∈ L ix → m' a = pa_mem pa a) →
  pa_inv n (mkPA m' (pools pa) (free_lists pa) (free_tails pa) (csld_free_lists pa)) L.
Proof.
  intros [I1 I2 I3 I4 I5 I6 I7 I8] Hm. split; try done. intros ix. specialize (I1 ix). cbn. apply (mem_chain_ext (pa_mem pa)); [by intros; eapply Hm|].
  by destruct ix.
Qed.

(** an object in use is in the lists of no class *)
Lemma in_use_free g L st k c a k' ix : region_inv g L st → in_use g L k c a → class_ok k' → a ∉ L k' ix.
Proof.
  intros Hi (Hk & Hc & Ha & Hn) Hk' Hin. destruct (rv_own _ _ _ Hi k' ix a Hk' Hin) as [Ho Ha'].
  pose proof (allocated_pool N lay conf nr HE _ _ _ _ _ (rv_heap _ _ _ Hi) Ha Ha') as E. destruct (pool_id_inj _ _ _ _ Hc Ho E) as [<- _]. by apply (Hn ix).
Qed.
Lemma in_use_class g L st k c a k' c' : region_inv g L st → in_use g L k c a → in_use g L k' c' a → k = k' ∧ c = c'.
Proof.
  intros Hi (Hk & Hc & Ha & _) (Hk' & Hc' & Ha' & _). apply pool_id_inj; [done|done|]. by eapply (allocated_pool N lay conf nr HE); [apply (rv_heap _ _ _ Hi)| |].
Qed.
Lemma lists_class g L st k k' ix jx a : region_inv g L st → class_ok k → class_ok k' → a ∈ L k ix → a ∈ L k' jx → k = k'.
Proof.
  intros Hi Hk Hk' Ha Hb. destruct (rv_own _ _ _ Hi k ix a Hk Ha) as [H1 H2], (rv_own _ _ _ Hi k' jx a Hk' Hb) as [H3 H4].
  destruct (pool_id_inj k (owner ix) k' (owner jx) H1 H3) as [? _]; [|done]. by eapply (allocated_pool N lay conf nr HE); [apply (rv_heap _ _ _ Hi)| |].
Qed.
Lemma allocated_valid g h pid a : heap_inv N lay conf nr g h → alloc' g pid a → valid_ptr any_pool a.
Proof.
  intros Hi Ha. destruct (allocated_addr N lay conf nr HE _ _ _ _ Hi Ha) as (n & Hn & H1 & H2 & H3). specialize (HB n Hn).
  destruct (he_conf _ _ _ _ HE pid) as (? & _). apply any_pool_valid. lia.
Qed.

(** changes to the lists of one class *)
Lemma class_inv g L st k m pa L' : region_inv g L st → class_ok k → pa_inv nc pa L' → pools pa = (fun _ => any_pool) → pa_mem pa = m →
  (∀ k' ix a, class_ok k' → k' ≠ k → a ∈ L k' ix → m a = h_mem (dr_heap st) a) →
  (∀ c, L' (IPool c) = []) → (∀ ix a, a ∈ L' ix → core_ok (owner ix) ∧ alloc' g (pool_id k (owner ix)) a) →
  (∀ s qid, g_owner g s = Some qid → ∀ a, a ∈ g_free g s → m a = h_mem (dr_heap st) a) →
  region_inv g (<[k := L']> L) (set_lists k (mkPL (free_lists pa) (free_tails pa) (csld_free_lists pa)) (set_mem m st)).
Proof.
  intros Hi Hk Hp Hpl Hpm Hm Hpool Hown Hfree. split; cbn.
  - destruct (rv_heap _ _ _ Hi) as [I1 I2 I3 I4]. split; cbn; try done. intros s qid Ho. destruct (I3 s qid Ho) as (P1 & P2 & P3 & P4 & P5 & P6 & P7).
    do 4 (split; [done|]). split; [|done]. apply (mem_chain_ext (h_mem (dr_heap st))); [|done]. by apply (Hfree s qid).
  - apply (rv_buf _ _ _ Hi).
  - intros k' Hk'. unfold pa_of. cbn. destruct (decide (k = k')) as [<-|Hne].
    + rewrite !fn_lookup_insert. cbn. destruct pa as [m0 p0 f0 t0 c0]. cbn in *. by subst.
    + rewrite !fn_lookup_insert_ne by done. apply (pa_inv_mem nc (pa_of st k')); [by apply (rv_pa _ _ _ Hi)|]. intros ix a Ha. by apply (Hm k' ix).
  - intros k' c. destruct (decide (k = k')) as [<-|Hne]; [by rewrite fn_lookup_insert|rewrite fn_lookup_insert_ne by done; apply (rv_pool _ _ _ Hi)].
  - intros k' ix a Hk'. destruct (decide (k = k')) as [<-|Hne]; [rewrite fn_lookup_insert; by apply Hown|rewrite fn_lookup_insert_ne by done; by apply (rv_own _ _ _ Hi)].
Qed.

(** changes to the slab pools *)
Lemma heap_inv_region g g' L st h' : region_inv g L st → heap_inv N lay conf nr g' h' → buffered conf h' →
  (∀ k ix a, class_ok k → a ∈ L k ix → h_mem h' a = h_mem (dr_heap st) a ∧ (∀ pid, alloc' g pid a → alloc' g' pid a)) →
  region_inv g' L (mkDR h' (dr_lists st)).
Proof.
  intros Hi Hh Hb Hm. split; cbn; [done|done|..].
  - intros k Hk. apply (pa_inv_mem nc (pa_of st k)); [by apply (rv_pa _ _ _ Hi)|]. intros ix a Ha. by apply (Hm k ix).
  - apply (rv_pool _ _ _ Hi).
  - intros k ix a Hk Ha. destruct (rv_own _ _ _ Hi k ix a Hk Ha) as [Ho Hal]. split; [done|]. by apply (Hm k ix).
Qed.

(** an allocated object is not free in a slab *)
Lemma allocated_not_free g h pid a s qid : heap_inv N lay conf nr g h → alloc' g pid a → g_owner g s = Some qid → a ∉ g_free g s.
Proof.
  intros [I1 I2 I3 I4] (t & Ht & Hc & Hn) Hs Hin. destruct (I3 s qid Hs) as (_ & _ & _ & _ & _ & _ & P7).
  assert (s = t) as <- by (eapply (chunk_slab N lay conf nr HE); [by apply I2|by apply I2|by apply P7|done]). done.
Qed.

(** ** Allocation *)

(** the code that takes an object from the lists is that of [Mem] *)
Lemma csld_alloc_eq st k cur p pa : core_ok cur → bitmap (r_csld (dr_lists st k) cur) ≠ 0 → ParallelAllocator_Alloc (pa_of st k) cur = Ok (p, pa) →
  ParallelSlabPool_Alloc N nc caps k cur st = Ok (p, set_lists k (mkPL (free_lists pa) (free_tails pa) (csld_free_lists pa)) st) ∧
  pa_mem pa = h_mem (dr_heap st) ∧ pools pa = fun _ => any_pool.
Proof.
  intros Hc Hb. unfold ParallelSlabPool_Alloc, ParallelAllocator_Alloc, has_pool. cbn [pa_of csld_free_lists pa_mem].
  rewrite (proj2 (Z.leb_le 0 cur)), (proj2 (Z.ltb_lt cur nc)), (proj2 (Z.eqb_neq _ 0) Hb) by lia. cbn [andb negb].
  set (c := r_csld (dr_lists st k) cur). set (d := if Z.shiftr (bitmap c) (dice c) =? 0 then ctz (bitmap c) else _). destruct (heads c d =? 0); [done|]. destruct (if h_mem _ _ =? 0 then _ else _) as [bm|]; [|done].
  cbn [mbind result_bind]. intros [= <- <-]. done.
Qed.

Definition add_use (L' : Z → Ix → list Z) (g' : Ghost) (L : Z → Ix → list Z) (g : Ghost) (k c p : Z) : Prop :=
  (∀ k' c', ¬ in_use g L k' c' p) ∧ ∀ k' c' a, in_use g' L' k' c' a ↔ in_use g L k' c' a ∨ (k' = k ∧ c' = c ∧ a = p).

Lemma csld_alloc_ok g L st k cur : region_inv g L st → class_ok k → core_ok cur → bitmap (r_csld (dr_lists st k) cur) ≠ 0 →
  ∃ p st' L', ParallelSlabPool_Alloc N nc caps k cur st = Ok (p, st') ∧ region_inv g L' st' ∧ p ≠ 0 ∧ add_use L' g L g k cur p.
Proof.
  intros Hi Hk Hc Hb. pose proof (rv_pa _ _ _ Hi k Hk) as Hpa. destruct (Alloc_csld_ok nc _ _ cur Hnc Hpa Hb) as (d & p & rest & pa & HA & HL & Hpa').
  destruct (csld_alloc_eq st k cur p pa Hc Hb HA) as (-> & Hm & Hp). set (L1 := pop_list (L k) (ICsld cur d)) in *.
  assert (Hpin : p ∈ L k (ICsld cur d)) by (rewrite HL; left). destruct (rv_own _ _ _ Hi k _ p Hk Hpin) as [_ Hal]. cbn in Hal.
  assert (HpL : ∀ ix a, a ∈ L1 ix ↔ a ∈ L k ix ∧ a ≠ p).
  { intros ix a. unfold L1, pop_list. destruct (decide (ICsld cur d = ix)) as [<-|Hne].
    - rewrite fn_lookup_insert, HL. cbn [tail]. pose proof (pi_nodup _ _ _ Hpa (ICsld cur d)) as Hnd. rewrite HL in Hnd. apply NoDup_cons in Hnd as [Hp0 _].
      rewrite elem_of_cons. split; [intros Ha; split; [by right|congruence]|]. by intros [[->|?] ?].
    - rewrite fn_lookup_insert_ne by done. split; [|by intros [? _]]. intros Ha. split; [done|]. intros ->. apply Hne. by apply (pi_disjoint _ _ _ Hpa _ _ p). }
  exists p. eexists _, (<[k := L1]> L). split; [done|]. split.
  { pose proof (class_inv g L st k (h_mem (dr_heap st)) pa L1 Hi Hk Hpa' Hp Hm) as Hci. replace (set_mem (h_mem (dr_heap st)) st) with st in Hci by (by destruct st as [[]]).
    apply Hci; [done| | |done].
    - intros c. destruct (L1 (IPool c)) as [|x l] eqn:E; [done|]. assert (Hx : x ∈ L1 (IPool c)) by (rewrite E; left). apply HpL in Hx as [Hx _]. rewrite (rv_pool _ _ _ Hi) in Hx. by apply elem_of_nil in Hx.
    - intros ix a [Ha _]%HpL. by apply (rv_own _ _ _ Hi). }
  split; [by destruct (allocated_valid _ _ _ _ (rv_heap _ _ _ Hi) Hal)|]. split.
  - intros k' c' Hu. by apply (in_use_free g L st k' c' p k (ICsld cur d) Hi Hu Hk).
  - intros k' c' a. unfold in_use. destruct (decide (k = k')) as [<-|Hne].
    + rewrite fn_lookup_insert. split.
      * intros (H1 & H2 & H3 & H4). destruct (decide (a = p)) as [->|Hap].
        -- right. split; [done|]. split; [|done]. by eapply pool_id_inj; [|exact Hc|eapply (allocated_pool N lay conf nr HE); [apply (rv_heap _ _ _ Hi)|exact H3|exact Hal]].
        -- left. do 3 (split; [done|]). intros ix Ha. apply (H4 ix). by apply HpL.
      * intros [(H1 & H2 & H3 & H4)|(_ & -> & ->)]; (split; [done|]; split; [done|]; split; [done|]; intros ix Ha%HpL; destruct Ha as [Ha Hne]); [by apply (H4 ix)|done].
    + rewrite fn_lookup_insert_ne by done. split; [by left|]. by intros [?|[-> _]].
Qed.

Lemma ParallelSlabPool_Alloc_ok g L st k cur : region_inv g L st → class_ok k → core_ok cur →
  ParallelSlabPool_Alloc N nc caps k cur st = Err Aborted ∨
  ∃ p st' g' L', ParallelSlabPool_Alloc N nc caps k cur st = Ok (p, st') ∧ region_inv g' L' st' ∧ p ≠ 0 ∧ add_use L' g' L g k cur p.
Proof.
  intros Hi Hk Hc. destruct (decide (bitmap (r_csld (dr_lists st k) cur) = 0)) as [Hz|Hz].
  2: { right. destruct (csld_alloc_ok g L st k cur Hi Hk Hc Hz) as (p & st' & L' & H). by exists p, st', g, L'. }
  unfold ParallelSlabPool_Alloc, has_pool. rewrite (proj2 (Z.leb_le 0 cur)), (proj2 (Z.ltb_lt cur nc)), (proj2 (Z.eqb_eq _ 0) Hz) by lia. cbn [andb negb].
  destruct (SlabPool_Alloc_ok N lay conf nr HE g (dr_heap st) (pool_id k cur) (rv_heap _ _ _ Hi) (rv_buf _ _ _ Hi)) as [[-> _]|(o & h' & g' & -> & Hi' & Hb' & Ho & Hno & Hall & Hm)]; [by left|].
  right. cbn [mbind result_bind]. exists o, (mkDR h' (dr_lists st)), g', L. split; [done|].
  assert (HnL : ∀ k' ix, class_ok k' → o ∉ L k' ix) by (intros k' ix Hk' Hin; destruct (rv_own _ _ _ Hi k' ix o Hk' Hin) as [_ Ha]; by apply Hno in Ha).
  split; [|split; [done|split]].
  - eapply heap_inv_region; [done|done|done|]. intros k' ix a Hk' Ha. destruct (rv_own _ _ _ Hi k' ix a Hk' Ha) as [_ Hal]. split.
    + apply (Hm _ a a Hal). destruct (he_conf _ _ _ _ HE (pool_id k' (owner ix))) as (? & _). lia.
    + intros pid Hp. apply Hall. by left.
  - intros k' c' (_ & _ & Ha & _). by apply Hno in Ha.
  - intros k' c' a. unfold in_use. rewrite Hall. split.
    + intros (H1 & H2 & [H3|[E ->]] & H4); [by left|]. right. destruct (pool_id_inj k' c' k cur H2 Hc E) as [-> ->]. done.
    + intros [(H1 & H2 & H3 & H4)|(-> & -> & ->)]; [do 2 (split; [done|]); split; [by left|done]|]. do 2 (split; [done|]). split; [by right|]. intros ix. by apply HnL.
Qed.

(** ** Frees and quiescence *)

Definition drop_use (L' : Z → Ix → list Z) (g' : Ghost) (L : Z → Ix → list Z) (g : Ghost) (p : Z) : Prop :=
  ∀ k c a, in_use g' L' k c a ↔ in_use g L k c a ∧ a ≠ p.

Lemma ParallelSlabPool_Free_ok g L st k cur ac p : region_inv g L st → core_ok cur → in_use g L k ac p →
  ∃ st' g' L', ParallelSlabPool_Free N lay nc caps k cur p ac st = Ok st' ∧ region_inv g' L' st' ∧ drop_use L' g' L g p.
Proof.
  intros Hi Hc Hu. pose proof Hu as (Hk & Hac & Hal & Hn). unfold ParallelSlabPool_Free, has_pool.
  rewrite (proj2 (Z.ltb_ge ac 0)), (proj2 (Z.leb_gt kMaxNrPools ac)), (proj2 (Z.leb_gt nc ac)), (proj2 (Z.leb_le 0 cur)), (proj2 (Z.ltb_lt cur nc)) by (unfold kMaxNrPools; lia).
  cbn [orb andb negb abort_if mbind result_bind]. destruct (Z.eqb_spec cur ac) as [->|Hne].
  - destruct (SlabPool_Free_ok N lay conf nr HE g (dr_heap st) _ p (rv_heap _ _ _ Hi) (rv_buf _ _ _ Hi) Hal) as (h' & g' & -> & Hi' & Hb' & Hall & Hm). cbn [mbind result_bind].
    exists (mkDR h' (dr_lists st)), g', L. split; [done|]. split.
    + eapply heap_inv_region; [done|done|done|]. intros k' ix a Hk' Ha. assert (a ≠ p) by (intros ->; by apply (in_use_free g L st k ac p k' ix Hi Hu Hk')).
      split; [by apply Hm|]. intros pid Hp. by apply Hall.
    + intros k' c a. unfold in_use. rewrite Hall. tauto.
  - pose proof (allocated_valid _ _ _ _ (rv_heap _ _ _ Hi) Hal) as Hv. rewrite (proj2 (Z.eqb_neq p 0)) by apply Hv.
    pose proof (rv_pa _ _ _ Hi k Hk) as Hpa. destruct (Free_ok nc _ _ cur p ac Hpa) as (pa & HF & Hpa'); [unfold kMaxNrPools; lia|done|intros [ix Hix]; by apply (Hn ix)|done|].
    rewrite (decide_False (P := cur = ac)) in Hpa' by done. set (L1 := push_list (L k) (IFree cur ac) p) in *.
    unfold ParallelAllocator_Free in HF. rewrite (proj2 (Z.ltb_ge ac 0)), (proj2 (Z.leb_gt kMaxNrPools ac)), (proj2 (Z.leb_gt nc ac)), (proj2 (Z.eqb_neq cur ac)) in HF by (unfold kMaxNrPools; lia).
    cbn [orb andb negb abort_if mbind result_bind] in HF. rewrite (proj2 (Z.eqb_neq p 0)) in HF by apply Hv. injection HF as <-.
    eexists _, g, (<[k := L1]> L). split; [done|]. split.
    + eapply (class_inv g L st k _ _ L1 Hi Hk Hpa'); [done|done|..]; cbn [pa_mem pa_of].
      * intros k' ix a Hk' _ Ha. apply fn_lookup_insert_ne. intros ->. by apply (in_use_free g L st k ac a k' ix Hi Hu Hk').
      * intros c. unfold L1, push_list. rewrite fn_lookup_insert_ne by done. apply (rv_pool _ _ _ Hi).
      * intros ix a [[-> ->]|Ha]%elem_of_push; [done|by apply (rv_own _ _ _ Hi)].
      * intros s qid Hs a Ha. apply fn_lookup_insert_ne. intros ->. by apply (allocated_not_free g _ _ a s qid (rv_heap _ _ _ Hi) Hal Hs).
    + intros k' c a. unfold in_use. destruct (decide (k = k')) as [<-|Hkk].
      * rewrite fn_lookup_insert. split.
        -- intros (H1 & H2 & H3 & H4). split; [do 3 (split; [done|])|].
           ++ intros ix Ha. apply (H4 ix), elem_of_push. by right.
           ++ intros ->. apply (H4 (IFree cur ac)), elem_of_push. by left.
        -- intros [(H1 & H2 & H3 & H4) Hap]. do 3 (split; [done|]). intros ix [[_ ->]|Ha]%elem_of_push; [done|by apply (H4 ix)].
      * rewrite fn_lookup_insert_ne by done. split; [|tauto]. intros H. split; [done|]. intros ->.
        destruct (in_use_class g L st k ac p k' c Hi Hu H) as [-> _]. done.
Qed.

Lemma splice_slab_ok g L st k cur i : region_inv g L st → class_ok k → core_ok cur → core_ok i →
  ∃ st' L', splice_slab k cur i st = Ok st' ∧ region_inv g L' st' ∧ ∀ k' c a, in_use g L' k' c a ↔ in_use g L k' c a.
Proof.
  intros Hi Hk Hc Hci. pose proof (rv_pa _ _ _ Hi k Hk) as Hpa. destruct (splice_ok nc (pa_of st k) (L k) cur i ltac:(lia) Hpa Hci) as (pa & HS & Hpa').
  unfold splice_slab. unfold splice in HS. cbn [pa_of free_tails csld_free_lists free_lists pa_mem pools] in HS. destruct (Z.eqb_spec (r_free_tails (dr_lists st k) i cur) 0) as [E|E].
  { exists st, L. done. }
  destruct (int_bit i) as [bit|]; [|done]. cbn [mbind result_bind] in *. injection HS as <-. set (L1 := splice_list (L k) cur i) in *.
  assert (HL : ∀ ix a, a ∈ L1 ix → ∃ jx, a ∈ L k jx ∧ owner jx = owner ix ∧ (∀ c, ix ≠ IPool c ∨ jx = ix)).
  { intros ix a. unfold L1. rewrite splice_list_at. case_decide as E1; [intros []%elem_of_nil|]. case_decide as E2.
    - subst. intros [Ha|Ha]%elem_of_app; [exists (IFree i cur)|exists (ICsld cur i)]; naive_solver.
    - intros Ha. exists ix. naive_solver. }
  assert (HL' : ∀ jx a, a ∈ L k jx → ∃ ix, a ∈ L1 ix).
  { intros jx a Ha. destruct (decide (jx = IFree i cur)) as [->|E1].
    - exists (ICsld cur i). unfold L1. rewrite splice_list_at, decide_False, decide_True by done. apply elem_of_app. by left.
    - destruct (decide (jx = ICsld cur i)) as [->|E2].
      + exists (ICsld cur i). unfold L1. rewrite splice_list_at, decide_False, decide_True by done. apply elem_of_app. by right.
      + exists jx. unfold L1. by rewrite splice_list_at, !decide_False. }
  assert (Ht : r_free_tails (dr_lists st k) i cur ∈ L k (IFree i cur)).
  { pose proof (pi_tail _ _ _ Hpa i cur) as Ht. cbn in Ht. rewrite Ht in *. destruct (last (L k (IFree i cur))) as [t|] eqn:El; [|done]. by apply last_Some_elem_of. }
  destruct (rv_own _ _ _ Hi k _ _ Hk Ht) as [_ Hal]. eexists _, (<[k := L1]> L). split; [done|]. split.
  - eapply (class_inv g L st k _ _ L1 Hi Hk Hpa'); [done|done|..]; cbn [pa_mem].
    + intros k' ix a Hk' Hkk Ha. apply fn_lookup_insert_ne. intros <-. apply Hkk. by apply (lists_class g L st k' k ix (IFree i cur) _ Hi Hk' Hk Ha).
    + intros c. unfold L1. rewrite splice_list_at, !decide_False by done. apply (rv_pool _ _ _ Hi).
    + intros ix a (jx & Ha & Ho & _)%HL. rewrite <- Ho. by apply (rv_own _ _ _ Hi).
    + intros s qid Hs a Ha. apply fn_lookup_insert_ne. intros <-. by apply (allocated_not_free g _ _ _ s qid (rv_heap _ _ _ Hi) Hal Hs).
  - intros k' c a. unfold in_use. destruct (decide (k = k')) as [<-|Hkk]; [rewrite fn_lookup_insert|by rewrite fn_lookup_insert_ne].
    split; intros (H1 & H2 & H3 & H4); do 3 (split; [done|]); intros ix Ha.
    + destruct (HL' ix a Ha) as [jx Hj]. by apply (H4 jx).
    + destruct (HL ix a Ha) as (jx & Hj & _). by apply (H4 jx).
Qed.

Definition same_use (g : Ghost) (L : Z → Ix → list Z) (st : DataRegion) : Prop :=
  ∃ L', region_inv g L' st ∧ ∀ k c a, in_use g L' k c a ↔ in_use g L k c a.

Lemma Region_Quiescence_ok g L st cur : region_inv g L st → core_ok cur →
  ∃ st' L', Region_Quiescence nc cur st = Ok st' ∧ region_inv g L' st' ∧ ∀ k c a, in_use g L' k c a ↔ in_use g L k c a.
Proof.
  intros Hi Hc. unfold Region_Quiescence. destruct (for_each_inv (fun k => ParallelSlabPool_Quiescence nc k cur) (fun _ st => same_use g L st) (seqZ 0 kMaxPools) st)
    as (st' & E & L' & H1 & H2); [by exists L| |by exists st', L'].
  intros d k r s Hd Hs. assert (Hk : class_ok k).
  { assert (Hin : k ∈ seqZ 0 kMaxPools) by (rewrite Hd; apply elem_of_app; right; left). apply elem_of_seqZ in Hin. lia. }
  unfold ParallelSlabPool_Quiescence. destruct (for_each_inv (splice_slab k cur) (fun _ st => same_use g L st) (seqZ 0 nc) s) as (s' & E & Hs'); [done| |by exists s'].
  intros d' i r' s1 Hd' (L1 & Hi1 & Hu1). assert (Hci : core_ok i).
  { assert (Hin : i ∈ seqZ 0 nc) by (rewrite Hd'; apply elem_of_app; right; left). apply elem_of_seqZ in Hin. lia. }
  destruct (splice_slab_ok g L1 s1 k cur i Hi1 Hk Hc Hci) as (s2 & L2 & -> & Hi2 & Hu2). exists s2. split; [done|]. exists L2. split; [done|]. intros. by rewrite Hu2.
Qed.

(** ** The start *)

Lemma new_lists_ok st k : dr_lists st k = new_lists → pa_inv nc (pa_of st k) (fun _ => []).
Proof.
  intros E. unfold pa_of. rewrite E. split; cbn; try done.
  - by intros [].
  - intros ix. constructor.
  - intros ix jx a []%elem_of_nil.
  - intros c. split; [done|]. intros j _. apply Z.bits_0.
  - intros ix a []%elem_of_nil.
Qed.

(** [InitPools] creates the pools of all classes and cores, or runs out of memory *)
Lemma InitPools_ok g h order : heap_inv N lay conf nr g h → buffered conf h → (∀ s, g_owner g s = None) → NoDup order → (∀ k, k ∈ order → class_ok k) →
  InitPools N nc caps order (mkDR h (fun _ => new_lists)) = Err Aborted ∨
  ∃ st g', InitPools N nc caps order (mkDR h (fun _ => new_lists)) = Ok st ∧ region_inv g' (fun _ _ => []) st ∧ ∀ k c a, ¬ in_use g' (fun _ _ => []) k c a.
Proof.
  intros Hi Hb Ho Hnd Hord.
  set (P := fun (d : list (Z * Z)) (g' : Ghost) (h' : SlabHeap) => heap_inv N lay conf nr g' h' ∧ buffered conf h' ∧ (∀ pid a, ¬ alloc' g' pid a) ∧
    ∀ s pid, g_owner g' s = Some pid → ∃ x, x ∈ d ∧ pid = pool_id x.1 x.2).
  destruct (for_each_abort (ParallelSlabPool_new N nc caps) (fun d st => (∀ k, dr_lists st k = new_lists) ∧ ∃ g', P (k ← d; c ← seqZ 0 nc; [(k, c)]) g' (dr_heap st)) order (mkDR h (fun _ => new_lists)))
    as [E|(st & E & HL & g' & H1 & H2 & H3 & H4)].
  - split; [done|]. exists g. split; [done|]. split; [done|]. split; [intros pid a (s & Hs & _); by rewrite Ho in Hs|]. intros s pid Hs. by rewrite Ho in Hs.
  - intros d k r s Hd (HL & g' & HP). assert (Hk : class_ok k) by (apply Hord; rewrite Hd; apply elem_of_app; right; left).
    assert (Hkd : k ∉ d) by (rewrite Hd in Hnd; apply NoDup_app in Hnd as (_ & Hx & _); intros Hin; apply (Hx k Hin); left).
    unfold ParallelSlabPool_new. set (dk := d ≫= _) in *.
    destruct (for_each_abort (fun core => SlabPool_new N conf (pool_id k core)) (fun d' h' => ∃ g', P (dk ++ ((fun c => (k, c)) <$> d')) g' h') (seqZ 0 nc) (dr_heap s))
      as [E|(h' & E & g2 & HP2)]; [exists g'; by rewrite app_nil_r| |left; by rewrite E|right].
    + intros d' c r' h1 Hd' (g1 & P1 & P2 & P3 & P4). assert (Hc : core_ok c) by (assert (Hin : c ∈ seqZ 0 nc) by (rewrite Hd'; apply elem_of_app; right; left); apply elem_of_seqZ in Hin; lia).
      destruct (SlabPool_new_ok N lay conf nr HE g1 h1 (pool_id k c) P1 P2) as [E|(h2 & g2 & E & Q1 & Q2 & _ & Q3 & Q4)]; [|by left|right].
      * intros t Ht. destruct (P4 t _ Ht) as ([k' c'] & Hx & Ep). cbn in Ep.
        apply elem_of_app in Hx as [Hx|(c1 & [= -> ->] & Hx)%list_elem_of_fmap].
        -- apply list_elem_of_bind in Hx as (k1 & Hx & Hk1). apply list_elem_of_bind in Hx as (c1 & [[= -> ->]|[]%elem_of_nil]%elem_of_cons & Hc1%elem_of_seqZ).
           destruct (pool_id_inj k c k1 c1) as [-> _]; [done|lia|done|done].
        -- assert (Hin : c1 ∈ seqZ 0 nc) by (rewrite Hd'; apply elem_of_app; by left). apply elem_of_seqZ in Hin.
           destruct (pool_id_inj k c k c1) as [_ ->]; [done|lia|done|]. pose proof (NoDup_seqZ 0 nc) as Hn0. rewrite Hd' in Hn0. apply NoDup_app in Hn0 as (_ & Hx' & _). apply (Hx' c1 Hx). left.
      * exists h2. split; [done|]. exists g2. split; [done|]. split; [done|]. split; [intros pid a; by rewrite Q3|]. intros t pid [Ht| ->]%Q4.
        -- destruct (P4 t pid Ht) as (x & Hx & Ep). exists x. split; [|done]. rewrite fmap_app. apply elem_of_app in Hx as [Hx|Hx]; apply elem_of_app; [by left|right; apply elem_of_app; by left].
        -- exists (k, c). split; [|done]. rewrite fmap_app. apply elem_of_app. right. apply elem_of_app. right. left.
    + rewrite E. cbn [mbind result_bind]. eexists. split; [done|]. cbn. split; [intros k'; destruct (decide (k = k')) as [<-|?]; [by rewrite fn_lookup_insert|by rewrite fn_lookup_insert_ne]|].
      exists g2. destruct HP2 as (P1 & P2 & P3 & P4). do 3 (split; [done|]). intros t pid Ht. destruct (P4 t pid Ht) as ([k' c'] & Hx & Ep). exists (k', c'). split; [|done].
      rewrite bind_app. apply elem_of_app in Hx as [Hx|(c1 & [= -> ->] & Hx)%list_elem_of_fmap]; apply elem_of_app; [by left|right].
      apply list_elem_of_bind. exists k. split; [|left]. apply list_elem_of_bind. exists c1. split; [left|done].
  - left. done.
  - right. exists st, g'. split; [done|]. split; [|intros k c a (_ & _ & Ha & _); by apply H3 in Ha]. split; [done|done|..].
    + intros k _. apply new_lists_ok, HL.
    + done.
    + intros k ix a _ []%elem_of_nil.
Qed.

(** ** Histories *)

(** requests of the cores; [used] lists the objects in use *)
Inductive RegionOp := RAlloc (cur sz : Z) | RFree (cur ptr alloc_core sz : Z) | RQuiesce (cur : Z).
Record Object := mkObj { o_ptr : Z; o_core : Z; o_size : Z }.
#[export] Instance Object_eq_dec : EqDecision Object.
Proof. solve_decision. Defined.

Definition region_step (op : RegionOp) (x : list Object * DataRegion) : result (list Object * DataRegion) :=
  match op with
  | RAlloc cur sz => '(p, st) ← Region_Alloc N nc caps cur sz x.2; Ok (mkObj p cur sz :: x.1, st)
  | RFree cur p ac sz => st ← Region_Free N lay nc caps cur p ac sz x.2; Ok (filter (fun u => u ≠ mkObj p ac sz) x.1, st)
  | RQuiesce cur => st ← Region_Quiescence nc cur x.2; Ok (x.1, st)
  end.
(** the cores exist, sizes have a class, and only objects in use are freed, with their core and size *)
Definition op_ok (op : RegionOp) (used : list Object) : bool :=
  match op with
  | RAlloc cur sz => has_pool nc cur && (2 <=? sz) && (sz <=? 2 ^ 24)
  | RFree cur p ac sz => has_pool nc cur && bool_decide (mkObj p ac sz ∈ used)
  | RQuiesce cur => has_pool nc cur
  end.
Fixpoint region_legal (ops : list RegionOp) (x : list Object * DataRegion) : bool :=
  match ops with
  | [] => true
  | op :: ops => op_ok op x.1 && match region_step op x with Ok x => region_legal ops x | Err _ => true end
  end.

Definition used_ok (g : Ghost) (L : Z → Ix → list Z) (used : list Object) : Prop :=
  NoDup (o_ptr <$> used) ∧ ∀ u, u ∈ used → 2 ≤ o_size u ≤ 2 ^ 24 ∧ in_use g L (SizeToClass (o_size u)) (o_core u) (o_ptr u).

Lemma region_step_ok op g L used st : region_inv g L st → used_ok g L used → op_ok op used = true →
  region_step op (used, st) = Err Aborted ∨
  ∃ used' st' g' L', region_step op (used, st) = Ok (used', st') ∧ region_inv g' L' st' ∧ used_ok g' L' used'.
Proof.
  intros Hi [Hnd Hu] Hop. destruct op as [cur sz|cur p ac sz|cur]; cbn [region_step op_ok fst snd] in *; unfold has_pool in Hop.
  - zprop. destruct (SizeToClass_fits sz ltac:(lia)) as [Hk _]. unfold Region_Alloc. rewrite (proj2 (Z.ltb_ge (SizeToClass sz) 0)) by lia.
    destruct (ParallelSlabPool_Alloc_ok g L st (SizeToClass sz) cur Hi Hk ltac:(lia)) as [->|(p & st' & g' & L' & -> & Hi' & Hp & Hn & Hadd)]; [by left|].
    cbn [mbind result_bind]. rewrite (proj2 (Z.eqb_neq p 0)) by done. right. eexists _, st', g', L'. split; [done|]. split; [done|]. split.
    + cbn. apply NoDup_cons. split; [|done]. intros (u & -> & Hin)%list_elem_of_fmap. destruct (Hu u Hin) as [_ Hin']. by apply Hn in Hin'.
    + intros u [->|Hin]%elem_of_cons; cbn; [split; [lia|]; apply Hadd; by right|]. destruct (Hu u Hin) as [? Hin']. split; [done|]. apply Hadd. by left.
  - zprop. match goal with H : bool_decide _ = true |- _ => apply bool_decide_eq_true in H as Hin end. destruct (Hu _ Hin) as [Hsz Huse]. cbn in Hsz, Huse.
    unfold Region_Free. destruct (SizeToClass_fits sz Hsz) as [Hk _]. rewrite (proj2 (Z.ltb_ge (SizeToClass sz) 0)) by lia.
    assert (Hp0 : p ≠ 0) by (destruct Huse as (_ & _ & Ha & _); by destruct (allocated_valid _ _ _ _ (rv_heap _ _ _ Hi) Ha)). rewrite (proj2 (Z.eqb_neq p 0)) by done.
    destruct (ParallelSlabPool_Free_ok g L st (SizeToClass sz) cur ac p Hi ltac:(lia) Huse) as (st' & g' & L' & -> & Hi' & Hd). cbn [mbind result_bind].
    right. eexists _, st', g', L'. split; [done|]. split; [done|]. split.
    + eapply sublist_NoDup; [exact Hnd|]. apply fmap_sublist, sublist_filter.
    + intros u [Hne Hin']%list_elem_of_filter. destruct (Hu u Hin') as [? Hu']. split; [done|]. apply Hd. split; [done|]. intros E. apply Hne.
      apply list_elem_of_lookup in Hin as [i Hi0], Hin' as [j Hj0]. assert (i = j) as ->; [|congruence].
      eapply (NoDup_lookup (o_ptr <$> used)); [done|rewrite list_lookup_fmap, Hi0; done|rewrite list_lookup_fmap, Hj0; cbn; congruence].
  - zprop. destruct (Region_Quiescence_ok g L st cur Hi ltac:(lia)) as (st' & L' & -> & Hi' & Hs). right. cbn [mbind result_bind].
    exists used, st', g, L'. split; [done|]. split; [done|]. split; [done|]. intros u Hin. destruct (Hu u Hin). split; [done|]. by apply Hs.
Qed.


End RegionProps.

(** ** Witness *)

(** the configuration of the region's pools is one that slab pools accept *)
Lemma region_conf_ok N nc caps pid : 0 < N → nc ≤ kNrCorePerNode * N → (∀ k, 0 ≤ caps k ≤ 2 ^ 31) →
  8 ≤ chunk_size (region_conf nc caps pid) ≤ M_ 32 ∧ 0 ≤ nr_buffer (region_conf nc caps pid) < 2 ^ 32 - 1 ∧ 0 ≤ numa_node (region_conf nc caps pid) < N.
Proof.
  intros HN Hn Hc. unfold region_conf. set (k := pid / kMaxNrPools). destruct ((0 <=? k) && (k <? kMaxPools) && (pid mod kMaxNrPools <? nc)) eqn:E; cbn [chunk_size nr_buffer numa_node].
  2: { split; [done|lia]. }
  zprop. unfold kMaxPools in *. unfold class_chunk_size. rewrite Z.shiftl_1_l. assert (H5 : 2 ^ 5 ≤ 2 ^ (k + 5) ≤ 2 ^ 24) by (split; apply Z.pow_le_mono_r; lia).
  change (M_ 32) with (2 ^ 25). split; [lia|]. specialize (Hc k). pose proof (Z.mod_pos_bound pid kMaxNrPools ltac:(done)). unfold kNrCorePerNode in *. split.
  - assert (HP : 2 ^ 21 ≤ PageSize (2 ^ (k + 5)) ∧ 2 ^ (k + 5) * 4 ≤ PageSize (2 ^ (k + 5))).
    { unfold PageSize. change (K_ 512) with (2 ^ 19). change kLargeSlabPageSize with (2 ^ 26). change kSlabPageSize with (2 ^ 21). destruct (Z.leb_spec (2 ^ 19) (2 ^ (k + 5))); lia. }
    rewrite u64_id by nia. assert (0 ≤ caps k * 2 ^ (k + 5) / PageSize (2 ^ (k + 5)) < 2 ^ 31 + 1); [|rewrite u32_id; lia].
    split; [apply Z.div_pos; nia|apply Z.div_lt_upper_bound; nia].
  - split; [apply Z.div_pos; lia|]. apply Z.div_lt_upper_bound; lia.
Qed.

Module RegionSamples.
Definition addr (_ : Z) : Z := 2 ^ 40.
Definition nc : Z := 2.
Definition caps (k : Z) : Z := if k =? 13 then 8 else 0.
Definition lay : Z → Layout := init_layout addr 1 (M_ 256).
Lemma env : heap_env 1 lay (region_conf nc caps) (fun _ => init_nr_pages (M_ 256 / 1)).
Proof.
  apply (InitSlab_env addr 1 (M_ 256) (region_conf nc caps) 4); [done|done|done|lia|].
  intros pid. apply region_conf_ok; [lia|done|]. intros k. unfold caps. destruct (k =? 13); lia.
Qed.
Definition st0 : result DataRegion := InitPools 1 nc caps (seqZ 0 kMaxPools) (mkDR (init_heap addr 1 (M_ 256) (fun _ => 0) (fun _ => any_pool)) (fun _ => new_lists)).
Definition st : DataRegion := match st0 with Ok s => s | Err _ => mkDR (init_heap addr 1 (M_ 256) (fun _ => 0) (fun _ => any_pool)) (fun _ => new_lists) end.
Lemma st_ok : ∃ g, region_inv 1 lay nc caps (fun _ => init_nr_pages (M_ 256 / 1)) g (fun _ _ => []) st ∧ ∀ k c a, ¬ in_use lay nc caps g (fun _ _ => []) k c a.
Proof.
  pose proof (InitSlab_inv addr 1 (M_ 256) (region_conf nc caps)) as Hi.
  destruct (Hi (fun pid => region_conf_ok 1 nc caps pid ltac:(lia) ltac:(done) ltac:(intros k; unfold caps; destruct (k =? 13); lia)) (fun _ => 0) (fun _ => any_pool)) as (H1 & H2 & _).
  destruct (InitPools_ok 1 lay nc caps _ env ltac:(done) _ _ (seqZ 0 kMaxPools) H1 H2) as [E|(s & g & E & Hs & Hu)]; [done|apply NoDup_seqZ|intros k Hk%elem_of_seqZ; lia|..].
  - exfalso. assert (Hok : match st0 with Ok _ => true | Err _ => false end = true) by (vm_compute; reflexivity). unfold st0 in Hok. rewrite E in Hok. discriminate Hok.
  - exists g. unfold st, st0. rewrite E. exact (conj Hs Hu).
Qed.
(** core 1 frees an object of core 0, which gets it again after its quiescence *)
Definition base : Z := 2 ^ 40 + M_ 64.
Definition ops : list RegionOp := [RAlloc 0 200000; RAlloc 1 200000; RFree 1 base 0 200000; RAlloc 0 100000; RQuiesce 0; RAlloc 0 180000].
End RegionSamples.

