(* ===== verification/SizeCode.v ===== *)
(** Size codes of the checkpoint format (chkpt/ermia_size_encode.cc/.h).

    A size is stored in 8 bits as a small floating-point number, rounded up.
    [EncodeSize] computes the code with shifts and [__builtin_clz],
    [EncodeSizeAligned] with a binary search in the table of decoded sizes;
    [DecodeSize] is the inverse. The two encoders are shown to give the least
    code whose size is large enough. *)

From S2P Require Import Prelude.

(** * The code *)

(** the macro [B(e)] and the table built from it *)
Definition B (e : Z) : Z := 16 - Z.shiftr 15 e.
Definition DecodeTable : list Z := B <$> seqZ 0 16.

Definition DecodeSizeHelper (code : Z) : Z :=
  let E := Z.shiftr code 4 in
  let M := Z.land code 0x0f in
  u64 (Z.shiftl (M + DecodeTable.[E]) E).

(** conversion of a byte to [int8_t] *)
Definition int8_t (code : Z) : Z := if code <? 128 then code else code - 256.

Definition DecodeSize (code : Z) : Z :=
  if Z.land (code + 1) 0xf0 =? 0 then u64 (int8_t code) else DecodeSizeHelper (u8 (code + 0xff)).

Definition EFIRST (x : Z) : Z := DecodeSizeHelper (u8 (Z.shiftl x 4)).
Definition ELAST (x : Z) : Z :=
  if x =? 15 then DecodeSize 0xfe else DecodeSizeHelper (u8 (Z.shiftl x 4 + 0xf)).

(** the lambda [doit]; its [int] result is returned as a byte *)
Definition doit (sz e : Z) : Z :=
  let sz := u64 (sz + (Z.shiftl 1 e - 1)) in
  let b := u8 (16 - Z.shiftr 15 e) in
  let m := u8 (Z.shiftr sz e) in
  u8 (Z.shiftl e 4 + m - b + 1).

Definition EncodeSize (sz : Z) : Z :=
  if sz <=? ELAST 2 then
    if sz <=? ELAST 1 then
      if sz <? EFIRST 1 then u8 sz else doit sz 1
    else if sz <=? EFIRST 2 then Z.shiftl 2 4 + 1 else doit sz 2
  else if sz <=? ELAST 3 then
    if sz <=? EFIRST 3 then Z.shiftl 3 4 + 1 else doit sz 3
  else if sz <=? EFIRST 4 then Z.shiftl 4 4 + 1
  else if sz <=? ELAST 15 then
    let lz := clz32 (u32 sz) in
    let e := u8 (27 - lz) in
    let sz := u64 (sz + (Z.shiftl 1 e - 1)) in
    let lz := clz32 (u32 sz) in
    let e := u8 (27 - lz) in
    let m := u8 (Z.shiftr sz e - 16) in
    u8 (Z.shiftl e 4 + m + 1)
  else u8 (-1).

(** the table [_EncodeSizeTab], one decoded size per code *)
Definition EncodeSizeTab : list Z := DecodeSize <$> seqZ 0 256.

(** the [int] alignment is converted to [size_t] *)
Definition AlignDown (val amount : Z) : Z := Z.land val (u64 (- amount)).
Definition AlignUp (val amount : Z) : Z := AlignDown (u64 (u64 (val + amount) - 1)) amount.

(** the binary search of [EncodeSizeAligned]; [None] is a loop that has not
    ended within the fuel *)
Fixpoint search_tab (fuel : nat) (x lo hi : Z) : option Z :=
  match fuel with
  | O => None
  | S fuel =>
      if lo <? hi then
        let mid := (lo + hi) / 2 in
        if x <=? EncodeSizeTab.[mid] then search_tab fuel x lo mid
        else search_tab fuel x (mid + 1) hi
      else Some lo
  end.

(** the code and the updated size *)
Definition EncodeSizeAligned (size align_bits : Z) : option (Z * Z) :=
  let x := Z.shiftr (AlignUp size (Z.shiftl 1 align_bits)) align_bits in
  lo ← search_tab 9 x 0 0xff;
  Some (u8 lo, u64 (Z.shiftl (EncodeSizeTab.[lo]) align_bits)).

Definition DecodeSizeAligned (code align_bits : Z) : Z := u64 (Z.shiftl (DecodeSize code) align_bits).

Definition kInvalidSizeCode : Z := 0xff.
Definition kMaxEncodableSize : Z := 950272.

(** * Specification: the least code that is large enough *)

Record least_code (x c : Z) : Prop := {
  lc_range : 0 ≤ c ≤ 254;
  lc_enough : x ≤ DecodeSize c;
  lc_least : ∀ c', 0 ≤ c' < c → DecodeSize c' < x }.

(** checks over all the bytes *)
Lemma byte_check (P : Z → bool) n :
  forallb P (seqZ 0 n) = true → ∀ c, 0 ≤ c < n → P c = true.
Proof. intros H c Hc. rewrite forallb_forall in H. apply H, list_elem_of_In, elem_of_seqZ. lia. Qed.

Lemma decode_step c : 0 ≤ c < 255 → DecodeSize c < DecodeSize (c + 1).
Proof.
  intros Hc. apply Z.ltb_lt.
  apply (byte_check (fun c => DecodeSize c <? DecodeSize (c + 1)) 255); [vm_compute; done|lia].
Qed.

Lemma decode_lt c d : 0 ≤ c → c < d → d ≤ 255 → DecodeSize c < DecodeSize d.
Proof.
  intros Hc Hcd Hd. replace d with (c + 1 + (d - c - 1)) in * by lia.
  assert (Hk : 0 ≤ d - c - 1) by lia. revert Hd. clear Hcd. revert Hk. generalize (d - c - 1).
  apply (natlike_ind (fun k => c + 1 + k ≤ 255 → _)).
  - intros. rewrite Z.add_0_r. apply decode_step. lia.
  - intros k Hk IH Hle. pose proof (decode_step (c + 1 + k) ltac:(lia)).
    replace (c + 1 + Z.succ k) with (c + 1 + k + 1) by lia. lia.
Qed.

Lemma decode_le c d : 0 ≤ c → c ≤ d → d ≤ 255 → DecodeSize c ≤ DecodeSize d.
Proof. intros. destruct (Z.eq_dec c d) as [->|]; [lia|]. apply Z.lt_le_incl, decode_lt; lia. Qed.

(** the size of a code with a mantissa: exponent [e], [M] steps above the first *)
Lemma decode_em e M :
  4 ≤ e ≤ 15 → 0 ≤ M ≤ 15 → 16 * e + M ≤ 253 → DecodeSize (16 * e + M + 1) = (M + 16) * 2 ^ e.
Proof.
  intros He HM Hc.
  assert (H := byte_check (fun c => (c <? 64) || (DecodeSize (c + 1) =? (c mod 16 + 16) * 2 ^ (c / 16)))
                 254 ltac:(vm_compute; reflexivity) (16 * e + M) ltac:(lia)).
  cbn beta in H. apply orb_true_iff in H as [H|H]; zprop; [lia|]. rewrite H.
  replace ((16 * e + M) / 16) with e; [|apply Z.div_unique with M; lia].
  by replace ((16 * e + M) mod 16) with M; [|apply Z.mod_unique with e; lia].
Qed.

Lemma least_code_intro x c :
  0 ≤ c ≤ 254 → x ≤ DecodeSize c → c = 0 ∨ DecodeSize (c - 1) < x → least_code x c.
Proof.
  intros Hc Hx Hl. split; [done|done|]. intros c' Hc'. destruct Hl as [->|Hl]; [lia|].
  pose proof (decode_le c' (c - 1)). lia.
Qed.

Lemma least_code_unique x c d : least_code x c → least_code x d → c = d.
Proof.
  intros [Hc He Hl] [Hd He' Hl']. destruct (Z.lt_trichotomy c d) as [H|[H|H]]; [|done|].
  - specialize (Hl' c). lia.
  - specialize (Hl d). lia.
Qed.

Lemma least_code_mono x y c d : least_code x c → least_code y d → x ≤ y → c ≤ d.
Proof.
  intros [Hc He Hl] [Hd He' Hl'] Hxy. apply Z.nlt_ge. intros H. specialize (Hl d). lia.
Qed.

Lemma least_code_decode c : 0 ≤ c ≤ 254 → least_code (DecodeSize c) c.
Proof.
  intros Hc. split; [done|lia|]. intros c' Hc'. apply decode_lt; lia.
Qed.

(** * The computed encoder *)

Lemma encode_small x : 0 ≤ x ≤ 256 → least_code x (EncodeSize x).
Proof.
  intros Hx.
  assert (H := byte_check (fun x => let c := EncodeSize x in (0 <=? c) && (c <=? 254) &&
    (x <=? DecodeSize c) && ((c =? 0) || (DecodeSize (c - 1) <? x))) 257
    ltac:(vm_compute; reflexivity) x ltac:(lia)).
  cbv beta zeta in H. zprop. apply least_code_intro; [lia..|].
  match goal with H : _ || _ = true |- _ => apply orb_true_iff in H as [H|H]; zprop; [by left|by right] end.
Qed.

(** the last branch, with the two normalisations unfolded *)
Definition encode_large (x : Z) : Z :=
  let y := x + (2 ^ (Z.log2 x - 4) - 1) in
  let e := Z.log2 y - 4 in 16 * e + (y / 2 ^ e - 16) + 1.

Lemma log2_range x a : 0 ≤ a → 2 ^ a ≤ x < 2 ^ (a + 1) → Z.log2 x = a.
Proof. intros ? H. apply Z.log2_unique; [done|]. by rewrite <- Z.add_1_r. Qed.

Lemma pow2_4 e : 0 ≤ e → 2 ^ (e + 4) = 16 * 2 ^ e.
Proof. intros. rewrite Z.pow_add_r by lia. lia. Qed.

(** the exponent before and after rounding up *)
Lemma large_exponent x :
  256 < x ≤ kMaxEncodableSize →
  ∃ e, 4 ≤ e ≤ 15 ∧ Z.log2 x = e + 4 ∧ 16 * 2 ^ e ≤ x < 32 * 2 ^ e.
Proof.
  intros Hx. unfold kMaxEncodableSize in Hx. exists (Z.log2 x - 4).
  pose proof (Z.log2_spec x ltac:(lia)) as Hs.
  assert (8 ≤ Z.log2 x) by (apply (Z.log2_le_mono 256); lia).
  assert (Z.log2 x ≤ 19) by (apply (Z.log2_le_mono x 950272); lia).
  pose proof (pow2_4 (Z.log2 x - 4) ltac:(lia)) as Hp.
  replace (Z.log2 x - 4 + 4) with (Z.log2 x) in * by lia.
  rewrite Z.pow_succ_r in Hs by lia. repeat split; lia.
Qed.

(** rounding up keeps the exponent *)
Lemma large_same x e m :
  4 ≤ e ≤ 15 → 256 < x → 16 * 2 ^ e ≤ x → (e = 15 → x ≤ 29 * 2 ^ e) →
  x + (2 ^ e - 1) < 32 * 2 ^ e → m * 2 ^ e ≤ x + (2 ^ e - 1) < (m + 1) * 2 ^ e →
  least_code x (16 * e + (m - 16) + 1).
Proof.
  intros He Hx Hlo Hmax Hhi Hm. assert (Hp : 0 < 2 ^ e) by lia. assert (16 ≤ m < 32) by nia.
  assert (16 * e + (m - 16) ≤ 253) by (destruct (Z.eq_dec e 15) as [E|]; [specialize (Hmax E); nia|lia]).
  apply least_code_intro; [lia|rewrite decode_em by lia; nia|right].
  destruct (Z.eq_dec m 16) as [Em|].
  - assert (e ≠ 4) by (intros ->; nia).
    replace (16 * e + (m - 16) + 1 - 1) with (16 * (e - 1) + 15 + 1) by lia.
    rewrite decode_em by lia. replace (2 ^ e) with (2 * 2 ^ (e - 1)) in *; [nia|].
    rewrite <- Z.pow_succ_r by lia. f_equal. lia.
  - replace (16 * e + (m - 16) + 1 - 1) with (16 * e + (m - 17) + 1) by lia.
    rewrite decode_em by lia. nia.
Qed.

(** rounding up carries into the exponent *)
Lemma large_carry x e :
  4 ≤ e ≤ 14 → 31 * 2 ^ e < x → x ≤ 32 * 2 ^ e → least_code x (16 * (e + 1) + (16 - 16) + 1).
Proof.
  intros He Hlo Hhi. assert (Hp : 2 ^ (e + 1) = 2 * 2 ^ e) by (rewrite Z.pow_add_r by lia; lia).
  apply least_code_intro; [lia| |right].
  - replace (16 * (e + 1) + (16 - 16) + 1) with (16 * (e + 1) + 0 + 1) by lia.
    rewrite decode_em by lia. lia.
  - replace (16 * (e + 1) + (16 - 16) + 1 - 1) with (16 * e + 15 + 1) by lia.
    rewrite decode_em by lia. lia.
Qed.

Lemma encode_large_least x : 256 < x ≤ kMaxEncodableSize → least_code x (encode_large x).
Proof.
  intros Hx. destruct (large_exponent x Hx) as (e & He & Hlog & Hlo & Hhi).
  unfold encode_large. rewrite Hlog. replace (e + 4 - 4) with e by lia.
  assert (Hp : 0 < 2 ^ e) by lia.
  assert (Hmax : e = 15 → x ≤ 29 * 2 ^ e) by (intros ->; unfold kMaxEncodableSize in Hx; lia).
  set (y := x + (2 ^ e - 1)). destruct (Z_lt_le_dec y (32 * 2 ^ e)) as [Hy|Hy].
  - assert (Z.log2 y = e + 4) as ->.
    { apply log2_range; [lia|]. replace (e + 4 + 1) with (e + 1 + 4) by lia.
      rewrite !pow2_4, Z.pow_add_r by lia. lia. }
    replace (e + 4 - 4) with e by lia. apply large_same; [lia..|].
    pose proof (Z.mul_div_le y (2 ^ e) Hp). pose proof (Z.mul_succ_div_gt y (2 ^ e) Hp). lia.
  - assert (e ≠ 15) by (intros E; specialize (Hmax E); lia).
    assert (Hp1 : 2 ^ (e + 1) = 2 * 2 ^ e) by (rewrite Z.pow_add_r by lia; lia).
    assert (Z.log2 y = e + 1 + 4) as ->.
    { apply log2_range; [lia|]. replace (e + 1 + 4 + 1) with (e + 1 + 1 + 4) by lia.
      rewrite !pow2_4, (Z.pow_add_r 2 (e + 1)), Hp1 by lia. lia. }
    replace (e + 1 + 4 - 4) with (e + 1) by lia.
    assert (y / 2 ^ (e + 1) = 16) as ->.
    { symmetry. apply Z.div_unique with (y - 16 * 2 ^ (e + 1)); rewrite Hp1; lia. }
    apply large_carry; lia.
Qed.

Lemma encode_large_eq x : 256 < x ≤ kMaxEncodableSize → EncodeSize x = encode_large x.
Proof.
  intros Hx. pose proof (lc_range _ _ (encode_large_least x Hx)) as Hr. revert Hr.
  destruct (large_exponent x Hx) as (e & He & Hlog & Hlo & Hhi).
  assert (Hp : 2 ^ e ≤ 2 ^ 15) by (apply Z.pow_le_mono_r; lia). unfold kMaxEncodableSize in Hx.
  unfold EncodeSize, encode_large, clz32.
  change (ELAST 2) with 112. change (ELAST 3) with 240. change (EFIRST 4) with 256. change (ELAST 15) with 950272.
  rewrite (proj2 (Z.leb_gt x 112)), (proj2 (Z.leb_gt x 240)), (proj2 (Z.leb_gt x 256)) by lia.
  rewrite (proj2 (Z.leb_le x 950272)) by lia. cbv zeta.
  rewrite (u32_id x), Hlog by lia. replace (27 - (31 - (e + 4))) with e by lia.
  replace (e + 4 - 4) with e by lia. rewrite (u8_id e), Z.shiftl_1_l by lia.
  rewrite (u64_id (x + (2 ^ e - 1))), (u32_id (x + (2 ^ e - 1))) by lia.
  set (y := x + (2 ^ e - 1)). replace (27 - (31 - Z.log2 y)) with (Z.log2 y - 4) by lia.
  assert (Hly : e + 4 ≤ Z.log2 y ≤ e + 5).
  { split; [rewrite <- Hlog; apply Z.log2_le_mono; lia|].
    cut (Z.log2 y < e + 6); [lia|]. apply Z.log2_lt_pow2; [lia|].
    replace (e + 6) with (e + 2 + 4) by lia. rewrite pow2_4, Z.pow_add_r by lia. lia. }
  rewrite (u8_id (Z.log2 y - 4)), Z.shiftr_div_pow2, Z.shiftl_mul_pow2 by lia.
  intros Hr. pose proof (Z.log2_spec y ltac:(lia)) as [Hy1 Hy2].
  assert (Hd : 16 ≤ y / 2 ^ (Z.log2 y - 4) < 32).
  { replace (Z.log2 y) with (Z.log2 y - 4 + 4) in Hy1 by lia.
    replace (Z.succ (Z.log2 y)) with (Z.log2 y - 4 + 1 + 4) in Hy2 by lia.
    rewrite pow2_4 in Hy1, Hy2 by lia. rewrite Z.pow_add_r in Hy2 by lia.
    split; [apply Z.div_le_lower_bound|apply Z.div_lt_upper_bound]; lia. }
  rewrite (u8_id (_ - 16)) by lia. rewrite u8_id; lia.
Qed.

Lemma encode_least x : 0 ≤ x ≤ kMaxEncodableSize → least_code x (EncodeSize x).
Proof.
  intros Hx. destruct (Z_le_gt_dec x 256); [apply encode_small; lia|].
  rewrite encode_large_eq by lia. apply encode_large_least. lia.
Qed.

Lemma encode_too_large x : kMaxEncodableSize < x → EncodeSize x = kInvalidSizeCode.
Proof.
  unfold kMaxEncodableSize. intros Hx. unfold EncodeSize. change (ELAST 2) with 112. change (ELAST 3) with 240.
  change (EFIRST 4) with 256. change (ELAST 15) with 950272.
  rewrite (proj2 (Z.leb_gt x 112)), (proj2 (Z.leb_gt x 240)), (proj2 (Z.leb_gt x 256)), (proj2 (Z.leb_gt x 950272)) by lia.
  done.
Qed.

(** the gap between two codes is at most a sixteenth *)
Lemma decode_gap c : 0 < c ≤ 254 → 16 * (DecodeSize c - (DecodeSize (c - 1) + 1)) ≤ DecodeSize (c - 1) + 1.
Proof.
  intros Hc. apply Z.leb_le. replace c with (c - 1 + 1) at 1 by lia.
  apply (byte_check (fun d => 16 * (DecodeSize (d + 1) - (DecodeSize d + 1)) <=? DecodeSize d + 1) 254); [vm_compute; done|lia].
Qed.

Lemma least_code_error x c : least_code x c → 0 ≤ x → 16 * (DecodeSize c - x) ≤ x.
Proof.
  intros [Hc He Hl] Hx. destruct (Z.eq_dec c 0) as [->|].
  - change (DecodeSize 0) with 0 in *. lia.
  - pose proof (decode_gap c ltac:(lia)). specialize (Hl (c - 1) ltac:(lia)). lia.
Qed.

(** * The table-based encoder *)

Lemma tab_at c : 0 ≤ c ≤ 255 → EncodeSizeTab.[c] = DecodeSize c.
Proof.
  intros. unfold EncodeSizeTab. apply at_lookup.
  rewrite list_lookup_fmap, lookup_seqZ_lt by lia. cbn. f_equal. f_equal. lia.
Qed.

Lemma search_tab_least fuel x lo hi :
  0 ≤ lo ≤ hi → hi ≤ 255 → hi - lo < 2 ^ Z.of_nat fuel → 0 ≤ x →
  x ≤ DecodeSize hi → (∀ c, 0 ≤ c < lo → DecodeSize c < x) →
  ∃ c, search_tab (S fuel) x lo hi = Some c ∧ lo ≤ c ≤ hi ∧ x ≤ DecodeSize c ∧
    ∀ c', 0 ≤ c' < c → DecodeSize c' < x.
Proof.
  revert lo hi. induction fuel as [|fuel IH]; intros lo hi Hlo Hhi Hf Hx Hle Hlt; cbn [search_tab].
  - change (2 ^ Z.of_nat 0) with 1 in Hf. replace hi with lo in * by lia. rewrite Z.ltb_irrefl.
    exists lo. repeat split; auto; lia.
  - destruct (Z.ltb_spec lo hi) as [H|H].
    + rewrite Nat2Z.inj_succ, Z.pow_succ_r in Hf by lia.
      pose proof (Z.div_mod (lo + hi) 2 ltac:(lia)) as Hd. pose proof (Z.mod_pos_bound (lo + hi) 2 ltac:(lia)).
      set (mid := (lo + hi) / 2) in *. rewrite tab_at by lia.
      destruct (Z.leb_spec x (DecodeSize mid)) as [Hm|Hm].
      * destruct (IH lo mid) as (c & E & ? & ? & ?); try lia; [done|]. exists c. repeat split; auto; lia.
      * destruct (IH (mid + 1) hi) as (c & E & ? & ? & ?); try lia;
          [|exists c; repeat split; auto; lia].
        intros c Hc. pose proof (decode_le c mid). lia.
    + replace hi with lo in * by lia. exists lo. repeat split; auto; lia.
Qed.

Lemma search_tab_code x : 0 ≤ x ≤ kMaxEncodableSize → search_tab 9 x 0 0xff = Some (EncodeSize x).
Proof.
  intros Hx. destruct (search_tab_least 8 x 0 0xff) as (c & E & Hc & He & Hl); try lia.
  - change (DecodeSize 255) with (2 ^ 64 - 1). unfold kMaxEncodableSize in Hx. lia.
  - rewrite E. f_equal. apply (least_code_unique x); [|by apply encode_least]. split; [|done..].
    assert (c ≠ 255); [|lia]. intros ->. specialize (Hl 254 ltac:(lia)).
    change (DecodeSize 254) with kMaxEncodableSize in Hl. lia.
Qed.

Lemma search_tab_max x : kMaxEncodableSize < x < 2 ^ 64 → search_tab 9 x 0 0xff = Some kInvalidSizeCode.
Proof.
  intros Hx. destruct (search_tab_least 8 x 0 0xff) as (c & E & Hc & He & Hl); try lia.
  - unfold kMaxEncodableSize in Hx. lia.
  - change (DecodeSize 255) with (2 ^ 64 - 1). lia.
  - rewrite E. f_equal. unfold kInvalidSizeCode. destruct (Z.eq_dec c 255) as [->|]; [done|].
    pose proof (decode_le c 254 ltac:(lia) ltac:(lia)) as Hd. change (DecodeSize 254) with kMaxEncodableSize in Hd. lia.
Qed.

(** rounding up to a multiple of [2 ^ a] and dividing by it *)
Lemma alignup_shift size a :
  0 ≤ a < 31 → 0 ≤ size → size + 2 ^ a < 2 ^ 64 →
  Z.shiftr (AlignUp size (Z.shiftl 1 a)) a = (size + 2 ^ a - 1) / 2 ^ a.
Proof.
  intros Ha Hs Ho. assert (Hp : 0 < 2 ^ a) by lia. assert (2 ^ a ≤ 2 ^ 30) by (apply Z.pow_le_mono_r; lia).
  unfold AlignUp, AlignDown. rewrite Z.shiftl_1_l, !u64_id by (rewrite ?u64_id; lia).
  rewrite Z.shiftr_land. replace (Z.shiftr (u64 (- 2 ^ a)) a) with (Z.ones (64 - a)).
  - rewrite Z.land_ones, Z.shiftr_div_pow2 by lia. apply Z.mod_small. split; [apply Z.div_pos; lia|].
    apply Z.div_lt_upper_bound; [lia|]. rewrite <- Z.pow_add_r by lia. replace (a + (64 - a)) with 64 by lia. lia.
  - unfold u64. rewrite Z.shiftr_div_pow2, Z.ones_equiv by lia.
    replace ((- 2 ^ a) mod 2 ^ 64) with (2 ^ 64 - 2 ^ a) by (apply Z.mod_unique with (-1); lia).
    replace (2 ^ 64) with (2 ^ (64 - a) * 2 ^ a) by (rewrite <- Z.pow_add_r by lia; f_equal; lia).
    rewrite <- (Z.mul_1_l (2 ^ a)) at 2. rewrite <- Z.mul_sub_distr_r, Z.div_mul by lia. lia.
Qed.

(** * Properties *)

(** Size codes are a faithful, order-preserving rounding: every size up to
    [kMaxEncodableSize] gets a code other than [kInvalidSizeCode] whose decoded
    size is at least the size, exceeds it by at most a sixteenth (6.25%), and is
    the smallest representable one; a larger size never gets a smaller code;
    re-encoding a decoded size gives the code back; every size above the
    maximum gets [kInvalidSizeCode]. *)
Theorem size_code_correct :
  (∀ sz, 0 ≤ sz ≤ kMaxEncodableSize →
     let c := EncodeSize sz in
     0 ≤ c < kInvalidSizeCode ∧ sz ≤ DecodeSize c ∧ 16 * (DecodeSize c - sz) ≤ sz ∧
     (∀ c', 0 ≤ c' < c → DecodeSize c' < sz)) ∧
  (∀ sz sz', 0 ≤ sz ≤ sz' → sz' ≤ kMaxEncodableSize → EncodeSize sz ≤ EncodeSize sz') ∧
  (∀ c, 0 ≤ c < kInvalidSizeCode → EncodeSize (DecodeSize c) = c) ∧
  (∀ sz, kMaxEncodableSize < sz → EncodeSize sz = kInvalidSizeCode).
Proof.
  split; [|split; [|split; [|apply encode_too_large]]].
  - intros sz Hsz c. pose proof (encode_least sz Hsz) as H. pose proof (least_code_error _ _ H ltac:(lia)).
    destruct H as [Hc He Hl]. unfold kInvalidSizeCode, c. repeat split; auto; lia.
  - intros sz sz' H H'. apply (least_code_mono sz sz'); [apply encode_least; lia..|lia].
  - unfold kInvalidSizeCode. intros c Hc. pose proof (decode_le c 254 ltac:(lia) ltac:(lia) ltac:(lia)) as Hle.
    pose proof (decode_le 0 c ltac:(lia) ltac:(lia) ltac:(lia)) as Hge.
    change (DecodeSize 254) with kMaxEncodableSize in Hle. change (DecodeSize 0) with 0 in Hge.
    apply (least_code_unique (DecodeSize c)); [apply encode_least; lia|apply least_code_decode; lia].
Qed.

Lemma size_code_correct_witness : EncodeSize 1000 = 0x61 ∧ 1000 ≤ DecodeSize 0x61.
Proof.
  split; [reflexivity|]. destruct size_code_correct as (H & _ & _ & _).
  destruct (H 1000) as (_ & Hle & _); [unfold kMaxEncodableSize; lia|exact Hle].
Defined.

(** The table-based encoder agrees with the computed one: for a size below
    [2 ^ 64] (after rounding), [EncodeSizeAligned] ends its binary search, returns
    the code that [EncodeSize] gives to the number of [2 ^ align_bits] units the
    size takes, and updates the size to the decoded number of bytes, which is
    large enough to hold it whenever the number of units is encodable. *)
Theorem encode_aligned_equiv size align_bits :
  0 ≤ align_bits ≤ 30 → 0 ≤ size → size + 2 ^ align_bits < 2 ^ 64 →
  let units := (size + 2 ^ align_bits - 1) / 2 ^ align_bits in
  ∃ size', EncodeSizeAligned size align_bits = Some (EncodeSize units, size') ∧
    size' = DecodeSizeAligned (EncodeSize units) align_bits ∧
    (units ≤ kMaxEncodableSize → size ≤ size').
Proof.
  intros Ha Hs Ho units. assert (Hp : 0 < 2 ^ align_bits) by lia.
  assert (Hu : 0 ≤ units < 2 ^ 64).
  { split; [apply Z.div_pos; lia|]. apply Z.div_lt_upper_bound; [lia|]. nia. }
  assert (Hf : search_tab 9 units 0 0xff = Some (EncodeSize units) ∧ 0 ≤ EncodeSize units ≤ 255).
  { destruct (Z_le_gt_dec units kMaxEncodableSize).
    - pose proof (encode_least units ltac:(lia)) as [? _ _]. split; [apply search_tab_code; lia|lia].
    - rewrite encode_too_large by lia. split; [apply search_tab_max; lia|done]. }
  destruct Hf as [Hf Hc]. unfold EncodeSizeAligned. rewrite alignup_shift by lia. fold units.
  rewrite Hf. cbn. rewrite (u8_id (EncodeSize units)), tab_at by lia. eexists. split; [done|]. split; [done|].
  intros Hm. pose proof (encode_least units ltac:(lia)) as [Hc' He _].
  pose proof (decode_le (EncodeSize units) 254 ltac:(lia) ltac:(lia) ltac:(lia)) as Hd.
  change (DecodeSize 254) with 950272 in Hd.
  assert (2 ^ align_bits ≤ 2 ^ 30) by (apply Z.pow_le_mono_r; lia).
  rewrite Z.shiftl_mul_pow2, u64_id by nia.
  pose proof (Z.mul_succ_div_gt (size + 2 ^ align_bits - 1) (2 ^ align_bits) Hp). fold units in H0. nia.
Qed.

Lemma encode_aligned_equiv_witness :
  ∃ size', EncodeSizeAligned 1000 4 = Some (EncodeSize 63, size') ∧ 1000 ≤ size'.
Proof.
  destruct (encode_aligned_equiv 1000 4) as (size' & E & _ & H); [lia..|].
  exists size'. split; [exact E|]. apply H. vm_compute. discriminate.
Defined.

(** The multiples [k * 2^i] ([0 < k < 32], [0 <= i < 20], up to the maximum) that
    are not represented exactly: besides the seven listed in the header, every
    odd [k] from 17 on with [i = 0]. *)
Lemma inexact_multiples :
  filter (fun p => p.1 * 2 ^ p.2 ≤ kMaxEncodableSize ∧ DecodeSize (EncodeSize (p.1 * 2 ^ p.2)) ≠ p.1 * 2 ^ p.2)
    (k ← seqZ 1 31; i ← seqZ 0 20; [(k, i)]) =
  [(17, 0); (19, 0); (21, 0); (23, 0); (25, 0); (25, 1); (27, 0); (27, 1); (29, 0); (29, 1); (29, 2);
   (31, 0); (31, 1); (31, 2); (31, 3)].
Proof. vm_compute. reflexivity. Qed.
