(* ===== verification/PWVGraph.v ===== *)
(** The dependency graph of piecewise-visibility execution (pwv_graph.cc/.h).

    Every transaction of an epoch is a node; its edges are the resources (rows)
    it uses. [Build] links, for every resource, each user to the next one in
    serial order through the word [*rc] of the row; [ActivateResources] releases
    the successors when a transaction is done with a resource, and notifies the
    scheduler of the nodes with no pending predecessor. *)

From S2P Require Import Prelude MemProps.

(** ** Data *)

(** the pointer of an edge: null, a node (by its sequence number), or the
    [0xdeadbeef] mark of an activated edge *)
Inductive EdgeTo := ENull | ENode (seq : Z) | EDead.
Record Edge := mkEdge { resource : Z; e_node : EdgeTo }.

#[export] Instance EdgeTo_eq_dec : EqDecision EdgeTo.
Proof. solve_decision. Defined.
#[export] Instance Edge_eq_dec : EqDecision Edge.
Proof. solve_decision. Defined.

Record Node := mkNode {
  in_degree : Z;
  nr_resources : Z;
  tot_resources : Z;
  mark : bool;
  sched_entry : option Z;
  on_node_free : bool;
  on_node_rvp_change : bool;
  extra : option (list Edge);
  inlined : Edge;
}.

(** [nodes] by sequence number, from 1 on *)
Record Graph := mkGraph { g_nodes : Z → Node; g_brk : Brk }.

Definition kInlineEdges : Z := 1.
Definition null_edge : Edge := mkEdge 0 ENull.
Definition zero_node : Node := mkNode 0 0 0 false None false false None null_edge.

Definition with_extra (nd : Node) (x : option (list Edge)) (i : Edge) : Node :=
  mkNode (in_degree nd) (nr_resources nd) (tot_resources nd) (mark nd) (sched_entry nd)
    (on_node_free nd) (on_node_rvp_change nd) x i.
Definition with_degree (nd : Node) (d : Z) : Node :=
  mkNode d (nr_resources nd) (tot_resources nd) (mark nd) (sched_entry nd)
    (on_node_free nd) (on_node_rvp_change nd) (extra nd) (inlined nd).
Definition with_counts (nd : Node) (nr tot : Z) (mk : bool) : Node :=
  mkNode (in_degree nd) nr tot mk (sched_entry nd)
    (on_node_free nd) (on_node_rvp_change nd) (extra nd) (inlined nd).
Definition with_sched (nd : Node) (se : option Z) (fr rv : bool) : Node :=
  mkNode (in_degree nd) (nr_resources nd) (tot_resources nd) (mark nd) se fr rv (extra nd) (inlined nd).

Definition set_node (g : Graph) (s : Z) (nd : Node) : Graph := mkGraph (<[s := nd]> (g_nodes g)) (g_brk g).

(** [Node::at]: the index is a byte; [None] is the null pointer *)
Definition node_at (nd : Node) (n : Z) : result (option Edge) :=
  let n := u8 n in
  if n <? kInlineEdges then Ok (Some (inlined nd))
  else if n <? tot_resources nd then
    match extra nd with
    | None => Err OutOfRange
    | Some l => match l !! Z.to_nat (n - kInlineEdges) with Some e => Ok (Some e) | None => Err OutOfRange end
    end
  else Ok None.

(** writing the edge that [at] points to *)
Definition set_at (nd : Node) (n : Z) (e : Edge) : result Node :=
  let n := u8 n in
  if n <? kInlineEdges then Ok (with_extra nd (extra nd) e)
  else if n <? tot_resources nd then
    match extra nd with
    | None => Err OutOfRange
    | Some l => if n - kInlineEdges <? len l
                then Ok (with_extra nd (Some (<[Z.to_nat (n - kInlineEdges) := e]> l)) (inlined nd))
                else Err OutOfRange
    end
  else Err OutOfRange.

(** dereferencing [at(n)] *)
Definition edge_at (nd : Node) (n : Z) : result Edge :=
  oe ← node_at nd n; match oe with Some e => Ok e | None => Err OutOfRange end.

(** [Node::FindEdge]: the slot of the edge found *)
Fixpoint find_from (nd : Node) (r : Z) (ix : list Z) : result (option Z) :=
  match ix with
  | [] => Ok None
  | i :: ix => e ← edge_at nd i; if resource e =? r then Ok (Some i) else find_from nd r ix
  end.
Definition FindEdge (nd : Node) (r : Z) : result (option Z) := find_from nd r (seqZ 0 (nr_resources nd)).

(** [from_serial_id] and the sequence number in it *)
Definition seq_of (sid : Z) : Z := Z.land 0x00FFFFFF (Z.shiftr sid 8).
Definition sid_of (epoch_nr seq : Z) : Z := Z.lor (u64 (Z.shiftl epoch_nr 32)) (u32 (Z.shiftl seq 8)).

Section Graph.
(** [EpochClient::g_txn_per_epoch] *)
Context (n : Z).

Definition from_serial_id (sid : Z) : result Z :=
  let seq := seq_of sid in if (1 <=? seq) && (seq <=? n) then Ok seq else Err OutOfRange.

(** [sizeof(Edge)] is 16 *)
Definition ReserveEdge (g : Graph) (sid k : Z) : result Graph :=
  s ← from_serial_id sid;
  let nd := g_nodes g s in
  _ ← abort_if (negb (nr_resources nd =? 0));
  mret (set_node g s (with_counts nd (nr_resources nd) (u16 (tot_resources nd + k)) (mark nd))).

Fixpoint add_edges (nd : Node) (s : Z) (res : list Z) : result Node :=
  match res with
  | [] => Ok nd
  | rc :: res => nd ← set_at nd s (mkEdge rc ENull); add_edges nd (s + 1) res
  end.

Definition AddResources (g : Graph) (sid : Z) (res : list Z) : result Graph :=
  q ← from_serial_id sid;
  let nd := g_nodes g q in
  let s := nr_resources nd in
  '(nd, b) ←
    (if (kInlineEdges <? tot_resources nd) && bool_decide (extra nd = None) then
       '(_, b) ← Brk_Alloc (g_brk g) (16 * (tot_resources nd - kInlineEdges));
       Ok (with_extra nd (Some (replicate (Z.to_nat (tot_resources nd - kInlineEdges)) null_edge)) (inlined nd), b)
     else Ok (nd, g_brk g));
  let nr := u16 (nr_resources nd + len res) in
  let nd := with_counts nd nr (tot_resources nd) (mark nd) in
  _ ← abort_if (tot_resources nd <? nr);
  nd ← add_edges nd s res;
  mret (mkGraph (<[q := with_counts nd (nr_resources nd) (tot_resources nd) true]> (g_nodes g)) b).

(** the listener registrations *)
Definition RegisterSchedEntry (g : Graph) (sid p : Z) : result Graph :=
  s ← from_serial_id sid; let nd := g_nodes g s in
  mret (set_node g s (with_sched nd (Some p) (on_node_free nd) (on_node_rvp_change nd))).
Definition RegisterFreeListener (g : Graph) (sid : Z) : result Graph :=
  s ← from_serial_id sid; let nd := g_nodes g s in
  mret (set_node g s (with_sched nd (sched_entry nd) true (on_node_rvp_change nd))).
Definition RegisterRVPListener (g : Graph) (sid : Z) : result Graph :=
  s ← from_serial_id sid; let nd := g_nodes g s in
  mret (set_node g s (with_sched nd (sched_entry nd) (on_node_free nd) true)).

(** [NotifyFree]: the scheduler entries handed to the listener *)
Definition NotifyFree (nd : Node) : result (list Z) :=
  match sched_entry nd with
  | None => Err Aborted
  | Some p => Ok (if on_node_free nd then [p] else [])
  end.

Definition NotifyRVPChange (g : Graph) (sid : Z) : result (list Z) :=
  s ← from_serial_id sid;
  match sched_entry (g_nodes g s) with
  | Some p => Ok (if on_node_rvp_change (g_nodes g s) then [p] else [])
  | None => Ok []
  end.

(** one iteration of the inner loop of [Build]; the state is the graph, the
    words of the resources and the local [in_degree] *)
Definition build_edge (cur seq i : Z) (st : Graph * (Z → Z) * Z) : result (Graph * (Z → Z) * Z) :=
  let '(g, words, cnt) := st in
  e ← edge_at (g_nodes g seq) i;
  let rc := resource e in
  let last_sid := words rc in
  '(g, cnt) ←
    (if Z.shiftr last_sid 32 =? cur then
       p ← from_serial_id last_sid;
       slot ← FindEdge (g_nodes g p) rc;
       match slot with
       | None => Err Aborted
       | Some j => nd ← set_at (g_nodes g p) j (mkEdge rc (ENode seq)); Ok (set_node g p nd, cnt + 1)
       end
     else Ok (g, cnt));
  Ok (g, <[rc := sid_of cur seq]> words, cnt).

Fixpoint build_edges (cur seq : Z) (ix : list Z) (st : Graph * (Z → Z) * Z) : result (Graph * (Z → Z) * Z) :=
  match ix with
  | [] => Ok st
  | i :: ix => st ← build_edge cur seq i st; build_edges cur seq ix st
  end.

(** one iteration of the outer loop; the notifications come last *)
Definition build_node (cur seq : Z) (g : Graph) (words : Z → Z) : result (Graph * (Z → Z) * list Z) :=
  if mark (g_nodes g seq) then
    '(g, words, cnt) ← build_edges cur seq (seqZ 0 (nr_resources (g_nodes g seq))) (g, words, 0);
    let nd := g_nodes g seq in
    if 0 <? cnt then Ok (set_node g seq (with_degree nd (u32 (in_degree nd + cnt))), words, [])
    else notes ← NotifyFree nd; Ok (g, words, notes)
  else Ok (g, words, []).

Fixpoint build_nodes (cur : Z) (seqs : list Z) (g : Graph) (words : Z → Z) : result (Graph * (Z → Z) * list Z) :=
  match seqs with
  | [] => Ok (g, words, [])
  | seq :: seqs =>
      '(g, words, n1) ← build_node cur seq g words;
      '(g, words, n2) ← build_nodes cur seqs g words;
      Ok (g, words, n1 ++ n2)
  end.

Definition Build (cur : Z) (g : Graph) (words : Z → Z) : result (Graph * (Z → Z) * list Z) :=
  build_nodes cur (seqZ 1 n) g words.

(** one resource of [ActivateResources]; an edge that was activated before is
    reported and then used as a pointer *)
Definition activate_one (s rc : Z) (g : Graph) : result (Graph * list Z) :=
  slot ← FindEdge (g_nodes g s) rc;
  match slot with
  | None => Err Aborted
  | Some j =>
      e ← edge_at (g_nodes g s) j;
      match e_node e with
      | ENull => Ok (g, [])
      | EDead => Err OutOfRange
      | ENode t =>
          let d := u32 (in_degree (g_nodes g t) - 1) in
          let g := set_node g t (with_degree (g_nodes g t) d) in
          notes ← (if d =? 0 then NotifyFree (g_nodes g t) else Ok []);
          nd ← set_at (g_nodes g s) j (mkEdge rc EDead);
          Ok (set_node g s nd, notes)
      end
  end.

Fixpoint activate_all (s : Z) (res : list Z) (g : Graph) : result (Graph * list Z) :=
  match res with
  | [] => Ok (g, [])
  | rc :: res =>
      '(g, n1) ← activate_one s rc g; '(g, n2) ← activate_all s res g; Ok (g, n1 ++ n2)
  end.

Definition ActivateResources (g : Graph) (sid : Z) (res : list Z) : result (Graph * list Z) :=
  s ← from_serial_id sid;
  _ ← abort_if (0 <? in_degree (g_nodes g s));
  activate_all s res g.

(** [Reset]; the check that every transaction was released is compiled in with
    [SAFETY_CHECK] *)
Definition Graph_Reset (safety_check : bool) (g : Graph) : result Graph :=
  _ ← abort_if (safety_check &&
        existsb (fun seq => negb (nr_resources (g_nodes g seq) =? 0) && (0 <? in_degree (g_nodes g seq))) (seqZ 1 n));
  mret (mkGraph (fun _ => zero_node) (Brk_Reset (g_brk g))).

(** a run of activation calls *)
Fixpoint run (calls : list (Z * list Z)) (g : Graph) : result (Graph * list Z) :=
  match calls with
  | [] => Ok (g, [])
  | (sid, res) :: calls =>
      '(g, n1) ← ActivateResources g sid res; '(g, n2) ← run calls g; Ok (g, n1 ++ n2)
  end.

End Graph.

Definition VHandleToResource (vhandle : Z) : Z := vhandle + 48.

(** ** Slots of a node *)

Definition slots (nd : Node) : list Edge := inlined nd :: default [] (extra nd).
Definition edges (nd : Node) : list Edge := take (Z.to_nat (nr_resources nd)) (slots nd).

Record wf_node (nd : Node) : Prop := {
  wf_nr : 0 ≤ nr_resources nd ≤ 256;
  wf_tot : nr_resources nd ≤ tot_resources nd;
  wf_slots : 1 < tot_resources nd → 0 < nr_resources nd → ∃ l, extra nd = Some l ∧ len l = tot_resources nd - 1;
}.

Lemma slots_len nd : wf_node nd → nr_resources nd ≤ len (slots nd).
Proof.
  intros [Hn Ht Hs]. unfold slots. cbn [length].
  destruct (Z_le_gt_dec (nr_resources nd) 1); [lia|].
  destruct Hs as (l & -> & Hl); [lia..|]. cbn. lia.
Qed.

Lemma edges_len nd : wf_node nd → len (edges nd) = nr_resources nd.
Proof. intros H. pose proof (slots_len nd H). destruct H. unfold edges. rewrite length_take. lia. Qed.

Lemma edge_at_ok nd i e :
  wf_node nd → 0 ≤ i < nr_resources nd → edges nd !! Z.to_nat i = Some e → edge_at nd i = Ok e.
Proof.
  intros [Hn Ht Hs] Hi He. unfold edges in He. rewrite lookup_take_lt in He by lia.
  unfold edge_at, node_at, kInlineEdges. rewrite u8_id by lia.
  destruct (Z.ltb_spec i 1).
  - replace i with 0 in He by lia. by injection He as ->.
  - rewrite (proj2 (Z.ltb_lt i _)) by lia. destruct Hs as (l & El & Hl); [lia..|].
    unfold slots in He. rewrite El in *. cbn [default] in He.
    replace (Z.to_nat i) with (S (Z.to_nat (i - 1))) in He by lia. change (l !! Z.to_nat (i - 1) = Some e) in He. by rewrite He.
Qed.

Lemma set_at_ok nd i e :
  wf_node nd → 0 ≤ i < nr_resources nd →
  ∃ nd', set_at nd i e = Ok nd' ∧ wf_node nd' ∧ edges nd' = <[Z.to_nat i := e]> (edges nd) ∧
    in_degree nd' = in_degree nd ∧ mark nd' = mark nd ∧ nr_resources nd' = nr_resources nd ∧
    sched_entry nd' = sched_entry nd ∧ on_node_free nd' = on_node_free nd.
Proof.
  intros [Hn Ht Hs] Hi. unfold set_at, kInlineEdges. rewrite u8_id by lia.
  destruct (Z.ltb_spec i 1).
  - eexists. split; [done|]. split; [by split|]. replace i with 0 by lia. cbn. split; [|done].
    unfold edges. cbn. destruct (Z.to_nat (nr_resources nd)) eqn:?; [lia|done].
  - rewrite (proj2 (Z.ltb_lt i _)) by lia. destruct Hs as (l & El & Hl); [lia..|]. rewrite El.
    rewrite (proj2 (Z.ltb_lt (i - 1) _)) by lia. eexists. split; [done|]. split.
    + split; [done|done|]. cbn. intros _ _. eexists. split; [done|]. by rewrite length_insert.
    + cbn. split; [|done]. unfold edges, slots. cbn. rewrite El. cbn.
      replace (Z.to_nat i) with (S (Z.to_nat (i - 1))) by lia.
      destruct (Z.to_nat (nr_resources nd)) eqn:?; [lia|]. cbn. f_equal. apply take_insert_lt. lia.
Qed.

(** the first slot with the resource *)
Lemma find_from_ok nd r i k :
  wf_node nd → 0 ≤ i → i + Z.of_nat k = nr_resources nd →
  (∀ j e, 0 ≤ j < i → edges nd !! Z.to_nat j = Some e → resource e ≠ r) →
  (∃ j e, find_from nd r (seqZ i (Z.of_nat k)) = Ok (Some j) ∧ 0 ≤ j < nr_resources nd ∧
     edges nd !! Z.to_nat j = Some e ∧ resource e = r) ∨
  (find_from nd r (seqZ i (Z.of_nat k)) = Ok None ∧ r ∉ (resource <$> edges nd)).
Proof.
  intros Hwf. revert i. induction k as [|k IH]; intros i Hi Hk Hb.
  - right. cbn. split; [done|]. intros (e & Er & He)%list_elem_of_fmap.
    apply list_elem_of_lookup in He as [j Hj]. pose proof (lookup_lt_Some _ _ _ Hj). pose proof (edges_len nd Hwf).
    eapply (Hb (Z.of_nat j) e); [lia|by rewrite Nat2Z.id|done].
  - rewrite seqZ_cons by lia. replace (Z.pred (Z.of_nat (S k))) with (Z.of_nat k) by lia. cbn [find_from].
    pose proof (edges_len nd Hwf) as Hlen.
    destruct (lookup_lt_is_Some_2 (edges nd) (Z.to_nat i) ltac:(lia)) as [e He].
    rewrite (edge_at_ok nd i e) by (done || lia). cbn. destruct (Z.eqb_spec (resource e) r) as [Er|Er].
    + left. exists i, e. repeat split; done || lia.
    + rewrite <- Z.add_1_r. apply IH; [lia..|]. intros j e' Hj He'. destruct (Z.eq_dec j i) as [->|].
      * congruence.
      * apply (Hb j); [lia|done].
Qed.

Lemma FindEdge_some nd r :
  wf_node nd → r ∈ (resource <$> edges nd) →
  ∃ j e, FindEdge nd r = Ok (Some j) ∧ 0 ≤ j < nr_resources nd ∧ edges nd !! Z.to_nat j = Some e ∧ resource e = r.
Proof.
  intros Hwf Hr. destruct (find_from_ok nd r 0 (Z.to_nat (nr_resources nd))) as [H|[_ H]]; try done.
  - destruct Hwf. lia.
  - lia.
  - rewrite Z2Nat.id in H by (destruct Hwf; lia). done.
Qed.

Lemma FindEdge_none nd r : wf_node nd → r ∉ (resource <$> edges nd) → FindEdge nd r = Ok None.
Proof.
  intros Hwf Hr. destruct (find_from_ok nd r 0 (Z.to_nat (nr_resources nd))) as [H|[H _]]; try done.
  - destruct Hwf. lia.
  - lia.
  - destruct H as (j & e & _ & _ & He & <-). destruct Hr. apply list_elem_of_fmap. exists e. split; [done|].
    by eapply list_elem_of_lookup_2.
  - rewrite Z2Nat.id in H by (destruct Hwf; lia). done.
Qed.

(** * The users of a resource in serial order, and serial identifiers: the
    vocabulary in which [PWVGraph] is specified. *)

Section Users.
Context (n : Z) (res : Z → list Z).

(** the nearest user of [rc] before, and after, transaction [s] *)
Definition prev_user (rc s : Z) : option Z := last (filter (fun p => rc ∈ res p) (seqZ 1 (s - 1))).
Definition next_user (rc s : Z) : option Z := head (filter (fun t => rc ∈ res t) (seqZ (s + 1) (n - s))).

Lemma prev_user_step rc s :
  1 ≤ s → prev_user rc (s + 1) = if decide (rc ∈ res s) then Some s else prev_user rc s.
Proof.
  intros Hs. unfold prev_user. replace (s + 1 - 1) with ((s - 1) + 1) by lia.
  rewrite seqZ_app by lia. replace (1 + (s - 1)) with s by lia.
  rewrite filter_app. rewrite (seqZ_cons s 1), (seqZ_nil _ (Z.pred 1)) by lia. rewrite filter_cons. case_decide; cbn.
  - by rewrite last_snoc.
  - by rewrite app_nil_r.
Qed.

Lemma prev_user_first rc : prev_user rc 1 = None.
Proof. done. Qed.

Lemma next_user_step rc s :
  s < n → next_user rc s = if decide (rc ∈ res (s + 1)) then Some (s + 1) else next_user rc (s + 1).
Proof.
  intros Hs. unfold next_user. rewrite seqZ_cons by lia. rewrite filter_cons. case_decide; [done|].
  do 3 f_equal; lia.
Qed.

Definition is_prev (rc s : Z) (o : option Z) : Prop :=
  match o with
  | Some p => 1 ≤ p < s ∧ rc ∈ res p ∧ ∀ u, p < u < s → rc ∉ res u
  | None => ∀ u, 1 ≤ u < s → rc ∉ res u
  end.

Lemma prev_user_spec rc s : 1 ≤ s → is_prev rc s (prev_user rc s).
Proof.
  intros Hs. replace s with (1 + (s - 1)) by lia. assert (Hk : 0 ≤ s - 1) by lia.
  revert Hk. generalize (s - 1). clear s Hs. apply natlike_ind.
  - rewrite Z.add_0_r, prev_user_first. cbn. lia.
  - intros k Hk IH. replace (1 + Z.succ k) with (1 + k + 1) by lia. rewrite prev_user_step by lia.
    case_decide as Hd; cbn; [split; [lia|]; split; [done|lia]|].
    destruct (prev_user rc (1 + k)) as [p|]; cbn in IH |- *.
    + destruct IH as (? & ? & IH). split; [lia|]. split; [done|]. intros u Hu.
      destruct (Z.eq_dec u (1 + k)) as [->|]; [done|]. apply IH. lia.
    + intros u Hu. destruct (Z.eq_dec u (1 + k)) as [->|]; [done|]. apply IH. lia.
Qed.

Definition is_next (rc s : Z) (o : option Z) : Prop :=
  match o with
  | Some t => s < t ≤ n ∧ rc ∈ res t ∧ ∀ u, s < u < t → rc ∉ res u
  | None => ∀ u, s < u ≤ n → rc ∉ res u
  end.

Lemma next_user_spec rc s : s ≤ n → is_next rc s (next_user rc s).
Proof.
  intros Hs. replace s with (n - (n - s)) by lia. assert (Hk : 0 ≤ n - s) by lia.
  revert Hk. generalize (n - s). clear s Hs. apply natlike_ind.
  - unfold next_user. rewrite seqZ_nil by lia. cbn. lia.
  - intros k Hk IH. replace (n - k) with (n - Z.succ k + 1) in IH by lia. rewrite next_user_step by lia.
    case_decide as Hd; cbn; [split; [lia|]; split; [done|lia]|].
    destruct (next_user rc (n - Z.succ k + 1)) as [p|]; cbn in IH |- *.
    + destruct IH as (? & ? & IH). split; [lia|]. split; [done|]. intros u Hu.
      destruct (Z.eq_dec u (n - Z.succ k + 1)) as [->|]; [done|]. apply IH. lia.
    + intros u Hu. destruct (Z.eq_dec u (n - Z.succ k + 1)) as [->|]; [done|]. apply IH. lia.
Qed.

(** the two are inverse on users *)
Lemma next_prev rc s t :
  1 ≤ s ≤ n → 1 ≤ t ≤ n → rc ∈ res s → rc ∈ res t → next_user rc s = Some t ↔ prev_user rc t = Some s.
Proof.
  intros Hs Ht Hrs Hrt. pose proof (next_user_spec rc s ltac:(lia)) as HN.
  pose proof (prev_user_spec rc t ltac:(lia)) as HP. split; intros E; rewrite E in *; cbn in *.
  - destruct HN as (? & _ & HN). destruct (prev_user rc t) as [p|]; cbn in HP.
    + destruct HP as (? & Hp & HP). f_equal. destruct (Z.lt_trichotomy p s) as [Hlt|[Hlt|Hlt]]; [|done|].
      * destruct (HP s); [lia|done].
      * destruct (HN p); [lia|done].
    + destruct (HP s); [lia|done].
  - destruct HP as (? & _ & HP). destruct (next_user rc s) as [u|]; cbn in HN.
    + destruct HN as (? & Hu & HN). f_equal. destruct (Z.lt_trichotomy t u) as [Hlt|[Hlt|Hlt]]; [|done|].
      * destruct (HN t); [lia|done].
      * destruct (HP u); [lia|done].
    + destruct (HN t); [lia|done].
Qed.

End Users.

(** ** Serial identifiers *)

Lemma sid_of_sum cur s : 0 ≤ cur < 2 ^ 32 → 0 ≤ s < 2 ^ 24 → sid_of cur s = cur * 2 ^ 32 + s * 2 ^ 8.
Proof.
  intros Hc Hs. unfold sid_of. rewrite !Z.shiftl_mul_pow2, u64_id, u32_id by lia.
  symmetry. apply Z.add_nocarry_lor. apply Z.bits_inj'. intros k Hk.
  rewrite Z.land_spec, Z.bits_0, <- !Z.shiftl_mul_pow2, !Z.shiftl_spec by lia.
  destruct (Z_lt_le_dec k 32).
  - by rewrite (Z.testbit_neg_r cur) by lia.
  - apply andb_false_iff. right. apply Z.bits_above_log2; [lia|].
    destruct (Z.eq_dec s 0) as [->|]; [cbn; lia|]. cut (Z.log2 s < 24); [lia|]. apply Z.log2_lt_pow2; lia.
Qed.

Lemma sid_of_epoch cur s : 0 ≤ cur < 2 ^ 32 → 0 ≤ s < 2 ^ 24 → Z.shiftr (sid_of cur s) 32 = cur.
Proof.
  intros. rewrite sid_of_sum, Z.shiftr_div_pow2 by lia. symmetry. apply Z.div_unique with (s * 2 ^ 8); lia.
Qed.

Lemma seq_of_sid cur s : 0 ≤ cur < 2 ^ 32 → 0 ≤ s < 2 ^ 24 → seq_of (sid_of cur s) = s.
Proof.
  intros. unfold seq_of. rewrite sid_of_sum, Z.shiftr_div_pow2, Z.land_comm by lia.
  change 0x00FFFFFF with (Z.ones 24). rewrite Z.land_ones by lia.
  replace ((cur * 2 ^ 32 + s * 2 ^ 8) / 2 ^ 8) with (cur * 2 ^ 24 + s) by (apply Z.div_unique with 0; lia).
  symmetry. apply Z.mod_unique with cur; lia.
Qed.

Lemma from_serial_sid n cur p :
  0 ≤ n < 2 ^ 24 → 0 ≤ cur < 2 ^ 32 → 1 ≤ p ≤ n → from_serial_id n (sid_of cur p) = Ok p.
Proof. intros. unfold from_serial_id. rewrite seq_of_sid by lia. zcase; done || lia. Qed.
