(* ===== verification/PWVFacts.v ===== *)
(** Correctness of the dependency graph: the edges and in-degrees that [Build]
    leaves, and the invariant of activations. *)

From S2P Require Import Prelude PWVGraph.

Section Facts.
Context (n cur : Z) (res : Z → list Z) (ent : Z → Z).

(** ** The nodes of a graph with given edges and in-degrees *)

Record node_inv (nd : Node) (s : Z) (E : Z → EdgeTo) (d : Z) : Prop := {
  ni_wf : wf_node nd;
  ni_res : resource <$> edges nd = res s;
  ni_edge : ∀ e, e ∈ edges nd → e_node e = E (resource e);
  ni_degree : in_degree nd = d;
  ni_mark : mark nd = bool_decide (res s ≠ []);
  ni_sched : res s ≠ [] → sched_entry nd = Some (ent s) ∧ on_node_free nd = true;
}.

Definition ginv (g : Graph) (E : Z → Z → EdgeTo) (D : Z → Z) : Prop :=
  ∀ s, 1 ≤ s ≤ n → node_inv (g_nodes g s) s (E s) (D s).

Lemma ginv_ext g E E' D D' :
  ginv g E D → (∀ s rc, 1 ≤ s ≤ n → rc ∈ res s → E s rc = E' s rc) → (∀ s, 1 ≤ s ≤ n → D s = D' s) →
  ginv g E' D'.
Proof.
  intros H HE HD s Hs. destruct (H s Hs) as [H1 H2 H3 H4 H5 H6]. split; try done.
  - intros e He. rewrite H3 by done. apply HE; [done|]. rewrite <- H2. by apply list_elem_of_fmap_2.
  - rewrite H4. by apply HD.
Qed.

(** the edge of a resource can be found, read and written *)
Lemma set_edge nd s E d rc x :
  NoDup (res s) → node_inv nd s E d → rc ∈ res s →
  ∃ j e nd', FindEdge nd rc = Ok (Some j) ∧ edge_at nd j = Ok e ∧ e_node e = E rc ∧
    set_at nd j (mkEdge rc x) = Ok nd' ∧ node_inv nd' s (<[rc := x]> E) d ∧ nr_resources nd' = nr_resources nd.
Proof.
  intros Hnd [H1 H2 H3 H4 H5 H6] Hrc. rewrite <- H2 in Hrc.
  destruct (FindEdge_some nd rc H1 Hrc) as (j & e & Hf & Hj & He & Er).
  destruct (set_at_ok nd j (mkEdge rc x) H1 Hj) as (nd' & Hset & Hwf & Hed & Hd & Hm & Hnr & Hs & Ho).
  exists j, e, nd'. split; [done|]. split; [by apply edge_at_ok|].
  assert (Hin : e ∈ edges nd) by (by eapply list_elem_of_lookup_2).
  split; [rewrite <- Er; by apply H3|]. split; [done|]. split; [|done].
  assert (Hres' : resource <$> edges nd' = res s).
  { rewrite Hed, list_fmap_insert. cbn. rewrite list_insert_id; [done|].
    rewrite list_lookup_fmap, He. cbn. by rewrite Er. }
  split; [done|done| |congruence|congruence|rewrite Hs, Ho; done].
  intros e' (k & Hk)%list_elem_of_lookup.
  destruct (decide (k = Z.to_nat j)) as [->|Hne].
  - rewrite Hed, list_lookup_insert_eq in Hk by (by eapply lookup_lt_Some). injection Hk as <-. cbn.
    by rewrite fn_lookup_insert.
  - assert (Hk' := Hk). rewrite Hed, list_lookup_insert_ne in Hk' by done.
    rewrite fn_lookup_insert_ne; [apply H3; by eapply list_elem_of_lookup_2|]. intros Heq.
    rewrite <- H2 in Hnd. destruct Hne. eapply NoDup_lookup; [exact Hnd| |].
    + rewrite list_lookup_fmap, Hk'. cbn. by rewrite <- Heq.
    + rewrite list_lookup_fmap, He. cbn. by rewrite Er.
Qed.

Lemma ginv_set g E D s nd (E' : Z → EdgeTo) d :
  ginv g E D → node_inv nd s E' d → ginv (set_node g s nd) (<[s := E']> E) (<[s := d]> D).
Proof.
  intros H Hnd u Hu. cbn. destruct (decide (s = u)) as [->|].
  - by rewrite !fn_lookup_insert.
  - rewrite !fn_lookup_insert_ne by done. by apply H.
Qed.

(** ** Building *)

Hypothesis Hn : 0 ≤ n < 2 ^ 24.
Hypothesis Hcur : 0 ≤ cur < 2 ^ 32.
Hypothesis Hres : ∀ s, 1 ≤ s ≤ n → NoDup (res s).

Abbreviation prev := (prev_user res).
Abbreviation next := (next_user n res).

(** the edges when the nodes before [k], and the resources [R] of [k], are done *)
Definition Espec (k : Z) (R : list Z) (s rc : Z) : EdgeTo :=
  match next rc s with
  | Some t => if decide (t < k ∨ (t = k ∧ rc ∈ R)) then ENode t else ENull
  | None => ENull
  end.
(** the words of the resources then hold their latest user *)
Definition wspec (k : Z) (R : list Z) (words : Z → Z) : Prop :=
  ∀ rc, match (if decide (rc ∈ R) then Some k else prev rc k) with
        | Some p => words rc = sid_of cur p
        | None => Z.shiftr (words rc) 32 ≠ cur
        end.

Lemma Espec_next k R p rc :
  1 ≤ p ≤ n → 1 ≤ k ≤ n → rc ∈ res k → rc ∉ R →
  prev rc k = Some p → ∀ s rc', 1 ≤ s ≤ n → rc' ∈ res s →
  (<[p := <[rc := ENode k]> (Espec k R p)]> (Espec k R)) s rc' = Espec k (R ++ [rc]) s rc'.
Proof using All.
  intros Hp Hk Hrk HR E s rc' Hs Hrs. pose proof (prev_user_spec res rc k ltac:(lia)) as HP.
  rewrite E in HP. cbn in HP. destruct HP as (? & Hrp & _).
  assert (Hnext : next rc p = Some k) by (by apply next_prev).
  destruct (decide (p = s ∧ rc = rc')) as [[<- <-]|Hne].
  - rewrite !fn_lookup_insert. unfold Espec. rewrite Hnext, decide_True; [done|].
    right. split; [done|]. apply elem_of_app. right. by left.
  - assert (Hold : (<[p := <[rc := ENode k]> (Espec k R p)]> (Espec k R)) s rc' = Espec k R s rc').
    { destruct (decide (p = s)) as [<-|]; [|by rewrite fn_lookup_insert_ne].
      rewrite fn_lookup_insert, fn_lookup_insert_ne; [done|]. intros <-. by destruct Hne. }
    rewrite Hold. unfold Espec. destruct (next rc' s) as [t|] eqn:Et; [|done].
    apply decide_ext. rewrite elem_of_app, list_elem_of_singleton. split; [naive_solver|].
    intros [?|(-> & [?| ->])]; [by left|right; done|]. destruct Hne. split; [|done].
    apply next_prev in Et; [congruence|done|lia|done|done].
Qed.

Lemma Espec_none k R rc :
  1 ≤ k ≤ n → rc ∈ res k → prev rc k = None → ∀ s rc', 1 ≤ s ≤ n → rc' ∈ res s →
  Espec k R s rc' = Espec k (R ++ [rc]) s rc'.
Proof using All.
  intros Hk Hrk E s rc' Hs Hrs. unfold Espec. destruct (next rc' s) as [t|] eqn:Et; [|done].
  apply decide_ext. rewrite elem_of_app, list_elem_of_singleton. split; [naive_solver|].
  intros [?|(-> & [?| ->])]; [by left|right; done|].
  apply next_prev in Et; [congruence|done|lia|done|done].
Qed.

Lemma build_edge_ok k R i rc g words cnt D :
  ginv g (Espec k R) D → wspec k R words → 1 ≤ k ≤ n → res k !! i = Some rc → rc ∉ R →
  ∃ g' words', build_edge n cur k (Z.of_nat i) (g, words, cnt) =
      Ok (g', words', cnt + (match prev rc k with Some _ => 1 | None => 0 end)) ∧
    ginv g' (Espec k (R ++ [rc])) D ∧ wspec k (R ++ [rc]) words'.
Proof using All.
  intros Hg Hw Hk Hi HR. assert (Hrk : rc ∈ res k) by (by eapply list_elem_of_lookup_2).
  destruct (Hg k Hk) as [H1 H2 H3 _ _ _].
  assert (He : ∃ e, edges (g_nodes g k) !! i = Some e ∧ resource e = rc).
  { rewrite <- H2, list_lookup_fmap in Hi. destruct (edges _ !! i) as [e|]; [|done]. exists e. by injection Hi. }
  destruct He as (e & He & Er). unfold build_edge.
  rewrite (edge_at_ok _ (Z.of_nat i) e); [|done| |by rewrite Nat2Z.id].
  2:{ pose proof (edges_len _ H1). apply lookup_lt_Some in He. lia. }
  cbn. rewrite Er.
  assert (Hws : wspec k (R ++ [rc]) (<[rc := sid_of cur k]> words)).
  { intros rc'. destruct (decide (rc = rc')) as [<-|Hne].
    - rewrite decide_True by (apply elem_of_app; right; by left). by rewrite fn_lookup_insert.
    - specialize (Hw rc'). rewrite fn_lookup_insert_ne by done.
      erewrite decide_ext; [exact Hw|]. rewrite elem_of_app, list_elem_of_singleton. naive_solver. }
  assert (Hwr := Hw rc). rewrite decide_False in Hwr by done.
  destruct (prev rc k) as [p|] eqn:Ep.
  - pose proof (prev_user_spec res rc k ltac:(lia)) as HP. rewrite Ep in HP. cbn in HP. destruct HP as (Hp & Hrp & _).
    rewrite Hwr, sid_of_epoch, Z.eqb_refl by lia. rewrite (from_serial_sid n cur) by lia. cbn.
    destruct (set_edge _ p _ _ rc (ENode k) (Hres p ltac:(lia)) (Hg p ltac:(lia)) Hrp)
      as (j & e' & nd' & Hf & _ & _ & Hset & Hni & _).
    rewrite Hf. cbn. rewrite Hset. cbn. eexists _, _. split; [done|]. split; [|done].
    eapply ginv_ext; [eapply ginv_set; [exact Hg|exact Hni]| |].
    + intros. apply Espec_next; try done; lia.
    + intros s Hs. destruct (decide (p = s)) as [<-|]; [by rewrite fn_lookup_insert|by rewrite fn_lookup_insert_ne].
  - rewrite (proj2 (Z.eqb_neq _ _) Hwr). cbn. eexists _, _. rewrite Z.add_0_r. split; [done|]. split; [|done].
    eapply ginv_ext; [exact Hg| |done]. intros. by apply Espec_none.
Qed.

(** the resources of [s] with a predecessor that has not activated them *)
Definition pending (acts : list (Z * Z)) (s rc : Z) : Prop :=
  match prev rc s with Some p => (p, rc) ∉ acts | None => False end.
#[export] Instance pending_dec acts s rc : Decision (pending acts s rc).
Proof using Type. unfold pending. destruct (prev rc s); apply _. Defined.
Definition pend (acts : list (Z * Z)) (s : Z) : list Z := filter (pending acts s) (res s).

Lemma build_edges_ok k i g words D :
  1 ≤ k ≤ n → (i ≤ length (res k))%nat → ginv g (Espec k (take i (res k))) D → wspec k (take i (res k)) words →
  ∃ g' words', build_edges n cur k (seqZ (Z.of_nat i) (len (res k) - Z.of_nat i))
      (g, words, len (filter (pending [] k) (take i (res k)))) = Ok (g', words', len (pend [] k)) ∧
    ginv g' (Espec k (res k)) D ∧ wspec k (res k) words'.
Proof using All.
  intros Hk Hi. assert (Hm : ∃ m, (i + m = length (res k))%nat) by (exists (length (res k) - i)%nat; lia).
  destruct Hm as [m Hm]. clear Hi. revert i g words Hm. induction m as [|m IH]; intros i g words Hm Hg Hw.
  - replace (len (res k) - Z.of_nat i) with 0 by lia. cbn. rewrite firstn_all2 in * by lia. by eexists _, _.
  - rewrite seqZ_cons by lia. cbn [build_edges].
    destruct (lookup_lt_is_Some_2 (res k) i ltac:(lia)) as [rc Hrc].
    assert (HR : rc ∉ take i (res k)).
    { intros (j & Hj)%list_elem_of_lookup. apply lookup_take_Some in Hj as [Hj ?].
      pose proof (NoDup_lookup _ _ _ _ (Hres k Hk) Hj Hrc). lia. }
    destruct (build_edge_ok k _ i rc g words (len (filter (pending [] k) (take i (res k)))) D Hg Hw Hk Hrc HR)
      as (g1 & w1 & -> & Hg1 & Hw1).
    cbn. rewrite <- take_S_r in Hg1, Hw1 by done.
    destruct (IH (S i) g1 w1 ltac:(lia) Hg1 Hw1) as (g2 & w2 & E2 & Hg2 & Hw2).
    exists g2, w2. split; [|done]. rewrite <- E2. f_equal.
    + f_equal; lia.
    + f_equal. rewrite (take_S_r _ _ rc) by done. rewrite filter_app, length_app, Nat2Z.inj_add. f_equal.
      rewrite filter_cons. case_decide as Hd; unfold pending in Hd; destruct (prev rc k) as [p|]; try done.
      destruct Hd. apply not_elem_of_nil.
Qed.

Definition degrees (k s : Z) : Z := if s <? k then len (pend [] s) else 0.

(** a node that is done: its edges move to the next node *)
Lemma build_advance k g words D :
  1 ≤ k ≤ n → ginv g (Espec k (res k)) D → wspec k (res k) words →
  ginv g (Espec (k + 1) []) D ∧ wspec (k + 1) [] words.
Proof using All.
  intros Hk Hg Hw. split.
  - eapply ginv_ext; [exact Hg| |done]. intros s rc Hs Hrc. unfold Espec.
    pose proof (next_user_spec n res rc s ltac:(lia)) as HN. destruct (next rc s) as [t|] eqn:E; [|done].
    apply decide_ext. destruct HN as (? & Ht & _). split.
    + intros [?|[-> ?]]; left; lia.
    + intros [?|[_ ?%elem_of_nil]]; [|done]. destruct (Z.eq_dec t k) as [->|]; [right; done|left; lia].
  - intros rc. specialize (Hw rc). rewrite decide_False by apply not_elem_of_nil.
    by rewrite prev_user_step by lia.
Qed.

Lemma pend_bound acts s : 1 ≤ s ≤ n → len (pend acts s) ≤ len (res s).
Proof using All. intros _. unfold pend. pose proof (length_filter (pending acts s) (res s)). lia. Qed.

Lemma node_nr g E D s : ginv g E D → 1 ≤ s ≤ n → nr_resources (g_nodes g s) = len (res s) ∧ len (res s) ≤ 256.
Proof using All.
  intros Hg Hs. destruct (Hg s Hs) as [H1 H2 _ _ _ _]. rewrite <- H2, length_fmap, <- (edges_len _ H1).
  destruct H1. rewrite edges_len; [lia|]. by split.
Qed.

(** the notification of a node without predecessors *)
Definition free_note (s : Z) : list Z := if decide (res s ≠ [] ∧ pend [] s = []) then [ent s] else [].

Lemma build_node_ok k g words :
  1 ≤ k ≤ n → ginv g (Espec k []) (degrees k) → wspec k [] words →
  ∃ g' words', build_node n cur k g words = Ok (g', words', free_note k) ∧
    ginv g' (Espec (k + 1) []) (degrees (k + 1)) ∧ wspec (k + 1) [] words'.
Proof using All.
  intros Hk Hg Hw. destruct (Hg k Hk) as [_ _ _ _ Hm _]. unfold build_node, free_note. rewrite Hm.
  destruct (node_nr _ _ _ _ Hg Hk) as [Hnr Hlen].
  destruct (decide (res k = [])) as [E0|E0].
  - rewrite bool_decide_false, decide_False by naive_solver. eexists _, _. split; [done|].
    destruct (build_advance k g words (degrees k)) as [Hg' Hw']; [done|by rewrite E0..|].
    split; [|done]. eapply ginv_ext; [exact Hg'|done|]. intros s Hs. unfold degrees. zcase; try done; try lia.
    replace s with k by lia. unfold pend. by rewrite E0.
  - rewrite bool_decide_true by done. rewrite Hnr.
    destruct (build_edges_ok k 0 g words (degrees k)) as (g1 & w1 & E1 & Hg1 & Hw1); [done|lia|by rewrite take_0..|].
    rewrite take_0, Z.sub_0_r in E1. cbn [filter list_filter length] in E1. change (Z.of_nat 0) with 0 in E1. rewrite E1. cbn.
    destruct (build_advance k g1 w1 _ Hk Hg1 Hw1) as [Hg' Hw'].
    assert (Hk1 := Hg1 k Hk). pose proof (pend_bound [] k Hk).
    destruct (Z.ltb_spec 0 (len (pend [] k))) as [Hc|Hc].
    + rewrite decide_False by (intros [_ Hp]; rewrite Hp in Hc; cbn in Hc; lia).
      eexists _, _. split; [done|]. split; [|done]. destruct (Hg' k Hk) as [F1 F2 F3 F4 F5 F6].
      eapply ginv_ext; [apply (ginv_set g1 _ _ k _ (Espec (k + 1) [] k) (len (pend [] k)) Hg')| |].
      * split; [by destruct F1; split|done|done| |done|done]. cbn. rewrite F4. unfold degrees. rewrite (proj2 (Z.ltb_ge k k)) by lia. apply u32_id. lia.
      * intros s rc _ _. destruct (decide (k = s)) as [<-|]; [by rewrite fn_lookup_insert|by rewrite fn_lookup_insert_ne].
      * intros s Hs. unfold degrees. destruct (decide (k = s)) as [<-|].
        -- rewrite fn_lookup_insert, (proj2 (Z.ltb_lt k (k + 1))) by lia. done.
        -- rewrite fn_lookup_insert_ne by done. zcase; done || lia.
    + assert (Hp : pend [] k = []) by (apply length_zero_iff_nil; lia).
      rewrite decide_True by done. unfold NotifyFree. destruct (ni_sched _ _ _ _ Hk1 E0) as [-> ->]. cbn.
      eexists _, _. split; [done|]. split; [|done]. eapply ginv_ext; [exact Hg'|done|].
      intros s Hs. unfold degrees. zcase; try done; try lia. replace s with k by lia. by rewrite Hp.
Qed.

Lemma build_nodes_ok m k g words :
  1 ≤ k → k + Z.of_nat m = n + 1 → ginv g (Espec k []) (degrees k) → wspec k [] words →
  ∃ g' words', build_nodes n cur (seqZ k (Z.of_nat m)) g words = Ok (g', words', s ← seqZ k (Z.of_nat m); free_note s) ∧
    ginv g' (Espec (n + 1) []) (degrees (n + 1)).
Proof using All.
  revert k g words. induction m as [|m IH]; intros k g words Hk Hkm Hg Hw.
  - replace k with (n + 1) in * by lia. cbn. by eexists _, _.
  - rewrite seqZ_cons by lia. replace (Z.pred (Z.of_nat (S m))) with (Z.of_nat m) by lia. cbn [build_nodes].
    destruct (build_node_ok k g words ltac:(lia) Hg Hw) as (g1 & w1 & -> & Hg1 & Hw1). cbn.
    destruct (IH (k + 1) g1 w1 ltac:(lia) ltac:(lia) Hg1 Hw1) as (g2 & w2 & E2 & Hg2).
    rewrite <- Z.add_1_r, E2. cbn. by eexists _, _.
Qed.

(** ** Activation *)

Definition Aspec (acts : list (Z * Z)) (s rc : Z) : EdgeTo :=
  match next rc s with
  | Some t => if decide ((s, rc) ∈ acts) then EDead else ENode t
  | None => ENull
  end.

Record ainv (acts : list (Z * Z)) (g : Graph) : Prop := {
  ai_graph : ginv g (Aspec acts) (fun s => len (pend acts s));
  ai_acts : ∀ s rc, (s, rc) ∈ acts → 1 ≤ s ≤ n ∧ rc ∈ res s ∧ pend acts s = [];
}.

Lemma built_ainv g : ginv g (Espec (n + 1) []) (degrees (n + 1)) → ainv [] g.
Proof using All.
  intros Hg. split; [|intros s rc H; by apply elem_of_nil in H]. eapply ginv_ext; [exact Hg| |].
  - intros s rc Hs Hrc. unfold Espec, Aspec. pose proof (next_user_spec n res rc s ltac:(lia)) as HN.
    destruct (next rc s) as [t|]; [|done]. destruct HN as (? & _). rewrite decide_True by (left; lia).
    rewrite decide_False; [done|]. apply not_elem_of_nil.
  - intros s Hs. unfold degrees. zcase; done || lia.
Qed.

(** an activation removes one pending predecessor of the next user, and
    nothing else *)
Lemma pending_snoc acts s rc u rc' :
  pending (acts ++ [(s, rc)]) u rc' ↔ pending acts u rc' ∧ ¬ (prev rc' u = Some s ∧ rc' = rc).
Proof using All.
  unfold pending. destruct (prev rc' u) as [p|]; [|naive_solver].
  rewrite not_elem_of_app, list_elem_of_singleton. naive_solver congruence.
Qed.

Lemma pend_other acts s rc u :
  1 ≤ s ≤ n → rc ∈ res s → 1 ≤ u ≤ n → next rc s ≠ Some u → pend (acts ++ [(s, rc)]) u = pend acts u.
Proof using All.
  intros Hs Hrc Hu Hne. unfold pend. apply filter_ext_in. intros rc' Hrc'. rewrite pending_snoc.
  split; [tauto|]. intros Hp. split; [done|]. intros [E ->]. destruct Hne. by apply next_prev.
Qed.

Lemma pend_next acts s rc t :
  1 ≤ s ≤ n → rc ∈ res s → next rc s = Some t → (s, rc) ∉ acts →
  1 ≤ t ≤ n ∧ s < t ∧ rc ∈ res t ∧ rc ∈ pend acts t ∧ len (pend acts t) = len (pend (acts ++ [(s, rc)]) t) + 1.
Proof using All.
  intros Hs Hrc E Ha. pose proof (next_user_spec n res rc s ltac:(lia)) as HN. rewrite E in HN. cbn in HN.
  destruct HN as (Ht & Hrt & _). assert (Ep : prev rc t = Some s) by (apply (next_prev n); done || lia).
  assert (Hp : pending acts t rc) by (unfold pending; by rewrite Ep).
  split; [lia|]. split; [lia|]. split; [done|]. split; [by apply list_elem_of_filter|].
  apply (filter_drop_one _ _ _ rc); [apply Hres; lia|done|done| |].
  - rewrite pending_snoc. tauto.
  - intros y _ Hne. rewrite pending_snoc. naive_solver.
Qed.

Lemma pend_mono acts s rc u : pend acts u = [] → pend (acts ++ [(s, rc)]) u = [].
Proof using All.
  intros H. apply filter_none. intros x Hx Hp. apply pending_snoc in Hp as [Hp _].
  assert (Hin : x ∈ pend acts u) by (by apply list_elem_of_filter). rewrite H in Hin. by apply elem_of_nil in Hin.
Qed.

(** the notification an activation causes *)
Definition act_note (acts : list (Z * Z)) (s rc : Z) : list Z :=
  match next rc s with
  | Some t => if decide (pend (acts ++ [(s, rc)]) t = []) then [t] else []
  | None => []
  end.

Lemma acts_snoc acts s rc :
  (∀ u r, (u, r) ∈ acts → 1 ≤ u ≤ n ∧ r ∈ res u ∧ pend acts u = []) →
  1 ≤ s ≤ n → rc ∈ res s → pend acts s = [] →
  ∀ u r, (u, r) ∈ acts ++ [(s, rc)] → 1 ≤ u ≤ n ∧ r ∈ res u ∧ pend (acts ++ [(s, rc)]) u = [].
Proof using All.
  intros H Hs Hrc Hp u r [Hin|Hin]%elem_of_app.
  - destruct (H u r Hin) as (? & ? & ?). split; [done|]. split; [done|]. by apply pend_mono.
  - apply list_elem_of_singleton in Hin. injection Hin as -> ->. split; [done|]. split; [done|]. by apply pend_mono.
Qed.

Lemma activate_null acts g s rc :
  ainv acts g → 1 ≤ s ≤ n → rc ∈ res s → pend acts s = [] → next rc s = None →
  activate_one s rc g = Ok (g, []) ∧ ainv (acts ++ [(s, rc)]) g.
Proof using All.
  intros [Hg Ha] Hs Hrc Hp E.
  destruct (set_edge _ s _ _ rc EDead (Hres s Hs) (Hg s Hs) Hrc) as (j & e & nd & Hf & He & Hen & _).
  unfold activate_one. rewrite Hf. cbn. rewrite He. cbn. rewrite Hen. unfold Aspec. rewrite E.
  split; [done|]. split; [|by apply acts_snoc]. eapply ginv_ext; [exact Hg| |].
  - intros u r Hu Hr. unfold Aspec. destruct (next r u) as [t|] eqn:Et; [|done].
    apply decide_ext. rewrite elem_of_app, list_elem_of_singleton.
    split; [by left|]. intros [?|[= -> ->]]; [done|congruence].
  - intros u Hu. cbn. f_equal. f_equal. symmetry. apply pend_other; try done. congruence.
Qed.

Lemma activate_live acts g s rc t :
  ainv acts g → 1 ≤ s ≤ n → rc ∈ res s → pend acts s = [] → next rc s = Some t → (s, rc) ∉ acts →
  ∃ g', activate_one s rc g = Ok (g', ent <$> act_note acts s rc) ∧ ainv (acts ++ [(s, rc)]) g'.
Proof using All.
  intros [Hg Ha] Hs Hrc Hp E Hna. destruct (pend_next acts s rc t Hs Hrc E Hna) as (Ht & Hst & Hrt & _ & Hlen).
  destruct (set_edge _ s _ _ rc EDead (Hres s Hs) (Hg s Hs) Hrc) as (j & e & nd & Hf & He & Hen & Hset & Hni & _).
  unfold activate_one. rewrite Hf. cbn. rewrite He. cbn. rewrite Hen. unfold Aspec at 1. rewrite E, decide_False by done.
  destruct (Hg t Ht) as [F1 F2 F3 F4 F5 F6]. destruct (node_nr _ _ _ _ Hg Ht) as [_ Hl]. pose proof (pend_bound acts t Ht).
  rewrite F4, u32_id by lia. rewrite fn_lookup_insert, fn_lookup_insert_ne by lia.
  set (d := len (pend acts t) - 1) in *. assert (Hd : d = len (pend (acts ++ [(s, rc)]) t)) by lia.
  assert (Hnote : (if d =? 0 then NotifyFree (with_degree (g_nodes g t) d) else Ok []) = Ok (ent <$> act_note acts s rc)).
  { unfold act_note. rewrite E. destruct (Z.eqb_spec d 0) as [Hz|Hz].
    - rewrite decide_True by (apply length_zero_iff_nil; lia). unfold NotifyFree. cbn.
      destruct F6 as [-> ->]; [by intros H0; rewrite H0 in Hrt; apply elem_of_nil in Hrt|done].
    - rewrite decide_False; [done|]. intros Hn'. rewrite Hn' in Hd. by cbn in Hd. }
  rewrite Hnote. cbn. rewrite Hset. cbn. eexists. split; [done|]. split; [|by apply acts_snoc].
  assert (Hg1 : ginv (set_node g t (with_degree (g_nodes g t) d)) (Aspec acts) (<[t := d]> (fun u => len (pend acts u)))).
  { eapply ginv_ext; [apply (ginv_set g _ _ t (with_degree (g_nodes g t) d) (Aspec acts t) d Hg)| |done].
    - split; try done. by destruct F1; split.
    - intros u r _ _. destruct (decide (t = u)) as [<-|]; [by rewrite fn_lookup_insert|by rewrite fn_lookup_insert_ne]. }
  eapply ginv_ext; [apply (ginv_set _ _ _ s _ _ _ Hg1 Hni)| |].
  - intros u r Hu Hr. destruct (decide (s = u)) as [<-|Hne].
    + rewrite fn_lookup_insert. destruct (decide (rc = r)) as [<-|Hr'].
      * rewrite fn_lookup_insert. unfold Aspec. rewrite E, decide_True; [done|]. apply elem_of_app. right. by left.
      * rewrite fn_lookup_insert_ne by done. unfold Aspec. destruct (next r s); [|done]. apply decide_ext.
        rewrite elem_of_app, list_elem_of_singleton. naive_solver congruence.
    + rewrite fn_lookup_insert_ne by done. unfold Aspec. destruct (next r u); [|done]. apply decide_ext.
      rewrite elem_of_app, list_elem_of_singleton. naive_solver congruence.
  - intros u Hu. destruct (decide (s = u)) as [<-|Hne].
    + rewrite fn_lookup_insert, Hp. cbn. by rewrite pend_mono.
    + rewrite fn_lookup_insert_ne by done. destruct (decide (t = u)) as [<-|Hne'].
      * by rewrite fn_lookup_insert.
      * rewrite fn_lookup_insert_ne by done. f_equal. f_equal. symmetry. apply pend_other; congruence || done.
Qed.

(** every other activation stops the program *)
Lemma activate_err acts g s rc :
  ainv acts g → 1 ≤ s ≤ n → (rc ∉ res s ∨ (next rc s ≠ None ∧ (s, rc) ∈ acts)) →
  ∃ f, activate_one s rc g = Err f.
Proof using All.
  intros [Hg Ha] Hs Hbad. unfold activate_one. destruct (decide (rc ∈ res s)) as [Hrc|Hrc].
  - destruct Hbad as [?|[Hn' Hin]]; [done|].
    destruct (set_edge _ s _ _ rc EDead (Hres s Hs) (Hg s Hs) Hrc) as (j & e & nd & Hf & He & Hen & _).
    rewrite Hf. cbn. rewrite He. cbn. rewrite Hen. unfold Aspec. destruct (next rc s); [|done].
    rewrite decide_True by done. by eexists.
  - destruct (Hg s Hs) as [F1 F2 _ _ _ _]. rewrite FindEdge_none; [by eexists|done|by rewrite F2].
Qed.

End Facts.
