(* ===== verification/PWVProps.v ===== *)
(** What the dependency graph guarantees to piecewise execution: activations
    follow the serial order on every resource, every transaction is notified
    exactly once, when its last predecessor is done, and the execution cannot
    get stuck. *)

From S2P Require Import Prelude MemProps PWVGraph PWVFacts.

(** the activations of a run, in order *)
Definition acts_of (calls : list (Z * list Z)) : list (Z * Z) :=
  '(sid, rs) ← calls; (fun rc => (seq_of sid, rc)) <$> rs.

(** a graph whose resources were added, before [Build]; the words of the rows
    come from earlier epochs *)
Definition fresh_graph (n : Z) (res : Z → list Z) (ent : Z → Z) (g : Graph) : Prop :=
  ginv n res ent g (fun _ _ => ENull) (fun _ => 0).
Definition old_words (cur : Z) (words : Z → Z) : Prop := ∀ rc, Z.shiftr (words rc) 32 ≠ cur.

(** ** Adding resources *)

(** what a transaction does before [Build]: reserve, add, register *)
Definition ingest (n cur s : Z) (rs : list Z) (entry : Z) (g : Graph) : result Graph :=
  let sid := sid_of cur s in
  g ← ReserveEdge n g sid (len rs);
  g ← AddResources n g sid rs;
  g ← RegisterFreeListener n g sid;
  g ← RegisterRVPListener n g sid;
  RegisterSchedEntry n g sid entry.

Lemma add_edges_ok rs nd i :
  wf_node nd → 0 ≤ i → i + len rs = nr_resources nd →
  ∃ nd', add_edges nd i rs = Ok nd' ∧ wf_node nd' ∧ nr_resources nd' = nr_resources nd ∧
    in_degree nd' = in_degree nd ∧
    edges nd' = take (Z.to_nat i) (edges nd) ++ ((fun rc => mkEdge rc ENull) <$> rs).
Proof.
  revert nd i. induction rs as [|rc rs IH]; intros nd i Hwf Hi Hl.
  - exists nd. cbn. rewrite app_nil_r. pose proof (edges_len nd Hwf). cbn in Hl.
    rewrite firstn_all2 by lia. done.
  - cbn [length] in Hl. cbn [add_edges].
    destruct (set_at_ok nd i (mkEdge rc ENull) Hwf ltac:(lia)) as (nd1 & -> & Hwf1 & Hed & Hd & _ & Hnr & _). cbn.
    destruct (IH nd1 (i + 1) Hwf1 ltac:(lia) ltac:(lia)) as (nd2 & -> & Hwf2 & Hnr2 & Hd2 & Hed2).
    exists nd2. repeat split; try congruence; try apply Hwf2. rewrite Hed2, Hed. cbn [fmap list_fmap].
    replace (Z.to_nat (i + 1)) with (S (Z.to_nat i)) by lia. pose proof (edges_len nd Hwf).
    rewrite (take_S_r _ _ (mkEdge rc ENull)) by (apply list_lookup_insert_eq; lia).
    rewrite <- app_assoc, take_insert_ge by lia. done.
Qed.

(** the steps of [ingest] on a node that is still zero *)
Lemma ingest_fresh n cur res ent s rs g g' :
  0 ≤ n < 2 ^ 24 → 0 ≤ cur < 2 ^ 32 → 1 ≤ s ≤ n → 0 < len rs ≤ 256 → g_nodes g s = zero_node →
  fresh_graph n res ent g → ingest n cur s rs (ent s) g = Ok g' →
  fresh_graph n (<[s := rs]> res) ent g' ∧ ∀ u, u ≠ s → g_nodes g' u = g_nodes g u.
Proof.
  intros Hn Hcur Hs Hrs Hz Hf H. unfold ingest, ReserveEdge, AddResources, RegisterFreeListener, RegisterRVPListener,
    RegisterSchedEntry, set_node in H.
  rewrite (from_serial_sid n cur ) in H by done. cbn in H. rewrite Hz in H. cbn in H.
  rewrite !fn_lookup_insert in H. cbn in H. rewrite !Z.add_0_l, !(u16_id (len rs)) in H by lia.
  apply bind_ok in H as (g1 & H1 & H). apply bind_ok in H1 as ([nd b] & H0 & H1). cbn in H, H1.
  assert (Hnd : nr_resources nd = 0 ∧ tot_resources nd = len rs ∧ in_degree nd = 0 ∧ 
    (1 < len rs → ∃ l, extra nd = Some l ∧ len l = len rs - 1)).
  { unfold kInlineEdges in H0. destruct (Z.ltb_spec 1 (len rs)); cbn in H0.
    - apply bind_ok in H0 as ([p b'] & _ & H0). injection H0 as <- <-. cbn. refine (conj eq_refl (conj eq_refl (conj eq_refl _))). intros _. eexists. split; [done|]. rewrite length_replicate. lia.
    - injection H0 as <- <-. cbn. refine (conj eq_refl (conj eq_refl (conj eq_refl _))). lia. }
  destruct Hnd as (E1 & E2 & E3 & E4). rewrite E1, E2, Z.add_0_l, !(u16_id (len rs)) in H1 by lia.
  apply bind_ok in H1 as (? & _ & H1). apply bind_ok in H1 as (nd1 & E0 & H1).
  destruct (add_edges_ok rs (with_counts nd (len rs) (len rs) (mark nd)) 0) as (nd' & Ea & Hwf & Hnr & Hd & Hed);
    [split; cbn; [lia|lia|intros; by apply E4]|lia|done|].
  rewrite Ea in E0. injection E0 as <-. injection H1 as <-. injection H as <-. split.
  - intros u Hu. cbn. destruct (decide (s = u)) as [<-|Hne].
    + change (edges nd' = (fun rc => mkEdge rc ENull) <$> rs) in Hed. cbn in Hd. rewrite !fn_lookup_insert. split; rewrite ?fn_lookup_insert; cbn.
      * by destruct Hwf.
      * change (resource <$> edges nd' = rs). rewrite Hed, <- list_fmap_compose. apply list_fmap_id.
      * change (∀ e, e ∈ edges nd' → e_node e = ENull). rewrite Hed. by intros e (rc & -> & _)%list_elem_of_fmap.
      * by rewrite Hd.
      * rewrite bool_decide_true; [done|]. intros ->. cbn in Hrs. lia.
      * done.
    + rewrite !fn_lookup_insert_ne by done. destruct (Hf u Hu) as [F1 F2 F3 F4 F5 F6].
      split; rewrite ?fn_lookup_insert_ne by done; done.
  - intros u Hu. cbn. by rewrite !fn_lookup_insert_ne by done.
Qed.

Section Run.
Context (n cur : Z) (res : Z → list Z) (ent : Z → Z).
Hypothesis Hn : 0 ≤ n < 2 ^ 24.
Hypothesis Hcur : 0 ≤ cur < 2 ^ 32.
Hypothesis Hres : ∀ s, 1 ≤ s ≤ n → NoDup (res s).

Abbreviation pend := (pend res).

(** the transactions notified so far *)
Definition notified (acts : list (Z * Z)) (L : list Z) : Prop :=
  NoDup L ∧ ∀ s, s ∈ L ↔ 1 ≤ s ≤ n ∧ res s ≠ [] ∧ pend acts s = [].

Definition ordered (acts : list (Z * Z)) : Prop :=
  ∀ l1 s rc l2, acts = l1 ++ (s, rc) :: l2 → 1 ≤ s ≤ n ∧ rc ∈ res s ∧ pend l1 s = [].

Lemma ordered_snoc acts s rc :
  ordered acts → 1 ≤ s ≤ n → rc ∈ res s → pend acts s = [] → ordered (acts ++ [(s, rc)]).
Proof using All.
  intros Ho Hs Hrc Hp l1 u r l2 E. destruct l2 as [|x l2 _] using rev_ind.
  - apply app_inj_tail in E as [<- [= <- <-]]. done.
  - rewrite app_comm_cons, app_assoc in E. apply app_inj_tail in E as [-> _]. by eapply Ho.
Qed.

Lemma notified_snoc acts L s rc :
  notified acts L → 1 ≤ s ≤ n → rc ∈ res s → (s, rc) ∉ acts ∨ next_user n res rc s = None →
  notified (acts ++ [(s, rc)]) (L ++ act_note n res acts s rc).
Proof using All.
  intros [Hnd HL] Hs Hrc Hna. unfold act_note. destruct (next_user n res rc s) as [t|] eqn:E.
  - destruct Hna as [Hna|]; [|done].
    destruct (pend_next n cur res ent Hn Hcur Hres acts s rc t Hs Hrc E Hna) as (Ht & _ & Hrt & Hp & _).
    assert (HtL : t ∉ L).
    { intros (_ & _ & Hp')%HL. rewrite Hp' in Hp. by apply elem_of_nil in Hp. }
    assert (Hrt' : res t ≠ []) by (intros E0; rewrite E0 in Hrt; by apply elem_of_nil in Hrt).
    case_decide as Hd.
    + split.
      * apply NoDup_app. split; [done|]. split; [|apply NoDup_singleton].
        intros x Hx ->%list_elem_of_singleton. done.
      * intros u. rewrite elem_of_app, list_elem_of_singleton, HL.
        destruct (decide (u = t)) as [->|Hne]; [naive_solver|]. split.
        -- intros [(? & ? & ?)| ->]; [|done]. split; [done|]. split; [done|]. by apply (pend_mono n cur res ent).
        -- intros (? & ? & Hu). left. split; [done|]. split; [done|].
           rewrite (pend_other n cur res ent) in Hu; try done. congruence.
    + rewrite app_nil_r. split; [done|]. intros u. rewrite HL. destruct (decide (u = t)) as [->|Hne].
      * split; [|naive_solver]. intros (_ & _ & Hp'). rewrite Hp' in Hp. by apply elem_of_nil in Hp.
      * split; intros (Hu & ? & Hpu); (split; [done|]); (split; [done|]).
        -- by apply (pend_mono n cur res ent).
        -- rewrite (pend_other n cur res ent) in Hpu; try done. congruence.
  - rewrite app_nil_r. split; [done|]. intros u. rewrite HL.
    split; intros (Hu & ? & Hpu); (split; [done|]); (split; [done|]);
      [by apply (pend_mono n cur res ent)|rewrite (pend_other n cur res ent) in Hpu; try done; congruence].
Qed.

(** the state of a run: the graph, the activations and the notifications *)
Record run_inv (acts : list (Z * Z)) (L : list Z) (g : Graph) : Prop := {
  ri_graph : ainv n res ent acts g;
  ri_notes : notified acts L;
  ri_order : ordered acts;
}.

(** one activation keeps it, and it is allowed exactly once per resource *)
Lemma activate_one_run acts L g s rc :
  run_inv acts L g → 1 ≤ s ≤ n → rc ∈ res s → pend acts s = [] →
  (s, rc) ∉ acts ∨ next_user n res rc s = None →
  ∃ g' L', activate_one s rc g = Ok (g', ent <$> L') ∧ run_inv (acts ++ [(s, rc)]) (L ++ L') g'.
Proof using All.
  intros [Hg HL Ho] Hs Hrc Hp Hna.
  pose proof (notified_snoc _ _ _ _ HL Hs Hrc Hna). pose proof (ordered_snoc _ _ _ Ho Hs Hrc Hp).
  destruct (next_user n res rc s) as [t|] eqn:E.
  - destruct Hna as [Hna|]; [|done].
    destruct (activate_live n cur res ent Hn Hcur Hres acts g s rc t Hg Hs Hrc Hp E Hna) as (g' & E' & Hg').
    exists g', (act_note n res acts s rc). split; [done|]. by split.
  - destruct (activate_null n cur res ent Hn Hcur Hres acts g s rc Hg Hs Hrc Hp E) as [E' Hg'].
    exists g, []. split; [done|]. unfold act_note in *. rewrite E in *. by split.
Qed.

Lemma activate_all_run rs acts L g s g' notes :
  run_inv acts L g → 1 ≤ s ≤ n → pend acts s = [] → activate_all s rs g = Ok (g', notes) →
  ∃ L', notes = ent <$> L' ∧ run_inv (acts ++ ((fun rc => (s, rc)) <$> rs)) (L ++ L') g'.
Proof using All.
  revert acts L g notes. induction rs as [|rc rs IH]; intros acts L g notes Hi Hs Hp H; cbn in H.
  - injection H as -> <-. exists []. cbn. by rewrite !app_nil_r.
  - apply bind_ok in H as ([g1 n1] & E1 & H). apply bind_ok in H as ([g2 n2] & E2 & H). cbn in H.
    injection H as -> <-.
    assert (Hok : rc ∈ res s ∧ ((s, rc) ∉ acts ∨ next_user n res rc s = None)).
    { destruct (decide (rc ∈ res s ∧ ((s, rc) ∉ acts ∨ next_user n res rc s = None))) as [|Hbad]; [done|].
      destruct (activate_err n cur res ent Hn Hcur Hres acts g s rc (ri_graph _ _ _ Hi) Hs) as [f Hf]; [|congruence].
      destruct (decide (rc ∈ res s)); [|by left]. right.
      destruct (decide ((s, rc) ∈ acts)); [|naive_solver]. naive_solver. }
    destruct Hok as [Hrc Hna].
    destruct (activate_one_run acts L g s rc Hi Hs Hrc Hp Hna) as (g1' & L1 & E1' & Hi1).
    rewrite E1' in E1. injection E1 as -> <-.
    destruct (IH _ _ _ _ Hi1 Hs ltac:(by apply (pend_mono n cur res ent)) E2) as (L2 & -> & Hi2).
    exists (L1 ++ L2). rewrite fmap_app. split; [done|]. by rewrite !app_assoc, <- (app_assoc acts) in *.
Qed.

Lemma run_run calls acts L g g' notes :
  run_inv acts L g → run n calls g = Ok (g', notes) →
  ∃ L', notes = ent <$> L' ∧ run_inv (acts ++ acts_of calls) (L ++ L') g'.
Proof using All.
  revert acts L g notes. induction calls as [|[sid rs] calls IH]; intros acts L g notes Hi H; cbn in H.
  - injection H as -> <-. exists []. cbn. by rewrite !app_nil_r.
  - apply bind_ok in H as ([g1 n1] & E1 & H). apply bind_ok in H as ([g2 n2] & E2 & H). cbn in H.
    injection H as -> <-. unfold ActivateResources, from_serial_id in E1.
    destruct (Z.leb_spec 1 (seq_of sid)), (Z.leb_spec (seq_of sid) n); try done. cbn in E1.
    inv_ok. zprop. assert (Hs : 1 ≤ seq_of sid ≤ n) by lia.
    destruct (ai_graph _ _ _ _ _ (ri_graph _ _ _ Hi) _ Hs) as [_ _ _ Hd _ _].
    assert (Hp : pend acts (seq_of sid) = []) by (apply length_zero_iff_nil; lia).
    destruct (activate_all_run rs acts L g _ g1 n1 Hi Hs Hp ltac:(done)) as (L1 & -> & Hi1).
    destruct (IH _ _ _ _ Hi1 E2) as (L2 & -> & Hi2).
    exists (L1 ++ L2). rewrite fmap_app. split; [done|]. cbn. by rewrite !app_assoc in *.
Qed.

(** the state after [Build] *)
Lemma build_run g words :
  fresh_graph n res ent g → old_words cur words →
  ∃ g' words' L, Build n cur g words = Ok (g', words', ent <$> L) ∧ run_inv [] L g'.
Proof using All.
  intros Hg Hw. destruct (build_nodes_ok n cur res ent Hn Hcur Hres (Z.to_nat n) 1 g words) as (g' & w' & E & Hg').
  - lia.
  - lia.
  - eapply ginv_ext; [exact Hg| |].
    + intros s rc Hs _. unfold Espec. pose proof (next_user_spec n res rc s ltac:(lia)) as HN.
      destruct (next_user n res rc s) as [t|]; [|done]. destruct HN as (? & _).
      rewrite decide_False; [done|]. intros [?|[_ ?%elem_of_nil]]; [lia|done].
    + intros s Hs. unfold degrees. rewrite (proj2 (Z.ltb_ge s 1)) by lia. done.
  - intros rc. rewrite decide_False by apply not_elem_of_nil. cbn. apply Hw.
  - rewrite Z2Nat.id in E by lia. unfold Build. rewrite E.
    set (L := filter (fun s => res s ≠ [] ∧ pend [] s = []) (seqZ 1 n)).
    exists g', w', L. split.
    + do 2 f_equal. unfold L. generalize (seqZ 1 n). induction l as [|x l IH]; [done|].
      rewrite bind_cons, filter_cons. unfold free_note at 1. case_decide; cbn [app]; rewrite IH; [by rewrite fmap_cons|done].
    + split; [by apply (built_ainv n cur res ent)| |].
      * split; [apply NoDup_filter, NoDup_seqZ|]. intros s. unfold L. rewrite list_elem_of_filter, elem_of_seqZ.
        naive_solver lia.
      * intros l1 s rc l2 E0. by destruct l1.
Qed.

(** nothing pending means that all the earlier users are done *)
Lemma ordered_earlier acts s rc p :
  ordered acts → 1 ≤ s ≤ n → pend acts s = [] → rc ∈ res s → 1 ≤ p < s → rc ∈ res p → (p, rc) ∈ acts.
Proof using All.
  revert acts p. induction (Z.lt_wf 1 s) as [s _ IH]. intros acts p Ho Hs Hp Hrc Hps Hrp.
  pose proof (prev_user_spec res rc s ltac:(lia)) as HP.
  assert (Hnp : ¬ pending res acts s rc).
  { intros H. assert (Hin : rc ∈ pend acts s) by (by apply list_elem_of_filter). rewrite Hp in Hin. by apply elem_of_nil in Hin. }
  unfold pending in Hnp. destruct (prev_user res rc s) as [q|]; cbn in HP.
  - destruct HP as (Hq & Hrq & Hbetween). assert (Hqa : (q, rc) ∈ acts) by (destruct (decide ((q, rc) ∈ acts)); tauto).
    destruct (Z.eq_dec p q) as [->|Hne]; [done|].
    assert (Hpq : p < q) by (destruct (Z_lt_le_dec p q); [done|destruct (Hbetween p); [lia|done]]).
    apply list_elem_of_split in Hqa as (l1 & l2 & ->). destruct (Ho l1 q rc l2 eq_refl) as (? & _ & Hpq').
    apply elem_of_app. left.
    apply (IH q); [lia| |done|done|done|lia|done].
    intros m1 u r m2 ->. apply (Ho m1 u r (m2 ++ (q, rc) :: l2)). by rewrite <- app_assoc.
  - destruct (HP p); [lia|done].
Qed.

End Run.

(** running one more call *)
Lemma run_app n c1 c2 g : run n (c1 ++ c2) g =
  ('(g, n1) ← run n c1 g; '(g, n2) ← run n c2 g; Ok (g, n1 ++ n2)).
Proof.
  revert g. induction c1 as [|[sid rs] c1 IH]; intros g; cbn.
  - by destruct (run n c2 g) as [[]|].
  - destruct (ActivateResources n g sid rs) as [[g1 n1]|]; [cbn|done]. rewrite IH.
    destruct (run n c1 g1) as [[g2 n2]|]; [cbn|done]. destruct (run n c2 g2) as [[g3 n3]|]; [cbn|done].
    by rewrite app_assoc.
Qed.

(** the earliest transaction with something left to activate can go on *)
Lemma run_next n cur res ent acts L g s rc :
  0 ≤ n < 2 ^ 24 → 0 ≤ cur < 2 ^ 32 → (∀ s, 1 ≤ s ≤ n → NoDup (res s)) →
  run_inv n res ent acts L g → 1 ≤ s ≤ n → rc ∈ res s → (s, rc) ∉ acts →
  ∃ s' rc' r, s' ≤ s ∧ s' ∈ L ∧ rc' ∈ res s' ∧ (s', rc') ∉ acts ∧
    ActivateResources n g (sid_of cur s') [rc'] = Ok r.
Proof.
  intros Hn Hcur Hres Hi. revert rc. induction (Z.lt_wf 1 s) as [s _ IH]. intros rc Hs Hrc Hna.
  destruct (pend res acts s) as [|x l] eqn:Hp.
  - destruct (activate_one_run n cur res ent Hn Hcur Hres acts L g s rc Hi Hs Hrc Hp (or_introl Hna)) as (g' & L' & E & _).
    exists s, rc, (g', ent <$> L'). split; [lia|]. destruct Hi as [Hg [_ HL] _]. split.
    { apply HL. split; [done|]. split; [|done]. intros E0. rewrite E0 in Hrc. by apply elem_of_nil in Hrc. }
    split; [done|]. split; [done|]. unfold ActivateResources. rewrite from_serial_sid by done. cbn.
    destruct (ai_graph _ _ _ _ _ Hg s Hs) as [_ _ _ -> _ _]. rewrite Hp. cbn. rewrite E. cbn. by rewrite app_nil_r.
  - assert (Hx : x ∈ pend res acts s) by (rewrite Hp; left). apply list_elem_of_filter in Hx as [Hx Hrx].
    unfold pending in Hx. pose proof (prev_user_spec res x s ltac:(lia)) as HP.
    destruct (prev_user res x s) as [p|]; [|done]. destruct HP as (Hp' & Hrp & _).
    destruct (IH p ltac:(lia) x ltac:(lia) Hrp Hx) as (s' & rc' & r & ? & ?). exists s', rc', r. split; [lia|done].
Qed.

(** ** Properties *)

(** C37. Piecewise execution respects the serial order: in every run of
    activations after [Build] that the program performs without aborting, when a
    transaction activates its first resource, all the transactions before it
    that share any of its resources have already activated that resource. *)
Theorem pwv_serial_order n cur res ent g words g1 words1 notes1 calls g2 notes2 :
  0 ≤ n < 2 ^ 24 → 0 ≤ cur < 2 ^ 32 → (∀ s, 1 ≤ s ≤ n → NoDup (res s)) →
  fresh_graph n res ent g → old_words cur words →
  Build n cur g words = Ok (g1, words1, notes1) → run n calls g1 = Ok (g2, notes2) →
  ∀ l1 s rc l2, acts_of calls = l1 ++ (s, rc) :: l2 →
    1 ≤ s ≤ n ∧ rc ∈ res s ∧ ∀ p r, 1 ≤ p < s → r ∈ res s → r ∈ res p → (p, r) ∈ l1.
Proof.
  intros Hn Hcur Hres Hg Hw HB HR l1 s rc l2 E.
  destruct (build_run n cur res ent Hn Hcur Hres g words Hg Hw) as (g1' & w1' & L & HB' & Hi).
  rewrite HB in HB'. injection HB' as -> -> ->.
  destruct (run_run n cur res ent Hn Hcur Hres calls [] L _ _ _ Hi HR) as (L' & _ & Hi').
  destruct Hi' as [_ _ Ho]. cbn in Ho. destruct (Ho l1 s rc l2 E) as (Hs & Hrc & Hp). split; [done|]. split; [done|].
  intros p r Hps Hr Hrp. apply (ordered_earlier n cur res ent Hn Hcur Hres l1 s r p); try done.
  intros m1 u x m2 ->. apply (Ho m1 u x (m2 ++ (s, rc) :: l2)). by rewrite E, <- app_assoc.
Qed.

(** C38. [Build] succeeds, and the scheduler entry of every transaction is handed
    to the free listener at most once, exactly when all the earlier users of
    its resources have activated them; and as long as some resource is left to
    activate, a notified transaction can activate one of its own without
    aborting: the graph never gets stuck. *)
Theorem pwv_notifies_and_progresses n cur res ent g words :
  0 ≤ n < 2 ^ 24 → 0 ≤ cur < 2 ^ 32 → (∀ s, 1 ≤ s ≤ n → NoDup (res s)) →
  fresh_graph n res ent g → old_words cur words →
  ∃ g1 words1 notes1, Build n cur g words = Ok (g1, words1, notes1) ∧
    ∀ calls g2 notes2, run n calls g1 = Ok (g2, notes2) →
      ∃ L, notes1 ++ notes2 = ent <$> L ∧ NoDup L ∧
        (∀ s, s ∈ L ↔ 1 ≤ s ≤ n ∧ res s ≠ [] ∧
           ∀ p r, 1 ≤ p < s → r ∈ res s → r ∈ res p → (p, r) ∈ acts_of calls) ∧
        (∀ s rc, 1 ≤ s ≤ n → rc ∈ res s → (s, rc) ∉ acts_of calls →
           ∃ s' rc', s' ∈ L ∧ rc' ∈ res s' ∧ (s', rc') ∉ acts_of calls ∧
             ∃ r, run n (calls ++ [(sid_of cur s', [rc'])]) g1 = Ok r).
Proof.
  intros Hn Hcur Hres Hg Hw.
  destruct (build_run n cur res ent Hn Hcur Hres g words Hg Hw) as (g1 & w1 & L0 & HB & Hi).
  exists g1, w1, (ent <$> L0). split; [done|]. intros calls g2 notes2 HR.
  destruct (run_run n cur res ent Hn Hcur Hres calls [] L0 _ _ _ Hi HR) as (L' & -> & Hi').
  cbn in Hi'. exists (L0 ++ L'). rewrite fmap_app. split; [done|]. assert (Hi2 := Hi').
  destruct Hi2 as [_ [Hnd HL] Ho]. split; [done|]. split.
  - intros s. rewrite HL. split; intros (Hs & Hr & H); (split; [done|]); (split; [done|]).
    + intros p r Hps Hrs Hrp. by apply (ordered_earlier n cur res ent Hn Hcur Hres _ s).
    + apply filter_none. intros rc Hrc Hp. unfold pending in Hp. pose proof (prev_user_spec res rc s ltac:(lia)) as HP.
      destruct (prev_user res rc s) as [p|]; [|done]. destruct HP as (Hps & Hrp & _). by destruct Hp; apply H.
  - intros s rc Hs Hrc Hna. destruct (run_next n cur res ent _ _ _ s rc Hn Hcur Hres Hi' Hs Hrc Hna)
      as (s' & rc' & [g3 n3] & _ & HsL & Hrc' & Hna' & E).
    exists s', rc'. split; [done|]. split; [done|]. split; [done|].
    eexists. rewrite run_app, HR. cbn. rewrite E. cbn. done.
Qed.

(** ** A concrete epoch: three transactions, two rows *)

Definition ex_res : Z → list Z := <[3 := [200; 100]]> (<[2 := [200]]> (<[1 := [100]]> (fun _ => []))).
Definition ex_empty : Graph := mkGraph (fun _ => zero_node) (mkBrk 0 4096 0).
Definition ex_graph : result Graph :=
  g ← ingest 3 7 1 [100] 11 ex_empty;
  g ← ingest 3 7 2 [200] 12 g;
  ingest 3 7 3 [200; 100] 13 g.

Lemma ex_fresh : ∃ g, ex_graph = Ok g ∧ fresh_graph 3 ex_res (fun s => 10 + s) g.
Proof.
  assert (H0 : fresh_graph 3 (fun _ => []) (fun s => 10 + s) ex_empty).
  { intros s Hs. split; cbn; try done. intros e He. by apply elem_of_nil in He. }
  unfold ex_graph. destruct (ingest 3 7 1 [100] 11 ex_empty) as [g1|] eqn:E1; [|done].
  destruct (ingest_fresh 3 7 _ (fun s => 10 + s) 1 [100] ex_empty g1 ltac:(lia) ltac:(lia) ltac:(lia) ltac:(cbn; lia) eq_refl H0 E1) as [H1 U1].
  cbn. destruct (ingest 3 7 2 [200] 12 g1) as [g2|] eqn:E2; [|exfalso; vm_compute in E1; injection E1 as <-; vm_compute in E2; done].
  destruct (ingest_fresh 3 7 _ (fun s => 10 + s) 2 [200] g1 g2 ltac:(lia) ltac:(lia) ltac:(lia) ltac:(cbn; lia) (U1 2 ltac:(lia)) H1 E2) as [H2 U2].
  cbn. destruct (ingest 3 7 3 [200; 100] 13 g2) as [g3|] eqn:E3.
  2:{ exfalso. vm_compute in E1. injection E1 as <-. vm_compute in E2. injection E2 as <-. vm_compute in E3. done. }
  exists g3. split; [done|].
  apply (ingest_fresh 3 7 _ (fun s => 10 + s) 3 [200; 100] g2 g3 ltac:(lia) ltac:(lia) ltac:(lia) ltac:(cbn; lia)
    (eq_trans (U2 3 ltac:(lia)) (U1 3 ltac:(lia))) H2 E3).
Qed.

Lemma ex_nodup s : 1 ≤ s ≤ 3 → NoDup (ex_res s).
Proof.
  intros Hs. assert (s = 1 ∨ s = 2 ∨ s = 3) as [->|[->| ->]] by lia.
  - apply (NoDup_singleton 100).
  - apply (NoDup_singleton 200).
  - change (NoDup [200; 100]). apply NoDup_cons. split; [|apply NoDup_singleton].
    by intros ?%list_elem_of_singleton.
Qed.

Definition ex_calls : list (Z * list Z) := [(sid_of 7 1, [100]); (sid_of 7 2, [200]); (sid_of 7 3, [200; 100])].

Lemma pwv_serial_order_witness :
  ∃ g g1 words1 notes1 g2 notes2, ex_graph = Ok g ∧ Build 3 7 g (fun _ => 0) = Ok (g1, words1, notes1) ∧
    run 3 ex_calls g1 = Ok (g2, notes2) ∧ (1, 100) ∈ [(1, 100); (2, 200)].
Proof.
  destruct ex_fresh as (g & E & H).
  destruct (Build 3 7 g (fun _ => 0)) as [[[g1 words1] notes1]|] eqn:EB.
  2:{ exfalso. vm_compute in E. injection E as <-. vm_compute in EB. discriminate EB. }
  destruct (run 3 ex_calls g1) as [[g2 notes2]|] eqn:ER.
  2:{ exfalso. vm_compute in E. injection E as <-. vm_compute in EB. injection EB as <- <- <-.
      vm_compute in ER. discriminate ER. }
  exists g, g1, words1, notes1, g2, notes2. split; [exact E|]. split; [exact EB|]. split; [exact ER|].
  destruct (pwv_serial_order 3 7 ex_res (fun s => 10 + s) g (fun _ => 0) g1 words1 notes1 ex_calls g2 notes2
    ltac:(lia) ltac:(lia) ex_nodup H ltac:(intros rc; vm_compute; discriminate) EB ER [(1, 100); (2, 200)] 3 200 [(3, 100)] eq_refl)
    as (_ & _ & Hall).
  apply (Hall 1 100); [lia|right; left|left].
Defined.

Lemma pwv_notifies_and_progresses_witness :
  ∃ g g1 words1 notes1, ex_graph = Ok g ∧ Build 3 7 g (fun _ => 0) = Ok (g1, words1, notes1) ∧
    ∃ s' rc' r, run 3 [(sid_of 7 s', [rc'])] g1 = Ok r.
Proof.
  destruct ex_fresh as (g & E & H). exists g.
  destruct (pwv_notifies_and_progresses 3 7 ex_res (fun s => 10 + s) g (fun _ => 0)
    ltac:(lia) ltac:(lia) ex_nodup H ltac:(intros rc; vm_compute; discriminate)) as (g1 & words1 & notes1 & EB & Hrun).
  exists g1, words1, notes1. split; [exact E|]. split; [exact EB|].
  destruct (Hrun [] g1 [] eq_refl) as (L & _ & _ & _ & Hp).
  destruct (Hp 3 200 ltac:(lia) ltac:(left) ltac:(apply not_elem_of_nil)) as (s' & rc' & _ & _ & _ & r & Hr).
  exists s', rc', r. exact Hr.
Defined.

(** The slot index of [Node::at] is a byte while a node counts its resources in
    16 bits: the slot of the 257th resource is the first one. *)
Lemma wide_node_aliases nd i : 0 ≤ i < 256 → node_at nd (256 + i) = node_at nd i.
Proof.
  intros Hi. unfold node_at. replace (u8 (256 + i)) with (u8 i); [done|].
  unfold u8. rewrite <- (Z.mod_add i 1 (2 ^ 8)) by lia. f_equal. lia.
Qed.
