(* ===== verification/Locks.v ===== *)
(** The spin locks of util/locks.cc: the test-and-set [SpinLock] and the MCS
    queue lock, as a step relation of the threads that use it. One step is one
    atomic access of the source; the queue node of a thread is a local object
    that is fresh in every call. *)

From S2P Require Import Prelude.

(** ** [SpinLock] *)

(** [Lock] spins while the flag is set *)
Definition SpinLock_Lock (lock : bool) : result bool := if lock then Err Blocked else Ok true.
(** result and new value of the compare-and-exchange *)
Definition SpinLock_TryLock (lock : bool) : bool * bool := if lock then (false, lock) else (true, true).
Definition SpinLock_Unlock (lock : bool) : bool := false.

(** ** [MCSSpinLock] *)

(** where a thread is: [Link p] has swapped itself into [tail] behind [p] and
    has not yet written [p->next]; [Wait] spins on [done]; [Crit] holds the
    lock; the others are inside [Unlock]: before the compare-and-exchange, in
    the loop that waits for [next], and before [next->done = true] *)
Inductive pc := Idle | Link (p : Z) | Wait | Crit | Cas | Next | Signal.

#[export] Instance pc_eq_dec : EqDecision pc.
Proof. solve_decision. Defined.

(** [done] and [next] are the fields of the threads' [QNode]s; [arrived] and
    [entered] record the order of the swaps and of the acquisitions *)
Record MCS := mkMCS {
  tail : option Z;
  done : Z → bool;
  next : Z → option Z;
  at_pc : Z → pc;
  arrived : list Z;
  entered : list Z;
}.

Definition init : MCS := mkMCS None (fun _ => false) (fun _ => None) (fun _ => Idle) [] [].

(** [tail.exchange(qnode)] of [Lock] with a fresh node *)
Definition Lock_swap (t : Z) (s : MCS) : MCS :=
  let s' := mkMCS (Some t) (<[t := false]> (done s)) (<[t := None]> (next s)) in
  match tail s with
  | None => s' (<[t := Crit]> (at_pc s)) (arrived s ++ [t]) (entered s ++ [t])
  | Some last => s' (<[t := Link last]> (at_pc s)) (arrived s ++ [t]) (entered s)
  end.
(** [last->next = qnode] *)
Definition Lock_link (t p : Z) (s : MCS) : MCS :=
  mkMCS (tail s) (done s) (<[p := Some t]> (next s)) (<[t := Wait]> (at_pc s)) (arrived s) (entered s).
(** [while (!qnode->done)] ends *)
Definition Lock_acquire (t : Z) (s : MCS) : MCS :=
  mkMCS (tail s) (done s) (next s) (<[t := Crit]> (at_pc s)) (arrived s) (entered s ++ [t]).
(** [tail.compare_exchange_strong(nullptr, qnode)] of [TryLock] *)
Definition TryLock (t : Z) (s : MCS) : bool * MCS :=
  match tail s with
  | None => (true, mkMCS (Some t) (<[t := false]> (done s)) (<[t := None]> (next s)) (<[t := Crit]> (at_pc s))
                     (arrived s ++ [t]) (entered s ++ [t]))
  | Some _ => (false, s)
  end.
Definition IsLocked (s : MCS) : bool := bool_decide (tail s ≠ None).
(** [if (!qnode->next)] of [Unlock] *)
Definition Unlock_read (t : Z) (s : MCS) : MCS :=
  mkMCS (tail s) (done s) (next s)
    (<[t := if next s t then Signal else Cas]> (at_pc s)) (arrived s) (entered s).
(** [tail.compare_exchange_strong(owner, nullptr)] *)
Definition Unlock_cas (t : Z) (s : MCS) : MCS :=
  if decide (tail s = Some t)
  then mkMCS None (done s) (next s) (<[t := Idle]> (at_pc s)) (arrived s) (entered s)
  else mkMCS (tail s) (done s) (next s) (<[t := Next]> (at_pc s)) (arrived s) (entered s).
(** [while (!qnode->next.load())] ends *)
Definition Unlock_next (t : Z) (s : MCS) : MCS :=
  mkMCS (tail s) (done s) (next s) (<[t := Signal]> (at_pc s)) (arrived s) (entered s).
(** [qnode->next.load()->done = true] *)
Definition Unlock_signal (t x : Z) (s : MCS) : MCS :=
  mkMCS (tail s) (<[x := true]> (done s)) (next s) (<[t := Idle]> (at_pc s)) (arrived s) (entered s).

Inductive step (s : MCS) : MCS → Prop :=
  | step_swap t : at_pc s t = Idle → step s (Lock_swap t s)
  | step_link t p : at_pc s t = Link p → step s (Lock_link t p s)
  | step_acquire t : at_pc s t = Wait → done s t = true → step s (Lock_acquire t s)
  | step_try t : at_pc s t = Idle → step s (TryLock t s).2
  | step_read t : at_pc s t = Crit → step s (Unlock_read t s)
  | step_cas t : at_pc s t = Cas → step s (Unlock_cas t s)
  | step_next t x : at_pc s t = Next → next s t = Some x → step s (Unlock_next t s)
  | step_signal t x : at_pc s t = Signal → next s t = Some x → step s (Unlock_signal t x s).

Definition reachable : MCS → Prop := rtc step init.

(** ** The queue behind the pointers *)

Definition inside (c : pc) : bool := match c with Crit | Cas | Next | Signal => true | _ => false end.

Record inv (s : MCS) (q : list Z) : Prop := {
  i_tail : tail s = last q;
  i_nodup : NoDup q;
  i_idle : ∀ t, t ∈ q ↔ at_pc s t ≠ Idle;
  i_head : ∀ t, q !! 0%nat = Some t → inside (at_pc s t) ∨ (at_pc s t = Wait ∧ done s t = true);
  i_adj : ∀ i p x, q !! i = Some p → q !! S i = Some x →
    done s x = false ∧ ((at_pc s x = Link p ∧ next s p = None) ∨ (at_pc s x = Wait ∧ next s p = Some x));
  i_last : ∀ i p, q !! i = Some p → q !! S i = None → next s p = None;
  i_next : ∀ t, at_pc s t = Next → is_Some (q !! 1%nat);
  i_signal : ∀ t, at_pc s t = Signal → next s t ≠ None;
  i_log : arrived s = entered s ++ filter (fun t => inside (at_pc s t) = false) q;
}.

Lemma mcs_inv_init : inv init [].
Proof. split; cbn; try done. - apply NoDup_nil_2. - intros t. split; [by intros ?%elem_of_nil|done]. Qed.

(** a thread inside the lock, or with its flag set, is the head of the queue *)
Lemma inside_head s q t : inv s q → inside (at_pc s t) → ∃ q', q = t :: q'.
Proof.
  intros H Ht. assert (Hin : t ∈ q) by (apply (i_idle _ _ H); intros E; by rewrite E in Ht).
  apply list_elem_of_lookup in Hin as [[|i] Hi].
  - destruct q as [|y q]; [done|]. injection Hi as ->. by eexists.
  - destruct (lookup_lt_is_Some_2 q i) as [p Hp]; [apply lookup_lt_Some in Hi; lia|].
    destruct (i_adj _ _ H i p t Hp Hi) as [_ [[E _]|[E _]]]; by rewrite E in Ht.
Qed.

Lemma done_head s q t : inv s q → at_pc s t = Wait → done s t = true → ∃ q', q = t :: q'.
Proof.
  intros H Ht Hd. assert (Hin : t ∈ q) by (apply (i_idle _ _ H); by rewrite Ht).
  apply list_elem_of_lookup in Hin as [[|i] Hi].
  - destruct q as [|y q]; [done|]. injection Hi as ->. by eexists.
  - destruct (lookup_lt_is_Some_2 q i) as [p Hp]; [apply lookup_lt_Some in Hi; lia|].
    destruct (i_adj _ _ H i p t Hp Hi) as [E _]. congruence.
Qed.

Lemma link_prev s q t p : inv s q → at_pc s t = Link p → ∃ i, q !! i = Some p ∧ q !! S i = Some t.
Proof.
  intros H Ht. assert (Hin : t ∈ q) by (apply (i_idle _ _ H); by rewrite Ht).
  apply list_elem_of_lookup in Hin as [[|i] Hi].
  - destruct (i_head _ _ H t Hi) as [E|[E _]]; by rewrite Ht in E.
  - destruct (lookup_lt_is_Some_2 q i) as [p' Hp]; [apply lookup_lt_Some in Hi; lia|].
    destruct (i_adj _ _ H i p' t Hp Hi) as [_ [[E _]|[E _]]]; [|congruence]. exists i. split; congruence.
Qed.

(** ** Every step keeps the queue *)

Ltac pc_at t u := destruct (decide (t = u)) as [<-|]; [rewrite fn_lookup_insert in *|rewrite fn_lookup_insert_ne in * by done].

(** two positions of the queue that hold the same thread *)
Lemma same_pos (q : list Z) i j t : NoDup q → q !! i = Some t → q !! j = Some t → i = j.
Proof. intros. by eapply NoDup_lookup. Qed.

(** joining the queue: [c] is where the thread goes, [e] what it adds to the log *)
Lemma inv_join s q t c e :
  inv s q → at_pc s t = Idle →
  (tail s = None ∧ c = Crit ∧ e = [t]) ∨ (∃ l, tail s = Some l ∧ c = Link l ∧ e = []) →
  inv (mkMCS (Some t) (<[t := false]> (done s)) (<[t := None]> (next s)) (<[t := c]> (at_pc s))
         (arrived s ++ [t]) (entered s ++ e)) (q ++ [t]).
Proof.
  intros H Ht Hc. assert (Hnin : t ∉ q) by (rewrite (i_idle _ _ H); intros E; by apply E).
  assert (Hne : ∀ i u, q !! i = Some u → t ≠ u) by (intros i u Hi ->; destruct Hnin; by eapply list_elem_of_lookup_2).
  assert (Hcn : c ≠ Idle) by (destruct Hc as [(_ & -> & _)|(l & _ & -> & _)]; done).
  assert (Hq : tail s = None → q = []) by (rewrite (i_tail _ _ H); apply last_None).
  split; cbn.
  - by rewrite last_snoc.
  - apply NoDup_app. split; [apply H|]. split; [|apply NoDup_singleton]. by intros u Hu ->%list_elem_of_singleton.
  - intros u. rewrite elem_of_app, list_elem_of_singleton, (i_idle _ _ H). pc_at t u; naive_solver.
  - intros u Hu. destruct q as [|y q].
    + injection Hu as <-. rewrite fn_lookup_insert. left. destruct Hc as [(_ & -> & _)|(l & E & _)]; [done|].
      by rewrite (i_tail _ _ H) in E.
    + injection Hu as ->. rewrite !fn_lookup_insert_ne by (by apply (Hne 0%nat)). by apply H.
  - intros i p x Hp Hx. apply lookup_snoc_Some in Hx as [[Hi Hx]|[Hi <-]].
    + rewrite lookup_app_l in Hp by lia. rewrite !fn_lookup_insert_ne by (by eapply Hne). by eapply (i_adj _ _ H).
    + rewrite lookup_app_l in Hp by lia. rewrite !fn_lookup_insert, fn_lookup_insert_ne by (by eapply Hne).
      split; [done|]. left. split; [|apply (i_last _ _ H i); [done|apply lookup_ge_None_2; lia]].
      destruct Hc as [(E & _)|(l & E & -> & _)]; [by rewrite Hq in Hp|].
      rewrite (i_tail _ _ H), last_lookup, <- Hi in E. cbn in E. congruence.
  - intros i p Hp Hx. apply lookup_snoc_Some in Hp as [[Hi Hp]|[Hi <-]]; [|by rewrite fn_lookup_insert].
    apply lookup_ge_None in Hx. rewrite length_app in Hx. cbn in Hx. lia.
  - intros u. pc_at t u; [destruct Hc as [(_ & -> & _)|(l & _ & -> & _)]; done|].
    intros Hu. destruct (i_next _ _ H u Hu) as [x Hx]. exists x. by apply lookup_app_l_Some.
  - intros u. destruct (decide (t = u)) as [<-|].
    + rewrite !fn_lookup_insert. destruct Hc as [(_ & -> & _)|(l & _ & -> & _)]; done.
    + rewrite !fn_lookup_insert_ne by done. apply H.
  - rewrite (i_log _ _ H), filter_app.
    rewrite (filter_ext_in (fun u => inside ((<[t := c]> (at_pc s)) u) = false) (fun u => inside (at_pc s u) = false) q).
    2:{ intros u Hu. rewrite fn_lookup_insert_ne; [done|]. by intros ->. }
    destruct Hc as [(E & -> & ->)|(l & _ & -> & ->)].
    + rewrite (Hq E). rewrite filter_cons_False by (by rewrite fn_lookup_insert). cbn. by rewrite !app_nil_r.
    + rewrite filter_cons_True by (by rewrite fn_lookup_insert). cbn. by rewrite app_nil_r, app_assoc.
Qed.

(** [Link] to [Wait] *)
Lemma inv_link s q t p : inv s q → at_pc s t = Link p → inv (Lock_link t p s) q.
Proof.
  intros H Ht. destruct (link_prev s q t p H Ht) as (i & Hp & Hti).
  assert (Hnd := i_nodup _ _ H). split; cbn; try apply H.
  - intros u. rewrite (i_idle _ _ H). pc_at t u; [rewrite Ht; naive_solver|done].
  - intros u Hu. assert (t ≠ u) by (intros <-; pose proof (same_pos _ _ _ _ Hnd Hu Hti); lia).
    rewrite fn_lookup_insert_ne by done. by apply H.
  - intros k p' x Hp' Hx. destruct (i_adj _ _ H k p' x Hp' Hx) as [Hd Hor]. split; [done|].
    destruct (decide (k = i)) as [->|Hk].
    + rewrite Hp in Hp'. injection Hp' as <-. rewrite Hti in Hx. injection Hx as <-. right. by rewrite !fn_lookup_insert.
    + rewrite !fn_lookup_insert_ne; [done|intros <-|intros <-].
      * destruct Hk. by apply (same_pos q k i p).
      * pose proof (same_pos q (S k) (S i) t Hnd Hx Hti). lia.
  - intros k u Hu Hn. rewrite fn_lookup_insert_ne; [by apply (i_last _ _ H k)|]. intros <-.
    rewrite (same_pos q k i p Hnd Hu Hp) in Hn. congruence.
  - intros u. pc_at t u; [done|apply H].
  - intros u Hu. destruct (decide (p = u)) as [<-|]; [by rewrite fn_lookup_insert|].
    rewrite fn_lookup_insert_ne by done. revert Hu. pc_at t u; [done|apply H].
  - rewrite (i_log _ _ H). f_equal. apply filter_ext_in. intros u _. pc_at t u; [by rewrite Ht|done].
Qed.

(** a step of the head that stays in the queue: the fields it may change *)
Lemma inv_head s q' t c e :
  inv s (t :: q') → inside c →
  (inside (at_pc s t) ∧ e = []) ∨ (at_pc s t = Wait ∧ e = [t]) →
  (c = Next → q' ≠ []) → (c = Signal → next s t ≠ None) →
  inv (mkMCS (tail s) (done s) (next s) (<[t := c]> (at_pc s)) (arrived s) (entered s ++ e)) (t :: q').
Proof.
  intros H Hc He Hn Hs. assert (Hnd := i_nodup _ _ H). apply NoDup_cons in Hnd as [Hnin Hnd].
  split; cbn [tail done next at_pc arrived entered]; try apply H.
  - intros u. rewrite (i_idle _ _ H). pc_at t u; [|done].
    destruct He as [[He _]|[He _]]; split; intros _ E; rewrite E in *; done.
  - intros u [= <-]. rewrite fn_lookup_insert. by left.
  - intros k p x Hp Hx. destruct (i_adj _ _ H k p x Hp Hx) as [Hd Hor]. split; [done|].
    rewrite fn_lookup_insert_ne; [done|]. intros <-. destruct Hnin. by eapply list_elem_of_lookup_2.
  - intros u. pc_at t u; [|apply H]. intros E. destruct q' as [|y q']; [by destruct Hn|by eexists].
  - intros u. pc_at t u; [done|apply H].
  - rewrite (i_log _ _ H). rewrite (filter_cons_False (fun u => inside ((<[t := c]> (at_pc s)) u) = false) t) by (rewrite fn_lookup_insert; by destruct c).
    rewrite (filter_ext_in (fun u => inside ((<[t := c]> (at_pc s)) u) = false) (fun u => inside (at_pc s u) = false) q').
    2:{ intros u Hu. rewrite fn_lookup_insert_ne; [done|]. by intros ->. }
    destruct He as [[He ->]|[He ->]].
    + rewrite filter_cons_False by (intros E; by rewrite E in He). by rewrite app_nil_r.
    + rewrite filter_cons_True by (by rewrite He). by rewrite <- app_assoc.
Qed.

(** the last thread leaves *)
Lemma inv_leave s t : inv s [t] → inside (at_pc s t) →
  inv (mkMCS None (done s) (next s) (<[t := Idle]> (at_pc s)) (arrived s) (entered s)) [].
Proof.
  intros H Ht. split; cbn [tail done next at_pc arrived entered]; try done.
  - apply NoDup_nil_2.
  - intros u. split; [by intros ?%elem_of_nil|]. pc_at t u; [done|].
    intros Hu. apply (i_idle _ _ H), list_elem_of_singleton in Hu. congruence.
  - intros u. pc_at t u; [done|]. intros Hu. by apply (i_next _ _ H) in Hu as [? ?].
  - intros u. pc_at t u; [done|apply H].
  - rewrite (i_log _ _ H), filter_cons_False; [done|]. intros E. by rewrite E in Ht.
Qed.

(** the head hands the lock to its successor *)
Lemma inv_pass s t x q' : inv s (t :: x :: q') → at_pc s t = Signal → next s t = Some x →
  inv (Unlock_signal t x s) (x :: q').
Proof.
  intros H Ht Hx. assert (Hnd := i_nodup _ _ H). apply NoDup_cons in Hnd as [Hnin Hnd].
  assert (Hne : ∀ k u, (x :: q') !! k = Some u → t ≠ u) by (intros k u Hu ->; destruct Hnin; by eapply list_elem_of_lookup_2).
  destruct (i_adj _ _ H 0%nat t x eq_refl eq_refl) as [Hdx [[_ E]|[Hwx _]]]; [congruence|].
  assert (Hother : ∀ u, inside (at_pc s u) → u = t).
  { intros u Hu. destruct (inside_head s _ u H Hu) as [? E]. congruence. }
  split; unfold Unlock_signal; cbn [tail done next at_pc arrived entered].
  - apply (i_tail _ _ H).
  - done.
  - intros u. pose proof (i_idle _ _ H u) as Hi. rewrite elem_of_cons in Hi. pc_at t u; [naive_solver|].
    rewrite <- Hi. naive_solver.
  - intros u [= <-]. right. rewrite fn_lookup_insert, fn_lookup_insert_ne by (by apply (Hne 0%nat)). done.
  - intros k p y Hp Hy. destruct (i_adj _ _ H (S k) p y Hp Hy) as [Hd Hor].
    rewrite (fn_lookup_insert_ne (at_pc s)) by (by eapply (Hne (S k))).
    rewrite fn_lookup_insert_ne; [done|]. intros <-. by pose proof (same_pos (x :: q') (S k) 0%nat x Hnd Hy eq_refl).
  - intros k p Hp Hn. apply (i_last _ _ H (S k)); done.
  - intros u. pc_at t u; [done|]. intros E. destruct (Hother u); [by rewrite E|congruence].
  - intros u. pc_at t u; [done|apply H].
  - rewrite (i_log _ _ H), (filter_cons_False (fun u => inside (at_pc s u) = false) t) by (by rewrite Ht). f_equal.
    apply filter_ext_in. intros u [k Hu]%list_elem_of_lookup. by rewrite fn_lookup_insert_ne by (by eapply Hne).
Qed.

Lemma mcs_inv_step s s' q : inv s q → step s s' → ∃ q', inv s' q'.
Proof.
  intros H Hst. destruct Hst as [t Ht|t p Ht|t Ht Hd|t Ht|t Ht|t Ht|t x Ht Hx|t x Ht Hx].
  - exists (q ++ [t]). unfold Lock_swap. destruct (tail s) as [l|] eqn:E.
    + rewrite <- (app_nil_r (entered s)). apply inv_join; [done|done|]. right. by exists l.
    + apply inv_join; [done|done|]. by left.
  - exists q. by apply inv_link.
  - destruct (done_head s q t H Ht Hd) as [q' ->]. exists (t :: q'). apply inv_head; try done. right. done.
  - unfold TryLock. destruct (tail s) as [l|] eqn:E; [by exists q|]. exists (q ++ [t]).
    apply inv_join; [done|done|]. by left.
  - destruct (inside_head s q t H ltac:(by rewrite Ht)) as [q' ->]. exists (t :: q'). unfold Unlock_read.
    rewrite <- (app_nil_r (entered s)). destruct (next s t) eqn:En; apply inv_head; try done; try (left; by rewrite Ht).
    by rewrite En.
  - destruct (inside_head s q t H ltac:(by rewrite Ht)) as [q' ->]. unfold Unlock_cas. case_decide as Hd.
    + assert (Hq' : q' = []).
      { rewrite (i_tail _ _ H) in Hd. destruct q' as [|y q']; [done|]. exfalso.
        assert (Hl : t ∈ y :: q') by (apply last_Some_elem_of; by rewrite last_cons_cons in Hd).
        pose proof (i_nodup _ _ H) as [Hn _]%NoDup_cons. done. }
      subst. exists []. apply inv_leave; [done|by rewrite Ht].
    + exists (t :: q'). rewrite <- (app_nil_r (entered s)). apply inv_head; try done; [left; by rewrite Ht|].
      intros _ ->. destruct Hd. by rewrite (i_tail _ _ H).
  - destruct (inside_head s q t H ltac:(by rewrite Ht)) as [q' ->]. exists (t :: q'). unfold Unlock_next.
    rewrite <- (app_nil_r (entered s)). apply inv_head; try done; [left; by rewrite Ht|]. by rewrite Hx.
  - destruct (inside_head s q t H ltac:(by rewrite Ht)) as [q' ->]. destruct q' as [|y q'].
    + rewrite (i_last _ _ H 0%nat t eq_refl eq_refl) in Hx. done.
    + assert (y = x) as ->.
      { destruct (i_adj _ _ H 0%nat t y eq_refl eq_refl) as [_ [[_ E]|[_ E]]]; congruence. }
      exists (x :: q'). by apply inv_pass.
Qed.

Lemma mcs_reachable_inv s : reachable s → ∃ q, inv s q.
Proof.
  intros H. assert (H0 : ∃ q, inv init q) by (exists []; apply mcs_inv_init). revert H0. unfold reachable in H.
  induction H as [s|s1 s2 s3 Hs _ IH]; [done|]. intros [q Hq]. apply IH. by eapply mcs_inv_step.
Qed.

(** a thread that is waiting for the lock, or releasing it, and can take a step *)
Definition can_move (s : MCS) (t : Z) : Prop :=
  (∃ p, at_pc s t = Link p) ∨ (at_pc s t = Wait ∧ done s t = true) ∨ at_pc s t = Cas ∨
  ((at_pc s t = Next ∨ at_pc s t = Signal) ∧ next s t ≠ None).

Lemma inv_progress s q t : inv s q → at_pc s t ≠ Idle → (∀ u, at_pc s u ≠ Crit) → ∃ u, can_move s u.
Proof.
  intros H Ht Hc. assert (Hin : t ∈ q) by (by apply (i_idle _ _ H)).
  destruct q as [|h q']; [by apply elem_of_nil in Hin|]. specialize (Hc h).
  destruct (i_head _ _ H h eq_refl) as [Hh|Hh]; [|exists h; right; by left].
  destruct (at_pc s h) eqn:E; try done.
  - exists h. right. right. by left.
  - destruct (i_next _ _ H h E) as [x Hx]. destruct (i_adj _ _ H 0%nat h x eq_refl Hx) as [_ [[El _]|[_ En]]].
    + exists x. left. by exists h.
    + exists h. right. right. right. split; [by left|]. by rewrite En.
  - exists h. right. right. right. split; [by right|]. by apply (i_signal _ _ H).
Qed.

(** ** Properties *)

(** C39. The MCS lock is correct: whatever the threads do, at most one of them
    holds it; it is handed over in the order in which the threads arrived (the
    acquisitions are a prefix of the arrivals); and when threads wait and
    nobody holds it, some waiting or releasing thread can take a step. *)
Theorem mcs_lock_correct s :
  reachable s →
  (∀ t u, at_pc s t = Crit → at_pc s u = Crit → t = u) ∧
  (∃ waiting, arrived s = entered s ++ waiting) ∧
  (∀ t, at_pc s t ≠ Idle → (∀ u, at_pc s u ≠ Crit) → ∃ u, can_move s u).
Proof.
  intros Hr. destruct (mcs_reachable_inv s Hr) as [q H]. split; [|split].
  - intros t u Ht Hu. destruct (inside_head s q t H ltac:(by rewrite Ht)) as [? E1].
    destruct (inside_head s q u H ltac:(by rewrite Hu)) as [? E2]. congruence.
  - eexists. apply H.
  - intros t Ht Hc. by eapply inv_progress.
Qed.

Lemma mcs_lock_correct_witness :
  ∃ s, reachable s ∧ at_pc s 1 = Crit ∧ arrived s = [1; 2] ∧ ∀ u, at_pc s u = Crit → 1 = u.
Proof.
  assert (Hr : reachable (Lock_swap 2 (Lock_swap 1 init))).
  { eapply rtc_l; [apply (step_swap init 1); reflexivity|]. eapply rtc_l; [apply (step_swap _ 2); reflexivity|]. apply rtc_refl. }
  exists (Lock_swap 2 (Lock_swap 1 init)). split; [exact Hr|]. split; [reflexivity|]. split; [reflexivity|].
  intros u Hu. destruct (mcs_lock_correct _ Hr) as (H & _ & _). apply (H 1 u); [reflexivity|exact Hu].
Defined.
