(* ===== verification/PWVSched.v ===== *)
(** The scheduling policy of piecewise execution (routine_sched.cc
    [PWVScheduler]): transactions are inactive until the dependency graph frees
    them, free, or parked in the rendezvous queue while all their pieces wait
    for a rendezvous point. Every operation holds the queue lock. *)

From S2P Require Import Prelude.

(** ** State *)

(** [RVPInfo] of a piece, read when the operation runs *)
Record RVPInfo := mkRVP { is_rvp : bool; indegree : Z }.

(** entries ([FreeNodeEntry]) are named by the key of their hash entry; a list
    node is in one of the three queues, so [Remove] takes it out of its queue;
    [values] are the pieces of each hash entry *)
Record PWV := mkPWV {
  free : list Z;
  inactive : list Z;
  rvp : list Z;
  in_rvp_queue : Z → bool;
  values : Z → list Z;
  nr_free : Z;
  is_graph_built : bool;
  plen : Z;
}.

Definition pwv_init : PWV := mkPWV [] [] [] (fun _ => false) (fun _ => []) 0 false 0.

Definition Remove (k : Z) (l : list Z) : list Z := filter (fun x => x ≠ k) l.

(** [!info->is_rvp || info->indegree == 0] *)
Definition ready (info : Z → RVPInfo) (v : Z) : bool := negb (is_rvp (info v)) || (indegree (info v) =? 0).

(** the search for the first ready piece: the piece and the others in order *)
Fixpoint take_ready (info : Z → RVPInfo) (l : list Z) : option (Z * list Z) :=
  match l with
  | [] => None
  | v :: l => if ready info v then Some (v, l)
              else match take_ready info l with Some (w, l') => Some (w, v :: l') | None => None end
  end.

(** ** Operations *)

Definition OnNodeFreeImpl (k : Z) (s : PWV) : PWV :=
  mkPWV (Remove k (free s) ++ [k]) (Remove k (inactive s)) (Remove k (rvp s))
    (in_rvp_queue s) (values s) (nr_free s + 1) (is_graph_built s) (plen s).

Definition OnNodeRVPChangeImpl (info : Z → RVPInfo) (k : Z) (s : PWV) : PWV :=
  if negb (is_graph_built s) then s
  else if in_rvp_queue s k then
    let s := mkPWV (Remove k (free s) ++ [k]) (Remove k (inactive s)) (Remove k (rvp s))
               (<[k := false]> (in_rvp_queue s)) (values s) (nr_free s) (is_graph_built s) (plen s) in
    match take_ready info (values s k) with
    | Some (v, l) =>
        mkPWV (free s) (inactive s) (rvp s) (in_rvp_queue s) (<[k := v :: l]> (values s))
          (nr_free s + 1) (is_graph_built s) (plen s)
    | None => s
    end
  else s.

(** the registrations with the graph are calls of [PWVGraph] *)
Definition PWV_IngestPending (info : Z → RVPInfo) (k v : Z) (s : PWV) : result PWV :=
  _ ← abort_if (is_graph_built s);
  let s := if decide (values s k = []) then
             mkPWV (free s) (inactive s ++ [k]) (rvp s) (<[k := false]> (in_rvp_queue s)) (values s)
               (nr_free s) (is_graph_built s) (plen s + 1)
           else s in
  let vs := if is_rvp (info v) && negb (indegree (info v) =? 0) then values s k ++ [v] else v :: values s k in
  mret (mkPWV (free s) (inactive s) (rvp s) (in_rvp_queue s) (<[k := vs]> (values s))
          (nr_free s) (is_graph_built s) (plen s)).

Definition PWV_ShouldPickWaiting (s : PWV) : bool := plen s =? 0.

(** the loop of [Pick]; [Blocked] is the wait for a free entry, running out of
    fuel is [Aborted] *)
Fixpoint pick_loop (info : Z → RVPInfo) (fuel : nat) (s : PWV) : result (Z * PWV) :=
  match fuel with
  | O => Err Aborted
  | S fuel =>
      if nr_free s =? 0 then Err Blocked else
      match free s with
      | [] => Err OutOfRange
      | k :: fr =>
          match take_ready info (values s k) with
          | Some (v, l) =>
              Ok (v, mkPWV (free s) (inactive s) (rvp s) (in_rvp_queue s) (<[k := v :: l]> (values s))
                       (nr_free s) (is_graph_built s) (plen s))
          | None =>
              pick_loop info fuel
                (mkPWV fr (inactive s) (rvp s ++ [k]) (<[k := true]> (in_rvp_queue s)) (values s)
                   (nr_free s - 1) (is_graph_built s) (plen s))
          end
      end
  end.

(** [Pick]: [finished] is [g_finished == g_nr_threads], [build] the entries
    that [PWVGraph::Build] frees when the graph is not built yet *)
Definition PWV_Pick (info : Z → RVPInfo) (finished : bool) (build : list Z) (s : PWV) : result (Z * PWV) :=
  _ ← abort_if (negb finished);
  let s := if is_graph_built s then s
           else let s := foldl (fun s k => OnNodeFreeImpl k s) s build in
                mkPWV (free s) (inactive s) (rvp s) (in_rvp_queue s) (values s) (nr_free s) true (plen s) in
  pick_loop info (S (length (free s))) s.

Definition PWV_Consume (v : Z) (s : PWV) : result PWV :=
  match free s with
  | [] => Err Aborted
  | k :: fr =>
      match values s k with
      | [] => Err OutOfRange
      | w :: l =>
          _ ← abort_if (negb (v =? w));
          if decide (l = []) then
            mret (mkPWV fr (inactive s) (rvp s) (in_rvp_queue s) (<[k := l]> (values s))
                    (nr_free s - 1) (is_graph_built s) (plen s - 1))
          else
            mret (mkPWV (free s) (inactive s) (rvp s) (in_rvp_queue s) (<[k := l]> (values s))
                    (nr_free s) (is_graph_built s) (plen s))
      end
  end.

Definition PWV_Reset (s : PWV) : result PWV :=
  _ ← abort_if (negb (bool_decide (free s = [])));
  _ ← abort_if (negb (bool_decide (inactive s = [])));
  _ ← abort_if (negb (bool_decide (rvp s = [])));
  mret (mkPWV (free s) (inactive s) (rvp s) (in_rvp_queue s) (values s) (nr_free s) false (plen s)).

(** ** Invariant *)

Definition queued (s : PWV) : list Z := free s ++ inactive s ++ rvp s.
(** the pieces that wait in the scheduler *)
Definition pieces (s : PWV) : list Z := k ← queued s; values s k.

Record sinv (s : PWV) : Prop := {
  s_count : nr_free s = len (free s);
  s_nodup : NoDup (queued s);
  s_flag : ∀ k, in_rvp_queue s k = true ↔ k ∈ rvp s;
  s_values : ∀ k, values s k ≠ [] ↔ k ∈ queued s;
  s_len : plen s = len (queued s);
}.

Lemma take_ready_some info l v r : take_ready info l = Some (v, r) → ready info v = true ∧ v :: r ≡ₚ l.
Proof.
  revert r. induction l as [|x l IH]; intros r; cbn; [done|]. destruct (ready info x) eqn:E.
  - by intros [= -> ->].
  - destruct (take_ready info l) as [[w l']|]; [|done]. intros [= -> <-]. destruct (IH l' eq_refl) as [Hr Hp].
    split; [done|]. rewrite <- Hp. apply Permutation_swap.
Qed.

Lemma take_ready_none info l : take_ready info l = None ↔ ∀ v, v ∈ l → ready info v = false.
Proof.
  induction l as [|x l IH]; cbn.
  - split; [by intros _ v ?%elem_of_nil|done].
  - destruct (ready info x) eqn:E.
    + split; [done|]. intros H. rewrite H in E; [done|left].
    + destruct (take_ready info l) as [[w l']|].
      * split; [done|]. intros H. destruct IH as [_ IH]. discriminate IH. intros v Hv. apply H. by right.
      * split; [|done]. intros _ v [->|Hv]%elem_of_cons; [done|]. by apply IH.
Qed.

Lemma Remove_notin k l : k ∉ l → Remove k l = l.
Proof. intros H. apply filter_all. by intros x Hx ->. Qed.

Lemma Remove_perm k l : NoDup l → k ∈ l → k :: Remove k l ≡ₚ l.
Proof.
  intros Hnd (l1 & l2 & ->)%list_elem_of_split. apply NoDup_app in Hnd as (_ & Hd & Hnd).
  apply NoDup_cons in Hnd as [Hn _]. unfold Remove. rewrite filter_app, filter_cons_False by tauto.
  rewrite !filter_all; [by rewrite Permutation_middle|by intros x Hx ->|].
  intros x Hx ->. apply (Hd k Hx). left.
Qed.

(** pieces of entries whose values did not change *)
Lemma bind_values_ext (f h : Z → list Z) l : (∀ k, k ∈ l → f k = h k) → (k ← l; f k) = (k ← l; h k).
Proof.
  induction l as [|x l IH]; intros H; [done|]. rewrite !bind_cons, (H x) by left. f_equal. apply IH.
  intros k Hk. apply H. by right.
Qed.

(** reordering the pieces of one entry *)
Lemma pieces_perm s k vs :
  vs ≡ₚ values s k → (k' ← queued s; (<[k := vs]> (values s)) k') ≡ₚ pieces s.
Proof.
  intros Hp. unfold pieces. induction (queued s) as [|x l IH]; [done|]. rewrite !bind_cons.
  apply Permutation_app; [|done]. destruct (decide (k = x)) as [<-|]; [by rewrite fn_lookup_insert|by rewrite fn_lookup_insert_ne].
Qed.

(** a rearrangement of the values that keeps every entry non-empty *)
Lemma sinv_values s k vs :
  sinv s → vs ≡ₚ values s k → vs ≠ [] →
  sinv (mkPWV (free s) (inactive s) (rvp s) (in_rvp_queue s) (<[k := vs]> (values s)) (nr_free s) (is_graph_built s) (plen s)).
Proof.
  intros [H1 H2 H3 H4 H5] Hp Hv. split; try done. intros u. cbn. rewrite <- H4.
  destruct (decide (k = u)) as [<-|]; [|by rewrite fn_lookup_insert_ne]. rewrite fn_lookup_insert. split; [|done].
  intros _ E. rewrite E in Hp. by apply Permutation_nil_r in Hp.
Qed.

(** ** The listeners and [IngestPending] *)

Lemma queued_move s k q' : sinv s → k ∈ queued s → q' ≡ₚ queued s → NoDup q' ∧ (∀ u, values s u ≠ [] ↔ u ∈ q') ∧ plen s = len q'.
Proof.
  intros [H1 H2 H3 H4 H5] _ Hp. split; [by rewrite Hp|]. split; [intros u; by rewrite Hp|]. by rewrite Hp.
Qed.

Lemma free_inv k s : sinv s → k ∈ inactive s →
  sinv (OnNodeFreeImpl k s) ∧ free (OnNodeFreeImpl k s) = free s ++ [k] ∧ pieces (OnNodeFreeImpl k s) ≡ₚ pieces s.
Proof.
  intros H Hk. assert (Hnd := s_nodup _ H). unfold queued in Hnd.
  apply NoDup_app in Hnd as (Hf & Hd & Hir). apply NoDup_app in Hir as (Hi & Hd' & Hr).
  assert (Hnf : k ∉ free s) by (intros Hin; apply (Hd k Hin), elem_of_app; by left).
  assert (Hnr : k ∉ rvp s) by (by apply Hd').
  assert (Hp : queued (OnNodeFreeImpl k s) ≡ₚ queued s).
  { unfold queued, OnNodeFreeImpl. cbn. rewrite (Remove_notin k (free s)), (Remove_notin k (rvp s)) by done.
    rewrite <- app_assoc. f_equiv. cbn. rewrite app_comm_cons. f_equiv. by apply Remove_perm. }
  destruct (queued_move s k _ H ltac:(apply elem_of_app; right; apply elem_of_app; by left) Hp) as (N1 & N2 & N3).
  destruct H as [H1 H2 H3 H4 H5]. split; [split|split].
  - cbn. rewrite Remove_notin, length_app by done. cbn. lia.
  - done.
  - intros u. cbn. by rewrite Remove_notin.
  - done.
  - done.
  - cbn. by rewrite Remove_notin.
  - unfold pieces. by rewrite Hp.
Qed.

(** a parked entry with a ready piece comes back, that piece first *)
Lemma rvp_change_inv info k s :
  sinv s → is_graph_built s = true → k ∈ rvp s → (∃ v, v ∈ values s k ∧ ready info v = true) →
  let s' := OnNodeRVPChangeImpl info k s in
  sinv s' ∧ free s' = free s ++ [k] ∧ pieces s' ≡ₚ pieces s ∧
  ∃ v l, values s' k = v :: l ∧ ready info v = true.
Proof.
  intros H Hb Hk (v & Hv & Hr). assert (Hnd := s_nodup _ H). unfold queued in Hnd. rewrite app_assoc in Hnd.
  apply NoDup_app in Hnd as (Hfi & Hd & Hrd).
  assert (Hnfi : k ∉ free s ++ inactive s) by (intros Hin; by apply (Hd k Hin)).
  apply not_elem_of_app in Hnfi as [Hnf Hni].
  unfold OnNodeRVPChangeImpl. rewrite Hb, (proj2 (s_flag _ H k) Hk). cbn.
  rewrite (Remove_notin k (free s)), (Remove_notin k (inactive s)) by done.
  destruct (take_ready info (values s k)) as [[w l]|] eqn:E.
  2:{ rewrite take_ready_none in E. rewrite E in Hr; done. }
  destruct (take_ready_some _ _ _ _ E) as [Hw Hp]. cbn.
  assert (Hq : (free s ++ [k]) ++ inactive s ++ Remove k (rvp s) ≡ₚ queued s).
  { unfold queued. rewrite <- app_assoc. f_equiv. cbn. rewrite Permutation_middle. f_equiv. by apply Remove_perm. }
  destruct H as [H1 H2 H3 H4 H5]. split; [split|split; [done|split]].
  - cbn. rewrite length_app. cbn. lia.
  - unfold queued. cbn. by rewrite Hq.
  - intros u. cbn. destruct (decide (k = u)) as [<-|Hne].
    + rewrite fn_lookup_insert. split; [done|]. intros [Hk' _]%list_elem_of_filter. done.
    + rewrite fn_lookup_insert_ne, H3 by done. unfold Remove. rewrite list_elem_of_filter. naive_solver.
  - intros u. unfold queued. cbn. rewrite Hq. rewrite <- H4.
    destruct (decide (k = u)) as [<-|]; [|by rewrite fn_lookup_insert_ne]. rewrite fn_lookup_insert. split; [|done].
    intros _ E0. by rewrite E0 in Hv; apply elem_of_nil in Hv.
  - unfold queued. cbn. by rewrite Hq.
  - unfold pieces at 1, queued. cbn. rewrite Hq. apply pieces_perm. done.
  - exists w, l. by rewrite fn_lookup_insert.
Qed.

Lemma ingest_inv info k v s :
  sinv s → is_graph_built s = false → values s k = [] ∨ k ∈ inactive s →
  ∃ s', PWV_IngestPending info k v s = Ok s' ∧ sinv s' ∧ pieces s' ≡ₚ v :: pieces s ∧ k ∈ inactive s'.
Proof.
  intros H Hb Hk. unfold PWV_IngestPending. rewrite Hb. cbn.
  set (vs := fun l : list Z => if is_rvp (info v) && negb (indegree (info v) =? 0) then l ++ [v] else v :: l).
  assert (Hvs : ∀ l, vs l ≡ₚ v :: l ∧ vs l ≠ []).
  { intros l. unfold vs. destruct (_ && _); [|done]. split; [by rewrite Permutation_app_comm|by destruct l]. }
  destruct H as [H1 H2 H3 H4 H5]. eexists. split; [done|]. case_decide as Hd; cbn.
  - assert (Hnq : k ∉ queued s) by (rewrite <- H4; tauto).
    assert (Hq : free s ++ (inactive s ++ [k]) ++ rvp s ≡ₚ k :: queued s).
    { unfold queued. rewrite <- (app_assoc (inactive s)). cbn. rewrite !Permutation_middle. done. }
    assert (Hnr : k ∉ rvp s) by (intros Hr; apply Hnq; unfold queued; rewrite !elem_of_app; tauto).
    split; [split|split].
    + done.
    + unfold queued. cbn. rewrite Hq. by apply NoDup_cons.
    + intros u. cbn. destruct (decide (k = u)) as [<-|]; [by rewrite fn_lookup_insert|by rewrite fn_lookup_insert_ne].
    + intros u. unfold queued. cbn. rewrite Hq, elem_of_cons, <- H4. destruct (decide (k = u)) as [<-|].
      * rewrite fn_lookup_insert. pose proof (Hvs (values s k)). naive_solver.
      * rewrite fn_lookup_insert_ne by done. naive_solver.
    + unfold queued. cbn. rewrite Hq. cbn [length]. lia.
    + unfold pieces at 1, queued. cbn. rewrite Hq, bind_cons, fn_lookup_insert. fold (vs (values s k)). rewrite Hd.
      rewrite (proj1 (Hvs [])). cbn. f_equiv. unfold pieces.
      rewrite (bind_values_ext _ (values s)); [done|]. intros u Hu. rewrite fn_lookup_insert_ne; [done|]. by intros ->.
    + apply elem_of_app. right. by left.
  - destruct Hk as [?|Hk]; [done|]. assert (Hkq : k ∈ queued s) by (unfold queued; rewrite !elem_of_app; tauto).
    split; [split|split; [|done]]; try done.
    + intros u. rewrite <- H4. cbn. destruct (decide (k = u)) as [<-|]; [|by rewrite fn_lookup_insert_ne].
      rewrite fn_lookup_insert. pose proof (Hvs (values s k)). naive_solver.
    + unfold pieces, queued in *. cbn. fold (vs (values s k)).
      apply list_elem_of_split in Hkq as (l1 & l2 & E). rewrite E in *. apply NoDup_app in H2 as (_ & Hd1 & Hnd).
      apply NoDup_cons in Hnd as [Hn2 _]. rewrite !bind_app, !bind_cons, fn_lookup_insert.
      rewrite (bind_values_ext _ (values s) l1), (bind_values_ext _ (values s) l2).
      * rewrite (proj1 (Hvs _)). symmetry. apply Permutation_middle.
      * intros u Hu. rewrite fn_lookup_insert_ne; [done|]. by intros ->.
      * intros u Hu. rewrite fn_lookup_insert_ne; [done|]. intros ->. apply (Hd1 u Hu). left.
Qed.

(** ** [Pick] and [Consume] *)

(** a free entry without a ready piece is parked *)
Lemma park_inv s k fr :
  sinv s → free s = k :: fr →
  let s' := mkPWV fr (inactive s) (rvp s ++ [k]) (<[k := true]> (in_rvp_queue s)) (values s)
              (nr_free s - 1) (is_graph_built s) (plen s) in
  sinv s' ∧ pieces s' ≡ₚ pieces s.
Proof.
  intros [H1 H2 H3 H4 H5] E. assert (Hq : fr ++ inactive s ++ rvp s ++ [k] ≡ₚ queued s).
  { unfold queued. rewrite E, !app_assoc, <- !app_assoc. cbn. rewrite (Permutation_app_comm (rvp s)). cbn.
    by rewrite <- !Permutation_middle. }
  split; [split|].
  - cbn. rewrite H1, E. cbn [length]. lia.
  - unfold queued. cbn. by rewrite Hq.
  - intros u. cbn. rewrite elem_of_app, list_elem_of_singleton, <- H3.
    destruct (decide (k = u)) as [<-|]; [rewrite fn_lookup_insert; tauto|rewrite fn_lookup_insert_ne by done; naive_solver].
  - intros u. unfold queued. cbn. rewrite Hq. apply H4.
  - unfold queued. cbn. by rewrite Hq.
  - unfold pieces, queued at 1. cbn. by rewrite Hq.
Qed.

(** what [Pick] does: it parks the entries in front that have no ready piece *)
Definition picked (info : Z → RVPInfo) (s : PWV) (v : Z) (s' : PWV) : Prop :=
  ∃ skipped k rest, free s = skipped ++ k :: rest ∧
    (∀ u w, u ∈ skipped → w ∈ values s u → ready info w = false) ∧
    v ∈ values s k ∧ ready info v = true ∧
    free s' = k :: rest ∧ rvp s' = rvp s ++ skipped ∧ inactive s' = inactive s ∧
    (∃ l, values s' k = v :: l) ∧ sinv s' ∧ pieces s' ≡ₚ pieces s.

Lemma pick_loop_ok info fuel s :
  sinv s → (length (free s) < fuel)%nat →
  match pick_loop info fuel s with
  | Ok (v, s') => picked info s v s'
  | Err f => f = Blocked ∧ ∀ k v, k ∈ free s → v ∈ values s k → ready info v = false
  end.
Proof.
  revert s. induction fuel as [|fuel IH]; intros s H Hf; [lia|]. cbn [pick_loop]. assert (Hc := s_count _ H).
  destruct (Z.eqb_spec (nr_free s) 0) as [Hz|Hz].
  - split; [done|]. intros k v Hk. destruct (free s); [by apply elem_of_nil in Hk|cbn in Hc; lia].
  - destruct (free s) as [|k fr] eqn:E; [done|]. destruct (take_ready info (values s k)) as [[v l]|] eqn:Et.
    + destruct (take_ready_some _ _ _ _ Et) as [Hr Hp]. assert (Hv : v ∈ values s k) by (rewrite <- Hp; left).
      exists [], k, fr. split; [done|]. split; [by intros u w ?%elem_of_nil|]. split; [done|]. split; [done|].
      split; [done|]. split; [by rewrite app_nil_r|]. split; [done|]. split; [exists l; cbn; by rewrite fn_lookup_insert|].
      rewrite <- E. split; [by apply sinv_values|]. unfold pieces at 1, queued. cbn. by apply pieces_perm.
    + rewrite take_ready_none in Et. destruct (park_inv s k fr H E) as [H' Hp]. cbn in Hf.
      specialize (IH _ H' ltac:(cbn; lia)). destruct (pick_loop info fuel _) as [[v s']|f].
      * destruct IH as (sk & k' & rest & F1 & F2 & F3 & F4 & F5 & F6 & F7 & F8 & F9 & F10). cbn in *.
        exists (k :: sk), k', rest. split; [rewrite E; by rewrite F1|]. split.
        { intros u w [->|Hu]%elem_of_cons; [by apply Et|by apply F2]. }
        split; [done|]. split; [done|]. split; [done|]. split; [by rewrite F6, <- app_assoc|].
        split; [done|]. split; [done|]. split; [done|]. by rewrite F10.
      * destruct IH as [-> IH]. split; [done|]. cbn in IH. intros u v [->|Hu]%elem_of_cons; [apply Et|by apply IH].
Qed.

(** consuming the piece that was picked *)
Lemma consume_ok s k rest v l :
  sinv s → free s = k :: rest → values s k = v :: l →
  ∃ s', PWV_Consume v s = Ok s' ∧ sinv s' ∧ pieces s ≡ₚ v :: pieces s'.
Proof.
  intros H E Ev. unfold PWV_Consume. rewrite E, Ev, Z.eqb_refl. cbn. destruct H as [H1 H2 H3 H4 H5].
  assert (Hq : queued s = k :: rest ++ inactive s ++ rvp s) by (unfold queued; by rewrite E).
  rewrite Hq in H2. apply NoDup_cons in H2 as [Hn Hnd].
  assert (Hvals : ∀ u, u ∈ rest ++ inactive s ++ rvp s → (<[k := l]> (values s)) u = values s u).
  { intros u Hu. rewrite fn_lookup_insert_ne; [done|]. by intros ->. }
  assert (Hps : pieces s = v :: l ++ (u ← rest ++ inactive s ++ rvp s; values s u)).
  { unfold pieces. rewrite Hq, bind_cons, Ev. done. }
  case_decide as Hl; (eexists; split; [done|]); rewrite Hps.
  - split; [split|].
    + cbn. rewrite H1, E. cbn [length]. lia.
    + done.
    + done.
    + intros u. unfold queued. cbn. destruct (decide (k = u)) as [<-|Hne].
      * rewrite fn_lookup_insert. naive_solver.
      * rewrite fn_lookup_insert_ne, H4, Hq, elem_of_cons by done. naive_solver.
    + unfold queued. cbn. rewrite H5, Hq. cbn [length]. lia.
    + subst l. cbn. f_equiv. unfold pieces, queued. cbn. by rewrite (bind_values_ext (<[k := []]> (values s)) (values s)).
  - split; [split|].
    + cbn. by rewrite H1, E.
    + by apply NoDup_cons.
    + done.
    + intros u. unfold queued. cbn [free inactive rvp values app]. rewrite <- Hq, <- H4. destruct (decide (k = u)) as [<-|Hne].
      * rewrite fn_lookup_insert, Ev. naive_solver.
      * by rewrite fn_lookup_insert_ne.
    + cbn. by rewrite H5, Hq.
    + unfold pieces, queued. cbn [free inactive rvp values app]. rewrite bind_cons, fn_lookup_insert.
      by rewrite (bind_values_ext (<[k := l]> (values s)) (values s)).
Qed.

(** ** Properties *)

(** Piecewise scheduling loses nothing and never aborts: with the graph
    built, [Pick] either returns a ready piece of the first free transaction
    that has one, parking the transactions before it in the rendezvous queue,
    or waits because no free transaction has a ready piece; [Consume] of the
    picked piece then succeeds and removes exactly that piece; and a rendezvous
    notification of a parked transaction with a ready piece makes it free again
    with a ready piece in front. *)
Theorem pwv_pick_consume info build s :
  sinv s → is_graph_built s = true →
  match PWV_Pick info true build s with
  | Ok (v, s') => picked info s v s' ∧
      ∃ s'', PWV_Consume v s' = Ok s'' ∧ sinv s'' ∧ pieces s ≡ₚ v :: pieces s''
  | Err f => f = Blocked ∧ ∀ k v, k ∈ free s → v ∈ values s k → ready info v = false
  end ∧
  (∀ k v, k ∈ rvp s → v ∈ values s k → ready info v = true →
     let s' := OnNodeRVPChangeImpl info k s in
     sinv s' ∧ free s' = free s ++ [k] ∧ pieces s' ≡ₚ pieces s ∧ ∃ w l, values s' k = w :: l ∧ ready info w = true).
Proof.
  intros H Hb. split; [|intros k v Hk Hv Hr; apply rvp_change_inv; [done|done|done|by exists v]].
  unfold PWV_Pick. rewrite Hb. cbn [negb abort_if mbind result_bind].
  pose proof (pick_loop_ok info (S (length (free s))) s H ltac:(lia)) as Hp.
  destruct (pick_loop _ _ _) as [[v s']|f]; [|done]. split; [done|].
  destruct Hp as (sk & k & rest & _ & _ & _ & _ & F5 & _ & _ & [l F8] & F9 & F10).
  destruct (consume_ok s' k rest v l F9 F5 F8) as (s'' & E & H'' & Hps). exists s''. split; [done|]. split; [done|].
  by rewrite <- F10.
Qed.

(** two transactions are ingested and freed; the first one waits for a rendezvous *)
Definition ex_info (v : Z) : RVPInfo := mkRVP (v =? 10) 1.
Lemma pwv_init_inv : sinv pwv_init.
Proof. split; cbn; try done; [apply NoDup_nil_2|..]; intros k; split; done || by intros ?%elem_of_nil. Qed.

Lemma pwv_pick_consume_witness :
  ∃ s1 s2 s3, PWV_IngestPending ex_info 1 10 pwv_init = Ok s1 ∧ PWV_IngestPending ex_info 2 20 s1 = Ok s2 ∧
    s3 = mkPWV [1; 2] [] [] (in_rvp_queue s2) (values s2) 2 true 2 ∧ sinv s3 ∧
    match PWV_Pick ex_info true [] s3 with Ok (v, s') => v = 20 ∧ picked ex_info s3 v s' | Err _ => False end.
Proof.
  destruct (ingest_inv ex_info 1 10 pwv_init pwv_init_inv eq_refl (or_introl eq_refl)) as (s1 & E1 & H1 & _ & _).
  destruct (ingest_inv ex_info 2 20 s1 H1 ltac:(injection E1 as <-; reflexivity) ltac:(left; injection E1 as <-; reflexivity))
    as (s2 & E2 & H2 & _ & _).
  assert (Hi : inactive s2 = [1; 2] ∧ is_graph_built s2 = false) by (injection E1 as <-; injection E2 as <-; done).
  destruct (free_inv 1 s2 H2 ltac:(rewrite (proj1 Hi); left)) as (H3 & F3 & _).
  destruct (free_inv 2 (OnNodeFreeImpl 1 s2) H3) as (H4 & F4 & _).
  { cbn. rewrite (proj1 Hi). vm_compute. left. }
  exists s1, s2, (mkPWV [1; 2] [] [] (in_rvp_queue s2) (values s2) 2 true 2).
  split; [exact E1|]. split; [exact E2|]. split; [reflexivity|].
  assert (Hs : sinv (mkPWV [1; 2] [] [] (in_rvp_queue s2) (values s2) 2 true 2)).
  { injection E1 as <-. injection E2 as <-. destruct H4 as [G1 G2 G3 G4 G5]. split; [done|exact G2|exact G3|exact G4|done]. }
  split; [exact Hs|].
  destruct (pwv_pick_consume ex_info [] _ Hs eq_refl) as [Hp _].
  injection E1 as <-. injection E2 as <-.
  destruct (PWV_Pick ex_info true [] _) as [[v s']|f] eqn:E; vm_compute in E; [|discriminate E].
  injection E as <- <-. split; [reflexivity|]. exact (proj1 Hp).
Defined.
