(* ===== verification/CommitBuffer.v ===== *)
(** The commit buffer (commit_buffer.cc): a hash table of the writes of an
    epoch that is meant to find the repeated writes of a transaction to a row.
    The operations are modelled one at a time (each link is one
    compare-and-exchange); entries are taken from a per-core bump allocator that
    is left out. The hash function [XXH32] is a parameter. *)

From S2P Require Import Prelude Sync.

(** ** State *)

(** a duplicate entry: [u] is used as the value *)
Record DupEntry := mkDup { d_vhandle : Z; d_sid : Z; d_wcnt : Z; d_value : Z }.
(** an entry of the reference table: [u] is used as the duplicate entry *)
Record Entry := mkEntry { vhandle : Z; short_sid : Z; wcnt : Z; dup : option DupEntry }.

(** bucket chains in order; a duplicate entry is reached from its reference
    entry and from the duplicate table, which holds its row and sid *)
Record CommitBuffer := mkCB {
  ref_hashtable : Z → list Entry;
  ref_hashtable_size : Z;
  dup_hashtable : Z → list DupEntry;
  dup_hashtable_size : Z;
  clear_refcnt : Z;
}.

Definition kPerTxnHashSize : Z := 16.

Section Buffer.
(** [XXH32(&r, sizeof(uintptr_t), seed)]; [g_txn_per_epoch]; [g_nr_threads] *)
Context (XXH32 : Z → Z → Z) (g_txn_per_epoch g_nr_threads : Z).

(** the constructor: the memory is zero *)
Definition CommitBuffer_new : CommitBuffer :=
  mkCB (fun _ => []) (g_txn_per_epoch * kPerTxnHashSize) (fun _ => []) g_txn_per_epoch g_nr_threads.

Definition clear_range {A} (f : Z → list A) (start stop : Z) : Z → list A :=
  fun b => if (start <=? b) && (b <? stop) then [] else f b.

Definition Clear (core_id : Z) (c : CommitBuffer) : CommitBuffer :=
  if clear_refcnt c =? 0 then c else
  let tot := g_nr_threads in
  let rs := ref_hashtable_size c in
  let ds := dup_hashtable_size c in
  mkCB (clear_range (ref_hashtable c) (u64 (rs * core_id) / tot) (u64 (rs * (core_id + 1)) / tot)) rs
       (clear_range (dup_hashtable c) (u64 (ds * core_id) / tot) (u64 (ds * (core_id + 1)) / tot)) ds
       (clear_refcnt c - 1).

Definition CommitBuffer_Reset (c : CommitBuffer) : CommitBuffer :=
  mkCB (ref_hashtable c) (ref_hashtable_size c) (dup_hashtable c) (dup_hashtable_size c) g_nr_threads.

Definition EnsureReady (c : CommitBuffer) : result unit :=
  if clear_refcnt c =? 0 then Ok tt else Err Blocked.

(** the sequence number of a serial id, from 0, and the bucket of a row *)
Definition txn_seq (sid : Z) : Z := Z.land (Z.shiftl 1 24 - 1) (u32 (Z.shiftr (u32 sid) 8 - 1)).
Definition ref_bucket (c : CommitBuffer) (row seq : Z) : Z :=
  let r := Z.shiftr row 6 in
  let hash := u32 (seq * kPerTxnHashSize) in
  let hash := u32 (hash + XXH32 r seq mod (kPerTxnHashSize - 1)) in
  u32 (hash mod ref_hashtable_size c).

(** [Entry(vhandle, seq)] *)
Definition new_entry (row seq : Z) : Entry := mkEntry row seq 1 None.

(** the walk of [AddRef] along a chain: the new chain, the duplicate entry that
    was added, and whether the reference existed *)
Fixpoint add_chain (row short seq : Z) (l : list Entry) : list Entry * option DupEntry * bool :=
  match l with
  | [] => ([new_entry row seq], None, false)
  | p :: l =>
      if (short_sid p =? short) && (vhandle p =? row) then
        match dup p with
        | Some d => (mkEntry (vhandle p) (short_sid p) (wcnt p)
                       (Some (mkDup (d_vhandle d) (d_sid d) (d_wcnt d + 1) (d_value d))) :: l, None, true)
        | None => let d := mkDup row seq 2 kPendingValue in
                  (mkEntry (vhandle p) (short_sid p) (wcnt p) (Some d) :: l, Some d, true)
        end
      else let '(l, d, b) := add_chain row short seq l in (p :: l, d, b)
  end.

(** [AddRef]: whether the write is a duplicate. The duplicate is pushed on its
    bucket, after a first read at the unreduced index [seq] *)
Definition AddRef (c : CommitBuffer) (row sid : Z) : result (CommitBuffer * bool) :=
  let short := u32 sid in
  let seq := txn_seq sid in
  let hash := ref_bucket c row seq in
  _ ← EnsureReady c;
  let '(l, od, b) := add_chain row short seq (ref_hashtable c hash) in
  let rt := <[hash := l]> (ref_hashtable c) in
  match od with
  | None => mret (mkCB rt (ref_hashtable_size c) (dup_hashtable c) (dup_hashtable_size c) (clear_refcnt c), b)
  | Some d =>
      if seq <? dup_hashtable_size c then
        let h := seq mod dup_hashtable_size c in
        mret (mkCB rt (ref_hashtable_size c) (<[h := d :: dup_hashtable c h]> (dup_hashtable c))
                (dup_hashtable_size c) (clear_refcnt c), b)
      else Err OutOfRange
  end.

Definition LookupDuplicate (c : CommitBuffer) (row sid : Z) : option DupEntry :=
  let short := u32 sid in
  let seq := txn_seq sid in
  head (filter (fun d => d_vhandle d = row ∧ d_sid d = short) (dup_hashtable c (seq mod dup_hashtable_size c))).

(** a sequence of references *)
Fixpoint add_refs (c : CommitBuffer) (refs : list (Z * Z)) : result (CommitBuffer * list bool) :=
  match refs with
  | [] => Ok (c, [])
  | (row, sid) :: refs =>
      '(c, b) ← AddRef c row sid; '(c, bs) ← add_refs c refs; Ok (c, b :: bs)
  end.

(** ** Clearing *)

(** the parts that the cores clear cover the table *)
Lemma parts_cover size b :
  0 ≤ b < size → 0 < g_nr_threads → size * (g_nr_threads + 1) < 2 ^ 64 →
  ∃ core, 0 ≤ core < g_nr_threads ∧
    u64 (size * core) / g_nr_threads ≤ b < u64 (size * (core + 1)) / g_nr_threads.
Proof.
  intros Hb Ht Hs.
  assert (Hex : ∀ k, 0 ≤ k → b < size * k / g_nr_threads → ∃ core, 0 ≤ core < k ∧
    size * core / g_nr_threads ≤ b < size * (core + 1) / g_nr_threads).
  { apply (natlike_ind (fun k => b < size * k / g_nr_threads → _)).
    - rewrite Z.mul_0_r, Z.div_0_l by lia. lia.
    - intros k Hk IH Hlt. destruct (Z_lt_le_dec b (size * k / g_nr_threads)) as [Hl|Hl].
      + destruct (IH Hl) as (core & ? & ?). exists core. split; [lia|done].
      + exists k. split; [lia|]. by rewrite <- Z.add_1_r in Hlt. }
  destruct (Hex g_nr_threads ltac:(lia)) as (core & Hc & Hr); [rewrite Z.div_mul; lia|].
  exists core. split; [done|]. rewrite !u64_id by nia. done.
Qed.

Lemma clear_range_nil {A} (f : Z → list A) a z b : f b = [] → clear_range f a z b = [].
Proof. intros H. unfold clear_range. by destruct (_ && _). Qed.

Lemma clear_sizes cores c : let c' := foldl (fun c i => Clear i c) c cores in
  ref_hashtable_size c' = ref_hashtable_size c ∧ dup_hashtable_size c' = dup_hashtable_size c.
Proof.
  revert c. induction cores as [|i cores IH]; intros c; [done|]. cbn. destruct (IH (Clear i c)) as [-> ->].
  unfold Clear. by destruct (_ =? 0).
Qed.

(** what is clear stays clear, and the part of a core that ran is clear *)
Lemma clear_all cores c i b :
  len cores = clear_refcnt c →
  (ref_hashtable c b = [] ∨ (i ∈ cores ∧ u64 (ref_hashtable_size c * i) / g_nr_threads ≤ b < u64 (ref_hashtable_size c * (i + 1)) / g_nr_threads) →
   ref_hashtable (foldl (fun c i => Clear i c) c cores) b = []) ∧
  (dup_hashtable c b = [] ∨ (i ∈ cores ∧ u64 (dup_hashtable_size c * i) / g_nr_threads ≤ b < u64 (dup_hashtable_size c * (i + 1)) / g_nr_threads) →
   dup_hashtable (foldl (fun c i => Clear i c) c cores) b = []) ∧
  clear_refcnt (foldl (fun c i => Clear i c) c cores) = 0.
Proof.
  revert c. induction cores as [|j cores IH]; intros c Hl; cbn [foldl length] in *.
  - split; [|split; [|done]]; (intros [?|[?%elem_of_nil _]]; done).
  - assert (E : clear_refcnt c =? 0 = false) by (apply Z.eqb_neq; lia).
    destruct (IH (Clear j c)) as (H1 & H2 & H3); [unfold Clear; rewrite E; cbn; lia|].
    split; [|split; [|done]]; intros Hor.
    + apply H1. unfold Clear. rewrite E. cbn. destruct Hor as [Hz|[[->|Hi]%elem_of_cons Hb]].
      * left. by apply clear_range_nil.
      * left. unfold clear_range. zcase; done || lia.
      * by right.
    + apply H2. unfold Clear. rewrite E. cbn. destruct Hor as [Hz|[[->|Hi]%elem_of_cons Hb]].
      * left. by apply clear_range_nil.
      * left. unfold clear_range. zcase; done || lia.
      * by right.
Qed.

(** ** References *)

(** the stored identifier is the sequence number, never the short sid *)
Lemma txn_seq_lt sid : 0 ≤ txn_seq sid < 2 ^ 24.
Proof using Type.
  clear. unfold txn_seq. rewrite Z.land_comm. change (Z.shiftl 1 24 - 1) with (Z.ones 24). rewrite Z.land_ones by lia.
  apply Z.mod_pos_bound. lia.
Qed.

Lemma txn_seq_neq sid : txn_seq sid ≠ u32 sid.
Proof using Type.
  clear. pose proof (u32_range sid) as Hr. unfold txn_seq. rewrite Z.land_comm. change (Z.shiftl 1 24 - 1) with (Z.ones 24).
  rewrite Z.land_ones, Z.shiftr_div_pow2 by lia. set (x := u32 sid) in *. clearbody x.
  pose proof (Z.mul_div_le x (2 ^ 8) ltac:(lia)). pose proof (Z.mul_succ_div_gt x (2 ^ 8) ltac:(lia)).
  destruct (Z_lt_le_dec x 256).
  - replace (x / 2 ^ 8) with 0 by lia. change (u32 (0 - 1) mod 2 ^ 24) with 16777215. lia.
  - rewrite (u32_id (_ - 1)), Z.mod_small by lia. lia.
Qed.

Lemma txn_seq_serial epoch s core :
  0 ≤ epoch → 1 ≤ s < 2 ^ 24 → 0 ≤ core < 256 → txn_seq (epoch * 2 ^ 32 + s * 256 + core) = s - 1.
Proof using Type.
  clear. intros He Hs Hc. unfold txn_seq.
  replace (u32 (epoch * 2 ^ 32 + s * 256 + core)) with (s * 256 + core) by (unfold u32; apply Z.mod_unique with epoch; lia).
  rewrite Z.land_comm. change (Z.shiftl 1 24 - 1) with (Z.ones 24). rewrite Z.land_ones, Z.shiftr_div_pow2 by lia.
  replace ((s * 256 + core) / 2 ^ 8) with s by (apply Z.div_unique with core; lia).
  rewrite u32_id, Z.mod_small; lia.
Qed.

(** the transactions of the epoch: serial ids with sequence numbers [1..n] *)
Definition in_epoch (sid : Z) : Prop := txn_seq sid < g_txn_per_epoch.

(** every bucket holds entries of one transaction, under its sequence number *)
Definition chains_ok (c : CommitBuffer) : Prop :=
  ref_hashtable_size c = g_txn_per_epoch * kPerTxnHashSize ∧ dup_hashtable_size c = g_txn_per_epoch ∧
  (∀ b, dup_hashtable c b = []) ∧
  ∀ b p, p ∈ ref_hashtable c b → short_sid p = b / kPerTxnHashSize ∧ dup p = None.

Lemma ref_bucket_seq c row seq :
  ref_hashtable_size c = g_txn_per_epoch * kPerTxnHashSize → 0 ≤ seq < g_txn_per_epoch → g_txn_per_epoch ≤ 2 ^ 24 →
  ref_bucket c row seq / kPerTxnHashSize = seq.
Proof.
  intros Hs Hseq Hn. unfold ref_bucket, kPerTxnHashSize in *. cbv zeta. rewrite Hs.
  pose proof (Z.mod_pos_bound (XXH32 (Z.shiftr row 6) seq) 15 ltac:(lia)) as Hx. change (16 - 1) with 15.
  set (x := XXH32 (Z.shiftr row 6) seq mod 15) in *. clearbody x.
  rewrite (u32_id (seq * 16)), (u32_id (seq * 16 + x)), Z.mod_small, u32_id by lia.
  symmetry. apply Z.div_unique with x; lia.
Qed.

(** the walk never meets an entry with the short sid it looks for *)
Lemma add_chain_new row short seq l :
  (∀ p, p ∈ l → short_sid p ≠ short) → add_chain row short seq l = (l ++ [new_entry row seq], None, false).
Proof using Type.
  clear. induction l as [|p l IH]; intros H; [done|]. cbn.
  rewrite (proj2 (Z.eqb_neq (short_sid p) short)) by (apply H; left). cbn. rewrite IH; [done|].
  intros q Hq. apply H. by right.
Qed.

Lemma add_ref_new c row sid :
  chains_ok c → g_txn_per_epoch ≤ 2 ^ 24 → in_epoch sid → clear_refcnt c = 0 →
  ∃ c', AddRef c row sid = Ok (c', false) ∧ chains_ok c' ∧ clear_refcnt c' = 0.
Proof.
  intros (Hrs & Hds & Hd & Hc) Hn Hin Hr. unfold AddRef, EnsureReady. rewrite Hr. cbn. pose proof (txn_seq_lt sid) as Hlt.
  pose proof (ref_bucket_seq c row (txn_seq sid) Hrs ltac:(unfold in_epoch in Hin; lia) Hn) as Hb.
  rewrite add_chain_new.
  - eexists. split; [done|]. split; [|done]. split; [done|]. split; [done|]. split; [done|]. cbn. intros b p Hp.
    destruct (decide (ref_bucket c row (txn_seq sid) = b)) as [<-|Hne].
    + rewrite fn_lookup_insert in Hp. apply elem_of_app in Hp as [Hp|Hp]; [by apply Hc|].
      apply list_elem_of_singleton in Hp as ->. cbn. by rewrite Hb.
    + rewrite fn_lookup_insert_ne in Hp by done. by apply Hc.
  - intros p Hp. destruct (Hc _ p Hp) as [-> _]. rewrite Hb. apply txn_seq_neq.
Qed.

Lemma add_refs_new refs c :
  chains_ok c → g_txn_per_epoch ≤ 2 ^ 24 → (∀ r, r ∈ refs → in_epoch r.2) → clear_refcnt c = 0 →
  ∃ c', add_refs c refs = Ok (c', (fun _ => false) <$> refs) ∧ chains_ok c'.
Proof.
  intros Hc Hn. revert c Hc. induction refs as [|[row sid] refs IH]; intros c Hc Hin Hr; [by exists c|].
  destruct (add_ref_new c row sid Hc Hn (Hin (row, sid) ltac:(left)) Hr) as (c1 & E1 & Hc1 & Hr1). cbn. rewrite E1. cbn.
  destruct (IH c1 Hc1 ltac:(intros r ?; apply Hin; by right) Hr1) as (c2 & -> & Hc2). by exists c2.
Qed.

(** ** Properties *)

(** At an epoch boundary, once every core has cleared its part, the commit
    buffer is empty and ready, whatever it held: the parts of the cores cover
    both tables without a gap. *)
Theorem clear_empties c cores :
  0 < g_nr_threads → Permutation cores (seqZ 0 g_nr_threads) →
  ref_hashtable_size c * (g_nr_threads + 1) < 2 ^ 64 → dup_hashtable_size c * (g_nr_threads + 1) < 2 ^ 64 →
  let c' := foldl (fun c i => Clear i c) (CommitBuffer_Reset c) cores in
  EnsureReady c' = Ok tt ∧
  (∀ b, 0 ≤ b < ref_hashtable_size c → ref_hashtable c' b = []) ∧
  (∀ b, 0 ≤ b < dup_hashtable_size c → dup_hashtable c' b = []).
Proof.
  intros Ht Hp Hr Hd c'. assert (Hl : len cores = clear_refcnt (CommitBuffer_Reset c)).
  { cbn. rewrite Hp, length_seqZ. lia. }
  assert (Hin : ∀ i, 0 ≤ i < g_nr_threads → i ∈ cores) by (intros i Hi; rewrite Hp; apply elem_of_seqZ; lia).
  split; [|split].
  - unfold EnsureReady. destruct (clear_all cores (CommitBuffer_Reset c) 0 0 Hl) as (_ & _ & E). unfold c'. by rewrite E.
  - intros b Hb. destruct (parts_cover _ b Hb Ht Hr) as (i & Hi & Hbi).
    apply (clear_all cores (CommitBuffer_Reset c) i b Hl). right. split; [by apply Hin|done].
  - intros b Hb. destruct (parts_cover _ b Hb Ht Hd) as (i & Hi & Hbi).
    apply (clear_all cores (CommitBuffer_Reset c) i b Hl). right. split; [by apply Hin|done].
Qed.

(** Repeated writes are never found: in an empty commit buffer, whatever the
    transactions of the epoch reference, also the same row twice, every [AddRef]
    answers that the write is new and every later [LookupDuplicate] finds
    nothing, because entries are stored under the sequence number and searched
    by the short serial id. *)
Theorem duplicates_never_found refs row sid :
  g_txn_per_epoch ≤ 2 ^ 24 → (∀ r, r ∈ refs → in_epoch r.2) →
  ∃ c', add_refs (mkCB (fun _ => []) (g_txn_per_epoch * kPerTxnHashSize) (fun _ => []) g_txn_per_epoch 0) refs =
          Ok (c', (fun _ => false) <$> refs) ∧
    LookupDuplicate c' row sid = None.
Proof.
  intros Hn Hin. destruct (add_refs_new refs (mkCB (fun _ => []) (g_txn_per_epoch * kPerTxnHashSize) (fun _ => []) g_txn_per_epoch 0))
    as (c' & E & _ & _ & Hd & _); [|done|done|done|exists c'; split; [done|]; unfold LookupDuplicate; by rewrite Hd].
  split; [done|]. split; [done|]. split; [done|]. cbn. by intros b p ?%elem_of_nil.
Qed.

End Buffer.

Definition ex_cb : CommitBuffer := mkCB (fun _ => [new_entry 64 5]) 64 (fun _ => []) 4 0.

Lemma clear_empties_witness :
  let c' := foldl (fun c i => Clear 3 i c) (CommitBuffer_Reset 3 ex_cb) [2; 0; 1] in
  EnsureReady c' = Ok tt ∧ ref_hashtable c' 63 = [].
Proof.
  destruct (clear_empties 3 ex_cb [2; 0; 1]) as (H1 & H2 & _).
  - lia.
  - change (seqZ 0 3) with [0; 1; 2]. apply (Permutation_cons_append [0; 1] 2).
  - vm_compute. reflexivity.
  - vm_compute. reflexivity.
  - split; [exact H1|]. apply H2. cbn. lia.
Defined.

Lemma duplicates_never_found_witness :
  ∃ c', add_refs (fun _ _ => 0) (mkCB (fun _ => []) (4 * kPerTxnHashSize) (fun _ => []) 4 0) [(64, 513); (64, 513)] =
          Ok (c', [false; false]) ∧ LookupDuplicate c' 64 513 = None.
Proof.
  apply (duplicates_never_found (fun _ _ => 0) 4 [(64, 513); (64, 513)] 64 513); [lia|].
  intros r Hr. apply elem_of_cons in Hr as [->|Hr]; [reflexivity|].
  apply list_elem_of_singleton in Hr as ->. reflexivity.
Defined.
