(* ===== verification/SqlTypes.v ===== *)
(** Values of fixed layout and their serializers (sqltypes.h).

    A field type has a [Serializer]: the number of bytes, the bytes written and
    the value read back; keys of 16 and 32 bits are big-endian. A schema is the
    sequence of its fields ([Field], [GapField]), a tuple is serialized from its
    last member to its first ([TupleField]). Bytes are integers from 0 to 255,
    machine words are little-endian. *)

From S2P Require Import Prelude.

(** ** Bytes *)

Definition byte_ok (b : Z) : Prop := 0 ≤ b < 256.

(** the bytes of a word in memory, and the word read back *)
Fixpoint le_split (n : nat) (x : Z) : list Z :=
  match n with O => [] | S n => x mod 256 :: le_split n (x / 256) end.
Fixpoint le_combine (l : list Z) : Z :=
  match l with [] => 0 | b :: l => b + 256 * le_combine l end.

(** reading [n] bytes of a buffer *)
Definition read_bytes (n : Z) (buf : list Z) : result (list Z) :=
  if n <=? len buf then Ok (take (Z.to_nat n) buf) else Err OutOfRange.

(** [memcmp] on [n] bytes: the sign of the result *)
Fixpoint memcmp (n : nat) (a b : list Z) : comparison :=
  match n, a, b with
  | S n, x :: a, y :: b => match x ?= y with Eq => memcmp n a b | c => c end
  | _, _, _ => Eq
  end.

(** ** [inline_str_base] and [Char] *)

(** the characters and the unused rest of [buf] (its length is [N + 1]) *)
Record inline_str := mkStr { sz : Z; buf : list Z }.

Definition str_assign (N : Z) (p : inline_str) (s : list Z) : result inline_str :=
  if len s <=? N then Ok (mkStr (len s) (s ++ drop (length s) (buf p))) else Err OutOfRange.
Definition str_data (p : inline_str) : list Z := take (Z.to_nat (sz p)) (buf p).
Definition str_resize (N : Z) (p : inline_str) (n c : Z) : result inline_str :=
  if n <=? N then
    Ok (mkStr n (if sz p <? n
                 then str_data p ++ replicate (Z.to_nat (n - sz p)) c ++ drop (Z.to_nat n) (buf p) else buf p))
  else Err OutOfRange.
Definition str_zeropad (N : Z) (p : inline_str) : list Z := str_data p ++ replicate (Z.to_nat (N - sz p)) 0.
(** [operator==] *)
Definition str_eq (p q : inline_str) : bool :=
  match memcmp (Z.to_nat (sz p)) (buf p) (buf q) with Eq => true | _ => false end.

(** [Char::assign], padding with [FillChar] *)
Definition Char_assign (N fill : Z) (s : list Z) : result (list Z) :=
  if len s <=? N then Ok (s ++ replicate (Z.to_nat (N - len s)) fill) else Err OutOfRange.
Definition Char_eq (N : Z) (a b : list Z) : bool := match memcmp (Z.to_nat N) a b with Eq => true | _ => false end.

(** ** Field types and values *)

(** integers of [w] bytes, [inline_str_base<SizeType, N>] with the size of
    [SizeType], [Char<N>], and vectors of elements of [esz] bytes *)
Inductive FieldType := FInt (w : nat) | FStr (szw : nat) (N : Z) | FChar (N : Z) | FVec (esz : Z).
(** strings and vectors as the bytes they hold *)
Inductive Val := VInt (x : Z) | VBytes (l : list Z).

#[export] Instance FieldType_eq_dec : EqDecision FieldType.
Proof. solve_decision. Defined.
#[export] Instance Val_eq_dec : EqDecision Val.
Proof. solve_decision. Defined.

Inductive has_type : FieldType → Val → Prop :=
  | ty_int w x : 0 ≤ x < 2 ^ (8 * Z.of_nat w) → has_type (FInt w) (VInt x)
  | ty_str szw N l : len l ≤ N → N < 2 ^ (8 * Z.of_nat szw) → Forall byte_ok l → has_type (FStr szw N) (VBytes l)
  | ty_char N l : len l = N → Forall byte_ok l → has_type (FChar N) (VBytes l)
  | ty_vec esz k l : 0 < esz → len l = k * esz → k < 2 ^ 64 → Forall byte_ok l → has_type (FVec esz) (VBytes l).

(** ** Serializers *)

Record Serializer := mkSer {
  EncodeSize : Val → Z;
  EncodeTo : Val → list Z;
  DecodeFrom : list Z → result Val;
}.

Definition int_of (v : Val) : Z := match v with VInt x => x | VBytes _ => 0 end.
Definition bytes_of (v : Val) : list Z := match v with VInt _ => [] | VBytes l => l end.

(** [Serializer<T>] of a trivially copied type of [w] bytes *)
Definition ser_int (w : nat) : Serializer := mkSer
  (fun _ => Z.of_nat w)
  (fun v => le_split w (int_of v))
  (fun buf => l ← read_bytes (Z.of_nat w) buf; Ok (VInt (le_combine l))).

Definition ser_char (N : Z) : Serializer := mkSer
  (fun _ => N)
  bytes_of
  (fun buf => l ← read_bytes N buf; Ok (VBytes l)).

(** [Serializer<inline_str_base<SizeType, N>>]; [assign] rejects a size above [N] *)
Definition ser_str (szw : nat) (N : Z) : Serializer := mkSer
  (fun v => Z.of_nat szw + len (bytes_of v))
  (fun v => le_split szw (len (bytes_of v)) ++ bytes_of v)
  (fun buf => l ← read_bytes (Z.of_nat szw) buf;
              let n := le_combine l in
              s ← read_bytes n (drop szw buf);
              if n <=? N then Ok (VBytes s) else Err OutOfRange).

(** [Serializer<std::vector<T>>] with [esz] the size of [T] *)
Definition ser_vec (esz : Z) : Serializer := mkSer
  (fun v => 8 + len (bytes_of v) / esz * esz)
  (fun v => let n := len (bytes_of v) / esz in
            le_split 8 n ++ take (Z.to_nat (n * esz)) (bytes_of v))
  (fun buf => l ← read_bytes 8 buf;
              s ← read_bytes (le_combine l * esz) (drop 8 buf);
              Ok (VBytes s)).

(** [Serializer] and [ValueSerializer] *)
Definition serializer (t : FieldType) : Serializer :=
  match t with
  | FInt w => ser_int w | FStr szw N => ser_str szw N | FChar N => ser_char N | FVec esz => ser_vec esz
  end.

(** [KeySerializer<uint16_t>]: [DecodeFrom] reads one byte, and swaps it *)
Definition key_u16 : Serializer := mkSer
  (fun _ => 2)
  (fun v => rev (le_split 2 (int_of v)))
  (fun buf => l ← read_bytes 1 buf; Ok (VInt (le_combine (rev (le_split 2 (le_combine l)))))).
(** [KeySerializer<uint32_t>] *)
Definition key_u32 : Serializer := mkSer
  (fun _ => 4)
  (fun v => rev (le_split 4 (int_of v)))
  (fun buf => l ← read_bytes 4 buf; Ok (VInt (le_combine (rev l)))).
Definition key_serializer (t : FieldType) : Serializer :=
  match t with FInt 2 => key_u16 | FInt 4 => key_u32 | t => serializer t end.

(** ** Schemas and tuples *)

Section Fields.
Context (ser : FieldType → Serializer).

(** [Field::EncodeSize], [EncodeTo], [DecodeFrom] over the fields in the order
    of declaration; the empty schema is the [GapField] *)
Fixpoint Field_EncodeSize (ts : list FieldType) (vs : list Val) : Z :=
  match ts, vs with t :: ts, v :: vs => EncodeSize (ser t) v + Field_EncodeSize ts vs | _, _ => 0 end.
Fixpoint Field_EncodeTo (ts : list FieldType) (vs : list Val) : list Z :=
  match ts, vs with t :: ts, v :: vs => EncodeTo (ser t) v ++ Field_EncodeTo ts vs | _, _ => [] end.
(** the next field starts [EncodeSize] bytes further *)
Fixpoint Field_DecodeFrom (ts : list FieldType) (buf : list Z) : result (list Val) :=
  match ts with
  | [] => Ok []
  | t :: ts =>
      v ← DecodeFrom (ser t) buf;
      vs ← Field_DecodeFrom ts (drop (Z.to_nat (EncodeSize (ser t) v)) buf);
      Ok (v :: vs)
  end.

(** [TupleField]: the parent, with the later members, comes first; the second
    component of a decoded tuple is the rest of the buffer *)
Fixpoint Tuple_EncodeSize (ts : list FieldType) (vs : list Val) : Z :=
  match ts, vs with t :: ts, v :: vs => Tuple_EncodeSize ts vs + EncodeSize (ser t) v | _, _ => 0 end.
Fixpoint Tuple_EncodeTo (ts : list FieldType) (vs : list Val) : list Z :=
  match ts, vs with t :: ts, v :: vs => Tuple_EncodeTo ts vs ++ EncodeTo (ser t) v | _, _ => [] end.
Fixpoint Tuple_DecodeFrom (ts : list FieldType) (buf : list Z) : result (list Val * list Z) :=
  match ts with
  | [] => Ok ([], buf)
  | t :: ts =>
      '(vs, buf) ← Tuple_DecodeFrom ts buf;
      v ← DecodeFrom (ser t) buf;
      Ok (v :: vs, drop (Z.to_nat (EncodeSize (ser t) v)) buf)
  end.
End Fields.

(** ** [InheritBasePtr] *)

(** [ValueSerializer<InheritBasePtr>]: a null base is encoded as the address of
    the [VarStr] that is being written ([sizeof(VarStr)] is 4) *)
Definition InheritBase_EncodeTo (addr base : Z) : list Z :=
  if base =? 0 then le_split 8 (u64 (addr - 4)) else le_split 8 base.
Definition InheritBase_DecodeFrom (base : Z) (buf : list Z) : result Z :=
  if negb (base =? 0) then l ← read_bytes 8 buf; Ok (le_combine l) else Ok base.

(** ** Words and their bytes *)

Lemma length_le_split n x : length (le_split n x) = n.
Proof. revert x. induction n as [|n IH]; intros x; cbn; [done|]. by rewrite IH. Qed.

Lemma le_split_bytes n x : Forall byte_ok (le_split n x).
Proof.
  revert x. induction n as [|n IH]; intros x; cbn; constructor; [|apply IH]. apply Z.mod_pos_bound. lia.
Qed.

Lemma pow_bytes n : 2 ^ (8 * Z.of_nat (S n)) = 256 * 2 ^ (8 * Z.of_nat n).
Proof. replace (8 * Z.of_nat (S n)) with (8 + 8 * Z.of_nat n) by lia. by rewrite Z.pow_add_r by lia. Qed.

Lemma le_combine_split n x : 0 ≤ x < 2 ^ (8 * Z.of_nat n) → le_combine (le_split n x) = x.
Proof.
  revert x. induction n as [|n IH]; intros x Hx; cbn [le_split le_combine].
  - change (2 ^ (8 * Z.of_nat 0)) with 1 in Hx. lia.
  - rewrite pow_bytes in Hx. rewrite IH.
    + pose proof (Z.div_mod x 256 ltac:(lia)). lia.
    + split; [apply Z.div_pos; lia|apply Z.div_lt_upper_bound; lia].
Qed.

Lemma le_combine_range l : Forall byte_ok l → 0 ≤ le_combine l < 2 ^ (8 * len l).
Proof.
  induction 1 as [|b l Hb _ IH]; cbn [le_combine length]; [cbn; lia|]. rewrite pow_bytes. unfold byte_ok in Hb. lia.
Qed.

Lemma read_bytes_app l rest : read_bytes (len l) (l ++ rest) = Ok l.
Proof.
  unfold read_bytes. rewrite length_app. rewrite (proj2 (Z.leb_le (len l) _)) by lia.
  rewrite Nat2Z.id. f_equal. apply take_app_length.
Qed.

Lemma read_bytes_ok n b l : 0 ≤ n → Forall byte_ok b → read_bytes n b = Ok l → len l = n ∧ Forall byte_ok l.
Proof.
  intros Hn Hb. unfold read_bytes. destruct (Z.leb_spec n (len b)); [|done]. intros [= <-].
  split; [rewrite length_take; lia|by apply Forall_take].
Qed.

Lemma read_split n x rest : read_bytes (Z.of_nat n) (le_split n x ++ rest) = Ok (le_split n x).
Proof. rewrite <- (length_le_split n x) at 1. apply read_bytes_app. Qed.

(** ** The laws of a serializer *)

(** field types that a schema can have *)
Definition ft_ok (t : FieldType) : Prop :=
  match t with
  | FInt _ => True
  | FStr szw N => 0 ≤ N < 2 ^ (8 * Z.of_nat szw)
  | FChar N => 0 ≤ N
  | FVec esz => 0 < esz
  end.

Class SerializerLaws (S : Serializer) (t : FieldType) : Prop := {
  ser_size v : has_type t v → len (EncodeTo S v) = EncodeSize S v;
  ser_bytes v : has_type t v → Forall byte_ok (EncodeTo S v);
  ser_roundtrip v rest : has_type t v → DecodeFrom S (EncodeTo S v ++ rest) = Ok v;
  ser_typed b v : ft_ok t → Forall byte_ok b → DecodeFrom S b = Ok v → has_type t v;
}.

#[export] Instance ser_int_laws w : SerializerLaws (ser_int w) (FInt w).
Proof.
  split.
  - intros v _. cbn. by rewrite length_le_split.
  - intros v _. apply le_split_bytes.
  - intros v rest H. inversion H as [? x Hx| | |]; subst. cbn. rewrite read_split. cbn. by rewrite le_combine_split.
  - intros b v _ Hb H. cbn in H. inv_ok. apply read_bytes_ok in E as [El Hl]; [|lia|done].
    constructor. rewrite <- El. by apply le_combine_range.
Qed.

#[export] Instance ser_char_laws N : SerializerLaws (ser_char N) (FChar N).
Proof.
  split.
  - intros v H. inversion H; subst. done.
  - intros v H. inversion H; subst. done.
  - intros v rest H. inversion H as [| |? l Hl Hb|]; subst. cbn. by rewrite read_bytes_app.
  - intros b v HN Hb H. cbn in H. inv_ok. apply read_bytes_ok in E as [El Hl]; [|done|done]. by constructor.
Qed.

#[export] Instance ser_str_laws szw N : SerializerLaws (ser_str szw N) (FStr szw N).
Proof.
  split.
  - intros v H. inversion H; subst. cbn. rewrite length_app, length_le_split. lia.
  - intros v H. inversion H; subst. apply Forall_app. split; [apply le_split_bytes|done].
  - intros v rest H. inversion H as [|? ? l Hl HN Hb| |]; subst. cbn. rewrite <- app_assoc, read_split. cbn.
    rewrite le_combine_split by lia. rewrite <- (length_le_split szw (len l)) at 1.
    rewrite drop_app_length, read_bytes_app. cbn. by rewrite (proj2 (Z.leb_le _ _) Hl).
  - intros b v HN Hb H. cbn in H, HN. inv_ok. apply read_bytes_ok in E as [El Hl]; [|lia|done].
    pose proof (le_combine_range _ Hl). destruct (Z.leb_spec (le_combine v0) N); [|done]. injection H as <-.
    apply read_bytes_ok in E0 as [El' Hl']; [|lia|by apply Forall_drop]. constructor; [lia|lia|done].
Qed.

#[export] Instance ser_vec_laws esz : SerializerLaws (ser_vec esz) (FVec esz).
Proof.
  assert (Hv : ∀ k (l : list Z), 0 < esz → len l = k * esz → len l / esz = k ∧ take (Z.to_nat (k * esz)) l = l).
  { intros k l He Hl. split; [rewrite Hl; by apply Z.div_mul; lia|]. apply firstn_all2. lia. }
  split.
  - intros v H. inversion H as [| | |? k l He Hl Hk Hb]; subst. destruct (Hv k l He Hl) as [E1 E2]. cbn [EncodeTo EncodeSize ser_vec bytes_of].
    rewrite E1, E2, length_app, length_le_split. lia.
  - intros v H. inversion H as [| | |? k l He Hl Hk Hb]; subst. destruct (Hv k l He Hl) as [E1 E2].
    cbn [EncodeTo ser_vec bytes_of]. rewrite E1, E2. apply Forall_app. split; [apply le_split_bytes|done].
  - intros v rest H. inversion H as [| | |? k l He Hl Hk Hb]; subst. destruct (Hv k l He Hl) as [E1 E2].
    cbn [EncodeTo DecodeFrom ser_vec bytes_of]. rewrite E1, E2, <- app_assoc.
    rewrite (read_split 8 k). cbn [mbind result_bind]. rewrite le_combine_split by (cbn; nia).
    rewrite <- (length_le_split 8 k) at 1. rewrite drop_app_length, <- Hl, read_bytes_app. done.
  - intros b v He Hb H. cbn [DecodeFrom ser_vec] in H. cbn in He. inv_ok. apply read_bytes_ok in E as [El Hl]; [|lia|done].
    pose proof (le_combine_range _ Hl) as Hr. rewrite El in Hr.
    apply read_bytes_ok in E0 as [El' Hl']; [|nia|by apply Forall_drop]. apply (ty_vec _ (le_combine v0)); [done|done|lia|done].
Qed.

#[export] Instance serializer_laws t : SerializerLaws (serializer t) t.
Proof. destruct t; apply _. Qed.

(** ** Schemas *)

Section Schemas.
Context (ser : FieldType → Serializer).
Abbreviation lawful ts := (Forall (fun t => SerializerLaws (ser t) t) ts).

Lemma schema_rt ts vs rest :
  lawful ts → Forall2 has_type ts vs →
  len (Field_EncodeTo ser ts vs) = Field_EncodeSize ser ts vs ∧
  Field_DecodeFrom ser ts (Field_EncodeTo ser ts vs ++ rest) = Ok vs.
Proof.
  intros HL H. induction H as [|t v ts vs Hv _ IH]; [done|]. apply Forall_cons in HL as [Ht HL].
  destruct (IH HL) as [IHs IHd]. cbn.
  rewrite length_app, Nat2Z.inj_add, (ser_size (t := t)), IHs by done. split; [done|].
  rewrite <- app_assoc, (ser_roundtrip (t := t)) by done. cbn.
  rewrite <- (ser_size (t := t) v Hv), Nat2Z.id, drop_app_length, IHd. done.
Qed.

Lemma schema_typed ts b vs :
  lawful ts → Forall ft_ok ts → Forall byte_ok b → Field_DecodeFrom ser ts b = Ok vs → Forall2 has_type ts vs.
Proof.
  intros HL Ht. revert b vs HL. induction Ht as [|t ts Ht _ IH]; intros b vs HL Hb H; cbn in H; [injection H as <-; constructor|].
  apply Forall_cons in HL as [HL1 HL]. inv_ok. constructor; [by apply (ser_typed b)|].
  by eapply IH; [|apply Forall_drop|].
Qed.

Lemma tuple_rt ts vs rest :
  lawful ts → Forall2 has_type ts vs →
  len (Tuple_EncodeTo ser ts vs) = Tuple_EncodeSize ser ts vs ∧
  Tuple_DecodeFrom ser ts (Tuple_EncodeTo ser ts vs ++ rest) = Ok (vs, rest).
Proof.
  intros HL H. revert rest. induction H as [|t v ts vs Hv _ IH]; intros rest; [done|].
  apply Forall_cons in HL as [Ht HL]. specialize (IH HL). cbn.
  rewrite length_app, Nat2Z.inj_add, (ser_size (t := t)) by done. destruct (IH rest) as [-> _]. split; [done|].
  rewrite <- app_assoc. destruct (IH (EncodeTo (ser t) v ++ rest)) as [_ ->]. cbn.
  rewrite (ser_roundtrip (t := t)) by done. cbn. by rewrite <- (ser_size (t := t) v Hv), Nat2Z.id, drop_app_length.
Qed.
End Schemas.

(** ** Keys *)

#[export] Instance key_u32_laws : SerializerLaws key_u32 (FInt 4).
Proof.
  split.
  - intros v _. cbn [EncodeTo key_u32]. by rewrite length_rev, length_le_split.
  - intros v _. apply Forall_rev, le_split_bytes.
  - intros v rest H. inversion H as [? x Hx| | |]; subst. cbn [EncodeTo DecodeFrom key_u32 int_of].
    replace 4 with (len (rev (le_split 4 x))) at 1 by (by rewrite length_rev, length_le_split).
    rewrite read_bytes_app. cbn [mbind result_bind]. by rewrite rev_involutive, le_combine_split.
  - intros b v _ Hb H. cbn [DecodeFrom key_u32] in H. inv_ok. apply read_bytes_ok in E as [El Hl]; [|lia|done].
    constructor. change 4%nat with (Z.to_nat 4). rewrite <- El, Nat2Z.id. rewrite <- (length_rev v0).
    by apply le_combine_range, Forall_rev.
Qed.

(** key fields whose serializer is lawful: all but the 16-bit integers *)
Lemma key_laws t : t ≠ FInt 2 → SerializerLaws (key_serializer t) t.
Proof.
  intros Ht. destruct t as [w| | |]; try apply _.
  do 5 (destruct w as [|w]; [try done; apply _|]). apply (ser_int_laws (S (S (S (S (S w)))))).
Qed.

Lemma memcmp_app n m a b a' b' :
  length a = n → length a' = n →
  memcmp (n + m) (a ++ b) (a' ++ b') = match memcmp n a a' with Eq => memcmp m b b' | c => c end.
Proof.
  revert a a'. induction n as [|n IH]; intros [|x a] [|y a'] Ha Ha'; try done. cbn in *.
  destruct (x ?= y); [|done..]. apply IH; lia.
Qed.

(** big-endian words compare like the numbers *)
Lemma memcmp_be n x y :
  0 ≤ x < 2 ^ (8 * Z.of_nat n) → 0 ≤ y < 2 ^ (8 * Z.of_nat n) →
  memcmp n (rev (le_split n x)) (rev (le_split n y)) = (x ?= y).
Proof.
  revert x y. induction n as [|n IH]; intros x y Hx Hy.
  - change (2 ^ (8 * Z.of_nat 0)) with 1 in *. cbn. symmetry. apply Z.compare_eq_iff. lia.
  - rewrite pow_bytes in Hx, Hy. cbn [le_split rev]. replace (S n) with (n + 1)%nat by lia.
    rewrite memcmp_app by (by rewrite length_rev, length_le_split).
    assert (Hd : ∀ z, 0 ≤ z < 256 * 2 ^ (8 * Z.of_nat n) → 0 ≤ z / 256 < 2 ^ (8 * Z.of_nat n)).
    { intros z Hz. split; [apply Z.div_pos; lia|apply Z.div_lt_upper_bound; lia]. }
    rewrite IH by (by apply Hd). pose proof (Z.div_mod x 256 ltac:(lia)). pose proof (Z.div_mod y 256 ltac:(lia)).
    pose proof (Z.mod_pos_bound x 256 ltac:(lia)). pose proof (Z.mod_pos_bound y 256 ltac:(lia)).
    destruct (Z.compare_spec (x / 256) (y / 256)) as [E|E|E].
    + cbn. destruct (Z.compare_spec (x mod 256) (y mod 256)); symmetry;
        [apply Z.compare_eq_iff|apply Z.compare_lt_iff|apply Z.compare_gt_iff]; lia.
    + symmetry. apply Z.compare_lt_iff. lia.
    + symmetry. apply Z.compare_gt_iff. lia.
Qed.

(** the field types whose keys compare by [memcmp] *)
Definition ordered_field (t : FieldType) : bool :=
  match t with FInt 1 | FInt 2 | FInt 4 | FChar _ => true | _ => false end.
Definition val_compare (t : FieldType) (v w : Val) : comparison :=
  match t with FChar N => memcmp (Z.to_nat N) (bytes_of v) (bytes_of w) | _ => int_of v ?= int_of w end.
Fixpoint key_compare (ts : list FieldType) (vs ws : list Val) : comparison :=
  match ts, vs, ws with
  | t :: ts, v :: vs, w :: ws => match val_compare t v w with Eq => key_compare ts vs ws | c => c end
  | _, _, _ => Eq
  end.

Lemma field_order t v w :
  ordered_field t = true → has_type t v → has_type t w →
  ∃ n, length (EncodeTo (key_serializer t) v) = n ∧ length (EncodeTo (key_serializer t) w) = n ∧
    EncodeSize (key_serializer t) v = Z.of_nat n ∧
    memcmp n (EncodeTo (key_serializer t) v) (EncodeTo (key_serializer t) w) = val_compare t v w.
Proof.
  intros Ho Hv Hw. destruct t as [k| |N|]; try done.
  - assert (Hk : k = 1%nat ∨ k = 2%nat ∨ k = 4%nat).
    { do 5 (destruct k as [|k]; [try done; tauto|]). done. }
    inversion Hv as [? x Hx| | |]; inversion Hw as [? y Hy| | |]; subst. exists k.
    pose proof (memcmp_be k x y Hx Hy) as Hc.
    destruct Hk as [->|[->| ->]]; (split; [done|]); (split; [done|]); (split; [done|]); exact Hc.
  - inversion Hv as [| |? l Hl _|]; inversion Hw as [| |? l' Hl' _|]; subst. exists (length l). cbn.
    split; [done|]. split; [lia|]. split; [done|]. by rewrite Nat2Z.id.
Qed.

Lemma key_order ts vs ws :
  forallb ordered_field ts = true → Forall2 has_type ts vs → Forall2 has_type ts ws →
  memcmp (Z.to_nat (Field_EncodeSize key_serializer ts vs)) (Field_EncodeTo key_serializer ts vs)
    (Field_EncodeTo key_serializer ts ws) = key_compare ts vs ws.
Proof.
  intros Ho Hv. revert ws Ho. induction Hv as [|t v ts vs Hv Hvs IH]; intros ws Ho Hw; [by inversion Hw|].
  inversion Hw as [|? w ? ws' Hw1 Hws]; subst. cbn in Ho. apply andb_true_iff in Ho as [Ho1 Ho].
  destruct (field_order t v w Ho1 Hv Hw1) as (n & L1 & L2 & Es & Em). cbn. rewrite Es.
  assert (Hpos : 0 ≤ Field_EncodeSize key_serializer ts vs).
  { clear - Hvs Ho. induction Hvs as [|t v ts vs Hv _ IH]; [done|]. cbn in Ho |- *. apply andb_true_iff in Ho as [Ho1 Ho].
    destruct (field_order t v v Ho1 Hv Hv) as (k & _ & _ & -> & _). specialize (IH Ho). lia. }
  rewrite Z2Nat.inj_add, Nat2Z.id by lia. rewrite memcmp_app by done. rewrite Em.
  destruct (val_compare t v w); [|done..]. by apply IH.
Qed.

(** ** Properties *)

(** Rows survive serialization: for every schema and every row of its
    types, the encoded row has the announced size, and decoding it, in front of
    any other bytes, gives the row back; the same holds for tuples, whose
    members are written from the last to the first; and whatever bytes are
    decoded, the result has the schema's types. *)
Theorem schema_roundtrip ts vs rest :
  Forall2 has_type ts vs →
  len (Field_EncodeTo serializer ts vs) = Field_EncodeSize serializer ts vs ∧
  Field_DecodeFrom serializer ts (Field_EncodeTo serializer ts vs ++ rest) = Ok vs ∧
  Tuple_DecodeFrom serializer ts (Tuple_EncodeTo serializer ts vs ++ rest) = Ok (vs, rest) ∧
  (∀ b ws, Forall ft_ok ts → Forall byte_ok b → Field_DecodeFrom serializer ts b = Ok ws → Forall2 has_type ts ws).
Proof.
  intros H. assert (HL : Forall (fun t => SerializerLaws (serializer t) t) ts) by (apply Forall_forall; intros; apply _).
  destruct (schema_rt serializer ts vs rest HL H) as [H1 H2]. destruct (tuple_rt serializer ts vs rest HL H) as [_ H3].
  split; [done|]. split; [done|]. split; [done|]. intros b ws. by apply schema_typed.
Qed.

Lemma schema_roundtrip_witness :
  Field_DecodeFrom serializer [FInt 4; FStr 1 24; FVec 2]
    ([0x39; 0x05; 0; 0; 2; 104; 105; 1; 0; 0; 0; 0; 0; 0; 0; 7; 8] ++ [9]) = Ok [VInt 1337; VBytes [104; 105]; VBytes [7; 8]].
Proof.
  apply (schema_roundtrip [FInt 4; FStr 1 24; FVec 2] [VInt 1337; VBytes [104; 105]; VBytes [7; 8]] [9]).
  repeat constructor; cbn; try lia. apply (ty_vec _ 1); cbn; try lia. repeat constructor; cbn; lia.
Defined.

(** C40. Keys compare like their fields: the encoded keys of a schema of 8, 16 and
    32-bit integers and fixed strings compare under [memcmp] exactly as the
    fields do in the order of declaration, numbers as numbers. *)
Theorem key_order_preserved ts vs ws :
  forallb ordered_field ts = true → Forall2 has_type ts vs → Forall2 has_type ts ws →
  memcmp (Z.to_nat (Field_EncodeSize key_serializer ts vs)) (Field_EncodeTo key_serializer ts vs)
    (Field_EncodeTo key_serializer ts ws) = key_compare ts vs ws.
Proof. apply key_order. Qed.

Lemma key_order_preserved_witness :
  memcmp 8 (Field_EncodeTo key_serializer [FInt 4; FInt 4] [VInt 1; VInt 256])
    (Field_EncodeTo key_serializer [FInt 4; FInt 4] [VInt 1; VInt 511]) = Lt.
Proof.
  exact (key_order_preserved [FInt 4; FInt 4] [VInt 1; VInt 256] [VInt 1; VInt 511] eq_refl
    ltac:(repeat constructor; cbn; lia) ltac:(repeat constructor; cbn; lia)).
Defined.

(** ** Deviations *)

(** [KeySerializer<uint16_t>] loses the low byte of the key *)
Lemma key_u16_decode x rest :
  0 ≤ x < 2 ^ 16 → DecodeFrom key_u16 (EncodeTo key_u16 (VInt x) ++ rest) = Ok (VInt (x / 256 * 256)).
Proof.
  intros Hx. cbn [EncodeTo DecodeFrom key_u16 int_of le_split rev app].
  assert (E : ∀ a b, read_bytes 1 (a :: b :: rest) = Ok [a]) by (intros a b; exact (read_bytes_app [a] (b :: rest))).
  rewrite E. cbn -[Z.mul Z.div Z.modulo].
  assert (0 ≤ x / 256 < 256) by (split; [apply Z.div_pos; lia|apply Z.div_lt_upper_bound; lia]).
  rewrite (Z.mod_small (x / 256)), Z.mul_0_r, Z.add_0_r by lia.
  rewrite (Z.mod_small (x / 256)), (Z.div_small (x / 256)) by lia. do 2 f_equal. rewrite Z.mod_0_l by lia. lia.
Qed.

(** keys of 64 bits use the plain little-endian serializer *)
Lemma key_u64_order : memcmp 8 (EncodeTo (key_serializer (FInt 8)) (VInt 256)) (EncodeTo (key_serializer (FInt 8)) (VInt 1)) = Lt.
Proof. reflexivity. Qed.

(** [operator==] of strings compares the length of the left one only *)
Lemma str_eq_prefix p q : str_data p = str_data (mkStr (sz p) (buf q)) → str_eq p q = true.
Proof.
  unfold str_data, str_eq. cbn. generalize (Z.to_nat (sz p)) as n. generalize (buf p) (buf q).
  intros a b n. revert a b. induction n as [|n IH]; intros [|x a] [|y b] H; try done. cbn in *. injection H as -> H.
  rewrite Z.compare_refl. by apply IH.
Qed.

(** a derived row finds its base: the base row written at [addr] with a null
    pointer stores the address of its own header *)
Lemma inherit_base_found addr rest b :
  4 ≤ addr < 2 ^ 64 → b ≠ 0 → InheritBase_DecodeFrom b (InheritBase_EncodeTo addr 0 ++ rest) = Ok (addr - 4).
Proof.
  intros Ha Hb. unfold InheritBase_DecodeFrom, InheritBase_EncodeTo. rewrite (proj2 (Z.eqb_neq b 0) Hb), Z.eqb_refl. cbn [negb].
  rewrite (read_split 8). cbn [mbind result_bind]. rewrite u64_id by lia. rewrite le_combine_split; [done|].
  change (8 * Z.of_nat 8) with 64. lia.
Qed.

(** [Char] is padded to its size, and [assign] then [str] gives the string back *)
Lemma Char_assign_pad N fill s c : Char_assign N fill s = Ok c → len c = N ∧ take (length s) c = s.
Proof.
  unfold Char_assign. destruct (Z.leb_spec (len s) N); [|done]. intros [= <-].
  rewrite length_app, length_replicate. split; [lia|]. apply take_app_length.
Qed.
