(* ===== verification/VarStr.v ===== *)
(** Variable-length strings and views (varstr.h): the header of a value in the
    data region, and views that pack a pointer and a length in one word. *)

From S2P Require Import Prelude Bits SqlTypes.

(** ** [VarStrView] *)

Definition VarStrView_new (l data : Z) : Z := Z.lor (u64 (Z.shiftl data 16)) l.
Definition view_length (w : Z) : Z := Z.land 0x00ff w.
Definition view_data (w : Z) : Z := Z.shiftr w 16.

Section Memory.
(** the bytes of memory *)
Context (mem : Z → Z).
Definition bytes_at (p n : Z) : list Z := (fun i => mem (p + i)) <$> seqZ 0 n.

Definition view_get (w idx : Z) : Z := mem (view_data w + idx).
Definition view_lt (v w : Z) : bool :=
  if view_length v =? view_length w then
    match memcmp (Z.to_nat (view_length v)) (bytes_at (view_data v) (view_length v)) (bytes_at (view_data w) (view_length v)) with
    | Lt => true | _ => false
    end
  else view_length v <? view_length w.
Definition view_eq (v w : Z) : bool :=
  if negb (view_length v =? view_length w) then false
  else match memcmp (Z.to_nat (view_length v)) (bytes_at (view_data v) (view_length v)) (bytes_at (view_data w) (view_length v)) with
       | Eq => true | _ => false
       end.
End Memory.

(** ** [VarStr] *)

(** header and address; the data follows the 4 bytes of the header *)
Record VarStr := mkVarStr { vs_addr : Z; vs_len : Z; vs_region : Z }.
Definition NewSize (l : Z) : Z := 4 + l.
(** [New]: [Alloc] is the data region's allocation on the current core *)
Definition VarStr_New (Alloc : Z → result Z) (region l : Z) : result VarStr :=
  p ← Alloc (NewSize (u16 l)); Ok (mkVarStr p (u16 l) region).
Definition VarStr_FromPtr (p l : Z) : VarStr := mkVarStr p (u16 l) (-5206).
Definition vs_data (s : VarStr) : Z := vs_addr s + 4.
(** [operator delete]: pointer, region and size handed to the region *)
Definition VarStr_delete (s : VarStr) : Z * Z * Z := (vs_addr s, vs_region s, 4 + vs_len s).
Definition ToView (s : VarStr) : Z := VarStrView_new (vs_len s) (vs_data s).

(** ** Facts *)

(** user-space pointers have 47 bits *)
Lemma view_data_new l data : 0 ≤ l < 2 ^ 16 → 0 ≤ data < 2 ^ 47 → view_data (VarStrView_new l data) = data.
Proof.
  intros Hl Hd. unfold view_data, VarStrView_new. rewrite Z.shiftr_lor, u64_id by (rewrite Z.shiftl_mul_pow2; lia).
  rewrite Z.shiftr_shiftl_l, Z.sub_diag, Z.shiftl_0_r by lia.
  rewrite (Z.shiftr_div_pow2 l), Z.div_small, Z.lor_0_r by lia. done.
Qed.

(** the length of a view is the low byte of the length it was made with *)
Lemma view_length_new l data : 0 ≤ l < 2 ^ 16 → 0 ≤ data < 2 ^ 47 → view_length (VarStrView_new l data) = l mod 256.
Proof.
  intros Hl Hd. unfold view_length, VarStrView_new. rewrite Z.land_comm. change 0x00ff with (Z.ones 8).
  rewrite Z.land_ones, u64_id by (rewrite ?Z.shiftl_mul_pow2; lia). change (2 ^ 8) with 256.
  rewrite <- (Z.land_ones _ 8), Z.land_lor_distr_l, !Z.land_ones by lia. change (2 ^ 8) with 256.
  replace (Z.shiftl data 16 mod 256) with 0; [apply Z.lor_0_l|].
  rewrite Z.shiftl_mul_pow2 by lia. apply Z.mod_unique with (data * 2 ^ 8); lia.
Qed.

(** what [New] allocates is what [delete] frees *)
Lemma new_delete Alloc region l s :
  0 ≤ l < 2 ^ 16 → VarStr_New Alloc region l = Ok s →
  ∃ p, Alloc (NewSize l) = Ok p ∧ VarStr_delete s = (p, region, NewSize l) ∧ vs_data s = p + 4.
Proof. intros Hl H. unfold VarStr_New in H. rewrite u16_id in H by done. inv_ok. by exists v. Qed.

(** a view shows the bytes of the string, up to 255 of them *)
Lemma view_shows mem s i :
  0 ≤ vs_len s < 256 → 0 ≤ vs_addr s < 2 ^ 46 → 0 ≤ i < vs_len s →
  view_length (ToView s) = vs_len s ∧ view_get mem (ToView s) i = mem (vs_addr s + 4 + i).
Proof.
  intros Hl Ha Hi. unfold ToView, view_get, vs_data. rewrite view_length_new, view_data_new by lia.
  by rewrite Z.mod_small by lia.
Qed.
