(* ===== verification/Piece.v ===== *)
(** Pieces of transactions and their packets (piece.cc/.h): the tree of routines
    that is shipped to another node, its encoding and decoding, and the
    collections of child routines. The two pointers of the struct are encoded
    with their raw values and set again by the decoder. *)

From S2P Require Import Prelude SqlTypes.

(** ** Data *)

(** [PieceRoutine] without its pointers; [h_gap] is the compiler's padding after
    [node_id], [h_callback] the code pointer *)
Record Header := mkHeader {
  h_capture_data : Z; h_capture_len : Z; h_level : Z; h_node_id : Z; h_gap : Z;
  h_sched_key : Z; h_affinity : Z; h_callback : Z; h_next : Z;
  h_fv_signals : Z; h_future_source_node_id : Z; h_padding : Z;
}.

(** a routine, its captured bytes and, when [next] is not null, its children *)
Inductive Piece := mkPiece (hdr : Header) (capture : list Z) (next : option (list Piece)).

Definition p_hdr (r : Piece) : Header := let (h, _, _) := r in h.
Definition p_capture (r : Piece) : list Z := let (_, c, _) := r in c.
Definition p_next (r : Piece) : option (list Piece) := let (_, _, n) := r in n.
Definition children (r : Piece) : list Piece := default [] (p_next r).

(** induction over the tree *)
Lemma Piece_rect' (P : Piece → Prop) :
  (∀ h c n, Forall P (default [] n) → P (mkPiece h c n)) → ∀ r, P r.
Proof.
  intros H. fix IH 1. intros [h c n]. apply H. destruct n as [l|]; [|constructor]. cbn.
  induction l as [|x l IHl]; constructor; [apply IH|exact IHl].
Qed.

(** the struct, [sizeof(PieceRoutine)] is 64, as the schema of its words *)
Definition struct_layout : list FieldType :=
  [FInt 8; FInt 4; FInt 1; FInt 1; FInt 2; FInt 8; FInt 8; FInt 8; FInt 8; FInt 1; FInt 1; FInt 14].
Definition struct_vals (h : Header) : list Val := VInt <$>
  [h_capture_data h; h_capture_len h; h_level h; h_node_id h; h_gap h; h_sched_key h; h_affinity h; h_callback h;
   h_next h; h_fv_signals h; h_future_source_node_id h; h_padding h].
Definition struct_bytes (h : Header) : list Z := Field_EncodeTo serializer struct_layout (struct_vals h).
Definition struct_of (b : list Z) : result Header :=
  vs ← Field_DecodeFrom serializer struct_layout b;
  match vs with
  | [VInt a; VInt b; VInt c; VInt d; VInt e; VInt f; VInt g; VInt i; VInt j; VInt k; VInt l; VInt m] =>
      Ok (mkHeader a b c d e f g i j k l m)
  | _ => Err OutOfRange
  end.

(** ** Encoding *)

(** the number of bytes of [util::Align(capture_len)] *)
Definition capture_size (h : Header) : Z := Align (h_capture_len h) 16.

(** [NodeSize] *)
Fixpoint NodeSize (r : Piece) : Z :=
  match r with
  | mkPiece h _ n =>
      Align 64 16 + capture_size h + 8 +
      match n with Some l => foldr (fun c s => NodeSize c + s) 0 l | None => 0 end
  end.

(** the loop over the children *)
Definition encode_children (enc : Z → Piece → list Z) : Z → list Piece → list Z :=
  fix go p l := match l with [] => [] | x :: l => enc p x ++ go (p + NodeSize x) l end.

(** [EncodeNode] at offset [p] of a buffer whose bytes were [buf]: the bytes
    between the capture and its aligned end are not written *)
Fixpoint EncodeNode (buf : Z → Z) (p : Z) (r : Piece) : list Z :=
  match r with
  | mkPiece h c n =>
      let p := p + Align 64 16 in
      let gap := (fun i => buf (p + len c + i)) <$> seqZ 0 (capture_size h - len c) in
      let p := p + capture_size h + 8 in
      struct_bytes h ++ c ++ gap ++
      match n with
      | None => le_split 8 0
      | Some l => le_split 8 (len l) ++ encode_children (EncodeNode buf) p l
      end
  end.

(** ** Collections *)

(** [BasePieceCollection]: the handlers, inline and extra ones in order *)
Record Collection := mkColl { limit : Z; handlers : list Piece }.
Definition Collection_new (limit : Z) : Collection := mkColl limit [].
Definition Collection_Add (c : Collection) (child : Piece) : result Collection :=
  _ ← abort_if (limit c <=? len (handlers c));
  mret (mkColl (limit c) (handlers c ++ [child])).

(** ** Decoding *)

(** the loop over the children *)
Fixpoint decode_children (dec : list Z → result (Piece * Z)) (k : nat) (p : list Z) (coll : Collection)
    : result (Collection * Z) :=
  match k with
  | O => Ok (coll, 0)
  | S k => '(child, n) ← dec p;
           coll ← Collection_Add coll child;
           '(coll, m) ← decode_children dec k (drop (Z.to_nat n) p) coll;
           Ok (coll, n + m)
  end.

(** [DecodeNode]: the routine and the bytes consumed; the recursion over the
    children is bounded by the fuel, running out of it is [Aborted] *)
Fixpoint DecodeNode (fuel : nat) (p : list Z) : result (Piece * Z) :=
  match fuel with
  | O => Err Aborted
  | S fuel =>
      st ← read_bytes (Align 64 16) p;
      h ← struct_of st;
      let p := drop (Z.to_nat (Align 64 16)) p in
      let off := capture_size h in
      c ← read_bytes off p;
      let p := drop (Z.to_nat off) p in
      nc ← read_bytes 8 p;
      let nr_children := le_combine nc in
      let p := drop 8 p in
      let base := Align 64 16 + off + 8 in
      if 0 <? nr_children then
        '(l, k) ← decode_children (DecodeNode fuel) (Z.to_nat nr_children) p (Collection_new nr_children);
        Ok (mkPiece h c (Some (handlers l)), base + k)
      else Ok (mkPiece h c None, base)
  end.

(** [CreateFromPacket]; the depth of a tree is below the size of its packet *)
Definition CreateFromPacket (p : list Z) (packet_len : Z) : result Piece :=
  '(r, n) ← DecodeNode (S (length p)) p;
  _ ← abort_if (negb (n =? packet_len));
  mret r.

(** [CreateFromCapture]: [node_id] and the last bytes of the padding are left as
    they are in the memory the routine is allocated in *)
Definition CreateFromCapture (data node_id gap padding : Z) (c : list Z) : Piece :=
  mkPiece (mkHeader data (u32 (len c)) 0 node_id gap 0 (2 ^ 64 - 1) 0 0 0 0 (padding - padding mod 2 ^ 64)) c None.

(** ** Keys and affinities of a tree *)

Definition with_key (h : Header) (k : Z) : Header :=
  mkHeader (h_capture_data h) (h_capture_len h) (h_level h) (h_node_id h) (h_gap h) k (h_affinity h) (h_callback h)
    (h_next h) (h_fv_signals h) (h_future_source_node_id h) (h_padding h).
Definition with_affinity (h : Header) (a : Z) : Header :=
  mkHeader (h_capture_data h) (h_capture_len h) (h_level h) (h_node_id h) (h_gap h) (h_sched_key h) a (h_callback h)
    (h_next h) (h_fv_signals h) (h_future_source_node_id h) (h_padding h).

(** [AssignSchedulingKey] and [AssignAffinity] on one child and its subtree *)
Fixpoint assign_key (key : Z) (r : Piece) : Piece :=
  match r with
  | mkPiece h c n => mkPiece (if h_sched_key h =? 0 then with_key h key else h) c (fmap (M := option) (map (assign_key key)) n)
  end.
Fixpoint assign_affinity (aff : Z) (r : Piece) : Piece :=
  match r with
  | mkPiece h c n =>
      mkPiece (if h_affinity h =? 2 ^ 64 - 1 then with_affinity h aff else h) c (fmap (M := option) (map (assign_affinity aff)) n)
  end.
Definition AssignSchedulingKey (key : Z) (c : Collection) : Collection := mkColl (limit c) (map (assign_key key) (handlers c)).
Definition AssignAffinity (aff : Z) (c : Collection) : Collection := mkColl (limit c) (map (assign_affinity aff) (handlers c)).

(** ** Facts *)

Definition header_ok (h : Header) : Prop :=
  Forall2 has_type struct_layout (struct_vals h).

Lemma length_struct h : header_ok h → len (struct_bytes h) = 64.
Proof.
  intros H. unfold struct_bytes. destruct (schema_rt serializer _ _ [] ltac:(apply Forall_forall; intros; apply _) H) as [-> _].
  reflexivity.
Qed.

Lemma struct_roundtrip h : header_ok h → struct_of (struct_bytes h) = Ok h.
Proof.
  intros H. unfold struct_of, struct_bytes. rewrite <- (app_nil_r (Field_EncodeTo _ _ _)).
  destruct (schema_rt serializer _ _ [] ltac:(apply Forall_forall; intros; apply _) H) as [_ ->]. by destruct h.
Qed.

(** what a packet carries of a routine: the struct, the captured bytes and the
    children *)
Fixpoint view (r : Piece) : Piece :=
  match r with
  | mkPiece h c n =>
      mkPiece h (take (Z.to_nat (h_capture_len h)) c)
        (match n with Some (x :: l) => Some (map view (x :: l)) | _ => None end)
  end.

(** routines as the program builds them *)
Fixpoint piece_ok (r : Piece) : Prop :=
  match r with
  | mkPiece h c n =>
      header_ok h ∧ len c = h_capture_len h ∧ len c < 2 ^ 32 ∧
      match n with Some l => len l < 2 ^ 31 ∧ foldr (fun x P => piece_ok x ∧ P) True l | None => True end
  end.
Fixpoint depth (r : Piece) : nat :=
  match r with
  | mkPiece _ _ n => S (match n with Some l => foldr (fun x d => Nat.max (depth x) d) 0%nat l | None => 0%nat end)
  end.

Lemma Align16 x : 0 ≤ x < 2 ^ 60 → Align x 16 = 16 * ((x + 15) / 16) ∧ x ≤ Align x 16 < x + 16.
Proof.
  intros Hx. assert (E : Align x 16 = 16 * ((x + 15) / 16)).
  { unfold Align. destruct (Z.eq_dec x 0) as [->|]; [reflexivity|].
    rewrite (u64_id (x - 1)) by lia.
    assert (0 ≤ (x - 1) / 16 < 2 ^ 58) by (split; [apply Z.div_pos; lia|apply Z.div_lt_upper_bound; lia]).
    rewrite !u64_id by (rewrite ?u64_id; lia). f_equal. replace (x + 15) with (x - 1 + 1 * 16) by lia.
    by rewrite Z.div_add by lia. }
  split; [done|]. rewrite E. pose proof (Z.div_mod (x + 15) 16 ltac:(lia)). pose proof (Z.mod_pos_bound (x + 15) 16 ltac:(lia)). lia.
Qed.

Lemma foldr_ok l : foldr (fun x P => piece_ok x ∧ P) True l ↔ Forall piece_ok l.
Proof. induction l as [|x l IH]; cbn; [split; [constructor|done]|]. rewrite Forall_cons. tauto. Qed.

Definition nodes_size (l : list Piece) : Z := foldr (fun c s => NodeSize c + s) 0 l.

Lemma children_len buf l : Forall (fun x => ∀ p, len (EncodeNode buf p x) = NodeSize x) l →
  ∀ p, len (encode_children (EncodeNode buf) p l) = nodes_size l.
Proof.
  induction 1 as [|x l Hx _ IH]; intros p; [done|]. cbn. rewrite length_app, Nat2Z.inj_add, Hx, IH. done.
Qed.

(** the encoded routine has the announced size *)
Lemma encode_len buf r : piece_ok r → ∀ p, len (EncodeNode buf p r) = NodeSize r.
Proof.
  induction r as [h c n IH] using Piece_rect'. intros (Hh & Hc & Hl & Hn) p. cbn [EncodeNode NodeSize].
  pose proof (Align16 (h_capture_len h) ltac:(lia)) as [_ Ha]. change (Align 64 16) with 64. unfold capture_size in *.
  rewrite !length_app, length_fmap, length_seqZ, !Nat2Z.inj_add, (length_struct h Hh).
  destruct n as [l|].
  - destruct Hn as [_ Hn%foldr_ok]. rewrite length_app, length_le_split, Nat2Z.inj_add, children_len; [unfold nodes_size; lia|].
    cbn in IH. rewrite Forall_forall in *. intros x Hx q. by apply IH, Hn.
  - rewrite length_le_split. lia.
Qed.

Lemma drop_bytes (a b : list Z) n : len a = n → drop (Z.to_nat n) (a ++ b) = b.
Proof. intros <-. rewrite Nat2Z.id. apply drop_app_length. Qed.
Lemma read_front (a b : list Z) n : len a = n → read_bytes n (a ++ b) = Ok a.
Proof. intros <-. apply read_bytes_app. Qed.

(** decoding the children appends them to the collection *)
Lemma decode_children_ok (fuel : nat) buf l :
  Forall (fun x => piece_ok x ∧ ∀ p rest, ∃ x', DecodeNode fuel (EncodeNode buf p x ++ rest) = Ok (x', NodeSize x) ∧ view x' = view x) l →
  ∀ p rest coll, len (handlers coll) + len l ≤ limit coll →
  ∃ l', decode_children (DecodeNode fuel) (length l) (encode_children (EncodeNode buf) p l ++ rest) coll =
      Ok (mkColl (limit coll) (handlers coll ++ l'), nodes_size l) ∧ map view l' = map view l.
Proof.
  induction 1 as [|x l [Hx Hdec] _ IH]; intros p rest coll Hlim.
  - exists []. cbn. rewrite app_nil_r. by destruct coll.
  - cbn [length] in Hlim. cbn [encode_children decode_children length]. rewrite <- app_assoc.
    destruct (Hdec p (encode_children (EncodeNode buf) (p + NodeSize x) l ++ rest)) as (x' & E & Hv).
    fold (encode_children (EncodeNode buf)) in *. rewrite E. cbn [mbind result_bind].
    unfold Collection_Add at 1. rewrite (proj2 (Z.leb_gt (limit coll) _)) by lia. cbn [abort_if mbind result_bind].
    rewrite (drop_bytes _ _ (NodeSize x)) by (by apply encode_len).
    destruct (IH (p + NodeSize x) rest (mkColl (limit coll) (handlers coll ++ [x']))) as (l' & E' & Hv').
    { cbn. rewrite length_app. cbn. lia. }
    unfold mret, result_ret. cbn [mbind result_bind]. rewrite E'. cbn. exists (x' :: l'). split; [by rewrite <- app_assoc|]. cbn. by rewrite Hv, Hv'.
Qed.

Lemma depth_children h c l x : x ∈ l → (depth x < depth (mkPiece h c (Some l)))%nat.
Proof.
  intros Hx. cbn. apply Nat.lt_succ_r. induction l as [|y l IH]; [by apply elem_of_nil in Hx|]. cbn.
  apply elem_of_cons in Hx as [->|Hx]; [lia|]. specialize (IH Hx). lia.
Qed.

(** decoding what was encoded *)
Lemma decode_encode buf r :
  piece_ok r → ∀ fuel p rest, (depth r ≤ fuel)%nat →
  ∃ r', DecodeNode fuel (EncodeNode buf p r ++ rest) = Ok (r', NodeSize r) ∧ view r' = view r.
Proof.
  induction r as [h c n IH] using Piece_rect'. intros (Hh & Hc & Hl & Hn) [|fuel] p rest Hf; [cbn in Hf; lia|].
  pose proof (Align16 (h_capture_len h) ltac:(lia)) as [_ Ha]. unfold view at 2.
  cbn [EncodeNode DecodeNode NodeSize]. change (Align 64 16) with 64. rewrite <- !app_assoc.
  rewrite (read_front _ _ 64) by (by apply length_struct). cbn [mbind result_bind].
  rewrite struct_roundtrip by done. cbn [mbind result_bind]. rewrite (drop_bytes _ _ 64) by (by apply length_struct).
  set (gap := _ <$> seqZ 0 _). assert (Hg : len (c ++ gap) = capture_size h).
  { unfold gap, capture_size. rewrite length_app, length_fmap, length_seqZ. lia. }
  rewrite (app_assoc c gap), (read_front _ _ _ Hg), (drop_bytes _ _ _ Hg). cbn [mbind result_bind].
  assert (Ht : take (Z.to_nat (h_capture_len h)) (c ++ gap) = take (Z.to_nat (h_capture_len h)) c).
  { rewrite <- Hc, Nat2Z.id, take_app_length. symmetry. by apply firstn_all2. }
  destruct n as [[|y l]|].
  - rewrite <- app_assoc, (read_split 8 (len [])). cbn [mbind result_bind].
    change (0 <? le_combine (le_split 8 (len []))) with false. eexists. split; [cbn [foldr]; rewrite Z.add_0_r; done|]. cbn. by rewrite Ht.
  - destruct Hn as [Hlen Hn%foldr_ok]. set (l0 := y :: l) in *. rewrite <- app_assoc, (read_split 8 (len l0)).
    cbn [mbind result_bind]. rewrite le_combine_split by (change (8 * Z.of_nat 8) with 64; lia).
    rewrite (proj2 (Z.ltb_lt 0 (len l0))) by (unfold l0; cbn; lia). rewrite Nat2Z.id.
    rewrite (drop_bytes (le_split 8 (len l0)) _ 8) by (by rewrite length_le_split).
    destruct (decode_children_ok fuel buf l0) with (p := p + 64 + capture_size h + 8) (rest := rest) (coll := Collection_new (len l0))
      as (l' & E & Hv).
    { cbn [default] in IH. rewrite Forall_forall in *. intros x Hx. split; [by apply Hn|]. intros q rest'.
      apply IH; [done|by apply Hn|]. pose proof (depth_children h c l0 x Hx). lia. }
    { cbn. lia. }
    change (drop 8) with (drop (A := Z) (Z.to_nat 8)). rewrite E. cbn. eexists. split; [done|].
    cbn. rewrite Ht. f_equal. destruct l' as [|y' l']; [done|]. f_equal. exact Hv.
  - rewrite (read_split 8 0). cbn [mbind result_bind]. change (0 <? le_combine (le_split 8 0)) with false.
    eexists. split; [rewrite Z.add_0_r; done|]. cbn. by rewrite Ht.
Qed.

(** every level of the tree takes bytes, so the packet is fuel enough *)
Lemma depth_size r : piece_ok r → Z.of_nat (depth r) ≤ NodeSize r.
Proof.
  induction r as [h c n IH] using Piece_rect'. intros (_ & Hc & Hl & Hn). cbn [depth NodeSize].
  pose proof (Align16 (h_capture_len h) ltac:(lia)) as [_ Ha]. change (Align 64 16) with 64. unfold capture_size.
  destruct n as [l|]; [|lia]. destruct Hn as [_ Hn%foldr_ok]. cbn in IH.
  assert (H : Z.of_nat (foldr (fun x d => Nat.max (depth x) d) 0%nat l) ≤ foldr (fun c s => NodeSize c + s) 0 l); [|lia].
  clear - IH Hn. induction l as [|x l IHl]; [done|]. apply Forall_cons in IH as [Hx IH]. apply Forall_cons in Hn as [Ho Hn].
  specialize (IHl IH Hn). specialize (Hx Ho). cbn. lia.
Qed.

(** the scheduling keys of a tree, parents before children *)
Fixpoint keys_of (r : Piece) : list Z :=
  match r with mkPiece h _ n => h_sched_key h :: match n with Some l => flat_map keys_of l | None => [] end end.

Lemma assign_key_keys key r : keys_of (assign_key key r) = map (fun k => if k =? 0 then key else k) (keys_of r).
Proof.
  induction r as [h c n IH] using Piece_rect'. cbn. f_equal.
  - by destruct (h_sched_key h =? 0) eqn:E.
  - destruct n as [l|]; [|done]. cbn in *. induction IH as [|x l Hx _ IHl]; [done|]. cbn. by rewrite Hx, IHl, map_app.
Qed.

(** ** Properties *)

(** Routines survive the network: the packet that [EncodeNode] writes has
    [NodeSize] bytes whatever the buffer held before, and [CreateFromPacket]
    rebuilds a routine with the same struct, captured bytes and tree of
    children; given any other length, it aborts. *)
Theorem packet_roundtrip buf p r :
  piece_ok r →
  len (EncodeNode buf p r) = NodeSize r ∧
  (∃ r', CreateFromPacket (EncodeNode buf p r) (NodeSize r) = Ok r' ∧ view r' = view r) ∧
  (∀ n, n ≠ NodeSize r → CreateFromPacket (EncodeNode buf p r) n = Err Aborted).
Proof.
  intros H. pose proof (encode_len buf r H p) as Hl. pose proof (depth_size r H) as Hd.
  destruct (decode_encode buf r H (S (length (EncodeNode buf p r))) p []) as (r' & E & Hv); [lia|].
  rewrite app_nil_r in E. unfold CreateFromPacket. rewrite E. cbn. split; [done|]. split.
  - exists r'. by rewrite Z.eqb_refl.
  - intros n Hn. by rewrite (proj2 (Z.eqb_neq (NodeSize r) n)) by congruence.
Qed.

Definition ex_header (n : Z) : Header := mkHeader 4096 n 0 1 0 257 5 8192 0 0 0 0.
Definition ex_piece : Piece := mkPiece (ex_header 3) [1; 2; 3] (Some [mkPiece (ex_header 0) [] None; mkPiece (ex_header 1) [9] None]).

Lemma packet_roundtrip_witness :
  len (EncodeNode (fun _ => 7) 0 ex_piece) = 248 ∧
  ∃ r', CreateFromPacket (EncodeNode (fun _ => 7) 0 ex_piece) 248 = Ok r' ∧ view r' = view ex_piece.
Proof.
  assert (Hh : ∀ n, 0 ≤ n < 10 → header_ok (ex_header n)) by (intros n Hn; repeat constructor; cbn; lia).
  destruct (packet_roundtrip (fun _ => 7) 0 ex_piece) as (H1 & H2 & _).
  - cbn. repeat split; try (apply Hh; lia); lia.
  - split; [exact H1|exact H2].
Defined.
