(* ===== verification/BufferPlan.v ===== *)
(** The plan of a phase's messages (node_config.cc, completion.h): every core
    counts the pieces its transactions will send, per level, source and
    destination; the counters of all cores are added up and broadcast, and the
    receiver corrects its completion counter with them. *)

From S2P Require Import Prelude SqlTypes Piece.

(** ** The completion counter (completion.h) *)

(** wrap-around of [long] *)
Definition i64 (z : Z) : Z := (z + 2 ^ 63) mod 2 ^ 64 - 2 ^ 63.
Lemma i64_id z : - 2 ^ 63 ≤ z < 2 ^ 63 → i64 z = z.
Proof. intros. unfold i64. rewrite Z.mod_small; lia. Qed.

(** [CompletionObject::Increment]; the argument is an [unsigned long] *)
Definition Increment (comp_count inc : Z) : Z := i64 (comp_count + inc).
(** [CompletionObject::Complete]: the new count, which is also the argument of
    the callback *)
Definition Completion_Complete (comp_count dec : Z) : result Z :=
  let cnt := i64 (comp_count - i64 dec) in
  if cnt <? 0 then Err Aborted else Ok cnt.

(** ** Configuration and data *)

Definition kPromiseMaxLevels : Z := 16.
Definition kMaxPiecesPerPhase : Z := 12800000.

(** [NodeConfiguration]: the number of nodes, this node and its cores *)
Record Config := mkConfig { nr_nodes : Z; node_id : Z; g_nr_threads : Z }.

(** [with_level h l] is the store [routine->level = l] *)
Definition with_level (h : Header) (l : Z) : Header :=
  mkHeader (h_capture_data h) (h_capture_len h) l (h_node_id h) (h_gap h) (h_sched_key h) (h_affinity h) (h_callback h)
    (h_next h) (h_fv_signals h) (h_future_source_node_id h) (h_padding h).

Section Plan.
Context (C : Config).

Definition BatchBufferIndex (level src_node dst_node : Z) : Z :=
  u64 (level * nr_nodes C * nr_nodes C + (src_node - 1) * nr_nodes C + dst_node - 1).

(** the number of counters *)
Definition plan_size : Z := kPromiseMaxLevels * nr_nodes C * nr_nodes C.

(** ** Counting the pieces of a transaction *)

(** [cnts[i] += by] *)
Definition bump (by_ : Z) (cnts : list Z) (i : Z) : result (list Z) :=
  x ← load cnts i; store cnts i (u64 (x + by_)).

(** the loop of the dynamic piece *)
Definition bump_all (level src_node : Z) (cnts : list Z) : result (list Z) :=
  for_each (fun d cnts => bump 1 cnts (BatchBufferIndex level src_node d)) (seqZ 1 (nr_nodes C)) cnts.

(** a loop over routines that are counted and changed in place *)
Definition collect_list (f : Piece → list Z → result (Piece * list Z)) :
    list Piece → list Z → result (list Piece * list Z) :=
  fix go l cnts :=
    match l with
    | [] => Ok ([], cnts)
    | x :: l => '(x, cnts) ← f x cnts; '(l, cnts) ← go l cnts; Ok (x :: l, cnts)
    end.

(** the node a routine is sent to; the variable has the type of [node_id], a byte *)
Definition dst_of (h : Header) (src_node : Z) : Z :=
  if h_node_id h =? 0 then u8 src_node else h_node_id h.

Fixpoint CollectBufferPlanImpl (routine : Piece) (cnts : list Z) (level src_node future_src_node : Z)
    : result (Piece * list Z) :=
  match routine with
  | mkPiece h c n =>
      _ ← abort_if (kPromiseMaxLevels <=? level);
      let h' := with_level h (u8 level) in
      let dst_node := dst_of h src_node in
      cnts ← (if dst_node <? 255 then
                cnts ← bump 1 cnts (BatchBufferIndex level src_node dst_node);
                bump (h_fv_signals h) cnts (BatchBufferIndex level future_src_node dst_node)
              else bump_all level src_node cnts);
      match n with
      | None => Ok (mkPiece h' c None, cnts)
      | Some l =>
          '(l, cnts) ← collect_list (fun r cnts => CollectBufferPlanImpl r cnts (level + 1) dst_node future_src_node) l cnts;
          Ok (mkPiece h' c (Some l), cnts)
      end
  end.

(** the node that signals the futures of a root routine *)
Definition future_src (r : Piece) : Z :=
  if h_future_source_node_id (p_hdr r) =? 0 then node_id C else h_future_source_node_id (p_hdr r).

Definition CollectBufferPlan (root : list Piece) (cnts : list Z) : result (list Piece * list Z) :=
  collect_list (fun r cnts => CollectBufferPlanImpl r cnts 0 (node_id C) (future_src r)) root cnts.

(** ** Adding up and exchanging the counters *)

(** [local_batch->counters], [total_batch_counters], [local_batch_completed] *)
Record Plan := mkPlan { local_cnts : list Z; total_cnts : list Z; batch_completed : Z }.

Definition ResetBufferPlan (p : Plan) : Plan :=
  mkPlan (replicate (Z.to_nat plan_size) 0) (replicate (Z.to_nat plan_size) 0) 0.

(** the indices of the three nested loops, source and destination from 0 *)
Definition cells : list (Z * Z * Z) :=
  i ← seqZ 0 kPromiseMaxLevels; src ← seqZ 0 (nr_nodes C); dst ← seqZ 0 (nr_nodes C); [(i, src, dst)].
Definition cell_index (c : Z * Z * Z) : Z := let '(i, src, dst) := c in BatchBufferIndex i (src + 1) (dst + 1).

(** the body of the loops of [FlushBufferPlan] *)
Definition flush_cell (per_core : list Z) (c : Z * Z * Z) (s : list Z * list Z * Z) : result (list Z * list Z * Z) :=
  let '(loc, tot, comp) := s in
  let idx := cell_index c in
  counter ← load per_core idx;
  loc ← bump counter loc idx;
  tot ← bump counter tot idx;
  Ok (loc, tot, if (counter =? 0) then comp else if c.2 + 1 =? node_id C then Increment comp counter else comp).

(** [FlushBufferPlan]: the plan, the completion counter, whether this core was
    the last, and the message it then writes to every other node *)
Definition FlushBufferPlan (p : Plan) (comp : Z) (per_core : list Z)
    : result (Plan * Z * bool * list (Z * list Z)) :=
  '(loc, tot, comp) ← for_each (flush_cell per_core) cells (local_cnts p, total_cnts p, comp);
  let done := u64 (batch_completed p + 1) in
  let p := mkPlan loc tot done in
  if done <? g_nr_threads C then Ok (p, comp, false, [])
  else Ok (p, comp, true,
           (fun id => (id, node_id C :: loc)) <$> filter (fun id => id ≠ node_id C) (seqZ 1 (nr_nodes C))).

(** the body of the loops of [UpdateBatchCountersFromReceiver]; [total_cnt] is an [int] *)
Definition update_cell (data : list Z) (c : Z * Z * Z) (s : list Z * Z) : result (list Z * Z) :=
  let '(tot, total_cnt) := s in
  let idx := cell_index c in
  cnt ← load data (1 + idx);
  if cnt =? 0 then Ok (tot, total_cnt)
  else tot ← bump cnt tot idx;
       Ok (tot, if c.2 + 1 =? node_id C then i32 (total_cnt + cnt) else total_cnt).

(** [UpdateBatchCountersFromReceiver]: the plan, the completion counter and the sender *)
Definition UpdateBatchCountersFromReceiver (p : Plan) (comp : Z) (data : list Z) : result (Plan * Z * Z) :=
  src_node_id ← load data 0;
  '(tot, total_cnt) ← for_each (update_cell data) cells (total_cnts p, 0);
  comp ← Completion_Complete comp (u64 (kMaxPiecesPerPhase - total_cnt));
  Ok (mkPlan (local_cnts p) tot (batch_completed p), comp, src_node_id).

Definition CalculateIncomingFromNode (p : Plan) (src : Z) : result Z :=
  for_each (fun i s => x ← load (total_cnts p) (BatchBufferIndex i src (node_id C)); Ok (u64 (s + x)))
    (seqZ 0 kPromiseMaxLevels) 0.

End Plan.
