(* ===== verification/PlanFacts.v ===== *)
(** Lemmas on the message plan: the counters are addressed without collision,
    the plan of a tree counts its messages, and the exchange of the counters. *)

From S2P Require Import Prelude SqlTypes Piece BufferPlan.

(** ** Reference definitions *)

(** one message of the plan: a routine at [rt_level] sent from [rt_src] to
    [rt_dst], with [rt_sig] future values *)
Record Route := mkRoute { rt_level : Z; rt_src : Z; rt_dst : Z; rt_sig : Z }.

(** the messages of a tree of routines *)
Fixpoint routes (r : Piece) (level src : Z) : list Route :=
  match r with
  | mkPiece h _ n =>
      let dst := dst_of h src in
      mkRoute level src dst (h_fv_signals h) ::
      match n with None => [] | Some l => flat_map (fun x => routes x (level + 1) dst) l end
  end.

(** the tree after the levels are written *)
Fixpoint set_levels (r : Piece) (level : Z) : Piece :=
  match r with
  | mkPiece h c n =>
      mkPiece (with_level h (u8 level)) c
        match n with None => None | Some l => Some (map (fun x => set_levels x (level + 1)) l) end
  end.

Definition ind (b : bool) : Z := if b then 1 else 0.

(** what a message adds to the counter of (level, source, destination); the
    signals are sent by the node [fsrc], and a dynamic routine goes to all nodes *)
Definition traffic (fsrc l s d : Z) (r : Route) : Z :=
  ind (rt_level r =? l) *
  (if rt_dst r <? 255 then ind (rt_dst r =? d) * (ind (rt_src r =? s) + ind (fsrc =? s) * rt_sig r)
   else ind (rt_src r =? s)).

(** what a message brings to node [d] in all *)
Definition arrivals (d : Z) (r : Route) : Z :=
  if rt_dst r <? 255 then ind (rt_dst r =? d) * (1 + rt_sig r) else 1.

Section Facts.
Context (C : Config).
Hypothesis Hn : 1 ≤ nr_nodes C ≤ 254.
Abbreviation n := (nr_nodes C).

Definition node_ok (s : Z) : Prop := 1 ≤ s ≤ n.
Definition level_ok (l : Z) : Prop := 0 ≤ l < kPromiseMaxLevels.
(** a message between two nodes, or a dynamic one *)
Definition route_ok (r : Route) : Prop :=
  0 ≤ rt_level r ∧ node_ok (rt_src r) ∧ (node_ok (rt_dst r) ∨ rt_dst r = 255).
(** an array of 64-bit counters *)
Definition cnts_ok (c : list Z) : Prop := len c = plan_size C ∧ Forall (fun x => 0 ≤ x < 2 ^ 64) c.

(** ** Addresses *)

Lemma index_eq l s d : level_ok l → node_ok s → node_ok d →
  BatchBufferIndex C l s d = l * n * n + (s - 1) * n + (d - 1) ∧ 0 ≤ BatchBufferIndex C l s d < plan_size C.
Proof using All.
  unfold level_ok, node_ok, BatchBufferIndex, plan_size, kPromiseMaxLevels. intros Hl Hs Hd.
  assert (0 ≤ (s - 1) * n + (d - 1) < n * n) by nia.
  assert (0 ≤ l * (n * n)) by nia. assert (l * (n * n) ≤ 15 * (n * n)) by nia.
  assert (n * n ≤ 254 * 254) by nia.
  rewrite u64_id by lia. lia.
Qed.

(** no two (level, source, destination) share a counter *)
Lemma index_inj l s d l' s' d' : level_ok l → node_ok s → node_ok d → level_ok l' → node_ok s' → node_ok d' →
  BatchBufferIndex C l s d = BatchBufferIndex C l' s' d' → l = l' ∧ s = s' ∧ d = d'.
Proof using All.
  intros Hl Hs Hd Hl' Hs' Hd'.
  rewrite (proj1 (index_eq l s d Hl Hs Hd)), (proj1 (index_eq l' s' d' Hl' Hs' Hd')). unfold node_ok in *. intros E.
  assert (E1 : (l * n + (s - 1)) * n + (d - 1) = (l' * n + (s' - 1)) * n + (d' - 1)) by lia.
  assert (d = d' ∧ l * n + (s - 1) = l' * n + (s' - 1)) as [-> E2].
  { assert ((d - 1) = (d' - 1)).
    { rewrite <- (Z.mod_small (d - 1) n), <- (Z.mod_small (d' - 1) n) by lia.
      rewrite <- (Z_mod_plus_full (d - 1) (l * n + (s - 1)) n), <- (Z_mod_plus_full (d' - 1) (l' * n + (s' - 1)) n).
      f_equal. lia. }
    split; [lia|]. nia. }
  assert (s = s') by (assert (s - 1 = s' - 1);
    [rewrite <- (Z.mod_small (s - 1) n), <- (Z.mod_small (s' - 1) n) by lia;
     rewrite <- (Z_mod_plus_full (s - 1) l n), <- (Z_mod_plus_full (s' - 1) l' n); f_equal; lia|lia]).
  subst s'. split; [nia|done].
Qed.

Lemma elem_of_cells i s d :
  (i, s, d) ∈ cells C ↔ level_ok i ∧ node_ok (s + 1) ∧ node_ok (d + 1).
Proof using Type.
  clear. unfold cells, level_ok, node_ok. rewrite list_elem_of_bind. setoid_rewrite list_elem_of_bind.
  setoid_rewrite list_elem_of_bind. setoid_rewrite elem_of_seqZ. setoid_rewrite list_elem_of_singleton.
  split; [intros (x & (y & (z & [= -> -> ->] & ?) & ?) & ?); lia|].
  intros. exists i. split; [|lia]. exists s. split; [|lia]. exists d. split; [done|lia].
Qed.

Lemma cells_NoDup : NoDup (cells C).
Proof using Type.
  clear. unfold cells. apply NoDup_bind; [|intros i _; apply NoDup_bind|apply NoDup_seqZ].
  - intros x y [[a b] c] Hx Hy H1 H2. apply list_elem_of_bind in H1 as (? & H1 & ?), H2 as (? & H2 & ?).
    apply list_elem_of_bind in H1 as (? & H1 & ?), H2 as (? & H2 & ?).
    apply list_elem_of_singleton in H1, H2. congruence.
  - intros x y [[a b] c] Hx Hy H1 H2. apply list_elem_of_bind in H1 as (? & H1 & ?), H2 as (? & H2 & ?).
    apply list_elem_of_singleton in H1, H2. congruence.
  - intros s _. apply NoDup_bind; [|intros; apply NoDup_singleton|apply NoDup_seqZ].
    intros x y [[a b] c] Hx Hy H1 H2. apply list_elem_of_singleton in H1, H2. congruence.
  - apply NoDup_seqZ.
Qed.

Lemma cell_index_range c : c ∈ cells C → 0 ≤ cell_index C c < plan_size C.
Proof using All. destruct c as [[i s] d]. intros (? & ? & ?)%elem_of_cells. cbn. by apply index_eq. Qed.

Lemma cell_index_inj c c' : c ∈ cells C → c' ∈ cells C → cell_index C c = cell_index C c' → c = c'.
Proof using All.
  destruct c as [[i s] d], c' as [[i' s'] d']. intros (? & ? & ?)%elem_of_cells (? & ? & ?)%elem_of_cells E.
  cbn in E. apply index_inj in E as (-> & ? & ?); try done. f_equal; [f_equal|]; lia.
Qed.

(** ** Adding to counters *)

(** [c'] is [c] with [f l s d] added to the counter of (l, s, d) *)
Definition adds (f : Z → Z → Z → Z) (c c' : list Z) : Prop :=
  cnts_ok c' ∧ ∀ l s d, level_ok l → node_ok s → node_ok d →
  c'.[BatchBufferIndex C l s d] = u64 (c.[BatchBufferIndex C l s d] + f l s d).

Lemma cnts_at c i : cnts_ok c → 0 ≤ c.[i] < 2 ^ 64.
Proof using Type.
  clear. intros [_ Hc]. unfold at_. rewrite nth_lookup. destruct (c !! Z.to_nat i) as [x|] eqn:E; cbn; [|lia].
  by apply (Forall_lookup_1 _ _ _ _ Hc E).
Qed.

Lemma u64_add a b : u64 (u64 a + b) = u64 (a + b).
Proof using Type. clear. unfold u64. by rewrite Zplus_mod_idemp_l. Qed.

Lemma adds_zero f c : cnts_ok c → (∀ l s d, f l s d = 0) → adds f c c.
Proof using Type.
  clear. intros Hc Hf. split; [done|]. intros. rewrite Hf, Z.add_0_r, u64_id; [done|]. by apply cnts_at.
Qed.

Lemma adds_trans f g c1 c2 c3 : adds f c1 c2 → adds g c2 c3 → adds (fun l s d => f l s d + g l s d) c1 c3.
Proof using Type.
  clear. intros [_ H1] [Hc H2]. split; [done|]. intros. rewrite H2, H1, u64_add by done. f_equal. lia.
Qed.

Lemma adds_ext f g c c' : (∀ l s d, level_ok l → node_ok s → node_ok d → f l s d = g l s d) → adds f c c' → adds g c c'.
Proof using Type. clear. intros He [Hc H]. split; [done|]. intros. by rewrite H, He. Qed.

Lemma bump_spec by_ c l s d : cnts_ok c → level_ok l → node_ok s → node_ok d →
  ∃ c', bump by_ c (BatchBufferIndex C l s d) = Ok c' ∧
  adds (fun l' s' d' => ind ((l =? l') && (s =? s') && (d =? d')) * by_) c c'.
Proof using All.
  intros Hok Hl Hs Hd. destruct (index_eq l s d Hl Hs Hd) as [_ Hi]. pose proof Hok as [Hc Hr]. unfold bump.
  rewrite load_in by lia. cbn. rewrite store_in by lia. eexists. split; [done|]. split; [split|].
  - by rewrite len_insert.
  - apply Forall_insert; [done|apply u64_range].
  - intros l' s' d' Hl' Hs' Hd'. destruct (index_eq l' s' d' Hl' Hs' Hd') as [_ Hi']. rewrite at_insert by lia.
    destruct (decide ((l, s, d) = (l', s', d'))) as [[= -> -> ->]|Hne].
    + rewrite !Z.eqb_refl. cbn [andb ind]. by rewrite Z.mul_1_l.
    + destruct (Z.eqb_spec (BatchBufferIndex C l' s' d') (BatchBufferIndex C l s d)) as [E|_].
      { apply index_inj in E as (-> & -> & ->); done. }
      replace ((l =? l') && (s =? s') && (d =? d')) with false
        by (symmetry; apply not_true_is_false; intros ?; zprop; by subst).
      cbn [ind]. rewrite Z.mul_0_l, Z.add_0_r, u64_id; [done|by apply cnts_at].
Qed.

Lemma bump_all_spec c l s : cnts_ok c → level_ok l → node_ok s →
  ∃ c', bump_all C l s c = Ok c' ∧ adds (fun l' s' d' => ind ((l =? l') && (s =? s'))) c c'.
Proof using All.
  intros Hc Hl Hs.
  destruct (for_each_inv (fun d cnts => bump 1 cnts (BatchBufferIndex C l s d))
    (fun done c' => adds (fun l' s' d' => ind ((l =? l') && (s =? s') && bool_decide (d' ∈ done))) c c')
    (seqZ 1 n) c) as (c' & E & Ha).
  - apply adds_zero; [done|]. intros. by rewrite bool_decide_false, andb_false_r by apply not_elem_of_nil.
  - intros dn d r c1 Hseq Hc1. assert (Hd : d ∈ seqZ 1 n) by (rewrite Hseq; set_solver).
    assert (Hnd : d ∉ dn).
    { pose proof (NoDup_seqZ 1 n) as Hnd. rewrite Hseq in Hnd. apply NoDup_app in Hnd as (_ & Hnd & _).
      intros Hin. apply (Hnd d Hin). left. }
    apply elem_of_seqZ in Hd. destruct (bump_spec 1 c1 l s d (proj1 Hc1) Hl Hs ltac:(unfold node_ok; lia)) as (c2 & -> & H2).
    exists c2. split; [done|]. refine (adds_ext _ _ _ _ _ (adds_trans _ _ _ _ _ Hc1 H2)).
    intros l' s' d' _ _ _. destruct (l =? l'), (s =? s'); cbn [andb]; try done.
    destruct (Z.eqb_spec d d') as [->|]; [rewrite (bool_decide_false (d' ∈ dn)), bool_decide_true by set_solver; done|].
    rewrite Z.mul_0_l, Z.add_0_r. f_equal. apply bool_decide_ext. set_solver.
  - exists c'. split; [done|]. refine (adds_ext _ _ _ _ _ Ha). intros l' s' d' _ _ Hd. unfold node_ok in Hd.
    rewrite bool_decide_true, andb_true_r; [done|]. apply elem_of_seqZ. lia.
Qed.

(** ** The plan of a tree *)

Lemma routes_level r level src rt : rt ∈ routes r level src → level ≤ rt_level rt.
Proof using Type.
  clear. revert level src. induction r as [h c l IH] using Piece_rect'. intros level src. cbn. rewrite elem_of_cons.
  intros [->|H]; [done|]. destruct l as [l|]; [|by apply elem_of_nil in H]. cbn in IH.
  apply list_elem_of_In, in_flat_map in H as (x & Hx & H). apply list_elem_of_In in Hx, H.
  rewrite Forall_forall in IH. apply IH in H; [lia|done].
Qed.

(** the counters a routine itself touches *)
Lemma collect_root_spec h cnts level src fsrc :
  cnts_ok cnts → level_ok level → route_ok (mkRoute level src (dst_of h src) (h_fv_signals h)) → node_ok fsrc →
  ∃ c', (if dst_of h src <? 255 then
           cnts ← bump 1 cnts (BatchBufferIndex C level src (dst_of h src));
           bump (h_fv_signals h) cnts (BatchBufferIndex C level fsrc (dst_of h src))
         else bump_all C level src cnts) = Ok c' ∧
  adds (fun l s d => traffic fsrc l s d (mkRoute level src (dst_of h src) (h_fv_signals h))) cnts c'.
Proof using All.
  unfold route_ok, traffic. cbn. intros Hc Hl (_ & Hs & Hd) Hf. destruct (Z.ltb_spec (dst_of h src) 255) as [Hlt|Hge].
  - destruct Hd as [Hd|Hd]; [|lia].
    destruct (bump_spec 1 cnts level src (dst_of h src) Hc Hl Hs Hd) as (c1 & -> & H1). cbn.
    destruct (bump_spec (h_fv_signals h) c1 level fsrc (dst_of h src) (proj1 H1) Hl Hf Hd) as (c2 & -> & H2).
    exists c2. split; [done|]. refine (adds_ext _ _ _ _ _ (adds_trans _ _ _ _ _ H1 H2)).
    intros l s d _ _ _. destruct (level =? l), (src =? s), (fsrc =? s), (dst_of h src =? d); cbn; lia.
  - destruct (bump_all_spec cnts level src Hc Hl Hs) as (c1 & -> & H1). exists c1. split; [done|].
    refine (adds_ext _ _ _ _ _ H1). intros l s d _ _ _. destruct (level =? l), (src =? s); done.
Qed.

(** counting either adds [t] to the counters and returns [a], or aborts because
    a level is too deep *)
Definition outcome {A} (fits : bool) (t : Z → Z → Z → Z) (cnts : list Z) (a : A) (res : result (A * list Z)) : Prop :=
  if fits then ∃ c', res = Ok (a, c') ∧ adds t cnts c' else res = Err Aborted.

Definition fits (r : Route) : bool := rt_level r <? kPromiseMaxLevels.

Lemma collect_list_spec (f : Piece → list Z → result (Piece * list Z)) (ok : Piece → bool)
    (t : Piece → Z → Z → Z → Z) (sl : Piece → Piece) xs :
  (∀ x c, x ∈ xs → cnts_ok c → outcome (ok x) (t x) c (sl x) (f x c)) →
  ∀ c, cnts_ok c →
  outcome (forallb ok xs) (fun l s d => sum_over (fun x => t x l s d) xs) c (map sl xs) (collect_list f xs c).
Proof using Type.
  clear. induction xs as [|x xs IH]; intros Hf c Hc; cbn.
  - exists c. split; [done|]. by apply adds_zero.
  - pose proof (Hf x c ltac:(left) Hc) as Hx. unfold outcome in Hx. destruct (ok x); cbn; [|by rewrite Hx].
    destruct Hx as (c1 & -> & H1). cbn. specialize (IH (fun y c Hy => Hf y c ltac:(by right)) c1 (proj1 H1)).
    fold (collect_list f xs c1). unfold outcome in *. destruct (forallb ok xs); [|by rewrite IH].
    destruct IH as (c2 & -> & H2). exists c2. split; [done|]. by apply (adds_trans _ _ _ _ _ H1 H2).
Qed.

Lemma forallb_flat_map {A B} (p : B → bool) (g : A → list B) l :
  forallb p (flat_map g l) = forallb (fun x => forallb p (g x)) l.
Proof using Type. clear. induction l as [|x l IH]; cbn; [done|]. by rewrite forallb_app, IH. Qed.
Lemma sum_over_flat_map {A B} (f : B → Z) (g : A → list B) l :
  sum_over f (flat_map g l) = sum_over (fun x => sum_over f (g x)) l.
Proof using Type. clear. induction l as [|x l IH]; cbn [flat_map]; [done|]. rewrite sum_over_app, IH. done. Qed.

Lemma collect_impl_spec r cnts level src fsrc :
  cnts_ok cnts → 0 ≤ level → Forall route_ok (routes r level src) → node_ok fsrc →
  outcome (forallb fits (routes r level src))
    (fun l s d => sum_over (traffic fsrc l s d) (routes r level src)) cnts (set_levels r level)
    (CollectBufferPlanImpl C r cnts level src fsrc).
Proof using All.
  revert cnts level src. induction r as [h c l IH] using Piece_rect'. intros cnts level src Hc Hl Hr Hf.
  cbn [routes] in Hr. apply Forall_cons in Hr as [Hr0 Hr].
  cbn [CollectBufferPlanImpl routes set_levels forallb]. unfold fits at 1. cbn [rt_level].
  destruct (Z.leb_spec kPromiseMaxLevels level) as [Hdeep|Hdeep]; cbn [abort_if mbind result_bind].
  { by rewrite (proj2 (Z.ltb_ge _ _)). }
  rewrite (proj2 (Z.ltb_lt _ _)) by done. cbn [andb].
  destruct (collect_root_spec h cnts level src fsrc Hc ltac:(done) Hr0 Hf) as (c1 & E1 & H1).
  change (@mbind result result_bind) with (@mbind result _) in *. rewrite E1. cbn.
  destruct l as [l|]; cbn [default] in IH.
  - unshelve epose proof (collect_list_spec
      (fun r cnts => CollectBufferPlanImpl C r cnts (level + 1) (dst_of h src) fsrc)
      (fun x => forallb fits (routes x (level + 1) (dst_of h src)))
      (fun x l s d => sum_over (traffic fsrc l s d) (routes x (level + 1) (dst_of h src)))
      (fun x => set_levels x (level + 1)) l _ c1 (proj1 H1)) as HL.
    { intros x cx Hx Hcx. rewrite Forall_forall in IH. apply IH; [done|done|lia| |done].
      rewrite Forall_forall in Hr |- *. intros rt Hrt. apply Hr. apply list_elem_of_In, in_flat_map. exists x.
      by rewrite <- !list_elem_of_In. }
    rewrite forallb_flat_map. unfold outcome in *.
    destruct (forallb _ l); [|by rewrite HL]. destruct HL as (c2 & -> & H2). exists c2. split; [done|].
    refine (adds_ext _ _ _ _ _ (adds_trans _ _ _ _ _ H1 H2)). intros. cbn. by rewrite <- sum_over_flat_map.
  - exists c1. split; [done|]. refine (adds_ext _ _ _ _ _ H1). intros. cbn. lia.
Qed.

(** ** Totals of a destination *)

(** the sum of the counters of destination [d] *)
Definition incoming (cnts : list Z) (d : Z) : Z :=
  sum_over (fun c => if c.2 + 1 =? d then cnts.[cell_index C c] else 0) (cells C).

Lemma sum_over_add {A} (f g : A → Z) l : sum_over (fun x => f x + g x) l = sum_over f l + sum_over g l.
Proof using Type. clear. induction l as [|x l IH]; cbn; [done|]. unfold sum_over in *. lia. Qed.
Lemma sum_over_zero {A} (f : A → Z) l : (∀ x, x ∈ l → f x = 0) → sum_over f l = 0.
Proof using Type. clear. intros H. rewrite (sum_over_ext f (fun _ => 0) l H), sum_over_const. lia. Qed.
Lemma sum_over_swap {A B} (f : A → B → Z) l m :
  sum_over (fun x => sum_over (f x) m) l = sum_over (fun y => sum_over (fun x => f x y) l) m.
Proof using Type.
  clear. induction l as [|x l IH]; cbn; [by rewrite sum_over_zero|]. fold (sum_over (fun x => sum_over (f x) m) l).
  rewrite IH, <- sum_over_add. done.
Qed.
(** a function that vanishes except at [a] *)
Lemma sum_over_single {A} (f : A → Z) l a : NoDup l → a ∈ l → (∀ x, x ∈ l → x ≠ a → f x = 0) → sum_over f l = f a.
Proof using Type.
  clear. intros Hnd Ha H. rewrite (sum_over_update (fun _ => 0) f l a Hnd Ha H), sum_over_const. lia.
Qed.

(** one message adds its arrivals to the counters of its destination *)
Lemma traffic_total fsrc d rt :
  route_ok rt → fits rt = true → node_ok fsrc → node_ok d →
  sum_over (fun c => if c.2 + 1 =? d then traffic fsrc c.1.1 (c.1.2 + 1) d rt else 0) (cells C) = arrivals d rt.
Proof using All.
  intros (Hl & Hs & Hd) Hfit Hf Hdn. unfold fits in Hfit. zprop.
  set (a := ((rt_level rt, rt_src rt - 1), d - 1)). set (b := ((rt_level rt, fsrc - 1), d - 1)).
  assert (Ha : a ∈ cells C). { apply elem_of_cells. unfold level_ok. rewrite !Z.sub_add. repeat split; try done; apply Hs || apply Hdn. }
  assert (Hb : b ∈ cells C). { apply elem_of_cells. unfold level_ok. rewrite !Z.sub_add. repeat split; try done; apply Hf || apply Hdn. }
  set (to := if rt_dst rt <? 255 then ind (rt_dst rt =? d) else 1).
  rewrite (sum_over_ext _ (fun c => (if decide (c = a) then to else 0) +
     (if decide (c = b) then if rt_dst rt <? 255 then ind (rt_dst rt =? d) * rt_sig rt else 0 else 0))).
  - rewrite sum_over_add, (sum_over_single _ _ a cells_NoDup Ha), (sum_over_single _ _ b cells_NoDup Hb).
    + rewrite !decide_True by done. unfold arrivals, to. case_match; lia.
    + intros. by rewrite decide_False.
    + intros. by rewrite decide_False.
  - intros [[i s] e] _. unfold a, b, to, traffic. cbn [fst snd].
    destruct (decide ((i, s, e) = (rt_level rt, rt_src rt - 1, d - 1))) as [[= -> -> ->]|H1].
    + rewrite !Z.sub_add, !Z.eqb_refl. destruct (Z.eqb_spec fsrc (rt_src rt)) as [->|].
      * rewrite decide_True by done. destruct (rt_dst rt <? 255); cbn [ind]; lia.
      * rewrite decide_False by (intros [= ?]; lia). destruct (rt_dst rt <? 255); cbn [ind]; lia.
    + destruct (decide ((i, s, e) = (rt_level rt, fsrc - 1, d - 1))) as [[= -> -> ->]|H2].
      * rewrite !Z.sub_add, !Z.eqb_refl. destruct (Z.eqb_spec (rt_src rt) fsrc) as [E|].
        { destruct H1. do 2 f_equal. lia. }
        destruct (rt_dst rt <? 255); cbn [ind]; lia.
      * destruct (Z.eqb_spec (e + 1) d) as [He|]; [|done].
        destruct (Z.eqb_spec (rt_level rt) i) as [Hi|]; [|done]. subst i d.
        destruct (Z.eqb_spec (rt_src rt) (s + 1)) as [E|_]; [destruct H1; repeat f_equal; lia|].
        destruct (Z.eqb_spec fsrc (s + 1)) as [E|_]; [destruct H2; repeat f_equal; lia|].
        destruct (rt_dst rt <? 255); cbn [ind]; lia.
Qed.

End Facts.
