(* ===== verification/PlanProps.v ===== *)
(** Theorems on the message plan: the counters of a core are the messages of its
    transactions, and the exchange of counters sets the completion counter of a
    node to what it will receive. *)

From S2P Require Import Prelude SqlTypes Piece BufferPlan PlanFacts.

Lemma i64_add a b : i64 (i64 a + b) = i64 (a + b).
Proof.
  unfold i64. f_equal.
  replace ((a + 2 ^ 63) mod 2 ^ 64 - 2 ^ 63 + b + 2 ^ 63) with ((a + 2 ^ 63) mod 2 ^ 64 + b) by lia.
  rewrite Zplus_mod_idemp_l. f_equal. lia.
Qed.
Lemma i32_add a b : i32 (i32 a + b) = i32 (a + b).
Proof.
  unfold i32. f_equal.
  replace ((a + 2 ^ 31) mod 2 ^ 32 - 2 ^ 31 + b + 2 ^ 31) with ((a + 2 ^ 31) mod 2 ^ 32 + b) by lia.
  rewrite Zplus_mod_idemp_l. f_equal. lia.
Qed.

Lemma sum_over_snoc {A} (f : A → Z) l x : sum_over f (l ++ [x]) = sum_over f l + f x.
Proof. rewrite sum_over_app. cbn. lia. Qed.

Section Exchange.
Context (C : Config).
Hypothesis Hn : 1 ≤ nr_nodes C ≤ 254.
Hypothesis Hid : node_ok C (node_id C).

(** the part of a counter that the cells [l] hold *)
Definition part (l : list (Z * Z * Z)) (g : Z → Z) (i s d : Z) : Z :=
  if bool_decide ((i, s - 1, d - 1) ∈ l) then g (BatchBufferIndex C i s d) else 0.

(** one more cell is added *)
Lemma part_snoc c c1 l r i s d (g : Z → Z) :
  cells C = l ++ (i, s, d) :: r → adds C (part l g) c c1 →
  ∃ c2, bump (g (cell_index C (i, s, d))) c1 (cell_index C (i, s, d)) = Ok c2 ∧ adds C (part (l ++ [(i, s, d)]) g) c c2.
Proof using Hn.
  clear Hid. intros Hc H1. assert (Hin : (i, s, d) ∈ cells C) by (rewrite Hc; set_solver).
  assert (Hnd : (i, s, d) ∉ l).
  { pose proof (cells_NoDup C) as Hnd. rewrite Hc in Hnd. apply NoDup_app in Hnd as (_ & Hnd & _).
    intros Hx. apply (Hnd _ Hx). left. }
  apply elem_of_cells in Hin as (Hi & Hs & Hd).
  destruct (bump_spec C Hn (g (cell_index C (i, s, d))) c1 i (s + 1) (d + 1) (proj1 H1) Hi Hs Hd) as (c2 & E & H2).
  exists c2. split; [exact E|]. refine (adds_ext C _ _ _ _ _ (adds_trans C _ _ _ _ _ H1 H2)).
  intros i' s' d' _ _ _. unfold part.
  destruct (decide ((i', s' - 1, d' - 1) = (i, s, d))) as [[= -> <- <-]|Hne].
  - rewrite !Z.sub_add, !Z.eqb_refl, (bool_decide_false (_ ∈ l)), bool_decide_true by set_solver.
    cbn [andb ind cell_index]. rewrite !Z.sub_add. lia.
  - replace ((i =? i') && (s + 1 =? s') && (d + 1 =? d')) with false.
    + cbn [ind]. rewrite Z.mul_0_l, Z.add_0_r.
      rewrite (bool_decide_ext _ ((i', s' - 1, d' - 1) ∈ l ++ [(i, s, d)])); [done|]. set_solver.
    + symmetry. apply not_true_is_false. intros ?. zprop. subst. destruct Hne. repeat f_equal; lia.
Qed.

(** the loop over all cells reaches every counter *)
Lemma part_all g c c' : adds C (part (cells C) g) c c' → adds C (fun i s d => g (BatchBufferIndex C i s d)) c c'.
Proof using Type.
  clear. apply adds_ext. intros i s d Hi Hs Hd. unfold part. rewrite bool_decide_true; [done|].
  apply elem_of_cells. rewrite !Z.sub_add. done.
Qed.

Lemma flush_cells_spec per_core loc tot comp :
  cnts_ok C per_core → cnts_ok C loc → cnts_ok C tot → i64 comp = comp →
  ∃ loc' tot', for_each (flush_cell C per_core) (cells C) (loc, tot, comp) =
    Ok (loc', tot', i64 (comp + incoming C per_core (node_id C))) ∧
  adds C (fun i s d => per_core.[BatchBufferIndex C i s d]) loc loc' ∧
  adds C (fun i s d => per_core.[BatchBufferIndex C i s d]) tot tot'.
Proof using All.
  intros Hp Hl Ht Hc.
  destruct (for_each_inv (flush_cell C per_core) (fun l '(loc', tot', comp') =>
    adds C (part l (at_ per_core)) loc loc' ∧ adds C (part l (at_ per_core)) tot tot' ∧
    comp' = i64 (comp + sum_over (fun c => if c.2 + 1 =? node_id C then per_core.[cell_index C c] else 0) l))
    (cells C) (loc, tot, comp)) as ([[loc' tot'] comp'] & E & H1 & H2 & ->).
  - split; [|split]; [by apply adds_zero|by apply adds_zero|]. cbn. by rewrite Z.add_0_r.
  - intros l [[i s] d] r [[l1 t1] p1] Hcells (Ha & Hb & ->). unfold flush_cell.
    pose proof (cell_index_range C Hn (i, s, d) ltac:(rewrite Hcells; set_solver)) as Hr.
    rewrite load_in by (rewrite (proj1 Hp); done). cbn [mbind result_bind].
    destruct (part_snoc _ _ _ _ _ _ _ _ Hcells Ha) as (l2 & -> & Hl2). cbn [mbind result_bind].
    destruct (part_snoc _ _ _ _ _ _ _ _ Hcells Hb) as (t2 & -> & Ht2). cbn [mbind result_bind].
    eexists. split; [done|]. cbn beta iota. split; [done|split; [done|]].
    rewrite sum_over_snoc. cbn [snd]. unfold Increment.
    destruct (Z.eqb_spec (per_core.[cell_index C (i, s, d)]) 0) as [E0|_];
      rewrite ?E0; destruct (d + 1 =? node_id C); rewrite ?i64_add; f_equal; lia.
  - exists loc', tot'. split; [exact E|]. split; by apply part_all.
Qed.

Lemma update_cells_spec data tot :
  cnts_ok C (tail data) → cnts_ok C tot → length data ≠ 0%nat →
  ∃ tot', for_each (update_cell C data) (cells C) (tot, 0) = Ok (tot', i32 (incoming C (tail data) (node_id C))) ∧
  adds C (fun i s d => (tail data).[BatchBufferIndex C i s d]) tot tot'.
Proof using All.
  intros Hp Ht Hlen. destruct data as [|src data]; [done|]. cbn [tail] in *. clear Hlen.
  destruct (for_each_inv (update_cell C (src :: data)) (fun l '(tot', total) =>
    adds C (part l (at_ data)) tot tot' ∧
    total = i32 (sum_over (fun c => if c.2 + 1 =? node_id C then data.[cell_index C c] else 0) l))
    (cells C) (tot, 0)) as ([tot' total] & E & H1 & ->).
  - split; [by apply adds_zero|done].
  - intros l [[i s] d] r [t1 p1] Hcells (Ha & ->). unfold update_cell.
    pose proof (cell_index_range C Hn (i, s, d) ltac:(rewrite Hcells; set_solver)) as Hr.
    rewrite load_in by (destruct Hp as [Hp _]; cbn [length]; lia). cbn [mbind result_bind].
    replace ((src :: data).[1 + cell_index C (i, s, d)]) with (data.[cell_index C (i, s, d)])
      by (unfold at_; replace (Z.to_nat (1 + cell_index C (i, s, d))) with (S (Z.to_nat (cell_index C (i, s, d)))) by lia; done).
    destruct (part_snoc _ _ _ _ _ _ _ _ Hcells Ha) as (t2 & E2 & Ht2).
    rewrite sum_over_snoc. cbn [snd].
    destruct (Z.eqb_spec (data.[cell_index C (i, s, d)]) 0) as [E0|_].
    + eexists. split; [done|]. cbn beta iota. split; [|rewrite E0; destruct (d + 1 =? node_id C); f_equal; lia].
      rewrite E0 in E2. refine (adds_ext C _ _ _ _ _ Ha). intros i' s' d' Hi' Hs' Hd'. unfold part.
      destruct (decide ((i', s' - 1, d' - 1) = (i, s, d))) as [[= -> <- <-]|Hne].
      * cbn [cell_index] in E0. rewrite !Z.sub_add in E0. rewrite E0. by repeat case_match.
      * rewrite (bool_decide_ext _ ((i', s' - 1, d' - 1) ∈ l ++ [(i, s, d)])); [done|]. set_solver.
    + rewrite E2. cbn [mbind result_bind]. eexists. split; [done|]. cbn beta iota. split; [done|].
      destruct (d + 1 =? node_id C); rewrite ?i32_add; f_equal; lia.
  - exists tot'. split; [exact E|]. by apply part_all.
Qed.

Lemma incoming_nonneg cnts d : cnts_ok C cnts → 0 ≤ incoming C cnts d.
Proof using Type.
  clear. intros Hc. apply sum_over_nonneg. intros c _. case_match; [|done].
  by destruct (cnts_at C cnts (cell_index C c) Hc).
Qed.

(** the counters as a plan *)
Definition plan_ok (p : Plan) : Prop :=
  cnts_ok C (local_cnts p) ∧ cnts_ok C (total_cnts p) ∧ 0 ≤ batch_completed p < g_nr_threads C.

(** the messages to the other nodes *)
Definition broadcast (loc : list Z) : list (Z * list Z) :=
  (fun id => (id, node_id C :: loc)) <$> filter (fun id => id ≠ node_id C) (seqZ 1 (nr_nodes C)).

Lemma flush_one p comp per_core :
  plan_ok p → g_nr_threads C < 2 ^ 64 → cnts_ok C per_core → i64 comp = comp →
  ∃ loc tot, let fin := g_nr_threads C <=? batch_completed p + 1 in
  FlushBufferPlan C p comp per_core =
    Ok (mkPlan loc tot (batch_completed p + 1), i64 (comp + incoming C per_core (node_id C)), fin,
        if fin then broadcast loc else []) ∧
  adds C (fun i s d => per_core.[BatchBufferIndex C i s d]) (local_cnts p) loc ∧
  adds C (fun i s d => per_core.[BatchBufferIndex C i s d]) (total_cnts p) tot.
Proof using All.
  intros (Hl & Ht & Hb) Hg Hp Hc. unfold FlushBufferPlan.
  destruct (flush_cells_spec per_core _ _ comp Hp Hl Ht Hc) as (loc & tot & -> & H1 & H2).
  exists loc, tot. cbn [mbind result_bind]. cbn beta iota. rewrite u64_id by lia.
  split; [|done]. unfold broadcast. zcase; done || lia.
Qed.

Lemma update_one p comp data :
  cnts_ok C (total_cnts p) → cnts_ok C (tail data) → length data ≠ 0%nat → i64 comp = comp →
  incoming C (tail data) (node_id C) ≤ kMaxPiecesPerPhase →
  kMaxPiecesPerPhase - incoming C (tail data) (node_id C) ≤ comp →
  ∃ tot, UpdateBatchCountersFromReceiver C p comp data =
    Ok (mkPlan (local_cnts p) tot (batch_completed p),
        comp - (kMaxPiecesPerPhase - incoming C (tail data) (node_id C)), data.[0]) ∧
  adds C (fun i s d => (tail data).[BatchBufferIndex C i s d]) (total_cnts p) tot.
Proof using All.
  intros Ht Hd Hlen Hc Hmax Hle. unfold UpdateBatchCountersFromReceiver. rewrite load_in by lia.
  cbn [mbind result_bind]. destruct (update_cells_spec data _ Hd Ht Hlen) as (tot & -> & Ha).
  cbn [mbind result_bind]. cbn beta iota. exists tot. split; [|done].
  pose proof (incoming_nonneg (tail data) (node_id C) Hd).
  unfold kMaxPiecesPerPhase in *. rewrite i32_id by lia. rewrite u64_id by lia. unfold Completion_Complete.
  assert (Hcr : - 2 ^ 63 ≤ comp < 2 ^ 63).
  { rewrite <- Hc. unfold i64. pose proof (Z.mod_pos_bound (comp + 2 ^ 63) (2 ^ 64)). lia. }
  rewrite (i64_id (12800000 - _)), i64_id by lia. rewrite (proj2 (Z.ltb_ge _ _)) by lia. done.
Qed.

(** the cores of a node flush one after the other *)
Fixpoint flush_cores (p : Plan) (comp : Z) (pers : list (list Z)) : result (Plan * Z * list bool * list (Z * list Z)) :=
  match pers with
  | [] => Ok (p, comp, [], [])
  | per :: pers =>
      '(p, comp, b, m) ← FlushBufferPlan C p comp per;
      '(p, comp, bs, ms) ← flush_cores p comp pers;
      Ok (p, comp, b :: bs, m ++ ms)
  end.

Lemma flush_cores_spec pers p comp :
  pers ≠ [] → plan_ok p → g_nr_threads C < 2 ^ 64 → Forall (cnts_ok C) pers → i64 comp = comp →
  batch_completed p + len pers = g_nr_threads C →
  ∃ loc tot, flush_cores p comp pers =
    Ok (mkPlan loc tot (g_nr_threads C), i64 (comp + sum_over (fun per => incoming C per (node_id C)) pers),
        replicate (length pers - 1) false ++ [true], broadcast loc) ∧
  adds C (fun i s d => sum_over (fun per => per.[BatchBufferIndex C i s d]) pers) (local_cnts p) loc.
Proof using All.
  revert p comp. induction pers as [|per pers IH]; intros p comp Hne Hp Hg Hok Hc Hlen; [done|].
  apply Forall_cons in Hok as [Hper Hok]. cbn [flush_cores length] in *.
  destruct (flush_one p comp per Hp Hg Hper Hc) as (l1 & t1 & -> & Ha & Hb). cbn [mbind result_bind]. cbn beta iota.
  destruct pers as [|per2 pers].
  - cbn [length] in *. exists l1, t1. cbn [flush_cores mbind result_bind]. rewrite (proj2 (Z.leb_le _ _)) by lia.
    cbn. rewrite Z.add_0_r, app_nil_r. split; [do 4 f_equal; f_equal; lia|].
    refine (adds_ext C _ _ _ _ _ Ha). intros. cbn. lia.
  - rewrite (proj2 (Z.leb_gt _ _)) by (cbn [length] in *; lia).
    destruct (IH (mkPlan l1 t1 (batch_completed p + 1)) (i64 (comp + incoming C per (node_id C)))) as (l2 & t2 & E & H2).
    + done.
    + destruct Hp as (? & ? & ?). split; [apply Ha|split; [apply Hb|cbn [batch_completed length] in *; lia]].
    + done.
    + done.
    + rewrite i64_id; [done|]. unfold i64. pose proof (Z.mod_pos_bound (comp + incoming C per (node_id C) + 2 ^ 63) (2 ^ 64)). lia.
    + cbn [batch_completed length] in *. lia.
    + rewrite E. cbn [mbind result_bind]. cbn beta iota. exists l2, t2. split.
      * rewrite i64_add, <- Z.add_assoc. cbn [length app]. by rewrite !Nat.sub_succ, !Nat.sub_0_r.
      * refine (adds_ext C _ _ _ _ _ (adds_trans C _ _ _ _ _ Ha H2)). intros. cbn. lia.
Qed.

End Exchange.

(** ** Properties *)

(** the messages of a core's root collection, with the node that signals futures *)
Definition messages (C : Config) (root : list Piece) : list (Z * Route) :=
  flat_map (fun r => (fun m => (future_src C r, m)) <$> routes r 0 (node_id C)) root.

(** every message of the collection is between nodes of the cluster *)
Definition root_ok (C : Config) (root : list Piece) : Prop :=
  Forall (fun r => Forall (route_ok C) (routes r 0 (node_id C)) ∧ node_ok C (future_src C r)) root.

Lemma sum_over_fmap {A B} (f : B → Z) (g : A → B) l : sum_over f (g <$> l) = sum_over (fun x => f (g x)) l.
Proof. induction l as [|x l IH]; cbn; [done|]. unfold sum_over in *. by rewrite <- IH. Qed.

Lemma forallb_fmap {A B} (f : B → bool) (g : A → B) l : forallb f (g <$> l) = forallb (fun x => f (g x)) l.
Proof. induction l as [|x l IH]; cbn; [done|]. by rewrite <- IH. Qed.

Lemma collect_spec C root cnts :
  1 ≤ nr_nodes C ≤ 254 → cnts_ok C cnts → root_ok C root →
  outcome C (forallb (fun m => fits m.2) (messages C root))
    (fun l s d => sum_over (fun m => traffic m.1 l s d m.2) (messages C root)) cnts
    (map (fun r => set_levels r 0) root) (CollectBufferPlan C root cnts).
Proof.
  intros Hn Hc Hr. unfold CollectBufferPlan.
  pose proof (collect_list_spec C (fun r cnts => CollectBufferPlanImpl C r cnts 0 (node_id C) (future_src C r))
    (fun r => forallb fits (routes r 0 (node_id C)))
    (fun r l s d => sum_over (traffic (future_src C r) l s d) (routes r 0 (node_id C)))
    (fun r => set_levels r 0) root) as HL.
  specialize (HL ltac:(intros x c Hx Hcx; unfold root_ok in Hr; rewrite Forall_forall in Hr; destruct (Hr x Hx);
    by apply collect_impl_spec) cnts Hc). unfold outcome, messages in *.
  rewrite forallb_flat_map. replace (forallb (fun x => forallb _ _) root)
    with (forallb (fun r => forallb fits (routes r 0 (node_id C))) root).
  - destruct (forallb _ root); [|done]. destruct HL as (c' & E & Ha). exists c'. split; [done|].
    refine (adds_ext C _ _ _ _ _ Ha). intros. rewrite sum_over_flat_map. apply sum_over_ext. intros.
    by rewrite sum_over_fmap.
  - clear. induction root as [|r root IH]; cbn; [done|]. by rewrite IH, forallb_fmap.
Qed.

Lemma cnts_ok_zero C : 1 ≤ nr_nodes C ≤ 254 → cnts_ok C (replicate (Z.to_nat (plan_size C)) 0).
Proof.
  intros. split; [|by apply Forall_replicate]. rewrite length_replicate, Z2Nat.id; [done|].
  unfold plan_size, kPromiseMaxLevels. nia.
Qed.

Lemma at_zeros k i : (replicate k 0).[i] = 0.
Proof.
  unfold at_. rewrite nth_lookup. destruct (replicate k 0 !! Z.to_nat i) as [x|] eqn:E; [|done].
  by apply lookup_replicate in E as [-> _].
Qed.

Lemma traffic_bounds fsrc l s d r : 0 ≤ rt_sig r → 0 ≤ traffic fsrc l s d r ≤ 1 + rt_sig r.
Proof.
  intros. unfold traffic. destruct (rt_level r =? l), (rt_dst r <? 255), (rt_dst r =? d), (rt_src r =? s), (fsrc =? s);
    cbn [ind]; lia.
Qed.

Lemma messages_ok C root m : root_ok C root → m ∈ messages C root → route_ok C m.2 ∧ node_ok C m.1.
Proof.
  intros Hr H. apply list_elem_of_In, in_flat_map in H as (r & Hin & H). apply list_elem_of_In in Hin, H.
  unfold root_ok in Hr. rewrite Forall_forall in Hr. destruct (Hr r Hin) as [H1 H2]. rewrite Forall_forall in H1.
  apply list_elem_of_fmap in H as (x & -> & Hx). cbn. auto.
Qed.

(** the counters of a plan add up to the arrivals at each node *)
Lemma incoming_arrivals C root cnts d :
  1 ≤ nr_nodes C ≤ 254 → root_ok C root → node_ok C d →
  forallb (fun m => fits m.2) (messages C root) = true →
  (∀ l s d, level_ok l → node_ok C s → node_ok C d →
    cnts.[BatchBufferIndex C l s d] = sum_over (fun m => traffic m.1 l s d m.2) (messages C root)) →
  incoming C cnts d = sum_over (fun m => arrivals d m.2) (messages C root).
Proof.
  intros Hn Hr Hd Hfit Hc. unfold incoming.
  rewrite (sum_over_ext _ (fun c => sum_over
    (fun m : Z * Route => if c.2 + 1 =? d then traffic m.1 c.1.1 (c.1.2 + 1) d m.2 else 0) (messages C root))).
  - rewrite sum_over_swap. apply sum_over_ext. intros m Hm. destruct (messages_ok C root m Hr Hm).
    apply traffic_total; try done. rewrite forallb_forall in Hfit. apply Hfit. by apply list_elem_of_In.
  - intros [[i s] e] (Hi & Hs & He)%elem_of_cells. cbn [fst snd].
    destruct (Z.eqb_spec (e + 1) d) as [<-|_]; [by apply Hc|]. by rewrite sum_over_zero.
Qed.

(** C10. The plan a core collects is exact: its counters start at zero, the levels
    are written into the routines, the counter of (level, source, destination)
    holds the number of messages the trees of its transactions send on that route
    (one per routine, its future signals from the signalling node, a dynamic
    routine to every node), and the counters of a destination add up to everything
    that will arrive there. *)
Theorem plan_counts_messages C root :
  1 ≤ nr_nodes C ≤ 254 → root_ok C root →
  Forall (fun m => 0 ≤ rt_sig m.2 ∧ rt_level m.2 < kPromiseMaxLevels) (messages C root) →
  sum_over (fun m => 1 + rt_sig m.2) (messages C root) < 2 ^ 64 →
  ∃ cnts,
    CollectBufferPlan C root (replicate (Z.to_nat (plan_size C)) 0) = Ok (map (fun r => set_levels r 0) root, cnts) ∧
    (∀ l s d, level_ok l → node_ok C s → node_ok C d →
      cnts.[BatchBufferIndex C l s d] = sum_over (fun m => traffic m.1 l s d m.2) (messages C root)) ∧
    (∀ d, node_ok C d → incoming C cnts d = sum_over (fun m => arrivals d m.2) (messages C root)).
Proof.
  intros Hn Hr Hm Hsum. rewrite Forall_forall in Hm.
  assert (Hfit : forallb (fun m => fits m.2) (messages C root) = true).
  { apply forallb_forall. intros m Hin. apply list_elem_of_In in Hin. destruct (Hm m Hin). by apply Z.ltb_lt. }
  pose proof (collect_spec C root _ Hn (cnts_ok_zero C Hn) Hr) as Ho. unfold outcome in Ho. rewrite Hfit in Ho.
  destruct Ho as (cnts & E & _ & Ha). exists cnts. split; [exact E|].
  assert (Hc : ∀ l s d, level_ok l → node_ok C s → node_ok C d →
      cnts.[BatchBufferIndex C l s d] = sum_over (fun m => traffic m.1 l s d m.2) (messages C root)).
  { intros l s d Hl Hs Hd. rewrite Ha, at_zeros, Z.add_0_l by done. apply u64_id. split.
    - apply sum_over_nonneg. intros m Hin. apply traffic_bounds, Hm, Hin.
    - eapply Z.le_lt_trans; [|exact Hsum]. apply sum_over_le. intros m Hin. apply traffic_bounds, Hm, Hin. }
  split; [exact Hc|]. intros d Hd. by apply incoming_arrivals.
Qed.

(** C11. A collection with a tree deeper than [kPromiseMaxLevels] is rejected: the
    collection aborts, whatever the counters were. *)
Theorem plan_rejects_deep_tree C root cnts m :
  1 ≤ nr_nodes C ≤ 254 → cnts_ok C cnts → root_ok C root →
  m ∈ messages C root → kPromiseMaxLevels ≤ rt_level m.2 →
  CollectBufferPlan C root cnts = Err Aborted.
Proof.
  intros Hn Hc Hr Hm Hl. pose proof (collect_spec C root cnts Hn Hc Hr) as Ho. unfold outcome in Ho.
  replace (forallb _ _) with false in Ho; [done|]. symmetry. apply not_true_is_false. intros Hf.
  rewrite forallb_forall in Hf. specialize (Hf m ltac:(by apply list_elem_of_In)). cbn in Hf. unfold fits in Hf. zprop. lia.
Qed.

(** the sum of the counters of the cores *)
Lemma incoming_sum C pers loc d :
  1 ≤ nr_nodes C ≤ 254 →
  (∀ l s d, level_ok l → node_ok C s → node_ok C d →
    loc.[BatchBufferIndex C l s d] = sum_over (fun per => per.[BatchBufferIndex C l s d]) pers) →
  incoming C loc d = sum_over (fun per => incoming C per d) pers.
Proof.
  intros Hn Hl. unfold incoming. rewrite (sum_over_swap (fun per c => if c.2 + 1 =? d then per.[cell_index C c] else 0)).
  apply sum_over_ext. intros [[i s] e] (Hi & Hs & He)%elem_of_cells. cbn [snd].
  destruct (e + 1 =? d); [by apply Hl|]. by rewrite sum_over_zero.
Qed.

(** the same cluster seen from another node *)
Definition at_node (C : Config) (d : Z) : Config := mkConfig (nr_nodes C) d (g_nr_threads C).

(** The exchange of a node's plan: when its cores have flushed their counters,
    only the last one reports the node as finished, the node's own completion
    counter has grown by what its cores send to the node itself, and the message
    that reaches another node makes that node take back the placeholder of
    [kMaxPiecesPerPhase] except for what the cores will send to it. *)
Theorem plan_exchange C pers comp d p' comp' :
  1 ≤ nr_nodes C ≤ 254 → node_ok C (node_id C) → node_ok C d → d ≠ node_id C →
  len pers = g_nr_threads C → 0 < g_nr_threads C < 2 ^ 64 →
  Forall (cnts_ok C) pers →
  (∀ l s d, level_ok l → node_ok C s → node_ok C d → sum_over (fun per => per.[BatchBufferIndex C l s d]) pers < 2 ^ 64) →
  0 ≤ comp → comp + sum_over (fun per => incoming C per (node_id C)) pers < 2 ^ 63 →
  cnts_ok C (total_cnts p') → comp' < 2 ^ 63 →
  sum_over (fun per => incoming C per d) pers ≤ kMaxPiecesPerPhase →
  kMaxPiecesPerPhase - sum_over (fun per => incoming C per d) pers ≤ comp' →
  ∃ loc tot ms tot',
    flush_cores C (ResetBufferPlan C p') comp pers =
      Ok (mkPlan loc tot (g_nr_threads C), comp + sum_over (fun per => incoming C per (node_id C)) pers,
          replicate (length pers - 1) false ++ [true], ms) ∧
    ms.*1 = filter (fun id => id ≠ node_id C) (seqZ 1 (nr_nodes C)) ∧
    (d, node_id C :: loc) ∈ ms ∧
    UpdateBatchCountersFromReceiver (at_node C d) p' comp' (node_id C :: loc) =
      Ok (mkPlan (local_cnts p') tot' (batch_completed p'),
          comp' - (kMaxPiecesPerPhase - sum_over (fun per => incoming C per d) pers), node_id C).
Proof.
  intros Hn Hid Hd Hne Hlen Hg Hp Hfit Hc0 Hc Ht Hc' Hmax Hle.
  assert (0 ≤ sum_over (fun per => incoming C per (node_id C)) pers).
  { apply sum_over_nonneg. intros per Hper. rewrite Forall_forall in Hp. by apply incoming_nonneg, Hp. }
  assert (0 ≤ sum_over (fun per => incoming C per d) pers).
  { apply sum_over_nonneg. intros per Hper. rewrite Forall_forall in Hp. by apply incoming_nonneg, Hp. }
  destruct (flush_cores_spec C Hn Hid pers (ResetBufferPlan C p') comp) as (loc & tot & E & Hcl & Ha); try done.
  { intros ->. cbn in Hlen. lia. }
  { split; [by apply cnts_ok_zero|split; [by apply cnts_ok_zero|cbn; lia]]. }
  { lia. }
  { apply i64_id. lia. }
  assert (Hl : ∀ l s d, level_ok l → node_ok C s → node_ok C d →
    loc.[BatchBufferIndex C l s d] = sum_over (fun per => per.[BatchBufferIndex C l s d]) pers).
  { intros l s e Hl Hs He. rewrite Ha by done. cbn [local_cnts ResetBufferPlan]. rewrite at_zeros, Z.add_0_l.
    apply u64_id. split; [|by apply Hfit]. apply sum_over_nonneg. intros per Hper. rewrite Forall_forall in Hp.
    apply (cnts_at C), Hp, Hper. }
  pose proof (incoming_sum C pers loc d Hn Hl) as Hsum.
  destruct (update_one (at_node C d) Hn Hd p' comp' (node_id C :: loc)) as (tot' & Eu & _); cbn [tail]; try done.
  { apply i64_id. unfold kMaxPiecesPerPhase in *. lia. }
  { change (incoming (at_node C d) loc (node_id (at_node C d))) with (incoming C loc d). by rewrite Hsum. }
  { change (incoming (at_node C d) loc (node_id (at_node C d))) with (incoming C loc d). by rewrite Hsum. }
  exists loc, tot, (broadcast C loc), tot'. rewrite i64_id in E by lia. split; [exact E|].
  split; [unfold broadcast; rewrite <- list_fmap_compose; unfold compose; cbn; by rewrite list_fmap_id|].
  split; [|rewrite Eu, <- Hsum; done].
  apply list_elem_of_fmap. exists d. split; [done|]. apply list_elem_of_filter. split; [done|].
  apply elem_of_seqZ. unfold node_ok in Hd. lia.
Qed.

(** a routine below a dynamic one is counted with source 255: on a cluster of at
    most 16 nodes the counter is outside the array *)
Lemma dynamic_child_out_of_range C h hc c cc n cnts level src fsrc :
  1 ≤ nr_nodes C ≤ 16 → cnts_ok C cnts → 0 ≤ level < kPromiseMaxLevels - 1 → node_ok C src →
  dst_of h src = 255 → node_ok C (h_node_id hc) →
  CollectBufferPlanImpl C (mkPiece h c (Some [mkPiece hc cc n])) cnts level src fsrc = Err OutOfRange.
Proof.
  intros Hn Hc Hl Hs Hd Hk. cbn [CollectBufferPlanImpl]. unfold kPromiseMaxLevels in Hl.
  rewrite (proj2 (Z.leb_gt _ level)) by (unfold kPromiseMaxLevels; lia). cbn [abort_if mbind result_bind].
  destruct (bump_all_spec C ltac:(lia) cnts level src Hc) as (c1 & E1 & H1); [unfold level_ok, kPromiseMaxLevels; lia|done|].
  rewrite Hd. cbn [Z.ltb Z.compare Pos.compare Pos.compare_cont]. change (255 <? 255) with false. cbn iota.
  rewrite E1. cbn [mbind result_bind collect_list]. cbn [CollectBufferPlanImpl]. rewrite (proj2 (Z.leb_gt _ (level + 1))) by (unfold kPromiseMaxLevels; lia).
  cbn [abort_if mbind result_bind]. unfold dst_of, node_ok in *.
  destruct (Z.eqb_spec (h_node_id hc) 0); [lia|]. rewrite (proj2 (Z.ltb_lt (h_node_id hc) 255)) by lia. unfold bump, load.
  replace (BatchBufferIndex C (level + 1) 255 (h_node_id hc) <? len c1) with false; [by rewrite andb_false_r|].
  symmetry. apply Z.ltb_ge. rewrite (proj1 (proj1 H1)). unfold BatchBufferIndex, plan_size, kPromiseMaxLevels.
  assert (0 ≤ level * (nr_nodes C * nr_nodes C) ≤ 15 * (nr_nodes C * nr_nodes C)) by nia.
  assert (1 ≤ nr_nodes C * nr_nodes C ≤ 16 * nr_nodes C) by nia.
  rewrite u64_id; nia.
Qed.

(** ** Witnesses *)

Module PlanSamples.
(** a routine for [node] that brings [sig] signals *)
Definition piece (node sig : Z) (next : option (list Piece)) : Piece :=
  mkPiece (mkHeader 0 0 0 node 0 0 0 0 0 sig 0 0) [] next.
Definition three : Config := mkConfig 3 1 2.
(** a routine for node 2 with a child for node 3, and a dynamic routine *)
Definition root : list Piece := [piece 2 0 (Some [piece 3 2 None; piece 0 0 None]); piece 255 0 None].
Fixpoint chain (k : nat) : Piece := piece 0 0 match k with O => None | S k => Some [chain k] end.
Definition per (v : Z) : list Z := tab 144 (fun i => if i =? 1 then v else 0).
End PlanSamples.
Import PlanSamples.

(** the side conditions on a concrete plan *)
Ltac plan_side :=
  vm_compute; repeat first [apply Forall_nil | apply Forall_cons | match goal with |- _ ∧ _ => split end];
  solve [done | left; done | right; done].

Lemma plan_counts_messages_witness :
  ∃ cnts, CollectBufferPlan three root (replicate 144 0) = Ok (map (fun r => set_levels r 0) root, cnts) ∧
  cnts.[BatchBufferIndex three 1 2 3] = 1 ∧ cnts.[BatchBufferIndex three 0 1 2] = 2 ∧ incoming three cnts 3 = 4.
Proof.
  destruct (plan_counts_messages three root) as (cnts & E & H1 & H2).
  - cbn. lia.
  - plan_side.
  - plan_side.
  - vm_compute. reflexivity.
  - exists cnts. split; [exact E|]. rewrite !H1, H2 by (unfold level_ok, node_ok, kPromiseMaxLevels; cbn; lia).
    by vm_compute.
Defined.

Lemma plan_rejects_deep_tree_witness :
  CollectBufferPlan three [chain 16] (replicate 144 0) = Err Aborted.
Proof.
  apply (plan_rejects_deep_tree three [chain 16] _ (1, mkRoute 16 1 1 0)).
  - cbn. lia.
  - by apply (cnts_ok_zero three).
  - plan_side.
  - vm_compute. repeat first [left | right].
  - done.
Defined.

Lemma plan_exchange_witness :
  ∃ loc tot ms tot',
    flush_cores three (ResetBufferPlan three (mkPlan [] (replicate 144 0) 0)) 5 [per 3; per 4] =
      Ok (mkPlan loc tot 2, 5, [false; true], ms) ∧
    ms.*1 = [2; 3] ∧ (2, 1 :: loc) ∈ ms ∧
    UpdateBatchCountersFromReceiver (at_node three 2) (mkPlan [] (replicate 144 0) 0) 25600001 (1 :: loc) =
      Ok (mkPlan [] tot' 0, 12800008, 1).
Proof.
  pose proof (plan_exchange three [per 3; per 4] 5 2 (mkPlan [] (replicate 144 0) 0) 25600001) as H.
  replace (sum_over (fun q => incoming three q 2) [per 3; per 4]) with 7 in H by by vm_compute.
  replace (sum_over (fun q => incoming three q (node_id three)) [per 3; per 4]) with 0 in H by by vm_compute.
  apply H; unfold node_ok, kPromiseMaxLevels, kMaxPiecesPerPhase; cbn [nr_nodes node_id three g_nr_threads total_cnts]; try (cbn; lia).
  - repeat constructor; by vm_compute.
  - intros l s d Hl Hs Hd. destruct (index_eq three ltac:(cbn; lia) l s d Hl Hs Hd) as [_ Hi]. cbn [sum_over foldr].
    unfold per. rewrite !at_tab by (vm_compute plan_size in Hi; lia). repeat case_match; lia.
  - by apply (cnts_ok_zero three).
Defined.
