(* ===== verification/Epoch.v ===== *)
(** The epochs of a node (epoch.cc/.h): the control routine that starts the three
    phases of an epoch, the workers of the cores, and the completion counter that
    tells the end of a phase. An event is one atomic step of one of the threads: a
    core, the receiver of another node's plan, or the control routine. The control
    routine's functions are one event each: the workers they wake are asleep until
    then, and the incoming channels are stopped until they restart them. *)

From S2P Require Import Prelude SqlTypes Piece BufferPlan PlanFacts.

(** ** Data *)

Inductive EpochPhase := Insert | Initialize | Execute.
#[export] Instance EpochPhase_eq_dec : EqDecision EpochPhase.
Proof. solve_decision. Defined.

(** where the [CallTxnsWorker] of a core stands: before [FlushBufferPlan], after it
    (with its result), before the second [Complete] of the last core, and after
    its last [Complete] *)
Inductive WStage := Issuing | Flushed (node_finished : bool) | SecondComplete | WDone.
#[export] Instance WStage_eq_dec : EqDecision WStage.
Proof. solve_decision. Defined.

(** the member functions the control routine runs *)
Inductive Handler := OnInsertComplete | OnInitializeComplete | OnExecuteComplete.

Record Client := mkClient {
  epoch_nr : Z;                       (* EpochManager::cur_epoch_nr *)
  phase : EpochPhase;                 (* callback.phase *)
  comp_count : Z;                     (* completion *)
  plan : Plan;                        (* the counters of NodeConfiguration *)
  alloc_comp : Z;                     (* AllocStateTxnWorker::comp *)
  alloc_done : Z → bool;              (* which AllocStateTxnWorker have run *)
  stage : Z → WStage;                 (* the CallTxnsWorker of each core *)
  returning : Z → bool;               (* it is past its last Complete, before OnFinish *)
  finished : Z → bool;                (* its EpochClientBaseWorker::finished *)
  arrived : Z → bool;                 (* whose plan has been received *)
  executed : Z;                       (* pieces run on this node in the phase *)
  control : option Handler;           (* the control routine, when woken up *)
  log : list (Z * EpochPhase);        (* the phases started so far, the last one first *)
  shut_down : bool;
}.

Inductive Event :=
| EvAlloc (t : Z)      (* AllocStateTxnWorker::Run *)
| EvFlush (t : Z)      (* CallTxnsWorker::Run up to FlushBufferPlan *)
| EvComplete (t : Z)   (* its Complete() after issuing *)
| EvSecond (t : Z)     (* the second one, of the last core *)
| EvReturn (t : Z)     (* the end of Run, which calls OnFinish *)
| EvPlan (n : Z)       (* the plan of node n arrives *)
| EvPieces (k : Z)     (* a core reports k executed pieces *)
| EvControl.           (* the control routine runs *)

Section Client.
Context (C : Config) (g_max_epoch : Z).
(** the counters every core collects and every other node sends, per phase *)
Context (per_core : Z → EpochPhase → Z → list Z) (received : Z → EpochPhase → Z → list Z).

Definition cores : list Z := seqZ 0 (g_nr_threads C).
Definition others : list Z := filter (fun n => n ≠ node_id C) (seqZ 1 (nr_nodes C)).

(** what a core's plan, and another node's plan, bring to this node *)
Definition local_pieces (e : Z) (ph : EpochPhase) (t : Z) : Z := incoming C (per_core e ph t) (node_id C).
Definition remote_pieces (e : Z) (ph : EpochPhase) (n : Z) : Z := incoming C (tail (received e ph n)) (node_id C).

(** ** The control routine *)

(** the value [CallTxns] adds to the completion counter *)
Definition phase_tokens : Z := (nr_nodes C - 1) * kMaxPiecesPerPhase + 1 + g_nr_threads C.

(** [EpochClient::CallTxns]; [EpochClientBaseWorker::Reset] waits for each worker's
    [finished] and clears it *)
Definition CallTxns (c : Client) : result Client :=
  if negb (forallb (finished c) cores) then Err Blocked else
  Ok (mkClient (epoch_nr c) (phase c) (Increment (comp_count c) phase_tokens)
       (ResetBufferPlan C (plan c)) (alloc_comp c) (alloc_done c) (fun _ => Issuing) (returning c) (fun _ => false)
       (fun _ => false) 0 None ((epoch_nr c, phase c) :: log c) (shut_down c)).

Definition with_phase (c : Client) (ph : EpochPhase) : Client :=
  mkClient (epoch_nr c) ph (comp_count c) (plan c) (alloc_comp c) (alloc_done c) (stage c) (returning c) (finished c)
    (arrived c) (executed c) (control c) (log c) (shut_down c).

(** [EpochManager::DoAdvance] and the reset of the allocation workers, then the
    insert phase *)
Definition InitializeEpoch (c : Client) : result Client :=
  CallTxns (mkClient (u64 (epoch_nr c + 1)) Insert (comp_count c) (plan c) (g_nr_threads C + 1) (fun _ => false)
              (stage c) (returning c) (finished c) (arrived c) (executed c) (control c) (log c) (shut_down c)).

Definition insert_complete (c : Client) : result Client := CallTxns (with_phase c Initialize).

(** the resets of the contention managers are operations of their own components *)
Definition initialize_complete (c : Client) : result Client := CallTxns (with_phase c Execute).

(** the next epoch, or the end: [CloseAndShutdown] *)
Definition execute_complete (c : Client) : result Client :=
  if epoch_nr c + 1 <? g_max_epoch then InitializeEpoch c
  else Ok (mkClient (epoch_nr c) (phase c) (comp_count c) (plan c) (alloc_comp c) (alloc_done c) (stage c)
             (returning c) (finished c) (arrived c) (executed c) None (log c) true).

(** the control routine runs the function it was reset to *)
Definition run_handler (h : Handler) : Client → result Client :=
  match h with
  | OnInsertComplete => insert_complete
  | OnInitializeComplete => initialize_complete
  | OnExecuteComplete => execute_complete
  end.

(** the constructor, and [EpochClient::Start], whose control routine runs
    [InitializeEpoch] *)
Definition new_client : Client :=
  mkClient 0 Insert 0 (mkPlan [] [] 0) 0 (fun _ => true) (fun _ => WDone) (fun _ => false) (fun _ => true)
    (fun _ => false) 0 None [] false.
Definition start : result Client := InitializeEpoch new_client.

(** ** Completion *)

(** [phase_mem_funcs] *)
Definition handler_of (ph : EpochPhase) : Handler :=
  match ph with Insert => OnInsertComplete | Initialize => OnInitializeComplete | Execute => OnExecuteComplete end.

(** [EpochCallback::operator()] on the new count: at zero the control routine is
    reset to the phase's function and woken up *)
Definition callback (cnt : Z) (c : Client) : Client :=
  mkClient (epoch_nr c) (phase c) cnt (plan c) (alloc_comp c) (alloc_done c) (stage c) (returning c) (finished c)
    (arrived c) (executed c) (if cnt =? 0 then Some (handler_of (phase c)) else control c) (log c) (shut_down c).

(** [completion.Complete(dec)] *)
Definition complete (dec : Z) (c : Client) : result Client :=
  cnt ← Completion_Complete (comp_count c) dec; Ok (callback cnt c).

(** ** Events *)

(** [AllocStateTxnWorker::Run]: the worker that reads 2 subtracts once more *)
Definition alloc_worker (t : Z) (c : Client) : Client :=
  let old := alloc_comp c in
  let comp := if old =? 2 then u64 (u64 (old - 1) - 1) else u64 (old - 1) in
  mkClient (epoch_nr c) (phase c) (comp_count c) (plan c) comp (<[t := true]> (alloc_done c)) (stage c) (returning c)
    (finished c) (arrived c) (executed c) (control c) (log c) (shut_down c).

(** [CallTxnsWorker::Run] up to [FlushBufferPlan] *)
Definition flush_worker (t : Z) (c : Client) : result Client :=
  '(p, comp, fin, _) ← FlushBufferPlan C (plan c) (comp_count c) (per_core (epoch_nr c) (phase c) t);
  Ok (mkClient (epoch_nr c) (phase c) comp p (alloc_comp c) (alloc_done c) (<[t := Flushed fin]> (stage c)) (returning c)
        (finished c) (arrived c) (executed c) (control c) (log c) (shut_down c)).

(** its rest, up to the next [Complete]: [finished] is set before it *)
Definition complete_worker (t : Z) (last : bool) (c : Client) : result Client :=
  complete 1 (mkClient (epoch_nr c) (phase c) (comp_count c) (plan c) (alloc_comp c) (alloc_done c)
    (<[t := if last then SecondComplete else WDone]> (stage c)) (<[t := negb last]> (returning c))
    (<[t := true]> (finished c)) (arrived c) (executed c) (control c) (log c) (shut_down c)).

(** [OnFinish] *)
Definition return_worker (t : Z) (c : Client) : Client :=
  mkClient (epoch_nr c) (phase c) (comp_count c) (plan c) (alloc_comp c) (alloc_done c) (stage c)
    (<[t := false]> (returning c)) (<[t := true]> (finished c)) (arrived c) (executed c) (control c) (log c) (shut_down c).

Definition plan_arrives (n : Z) (c : Client) : result Client :=
  '(p, comp, _) ← UpdateBatchCountersFromReceiver C (plan c) (comp_count c) (received (epoch_nr c) (phase c) n);
  Ok (callback comp
       (mkClient (epoch_nr c) (phase c) comp p (alloc_comp c) (alloc_done c) (stage c) (returning c) (finished c)
          (<[n := true]> (arrived c)) (executed c) (control c) (log c) (shut_down c))).

(** the pieces that may be run so far: those of the cores that have flushed their
    plan, and those of the other nodes *)
Definition available (c : Client) : Z :=
  sum_over (fun t => if bool_decide (stage c t = Issuing) then 0 else local_pieces (epoch_nr c) (phase c) t) cores +
  sum_over (remote_pieces (epoch_nr c) (phase c)) others.

Definition run_pieces (k : Z) (c : Client) : result Client :=
  complete k (mkClient (epoch_nr c) (phase c) (comp_count c) (plan c) (alloc_comp c) (alloc_done c) (stage c) (returning c)
    (finished c) (arrived c) (executed c + k) (control c) (log c) (shut_down c)).

(** one step; [Blocked] when the event cannot happen. A worker waits for the
    allocation workers, and for the core it runs on *)
Definition step (ev : Event) (c : Client) : result Client :=
  match ev with
  | EvControl => match control c with Some h => run_handler h c | None => Err Blocked end
  | EvReturn t => if bool_decide (t ∈ cores) && returning c t then Ok (return_worker t c) else Err Blocked
  | EvAlloc t => if bool_decide (t ∈ cores) && negb (alloc_done c t) then Ok (alloc_worker t c) else Err Blocked
  | EvFlush t =>
      if bool_decide (t ∈ cores) && bool_decide (stage c t = Issuing) && negb (returning c t) && (alloc_comp c =? 0)
      then flush_worker t c else Err Blocked
  | EvComplete t =>
      match stage c t with
      | Flushed fin => if bool_decide (t ∈ cores) then complete_worker t fin c else Err Blocked
      | _ => Err Blocked
      end
  | EvSecond t =>
      if bool_decide (t ∈ cores) && bool_decide (stage c t = SecondComplete) then complete_worker t false c else Err Blocked
  | EvPlan n => if bool_decide (n ∈ others) && negb (arrived c n) then plan_arrives n c else Err Blocked
  | EvPieces k => if (0 <? k) && (executed c + k <=? available c) then run_pieces k c else Err Blocked
  end.

Inductive reachable : Client → Prop :=
| reach_start c : start = Ok c → reachable c
| reach_step c ev c' : reachable c → step ev c = Ok c' → reachable c'.

End Client.
