(* ===== verification/EpochFacts.v ===== *)
(** The invariant of the epochs: the completion counter is the number of things
    the phase still waits for. *)

From S2P Require Import Prelude SqlTypes Piece BufferPlan PlanFacts PlanProps Epoch.

(** ** Sums over a function that changes at one point *)

Lemma sum_over_insert {A} (F : Z → A → Z) (f : Z → A) l t w : NoDup l → t ∈ l →
  sum_over (fun x => F x ((<[t := w]> f) x)) l = sum_over (fun x => F x (f x)) l + (F t w - F t (f t)).
Proof.
  intros Hnd Ht. rewrite (sum_over_update (fun x => F x (f x)) _ l t Hnd Ht).
  - by rewrite fn_lookup_insert.
  - intros x _ Hx. by rewrite fn_lookup_insert_ne.
Qed.

Lemma sum_over_pos {A} (f : A → Z) l : (∀ x, x ∈ l → 0 ≤ f x) → sum_over f l ≠ 0 → ∃ x, x ∈ l ∧ f x ≠ 0.
Proof.
  intros Hf. induction l as [|x l IH]; cbn; [done|]. fold (sum_over f l). intros Hs.
  destruct (decide (f x = 0)) as [E|E]; [|exists x; split; [left|done]].
  destruct IH as (y & Hy & Hfy); [intros; apply Hf; by right|lia|]. exists y. split; [by right|done].
Qed.

Lemma sum_over_zero_inv {A} (f : A → Z) l : (∀ x, x ∈ l → 0 ≤ f x) → sum_over f l = 0 → ∀ x, x ∈ l → f x = 0.
Proof.
  intros Hf. induction l as [|x l IH]; cbn; [intros _ x Hx; by apply elem_of_nil in Hx|]. fold (sum_over f l). intros Hs y Hy.
  pose proof (Hf x ltac:(left)). pose proof (sum_over_nonneg f l ltac:(intros; apply Hf; by right)).
  apply elem_of_cons in Hy as [->|Hy]; [lia|]. apply IH; [intros; apply Hf; by right|lia|done].
Qed.

(** ** The parts of the counter *)

Definition tok (w : WStage) : Z := match w with Issuing | Flushed _ => 1 | _ => 0 end.
Definition is_last (w : WStage) : Z := match w with Flushed true | SecondComplete => 1 | _ => 0 end.
Definition issued (w : WStage) : Z := match w with Issuing => 0 | _ => 1 end.
Definition undone (b : bool) : Z := if b then 0 else 1.

Section Inv.
Context (C : Config) (g_max_epoch : Z).
Context (per_core : Z → EpochPhase → Z → list Z) (received : Z → EpochPhase → Z → list Z).
Hypothesis Hn : 1 ≤ nr_nodes C ≤ 254.
Hypothesis Hid : node_ok C (node_id C).
Hypothesis Hg : 0 < g_nr_threads C ≤ 32.
Hypothesis Hmax : 2 ≤ g_max_epoch < 2 ^ 64.
(** every plan is an array of counters, and fits the placeholder of a phase *)
Hypothesis Hper : ∀ e ph t, cnts_ok C (per_core e ph t).
Hypothesis Hrec : ∀ e ph n, cnts_ok C (tail (received e ph n)) ∧ length (received e ph n) ≠ 0%nat.
Hypothesis Hrem : ∀ e ph n, n ∈ others C → remote_pieces C received e ph n < kMaxPiecesPerPhase.
Hypothesis Hloc : ∀ e ph, sum_over (local_pieces C per_core e ph) (cores C) < 2 ^ 62.

Abbreviation K := (cores C).
Abbreviation local := (local_pieces C per_core).
Abbreviation remote := (remote_pieces C received).
Abbreviation Step := (step C g_max_epoch per_core received).

Lemma cores_NoDup : NoDup K.
Proof using Type. apply NoDup_seqZ. Qed.
Lemma others_NoDup : NoDup (others C).
Proof using Type. apply NoDup_filter, NoDup_seqZ. Qed.

Lemma local_nonneg e ph t : 0 ≤ local e ph t.
Proof using Hper. apply incoming_nonneg, Hper. Qed.
Lemma remote_nonneg e ph n : 0 ≤ remote e ph n.
Proof using Hrec. apply incoming_nonneg, Hrec. Qed.

Definition toks (st : Z → WStage) : Z := sum_over (fun t => tok (st t)) K.
Definition lasts (st : Z → WStage) : Z := sum_over (fun t => is_last (st t)) K.
Definition nissued (st : Z → WStage) : Z := sum_over (fun t => issued (st t)) K.
Definition nundone (ad : Z → bool) : Z := sum_over (fun t => undone (ad t)) K.
Definition avail (e : Z) (ph : EpochPhase) (st : Z → WStage) : Z := sum_over (fun t => issued (st t) * local e ph t) K.
(** what is kept for the plans that have not arrived *)
Definition kept (e : Z) (ph : EpochPhase) (ar : Z → bool) : Z :=
  sum_over (fun n => undone (ar n) * (kMaxPiecesPerPhase - remote e ph n)) (others C).
(** the token of the core that flushes last *)
Definition extra (p : Plan) (st : Z → WStage) : Z := if batch_completed p <? g_nr_threads C then 1 else lasts st.

Lemma available_eq c : available C per_core received c =
  avail (epoch_nr c) (phase c) (stage c) + sum_over (remote (epoch_nr c) (phase c)) (others C).
Proof using Type.
  clear. unfold available, avail. f_equal. apply sum_over_ext. intros t _. destruct (stage c t); cbn [issued];
    [rewrite bool_decide_true by done|rewrite bool_decide_false by done..]; lia.
Qed.

(** the phases started by epoch [e], phase [ph], in order *)
Definition through (ph : EpochPhase) : list EpochPhase :=
  match ph with Insert => [Insert] | Initialize => [Insert; Initialize] | Execute => [Insert; Initialize; Execute] end.
Definition history (e : Z) (ph : EpochPhase) : list (Z * EpochPhase) :=
  flat_map (fun e => (e,.) <$> through Execute) (seqZ 1 (e - 1)) ++ ((e,.) <$> through ph).

Record Inv (c : Client) : Prop := mkInv {
  inv_cnts : cnts_ok C (local_cnts (plan c)) ∧ cnts_ok C (total_cnts (plan c));
  inv_batch : batch_completed (plan c) = nissued (stage c);
  inv_last : batch_completed (plan c) < g_nr_threads C → lasts (stage c) = 0;
  inv_comp : comp_count c = toks (stage c) + extra (plan c) (stage c) + kept (epoch_nr c) (phase c) (arrived c) +
                            (available C per_core received c - executed c);
  inv_exec : 0 ≤ executed c ≤ available C per_core received c;
  inv_control : control c = if shut_down c then None else if comp_count c =? 0 then Some (handler_of (phase c)) else None;
  inv_shut : shut_down c = true → comp_count c = 0 ∧ phase c = Execute ∧ epoch_nr c + 1 = g_max_epoch;
  inv_alloc : alloc_comp c = let k := nundone (alloc_done c) in if k =? 0 then 0 else k + 1;
  inv_wait : alloc_comp c ≠ 0 → ∀ t, t ∈ K → stage c t = Issuing;
  inv_fin : ∀ t, t ∈ K → tok (stage c t) = 0 → finished c t = true;
  inv_epoch : 1 ≤ epoch_nr c < g_max_epoch;
  inv_log : rev (log c) = history (epoch_nr c) (phase c);
}.

Lemma toks_bounds st : 0 ≤ toks st ≤ g_nr_threads C.
Proof using Hg.
  clear -Hg. unfold toks. split; [apply sum_over_nonneg; intros t _; by destruct (st t)|].
  rewrite (sum_over_le _ (fun _ => 1)) by (intros t _; by destruct (st t)).
  rewrite sum_over_const. unfold cores. rewrite length_seqZ. lia.
Qed.
Lemma lasts_nonneg st : 0 ≤ lasts st.
Proof using Type. clear. apply sum_over_nonneg. intros t _. by destruct (st t) as [|[]| |]. Qed.
Lemma lasts_le st : lasts st ≤ g_nr_threads C.
Proof using Hg.
  clear -Hg. unfold lasts. rewrite (sum_over_le _ (fun _ => 1)) by (intros t _; by destruct (st t) as [|[]| |]).
  rewrite sum_over_const. unfold cores. rewrite length_seqZ. lia.
Qed.
Lemma nissued_bounds st : 0 ≤ nissued st ≤ g_nr_threads C.
Proof using Hg.
  clear -Hg. unfold nissued. split; [apply sum_over_nonneg; intros t _; by destruct (st t)|].
  rewrite (sum_over_le _ (fun _ => 1)) by (intros t _; by destruct (st t)).
  rewrite sum_over_const. unfold cores. rewrite length_seqZ. lia.
Qed.
Lemma kept_nonneg e ph ar : 0 ≤ kept e ph ar.
Proof using Hrem.
  clear -Hrem. apply sum_over_nonneg. intros n Hin. pose proof (Hrem e ph n Hin). destruct (ar n); cbn [undone]; lia.
Qed.
Lemma kept_le e ph ar : kept e ph ar ≤ 254 * kMaxPiecesPerPhase.
Proof using Hn Hrec.
  unfold kept. rewrite (sum_over_le _ (fun _ => kMaxPiecesPerPhase)).
  - rewrite sum_over_const. assert (len (others C) ≤ 254); [|unfold kMaxPiecesPerPhase; lia].
    unfold others. pose proof (length_filter (fun n => n ≠ node_id C) (seqZ 1 (nr_nodes C))) as HL.
    rewrite length_seqZ in HL. lia.
  - intros n _. pose proof (remote_nonneg e ph n). destruct (ar n); cbn [undone]; unfold kMaxPiecesPerPhase in *; lia.
Qed.

Lemma avail_bounds e ph st : 0 ≤ avail e ph st < 2 ^ 62.
Proof using Hper Hloc.
  unfold avail. split.
  - apply sum_over_nonneg. intros t _. pose proof (local_nonneg e ph t). destruct (st t); cbn [issued]; lia.
  - eapply Z.le_lt_trans; [|apply (Hloc e ph)]. apply sum_over_le. intros t _. pose proof (local_nonneg e ph t).
    destruct (st t); cbn [issued]; lia.
Qed.
Lemma remotes_bounds e ph : 0 ≤ sum_over (remote e ph) (others C) ≤ 254 * kMaxPiecesPerPhase.
Proof using Hn Hrec Hrem.
  split; [apply sum_over_nonneg; intros n _; apply remote_nonneg|].
  rewrite (sum_over_le _ (fun _ => kMaxPiecesPerPhase)) by (intros n Hin; by apply Z.lt_le_incl, Hrem).
  rewrite sum_over_const. assert (len (others C) ≤ 254); [|unfold kMaxPiecesPerPhase; lia].
  unfold others. pose proof (length_filter (fun n => n ≠ node_id C) (seqZ 1 (nr_nodes C))) as HL.
  rewrite length_seqZ in HL. lia.
Qed.
Lemma extra_bounds p st : 0 ≤ extra p st ≤ 32.
Proof using Hg. unfold extra. pose proof (lasts_nonneg st). pose proof (lasts_le st). zcase; lia. Qed.

(** the counter is not negative and does not wrap *)
Lemma comp_bounds c : Inv c → 0 ≤ comp_count c < 2 ^ 63 - 2 ^ 61.
Proof using All.
  intros H. rewrite (inv_comp c H). pose proof (inv_exec c H) as Hx. rewrite available_eq in Hx |- *.
  pose proof (toks_bounds (stage c)). pose proof (extra_bounds (plan c) (stage c)).
  pose proof (kept_nonneg (epoch_nr c) (phase c) (arrived c)). pose proof (kept_le (epoch_nr c) (phase c) (arrived c)).
  pose proof (avail_bounds (epoch_nr c) (phase c) (stage c)). pose proof (remotes_bounds (epoch_nr c) (phase c)).
  unfold kMaxPiecesPerPhase in *. lia.
Qed.

(** at zero everything the phase waits for has happened *)
Lemma comp_zero c : Inv c → comp_count c = 0 →
  (∀ t, t ∈ K → stage c t = WDone) ∧ (∀ n, n ∈ others C → arrived c n = true) ∧ executed c = available C per_core received c.
Proof using All.
  intros H H0. pose proof (inv_comp c H) as Hc. pose proof (inv_exec c H) as Hx.
  pose proof (toks_bounds (stage c)). pose proof (extra_bounds (plan c) (stage c)).
  pose proof (kept_nonneg (epoch_nr c) (phase c) (arrived c)).
  assert (Ht : toks (stage c) = 0) by lia. assert (He : extra (plan c) (stage c) = 0) by lia.
  assert (Hk : kept (epoch_nr c) (phase c) (arrived c) = 0) by lia.
  split; [|split; [|lia]].
  - intros t Hin. pose proof (sum_over_zero_inv (fun t => tok (stage c t)) K ltac:(intros x _; cbv beta; by destruct (stage c x)) Ht t Hin) as Ha.
    unfold extra in He. destruct (Z.ltb_spec (batch_completed (plan c)) (g_nr_threads C)); [lia|].
    pose proof (sum_over_zero_inv (fun t => is_last (stage c t)) K
      ltac:(intros x _; cbv beta; by destruct (stage c x) as [|[]| |]) He t Hin) as Hb.
    cbn in Ha, Hb. by destruct (stage c t).
  - intros n Hin. unfold kept in Hk.
    pose proof (sum_over_zero_inv (fun n => undone (arrived c n) * (kMaxPiecesPerPhase - remote (epoch_nr c) (phase c) n)) (others C) ltac:(intros x Hx'; cbv beta; pose proof (Hrem (epoch_nr c) (phase c) x Hx');
      destruct (arrived c x); cbn [undone]; lia) Hk n Hin) as Hb. cbn in Hb.
    pose proof (Hrem (epoch_nr c) (phase c) n Hin). destruct (arrived c n); [done|]. cbn [undone] in Hb. lia.
Qed.

(** ** The steps that complete something *)

Lemma complete_ok dec c : i64 (comp_count c) = comp_count c → 0 ≤ dec ≤ comp_count c →
  complete dec c = Ok (callback (comp_count c - dec) c).
Proof using Type.
  clear. intros Hc Hd. unfold complete, Completion_Complete.
  assert (comp_count c < 2 ^ 63).
  { rewrite <- Hc. unfold i64. pose proof (Z.mod_pos_bound (comp_count c + 2 ^ 63) (2 ^ 64)). lia. }
  rewrite (i64_id dec), i64_id by lia. by rewrite (proj2 (Z.ltb_ge _ _)) by lia.
Qed.

Lemma toks_insert st t w : t ∈ K → toks (<[t := w]> st) = toks st + (tok w - tok (st t)).
Proof using Type. clear. intros. apply (sum_over_insert (fun _ => tok)); [apply NoDup_seqZ|done]. Qed.
Lemma lasts_insert st t w : t ∈ K → lasts (<[t := w]> st) = lasts st + (is_last w - is_last (st t)).
Proof using Type. clear. intros. apply (sum_over_insert (fun _ => is_last)); [apply NoDup_seqZ|done]. Qed.
Lemma nissued_insert st t w : t ∈ K → nissued (<[t := w]> st) = nissued st + (issued w - issued (st t)).
Proof using Type. clear. intros. apply (sum_over_insert (fun _ => issued)); [apply NoDup_seqZ|done]. Qed.
Lemma nundone_insert ad t b : t ∈ K → nundone (<[t := b]> ad) = nundone ad + (undone b - undone (ad t)).
Proof using Type. clear. intros. apply (sum_over_insert (fun _ => undone)); [apply NoDup_seqZ|done]. Qed.
Lemma avail_insert e ph st t w : t ∈ K →
  avail e ph (<[t := w]> st) = avail e ph st + (issued w - issued (st t)) * local e ph t.
Proof using Type.
  clear. intros. unfold avail. rewrite (sum_over_insert (fun t w => issued w * local e ph t)); [lia|apply NoDup_seqZ|done].
Qed.
Lemma kept_insert e ph ar n : n ∈ others C → ar n = false →
  kept e ph (<[n := true]> ar) = kept e ph ar - (kMaxPiecesPerPhase - remote e ph n).
Proof using Type.
  clear. intros Hin E. unfold kept.
  rewrite (sum_over_insert (fun n b => undone b * (kMaxPiecesPerPhase - remote e ph n))); [|apply others_NoDup|done].
  rewrite E. cbn [undone]. lia.
Qed.

(** ** Preservation *)

Lemma comp_i64 c : Inv c → i64 (comp_count c) = comp_count c.
Proof using All. intros H. apply i64_id. pose proof (comp_bounds c H). lia. Qed.

Lemma inv_busy c : Inv c → comp_count c ≠ 0 → shut_down c = false ∧ control c = None.
Proof using Type.
  clear. intros H Hc. rewrite (inv_control c H). destruct (shut_down c) eqn:E.
  - by destruct (inv_shut c H E).
  - by destruct (Z.eqb_spec (comp_count c) 0).
Qed.

(** the bounds of the parts, for arithmetic *)
Lemma parts c : Inv c →
  0 ≤ toks (stage c) ∧ 0 ≤ extra (plan c) (stage c) ∧ 0 ≤ kept (epoch_nr c) (phase c) (arrived c).
Proof using Hg Hrem.
  intros _. pose proof (toks_bounds (stage c)). pose proof (extra_bounds (plan c) (stage c)).
  pose proof (kept_nonneg (epoch_nr c) (phase c) (arrived c)). lia.
Qed.

Lemma nundone_nonneg ad : 0 ≤ nundone ad ≤ g_nr_threads C.
Proof using Hg.
  clear -Hg. unfold nundone. split; [apply sum_over_nonneg; intros t _; by destruct (ad t)|].
  rewrite (sum_over_le _ (fun _ => 1)) by (intros t _; by destruct (ad t)).
  rewrite sum_over_const. unfold cores. rewrite length_seqZ. lia.
Qed.

Lemma alloc_step t c : Inv c → t ∈ K → alloc_done c t = false → Inv (alloc_worker t c).
Proof using Hg.
  intros H Ht Ha. pose proof (inv_alloc c H) as Hc. cbn zeta in Hc.
  pose proof (nundone_nonneg (alloc_done c)). pose proof (nundone_nonneg (<[t := true]> (alloc_done c))) as Hb.
  rewrite nundone_insert in Hb by done. rewrite Ha in Hb. cbn [undone] in Hb.
  destruct (Z.eqb_spec (nundone (alloc_done c)) 0) as [E|E]; [lia|].
  assert (Hnew : alloc_comp (alloc_worker t c) =
    let k := nundone (<[t := true]> (alloc_done c)) in if k =? 0 then 0 else k + 1).
  { cbn. rewrite nundone_insert, Ha, Hc by done. cbn [undone].
    destruct (Z.eqb_spec (nundone (alloc_done c) + 1) 2); destruct (Z.eqb_spec (nundone (alloc_done c) + (0 - 1)) 0); try lia.
    - by replace (nundone (alloc_done c)) with 1 by lia.
    - rewrite u64_id; lia. }
  destruct H. split; try done. intros _. cbn [stage alloc_worker]. apply inv_wait0. lia.
Qed.

Lemma nissued_lt st t : t ∈ K → st t = Issuing → nissued st < g_nr_threads C.
Proof using Hg.
  intros Ht E. pose proof (nissued_bounds (<[t := WDone]> st)) as Hb. rewrite nissued_insert, E in Hb by done.
  cbn [issued] in Hb. lia.
Qed.

Lemma flush_step t c : Inv c → t ∈ K → stage c t = Issuing → alloc_comp c = 0 →
  ∃ c', flush_worker C per_core t c = Ok c' ∧ Inv c' ∧ epoch_nr c' = epoch_nr c ∧ phase c' = phase c ∧
        (∃ b, stage c' = <[t := Flushed b]> (stage c)).
Proof using All.
  intros H Ht E Ha. pose proof (nissued_lt _ _ Ht E) as Hlt. pose proof (nissued_bounds (stage c)).
  pose proof (comp_bounds c H) as Hcb. pose proof (inv_cnts c H) as [Hc1 Hc2]. pose proof (inv_batch c H) as Hb.
  pose proof (local_nonneg (epoch_nr c) (phase c) t) as Hl0.
  assert (Hl1 : local (epoch_nr c) (phase c) t < 2 ^ 62 - avail (epoch_nr c) (phase c) (stage c)).
  { pose proof (avail_bounds (epoch_nr c) (phase c) (<[t := WDone]> (stage c))) as Hv. rewrite avail_insert, E in Hv by done.
    cbn [issued] in Hv. lia. }
  assert (Hcl : comp_count c + local (epoch_nr c) (phase c) t < 2 ^ 63).
  { pose proof (inv_comp c H) as Hcc. pose proof (inv_exec c H) as Hx. rewrite available_eq in Hx, Hcc.
    pose proof (toks_bounds (stage c)). pose proof (extra_bounds (plan c) (stage c)).
    pose proof (kept_le (epoch_nr c) (phase c) (arrived c)). pose proof (remotes_bounds (epoch_nr c) (phase c)).
    unfold kMaxPiecesPerPhase in *. lia. }
  destruct (flush_one C Hn Hid (plan c) (comp_count c) (per_core (epoch_nr c) (phase c) t)) as (loc & tot & Ef & Hf1 & Hf2).
  { split; [done|split; [done|lia]]. } { lia. } { apply Hper. } { by apply comp_i64. }
  unfold flush_worker. rewrite Ef. cbn [mbind result_bind]. cbn beta iota.
  fold (local (epoch_nr c) (phase c) t). rewrite i64_id by lia.
  eexists. split; [done|]. split; [|split; [done|split; [done|by eexists]]].
  pose proof (inv_last c H ltac:(lia)) as Hl. pose proof (inv_comp c H) as Hcc. rewrite available_eq in Hcc.
  pose proof (inv_exec c H) as Hx. rewrite available_eq in Hx. unfold extra in Hcc.
  rewrite (proj2 (Z.ltb_lt (batch_completed (plan c)) _)) in Hcc by lia.
  pose proof (toks_bounds (<[t := WDone]> (stage c))) as Htk. rewrite toks_insert, E in Htk by done. cbn [tok] in Htk.
  destruct (parts c H) as (_ & _ & Hk0).
  destruct (inv_busy c H) as [Hs Hctl]; [lia|]. split; rewrite ?available_eq; cbn.
  - split; [apply Hf1|apply Hf2].
  - rewrite nissued_insert, E by done. cbn [issued]. lia.
  - intros Hlt'. rewrite lasts_insert, E by done. rewrite (proj2 (Z.leb_gt _ _)) by lia. cbn [is_last]. lia.
  - rewrite toks_insert, avail_insert, E by done. cbn [tok issued]. unfold extra. cbn [batch_completed].
    rewrite lasts_insert, E by done.
    destruct (Z.leb_spec (g_nr_threads C) (batch_completed (plan c) + 1)); destruct (Z.ltb_spec (batch_completed (plan c) + 1) (g_nr_threads C));
      try lia; cbn [is_last]; lia.
  - rewrite avail_insert, E by done. cbn [issued]. lia.
  - rewrite Hs, Hctl. destruct (Z.eqb_spec (comp_count c + local (epoch_nr c) (phase c) t) 0); [lia|done].
  - rewrite Hs. done.
  - apply (inv_alloc c H).
  - lia.
  - intros t' Ht' Htok. destruct (decide (t' = t)) as [->|Hne]; [by rewrite fn_lookup_insert in Htok|].
    rewrite fn_lookup_insert_ne in Htok by done. by apply (inv_fin c H).
  - apply (inv_epoch c H).
  - apply (inv_log c H).
Qed.

(** a step that ends with the callback *)
Lemma callback_inv c comp cnt p st rt fn ar ex :
  Inv c → comp_count c ≠ 0 →
  cnts_ok C (local_cnts p) ∧ cnts_ok C (total_cnts p) →
  batch_completed p = nissued st → (batch_completed p < g_nr_threads C → lasts st = 0) →
  cnt = toks st + extra p st + kept (epoch_nr c) (phase c) ar +
        (avail (epoch_nr c) (phase c) st + sum_over (remote (epoch_nr c) (phase c)) (others C) - ex) →
  0 ≤ ex ≤ avail (epoch_nr c) (phase c) st + sum_over (remote (epoch_nr c) (phase c)) (others C) →
  (alloc_comp c ≠ 0 → ∀ t, t ∈ K → st t = Issuing) →
  (∀ t, t ∈ K → tok (st t) = 0 → fn t = true) →
  Inv (callback cnt (mkClient (epoch_nr c) (phase c) comp p (alloc_comp c) (alloc_done c) st rt fn ar ex
                       (control c) (log c) (shut_down c))).
Proof using Type.
  clear. intros H Hc Hp Hb Hl Hcnt Hex Hw Hf. destruct (inv_busy c H Hc) as [Hs Hctl].
  split; rewrite ?available_eq; cbn; try done; rewrite ?Hs, ?Hctl; try done; apply H.
Qed.

Lemma comp_token c t : Inv c → t ∈ K → tok (stage c t) = 1 → 1 ≤ comp_count c.
Proof using Hg Hrem.
  intros H Ht E. rewrite (inv_comp c H). pose proof (inv_exec c H). destruct (parts c H) as (_ & ? & ?).
  pose proof (toks_bounds (<[t := WDone]> (stage c))) as Htk. rewrite toks_insert, E in Htk by done. cbn [tok] in Htk. lia.
Qed.

Lemma wait_stage c t w : Inv c → t ∈ K → stage c t ≠ Issuing → alloc_comp c ≠ 0 →
  ∀ t', t' ∈ K → (<[t := w]> (stage c)) t' = Issuing.
Proof using Type. clear. intros H Ht E Ha. destruct E. by apply (inv_wait c H). Qed.

Lemma fin_stage c t w b : Inv c → b = true → ∀ t', t' ∈ K → tok ((<[t := w]> (stage c)) t') = 0 →
  (<[t := b]> (finished c)) t' = true.
Proof using Type.
  clear. intros H -> t' Ht' Htok. destruct (decide (t' = t)) as [->|Hne]; [by rewrite fn_lookup_insert|].
  rewrite fn_lookup_insert_ne by done. rewrite fn_lookup_insert_ne in Htok by done. by apply (inv_fin c H).
Qed.

Lemma complete_step t b c : Inv c → t ∈ K → stage c t = Flushed b →
  ∃ c', complete_worker t b c = Ok c' ∧ Inv c' ∧ comp_count c' = comp_count c - 1.
Proof using All.
  intros H Ht E. pose proof (comp_token c t H Ht ltac:(by rewrite E)) as Hc1. pose proof (comp_i64 c H) as Hi.
  unfold complete_worker. rewrite complete_ok by (cbn; first [done | lia]). eexists. split; [done|]. split; [|done].
  pose proof (inv_comp c H) as Hcc. pose proof (inv_exec c H) as Hx. rewrite available_eq in Hx, Hcc.
  apply callback_inv; try done; try (by apply H); try lia.
  - rewrite nissued_insert, E, (inv_batch c H) by done. destruct b; cbn [issued]; lia.
  - intros Hlt. rewrite lasts_insert, E, (inv_last c H Hlt) by done. by destruct b.
  - cbn [comp_count]. rewrite toks_insert, avail_insert, E by done. unfold extra in *. rewrite lasts_insert, E by done.
    destruct b; cbn [tok issued is_last]; zcase; lia.
  - rewrite avail_insert, E by done. destruct b; cbn [issued]; lia.
  - intros Ha. apply wait_stage; try done. by rewrite E.
  - by apply fin_stage.
Qed.

Lemma second_step t c : Inv c → t ∈ K → stage c t = SecondComplete →
  ∃ c', complete_worker t false c = Ok c' ∧ Inv c' ∧ comp_count c' = comp_count c - 1.
Proof using All.
  intros H Ht E. pose proof (inv_comp c H) as Hcc. pose proof (inv_exec c H) as Hx. rewrite available_eq in Hx, Hcc.
  destruct (parts c H) as (? & ? & ?). pose proof (comp_i64 c H) as Hi.
  pose proof (lasts_nonneg (<[t := WDone]> (stage c))) as Hl. rewrite lasts_insert, E in Hl by done. cbn [is_last] in Hl.
  assert (Hb : ¬ batch_completed (plan c) < g_nr_threads C). { intros Hlt. rewrite (inv_last c H Hlt) in Hl. lia. }
  assert (Hex : extra (plan c) (stage c) = lasts (stage c)) by (unfold extra; zcase; lia).
  unfold complete_worker. rewrite complete_ok by (cbn; first [done | lia]). eexists. split; [done|]. split; [|done].
  apply callback_inv; try done; try (by apply H); try lia.
  - rewrite nissued_insert, E, (inv_batch c H) by done. cbn [issued]. lia.
  - cbn [comp_count]. rewrite toks_insert, avail_insert, E by done. unfold extra. rewrite lasts_insert, E by done.
    cbn [tok issued is_last]. zcase; lia.
  - rewrite avail_insert, E by done. cbn [issued]. lia.
  - intros Ha. apply wait_stage; try done. by rewrite E.
  - by apply fin_stage.
Qed.

Lemma pieces_step k c : Inv c → 0 < k → executed c + k ≤ available C per_core received c →
  ∃ c', run_pieces k c = Ok c' ∧ Inv c' ∧ comp_count c' = comp_count c - k.
Proof using All.
  intros H Hk Hle. pose proof (inv_comp c H) as Hcc. pose proof (inv_exec c H) as Hx. rewrite available_eq in Hx, Hcc, Hle.
  destruct (parts c H) as (? & ? & ?). pose proof (comp_i64 c H) as Hi.
  unfold run_pieces. rewrite complete_ok by (cbn; first [done | lia]). eexists. split; [done|]. split; [|done].
  apply callback_inv; try done; try (by apply H); cbn; lia.
Qed.

Lemma plan_step n c : Inv c → n ∈ others C → arrived c n = false →
  ∃ c', plan_arrives C received n c = Ok c' ∧ Inv c' ∧
        comp_count c' = comp_count c - (kMaxPiecesPerPhase - remote (epoch_nr c) (phase c) n).
Proof using All.
  intros H Hin E. pose proof (inv_comp c H) as Hcc. pose proof (inv_exec c H) as Hx. rewrite available_eq in Hx, Hcc.
  destruct (parts c H) as (? & ? & _). pose proof (comp_i64 c H) as Hi. pose proof (Hrem (epoch_nr c) (phase c) n Hin) as Hr.
  pose proof (kept_nonneg (epoch_nr c) (phase c) (<[n := true]> (arrived c))) as Hk. rewrite kept_insert in Hk by done.
  destruct (Hrec (epoch_nr c) (phase c) n) as [Hr1 Hr2].
  destruct (update_one C Hn Hid (plan c) (comp_count c) (received (epoch_nr c) (phase c) n)) as (tot & Eu & Ha);
    [apply H|done|done|done|by apply Z.lt_le_incl|unfold remote_pieces in *; lia|].
  unfold plan_arrives. rewrite Eu. cbn [mbind result_bind]. cbn beta iota.
  fold (remote (epoch_nr c) (phase c) n). eexists. split; [done|]. split; [|done].
  apply callback_inv; try done; try (by apply H); try lia.
  - split; [apply H|apply Ha].
  - rewrite kept_insert by done. unfold extra in *. cbn [batch_completed]. lia.
Qed.

Lemma return_step t c : Inv c → Inv (return_worker t c).
Proof using Type.
  clear. intros H. destruct H. split; try done. cbn. intros t' Ht' Htok.
  destruct (decide (t' = t)) as [->|Hne]; [by rewrite fn_lookup_insert|]. rewrite fn_lookup_insert_ne by done. auto.
Qed.

Lemma length_others : len (others C) = nr_nodes C - 1.
Proof using Hn Hid.
  clear -Hn Hid. unfold others, node_ok in *.
  assert (Hs : seqZ 1 (nr_nodes C) = seqZ 1 (node_id C - 1) ++ node_id C :: seqZ (node_id C + 1) (nr_nodes C - node_id C)).
  { replace (nr_nodes C) with ((node_id C - 1) + (nr_nodes C - node_id C + 1)) at 1 by lia.
    rewrite seqZ_app by lia. f_equal. rewrite seqZ_cons by lia. f_equal; [lia|]. f_equal; lia. }
  rewrite Hs, filter_app, filter_cons_False by auto.
  rewrite !filter_all, length_app, !length_seqZ.
  - lia.
  - intros x Hx. apply elem_of_seqZ in Hx. lia.
  - intros x Hx. apply elem_of_seqZ in Hx. lia.
Qed.

(** the first state of a phase *)
Lemma fresh_inv e ph comp p ac ad rt lg :
  comp = phase_tokens C → 1 ≤ e < g_max_epoch →
  ac = (let k := nundone ad in if k =? 0 then 0 else k + 1) → rev lg = history e ph →
  Inv (mkClient e ph comp (ResetBufferPlan C p) ac ad (fun _ => Issuing) rt (fun _ => false) (fun _ => false) 0 None lg false).
Proof using All.
  intros Hc He Ha Hl. assert (Hi : nissued (fun _ => Issuing) = 0) by (unfold nissued; cbn [issued]; rewrite sum_over_const; lia).
  assert (Hav : avail e ph (fun _ => Issuing) = 0) by (unfold avail; cbn [issued]; by rewrite sum_over_zero).
  pose proof (remotes_bounds e ph) as Hr.
  assert (Hcc : comp = toks (fun _ => Issuing) + extra (ResetBufferPlan C p) (fun _ => Issuing) + kept e ph (fun _ => false) +
    (avail e ph (fun _ => Issuing) + sum_over (remote e ph) (others C) - 0)).
  { rewrite Hc, Hav. unfold toks, extra, kept, phase_tokens. cbn [tok undone batch_completed ResetBufferPlan].
    rewrite (proj2 (Z.ltb_lt _ _)), sum_over_const by lia. unfold cores. rewrite length_seqZ.
    rewrite (sum_over_ext _ (fun n => kMaxPiecesPerPhase + - remote e ph n)) by (intros; lia).
    rewrite sum_over_add, sum_over_const, length_others.
    assert (Hneg : ∀ l, sum_over (fun n => - remote e ph n) l = - sum_over (remote e ph) l)
      by (induction l as [|x l IH]; cbn in *; [done|unfold sum_over in *; lia]).
    rewrite Hneg. unfold kMaxPiecesPerPhase. lia. }
  split; rewrite ?available_eq; cbn; try done; try lia.
  - split; by apply cnts_ok_zero.
  - rewrite Hc. unfold phase_tokens, kMaxPiecesPerPhase. destruct (Z.eqb_spec ((nr_nodes C - 1) * 12800000 + 1 + g_nr_threads C) 0); [lia|done].
Qed.

Lemma nundone_false : nundone (fun _ => false) = g_nr_threads C.
Proof using Hg. clear -Hg. unfold nundone. cbn [undone]. rewrite sum_over_const. unfold cores. rewrite length_seqZ. lia. Qed.

Lemma Increment_tokens : Increment 0 (phase_tokens C) = phase_tokens C.
Proof using Hn Hg. clear -Hn Hg. unfold Increment, phase_tokens, kMaxPiecesPerPhase. apply i64_id. lia. Qed.

Lemma start_inv : ∃ c, start C = Ok c ∧ Inv c.
Proof using All.
  unfold start, InitializeEpoch, CallTxns. cbn [finished epoch_nr new_client].
  replace (forallb _ _) with true by (symmetry; by apply forallb_forall). cbn [negb].
  eexists. split; [done|]. apply fresh_inv; cbn [comp_count new_client].
  - apply Increment_tokens.
  - change (u64 (0 + 1)) with 1. lia.
  - cbn [alloc_comp alloc_done]. rewrite nundone_false. cbn zeta. zcase; lia.
  - done.
Qed.

(** the phases that are left, the current one and the shutdown included *)
Definition phase_nr (ph : EpochPhase) : Z := match ph with Insert => 0 | Initialize => 1 | Execute => 2 end.
Definition phases_left (c : Client) : Z :=
  3 * (g_max_epoch - epoch_nr c) - phase_nr (phase c) + undone (shut_down c).

Lemma history_next_phase e : history e Initialize = history e Insert ++ [(e, Initialize)] ∧
  history e Execute = history e Initialize ++ [(e, Execute)].
Proof using Type. clear. unfold history. by rewrite <- !app_assoc. Qed.
Lemma history_next_epoch e : 1 ≤ e → history (e + 1) Insert = history e Execute ++ [(e + 1, Insert)].
Proof using Type.
  clear. intros He. unfold history. replace (e + 1 - 1) with ((e - 1) + 1) by lia. rewrite seqZ_app by lia.
  rewrite flat_map_app. f_equal. f_equal. replace (1 + (e - 1)) with e by lia. done.
Qed.

Lemma call_txns_inv e ph c ac ad :
  Inv c → comp_count c = 0 → shut_down c = false → 1 ≤ e < g_max_epoch →
  ac = (let k := nundone ad in if k =? 0 then 0 else k + 1) → history e ph = rev (log c) ++ [(e, ph)] →
  ∃ c', CallTxns C (mkClient e ph (comp_count c) (plan c) ac ad (stage c) (returning c) (finished c)
    (arrived c) (executed c) (control c) (log c) (shut_down c)) = Ok c' ∧ Inv c' ∧
    epoch_nr c' = e ∧ phase c' = ph ∧ shut_down c' = false.
Proof using All.
  intros H H0 Hs He Ha Hh. destruct (comp_zero c H H0) as (Hst & _ & _). unfold CallTxns. cbn [finished].
  replace (forallb (finished c) K) with true.
  - eexists. split; [done|]. split; [|by rewrite Hs]. cbn. rewrite Hs. apply fresh_inv; try done.
rewrite H0. apply Increment_tokens.
  - symmetry. apply forallb_forall. intros t Ht. apply list_elem_of_In in Ht. apply (inv_fin c H); [done|].
    by rewrite (Hst t Ht).
Qed.

Lemma control_step h c : Inv c → control c = Some h →
  ∃ c', run_handler C g_max_epoch h c = Ok c' ∧ Inv c' ∧ 0 ≤ phases_left c' < phases_left c.
Proof using All.
  intros H Hh. pose proof (inv_control c H) as Hc. rewrite Hh in Hc. destruct (shut_down c) eqn:Hs; [done|].
  destruct (Z.eqb_spec (comp_count c) 0) as [H0|]; [|done]. injection Hc as ->.
  pose proof (inv_epoch c H) as He. pose proof (inv_log c H) as Hl. pose proof (inv_alloc c H) as Ha.
  destruct (history_next_phase (epoch_nr c)) as [Hh1 Hh2]. unfold phases_left. rewrite Hs.
  destruct (phase c) eqn:Hph; cbn [handler_of run_handler]; unfold insert_complete, initialize_complete, execute_complete.
  - destruct (call_txns_inv (epoch_nr c) Initialize c (alloc_comp c) (alloc_done c) H H0 Hs He Ha) as (c' & E & Hi & E1 & E2 & E3);
      [by rewrite Hl|]. exists c'. split; [exact E|]. split; [done|]. rewrite E1, E2, E3. cbn [phase_nr undone]. lia.
  - destruct (call_txns_inv (epoch_nr c) Execute c (alloc_comp c) (alloc_done c) H H0 Hs He Ha) as (c' & E & Hi & E1 & E2 & E3);
      [by rewrite Hl|]. exists c'. split; [exact E|]. split; [done|]. rewrite E1, E2, E3. cbn [phase_nr undone]. lia.
  - destruct (Z.ltb_spec (epoch_nr c + 1) g_max_epoch) as [Hlt|Hge].
    + unfold InitializeEpoch. rewrite u64_id by lia.
      destruct (call_txns_inv (epoch_nr c + 1) Insert c (g_nr_threads C + 1) (fun _ => false) H H0 Hs) as (c' & E & Hi & E1 & E2 & E3).
      { lia. } { rewrite nundone_false. cbn zeta. zcase; lia. } { rewrite history_next_epoch, Hl; [done|lia]. }
      exists c'. split; [exact E|]. split; [done|]. rewrite E1, E2, E3. cbn [phase_nr undone]. lia.
    + eexists. split; [done|]. split; [|cbn; rewrite Hph; cbn; lia].
      destruct H. split; try done. intros _. cbn. split; [done|]. split; [done|lia].
Qed.

(** every step keeps the invariant, and an event either happens or is blocked *)
Lemma step_inv ev c : Inv c → match Step ev c with Ok c' => Inv c' | Err f => f = Blocked end.
Proof using All.
  intros H. destruct ev as [t|t|t|t|t|n|k|]; cbn [step].
  - destruct (bool_decide_reflect (t ∈ K)), (alloc_done c t) eqn:E; cbn; try done. by apply alloc_step.
  - destruct (bool_decide_reflect (t ∈ K)), (bool_decide_reflect (stage c t = Issuing)), (returning c t); cbn; try done.
    destruct (Z.eqb_spec (alloc_comp c) 0); [|done]. by destruct (flush_step t c) as (c' & -> & ? & _).
  - destruct (stage c t) eqn:E; try done. destruct (bool_decide_reflect (t ∈ K)); [|done].
    by destruct (complete_step t node_finished c) as (c' & -> & ? & _).
  - destruct (bool_decide_reflect (t ∈ K)), (bool_decide_reflect (stage c t = SecondComplete)); cbn; try done.
    by destruct (second_step t c) as (c' & -> & ? & _).
  - destruct (bool_decide_reflect (t ∈ K)), (returning c t); cbn; try done. by apply return_step.
  - destruct (bool_decide_reflect (n ∈ others C)), (arrived c n) eqn:E; cbn; try done.
    by destruct (plan_step n c) as (c' & -> & ? & _).
  - destruct (Z.ltb_spec 0 k), (Z.leb_spec (executed c + k) (available C per_core received c)); cbn; try done.
    by destruct (pieces_step k c) as (c' & -> & ? & _).
  - destruct (control c) as [h|] eqn:E; [|done]. by destruct (control_step h c H E) as (c' & -> & ? & _).
Qed.

Lemma epoch_reachable_inv c : reachable C g_max_epoch per_core received c → Inv c.
Proof using All.
  induction 1 as [c Hc|c ev c' _ IH Hs].
  - destruct start_inv as (c0 & E & Hi). congruence.
  - pose proof (step_inv ev c IH) as Hi. by rewrite Hs in Hi.
Qed.

End Inv.
