(* ===== verification/EpochProps.v ===== *)
(** Theorems on the epochs of a node: a phase ends exactly when its work is done,
    nothing aborts, and every run goes through all phases of all epochs. *)

From S2P Require Import Prelude SqlTypes Piece BufferPlan PlanFacts PlanProps Epoch EpochFacts.

Section Run.
Context (C : Config) (g_max_epoch : Z).
Context (per_core : Z → EpochPhase → Z → list Z) (received : Z → EpochPhase → Z → list Z).

(** the plans of the cores and of the other nodes are well-formed and fit in the
    placeholder of a phase *)
Record Setup : Prop := mkSetup {
  su_nodes : 1 ≤ nr_nodes C ≤ 254;
  su_id : node_ok C (node_id C);
  su_cores : 0 < g_nr_threads C ≤ 32;
  su_epochs : 2 ≤ g_max_epoch < 2 ^ 64;
  su_per : ∀ e ph t, cnts_ok C (per_core e ph t);
  su_rec : ∀ e ph n, cnts_ok C (tail (received e ph n)) ∧ length (received e ph n) ≠ 0%nat;
  su_remote : ∀ e ph n, n ∈ others C → remote_pieces C received e ph n < kMaxPiecesPerPhase;
  su_local : ∀ e ph, sum_over (local_pieces C per_core e ph) (cores C) < 2 ^ 62;
}.
Hypothesis S : Setup.
Abbreviation Step := (step C g_max_epoch per_core received).
Abbreviation INV := (Inv C g_max_epoch per_core received).

(** discharge the hypotheses of the lemmas on the invariant with the setup *)
Ltac with_setup L H :=
  pose proof (L C g_max_epoch per_core received) as H;
  repeat match type of H with
  | ?P → _ => let X := fresh in assert (X : P) by (by apply S); specialize (H X); clear X
  end.

Lemma setup_step_inv ev c : INV c → match Step ev c with Ok c' => INV c' | Err f => f = Blocked end.
Proof using S. with_setup step_inv L. apply L. Qed.
Lemma setup_reachable_inv c : reachable C g_max_epoch per_core received c → INV c.
Proof using S. with_setup epoch_reachable_inv L. apply L. Qed.
Lemma setup_local_nonneg e ph t : 0 ≤ local_pieces C per_core e ph t.
Proof using S. apply incoming_nonneg, S. Qed.

(** ** Progress *)

Lemma others_dec (f : Z → bool) (l : list Z) : (∃ x, x ∈ l ∧ f x = false) ∨ ∀ x, x ∈ l → f x = true.
Proof using Type.
  clear. induction l as [|x l IH]; [right; intros x Hx; by apply elem_of_nil in Hx|].
  destruct (f x) eqn:E; [|left; exists x; split; [left|done]]. destruct IH as [(y & Hy & Hf)|IH].
  - left. exists y. split; [by right|done].
  - right. intros y [->|Hy]%elem_of_cons; auto.
Qed.

Lemma progress c : INV c → shut_down c = false → ∃ ev c', Step ev c = Ok c'.
Proof using S.
  intros H Hs. pose proof (inv_control _ _ _ _ c H) as Hc. rewrite Hs in Hc.
  destruct (Z.eqb_spec (comp_count c) 0) as [H0|H0].
  { with_setup control_step L. destruct (L _ c H Hc) as (c' & E & _). exists EvControl, c'. cbn [step]. by rewrite Hc. }
  destruct (others_dec (alloc_done c) (cores C)) as [(t & Ht & E)|Had].
  { exists (EvAlloc t). eexists. cbn. by rewrite bool_decide_true, E. }
  assert (Ha : alloc_comp c = 0).
  { rewrite (inv_alloc _ _ _ _ c H). unfold nundone. rewrite sum_over_zero; [done|]. intros x Hx. by rewrite Had. }
  destruct (others_dec (fun t => bool_decide (stage c t = WDone)) (cores C)) as [(t & Ht & E)|Hst].
  { destruct (stage c t) as [|b| |] eqn:Est; [| | |done].
    - destruct (returning c t) eqn:Er; [exists (EvReturn t); eexists; cbn; by rewrite bool_decide_true, Er|].
      with_setup flush_step L. destruct (L t c H Ht Est Ha) as (c' & E' & _). exists (EvFlush t), c'. cbn.
      by rewrite !bool_decide_true, Er, Ha.
    - with_setup complete_step L. destruct (L t b c H Ht Est) as (c' & E' & _). exists (EvComplete t), c'. cbn.
      by rewrite Est, bool_decide_true.
    - with_setup second_step L. destruct (L t c H Ht Est) as (c' & E' & _). exists (EvSecond t), c'. cbn.
      by rewrite Est, !bool_decide_true. }
  destruct (others_dec (arrived c) (others C)) as [(n & Hin & E)|Har].
  { with_setup plan_step L. destruct (L n c H Hin E) as (c' & E' & _). exists (EvPlan n), c'. cbn.
    by rewrite bool_decide_true, E. }
  assert (Hlt : executed c < available C per_core received c).
  { pose proof (inv_exec _ _ _ _ c H). pose proof (inv_comp _ _ _ _ c H) as Hcc. unfold toks, kept, extra, lasts in Hcc.
    assert (Hd : ∀ t, t ∈ cores C → stage c t = WDone) by (intros t Ht; by apply (bool_decide_eq_true_1 _ (Hst t Ht))).
    assert (Hb : batch_completed (plan c) = g_nr_threads C).
    { rewrite (inv_batch _ _ _ _ c H). unfold nissued. rewrite (sum_over_ext _ (fun _ => 1)) by (intros t Ht; by rewrite Hd).
      rewrite sum_over_const. unfold cores. rewrite length_seqZ. pose proof (su_cores S). lia. }
    rewrite Hb, Z.ltb_irrefl, !sum_over_zero in Hcc; [lia|..]; intros x Hx; by rewrite ?Hd, ?Har. }
  with_setup pieces_step L. destruct (L 1 c H) as (c' & E' & _); [lia|lia|]. exists (EvPieces 1), c'. cbn.
  by rewrite (proj2 (Z.leb_le _ _)) by lia.
Qed.

(** ** Termination *)

Definition rank (w : WStage) : Z := match w with Issuing => 5 | Flushed _ => 4 | SecondComplete => 2 | WDone => 0 end.
Definition busy (b : bool) : Z := if b then 1 else 0.
Definition all_pieces (e : Z) (ph : EpochPhase) : Z :=
  sum_over (local_pieces C per_core e ph) (cores C) + sum_over (remote_pieces C received e ph) (others C).
(** the work left in a phase *)
Definition work (c : Client) : Z :=
  sum_over (fun t => undone (alloc_done c t)) (cores C) + sum_over (fun t => rank (stage c t)) (cores C) +
  sum_over (fun t => busy (returning c t)) (cores C) + sum_over (fun n => undone (arrived c n)) (others C) +
  (all_pieces (epoch_nr c) (phase c) - executed c).

Lemma available_le c : available C per_core received c ≤ all_pieces (epoch_nr c) (phase c).
Proof using S.
  rewrite available_eq. unfold all_pieces, avail. apply Z.add_le_mono_r, sum_over_le. intros t _.
  pose proof (setup_local_nonneg (epoch_nr c) (phase c) t). destruct (stage c t); cbn [issued]; lia.
Qed.

Lemma work_nonneg c : INV c → 0 ≤ work c.
Proof using S.
  intros H. pose proof (inv_exec _ _ _ _ c H). pose proof (available_le c). unfold work.
  pose proof (sum_over_nonneg (fun t => undone (alloc_done c t)) (cores C) ltac:(intros t _; cbv beta; by destruct (alloc_done c t))).
  pose proof (sum_over_nonneg (fun t => rank (stage c t)) (cores C) ltac:(intros t _; cbv beta; by destruct (stage c t))).
  pose proof (sum_over_nonneg (fun t => busy (returning c t)) (cores C) ltac:(intros t _; cbv beta; by destruct (returning c t))).
  pose proof (sum_over_nonneg (fun n => undone (arrived c n)) (others C) ltac:(intros n _; cbv beta; by destruct (arrived c n))).
  lia.
Qed.

Lemma ranks_insert st t w : t ∈ cores C →
  sum_over (fun x => rank ((<[t := w]> st) x)) (cores C) = sum_over (fun x => rank (st x)) (cores C) + (rank w - rank (st t)).
Proof using Type. clear. intros. apply (sum_over_insert (fun _ => rank)); [apply NoDup_seqZ|done]. Qed.
Lemma busy_insert st t w : t ∈ cores C →
  sum_over (fun x => busy ((<[t := w]> st) x)) (cores C) = sum_over (fun x => busy (st x)) (cores C) + (busy w - busy (st t)).
Proof using Type. clear. intros. apply (sum_over_insert (fun _ => busy)); [apply NoDup_seqZ|done]. Qed.

(** within a phase every event takes some of the work *)
Lemma step_work ev c c' : INV c → Step ev c = Ok c' → ev ≠ EvControl →
  phases_left g_max_epoch c' = phases_left g_max_epoch c ∧ work c' < work c.
Proof using Type.
  clear S. intros H. unfold phases_left, work.
  destruct ev as [t|t|t|t|t|n|k|]; cbn [step]; intros E Hne; [..|done];
    repeat match type of E with
    | context [bool_decide (?t ∈ ?l)] => destruct (bool_decide_reflect (t ∈ l)); cbn [andb] in E; [|discriminate E || by destruct (stage c t)]
    end.
  - destruct (alloc_done c t) eqn:Ea; [done|]. injection E as <-. cbn. split; [done|].
    rewrite (sum_over_insert (fun _ => undone)), Ea by (done || apply NoDup_seqZ). cbn [undone]. lia.
  - destruct (bool_decide_reflect (stage c t = Issuing)) as [Es|]; [|done]. destruct (returning c t), (alloc_comp c =? 0); try done.
    cbn in E. unfold flush_worker in E. inv_ok. destruct v as [[[p comp] fin] ms]. inv_ok. cbn. split; [done|].
    rewrite ranks_insert, Es by done. cbn [rank]. lia.
  - destruct (stage c t) as [|b| |] eqn:Es; try done. unfold complete_worker, complete in E. inv_ok. cbn. split; [done|].
    rewrite ranks_insert, busy_insert, Es by done. destruct b, (returning c t); cbn; lia.
  - destruct (bool_decide_reflect (stage c t = SecondComplete)) as [Es|]; [|done].
    unfold complete_worker, complete in E. inv_ok. cbn. split; [done|].
    rewrite ranks_insert, busy_insert, Es by done. destruct (returning c t); cbn; lia.
  - destruct (returning c t) eqn:Er; [|done]. injection E as <-. cbn. split; [done|]. rewrite busy_insert, Er by done. cbn. lia.
  - destruct (arrived c n) eqn:Ea; [done|]. cbn in E. unfold plan_arrives in E. inv_ok. destruct v as [[p comp] src]. inv_ok.
    cbn. split; [done|]. rewrite (sum_over_insert (fun _ => undone)), Ea by (done || apply others_NoDup). cbn [undone]. lia.
  - destruct (Z.ltb_spec 0 k), (Z.leb_spec (executed c + k) (available C per_core received c)); try done.
    cbn in E. unfold run_pieces, complete in E. inv_ok. cbn. split; [done|]. lia.
Qed.

Lemma step_measure ev c c' : INV c → Step ev c = Ok c' →
  0 ≤ phases_left g_max_epoch c' < phases_left g_max_epoch c ∨
  phases_left g_max_epoch c' = phases_left g_max_epoch c ∧ 0 ≤ work c' < work c.
Proof using S.
  intros H E. pose proof (setup_step_inv ev c H) as H'. rewrite E in H'. destruct ev; try (right; by destruct
    (step_work _ _ _ H E) as [? ?]; [done|]; split; [done|]; split; [by apply work_nonneg|done]).
  left. cbn [step] in E. destruct (control c) as [h|] eqn:Hc; [|done]. with_setup control_step L.
  destruct (L h c H Hc) as (c2 & E2 & _ & Hp). congruence.
Qed.

(** no run is infinite *)
Lemma steps_acc c : INV c → Acc (fun c' c => ∃ ev, Step ev c = Ok c') c.
Proof using S.
  remember (phases_left g_max_epoch c) as p eqn:Hp. revert c Hp.
  induction p as [p IHp] using (well_founded_induction (Z.lt_wf 0)). intros c Hp.
  remember (work c) as w eqn:Hw. revert c Hp Hw.
  induction w as [w IHw] using (well_founded_induction (Z.lt_wf 0)). intros c Hp Hw H.
  constructor. intros c' (ev & E). pose proof (setup_step_inv ev c H) as H'. rewrite E in H'.
  destruct (step_measure ev c c' H E) as [Hlt|[Heq Hlt]].
  - by apply (IHp (phases_left g_max_epoch c')); subst.
  - by apply (IHw (work c')); subst.
Qed.

End Run.

(** ** Properties *)

(** every phase of every epoch, in order *)
Definition all_phases (g_max_epoch : Z) : list (Z * EpochPhase) :=
  flat_map (fun e => [(e, Insert); (e, Initialize); (e, Execute)]) (seqZ 1 (g_max_epoch - 1)).

(** C8. The completion counter tells the end of a phase exactly. In every reachable
    state of a node, whatever the order in which cores flush their plans, plans of
    other nodes arrive and pieces are reported: no event aborts (the counter never
    becomes negative, no counter is addressed outside its array), and when the
    control routine is woken up, it runs the function of the current phase, every
    core has issued all its transactions, every plan has arrived and all the pieces
    of the phase for this node, local and remote, have been executed. *)
Theorem phase_ends_when_done C g_max_epoch per_core received c :
  Setup C g_max_epoch per_core received → reachable C g_max_epoch per_core received c →
  (∀ ev, match step C g_max_epoch per_core received ev c with Ok _ => True | Err f => f = Blocked end) ∧
  0 ≤ comp_count c ∧
  (∀ h, control c = Some h →
    h = handler_of (phase c) ∧ (∀ t, t ∈ cores C → stage c t = WDone) ∧ (∀ n, n ∈ others C → arrived c n = true) ∧
    executed c = all_pieces C per_core received (epoch_nr c) (phase c)).
Proof.
  intros S Hr. pose proof (setup_reachable_inv C _ _ _ S c Hr) as H. split; [|split].
  - intros ev. pose proof (setup_step_inv C _ _ _ S ev c H) as Hs. by destruct (step _ _ _ _ ev c).
  - destruct S. by apply (comp_bounds C g_max_epoch per_core received).
  - intros h Hh. pose proof (inv_control _ _ _ _ c H) as Hc. rewrite Hh in Hc. destruct (shut_down c); [done|].
    destruct (Z.eqb_spec (comp_count c) 0) as [H0|]; [|done]. split; [congruence|].
    assert (Hz := comp_zero C g_max_epoch per_core received). destruct S.
    destruct (Hz su_nodes0 su_id0 su_cores0 su_epochs0 su_per0 su_rec0 su_remote0 su_local0 c H H0) as (Hst & Har & Hex).
    split; [done|]. split; [done|]. rewrite Hex, available_eq. unfold all_pieces, avail. f_equal.
    apply sum_over_ext. intros t Ht. rewrite (Hst t Ht). cbn [issued]. lia.
Qed.

(** C9. Every run of a node goes through all its epochs: no run is infinite, as long as
    the node has not shut down some event can happen, and when it has shut down it
    has started the insert, initialize and execute phases of the epochs from 1 to
    [g_max_epoch - 1], each once and in that order. *)
Theorem epochs_run_to_completion C g_max_epoch per_core received c :
  Setup C g_max_epoch per_core received → reachable C g_max_epoch per_core received c →
  Acc (fun c' c => ∃ ev, step C g_max_epoch per_core received ev c = Ok c') c ∧
  (shut_down c = false → ∃ ev c', step C g_max_epoch per_core received ev c = Ok c') ∧
  (shut_down c = true → rev (log c) = all_phases g_max_epoch).
Proof.
  intros S Hr. pose proof (setup_reachable_inv C _ _ _ S c Hr) as H. split; [|split].
  - by apply steps_acc.
  - by apply progress.
  - intros Hs. destruct (inv_shut _ _ _ _ c H Hs) as (_ & Hp & He). rewrite (inv_log _ _ _ _ c H), Hp.
    pose proof (inv_epoch _ _ _ _ c H). unfold all_phases, history. replace (g_max_epoch - 1) with (epoch_nr c - 1 + 1) by lia.
    rewrite seqZ_app, flat_map_app by lia. f_equal. by replace (1 + (epoch_nr c - 1)) with (epoch_nr c) by lia.
Qed.

(** ** Witnesses *)

Module EpochSamples.
Definition C : Config := mkConfig 2 1 2.
(** every core sends three pieces to node 1, node 2 sends five *)
Definition per (_ : Z) (_ : EpochPhase) (_ : Z) : list Z := tab 64 (fun i => if i =? 0 then 3 else 0).
Definition rec (_ : Z) (_ : EpochPhase) (_ : Z) : list Z := 2 :: tab 64 (fun i => if i =? 2 then 5 else 0).
Definition run (evs : list Event) (c : result Client) : result Client :=
  foldl (fun c ev => c ← c; step C 2 per rec ev c) c evs.
Definition get (c : result Client) : Client := match c with Ok c => c | Err _ => new_client end.
Definition insert_phase : list Event :=
  [EvAlloc 0; EvAlloc 1; EvFlush 0; EvPieces 4; EvFlush 1; EvComplete 0; EvPlan 2; EvComplete 1; EvSecond 1; EvPieces 7].
Definition other_phase : list Event :=
  [EvReturn 0; EvReturn 1; EvFlush 1; EvPlan 2; EvFlush 0; EvPieces 11; EvComplete 0; EvSecond 0; EvComplete 1].
Definition whole_run : list Event := insert_phase ++ EvControl :: other_phase ++ EvControl :: other_phase ++ [EvControl].

Lemma run_reachable evs c : run evs (start C) = Ok c → reachable C 2 per rec c.
Proof.
  unfold run. revert c. induction evs as [|ev evs IH] using rev_ind; intros c E; [by apply reach_start|].
  rewrite foldl_app in E. cbn in E. apply bind_ok in E as (c0 & E0 & E). apply (reach_step _ _ _ _ c0 ev); [by apply IH|done].
Qed.

Lemma run_get evs : match run evs (start C) with Ok _ => true | Err _ => false end = true →
  reachable C 2 per rec (get (run evs (start C))).
Proof. intros H. apply run_reachable with evs. by destruct (run evs (start C)). Qed.

Lemma tab_ok k v : 0 ≤ v < 2 ^ 64 → cnts_ok C (tab 64 (fun i => if i =? k then v else 0)).
Proof.
  intros Hv. split; [done|]. apply Forall_forall. intros x Hx. apply list_elem_of_fmap in Hx as (i & -> & _). zcase; lia.
Qed.

Lemma sample_setup : Setup C 2 per rec.
Proof.
  split.
  - cbn. lia.
  - unfold node_ok. cbn. lia.
  - cbn. lia.
  - lia.
  - intros. apply tab_ok. lia.
  - intros. split; [apply tab_ok; lia|done].
  - intros. vm_compute. done.
  - intros. vm_compute. done.
Qed.
End EpochSamples.
Import EpochSamples.

Lemma phase_ends_when_done_witness :
  let c := get (run insert_phase (start EpochSamples.C)) in
  control c = Some OnInsertComplete ∧ executed c = 11 ∧
  (∀ h, control c = Some h → h = handler_of (phase c)) ∧ executed c = all_pieces EpochSamples.C EpochSamples.per rec 1 Insert.
Proof.
  destruct (phase_ends_when_done EpochSamples.C 2 EpochSamples.per rec (get (run insert_phase (start EpochSamples.C)))
    sample_setup) as (_ & _ & H).
  - apply run_get. by vm_compute.
  - cbn zeta. split; [by vm_compute|]. split; [by vm_compute|]. split; [intros h Hh; apply (H h Hh)|].
    by destruct (H OnInsertComplete ltac:(by vm_compute)) as (_ & _ & _ & E).
Defined.

Lemma epochs_run_to_completion_witness :
  let c := get (run whole_run (start EpochSamples.C)) in
  shut_down c = true ∧ rev (log c) = [(1, Insert); (1, Initialize); (1, Execute)].
Proof.
  destruct (epochs_run_to_completion EpochSamples.C 2 EpochSamples.per rec (get (run whole_run (start EpochSamples.C)))
    sample_setup) as (_ & _ & H).
  - apply run_get. by vm_compute.
  - cbn zeta. assert (E : shut_down (get (run whole_run (start EpochSamples.C))) = true) by by vm_compute.
    split; [exact E|exact (H E)].
Defined.

(** [CallTxns] relies on [IsReady], which reads [finished], being false once the
    workers are reset; a worker that was still returning from the previous phase
    then sets the flag again, before it runs *)
Lemma reset_flag_lost :
  let c := get (run (insert_phase ++ [EvControl; EvReturn 0]) (start EpochSamples.C)) in
  stage c 0 = Issuing ∧ finished c 0 = true ∧ phase c = Initialize.
Proof. by vm_compute. Qed.
