(* ===== verification/EpochTxns.v ===== *)
(** The transactions of the epochs (epoch.cc): their serial ids, the round-robin
    distribution over the cores, and the cores that run the transactions of cores
    beyond the limit. The workload's [CreateTxn] is a parameter. *)

From S2P Require Import Prelude Bits SqlTypes Piece BufferPlan PlanFacts PWVGraph.

Definition GenerateSerialId (node_id epoch_nr sequence : Z) : Z :=
  Z.lor (Z.lor (u64 (Z.shiftl epoch_nr 32)) (u64 (Z.shiftl sequence 8))) (Z.land node_id 0x00FF).

Section Txns.
Context {T : Type} (CreateTxn : Z → T).
Context (node_id g_nr_threads g_txn_per_epoch g_max_epoch : Z).

(** the transactions of one epoch, an array per core; [None] is a slot that has
    not been written *)
Abbreviation TxnSets := (list (list (option T))).

(** the number of slots of core [t] *)
Definition slots (t : Z) : Z :=
  Z.quot (i32 g_txn_per_epoch) g_nr_threads + (if t <? Z.rem (i32 g_txn_per_epoch) g_nr_threads then 1 else 0).

(** the constructor of [EpochTxnSet] *)
Definition EpochTxnSet_new : TxnSets := (fun t => replicate (Z.to_nat (slots t)) None) <$> seqZ 0 g_nr_threads.

(** [per_core_txns[t]->txns[pos] = x] *)
Definition put_txn (t pos : Z) (x : T) (s : TxnSets) : result TxnSets :=
  match s !! Z.to_nat t with
  | Some l => if (0 <=? t) && (0 <=? pos) && (pos <? len l)
              then Ok (<[Z.to_nat t := <[Z.to_nat pos := Some x]> l]> s) else Err OutOfRange
  | None => Err OutOfRange
  end.

(** the inner loop of [GenerateBenchmarks] *)
Definition generate_epoch (i : Z) (s : TxnSets) : result TxnSets :=
  for_each (fun j s =>
    let t := Z.rem (i32 (j - 1)) g_nr_threads in
    let pos := Z.quot (i32 (j - 1)) g_nr_threads in
    put_txn t pos (CreateTxn (GenerateSerialId node_id i j)) s) (seqZ 1 g_txn_per_epoch) s.

(** [GenerateBenchmarks]: [all_txns] *)
Definition GenerateBenchmarks : result (list TxnSets) :=
  for_each (fun i all => s ← generate_epoch i EpochTxnSet_new; Ok (all ++ [s])) (seqZ 1 (g_max_epoch - 1)) [].

(** [extra_offset] of [CallTxnsWorker::Run] on core [t] *)
Definition extra_offset (core_limit t : Z) : Z := sum_over slots (seqZ core_limit (t - core_limit)) mod core_limit.

(** the affinity it assigns to the [i]-th transaction of core [t]; [execute] is
    the test for the execution phase *)
Definition txn_affinity (execute : bool) (core_limit t i : Z) : Z :=
  if execute && (core_limit <=? t) then (i + extra_offset core_limit t) mod core_limit else t.

End Txns.

(** ** Serial ids *)

Lemma lor_mul_add a b k : 0 ≤ a → 0 ≤ k → 0 ≤ b < 2 ^ k → Z.lor (a * 2 ^ k) b = a * 2 ^ k + b.
Proof.
  intros Ha Hk Hb. symmetry. apply Z.add_nocarry_lor. apply Z.bits_inj'. intros j Hj.
  rewrite Z.land_spec, Z.bits_0, <- Z.shiftl_mul_pow2, Z.shiftl_spec by lia.
  destruct (Z_lt_le_dec j k); [by rewrite (Z.testbit_neg_r a) by lia|]. rewrite (testbit_high b k j) by lia. apply andb_false_r.
Qed.

Lemma serial_id_sum node e s : 0 ≤ node < 256 → 0 ≤ e < 2 ^ 32 → 0 ≤ s < 2 ^ 24 →
  GenerateSerialId node e s = e * 2 ^ 32 + s * 2 ^ 8 + node.
Proof.
  intros Hn He Hs. unfold GenerateSerialId. rewrite !Z.shiftl_mul_pow2, !u64_id by lia.
  rewrite lor_mul_add by lia. change 0x00FF with (Z.ones 8). rewrite Z.land_ones, Z.mod_small by lia.
  replace (e * 2 ^ 32 + s * 2 ^ 8) with ((e * 2 ^ 24 + s) * 2 ^ 8) by lia. rewrite lor_mul_add by lia. lia.
Qed.

(** from the 2^24-th transaction on, the sequence number runs into the epoch
    number: an id of an even epoch is also an id of the next one *)
Lemma serial_id_collides node e s : 0 ≤ e < 2 ^ 31 → 0 ≤ s < 2 ^ 24 → 0 ≤ node < 256 →
  GenerateSerialId node (2 * e) (2 ^ 24 + s) = GenerateSerialId node (2 * e + 1) s.
Proof.
  intros He Hs Hn. rewrite (serial_id_sum node (2 * e + 1) s) by lia. unfold GenerateSerialId.
  rewrite !Z.shiftl_mul_pow2, !u64_id by lia. change 0x00FF with (Z.ones 8). rewrite Z.land_ones, Z.mod_small by lia.
  replace (2 * e * 2 ^ 32) with (e * 2 ^ 33) by lia. rewrite lor_mul_add by lia.
  replace (e * 2 ^ 33 + (2 ^ 24 + s) * 2 ^ 8) with ((e * 2 ^ 25 + 2 ^ 24 + s) * 2 ^ 8) by lia. rewrite lor_mul_add by lia. lia.
Qed.

(** ** The distribution *)

Section Distribution.
Context {T : Type} (CreateTxn : Z → T).
Context (node_id g_nr_threads g_txn_per_epoch g_max_epoch : Z).
Hypothesis Hth : 0 < g_nr_threads.
Hypothesis Htx : 0 ≤ g_txn_per_epoch < 2 ^ 31.
Abbreviation th := g_nr_threads.
Abbreviation total := g_txn_per_epoch.
Abbreviation Slots := (slots th total).
Abbreviation Txn := (fun i k => CreateTxn (GenerateSerialId node_id i (k + 1))).

Lemma slots_eq t : Slots t = total / th + (if t <? total mod th then 1 else 0).
Proof using Hth Htx. unfold slots. rewrite i32_id by lia. rewrite Z.quot_div_nonneg, Z.rem_mod_nonneg by lia. done. Qed.

(** slot [pos] of core [t] exists exactly for the transaction it is meant for *)
Lemma slots_spec t pos : 0 ≤ t < th → 0 ≤ pos → pos < Slots t ↔ pos * th + t < total.
Proof using Hth Htx.
  intros Ht Hp. rewrite slots_eq. pose proof (Z.div_mod total th ltac:(lia)). pose proof (Z.mod_pos_bound total th Hth).
  zcase; split; intros; nia.
Qed.

Lemma slots_nonneg t : 0 ≤ Slots t.
Proof using Hth Htx. rewrite slots_eq. pose proof (Z.div_pos total th). zcase; lia. Qed.

(** the sets of an epoch after its first [k] transactions *)
Definition filled (i k : Z) : list (list (option T)) :=
  (fun t => (fun pos => if pos * th + t <? k then Some (Txn i (pos * th + t)) else None) <$> seqZ 0 (Slots t)) <$> seqZ 0 th.

Lemma filled_0 i : filled i 0 = EpochTxnSet_new (T := T) th total.
Proof using Hth Htx.
  unfold filled, EpochTxnSet_new. apply list_fmap_ext. intros k t Ht. apply lookup_seqZ in Ht as [-> Ht].
  apply list_eq. intros pos. rewrite list_lookup_fmap. destruct (decide (Z.of_nat pos < Slots (0 + Z.of_nat k))) as [Hp|Hp].
  - rewrite lookup_seqZ_lt, lookup_replicate_2 by lia. cbn [fmap option_fmap option_map].
    rewrite (proj2 (Z.ltb_ge _ _)) by nia. done.
  - rewrite lookup_seqZ_ge by lia. cbn. symmetry. apply lookup_ge_None. rewrite length_replicate. lia.
Qed.

Lemma put_filled i k : 0 ≤ k < total → put_txn (Z.rem k th) (Z.quot k th) (Txn i k) (filled i k) = Ok (filled i (k + 1)).
Proof using Hth Htx.
  intros Hk. rewrite Z.rem_mod_nonneg, Z.quot_div_nonneg by lia.
  pose proof (Z.mod_pos_bound k th Hth) as Hm. pose proof (Z.div_pos k th ltac:(lia) Hth) as Hd.
  pose proof (Z.div_mod k th ltac:(lia)) as Hdm.
  assert (Hp : k / th < Slots (k mod th)) by (apply slots_spec; lia).
  unfold put_txn, filled. rewrite list_lookup_fmap, lookup_seqZ_lt by lia. cbn [fmap option_fmap option_map].
  rewrite length_fmap, length_seqZ. replace (0 + Z.of_nat (Z.to_nat (k mod th))) with (k mod th) by lia.
  rewrite (proj2 (Z.leb_le 0 _)), (proj2 (Z.leb_le 0 (k / th))), (proj2 (Z.ltb_lt _ _)) by lia. cbn [andb]. f_equal.
  apply list_eq. intros t. destruct (decide (t = Z.to_nat (k mod th))) as [->|Hne].
  - rewrite list_lookup_insert_eq, list_lookup_fmap, lookup_seqZ_lt by (rewrite ?length_fmap, ?length_seqZ; lia).
    cbn [fmap option_fmap option_map]. f_equal. replace (0 + Z.of_nat (Z.to_nat (k mod th))) with (k mod th) by lia.
    apply list_eq. intros pos. destruct (decide (pos = Z.to_nat (k / th))) as [->|Hnp].
    + rewrite list_lookup_insert_eq, list_lookup_fmap, lookup_seqZ_lt by (rewrite ?length_fmap, ?length_seqZ; lia).
      cbn [fmap option_fmap option_map]. rewrite (proj2 (Z.ltb_lt _ _)) by lia. do 5 f_equal. lia.
    + rewrite list_lookup_insert_ne, !list_lookup_fmap by done.
      destruct (seqZ 0 (Slots (k mod th)) !! pos) as [p|] eqn:Ep; [|done]. apply lookup_seqZ in Ep as [-> Ep]. cbn. f_equal.
      assert (0 + Z.of_nat pos ≠ k / th) by lia. zcase; [done|nia|nia|done].
  - rewrite list_lookup_insert_ne, !list_lookup_fmap by done.
    destruct (seqZ 0 th !! t) as [t'|] eqn:Et; [|done]. apply lookup_seqZ in Et as [-> Et]. cbn. f_equal.
    apply list_fmap_ext. intros j p Hj. apply lookup_seqZ in Hj as [-> Hj]. assert (0 + Z.of_nat t ≠ k mod th) by lia.
    zcase; try done; exfalso; assert (E : k = (0 + Z.of_nat j) * th + (0 + Z.of_nat t)) by lia;
      apply H; apply (Z.mod_unique_pos k th (Z.of_nat j)); lia.
Qed.

Lemma generate_epoch_spec i : generate_epoch CreateTxn node_id th total i (EpochTxnSet_new th total) = Ok (filled i total).
Proof using Hth Htx.
  unfold generate_epoch.
  destruct (for_each_inv (fun j s => put_txn (Z.rem (i32 (j - 1)) th) (Z.quot (i32 (j - 1)) th)
      (CreateTxn (GenerateSerialId node_id i j)) s) (fun d s => s = filled i (len d)) (seqZ 1 total) (EpochTxnSet_new th total))
    as (s & -> & ->).
  - cbn. by rewrite filled_0.
  - intros d j r s Hseq ->. pose proof (f_equal length Hseq) as HL. rewrite length_app, length_seqZ in HL. cbn [length] in HL.
    assert (Hj : seqZ 1 total !! length d = Some j) by (rewrite Hseq, list_lookup_middle; done).
    apply lookup_seqZ in Hj as [-> Hj]. eexists. split; [|reflexivity]. rewrite length_app. cbn [length].
    replace (1 + Z.of_nat (length d) - 1) with (len d) by lia. rewrite i32_id by lia.
    replace (1 + len d) with (len d + 1) by lia. rewrite put_filled by lia. do 2 f_equal. lia.
  - rewrite length_seqZ. f_equal. f_equal. lia.
Qed.

End Distribution.

(** a number of consecutive integers below a bound *)
Lemma sum_over_below r k : 0 ≤ r ≤ k → sum_over (fun t => if t <? r then 1 else 0) (seqZ 0 k) = r.
Proof.
  intros H. replace k with (r + (k - r)) by lia. rewrite seqZ_app by lia. rewrite sum_over_app.
  rewrite (sum_over_ext _ (fun _ => 1)), sum_over_const, length_seqZ.
  - rewrite sum_over_zero; [lia|]. intros x Hx. apply elem_of_seqZ in Hx. rewrite (proj2 (Z.ltb_ge _ _)); lia.
  - intros x Hx. apply elem_of_seqZ in Hx. rewrite (proj2 (Z.ltb_lt _ _)); lia.
Qed.

Lemma slots_total th total : 0 < th → 0 ≤ total < 2 ^ 31 → sum_over (slots th total) (seqZ 0 th) = total.
Proof.
  intros Hth Htx. rewrite (sum_over_ext _ (fun t => total / th + (if t <? total mod th then 1 else 0)))
    by (intros; by apply slots_eq).
  rewrite sum_over_add, sum_over_const, length_seqZ.
  pose proof (Z.mod_pos_bound total th Hth). rewrite sum_over_below by lia. pose proof (Z.div_mod total th). nia.
Qed.

(** the ids follow the order of epochs and of sequence numbers *)
Lemma serial_id_order node e s e' s' :
  0 ≤ node < 256 → 0 ≤ e < 2 ^ 32 → 0 ≤ s < 2 ^ 24 → 0 ≤ e' < 2 ^ 32 → 0 ≤ s' < 2 ^ 24 →
  GenerateSerialId node e s < GenerateSerialId node e' s' ↔ e < e' ∨ e = e' ∧ s < s'.
Proof. intros. rewrite !serial_id_sum by lia. lia. Qed.

(** The transactions of every epoch are distributed evenly and completely over the
    cores: no slot is written outside its array, slot [pos] of core [t] holds the
    transaction number [pos * nr_threads + t + 1] of the epoch, no slot stays empty,
    the cores' shares add up to the number of transactions and differ by at most
    one; the serial ids order the transactions by epoch and then by number, so that
    no id is used twice, and give the number back to the dependency graph. *)
Theorem transactions_distributed {T} (CreateTxn : Z → T) node th total g_max_epoch :
  0 < th → 0 ≤ total < 2 ^ 24 → 1 ≤ g_max_epoch ≤ 2 ^ 32 → 0 ≤ node < 256 →
  GenerateBenchmarks CreateTxn node th total g_max_epoch = Ok ((fun e => (fun t =>
    (fun pos => Some (CreateTxn (GenerateSerialId node e (pos * th + t + 1)))) <$> seqZ 0 (slots th total t)) <$> seqZ 0 th)
    <$> seqZ 1 (g_max_epoch - 1)) ∧
  sum_over (slots th total) (seqZ 0 th) = total ∧
  (∀ t t', 0 ≤ t < th → 0 ≤ t' < th → Z.abs (slots th total t - slots th total t') ≤ 1) ∧
  (∀ e s e' s', 1 ≤ e < g_max_epoch → 1 ≤ s ≤ total → 1 ≤ e' < g_max_epoch → 1 ≤ s' ≤ total →
    (GenerateSerialId node e s < GenerateSerialId node e' s' ↔ e < e' ∨ e = e' ∧ s < s') ∧
    from_serial_id total (GenerateSerialId node e s) = Ok s).
Proof.
  intros Hth Htx Hm Hn. split; [|split; [apply slots_total; lia|split]].
  - unfold GenerateBenchmarks.
    destruct (for_each_inv (fun i all => s ← generate_epoch CreateTxn node th total i (EpochTxnSet_new th total); Ok (all ++ [s]))
      (fun d all => all = (fun i => filled CreateTxn node th total i total) <$> d) (seqZ 1 (g_max_epoch - 1)) [])
      as (all & -> & ->); [done| |].
    + intros d i r all _ ->. rewrite generate_epoch_spec by lia. cbn. eexists. split; [done|]. by rewrite fmap_app.
    + f_equal. apply list_fmap_ext. intros _ e _. unfold filled. apply list_fmap_ext. intros k t Ht. apply lookup_seqZ in Ht as [-> Ht].
      apply list_fmap_ext. intros j p Hj. apply lookup_seqZ in Hj as [-> Hj].
      rewrite (proj2 (Z.ltb_lt _ _)); [done|]. apply slots_spec; lia.
  - intros t t' _ _. rewrite !slots_eq by lia. zcase; lia.
  - intros e s e' s' He Hs He' Hs'. split; [apply serial_id_order; lia|].
    unfold from_serial_id, seq_of. rewrite serial_id_sum, Z.shiftr_div_pow2, Z.land_comm by lia.
    change 0x00FFFFFF with (Z.ones 24). rewrite Z.land_ones by lia.
    replace ((e * 2 ^ 32 + s * 2 ^ 8 + node) / 2 ^ 8) with (e * 2 ^ 24 + s) by (apply Z.div_unique with node; lia).
    replace ((e * 2 ^ 24 + s) mod 2 ^ 24) with s by (apply Z.mod_unique with e; lia). zcase; done || lia.
Qed.

Lemma transactions_distributed_witness :
  GenerateBenchmarks (fun sid => sid) 1 2 5 2 =
    Ok [[[Some (2 ^ 32 + 257); Some (2 ^ 32 + 769); Some (2 ^ 32 + 1281)]; [Some (2 ^ 32 + 513); Some (2 ^ 32 + 1025)]]].
Proof. destruct (transactions_distributed (fun sid => sid) 1 2 5 2) as (E & _); [lia..|]. rewrite E. by vm_compute. Defined.

(** in the execution phase the transactions of the cores beyond the limit are
    spread round-robin over the cores below it: the one with index [k] among them
    runs on core [k mod core_limit] *)
Lemma surplus_round_robin th total core_limit t i :
  0 < core_limit ≤ t → 0 ≤ i →
  txn_affinity th total true core_limit t i =
    (sum_over (slots th total) (seqZ core_limit (t - core_limit)) + i) mod core_limit ∧
  0 ≤ txn_affinity th total true core_limit t i < core_limit.
Proof.
  intros Hc Hi. unfold txn_affinity, extra_offset. rewrite (proj2 (Z.leb_le _ _)) by lia. cbn [andb].
  rewrite Zplus_mod_idemp_r. split; [f_equal; lia|]. apply Z.mod_pos_bound. lia.
Qed.
