(* ===== verification/EpochMem.v ===== *)
(** Memory that lives for one epoch (epoch.cc/.h): the allocator of pieces with a
    small bump allocator inside a large one, and the objects that are addressed by
    epoch, node and offset. *)

From S2P Require Import Prelude Bits Mem MemProps.

Definition CACHE_LINE_SIZE : Z := 64.
Definition kEpochPromiseMiniBrkSize : Z := 4 * CACHE_LINE_SIZE.
Definition kEpochPromiseAllocationWorkerLimit : Z := M_ 4096.
Definition kEpochPromiseAllocationMainLimit : Z := M_ 64.
Definition kEpochMemoryLimitPerCore : Z := M_ 16.

(** ** EpochPromiseAllocationService *)

(** [brks[i]] and [minibrks[i]] of one thread *)
Record PromiseMem := mkPM { pm_brk : Brk; pm_mini : Brk }.

(** a mini allocator inside a block of the large one *)
Definition new_mini (b : Brk) : result (Brk * Brk) :=
  '(p, b) ← Brk_Alloc b kEpochPromiseMiniBrkSize; Ok (Brk_New p kEpochPromiseMiniBrkSize, b).

(** the constructor: thread [i]'s buffer at [buf i], thread 0 is the main one *)
Definition promise_limit (nr_threads i : Z) : Z :=
  if i =? 0 then kEpochPromiseAllocationMainLimit else kEpochPromiseAllocationWorkerLimit / nr_threads.
Definition PromiseMem_new (nr_threads i buf : Z) : result PromiseMem :=
  '(m, b) ← new_mini (Brk_New buf (promise_limit nr_threads i)); Ok (mkPM b m).

(** [EpochPromiseAllocationService::Alloc] on one thread: the new mini allocator
    is used for this request and not kept *)
Definition Promise_Alloc (m : PromiseMem) (size : Z) : result (Z * PromiseMem) :=
  if size <? CACHE_LINE_SIZE then
    if negb (Brk_Check (pm_mini m) size) then
      '(b, brk) ← new_mini (pm_brk m);
      '(p, _) ← Brk_Alloc b size;
      Ok (p, mkPM brk (pm_mini m))
    else
      '(p, b) ← Brk_Alloc (pm_mini m) size; Ok (p, mkPM (pm_brk m) b)
  else
    '(p, b) ← Brk_Alloc (pm_brk m) (Align size CACHE_LINE_SIZE); Ok (p, mkPM b (pm_mini m)).

(** [EpochPromiseAllocationService::Reset] on one thread *)
Definition Promise_Reset (m : PromiseMem) : result PromiseMem :=
  '(b, brk) ← new_mini (Brk_Reset (pm_brk m)); Ok (mkPM brk b).

(** a series of requests: address and size *)
Fixpoint promise_all (m : PromiseMem) (sizes : list Z) : result (list (Z * Z) * PromiseMem) :=
  match sizes with
  | [] => Ok ([], m)
  | s :: sizes => '(p, m) ← Promise_Alloc m s; '(l, m) ← promise_all m sizes; Ok ((p, s) :: l, m)
  end.

(** ** EpochMemory, Epoch and EpochManager *)

(** [node_mem]: the buffer of every node, and the allocators of this node's cores *)
Record EpochMemory := mkEM { mmap_buf : Z → Z; em_brks : Z → Brk }.
Record EpochManager := mkMgr { em : EpochMemory; cur_epoch_nr : Z }.

Section Manager.
Context (node_id nr_threads : Z).

(** [EpochMemory::Reset] *)
Definition EpochMemory_Reset (m : EpochMemory) : EpochMemory :=
  mkEM (mmap_buf m) (fun t => if (0 <=? t) && (t <? nr_threads)
    then Brk_New (mmap_buf m (node_id - 1) + t * kEpochMemoryLimitPerCore) kEpochMemoryLimitPerCore else em_brks m t).

(** [DoAdvance]: the constructor of the new [Epoch] resets the memory *)
Definition DoAdvance (g : EpochManager) : EpochManager := mkMgr (EpochMemory_Reset (em g)) (u64 (cur_epoch_nr g + 1)).

(** [EpochManager::ptr] *)
Definition ptr (g : EpochManager) (epoch_nr node offset : Z) : result Z :=
  _ ← abort_if (negb (epoch_nr =? cur_epoch_nr g)); Ok (mmap_buf (em g) (node - 1) + offset).

(** [EpochObject] *)
Record EpochObject := mkObj { o_epoch : Z; o_node : Z; o_offset : Z }.

(** [AllocateEpochObjectOnCurrentNode<T>] on core [core_id], [sz] is [sizeof(T)] *)
Definition AllocateEpochObject (g : EpochManager) (core_id sz : Z) : result (EpochObject * EpochManager) :=
  _ ← abort_if (core_id <? 0);
  '(p, b) ← Brk_Alloc (em_brks (em g) core_id) sz;
  Ok (mkObj (cur_epoch_nr g) node_id (u64 (p - mmap_buf (em g) (node_id - 1))),
      mkMgr (mkEM (mmap_buf (em g)) (<[core_id := b]> (em_brks (em g)))) (cur_epoch_nr g)).

(** [GenericEpochObject::operator->] *)
Definition deref (g : EpochManager) (o : EpochObject) : result Z := ptr g (o_epoch o) (o_node o) (o_offset o).

(** [EpochObject::Convert] *)
Definition Convert (g : EpochManager) (p : Z) : result EpochObject :=
  base ← ptr g (cur_epoch_nr g) node_id 0; Ok (mkObj (cur_epoch_nr g) node_id (u64 (p - base))).

End Manager.

(** ** One request *)

Definition wf_brk (b : Brk) : Prop := 0 ≤ b_offset b ≤ b_limit b ∧ b_limit b ≤ 2 ^ 62.

Lemma Brk_Alloc_ok b s p b' : wf_brk b → 0 < s ≤ 2 ^ 62 → Brk_Alloc b s = Ok (p, b') →
  p = b_data b + b_offset b ∧ ∃ a, s ≤ a < s + 16 ∧ a mod 16 = 0 ∧ b' = mkBrk (b_offset b + a) (b_limit b) (b_data b) ∧
  b_offset b + a ≤ b_limit b.
Proof.
  intros [Hb Hl] Hs. destruct (Align_ok s 16 ltac:(lia) Hs) as [Ha Hm]. unfold Brk_Alloc. rewrite u64_id by lia.
  cbn [b_limit b_data]. destruct (Z.ltb_spec (b_limit b) (b_offset b + Align s 16)); [done|]. intros [= <- <-].
  split; [done|]. exists (Align s 16). split; [lia|]. split; [done|]. split; [done|lia].
Qed.

Lemma new_mini_ok b m b' : wf_brk b → new_mini b = Ok (m, b') →
  m = mkBrk 0 224 (b_data b + b_offset b + 32) ∧ b' = mkBrk (b_offset b + 256) (b_limit b) (b_data b) ∧
  b_offset b + 256 ≤ b_limit b.
Proof.
  intros Hb H. unfold new_mini in H. inv_ok. destruct v as [p b1]. inv_ok. unfold Brk_Alloc in E. destruct Hb.
  change (Align kEpochPromiseMiniBrkSize 16) with 256 in E. rewrite u64_id in E by lia. cbn [b_limit b_data] in E.
  destruct (Z.ltb_spec (b_limit b) (b_offset b + 256)); [done|]. by injection E as <- <-.
Qed.

(** ** The blocks of a thread *)

(** two blocks that do not overlap *)
Definition apart (x y : Z * Z) : Prop := x.1 + x.2 ≤ y.1 ∨ y.1 + y.2 ≤ x.1.

(** the blocks [l] are below the large allocator's offset, and outside what is free
    in the mini allocator, which lies in one of its blocks *)
Record PMInv (m : PromiseMem) (l : list (Z * Z)) : Prop := {
  pm_wf : wf_brk (pm_brk m) ∧ wf_brk (pm_mini m);
  pm_align : b_offset (pm_mini m) mod 16 = 0 ∧ b_limit (pm_mini m) mod 16 = 0;
  pm_in : b_data (pm_brk m) ≤ b_data (pm_mini m) ∧
          b_data (pm_mini m) + b_limit (pm_mini m) ≤ b_data (pm_brk m) + b_offset (pm_brk m);
  pm_blocks : ∀ p s, (p, s) ∈ l → b_data (pm_brk m) ≤ p ∧ p + s ≤ b_data (pm_brk m) + b_offset (pm_brk m) ∧
          (p + s ≤ b_data (pm_mini m) + b_offset (pm_mini m) ∨ b_data (pm_mini m) + b_limit (pm_mini m) ≤ p);
  pm_apart : ∀ i j x y, i ≠ j → l !! i = Some x → l !! j = Some y → apart x y;
}.

Lemma apart_snoc l x : (∀ i j x y, i ≠ j → l !! i = Some x → l !! j = Some y → apart x y) → (∀ y, y ∈ l → apart y x) →
  ∀ i j y z, i ≠ j → (l ++ [x]) !! i = Some y → (l ++ [x]) !! j = Some z → apart y z.
Proof.
  intros Hl Hx i j y z Hij. rewrite !lookup_app_Some, !list_lookup_singleton_Some.
  intros [Hi|[Hi [Hi0 <-]]] [Hj|[Hj [Hj0 <-]]].
  - by apply (Hl i j).
  - by apply Hx, (list_elem_of_lookup_2 _ i).
  - destruct (Hx z) as [?|?]; [by apply (list_elem_of_lookup_2 _ j)|by right|by left].
  - lia.
Qed.

(** the request fits whenever the check of the mini allocator says so *)
Lemma mini_fits b s : wf_brk b → b_offset b mod 16 = 0 → b_limit b mod 16 = 0 → 0 < s < 64 → Brk_Check b s = true →
  ∃ p b', Brk_Alloc b s = Ok (p, b').
Proof.
  intros [Hb Hl] Ho Hm Hs Hc. destruct (Align_ok s 16 ltac:(lia) ltac:(lia)) as [Ha Hma]. unfold Brk_Check in Hc.
  rewrite u64_id in Hc by lia. zprop. unfold Brk_Alloc. rewrite u64_id by lia. cbn [b_limit b_data].
  destruct (Z.ltb_spec (b_limit b) (b_offset b + Align s 16)); [|by eexists _, _]. exfalso.
  pose proof (Z.div_mod (b_offset b) 16). pose proof (Z.div_mod (b_limit b) 16). pose proof (Z.div_mod (Align s 16) 16). lia.
Qed.

Lemma Promise_Alloc_inv m l s p m' : PMInv m l → 0 < s ≤ 2 ^ 61 → Promise_Alloc m s = Ok (p, m') →
  PMInv m' (l ++ [(p, s)]) ∧ b_data (pm_brk m') = b_data (pm_brk m) ∧ b_limit (pm_brk m') = b_limit (pm_brk m).
Proof.
  intros [[Hw Hwm] [Hao Hal] Hin Hbl Hap] Hs H. pose proof Hw as [Hw1 Hw2]. pose proof Hwm as [Hm1 Hm2].
  unfold Promise_Alloc in H. destruct (Z.ltb_spec s CACHE_LINE_SIZE) as [Hlt|Hge]; unfold CACHE_LINE_SIZE in *.
  - destruct (Brk_Check (pm_mini m) s); cbn [negb] in H; inv_ok.
    + destruct v as [q b]. inv_ok. destruct (Brk_Alloc_ok (pm_mini m) s _ _ Hwm ltac:(lia) E) as (-> & a & Ha & Hma & -> & Hle).
      cbn. split; [|done]. split; cbn; [split; [done|split; cbn; lia]| |done| |].
      * split; [by rewrite Z.add_mod, Hao, Hma|done].
      * intros q t [Hq|[= -> ->]%list_elem_of_singleton]%elem_of_app; [specialize (Hbl q t Hq)|]; lia.
      * apply apart_snoc; [done|]. intros [q t] Hq. specialize (Hbl q t Hq). unfold apart. cbn. lia.
    + destruct v as [mb brk]. destruct (new_mini_ok _ _ _ Hw E) as (-> & -> & Hle). inv_ok. destruct v as [q b]. inv_ok.
      destruct (Brk_Alloc_ok (mkBrk 0 224 (b_data (pm_brk m) + b_offset (pm_brk m) + 32)) s p b) as (-> & a & Ha & _ & _ & Hla);
        [split; cbn; lia|lia|done|]. cbn in *. split; [|done]. split; cbn; [|done|lia| |].
      * split; [split; cbn; lia|done].
      * intros q t [Hq|[= -> ->]%list_elem_of_singleton]%elem_of_app; [specialize (Hbl q t Hq)|]; lia.
      * apply apart_snoc; [done|]. intros [q t] Hq. specialize (Hbl q t Hq). unfold apart. cbn. lia.
  - inv_ok. destruct v as [q b]. inv_ok. destruct (Align_ok s 64 ltac:(lia) ltac:(lia)) as [Hsa _].
    destruct (Brk_Alloc_ok (pm_brk m) (Align s 64) _ _ Hw ltac:(lia) E) as (-> & a & Ha & _ & -> & Hle). cbn. split; [|done].
    split; cbn; [|done|lia| |].
    + split; [split; cbn; lia|done].
    + intros q t [Hq|[= -> ->]%list_elem_of_singleton]%elem_of_app; [specialize (Hbl q t Hq)|]; lia.
    + apply apart_snoc; [done|]. intros [q t] Hq. specialize (Hbl q t Hq). unfold apart. cbn. lia.
Qed.

Lemma promise_all_inv sizes : ∀ m l l' m', PMInv m l → Forall (fun s => 0 < s ≤ 2 ^ 61) sizes →
  promise_all m sizes = Ok (l', m') →
  PMInv m' (l ++ l') ∧ l'.*2 = sizes ∧ b_data (pm_brk m') = b_data (pm_brk m) ∧ b_limit (pm_brk m') = b_limit (pm_brk m).
Proof.
  induction sizes as [|s sizes IH]; intros m l l' m' Hi Hs H; cbn in H; inv_ok.
  { by rewrite app_nil_r. }
  apply Forall_cons in Hs as [Hs0 Hs]. destruct v as [p m1]. inv_ok. destruct v as [l1 m2]. inv_ok.
  destruct (Promise_Alloc_inv m l s p m1 Hi Hs0 E) as (H1 & H2 & H3).
  destruct (IH m1 (l ++ [(p, s)]) l1 m' H1 Hs E0) as (H4 & H5 & H6 & H7).
  rewrite <- app_assoc in H4. split; [exact H4|]. split; [cbn; by rewrite H5|]. split; congruence.
Qed.

Lemma reset_inv m m0 : 0 ≤ b_limit (pm_brk m) ≤ 2 ^ 62 → Promise_Reset m = Ok m0 → PMInv m0 [] ∧
  b_data (pm_brk m0) = b_data (pm_brk m) ∧ b_limit (pm_brk m0) = b_limit (pm_brk m).
Proof.
  intros Hl H. unfold Promise_Reset in H. inv_ok. destruct v as [b brk]. inv_ok.
  destruct (new_mini_ok (Brk_Reset (pm_brk m)) b brk ltac:(split; cbn; lia) E) as (-> & -> & Hle). cbn in *.
  split; [|done]. split; cbn; [|done|lia| |done].
  - split; split; cbn; lia.
  - intros p s []%elem_of_nil.
Qed.

(** The pieces of an epoch do not overlap: between two resets of the promise
    allocator every block a thread is given, small objects in mini allocators or
    whole cache lines, lies inside the thread's buffer and is apart from all its
    other blocks; and a small request that passes the check of the mini allocator
    is always served, although the check does not round the size up. *)
Theorem promise_blocks_apart m m0 sizes l m' :
  0 ≤ b_limit (pm_brk m) ≤ 2 ^ 62 → Forall (fun s => 0 < s ≤ 2 ^ 61) sizes →
  Promise_Reset m = Ok m0 → promise_all m0 sizes = Ok (l, m') →
  l.*2 = sizes ∧
  (∀ p s, (p, s) ∈ l → b_data (pm_brk m) ≤ p ∧ p + s ≤ b_data (pm_brk m) + b_limit (pm_brk m)) ∧
  (∀ i j x y, i ≠ j → l !! i = Some x → l !! j = Some y → apart x y) ∧
  (∀ s, 0 < s < CACHE_LINE_SIZE → Brk_Check (pm_mini m') s = true → ∃ p m2, Promise_Alloc m' s = Ok (p, m2)).
Proof.
  intros Hl Hs Hr Ha. destruct (reset_inv m m0 Hl Hr) as (Hi & Hd & Hlim).
  destruct (promise_all_inv sizes m0 [] l m' Hi Hs Ha) as (Hi' & Hsz & Hd' & Hl'). cbn [app] in Hi'.
  split; [done|]. split; [|split].
  - intros p s Hin. destruct (pm_blocks _ _ Hi' p s Hin) as (H1 & H2 & _). destruct (pm_wf _ _ Hi') as [[Hw _] _].
    rewrite <- Hd, <- Hlim, <- Hd', <- Hl'. lia.
  - apply (pm_apart _ _ Hi').
  - intros s Hs0 Hc. destruct (pm_wf _ _ Hi') as [_ Hw], (pm_align _ _ Hi').
    destruct (mini_fits (pm_mini m') s Hw) as (p & b & E); [done|done|done|done|]. unfold Promise_Alloc.
    rewrite (proj2 (Z.ltb_lt _ _)), Hc, E by lia. by eexists _, _.
Qed.

Lemma promise_blocks_apart_witness :
  ∃ l m', promise_all (mkPM (mkBrk 256 4064 32) (mkBrk 0 224 64)) [40; 200; 200; 40; 100] = Ok (l, m') ∧
  l = [(64, 40); (288, 200); (544, 200); (112, 40); (800, 100)] ∧ (∀ i j x y, i ≠ j → l !! i = Some x → l !! j = Some y → apart x y).
Proof.
  eexists _, _. split; [by vm_compute|]. split; [done|].
  eapply (promise_blocks_apart (mkPM (mkBrk 9 4064 32) (mkBrk 0 0 0)) _ [40; 200; 200; 40; 100]);
    [cbn; lia|repeat constructor; lia|by vm_compute|by vm_compute].
Defined.

(** a mini allocator that is full stays in use: every further small request takes a
    new one of 256 bytes for itself *)
Lemma mini_brk_not_kept m s p m' : wf_brk (pm_brk m) → s < CACHE_LINE_SIZE → Brk_Check (pm_mini m) s = false →
  Promise_Alloc m s = Ok (p, m') → pm_mini m' = pm_mini m ∧ b_offset (pm_brk m') = b_offset (pm_brk m) + 256.
Proof.
  intros Hw Hs Hc H. unfold Promise_Alloc in H. rewrite (proj2 (Z.ltb_lt _ _)), Hc in H by done. cbn [negb] in H. inv_ok.
  destruct v as [b brk]. inv_ok. destruct v as [q b1]. inv_ok. by destruct (new_mini_ok _ _ _ Hw E) as (_ & -> & _).
Qed.

(** ** Objects of an epoch *)

(** objects allocated by the cores, in order *)
Fixpoint alloc_objects (node_id : Z) (g : EpochManager) (reqs : list (Z * Z)) : result (list (EpochObject * Z) * EpochManager) :=
  match reqs with
  | [] => Ok ([], g)
  | (core, sz) :: reqs =>
      '(o, g) ← AllocateEpochObject node_id g core sz;
      '(l, g) ← alloc_objects node_id g reqs;
      Ok ((o, sz) :: l, g)
  end.

Section Objects.
Context (node_id nr_threads : Z).
Hypothesis Hth : 0 < nr_threads ≤ 32.

(** the range of an object within its node's buffer *)
Definition extent (x : EpochObject * Z) : Z * Z := (o_offset x.1, x.2).

Record ObjInv (g : EpochManager) (l : list (EpochObject * Z)) : Prop := {
  oi_brks : ∀ t, 0 ≤ t < nr_threads → wf_brk (em_brks (em g) t) ∧ b_limit (em_brks (em g) t) = kEpochMemoryLimitPerCore - 32 ∧
    b_data (em_brks (em g) t) = mmap_buf (em g) (node_id - 1) + t * kEpochMemoryLimitPerCore + 32;
  oi_objs : ∀ x, x ∈ l → o_epoch x.1 = cur_epoch_nr g ∧ o_node x.1 = node_id ∧ ∃ t, 0 ≤ t < nr_threads ∧
    t * kEpochMemoryLimitPerCore + 32 ≤ o_offset x.1 ∧
    o_offset x.1 + x.2 ≤ t * kEpochMemoryLimitPerCore + 32 + b_offset (em_brks (em g) t);
  oi_apart : ∀ i j x y, i ≠ j → (extent <$> l) !! i = Some x → (extent <$> l) !! j = Some y → apart x y;
}.

Lemma advance_inv g : ObjInv (DoAdvance node_id nr_threads g) [].
Proof using Hth.
  split; cbn; [|intros x []%elem_of_nil|done]. intros t Ht. rewrite (proj2 (Z.leb_le 0 t)), (proj2 (Z.ltb_lt _ _)) by lia. cbn.
  split; [|done]. split; cbn; vm_compute; done.
Qed.

Lemma allocate_inv g l core sz o g' : ObjInv g l → 0 ≤ core < nr_threads → 0 < sz ≤ 2 ^ 62 →
  AllocateEpochObject node_id g core sz = Ok (o, g') →
  ObjInv g' (l ++ [(o, sz)]) ∧ mmap_buf (em g') = mmap_buf (em g) ∧ cur_epoch_nr g' = cur_epoch_nr g.
Proof using Hth.
  intros [Hb Ho Ha] Hc Hs H. unfold AllocateEpochObject in H. rewrite (proj2 (Z.ltb_ge _ _)) in H by lia. cbn in H. inv_ok.
  destruct v as [p b]. inv_ok. destruct (Hb core Hc) as (Hw & Hl & Hd).
  destruct (Brk_Alloc_ok _ sz _ _ Hw ltac:(lia) E) as (-> & a & Hsa & _ & -> & Hle). split; [|done]. destruct Hw as [Hw _].
  assert (HK : kEpochMemoryLimitPerCore = 16777216) by done.
  assert (Hoff : u64 (b_data (em_brks (em g) core) + b_offset (em_brks (em g) core) - mmap_buf (em g) (node_id - 1)) =
    core * kEpochMemoryLimitPerCore + 32 + b_offset (em_brks (em g) core)) by (rewrite u64_id; lia).
  split; cbn.
  - intros t Ht. destruct (decide (t = core)) as [->|Hne].
    + rewrite fn_lookup_insert. cbn. split; [|done]. split; cbn; lia.
    + rewrite fn_lookup_insert_ne by done. by apply Hb.
  - intros x [Hx|Hx%list_elem_of_singleton]%elem_of_app; [|subst x].
    + destruct (Ho x Hx) as (H1 & H2 & t & Ht & H3 & H4). split; [done|]. split; [done|]. exists t. split; [done|]. split; [done|].
      destruct (decide (t = core)) as [->|Hne]; [rewrite fn_lookup_insert; cbn; lia|by rewrite fn_lookup_insert_ne].
    + cbn. split; [done|]. split; [done|]. exists core. rewrite fn_lookup_insert, Hoff. cbn. lia.
  - rewrite fmap_app. apply apart_snoc; [done|]. intros y Hy. apply list_elem_of_fmap in Hy as (x & -> & Hx).
    destruct (Ho x Hx) as (_ & _ & t & Ht & H3 & H4). unfold apart, extent. cbn. rewrite Hoff.
    destruct (decide (t = core)) as [->|Hne]; [lia|]. destruct (Hb t Ht) as ([[_ Hwt] _] & Hlt & _). rewrite Hlt in Hwt.
    destruct (Z_lt_le_dec t core); [left|right]; nia.
Qed.

Lemma alloc_objects_inv reqs : ∀ g l l' g', ObjInv g l → Forall (fun r => 0 ≤ r.1 < nr_threads ∧ 0 < r.2 ≤ 2 ^ 62) reqs →
  alloc_objects node_id g reqs = Ok (l', g') →
  ObjInv g' (l ++ l') ∧ mmap_buf (em g') = mmap_buf (em g) ∧ cur_epoch_nr g' = cur_epoch_nr g.
Proof using Hth.
  induction reqs as [|[core sz] reqs IH]; intros g l l' g' Hi Hr H; cbn in H; inv_ok; [by rewrite app_nil_r|].
  apply Forall_cons in Hr as [[Hc Hs] Hr]. destruct v as [o g1]. inv_ok. destruct v as [l1 g2]. inv_ok. cbn in Hc, Hs.
  destruct (allocate_inv g l core sz o g1 Hi Hc Hs E) as (H1 & H2 & H3).
  destruct (IH g1 (l ++ [(o, sz)]) l1 g' H1 Hr E0) as (H4 & H5 & H6). rewrite <- app_assoc in H4.
  split; [exact H4|]. split; congruence.
Qed.

End Objects.

(** Objects of an epoch: the objects the cores allocate in an epoch do not overlap
    in the node's buffer; each is found again at its address, and the address
    converts back to the same object, as long as the epoch lasts; in the next
    epoch the reference is rejected. *)
Theorem epoch_objects_resolve node_id nr_threads g reqs l g' :
  0 < nr_threads ≤ 32 → 0 ≤ cur_epoch_nr g → Forall (fun r => 0 ≤ r.1 < nr_threads ∧ 0 < r.2 ≤ 2 ^ 62) reqs →
  alloc_objects node_id (DoAdvance node_id nr_threads g) reqs = Ok (l, g') →
  (∀ i j x y, i ≠ j → (extent <$> l) !! i = Some x → (extent <$> l) !! j = Some y → apart x y) ∧
  (∀ o sz, (o, sz) ∈ l →
    (∃ p, deref g' o = Ok p ∧ Convert node_id g' p = Ok o) ∧
    deref (DoAdvance node_id nr_threads g') o = Err Aborted).
Proof.
  intros Hth He Hr Ha.
  destruct (alloc_objects_inv node_id nr_threads Hth reqs _ [] l g' (advance_inv node_id nr_threads Hth g) Hr Ha) as (Hi & _ & Hep).
  cbn [app] in Hi. split; [apply (oi_apart _ _ _ _ Hi)|]. intros o sz Hin.
  destruct (oi_objs _ _ _ _ Hi (o, sz) Hin) as (H1 & H2 & t & Ht & H3 & H4). cbn [fst snd] in *.
  assert (HK : kEpochMemoryLimitPerCore = 16777216) by done.
  destruct (oi_brks _ _ _ _ Hi t Ht) as ([Hw _] & Hl & _).
  assert (Hsz : 0 < sz).
  { assert (Hz : ∀ reqs g l g', Forall (fun r => 0 ≤ r.1 < nr_threads ∧ 0 < r.2 ≤ 2 ^ 62) reqs →
      alloc_objects node_id g reqs = Ok (l, g') → ∀ x, x ∈ l → 0 < x.2).
    { clear. induction reqs as [|[c s] reqs IH]; intros g l g' Hr H x Hx; cbn in H; inv_ok; [by apply elem_of_nil in Hx|].
      destruct v as [o g1]. inv_ok. destruct v as [l1 g2]. inv_ok. apply Forall_cons in Hr as [[_ Hs] Hr].
      apply elem_of_cons in Hx as [->|Hx]; [cbn in *; lia|]. by apply (IH g1 l1 g'). }
    by apply (Hz reqs _ l g' Hr Ha (o, sz)). }
  assert (Ho : 0 ≤ o_offset o < 2 ^ 64) by lia. split.
  - exists (mmap_buf (em g') (node_id - 1) + o_offset o). unfold deref, Convert, ptr. rewrite H1, H2, Z.eqb_refl. cbn.
    split; [done|]. rewrite Z.add_0_r, Z.add_simpl_l, u64_id by done. destruct o. cbn in *. by subst.
  - unfold deref, ptr. rewrite H1. cbn [cur_epoch_nr DoAdvance].
    destruct (Z.eqb_spec (cur_epoch_nr g') (u64 (cur_epoch_nr g' + 1))) as [E|]; [|done]. exfalso.
    unfold u64 in E. destruct (decide (0 ≤ cur_epoch_nr g' < 2 ^ 64)) as [Hc|Hc].
    + destruct (decide (cur_epoch_nr g' + 1 = 2 ^ 64)) as [E1|]; [rewrite E1, Z.mod_same in E; lia|rewrite Z.mod_small in E; lia].
    + pose proof (Z.mod_pos_bound (cur_epoch_nr g' + 1) (2 ^ 64)). lia.
Qed.

Lemma epoch_objects_resolve_witness :
  let g := mkMgr (mkEM (fun n => 4096 + n * 2 ^ 32) (fun _ => mkBrk 0 0 0)) 0 in
  match alloc_objects 2 (DoAdvance 2 2 g) [(0, 8); (1, 24); (0, 100)] with
  | Ok (l, g') => l = [(mkObj 1 2 32, 8); (mkObj 1 2 16777248, 24); (mkObj 1 2 48, 100)] ∧
      deref (DoAdvance 2 2 g') (mkObj 1 2 48) = Err Aborted
  | Err _ => False
  end.
Proof.
  cbn zeta. set (g := mkMgr _ 0).
  assert (El : fst <$> alloc_objects 2 (DoAdvance 2 2 g) [(0, 8); (1, 24); (0, 100)] =
    Ok [(mkObj 1 2 32, 8); (mkObj 1 2 16777248, 24); (mkObj 1 2 48, 100)]) by (vm_compute; reflexivity).
  pose proof (epoch_objects_resolve 2 2 g [(0, 8); (1, 24); (0, 100)]) as H.
  destruct (alloc_objects 2 (DoAdvance 2 2 g) [(0, 8); (1, 24); (0, 100)]) as [[l g']|]; [|done].
  injection El as El. cbn in El. subst l. split; [done|].
  specialize (H _ g' ltac:(lia) ltac:(cbn; lia) ltac:(repeat constructor; cbn; lia) eq_refl). destruct H as [_ H2].
  apply (H2 _ 100). right. right. left.
Defined.
