(* ===== verification/LocalDispatch.v ===== *)
(** The local dispatcher (node_config.cc/.h [LocalDispatcherImpl], [Flushable]): a
    thread buffers the routines it issues; the buffer is handed to the schedulers
    of the cores when it is full or when any thread flushes it. The operations on
    one thread's queue are atomic: appends are made by the owner only, flushes hold
    the queue's lock, and a routine is published before the end of the buffer. *)

From S2P Require Import Prelude.

Definition kBufferSize : Z := 16383.

(** a routine: its name and the core it asks for *)
Record Rt := mkRt { rt_name : Z; affinity : Z }.
#[export] Instance Rt_eq_dec : EqDecision Rt.
Proof. solve_decision. Defined.

(** [LocalDispatcherImpl::Queue] *)
Record Queue := mkQ { routines : Z → Rt; append_start : Z; flusher_start : Z; need_scan : bool }.

Section Dispatch.
(** the number of cores, and the thread that owns the queue; 0 is the main thread *)
Context (nr_threads tid : Z).

(** routines given to the scheduler of a core *)
Abbreviation Subs := (list (Z * list Rt)).

(** [SubmitOnCore] *)
Definition SubmitOnCore (rs : list Rt) (thread : Z) : result Subs :=
  match rs with
  | [] => Ok []
  | _ => _ ← abort_if ((thread =? 0) || (nr_threads <? thread)); Ok [(thread - 1, rs)]
  end.

(** the routines of the buffer from [start] to [end] *)
Definition range (q : Queue) (a b : Z) : list Rt := (fun j => routines q j) <$> seqZ a (b - a).

(** the core of the [k]-th routine of a flush; [delta] is the value of [dice] *)
Definition core_of (delta k : Z) (r : Rt) : Z :=
  if affinity r <? nr_threads then affinity r else u64 (delta + k) mod nr_threads.

(** the loop that fills the task buffers *)
Fixpoint fill_tasks (delta k : Z) (rs : list Rt) (task_buffer : Z → list Rt) : Z → list Rt :=
  match rs with
  | [] => task_buffer
  | r :: rs =>
      let core := core_of delta k r in
      fill_tasks delta (k + 1) rs (<[core := task_buffer core ++ [r]]> task_buffer)
  end.

(** the loop that submits them *)
Fixpoint submit_tasks (task_buffer : Z → list Rt) (cores : list Z) : result Subs :=
  match cores with
  | [] => Ok []
  | i :: cores => s ← SubmitOnCore (task_buffer i) (i + 1); ss ← submit_tasks task_buffer cores; Ok (s ++ ss)
  end.

(** [FlushOnCore] *)
Definition FlushOnCore (q : Queue) (delta a b : Z) : result Subs :=
  if a =? b then Ok []
  else if negb (need_scan q) then SubmitOnCore (range q a b) tid
  else submit_tasks (fill_tasks delta 0 (range q a b) (fun _ => [])) (seqZ 0 nr_threads).

(** the affinity [QueueRoutine] gives a routine that asks for none *)
Definition with_affinity (r : Rt) : Rt := if affinity r =? 2 ^ 64 - 1 then mkRt (rt_name r) (u64 (tid - 1)) else r.

(** [QueueRoutine] *)
Definition QueueRoutine (q : Queue) (delta : Z) (r : Rt) : result (Queue * Subs) :=
  let pos := append_start q in
  if negb ((0 <=? pos) && (pos <? kBufferSize)) then Err OutOfRange else
  let r := with_affinity r in
  let scan := if negb (tid =? u64 (affinity r + 1)) || (tid =? 0) then true else need_scan q in
  let q := mkQ (<[pos := r]> (routines q)) (pos + 1) (flusher_start q) scan in
  if pos =? kBufferSize - 1 then
    subs ← FlushOnCore q delta (flusher_start q) (append_start q);
    Ok (mkQ (routines q) 0 0 false, subs)
  else Ok (q, []).

(** [TryFlushForThread] when the lock is free; the flag is what [PushRelease] returns *)
Definition TryFlushForThread (q : Queue) (delta : Z) : result (Queue * Subs * bool) :=
  let a := flusher_start q in let b := append_start q in
  subs ← FlushOnCore q delta a b;
  Ok (mkQ (routines q) b b (need_scan q), subs, a <? b).

(** what happens to a queue: the owner adds a routine, or some thread flushes it;
    [delta] is the value of [dice] then *)
Inductive QEvent := QAdd (r : Rt) (delta : Z) | QFlush (delta : Z).

Fixpoint run_queue (q : Queue) (evs : list QEvent) : result (Queue * Subs) :=
  match evs with
  | [] => Ok (q, [])
  | QAdd r delta :: evs =>
      '(q, s) ← QueueRoutine q delta r; '(q, ss) ← run_queue q evs; Ok (q, s ++ ss)
  | QFlush delta :: evs =>
      '(q, s, _) ← TryFlushForThread q delta; '(q, ss) ← run_queue q evs; Ok (q, s ++ ss)
  end.

(** the constructor *)
Definition new_queue : Queue := mkQ (fun _ => mkRt 0 0) 0 0 false.

End Dispatch.

(** ** Lemmas *)

(** the routines submitted to core [c], and to all cores *)
Definition sent_to (c : Z) (s : list (Z * list Rt)) : list Rt := flat_map (fun x => if x.1 =? c then x.2 else []) s.
Definition sent (s : list (Z * list Rt)) : list Rt := flat_map snd s.

Section Facts.
Context (nr_threads tid : Z).
Hypothesis Hn : 0 < nr_threads < 2 ^ 31.
Hypothesis Ht : 0 ≤ tid ≤ nr_threads.
Abbreviation Range := range.

(** the routines that are pinned to core [c] *)
Abbreviation pinned c := (fun r => affinity r = c).

Lemma sent_app s1 s2 : sent (s1 ++ s2) = sent s1 ++ sent s2.
Proof using Type. apply flat_map_app. Qed.
Lemma sent_to_app c s1 s2 : sent_to c (s1 ++ s2) = sent_to c s1 ++ sent_to c s2.
Proof using Type. apply flat_map_app. Qed.

(** the routines with their numbers that go to core [c] *)
Fixpoint bucket (delta k : Z) (rs : list Rt) (c : Z) : list Rt :=
  match rs with
  | [] => []
  | r :: rs => (if core_of nr_threads delta k r =? c then [r] else []) ++ bucket delta (k + 1) rs c
  end.

Lemma fill_tasks_bucket delta rs : ∀ k tb c, fill_tasks nr_threads delta k rs tb c = tb c ++ bucket delta k rs c.
Proof using Type.
  clear. induction rs as [|r rs IH]; intros k tb c; cbn; [by rewrite app_nil_r|]. rewrite IH.
  destruct (Z.eqb_spec (core_of nr_threads delta k r) c) as [<-|Hne].
  - rewrite fn_lookup_insert. by rewrite <- app_assoc.
  - by rewrite fn_lookup_insert_ne.
Qed.

Lemma submit_tasks_spec tb cs : (∀ i, i ∈ cs → 0 ≤ i < nr_threads) → NoDup cs →
  ∃ s, submit_tasks nr_threads tb cs = Ok s ∧ sent s = flat_map tb cs ∧
  (∀ c, sent_to c s = if bool_decide (c ∈ cs) then tb c else []) ∧ (∀ x, x ∈ s → x.1 ∈ cs).
Proof using Type.
  clear. induction cs as [|i cs IH]; intros Hc Hnd; cbn.
  { exists []. split; [done|]. split; [done|]. split; [|intros x []%elem_of_nil]. intros c. by rewrite bool_decide_false by apply not_elem_of_nil. }
  apply NoDup_cons in Hnd as [Hi Hnd]. destruct IH as (s & -> & Hs & Hto & Hin); [intros; apply Hc; by right|done|].
  pose proof (Hc i ltac:(left)) as Hir. unfold SubmitOnCore. destruct (tb i) as [|r rs] eqn:Etb.
  - cbn. exists s. split; [done|]. split; [done|]. split; [|intros x Hx; right; by apply Hin]. intros c. rewrite Hto.
    destruct (decide (c = i)) as [->|Hne].
    + by rewrite (bool_decide_false (i ∈ cs)), bool_decide_true, Etb by (done || left).
    + rewrite (bool_decide_ext (c ∈ cs) (c ∈ i :: cs)); [done|]. set_solver.
  - rewrite (proj2 (Z.eqb_neq (i + 1) 0)), (proj2 (Z.ltb_ge nr_threads (i + 1))) by lia. cbn. eexists. split; [done|].
    replace (i + 1 - 1) with i by lia. split; [change (sent ((i, r :: rs) :: s)) with ((r :: rs) ++ sent s); by rewrite Hs|].
    split; [|intros x [->|Hx]%elem_of_cons; [left|right; by apply Hin]].
    intros c. change (sent_to c ((i, r :: rs) :: s)) with ((if i =? c then r :: rs else []) ++ sent_to c s). rewrite Hto.
    destruct (Z.eqb_spec i c) as [<-|Hne].
    + rewrite (bool_decide_false (i ∈ cs)), bool_decide_true, Etb by (done || left). by rewrite app_nil_r.
    + rewrite (bool_decide_ext (c ∈ cs) (c ∈ i :: cs)); [done|]. set_solver.
Qed.

(** every routine is in the bucket of one core *)
Lemma bucket_perm delta rs : ∀ k, (∀ r, r ∈ rs → 0 ≤ affinity r) → flat_map (bucket delta k rs) (seqZ 0 nr_threads) ≡ₚ rs.
Proof using Hn.
  induction rs as [|r rs IH]; intros k Hr.
  { cbn. generalize (seqZ 0 nr_threads) as cs. by induction cs. }
  assert (Hc : core_of nr_threads delta k r ∈ seqZ 0 nr_threads).
  { apply elem_of_seqZ. unfold core_of. pose proof (Hr r ltac:(left)).
    pose proof (Z.mod_pos_bound (u64 (delta + k)) nr_threads). zcase; lia. }
  cbn [bucket]. apply elem_of_Permutation in Hc as (cs & Hcs).
  assert (Hnd : core_of nr_threads delta k r ∉ cs).
  { pose proof (NoDup_seqZ 0 nr_threads) as Hnd. rewrite Hcs in Hnd. by apply NoDup_cons in Hnd as [? _]. }
  rewrite Hcs. cbn. rewrite Z.eqb_refl. cbn. f_equiv.
  etransitivity; [|apply (IH (k + 1)); intros; apply Hr; by right]. rewrite Hcs. cbn. f_equiv. clear -Hnd. induction cs as [|c cs IH]; cbn; [done|].
  rewrite (proj2 (Z.eqb_neq _ _)) by set_solver. cbn. f_equiv. apply IH. set_solver.
Qed.

(** a bucket keeps the order of the routines pinned to its core *)
Lemma bucket_pinned delta rs : ∀ k c, 0 ≤ c < nr_threads → filter (pinned c) (bucket delta k rs c) = filter (pinned c) rs.
Proof using Hn.
  induction rs as [|r rs IH]; intros k c Hc; cbn [bucket]; [done|]. rewrite filter_app, IH by done.
  destruct (decide (affinity r = c)) as [E|E].
  - rewrite (filter_cons_True _ r rs) by done. unfold core_of. rewrite E, (proj2 (Z.ltb_lt _ _)), Z.eqb_refl by lia.
    by rewrite filter_cons_True by done.
  - rewrite (filter_cons_False _ r rs) by done. destruct (_ =? c); [by rewrite filter_cons_False by done|done].
Qed.

(** what a flush of the routines [rs] does *)
Definition flushes (rs : list Rt) (s : list (Z * list Rt)) : Prop :=
  sent s ≡ₚ rs ∧ (∀ x, x ∈ s → 0 ≤ x.1 < nr_threads) ∧
  ∀ c, 0 ≤ c < nr_threads → filter (pinned c) (sent_to c s) = filter (pinned c) rs.

(** the routines from [a] to [b]: without a scan all are for the owner's core *)
Definition span_ok (q : Queue) (a b : Z) : Prop :=
  ∀ j, a ≤ j < b → 0 ≤ affinity (routines q j) < 2 ^ 64 ∧ (need_scan q = false → affinity (routines q j) = tid - 1 ∧ 1 ≤ tid).

Lemma elem_of_range q a b r : r ∈ range q a b ↔ ∃ j, a ≤ j < b ∧ r = routines q j.
Proof using Type.
  clear. unfold range. rewrite list_elem_of_fmap. setoid_rewrite elem_of_seqZ. split; intros (j & H1 & H2); exists j; split; (done || lia).
Qed.

Lemma FlushOnCore_spec q delta a b : a ≤ b → span_ok q a b →
  ∃ s, FlushOnCore nr_threads tid q delta a b = Ok s ∧ flushes (range q a b) s.
Proof using Hn Ht.
  intros Hab Hok. unfold FlushOnCore. destruct (Z.eqb_spec a b) as [<-|Hne].
  { exists []. split; [done|]. unfold range. rewrite Z.sub_diag. split; [done|]. split; [intros x []%elem_of_nil|done]. }
  destruct (need_scan q) eqn:Es; cbn [negb].
  - destruct (submit_tasks_spec (fill_tasks nr_threads delta 0 (range q a b) (fun _ => [])) (seqZ 0 nr_threads))
      as (s & -> & Hs & Hto & Hin); [intros i Hi; apply elem_of_seqZ in Hi; lia|apply NoDup_seqZ|].
    exists s. split; [done|]. split; [|split].
    + rewrite Hs. etransitivity; [|apply (bucket_perm delta (range q a b) 0)].
      * rewrite (flat_map_ext _ (bucket delta 0 (range q a b))); [done|]. intros c. by rewrite fill_tasks_bucket.
      * intros r Hr. apply elem_of_range in Hr as (j & Hj & ->). by apply Hok.
    + intros x Hx. apply Hin, elem_of_seqZ in Hx. lia.
    + intros c Hc. rewrite Hto, bool_decide_true by (apply elem_of_seqZ; lia).
      rewrite fill_tasks_bucket. by apply bucket_pinned.
  - destruct (range q a b) as [|r rs] eqn:Er.
    { unfold range in Er. apply (f_equal length) in Er. rewrite length_fmap, length_seqZ in Er. cbn in Er. lia. }
    destruct (Hok a ltac:(lia)) as [_ Ha]. destruct (Ha Es) as [_ Htid]. cbn [SubmitOnCore].
    rewrite (proj2 (Z.eqb_neq tid 0)), (proj2 (Z.ltb_ge nr_threads tid)) by lia. cbn. eexists. split; [done|].
    split; [unfold sent; cbn; by rewrite app_nil_r|]. split; [intros x ->%list_elem_of_singleton; cbn; lia|].
    intros c Hc. unfold sent_to. cbn [flat_map fst snd]. rewrite app_nil_r. destruct (Z.eqb_spec (tid - 1) c); [done|].
    symmetry. apply filter_none. intros x Hx. rewrite <- Er in Hx. apply elem_of_range in Hx as (j & Hj & ->).
    destruct (Hok j Hj) as [_ Hjt]. destruct (Hjt Es). lia.
Qed.

(** ** A run of the queue *)

Record QInv (q : Queue) : Prop := {
  qi_range : 0 ≤ flusher_start q ≤ append_start q ∧ append_start q < kBufferSize;
  qi_span : span_ok q (flusher_start q) (append_start q);
}.
Definition pending (q : Queue) : list Rt := range q (flusher_start q) (append_start q).
Definition event_ok (ev : QEvent) : Prop := match ev with QAdd r _ => 0 ≤ affinity r < 2 ^ 64 | QFlush _ => True end.
(** the routines the owner has added, with the affinity they were given *)
Definition queued (evs : list QEvent) : list Rt :=
  flat_map (fun ev => match ev with QAdd r _ => [with_affinity tid r] | QFlush _ => [] end) evs.

(** a step takes the routines [old] to the submissions [s] and the buffer [new] *)
Definition moves (old new : list Rt) (s : list (Z * list Rt)) : Prop :=
  sent s ++ new ≡ₚ old ∧ (∀ x, x ∈ s → 0 ≤ x.1 < nr_threads) ∧
  ∀ c, 0 ≤ c < nr_threads → filter (pinned c) (sent_to c s) ++ filter (pinned c) new = filter (pinned c) old.

Lemma range_snoc q a b : a ≤ b → range q a (b + 1) = range q a b ++ [routines q b].
Proof using Type.
  clear. intros H. unfold range. replace (b + 1 - a) with ((b - a) + 1) by lia. rewrite seqZ_app, fmap_app by lia.
  replace (a + (b - a)) with b by lia. done.
Qed.

Lemma flushes_moves rs s : flushes rs s → moves rs [] s.
Proof using Type.
  clear. intros (H1 & H2 & H3). split; [by rewrite app_nil_r|]. split; [done|]. intros c Hc. rewrite H3 by done. by rewrite app_nil_r.
Qed.

Lemma affinity_ok r : 0 ≤ affinity r < 2 ^ 64 →
  0 ≤ affinity (with_affinity tid r) < 2 ^ 64 ∧
  (negb (tid =? u64 (affinity (with_affinity tid r) + 1)) || (tid =? 0) = false →
   affinity (with_affinity tid r) = tid - 1 ∧ 1 ≤ tid).
Proof using Ht Hn.
  intros Hr. unfold with_affinity. destruct (Z.eqb_spec (affinity r) (2 ^ 64 - 1)) as [E|E]; cbn [affinity].
  - split; [apply u64_range|]. intros H. zprop. rewrite u64_id by lia. lia.
  - split; [done|]. intros H. zprop. rewrite u64_id in H by lia. lia.
Qed.

Lemma add_step q delta r : QInv q → 0 ≤ affinity r < 2 ^ 64 →
  ∃ q' s, QueueRoutine nr_threads tid q delta r = Ok (q', s) ∧ QInv q' ∧
  moves (pending q ++ [with_affinity tid r]) (pending q') s.
Proof using Hn Ht.
  intros [Hr Hs] Ha. destruct (affinity_ok r Ha) as [Ha1 Ha2]. unfold QueueRoutine.
  rewrite (proj2 (Z.leb_le 0 _)), (proj2 (Z.ltb_lt _ _)) by lia. cbn [andb negb].
  set (scan := if _ || _ then true else need_scan q).
  set (q1 := mkQ _ _ _ scan).
  assert (Hspan : span_ok q1 (flusher_start q) (append_start q + 1)).
  { intros j Hj. cbn. destruct (decide (j = append_start q)) as [->|Hne].
    - rewrite fn_lookup_insert. split; [done|]. unfold scan. destruct (_ || _) eqn:Eb; [done|]. intros _. by apply Ha2.
    - rewrite fn_lookup_insert_ne by done. destruct (Hs j ltac:(lia)) as [H1 H2]. split; [done|]. unfold scan.
      destruct (_ || _); [done|]. done. }
  assert (Hpend : range q1 (flusher_start q) (append_start q + 1) = pending q ++ [with_affinity tid r]).
  { rewrite range_snoc by lia. cbn [routines q1]. rewrite fn_lookup_insert. f_equal. unfold pending, range.
    apply list_fmap_ext. intros i j Hj. apply lookup_seqZ in Hj as [-> Hj]. cbn. by rewrite fn_lookup_insert_ne by lia. }
  destruct (Z.eqb_spec (append_start q) (kBufferSize - 1)) as [E|E].
  - cbn [flusher_start append_start q1]. destruct (FlushOnCore_spec q1 delta (flusher_start q) (append_start q + 1)) as (s & -> & Hf); [lia|done|].
    cbn. eexists _, s. split; [done|]. split; [split; [cbn; unfold kBufferSize; lia|intros j Hj; cbn in Hj; lia]|].
    rewrite <- Hpend. by apply flushes_moves.
  - eexists _, []. split; [done|]. split; [split; [cbn; lia|done]|]. change (pending q1) with (range q1 (flusher_start q) (append_start q + 1)).
    rewrite Hpend. split; [done|]. split; [intros x []%elem_of_nil|done].
Qed.

Lemma flush_queue_step q delta : QInv q →
  ∃ q' s b, TryFlushForThread nr_threads tid q delta = Ok (q', s, b) ∧ QInv q' ∧ moves (pending q) (pending q') s.
Proof using Hn Ht.
  intros [Hr Hs]. unfold TryFlushForThread.
  destruct (FlushOnCore_spec q delta (flusher_start q) (append_start q)) as (s & -> & Hf); [lia|done|].
  cbn. eexists _, s, _. split; [done|]. split; [split; [cbn; lia|intros j Hj; cbn in Hj; lia]|].
  replace (pending (mkQ _ _ _ _)) with (@nil Rt) by (unfold pending, range; cbn; by rewrite Z.sub_diag). by apply flushes_moves.
Qed.

Lemma moves_trans o n1 n2 rs s1 s2 : moves o n1 s1 → moves (n1 ++ rs) n2 s2 → moves (o ++ rs) n2 (s1 ++ s2).
Proof using Type.
  clear. intros (P1 & C1 & F1) (P2 & C2 & F2). split; [|split].
  - rewrite sent_app, <- app_assoc, P2, app_assoc, P1. done.
  - intros x [Hx|Hx]%elem_of_app; auto.
  - intros c Hc. rewrite sent_to_app, !filter_app, <- app_assoc, F2, filter_app, app_assoc, F1 by done. done.
Qed.

Lemma run_queue_spec evs : ∀ q, QInv q → Forall event_ok evs →
  ∃ q' s, run_queue nr_threads tid q evs = Ok (q', s) ∧ QInv q' ∧ moves (pending q ++ queued evs) (pending q') s.
Proof using Hn Ht.
  induction evs as [|ev evs IH]; intros q Hq He; cbn [run_queue queued].
  { exists q, []. split; [done|]. split; [done|]. rewrite app_nil_r. split; [done|]. split; [intros x []%elem_of_nil|done]. }
  apply Forall_cons in He as [He0 He]. destruct ev as [r delta|delta].
  - destruct (add_step q delta r Hq He0) as (q1 & s1 & -> & Hq1 & M1). cbn. destruct (IH q1 Hq1 He) as (q2 & s2 & -> & Hq2 & M2). cbn.
    exists q2, (s1 ++ s2). split; [done|]. split; [done|]. change (with_affinity tid r :: ?l) with ([with_affinity tid r] ++ l).
    rewrite app_assoc. by apply (moves_trans _ (pending q1)).
  - destruct (flush_queue_step q delta Hq) as (q1 & s1 & b & -> & Hq1 & M1). cbn. destruct (IH q1 Hq1 He) as (q2 & s2 & -> & Hq2 & M2). cbn.
    exists q2, (s1 ++ s2). split; [done|]. split; [done|]. cbn. by apply (moves_trans _ (pending q1)).
Qed.

End Facts.

(** The local dispatcher loses and duplicates nothing: for any series of additions
    by the owner of a queue and of flushes, whenever the buffer fills up, no
    operation aborts or writes outside the buffer, every routine that was added has
    been submitted to exactly one core or is still in the buffer, and for every core
    the routines that ask for it are submitted to it, in the order they were
    added (a routine that asks for no core gets the owner's). *)
Theorem local_dispatch_exactly_once nr_threads tid evs :
  0 < nr_threads < 2 ^ 31 → 0 ≤ tid ≤ nr_threads → Forall event_ok evs →
  ∃ q s, run_queue nr_threads tid new_queue evs = Ok (q, s) ∧
  sent s ++ pending q ≡ₚ queued tid evs ∧
  (∀ x, x ∈ s → 0 ≤ x.1 < nr_threads) ∧
  (∀ c, 0 ≤ c < nr_threads →
    filter (fun r => affinity r = c) (sent_to c s) ++ filter (fun r => affinity r = c) (pending q) =
    filter (fun r => affinity r = c) (queued tid evs)).
Proof.
  intros Hn Ht He. destruct (run_queue_spec nr_threads tid Hn Ht evs new_queue) as (q & s & E & _ & H1 & H2 & H3); [|done|].
  - split; [cbn; unfold kBufferSize; lia|]. intros j Hj. cbn in Hj. lia.
  - exists q, s. by split.
Qed.

Lemma local_dispatch_exactly_once_witness :
  ∃ q s, run_queue 2 1 new_queue [QAdd (mkRt 7 1) 0; QAdd (mkRt 8 (2 ^ 64 - 1)) 0; QFlush 3; QAdd (mkRt 9 0) 4] = Ok (q, s) ∧
  sent s ++ pending q ≡ₚ [mkRt 7 1; mkRt 8 0; mkRt 9 0].
Proof.
  destruct (local_dispatch_exactly_once 2 1 [QAdd (mkRt 7 1) 0; QAdd (mkRt 8 (2 ^ 64 - 1)) 0; QFlush 3; QAdd (mkRt 9 0) 4])
    as (q & s & E & H & _); [lia|lia|repeat constructor; cbn; lia|]. exists q, s. split; [exact E|exact H].
Defined.
