(* ===== verification/Wire.v ===== *)
(** The messages between nodes (tcp_node.cc, node_config.cc): pieces, future values,
    the counters of a plan and the start of a phase, as the sender writes them and
    as [ReceiverChannel] reads them from the stream, however the network cuts it. *)

From S2P Require Import Prelude Bits SqlTypes Piece BufferPlan.

(** ** Sending *)

Definition kUpdateBatchCounter : Z := 2 ^ 64 - 1 - 2 ^ 56.
Definition future_flag : Z := 2 ^ 55.

(** what one node sends to another within a phase: a routine written at offset [p] of
    a buffer whose bytes were [buf], a future value, the counters of a plan *)
Inductive Msg :=
| MPiece (buf : Z → Z) (p : Z) (r : Piece)
| MFuture (epoch_nr offset node value : Z)
| MCounters (node : Z) (counters : list Z).

(** [TransportPromiseRoutine] to another node *)
Definition encode_piece (buf : Z → Z) (p : Z) (r : Piece) : list Z := le_split 8 (NodeSize r) ++ EncodeNode buf (p + 8) r.
(** [TransportFutureValue] and [TransportDistributedFutureValue]; the value is an
    [int32_t], given here by its 32 bits *)
Definition encode_future (epoch_nr offset node value : Z) : list Z :=
  let buffer_size := 4 + 3 * 8 + 4 in
  le_split 8 (buffer_size - 8 + future_flag) ++ le_split 8 epoch_nr ++ le_split 8 offset ++ le_split 4 node ++ le_split 4 value.
(** [FlushBufferPlan]: the struct [LocalBatch] *)
Definition encode_counters (node : Z) (counters : list Z) : list Z :=
  le_split 8 kUpdateBatchCounter ++ le_split 8 node ++ flat_map (le_split 8) counters.
(** [SendStartPhase] *)
Definition encode_start_phase (id : Z) (broadcast_buffer : list Z) : list Z :=
  le_split 8 (Z.lor (Z.shiftl 0xFF 56) (len broadcast_buffer)) ++ le_split 4 id ++ flat_map (le_split 4) broadcast_buffer.

Definition encode (m : Msg) : list Z :=
  match m with
  | MPiece buf p r => encode_piece buf p r
  | MFuture e o n v => encode_future e o n v
  | MCounters n cs => encode_counters n cs
  end.

(** ** Receiving *)

Definition kTcpBufferSize : Z := 2 ^ 20.

(** what the receiver reads *)
Inductive Item :=
| IPiece (r : Piece)
| IFuture (epoch_nr node offset value : Z)
| ICounters (data : list Z).

(** the unsigned 64-bit words of a buffer *)
Fixpoint words (n : nat) (b : list Z) : list Z :=
  match n with O => [] | S n => le_combine (take 8 b) :: words n (drop 8 b) end.

(** [in->Peek(recv_channel_buffer, buflen)]: [None] when the bytes are not there yet *)
Definition peek (inp : list Z) (buflen : Z) : result (option (list Z)) :=
  if len inp <? buflen then Ok None
  else if kTcpBufferSize <? buflen then Err OutOfRange
  else Ok (Some (take (Z.to_nat buflen) inp)).

(** one iteration of the loop of [PollRoutines]: the item and the bytes it takes, or
    [None] for [break] *)
Definition poll_one (nr_nodes : Z) (inp : list Z) : result (option (Item * Z)) :=
  if len inp <? 8 then Ok None else
  let header := le_combine (take 8 inp) in
  if Z.land (Z.shiftr header 56) 0xFF =? 0xFF then Ok None
  else if header =? kUpdateBatchCounter then
    let buffer_size := 8 + kPromiseMaxLevels * nr_nodes * nr_nodes * 8 in
    let buflen := 8 + buffer_size in
    b ← peek inp buflen;
    match b with
    | None => Ok None
    | Some buf => Ok (Some (ICounters (words (Z.to_nat (buffer_size / 8)) (drop 8 buf)), buflen))
    end
  else if Z.land header 0xFFFF000000000000 =? future_flag then
    let buflen := 8 + (header - future_flag) in
    b ← peek inp buflen;
    match b with
    | None => Ok None
    | Some buf =>
        Ok (Some (IFuture (le_combine (take 8 (drop 8 buf))) (le_combine (take 4 (drop 24 buf)))
                    (le_combine (take 8 (drop 16 buf))) (le_combine (take 4 (drop 28 buf))), buflen))
    end
  else
    _ ← abort_if (negb (header mod 8 =? 0));
    let buflen := 8 + header in
    b ← peek inp buflen;
    match b with
    | None => Ok None
    | Some buf => r ← CreateFromPacket (drop 8 buf) header; Ok (Some (IPiece r, buflen))
    end.

Definition is_piece (it : Item) : bool := match it with IPiece _ => true | _ => false end.

(** the loop of [PollRoutines]: [cnt] is the room left for pieces; the items in order
    and the bytes left in the channel. Every item takes at least eight bytes: the
    fuel is the number of bytes *)
Fixpoint poll_loop (fuel : nat) (nr_nodes cnt : Z) (inp : list Z) : result (list Item * list Z) :=
  match fuel with
  | O => Ok ([], inp)
  | S fuel =>
      if cnt <=? 0 then Ok ([], inp) else
      o ← poll_one nr_nodes inp;
      match o with
      | None => Ok ([], inp)
      | Some (it, k) =>
          '(its, rest) ← poll_loop fuel nr_nodes (if is_piece it then cnt - 1 else cnt) (drop (Z.to_nat k) inp);
          Ok (it :: its, rest)
      end
  end.
Definition PollRoutines (nr_nodes cnt : Z) (inp : list Z) : result (list Item * list Z) :=
  poll_loop (length inp) nr_nodes cnt inp.

(** ** Lemmas *)

Lemma take_split n x l : take n (le_split n x ++ l) = le_split n x.
Proof. rewrite <- (length_le_split n x) at 1. apply take_app_length. Qed.
Lemma drop_split n x l : drop n (le_split n x ++ l) = l.
Proof. rewrite <- (length_le_split n x) at 1. apply drop_app_length. Qed.

Lemma header_read h rest : 0 ≤ h < 2 ^ 64 → le_combine (take 8 (le_split 8 h ++ rest)) = h.
Proof. intros H. rewrite take_split. by apply le_combine_split. Qed.

Lemma words_split cs rest : Forall (fun x => 0 ≤ x < 2 ^ 64) cs → words (length cs) (flat_map (le_split 8) cs ++ rest) = cs.
Proof.
  induction 1 as [|x cs Hx _ IH]; cbn [words length flat_map]; [done|]. rewrite <- app_assoc, take_split, drop_split, IH.
  by rewrite le_combine_split.
Qed.

Lemma length_words (w : nat) cs : length (flat_map (le_split w) cs) = (w * length cs)%nat.
Proof. induction cs as [|x cs IH]; cbn [flat_map length]; [lia|]. rewrite length_app, length_le_split, IH. lia. Qed.

Lemma NodeSize_mod8 r : piece_ok r → NodeSize r mod 8 = 0 ∧ 72 ≤ NodeSize r.
Proof.
  induction r as [h c n IH] using Piece_rect'. intros (Hh & Hc & Hl & Hn). cbn [NodeSize].
  assert (Hs : capture_size h mod 8 = 0 ∧ 0 ≤ capture_size h).
  { unfold capture_size. destruct (Align16 (h_capture_len h)) as [-> ?]; [lia|]. split; [|lia].
    replace (16 * ((h_capture_len h + 15) / 16)) with (2 * ((h_capture_len h + 15) / 16) * 8) by lia. apply Z.mod_mul. lia. }
  change (Align 64 16) with 64.
  set (k := match n with Some l => _ | None => 0 end). assert (Hk : k mod 8 = 0 ∧ 0 ≤ k).
  { unfold k. destruct n as [l|]; [|done]. cbn in IH. destruct Hn as [_ Hn]. clear -IH Hn.
    induction l as [|x l IHl]; [done|]. cbn in *. apply Forall_cons in IH as [Hx IH]. destruct Hn as [Hn1 Hn2].
    destruct (Hx Hn1), (IHl IH Hn2). split; [|lia]. rewrite Z.add_mod by lia. by rewrite H, H1. }
  split; [|lia]. rewrite Z.add_mod, (proj1 Hk) by lia. replace (64 + capture_size h + 8) with (capture_size h + 9 * 8) by lia.
  rewrite Z_mod_plus_full. by rewrite (proj1 Hs).
Qed.

(** ** The kinds of headers *)

Lemma poll_piece n inp h : 8 ≤ len inp → le_combine (take 8 inp) = h → 0 ≤ h < 2 ^ 48 → h mod 8 = 0 →
  poll_one n inp = (b ← peek inp (8 + h);
    match b with None => Ok None | Some buf => r ← CreateFromPacket (drop 8 buf) h; Ok (Some (IPiece r, 8 + h)) end).
Proof.
  intros Hl Hh Hr Hm. unfold poll_one. rewrite (proj2 (Z.ltb_ge _ 8)), Hh by lia.
  rewrite Z.shiftr_div_pow2, Z.div_small by lia. cbn [Z.land Z.eqb].
  rewrite (proj2 (Z.eqb_neq h kUpdateBatchCounter)) by (unfold kUpdateBatchCounter; lia).
  replace (Z.land h 0xFFFF000000000000) with 0; [change (0 =? future_flag) with false; by rewrite Hm|].
  symmetry. apply Z.bits_inj'. intros j Hj. rewrite Z.bits_0, Z.land_spec. destruct (Z_lt_le_dec j 48).
  - change 0xFFFF000000000000 with (0xFFFF * 2 ^ 48). rewrite Z.mul_pow2_bits_low by lia. apply andb_false_r.
  - by rewrite (testbit_high h 48 j) by lia.
Qed.

Lemma poll_counters n inp : 8 ≤ len inp → le_combine (take 8 inp) = kUpdateBatchCounter →
  poll_one n inp = (b ← peek inp (8 + (8 + kPromiseMaxLevels * n * n * 8));
    match b with
    | None => Ok None
    | Some buf => Ok (Some (ICounters (words (Z.to_nat ((8 + kPromiseMaxLevels * n * n * 8) / 8)) (drop 8 buf)),
                            8 + (8 + kPromiseMaxLevels * n * n * 8)))
    end).
Proof. intros Hl Hh. unfold poll_one. rewrite (proj2 (Z.ltb_ge _ 8)), Hh by lia. done. Qed.

Lemma poll_future n inp : 8 ≤ len inp → le_combine (take 8 inp) = 24 + future_flag →
  poll_one n inp = (b ← peek inp 32;
    match b with
    | None => Ok None
    | Some buf => Ok (Some (IFuture (le_combine (take 8 (drop 8 buf))) (le_combine (take 4 (drop 24 buf)))
                    (le_combine (take 8 (drop 16 buf))) (le_combine (take 4 (drop 28 buf))), 32))
    end).
Proof. intros Hl Hh. unfold poll_one. rewrite (proj2 (Z.ltb_ge _ 8)), Hh by lia. done. Qed.

(** ** Messages and items *)

Definition msg_ok (n : Z) (m : Msg) : Prop :=
  match m with
  | MPiece _ _ r => piece_ok r ∧ 8 + NodeSize r ≤ kTcpBufferSize
  | MFuture e o nd v => 0 ≤ e < 2 ^ 64 ∧ 0 ≤ o < 2 ^ 64 ∧ 0 ≤ nd < 2 ^ 31 ∧ 0 ≤ v < 2 ^ 32
  | MCounters nd cs => 0 ≤ nd < 2 ^ 64 ∧ len cs = kPromiseMaxLevels * n * n ∧ Forall (fun x => 0 ≤ x < 2 ^ 64) cs ∧
      16 + kPromiseMaxLevels * n * n * 8 ≤ kTcpBufferSize
  end.

(** the item read is the message sent *)
Definition received_as (m : Msg) (it : Item) : Prop :=
  match m, it with
  | MPiece _ _ r, IPiece r' => view r' = view r
  | MFuture e o nd v, IFuture e' nd' o' v' => e' = e ∧ nd' = nd ∧ o' = o ∧ v' = v
  | MCounters nd cs, ICounters d => d = nd :: cs
  | _, _ => False
  end.

Definition header (m : Msg) : Z :=
  match m with MPiece _ _ r => NodeSize r | MFuture _ _ _ _ => 24 + future_flag | MCounters _ _ => kUpdateBatchCounter end.

Lemma len_encode n m : msg_ok n m →
  len (encode m) = match m with MPiece _ _ r => 8 + NodeSize r | MFuture _ _ _ _ => 32 | MCounters _ _ => 16 + kPromiseMaxLevels * n * n * 8 end.
Proof.
  destruct m as [buf p r|e o nd v|nd cs]; cbn [encode msg_ok].
  - intros [H _]. unfold encode_piece. rewrite length_app, length_le_split. pose proof (encode_len buf r H (p + 8)). lia.
  - intros _. unfold encode_future. by rewrite !length_app, !length_le_split.
  - intros (_ & H & _). unfold encode_counters. rewrite !length_app, !length_le_split, length_words. lia.
Qed.

Lemma encode_header n m rest : msg_ok n m → ∃ body, encode m ++ rest = le_split 8 (header m) ++ body ∧ 0 ≤ header m < 2 ^ 64.
Proof.
  destruct m as [buf p r|e o nd v|nd cs]; cbn [encode msg_ok header]; intros H.
  - destruct H as [H Hs]. eexists. unfold encode_piece. rewrite <- app_assoc. split; [done|].
    pose proof (NodeSize_mod8 r H). unfold kTcpBufferSize in Hs. lia.
  - eexists. unfold encode_future. rewrite <- !app_assoc. split; [done|]. unfold future_flag. lia.
  - eexists. unfold encode_counters. rewrite <- !app_assoc. split; [done|]. unfold kUpdateBatchCounter. lia.
Qed.

Lemma peek_app l rest : len l ≤ kTcpBufferSize → peek (l ++ rest) (len l) = Ok (Some l).
Proof.
  intros H. unfold peek. rewrite length_app, (proj2 (Z.ltb_ge _ (len l))) by lia. rewrite (proj2 (Z.ltb_ge _ (len l))) by lia.
  by rewrite Nat2Z.id, take_app_length.
Qed.

(** a whole message is read as itself, and nothing behind it *)
Lemma poll_one_message n m rest : msg_ok n m →
  ∃ it, poll_one n (encode m ++ rest) = Ok (Some (it, len (encode m))) ∧ received_as m it.
Proof.
  intros H. destruct (encode_header n m rest H) as (body & Eb & Hr).
  assert (Hh : le_combine (take 8 (encode m ++ rest)) = header m) by (rewrite Eb; by apply header_read).
  assert (Hl : 8 ≤ len (encode m ++ rest)) by (rewrite Eb, length_app, length_le_split; lia).
  pose proof (len_encode n m H) as Hlen. pose proof (peek_app (encode m) rest) as Hp. rewrite Hlen in Hp |- *.
  destruct m as [buf p r|e o nd v|nd cs]; cbn [encode msg_ok header] in *.
  - destruct H as [H Hs]. destruct (NodeSize_mod8 r H) as [Hm Hs2]. unfold kTcpBufferSize in Hs.
    rewrite (poll_piece n _ (NodeSize r)) by (done || lia). rewrite Hp by done. cbn [mbind result_bind].
    unfold encode_piece. rewrite drop_split.
    pose proof (encode_len buf r H (p + 8)) as Hl2. pose proof (depth_size r H) as Hd.
    destruct (decode_encode buf r H (S (length (EncodeNode buf (p + 8) r))) (p + 8) []) as (r' & E & Hv); [lia|].
    rewrite app_nil_r in E. unfold CreateFromPacket. rewrite E. cbn. rewrite Z.eqb_refl. cbn. by exists (IPiece r').
  - rewrite poll_future by done. rewrite Hp by (unfold kTcpBufferSize; lia). cbn [mbind result_bind].
    eexists. split; [done|]. unfold encode_future. cbn [received_as]. destruct H as (He & Ho & Hn & Hv).
    change (drop 24 ?l) with (drop 8 (drop 8 (drop 8 l))). change (drop 28 ?l) with (drop 4 (drop 8 (drop 8 (drop 8 l)))).
    change (drop 16 ?l) with (drop 8 (drop 8 l)).
    rewrite !drop_split, !take_split. rewrite <- (app_nil_r (le_split 4 v)), take_split, !le_combine_split by (cbn; lia). done.
  - destruct H as (Hnd & Hc & Hcs & Hs). rewrite poll_counters by done.
    replace (8 + (8 + kPromiseMaxLevels * n * n * 8)) with (16 + kPromiseMaxLevels * n * n * 8) by lia.
    rewrite Hp by done. cbn [mbind result_bind]. eexists. split; [done|]. cbn [received_as]. unfold encode_counters. rewrite drop_split.
    replace (Z.to_nat ((8 + kPromiseMaxLevels * n * n * 8) / 8)) with (length (nd :: cs)).
    + rewrite <- (words_split (nd :: cs) []) at 2 by (by constructor). by rewrite app_nil_r.
    + replace (8 + kPromiseMaxLevels * n * n * 8) with ((1 + kPromiseMaxLevels * n * n) * 8) by lia. rewrite Z.div_mul by lia.
      cbn [length]. lia.
Qed.

(** an incomplete message stays in the channel *)
Lemma poll_one_partial n m k : msg_ok n m → (k < length (encode m))%nat → poll_one n (take k (encode m)) = Ok None.
Proof.
  intros H Hk. destruct (encode_header n m [] H) as (body & Eb & Hr). rewrite app_nil_r in Eb.
  assert (Hlk : len (take k (encode m)) = Z.of_nat k) by (rewrite length_take; lia).
  destruct (decide (k < 8)%nat) as [Hk8|Hk8]; [unfold poll_one; by rewrite (proj2 (Z.ltb_lt _ 8)) by lia|].
  assert (Hh : le_combine (take 8 (take k (encode m))) = header m).
  { rewrite take_take, Nat.min_l by lia. rewrite Eb. by apply header_read. }
  assert (Hp : peek (take k (encode m)) (len (encode m)) = Ok None) by (unfold peek; by rewrite (proj2 (Z.ltb_lt _ _)) by lia).
  rewrite (len_encode n m H) in Hp.
  destruct m as [buf p r|e o nd v|nd cs]; cbn [msg_ok header] in *.
  - destruct H as [H Hs]. destruct (NodeSize_mod8 r H) as [Hm Hs2]. unfold kTcpBufferSize in Hs.
    rewrite (poll_piece n _ (NodeSize r)) by (done || lia). by rewrite Hp.
  - rewrite poll_future by (done || lia). by rewrite Hp.
  - rewrite poll_counters by (done || lia). replace (8 + (8 + kPromiseMaxLevels * n * n * 8)) with (16 + kPromiseMaxLevels * n * n * 8) by lia.
    by rewrite Hp.
Qed.

(** ** The stream *)

(** the next phase is not read before this one has ended *)
Lemma poll_one_start_phase n id ents more : len ents < 2 ^ 56 → poll_one n (encode_start_phase id ents ++ more) = Ok None.
Proof.
  intros He. unfold encode_start_phase, poll_one. rewrite <- app_assoc, length_app, length_le_split.
  rewrite (proj2 (Z.ltb_ge _ 8)) by lia. rewrite Z.shiftl_mul_pow2 by lia.
  assert (E : Z.lor (0xFF * 2 ^ 56) (len ents) = 0xFF * 2 ^ 56 + len ents).
  { symmetry. apply Z.add_nocarry_lor. apply Z.bits_inj'. intros j Hj. rewrite Z.land_spec, Z.bits_0.
    destruct (Z_lt_le_dec j 56); [by rewrite Z.mul_pow2_bits_low by lia|]. by rewrite (testbit_high (len ents) 56 j), andb_false_r by lia. }
  rewrite E, header_read by lia.
  replace (Z.shiftr (0xFF * 2 ^ 56 + len ents) 56) with 0xFF; [done|].
  rewrite Z.shiftr_div_pow2 by lia. apply Z.div_unique with (len ents); lia.
Qed.

Definition pieces_of (msgs : list Msg) : Z := sum_over (fun m => match m with MPiece _ _ _ => 1 | _ => 0 end) msgs.

Lemma poll_loop_stream n rest msgs : ∀ fuel cnt,
  poll_one n rest = Ok None → Forall (msg_ok n) msgs → pieces_of msgs < cnt → (length msgs ≤ fuel)%nat →
  ∃ items, poll_loop fuel n cnt (flat_map encode msgs ++ rest) = Ok (items, rest) ∧ Forall2 received_as msgs items.
Proof.
  induction msgs as [|m msgs IH]; intros fuel cnt Hr Hm Hc Hf.
  { exists []. split; [|done]. destruct fuel; cbn; [done|]. cbn in Hc. rewrite (proj2 (Z.leb_gt cnt 0)) by lia. by rewrite Hr. }
  destruct fuel as [|fuel]; [cbn in Hf; lia|]. apply Forall_cons in Hm as [Hm0 Hm].
  change (pieces_of (m :: msgs)) with ((match m with MPiece _ _ _ => 1 | _ => 0 end) + pieces_of msgs) in Hc.
  assert (0 ≤ pieces_of msgs) by (apply sum_over_nonneg; intros x _; by destruct x).
  cbn [poll_loop flat_map]. rewrite <- app_assoc, (proj2 (Z.leb_gt cnt 0)) by (destruct m; lia).
  destruct (poll_one_message n m (flat_map encode msgs ++ rest) Hm0) as (it & -> & Hit). cbn [mbind result_bind].
  rewrite Nat2Z.id, drop_app_length.
  destruct (IH fuel (if is_piece it then cnt - 1 else cnt)) as (items & -> & Hi); try done.
  - destruct m, it; cbn in Hit |- *; try done; lia.
  - cbn in Hf. lia.
  - exists (it :: items). split; [done|]. by constructor.
Qed.

(** where a stream may be cut: at the end of a message, inside one, or where the next
    phase begins *)
Definition stream_end (n : Z) (rest : list Z) : Prop :=
  rest = [] ∨ (∃ m k, msg_ok n m ∧ (k < length (encode m))%nat ∧ rest = take k (encode m)) ∨
  (∃ id ents more, len ents < 2 ^ 56 ∧ rest = encode_start_phase id ents ++ more).

Lemma stream_end_none n rest : stream_end n rest → poll_one n rest = Ok None.
Proof.
  intros [->|[(m & k & Hm & Hk & ->)|(id & ents & more & He & ->)]]; [done|by apply poll_one_partial|by apply poll_one_start_phase].
Qed.

(** Messages survive the network: whatever pieces, future values and counters the
    other node has sent, and wherever the bytes received so far end, [PollRoutines]
    reads exactly the complete messages, in order and each as what it is, and
    leaves an incomplete one, and the start of the next phase, in the channel. *)
Theorem wire_roundtrip n msgs rest cnt :
  Forall (msg_ok n) msgs → stream_end n rest → pieces_of msgs < cnt →
  ∃ items, PollRoutines n cnt (flat_map encode msgs ++ rest) = Ok (items, rest) ∧ Forall2 received_as msgs items.
Proof.
  intros Hm Hr Hc. apply poll_loop_stream; [by apply stream_end_none|done|done|]. rewrite length_app.
  assert (length msgs ≤ length (flat_map encode msgs))%nat; [|lia]. clear -Hm.
  induction Hm as [|m msgs Hm _ IH]; cbn [flat_map length]; [lia|]. rewrite length_app.
  destruct (encode_header n m [] Hm) as (b & E & _). apply (f_equal length) in E.
  rewrite !length_app, length_le_split in E. cbn in E. lia.
Qed.

(** the counters of a cluster of more than 90 nodes do not fit in the receive buffer,
    into which they are copied all the same *)
Lemma counters_overflow_buffer n nd cs rest : 91 ≤ n → len cs = kPromiseMaxLevels * n * n →
  poll_one n (encode_counters nd cs ++ rest) = Err OutOfRange.
Proof.
  intros Hn Hc. unfold encode_counters. rewrite <- app_assoc.
  rewrite poll_counters.
  - unfold peek. rewrite !length_app, !length_le_split, length_words. unfold kPromiseMaxLevels, kTcpBufferSize in *.
    assert (91 * 91 ≤ n * n) by nia. rewrite (proj2 (Z.ltb_ge _ _)) by lia. by rewrite (proj2 (Z.ltb_lt _ _)) by lia.
  - rewrite length_app, length_le_split. lia.
  - by apply header_read.
Qed.

Definition wire_sample : list Msg :=
  [MPiece (fun _ => 0) 0 ex_piece; MFuture 3 48 2 77; MCounters 2 (replicate 16 5)].

Lemma wire_roundtrip_witness :
  ∃ items, PollRoutines 1 4 (flat_map encode wire_sample ++ take 5 (encode (MFuture 3 48 2 77))) =
    Ok (items, take 5 (encode (MFuture 3 48 2 77))) ∧ Forall2 received_as wire_sample items.
Proof.
  assert (Hf : msg_ok 1 (MFuture 3 48 2 77)) by (cbn; lia).
  assert (Hh : ∀ n, 0 ≤ n < 10 → header_ok (ex_header n)) by (intros n Hn; repeat constructor; cbn; lia).
  apply wire_roundtrip.
  - apply Forall_cons. split; [|apply Forall_cons; split; [done|apply Forall_cons; split; [|done]]].
    + split; [|by vm_compute]. cbn. repeat split; try (apply Hh; lia); lia.
    + split; [lia|]. split; [done|]. split; [repeat constructor; lia|by vm_compute].
  - right. left. exists (MFuture 3 48 2 77), 5%nat. split; [done|]. split; [cbn; lia|done].
  - by vm_compute.
Defined.
