(* ===== verification/Channel.v ===== *)
(** The two ends of a connection (tcp_node.cc, node_config.h): [SendChannel] buffers
    a thread's messages and writes them to the socket in flushes; [ReceiverChannel]
    counts what it receives and knows when a phase has been received completely. *)

From S2P Require Import Prelude Bits SqlTypes Piece BufferPlan Wire.

(** * SendChannel *)

Module Send.

Definition kPerThreadBuffer : Z := Z.shiftl 16 10.

(** [SendChannel::Channel] of one thread; the lock is free between operations *)
Record Channel := mkCh { mem : Z → Z; flusher_start : Z; append_start : Z; dirty : bool }.

Definition new_channel : Channel := mkCh (fun _ => 0) 0 0 false.

Definition bytes (c : Channel) (a b : Z) : list Z := (fun j => mem c j) <$> seqZ a (b - a).

(** [PushRelease]: the bytes written to the network, and the result *)
Definition PushRelease (c : Channel) (a b : Z) : Channel * list Z * bool :=
  if 0 <? u32 (b - a) then (mkCh (mem c) (flusher_start c) (append_start c) true, bytes c a b, true)
  else (c, [], dirty c).

(** [Alloc]: the offset of the message and what had to be written first. [goto retry]
    is bounded by the fuel: two tries are enough for a message that fits *)
Fixpoint Alloc (fuel : nat) (c : Channel) (sz : Z) : result (Channel * Z * list (list Z)) :=
  match fuel with
  | O => Err Blocked
  | S fuel =>
      let end_ := append_start c in
      if kPerThreadBuffer <=? u64 (end_ + sz) then
        let start := flusher_start c in
        let '(c, w, _) := PushRelease (mkCh (mem c) 0 0 (dirty c)) start end_ in
        '(c, p, ws) ← Alloc fuel c sz; Ok (c, p, w :: ws)
      else Ok (c, end_, [])
  end.

(** [memcpy] of the message to the buffer *)
Fixpoint copy (m : Z → Z) (p : Z) (l : list Z) : Z → Z :=
  match l with [] => m | x :: l => copy (<[p := x]> m) (p + 1) l end.

(** the message is written where [Alloc] says, and published by [Finish] *)
Definition send (fuel : nat) (c : Channel) (m : list Z) : result (Channel * list (list Z)) :=
  '(c, p, ws) ← Alloc fuel c (len m);
  _ ← (if (0 <=? p) && (p + len m <=? kPerThreadBuffer) then Ok tt else Err OutOfRange);
  let c := mkCh (copy (mem c) p m) (flusher_start c) (append_start c) (dirty c) in
  Ok (mkCh (mem c) (flusher_start c) (u32 (append_start c + len m)) (dirty c), ws).

(** [Flushable::TryFlushForThread] when the lock is free *)
Definition TryFlush (c : Channel) : Channel * list Z * bool :=
  let a := flusher_start c in let b := append_start c in
  PushRelease (mkCh (mem c) b b (dirty c)) a b.

(** [DoFlush(false)] also clears the flag *)
Definition DoFlush (c : Channel) : Channel := mkCh (mem c) (flusher_start c) (append_start c) false.

Inductive SEvent := SSend (m : list Z) | SFlush | SDoFlush.

(** a series of events: the chunks written to the network in order *)
Fixpoint run (c : Channel) (evs : list SEvent) : result (Channel * list (list Z)) :=
  match evs with
  | [] => Ok (c, [])
  | SSend m :: evs => '(c, w) ← send 2 c m; '(c, ws) ← run c evs; Ok (c, w ++ ws)
  | SFlush :: evs => let '(c, w, _) := TryFlush c in '(c, ws) ← run c evs; Ok (c, w :: ws)
  | SDoFlush :: evs => run (DoFlush c) evs
  end.

(** ** Lemmas *)

(** a message that does not fit in the buffer is never sent: [Alloc] flushes the
    empty buffer for ever *)
Lemma alloc_never_returns fuel c sz : 0 ≤ append_start c → kPerThreadBuffer ≤ sz → append_start c + sz < 2 ^ 64 →
  Alloc fuel c sz = Err Blocked.
Proof.
  revert c. induction fuel as [|fuel IH]; intros c Ha Hs Hm; [done|]. cbn [Alloc]. assert (HK : kPerThreadBuffer = 16384) by done.
  rewrite u64_id by lia. rewrite (proj2 (Z.leb_le _ (_ + sz))) by lia.
  unfold PushRelease. destruct (0 <? _); cbn beta iota.
  - rewrite IH; [done|cbn; lia|done|cbn; lia].
  - rewrite IH; [done|cbn; lia|done|cbn; lia].
Qed.

(** the messages [ms] are what the buffer holds *)
Record SInv (c : Channel) (ms : list (list Z)) : Prop := {
  si_range : 0 ≤ flusher_start c ≤ append_start c ∧ append_start c < kPerThreadBuffer;
  si_bytes : bytes c (flusher_start c) (append_start c) = concat ms;
}.

Lemma copy_out m p l j : j < p → copy m p l j = m j.
Proof. revert m p. induction l as [|x l IH]; intros m p Hj; cbn; [done|]. rewrite IH by lia. by rewrite fn_lookup_insert_ne by lia. Qed.

Lemma copy_bytes m p l : copy m p l <$> seqZ p (len l) = l.
Proof.
  revert m p. induction l as [|x l IH]; intros m p; cbn [length copy]; [done|].
  rewrite seqZ_cons by lia. rewrite fmap_cons. replace (Z.succ p) with (p + 1) by lia.
  replace (Z.pred (Z.of_nat (S (length l)))) with (len l) by lia. rewrite IH. f_equal.
  rewrite copy_out by lia. by rewrite fn_lookup_insert.
Qed.

Lemma push_spec c c0 a b ms : 0 ≤ a ≤ b → b < 2 ^ 32 → bytes c a b = concat ms →
  mem c0 = mem c → flusher_start c0 = append_start c0 → 0 ≤ append_start c0 < kPerThreadBuffer →
  ∃ c1 w d, PushRelease c0 a b = (c1, w, d) ∧ w = concat ms ∧ SInv c1 [].
Proof.
  intros Hab Hb Hm Hmem Hc Hr. assert (E : bytes c0 a b = concat ms) by (unfold bytes in *; by rewrite Hmem).
  assert (Hemp : ∀ d, SInv (mkCh (mem c0) (flusher_start c0) (append_start c0) d) []).
  { intros d. split; cbn; [lia|]. unfold bytes. cbn. by rewrite Hc, Z.sub_diag. }
  unfold PushRelease. rewrite u32_id by lia. destruct (Z.ltb_spec 0 (b - a)).
  - eexists _, _, _. split; [done|]. split; [done|]. apply Hemp.
  - eexists _, _, _. split; [done|]. assert (a = b) by lia. subst b. split.
    + rewrite <- Hm. unfold bytes. by rewrite Z.sub_diag.
    + destruct c0. apply Hemp.
Qed.

(** the chunks are made of whole messages *)
Definition groups (chunks : list (list Z)) (ms : list (list Z)) : Prop :=
  ∃ gs : list (list (list Z)), chunks = map (@concat Z) gs ∧ concat gs = ms.

Lemma groups_app w1 w2 m1 m2 : groups w1 m1 → groups w2 m2 → groups (w1 ++ w2) (m1 ++ m2).
Proof. intros (g1 & -> & <-) (g2 & -> & <-). exists (g1 ++ g2). by rewrite map_app, concat_app. Qed.

Lemma send_spec c ms m : SInv c ms → 0 < len m < kPerThreadBuffer →
  ∃ c' ws ms' out, send 2 c m = Ok (c', ws) ∧ SInv c' ms' ∧ groups ws out ∧ out ++ ms' = ms ++ [m].
Proof.
  intros [Hr Hb] Hm. assert (HK : kPerThreadBuffer = 16384) by done.
  assert (Hput : ∀ c1 ms1, SInv c1 ms1 → append_start c1 + len m < kPerThreadBuffer →
    SInv (mkCh (copy (mem c1) (append_start c1) m) (flusher_start c1) (u32 (append_start c1 + len m)) (dirty c1)) (ms1 ++ [m])).
  { intros c1 ms1 [Hr1 Hb1] Hf. rewrite u32_id by lia. split; cbn; [lia|]. rewrite concat_app. cbn. rewrite app_nil_r, <- Hb1.
    unfold bytes. cbn. replace (append_start c1 + len m - flusher_start c1) with ((append_start c1 - flusher_start c1) + len m) by lia.
    rewrite seqZ_app, fmap_app by lia. replace (flusher_start c1 + (append_start c1 - flusher_start c1)) with (append_start c1) by lia.
    rewrite copy_bytes. f_equal. apply list_fmap_ext. intros i j Hj. apply lookup_seqZ in Hj as [-> Hj]. apply copy_out. lia. }
  unfold send. cbn [Alloc]. rewrite u64_id by lia. destruct (Z.leb_spec kPerThreadBuffer (append_start c + len m)) as [Hful|Hfit].
  - destruct (push_spec c (mkCh (mem c) 0 0 (dirty c)) (flusher_start c) (append_start c) ms) as (c1 & w & d & E & Ew & Hi);
      [lia|lia|done|done|done|cbn; lia|].
    rewrite E. assert (Ha : append_start c1 = 0).
    { unfold PushRelease in E. destruct (0 <? _); injection E as <- _ _; done. }
    rewrite Ha, u64_id by lia. rewrite (proj2 (Z.leb_gt _ (0 + len m))) by lia. cbn [mbind result_bind].
    rewrite (proj2 (Z.leb_le (0 + len m) _)) by lia. cbn [andb mbind result_bind Z.leb Z.compare]. cbn [mem flusher_start append_start dirty].
    eexists _, _, _, ms. split; [reflexivity|]. pose proof (Hput c1 [] Hi ltac:(rewrite Ha; lia)) as Hp. rewrite Ha in Hp |- *.
    split; [exact Hp|]. split; [|done]. exists [ms]. cbn. by rewrite Ew, app_nil_r.
  - cbn [mbind result_bind]. rewrite (proj2 (Z.leb_le 0 (append_start c))), (proj2 (Z.leb_le (_ + len m) _)) by lia.
    cbn [andb mbind result_bind mem flusher_start append_start dirty]. eexists _, _, _, []. split; [reflexivity|].
    split; [by apply (Hput c ms)|]. split; [by exists []|done].
Qed.

Lemma flush_spec c ms : SInv c ms → ∃ c' w d, TryFlush c = (c', w, d) ∧ SInv c' [] ∧ w = concat ms.
Proof.
  intros [Hr Hb]. assert (HK : kPerThreadBuffer = 16384) by done. unfold TryFlush.
  destruct (push_spec c (mkCh (mem c) (append_start c) (append_start c) (dirty c)) (flusher_start c) (append_start c) ms)
    as (c1 & w & d & E & Ew & Hi); [lia|lia|done|done|done|cbn; lia|]. by exists c1, w, d.
Qed.

Definition sends (evs : list SEvent) : list (list Z) := flat_map (fun ev => match ev with SSend m => [m] | _ => [] end) evs.
Definition sevent_ok (ev : SEvent) : Prop := match ev with SSend m => 0 < len m < kPerThreadBuffer | _ => True end.

Lemma run_spec evs : ∀ c ms, SInv c ms → Forall sevent_ok evs →
  ∃ c' ws ms' out, run c evs = Ok (c', ws) ∧ SInv c' ms' ∧ groups ws out ∧ out ++ ms' = ms ++ sends evs.
Proof.
  induction evs as [|[m| |] evs IH]; intros c ms Hi He; cbn [run sends flat_map].
  - exists c, [], ms, []. split; [done|]. split; [done|]. split; [by exists []|]. by rewrite app_nil_r.
  - apply Forall_cons in He as [Hm He]. destruct (send_spec c ms m Hi Hm) as (c1 & w1 & m1 & o1 & -> & Hi1 & G1 & E1).
    cbn [mbind result_bind]. destruct (IH c1 m1 Hi1 He) as (c2 & w2 & m2 & o2 & -> & Hi2 & G2 & E2). cbn.
    eexists _, _, m2, (o1 ++ o2). split; [done|]. split; [done|]. split; [by apply groups_app|].
    rewrite <- app_assoc, E2, app_assoc, E1, <- app_assoc. done.
  - apply Forall_cons in He as [_ He]. destruct (flush_spec c ms Hi) as (c1 & w1 & d & -> & Hi1 & ->).
    destruct (IH c1 [] Hi1 He) as (c2 & w2 & m2 & o2 & -> & Hi2 & G2 & E2). cbn.
    eexists _, _, m2, (ms ++ o2). split; [done|]. split; [done|].
    split; [apply (groups_app [concat ms]); [exists [ms]; split; [done|cbn; by rewrite app_nil_r]|done]|].
    by rewrite <- app_assoc, E2.
  - apply Forall_cons in He as [_ He]. apply IH; [|done]. destruct Hi as [Hr Hb]. by split.
Qed.

End Send.

(** * ReceiverChannel *)

Module Recv.

(** [IncomingTraffic::Status] *)
Inductive Status := PollMappingTable | PollingRoutines | EndOfPhase.
#[export] Instance Status_eq_dec : EqDecision Status.
Proof. solve_decision. Defined.
Definition kTotalStates : Z := 3.
Definition kMaxMappingTableBuffer : Z := 1024.

(** the counter of state changes, the number of pieces left, and the sender *)
Record Channel := mkRc { state : Z; nr_left : Z; src_node_id : Z }.
Definition new_channel : Channel := mkRc (kTotalStates - 1) 0 0.

Definition current_status (c : Channel) : Status :=
  match state c mod kTotalStates with 0 => PollMappingTable | 1 => PollingRoutines | _ => EndOfPhase end.
Definition AdvanceStatus (c : Channel) : Channel := mkRc (u64 (state c + 1)) (nr_left c) (src_node_id c).

(** [ContinueInboundPhase] on one channel *)
Definition ContinueInbound (c : Channel) : result Channel :=
  _ ← abort_if (negb (bool_decide (current_status c = EndOfPhase))); Ok (AdvanceStatus c).

(** [ReceiverChannel::Reset] *)
Definition Reset (c : Channel) : result Channel :=
  if nr_left c =? 0 then Ok (mkRc (state c) kMaxPiecesPerPhase (src_node_id c)) else Err Aborted.

(** [ReceiverChannel::Complete] *)
Definition Complete (c : Channel) (n : Z) : result Channel :=
  if n =? 0 then Ok c else
  let left := i64 (nr_left c - n) in
  let c := mkRc (state c) left (src_node_id c) in
  _ ← abort_if (left <? 0);
  if left =? 0 then
    let c := AdvanceStatus c in
    _ ← abort_if (negb (bool_decide (current_status c = EndOfPhase))); Ok c
  else Ok c.

(** [PollMappingTable]: the entries of the table and the bytes taken, or [None] *)
Definition poll_table (c : Channel) (inp : list Z) : result (option (Channel * list Z * Z)) :=
  if len inp <? 8 then Ok None else
  let header := le_combine (take 8 inp) in
  _ ← abort_if (negb (Z.land (Z.shiftr header 56) 0xFF =? 0xFF));
  let nr_ops := Z.land header (2 ^ 31 - 1) in
  let buflen := u32 (8 + u32 (4 + 4 * nr_ops)) in
  _ ← abort_if (kMaxMappingTableBuffer <? buflen);
  if len inp <? buflen then Ok None else
  c ← Reset c;
  let data := take (Z.to_nat (buflen - 8)) (drop 8 inp) in
  let word := fun i => le_combine (take 4 (drop (4 * i) data)) in
  let c := mkRc (state c) (nr_left c) (word 0%nat) in
  Ok (Some (AdvanceStatus c, (fun i => word (S i)) <$> seq 0 (Z.to_nat nr_ops), buflen)).

(** what completes pieces of the phase: a poll that has read [k] items, and
    [OnCounterReceived], once the counters of all nodes are known, with the pieces
    that will not come *)
Fixpoint complete_all (c : Channel) (ds : list Z) : result Channel :=
  match ds with [] => Ok c | d :: ds => c ← Complete c d; complete_all c ds end.

(** ** Lemmas *)

(** within a phase the channel polls routines as long as pieces are left *)
Lemma complete_spec c d :
  current_status c = PollingRoutines → 0 ≤ state c < 2 ^ 62 → 0 ≤ d ≤ nr_left c → 0 < nr_left c ≤ kMaxPiecesPerPhase →
  ∃ c', Complete c d = Ok c' ∧ nr_left c' = nr_left c - d ∧
  (d < nr_left c → state c' = state c) ∧ (d = nr_left c → state c' = state c + 1 ∧ current_status c' = EndOfPhase).
Proof.
  intros Hs Hst Hd Hn. unfold kMaxPiecesPerPhase in Hn. unfold Complete. destruct (Z.eqb_spec d 0) as [->|Hd0].
  { exists c. split; [done|]. split; [lia|]. split; [done|lia]. }
  rewrite i64_id by lia. rewrite (proj2 (Z.ltb_ge _ 0)) by lia. cbn [abort_if mbind result_bind].
  destruct (Z.eqb_spec (nr_left c - d) 0) as [E|E].
  - assert (Hadv : current_status (AdvanceStatus (mkRc (state c) (nr_left c - d) (src_node_id c))) = EndOfPhase).
    { unfold current_status, AdvanceStatus, kTotalStates in *. cbn [state]. rewrite u64_id by lia.
      assert (Hm : state c mod 3 = 1). { by destruct (state c mod 3) as [|[p|p|]|]. }
      by rewrite Z.add_mod, Hm by lia. }
    rewrite bool_decide_true by done. cbn [negb abort_if mbind result_bind]. eexists. split; [done|]. split; [done|].
    split; [lia|]. intros _. split; [cbn; by rewrite u64_id by lia|exact Hadv].
  - eexists. split; [done|]. split; [done|]. split; [done|lia].
Qed.

Lemma sum_over_zero_all (l : list Z) : (∀ x, x ∈ l → 0 ≤ x) → sum_over id l = 0 → ∀ x, x ∈ l → x = 0.
Proof.
  induction l as [|y l IH]; intros Hl Hs x Hx; [by apply elem_of_nil in Hx|].
  change (sum_over id (y :: l)) with (y + sum_over id l) in Hs. pose proof (Hl y ltac:(left)).
  assert (0 ≤ sum_over id l) by (apply sum_over_nonneg; intros; apply Hl; by right).
  apply elem_of_cons in Hx as [->|Hx]; [lia|]. apply IH; [intros; apply Hl; by right|lia|done].
Qed.

Lemma complete_all_spec ds : ∀ c,
  current_status c = PollingRoutines → 0 ≤ state c < 2 ^ 62 → 0 < nr_left c ≤ kMaxPiecesPerPhase → Forall (fun d => 0 ≤ d) ds →
  sum_over id ds ≤ nr_left c →
  ∃ c', complete_all c ds = Ok c' ∧ nr_left c' = nr_left c - sum_over id ds ∧
  (sum_over id ds < nr_left c → current_status c' = PollingRoutines) ∧
  (sum_over id ds = nr_left c → state c' = state c + 1 ∧ current_status c' = EndOfPhase).
Proof.
  induction ds as [|d ds IH]; intros c Hs Hst Hn Hd Hsum.
  { exists c. split; [done|]. cbn. split; [lia|]. split; [done|lia]. }
  apply Forall_cons in Hd as [Hd0 Hd]. change (sum_over id (d :: ds)) with (d + sum_over id ds) in *.
  assert (0 ≤ sum_over id ds) by (apply sum_over_nonneg; intros x Hx; rewrite Forall_forall in Hd; by apply Hd).
  destruct (complete_spec c d) as (c1 & E1 & Hl & Hlt & Heq); [done|done|lia|done|]. cbn [complete_all]. rewrite E1. cbn [mbind result_bind].
  destruct (decide (d < nr_left c)) as [Hlt'|Hge].
  - assert (Hst1 : state c1 = state c) by auto.
    destruct (IH c1) as (c2 & E2 & Hl2 & Hp & He); [unfold current_status in *; by rewrite Hst1|lia|lia|done|lia|].
    exists c2. split; [done|]. split; [lia|]. split; [intros; apply Hp; lia|]. intros. rewrite <- Hst1. apply He. lia.
  - assert (d = nr_left c) by lia. assert (Hz : ∀ x, x ∈ ds → x = 0).
    { apply sum_over_zero_all; [|lia]. intros x Hx. rewrite Forall_forall in Hd. by apply Hd. }
    assert (Hc : ∀ c, complete_all c ds = Ok c).
    { clear -Hz. induction ds as [|y ds IH]; intros c; [done|]. cbn. rewrite (Hz y) by left. cbn. apply IH. intros. apply Hz. by right. }
    exists c1. split; [apply Hc|]. split; [lia|]. split; [lia|]. intros _. by apply Heq.
Qed.

End Recv.

(** * Properties *)

Section Table.
Import Recv.

Lemma start_header k : 0 ≤ k < 2 ^ 31 →
  Z.lor (Z.shiftl 0xFF 56) k = 0xFF * 2 ^ 56 + k ∧ Z.land (0xFF * 2 ^ 56 + k) (2 ^ 31 - 1) = k ∧
  Z.land (Z.shiftr (0xFF * 2 ^ 56 + k) 56) 0xFF = 0xFF.
Proof using Type.
  intros Hk. split; [|split].
  - rewrite Z.shiftl_mul_pow2 by lia. symmetry. apply Z.add_nocarry_lor. apply Z.bits_inj'. intros j Hj. rewrite Z.land_spec, Z.bits_0.
    destruct (Z_lt_le_dec j 56); [by rewrite Z.mul_pow2_bits_low by lia|]. by rewrite (testbit_high k 56 j), andb_false_r by lia.
  - change (2 ^ 31 - 1) with (Z.ones 31). rewrite Z.land_ones by lia. symmetry. apply Z.mod_unique with (0xFF * 2 ^ 25); lia.
  - replace (Z.shiftr (0xFF * 2 ^ 56 + k) 56) with 0xFF; [done|]. rewrite Z.shiftr_div_pow2 by lia. apply Z.div_unique with k; lia.
Qed.

(** the entries behind the sender's id *)
Lemma table_words id ents rest i x : 0 ≤ id < 2 ^ 32 → Forall (fun x => 0 ≤ x < 2 ^ 32) ents → (id :: ents) !! i = Some x →
  le_combine (take 4 (drop (4 * i) (le_split 4 id ++ flat_map (le_split 4) ents ++ rest))) = x.
Proof using Type.
  intros Hid He Hi. change (le_split 4 id ++ flat_map (le_split 4) ents ++ rest) with (flat_map (le_split 4) (id :: ents) ++ rest).
  assert (Hall : Forall (fun x => 0 ≤ x < 2 ^ 32) (id :: ents)) by (by constructor). revert Hi Hall.
  generalize (id :: ents) as l. clear. intros l. revert i. induction l as [|y l IH]; intros i Hi Hl; [done|].
  apply Forall_cons in Hl as [Hy Hl]. cbn [flat_map]. rewrite <- app_assoc. destruct i as [|i].
  - injection Hi as ->. change (4 * 0)%nat with 0%nat. rewrite drop_0, take_split. by apply le_combine_split.
  - replace (4 * S i)%nat with (4 + 4 * i)%nat by lia. rewrite <- drop_drop, drop_split. by apply IH.
Qed.

Lemma poll_table_spec c id ents rest :
  nr_left c = 0 → 0 ≤ id < 2 ^ 32 → Forall (fun x => 0 ≤ x < 2 ^ 32) ents → len ents ≤ 253 →
  poll_table c (encode_start_phase id ents ++ rest) =
    Ok (Some (AdvanceStatus (mkRc (state c) kMaxPiecesPerPhase id), ents, len (encode_start_phase id ents))).
Proof using Type.
  intros Hn Hid He Hk. destruct (start_header (len ents) ltac:(lia)) as (H1 & H2 & H3).
  assert (Hlen : len (encode_start_phase id ents) = 12 + 4 * len ents).
  { unfold encode_start_phase. rewrite !length_app, !length_le_split, length_words. lia. }
  assert (Hh : le_combine (take 8 (encode_start_phase id ents ++ rest)) = 0xFF * 2 ^ 56 + len ents).
  { unfold encode_start_phase. rewrite H1, <- app_assoc. apply header_read. lia. }
  unfold poll_table. rewrite length_app, Nat2Z.inj_add, Hlen. rewrite (proj2 (Z.ltb_ge _ 8)), Hh by lia.
  rewrite H3, H2. cbn [Z.eqb Pos.eqb negb abort_if mbind result_bind]. rewrite (u32_id (4 + 4 * len ents)), u32_id by lia.
  replace (8 + (4 + 4 * len ents)) with (12 + 4 * len ents) by lia.
  rewrite (proj2 (Z.ltb_ge kMaxMappingTableBuffer _)) by (unfold kMaxMappingTableBuffer; lia). cbn [abort_if mbind result_bind].
  rewrite (proj2 (Z.ltb_ge _ _)) by lia. unfold Reset. rewrite Hn. cbn [Z.eqb mbind result_bind state nr_left src_node_id].
  set (data := take (Z.to_nat (12 + 4 * len ents - 8)) _).
  assert (Hd : data = le_split 4 id ++ flat_map (le_split 4) ents).
  { unfold data, encode_start_phase. rewrite <- !app_assoc, drop_split, app_assoc.
    replace (Z.to_nat (12 + 4 * len ents - 8)) with (length (le_split 4 id ++ flat_map (le_split 4) ents)).
    - apply take_app_length.
    - rewrite length_app, length_le_split, length_words. lia. }
  rewrite <- (app_nil_r (flat_map (le_split 4) ents)) in Hd. rewrite Hd.
  rewrite (table_words id ents [] 0 id) by done. do 3 f_equal. f_equal. apply list_eq. intros i.
  rewrite list_lookup_fmap. destruct (ents !! i) as [x|] eqn:E.
  - assert (i < length ents)%nat by (apply lookup_lt_is_Some; by eexists). rewrite lookup_seq_lt by lia. cbn [fmap option_fmap option_map].
    f_equal. by apply (table_words id ents [] (S i) x).
  - apply lookup_ge_None in E. rewrite lookup_seq_ge by lia. done.
Qed.

End Table.

(** The receiver of a channel follows the phases of the sender: after a phase, the
    channel is restarted, takes the sender's id and the slice-mapping commands from
    the start message (a start message of more than 253 commands is rejected), and
    polls routines; it ends the phase exactly when the pieces and future values it
    has read, together with the placeholder for those that will not come, make up
    [kMaxPiecesPerPhase], in whatever order they are counted. *)
Theorem receiver_phase c nid ents rest :
  Recv.current_status c = Recv.EndOfPhase → Recv.nr_left c = 0 → 0 ≤ Recv.state c < 2 ^ 60 →
  0 ≤ nid < 2 ^ 32 → Forall (fun x => 0 ≤ x < 2 ^ 32) ents → len ents < 2 ^ 28 →
  ∃ c1, Recv.ContinueInbound c = Ok c1 ∧
  (len ents ≤ 253 → ∃ c2,
    Recv.poll_table c1 (encode_start_phase nid ents ++ rest) = Ok (Some (c2, ents, len (encode_start_phase nid ents))) ∧
    Recv.src_node_id c2 = nid ∧ Recv.current_status c2 = Recv.PollingRoutines ∧
    ∀ ds, Forall (fun d => 0 ≤ d) ds → sum_over id ds ≤ kMaxPiecesPerPhase → ∃ c3,
      Recv.complete_all c2 ds = Ok c3 ∧ Recv.nr_left c3 = kMaxPiecesPerPhase - sum_over id ds ∧
      (sum_over id ds < kMaxPiecesPerPhase → Recv.current_status c3 = Recv.PollingRoutines) ∧
      (sum_over id ds = kMaxPiecesPerPhase → Recv.state c3 = Recv.state c + 3 ∧ Recv.current_status c3 = Recv.EndOfPhase)) ∧
  (253 < len ents → Recv.poll_table c1 (encode_start_phase nid ents ++ rest) = Err Aborted).
Proof.
  intros Hs Hn Hst Hid He Hlen. assert (Hm : Recv.state c mod 3 = 2).
  { unfold Recv.current_status, Recv.kTotalStates in Hs. pose proof (Z.mod_pos_bound (Recv.state c) 3).
    destruct (Recv.state c mod 3) as [|[p|p|]|]; try done; lia. }
  unfold Recv.ContinueInbound. rewrite bool_decide_true by done. eexists. split; [done|]. split.
  - intros Hk. rewrite poll_table_spec by done. eexists. split; [done|]. split; [done|].
    assert (Hst2 : Recv.state (Recv.AdvanceStatus (Recv.mkRc (Recv.state (Recv.AdvanceStatus c)) kMaxPiecesPerPhase nid)) = Recv.state c + 2).
    { cbn. rewrite (u64_id (Recv.state c + 1)), u64_id by lia. lia. }
    assert (Hp : Recv.current_status (Recv.AdvanceStatus (Recv.mkRc (Recv.state (Recv.AdvanceStatus c)) kMaxPiecesPerPhase nid)) = Recv.PollingRoutines).
    { unfold Recv.current_status, Recv.kTotalStates. rewrite Hst2. by rewrite Z.add_mod, Hm by lia. }
    split; [exact Hp|]. intros ds Hd Hsum.
    destruct (Recv.complete_all_spec ds _ Hp) as (c3 & E3 & Hl & Hlt & Heq);
      [lia|cbn; unfold kMaxPiecesPerPhase; lia|done|done|].
    exists c3. split; [done|]. split; [done|]. split; [done|]. intros E. destruct (Heq E) as [Hs3 He3]. split; [lia|done].
  - intros Hk. destruct (start_header (len ents) ltac:(lia)) as (H1 & H2 & H3). unfold Recv.poll_table.
    assert (Hh : le_combine (take 8 (encode_start_phase nid ents ++ rest)) = 0xFF * 2 ^ 56 + len ents).
    { unfold encode_start_phase. rewrite H1, <- app_assoc. apply header_read. lia. }
    rewrite Hh, H3, H2. unfold encode_start_phase at 1. rewrite !length_app, !length_le_split.
    rewrite (proj2 (Z.ltb_ge _ 8)) by lia. cbn [Z.eqb Pos.eqb negb abort_if mbind result_bind].
    rewrite (u32_id (4 + 4 * len ents)), u32_id by lia. unfold Recv.kMaxMappingTableBuffer. by rewrite (proj2 (Z.ltb_lt 1024 _)) by lia.
Qed.

Lemma receiver_phase_witness :
  ∃ c1, Recv.ContinueInbound Recv.new_channel = Ok c1 ∧ ∃ c2,
  Recv.poll_table c1 (encode_start_phase 3 [7; 8] ++ []) = Ok (Some (c2, [7; 8], 20)) ∧
  ∃ c3, Recv.complete_all c2 [5; kMaxPiecesPerPhase - 7; 2] = Ok c3 ∧ Recv.current_status c3 = Recv.EndOfPhase.
Proof.
  destruct (receiver_phase Recv.new_channel 3 [7; 8] []) as (c1 & E1 & H1 & _);
    [done|done|by vm_compute|lia|repeat constructor; lia|cbn; lia|].
  exists c1. split; [exact E1|]. destruct H1 as (c2 & E2 & _ & _ & H); [cbn; lia|]. exists c2. split; [exact E2|].
  destruct (H [5; kMaxPiecesPerPhase - 7; 2]) as (c3 & E3 & _ & _ & H3); [repeat constructor; unfold kMaxPiecesPerPhase; lia|cbn; lia|].
  exists c3. split; [exact E3|]. apply H3. by vm_compute.
Defined.

(** a message to send, or a flush *)
Definition send_event (o : option Msg) : Send.SEvent := match o with Some m => Send.SSend (encode m) | None => Send.SFlush end.
Definition sent_msgs (evs : list (option Msg)) : list Msg := omap (fun o => o) evs.

Lemma sends_encode evs : Send.sends (send_event <$> evs) = encode <$> sent_msgs evs.
Proof.
  induction evs as [|[m|] evs IH]; [done| |exact IH]. rewrite fmap_cons.
  change (Send.sends (send_event (Some m) :: ?l)) with (encode m :: Send.sends l). rewrite IH. done.
Qed.

Lemma concat_map {A} (gs : list (list (list A))) : concat (map (@concat A) gs) = concat (concat gs).
Proof. induction gs as [|g gs IH]; cbn; [done|]. by rewrite IH, concat_app. Qed.

Lemma concat_encode ms : concat (encode <$> ms) = flat_map encode ms.
Proof. induction ms as [|m ms IH]; cbn; [done|]. by rewrite IH. Qed.

Lemma pieces_of_take k ms : pieces_of (take k ms) ≤ pieces_of ms.
Proof.
  rewrite <- (take_drop k ms) at 2. unfold pieces_of. rewrite sum_over_app.
  assert (0 ≤ sum_over (fun m => match m with MPiece _ _ _ => 1 | _ => 0 end) (drop k ms)); [|lia].
  apply sum_over_nonneg. intros x _. by destruct x.
Qed.


