(* ===== verification/HashIndex.v ===== *)
(** The hash table index (hashtable_index_impl.cc/.h): buckets are chains of entries
    that threads search and extend without locks. A thread's operation is a
    sequence of atomic steps; the first entry of a bucket lies in the table, the
    others in the rows that were created for them. The hash function is a
    parameter. *)

From S2P Require Import Prelude.

(** ** Keys *)

(** [HashEntry::Convert]: the key's bytes in an array of sixteen; [std::copy] of a longer
    key writes behind it *)
Definition Convert (k : list Z) : result (list Z) :=
  if len k <=? 16 then Ok (k ++ replicate (16 - length k) 0) else Err OutOfRange.

Lemma Convert_inj k1 k2 x : length k1 = length k2 → Convert k1 = Ok x → Convert k2 = Ok x → k1 = k2.
Proof.
  intros Hl H1 H2. unfold Convert in *. destruct (len k1 <=? 16), (len k2 <=? 16); try done.
  injection H1 as <-. injection H2 as H2. apply app_inj_1 in H2 as [? _]; done.
Qed.

(** keys that differ in trailing zero bytes share their entry *)
Lemma Convert_padding k : len k < 16 → Convert k = Convert (k ++ [0]).
Proof.
  intros H. unfold Convert. rewrite length_app. cbn [length]. rewrite !(proj2 (Z.leb_le _ 16)) by lia. f_equal.
  rewrite <- app_assoc. f_equal. replace (16 - length k)%nat with (S (16 - (length k + 1)))%nat by lia. done.
Qed.

(** ** Buckets and threads *)

(** what [first->next] says about a bucket; a chain lists the entries with the thread
    that added them. An entry's index in the chain names its row *)
Inductive Bucket := Uninitialized | Initializing | Chain (entries : list (list Z * Z)).

(** where an operation stands: before and after the test of the first entry, after
    winning the initialization, waiting for it, at entry [pos] or, [at_end], at the
    end of the chain behind entry [pos - 1], and returned *)
Inductive Pc :=
| Start | TryInit | Init | Wait
| Scan (pos : nat) (at_end : bool) (new_row : bool)
| Found (pos : nat) (created : bool)
| NotFound.

(** one call: its kind, converted key and bucket; [seen] is the length of the chain
    when it began *)
Record Thread := mkTh { search : bool; key : list Z; bucket : Z; pc : Pc; seen : nat }.

Definition chain (b : Bucket) : list (list Z * Z) := match b with Chain l => l | _ => [] end.

(** one step of thread [t] of [SearchOrCreate], or of [Search] *)
Definition step_thread (t : Z) (th : Thread) (b : Bucket) : result (Bucket * Pc) :=
  match pc th with
  | Start =>
      match b with
      | Uninitialized => Ok (b, if search th then NotFound else TryInit)
      | _ => Ok (b, Wait)
      end
  | TryInit => match b with Uninitialized => Ok (Initializing, Init) | _ => Ok (b, Wait) end
  | Init => Ok (Chain [(key th, t)], Found 0 true)
  | Wait => match b with Initializing => Err Blocked | _ => Ok (b, Scan 0 false false) end
  | Scan pos false new_row =>
      match chain b !! pos with
      | Some (x, _) =>
          if bool_decide (x = key th) then Ok (b, Found pos false)
          else Ok (b, Scan (S pos) (bool_decide (length (chain b) = S pos)) new_row)
      | None => Err OutOfRange
      end
  | Scan pos true new_row =>
      if search th then Ok (b, NotFound)
      else if bool_decide (length (chain b) = pos) then Ok (Chain (chain b ++ [(key th, t)]), Found pos true)
      else Ok (b, Scan pos false true)
  | Found _ _ | NotFound => Err Blocked
  end.

(** the table and the calls in progress, one per thread *)
Record Index := mkIx { buckets : Z → Bucket; threads : Z → Thread }.

Definition with_pc (th : Thread) (p : Pc) : Thread :=
  mkTh (search th) (key th) (bucket th) p (seen th).

(** a step of thread [t]; a call that begins notes the length of the chain *)
Definition step (t : Z) (s : Index) : result Index :=
  let th := threads s t in
  let b := buckets s (bucket th) in
  '(b', p) ← step_thread t th b;
  let th := match pc th with Start => mkTh (search th) (key th) (bucket th) p (length (chain b)) | _ => with_pc th p end in
  Ok (mkIx (<[bucket th := b']> (buckets s)) (<[t := th]> (threads s))).

Section Index.
(** the threads, each with the call it makes *)
Context (n : Z) (calls : Z → bool * list Z) (hash : list Z → Z) (nr_buckets : Z).

Definition initial_thread (t : Z) : Thread :=
  let '(f, k) := calls t in mkTh f k (hash k mod nr_buckets) Start 0.
Definition initial : Index := mkIx (fun _ => Uninitialized) initial_thread.

Inductive reachable : Index → Prop :=
| ix_init : reachable initial
| ix_step s t s' : reachable s → 0 ≤ t < n → step t s = Ok s' → reachable s'.

(** ** The invariant *)

(** what a thread knows about its bucket's chain *)
Definition thread_ok (t : Z) (th : Thread) (b : Bucket) : Prop :=
  match pc th with
  | Start => True
  | TryInit => search th = false ∧ seen th = 0%nat
  | Init => b = Initializing ∧ search th = false
  | Wait => b ≠ Uninitialized ∧ (seen th ≤ length (chain b))%nat
  | Scan pos e _ =>
      chain b ≠ [] ∧ (seen th ≤ length (chain b))%nat ∧
      (pos ≤ length (chain b))%nat ∧ (if e then (seen th ≤ pos)%nat else (pos < length (chain b))%nat) ∧
      key th ∉ (take pos (chain b)).*1
  | Found pos c => ∃ t', chain b !! pos = Some (key th, t') ∧ (c = true ↔ t' = t)
  | NotFound => search th = true ∧ (seen th ≤ length (chain b))%nat ∧ key th ∉ (take (seen th) (chain b)).*1
  end.

Record Inv (s : Index) : Prop := {
  ix_calls : ∀ t, search (threads s t) = (calls t).1 ∧ key (threads s t) = (calls t).2 ∧
                  bucket (threads s t) = hash (calls t).2 mod nr_buckets;
  ix_threads : ∀ t, 0 ≤ t < n → thread_ok t (threads s t) (buckets s (bucket (threads s t)));
  ix_out : ∀ t, ¬ 0 ≤ t < n → pc (threads s t) = Start;
  ix_nodup : ∀ i, NoDup (chain (buckets s i)).*1;
  ix_owner : ∀ i pos x t, chain (buckets s i) !! pos = Some (x, t) →
    0 ≤ t < n ∧ bucket (threads s t) = i ∧ pc (threads s t) = Found pos true;
  ix_init_one : ∀ i, buckets s i = Initializing → ∃ t, 0 ≤ t < n ∧ bucket (threads s t) = i ∧ pc (threads s t) = Init;
  ix_init_only : ∀ t t', 0 ≤ t < n → 0 ≤ t' < n → pc (threads s t) = Init → pc (threads s t') = Init →
    bucket (threads s t) = bucket (threads s t') → t = t';
  ix_nonempty : ∀ i, buckets s i ≠ Chain [];
}.

(** how a step changes a bucket *)
Inductive grows : Bucket → Bucket → Prop :=
| grow_same b : grows b b
| grow_init : grows Uninitialized Initializing
| grow_first e : grows Initializing (Chain [e])
| grow_append l e : l ≠ [] → grows (Chain l) (Chain (l ++ [e])).

Lemma grows_chain b b' : grows b b' → ∃ m, chain b' = chain b ++ m.
Proof using Type. destruct 1 as [b| |e|l e Hl]; [exists []; by rewrite app_nil_r|by exists []|by exists [e]|by exists [e]]. Qed.

(** other threads keep what they know *)
Lemma thread_ok_grows t th b b' : grows b b' → (pc th = Init → b = b') → thread_ok t th b → thread_ok t th b'.
Proof using Type.
  intros Hg Hi. destruct (grows_chain b b' Hg) as (m & E). unfold thread_ok. destruct (pc th) as [| | | |pos e r|pos c|] eqn:Ep; try done.
  - by rewrite <- Hi.
  - rewrite E, length_app. intros [H1 H2]. split; [|lia]. by destruct Hg.
  - rewrite E, length_app. intros (H0 & H1 & H2 & H3 & H4). split; [by destruct (chain b)|]. split; [lia|]. split; [lia|].
    split; [destruct e; lia|]. by rewrite take_app_le by lia.
  - rewrite E. intros (t' & H1 & H2). exists t'. split; [|done]. by apply lookup_app_l_Some.
  - rewrite E, length_app. intros (H1 & H2 & H3). split; [done|]. split; [lia|]. by rewrite take_app_le by lia.
Qed.

(** what a step of thread [t] does to its bucket *)
Record StepOk (t : Z) (th : Thread) (b b' : Bucket) (p : Pc) : Prop := {
  so_grows : grows b b';
  so_thread : thread_ok t (match pc th with Start => mkTh (search th) (key th) (bucket th) p (length (chain b)) | _ => with_pc th p end) b';
  so_nodup : NoDup (chain b').*1;
  so_nonempty : b' ≠ Chain [];
  so_entries : ∀ pos x t', chain b' !! pos = Some (x, t') → chain b !! pos = Some (x, t') ∨ t' = t ∧ p = Found pos true;
  so_init : b' = Initializing → b = Initializing ∧ p ≠ Init ∧ pc th ≠ Init ∨ b = Uninitialized ∧ p = Init;
  so_init_pc : p = Init → b' = Initializing ∧ b = Uninitialized;
  so_first : b = Initializing → b' = Initializing ∨ pc th = Init;
}.

(** a step that leaves the bucket as it is *)
Lemma step_same t th b p : b ≠ Chain [] → NoDup (chain b).*1 → p ≠ Init → (pc th = Init → False) →
  thread_ok t (match pc th with Start => mkTh (search th) (key th) (bucket th) p (length (chain b)) | _ => with_pc th p end) b →
  StepOk t th b b p.
Proof using Type. intros Hb Hn Hp Hi Ht. split; [constructor|done|done|done|by left|left; by repeat split|done|by left]. Qed.

Lemma step_thread_ok t th b b' p :
  b ≠ Chain [] → thread_ok t th b → NoDup (chain b).*1 →
  (∀ pos x, chain b !! pos = Some (x, t) → ∃ q, pc th = Found q true) →
  step_thread t th b = Ok (b', p) → StepOk t th b b' p.
Proof using Type.
  intros Hne Hok Hnd Hown H. unfold step_thread in H. unfold thread_ok in Hok.
  destruct (pc th) as [| | | |pos e r|pos c|] eqn:Ep; try done.
  - destruct b as [| |l]; injection H as <- <-; (apply step_same; [done|done|by destruct (search th)|by rewrite Ep|rewrite Ep]).
    + destruct (search th) eqn:Es; cbn; [split; [done|]; split; [lia|]; apply not_elem_of_nil|done].
    + done.
    + done.
  - destruct Hok as [Hs Hsn]. destruct b as [| |l]; injection H as <- <-.
    + split; rewrite ?Ep; cbn; try done; [constructor|right; done].
    + apply step_same; [done|done|done|by rewrite Ep|rewrite Ep; cbn; split; [done|lia]].
    + apply step_same; [done|done|done|by rewrite Ep|rewrite Ep; cbn; split; [done|lia]].
  - destruct Hok as [-> Hs]. injection H as <- <-. split; rewrite ?Ep; cbn; try done; [constructor|by exists t|apply NoDup_singleton| |by right].
    intros [|pos] x t' E; [|done]. injection E as <- <-. by right.
  - destruct b as [| |l]; [by destruct Hok|done|]. injection H as <- <-. destruct l as [|y l]; [done|].
    apply step_same; [done|done|done|by rewrite Ep|rewrite Ep; cbn]. destruct Hok as [_ Hok]. split; [done|]. split; [done|].
    split; [lia|]. split; [lia|apply not_elem_of_nil].
  - destruct Hok as (Hc & Hsn & Hp & He & Hk). destruct e.
    + destruct (search th) eqn:Es.
      * injection H as <- <-. apply step_same; [done|done|done|by rewrite Ep|rewrite Ep; cbn]. split; [done|]. split; [done|].
        intros Hin. apply Hk. apply list_elem_of_fmap in Hin as (y & Ey & Hy). apply list_elem_of_fmap. exists y. split; [done|].
        replace (take (seen th) (chain b)) with (take (seen th) (take pos (chain b))) in Hy by (rewrite take_take; f_equal; lia).
        rewrite <- (take_drop (seen th) (take pos (chain b))). apply elem_of_app. by left.
      * case_bool_decide as El; injection H as <- <-.
        -- destruct b as [| |l]; try done. cbn in *. subst pos. rewrite take_ge in Hk by lia.
           split; rewrite ?Ep; cbn; try done.
           ++ by constructor.
           ++ exists t. split; [|done]. by rewrite lookup_app_r, Nat.sub_diag by lia.
           ++ rewrite fmap_app. apply NoDup_app. split; [done|]. split; [|apply NoDup_singleton].
              intros x Hx Hx'%list_elem_of_singleton. subst x. done.
           ++ intros [= E]. by destruct l.
           ++ intros pos x t'. rewrite lookup_app_Some, list_lookup_singleton_Some. intros [E|(H1 & H2 & E)]; [by left|].
              injection E as <- <-. right. split; [done|]. f_equal. lia.
        -- apply step_same; [done|done|done|by rewrite Ep|rewrite Ep; cbn]. split; [done|]. split; [done|]. split; [lia|]. split; [lia|done].
    + destruct (chain b !! pos) as [[x t0]|] eqn:El; [|done]. pose proof (lookup_lt_Some _ _ _ El) as Hlt.
      case_bool_decide as Ex; injection H as <- <-; (apply step_same; [done|done|done|by rewrite Ep|rewrite Ep; cbn]).
      * subst x. exists t0. split; [done|]. split; [done|]. intros ->. destruct (Hown pos (key th) El) as (q & Hq). congruence.
      * split; [done|]. split; [done|]. split; [lia|]. split; [case_bool_decide; lia|].
        rewrite (take_S_r _ _ _ El), fmap_app. cbn. intros [Hin|Hin%list_elem_of_singleton]%elem_of_app; [done|by subst].
Qed.

(** the thread after its step *)
Definition next_thread (th : Thread) (p : Pc) (b : Bucket) : Thread :=
  match pc th with Start => mkTh (search th) (key th) (bucket th) p (length (chain b)) | _ => with_pc th p end.

Lemma next_thread_eq th p b : search (next_thread th p b) = search th ∧ key (next_thread th p b) = key th ∧
  bucket (next_thread th p b) = bucket th ∧ pc (next_thread th p b) = p.
Proof using Type. unfold next_thread. by destruct (pc th). Qed.

Lemma index_step_inv t s s' : Inv s → 0 ≤ t < n → step t s = Ok s' → Inv s'.
Proof using Type.
  intros H Ht E. unfold step in E. set (th := threads s t) in *. set (i := bucket th) in *. set (b := buckets s i) in *.
  apply bind_ok in E as ([b' p] & Es & E).
  change (Ok (mkIx (<[bucket (next_thread th p b) := b']> (buckets s)) (<[t := next_thread th p b]> (threads s))) = Ok s') in E.
  destruct (next_thread_eq th p b) as (Hs & Hk & Hb & Hp).
  rewrite Hb in E. injection E as <-. fold i in Hb |- *.
  assert (Hnf : ∀ q c, pc th ≠ Found q c) by (intros q c Eq; unfold step_thread in Es; by rewrite Eq in Es).
  destruct (step_thread_ok t th b b' p) as [Hg Hth Hnd Hne Hent Hin Hinp Hfst]; [apply (ix_nonempty _ H)|by apply (ix_threads _ H)|
    apply (ix_nodup _ H)| |exact Es|].
  { intros pos x El. destruct (ix_owner _ H i pos x t El) as (_ & _ & Eq). by eexists. }
  split; cbn.
  - intros u. destruct (decide (u = t)) as [->|Hu].
    + rewrite fn_lookup_insert, Hs, Hk, Hb. apply (ix_calls _ H).
    + rewrite fn_lookup_insert_ne by done. apply (ix_calls _ H).
  - intros u Hu. destruct (decide (u = t)) as [->|Hut].
    + rewrite fn_lookup_insert, Hb, fn_lookup_insert. exact Hth.
    + rewrite fn_lookup_insert_ne by done. pose proof (ix_threads _ H u Hu) as Hok.
      destruct (decide (bucket (threads s u) = i)) as [Ei|Ei]; [|by rewrite fn_lookup_insert_ne by done].
      rewrite Ei, fn_lookup_insert. rewrite Ei in Hok. apply (thread_ok_grows _ _ b); [done| |done]. intros Hi.
      unfold thread_ok in Hok. rewrite Hi in Hok. destruct Hok as [Hbi _]. fold b in Hbi.
      destruct (Hfst Hbi) as [->|Hti]; [done|]. destruct Hut. apply (ix_init_only _ H); done.
  - intros u Hu. rewrite fn_lookup_insert_ne by (intros ->; done). by apply (ix_out _ H).
  - intros j. destruct (decide (j = i)) as [->|Hj]; [by rewrite fn_lookup_insert|]. rewrite fn_lookup_insert_ne by done. apply (ix_nodup _ H).
  - intros j pos x u. destruct (decide (j = i)) as [->|Hj].
    + rewrite fn_lookup_insert. intros El. destruct (Hent pos x u El) as [Ho|[-> ->]].
      * destruct (ix_owner _ H i pos x u Ho) as (Hu & Hbu & Hpu). destruct (decide (u = t)) as [->|Hut]; [by destruct (Hnf pos true)|].
        by rewrite fn_lookup_insert_ne.
      * by rewrite fn_lookup_insert.
    + rewrite fn_lookup_insert_ne by done. intros El. destruct (ix_owner _ H j pos x u El) as (Hu & Hbu & Hpu).
      destruct (decide (u = t)) as [->|Hut]; [by destruct (Hnf pos true)|]. by rewrite fn_lookup_insert_ne.
  - intros j. destruct (decide (j = i)) as [->|Hj].
    + rewrite fn_lookup_insert. intros Ei. destruct (Hin Ei) as [(Hbi & _ & Hpi)|[_ ->]].
      * destruct (ix_init_one _ H i Hbi) as (u & Hu & Hbu & Hpu). exists u.
        rewrite fn_lookup_insert_ne by (intros ->; done). done.
      * exists t. by rewrite fn_lookup_insert.
    + rewrite fn_lookup_insert_ne by done. intros Ei. destruct (ix_init_one _ H j Ei) as (u & Hu & Hbu & Hpu). exists u.
      rewrite fn_lookup_insert_ne by (intros ->; fold th in Hbu; by fold i in Hbu). done.
  - assert (Hno : ∀ u, 0 ≤ u < n → u ≠ t → p = Init → pc (threads s u) = Init → bucket (threads s u) = i → False).
    { intros u Hu Hut Hpi Hpu Hbu. destruct (Hinp Hpi) as [_ Hbu0]. pose proof (ix_threads _ H u Hu) as Hok. unfold thread_ok in Hok.
      rewrite Hpu, Hbu in Hok. destruct Hok as [Hok _]. fold b in Hok. congruence. }
    intros u v Hu Hv. destruct (decide (u = t)) as [->|Hut], (decide (v = t)) as [->|Hvt]; rewrite ?fn_lookup_insert, ?fn_lookup_insert_ne by done; try done.
    + rewrite Hp, Hb. intros Hpi Hpv E. by destruct (Hno v Hv Hvt Hpi Hpv).
    + rewrite Hp, Hb. intros Hpu Hpi E. by destruct (Hno u Hu Hut Hpi Hpu).
    + by apply (ix_init_only _ H).
  - intros j. destruct (decide (j = i)) as [->|Hj]; [by rewrite fn_lookup_insert|]. rewrite fn_lookup_insert_ne by done. apply (ix_nonempty _ H).
Qed.

Lemma initial_inv : Inv initial.
Proof using Type.
  split; cbn; try done.
  - intros t. unfold initial_thread. by destruct (calls t).
  - intros t _. unfold thread_ok, initial_thread. by destruct (calls t).
  - intros t _. unfold initial_thread. by destruct (calls t).
  - intros i. apply NoDup_nil_2.
  - intros t t' _ _. unfold initial_thread. by destruct (calls t).
Qed.

Lemma index_reachable_inv s : reachable s → Inv s.
Proof using Type. induction 1 as [|s t s' _ IH Ht E]; [apply initial_inv|by apply (index_step_inv t s)]. Qed.

(** ** Progress *)

(** each thread adds at most one entry *)
Lemma chain_length s i : Inv s → 0 ≤ n → len (chain (buckets s i)) ≤ n.
Proof using Type.
  intros H Hn. assert (Hnd : NoDup (chain (buckets s i)).*2).
  { apply NoDup_alt. intros p q t. rewrite !list_lookup_fmap, !fmap_Some.
    intros ([x ?] & Ep & ->) ([y u] & Eq & E). cbn in E. subst u.
    destruct (ix_owner _ H i p x _ Ep) as (_ & _ & H1), (ix_owner _ H i q y _ Eq) as (_ & _ & H2). congruence. }
  assert (Hsub : (chain (buckets s i)).*2 ⊆+ seqZ 0 n).
  { apply NoDup_submseteq; [done|]. intros t Ht. apply list_elem_of_fmap in Ht as ([x u] & -> & Hu).
    apply list_elem_of_lookup in Hu as (p & Ep). destruct (ix_owner _ H i p x u Ep) as (Hr & _). apply elem_of_seqZ. cbn. lia. }
  apply submseteq_length in Hsub. rewrite length_fmap, length_seqZ in Hsub. lia.
Qed.

Definition todo (p : Pc) : Z :=
  match p with
  | Start => 2 * n + 8 | TryInit => 2 * n + 7 | Wait => 2 * n + 6 | Init => 1
  | Scan pos e _ => 2 * (n + 1 - Z.of_nat pos) + (if e then 1 else 0)
  | Found _ _ | NotFound => 0
  end.

Lemma step_todo t s s' : Inv s → 0 ≤ t < n → step t s = Ok s' →
  threads s' = <[t := threads s' t]> (threads s) ∧ 0 ≤ todo (pc (threads s' t)) < todo (pc (threads s t)).
Proof using Type.
  intros H Ht E. pose proof (index_step_inv t s s' H Ht E) as H'. unfold step in E. apply bind_ok in E as ([b' p] & Es & E).
  change (Ok (mkIx (<[bucket (next_thread (threads s t) p (buckets s (bucket (threads s t)))) := b']> (buckets s))
    (<[t := next_thread (threads s t) p (buckets s (bucket (threads s t)))]> (threads s))) = Ok s') in E.
  injection E as <-. cbn [threads buckets] in *. rewrite fn_lookup_insert. split; [done|].
  destruct (next_thread_eq (threads s t) p (buckets s (bucket (threads s t)))) as (_ & _ & Hb & Hp). rewrite Hp.
  pose proof (chain_length s (bucket (threads s t)) H ltac:(lia)) as Hlen. pose proof (ix_threads _ H t Ht) as Hok.
  unfold thread_ok, step_thread in *. destruct (pc (threads s t)) as [| | | |pos e r|pos c|]; try done; cbn [todo].
  - destruct (buckets s _); injection Es as <- <-; [destruct (search _)|..]; cbn [todo]; lia.
  - destruct (buckets s _); injection Es as <- <-; cbn [todo]; lia.
  - injection Es as <- <-. cbn [todo]. lia.
  - destruct (buckets s _); try done; injection Es as <- <-; cbn [todo]; lia.
  - destruct Hok as (_ & _ & Hpos & _). destruct e.
    + destruct (search _); [|case_bool_decide]; injection Es as <- <-; cbn [todo]; lia.
    + destruct (_ !! pos) as [[x t0]|] eqn:El; [|done]. apply lookup_lt_Some in El.
      case_bool_decide; injection Es as <- <-; cbn [todo]; [lia|]. case_bool_decide; lia.
Qed.

(** no run is infinite *)
Lemma index_steps_acc s : Inv s → Acc (fun s' s => ∃ t, 0 ≤ t < n ∧ step t s = Ok s') s.
Proof using Type.
  remember (sum_over (fun t => todo (pc (threads s t))) (seqZ 0 n)) as w eqn:Hw. revert s Hw.
  induction w as [w IH] using (well_founded_induction (Z.lt_wf 0)). intros s Hw H. constructor. intros s' (t & Ht & E).
  pose proof (index_step_inv t s s' H Ht E) as H'. destruct (step_todo t s s' H Ht E) as [Eth Hlt].
  apply (IH (sum_over (fun t => todo (pc (threads s' t))) (seqZ 0 n))); [|done|done]. split.
  - apply sum_over_nonneg. intros u Hu. apply elem_of_seqZ in Hu. pose proof (ix_threads _ H' u ltac:(lia)) as Hok. unfold thread_ok in Hok.
    pose proof (chain_length s' (bucket (threads s' u)) H' ltac:(lia)).
    destruct (pc (threads s' u)) as [| | | |pos e r|pos c|]; cbn [todo]; try lia. destruct Hok as (_ & _ & Hp & _). destruct e; lia.
  - subst w. rewrite (sum_over_update (fun t => todo (pc (threads s t))) _ (seqZ 0 n) t).
    + lia.
    + apply NoDup_seqZ.
    + apply elem_of_seqZ. lia.
    + intros u _ Hu. by rewrite Eth, fn_lookup_insert_ne.
Qed.

(** a call that has returned *)
Definition returned (p : Pc) : Prop := match p with Found _ _ | NotFound => True | _ => False end.

(** a thread that has not returned can go on, unless it waits for one that can *)
Lemma index_progress s t : Inv s → 0 ≤ t < n → ¬ returned (pc (threads s t)) → ∃ u s', 0 ≤ u < n ∧ step u s = Ok s'.
Proof using Type.
  intros H Ht Hr. pose proof (ix_threads _ H t Ht) as Hok. unfold thread_ok in Hok.
  assert (Hstep : ∀ u, 0 ≤ u < n → (∃ r, step_thread u (threads s u) (buckets s (bucket (threads s u))) = Ok r) →
    ∃ u s', 0 ≤ u < n ∧ step u s = Ok s').
  { intros u Hu ([b p] & E). exists u. unfold step. rewrite E. cbn. by eexists. }
  destruct (pc (threads s t)) as [| | | |pos e r|pos c|] eqn:Ep; try done.
  - apply (Hstep t Ht). unfold step_thread. rewrite Ep. destruct (buckets s _); by eexists.
  - apply (Hstep t Ht). unfold step_thread. rewrite Ep. destruct (buckets s _); by eexists.
  - apply (Hstep t Ht). unfold step_thread. rewrite Ep. by eexists.
  - destruct (buckets s (bucket (threads s t))) as [| |l] eqn:Eb; [by destruct Hok| |].
    + destruct (ix_init_one _ H _ Eb) as (u & Hu & _ & Hpu). apply (Hstep u Hu). unfold step_thread. rewrite Hpu. by eexists.
    + apply (Hstep t Ht). unfold step_thread. rewrite Ep, Eb. by eexists.
  - apply (Hstep t Ht). unfold step_thread. rewrite Ep. destruct Hok as (_ & _ & _ & He & _). destruct e.
    + destruct (search _); [by eexists|]. case_bool_decide; by eexists.
    + apply lookup_lt_is_Some in He as ([x t0] & El). rewrite El. case_bool_decide; by eexists.
Qed.

End Index.

(** ** Properties *)

(** C30. The index has one row per key, whatever the interleaving of the threads: a call
    that returns a row returns the entry of its key; calls for the same key return the
    same row; exactly one of them, a [SearchOrCreate], reports it as created; only a
    [Search] can find nothing, and then the key was not in the index when the search
    began. *)
Theorem index_one_row_per_key n calls hash nr_buckets s :
  reachable n calls hash nr_buckets s →
  (∀ t pos c, 0 ≤ t < n → pc (threads s t) = Found pos c →
    ∃ u, chain (buckets s (hash (calls t).2 mod nr_buckets)) !! pos = Some ((calls t).2, u) ∧ (c = true ↔ u = t) ∧
         0 ≤ u < n ∧ pc (threads s u) = Found pos true ∧ (calls u).2 = (calls t).2) ∧
  (∀ t u pos pos' c c', 0 ≤ t < n → 0 ≤ u < n → pc (threads s t) = Found pos c → pc (threads s u) = Found pos' c' →
    (calls t).2 = (calls u).2 → pos = pos' ∧ (c = true → c' = true → t = u)) ∧
  (∀ t, 0 ≤ t < n → pc (threads s t) = NotFound →
    (calls t).1 = true ∧
    (calls t).2 ∉ (take (seen (threads s t)) (chain (buckets s (hash (calls t).2 mod nr_buckets)))).*1).
Proof.
  intros Hr. pose proof (index_reachable_inv _ _ _ _ s Hr) as H.
  assert (Hf : ∀ t pos c, 0 ≤ t < n → pc (threads s t) = Found pos c →
    ∃ u, chain (buckets s (hash (calls t).2 mod nr_buckets)) !! pos = Some ((calls t).2, u) ∧ (c = true ↔ u = t)).
  { intros t pos c Ht E. pose proof (ix_threads _ _ _ _ _ H t Ht) as Hok. unfold thread_ok in Hok. rewrite E in Hok.
    destruct Hok as (u & Hu & Hc). destruct (ix_calls _ _ _ _ _ H t) as (_ & Hk & Hb). rewrite Hk, Hb in Hu. by exists u. }
  split; [|split].
  - intros t pos c Ht E. destruct (Hf t pos c Ht E) as (u & Hu & Hc). exists u. split; [done|]. split; [done|].
    destruct (ix_owner _ _ _ _ _ H _ _ _ _ Hu) as (Hur & Hbu & Hpu). split; [done|]. split; [done|].
    pose proof (ix_threads _ _ _ _ _ H u Hur) as Hok. unfold thread_ok in Hok. rewrite Hpu, Hbu in Hok. destruct Hok as (v & Hv & _).
    destruct (ix_calls _ _ _ _ _ H u) as (_ & Hk & _). congruence.
  - intros t u pos pos' c c' Ht Hu Et Eu Hk. destruct (Hf t pos c Ht Et) as (v & Hv & Hc), (Hf u pos' c' Hu Eu) as (w & Hw & Hc').
    rewrite <- Hk in Hw. assert (pos = pos') as <-.
    { pose proof (ix_nodup _ _ _ _ _ H (hash (calls t).2 mod nr_buckets)) as Hnd.
      apply (NoDup_lookup _ pos pos' (calls t).2 Hnd); rewrite list_lookup_fmap; [by rewrite Hv|by rewrite Hw]. }
    split; [done|]. intros H1 H2. rewrite Hv in Hw. injection Hw as ->. apply Hc in H1. apply Hc' in H2. congruence.
  - intros t Ht E. pose proof (ix_threads _ _ _ _ _ H t Ht) as Hok. unfold thread_ok in Hok. rewrite E in Hok.
    destruct Hok as (H1 & _ & H2). destruct (ix_calls _ _ _ _ _ H t) as (Hs & Hk & Hb). rewrite Hk, Hb in H2. by rewrite <- Hs.
Qed.

(** Every call on the index returns: as long as a call has not returned some thread
    can take a step, no step reads outside a chain, and no run of the threads is
    infinite. *)
Theorem index_calls_return n calls hash nr_buckets s :
  reachable n calls hash nr_buckets s →
  Acc (fun s' s => ∃ t, 0 ≤ t < n ∧ step t s = Ok s') s ∧
  (∀ t, 0 ≤ t < n → step t s ≠ Err OutOfRange) ∧
  (∀ t, 0 ≤ t < n → ¬ returned (pc (threads s t)) → ∃ u s', 0 ≤ u < n ∧ step u s = Ok s').
Proof.
  intros Hr. pose proof (index_reachable_inv _ _ _ _ s Hr) as H. split; [by apply (index_steps_acc n calls hash nr_buckets)|]. split.
  - intros t Ht E. pose proof (ix_threads _ _ _ _ _ H t Ht) as Hok. unfold step, step_thread, thread_ok in *.
    destruct (pc (threads s t)) as [| | | |pos e r|pos c|]; try done.
    + by destruct (buckets s _).
    + by destruct (buckets s _).
    + by destruct (buckets s _).
    + destruct e; [by destruct (search _); [|case_bool_decide]|]. destruct Hok as (_ & _ & _ & He & _).
      apply lookup_lt_is_Some in He as ([x t0] & El). rewrite El in E. by case_bool_decide.
  - intros t. by apply (index_progress n calls hash nr_buckets).
Qed.

(** ** Witnesses *)

Module IndexSamples.
(** threads 0 and 1 create the same key, thread 2 searches another one of the bucket *)
Definition calls (t : Z) : bool * list Z := if t =? 2 then (true, [9]) else (false, [7]).
Definition hash (_ : list Z) : Z := 5.
Definition start : Index := initial calls hash 4.
Definition run (l : list Z) : result Index := foldl (fun s t => s ← s; step t s) (Ok start) l.
Definition get (r : result Index) : Index := match r with Ok s => s | Err _ => start end.
(** both test the bucket before one of them initializes it *)
Definition schedule : list Z := [0; 1; 2; 1; 0; 1; 0; 0].

Lemma index_run_reachable l s : Forall (fun t => 0 ≤ t < 3) l → run l = Ok s → reachable 3 calls hash 4 s.
Proof.
  revert s. induction l as [|t l IH] using rev_ind; intros s Hl E; [injection E as <-; constructor|].
  unfold run in E. rewrite foldl_app in E. cbn in E. apply bind_ok in E as (s0 & E0 & E).
  apply Forall_app in Hl as [Hl Ht]. apply Forall_cons in Ht as [Ht _]. apply (ix_step _ _ _ _ s0 t); [by apply IH|exact Ht|exact E].
Qed.

Lemma schedule_reachable : reachable 3 calls hash 4 (get (run schedule)).
Proof.
  apply (index_run_reachable schedule); [repeat constructor; lia|].
  assert (E : match run schedule with Ok _ => true | Err _ => false end = true) by by vm_compute. by destruct (run schedule).
Qed.
End IndexSamples.
Import IndexSamples.

Lemma index_one_row_per_key_witness :
  let s := get (run schedule) in
  pc (threads s 0) = Found 0 false ∧ pc (threads s 1) = Found 0 true ∧ pc (threads s 2) = NotFound ∧
  (∀ t, 0 ≤ t < 3 → pc (threads s t) = NotFound → (IndexSamples.calls t).1 = true).
Proof.
  destruct (index_one_row_per_key 3 IndexSamples.calls IndexSamples.hash 4 (get (run schedule)) schedule_reachable) as (_ & _ & H).
  cbn zeta. split; [by vm_compute|]. split; [by vm_compute|]. split; [by vm_compute|]. intros t Ht E. apply (H t Ht E).
Defined.

Lemma index_calls_return_witness :
  let s := get (run [0; 1]) in
  pc (threads s 0) = TryInit ∧ ∃ u s', 0 ≤ u < 3 ∧ step u s = Ok s'.
Proof.
  assert (Hr : reachable 3 IndexSamples.calls IndexSamples.hash 4 (get (run [0; 1]))).
  { apply (index_run_reachable [0; 1]); [repeat constructor; lia|].
    assert (E : match run [0; 1] with Ok _ => true | Err _ => false end = true) by by vm_compute. by destruct (run [0; 1]). }
  destruct (index_calls_return 3 IndexSamples.calls IndexSamples.hash 4 (get (run [0; 1])) Hr) as (_ & _ & H).
  cbn zeta. split; [by vm_compute|]. apply (H 0); [lia|]. by vm_compute.
Defined.
