(* ===== verification/Batcher.v ===== *)
(** The messages of a phase on their way (node_config.cc/.h [TransportBatcher],
    tcp_node.cc [FinishCompletion], [OnCounterReceived]): the cores of a node count
    what they send to each node, and the one that completes the count of the plan
    flushes the channel; a receiver that knows the plans of all nodes completes the
    pieces that will not come. *)

From S2P Require Import Prelude SqlTypes Piece BufferPlan PlanFacts PlanProps Wire Channel.

(** ** State and operations *)

(** [counters], per level and node, and the [delta]s of the cores *)
Record TransportBatcher := mkTB { counters : Z → Z → Z; delta : Z → Z → Z → Z }.

Definition kMaxNrNode : Z := 254.
Definition in_array (i : Z) : result unit := if (0 <=? i) && (i <? kMaxNrNode) then Ok tt else Err OutOfRange.

Definition set_delta (b : TransportBatcher) (core level i x : Z) : TransportBatcher :=
  mkTB (counters b) (<[core := <[level := <[i := x]> (delta b core level)]> (delta b core)]> (delta b)).

(** [TransportBatcher::Reset] *)
Definition Batcher_Reset (nr_nodes nr_cores : Z) (b : TransportBatcher) : TransportBatcher :=
  let clear := fun (f : Z → Z) n => if (0 <=? n) && (n <? nr_nodes) then 0 else f n in
  mkTB (fun level => if (0 <=? level) && (level <? kPromiseMaxLevels) then clear (counters b level) else counters b level)
    (fun core => if (0 <=? core) && (core <? nr_cores) then
       fun level => if (0 <=? level) && (level <? kPromiseMaxLevels) then clear (delta b core level) else delta b core level
     else delta b core).

(** [LocalMetadata::AddRoute] *)
Definition AddRoute (b : TransportBatcher) (core level dst : Z) : result TransportBatcher :=
  _ ← in_array (dst - 1); Ok (set_delta b core level (dst - 1) (u64 (delta b core level (dst - 1) + 1))).

(** [TransportBatcher::Merge] *)
Definition Merge (b : TransportBatcher) (level core node : Z) : result (Z * TransportBatcher) :=
  _ ← in_array (node - 1);
  let v := delta b core level (node - 1) in
  let b := set_delta b core level (node - 1) 0 in
  let c := u64 (counters b level (node - 1) + v) in
  Ok (c, mkTB (<[level := <[node - 1 := c]> (counters b level)]> (counters b)) (delta b)).

Section Finish.
Context (C : Config) (p : Plan).

(** the body of [FinishCompletion]: whether the channel is flushed *)
Definition finish_one (level core dst : Z) (b : TransportBatcher) : result (bool * TransportBatcher) :=
  target ← load (total_cnts p) (BatchBufferIndex C level (node_id C) dst);
  '(cnt, b) ← Merge b level core dst;
  Ok ((cnt =? target) && (0 <? cnt), b).

(** [FinishCompletion]: the channels it flushes *)
Definition finish_dst (level core dst : Z) (s : list Z * TransportBatcher) : result (list Z * TransportBatcher) :=
  if dst =? node_id C then Ok s else
  r ← finish_one level core dst s.2; Ok (if (r : bool * TransportBatcher).1 then s.1 ++ [dst] else s.1, r.2).
Definition FinishCompletion (level core : Z) (b : TransportBatcher) : result (list Z * TransportBatcher) :=
  for_each (finish_dst level core) (seqZ 1 (nr_nodes C)) ([], b).

(** [OnCounterReceived], by the receiver of the [k+1]st plan *)
Definition OnCounterReceived (k : Z) (chans : list Recv.Channel) : result (Z * list Recv.Channel) :=
  if k + 2 =? nr_nodes C then
    chans ← mapM (fun r => s ← CalculateIncomingFromNode C p (Recv.src_node_id r); Recv.Complete r (u64 (kMaxPiecesPerPhase - s))) chans;
    Ok (0, chans)
  else Ok (k + 1, chans).

(** ** A phase *)

(** a core puts a message into the channel to [dst] and counts it, or merges its
    count for [dst] in [FinishCompletion] *)
Inductive BEvent := BSend (core dst : Z) | BMerge (core dst : Z).

(** the messages in the channels, and for every flush the messages that were there *)
Record Phase := mkPh { batcher : TransportBatcher; in_channel : Z → Z; flushes : list (Z * Z) }.

Definition note_flush (f : bool) (dst : Z) (s : Phase) : list (Z * Z) :=
  if f then (dst, in_channel s dst) :: flushes s else flushes s.

Definition phase_step (level : Z) (ev : BEvent) (s : Phase) : result Phase :=
  match ev with
  | BSend core dst =>
      b ← AddRoute (batcher s) core level dst;
      Ok (mkPh b (<[dst := in_channel s dst + 1]> (in_channel s)) (flushes s))
  | BMerge core dst =>
      '(f, b) ← finish_one level core dst (batcher s);
      Ok (mkPh b (in_channel s) (note_flush f dst s))
  end.

Fixpoint phase_run (level : Z) (evs : list BEvent) (s : Phase) : result Phase :=
  match evs with [] => Ok s | ev :: evs => s ← phase_step level ev s; phase_run level evs s end.
End Finish.

Definition event_core (ev : BEvent) : Z := match ev with BSend c _ | BMerge c _ => c end.

(** ** The count of a channel *)

Section Count.
Context (C : Config) (p : Plan) (nr_cores level dst : Z).
Context (Hdst : 0 ≤ dst - 1 < kMaxNrNode).

Definition target : Z := (total_cnts p).[BatchBufferIndex C level (node_id C) dst].
Definition pending_sum (b : TransportBatcher) : Z := sum_over (fun c => delta b c level (dst - 1)) (seqZ 0 nr_cores).

Record BInv (s : Phase) : Prop := {
  bi_sum : counters (batcher s) level (dst - 1) + pending_sum (batcher s) = in_channel s dst;
  bi_delta : ∀ c, 0 ≤ c < nr_cores → 0 ≤ delta (batcher s) c level (dst - 1);
  bi_counter : 0 ≤ counters (batcher s) level (dst - 1);
  bi_only : ∀ k, (dst, k) ∈ flushes s → k = target;
  bi_flushed : 0 < target → counters (batcher s) level (dst - 1) = target → (dst, target) ∈ flushes s;
}.

Lemma delta_le s c : (∀ c, 0 ≤ c < nr_cores → 0 ≤ delta s c level (dst - 1)) → 0 ≤ c < nr_cores →
  delta s c level (dst - 1) ≤ pending_sum s.
Proof using Type.
  intros Hd Hc. unfold pending_sum.
  rewrite (sum_over_update (fun x => if x =? c then 0 else delta s x level (dst - 1)) _ (seqZ 0 nr_cores) c);
    [|apply NoDup_seqZ|apply elem_of_seqZ; lia|by intros x _ Hx; destruct (Z.eqb_spec x c)].
  rewrite Z.eqb_refl. assert (0 ≤ sum_over (fun x => if x =? c then 0 else delta s x level (dst - 1)) (seqZ 0 nr_cores)); [|lia].
  apply sum_over_nonneg. intros x Hx. apply elem_of_seqZ in Hx. destruct (x =? c); [done|]. apply Hd. lia.
Qed.

Lemma pending_update b core x : 0 ≤ core < nr_cores →
  pending_sum (set_delta b core level (dst - 1) x) = pending_sum b + (x - delta b core level (dst - 1)).
Proof using Type.
  intros Hc. unfold pending_sum. rewrite (sum_over_update (fun c => delta b c level (dst - 1)) _ (seqZ 0 nr_cores) core).
  - cbn. by rewrite !fn_lookup_insert.
  - apply NoDup_seqZ.
  - apply elem_of_seqZ. lia.
  - intros c _ Hne. cbn. by rewrite fn_lookup_insert_ne.
Qed.

Lemma set_delta_other b core d x : d ≠ dst →
  (∀ c, delta (set_delta b core level (d - 1) x) c level (dst - 1) = delta b c level (dst - 1)) ∧
  pending_sum (set_delta b core level (d - 1) x) = pending_sum b.
Proof using Type.
  intros Hd. assert (H : ∀ c, delta (set_delta b core level (d - 1) x) c level (dst - 1) = delta b c level (dst - 1)).
  { intros c. cbn. destruct (decide (c = core)) as [->|]; [|by rewrite fn_lookup_insert_ne]. rewrite !fn_lookup_insert.
    rewrite fn_lookup_insert_ne; [done|lia]. }
  split; [done|]. apply sum_over_ext. intros c _. apply H.
Qed.

(** a message is added *)
Lemma send_inv s core d s' : BInv s → 0 ≤ core < nr_cores → phase_step C p level (BSend core d) s = Ok s' →
  in_channel s' dst ≤ target → target < 2 ^ 64 → BInv s' ∧ in_channel s dst ≤ in_channel s' dst.
Proof using Hdst.
  intros [H1 H2 H3 H4 H5] Hc E Hle Ht. unfold phase_step, AddRoute in E. inv_ok. cbn [in_channel batcher flushes] in *.
  assert (Hp : 0 ≤ pending_sum (batcher s)) by (apply sum_over_nonneg; intros x Hx; apply elem_of_seqZ in Hx; apply H2; lia).
  destruct (decide (d = dst)) as [->|Hd].
  - rewrite fn_lookup_insert in *. pose proof (delta_le (batcher s) core H2 Hc).
    rewrite u64_id by (pose proof (H2 core Hc); lia). split; [|lia].
    split; cbn [in_channel batcher flushes]; rewrite ?fn_lookup_insert; try done.
    + rewrite pending_update by done. change (counters (set_delta _ _ _ _ _)) with (counters (batcher s)). lia.
    + intros c Hc'. pose proof (H2 c Hc'). pose proof (H2 core Hc). cbn. destruct (decide (c = core)) as [->|];
        [rewrite !fn_lookup_insert; lia|by rewrite fn_lookup_insert_ne].
  - rewrite fn_lookup_insert_ne in * by done. destruct (set_delta_other (batcher s) core d (u64 (delta (batcher s) core level (d - 1) + 1)) Hd) as [Ho Hs].
    split; [|lia]. split; cbn [in_channel batcher flushes]; rewrite ?fn_lookup_insert_ne by done; try done.
    + rewrite Hs. done.
    + intros c Hc'. rewrite Ho. by apply H2.
Qed.

(** a core merges its count *)
Lemma merge_inv s core d s' : BInv s → 0 ≤ core < nr_cores → phase_step C p level (BMerge core d) s = Ok s' →
  in_channel s' dst ≤ target → target < 2 ^ 64 → BInv s' ∧ in_channel s dst ≤ in_channel s' dst.
Proof using Hdst.
  intros [H1 H2 H3 H4 H5] Hc E Hle Ht. unfold phase_step, finish_one, Merge in E. inv_ok.
  match goal with H : load _ _ = Ok _ |- _ => apply load_ok in H as [_ ->] end.
  unfold note_flush in *. cbn [in_channel batcher flushes] in *. split; [|lia].
  assert (Hp : 0 ≤ pending_sum (batcher s)) by (apply sum_over_nonneg; intros x Hx; apply elem_of_seqZ in Hx; apply H2; lia).
  destruct (decide (d = dst)) as [->|Hd].
  - change (counters (set_delta (batcher s) core level (dst - 1) 0)) with (counters (batcher s)).
    pose proof (delta_le (batcher s) core H2 Hc). pose proof (H2 core Hc).
    rewrite u64_id by lia. set (cnt := counters (batcher s) level (dst - 1) + delta (batcher s) core level (dst - 1)).
    fold target. split; cbn [in_channel batcher flushes counters delta]; rewrite ?fn_lookup_insert.
    + unfold pending_sum. cbn [delta]. change (sum_over _ _) with (pending_sum (set_delta (batcher s) core level (dst - 1) 0)).
      rewrite pending_update by done. unfold cnt. lia.
    + intros c Hc'. pose proof (H2 c Hc'). cbn. destruct (decide (c = core)) as [->|];
        [rewrite !fn_lookup_insert; lia|by rewrite fn_lookup_insert_ne].
    + unfold cnt. lia.
    + intros k Hk. destruct (Z.eqb_spec cnt target) as [Ec|_]; cbn [andb] in Hk; [|by apply H4].
      destruct (0 <? cnt); [|by apply H4]. apply elem_of_cons in Hk as [[= ->]|Hk]; [|by apply H4]. unfold cnt in Ec. lia.
    + intros Hpos Ec. rewrite Ec. rewrite Z.eqb_refl. rewrite (proj2 (Z.ltb_lt 0 target)) by done. cbn [andb].
      assert (in_channel s dst = target) as -> by (unfold cnt in Ec; lia). left.
  - destruct (set_delta_other (batcher s) core d 0 Hd) as [Ho Hs].
    assert (Hcn : ∀ x, (<[level := <[d - 1 := x]> (counters (set_delta (batcher s) core level (d - 1) 0) level)]>
      (counters (set_delta (batcher s) core level (d - 1) 0))) level (dst - 1) = counters (batcher s) level (dst - 1)).
    { intros x. rewrite fn_lookup_insert, fn_lookup_insert_ne by lia. done. }
    assert (Hf : ∀ k l, (dst, k) ∈ (if (l : bool) then (d, in_channel s d) :: flushes s else flushes s) ↔ (dst, k) ∈ flushes s).
    { intros k [|]; [|done]. rewrite elem_of_cons. split; [intros [[= Hx _]|]; [by destruct Hd|done]|by right]. }
    split; cbn [in_channel batcher flushes counters delta]; rewrite ?Hcn; try done.
    + transitivity (counters (batcher s) level (dst - 1) + pending_sum (set_delta (batcher s) core level (d - 1) 0)); [done|by rewrite Hs].
    + intros c Hc'. pose proof (Ho c) as Ho'. cbn in Ho' |- *. rewrite Ho'. by apply H2.
    + intros k. rewrite Hf. apply H4.
    + rewrite Hf. exact H5.
Qed.
End Count.

Lemma phase_mono C p level dst evs : ∀ s s', phase_run C p level evs s = Ok s' → in_channel s dst ≤ in_channel s' dst.
Proof.
  induction evs as [|ev evs IH]; intros s s' E; cbn [phase_run] in E; [by injection E as <-|]. apply bind_ok in E as (s1 & E1 & E).
  transitivity (in_channel s1 dst); [|by apply IH]. destruct ev as [core d|core d]; unfold phase_step in E1.
  - unfold AddRoute in E1. inv_ok. cbn. destruct (decide (d = dst)) as [->|]; [rewrite fn_lookup_insert; lia|by rewrite fn_lookup_insert_ne].
  - apply bind_ok in E1 as ([f b] & _ & E1). by injection E1 as <-.
Qed.

Lemma phase_run_inv C p nr_cores level dst evs : 0 ≤ dst - 1 < kMaxNrNode → ∀ s s',
  BInv C p nr_cores level dst s → phase_run C p level evs s = Ok s' → Forall (fun ev => 0 ≤ event_core ev < nr_cores) evs →
  in_channel s' dst ≤ target C p level dst → target C p level dst < 2 ^ 64 → BInv C p nr_cores level dst s'.
Proof.
  intros Hd. induction evs as [|ev evs IH]; intros s s' H E Hc Hle Ht; cbn [phase_run] in E; [by injection E as <-|].
  apply bind_ok in E as (s1 & E1 & E). apply Forall_cons in Hc as [Hc Hcs].
  pose proof (phase_mono C p level dst evs s1 s' E) as Hm. apply (IH s1); try done.
  destruct ev as [core d|core d]; [eapply send_inv|eapply merge_inv]; try done; lia.
Qed.

(** ** Counters of a receiver *)

(** what the plans say that [src] sends to this node *)
Definition incoming_from (C : Config) (cnts : list Z) (src : Z) : Z :=
  sum_over (fun l => cnts.[BatchBufferIndex C l src (node_id C)]) (seqZ 0 kPromiseMaxLevels).

Lemma CalculateIncoming_eq C p src : 1 ≤ nr_nodes C ≤ 254 → node_ok C (node_id C) → node_ok C src → cnts_ok C (total_cnts p) →
  incoming_from C (total_cnts p) src < 2 ^ 64 → CalculateIncomingFromNode C p src = Ok (incoming_from C (total_cnts p) src).
Proof.
  intros Hn Hid Hs Hc Hlt. unfold CalculateIncomingFromNode.
  set (x := fun l => (total_cnts p).[BatchBufferIndex C l src (node_id C)]). unfold incoming_from in *. fold x in Hlt |- *.
  assert (Hx : ∀ l, 0 ≤ x l) by (intros l; apply (cnts_at C); done).
  destruct (for_each_inv (fun i s => v ← load (total_cnts p) (BatchBufferIndex C i src (node_id C)); Ok (u64 (s + v)))
    (fun d s => s = sum_over x d) (seqZ 0 kPromiseMaxLevels) 0) as (s & -> & ->); [done| |done].
  intros d i r s E ->. assert (Hi : i ∈ seqZ 0 kPromiseMaxLevels) by (rewrite E; apply elem_of_app; right; left). apply elem_of_seqZ in Hi.
  destruct (index_eq C Hn i src (node_id C)) as [_ Hr]; [unfold level_ok; lia|done|done|]. destruct Hc as [Hlen Hall].
  rewrite load_in by (rewrite Hlen; lia). cbn [mbind result_bind]. eexists. split; [done|]. rewrite sum_over_app. cbn.
  rewrite u64_id; [unfold x; lia|]. rewrite E, sum_over_app in Hlt. cbn in Hlt. fold (sum_over x r) in Hlt.
  pose proof (sum_over_nonneg x d (fun y _ => Hx y)). pose proof (sum_over_nonneg x r (fun y _ => Hx y)). pose proof (Hx i).
  unfold x in *. lia.
Qed.

(** a channel in the middle of a phase: [got] pieces have been received *)
Record in_phase (C : Config) (cnts : list Z) (r : Recv.Channel) (got : Z) : Prop := {
  ip_src : node_ok C (Recv.src_node_id r);
  ip_status : Recv.current_status r = Recv.PollingRoutines;
  ip_state : 0 ≤ Recv.state r < 2 ^ 62;
  ip_left : Recv.nr_left r = kMaxPiecesPerPhase - got;
  ip_got : 0 ≤ got ≤ incoming_from C cnts (Recv.src_node_id r) ∧ got < kMaxPiecesPerPhase;
  ip_max : incoming_from C cnts (Recv.src_node_id r) ≤ kMaxPiecesPerPhase;
}.

(** ** Theorems *)

(** The messages of a phase are flushed when, and only when, they are complete:
    however the cores interleave their sends and their merges, a channel is only
    flushed when it holds as many messages as the plan says, and once every core has
    merged its counts it has been flushed then. *)
Theorem batch_flushed_when_complete C p level dst b evs s :
  1 ≤ nr_nodes C ≤ 254 → level_ok level → node_ok C dst → target C p level dst < 2 ^ 64 →
  phase_run C p level evs (mkPh (Batcher_Reset (nr_nodes C) (g_nr_threads C) b) (fun _ => 0) []) = Ok s →
  Forall (fun ev => 0 ≤ event_core ev < g_nr_threads C) evs → in_channel s dst ≤ target C p level dst →
  (∀ k, (dst, k) ∈ flushes s → k = target C p level dst) ∧
  (0 < target C p level dst → in_channel s dst = target C p level dst →
   (∀ c, 0 ≤ c < g_nr_threads C → delta (batcher s) c level (dst - 1) = 0) → (dst, target C p level dst) ∈ flushes s).
Proof.
  intros Hn Hl Hd Ht E Hc Hle. unfold level_ok, node_ok, kPromiseMaxLevels in Hl, Hd.
  assert (H0 : BInv C p (g_nr_threads C) level dst (mkPh (Batcher_Reset (nr_nodes C) (g_nr_threads C) b) (fun _ => 0) [])).
  { assert (Hcnt : counters (Batcher_Reset (nr_nodes C) (g_nr_threads C) b) level (dst - 1) = 0) by (cbn; unfold kPromiseMaxLevels; zcase; try lia; zcase; lia).
    assert (Hdel : ∀ c, 0 ≤ c < g_nr_threads C → delta (Batcher_Reset (nr_nodes C) (g_nr_threads C) b) c level (dst - 1) = 0)
      by (intros c Hx; cbn; unfold kPromiseMaxLevels; zcase; try lia; zcase; try lia; zcase; lia).
    split; cbn [batcher in_channel flushes].
    - rewrite Hcnt. unfold pending_sum. rewrite (sum_over_ext _ (fun _ => 0)), sum_over_const; [lia|].
      intros c Hx. apply elem_of_seqZ in Hx. apply Hdel. lia.
    - intros c Hx. rewrite Hdel by done. lia.
    - lia.
    - intros k Hk. by apply elem_of_nil in Hk.
    - lia. }
  pose proof (phase_run_inv C p (g_nr_threads C) level dst evs ltac:(unfold kMaxNrNode; lia) _ s H0 E Hc Hle Ht) as [H1 H2 H3 H4 H5].
  split; [exact H4|]. intros Hpos Hall Hdel. apply H5; [done|]. rewrite <- Hall, <- H1.
  assert (pending_sum (g_nr_threads C) level dst (batcher s) = 0); [|lia].
  unfold pending_sum. rewrite (sum_over_ext _ (fun _ => 0)), sum_over_const; [lia|]. intros c Hx. apply elem_of_seqZ in Hx. apply Hdel. lia.
Qed.

(** The end of a phase on the receiving side: when the last plan has arrived, every
    channel knows how many pieces are left, those that the plans announce less
    those already received, and it is at the end of its phase exactly if none is. *)
Theorem counters_settle C p k chans gots :
  1 ≤ nr_nodes C ≤ 254 → node_ok C (node_id C) → cnts_ok C (total_cnts p) → k + 2 = nr_nodes C →
  Forall2 (in_phase C (total_cnts p)) chans gots →
  ∃ chans', OnCounterReceived C p k chans = Ok (0, chans') ∧
  Forall2 (fun rg r' => Recv.nr_left r' = incoming_from C (total_cnts p) (Recv.src_node_id rg.1) - rg.2 ∧
    (Recv.current_status r' = Recv.EndOfPhase ↔ Recv.nr_left r' = 0)) (zip chans gots) chans'.
Proof.
  intros Hn Hid Hc Hk Hch. unfold OnCounterReceived. destruct (Z.eqb_spec (k + 2) (nr_nodes C)); [|lia].
  assert (H : ∃ chans', mapM (fun r => s ← CalculateIncomingFromNode C p (Recv.src_node_id r); Recv.Complete r (u64 (kMaxPiecesPerPhase - s))) chans
    = Ok chans' ∧ Forall2 (fun rg r' => Recv.nr_left r' = incoming_from C (total_cnts p) (Recv.src_node_id rg.1) - rg.2 ∧
    (Recv.current_status r' = Recv.EndOfPhase ↔ Recv.nr_left r' = 0)) (zip chans gots) chans').
  2: { destruct H as (chans' & -> & H). by exists chans'. }
  induction Hch as [|r got chans gots Hr _ (chans' & IH & IHs)]; [by exists []|].
  destruct Hr as [R1 R2 R3 R4 R5 R6]. cbn [mapM]. assert (HK : kMaxPiecesPerPhase = 12800000) by done.
  rewrite CalculateIncoming_eq by (try done; lia). cbn [mbind result_bind]. rewrite u64_id by lia.
  destruct (Recv.complete_spec r (kMaxPiecesPerPhase - incoming_from C (total_cnts p) (Recv.src_node_id r))) as (r' & -> & Hl & Hlt & Heq);
    [done|done|lia|lia|]. cbn [mbind result_bind]. rewrite IH. cbn. exists (r' :: chans'). split; [done|]. constructor; [|done]. cbn [fst snd].
  split; [lia|]. destruct (decide (got = incoming_from C (total_cnts p) (Recv.src_node_id r))) as [Eg|Eg].
  - split; [lia|]. intros _. apply Heq. lia.
  - split; [|lia]. intros Hx. unfold Recv.current_status in R2, Hx. rewrite Hlt in Hx by lia. rewrite Hx in R2. done.
Qed.

(** ** Witnesses *)

Module BatcherSamples.
(** two nodes with two cores; node 1 sends two pieces to node 2, which sends one back *)
Definition C : Config := mkConfig 2 1 2.
Definition cnts : list Z := tab 64 (fun i => if i =? 1 then 2 else if i =? 2 then 1 else 0).
Definition p : Plan := mkPlan [] cnts 2.
Definition start : Phase := mkPh (Batcher_Reset 2 2 (mkTB (fun _ _ => 7) (fun _ _ _ => 7))) (fun _ => 0) [].
Definition evs : list BEvent := [BSend 0 2; BSend 1 2; BMerge 0 2; BMerge 1 2].
Definition get (r : result Phase) : Phase := match r with Ok s => s | Err _ => start end.

Lemma sample_cnts_ok : cnts_ok C cnts.
Proof.
  split; [by vm_compute|]. apply Forall_forall. intros x Hx. unfold cnts, tab in Hx. apply list_elem_of_fmap in Hx as (i & -> & _).
  destruct (i =? 1), (i =? 2); lia.
Qed.
End BatcherSamples.

Lemma batch_flushed_when_complete_witness :
  let s := BatcherSamples.get (phase_run BatcherSamples.C BatcherSamples.p 0 BatcherSamples.evs BatcherSamples.start) in
  in_channel s 2 = 2 ∧ (2, 2) ∈ flushes s.
Proof.
  cbn zeta. split; [by vm_compute|].
  destruct (batch_flushed_when_complete BatcherSamples.C BatcherSamples.p 0 2 (mkTB (fun _ _ => 7) (fun _ _ _ => 7)) BatcherSamples.evs
    (BatcherSamples.get (phase_run BatcherSamples.C BatcherSamples.p 0 BatcherSamples.evs BatcherSamples.start))) as [_ H].
  - cbn. lia.
  - unfold level_ok, kPromiseMaxLevels. lia.
  - unfold node_ok. cbn. lia.
  - by vm_compute.
  - by vm_compute.
  - repeat (apply Forall_cons; split; [cbn; lia|]). by apply Forall_nil.
  - by vm_compute.
  - apply H; [by vm_compute|by vm_compute|]. intros c Hc. assert (c = 0 ∨ c = 1) as [->| ->] by (cbn in Hc; lia); by vm_compute.
Defined.

Lemma counters_settle_witness :
  ∃ chans', OnCounterReceived BatcherSamples.C BatcherSamples.p 0 [Recv.mkRc 1 (kMaxPiecesPerPhase - 1) 2] = Ok (0, chans') ∧
  Forall2 (fun rg r' => Recv.nr_left r' = incoming_from BatcherSamples.C BatcherSamples.cnts (Recv.src_node_id rg.1) - rg.2 ∧
    (Recv.current_status r' = Recv.EndOfPhase ↔ Recv.nr_left r' = 0)) [(Recv.mkRc 1 (kMaxPiecesPerPhase - 1) 2, 1)] chans'.
Proof.
  apply (counters_settle BatcherSamples.C BatcherSamples.p 0 [Recv.mkRc 1 (kMaxPiecesPerPhase - 1) 2] [1]).
  - cbn. lia.
  - unfold node_ok. cbn. lia.
  - apply BatcherSamples.sample_cnts_ok.
  - done.
  - constructor; [|done]. assert (E : incoming_from BatcherSamples.C BatcherSamples.cnts 2 = 1) by by vm_compute.
    split; cbn [Recv.src_node_id Recv.state Recv.nr_left total_cnts BatcherSamples.p]; rewrite ?E; try done; unfold kMaxPiecesPerPhase; lia.
Defined.
