(* ===== verification/AutoTune.v ===== *)
(** The tuning of the splitting threshold (threshold_autotune.h): after every epoch
    the number of split rows and the execution time are compared with the best ones
    so far, and the threshold is doubled, restored or halved. *)

From S2P Require Import Prelude.

(** ** Operations *)

(** the threshold, split rows and time of the best epoch *)
Record Controller := mkCtl { thre : Z; nr_splitted : Z; exec_time : Z }.
Definition new_controller : Controller := mkCtl 0 (2 ^ 32 - 1) (2 ^ 32 - 1).

Definition FuzzyCompare (x y : Z) : Z :=
  if y =? 0 then (if 0 <? x then 1 else 0) else
  let r := u64 (128 * x) / y in
  if r <? 120 then -1 else if r <? 136 then 0 else 1.

(** a product of type [long]; overflow is undefined *)
Definition twice (x : Z) : result Z := if (- 2 ^ 63 <=? 2 * x) && (2 * x <? 2 ^ 63) then Ok (2 * x) else Err OutOfRange.

Definition GetNextThreshold (c : Controller) (current_thre current_nr_splitted current_exec_time : Z) : result (Z * Controller) :=
  let spl_cmp := FuzzyCompare (nr_splitted c) current_nr_splitted in
  if spl_cmp =? 1 then
    if negb (FuzzyCompare (exec_time c) current_exec_time =? -1) then
      t ← twice current_thre;
      Ok (Z.min t (2 ^ 31 - 1), mkCtl current_thre current_nr_splitted current_exec_time)
    else if negb (thre c =? current_thre) then Ok (thre c, c)
    else Ok (Z.quot (thre c) 2, c)
  else if spl_cmp =? -1 then Ok (thre c, c)
  else t ← twice current_thre; Ok (t, c).

(** ** What the comparison means *)

(** within one sixteenth counts as equal *)
Lemma FuzzyCompare_spec x y : 0 ≤ x < 2 ^ 57 → 0 ≤ y →
  (FuzzyCompare x y = -1 ↔ 16 * x < 15 * y) ∧ (FuzzyCompare x y = 1 ↔ 17 * y ≤ 16 * x ∧ 0 < x).
Proof.
  intros Hx Hy. unfold FuzzyCompare. destruct (Z.eqb_spec y 0) as [->|Hy0].
  { destruct (Z.ltb_spec 0 x); lia. }
  rewrite u64_id by lia. set (r := 128 * x / y).
  assert (H1 : r < 120 ↔ 128 * x < 120 * y).
  { split; intros H.
    - pose proof (Z.mul_succ_div_gt (128 * x) y ltac:(lia)) as Hg. fold r in Hg. nia.
    - apply Z.div_lt_upper_bound; lia. }
  assert (H2 : r < 136 ↔ 128 * x < 136 * y).
  { split; intros H.
    - pose proof (Z.mul_succ_div_gt (128 * x) y ltac:(lia)) as Hg. fold r in Hg. nia.
    - apply Z.div_lt_upper_bound; lia. }
  destruct (Z.ltb_spec r 120); [|destruct (Z.ltb_spec r 136)]; lia.
Qed.

(** ** The thresholds it proposes *)

(** Tuning adopts an epoch as the best one exactly when it had fewer splits
    without being slower, both beyond the tolerance, and then raises the threshold up to
    the limit of [int32_t]; an epoch with fewer splits that was slower takes it back to
    the best one, or halves it; with more splits it returns to the best one. *)
Theorem next_threshold c cur spl time :
  0 ≤ nr_splitted c < 2 ^ 57 → 0 ≤ exec_time c < 2 ^ 57 → 0 ≤ spl → 0 ≤ time → 0 ≤ thre c → 0 ≤ cur < 2 ^ 62 →
  ∃ t c', GetNextThreshold c cur spl time = Ok (t, c') ∧ 0 ≤ t ∧
  (thre c ≤ 2 ^ 31 - 1 → cur ≤ 2 ^ 31 - 1 → t ≤ 2 ^ 32 - 2) ∧
  (17 * spl ≤ 16 * nr_splitted c → 0 < nr_splitted c → 15 * time ≤ 16 * exec_time c →
     t = Z.min (2 * cur) (2 ^ 31 - 1) ∧ c' = mkCtl cur spl time) ∧
  (¬ (17 * spl ≤ 16 * nr_splitted c ∧ 0 < nr_splitted c ∧ 15 * time ≤ 16 * exec_time c) → c' = c) ∧
  (16 * nr_splitted c < 15 * spl → t = thre c).
Proof.
  intros Hs He Hspl Ht Hth Hc. destruct (FuzzyCompare_spec (nr_splitted c) spl Hs Hspl) as [S1 S2].
  destruct (FuzzyCompare_spec (exec_time c) time He Ht) as [E1 _]. unfold GetNextThreshold, twice.
  rewrite (proj2 (Z.leb_le (- 2 ^ 63) (2 * cur))), (proj2 (Z.ltb_lt (2 * cur) (2 ^ 63))) by lia. cbn [andb mbind result_bind].
  set (f := FuzzyCompare (nr_splitted c) spl) in *. set (g := FuzzyCompare (exec_time c) time) in *.
  pose proof (Z.quot_le_mono 0 (thre c) 2 ltac:(lia) Hth) as Hq. rewrite Z.quot_0_l in Hq by lia.
  pose proof (Z.quot_le_upper_bound (thre c) 2 (thre c) ltac:(lia) ltac:(lia)) as Hq2.
  destruct (Z.eqb_spec f 1) as [Ef|Ef]; [destruct (Z.eqb_spec g (-1)) as [Eg|Eg]; cbn [negb];
    [destruct (Z.eqb_spec (thre c) cur); cbn [negb]|]|destruct (Z.eqb_spec f (-1)) as [Ef'|Ef']];
    eexists _, _; (split; [reflexivity|]); split_and!; try done; try lia; intros; try (split; [lia|done]); try lia; exfalso; lia.
Qed.

(** epochs without a difference double the threshold without the limit: it overflows *)
Lemma doubling_overflows c cur spl time : FuzzyCompare (nr_splitted c) spl = 0 → 2 ^ 62 ≤ cur → GetNextThreshold c cur spl time = Err OutOfRange.
Proof.
  intros Hf Hc. unfold GetNextThreshold. rewrite Hf. cbn. unfold twice. destruct (Z.leb_spec (- 2 ^ 63) (2 * cur)); cbn [andb]; [|done].
  destruct (Z.ltb_spec (2 * cur) (2 ^ 63)); [lia|done].
Qed.

Lemma next_threshold_witness :
  ∃ t c', GetNextThreshold (mkCtl 100 64 640) 200 48 600 = Ok (t, c') ∧ t = 400 ∧ c' = mkCtl 200 48 600.
Proof.
  destruct (next_threshold (mkCtl 100 64 640) 200 48 600) as (t & c' & E & _ & _ & H & _); try (cbn; lia).
  destruct H as [Ht Hc]; [cbn; lia..|]. exists t, c'. split; [exact E|]. by split.
Defined.
