(* ===== verification/IndexOp.v ===== *)
(** Index operations of transactions (txn.h/txn.cc [BaseTxnIndexOpContext], txn_cc.h
    [NodeBitmap], [GenerateNodeBitmap], [TxnIndexOp]): the keys of an operation are
    spread over the nodes that own their slices, one context per node carries them
    there, and the operation runs once for every key. *)

From S2P Require Import Prelude Bits SqlTypes Piece EpochMem.

(** ** Constants and parameters *)

Definition kMaxPackedKeys : Z := 15.
Definition kReadOnlySliceId : Z := - 2 ^ 15.
Definition kIndexOpFlatten : Z := 2 ^ 32 - 1.
Definition kMaxRangeScanKeys : Z := 32.

(** [KeyParam], [RangeParam], [PlaceholderParam] over the keys [K] of a table *)
Inductive Param (K : Type) :=
  | KeyParam (rel : Z) (keys : list K)
  | RangeParam (rel : Z) (start stop : K)
  | PlaceholderParam (nr : Z).
Arguments KeyParam {K} rel keys.
Arguments RangeParam {K} rel start stop.
Arguments PlaceholderParam {K} nr.

(** [NodeBitmap]: pairs of a node and the keys it serves *)
Definition NodeBitmap : Type := list (Z * Z).

Definition Add (b : NodeBitmap) (node bitmap : Z) : result NodeBitmap :=
  if len b <? kMaxPackedKeys then Ok (b ++ [(node, bitmap)]) else Err OutOfRange.
Fixpoint merge (b : NodeBitmap) (node bitmap : Z) : option NodeBitmap :=
  match b with
  | [] => None
  | (n, old) :: b =>
      if n =? node then Some ((node, Z.lor old bitmap) :: b)
      else b' ← merge b node bitmap; Some ((n, old) :: b')
  end.
Definition MergeOrAdd (node bitmap : Z) (b : NodeBitmap) : result NodeBitmap :=
  match merge b node bitmap with Some b' => Ok b' | None => Add b node bitmap end.
Definition NodeBitmap_add (b rhs : NodeBitmap) : result NodeBitmap := for_each (fun e b => MergeOrAdd e.1 e.2 b) rhs b.

(** ** Contexts *)

(** [BaseTxnIndexOpContext]; the packed arrays are the lists of their entries, and what
    lies behind is not initialized. [c_gap] is the padding of [EpochObject]. *)
Record Ctx := mkCtx {
  c_sid : Z; c_epoch : Z; c_state : EpochObject; c_gap : Z;
  keys_bitmap : Z; slices_bitmap : Z; rels_bitmap : Z; c_node_id : Z; src_node_id : Z;
  c_keys : list (list Z); slice_ids : list Z; relation_ids : list Z;
}.

(** [ForEachWithBitmap] *)
Definition ForEachWithBitmap {S} (bitmap : Z) (f : Z → Z → S → result S) (s : S) : result S :=
  '(_, s) ← for_each (fun i '(j, s) => if Z.testbit bitmap i then s ← f j i s; Ok (j + 1, s) else Ok (j, s))
    (seqZ 0 kMaxPackedKeys) (0, s); Ok s.

(** the constructor from arrays of keys, slices and relations *)
Definition pack {A} (bitmap : Z) (l : list A) : result (list A) :=
  ForEachWithBitmap bitmap (fun _ from acc => x ← nth_r l from; Ok (acc ++ [x])) [].
Definition new_context (sid epoch : Z) (state : EpochObject) (gap node src kb : Z) (keys : list (list Z))
  (sb : Z) (slices : list Z) (rb : Z) (rels : list Z) : result Ctx :=
  ks ← pack kb keys; ss ← pack sb slices; rs ← pack rb rels;
  Ok (mkCtx sid epoch state gap kb sb rb node src ks ss rs).

(** the header of [kHeaderSize] bytes, as the schema of its words *)
Definition kHeaderSize : Z := 16 + 24 + 2 + 2 + 2 + 2 * 2.
Definition ctx_layout : list FieldType :=
  [FInt 8; FInt 8; FInt 8; FInt 4; FInt 4; FInt 8; FInt 2; FInt 2; FInt 2; FInt 2; FInt 2].
Definition ctx_vals (c : Ctx) : list Val := VInt <$>
  [c_sid c; c_epoch c; o_epoch (c_state c); u32 (o_node (c_state c)); c_gap c; o_offset (c_state c);
   keys_bitmap c; slices_bitmap c; rels_bitmap c; c_node_id c; src_node_id c].
Definition ctx_header (c : Ctx) : list Z := Field_EncodeTo serializer ctx_layout (ctx_vals c).

Definition Ctx_EncodeSize (c : Ctx) : result Z :=
  ks ← mapM (nth_r (c_keys c)) (seqZ 0 (popcount (keys_bitmap c)));
  Ok (kHeaderSize + (sum_over (fun k => 2 + len k) ks + popcount (slices_bitmap c) * 2 + popcount (rels_bitmap c) * 2)).

Definition encode_key (k : list Z) : list Z := le_split 2 (len k) ++ k.
Definition encode_i16 (x : Z) : list Z := le_split 2 (u16 x).
Definition Ctx_EncodeTo (c : Ctx) : result (list Z) :=
  ks ← mapM (nth_r (c_keys c)) (seqZ 0 (popcount (keys_bitmap c)));
  ss ← mapM (nth_r (slice_ids c)) (seqZ 0 (popcount (slices_bitmap c)));
  rs ← mapM (nth_r (relation_ids c)) (seqZ 0 (popcount (rels_bitmap c)));
  Ok (ctx_header c ++ flat_map encode_key ks ++ flat_map encode_i16 ss ++ flat_map encode_i16 rs).

(** [DecodeFrom]: the context and the rest of the buffer *)
Fixpoint decode_keys (n : nat) (p : list Z) : result (list (list Z) * list Z) :=
  match n with
  | O => Ok ([], p)
  | S n =>
      l ← read_bytes 2 p;
      k ← read_bytes (le_combine l) (drop 2 p);
      '(ks, p) ← decode_keys n (drop (2 + length k) p); Ok (k :: ks, p)
  end.
Fixpoint decode_i16s (n : nat) (p : list Z) : result (list Z * list Z) :=
  match n with
  | O => Ok ([], p)
  | S n => l ← read_bytes 2 p; '(xs, p) ← decode_i16s n (drop 2 p); Ok (i16 (le_combine l) :: xs, p)
  end.
Definition Ctx_DecodeFrom (p : list Z) : result (Ctx * list Z) :=
  vs ← Field_DecodeFrom serializer ctx_layout p;
  let p := drop (Z.to_nat kHeaderSize) p in
  match vs with
  | [VInt sid; VInt ep; VInt oe; VInt on; VInt gap; VInt oo; VInt kb; VInt sb; VInt rb; VInt nd; VInt src] =>
      '(ks, p) ← decode_keys (Z.to_nat (popcount kb)) p;
      '(ss, p) ← decode_i16s (Z.to_nat (popcount sb)) p;
      '(rs, p) ← decode_i16s (Z.to_nat (popcount rb)) p;
      Ok (mkCtx sid ep (mkObj oe (i32 on) oo) gap kb sb rb nd src ks ss rs, p)
  | _ => Err OutOfRange
  end.

(** ** Keys and nodes *)

Section Keys.
Context {K : Type}.
Context (EncodeView : K → list Z).       (* the encoded key *)
Context (Locate : Z → K → Z).            (* [SliceLocator] of a table *)
Context (SliceToNodeId : Z → Z).         (* the router of the workload *)
Context (nr_nodes node_id : Z).

Definition param_size (p : Param K) : Z :=
  match p with KeyParam _ ks => len ks | RangeParam _ _ _ => 2 | PlaceholderParam nr => nr end.
Definition param_at (p : Param K) (idx : Z) : result K :=
  match p with
  | KeyParam _ ks => nth_r ks idx
  | RangeParam _ s e => if idx =? 0 then Ok s else if idx =? 1 then Ok e else Err Aborted
  | PlaceholderParam _ => Err OutOfRange
  end.
Definition EncodeToSliceId (p : Param K) (idx : Z) : result Z :=
  match p with
  | KeyParam rel ks => k ← nth_r ks idx; Ok (Locate rel k)
  | _ => Ok (-1 - idx)
  end.
Definition relation (p : Param K) : Z := match p with KeyParam r _ | RangeParam r _ _ => r | PlaceholderParam _ => 0 end.
Definition is_void (p : Param K) : bool := match p with PlaceholderParam _ => true | _ => false end.

(** the bytes a [VarStrView] of the key shows; its length has eight bits *)
Definition view_of (k : K) : list Z := take (Z.to_nat (Z.land 0xff (len (EncodeView k)))) (EncodeView k).

(** the arrays filled so far *)
Record Packed := mkPacked { pk_keys : list (list Z); pk_slices : list Z; pk_rels : list Z }.

(** [_FromKeyParam] for one parameter and for all of them *)
Definition pack_key (p : Param K) (idx : Z) (a : Packed) : result Packed :=
  k ← param_at p idx; s ← EncodeToSliceId p idx;
  Ok (mkPacked (pk_keys a ++ [view_of k]) (pk_slices a ++ [i16 s]) (pk_rels a ++ [i16 (relation p)])).
Definition from_param (bitmap bitshift : Z) (p : Param K) (a : Packed) : result Packed :=
  for_each (fun i a => if is_void p then Ok a else if Z.testbit bitmap i then pack_key p (i - bitshift) a else Ok a)
    (seqZ bitshift (Z.min kMaxPackedKeys (bitshift + param_size p) - bitshift)) a.
Fixpoint FromKeyParam (bitmap bitshift : Z) (ps : list (Param K)) (a : Packed) : result Packed :=
  match ps with
  | [] => Ok a
  | p :: ps => a ← from_param bitmap bitshift p a; FromKeyParam bitmap (bitshift + param_size p) ps a
  end.
(** the constructor [TxnIndexOpContext] *)
Definition TxnIndexOpContext (sid epoch : Z) (state : EpochObject) (gap node src bitmap : Z) (ps : list (Param K)) : result Ctx :=
  a ← FromKeyParam bitmap 0 ps (mkPacked [] [] []);
  Ok (mkCtx sid epoch state gap bitmap bitmap bitmap node src (pk_keys a) (pk_slices a) (pk_rels a)).

(** [KeyParamsToBitmap] *)
Definition home (rel : Z) (k : K) : Z := if 0 <=? Locate rel k then SliceToNodeId (Locate rel k) else node_id.
Definition mark_key (p : Param K) (bitshift i : Z) (bm : list Z) : result (list Z) :=
  k ← param_at p i;
  let node := home (relation p) k in
  old ← load bm node; store bm node (u16 (Z.lor old (Z.shiftl 1 (i + bitshift)))).
Fixpoint KeyParamsToBitmap (bitshift : Z) (ps : list (Param K)) (bm : list Z) : result (list Z) :=
  match ps with
  | [] => Ok bm
  | p :: ps =>
      bm ← (if is_void p then Ok bm else for_each (mark_key p bitshift) (seqZ 0 (param_size p)) bm);
      KeyParamsToBitmap (bitshift + param_size p) ps bm
  end.
Definition GenerateNodeBitmap (ps : list (Param K)) : result NodeBitmap :=
  bm ← KeyParamsToBitmap 0 ps (tab (nr_nodes + 1) (fun _ => 0));
  for_each (fun node b => v ← load bm node; if v =? 0 then Ok b else Add b node v) (seqZ 1 nr_nodes) [].

(** ** Running an operation *)

Section Op.
Context {S R : Type}.
Context (IndexOp : Ctx → Z → S → result (R * S)) (OnComplete : list Z → Z → R → S → result S).

(** a piece: its node, its affinity and the bytes it captures *)
Record Attached := mkAtt { at_node : Z; at_aff : Z; at_capture : list Z }.

(** the loop over the keys of a context, with the parameter of the completion *)
Definition run_context (c : Ctx) (extra : list Z) (s : S) : result S :=
  ForEachWithBitmap (keys_bitmap c) (fun j i s => '(r, s) ← IndexOp c j s; OnComplete extra i r s) s.
(** what an attached piece does with its captured bytes *)
Definition run_piece (capture : list Z) (s : S) : result S :=
  '(c, extra) ← Ctx_DecodeFrom capture; run_context c extra s.

(** the body of the loop of [TxnIndexOpWithNodeBitmap]; [EncodeTo] of the extended
    context appends the parameter *)
Definition index_op_node (sid epoch : Z) (state : EpochObject) (gap aff : Z) (extra : list Z) (ps : list (Param K))
  (p : Z * Z) (x : S * list Attached) : result (S * list Attached) :=
  let (node, bitmap) := p in
  c ← TxnIndexOpContext sid epoch state gap node node_id bitmap ps;
  if (negb (node =? 0) && negb (node_id =? node)) || negb (aff =? kIndexOpFlatten) then
    b ← Ctx_EncodeTo c; Ok (x.1, x.2 ++ [mkAtt node aff (b ++ extra)])
  else s ← run_context c extra x.1; Ok (s, x.2).
Definition TxnIndexOpWithNodeBitmap (sid epoch : Z) (state : EpochObject) (gap aff : Z) (extra : list Z)
  (nb : NodeBitmap) (ps : list (Param K)) (s : S) : result (S * list Attached) :=
  for_each (index_op_node sid epoch state gap aff extra ps) nb (s, []).
Definition TxnIndexOp (sid epoch : Z) (state : EpochObject) (gap aff : Z) (extra : list Z) (ps : list (Param K)) (s : S) :
  result (NodeBitmap * (S * list Attached)) :=
  nb ← GenerateNodeBitmap ps;
  x ← TxnIndexOpWithNodeBitmap sid epoch state gap aff extra nb ps s; Ok (nb, x).
End Op.
End Keys.

(** ** Lookup and insertion *)

(** the tables: searching a key, scanning a range, creating a row *)
Class Tables (T : Type) := {
  Search : T → Z → list Z → option Z;
  Scan : T → Z → list Z → list Z → list Z;
  SearchOrCreate : T → Z → list Z → Z * bool * T;
}.

Section Lookup.
Context `{Tables T}.

(** [LookupRowResult]: an array of rows, null where there is none *)
Definition rows_of (l : list Z) : result (list (option Z)) :=
  if len l <=? kMaxRangeScanKeys then Ok (map Some l ++ replicate (Z.to_nat kMaxRangeScanKeys - length l) None) else Err OutOfRange.

Definition BaseTxnIndexOpLookup (t : T) (c : Ctx) (idx : Z) : result (list (option Z)) :=
  rel ← nth_r (relation_ids c) idx;
  s ← nth_r (slice_ids c) idx;
  if (0 <=? s) || (s =? kReadOnlySliceId) then
    k ← nth_r (c_keys c) idx;
    Ok (Search t rel k :: replicate (Z.to_nat (kMaxRangeScanKeys - 1)) None)
  else if s =? -1 then
    k1 ← nth_r (c_keys c) idx; k2 ← nth_r (c_keys c) (idx + 1);
    rows_of (Scan t rel k1 k2)
  else rows_of [].

(** the call of [OnNewRow] for a row that is created: slice, table, key and row *)
Definition NewRow : Type := Z * Z * list Z * Z.
Definition BaseTxnIndexOpInsert (c : Ctx) (idx : Z) (s : T * list NewRow) : result (Z * (T * list NewRow)) :=
  rel ← nth_r (relation_ids c) idx;
  _ ← abort_if (negb (keys_bitmap c =? slices_bitmap c));
  k ← nth_r (c_keys c) idx;
  let '(row, created, t) := SearchOrCreate s.1 rel k in
  if created : bool then sl ← nth_r (slice_ids c) idx; Ok (row, (t, s.2 ++ [(sl, rel, k, row)])) else Ok (row, (t, s.2)).
End Lookup.
