(* ===== verification/IndexFacts.v ===== *)
(** Facts on index operations: what the contexts of the nodes hold, which node gets
    which key, and the encoding of contexts. *)

From S2P Require Import Prelude Bits SqlTypes Piece EpochMem IndexOp.

(** ** The bits of a bitmap *)

(** the keys of a bitmap, in order *)
Definition sel (b : Z) : list Z := filter (fun i => Z.testbit b i = true) (seqZ 0 kMaxPackedKeys).

Lemma foreach_from {St} b (f : Z → Z → St → result St) l : ∀ j s,
  for_each (fun i '(j, s) => if Z.testbit b i then s ← f j i s; Ok (j + 1, s) else Ok (j, s)) l (j, s) =
  (s ← for_each (fun x s => f x.1 x.2 s) (imap (fun k i => (j + Z.of_nat k, i)) (filter (fun i => Z.testbit b i = true) l)) s;
   Ok (j + len (filter (fun i => Z.testbit b i = true) l), s)).
Proof.
  induction l as [|i l IH]; intros j s; cbn [for_each]; [cbn; do 2 f_equal; lia|].
  destruct (Z.testbit b i) eqn:E.
  - rewrite filter_cons_True by done. cbn [imap for_each fst snd length]. replace (j + Z.of_nat 0) with j by lia.
    destruct (f j i s) as [s'|e]; cbn; [|done]. rewrite IH.
    rewrite (imap_ext ((fun k (i : Z) => (j + Z.of_nat k, i)) ∘ S) (fun k i => (j + 1 + Z.of_nat k, i))) by (intros; cbn; f_equal; lia).
    destruct (for_each _ _ s') as [s2|e]; cbn; [|done]. do 2 f_equal. lia.
  - rewrite filter_cons_False by congruence. apply IH.
Qed.

Lemma ForEach_sel {St} b (f : Z → Z → St → result St) s :
  ForEachWithBitmap b f s = for_each (fun x s => f x.1 x.2 s) (imap (fun k i => (Z.of_nat k, i)) (sel b)) s.
Proof.
  unfold ForEachWithBitmap. rewrite foreach_from.
  rewrite (imap_ext (fun k (i : Z) => (0 + Z.of_nat k, i)) (fun k i => (Z.of_nat k, i))) by (intros; cbn; f_equal; lia).
  fold (sel b). by destruct (for_each _ _ s).
Qed.

Lemma elem_of_sel b i : i ∈ sel b ↔ 0 ≤ i < kMaxPackedKeys ∧ Z.testbit b i = true.
Proof. unfold sel. rewrite list_elem_of_filter, elem_of_seqZ. naive_solver lia. Qed.
Lemma NoDup_sel b : NoDup (sel b).
Proof. apply NoDup_filter, NoDup_seqZ. Qed.

Lemma bitsum_filter n b : bitsum n b = len (filter (fun i => Z.testbit b i = true) (seqZ 0 (Z.of_nat n))).
Proof.
  induction n as [|n IH]; [done|]. cbn [bitsum]. rewrite seqZ_S, filter_app, length_app, Nat2Z.inj_add, <- IH.
  rewrite Z.add_0_l. destruct (Z.testbit b (Z.of_nat n)) eqn:E;
    [rewrite filter_cons_True by done|rewrite filter_cons_False by congruence]; cbn; lia.
Qed.
Lemma popcount_sel b : 0 ≤ b < 2 ^ 15 → popcount b = len (sel b).
Proof. intros Hb. rewrite (popcount_bitsum 15) by done. apply bitsum_filter. Qed.

(** consecutive keys are consecutive in the packed arrays *)
Lemma filter_succ (P : Z → Prop) `{∀ x, Decision (P x)} n : ∀ a j i, filter P (seqZ a n) !! j = Some i → P (i + 1) → i + 1 < a + n →
  filter P (seqZ a n) !! S j = Some (i + 1).
Proof.
  destruct (decide (0 ≤ n)) as [Hn|]; [|intros a j i; rewrite seqZ_nil by lia; done].
  pattern n. apply natlike_ind; [|clear n Hn|done]; [intros a j i; by rewrite seqZ_nil by lia|].
  intros n Hn IH a j i. rewrite seqZ_cons by lia. replace (Z.pred (Z.succ n)) with n by lia. intros Hi Hp Hlt.
  rewrite filter_cons in *. destruct (decide (P a)) as [Ha|Ha].
  - destruct j as [|j]; cbn in Hi |- *.
    + injection Hi as <-. rewrite seqZ_cons by lia. replace (Z.succ a) with (a + 1) by lia. by rewrite filter_cons_True.
    + apply IH; [done|done|lia].
  - apply IH; [done|done|lia].
Qed.
Lemma sel_succ b j i : sel b !! j = Some i → Z.testbit b (i + 1) = true → i + 1 < kMaxPackedKeys → sel b !! S j = Some (i + 1).
Proof. intros Hi Hb Hlt. unfold sel. apply filter_succ; [done|done|lia]. Qed.

(** ** Slots: the keys of an operation by their index *)

Record Slot := mkSlot { s_rel : Z; s_key : list Z; s_slice : Z; s_home : Z }.

Section Slots.
Context {K : Type} (EncodeView : K → list Z) (Locate : Z → K → Z) (SliceToNodeId : Z → Z) (nr_nodes node_id : Z).
Notation home := (home Locate SliceToNodeId node_id).
Notation view_of := (view_of EncodeView).

Definition key_slot (rel slice : Z) (k : K) : Slot := mkSlot (i16 rel) (view_of k) (i16 slice) (home rel k).
Definition param_slots (p : Param K) : list (option Slot) :=
  match p with
  | KeyParam rel ks => map (fun k => Some (key_slot rel (Locate rel k) k)) ks
  | RangeParam rel s e => [Some (key_slot rel (-1) s); Some (key_slot rel (-2) e)]
  | PlaceholderParam nr => replicate (Z.to_nat nr) None
  end.
Definition slots (ps : list (Param K)) : list (option Slot) := flat_map param_slots ps.

Definition param_ok (p : Param K) : Prop := match p with PlaceholderParam nr => 0 ≤ nr | _ => True end.
Lemma len_param_slots p : param_ok p → len (param_slots p) = param_size p.
Proof using Type. destruct p; cbn; rewrite ?length_map, ?length_replicate; lia. Qed.

(** what packing one key does *)
Definition push (s : Slot) (a : Packed) : Packed :=
  mkPacked (pk_keys a ++ [s_key s]) (pk_slices a ++ [s_slice s]) (pk_rels a ++ [s_rel s]).
Definition push_all (l : list Slot) (a : Packed) : Packed := foldl (fun a s => push s a) a l.
Lemma push_all_eq l : ∀ a, push_all l a = mkPacked (pk_keys a ++ map s_key l) (pk_slices a ++ map s_slice l) (pk_rels a ++ map s_rel l).
Proof using Type.
  induction l as [|s l IH]; intros a; cbn; [destruct a; by rewrite !app_nil_r|]. fold (push_all l (push s a)). rewrite IH. cbn.
  by rewrite <- !app_assoc.
Qed.

Lemma param_slot_at p i o : param_slots p !! Z.to_nat i = Some o → 0 ≤ i → is_void p = false →
  ∃ s k, o = Some s ∧ param_at p i = Ok k ∧ s_home s = home (relation p) k ∧
    ∀ a, pack_key EncodeView Locate p i a = Ok (push s a).
Proof using Type.
  destruct p as [rel ks|rel s e|nr]; cbn [param_slots is_void]; intros Ho Hi Hv; [| |done].
  - change (map ?f ks) with (f <$> ks) in Ho. rewrite list_lookup_fmap in Ho. destruct (ks !! Z.to_nat i) as [k|] eqn:Ek; [|done]. injection Ho as <-.
    pose proof (nth_r_in ks i k Hi Ek) as En. eexists _, k. split; [done|]. cbn [param_at relation]. split; [done|]. split; [done|].
    intros a. unfold pack_key. cbn [param_at EncodeToSliceId relation]. rewrite En. done.
  - assert (i = 0 ∨ i = 1) as [->| ->].
    { apply lookup_lt_Some in Ho. cbn in Ho. lia. }
    all: injection Ho as <-; eexists _, _; (split; [done|]); (split; [done|]); (split; [done|]); done.
Qed.

(** the keys of a bitmap that are packed, from index [sh] on *)
Fixpoint chosen (b sh : Z) (sl : list (option Slot)) : list Slot :=
  match sl with
  | [] => []
  | o :: sl =>
      match o with Some s => if (sh <? kMaxPackedKeys) && Z.testbit b sh then [s] else [] | None => [] end ++ chosen b (sh + 1) sl
  end.
Lemma chosen_app b l1 l2 : ∀ sh, chosen b sh (l1 ++ l2) = chosen b sh l1 ++ chosen b (sh + len l1) l2.
Proof using Type.
  induction l1 as [|o l1 IH]; intros sh; cbn [chosen app length]; [f_equal; lia|]. rewrite IH, <- app_assoc. do 3 f_equal. lia.
Qed.
Lemma chosen_late b l : ∀ sh, kMaxPackedKeys ≤ sh → chosen b sh l = [].
Proof using Type.
  induction l as [|o l IH]; intros sh Hs; cbn [chosen]; [done|]. rewrite IH by lia.
  rewrite (proj2 (Z.ltb_ge sh kMaxPackedKeys)) by lia. by destruct o.
Qed.
Lemma chosen_void b n : ∀ sh, chosen b sh (replicate n None) = [].
Proof using Type. induction n as [|n IH]; intros sh; cbn; auto. Qed.

Lemma from_param_eq b sh p a : param_ok p →
  from_param EncodeView Locate b sh p a = Ok (push_all (chosen b sh (param_slots p)) a).
Proof using Type.
  intros Hp. unfold from_param. destruct (is_void p) eqn:Ev.
  { destruct p; try done. cbn [param_slots]. rewrite chosen_void. cbn. generalize (seqZ sh (Z.min kMaxPackedKeys (sh + nr) - sh)).
    intros l. induction l as [|x l IH]; cbn; auto. }
  rewrite <- (len_param_slots p Hp).
  assert (H : ∀ r d a, 0 ≤ d → drop (Z.to_nat d) (param_slots p) = r →
    for_each (fun i a => if Z.testbit b i then pack_key EncodeView Locate p (i - sh) a else Ok a)
      (seqZ (sh + d) (Z.min kMaxPackedKeys (sh + d + len r) - (sh + d))) a = Ok (push_all (chosen b (sh + d) r) a)).
  { intros r. induction r as [|o r IH]; intros d a0 Hd Hr.
    - cbn [length chosen]. by rewrite seqZ_nil by lia.
    - destruct (Z.lt_ge_cases (sh + d) kMaxPackedKeys) as [Hlt|Hge].
      2: { by rewrite seqZ_nil, chosen_late by lia. }
      assert (Hlen : len (o :: r) = 1 + len r) by (cbn [length]; lia). rewrite Hlen, seqZ_cons by lia. cbn [for_each chosen].
      assert (Ho : param_slots p !! Z.to_nat d = Some o).
      { replace (Z.to_nat d) with (Z.to_nat d + 0)%nat by lia. rewrite <- lookup_drop, Hr. done. }
      destruct (param_slot_at p d o Ho Hd Ev) as (s & k & -> & _ & _ & Hpk). rewrite (proj2 (Z.ltb_lt (sh + d) kMaxPackedKeys)) by done. cbn [andb].
      replace (sh + d - sh) with d by lia. rewrite Hpk.
      assert (Hr' : drop (Z.to_nat (d + 1)) (param_slots p) = r).
      { replace (Z.to_nat (d + 1)) with (S (Z.to_nat d)) by lia. by rewrite (drop_S _ _ _ Ho) in Hr; injection Hr. }
      replace (Z.succ (sh + d)) with (sh + (d + 1)) by lia. replace (sh + d + 1) with (sh + (d + 1)) by lia.
      replace (Z.pred (Z.min kMaxPackedKeys (sh + d + (1 + len r)) - (sh + d)))
        with (Z.min kMaxPackedKeys (sh + (d + 1) + len r) - (sh + (d + 1))) by lia.
      destruct (Z.testbit b (sh + d)); cbn [mbind result_bind app]; rewrite IH by (done || lia); done. }
  specialize (H (param_slots p) 0 a ltac:(lia) eq_refl). rewrite !Z.add_0_r in H. exact H.
Qed.

Lemma FromKeyParam_eq b ps : Forall param_ok ps → ∀ sh a,
  FromKeyParam EncodeView Locate b sh ps a = Ok (push_all (chosen b sh (slots ps)) a).
Proof using Type.
  induction 1 as [|p ps Hp _ IH]; intros sh a; cbn [FromKeyParam]; [done|]. rewrite from_param_eq by done. cbn [mbind result_bind].
  rewrite IH. unfold slots. cbn [flat_map]. rewrite chosen_app, len_param_slots by done. f_equal. unfold push_all. by rewrite foldl_app.
Qed.

(** if the bitmap only has bits of keys, the packed keys are those of its bits *)
Definition covered (b : Z) (sl : list (option Slot)) : Prop :=
  ∀ i, 0 ≤ i < kMaxPackedKeys → Z.testbit b i = true → ∃ s, sl !! Z.to_nat i = Some (Some s).

Lemma chosen_sel_from b sl : ∀ sh, 0 ≤ sh →
  (∀ i, sh ≤ i < kMaxPackedKeys → Z.testbit b i = true → ∃ s, sl !! Z.to_nat (i - sh) = Some (Some s)) →
  Forall2 (fun i s => sh ≤ i ∧ sl !! Z.to_nat (i - sh) = Some (Some s))
    (filter (fun i => Z.testbit b i = true) (seqZ sh (kMaxPackedKeys - sh))) (chosen b sh sl).
Proof using Type.
  induction sl as [|o sl IH]; intros sh Hs Hc; cbn [chosen].
  { rewrite filter_none; [constructor|]. intros i Hi%elem_of_seqZ Hb. destruct (Hc i ltac:(lia) Hb) as [? Hx]. by rewrite lookup_nil in Hx. }
  destruct (Z.lt_ge_cases sh kMaxPackedKeys) as [Hlt|Hge].
  2: { rewrite seqZ_nil, chosen_late by lia. rewrite (proj2 (Z.ltb_ge sh _)) by lia. destruct o; constructor. }
  rewrite seqZ_cons by lia. rewrite (proj2 (Z.ltb_lt sh _)) by done. cbn [andb].
  assert (IH' : Forall2 (fun i s => sh ≤ i ∧ (o :: sl) !! Z.to_nat (i - sh) = Some (Some s))
    (filter (fun i => Z.testbit b i = true) (seqZ (Z.succ sh) (Z.pred (kMaxPackedKeys - sh)))) (chosen b (sh + 1) sl)).
  { replace (Z.succ sh) with (sh + 1) by lia. replace (Z.pred (kMaxPackedKeys - sh)) with (kMaxPackedKeys - (sh + 1)) by lia.
    eapply Forall2_impl; [apply IH; [lia|]|].
    - intros i Hi Hb. destruct (Hc i ltac:(lia) Hb) as [s Hx]. exists s.
      by replace (Z.to_nat (i - sh)) with (S (Z.to_nat (i - (sh + 1)))) in Hx by lia.
    - intros i s [Hi Hx]. split; [lia|]. by replace (Z.to_nat (i - sh)) with (S (Z.to_nat (i - (sh + 1)))) by lia. }
  destruct (Z.testbit b sh) eqn:Eb.
  - destruct (Hc sh ltac:(lia) Eb) as [s Hx]. rewrite Z.sub_diag in Hx. injection Hx as ->. rewrite filter_cons_True by done.
    constructor; [|exact IH']. split; [lia|]. by rewrite Z.sub_diag.
  - rewrite filter_cons_False by congruence. by destruct o.
Qed.

Lemma chosen_sel b sl : covered b sl → Forall2 (fun i s => sl !! Z.to_nat i = Some (Some s)) (sel b) (chosen b 0 sl).
Proof using Type.
  intros Hc. eapply Forall2_impl; [apply (chosen_sel_from b sl 0)|].
  - done.
  - intros i Hi. rewrite Z.sub_0_r. apply Hc. lia.
  - intros i s [_ H]. by rewrite Z.sub_0_r in H.
Qed.

(** ** Marking *)

Definition set_bit (bm : list Z) (n i : Z) : list Z := <[Z.to_nat n := u16 (Z.lor (bm.[n]) (Z.shiftl 1 i))]> bm.
Fixpoint mark_slots (sh : Z) (sl : list (option Slot)) (bm : list Z) : list Z :=
  match sl with
  | [] => bm
  | o :: sl => mark_slots (sh + 1) sl (match o with Some s => set_bit bm (s_home s) sh | None => bm end)
  end.
Lemma mark_slots_app l1 l2 : ∀ sh bm, mark_slots sh (l1 ++ l2) bm = mark_slots (sh + len l1) l2 (mark_slots sh l1 bm).
Proof using Type.
  induction l1 as [|o l1 IH]; intros sh bm; cbn [mark_slots app length]; [f_equal; lia|]. rewrite IH. f_equal. lia.
Qed.
Lemma length_mark sl : ∀ sh bm, length (mark_slots sh sl bm) = length bm.
Proof using Type. induction sl as [|[s|] sl IH]; intros sh bm; cbn; [done|rewrite IH; apply length_insert|apply IH]. Qed.

Definition homes_ok (n : Z) (sl : list (option Slot)) : Prop := ∀ i s, sl !! i = Some (Some s) → 0 ≤ s_home s < n.

Lemma mark_param_eq p sh bm : param_ok p → is_void p = false → homes_ok (len bm) (param_slots p) →
  for_each (mark_key Locate SliceToNodeId node_id p sh) (seqZ 0 (param_size p)) bm = Ok (mark_slots sh (param_slots p) bm).
Proof using Type.
  intros Hp Hv Hh. rewrite <- (len_param_slots p Hp).
  assert (H : ∀ r d bm0, 0 ≤ d → len bm0 = len bm → drop (Z.to_nat d) (param_slots p) = r →
    for_each (mark_key Locate SliceToNodeId node_id p sh) (seqZ d (len r)) bm0 = Ok (mark_slots (sh + d) r bm0)).
  { intros r. induction r as [|o r IH]; intros d bm0 Hd Hl Hr; [done|].
    assert (Hlen : len (o :: r) = 1 + len r) by (cbn [length]; lia). rewrite Hlen, seqZ_cons by lia. cbn [for_each mark_slots].
    assert (Ho : param_slots p !! Z.to_nat d = Some o).
    { replace (Z.to_nat d) with (Z.to_nat d + 0)%nat by lia. rewrite <- lookup_drop, Hr. done. }
    assert (Hr' : drop (Z.to_nat (d + 1)) (param_slots p) = r).
    { replace (Z.to_nat (d + 1)) with (S (Z.to_nat d)) by lia. by rewrite (drop_S _ _ _ Ho) in Hr; injection Hr. }
    destruct (param_slot_at p d o Ho Hd Hv) as (s & k & -> & Hk & Hhm & _). pose proof (Hh _ _ Ho) as Hr0.
    assert (E : mark_key Locate SliceToNodeId node_id p sh d bm0 = Ok (set_bit bm0 (s_home s) (sh + d))).
    { unfold mark_key. rewrite Hk. cbn [mbind result_bind]. rewrite <- Hhm, load_in by lia. cbn [mbind result_bind].
      rewrite store_in by lia. by replace (d + sh) with (sh + d) by lia. }
    rewrite E. cbn [mbind result_bind]. replace (Z.pred (1 + len r)) with (len r) by lia.
    replace (Z.succ d) with (d + 1) by lia. replace (sh + d + 1) with (sh + (d + 1)) by lia.
    apply IH; [lia| |done]. unfold set_bit. by rewrite length_insert. }
  specialize (H (param_slots p) 0 bm ltac:(lia) eq_refl eq_refl). by rewrite Z.add_0_r in H.
Qed.

Lemma KeyParamsToBitmap_eq ps : Forall param_ok ps → ∀ sh bm, homes_ok (len bm) (slots ps) →
  KeyParamsToBitmap Locate SliceToNodeId node_id sh ps bm = Ok (mark_slots sh (slots ps) bm).
Proof using Type.
  induction 1 as [|p ps Hp _ IH]; intros sh bm Hh; cbn [KeyParamsToBitmap]; [done|]. unfold slots in *. cbn [flat_map] in *.
  assert (H1 : homes_ok (len bm) (param_slots p)) by (intros i s Hi; apply (Hh i); by apply lookup_app_l_Some).
  assert (H2 : homes_ok (len bm) (flat_map param_slots ps)).
  { intros i s Hi. apply (Hh (length (param_slots p) + i)%nat). rewrite lookup_app_r by lia. by rewrite Nat.add_comm, Nat.add_sub. }
  rewrite mark_slots_app, len_param_slots by done.
  assert (E : (if is_void p then Ok bm else for_each (mark_key Locate SliceToNodeId node_id p sh) (seqZ 0 (param_size p)) bm)
    = Ok (mark_slots sh (param_slots p) bm)).
  { destruct (is_void p) eqn:Ev; [|by apply mark_param_eq]. destruct p; try done. cbn [param_slots].
    f_equal. clear. revert sh. generalize (Z.to_nat nr). intros n. induction n as [|n IH]; intros sh; cbn; auto. }
  rewrite E. cbn [mbind result_bind]. apply IH. by rewrite length_mark.
Qed.

End Slots.

(** the bits after marking *)
Lemma mark_bits sl : ∀ sh bm n j, 0 ≤ sh → homes_ok (len bm) sl → 0 ≤ n → 0 ≤ j < 16 →
  Z.testbit ((mark_slots sh sl bm).[n]) j = true ↔
  Z.testbit (bm.[n]) j = true ∨ (sh ≤ j ∧ ∃ s, sl !! Z.to_nat (j - sh) = Some (Some s) ∧ s_home s = n).
Proof.
  induction sl as [|o sl IH]; intros sh bm n j Hs Hh Hn Hj; cbn [mark_slots].
  { split; [by left|]. intros [?|(_ & s & Hx & _)]; [done|by rewrite lookup_nil in Hx]. }
  assert (Hh' : ∀ bm' : list Z, len bm' = len bm → homes_ok (len bm') sl) by (intros bm' -> i s Hi; by apply (Hh (S i))).
  rewrite IH; [|lia|apply Hh'; destruct o; [apply len_insert|done]|done|done].
  assert (Hstep : Z.testbit ((match o with Some s => set_bit bm (s_home s) sh | None => bm end).[n]) j = true ↔
    Z.testbit (bm.[n]) j = true ∨ (j = sh ∧ ∃ s, o = Some s ∧ s_home s = n)).
  { destruct o as [s|]; [|naive_solver]. pose proof (Hh 0%nat s eq_refl). unfold set_bit. rewrite at_insert by done. destruct (Z.eqb_spec n (s_home s)) as [->|Hne].
    - unfold u16. rewrite Z.mod_pow2_bits_low, testbit_set, orb_true_iff, Z.eqb_eq by lia. naive_solver.
    - naive_solver. }
  rewrite Hstep. destruct (Z.eq_dec j sh) as [->|Hne].
  - rewrite Z.sub_diag. split.
    + intros [[?|(_ & s & -> & Hs')]|[? _]]; [by left| |lia]. right. split; [lia|]. by exists s.
    + intros [?|(_ & s & [= ->] & ?)]; [by left; left|]. left. right. split; [done|]. by exists s.
  - split.
    + intros [[?|[? _]]|(? & s & Hx & Hh0)]; [by left|lia|]. right. split; [lia|]. exists s. split; [|done].
      by replace (Z.to_nat (j - sh)) with (S (Z.to_nat (j - (sh + 1)))) by lia.
    + intros [?|(? & s & Hx & Hh0)]; [by left; left|]. right. split; [lia|]. exists s. split; [|done].
      by replace (Z.to_nat (j - sh)) with (S (Z.to_nat (j - (sh + 1)))) in Hx by lia.
Qed.
Lemma mark_range sl : ∀ sh bm, Forall (fun x => 0 ≤ x < 2 ^ 16) bm → Forall (fun x => 0 ≤ x < 2 ^ 16) (mark_slots sh sl bm).
Proof.
  induction sl as [|[s|] sl IH]; intros sh bm Hb; cbn; [done|apply IH, Forall_insert; [done|]|by apply IH].
  apply Z.mod_pos_bound. lia.
Qed.

(** ** The nodes of an operation *)

Section Nodes.
Context (nr_nodes : Z) (sl : list (option Slot)).
Context (Hn : 0 ≤ nr_nodes) (Hlen : len sl ≤ kMaxPackedKeys) (Hh : homes_ok (nr_nodes + 1) sl).

(** the bitmap of each node *)
Definition node_bits : list Z := mark_slots 0 sl (tab (nr_nodes + 1) (fun _ => 0)).

Lemma len_node_bits : len node_bits = nr_nodes + 1.
Proof using Hn. unfold node_bits. rewrite length_mark. apply len_tab. lia. Qed.

Lemma node_bits_range n : 0 ≤ n ≤ nr_nodes → 0 ≤ node_bits.[n] < 2 ^ 16.
Proof using Hn.
  intros Hr. pose proof len_node_bits. assert (Hf : Forall (fun x => 0 ≤ x < 2 ^ 16) node_bits).
  { apply mark_range, Forall_forall. intros x Hx. unfold tab in Hx. apply list_elem_of_fmap in Hx as (? & -> & _). lia. }
  rewrite Forall_forall in Hf. apply Hf. eapply list_elem_of_lookup_2, lookup_at. lia.
Qed.

Lemma node_bits_spec n j : 0 ≤ n ≤ nr_nodes → 0 ≤ j →
  Z.testbit (node_bits.[n]) j = true ↔ ∃ s, sl !! Z.to_nat j = Some (Some s) ∧ s_home s = n.
Proof using Hn Hlen Hh.
  intros Hr Hj. destruct (Z.lt_ge_cases j 16) as [Hlt|Hge].
  - unfold node_bits. rewrite mark_bits; [|done|rewrite len_tab by lia; done|lia|lia]. rewrite at_tab, Z.bits_0, Z.sub_0_r by lia. naive_solver.
  - rewrite (testbit_high _ 16) by (try lia; by apply node_bits_range). split; [done|]. intros (s & Hs & _). apply lookup_lt_Some in Hs.
    unfold kMaxPackedKeys in Hlen. lia.
Qed.

Lemma node_bits_small n : 0 ≤ n ≤ nr_nodes → 0 ≤ node_bits.[n] < 2 ^ 15.
Proof using Hn Hlen Hh.
  intros Hr. pose proof (node_bits_range n Hr) as Hb. split; [lia|].
  destruct (Z.lt_ge_cases (node_bits.[n]) (2 ^ 15)) as [|Hge]; [done|exfalso].
  assert (Ht : Z.testbit (node_bits.[n]) 15 = true).
  { apply Z.testbit_true; [lia|]. replace (node_bits.[n] / 2 ^ 15) with 1; [done|]. apply Z.le_antisymm.
    - apply Z.div_le_lower_bound; lia.
    - apply Z.lt_succ_r, Z.div_lt_upper_bound; lia. }
  apply node_bits_spec in Ht as (s & Hs & _); [|done|lia]. apply lookup_lt_Some in Hs. unfold kMaxPackedKeys in Hlen. lia.
Qed.

(** the nodes that serve a key *)
Definition used (l : list Z) : list Z := filter (fun n => node_bits.[n] ≠ 0) l.

Lemma used_bit n : 0 ≤ n ≤ nr_nodes → node_bits.[n] ≠ 0 →
  ∃ s, sl !! Z.to_nat (ctz (node_bits.[n])) = Some (Some s) ∧ s_home s = n ∧ 0 ≤ ctz (node_bits.[n]) < kMaxPackedKeys.
Proof using Hn Hlen Hh.
  intros Hr Hz. pose proof (node_bits_range n Hr) as Hb. destruct (ctz_testbit (node_bits.[n])) as [Ht Hc]; [lia|].
  apply node_bits_spec in Ht as (s & Hs & He); [|done|done]. exists s. split_and!; try done.
  apply lookup_lt_Some in Hs. lia.
Qed.

Lemma used_length l : NoDup l → (∀ n, n ∈ l → 0 ≤ n ≤ nr_nodes) → len (used l) ≤ kMaxPackedKeys.
Proof using Hn Hlen Hh.
  intros Hnd Hl. set (f := fun n => ctz (node_bits.[n])).
  assert (Hin : ∀ n, n ∈ used l → n ∈ l ∧ node_bits.[n] ≠ 0) by (intros n Hx; apply list_elem_of_filter in Hx; tauto).
  assert (Hm : NoDup (f <$> used l)).
  { apply NoDup_fmap_2_strong; [|by apply NoDup_filter]. intros x y Hx Hy E.
    apply Hin in Hx as [Hx Hx0]. apply Hin in Hy as [Hy Hy0].
    destruct (used_bit x (Hl _ Hx) Hx0) as (s & Hs & <- & _). destruct (used_bit y (Hl _ Hy) Hy0) as (s' & Hs' & <- & _).
    unfold f in E. rewrite E, Hs' in Hs. congruence. }
  assert (Hsub : (f <$> used l) ⊆+ seqZ 0 kMaxPackedKeys).
  { apply NoDup_submseteq; [done|]. intros x Hx. apply list_elem_of_fmap in Hx as (n & -> & Hx). apply Hin in Hx as [Hx Hx0].
    destruct (used_bit n (Hl _ Hx) Hx0) as (_ & _ & _ & ?). apply elem_of_seqZ. unfold f. lia. }
  apply submseteq_length in Hsub. rewrite length_fmap, length_seqZ in Hsub. lia.
Qed.

Lemma collect_nodes :
  for_each (fun node b => v ← load node_bits node; if v =? 0 then Ok b else Add b node v) (seqZ 1 nr_nodes) [] =
  Ok (map (fun n => (n, node_bits.[n])) (used (seqZ 1 nr_nodes))).
Proof using Hn Hlen Hh.
  destruct (for_each_inv (fun node b => v ← load node_bits node; if v =? 0 then Ok b else Add b node v)
    (fun d b => b = map (fun n => (n, node_bits.[n])) (used d)) (seqZ 1 nr_nodes) []) as (b & E & ->); [done| |exact E].
  intros d x r b Hd ->. assert (Hx : 1 ≤ x ≤ nr_nodes).
  { assert (x ∈ seqZ 1 nr_nodes) as ?%elem_of_seqZ by (rewrite Hd; set_solver). lia. }
  rewrite load_in by (rewrite len_node_bits; lia). cbn [mbind result_bind]. unfold used. rewrite filter_app.
  destruct (Z.eqb_spec (node_bits.[x]) 0) as [E|E].
  - eexists. split; [done|]. by rewrite (filter_cons_False _ x), filter_nil, app_nil_r by (cbn; lia).
  - rewrite (filter_cons_True _ x), filter_nil by done. rewrite map_app. cbn [map]. unfold Add.
    assert (Hl : len (used (d ++ [x])) ≤ kMaxPackedKeys).
    { apply used_length.
      - pose proof (NoDup_seqZ 1 nr_nodes) as Hnd. rewrite Hd in Hnd. change (x :: r) with ([x] ++ r) in Hnd. rewrite app_assoc in Hnd. by apply NoDup_app in Hnd as [? _].
      - intros n Hx'. assert (n ∈ seqZ 1 nr_nodes) as ?%elem_of_seqZ by (rewrite Hd; set_solver). lia. }
    unfold used in Hl. rewrite filter_app, (filter_cons_True _ x), filter_nil, length_app in Hl by done. cbn [length] in Hl. rewrite Nat2Z.inj_add in Hl.
    rewrite length_map. rewrite (proj2 (Z.ltb_lt _ _)) by lia. by eexists.
Qed.
End Nodes.

Section Generate.
Context {K : Type} (EncodeView : K → list Z) (Locate : Z → K → Z) (SliceToNodeId : Z → Z) (nr_nodes node_id : Z).

Lemma GenerateNodeBitmap_eq ps (sl := slots EncodeView Locate SliceToNodeId node_id ps) :
  0 ≤ nr_nodes → Forall param_ok ps → len sl ≤ kMaxPackedKeys → homes_ok (nr_nodes + 1) sl →
  GenerateNodeBitmap Locate SliceToNodeId nr_nodes node_id ps =
  Ok (map (fun n => (n, (node_bits nr_nodes sl).[n])) (used nr_nodes sl (seqZ 1 nr_nodes))).
Proof.
  intros Hn Hp Hl Hh. unfold GenerateNodeBitmap. rewrite (KeyParamsToBitmap_eq EncodeView) by (try done; rewrite len_tab by lia; done).
  cbn [mbind result_bind]. by apply collect_nodes.
Qed.
End Generate.
