(* ===== verification/IndexProps.v ===== *)
(** Properties of index operations: contexts survive the network, and a lookup or an
    insertion runs once for every key, on the node that owns it. *)

From S2P Require Import Prelude Bits SqlTypes Piece EpochMem IndexOp IndexFacts.

(** ** Encoding *)

Lemma mapM_nth {A} (l : list A) : mapM (nth_r l) (seqZ 0 (len l)) = Ok l.
Proof.
  assert (H : ∀ r d, l = d ++ r → mapM (nth_r l) (seqZ (len d) (len r)) = Ok r).
  { intros r. induction r as [|x r IH]; intros d Hd; [done|].
    assert (Hl : len (x :: r) = 1 + len r) by (cbn [length]; lia). rewrite Hl, seqZ_cons by lia. cbn [mapM].
    rewrite (nth_r_in l (len d) x); [|lia|rewrite Hd, Nat2Z.id; by apply list_lookup_middle]. cbn [mbind result_bind].
    specialize (IH (d ++ [x])). rewrite length_app, Nat2Z.inj_add in IH. cbn [length] in IH.
    replace (Z.pred (1 + len r)) with (len r) by lia. replace (Z.succ (len d)) with (len d + Z.of_nat 1) by lia.
    rewrite IH; [done|]. rewrite Hd. by rewrite <- app_assoc. }
  apply (H l []). done.
Qed.

Lemma i16_u16 x : - 2 ^ 15 ≤ x < 2 ^ 15 → i16 (u16 x) = x.
Proof.
  intros Hx. unfold i16, u16. rewrite Z.add_mod_idemp_l by lia. rewrite Z.mod_small by lia. lia.
Qed.
Lemma i16_range x : - 2 ^ 15 ≤ i16 x < 2 ^ 15.
Proof. unfold i16. pose proof (Z.mod_pos_bound (x + 2 ^ 15) (2 ^ 16) ltac:(lia)). lia. Qed.
Lemma i32_u32 x : - 2 ^ 31 ≤ x < 2 ^ 31 → i32 (u32 x) = x.
Proof. intros Hx. unfold i32, u32. rewrite Z.add_mod_idemp_l by lia. rewrite Z.mod_small by lia. lia. Qed.

Definition key_ok (k : list Z) : Prop := Forall byte_ok k ∧ len k < 2 ^ 16.
Definition short_ok (x : Z) : Prop := - 2 ^ 15 ≤ x < 2 ^ 15.

Lemma read_two x rest : read_bytes 2 (le_split 2 x ++ rest) = Ok (le_split 2 x).
Proof. apply (read_split 2). Qed.

Lemma decode_keys_app ks rest : Forall key_ok ks → decode_keys (length ks) (flat_map encode_key ks ++ rest) = Ok (ks, rest).
Proof.
  induction 1 as [|k ks [_ Hl] _ IH]; [done|]. cbn [length decode_keys flat_map]. rewrite (eq_refl : encode_key k = le_split 2 (len k) ++ k).
  rewrite <- !app_assoc. rewrite read_two. cbn [mbind result_bind]. rewrite le_combine_split by (cbn; lia).
  rewrite (drop_app_length' (le_split 2 (len k))) by (by rewrite length_le_split). rewrite read_bytes_app. cbn [mbind result_bind].
  rewrite <- drop_drop, (drop_app_length' (le_split 2 (len k))) by (by rewrite length_le_split). rewrite drop_app_length.
  rewrite IH. done.
Qed.
Lemma decode_i16s_app xs rest : Forall short_ok xs → decode_i16s (length xs) (flat_map encode_i16 xs ++ rest) = Ok (xs, rest).
Proof.
  induction 1 as [|x xs Hx _ IH]; [done|]. cbn [length decode_i16s flat_map]. rewrite (eq_refl : encode_i16 x = le_split 2 (u16 x)).
  rewrite <- !app_assoc. rewrite read_two. cbn [mbind result_bind].
  rewrite le_combine_split by (pose proof (Z.mod_pos_bound x (2 ^ 16) ltac:(lia)); unfold u16; cbn; lia).
  rewrite i16_u16 by done. rewrite (drop_app_length' (le_split 2 (u16 x))) by (by rewrite length_le_split). rewrite IH. done.
Qed.

(** a context as the program builds it *)
Record ctx_ok (c : Ctx) : Prop := {
  ck_words : Forall2 has_type ctx_layout (ctx_vals c);
  ck_node : - 2 ^ 31 ≤ o_node (c_state c) < 2 ^ 31;
  ck_keys : len (c_keys c) = popcount (keys_bitmap c) ∧ Forall key_ok (c_keys c);
  ck_slices : len (slice_ids c) = popcount (slices_bitmap c) ∧ Forall short_ok (slice_ids c);
  ck_rels : len (relation_ids c) = popcount (rels_bitmap c) ∧ Forall short_ok (relation_ids c);
}.

Lemma len_flat {A} (f : A → list Z) (g : A → Z) l : (∀ x, x ∈ l → len (f x) = g x) → len (flat_map f l) = sum_over g l.
Proof.
  induction l as [|x l IH]; intros H; [done|]. cbn [flat_map sum_over foldr]. rewrite length_app, Nat2Z.inj_add, H by left.
  f_equal. apply IH. intros y Hy. apply H. by right.
Qed.

Lemma len_ctx_header c : Forall2 has_type ctx_layout (ctx_vals c) → len (ctx_header c) = kHeaderSize.
Proof.
  intros H. unfold ctx_header. destruct (schema_rt serializer _ _ [] ltac:(apply Forall_forall; intros; apply _) H) as [-> _]. done.
Qed.

Lemma encode_context c : ctx_ok c → Ctx_EncodeTo c =
  Ok (ctx_header c ++ flat_map encode_key (c_keys c) ++ flat_map encode_i16 (slice_ids c) ++ flat_map encode_i16 (relation_ids c)).
Proof.
  intros [_ _ [Hk _] [Hs _] [Hr _]]. unfold Ctx_EncodeTo. rewrite <- Hk, <- Hs, <- Hr, !mapM_nth. done.
Qed.

Lemma decode_context c rest : ctx_ok c →
  Ctx_DecodeFrom (ctx_header c ++ flat_map encode_key (c_keys c) ++ flat_map encode_i16 (slice_ids c) ++ flat_map encode_i16 (relation_ids c) ++ rest)
  = Ok (c, rest).
Proof.
  intros [Hw Hn [Hk Hk'] [Hs Hs'] [Hr Hr']]. unfold Ctx_DecodeFrom, ctx_header.
  destruct (schema_rt serializer _ _ (flat_map encode_key (c_keys c) ++ flat_map encode_i16 (slice_ids c) ++ flat_map encode_i16 (relation_ids c) ++ rest)
    ltac:(apply Forall_forall; intros; apply _) Hw) as [_ ->]. cbn [mbind result_bind].
  rewrite (drop_bytes _ _ kHeaderSize (len_ctx_header c Hw)). unfold ctx_vals. cbn [fmap list_fmap].
  rewrite <- Hk, <- Hs, <- Hr, !Nat2Z.id. rewrite decode_keys_app by done. cbn [mbind result_bind].
  rewrite decode_i16s_app by done. cbn [mbind result_bind]. rewrite decode_i16s_app by done. cbn [mbind result_bind].
  rewrite i32_u32 by done. destruct c as [? ? [? ? ?]]. done.
Qed.

(** Contexts survive the network: a context that is encoded has the announced size, and
    decoding returns it with whatever follows it in the buffer. *)
Theorem context_roundtrip c rest : ctx_ok c →
  ∃ b, Ctx_EncodeTo c = Ok b ∧ Ctx_EncodeSize c = Ok (len b) ∧ Ctx_DecodeFrom (b ++ rest) = Ok (c, rest).
Proof.
  intros H. eexists. split; [by apply encode_context|]. split.
  - destruct H as [Hw _ [Hk _] [Hs _] [Hr _]]. unfold Ctx_EncodeSize. rewrite <- Hk, mapM_nth. cbn [mbind result_bind].
    rewrite !length_app, !Nat2Z.inj_add, len_ctx_header by done.
    rewrite (len_flat encode_key (fun k => 2 + len k)), !(len_flat encode_i16 (fun _ => 2)), !sum_over_const, Hs, Hr; [f_equal; lia|..];
      intros; unfold encode_key, encode_i16; rewrite ?length_app, length_le_split; lia.
  - rewrite <- !app_assoc. by apply decode_context.
Qed.

(** ** Running an operation on all its nodes *)

(** the indices of the keys *)
Definition is_key (o : option (option Slot)) : bool := match o with Some (Some _) => true | _ => false end.
Definition key_ids (sl : list (option Slot)) : list Z := filter (fun i => is_key (sl !! Z.to_nat i) = true) (seqZ 0 (len sl)).

Lemma elem_of_key_ids sl i : i ∈ key_ids sl ↔ 0 ≤ i ∧ ∃ s, sl !! Z.to_nat i = Some (Some s).
Proof.
  unfold key_ids. rewrite list_elem_of_filter, elem_of_seqZ. split.
  - intros [Hk Hi]. split; [lia|]. destruct (sl !! Z.to_nat i) as [[s|]|]; try done. by exists s.
  - intros [Hi [s Hs]]. rewrite Hs. split; [done|]. apply lookup_lt_Some in Hs. lia.
Qed.

Section Exactly.
Context {K : Type} (EncodeView : K → list Z) (Locate : Z → K → Z) (SliceToNodeId : Z → Z) (nr_nodes node_id : Z).
Context (sid epoch : Z) (state : EpochObject) (gap aff : Z) (extra : list Z) (ps : list (Param K)).
Notation sl := (slots EncodeView Locate SliceToNodeId node_id ps).
Notation bits_of n := ((node_bits nr_nodes sl).[n]).

(** the request: at most 15 keys, on nodes that exist; the words of its transaction *)
Record request_ok : Prop := {
  rq_nodes : 1 ≤ nr_nodes ≤ 254;
  rq_params : Forall param_ok ps;
  rq_len : len sl ≤ kMaxPackedKeys;
  rq_homes : ∀ i s, sl !! i = Some (Some s) → 1 ≤ s_home s ≤ nr_nodes;
  rq_id : 1 ≤ node_id ≤ nr_nodes;
  rq_words : 0 ≤ sid < 2 ^ 64 ∧ 0 ≤ epoch < 2 ^ 64 ∧ 0 ≤ o_epoch state < 2 ^ 64 ∧ - 2 ^ 31 ≤ o_node state < 2 ^ 31 ∧
             0 ≤ gap < 2 ^ 32 ∧ 0 ≤ o_offset state < 2 ^ 64;
  rq_bytes : ∀ k, Forall byte_ok (EncodeView k);
}.
Context (Hrq : request_ok).

Lemma rq_homes_ok : homes_ok (nr_nodes + 1) sl.
Proof using Hrq. intros i s Hi. pose proof (rq_homes Hrq i s Hi). lia. Qed.

(** the context of a node *)
Definition ctx_of (n : Z) : Ctx :=
  let l := chosen (bits_of n) 0 sl in
  mkCtx sid epoch state gap (bits_of n) (bits_of n) (bits_of n) n node_id (map s_key l) (map s_slice l) (map s_rel l).

Lemma bits_covered n : 0 ≤ n ≤ nr_nodes → covered (bits_of n) sl.
Proof using Hrq.
  intros Hn i Hi Hb. pose proof (rq_nodes Hrq). apply node_bits_spec in Hb as (s & Hs & _); [by exists s|lia|apply Hrq|apply rq_homes_ok|done|lia].
Qed.

Lemma context_keys n : 0 ≤ n ≤ nr_nodes → Forall2 (fun i s => sl !! Z.to_nat i = Some (Some s)) (sel (bits_of n)) (chosen (bits_of n) 0 sl).
Proof using Hrq. intros Hn. by apply chosen_sel, bits_covered. Qed.

Lemma slot_shape i s : sl !! i = Some (Some s) → ∃ rel slice k, s = key_slot EncodeView Locate SliceToNodeId node_id rel slice k.
Proof using Type.
  intros Hi. apply list_elem_of_lookup_2 in Hi. unfold slots in Hi. apply list_elem_of_In, in_flat_map in Hi as (p & _ & Hi).
  apply list_elem_of_In in Hi. destruct p as [rel ks|rel a b|nr]; cbn in Hi.
  - apply list_elem_of_In, in_map_iff in Hi as (k & [= <-] & _). eauto.
  - apply elem_of_cons in Hi as [[= ->]|Hi]; [eauto|]. apply list_elem_of_singleton in Hi as [= ->]. eauto.
  - by apply elem_of_replicate in Hi as [? _].
Qed.

Lemma slot_ok i s : sl !! i = Some (Some s) → key_ok (s_key s) ∧ short_ok (s_slice s) ∧ short_ok (s_rel s).
Proof using Hrq.
  intros Hi. destruct (slot_shape i s Hi) as (rel & slice & k & ->). cbn. split_and!; try apply i16_range. split.
  - apply Forall_take. apply Hrq.
  - unfold view_of. rewrite length_take.
    assert (0 ≤ Z.land 255 (len (EncodeView k)) < 2 ^ 8) by (apply land_range; lia). lia.
Qed.

Lemma chosen_ok n : 0 ≤ n ≤ nr_nodes → Forall (fun s => key_ok (s_key s) ∧ short_ok (s_slice s) ∧ short_ok (s_rel s)) (chosen (bits_of n) 0 sl).
Proof using Hrq.
  intros Hn. apply Forall_lookup. intros j s Hj. destruct (Forall2_lookup_r _ _ _ _ _ (context_keys n Hn) Hj) as (i & _ & Hs).
  by apply (slot_ok (Z.to_nat i)).
Qed.

Lemma context_ok n : 0 ≤ n ≤ nr_nodes → ctx_ok (ctx_of n).
Proof using Hrq.
  intros Hn. pose proof (rq_nodes Hrq) as Hnn. pose proof (rq_id Hrq). destruct (rq_words Hrq) as (W1 & W2 & W3 & W4 & W5 & W6).
  pose proof (node_bits_small nr_nodes sl ltac:(lia) (rq_len Hrq) rq_homes_ok n Hn) as Hb.
  pose proof (u32_range (o_node state)) as Hu.
  assert (Hl : len (chosen (bits_of n) 0 sl) = popcount (bits_of n)).
  { rewrite popcount_sel by done. f_equal. symmetry. apply (Forall2_length _ _ _ (context_keys n Hn)). }
  pose proof (chosen_ok n Hn) as Hc. split; cbn [c_keys slice_ids relation_ids keys_bitmap slices_bitmap rels_bitmap ctx_of].
  - unfold ctx_layout, ctx_vals. cbn. repeat constructor; cbn; lia.
  - done.
  - rewrite length_map. split; [done|]. apply Forall_fmap. eapply Forall_impl; [exact Hc|]. by intros s (? & _).
  - rewrite length_map. split; [done|]. apply Forall_fmap. eapply Forall_impl; [exact Hc|]. by intros s (_ & ? & _).
  - rewrite length_map. split; [done|]. apply Forall_fmap. eapply Forall_impl; [exact Hc|]. by intros s (_ & _ & ?).
Qed.

Lemma context_built n : TxnIndexOpContext EncodeView Locate sid epoch state gap n node_id (bits_of n) ps = Ok (ctx_of n).
Proof using Hrq.
  unfold TxnIndexOpContext. rewrite (FromKeyParam_eq EncodeView Locate SliceToNodeId node_id) by apply Hrq. cbn [mbind result_bind].
  by rewrite push_all_eq.
Qed.

(** the keys of a node are those it owns *)
Lemma elem_of_node_keys n i : 0 ≤ n ≤ nr_nodes →
  i ∈ sel (bits_of n) ↔ 0 ≤ i ∧ ∃ s, sl !! Z.to_nat i = Some (Some s) ∧ s_home s = n.
Proof using Hrq.
  intros Hn. pose proof (rq_nodes Hrq). rewrite elem_of_sel. split.
  - intros [Hi Hb]. split; [lia|]. apply node_bits_spec in Hb; [done|lia|apply Hrq|apply rq_homes_ok|done|lia].
  - intros [Hi (s & Hs & He)]. pose proof (rq_len Hrq). assert (Hlt := lookup_lt_Some _ _ _ Hs). split; [lia|].
    apply node_bits_spec; [lia|apply Hrq|apply rq_homes_ok|done|lia|]. by exists s.
Qed.

Definition nodes : list Z := used nr_nodes sl (seqZ 1 nr_nodes).
Lemma elem_of_nodes n : n ∈ nodes → 0 ≤ n ≤ nr_nodes ∧ n ≠ 0.
Proof using Type. intros Hn. apply list_elem_of_filter in Hn as [_ Hn]. apply elem_of_seqZ in Hn. lia. Qed.

(** which node serves its keys at once, and which by a piece *)
Definition by_piece (n : Z) : bool := negb (node_id =? n) || negb (aff =? kIndexOpFlatten).
Definition inline_keys : list Z := nodes ≫= (fun n => if by_piece n then [] else sel (bits_of n)).
Definition piece_nodes : list Z := filter (fun n => by_piece n = true) nodes.

(** every key is served once *)
Lemma keys_once : inline_keys ++ (piece_nodes ≫= (fun n => sel (bits_of n))) ≡ₚ key_ids sl.
Proof using Hrq.
  pose proof (rq_nodes Hrq) as Hnn.
  trans (nodes ≫= (fun n => sel (bits_of n))).
  - unfold inline_keys, piece_nodes. generalize nodes. intros l. induction l as [|n l IH]; [done|]. rewrite filter_cons. cbn.
    destruct (by_piece n); cbn; [|by rewrite <- app_assoc, IH].
    rewrite <- IH. apply Permutation_app_swap_app.
  - apply NoDup_Permutation.
    + apply NoDup_bind.
      * intros n1 n2 i H1 H2 Hi1 Hi2. apply elem_of_nodes in H1 as [H1 _], H2 as [H2 _]. apply elem_of_node_keys in Hi1 as (_ & s1 & E1 & <-), Hi2 as (_ & s2 & E2 & <-); [|done|done].
        rewrite E1 in E2. congruence.
      * intros. apply NoDup_sel.
      * apply NoDup_filter, NoDup_seqZ.
    + apply NoDup_filter, NoDup_seqZ.
    + intros i. rewrite list_elem_of_bind, elem_of_key_ids. split.
      * intros (n & Hi & Hn). apply elem_of_nodes in Hn as [Hn _]. apply elem_of_node_keys in Hi as (? & s & ? & _); [|done]. split; [done|]. by exists s.
      * intros (Hi & s & Hs). pose proof (rq_homes Hrq _ _ Hs) as Hh. exists (s_home s).
        assert (Hin : i ∈ sel (bits_of (s_home s))) by (apply elem_of_node_keys; [lia|]; split; [done|]; by exists s).
        split; [done|]. apply list_elem_of_filter. split; [|apply elem_of_seqZ; lia]. intros E. rewrite E in Hin.
        apply elem_of_sel in Hin as [_ Hin]. by rewrite Z.bits_0 in Hin.
Qed.

Section Op.
Context {St R : Type} (IndexOp : Ctx → Z → St → result (R * St)) (OnComplete : list Z → Z → R → St → result St).
(** the operation on a key, by its index in the request *)
Context (key_op : Z → St → result (R * St)).
Context (Hop : ∀ n j i s, n ∈ nodes → sel (bits_of n) !! j = Some i → IndexOp (ctx_of n) (Z.of_nat j) s = key_op i s).

Definition serve (i : Z) (s : St) : result St := '(r, s) ← key_op i s; OnComplete extra i r s.

Lemma run_context_eq n s : n ∈ nodes → run_context IndexOp OnComplete (ctx_of n) extra s = for_each serve (sel (bits_of n)) s.
Proof using Hop.
  intros Hn. unfold run_context. rewrite ForEach_sel. cbn [ctx_of keys_bitmap].
  assert (H : ∀ r d s, sel (bits_of n) = d ++ r →
    for_each (fun x s => '(y, s) ← IndexOp (ctx_of n) x.1 s; OnComplete extra x.2 y s) (imap (fun k i => (Z.of_nat (length d + k), i)) r) s = for_each serve r s).
  { intros r. induction r as [|i r IH]; intros d s0 Hd; [done|]. cbn [imap for_each fst snd].
    assert (Hi : sel (bits_of n) !! (length d + 0)%nat = Some i) by (rewrite Nat.add_0_r, Hd; by apply list_lookup_middle).
    rewrite (Hop n _ i s0 Hn Hi).
    change (serve i s0) with ('(y, s) ← key_op i s0; OnComplete extra i y s). destruct (key_op i s0) as [[y s1]|e]; cbn; [|done]. destruct (OnComplete extra i y s1) as [s2|e]; cbn; [|done].
    specialize (IH (d ++ [i]) s2). rewrite length_app in IH. cbn [length] in IH. rewrite <- IH by (by rewrite Hd, <- app_assoc).
    f_equal. apply imap_ext. intros k x _. cbn. do 2 f_equal. lia. }
  apply (H _ []). done.
Qed.

(** the pieces: the bytes of the context, followed by the parameter *)
Definition piece_of (n : Z) : Attached :=
  mkAtt n aff ((ctx_header (ctx_of n) ++ flat_map encode_key (c_keys (ctx_of n)) ++ flat_map encode_i16 (slice_ids (ctx_of n)) ++
    flat_map encode_i16 (relation_ids (ctx_of n))) ++ extra).

Lemma index_op_nodes l : ∀ s acc, (∀ n, n ∈ l → n ∈ nodes) →
  for_each (index_op_node EncodeView Locate node_id IndexOp OnComplete sid epoch state gap aff extra ps) (map (fun n => (n, bits_of n)) l) (s, acc) =
  (s ← for_each serve (l ≫= (fun n => if by_piece n then [] else sel (bits_of n))) s;
   Ok (s, acc ++ map piece_of (filter (fun n => by_piece n = true) l))).
Proof using Hrq Hop.
  induction l as [|n l IH]; intros s acc Hl; [by rewrite app_nil_r|]. cbn [map for_each].
  assert (Hn : n ∈ nodes) by (apply Hl; left). destruct (elem_of_nodes n Hn) as [Hr H0].
  unfold index_op_node at 2. rewrite context_built. cbn [mbind result_bind].
  replace (negb (n =? 0) && negb (node_id =? n) || negb (aff =? kIndexOpFlatten)) with (by_piece n)
    by (unfold by_piece; destruct (Z.eqb_spec n 0); [lia|done]).
  assert (Hb : ∀ f : Z → list Z, (n :: l) ≫= f = f n ++ (l ≫= f)) by done. rewrite filter_cons, Hb, for_each_app. destruct (by_piece n).
  - rewrite encode_context by (by apply context_ok). cbn [mbind result_bind fst snd for_each app decide_rel]. rewrite IH by (intros; apply Hl; by right).
    cbn. rewrite <- app_assoc. done.
  - cbn [fst snd]. rewrite run_context_eq by done. destruct (for_each serve (sel (bits_of n)) s); cbn [mbind result_bind fst snd]; [|done].
    rewrite IH by (intros; apply Hl; by right). done.
Qed.

(** the whole operation *)
Lemma TxnIndexOp_eq s :
  TxnIndexOp EncodeView Locate SliceToNodeId nr_nodes node_id IndexOp OnComplete sid epoch state gap aff extra ps s =
  (s' ← for_each serve inline_keys s; Ok (map (fun n => (n, bits_of n)) nodes, (s', map piece_of piece_nodes))).
Proof using Hrq Hop.
  unfold TxnIndexOp. pose proof (rq_nodes Hrq).
  rewrite (GenerateNodeBitmap_eq EncodeView) by (try apply rq_homes_ok; try apply Hrq; lia). cbn [mbind result_bind].
  fold nodes. unfold TxnIndexOpWithNodeBitmap. rewrite index_op_nodes by done. fold inline_keys piece_nodes. destruct (for_each serve inline_keys s); done.
Qed.

(** what a piece does where it arrives *)
Lemma run_piece_eq n s : n ∈ nodes → run_piece IndexOp OnComplete (at_capture (piece_of n)) s = for_each serve (sel (bits_of n)) s.
Proof using Hrq Hop.
  intros Hn. destruct (elem_of_nodes n Hn) as [Hr _]. unfold run_piece. cbn [at_capture piece_of]. rewrite <- !app_assoc.
  rewrite decode_context by (by apply context_ok). cbn [mbind result_bind]. by apply run_context_eq.
Qed.
End Op.
End Exactly.

(** ** Lookups *)

Section Lookups.
Context {K : Type} (EncodeView : K → list Z) (Locate : Z → K → Z) (SliceToNodeId : Z → Z) (nr_nodes node_id : Z).
Context (sid epoch : Z) (state : EpochObject) (gap aff : Z) (extra : list Z) (ps : list (Param K)).
Context `{Tables T} (t : T).
Notation sl := (slots EncodeView Locate SliceToNodeId node_id ps).

(** what the keys of the request stand for, one by one *)
Definition lookup_rows (i : Z) : list (option Z) :=
  match sl !! Z.to_nat i with
  | Some (Some s) =>
      if (0 <=? s_slice s) || (s_slice s =? kReadOnlySliceId) then
        Search t (s_rel s) (s_key s) :: replicate (Z.to_nat (kMaxRangeScanKeys - 1)) None
      else if s_slice s =? -1 then
        match sl !! S (Z.to_nat i) with
        | Some (Some s') =>
            let l := Scan t (s_rel s) (s_key s) (s_key s') in map Some l ++ replicate (Z.to_nat kMaxRangeScanKeys - length l) None
        | _ => []
        end
      else replicate (Z.to_nat kMaxRangeScanKeys) None
  | _ => []
  end.

(** the ends of a range are on one node, and its rows fit into the result *)
Definition ranges_ok : Prop :=
  ∀ i s, sl !! i = Some (Some s) → s_slice s = -1 →
  ∃ s', sl !! S i = Some (Some s') ∧ s_home s' = s_home s ∧ len (Scan t (s_rel s) (s_key s) (s_key s')) ≤ kMaxRangeScanKeys.

(** the operation and a completion that notes its calls *)
Definition Deliveries : Type := list (Z * list Z * list (option Z)).
Definition lookup_op (c : Ctx) (j : Z) (s : Deliveries) : result (list (option Z) * Deliveries) :=
  r ← BaseTxnIndexOpLookup t c j; Ok (r, s).
Definition deliver (x : list Z) (i : Z) (r : list (option Z)) (s : Deliveries) : result Deliveries := Ok (s ++ [(i, x, r)]).

Context (Hrq : request_ok EncodeView Locate SliceToNodeId nr_nodes node_id sid epoch state gap ps) (Hrange : ranges_ok).
Notation bits_of n := ((node_bits nr_nodes sl).[n]).
Notation ctx_of := (ctx_of EncodeView Locate SliceToNodeId nr_nodes node_id sid epoch state gap ps).
Notation nodes := (nodes EncodeView Locate SliceToNodeId nr_nodes node_id ps).

Lemma lookup_key n j i s : n ∈ nodes → sel (bits_of n) !! j = Some i → lookup_op (ctx_of n) (Z.of_nat j) s = Ok (lookup_rows i, s).
Proof using Hrq Hrange.
  intros Hn Hj. destruct (elem_of_nodes _ _ _ _ _ _ _ Hn) as [Hr _].
  pose proof (context_keys _ _ _ _ _ _ _ _ _ _ Hrq n Hr) as H2.
  destruct (Forall2_lookup_l _ _ _ _ _ H2 Hj) as (x & Hx & Hs).
  assert (Hi : i ∈ sel (bits_of n)) by (by eapply list_elem_of_lookup_2). pose proof Hi as [Hi' _]%elem_of_sel.
  assert (Hnth : ∀ {A} (f : Slot → A) k y, chosen (bits_of n) 0 sl !! k = Some y → nth_r (map f (chosen (bits_of n) 0 sl)) (Z.of_nat k) = Ok (f y)).
  { intros A f k y Hk. apply nth_r_in; [lia|]. rewrite Nat2Z.id. change (map ?g ?l) with (g <$> l). by rewrite list_lookup_fmap, Hk. }
  unfold lookup_op, BaseTxnIndexOpLookup, lookup_rows. cbn [ctx_of relation_ids slice_ids c_keys]. rewrite Hs.
  rewrite !(Hnth _ _ j x Hx). cbn [mbind result_bind]. destruct ((0 <=? s_slice x) || (s_slice x =? kReadOnlySliceId)); [done|].
  destruct (Z.eqb_spec (s_slice x) (-1)) as [E|]; [|done].
  destruct (Hrange _ _ Hs E) as (x' & Hx' & Hh & Hfit). rewrite Hx'.
  assert (Hnext : i + 1 ∈ sel (bits_of n)).
  { apply (elem_of_node_keys _ _ _ _ _ _ _ _ _ _ Hrq n _ Hr). split; [lia|]. exists x'. replace (Z.to_nat (i + 1)) with (S (Z.to_nat i)) by lia. split; [done|].
    apply (elem_of_node_keys _ _ _ _ _ _ _ _ _ _ Hrq n _ Hr) in Hi as (_ & y & Hy & <-). rewrite Hs in Hy. injection Hy as <-. done. }
  apply elem_of_sel in Hnext as [Hb1 Hb2]. assert (Hj' := sel_succ _ _ _ Hj Hb2 ltac:(lia)).
  destruct (Forall2_lookup_l _ _ _ _ _ H2 Hj') as (y & Hy & Hsy). replace (Z.to_nat (i + 1)) with (S (Z.to_nat i)) in Hsy by lia.
  rewrite Hx' in Hsy. injection Hsy as <-.
  replace (Z.of_nat j + 1) with (Z.of_nat (S j)) by lia. rewrite (Hnth _ s_key (S j) x' Hy). cbn [mbind result_bind].
  unfold rows_of. rewrite (proj2 (Z.leb_le _ _)) by done. done.
Qed.

Lemma serve_deliver l : ∀ s, for_each (serve extra deliver (fun i s => Ok (lookup_rows i, s))) l s =
  Ok (s ++ map (fun i => (i, extra, lookup_rows i)) l).
Proof using Type.
  induction l as [|i l IH]; intros s; cbn [for_each map]; [by rewrite app_nil_r|]. unfold serve at 2, deliver at 2. cbn [mbind result_bind].
  rewrite IH. by rewrite <- app_assoc.
Qed.
End Lookups.

(** C31. A lookup finds every key once, on the node that owns its slice: the calls of the
    completion here and in the pieces sent out, each run from the bytes it captured, are
    those of the keys of the request, one call per key with the rows of that key (the scan
    of its range, for the start of a range); a piece only serves keys of its node. *)
Theorem index_lookup_exactly_once {K} EncodeView Locate SliceToNodeId nr_nodes node_id sid epoch state gap aff extra (ps : list (Param K)) `{Tables T} (t : T) :
  request_ok EncodeView Locate SliceToNodeId nr_nodes node_id sid epoch state gap ps →
  ranges_ok EncodeView Locate SliceToNodeId node_id ps t →
  let sl := slots EncodeView Locate SliceToNodeId node_id ps in
  let owned n (d : Deliveries) := ∀ i x r, (i, x, r) ∈ d → ∃ s, sl !! Z.to_nat i = Some (Some s) ∧ s_home s = n in
  ∃ nb here pieces outs,
    TxnIndexOp EncodeView Locate SliceToNodeId nr_nodes node_id (lookup_op t) deliver sid epoch state gap aff extra ps [] = Ok (nb, (here, pieces)) ∧
    Forall2 (fun p d => run_piece (lookup_op t) deliver (at_capture p) [] = Ok d ∧ owned (at_node p) d) pieces outs ∧
    owned node_id here ∧
    here ++ concat outs ≡ₚ map (fun i => (i, extra, lookup_rows EncodeView Locate SliceToNodeId node_id ps t i)) (key_ids sl).
Proof.
  intros Hrq Hrange sl owned. set (rows := lookup_rows EncodeView Locate SliceToNodeId node_id ps t).
  set (f := fun i => (i, extra, rows i)). set (ns := piece_nodes EncodeView Locate SliceToNodeId nr_nodes node_id aff ps).
  pose proof (lookup_key EncodeView Locate SliceToNodeId nr_nodes node_id sid epoch state gap ps t Hrq Hrange) as Hop.
  set (bn := fun n => sel ((node_bits nr_nodes sl).[n])).
  assert (Hown : ∀ n, n ∈ nodes EncodeView Locate SliceToNodeId nr_nodes node_id ps → owned n (map f (bn n))).
  { intros n Hn i x r Hi. apply list_elem_of_fmap in Hi as (k & [= -> -> ->] & Hk). destruct (elem_of_nodes _ _ _ _ _ _ _ Hn) as [Hr _].
    by apply (elem_of_node_keys _ _ _ _ _ _ _ _ _ _ Hrq) in Hk as [_ Hk]. }
  exists (map (fun n => (n, (node_bits nr_nodes sl).[n])) (nodes EncodeView Locate SliceToNodeId nr_nodes node_id ps)),
    (map f (inline_keys EncodeView Locate SliceToNodeId nr_nodes node_id aff ps)),
    (map (piece_of EncodeView Locate SliceToNodeId nr_nodes node_id sid epoch state gap aff extra ps) ns), (map (fun n => map f (bn n)) ns).
  split; [|split; [|split]].
  - rewrite (TxnIndexOp_eq _ _ _ _ _ _ _ _ _ _ _ _ Hrq _ _ (fun i s => Ok (rows i, s)) Hop). unfold rows. rewrite serve_deliver. done.
  - apply Forall2_fmap, Forall_Forall2_diag, Forall_forall. intros n Hn. apply list_elem_of_filter in Hn as [_ Hn]. split; [|by apply Hown].
    rewrite (run_piece_eq _ _ _ _ _ _ _ _ _ _ _ _ Hrq _ _ (fun i s => Ok (rows i, s)) Hop) by done. unfold rows. by rewrite serve_deliver.
  - intros i x r Hi. apply list_elem_of_fmap in Hi as (k & [= -> -> ->] & Hk). apply list_elem_of_bind in Hk as (n & Hk & Hn).
    unfold by_piece in Hk. destruct (Z.eqb_spec node_id n) as [En|]; [|by apply elem_of_nil in Hk]. cbn in Hk.
    destruct (aff =? kIndexOpFlatten); [|by apply elem_of_nil in Hk]. rewrite En. apply (Hown n Hn k extra (rows k)). by apply (list_elem_of_fmap_2 f).
  - fold rows f. unfold sl. rewrite <- (keys_once _ _ _ _ _ _ _ _ _ aff _ Hrq). fold ns. rewrite map_app. apply Permutation_app_head.
    clear. induction ns as [|n l IH]; [done|]. cbn. by rewrite IH, map_app.
Qed.

(** ** Insertions *)

Section Inserts.
Context {K : Type} (EncodeView : K → list Z) (Locate : Z → K → Z) (SliceToNodeId : Z → Z) (nr_nodes node_id : Z).
Context (sid epoch : Z) (state : EpochObject) (gap aff : Z) (extra : list Z) (ps : list (Param K)).
Context `{Tables T} {St : Type} (rowstate : St → T * list NewRow) (set_rows : St → T * list NewRow → St).
Notation sl := (slots EncodeView Locate SliceToNodeId node_id ps).

Definition insert_op (c : Ctx) (j : Z) (s : St) : result (Z * St) :=
  '(r, x) ← BaseTxnIndexOpInsert c j (rowstate s); Ok (r, set_rows s x).
(** the insertion of one key of the request *)
Definition insert_key (i : Z) (s : St) : result (Z * St) :=
  match sl !! Z.to_nat i with
  | Some (Some k) =>
      let '(row, created, t) := SearchOrCreate (rowstate s).1 (s_rel k) (s_key k) in
      Ok (row, set_rows s (t, (rowstate s).2 ++ if created : bool then [(s_slice k, s_rel k, s_key k, row)] else []))
  | _ => Err OutOfRange
  end.

Context (Hrq : request_ok EncodeView Locate SliceToNodeId nr_nodes node_id sid epoch state gap ps).
Notation bits_of n := ((node_bits nr_nodes sl).[n]).
Notation ctx_of := (ctx_of EncodeView Locate SliceToNodeId nr_nodes node_id sid epoch state gap ps).
Notation nodes := (nodes EncodeView Locate SliceToNodeId nr_nodes node_id ps).

Lemma insert_key_at n j i s : n ∈ nodes → sel (bits_of n) !! j = Some i → insert_op (ctx_of n) (Z.of_nat j) s = insert_key i s.
Proof using Hrq.
  intros Hn Hj. destruct (elem_of_nodes _ _ _ _ _ _ _ Hn) as [Hr _].
  destruct (Forall2_lookup_l _ _ _ _ _ (context_keys _ _ _ _ _ _ _ _ _ _ Hrq n Hr) Hj) as (x & Hx & Hs).
  assert (Hnth : ∀ {A} (f : Slot → A), nth_r (map f (chosen (bits_of n) 0 sl)) (Z.of_nat j) = Ok (f x)).
  { intros A f. apply nth_r_in; [lia|]. rewrite Nat2Z.id. change (map ?g ?l) with (g <$> l). by rewrite list_lookup_fmap, Hx. }
  unfold insert_op, insert_key, BaseTxnIndexOpInsert. cbn [ctx_of relation_ids slice_ids c_keys keys_bitmap slices_bitmap]. rewrite Hs.
  rewrite !Hnth, Z.eqb_refl. cbn [negb abort_if mbind result_bind].
  destruct (SearchOrCreate (rowstate s).1 (s_rel x) (s_key x)) as [[row [|]] t']; cbn; [done|by rewrite app_nil_r].
Qed.
End Inserts.

(** An insertion treats the keys of the request once each: first those of this node, if
    they are inserted at once, then those of every piece, where it runs. *)
Theorem index_insert_exactly_once {K} EncodeView Locate SliceToNodeId nr_nodes node_id sid epoch state gap aff extra (ps : list (Param K))
  `{Tables T} {St} (rs : St → T * list NewRow) ws OnComplete s :
  request_ok EncodeView Locate SliceToNodeId nr_nodes node_id sid epoch state gap ps →
  let step := serve extra OnComplete (insert_key EncodeView Locate SliceToNodeId node_id ps rs ws) in
  ∃ nb here pieces keys,
    TxnIndexOp EncodeView Locate SliceToNodeId nr_nodes node_id (insert_op rs ws) OnComplete sid epoch state gap aff extra ps s =
      (s' ← for_each step here s; Ok (nb, (s', pieces))) ∧
    Forall2 (fun p l => ∀ s, run_piece (insert_op rs ws) OnComplete (at_capture p) s = for_each step l s) pieces keys ∧
    here ++ concat keys ≡ₚ key_ids (slots EncodeView Locate SliceToNodeId node_id ps).
Proof.
  intros Hrq step. pose proof (insert_key_at EncodeView Locate SliceToNodeId nr_nodes node_id sid epoch state gap ps rs ws Hrq) as Hop.
  set (ns := piece_nodes EncodeView Locate SliceToNodeId nr_nodes node_id aff ps).
  eexists _, _, _, (map (fun n => sel ((node_bits nr_nodes (slots EncodeView Locate SliceToNodeId node_id ps)).[n])) ns).
  split; [apply (TxnIndexOp_eq _ _ _ _ _ _ _ _ _ _ _ _ Hrq _ _ _ Hop)|]. split.
  - apply Forall2_fmap, Forall_Forall2_diag, Forall_forall. intros n Hn s0. apply list_elem_of_filter in Hn as [_ Hn].
    by apply (run_piece_eq _ _ _ _ _ _ _ _ _ _ _ _ Hrq _ _ _ Hop).
  - rewrite <- (keys_once _ _ _ _ _ _ _ _ _ aff _ Hrq). apply Permutation_app_head. fold ns.
    clear. induction ns as [|n l IH]; [done|]. cbn. by rewrite IH.
Qed.

(** ** Limits *)

(** a sixteenth key is marked in the bitmap, but no loop over the bitmap reaches it *)
Lemma sixteenth_key_dropped b : ¬ (15 ∈ sel b).
Proof. rewrite elem_of_sel. unfold kMaxPackedKeys. lia. Qed.

(** ** Witnesses *)

Module IndexSamples.
(** two nodes; the slice of a key is its remainder modulo 4 *)
Definition view (k : Z) : list Z := le_split 4 k.
Definition locate (_ k : Z) : Z := k mod 4.
Definition route (s : Z) : Z := s mod 2 + 1.
Definition ps : list (Param Z) := [KeyParam 3 [5; 6]; PlaceholderParam 1; RangeParam 4 8 12].
#[global] Instance tables : Tables (Z → Z → option Z) := {
  Search := fun t rel k => t rel (le_combine k);
  Scan := fun _ _ k1 k2 => seqZ (le_combine k1) (le_combine k2 - le_combine k1);
  SearchOrCreate := fun t rel k =>
    match t rel (le_combine k) with Some r => (r, false, t) | None => (100 + le_combine k, true, <[rel := <[le_combine k := Some (100 + le_combine k)]> (t rel)]> t) end;
}.
Definition t : Z → Z → option Z := fun rel k => if rel =? 3 then Some (10 * k) else None.

Lemma sample_request : request_ok view locate route 2 1 (2 ^ 33) 2 (mkObj 2 1 64) 0 ps.
Proof.
  split; try (cbn; lia).
  - repeat (apply Forall_cons; split; [cbn; lia|]). by apply Forall_nil.
  - vm_compute. discriminate.
  - intros i s Hi. destruct i as [|[|[|[|[|i]]]]]; try discriminate Hi; injection Hi as <-; vm_compute; split; discriminate.
  - intros k. apply le_split_bytes.
Qed.
Lemma sample_ranges : ranges_ok view locate route 1 ps t.
Proof.
  intros i s Hi Hs. destruct i as [|[|[|[|[|i]]]]]; try discriminate Hi; injection Hi as <-; try (vm_compute in Hs; discriminate Hs).
  eexists. split; [done|]. split; [done|]. vm_compute. discriminate.
Qed.
End IndexSamples.

Lemma context_roundtrip_witness :
  ∃ b, Ctx_EncodeTo (mkCtx 7 1 (mkObj 1 2 64) 0 5 5 5 2 1 [[1; 2]; [9]] [3; -1] [4; 5]) = Ok b ∧ len b = 65 ∧
  Ctx_DecodeFrom (b ++ [42]) = Ok (mkCtx 7 1 (mkObj 1 2 64) 0 5 5 5 2 1 [[1; 2]; [9]] [3; -1] [4; 5], [42]).
Proof.
  destruct (context_roundtrip (mkCtx 7 1 (mkObj 1 2 64) 0 5 5 5 2 1 [[1; 2]; [9]] [3; -1] [4; 5]) [42]) as (b & E & Hs & Hd).
  - split; try (cbn; lia).
    + unfold ctx_layout, ctx_vals. cbn. repeat (apply Forall2_cons; split; [apply ty_int; vm_compute; split; [discriminate|reflexivity]|]). by apply Forall2_nil.
    + split; [done|]. repeat constructor; cbn; unfold byte_ok; lia.
    + split; [done|]. repeat constructor; cbn; lia.
    + split; [done|]. repeat constructor; cbn; lia.
  - exists b. split; [done|]. split; [|done]. assert (E2 : Ctx_EncodeSize (mkCtx 7 1 (mkObj 1 2 64) 0 5 5 5 2 1 [[1; 2]; [9]] [3; -1] [4; 5]) = Ok 65) by by vm_compute.
    rewrite E2 in Hs. by injection Hs.
Defined.

Lemma index_lookup_exactly_once_witness :
  ∃ nb here pieces outs,
    TxnIndexOp IndexSamples.view IndexSamples.locate IndexSamples.route 2 1 (lookup_op IndexSamples.t) deliver (2 ^ 33) 2 (mkObj 2 1 64) 0
      kIndexOpFlatten [9] IndexSamples.ps [] = Ok (nb, (here, pieces)) ∧
    Forall2 (fun p d => run_piece (lookup_op IndexSamples.t) deliver (at_capture p) [] = Ok d) pieces outs ∧
    here ++ concat outs ≡ₚ map (fun i => (i, [9], lookup_rows IndexSamples.view IndexSamples.locate IndexSamples.route 1 IndexSamples.ps IndexSamples.t i)) [0; 1; 3; 4].
Proof.
  destruct (index_lookup_exactly_once IndexSamples.view IndexSamples.locate IndexSamples.route 2 1 (2 ^ 33) 2 (mkObj 2 1 64) 0 kIndexOpFlatten [9]
    IndexSamples.ps IndexSamples.t IndexSamples.sample_request IndexSamples.sample_ranges) as (nb & here & pieces & outs & E & Hp & _ & Hperm).
  exists nb, here, pieces, outs. split; [exact E|]. split; [|exact Hperm].
  eapply Forall2_impl; [exact Hp|]. by intros p d [? _].
Defined.
