(* ===== verification/SliceMap.v ===== *)
(** The mapping of slices to nodes (slice.h/.cc [SliceMappingTable]): every node keeps
    the table of all owners, changes it, broadcasts its changes as 32-bit operations with
    the start of a phase, and replays those of the others. *)

From S2P Require Import Prelude Bits.

(** ** State and operations *)

Definition kNrMaxSlices : Z := 256.
Definition kMaxNrNode : Z := 254.
Inductive SliceOwnerType := PrimaryOwner | IndexOwner | DataOwner.
#[export] Instance SliceOwnerType_eq_dec : EqDecision SliceOwnerType.
Proof. solve_decision. Defined.
Definition type_code (t : SliceOwnerType) : Z := match t with PrimaryOwner => 0 | IndexOwner => 1 | DataOwner => 2 end.

(** [SliceMappingTable]; the index of [slice_owners] is the compressed node *)
Record SliceMappingTable := mkSMT {
  so_id : Z → Z; so_owned : Z → Z → Z → bool; node_compress : Z → Z;
  nr_nodes : Z; next_node : Z; broadcast_buffer : list Z;
}.

(** the constructor fills [node_compress]; the other members keep what memory holds *)
Definition SMT_new (memory : SliceMappingTable) : SliceMappingTable :=
  mkSMT (so_id memory) (so_owned memory) (fun n => if (0 <=? n) && (n <? kMaxNrNode) then -1 else node_compress memory n)
    (nr_nodes memory) (next_node memory) [].

(** an index of [node_compress] or [slice_owners] *)
Definition node_index (n : Z) : result unit := if (0 <=? n) && (n <? kMaxNrNode) then Ok tt else Err OutOfRange.

Definition InitNode (node_id : Z) (t : SliceMappingTable) : result SliceMappingTable :=
  _ ← node_index node_id;
  _ ← abort_if (negb (node_compress t node_id =? -1));
  let c := nr_nodes t in
  _ ← node_index c;
  Ok (mkSMT (<[c := node_id]> (so_id t)) (so_owned t) (<[node_id := c]> (node_compress t)) (c + 1) (next_node t) (broadcast_buffer t)).

(** the operation that is broadcast, an [int] *)
Definition encode_op (node type : Z) (owned : bool) (slice : Z) : Z :=
  i32 (Z.lor (Z.shiftl (Z.lor (Z.shiftl (Z.lor (Z.shiftl node 2) type) 1) (Z.b2z owned)) 23) slice).

(** [SetEntry]; [node] is the node after the default has been replaced *)
Definition SetEntry (slice_id : Z) (owned : bool) (type node : Z) (broadcast : bool) (t : SliceMappingTable) : result SliceMappingTable :=
  _ ← node_index node;
  let c := node_compress t node in
  _ ← abort_if (c =? -1);
  _ ← abort_if (negb ((0 <=? slice_id) && (slice_id <? kNrMaxSlices)));
  _ ← (if (0 <=? type) && (type <? 3) then Ok tt else Err OutOfRange);
  _ ← node_index c;
  let w := <[c := <[type := <[slice_id := owned]> (so_owned t c type)]> (so_owned t c)]> (so_owned t) in
  if broadcast then
    _ ← abort_if (negb ((0 <=? node) && (node <? 64)));
    _ ← abort_if (negb ((0 <=? slice_id) && (slice_id <? 2 ^ 23)));
    Ok (mkSMT (so_id t) w (node_compress t) (nr_nodes t) (next_node t) (broadcast_buffer t ++ [encode_op node type owned slice_id]))
  else Ok (mkSMT (so_id t) w (node_compress t) (nr_nodes t) (next_node t) (broadcast_buffer t)).

Definition AddEntry (slice_id : Z) (type : SliceOwnerType) (node : Z) (broadcast : bool) := SetEntry slice_id true (type_code type) node broadcast.
Definition RemoveEntry (slice_id : Z) (type : SliceOwnerType) (node : Z) (broadcast : bool) := SetEntry slice_id false (type_code type) node broadcast.

(** [ReplayUpdate]; the shifts are arithmetic *)
Definition ReplayUpdate (op : Z) (t : SliceMappingTable) : result SliceMappingTable :=
  let slice_id := Z.land op (2 ^ 23 - 1) in
  let owned := Z.testbit (Z.shiftr op 23) 0 in
  let type := Z.land (Z.shiftr op 24) 3 in
  let node_id := Z.shiftr op 26 in
  SetEntry slice_id owned type node_id false t.
Definition UpdateSliceMappingTablesFromReceiver (data : list Z) (t : SliceMappingTable) : result SliceMappingTable :=
  for_each (fun op => ReplayUpdate (i32 op)) data t.

Definition LocateNodeInsert (slice_id : Z) (type : SliceOwnerType) (t : SliceMappingTable) : list Z :=
  map (so_id t) (filter (fun i => so_owned t i (type_code type) slice_id = true) (seqZ 0 (nr_nodes t))).

(** [LocateNodeLookup]: the loop reads [next_node] again in every round and does not
    change it, so all its rounds look at the same node *)
Definition LocateNodeLookup (slice_id : Z) (type : SliceOwnerType) (t : SliceMappingTable) : result (Z * SliceMappingTable) :=
  _ ← abort_if (negb ((0 <=? slice_id) && (slice_id <? kNrMaxSlices)));
  if nr_nodes t =? 0 then Err OutOfRange else
  let ptr := Z.rem (next_node t + 1) (nr_nodes t) in
  if so_owned t ptr (type_code type) slice_id then
    Ok (so_id t ptr, mkSMT (so_id t) (so_owned t) (node_compress t) (nr_nodes t) ptr (broadcast_buffer t))
  else Err Blocked.

(** ** Invariant and abstraction *)

(** the registered nodes have their own entries *)
Record smt_wf (t : SliceMappingTable) : Prop := {
  sw_nr : 0 ≤ nr_nodes t ≤ kMaxNrNode;
  sw_id : ∀ n, 0 ≤ n < kMaxNrNode → node_compress t n ≠ -1 → 0 ≤ node_compress t n < nr_nodes t ∧ so_id t (node_compress t n) = n;
  sw_back : ∀ c, 0 ≤ c < nr_nodes t → 0 ≤ so_id t c < kMaxNrNode ∧ node_compress t (so_id t c) = c;
}.
Definition registered (t : SliceMappingTable) (n : Z) : Prop := 0 ≤ n < kMaxNrNode ∧ node_compress t n ≠ -1.
(** who owns what *)
Definition owns (t : SliceMappingTable) (n type slice : Z) : bool := so_owned t (node_compress t n) type slice.

Lemma SMT_new_wf m : nr_nodes m = 0 → smt_wf (SMT_new m).
Proof.
  intros H. split; cbn; rewrite ?H; [unfold kMaxNrNode; lia| |lia]. intros n Hn. zcase; unfold kMaxNrNode in *; lia.
Qed.

Lemma InitNode_ok n t : smt_wf t → nr_nodes t < kMaxNrNode → 0 ≤ n < kMaxNrNode → node_compress t n = -1 →
  ∃ t', InitNode n t = Ok t' ∧ smt_wf t' ∧ (∀ m, registered t' m ↔ m = n ∨ registered t m) ∧ nr_nodes t' = nr_nodes t + 1 ∧
    (∀ m ty s, registered t m → owns t' m ty s = owns t m ty s).
Proof.
  intros [Hn Hi Hb] Hlt Hr Hc. unfold InitNode, node_index.
  rewrite (proj2 (Z.leb_le 0 n)), (proj2 (Z.ltb_lt n _)) by lia. cbn [andb mbind result_bind]. rewrite Hc. cbn [Z.eqb negb abort_if mbind result_bind].
  rewrite (proj2 (Z.leb_le 0 (nr_nodes t))), (proj2 (Z.ltb_lt (nr_nodes t) _)) by lia. cbn [andb mbind result_bind].
  eexists. split; [done|]. split; [|split].
  - split; cbn [nr_nodes so_id node_compress]; [lia| |].
    + intros m Hm. destruct (decide (m = n)) as [->|Hne].
      * rewrite !fn_lookup_insert. split; [lia|done].
      * rewrite !(fn_lookup_insert_ne (node_compress t)) by done. intros Hx. destruct (Hi m Hm Hx) as [? ?]. split; [lia|].
        by rewrite fn_lookup_insert_ne by lia.
    + intros c Hcc. destruct (decide (c = nr_nodes t)) as [->|Hne].
      * rewrite !fn_lookup_insert. done.
      * rewrite !(fn_lookup_insert_ne (so_id t)) by done. destruct (Hb c ltac:(lia)) as [? E]. split; [done|].
        assert (n ≠ so_id t c) by (intros Ex; rewrite <- Ex in E; lia). by rewrite fn_lookup_insert_ne.
  - intros m. unfold registered. cbn. destruct (decide (m = n)) as [->|Hne]; [rewrite fn_lookup_insert|rewrite fn_lookup_insert_ne by done].
    + split; [by left|]. intros _. split; [done|lia].
    + split; [by right|]. by intros [?|?].
  - split; [done|]. intros m ty s [Hm Hx]. assert (m ≠ n) by (by intros ->). unfold owns. cbn. by rewrite fn_lookup_insert_ne.
Qed.

(** ** Changing entries *)

Definition entry_args (t : SliceMappingTable) (node type slice : Z) : Prop :=
  registered t node ∧ 0 ≤ type < 3 ∧ 0 ≤ slice < kNrMaxSlices.

Lemma SetEntry_ok slice owned type node bc t : smt_wf t → entry_args t node type slice → (bc = true → node < 64) →
  ∃ t', SetEntry slice owned type node bc t = Ok t' ∧ smt_wf t' ∧
    (∀ n, registered t' n ↔ registered t n) ∧
    (∀ n ty s, registered t n → owns t' n ty s = if decide (n = node ∧ ty = type ∧ s = slice) then owned else owns t n ty s) ∧
    broadcast_buffer t' = broadcast_buffer t ++ if bc then [encode_op node type owned slice] else [].
Proof.
  intros Hwf ([Hr Hc] & Ht & Hs) Hbc. pose proof Hwf as [Hn Hi Hb]. destruct (Hi node Hr Hc) as [Hcr Hid].
  unfold SetEntry, node_index. rewrite (proj2 (Z.leb_le 0 node)), (proj2 (Z.ltb_lt node kMaxNrNode)) by lia. cbn [andb mbind result_bind].
  rewrite (proj2 (Z.eqb_neq (node_compress t node) (-1))) by done. cbn [abort_if mbind result_bind].
  rewrite (proj2 (Z.leb_le 0 slice)), (proj2 (Z.ltb_lt slice kNrMaxSlices)) by lia. cbn [andb negb abort_if mbind result_bind].
  rewrite (proj2 (Z.leb_le 0 type)), (proj2 (Z.ltb_lt type 3)) by lia. cbn [andb mbind result_bind].
  rewrite (proj2 (Z.leb_le 0 (node_compress t node))), (proj2 (Z.ltb_lt (node_compress t node) kMaxNrNode)) by lia. cbn [andb mbind result_bind].
  set (w := <[node_compress t node := _]> (so_owned t)).
  assert (Hw : ∀ n ty s, registered t n → w (node_compress t n) ty s = if decide (n = node ∧ ty = type ∧ s = slice) then owned else owns t n ty s).
  { intros n ty s [Hnr Hnc]. unfold w, owns. destruct (decide (n = node)) as [->|Hne].
    - rewrite fn_lookup_insert. destruct (decide (ty = type)) as [->|]; [rewrite fn_lookup_insert|by rewrite fn_lookup_insert_ne by done; rewrite decide_False by tauto].
      destruct (decide (s = slice)) as [->|]; [rewrite fn_lookup_insert|rewrite fn_lookup_insert_ne by done; by rewrite decide_False by tauto].
      by rewrite decide_True.
    - rewrite fn_lookup_insert_ne; [by rewrite decide_False by tauto|]. intros E. destruct (Hi n Hnr Hnc) as [_ Hid']. congruence. }
  destruct bc.
  - rewrite (proj2 (Z.ltb_lt node 64)) by auto. cbn [andb negb abort_if mbind result_bind].
    rewrite (proj2 (Z.ltb_lt slice (2 ^ 23))) by (unfold kNrMaxSlices in *; lia). cbn [andb negb abort_if mbind result_bind].
    eexists. split; [done|]. split_and!; [split; [apply Hn|apply Hi|apply Hb]|done|apply Hw|done].
  - eexists. split; [done|]. split_and!; [split; [apply Hn|apply Hi|apply Hb]|done|apply Hw|by rewrite app_nil_r].
Qed.

(** ** The broadcast operation *)

Lemma lor_shiftl a x n : 0 ≤ n → 0 ≤ x < 2 ^ n → Z.lor (Z.shiftl a n) x = a * 2 ^ n + x.
Proof.
  intros Hn Hx. rewrite <- (Z.add_lor_land (a * 2 ^ n) x), <- Z.shiftl_mul_pow2 by done.
  assert (Z.land (Z.shiftl a n) x = 0) as ->; [|lia]. apply Z.bits_inj'. intros i Hi. rewrite Z.land_spec, Z.bits_0.
  destruct (Z.lt_ge_cases i n) as [Hlt|Hge]; [by rewrite Z.shiftl_spec_low|]. by rewrite (testbit_high x n), andb_false_r by lia.
Qed.

Lemma encode_op_eq node type owned slice : 0 ≤ node → 0 ≤ type < 3 → 0 ≤ slice < 2 ^ 23 →
  encode_op node type owned slice = i32 (node * 2 ^ 26 + type * 2 ^ 24 + Z.b2z owned * 2 ^ 23 + slice).
Proof.
  intros Hn Ht Hs. unfold encode_op. assert (0 ≤ Z.b2z owned < 2) by (destruct owned; cbn; lia).
  rewrite !lor_shiftl by lia. f_equal. lia.
Qed.

(** for nodes below 32 the receiver reads what the sender wrote *)
Lemma decode_op node type owned slice (op := encode_op node type owned slice) : 0 ≤ node < 32 → 0 ≤ type < 3 → 0 ≤ slice < 2 ^ 23 →
  Z.land op (2 ^ 23 - 1) = slice ∧ Z.testbit (Z.shiftr op 23) 0 = owned ∧ Z.land (Z.shiftr op 24) 3 = type ∧ Z.shiftr op 26 = node.
Proof.
  intros Hn Ht Hs. unfold op. rewrite encode_op_eq by lia. assert (Ho : 0 ≤ Z.b2z owned < 2) by (destruct owned; cbn; lia).
  rewrite i32_id by lia. change (2 ^ 23 - 1) with (Z.ones 23). change 3 with (Z.ones 2). rewrite !Z.land_ones, !Z.shiftr_div_pow2, Z.bit0_odd by lia.
  replace (node * 2 ^ 26 + type * 2 ^ 24 + Z.b2z owned * 2 ^ 23 + slice) with (slice + (node * 8 + type * 2 + Z.b2z owned) * 2 ^ 23) by lia.
  split_and!.
  - rewrite Z.mod_add by lia. by apply Z.mod_small.
  - rewrite Z.div_add, Z.div_small by lia. replace (0 + (node * 8 + type * 2 + Z.b2z owned)) with (Z.b2z owned + 2 * (node * 4 + type)) by lia.
    rewrite Z.odd_add_mul_2. by destruct owned.
  - replace (slice + (node * 8 + type * 2 + Z.b2z owned) * 2 ^ 23) with ((slice + Z.b2z owned * 2 ^ 23) + (type + node * 4) * 2 ^ 24) by lia.
    rewrite Z.div_add, Z.div_small by lia. rewrite Z.add_0_l. change (2 ^ 2) with 4. rewrite Z.mod_add by lia. apply Z.mod_small. lia.
  - replace (slice + (node * 8 + type * 2 + Z.b2z owned) * 2 ^ 23) with ((slice + Z.b2z owned * 2 ^ 23 + type * 2 ^ 24) + node * 2 ^ 26) by lia.
    rewrite Z.div_add, Z.div_small by lia. lia.
Qed.

(** ** Theorems *)

(** a change of the table: slice, owned, type and node *)
Definition Change : Type := Z * bool * Z * Z.
Definition apply_change (c : Change) (t : SliceMappingTable) : result SliceMappingTable :=
  let '(slice, owned, type, node) := c in SetEntry slice owned type node true t.
Definition change_ok (t : SliceMappingTable) (c : Change) : Prop :=
  let '(slice, owned, type, node) := c in entry_args t node type slice ∧ node < 32.
Definition same_owners (t r : SliceMappingTable) : Prop :=
  (∀ n, registered t n ↔ registered r n) ∧ ∀ n ty s, registered t n → owns t n ty s = owns r n ty s.


(** the nodes found for an insertion are the owners of the slice *)
Lemma LocateNodeInsert_spec slice ty t n : smt_wf t →
  n ∈ LocateNodeInsert slice ty t ↔ registered t n ∧ owns t n (type_code ty) slice = true.
Proof.
  intros [Hn Hi Hb]. unfold LocateNodeInsert. change (map ?f ?l) with (f <$> l). rewrite list_elem_of_fmap. split.
  - intros (c & -> & Hc). apply list_elem_of_filter in Hc as [Ho Hc]. apply elem_of_seqZ in Hc. destruct (Hb c ltac:(lia)) as [Hr E].
    unfold registered, owns. rewrite E. split; [|done]. split; [done|]. lia.
  - intros [[Hr Hc] Ho]. destruct (Hi n Hr Hc) as [Hcr <-]. exists (node_compress t n). split; [done|].
    apply list_elem_of_filter. split; [done|]. apply elem_of_seqZ. lia.
Qed.

(** a lookup does not return when the node after the last one found does not own the
    slice, whoever else does *)
Lemma lookup_spins slice ty t : 0 ≤ slice < kNrMaxSlices → nr_nodes t ≠ 0 →
  so_owned t (Z.rem (next_node t + 1) (nr_nodes t)) (type_code ty) slice = false → LocateNodeLookup slice ty t = Err Blocked.
Proof.
  intros Hs Hn Ho. unfold LocateNodeLookup. rewrite (proj2 (Z.leb_le 0 slice)), (proj2 (Z.ltb_lt slice kNrMaxSlices)) by lia. cbn [andb negb abort_if mbind result_bind].
  rewrite (proj2 (Z.eqb_neq _ _)) by done. by rewrite Ho.
Qed.

(** from node 32 on, the sign of the operation makes the receiver read a negative node *)
Lemma replay_negative_node node type owned slice t : 32 ≤ node < 64 → 0 ≤ type < 3 → 0 ≤ slice < 2 ^ 23 →
  ReplayUpdate (encode_op node type owned slice) t = Err OutOfRange.
Proof.
  intros Hn Ht Hs. unfold ReplayUpdate, SetEntry, node_index. rewrite encode_op_eq by lia.
  assert (Ho : 0 ≤ Z.b2z owned < 2) by (destruct owned; cbn; lia).
  set (v := node * 2 ^ 26 + type * 2 ^ 24 + Z.b2z owned * 2 ^ 23 + slice).
  assert (Hv : i32 v < 0).
  { unfold i32. replace (v + 2 ^ 31) with ((v - 2 ^ 31) + 1 * 2 ^ 32) by lia. rewrite Z.mod_add, Z.mod_small by lia. lia. }
  assert (Z.shiftr (i32 v) 26 < 0) by (by apply Z.shiftr_neg). rewrite (proj2 (Z.leb_gt 0 (Z.shiftr (i32 v) 26))) by done. done.
Qed.

(** ** Witness *)

Module SliceSamples.
Definition memory (nr : Z) : SliceMappingTable := mkSMT (fun _ => 0) (fun _ _ _ => false) (fun _ => 0) nr 0 [].
Definition get (r : result SliceMappingTable) : SliceMappingTable := match r with Ok t => t | Err _ => memory 0 end.
(** two tables that met the nodes 1 and 2 in different orders *)
Definition t : SliceMappingTable := get (t ← InitNode 1 (SMT_new (memory 0)); InitNode 2 t).
Definition r : SliceMappingTable := get (t ← InitNode 2 (SMT_new (memory 0)); InitNode 1 t).

Lemma wf_new : smt_wf (SMT_new (memory 0)).
Proof. by apply SMT_new_wf. Qed.
Lemma wf_two a b : a ≠ b → 0 ≤ a < 254 → 0 ≤ b < 254 → smt_wf (get (t ← InitNode a (SMT_new (memory 0)); InitNode b t)) ∧
  ∀ n, registered (get (t ← InitNode a (SMT_new (memory 0)); InitNode b t)) n ↔ n = a ∨ n = b.
Proof.
  intros Hab Ha Hb. assert (Hnew : ∀ n, ¬ registered (SMT_new (memory 0)) n) by (intros n [Hn Hc]; apply Hc; cbn; zcase; lia).
  assert (Hc : ∀ (x : SliceMappingTable) n, 0 ≤ n < 254 → ¬ registered x n → node_compress x n = -1).
  { intros x n Hn Hx. destruct (decide (node_compress x n = -1)); [done|]. by destruct Hx. }
  destruct (InitNode_ok a (SMT_new (memory 0)) wf_new) as (t1 & -> & W1 & R1 & N1 & _); [by vm_compute|exact Ha|by apply Hc|]. cbn [mbind result_bind].
  assert (Hb1 : ¬ registered t1 b) by (rewrite R1; intros [?|?]; [by apply Hab|by eapply Hnew]).
  destruct (InitNode_ok b t1 W1) as (t2 & -> & W2 & R2 & _); [rewrite N1; by vm_compute|exact Hb|by apply Hc|]. split; [exact W2|].
  intros n. cbn. rewrite R2, R1. pose proof (Hnew n). tauto.
Qed.
End SliceSamples.

