(* ===== verification/Shipping.v ===== *)
(** Data migration (shipping.h/.cc, slice.h/.cc): the rows of a slice are listed in
    queues, a scanner walks over the rows that existed when a session began, rows that
    change meanwhile are marked dirty, and a shipment sends rows to their new node until
    nothing is left to send. *)

From S2P Require Import Prelude Bits.

(** ** The scanning session *)

Definition kScanningSessionConverged : Z := 3.
Definition kScanningSessionActive : Z := 0.
Definition kScanningSessionInactive : Z := 1.
Definition kScanningSessionConverging : Z := 2.
Definition session_status (session : Z) : Z := Z.land session 3.
Definition session_ts (session : Z) : Z := Z.shiftr session 2.

Definition advance_from (allowed : Z) (session : Z) : result Z :=
  _ ← abort_if (negb (session_status session =? allowed)); Ok (u64 (session + 1)).
Definition ScannerBegin : Z → result Z := advance_from kScanningSessionConverged.
Definition ScannerEnd : Z → result Z := advance_from kScanningSessionActive.
Definition MigrationApproachingEnd : Z → result Z := advance_from kScanningSessionInactive.
Definition MigrationEnd (session : Z) : result Z :=
  let status := session_status session in
  _ ← abort_if (negb (status =? kScanningSessionConverging) && negb (status =? kScanningSessionInactive));
  Ok (if status =? kScanningSessionInactive then u64 (u64 (session + 1) + 1) else u64 (session + 1)).
Definition IsConverging (session : Z) : bool := session_status session =? kScanningSessionConverging.

(** ** Handles *)

Record ShippingHandle := mkSH { born : Z; generation : Z; sent_generation : Z }.
Definition new_handle (session : Z) : ShippingHandle := mkSH (session_ts session) 0 0.

Definition MarkDirty (session : Z) (h : ShippingHandle) : bool * ShippingHandle :=
  if generation h =? sent_generation h then
    let h := mkSH (born h) (u64 (generation h + 1)) (sent_generation h) in
    if session_status session =? kScanningSessionActive then (session_ts session <=? born h, h)
    else if session_status session =? kScanningSessionConverged then (false, h)
    else (true, h)
  else (false, h).
Definition PrepareSend (h : ShippingHandle) : ShippingHandle := mkSH (born h) (generation h) (u64 (sent_generation h + 1)).
Definition CheckSession (session : Z) (h : ShippingHandle) : bool := born h <? session_ts session.

(** ** Slices and their scanner *)

(** the shared queue and those of the cores; rows are named by numbers *)
Record Slice := mkSlice { shared_q : list Z; per_core_q : Z → list Z }.
Definition new_slice : Slice := mkSlice [] (fun _ => []).

(** [Slice::Append]: [core] is the core of a routine that is bound to one *)
Definition Slice_Append (s : Slice) (core : option Z) (row : Z) : Slice :=
  match core with
  | Some c => if 0 <? c then mkSlice (shared_q s) (<[c := per_core_q s c ++ [row]]> (per_core_q s)) else mkSlice (shared_q s ++ [row]) (per_core_q s)
  | None => mkSlice (shared_q s ++ [row]) (per_core_q s)
  end.

Section Scanner.
Context (g_nr_threads session : Z) (handle : Z → ShippingHandle) (sl : Slice).

(** queue [0] is the shared one, [i + 1] that of core [i] *)
Definition queue_at (i : Z) : list Z := if i =? 0 then shared_q sl else per_core_q sl (i - 1).

(** the cursor: a queue, or none when the scan is over, and a node of it; the head of the
    list, to which an empty list and the last node point, is [None] *)
Record Cursor := mkCur { current_q : option Z; current_node : option Z }.
Definition ResetCursor : Cursor := mkCur (Some 0) (head (shared_q sl)).

Fixpoint next_of (q : list Z) (h : Z) : option Z :=
  match q with [] => None | x :: q => if x =? h then head q else next_of q h end.

(** where the scan goes on after queue [i] *)
Definition next_queue (i : Z) : option Z := if i =? 0 then Some 1 else if i =? g_nr_threads then None else Some (i + 1).

(** [GetNextHandle]; every round but the last moves to the next queue *)
Fixpoint next_handle (fuel : nat) (c : Cursor) : option Z * Cursor :=
  match fuel with
  | O => (None, c)
  | S fuel =>
      match current_q c with
      | None => (None, c)
      | Some i =>
          let switch := next_handle fuel (match next_queue i with Some j => mkCur (Some j) (head (queue_at j)) | None => mkCur None None end) in
          match current_node c with
          | Some h => if CheckSession session (handle h) then (Some h, mkCur (Some i) (next_of (queue_at i) h)) else switch
          | None => switch
          end
      end
  end.
Definition GetNextHandle (c : Cursor) : option Z * Cursor := next_handle (Z.to_nat g_nr_threads + 3) c.

(** the loop of [Scan]: the rows given to the shipment *)
Fixpoint scan_loop (fuel : nat) (c : Cursor) : list Z * Cursor :=
  match fuel with
  | O => ([], c)
  | S fuel => match GetNextHandle c with (Some h, c) => let (l, c) := scan_loop fuel c in (h :: l, c) | (None, c) => ([], c) end
  end.
Definition slice_size : nat := (length (shared_q sl) + foldr (fun i n => length (per_core_q sl i) + n) 0 (seqZ 0 g_nr_threads))%nat.
Definition Scan (c : Cursor) : list Z * Cursor := scan_loop (S slice_size) c.

(** [ScanShippingHandle]: the highest generation, and the cursor it leaves *)
Definition ScanShippingHandle : Z * Cursor :=
  let (l, c) := Scan ResetCursor in (foldr (fun h m => Z.max (generation (handle h)) m) 0 l, c).

(** *** What a scan finds *)

Fixpoint take_old (q : list Z) : list Z :=
  match q with [] => [] | h :: q => if CheckSession session (handle h) then h :: take_old q else [] end.
(** what is left of queue [i] from [r] on, and the queues after it *)
Definition rest (i : Z) (r : list Z) : list Z := take_old r ++ (seqZ (i + 1) (g_nr_threads - i) ≫= (fun j => take_old (queue_at j))).

Lemma next_of_split q d h r : q = d ++ h :: r → h ∉ d → next_of q h = head r.
Proof using Type.
  intros -> Hd. induction d as [|x d IH]; cbn; [by rewrite Z.eqb_refl|]. apply not_elem_of_cons in Hd as [Hx Hd].
  destruct (Z.eqb_spec x h); [congruence|by apply IH].
Qed.

Context (Hn : 1 ≤ g_nr_threads) (Hnd : ∀ i, 0 ≤ i ≤ g_nr_threads → NoDup (queue_at i)).

Lemma rest_next i : 0 ≤ i < g_nr_threads → rest i [] = rest (i + 1) (queue_at (i + 1)).
Proof using Type.
  intros Hi. unfold rest. cbn [take_old app]. rewrite seqZ_cons by lia. cbn [mbind list_bind]. do 2 f_equal. f_equal; lia.
Qed.
Lemma rest_last : rest g_nr_threads [] = [].
Proof using Type. unfold rest. by rewrite seqZ_nil by lia. Qed.

Lemma next_handle_spec fuel : ∀ i d r, 0 ≤ i ≤ g_nr_threads → queue_at i = d ++ r → (Z.to_nat (g_nr_threads - i) + 2 ≤ fuel)%nat →
  match rest i r with
  | [] => next_handle fuel (mkCur (Some i) (head r)) = (None, mkCur None None)
  | h :: l => ∃ i' d' r', next_handle fuel (mkCur (Some i) (head r)) = (Some h, mkCur (Some i') (head r')) ∧
                0 ≤ i' ≤ g_nr_threads ∧ queue_at i' = d' ++ r' ∧ rest i' r' = l
  end.
Proof using Hn Hnd.
  induction fuel as [|fuel IH]; intros i d r Hi Hq Hf; [lia|]. cbn [next_handle current_q current_node].
  assert (Hsw : match rest i [] with
    | [] => next_handle fuel (match next_queue i with Some j => mkCur (Some j) (head (queue_at j)) | None => mkCur None None end) = (None, mkCur None None)
    | h :: l => ∃ i' d' r', next_handle fuel (match next_queue i with Some j => mkCur (Some j) (head (queue_at j)) | None => mkCur None None end)
                  = (Some h, mkCur (Some i') (head r')) ∧ 0 ≤ i' ≤ g_nr_threads ∧ queue_at i' = d' ++ r' ∧ rest i' r' = l
    end).
  { unfold next_queue. destruct (Z.eq_dec i g_nr_threads) as [->|Hne].
    - rewrite rest_last. rewrite (proj2 (Z.eqb_neq g_nr_threads 0)) by lia. rewrite Z.eqb_refl. destruct fuel; [lia|done].
    - rewrite rest_next by lia. replace (if i =? 0 then Some 1 else if i =? g_nr_threads then None else Some (i + 1)) with (Some (i + 1))
        by (destruct (Z.eqb_spec i 0) as [->|]; [done|]; by rewrite (proj2 (Z.eqb_neq i g_nr_threads))).
      apply (IH (i + 1) []); [lia|done|lia]. }
  destruct r as [|h r]; cbn [head]; [exact Hsw|].
  assert (Hrest : rest i (h :: r) = if CheckSession session (handle h) then h :: rest i r else rest i []).
  { unfold rest. cbn [take_old]. by destruct (CheckSession session (handle h)). }
  rewrite Hrest. destruct (CheckSession session (handle h)); [|exact Hsw].
  exists i, (d ++ [h]), r. split; [|split; [done|split; [by rewrite <- app_assoc|done]]].
  do 2 f_equal. apply (next_of_split _ d); [done|]. specialize (Hnd i Hi). rewrite Hq in Hnd. apply NoDup_app in Hnd as (_ & Hx & _).
  intros Hin. apply (Hx h Hin). left.
Qed.

Lemma scan_loop_spec fuel : ∀ i d r, 0 ≤ i ≤ g_nr_threads → queue_at i = d ++ r → (length (rest i r) < fuel)%nat →
  scan_loop fuel (mkCur (Some i) (head r)) = (rest i r, mkCur None None).
Proof using Hn Hnd.
  induction fuel as [|fuel IH]; intros i d r Hi Hq Hf; [lia|]. cbn [scan_loop]. unfold GetNextHandle.
  pose proof (next_handle_spec (Z.to_nat g_nr_threads + 3) i d r Hi Hq ltac:(lia)) as H. destruct (rest i r) as [|h l] eqn:E.
  - by rewrite H.
  - destruct H as (i' & d' & r' & -> & Hi' & Hq' & Hl). rewrite (IH i' d' r' Hi' Hq') by (rewrite Hl; cbn in Hf; lia). by rewrite Hl.
Qed.

Lemma take_old_le q : (length (take_old q) ≤ length q)%nat.
Proof using Type. induction q as [|h q IH]; cbn; [lia|]. destruct (CheckSession session (handle h)); cbn; lia. Qed.
Lemma rest_size : (length (rest 0 (shared_q sl)) ≤ slice_size)%nat.
Proof using Hn.
  unfold rest, slice_size. rewrite length_app. pose proof (take_old_le (shared_q sl)). apply Nat.add_le_mono; [done|].
  rewrite Z.sub_0_r. change (0 + 1) with 1.
  assert (H' : ∀ n a, 0 ≤ a → (length (seqZ (a + 1) n ≫= (fun j => take_old (queue_at j))) ≤ foldr (fun i n => length (per_core_q sl i) + n) 0 (seqZ a n))%nat).
  { intros n. destruct (decide (0 ≤ n)) as [H0|]; [|intros; by rewrite !seqZ_nil by lia].
    pattern n. apply natlike_ind; [| |exact H0]; [intros; by rewrite !seqZ_nil by lia|]. intros m Hm IH a Ha. rewrite (seqZ_cons (a + 1)), (seqZ_cons a) by lia.
    assert (Hb : ∀ x l (f : Z → list Z), (x :: l) ≫= f = f x ++ (l ≫= f)) by done. rewrite Hb, length_app. cbn [foldr]. replace (Z.pred (Z.succ m)) with m by lia. specialize (IH (Z.succ a) ltac:(lia)).
    replace (Z.succ (a + 1)) with (Z.succ a + 1) by lia. pose proof (take_old_le (queue_at (a + 1))) as Hq.
    assert (Eq : queue_at (a + 1) = per_core_q sl a) by (unfold queue_at; rewrite (proj2 (Z.eqb_neq (a + 1) 0)) by lia; f_equal; lia).
    rewrite Eq in *. lia. }
  by apply (H' g_nr_threads 0).
Qed.
End Scanner.

(** rows are appended in the order of their birth *)
Definition born_order (handle : Z → ShippingHandle) (q : list Z) : Prop := StronglySorted (fun a b => born (handle a) ≤ born (handle b)) q.

Lemma take_old_filter session handle q : born_order handle q → take_old session handle q = filter (fun h => CheckSession session (handle h) = true) q.
Proof.
  induction 1 as [|h q Hq IH Hf]; [done|]. cbn [take_old]. destruct (CheckSession session (handle h)) eqn:E.
  - rewrite filter_cons_True by done. by rewrite IH.
  - rewrite filter_cons_False by congruence. rewrite filter_none; [done|]. intros x Hx Hc. rewrite Forall_forall in Hf. specialize (Hf x Hx).
    unfold CheckSession in *. apply Z.ltb_ge in E. apply Z.ltb_lt in Hc. cbn in Hf. lia.
Qed.

(** ** A migration *)

(** one slice with its shipment: the rows and what they hold ([None] before the first
    version is written), the queue of the shipment (new rows enter at the front, the back
    is sent), the rows the scanner still has to return, the row whose value has been read
    for sending, and what the other node has received. [lost] names the rows the protocol
    forgets: it is not part of the program. *)
Record Mig := mkMig {
  g_scanning_session : Z; rows : list Z; handles : Z → ShippingHandle; content : Z → option Z;
  queue : list Z; unscanned : list Z; sending : option (Z * Z); received : Z → option Z; lost : list Z;
}.

Inductive MigEvent :=
  | ENew (row : Z)             (* [OnNewRow] *)
  | EUpdate (row val : Z)      (* a version is written, then [OnUpdateRow] *)
  | EBegin | EScan | EEnd      (* the scanner *)
  | ESendRead | ESendDone      (* [RunSend], a row: its value is read; [PrepareSend] *)
  | EApproach | EFinish.
#[export] Instance MigEvent_eq_dec : EqDecision MigEvent.
Proof. solve_decision. Defined.

Definition set_session (m : Mig) (s : Z) := mkMig s (rows m) (handles m) (content m) (queue m) (unscanned m) (sending m) (received m) (lost m).

(** [OnUpdateRow] *)
Definition OnUpdateRow (row : Z) (m : Mig) : Mig :=
  let '(b, h) := MarkDirty (g_scanning_session m) (handles m row) in
  mkMig (g_scanning_session m) (rows m) (<[row := h]> (handles m)) (content m) (if b then row :: queue m else queue m)
    (unscanned m) (sending m) (received m) (lost m).

Definition mig_step (ev : MigEvent) (m : Mig) : result Mig :=
  match ev with
  | ENew row =>
      if bool_decide (row ∈ rows m) then Err OutOfRange else
      Ok (OnUpdateRow row (mkMig (g_scanning_session m) (rows m ++ [row]) (<[row := new_handle (g_scanning_session m)]> (handles m))
        (<[row := None]> (content m)) (queue m) (unscanned m) (sending m) (<[row := None]> (received m)) (lost m)))
  | EUpdate row val =>
      if bool_decide (row ∉ rows m) then Err OutOfRange else
      Ok (OnUpdateRow row (mkMig (g_scanning_session m) (rows m) (handles m) (<[row := Some val]> (content m)) (queue m) (unscanned m)
        (sending m) (received m) (if bool_decide (fst <$> sending m = Some row) then row :: lost m else lost m)))
  | EBegin =>
      s ← ScannerBegin (g_scanning_session m);
      let m := set_session m s in
      Ok (mkMig s (rows m) (handles m) (content m) (queue m)
        (filter (fun r => CheckSession s (handles m r) = true) (rows m)) (sending m) (received m) (lost m))
  | EScan =>
      match unscanned m with
      | [] => Err Blocked
      | r :: u => Ok (mkMig (g_scanning_session m) (rows m) (handles m) (content m) (r :: queue m) u (sending m) (received m) (lost m))
      end
  | EEnd =>
      if bool_decide (unscanned m = []) then s ← ScannerEnd (g_scanning_session m); Ok (set_session m s) else Err Blocked
  | ESendRead =>
      if (session_status (g_scanning_session m) =? kScanningSessionActive) || (session_status (g_scanning_session m) =? kScanningSessionConverged) then Err Blocked else
      match sending m, last (queue m) with
      | None, Some r =>
          let q := take (length (queue m) - 1) (queue m) in
          match content m r with
          | None => Ok (mkMig (g_scanning_session m) (rows m) (handles m) (content m) q (unscanned m) None (received m) (r :: lost m))
          | Some v => Ok (mkMig (g_scanning_session m) (rows m) (handles m) (content m) q (unscanned m) (Some (r, v)) (<[r := Some v]> (received m)) (lost m))
          end
      | _, _ => Err Blocked
      end
  | ESendDone =>
      match sending m with
      | None => Err Blocked
      | Some (r, _) => Ok (mkMig (g_scanning_session m) (rows m) (<[r := PrepareSend (handles m r)]> (handles m)) (content m) (queue m)
                         (unscanned m) None (received m) (lost m))
      end
  | EApproach => s ← MigrationApproachingEnd (g_scanning_session m); Ok (set_session m s)
  | EFinish =>
      if bool_decide (queue m = [] ∧ sending m = None) then s ← MigrationEnd (g_scanning_session m); Ok (set_session m s) else Err Blocked
  end.
Definition mig_run (evs : list MigEvent) (m : Mig) : result Mig := for_each mig_step evs m.

(** ** The session counter *)

Lemma status_mod s : session_status s = s mod 4.
Proof. unfold session_status. change 3 with (Z.ones 2). by rewrite Z.land_ones. Qed.
Lemma ts_div s : session_ts s = s / 4.
Proof. unfold session_ts. by rewrite Z.shiftr_div_pow2. Qed.

Lemma advance_ok a s s' : advance_from a s = Ok s' → session_status s = a ∧ s' = u64 (s + 1).
Proof. unfold advance_from. intros E. inv_ok. split; [|done]. zprop. done. Qed.

(** ** The invariant of a migration *)

Definition clean (h : ShippingHandle) : Prop := generation h = sent_generation h.
Definition dirty (h : ShippingHandle) : Prop := generation h = sent_generation h + 1.
(** the rows that wait to be sent *)
Definition in_hand (m : Mig) : list Z := match sending m with Some (r, _) => [r] | None => [] end.
Definition outstanding (m : Mig) : list Z := queue m ++ unscanned m ++ in_hand m.

(** [B] bounds the counters of the handles and the session; [ex] is a row that is being
    updated *)
Record MigInv (ex : option Z) (B : Z) (m : Mig) : Prop := {
  mi_status : session_status (g_scanning_session m) ≠ kScanningSessionConverged;
  mi_session : 0 ≤ g_scanning_session m ≤ B;
  mi_nodup : NoDup (outstanding m);
  mi_rows : ∀ r, r ∈ outstanding m → r ∈ rows m;
  mi_counts : ∀ r, r ∈ rows m → 0 ≤ sent_generation (handles m r) ∧ generation (handles m r) ≤ B;
  mi_dirty : ∀ r, r ∈ rows m → (dirty (handles m r) ∨ clean (handles m r) ∧ r ∉ outstanding m);
  mi_active : session_status (g_scanning_session m) = kScanningSessionActive → ∀ r, r ∈ rows m → ex ≠ Some r → dirty (handles m r);
  mi_kept : ∀ r, r ∈ rows m → r ∉ lost m → dirty (handles m r) → r ∈ outstanding m;
  mi_phase : session_status (g_scanning_session m) = kScanningSessionActive → sending m = None;
  mi_scanned : session_status (g_scanning_session m) ≠ kScanningSessionActive → unscanned m = [];
  mi_sending : ∀ r v, sending m = Some (r, v) → r ∉ lost m → received m r = content m r;
  mi_clean : ∀ r, r ∈ rows m → r ∉ lost m → ex ≠ Some r → clean (handles m r) → received m r = content m r;
}.

Lemma MarkDirty_dirty s h : dirty h → MarkDirty s h = (false, h).
Proof. intros H. unfold MarkDirty. by rewrite (proj2 (Z.eqb_neq _ _)) by (unfold dirty in H; lia). Qed.
Lemma MarkDirty_clean s h : clean h → session_status s ≠ kScanningSessionConverged →
  (session_status s = kScanningSessionActive → session_ts s ≤ born h) → 0 ≤ generation h < 2 ^ 64 - 1 →
  MarkDirty s h = (true, mkSH (born h) (generation h + 1) (sent_generation h)).
Proof.
  intros H Hs Ha Hg. unfold MarkDirty. rewrite (proj2 (Z.eqb_eq _ _) H). rewrite u64_id by lia. cbn [born].
  destruct (Z.eqb_spec (session_status s) kScanningSessionActive) as [E|]; [by rewrite (proj2 (Z.leb_le _ _)) by auto|].
  by rewrite (proj2 (Z.eqb_neq _ _)) by done.
Qed.
Lemma dirty_not_clean h : dirty h → clean h → False.
Proof. unfold dirty, clean. lia. Qed.

(** marking a row keeps the invariant: a clean row enters the queue, a dirty one is there *)
Lemma update_inv B m r : MigInv (Some r) B m → r ∈ rows m → B < 2 ^ 64 - 1 →
  (session_status (g_scanning_session m) = kScanningSessionActive → dirty (handles m r) ∨ session_ts (g_scanning_session m) ≤ born (handles m r)) →
  MigInv None (B + 1) (OnUpdateRow r m).
Proof.
  intros [H1 H2 H3 H4 H5 H6 H7 H8 Hph Hsc H9 H10] Hr HB Ha. unfold OnUpdateRow.
  destruct (H6 r Hr) as [Hd|[Hc Ho]].
  - rewrite MarkDirty_dirty by done. assert (Hh : ∀ x, (<[r := handles m r]> (handles m)) x = handles m x).
    { intros x. destruct (decide (x = r)) as [->|]; [by rewrite fn_lookup_insert|by rewrite fn_lookup_insert_ne]. }
    split; cbn [g_scanning_session rows handles content queue unscanned sending received lost]; try done; try lia.
    + intros x Hx. rewrite Hh. specialize (H5 x Hx). lia.
    + intros x Hx. rewrite Hh. by apply H6.
    + intros Hs x Hx _. rewrite Hh. destruct (decide (x = r)) as [->|]; [done|]. apply H7; [done|done|congruence].
    + intros x Hx Hl. rewrite Hh. by apply H8.
    + intros x Hx Hl _. rewrite Hh. intros Hc. apply H10; [done|done| |done]. intros [= ->]. by eapply dirty_not_clean.
  - specialize (H5 r Hr) as Hc5. rewrite MarkDirty_clean; [|done|done| |unfold clean in Hc; lia].
    2: { intros E. destruct (Ha E) as [|]; [exfalso; by eapply dirty_not_clean|done]. }
    assert (Hnew : dirty (mkSH (born (handles m r)) (generation (handles m r) + 1) (sent_generation (handles m r)))) by (unfold dirty, clean in *; cbn; lia).
    split; cbn [g_scanning_session rows handles content queue unscanned sending received lost]; try done; try lia.
    + unfold outstanding. cbn. constructor; [|done]. exact Ho.
    + intros x [->|Hx]%elem_of_cons; [done|]. by apply H4.
    + intros x Hx. destruct (decide (x = r)) as [->|]; [rewrite fn_lookup_insert; cbn; unfold clean in Hc; lia|rewrite fn_lookup_insert_ne by done; specialize (H5 x Hx); lia].
    + intros x Hx. destruct (decide (x = r)) as [->|Hne]; [rewrite fn_lookup_insert; by left|rewrite fn_lookup_insert_ne by done].
      destruct (H6 x Hx) as [|[? Hx']]; [by left|right]. split; [done|]. unfold outstanding. cbn. rewrite not_elem_of_cons. done.
    + intros Hs x Hx _. destruct (decide (x = r)) as [->|Hne]; [rewrite fn_lookup_insert; done|rewrite fn_lookup_insert_ne by done]. apply H7; [done|done|congruence].
    + intros x Hx Hl. unfold outstanding. cbn. rewrite elem_of_cons. destruct (decide (x = r)) as [->|Hne]; [by left|].
      rewrite fn_lookup_insert_ne by done. right. by apply H8.
    + intros x Hx Hl _. destruct (decide (x = r)) as [->|Hne]; [rewrite fn_lookup_insert; intros Hx'; exfalso; by eapply dirty_not_clean|].
      rewrite fn_lookup_insert_ne by done. apply H10; [done|done|congruence].
Qed.

Lemma inv_weaken ex B m : MigInv ex B m → MigInv ex (B + 1) m.
Proof. intros [H1 H2 H3 H4 H5 H6 H7 H8 Hph Hsc H9 H10]. split; try done; [lia|]. intros r Hr. specialize (H5 r Hr). lia. Qed.

(** the session moves on inside a migration *)
Lemma session_inv B m s : MigInv None B m → session_status s ≠ kScanningSessionConverged → session_status s ≠ kScanningSessionActive →
  0 ≤ s ≤ B + 1 → unscanned m = [] → MigInv None (B + 1) (set_session m s).
Proof.
  intros [H1 H2 H3 H4 H5 H6 H7 H8 Hph Hsc H9 H10] Hs Ha Hr Hu. split; cbn; try done. intros r Hx. specialize (H5 r Hx). lia.
Qed.

Lemma status_next s : 0 ≤ s → session_status (s + 1) = (session_status s + 1) mod 4.
Proof. intros Hs. rewrite !status_mod. by rewrite Z.add_mod_idemp_l. Qed.

Lemma last_take {A} (q : list A) x : last q = Some x → q = take (length q - 1) q ++ [x].
Proof.
  destruct q as [|y q _] using rev_ind; [done|]. rewrite last_snoc. intros [= ->]. rewrite length_app, Nat.add_sub. by rewrite take_app_length.
Qed.

(** creating and updating a row *)
Lemma new_inv B m row m' : MigInv None B m → mig_step (ENew row) m = Ok m' → B < 2 ^ 64 - 1 → MigInv None (B + 1) m'.
Proof.
  intros Hinv E HB. pose proof Hinv as [H1 H2 H3 H4 H5 H6 H7 H8 Hph Hsc H9 H10]. unfold mig_step in E. case_bool_decide as Hr; [done|].
  injection E as <-. assert (Ho : row ∉ outstanding m) by (intros Hx; by apply Hr, H4).
  assert (Hf : ∀ {X} (f : Z → X) v x, x ∈ rows m → (<[row := v]> f) x = f x) by (intros X f v x Hx; apply fn_lookup_insert_ne; by intros ->).
  apply update_inv; [|set_solver|done|intros _; right; cbn; rewrite fn_lookup_insert; done].
  split; cbn [g_scanning_session rows handles content queue unscanned sending received lost]; try done.
  - intros x Hx. apply elem_of_app. left. by apply H4.
  - intros x [Hx|Hx%list_elem_of_singleton]%elem_of_app; [rewrite Hf by done; by apply H5|subst; rewrite fn_lookup_insert; cbn; lia].
  - intros x [Hx|Hx%list_elem_of_singleton]%elem_of_app; [rewrite Hf by done; by apply H6|subst; rewrite fn_lookup_insert; by right].
  - intros Hs x [Hx|Hx%list_elem_of_singleton]%elem_of_app Hne; [rewrite Hf by done; by apply H7|congruence].
  - intros x [Hx|Hx%list_elem_of_singleton]%elem_of_app Hl; [rewrite Hf by done; by apply H8|subst; rewrite fn_lookup_insert; unfold dirty; cbn; lia].
  - intros x v Hs Hl. assert (Hx : x ∈ rows m) by (apply H4; unfold outstanding, in_hand; rewrite Hs; set_solver). rewrite !Hf by done. by eapply H9.
  - intros x [Hx|Hx%list_elem_of_singleton]%elem_of_app Hl Hne; [rewrite !Hf by done; by apply H10|congruence].
Qed.

Lemma update_row_inv B m row val m' : MigInv None B m → mig_step (EUpdate row val) m = Ok m' → B < 2 ^ 64 - 1 → MigInv None (B + 1) m'.
Proof.
  intros Hinv E HB. pose proof Hinv as [H1 H2 H3 H4 H5 H6 H7 H8 Hph Hsc H9 H10]. unfold mig_step in E. case_bool_decide as Hr; [done|].
  injection E as <-. set (l := if bool_decide _ then row :: lost m else lost m).
  assert (Hl : ∀ x, x ∉ l → x ∉ lost m) by (unfold l; intros x; case_bool_decide; set_solver).
  apply update_inv; [|done|done|intros Hs; left; by apply H7].
  split; cbn [g_scanning_session rows handles content queue unscanned sending received lost]; try done.
  - intros Hs x Hx _. by apply H7.
  - intros x Hx Hx'. apply H8; auto.
  - intros x v Hs Hx. assert (x ≠ row).
    { intros ->. apply Hx. unfold l. rewrite bool_decide_true by (by rewrite Hs). left. }
    rewrite fn_lookup_insert_ne by done. eapply H9; [done|auto].
  - intros x Hx Hx' Hne. rewrite fn_lookup_insert_ne by congruence. apply H10; auto.
Qed.

(** a row moves from one place of [outstanding] to another *)
Lemma move_inv B m m' : MigInv None B m → outstanding m' ≡ₚ outstanding m → g_scanning_session m' = g_scanning_session m → rows m' = rows m →
  handles m' = handles m → content m' = content m → lost m' = lost m →
  (∀ r, r ∈ rows m → clean (handles m r) → received m' r = received m r) →
  (session_status (g_scanning_session m) = kScanningSessionActive → sending m' = None) →
  (session_status (g_scanning_session m) ≠ kScanningSessionActive → unscanned m' = []) →
  (∀ r v, sending m' = Some (r, v) → r ∉ lost m → received m' r = content m r) → MigInv None (B + 1) m'.
Proof.
  intros Hinv Hp Es Er Eh Ec El Hrc Hph' Hsc' Hs. apply inv_weaken. destruct Hinv as [H1 H2 H3 H4 H5 H6 H7 H8 Hph Hsc H9 H10].
  split; rewrite ?Es, ?Er, ?Eh, ?Ec, ?El; try done.
  - by rewrite Hp.
  - intros r. rewrite Hp. apply H4.
  - intros r Hr. rewrite Hp. by apply H6.
  - intros r Hr Hl Hd. rewrite Hp. by apply H8.
  - intros r Hr Hl Hne Hc. rewrite Hrc by done. by apply H10.
Qed.

Lemma mig_step_inv B m ev m' : MigInv None B m → mig_step ev m = Ok m' → ev ≠ EFinish → B < 2 ^ 64 - 2 → MigInv None (B + 1) m'.
Proof.
  intros Hinv E Hf HB. pose proof Hinv as [H1 H2 H3 H4 H5 H6 H7 H8 Hph Hsc H9 H10]. destruct ev; [by eapply new_inv; try done; lia|by eapply update_row_inv; try done; lia|..]; unfold mig_step in E.
  - apply bind_ok in E as (s & Es & _). apply advance_ok in Es as [Es _]. done.
  - destruct (unscanned m) as [|r u] eqn:Eu; [done|]. injection E as <-. eapply move_inv; [done|..]; try done.
    2: { intros Ha. specialize (Hsc Ha). congruence. }
    unfold outstanding, in_hand. cbn. rewrite Eu. cbn. by rewrite <- Permutation_middle.
  - case_bool_decide as Hu; [|done]. apply bind_ok in E as (s & Es & E). injection E as <-. apply advance_ok in Es as [Es ->].
    rewrite u64_id by lia. pose proof (status_next (g_scanning_session m) ltac:(lia)) as Hn. rewrite Es in Hn. cbn in Hn.
    apply session_inv; rewrite ?Hn; try done. lia.
  - destruct (_ || _) eqn:Eact; [done|]. destruct (sending m) eqn:Esn; [done|]. destruct (last (queue m)) as [r|] eqn:El; [|done].
    apply last_take in El as Hq. set (q' := take (length (queue m) - 1) (queue m)) in *. assert (Hr : r ∈ outstanding m) by (unfold outstanding; rewrite Hq; set_solver).
    destruct (content m r) as [v|] eqn:Ec; injection E as <-.
    + eapply move_inv; [done|..]; try done.
      * unfold outstanding, in_hand. cbn. rewrite Esn, app_nil_r, Hq, <- app_assoc. apply Permutation_app_head, Permutation_app_comm.
      * intros x Hx Hc. cbn. apply fn_lookup_insert_ne. intros ->. destruct (H6 x Hx) as [Hd|[_ Hno]]; [by eapply dirty_not_clean|done].
      * intros Ha. rewrite Ha in Eact. done.
      * cbn. intros x w [= <- <-] _. by rewrite fn_lookup_insert.
    + assert (Hp : outstanding m ≡ₚ r :: (q' ++ unscanned m)).
      { unfold outstanding, in_hand. rewrite Esn, app_nil_r, Hq, <- app_assoc. cbn. by rewrite <- Permutation_middle. }
      apply inv_weaken. rewrite Hp in H3. apply NoDup_cons in H3 as [Hr1 H3].
      split; cbn [g_scanning_session rows handles content queue unscanned sending received lost]; try done.
      * unfold outstanding, in_hand. cbn. by rewrite app_nil_r.
      * intros x Hx. apply H4. rewrite Hp. unfold outstanding, in_hand in Hx. cbn in Hx. rewrite app_nil_r in Hx. by right.
      * intros x Hx. destruct (H6 x Hx) as [|[? Hno]]; [by left|right]. split; [done|]. intros Hx'. apply Hno. rewrite Hp. right.
        unfold outstanding, in_hand in Hx'. cbn in Hx'. by rewrite app_nil_r in Hx'.
      * intros x Hx Hl Hd. assert (Hxr : x ≠ r ∧ x ∉ lost m) by set_solver. assert (Hx' : x ∈ outstanding m) by (apply H8; [done|apply Hxr|done]).
        rewrite Hp in Hx'. unfold outstanding, in_hand. cbn. rewrite app_nil_r. apply elem_of_cons in Hx' as [?|?]; [by destruct Hxr|done].
      * intros x Hx Hl Hne Hc. apply H10; [done|set_solver|done|done].
  - destruct (sending m) as [[r v]|] eqn:Esn; [|done]. injection E as <-.
    assert (Ho : outstanding m ≡ₚ r :: (queue m ++ unscanned m)).
    { unfold outstanding, in_hand. rewrite Esn, app_assoc. apply Permutation_app_comm. }
    assert (Hr : r ∈ rows m) by (apply H4; rewrite Ho; left). rewrite Ho in H3. apply NoDup_cons in H3 as [Hr1 H3].
    assert (Hd : dirty (handles m r)) by (destruct (H6 r Hr) as [|[_ Hno]]; [done|destruct Hno; rewrite Ho; left]).
    specialize (H5 r Hr) as H5r. assert (Hpc : clean (PrepareSend (handles m r))) by (unfold clean, dirty, PrepareSend in *; cbn; rewrite u64_id; lia).
    split; cbn [g_scanning_session rows handles content queue unscanned sending received lost]; try done; try lia; unfold outstanding, in_hand; cbn; rewrite ?app_nil_r.
    + done.
    + intros x Hx. apply H4. rewrite Ho. by right.
    + intros x Hx. destruct (decide (x = r)) as [->|]; [rewrite fn_lookup_insert; cbn; unfold dirty in Hd; rewrite u64_id; lia|].
      rewrite fn_lookup_insert_ne by done. specialize (H5 x Hx). lia.
    + intros x Hx. destruct (decide (x = r)) as [->|]; [rewrite fn_lookup_insert; by right|]. rewrite fn_lookup_insert_ne by done.
      destruct (H6 x Hx) as [|[? Hno]]; [by left|right]. split; [done|]. intros Hx'. apply Hno. rewrite Ho. by right.
    + intros Hs. specialize (Hph Hs). congruence.
    + intros x Hx Hl. destruct (decide (x = r)) as [->|]; [rewrite fn_lookup_insert; intros Hx'; exfalso; by eapply dirty_not_clean|].
      rewrite fn_lookup_insert_ne by done. intros Hdx. assert (Hx' : x ∈ outstanding m) by (by apply H8). rewrite Ho in Hx'. by apply elem_of_cons in Hx' as [|].
    + intros x Hx Hl _. destruct (decide (x = r)) as [->|]; [intros _; by eapply H9|]. rewrite fn_lookup_insert_ne by done. intros Hc. by apply H10.
  - apply bind_ok in E as (s & Es & E). injection E as <-. apply advance_ok in Es as [Es ->].
    rewrite u64_id by lia. pose proof (status_next (g_scanning_session m) ltac:(lia)) as Hn. rewrite Es in Hn. cbn in Hn.
    apply session_inv; rewrite ?Hn; try done; [lia|]. apply Hsc. by rewrite Es.
  - done.
Qed.

(** a database that has not been shipped yet, and no migration under way *)
Record unshipped (B : Z) (m : Mig) : Prop := {
  us_status : session_status (g_scanning_session m) = kScanningSessionConverged;
  us_session : 0 ≤ g_scanning_session m ≤ B;
  us_rows : NoDup (rows m) ∧ ∀ r, r ∈ rows m → dirty (handles m r) ∧ 0 ≤ sent_generation (handles m r) ∧ generation (handles m r) ≤ B ∧
            born (handles m r) ≤ session_ts (g_scanning_session m);
  us_idle : queue m = [] ∧ unscanned m = [] ∧ sending m = None;
}.

Lemma begin_inv B m m' : unshipped B m → B < 2 ^ 64 - 2 → mig_step EBegin m = Ok m' → MigInv None (B + 1) m'.
Proof.
  intros [U1 U2 [U3 U4] (U5 & U6 & U7)] HB E. unfold mig_step in E. apply bind_ok in E as (s & Es & E). injection E as <-.
  apply advance_ok in Es as [_ ->]. rewrite u64_id by lia.
  pose proof (status_next (g_scanning_session m) ltac:(lia)) as Hn. rewrite U1 in Hn. cbn in Hn.
  assert (Hold : filter (fun r => CheckSession (g_scanning_session m + 1) (handles m r) = true) (rows m) = rows m).
  { apply filter_all. intros r Hr. destruct (U4 r Hr) as (_ & _ & _ & Hb). unfold CheckSession. apply Z.ltb_lt.
    rewrite ts_div in *. rewrite status_mod in U1. unfold kScanningSessionConverged in U1.
    pose proof (Z.div_mod (g_scanning_session m) 4 ltac:(lia)). pose proof (Z.div_le_lower_bound (g_scanning_session m + 1) 4 (g_scanning_session m / 4 + 1)). lia. }
  cbn [set_session handles rows content queue sending received lost]. rewrite Hold.
  split; unfold outstanding, in_hand; cbn [g_scanning_session rows handles content queue unscanned sending received lost]; rewrite ?Hn, ?U5, ?U7, ?app_nil_r; try done; try lia.
  - intros r Hr. destruct (U4 r Hr) as (_ & ? & ? & _). lia.
  - intros r Hr. left. by apply U4.
  - intros _ r Hr _. by apply U4.
  - intros r Hr _ _ Hc. exfalso. eapply dirty_not_clean; [by apply U4|done].
Qed.

Lemma mig_run_inv evs : ∀ B m m', MigInv None B m → mig_run evs m = Ok m' → EFinish ∉ evs → B + len evs < 2 ^ 64 - 2 → MigInv None (B + len evs) m'.
Proof.
  unfold mig_run. induction evs as [|ev evs IH]; intros B m m' H E Hf HB; cbn [for_each length] in *; [injection E as <-; by rewrite Z.add_0_r|].
  apply bind_ok in E as (m1 & E1 & E). replace (B + Z.of_nat (S (length evs))) with (B + 1 + len evs) by lia.
  apply not_elem_of_cons in Hf as [Hf Hfs]. apply (IH (B + 1) m1); [|done|done|lia]. eapply mig_step_inv; try done. lia.
Qed.

(** ** Theorems *)


(** A scan that starts at the front finds the rows of the slice born before its session:
    those of the shared queue, then those of the queues of the cores, each once and in order. *)
Theorem scan_finds_old_rows n session handle sl :
  1 ≤ n → (∀ i, 0 ≤ i ≤ n → NoDup (queue_at sl i) ∧ born_order handle (queue_at sl i)) →
  Scan n session handle sl (ResetCursor sl) =
  (seqZ 0 (n + 1) ≫= (fun i => filter (fun h => CheckSession session (handle h) = true) (queue_at sl i)), mkCur None None).
Proof.
  intros Hn Hq. unfold Scan, ResetCursor. rewrite (scan_loop_spec n session handle sl Hn (fun i Hi => proj1 (Hq i Hi)) _ 0 [] (shared_q sl));
    [|lia|done|apply Nat.lt_succ_r, rest_size; lia]. f_equal. unfold rest.
  rewrite (seqZ_cons 0) by lia. replace (Z.pred (n + 1)) with (n - 0) by lia. change (Z.succ 0) with (0 + 1).
  assert (Hb : ∀ x l (f : Z → list Z), (x :: l) ≫= f = f x ++ (l ≫= f)) by done. rewrite Hb. change (queue_at sl 0) with (shared_q sl).
  rewrite take_old_filter by (apply (Hq 0); lia). f_equal.
  assert (Hext : ∀ l, (∀ j, j ∈ l → 0 ≤ j ≤ n) → (l ≫= (fun j => take_old session handle (queue_at sl j))) =
    (l ≫= (fun i => filter (fun h => CheckSession session (handle h) = true) (queue_at sl i)))).
  { intros l. induction l as [|j l IH]; intros Hl; [done|]. cbn. rewrite take_old_filter by (apply Hq, Hl; left). f_equal.
    apply IH. intros k Hk. apply Hl. by right. }
  apply Hext. intros j Hj. apply elem_of_seqZ in Hj. lia.
Qed.

(** ** What the protocol does not do *)

(** a scanner is created with its slice, when the queues are empty: it starts at the head of
    the shared queue, which it then takes for the end, and never returns the rows of that
    queue, however they are appended later *)
Lemma scanner_skips_shared_queue n session handle sl : 1 ≤ n → (∀ i, 0 ≤ i ≤ n → NoDup (queue_at sl i)) →
  (Scan n session handle sl (ResetCursor new_slice)).1 = (seqZ 1 n ≫= (fun j => take_old session handle (queue_at sl j))).
Proof.
  intros Hn Hq. unfold Scan, ResetCursor. cbn [new_slice shared_q head].
  assert (Hd : queue_at sl 0 = queue_at sl 0 ++ []) by (by rewrite app_nil_r).
  rewrite (scan_loop_spec n session handle sl Hn Hq _ 0 (queue_at sl 0) []); [|lia|done|].
  - unfold rest. cbn. by rewrite Z.sub_0_r.
  - apply Nat.lt_succ_r. pose proof (rest_size n session handle sl Hn) as Hr. unfold rest in *. rewrite length_app in *. cbn in *. lia.
Qed.

(** a second scan of a slice finds nothing: the cursor stays at the end *)
Lemma second_scan_empty n session handle sl : Scan n session handle sl (mkCur None None) = ([], mkCur None None).
Proof. unfold Scan. cbn. unfold GetNextHandle. by rewrite Nat.add_comm. Qed.

(** a migration ends once: the end of a second shipment of the same session aborts *)
Lemma second_end_aborts s s' : 0 ≤ s < 2 ^ 64 - 2 → MigrationEnd s = Ok s' → MigrationEnd s' = Err Aborted.
Proof.
  intros Hs E. assert (H3 : session_status s' = 3).
  { unfold MigrationEnd in E. inv_ok. rewrite !status_mod in *. unfold kScanningSessionInactive, kScanningSessionConverging in *.
    apply andb_false_iff in E0 as [Hc|Hc]; apply negb_false_iff, Z.eqb_eq in Hc; rewrite Hc in *; cbn [Z.eqb Pos.eqb] in *; rewrite !u64_id by (rewrite ?u64_id; lia).
    - by rewrite <- Z.add_mod_idemp_l, Hc.
    - replace (s + 1 + 1) with (s + 2) by lia. by rewrite <- Z.add_mod_idemp_l, Hc. }
  unfold MigrationEnd. by rewrite H3.
Qed.

Module ShipSamples.
Definition m0 : Mig := mkMig 3 [1; 2] (fun _ => mkSH 0 1 0) (fun r => Some (10 * r)) [] [] None (fun _ => None) [].
Definition get (r : result Mig) : Mig := match r with Ok m => m | Err _ => m0 end.
Lemma m0_unshipped : unshipped 3 m0.
Proof.
  split; try done. split; [repeat constructor; set_solver|]. intros r _. unfold dirty. cbn. repeat split; by vm_compute.
Qed.
End ShipSamples.

(** a row whose value is read for sending and updated before [PrepareSend] counts as sent *)
Lemma update_while_sending_lost :
  let m := ShipSamples.get (mig_run [EBegin; EScan; EScan; EEnd; ESendRead; EUpdate 1 11; ESendDone; ESendRead; ESendDone; EFinish] ShipSamples.m0) in
  session_status (g_scanning_session m) = kScanningSessionConverged ∧ content m 1 = Some 11 ∧ received m 1 = Some 10.
Proof. by vm_compute. Qed.

(** a row that is skipped because it has no version yet stays marked dirty, so the write
    that follows does not queue it again *)
Lemma skipped_row_lost :
  let m := ShipSamples.get (mig_run [EBegin; EScan; EScan; EEnd; ENew 5; ESendRead; ESendDone; ESendRead; ESendDone; ESendRead; EUpdate 5 50; EFinish] ShipSamples.m0) in
  session_status (g_scanning_session m) = kScanningSessionConverged ∧ content m 5 = Some 50 ∧ received m 5 = None.
Proof. by vm_compute. Qed.

(** ** Witnesses *)

Definition ship_events : list MigEvent :=
  [EScan; ENew 7; EUpdate 7 70; EScan; EUpdate 1 11; EEnd; ESendRead; ESendDone; ESendRead; ESendDone; EApproach; EUpdate 1 12; ESendRead; ESendDone; ESendRead; ESendDone].


Lemma scan_finds_old_rows_witness :
  let sl := Slice_Append (Slice_Append (Slice_Append new_slice None 1) (Some 1) 2) (Some 0) 3 in
  Scan 2 8 (fun h => mkSH (h - 1) 0 0) sl (ResetCursor sl) = ([1; 2], mkCur None None).
Proof.
  cbn zeta. rewrite (scan_finds_old_rows 2 8 (fun h => mkSH (h - 1) 0 0)); [by vm_compute|lia|].
  intros i Hi. assert (i = 0 ∨ i = 1 ∨ i = 2) as [->|[->| ->]] by lia; (split; [apply NoDup_ListNoDup; repeat constructor; cbn; lia|repeat constructor; cbn; lia]).
Defined.
