(* ===== verification/Shipment.v ===== *)
(** The bytes of a migration (entity.cc, shipping.h/.cc [Shipment], [BaseShipment],
    [ShipmentReceiver]): rows are encoded into vectors of buffers, written to the socket in
    whatever pieces the kernel takes, and decoded by the receiver. *)

From S2P Require Import Prelude SqlTypes Piece.

(** ** Entities *)

(** a [RowEntity] with the value of its latest version *)
Record RowEntity := mkEnt { rel_id : Z; e_slice : Z; e_key : list Z; e_val : list Z }.

(** [encoded_len] *)
Definition encoded_len (e : RowEntity) : Z := 10 + len (e_key e) + len (e_val e).
(** [EncodeIOVec]: nothing if less than 4 vectors are left, otherwise 5 vectors *)
Definition EncodeIOVec (e : RowEntity) (max_nr_vec : Z) : option (list (list Z)) :=
  if max_nr_vec <? 4 then None
  else Some [le_split 4 (u32 (rel_id e)); le_split 4 (u32 (e_slice e)); le_split 2 (len (e_key e)); e_key e; e_val e].

(** [DecodeIOVec] into the 1024 bytes prepared by the receiver: key and value are strings
    with a header of 4 bytes *)
Definition DecodeIOVec (b : list Z) : result RowEntity :=
  r ← read_bytes 4 b; s ← read_bytes 4 (drop 4 b); n ← read_bytes 2 (drop 8 b);
  let key_size := le_combine n in
  _ ← abort_if (negb (0 <? key_size));
  k ← read_bytes key_size (drop 10 b);
  let value_size := len b - 10 - key_size in
  _ ← abort_if (negb (0 <? value_size));
  v ← read_bytes value_size (drop (Z.to_nat (10 + key_size)) b);
  if Align (4 + key_size) 8 + 4 + value_size <=? 1024
  then Ok (mkEnt (i32 (le_combine r)) (i32 (le_combine s)) k v) else Err OutOfRange.

(** ** Sending *)

Definition IOV_MAX : Z := 1024.
Definition kSendBatch : Z := 32 * IOV_MAX.

(** the inner loop of [SendIOVec]: the vectors left after [res] bytes were written *)
Fixpoint advance_iov (vec : list (list Z)) (res : Z) : result (list (list Z)) :=
  if res <=? 0 then Ok vec else
  match vec with
  | [] => Err OutOfRange
  | v :: vec' => if len v <=? res then advance_iov vec' (res - len v) else Ok (drop (Z.to_nat res) v :: vec')
  end.

(** [SendIOVec]: [rs] are the results of [writev], which writes the first bytes of the
    vectors; the bytes written *)
Fixpoint SendIOVec (vec : list (list Z)) (rs : list Z) : result (list Z) :=
  match vec, rs with
  | [], _ => Ok []
  | _, [] => Err Blocked
  | _, r :: rs =>
      _ ← abort_if (r <? 0);
      vec' ← advance_iov vec r;
      out ← SendIOVec vec' rs; Ok (take (Z.to_nat r) (concat vec) ++ out)
  end.

(** the loop of [RunSend] over the objects of a batch: the vectors filled and the vectors
    already given to [SendIOVec] *)
Definition send_object (e : RowEntity) (x : list (list Z) * list (list (list Z))) : result (list (list Z) * list (list (list Z))) :=
  let put := fun vec => 
    match (if len vec =? IOV_MAX then None else EncodeIOVec e (IOV_MAX - len vec - 1)) with
    | None => None
    | Some l => Some (if len vec + 1 + len l <=? IOV_MAX then Ok (vec ++ le_split 8 (encoded_len e) :: l) else Err OutOfRange)
    end in
  match put x.1 with
  | Some r => vec ← r; Ok (vec, x.2)
  | None => match put [] with Some r => vec ← r; Ok (vec, x.2 ++ [x.1]) | None => Err Blocked end
  end.
Definition send_batch (es : list RowEntity) : result (list (list (list Z))) :=
  '(vec, sent) ← for_each send_object es ([], []); Ok (sent ++ [vec]).

Section RunSend.
Context (ShouldSkip : RowEntity → bool).

(** [RunSend]: the vectors written, the 8 bytes of [ReceiveACK], and the queue that is left *)
Definition RunSend (queue : list RowEntity) : result (option (list (list (list Z)) * list Z * list RowEntity)) :=
  let n := Nat.min (Z.to_nat kSendBatch) (length queue) in
  let obj := rev (drop (length queue - n) queue) in
  match obj with
  | [] => Ok None
  | _ => calls ← send_batch (filter (fun e => ShouldSkip e = false) obj);
         Ok (Some (calls, le_split 8 0, take (length queue - n) queue))
  end.

(** the loop of [RowScannerRoutine::Run] over a shipment: all the bytes of its calls *)
Fixpoint ship_all (fuel : nat) (queue : list RowEntity) : result (list Z) :=
  match fuel with
  | O => Err Blocked
  | S fuel =>
      r ← RunSend queue;
      match r with
      | None => Ok []
      | Some (calls, ack, queue) => out ← ship_all fuel queue; Ok (concat (map (@concat Z) calls) ++ ack ++ out)
      end
  end.
End RunSend.

(** ** Receiving *)

(** [Receive]: an entity, or nothing at the end of the stream; a size of 0 asks for an
    acknowledgement *)
Fixpoint Receive (fuel : nat) (inp : list Z) : result (option (RowEntity * list Z)) :=
  match fuel with
  | O => Err Blocked
  | S fuel =>
      if len inp <? 8 then Ok None else
      let psz := le_combine (take 8 inp) in
      if psz =? 0 then Receive fuel (drop 8 inp) else
      match read_bytes psz (drop 8 inp) with
      | Err _ => Err Aborted
      | Ok b => e ← DecodeIOVec b; Ok (Some (e, drop (8 + Z.to_nat psz) inp))
      end
  end.
Fixpoint receive_all (fuel : nat) (inp : list Z) : result (list RowEntity) :=
  match fuel with
  | O => Err Blocked
  | S fuel =>
      r ← Receive (S (length inp)) inp;
      match r with None => Ok [] | Some (e, inp) => es ← receive_all fuel inp; Ok (e :: es) end
  end.

(** ** Vectors *)

Lemma advance_iov_spec vec : ∀ r, 0 ≤ r ≤ len (concat vec) →
  ∃ vec', advance_iov vec r = Ok vec' ∧ concat vec' = drop (Z.to_nat r) (concat vec) ∧ (Forall (fun v => v ≠ []) vec → Forall (fun v => v ≠ []) vec').
Proof.
  induction vec as [|v vec IH]; intros r Hr; cbn [advance_iov concat] in *.
  - cbn in Hr. assert (r = 0) as -> by lia. by exists [].
  - destruct (Z.leb_spec r 0) as [H0|H0].
    { assert (r = 0) as -> by lia. by exists (v :: vec). }
    rewrite length_app, Nat2Z.inj_add in Hr. destruct (Z.leb_spec (len v) r) as [Hle|Hlt].
    + destruct (IH (r - len v) ltac:(lia)) as (vec' & -> & Hc & Hf). exists vec'. split; [done|]. split; [|by intros [_ ?]%Forall_cons; auto].
      rewrite Hc, drop_app_ge by lia. f_equal. lia.
    + eexists. split; [done|]. split; [cbn; by rewrite drop_app_le by lia|]. intros [_ Hf]%Forall_cons. constructor; [|done].
      intros E. apply (f_equal length) in E. rewrite length_drop in E. cbn in E. lia.
Qed.

(** whatever pieces the kernel takes, the bytes written are those of the vectors *)
Lemma SendIOVec_bytes rs : ∀ vec, Forall (fun v => v ≠ []) vec → Forall (fun r => 0 < r) rs →
  sum_over id rs = len (concat vec) → SendIOVec vec rs = Ok (concat vec).
Proof.
  induction rs as [|r rs IH]; intros vec Hv Hr Hs; destruct vec as [|v vec]; try done.
  - cbn in Hs. apply Forall_cons in Hv as [Hv _]. destruct v; [done|]. cbn in Hs. lia.
  - apply Forall_cons in Hr as [Hr0 Hr]. cbn [SendIOVec]. rewrite (proj2 (Z.ltb_ge r 0)) by lia. cbn [abort_if mbind result_bind].
    assert (Hrs : 0 ≤ sum_over id rs) by (apply sum_over_nonneg; intros x Hx; rewrite Forall_forall in Hr; specialize (Hr x Hx); unfold id; lia).
    change (sum_over id (r :: rs)) with (r + sum_over id rs) in Hs.
    destruct (advance_iov_spec (v :: vec) r ltac:(lia)) as (vec' & -> & Hc & Hf). cbn [mbind result_bind].
    rewrite (IH vec'); [|by apply Hf|done|rewrite Hc, length_drop; lia]. cbn [mbind result_bind]. rewrite Hc. by rewrite take_drop.
Qed.

(** an empty vector at the end is never taken: [writev] returns 0 for ever *)
Lemma SendIOVec_spins n : SendIOVec [[]] (replicate n 0) = Err Blocked.
Proof. induction n as [|n IH]; [done|]. cbn. cbn in IH. by rewrite IH. Qed.

(** ** Batches *)

Definition ent_ok (e : RowEntity) : Prop :=
  - 2 ^ 31 ≤ rel_id e < 2 ^ 31 ∧ - 2 ^ 31 ≤ e_slice e < 2 ^ 31 ∧ e_key e ≠ [] ∧ e_val e ≠ [] ∧
  Align (4 + len (e_key e)) 8 + 4 + len (e_val e) ≤ 1024 ∧ len (e_key e) < 2 ^ 16.

Definition entity_vecs (e : RowEntity) : list (list Z) :=
  [le_split 8 (encoded_len e); le_split 4 (u32 (rel_id e)); le_split 4 (u32 (e_slice e)); le_split 2 (len (e_key e)); e_key e; e_val e].
Definition entity_bytes (e : RowEntity) : list Z := concat (entity_vecs e).

(** a row takes 6 vectors, so there are never exactly 4 left, which [EncodeIOVec] would
    accept for its 5 *)
Lemma send_object_ok e vec sent : len vec mod 6 = 0 → len vec ≤ 1020 → ∃ vec' sent', send_object e (vec, sent) = Ok (vec', sent') ∧
  len vec' mod 6 = 0 ∧ len vec' ≤ 1020 ∧
  ((vec' = vec ++ entity_vecs e ∧ sent' = sent) ∨ (vec' = entity_vecs e ∧ sent' = sent ++ [vec])).
Proof.
  intros Hm Hl. unfold send_object, EncodeIOVec, IOV_MAX. cbn [fst snd].
  pose proof (Z.div_mod (len vec) 6 ltac:(lia)) as Hd. rewrite Hm in Hd.
  rewrite (proj2 (Z.eqb_neq (len vec) 1024)) by lia. destruct (Z.ltb_spec (1024 - len vec - 1) 4) as [Hlt|Hge].
  - eexists _, _. split; [done|]. split; [done|]. split; [cbn; lia|]. by right.
  - change (len [_; _; _; _; _]) with 5.
    rewrite (proj2 (Z.leb_le (len vec + 1 + 5) 1024)) by lia. cbn [mbind result_bind]. eexists _, _. split; [done|].
    rewrite length_app, Nat2Z.inj_add. change (len (_ :: _)) with 6 at 1 2. split; [|split; [lia|by left]].
    rewrite <- Z.add_mod_idemp_l, Hm by lia. done.
Qed.

Lemma send_objects_ok es : ∀ vec sent, len vec mod 6 = 0 → len vec ≤ 1020 → ∃ vec' sent', for_each send_object es (vec, sent) = Ok (vec', sent') ∧
  concat (map (@concat Z) (sent' ++ [vec'])) = concat (map (@concat Z) (sent ++ [vec])) ++ flat_map entity_bytes es.
Proof.
  induction es as [|e es IH]; intros vec sent Hm Hl; cbn [for_each flat_map]; [eexists _, _; split; [done|]; by rewrite app_nil_r|].
  destruct (send_object_ok e vec sent Hm Hl) as (vec1 & sent1 & -> & Hm1 & Hl1 & Hcase). cbn [mbind result_bind].
  destruct (IH vec1 sent1 Hm1 Hl1) as (vec' & sent' & -> & Hc). eexists _, _. split; [done|]. rewrite Hc.
  destruct Hcase as [[-> ->]|[-> ->]]; rewrite !map_app, !concat_app; cbn [map concat]; rewrite ?app_nil_r, ?concat_app, <- !app_assoc; done.
Qed.

Lemma send_batch_bytes es : ∃ calls, send_batch es = Ok calls ∧ concat (map (@concat Z) calls) = flat_map entity_bytes es.
Proof.
  destruct (send_objects_ok es [] [] eq_refl ltac:(cbn; lia)) as (vec & sent & E & Hc). unfold send_batch. rewrite E. cbn [mbind result_bind].
  eexists. split; [done|]. exact Hc.
Qed.

(** ** The stream *)

(** an entity or a request for an acknowledgement *)
Definition item_bytes (o : option RowEntity) : list Z := match o with Some e => entity_bytes e | None => le_split 8 0 end.
Definition stream (items : list (option RowEntity)) : list Z := flat_map item_bytes items.
Definition item_ok (o : option RowEntity) : Prop := match o with Some e => ent_ok e | None => True end.

Lemma len_entity e : len (entity_bytes e) = 8 + encoded_len e.
Proof. unfold entity_bytes, entity_vecs, encoded_len. cbn [concat]. rewrite !length_app, !length_le_split. cbn [length]. lia. Qed.

Lemma i32_u32' x : - 2 ^ 31 ≤ x < 2 ^ 31 → i32 (le_combine (le_split 4 (u32 x))) = x.
Proof.
  intros Hx. rewrite le_combine_split by apply u32_range. unfold i32, u32. rewrite Z.add_mod_idemp_l by lia. rewrite Z.mod_small; lia.
Qed.

Lemma drop_front (n : nat) (a b : list Z) : length a = n → drop n (a ++ b) = b.
Proof. intros <-. apply drop_app_length. Qed.

Lemma drop_front2 (n : nat) (a b c : list Z) : (length a + length b)%nat = n → drop n (a ++ b ++ c) = c.
Proof. intros <-. rewrite app_assoc. apply drop_front. apply length_app. Qed.
Lemma drop_front3 (n : nat) (a b c d : list Z) : (length a + (length b + length c))%nat = n → drop n (a ++ b ++ c ++ d) = d.
Proof. intros <-. rewrite (app_assoc b), app_assoc. apply drop_front. by rewrite !length_app. Qed.

Lemma decode_entity e : ent_ok e → DecodeIOVec (drop 8 (entity_bytes e)) = Ok e.
Proof.
  intros (Hr & Hs & Hk & Hv & Hfit & Hkl). unfold entity_bytes, entity_vecs. cbn [concat]. rewrite app_nil_r.
  rewrite (drop_front 8) by apply length_le_split. unfold DecodeIOVec.
  assert (Hk0 : 0 < len (e_key e)) by (destruct (e_key e); [done|cbn; lia]).
  assert (Hv0 : 0 < len (e_val e)) by (destruct (e_val e); [done|cbn; lia]).
  rewrite (read_split 4). cbn [mbind result_bind]. rewrite (drop_front 4) by apply length_le_split. rewrite (read_split 4). cbn [mbind result_bind].
  rewrite (drop_front2 8) by (by rewrite !length_le_split).
  rewrite (read_split 2). cbn [mbind result_bind]. rewrite le_combine_split by (cbn; lia).
  rewrite (proj2 (Z.ltb_lt 0 (len (e_key e)))) by done. cbn [negb abort_if mbind result_bind].
  rewrite (drop_front3 10) by (by rewrite !length_le_split).
  rewrite read_bytes_app. cbn [mbind result_bind].
  set (all := le_split 4 _ ++ _). assert (Hall : len all = 10 + len (e_key e) + len (e_val e)).
  { unfold all. rewrite !length_app, !length_le_split. lia. }
  rewrite Hall. replace (10 + len (e_key e) + len (e_val e) - 10 - len (e_key e)) with (len (e_val e)) by lia.
  rewrite (proj2 (Z.ltb_lt 0 (len (e_val e)))) by done. cbn [negb abort_if mbind result_bind].
  assert (Hd : drop (Z.to_nat (10 + len (e_key e))) all = e_val e).
  { unfold all. rewrite !app_assoc. apply drop_front. rewrite !length_app, !length_le_split. lia. }
  rewrite Hd. rewrite <- (app_nil_r (e_val e)) at 2. rewrite read_bytes_app. cbn [mbind result_bind].
  rewrite (proj2 (Z.leb_le _ 1024)) by done. rewrite !i32_u32' by done. by destruct e.
Qed.

Lemma Receive_entity e rest fuel : ent_ok e → Receive (S fuel) (entity_bytes e ++ rest) = Ok (Some (e, rest)).
Proof.
  intros He. cbn [Receive]. pose proof (len_entity e) as Hl. assert (Hp : 0 < encoded_len e < 2 ^ 64).
  { destruct He as (_ & _ & _ & _ & Hf & Hk). unfold encoded_len. assert (0 ≤ Align (4 + len (e_key e)) 8) by apply u64_range. lia. }
  rewrite (proj2 (Z.ltb_ge _ 8)) by (rewrite length_app; lia).
  assert (Ht : take 8 (entity_bytes e ++ rest) = le_split 8 (encoded_len e)).
  { unfold entity_bytes, entity_vecs. cbn [concat]. rewrite <- app_assoc. rewrite take_app_le by (by rewrite length_le_split).
    rewrite take_ge; [done|]. by rewrite length_le_split. }
  rewrite Ht, le_combine_split by (change (8 * Z.of_nat 8) with 64; lia). rewrite (proj2 (Z.eqb_neq _ 0)) by lia.
  assert (Hd : drop 8 (entity_bytes e ++ rest) = drop 8 (entity_bytes e) ++ rest) by (rewrite drop_app_le; [done|lia]).
  rewrite Hd, (read_front _ _ (encoded_len e)) by (rewrite length_drop; lia). rewrite decode_entity by done. cbn [mbind result_bind].
  rewrite drop_front by lia. done.
Qed.
Lemma Receive_ack rest fuel : Receive (S fuel) (le_split 8 0 ++ rest) = Receive fuel rest.
Proof. cbn [Receive]. rewrite (proj2 (Z.ltb_ge _ 8)) by (rewrite length_app, length_le_split; lia). done. Qed.

Lemma Receive_items items : Forall item_ok items → ∀ fuel, (length items < fuel)%nat →
  (omap id items = [] ∧ Receive fuel (stream items) = Ok None) ∨
  ∃ e items', Receive fuel (stream items) = Ok (Some (e, stream items')) ∧ omap id items = e :: omap id items' ∧ Forall item_ok items' ∧ (length items' < length items)%nat.
Proof.
  induction 1 as [|o items Ho Hi IH]; intros fuel Hf; (destruct fuel as [|fuel]; [lia|]); [left; done|].
  cbn [stream flat_map length] in *. destruct o as [e|]; cbn [item_bytes].
  - right. exists e, items. rewrite Receive_entity by done. split; [done|]. split; [done|]. split; [done|lia].
  - rewrite Receive_ack. destruct (IH fuel ltac:(lia)) as [[? ?]|(e & items' & ? & ? & ? & ?)]; [by left|right]. exists e, items'. split_and!; try done. lia.
Qed.

Lemma stream_length items : (length items ≤ length (stream items))%nat.
Proof.
  induction items as [|[e|] items IH]; cbn [stream flat_map length item_bytes]; [done|..]; rewrite length_app; unfold stream in IH.
  - pose proof (len_entity e). unfold encoded_len in *. lia.
  - rewrite length_le_split. lia.
Qed.

Lemma receive_stream fuel : ∀ items, Forall item_ok items → (length items < fuel)%nat → receive_all fuel (stream items) = Ok (omap id items).
Proof.
  induction fuel as [|fuel IH]; intros items Hi Hf; [lia|]. cbn [receive_all].
  pose proof (stream_length items). destruct (Receive_items items Hi (S (length (stream items)))) as [[-> ->]|(e & items' & -> & -> & Hi' & Hl)]; [lia|done|].
  cbn [mbind result_bind]. rewrite IH; [done|done|lia].
Qed.

(** ** The whole shipment *)

Section Ship.
Context (ShouldSkip : RowEntity → bool).

Lemma run_send_nil : RunSend ShouldSkip [] = Ok None.
Proof using Type. unfold RunSend. cbn [length Nat.sub drop rev]. by rewrite drop_nil. Qed.

Lemma ship_all_stream fuel : ∀ queue, (length queue < fuel)%nat → Forall ent_ok queue →
  ∃ items, ship_all ShouldSkip fuel queue = Ok (stream items) ∧ Forall item_ok items ∧
    omap id items = filter (fun e => ShouldSkip e = false) (rev queue).
Proof using Type.
  induction fuel as [|fuel IH]; intros queue Hf Hok; [lia|]. cbn [ship_all].
  destruct queue as [|x q0] eqn:Eq; [rewrite run_send_nil; by exists []|]. rewrite <- Eq in *. unfold RunSend.
  set (n := Nat.min (Z.to_nat kSendBatch) (length queue)).
  assert (Hb : (1 ≤ Z.to_nat kSendBatch)%nat) by (unfold kSendBatch, IOV_MAX; lia).
  assert (Hn : (1 ≤ n ≤ length queue)%nat) by (unfold n; generalize dependent (Z.to_nat kSendBatch); intros; rewrite Eq; cbn [length]; lia).
  set (obj := rev (drop (length queue - n) queue)).
  assert (Hobj : obj ≠ []).
  { intros E. apply (f_equal length) in E. unfold obj in E. rewrite length_rev, length_drop in E. cbn in E. lia. }
  destruct obj as [|y l] eqn:Eo; [done|]. rewrite <- Eo in *. clear Hobj.
  destruct (send_batch_bytes (filter (fun e => ShouldSkip e = false) obj)) as (calls & -> & Hc). cbn [mbind result_bind].
  destruct (IH (take (length queue - n) queue)) as (items & -> & Hi & Hom); [rewrite length_take; lia|by apply Forall_take|]. cbn [mbind result_bind].
  exists (map Some (filter (fun e => ShouldSkip e = false) obj) ++ [None] ++ items). split; [|split].
  - rewrite Hc. unfold stream. rewrite !flat_map_app. f_equal. f_equal.
    generalize (filter (fun e => ShouldSkip e = false) obj). intros es. induction es as [|e es IHe]; [done|]. cbn. by rewrite IHe.
  - apply Forall_app. split; [|constructor; done]. apply Forall_fmap, Forall_forall. intros e He. apply list_elem_of_filter in He as [_ He].
    rewrite Forall_forall in Hok. apply Hok. unfold obj in He. apply list_elem_of_In, in_rev, list_elem_of_In in He.
    rewrite <- (take_drop (length queue - n) queue). apply elem_of_app. by right.
  - rewrite !omap_app. cbn [omap list_omap id]. rewrite Hom.
    assert (Hs : ∀ es : list RowEntity, omap id (map Some es) = es) by (intros es; induction es as [|e es IHe]; [done|]; cbn; by rewrite IHe).
    rewrite Hs. cbn. rewrite <- filter_app. f_equal. unfold obj. rewrite <- rev_app_distr. by rewrite take_drop.
Qed.
End Ship.


