(* ===== verification/ReadyQueue.v ===== *)
(** The ready queue of a core's coroutine scheduler (coro_sched.cpp
    [CoroSched::ReadyQueue]): a list of nodes with a head that is changed by
    compare-and-swap. Any thread adds coroutines, and nodes come from a brk that is
    not reused before the next reset. A step is one access to shared memory; writes
    to a node that is not published yet belong to the access before them. *)

From S2P Require Import Prelude.

(** ** State *)

(** [ListNode]; the null pointer is 0 *)
Record ListNode := mkNode { n_coro : Z; n_next : Z }.

Definition kListNodeBrkSize : Z := 16 * 1024 * 1024.
Definition kListNodeSize : Z := 16.

(** where a call of [Add] or [Pop] stands *)
Inductive Pc :=
| AddStart (co : Z)
| AddHead (node : Z)                 (* before it reads [list_head] *)
| AddCas (node old_head : Z)         (* before the compare-and-swap *)
| AddDone
| PopStart
| PopNext (old_head : Z)             (* before it reads [old_head->next] *)
| PopCas (old_head new_head : Z)
| PopRead (old_head : Z)             (* before it reads [old_head->coro] *)
| PopDone (r : option Z).

(** what a call does to the queue; [history] notes it, the last one first *)
Inductive StackOp := Push (co : Z) | Take (r : option Z).

Record RQ := mkRQ {
  curr_ptr : Z;
  list_head : Z;
  nodes : Z → ListNode;
  at_pc : Z → Pc;
  history : list (Z * StackOp);
}.

(** ** Operations *)

Section Steps.
Context (base_ptr : Z).

(** [ConcurrentBrk::Alloc]: the address and the new top *)
Definition brk_Alloc (curr alloc_size : Z) : result (Z * Z) :=
  _ ← abort_if (kListNodeBrkSize <=? curr + alloc_size - base_ptr);
  Ok (curr, curr + alloc_size).

(** a step of a call of [Add] *)
Definition add_step (t : Z) (p : Pc) (s : RQ) : result RQ :=
  match p with
  | AddStart co =>
      '(node, curr) ← brk_Alloc (curr_ptr s) kListNodeSize;
      Ok (mkRQ curr (list_head s) (<[node := mkNode co (n_next (nodes s node))]> (nodes s))
            (<[t := AddHead node]> (at_pc s)) (history s))
  | AddHead node =>
      let old := list_head s in
      Ok (mkRQ (curr_ptr s) old (<[node := mkNode (n_coro (nodes s node)) old]> (nodes s))
            (<[t := AddCas node old]> (at_pc s)) (history s))
  | AddCas node old =>
      if list_head s =? old then
        Ok (mkRQ (curr_ptr s) node (nodes s) (<[t := AddDone]> (at_pc s)) ((t, Push (n_coro (nodes s node))) :: history s))
      else
        let old := list_head s in
        Ok (mkRQ (curr_ptr s) old (<[node := mkNode (n_coro (nodes s node)) old]> (nodes s))
              (<[t := AddCas node old]> (at_pc s)) (history s))
  | _ => Err Blocked
  end.

(** a step of a call of [Pop] *)
Definition pop_step (t : Z) (p : Pc) (s : RQ) : result RQ :=
  let go q := Ok (mkRQ (curr_ptr s) (list_head s) (nodes s) (<[t := q]> (at_pc s)) (history s)) in
  match p with
  | PopStart =>
      if list_head s =? 0 then
        Ok (mkRQ (curr_ptr s) (list_head s) (nodes s) (<[t := PopDone None]> (at_pc s)) ((t, Take None) :: history s))
      else go (PopNext (list_head s))
  | PopNext old => go (PopCas old (n_next (nodes s old)))
  | PopCas old new =>
      if list_head s =? old then
        Ok (mkRQ (curr_ptr s) new (nodes s) (<[t := PopRead old]> (at_pc s)) ((t, Take (Some (n_coro (nodes s old)))) :: history s))
      else go PopStart
  | PopRead old => go (PopDone (Some (n_coro (nodes s old))))
  | _ => Err Blocked
  end.

Definition step (t : Z) (s : RQ) : result RQ :=
  match at_pc s t with
  | AddStart _ | AddHead _ | AddCas _ _ | AddDone => add_step t (at_pc s t) s
  | _ => pop_step t (at_pc s t) s
  end.
End Steps.

(** ** The stack it implements *)

Definition stack_op (o : StackOp) (st : list Z) : option (list Z) :=
  match o, st with
  | Push co, _ => Some (co :: st)
  | Take None, [] => Some []
  | Take (Some co), x :: st => if x =? co then Some st else None
  | _, _ => None
  end.
Definition stack_run (ops : list StackOp) : option (list Z) := foldr (fun o st => st ← st; stack_op o st) (Some []) ops.

(** the nodes from [h] on *)
Fixpoint chain (m : Z → ListNode) (h : Z) (l : list Z) : Prop :=
  match l with [] => h = 0 | p :: l => h = p ∧ p ≠ 0 ∧ chain m (n_next (m p)) l end.

Section Queue.
(** [n] calls, each an [Add] of a coroutine or a [Pop] *)
Context (base_ptr n : Z) (calls : Z → option Z).

Definition rq_initial : RQ :=
  mkRQ base_ptr 0 (fun _ => mkNode 0 0) (fun t => match calls t with Some co => AddStart co | None => PopStart end) [].

Inductive rq_reachable : RQ → Prop :=
| rq_init : rq_reachable rq_initial
| rq_step s t s' : rq_reachable s → 0 ≤ t < n → step base_ptr t s = Ok s' → rq_reachable s'.

(** the node a call of [Add] has not published yet, the node a call of [Pop] looks at *)
Definition private (p : Pc) : option Z := match p with AddHead nd | AddCas nd _ => Some nd | _ => None end.
Definition looked_at (p : Pc) : option Z := match p with PopNext o | PopCas o _ | PopRead o => Some o | _ => None end.
Definition allocated (p : Pc) : Z := match p with AddHead _ | AddCas _ _ | AddDone => 1 | _ => 0 end.

Definition history_of (t : Z) (h : list (Z * StackOp)) : list StackOp := (filter (fun e => e.1 = t) h).*2.
Arguments history_of : simpl never.

(** what a call has done so far *)
Definition call_ok (t : Z) (s : RQ) : Prop :=
  match at_pc s t with
  | AddStart co => calls t = Some co ∧ history_of t (history s) = []
  | AddHead nd => calls t = Some (n_coro (nodes s nd)) ∧ history_of t (history s) = []
  | AddCas nd old => calls t = Some (n_coro (nodes s nd)) ∧ n_next (nodes s nd) = old ∧ history_of t (history s) = []
  | AddDone => ∃ co, calls t = Some co ∧ history_of t (history s) = [Push co]
  | PopStart | PopNext _ => calls t = None ∧ history_of t (history s) = []
  | PopCas old new => calls t = None ∧ history_of t (history s) = [] ∧ n_next (nodes s old) = new
  | PopRead old => calls t = None ∧ history_of t (history s) = [Take (Some (n_coro (nodes s old)))]
  | PopDone r => calls t = None ∧ history_of t (history s) = [Take r]
  end.

Record RInv (s : RQ) (l : list Z) : Prop := {
  ri_chain : chain (nodes s) (list_head s) l;
  ri_nodup : NoDup l;
  ri_nodes : ∀ p, p ∈ l → base_ptr ≤ p < curr_ptr s;
  ri_private : ∀ t p, private (at_pc s t) = Some p → base_ptr ≤ p < curr_ptr s ∧ p ∉ l;
  ri_owner : ∀ t u p, private (at_pc s t) = Some p → private (at_pc s u) = Some p → t = u;
  ri_looked : ∀ t p, looked_at (at_pc s t) = Some p → base_ptr ≤ p < curr_ptr s ∧ ∀ u, private (at_pc s u) ≠ Some p;
  ri_stack : stack_run (history s).*2 = Some ((fun p => n_coro (nodes s p)) <$> l);
  ri_calls : ∀ t, call_ok t s;
  ri_curr : curr_ptr s = base_ptr + kListNodeSize * sum_over (fun t => allocated (at_pc s t)) (seqZ 0 n);
}.

(** ** Preservation *)

Context (Hbase : 0 < base_ptr).

Lemma chain_ext m m' h l : (∀ p, p ∈ l → m' p = m p) → chain m h l → chain m' h l.
Proof using Type.
  revert h. induction l as [|p l IH]; intros h He; cbn [chain]; [done|]. intros (-> & Hp & Hc). split; [done|]. split; [done|].
  rewrite He by left. apply IH; [|done]. intros q Hq. apply He. by right.
Qed.

Lemma insert_but (m : Z → ListNode) nd x p : (<[nd := x]> m) p = m p ∨ p = nd.
Proof using Type. destruct (decide (p = nd)); [by right|left; by rewrite fn_lookup_insert_ne]. Qed.

Lemma history_of_cons t u o h : history_of t ((u, o) :: h) = if decide (u = t) then o :: history_of t h else history_of t h.
Proof using Type. unfold history_of. rewrite filter_cons. cbn [fst]. by case_decide. Qed.

Lemma call_ok_other u s s' :
  at_pc s' u = at_pc s u → history_of u (history s') = history_of u (history s) →
  (∀ p, private (at_pc s u) = Some p ∨ looked_at (at_pc s u) = Some p → nodes s' p = nodes s p) →
  call_ok u s → call_ok u s'.
Proof using Type.
  unfold call_ok. intros Ep Eh En. rewrite Ep, Eh. destruct (at_pc s u); cbn in *; try done;
    (rewrite (En _ (or_introl eq_refl)) || rewrite (En _ (or_intror eq_refl)); done).
Qed.

Lemma sum_allocated s t q : 0 ≤ t < n →
  sum_over (fun u => allocated ((<[t := q]> (at_pc s)) u)) (seqZ 0 n) =
  sum_over (fun u => allocated (at_pc s u)) (seqZ 0 n) + (allocated q - allocated (at_pc s t)).
Proof using Type.
  intros Ht. rewrite (sum_over_update (fun u => allocated (at_pc s u)) _ (seqZ 0 n) t).
  - by rewrite fn_lookup_insert.
  - apply NoDup_seqZ.
  - apply elem_of_seqZ. lia.
  - intros u _ Hu. by rewrite fn_lookup_insert_ne.
Qed.

(** a step that publishes nothing: it may write to a node nobody else knows *)
Lemma quiet_inv s l t q curr m nd : RInv s l → 0 ≤ t < n →
  curr_ptr s ≤ curr → curr = curr_ptr s + kListNodeSize * (allocated q - allocated (at_pc s t)) →
  (∀ p, m p = nodes s p ∨ p = nd) →
  (m = nodes s ∨ nd ∉ l ∧ ∀ u, u ≠ t → private (at_pc s u) ≠ Some nd ∧ looked_at (at_pc s u) ≠ Some nd) →
  (∀ p, private q = Some p → base_ptr ≤ p < curr ∧ p ∉ l ∧ ∀ u, u ≠ t → private (at_pc s u) ≠ Some p ∧ looked_at (at_pc s u) ≠ Some p) →
  (∀ p, looked_at q = Some p → base_ptr ≤ p < curr ∧ ∀ u, u ≠ t → private (at_pc s u) ≠ Some p) →
  let s' := mkRQ curr (list_head s) m (<[t := q]> (at_pc s)) (history s) in
  call_ok t s' → RInv s' l.
Proof using Type.
  intros H Ht Hle Hc Hm Hnd Hpr Hlk s' Hok.
  assert (Hn : ∀ p, p ∈ l ∨ (∃ u, u ≠ t ∧ (private (at_pc s u) = Some p ∨ looked_at (at_pc s u) = Some p)) → nodes s' p = nodes s p).
  { intros p Hp. cbn. destruct Hnd as [->|[H1 H2]]; [done|]. destruct (Hm p) as [?| ->]; [done|]. destruct Hp as [Hp|(u & Hu & Hp)]; [done|].
    destruct (H2 u Hu), Hp; done. }
  subst s'. destruct H as [H1 H2 H3 H4 H5 H6 H7 H8 H9]. split; cbn [nodes curr_ptr list_head at_pc history] in *.
  - apply (chain_ext (nodes s)); [|done]. intros p Hp. apply Hn. by left.
  - done.
  - intros p Hp. specialize (H3 p Hp). lia.
  - intros u p Hu. destruct (decide (u = t)) as [->|Hne].
    + rewrite fn_lookup_insert in Hu. by destruct (Hpr p Hu) as (? & ? & _).
    + rewrite fn_lookup_insert_ne in Hu by done. destruct (H4 u p Hu). split; [lia|done].
  - intros u v p Hu Hv. destruct (decide (u = t)) as [->|Hu'], (decide (v = t)) as [->|Hv']; [done|..].
    + rewrite fn_lookup_insert in Hu. rewrite fn_lookup_insert_ne in Hv by done. destruct (Hpr p Hu) as (_ & _ & Hx). by destruct (Hx v Hv').
    + rewrite fn_lookup_insert in Hv. rewrite fn_lookup_insert_ne in Hu by done. destruct (Hpr p Hv) as (_ & _ & Hx). by destruct (Hx u Hu').
    + rewrite fn_lookup_insert_ne in Hu, Hv by done.
      by apply (H5 u v p).
  - intros u p Hu. destruct (decide (u = t)) as [->|Hne].
    + rewrite fn_lookup_insert in Hu. destruct (Hlk p Hu) as [Hr Hx]. split; [done|]. intros v. destruct (decide (v = t)) as [->|Hv].
      * rewrite fn_lookup_insert. by destruct q.
      * rewrite fn_lookup_insert_ne by done. by apply Hx.
    + rewrite fn_lookup_insert_ne in Hu by done. destruct (H6 u p Hu) as [Hr Hx]. split; [lia|]. intros v.
      destruct (decide (v = t)) as [->|Hv]; [|by rewrite fn_lookup_insert_ne].
      rewrite fn_lookup_insert. intros Hq. destruct (Hpr p Hq) as (_ & _ & Hy). by destruct (Hy u Hne).
  - rewrite H7. f_equal. apply list_fmap_ext. intros i p Hp. symmetry. f_equal. apply Hn. left. by apply list_elem_of_lookup_2 in Hp.
  - intros u. destruct (decide (u = t)) as [->|Hne]; [done|]. apply (call_ok_other u s); [by cbn; rewrite fn_lookup_insert_ne|done| |done].
    intros p Hp. apply Hn. right. by exists u.
  - rewrite sum_allocated by done. lia.
Qed.

(** a step that changes the queue: the call [t] then owns no node *)
Lemma effect_inv s l t q h l' o : RInv s l → 0 ≤ t < n →
  private q = None → allocated q = allocated (at_pc s t) →
  (∀ p, looked_at q = Some p → looked_at (at_pc s t) = Some p) →
  chain (nodes s) h l' → NoDup l' →
  (∀ p, p ∈ l' → p ∈ l ∨ private (at_pc s t) = Some p) →
  stack_op o ((fun p => n_coro (nodes s p)) <$> l) = Some ((fun p => n_coro (nodes s p)) <$> l') →
  let s' := mkRQ (curr_ptr s) h (nodes s) (<[t := q]> (at_pc s)) ((t, o) :: history s) in
  call_ok t s' → RInv s' l'.
Proof using Type.
  intros H Ht Hq Ha Hl Hch Hnd Hin Ho s' Hok. subst s'. destruct H as [H1 H2 H3 H4 H5 H6 H7 H8 H9].
  assert (Hpr : ∀ u p, private (<[t := q]> (at_pc s) u) = Some p → u ≠ t ∧ private (at_pc s u) = Some p).
  { intros u p Hu. destruct (decide (u = t)) as [->|]; [by rewrite fn_lookup_insert, Hq in Hu|by rewrite fn_lookup_insert_ne in Hu]. }
  split; cbn [nodes curr_ptr list_head at_pc history].
  - done.
  - done.
  - intros p Hp. destruct (Hin p Hp) as [Hx|Hx]; [by apply H3|by apply (H4 t)].
  - intros u p Hu. destruct (Hpr u p Hu) as [Hne Hu']. destruct (H4 u p Hu') as [Hr Hx]. split; [done|]. intros Hp.
    destruct (Hin p Hp) as [|Hy]; [done|]. by apply Hne, (H5 u t p).
  - intros u v p Hu Hv. apply (H5 u v p); [by apply Hpr|by apply Hpr].
  - intros u p Hu. assert (Hx : looked_at (at_pc s u) = Some p).
    { destruct (decide (u = t)) as [->|]; [rewrite fn_lookup_insert in Hu; by apply Hl|by rewrite fn_lookup_insert_ne in Hu]. }
    destruct (H6 u p Hx) as [Hr Hy]. split; [done|]. intros v Hv. apply Hpr in Hv as [_ Hv]. by apply (Hy v).
  - rewrite fmap_cons. unfold stack_run in *. cbn [foldr snd]. rewrite H7. exact Ho.
  - intros u. destruct (decide (u = t)) as [->|Hne]; [done|]. apply (call_ok_other u s).
    + cbn. by rewrite fn_lookup_insert_ne.
    + cbn. rewrite history_of_cons, decide_False; [done|congruence].
    + done.
    + done.
  - rewrite sum_allocated by done. lia.
Qed.

Lemma add_step_inv s l t s' : RInv s l → 0 ≤ t < n → add_step base_ptr t (at_pc s t) s = Ok s' → ∃ l', RInv s' l'.
Proof using Hbase.
  intros H Ht E. pose proof (ri_calls _ _ H t) as Hok. unfold call_ok in Hok.
  assert (Hother : ∀ p, private (at_pc s t) = Some p → ∀ u, u ≠ t → private (at_pc s u) ≠ Some p ∧ looked_at (at_pc s u) ≠ Some p).
  { intros p Hp u Hu. split; intros Hx; [by apply Hu, (ri_owner _ _ H u t p)|by destruct (ri_looked _ _ H u p Hx) as [_ Hy]; apply (Hy t)]. }
  assert (Hfresh : ∀ u, private (at_pc s u) ≠ Some (curr_ptr s) ∧ looked_at (at_pc s u) ≠ Some (curr_ptr s)).
  { intros u. split; intros Hx; [destruct (ri_private _ _ H _ _ Hx)|destruct (ri_looked _ _ H _ _ Hx)]; lia. }
  unfold add_step in E. destruct (at_pc s t) as [co|nd|nd old| | | | | |] eqn:Ep; try done; cbn [private] in Hother.
  - unfold brk_Alloc in E. inv_ok. exists l. destruct Hok as [Hc Hh]. apply (quiet_inv s l t _ _ _ (curr_ptr s)); try done.
    + unfold kListNodeSize. lia.
    + rewrite Ep. cbn. lia.
    + apply insert_but.
    + right. split; [|done]. intros Hx. pose proof (ri_nodes _ _ H _ Hx). lia.
    + intros p [= <-]. split; [|split; [|done]].
      * pose proof (ri_curr _ _ H). unfold kListNodeSize. split; [|lia].
        assert (0 ≤ sum_over (fun t => allocated (at_pc s t)) (seqZ 0 n)); [|unfold kListNodeSize in *; lia].
        apply sum_over_nonneg. intros x _. by destruct (at_pc s x).
      * intros Hx. pose proof (ri_nodes _ _ H _ Hx). lia.
    + unfold call_ok. cbn. rewrite !fn_lookup_insert. cbn. by rewrite ?fn_lookup_insert.
  - injection E as <-. exists l. destruct Hok as [Hc Hh]. destruct (ri_private _ _ H t nd) as [Hr Hx]; [by rewrite Ep|].
    apply (quiet_inv s l t _ _ _ nd); try done; rewrite ?Ep; cbn.
    + lia.
    + apply insert_but.
    + right. split; [done|]. by apply Hother.
    + intros p [= <-]. split; [done|]. split; [done|]. by apply Hother.
    + unfold call_ok. cbn. rewrite !fn_lookup_insert. cbn. by rewrite ?fn_lookup_insert.
  - destruct Hok as (Hc & Hnx & Hh). destruct (ri_private _ _ H t nd) as [Hr Hx]; [by rewrite Ep|].
    destruct (Z.eqb_spec (list_head s) old) as [E0|_]; injection E as <-.
    + exists (nd :: l). apply (effect_inv s l); try done; rewrite ?Ep; try done.
      * cbn. split; [done|]. split; [lia|]. rewrite Hnx, <- E0. apply (ri_chain _ _ H).
      * constructor; [done|]. apply (ri_nodup _ _ H).
      * intros p [->|Hp]%elem_of_cons; [by right|by left].
      * unfold call_ok. cbn. rewrite fn_lookup_insert. exists (n_coro (nodes s nd)). by rewrite history_of_cons, decide_True, Hh.
    + exists l. apply (quiet_inv s l t _ _ _ nd); try done; rewrite ?Ep; cbn.
      * lia.
      * apply insert_but.
      * right. split; [done|]. by apply Hother.
      * intros p [= <-]. split; [done|]. split; [done|]. by apply Hother.
      * unfold call_ok. cbn. rewrite !fn_lookup_insert. cbn. by rewrite ?fn_lookup_insert.
Qed.

Lemma pop_step_inv s l t s' : RInv s l → 0 ≤ t < n → pop_step t (at_pc s t) s = Ok s' → ∃ l', RInv s' l'.
Proof using Hbase.
  intros H Ht E. pose proof (ri_calls _ _ H t) as Hok. unfold call_ok in Hok.
  assert (Hgo : ∀ q, private q = None → allocated q = allocated (at_pc s t) →
    (∀ p, looked_at q = Some p → base_ptr ≤ p < curr_ptr s ∧ ∀ u, private (at_pc s u) ≠ Some p) →
    let s' := mkRQ (curr_ptr s) (list_head s) (nodes s) (<[t := q]> (at_pc s)) (history s) in
    call_ok t s' → ∃ l', RInv s' l').
  { intros q Hq Ha Hlk s1 Hc. exists l. apply (quiet_inv s l t q _ _ 0); try done; [lia|by left|by left|by rewrite Hq|].
    intros p Hp. destruct (Hlk p Hp) as [Hr Hx]. split; [done|]. intros u _. apply Hx. }
  unfold pop_step in E. destruct (at_pc s t) as [| | | | |old|old new|old|] eqn:Ep; try done.
  - destruct Hok as [Hc Hh]. destruct l as [|p l].
    + pose proof (ri_chain _ _ H) as Hch. cbn in Hch. destruct (Z.eqb_spec (list_head s) 0); [|done]. injection E as <-. exists [].
      apply (effect_inv s []); try done; rewrite ?Ep; try done; [constructor|intros p Hp; by apply elem_of_nil in Hp|].
      unfold call_ok. cbn. rewrite fn_lookup_insert. by rewrite history_of_cons, decide_True, Hh.
    + destruct (ri_chain _ _ H) as (Eh & Hp & _). destruct (Z.eqb_spec (list_head s) 0); [congruence|]. injection E as <-.
      apply Hgo; try done.
      * intros x Hx. injection Hx as <-. rewrite Eh. split; [apply (ri_nodes _ _ H); left|]. intros u Hu.
        destruct (ri_private _ _ H u p Hu) as [_ Hy]. apply Hy. left.
      * unfold call_ok. cbn. by rewrite fn_lookup_insert.
  - destruct Hok as [Hc Hh]. injection E as <-. apply Hgo; try done.
    + intros x Hx. apply (ri_looked _ _ H t). by rewrite Ep.
    + unfold call_ok. cbn. by rewrite fn_lookup_insert.
  - destruct Hok as (Hc & Hh & Hn). destruct (ri_looked _ _ H t old) as [Hr Hx]; [by rewrite Ep|].
    destruct (Z.eqb_spec (list_head s) old) as [E0|_]; injection E as <-.
    + pose proof (ri_chain _ _ H) as Hch. pose proof (ri_nodup _ _ H) as Hnd. destruct l as [|p l]; cbn in Hch; [lia|].
      destruct Hch as (Eh & Hp & Hch). assert (p = old) as -> by congruence. exists l. apply NoDup_cons in Hnd as [_ Hnd].
      apply (effect_inv s (old :: l)); try done; rewrite ?Ep; try done; [by rewrite <- Hn|by left; right|cbn; by rewrite Z.eqb_refl|].
      unfold call_ok. cbn. rewrite fn_lookup_insert. by rewrite history_of_cons, decide_True, Hh.
    + apply Hgo; try done. unfold call_ok. cbn. by rewrite fn_lookup_insert.
  - destruct Hok as [Hc Hh]. injection E as <-. apply Hgo; try done. unfold call_ok. cbn. by rewrite fn_lookup_insert.
Qed.

Lemma rq_reachable_inv s : rq_reachable s → ∃ l, RInv s l.
Proof using Hbase.
  induction 1 as [|s t s' _ [l IH] Ht E].
  - exists []. assert (Hp : ∀ t, private (at_pc rq_initial t) = None ∧ looked_at (at_pc rq_initial t) = None ∧ allocated (at_pc rq_initial t) = 0).
    { intros t. cbn. by destruct (calls t). }
    split; cbn -[rq_initial] in *; try done; try (by constructor).
    + intros p Hx. by apply elem_of_nil in Hx.
    + intros t p. by rewrite (proj1 (Hp t)).
    + intros t u p. by rewrite (proj1 (Hp t)).
    + intros t p. by rewrite (proj1 (proj2 (Hp t))).
    + intros t. unfold call_ok. cbn. by destruct (calls t) eqn:Ec; rewrite ?Ec.
    + rewrite (sum_over_ext _ (fun _ => 0)), sum_over_const; [cbn; lia|]. intros t _. apply Hp.
  - unfold step in E. destruct (at_pc s t) eqn:Ep; rewrite <- Ep in E;
      first [by apply (add_step_inv s l t)|by apply (pop_step_inv s l t)].
Qed.

(** ** Termination *)

(** the steps a call has left if nobody else changes the queue; whether it has had its effect *)
Definition weight (h : Z) (p : Pc) : Z :=
  match p with
  | AddStart _ => 4 | AddHead _ => 3 | AddCas _ old => if old =? h then 1 else 2 | AddDone => 0
  | PopStart => 3 | PopNext old => if old =? h then 2 else 5 | PopCas old _ => if old =? h then 1 else 4
  | PopRead _ => 1 | PopDone _ => 0
  end.
Definition opened (p : Pc) : Z := match p with AddDone | PopRead _ | PopDone _ => 0 | _ => 1 end.

Lemma weight_bounds h p : 0 ≤ weight h p ≤ 5.
Proof using Type. destruct p; cbn; try destruct (_ =? h); lia. Qed.

Lemma step_kind t s s' : step base_ptr t s = Ok s' → ∃ q, at_pc s' = <[t := q]> (at_pc s) ∧
  (list_head s' = list_head s ∧ opened q = opened (at_pc s t) ∧ weight (list_head s) q < weight (list_head s) (at_pc s t) ∨
   opened q + 1 = opened (at_pc s t)).
Proof using Type.
  intros E. unfold step in E. destruct (at_pc s t) as [co|nd|nd old| | |old|old new|old|] eqn:Ep;
    cbn [add_step pop_step] in E; unfold brk_Alloc in E; try done.
  - inv_ok. eexists. split; [done|]. left. done.
  - inv_ok. eexists. split; [done|]. left. cbn. rewrite Z.eqb_refl. done.
  - destruct (Z.eqb_spec (list_head s) old) as [->|]; inv_ok; eexists; (split; [done|]); [by right|left].
    cbn. rewrite Z.eqb_refl. destruct (Z.eqb_spec old (list_head s)); [congruence|done].
  - destruct (list_head s =? 0); inv_ok; eexists; (split; [done|]); [by right|left]. cbn. by rewrite Z.eqb_refl.
  - inv_ok. eexists. split; [done|]. left. cbn. destruct (old =? list_head s); done.
  - destruct (Z.eqb_spec (list_head s) old) as [->|]; inv_ok; eexists; (split; [done|]); [by right|left].
    cbn. destruct (Z.eqb_spec old (list_head s)); [congruence|done].
  - inv_ok. eexists. split; [done|]. by left.
Qed.

Definition measure (s : RQ) : Z :=
  6 * n * sum_over (fun t => opened (at_pc s t)) (seqZ 0 n) + sum_over (fun t => weight (list_head s) (at_pc s t)) (seqZ 0 n).

Lemma measure_step t s s' : 0 ≤ t < n → step base_ptr t s = Ok s' → 0 ≤ measure s' < measure s.
Proof using Type.
  intros Ht E. destruct (step_kind t s s' E) as (q & Eq & Hk). unfold measure.
  assert (Hw : ∀ s, 0 ≤ sum_over (fun t => weight (list_head s) (at_pc s t)) (seqZ 0 n) ≤ 5 * n).
  { intros s0. split; [apply sum_over_nonneg; intros; apply weight_bounds|].
    replace (5 * n) with (sum_over (fun _ => 5) (seqZ 0 n)) by (rewrite sum_over_const, length_seqZ; lia).
    apply sum_over_le. intros. apply weight_bounds. }
  assert (Ho : ∀ s, 0 ≤ sum_over (fun t => opened (at_pc s t)) (seqZ 0 n)).
  { intros s0. apply sum_over_nonneg. intros x _. by destruct (at_pc s0 x). }
  pose proof (Hw s) as Hw1. pose proof (Hw s') as Hw2. pose proof (Ho s') as Ho2. split; [nia|].
  assert (Es : sum_over (fun u => opened (at_pc s' u)) (seqZ 0 n) =
    sum_over (fun u => opened (at_pc s u)) (seqZ 0 n) + (opened (at_pc s' t) - opened (at_pc s t))).
  { apply (sum_over_update (fun u => opened (at_pc s u)) (fun u => opened (at_pc s' u))); [apply NoDup_seqZ|apply elem_of_seqZ; lia|by intros u _ Hu; rewrite Eq, fn_lookup_insert_ne]. }
  rewrite Es in Ho2 |- *. clear Es. assert (Et : at_pc s' t = q) by by rewrite Eq, fn_lookup_insert.
  rewrite Et in Ho2 |- *. destruct Hk as [(Eh & Eo & Hlt)|Eo]; [|nia].
  rewrite (sum_over_update (fun u => weight (list_head s) (at_pc s u)) (fun u => weight (list_head s') (at_pc s' u)) (seqZ 0 n) t);
    [cbn beta; rewrite Et, Eh; lia|apply NoDup_seqZ|apply elem_of_seqZ; lia|by intros u _ Hu; rewrite Eh, Eq, fn_lookup_insert_ne].
Qed.

Lemma rq_steps_acc s : Acc (fun s' s => ∃ t, 0 ≤ t < n ∧ step base_ptr t s = Ok s') s.
Proof using Type.
  remember (measure s) as w eqn:Hw. revert s Hw. induction w as [w IH] using (well_founded_induction (Z.lt_wf 0)).
  intros s Hw. constructor. intros s' (t & Ht & E). apply (IH (measure s')); [|done]. subst w. by apply (measure_step t).
Qed.

Definition rq_returned (p : Pc) : bool := match p with AddDone | PopDone _ => true | _ => false end.

Lemma step_returned t s : 0 ≤ t < n → (∃ l, RInv s l) → kListNodeSize * n < kListNodeBrkSize → rq_returned (at_pc s t) = false →
  ∃ s', step base_ptr t s = Ok s'.
Proof using Type.
  intros Ht [l H] Hn Hr. unfold step. destruct (at_pc s t) as [co|nd|nd old| | |old|old new|old|] eqn:Ep; try done; cbn [add_step pop_step].
  - unfold brk_Alloc. rewrite (ri_curr _ _ H).
    assert (Hle : sum_over (fun t => allocated (at_pc s t)) (seqZ 0 n) ≤ n - 1).
    { transitivity (sum_over (fun u => if u =? t then 0 else 1) (seqZ 0 n)).
      - apply sum_over_le. intros u _. destruct (Z.eqb_spec u t) as [->|]; [by rewrite Ep|]. by destruct (at_pc s u).
      - rewrite (sum_over_update (fun _ => 1) _ (seqZ 0 n) t); [|apply NoDup_seqZ|apply elem_of_seqZ; lia|].
        + rewrite sum_over_const, length_seqZ, Z.eqb_refl. lia.
        + intros u _ Hu. by destruct (Z.eqb_spec u t). }
    unfold kListNodeSize in *. unfold abort_if. zcase; [lia|]. cbn. by eexists.
  - by eexists.
  - destruct (_ =? _); by eexists.
  - destruct (_ =? _); by eexists.
  - by eexists.
  - destruct (_ =? _); by eexists.
  - by eexists.
Qed.
End Queue.

(** ** Theorems *)

(** C27. The ready queue is a stack for all its callers: whatever the interleaving of
    the calls of [Add] and [Pop], the effects of the calls, in the order in which
    they take place, are a run of a sequential stack whose content is the list of
    nodes from the head on; a call that has returned has had exactly its one effect,
    a [Pop] that of its result; and no node is reused, so that no compare-and-swap
    succeeds on a stale head. *)
Theorem ready_queue_is_stack base_ptr n calls s : 0 < base_ptr → rq_reachable base_ptr n calls s →
  ∃ l, chain (nodes s) (list_head s) l ∧ NoDup l ∧
  stack_run (history s).*2 = Some ((fun p => n_coro (nodes s p)) <$> l) ∧
  ∀ t, match at_pc s t with
       | AddDone => ∃ co, calls t = Some co ∧ history_of t (history s) = [Push co]
       | PopDone r => calls t = None ∧ history_of t (history s) = [Take r]
       | _ => (length (history_of t (history s)) ≤ 1)%nat
       end.
Proof.
  intros Hb Hr. destruct (rq_reachable_inv base_ptr n calls Hb s Hr) as [l H]. exists l.
  split; [apply (ri_chain _ _ _ _ _ H)|]. split; [apply (ri_nodup _ _ _ _ _ H)|]. split; [apply (ri_stack _ _ _ _ _ H)|].
  intros t. pose proof (ri_calls _ _ _ _ _ H t) as Hok. unfold call_ok in Hok.
  destruct (at_pc s t); try done; destruct_and?; match goal with E : history_of _ _ = _ |- _ => rewrite E end; cbn; lia.
Qed.

(** No call on the ready queue waits for another: with room for its nodes, a call
    that has not returned can always take a step, and no run is infinite. *)
Theorem ready_calls_return base_ptr n calls s : 0 < base_ptr → kListNodeSize * n < kListNodeBrkSize →
  rq_reachable base_ptr n calls s →
  Acc (fun s' s => ∃ t, 0 ≤ t < n ∧ step base_ptr t s = Ok s') s ∧
  ∀ t, 0 ≤ t < n → rq_returned (at_pc s t) = false → ∃ s', step base_ptr t s = Ok s'.
Proof.
  intros Hb Hn Hr. split; [apply rq_steps_acc|]. intros t Ht Hx.
  apply (step_returned base_ptr n calls t s Ht); [by apply rq_reachable_inv|done|done].
Qed.

(** the last node of the brk is never used: a full brk is taken for an overflow *)
Lemma last_node_aborts base_ptr k : k * kListNodeSize = kListNodeBrkSize → 
  brk_Alloc base_ptr (base_ptr + (k - 1) * kListNodeSize) kListNodeSize = Err Aborted.
Proof. intros Hk. unfold brk_Alloc, abort_if. unfold kListNodeSize in *. zcase; [done|lia]. Qed.

(** ** Witnesses *)

Module ReadySamples.
(** two calls add a coroutine, a third one pops *)
Definition calls (t : Z) : option Z := if t =? 2 then None else Some (70 + t).
Definition run (l : list Z) : result RQ := foldl (fun s t => s ← s; step 4096 t s) (Ok (rq_initial 4096 calls)) l.
Definition get (r : result RQ) : RQ := match r with Ok s => s | Err _ => rq_initial 4096 calls end.
(** call 1 overtakes call 0, whose compare-and-swap fails once; so does that of the pop *)
Definition schedule : list Z := [0; 0; 1; 1; 1; 2; 2; 0; 0; 2; 2; 2; 2; 2].

Lemma rq_run_reachable l : Forall (fun t => 0 ≤ t < 3) l → match run l with Ok _ => true | Err _ => false end = true →
  rq_reachable 4096 3 calls (get (run l)).
Proof.
  induction l as [|t l IH] using rev_ind; intros Hl E; [constructor|].
  unfold run in *. rewrite foldl_app in *. cbn in *. apply Forall_app in Hl as [Hl Ht].
  apply Forall_cons in Ht as [Ht _]. destruct (foldl _ _ l) as [s0|f] eqn:E0; [|done].
  cbn in *. destruct (step 4096 t s0) as [s1|] eqn:E1; [|done]. apply (rq_step _ _ _ s0 t); [by apply IH|exact Ht|exact E1].
Qed.
End ReadySamples.

Lemma ready_queue_is_stack_witness :
  let s := ReadySamples.get (ReadySamples.run ReadySamples.schedule) in
  at_pc s 0 = AddDone ∧ at_pc s 2 = PopDone (Some 70) ∧ history_of 2 (history s) = [Take (Some 70)] ∧
  ∃ l, stack_run (history s).*2 = Some ((fun p => n_coro (nodes s p)) <$> l).
Proof.
  intros s. destruct (ready_queue_is_stack 4096 3 ReadySamples.calls s) as (l & _ & _ & Hs & Ht); [lia| |].
  { apply ReadySamples.rq_run_reachable; [repeat constructor; lia|by vm_compute]. }
  split; [by vm_compute|]. split; [by vm_compute|]. split; [|by exists l].
  specialize (Ht 2). assert (E : at_pc s 2 = PopDone (Some 70)) by by vm_compute. rewrite E in Ht. apply Ht.
Defined.

Lemma ready_calls_return_witness :
  let s := ReadySamples.get (ReadySamples.run [0; 0; 1]) in
  rq_returned (at_pc s 1) = false ∧ ∃ s', step 4096 1 s = Ok s'.
Proof.
  intros s. split; [by vm_compute|]. destruct (ready_calls_return 4096 3 ReadySamples.calls s) as [_ H]; [lia|by vm_compute| |].
  { apply ReadySamples.rq_run_reachable; [repeat constructor; lia|by vm_compute]. }
  apply H; [lia|by vm_compute].
Defined.
