(* ===== verification/Future.v ===== *)
(** Waiting for a future with the coroutine scheduler (txn.cc [BaseFutureValue::Wait],
    txn.h [SetReady], coro_sched.cpp [WaitForFutureValue]): the waiting coroutine
    attaches itself to the future and gives up the core, a thread that sets the
    future detaches it and puts it on the ready queue of its core. A step is one
    access to shared memory; the ready queue's operations are atomic (see
    [ReadyQueue]). *)

From S2P Require Import Prelude.

(** ** State *)

(** where the waiting coroutine stands *)
Inductive WaitPc :=
| WLoop        (* the test of the loop of [Wait] *)
| WTest        (* [WaitForFutureValue]: the first test of [ready] *)
| WAttach      (* [future->waiter = me] *)
| WTestAgain   (* the second test *)
| WRemove      (* the compare-and-swap that takes [me] out of [waiter] *)
| WSwitch      (* before [num_detached_coros++] and the switch *)
| WDetached    (* suspended *)
| WClear       (* [ready = false] *)
| WReturned.

(** where a thread that sets the future stands *)
Inductive SetPc := SReady | SRead | SCas (w : Z) | SAdd (w : Z) | SDone.

Record Future := mkFut {
  ready : bool;
  waiter : Z;               (* the attached coroutine, 0 for none *)
  ready_queue : list Z;     (* of the waiter's core *)
  num_detached : Z;
  wait_pc : WaitPc;
  set_pc : Z → SetPc;
}.

(** ** Steps *)

Section Protocol.
(** the waiting coroutine; the setters, by number; which of them call [SetReady],
    and which the plain [Signal] *)
Context (me n : Z) (notifies : Z → bool).

(** the loop of [Wait] and the line after it *)
Definition loop_step (s : Future) : result Future :=
  match wait_pc s with
  | WLoop => Ok (mkFut (ready s) (waiter s) (ready_queue s) (num_detached s) (if ready s then WClear else WTest) (set_pc s))
  | WClear => Ok (mkFut false (waiter s) (ready_queue s) (num_detached s) WReturned (set_pc s))
  | _ => Err Blocked
  end.

(** [WaitForFutureValue] *)
Definition attach_step (s : Future) : result Future :=
  let go p := Ok (mkFut (ready s) (waiter s) (ready_queue s) (num_detached s) p (set_pc s)) in
  match wait_pc s with
  | WTest => _ ← abort_if (negb (waiter s =? 0)); go (if ready s then WLoop else WAttach)
  | WAttach => Ok (mkFut (ready s) me (ready_queue s) (num_detached s) WTestAgain (set_pc s))
  | WTestAgain => go (if ready s then WRemove else WSwitch)
  | WRemove =>
      if waiter s =? me then Ok (mkFut (ready s) 0 (ready_queue s) (num_detached s) WLoop (set_pc s)) else go WSwitch
  | WSwitch => Ok (mkFut (ready s) (waiter s) (ready_queue s) (u64 (num_detached s + 1)) WDetached (set_pc s))
  | _ => Err Blocked
  end.

Definition wait_step (s : Future) : result Future :=
  match wait_pc s with WLoop | WClear => loop_step s | _ => attach_step s end.

(** the core pops the coroutine from its ready queue and switches to it *)
Definition resume (s : Future) : result Future :=
  match wait_pc s, ready_queue s with
  | WDetached, co :: q =>
      if co =? me then Ok (mkFut (ready s) (waiter s) q (u64 (num_detached s - 1)) WLoop (set_pc s)) else Err Blocked
  | _, _ => Err Blocked
  end.

(** [SetReady], and [Signal], which is its first line *)
Definition set_step (t : Z) (s : Future) : result Future :=
  let go p := Ok (mkFut (ready s) (waiter s) (ready_queue s) (num_detached s) (wait_pc s) (<[t := p]> (set_pc s))) in
  match set_pc s t with
  | SReady => Ok (mkFut true (waiter s) (ready_queue s) (num_detached s) (wait_pc s)
                    (<[t := if notifies t then SRead else SDone]> (set_pc s)))
  | SRead => go (if waiter s =? 0 then SDone else SCas (waiter s))
  | SCas w =>
      if waiter s =? w
      then Ok (mkFut (ready s) 0 (ready_queue s) (num_detached s) (wait_pc s) (<[t := SAdd w]> (set_pc s)))
      else go SDone
  | SAdd w => Ok (mkFut (ready s) (waiter s) (w :: ready_queue s) (num_detached s) (wait_pc s) (<[t := SDone]> (set_pc s)))
  | SDone => Err Blocked
  end.

Inductive FutEvent := EvWait | EvResume | EvSet (t : Z).
Definition fut_step (ev : FutEvent) (s : Future) : result Future :=
  match ev with
  | EvWait => wait_step s
  | EvResume => resume s
  | EvSet t => if (0 <=? t) && (t <? n) then set_step t s else Err Blocked
  end.

Definition fut_initial : Future := mkFut false 0 [] 0 WLoop (fun _ => SReady).

Inductive fut_reachable : Future → Prop :=
| fut_init : fut_reachable fut_initial
| fut_next s ev s' : fut_reachable s → fut_step ev s = Ok s' → fut_reachable s'.

(** ** The invariant *)

(** the coroutine is attached, or some setter has taken it to wake it up *)
Definition waking (s : Future) (t : Z) : Prop := 0 ≤ t < n ∧ set_pc s t = SAdd me.

(** how often the coroutine is attached, about to be added, or in the ready queue *)
Definition taken (p : SetPc) : Z := match p with SAdd _ => 1 | _ => 0 end.
Definition claims (s : Future) : Z :=
  (if waiter s =? 0 then 0 else 1) + sum_over (fun t => taken (set_pc s t)) (seqZ 0 n) + len (ready_queue s).

(** the number of claims the waiter's position calls for *)
Definition expected (p : WaitPc) : Z :=
  match p with WTestAgain | WRemove | WSwitch | WDetached => 1 | _ => 0 end.

Record FInv (s : Future) : Prop := {
  fi_waiter : waiter s = 0 ∨ waiter s = me;
  fi_queue : ∀ co, co ∈ ready_queue s → co = me;
  fi_set : ∀ t, match set_pc s t with SCas w | SAdd w => w = me | _ => True end;
  fi_claims : claims s = expected (wait_pc s);
  (* a setter past its first line has set the flag, which only the waiter clears *)
  fi_ready : ∀ t, set_pc s t ≠ SReady → wait_pc s ≠ WReturned → ready s = true;
  fi_attached : wait_pc s = WSwitch ∨ wait_pc s = WDetached → waiter s = me → ∀ t, notifies t = true → set_pc s t ≠ SDone;
  fi_woken : 0 < sum_over (fun t => taken (set_pc s t)) (seqZ 0 n) + len (ready_queue s) → wait_pc s ≠ WReturned → ready s = true;
  fi_clear : wait_pc s = WClear ∨ wait_pc s = WRemove → ready s = true;
  fi_detached : num_detached s = match wait_pc s with WDetached => 1 | _ => 0 end;
}.

Context (Hme : me ≠ 0).

Lemma taken_nonneg s : 0 ≤ sum_over (fun t => taken (set_pc s t)) (seqZ 0 n).
Proof using Type. apply sum_over_nonneg. intros t _. by destruct (set_pc s t). Qed.

Lemma taken_le s t : 0 ≤ t < n → taken (set_pc s t) ≤ sum_over (fun t => taken (set_pc s t)) (seqZ 0 n).
Proof using Type.
  intros Ht. rewrite (sum_over_update (fun u => if u =? t then 0 else taken (set_pc s u)) _ (seqZ 0 n) t);
    [|apply NoDup_seqZ|apply elem_of_seqZ; lia|by intros u _ Hu; destruct (Z.eqb_spec u t)].
  rewrite Z.eqb_refl. assert (0 ≤ sum_over (fun u => if u =? t then 0 else taken (set_pc s u)) (seqZ 0 n)); [|lia].
  apply sum_over_nonneg. intros u _. destruct (u =? t); [done|]. by destruct (set_pc s u).
Qed.

Lemma taken_update f t p : 0 ≤ t < n →
  sum_over (fun u => taken ((<[t := p]> f) u)) (seqZ 0 n) = sum_over (fun u => taken (f u)) (seqZ 0 n) + (taken p - taken (f t)).
Proof using Type.
  intros Ht. rewrite (sum_over_update (fun u => taken (f u)) _ (seqZ 0 n) t);
    [by rewrite fn_lookup_insert|apply NoDup_seqZ|apply elem_of_seqZ; lia|by intros u _ Hu; rewrite fn_lookup_insert_ne].
Qed.

(** the fields of the invariant that a step does not touch *)
Ltac fields := cbn [ready waiter ready_queue num_detached wait_pc set_pc expected] in *; try done; try lia;
  try solve [intros; destruct_or?; first [done|congruence|lia|by eauto with lia|by (zcase; first [lia|congruence])]].

Lemma wait_step_inv s : FInv s → match wait_step s with Ok s' => FInv s' | Err f => f = Blocked end.
Proof using Hme.
  intros H. pose proof (taken_nonneg s) as Ht. destruct H as [H1 H2 H3 H4 H5 H6 H7 H8 H9]. unfold wait_step, loop_step, attach_step, claims in *.
  assert (Hw : ∀ b, negb (waiter s =? 0) = b → b = false ∨ waiter s = me) by (intros b <-; destruct (Z.eqb_spec (waiter s) 0); [by left|naive_solver]).
  destruct (wait_pc s) eqn:Ep; cbn [expected] in *; try done.
  - destruct (ready s) eqn:Er; split; unfold claims; fields.
  - destruct (Z.eqb_spec (waiter s) 0) as [Ew|]; cbn [negb abort_if mbind result_bind]; [|lia].
    destruct (ready s) eqn:Er; split; unfold claims; fields.
  - destruct (Z.eqb_spec (waiter s) 0) as [Ew|]; [|lia].
    split; unfold claims; fields.
  - destruct (ready s) eqn:Er; split; unfold claims; fields. intros _ _ t _ Hd. assert (false = true); [|done]. apply (H5 t); congruence.
  - destruct (Z.eqb_spec (waiter s) me) as [Ew|Ew]; split; unfold claims; fields. rewrite Ew in H4. destruct (Z.eqb_spec me 0); [done|]. cbn. lia.
  - split; unfold claims; fields; by rewrite H9.
  - split; unfold claims; fields.
Qed.

Lemma resume_inv s : FInv s → match resume s with Ok s' => FInv s' ∧ ready s = true | Err f => f = Blocked end.
Proof using Hme.
  intros H. pose proof (taken_nonneg s) as Ht. destruct H as [H1 H2 H3 H4 H5 H6 H7 H8 H9]. unfold resume, claims in *.
  destruct (wait_pc s) eqn:Ep; cbn [expected] in *; try done. destruct (ready_queue s) as [|co q] eqn:Eq; [done|].
  destruct (Z.eqb_spec co me) as [->|]; [|done]. cbn [length] in *.
  assert (Hr : ready s = true) by (apply H7; [lia|done]). split; [|done].
  split; unfold claims; cbn; fields.
  - intros c Hc. apply H2. by right.
  - rewrite H9. done.
Qed.

Lemma set_step_inv t s : 0 ≤ t < n → FInv s → match set_step t s with Ok s' => FInv s' | Err f => f = Blocked end.
Proof using Hme.
  intros Ht H. pose proof (taken_nonneg s) as Hs. destruct H as [H1 H2 H3 H4 H5 H6 H7 H8 H9]. unfold set_step, claims in *.
  pose proof (H3 t) as Ht3. pose proof (H5 t) as Ht5.
  assert (Hset : ∀ p, match p with SCas w | SAdd w => w = me | _ => True end →
    ∀ u, match (<[t := p]> (set_pc s)) u with SCas w | SAdd w => w = me | _ => True end).
  { intros p Hp u. destruct (decide (u = t)) as [->|]; [by rewrite fn_lookup_insert|rewrite fn_lookup_insert_ne by done; apply H3]. }
  destruct (set_pc s t) as [| |w|w|] eqn:Ep; cbn [taken] in *; try done.
  - assert (Hp : taken (if notifies t then SRead else SDone) = 0) by by destruct (notifies t).
    split; unfold claims; cbn; rewrite ?taken_update, ?Ep, ?Hp; cbn; fields.
    + apply Hset. by destruct (notifies t).
    + intros Hd Hm u Hu. destruct (decide (u = t)) as [->|]; [rewrite fn_lookup_insert; by rewrite Hu|rewrite fn_lookup_insert_ne by done; by apply H6].
  - assert (Hp : taken (if waiter s =? 0 then SDone else SCas (waiter s)) = 0) by by destruct (waiter s =? 0).
    split; unfold claims; cbn; rewrite ?taken_update, ?Ep, ?Hp; cbn; fields.
    + apply Hset. destruct (Z.eqb_spec (waiter s) 0); naive_solver.
    + intros Hd Hm u Hu. destruct (decide (u = t)) as [->|]; [rewrite fn_lookup_insert|rewrite fn_lookup_insert_ne by done; by apply H6].
      destruct (Z.eqb_spec (waiter s) 0); [congruence|done].
  - subst w. destruct (Z.eqb_spec (waiter s) me) as [Ew|Ew]; split; unfold claims; cbn; rewrite ?taken_update, ?Ep; cbn; fields.
    + by apply Hset.
    + rewrite Ew in H4. destruct (Z.eqb_spec me 0); [done|lia].
    + by apply Hset.
  - subst w. split; unfold claims; cbn [waiter ready_queue set_pc wait_pc ready num_detached length]; rewrite ?taken_update, ?Ep; cbn [taken]; fields.
    + intros c [->|Hc]%elem_of_cons; [done|by apply H2].
    + by apply Hset.
    + intros Hd Hm. rewrite Hm in H4. destruct (Z.eqb_spec me 0); [done|].
      pose proof (taken_le s t Ht).
      rewrite Ep in *. cbn in *. destruct Hd as [Hd|Hd]; rewrite Hd in H4; cbn in H4; lia.
Qed.

Lemma fut_step_inv ev s : FInv s → match fut_step ev s with Ok s' => FInv s' | Err f => f = Blocked end.
Proof using Hme.
  intros H. destruct ev as [| |t]; cbn [fut_step].
  - by apply wait_step_inv.
  - pose proof (resume_inv s H) as Hr. by destruct (resume s) as [s'|]; [destruct Hr|].
  - destruct (Z.leb_spec 0 t); cbn [andb]; [|done]. destruct (Z.ltb_spec t n); [|done]. by apply set_step_inv.
Qed.

Lemma fut_reachable_inv s : fut_reachable s → FInv s.
Proof using Hme.
  induction 1 as [|s ev s' _ IH E].
  - split; cbn; try done; try naive_solver; [intros co Hc; by apply elem_of_nil in Hc| |].
    + unfold claims. cbn. rewrite sum_over_const. lia.
    + rewrite sum_over_const. lia.
  - pose proof (fut_step_inv ev s IH) as H. by rewrite E in H.
Qed.

(** ** Termination *)

Definition wait_weight (r : bool) (p : WaitPc) : Z :=
  match p with
  | WLoop => if r then 2 else 12 | WTest => if r then 3 else 11 | WAttach => 10 | WTestAgain => 9 | WRemove => 8
  | WSwitch => 7 | WDetached => 6 | WClear => 1 | WReturned => 0
  end.
Definition set_weight (p : SetPc) : Z := match p with SReady => 4 | SRead => 3 | SCas _ => 2 | SAdd _ => 1 | SDone => 0 end.
Definition fut_measure (s : Future) : Z :=
  wait_weight (ready s) (wait_pc s) + sum_over (fun t => set_weight (set_pc s t)) (seqZ 0 n).

Lemma fut_measure_nonneg s : 0 ≤ fut_measure s.
Proof using Type.
  unfold fut_measure. assert (0 ≤ sum_over (fun t => set_weight (set_pc s t)) (seqZ 0 n)).
  { apply sum_over_nonneg. intros t _. by destruct (set_pc s t). }
  destruct (wait_pc s), (ready s); cbn; lia.
Qed.

Lemma fut_measure_step ev s s' : FInv s → fut_step ev s = Ok s' → fut_measure s' < fut_measure s.
Proof using Hme.
  intros H E. unfold fut_measure. destruct ev as [| |t]; cbn [fut_step] in E.
  - unfold wait_step, loop_step, attach_step in E. destruct (wait_pc s) eqn:Ep; inv_ok; cbn;
      try (destruct (ready s) eqn:Er; inv_ok; cbn; try lia); try lia;
      destruct (waiter s =? me); inv_ok; cbn; try lia;
      rewrite (fi_clear _ H (or_intror Ep)) in Er; done.
  - pose proof (resume_inv s H) as Hr. unfold resume in *. destruct (wait_pc s) eqn:Ep; try done.
    destruct (ready_queue s) as [|co q]; [done|]. destruct (co =? me); [|done]. destruct Hr as [_ Hr]. inv_ok. cbn. rewrite Hr. lia.
  - destruct (Z.leb_spec 0 t); cbn [andb] in E; [|done]. destruct (Z.ltb_spec t n); [|done].
    assert (Hs : ∀ p, sum_over (fun u => set_weight ((<[t := p]> (set_pc s)) u)) (seqZ 0 n) =
      sum_over (fun u => set_weight (set_pc s u)) (seqZ 0 n) + (set_weight p - set_weight (set_pc s t))).
    { intros p. rewrite (sum_over_update (fun u => set_weight (set_pc s u)) _ (seqZ 0 n) t);
        [by rewrite fn_lookup_insert|apply NoDup_seqZ|apply elem_of_seqZ; lia|by intros u _ Hu; rewrite fn_lookup_insert_ne]. }
    assert (Hw : wait_weight true (wait_pc s) ≤ wait_weight (ready s) (wait_pc s)) by (destruct (wait_pc s), (ready s); cbn; lia).
    unfold set_step in E. destruct (set_pc s t) as [| |w|w|] eqn:Ep; try done.
    + injection E as <-. cbn. rewrite Hs. destruct (notifies t); cbn; lia.
    + injection E as <-. cbn. rewrite Hs. destruct (waiter s =? 0); cbn; lia.
    + destruct (waiter s =? w); injection E as <-; cbn; rewrite Hs; cbn; lia.
    + injection E as <-. cbn. rewrite Hs. cbn. lia.
Qed.

Lemma fut_steps_acc s : FInv s → Acc (fun s' s => ∃ ev, fut_step ev s = Ok s') s.
Proof using Hme.
  remember (fut_measure s) as w eqn:Hw. revert s Hw. induction w as [w IH] using (well_founded_induction (Z.lt_wf 0)).
  intros s Hw H. constructor. intros s' (ev & E). apply (IH (fut_measure s')); [|done|].
  - split; [apply fut_measure_nonneg|]. subst w. by apply (fut_measure_step ev).
  - pose proof (fut_step_inv ev s H) as Hi. by rewrite E in Hi.
Qed.

Lemma sum_taken_pos f l : 0 < sum_over (fun t : Z => taken (f t)) l → ∃ t, t ∈ l ∧ ∃ w, f t = SAdd w.
Proof using Type.
  induction l as [|t l IH]; cbn; [lia|]. intros Hs. destruct (f t) as [| | |w|] eqn:Ep; cbn in Hs;
    try (destruct IH as (u & Hu & Hx); [unfold sum_over; lia|exists u; split; [by right|done]]).
  exists t. split; [left|by exists w].
Qed.

(** a detached coroutine is attached, or being woken up, or in the ready queue *)
Lemma detached_cases s : FInv s → wait_pc s = WDetached →
  waiter s = me ∨ (∃ t, waking s t) ∨ ready_queue s = [me].
Proof using Hme.
  intros H Ep. pose proof (fi_claims _ H) as Hc. rewrite Ep in Hc. unfold claims in Hc. cbn in Hc.
  destruct (fi_waiter _ H) as [Ew|Ew]; [|by left]. rewrite Ew in Hc. cbn in Hc.
  destruct (ready_queue s) as [|co q] eqn:Eq.
  - right. left. cbn in Hc. destruct (sum_taken_pos (set_pc s) (seqZ 0 n)) as (t & Ht & w & Et); [lia|].
    exists t. apply elem_of_seqZ in Ht. split; [lia|]. pose proof (fi_set _ H t) as Hx. rewrite Et in Hx. by subst.
  - right. right. pose proof (taken_nonneg s). cbn [length] in Hc. destruct q; [|cbn in Hc; lia].
    f_equal. apply (fi_queue _ H). rewrite Eq. left.
Qed.
End Protocol.

(** ** Theorems *)

(** C28. No wake-up is lost and none is given twice, whatever the interleaving of a
    coroutine that waits for a future with any number of threads that set it:
    no assertion fails; the coroutine is in the ready queue at most once, and only
    when it has given up its core or is about to; and when a thread has completed
    [SetReady], a coroutine that is suspended is in the ready queue or another
    thread is about to put it there. *)
Theorem future_wakes_once me n notifies s : me ≠ 0 → fut_reachable me n notifies s →
  (∀ ev, match fut_step me n notifies ev s with Ok _ => True | Err f => f = Blocked end) ∧
  (ready_queue s = [] ∨ ready_queue s = [me] ∧ expected (wait_pc s) = 1) ∧
  (∀ t, notifies t = true → set_pc s t = SDone → wait_pc s = WDetached → (∃ u, waking me n s u) ∨ ready_queue s = [me]).
Proof.
  intros Hme Hr. pose proof (fut_reachable_inv me n notifies Hme s Hr) as H. split; [|split].
  - intros ev. pose proof (fut_step_inv me n notifies Hme ev s H) as Hi. by destruct (fut_step _ _ _ ev s).
  - destruct (ready_queue s) as [|co q] eqn:Eq; [by left|right]. pose proof (fi_claims _ _ _ _ H) as Hc. unfold claims in Hc.
    pose proof (taken_nonneg n s). rewrite Eq in Hc. cbn [length] in Hc.
    assert (co = me) as -> by (apply (fi_queue _ _ _ _ H); rewrite Eq; left).
    assert (expected (wait_pc s) ≤ 1) by (destruct (wait_pc s); cbn; lia). destruct q; [|cbn [length] in Hc; destruct (waiter s =? 0); lia].
    split; [done|]. cbn [length] in Hc. destruct (waiter s =? 0); lia.
  - intros t Hn Hd Ep. destruct (detached_cases me n notifies Hme s H Ep) as [Ew|Hx]; [|done].
    by destruct (fi_attached _ _ _ _ H (or_intror Ep) Ew t Hn).
Qed.

(** Waiting for a future ends: if some thread calls [SetReady], then as long as the
    waiting coroutine has not returned some step is possible, and no run is
    infinite. *)
Theorem future_wait_returns me n notifies s t : me ≠ 0 → 0 ≤ t < n → notifies t = true → fut_reachable me n notifies s →
  Acc (fun s' s => ∃ ev, fut_step me n notifies ev s = Ok s') s ∧
  (wait_pc s ≠ WReturned → ∃ ev s', fut_step me n notifies ev s = Ok s').
Proof.
  intros Hme Ht Hn Hr. pose proof (fut_reachable_inv me n notifies Hme s Hr) as H. split; [by apply fut_steps_acc|]. intros Hw.
  assert (Hset : ∀ u, 0 ≤ u < n → set_pc s u ≠ SDone → ∃ ev s', fut_step me n notifies ev s = Ok s').
  { intros u Hu Hd. exists (EvSet u). cbn. destruct (Z.leb_spec 0 u); [|lia]. destruct (Z.ltb_spec u n); [|lia]. cbn.
    unfold set_step. destruct (set_pc s u); try done; try by eexists. case_match; by eexists. }
  destruct (wait_pc s) eqn:Ep; try done.
  8: exists EvWait; cbn; unfold wait_step, loop_step; rewrite Ep; by eexists.
  7: { destruct (detached_cases me n notifies Hme s H Ep) as [Ew|[(u & Hu & Eu)|Eq]].
       - apply (Hset t Ht). by apply (fi_attached _ _ _ _ H (or_intror Ep) Ew).
       - apply (Hset u Hu). by rewrite Eu.
       - exists EvResume. cbn. unfold resume. rewrite Ep, Eq, Z.eqb_refl. by eexists. }
  all: exists EvWait; pose proof (wait_step_inv me n notifies Hme s H) as Hi; cbn; destruct (wait_step me s) as [s'|] eqn:E; [by exists s'|];
    exfalso; subst; unfold wait_step, loop_step, attach_step in E; rewrite Ep in E; unfold abort_if in E;
    repeat case_match; done.
Qed.

(** the plain [Signal] sets the flag without waking anybody: a coroutine that has
    detached itself stays so for ever *)
Lemma plain_signal_loses_wakeup me : me ≠ 0 →
  ∃ s, fut_reachable me 1 (fun _ => false) s ∧ ready s = true ∧ set_pc s 0 = SDone ∧ wait_pc s = WDetached ∧
    ∀ ev s', fut_step me 1 (fun _ => false) ev s ≠ Ok s'.
Proof.
  intros Hme. exists (mkFut true me [] 1 WDetached (<[0 := SDone]> (fun _ => SReady))).
  split; [|split; [done|split; [done|split; [done|]]]].
  - apply (fut_next _ _ _ (mkFut false me [] 1 WDetached (fun _ => SReady)) (EvSet 0)); [|done].
    apply (fut_next _ _ _ (mkFut false me [] 0 WSwitch (fun _ => SReady)) EvWait); [|done].
    apply (fut_next _ _ _ (mkFut false me [] 0 WTestAgain (fun _ => SReady)) EvWait); [|done].
    apply (fut_next _ _ _ (mkFut false 0 [] 0 WAttach (fun _ => SReady)) EvWait); [|done].
    apply (fut_next _ _ _ (mkFut false 0 [] 0 WTest (fun _ => SReady)) EvWait); [|done].
    apply (fut_next _ _ _ fut_initial EvWait); [constructor|done].
  - intros [| |t] s'; cbn; [done|done|]. destruct (Z.leb_spec 0 t); cbn; [|done]. destruct (Z.ltb_spec t 1); [|done].
    assert (t = 0) as -> by lia. done.
Qed.

(** ** Witnesses *)

Module FutureSamples.
Definition yes (_ : Z) : bool := true.
Definition run (l : list FutEvent) : result Future := foldl (fun s ev => s ← s; fut_step 64 2 yes ev s) (Ok fut_initial) l.
Definition get (r : result Future) : Future := match r with Ok s => s | Err _ => fut_initial end.
(** the waiter attaches itself and sees the flag still clear; thread 0 sets it and
    wakes it up, while thread 1 comes too late *)
Definition schedule : list FutEvent :=
  [EvWait; EvWait; EvWait; EvWait; EvSet 0; EvSet 0; EvSet 1; EvSet 1; EvSet 0; EvSet 1; EvWait; EvSet 0].

Lemma fut_run_reachable l : match run l with Ok _ => true | Err _ => false end = true → fut_reachable 64 2 yes (get (run l)).
Proof.
  induction l as [|ev l IH] using rev_ind; intros E; [constructor|].
  unfold run in *. rewrite foldl_app in *. cbn in *. destruct (foldl _ _ l) as [s0|f] eqn:E0; [|done].
  cbn in *. destruct (fut_step 64 2 yes ev s0) as [s1|] eqn:E1; [|done]. apply (fut_next _ _ _ s0 ev); [by apply IH|exact E1].
Qed.
End FutureSamples.

Lemma future_wakes_once_witness :
  let s := FutureSamples.get (FutureSamples.run FutureSamples.schedule) in
  set_pc s 1 = SDone ∧ wait_pc s = WDetached ∧ ((∃ u, waking 64 2 s u) ∨ ready_queue s = [64]).
Proof.
  intros s. destruct (future_wakes_once 64 2 FutureSamples.yes s) as (_ & _ & H);
    [lia|apply FutureSamples.fut_run_reachable; by vm_compute|].
  split; [by vm_compute|]. split; [by vm_compute|]. apply (H 1); by vm_compute.
Defined.

Lemma future_wait_returns_witness :
  let s := FutureSamples.get (FutureSamples.run [EvWait; EvWait; EvWait; EvWait; EvWait]) in
  wait_pc s = WDetached ∧ ∃ ev s', fut_step 64 2 FutureSamples.yes ev s = Ok s'.
Proof.
  intros s. split; [by vm_compute|].
  destruct (future_wait_returns 64 2 FutureSamples.yes s 0) as [_ H];
    [lia|lia|done|apply FutureSamples.fut_run_reachable; by vm_compute|]. apply H. by vm_compute.
Defined.
