(* ===== verification/CoroSched.v ===== *)
(** The coroutine scheduler of one core (coro_sched.cpp [CoroSched]): pieces run in
    coroutines; a piece that has to wait gives the core to another coroutine. An
    event is one scheduler call, cut where it reads what other threads may change:
    the queues of new pieces and the ready queue. *)

From S2P Require Import Prelude Heap SchedQueue Dispatch.

(** ** State *)

Definition kMaxNrCoroutine : Z := 10000.
Definition kPreemptKeyThreshold : Z := 17000.
Definition kMaxBackoff : Z := 40.

(** [CoroStack], without its registers and stack *)
Record CoroStack := mkCoro {
  c_sched_key : Z;
  c_preempt_key : Z;
  c_preempt_times : Z;
  c_piece : Routine;        (* running_piece *)
}.

(** where the running coroutine stands: in the main routine, in [GetNewPiece] before
    the zero queue, the pending pieces, the choice and the periodic IO, in a piece,
    or in [WaitForVHandleVal] with its candidate *)
Inductive Stage :=
| InMain | GetZero | GetPending | GetChoose | GetIdle
| InPiece
| WaitZero (candidate : Z) | WaitChoose (candidate : Z).

Record CoroSched := mkCS {
  queue : Queue;                    (* svc.queues[core_id] *)
  cos : Z → CoroStack;
  free_corostack_list : list Z;
  ooo_buffer : list Z;              (* its first ooo_buffer_len entries *)
  paused_coro : Z;                  (* 0 for nullptr *)
  current : Z;                      (* coro_get_co(), 0 for the main routine *)
  ready_queue : list Z;
  num_detached_coros : Z;
  stage : Stage;
  (* what has happened so far *)
  detached : list Z;                (* coroutines attached to a future *)
  added : list Routine;
  finished : list Routine;
  restarted : list Routine;         (* re-queued while their coroutine ran on *)
}.

(** *** Updates *)

Definition set_queue (s : CoroSched) x := mkCS x (cos s) (free_corostack_list s) (ooo_buffer s) (paused_coro s) (current s)
  (ready_queue s) (num_detached_coros s) (stage s) (detached s) (added s) (finished s) (restarted s).
Definition set_co (s : CoroSched) c x := mkCS (queue s) (<[c := x]> (cos s)) (free_corostack_list s) (ooo_buffer s) (paused_coro s)
  (current s) (ready_queue s) (num_detached_coros s) (stage s) (detached s) (added s) (finished s) (restarted s).
Definition set_free (s : CoroSched) x := mkCS (queue s) (cos s) x (ooo_buffer s) (paused_coro s) (current s)
  (ready_queue s) (num_detached_coros s) (stage s) (detached s) (added s) (finished s) (restarted s).
Definition set_ooo (s : CoroSched) x := mkCS (queue s) (cos s) (free_corostack_list s) x (paused_coro s) (current s)
  (ready_queue s) (num_detached_coros s) (stage s) (detached s) (added s) (finished s) (restarted s).
Definition set_paused (s : CoroSched) x := mkCS (queue s) (cos s) (free_corostack_list s) (ooo_buffer s) x (current s)
  (ready_queue s) (num_detached_coros s) (stage s) (detached s) (added s) (finished s) (restarted s).
Definition set_current (s : CoroSched) x y := mkCS (queue s) (cos s) (free_corostack_list s) (ooo_buffer s) (paused_coro s) x
  (ready_queue s) (num_detached_coros s) y (detached s) (added s) (finished s) (restarted s).
Definition set_stage (s : CoroSched) y := set_current s (current s) y.
Definition set_ready (s : CoroSched) x n := mkCS (queue s) (cos s) (free_corostack_list s) (ooo_buffer s) (paused_coro s) (current s)
  x n (stage s) (detached s) (added s) (finished s) (restarted s).

Section CoroSched.
(** the queue's capacity, [g_ooo_buffer_size], [g_use_signal_future], and the number
    of futures a piece receives *)
Context (max ooo_size : Z) (use_signal_future : bool) (fv_signals : Routine → Z).

(** ** Heaps of waiting coroutines *)

Definition MinHeapCompare (m : Z → CoroStack) (a b : Z) : bool :=
  if c_preempt_key (m b) <? c_preempt_key (m a) then true
  else if c_preempt_key (m a) <? c_preempt_key (m b) then false
  else if c_sched_key (m b) <? c_sched_key (m a) then true
  else if c_sched_key (m a) <? c_sched_key (m b) then false
  else 0 <? fv_signals (c_piece (m a)).

(** [std::make_heap] without a comparator: by address *)
Definition make_heap (l : list Z) : list Z :=
  foldr (fun i l => sift_down Z.ltb (length l) l i) l (seq 0 (length l / 2)).

(** [pop_heap] and [ooo_buffer_len--] *)
Definition pop_ooo (s : CoroSched) : CoroSched :=
  set_ooo s (take (length (ooo_buffer s) - 1) (pop_heap (MinHeapCompare (cos s)) (ooo_buffer s))).

(** ** Switching *)

Definition GetCoroStack (s : CoroSched) : result (Z * CoroSched) :=
  match free_corostack_list s with [] => Err Aborted | c :: l => Ok (c, set_free s l) end.
Definition ReturnCoroStack (s : CoroSched) (c : Z) : CoroSched := set_free s (c :: free_corostack_list s).

(** a coroutine that was switched away from goes on in its piece *)
Definition SwitchTo (s : CoroSched) (c : Z) : result CoroSched :=
  if c =? 0 then Err OutOfRange else Ok (set_current s c InPiece).

Definition ShutdownAndSwitchTo (s : CoroSched) (c : Z) : result CoroSched := SwitchTo (ReturnCoroStack s (current s)) c.

(** [coro_switch] from a coroutine to itself saves the registers over those that
    were reset and returns: the coroutine goes on in its piece *)
Definition StartNewCoroutine (s : CoroSched) : result CoroSched :=
  '(c, s) ← GetCoroStack s;
  if c =? current s then
    Ok (mkCS (queue s) (cos s) (free_corostack_list s) (ooo_buffer s) (paused_coro s) c (ready_queue s) (num_detached_coros s)
          InPiece (detached s) (added s) (finished s) (c_piece (cos s c) :: restarted s))
  else Ok (set_current s c GetZero).

(** [ExitExecutionRoutine], and [Reset] in the main routine *)
Definition ExitExecutionRoutine (s : CoroSched) : result CoroSched :=
  let s := ReturnCoroStack s (current s) in
  _ ← abort_if (negb (paused_coro s =? 0));
  _ ← abort_if (negb (bool_decide (ready_queue s = [])));
  Ok (set_current s 0 InMain).

Definition StartCoroExec (s : CoroSched) : result CoroSched := StartNewCoroutine s.

(** ** Getting a piece *)

Definition pq_is_empty (s : CoroSched) : bool := bool_decide (pq (pol (queue s)) = []).
(** [priority_queue.q[0].key]; [stale] is the content of the slot of an empty queue *)
Definition top_key (stale : Z) (s : CoroSched) : Z := match pq (pol (queue s)) with [] => stale | k :: _ => k end.

Definition with_running (q : Queue) (x : Running) : Queue := mkQ (pol q) (pending q) (waiting q) (zq q) (set_running (st q) x).

(** the coroutine takes a piece; one of the priority queue has not been preempted yet *)
Definition take_piece (s : CoroSched) (r : Routine) (reset : bool) : CoroSched :=
  let co := cos s (current s) in
  set_stage (set_co s (current s) (mkCoro (sched_key r) (c_preempt_key co) (if reset then 0 else c_preempt_times co) r)) InPiece.

Definition get_zero (is_ready : bool) (s : CoroSched) : result CoroSched :=
  let q := queue s in let z := zq q in
  if zq_start z <? zq_end z then
    let r := zq_q z (zq_start z) in
    let q := mkQ (pol q) (pending q) (waiting q) (mkZQ (zq_q z) (zq_end z) (zq_start z + 1)) (set_running (st q) kRunning) in
    Ok (take_piece (set_queue s q) r false)
  else if negb is_ready then ExitExecutionRoutine (set_queue s (with_running q kSleeping))
  else
    let idle := pq_is_empty s && (len (ooo_buffer s) =? 0) && (p_end (pending q) =? p_start (pending q)) in
    let s := set_queue s (with_running q (if idle then kSleeping else kRunning)) in
    if negb (paused_coro s =? 0) then
      let s := set_paused s 0 in ShutdownAndSwitchTo s (paused_coro s)
    else Ok (set_stage s GetPending).

Definition get_pending (s : CoroSched) : result CoroSched :=
  Ok (set_stage (set_queue s (ProcessPending max (queue s))) GetChoose).

(** the test of steps 4: a waiting coroutine goes first *)
Definition ooo_first (s : CoroSched) (c : Z) : bool :=
  (0 <? len (ooo_buffer s)) &&
  ((len (ooo_buffer s) =? ooo_size) || (pq_is_empty s || (c_preempt_key (cos s c) <? top_key 0 s))).

Definition get_choose (s : CoroSched) : result CoroSched :=
  match ready_queue s with
  | c :: l => ShutdownAndSwitchTo (set_ready s l (u64 (num_detached_coros s - 1))) c
  | [] =>
      let waiting_coro := ooo_buffer s !!! 0%nat in
      if ooo_first s waiting_coro then ShutdownAndSwitchTo (pop_ooo s) waiting_coro
      else if negb (pq_is_empty s) then
        node ← Pick (pol (queue s));
        pol' ← Consume (pol (queue s));
        let q := queue s in
        Ok (take_piece (set_queue s (mkQ pol' (pending q) (waiting q) (zq q) (st q))) (v_routine node) true)
      else
        let q := queue s in let x := st q in
        Ok (set_stage (set_queue s (mkQ (pol q) (pending q) (waiting q) (zq q)
              (mkState (current_sched_key x) (ts x) 0 (running x)))) GetIdle)
  end.

Definition get_idle (retry : bool) (s : CoroSched) : result CoroSched :=
  if retry then Ok (set_stage s GetZero)
  else if 0 <? num_detached_coros s then Ok (set_stage s GetChoose)
  else
    _ ← abort_if (negb (len (free_corostack_list s) =? kMaxNrCoroutine - 1));
    ExitExecutionRoutine s.

(** [GetNewPiece], from one of its labels to the next *)
Definition GetNewPiece (is_ready retry : bool) (s : CoroSched) : result CoroSched :=
  match stage s with
  | GetZero => get_zero is_ready s
  | GetPending => get_pending s
  | GetChoose => get_choose s
  | GetIdle => get_idle retry s
  | _ => Err Blocked
  end.

(** ** Waiting *)

(** [WaitForVHandleVal] up to the choice of the candidate *)
Definition wait_call (s : CoroSched) : result CoroSched :=
  _ ← abort_if (negb (paused_coro s =? 0));
  let s := set_queue s (ProcessPending max (queue s)) in
  let me := cos s (current s) in
  if c_sched_key me =? 0 then Ok s else
  _ ← abort_if (len (ooo_buffer s) =? ooo_size);
  let times := u64 (c_preempt_times me + 1) in
  let s := set_co s (current s)
    (mkCoro (c_sched_key me) (u64 (c_sched_key me + kPreemptKeyThreshold * Z.min times kMaxBackoff)) times (c_piece me)) in
  let s := set_ooo s (push_heap (MinHeapCompare (cos s)) (ooo_buffer s ++ [current s])) in
  Ok (set_stage s (WaitZero (ooo_buffer s !!! 0%nat))).

(** its first test, which the added entry makes false, and the zero queue *)
Definition wait_zero (candidate : Z) (s : CoroSched) : result CoroSched :=
  let z := zq (queue s) in
  if (len (ooo_buffer s) =? 0) && (pq_is_empty s || (c_preempt_key (cos s candidate) <? top_key 0 s)) &&
     (zq_end z <=? zq_start z) && bool_decide (ready_queue s = [])
  then Ok (set_stage s InPiece)
  else if zq_start z <? zq_end z then StartNewCoroutine s
  else Ok (set_stage s (WaitChoose candidate)).

(** the loop that re-queues the pieces of waiting coroutines: the entries kept, and
    the new state *)
Fixpoint requeue (stale : Z) (l : list Z) (s : CoroSched) : list Z * CoroSched :=
  match l with
  | [] => ([], s)
  | c :: l =>
      if top_key stale s <=? c_sched_key (cos s c) then
        let q := queue s in
        let s := set_queue s (mkQ (AddToPriorityQueue (pol q) (c_piece (cos s c)) None) (pending q) (waiting q) (zq q) (st q)) in
        requeue stale l (ReturnCoroStack s c)
      else let '(kept, s) := requeue stale l s in (c :: kept, s)
  end.

(** the test for a deadlock *)
Definition is_deadlock (stale candidate : Z) (s : CoroSched) : bool :=
  let co := cos s candidate in
  (len (ooo_buffer s) =? ooo_size) && (kMaxBackoff <? c_preempt_times co) &&
  ((top_key stale s <? c_sched_key co) || ((c_sched_key co =? top_key stale s) && (0 <? fv_signals (c_piece co)))).

Definition resolve_deadlock (stale candidate : Z) (s : CoroSched) : CoroSched :=
  if is_deadlock stale candidate s then
    let '(kept, s) := requeue stale (ooo_buffer s) s in set_ooo s (make_heap kept)
  else s.

(** the rest of [WaitForVHandleVal] *)
Definition wait_choose (stale candidate : Z) (s : CoroSched) : result CoroSched :=
  match ready_queue s with
  | c :: l =>
      let full := negb (len (ooo_buffer s) <? ooo_size) in
      let s := set_ready s l (u64 (num_detached_coros s - 1)) in
      if full then
        _ ← abort_if (negb (paused_coro s =? 0));
        SwitchTo (set_paused s (current s)) c
      else SwitchTo s c
  | [] =>
      let s := resolve_deadlock stale candidate s in
      if ooo_first s candidate then
        let s := pop_ooo s in
        if candidate =? current s then Ok (set_stage s InPiece) else SwitchTo s candidate
      else if negb (pq_is_empty s) then StartNewCoroutine s
      else Err Aborted
  end.

(** ** Events *)

Definition key_ok (r : Routine) : bool := (0 <=? sched_key r) && (sched_key r <? 2 ^ 63).
(** a batch that fits in the queue *)
Definition fits (q : Queue) (rs : list Routine) : bool :=
  (zq_end (zq q) + len (zeros rs) <=? max) && (p_end (pending q) - p_start (pending q) + len (ordered rs) <=? max) &&
  (p_end (pending q) + len (ordered rs) <? 2 ^ 32).

Inductive CoroEvent :=
| EvStart                          (* StartCoroExec *)
| EvGet (is_ready retry : bool)    (* GetNewPiece goes on *)
| EvDone                           (* the piece returns: svc.Complete *)
| EvWait                           (* the piece calls WaitForVHandleVal *)
| EvChoose (stale : Z)             (* which goes on *)
| EvAttach                         (* WaitForFutureValue attaches the coroutine *)
| EvSignal (c : Z)                 (* another thread calls AddToReadyQueue *)
| EvAdd (rs : list Routine).       (* another thread adds pieces *)

Definition coro_step (ev : CoroEvent) (s : CoroSched) : result CoroSched :=
  match ev, stage s with
  | EvStart, InMain => StartCoroExec s
  | EvGet is_ready retry, _ => GetNewPiece is_ready retry s
  | EvDone, InPiece =>
      Ok (mkCS (Complete (queue s)) (cos s) (free_corostack_list s) (ooo_buffer s) (paused_coro s) (current s)
            (ready_queue s) (num_detached_coros s) GetZero (detached s) (added s) (c_piece (cos s (current s)) :: finished s) (restarted s))
  | EvWait, InPiece => wait_call s
  | EvChoose stale, WaitZero c => wait_zero c s
  | EvChoose stale, WaitChoose c => wait_choose stale c s
  | EvAttach, InPiece =>
      if use_signal_future then
        StartNewCoroutine (mkCS (queue s) (cos s) (free_corostack_list s) (ooo_buffer s) (paused_coro s) (current s)
          (ready_queue s) (u64 (num_detached_coros s + 1)) (stage s) (current s :: detached s) (added s) (finished s) (restarted s))
      else Err Blocked
  | EvSignal c, _ =>
      if bool_decide (c ∈ detached s) then
        Ok (mkCS (queue s) (cos s) (free_corostack_list s) (ooo_buffer s) (paused_coro s) (current s)
          (c :: ready_queue s) (num_detached_coros s) (stage s) (filter (fun x => x ≠ c) (detached s)) (added s) (finished s) (restarted s))
      else Err Blocked
  | EvAdd rs, _ =>
      if fits (queue s) rs && forallb key_ok rs then
        q ← Dispatch.Add max (queue s) rs [p_start (pending (queue s))];
        Ok (mkCS q (cos s) (free_corostack_list s) (ooo_buffer s) (paused_coro s) (current s)
          (ready_queue s) (num_detached_coros s) (stage s) (detached s) (added s ++ rs) (finished s) (restarted s))
      else Err Blocked
  | _, _ => Err Blocked
  end.
End CoroSched.
