(* ===== verification/CoroFacts.v ===== *)
(** The invariant of the coroutine scheduler: every coroutine is in one place, every
    piece is in a queue, in a coroutine or finished. *)

From S2P Require Import Prelude Heap SchedQueue Dispatch CoroSched.

(** ** Permutations by counting *)

Section Count.
Context {A : Type} `{EqDecision A}.
Definition cnt1 (x y : A) : Z := if decide (y = x) then 1 else 0.
Definition cnt (x : A) (l : list A) : Z := foldr (fun y n => cnt1 x y + n) 0 l.

Lemma cnt_cons x y l : cnt x (y :: l) = cnt1 x y + cnt x l.
Proof. done. Qed.
Lemma cnt_app x l1 l2 : cnt x (l1 ++ l2) = cnt x l1 + cnt x l2.
Proof. induction l1 as [|y l IH]; [done|]. cbn [app]. rewrite !cnt_cons, IH. lia. Qed.
Lemma cnt_nonneg x l : 0 ≤ cnt x l.
Proof. induction l as [|y l IH]; [done|]. rewrite cnt_cons. unfold cnt1. case_decide; lia. Qed.
Lemma cnt_elem x l : 0 < cnt x l ↔ x ∈ l.
Proof.
  induction l as [|y l IH]; [split; [done|intros Hx; by apply elem_of_nil in Hx]|]. rewrite cnt_cons, elem_of_cons. unfold cnt1.
  pose proof (cnt_nonneg x l). case_decide; naive_solver lia.
Qed.
Lemma cnt_perm l1 l2 : l1 ≡ₚ l2 ↔ ∀ x, cnt x l1 = cnt x l2.
Proof.
  split.
  - intros H x. induction H; rewrite ?cnt_cons; lia.
  - revert l2. induction l1 as [|y l1 IH]; intros l2 H.
    + destruct l2 as [|z l2]; [done|]. specialize (H z). rewrite cnt_cons in H. unfold cnt1 in H. rewrite decide_True in H by done.
      pose proof (cnt_nonneg z l2). cbn in H. lia.
    + assert (Hy : y ∈ l2).
      { apply cnt_elem. rewrite <- H, cnt_cons. unfold cnt1. rewrite decide_True by done. pose proof (cnt_nonneg y l1). lia. }
      apply list_elem_of_split in Hy as (k1 & k2 & ->). rewrite <- Permutation_middle. constructor. apply IH. intros x.
      specialize (H x). rewrite ?cnt_app, ?cnt_cons, ?cnt_app in *. lia.
Qed.
End Count.

(** a permutation of concatenations follows from those in the context *)
Ltac perm :=
  apply cnt_perm; let x := fresh "x" in intros x;
  repeat match goal with
  | H : _ ≡ₚ _ |- _ => pose proof (proj1 (cnt_perm _ _) H x); clear H
  end;
  repeat (rewrite ?fmap_app, ?fmap_cons, ?fmap_nil, ?cnt_app, ?cnt_cons in *; cbn [fmap list_fmap cnt foldr] in *);
  lia.

(** ** Heaps keep their entries, whatever the comparator *)

Section HeapPerm.
Local Open Scope nat_scope.
Context {A : Type} `{!Inhabited A} (gt : A → A → bool).

Lemma sift_up_perm fuel : ∀ l i, i < length l → sift_up gt fuel l i ≡ₚ l.
Proof.
  induction fuel as [|fuel IH]; intros l i Hi; cbn [sift_up]; [done|]. destruct (Nat.eqb_spec i 0); [done|].
  destruct (gt _ _); [|done]. pose proof (par_spec i ltac:(lia)). rewrite IH by (rewrite length_swap; lia). apply swap_perm; lia.
Qed.

Lemma sift_down_perm fuel : ∀ l i, i < length l ∨ l = [] → sift_down gt fuel l i ≡ₚ l.
Proof.
  induction fuel as [|fuel IH]; intros l i Hi; cbn [sift_down]; [done|]. destruct (Nat.leb_spec (length l) (2 * i + 1)) as [|Hc]; [done|].
  set (c := if _ && _ then _ else _).
  assert (Hcl : c < length l).
  { unfold c. destruct (Nat.ltb_spec (2 * i + 1 + 1) (length l)); cbn [andb]; [destruct (gt _ _); lia|lia]. }
  clearbody c. destruct (gt _ _); [|done]. rewrite IH by (left; rewrite length_swap; lia). apply swap_perm; lia.
Qed.

Lemma push_heap_perm l x : push_heap gt (l ++ [x]) ≡ₚ l ++ [x].
Proof. unfold push_heap. apply sift_up_perm. rewrite length_app. cbn. lia. Qed.

Lemma pop_heap_perm x l : ∃ l', pop_heap gt (x :: l) = l' ++ [x] ∧ l' ≡ₚ l.
Proof.
  unfold pop_heap. cbn [length]. replace (S (length l) - 1) with (length l) by lia.
  set (m := length l). set (l1 := swap (x :: l) 0 m).
  assert (Hl1 : length l1 = S m) by (unfold l1; by rewrite length_swap).
  assert (Hs : l1 = take m l1 ++ [x]).
  { rewrite <- (take_drop m l1) at 1. f_equal. assert (Hm : l1 !! m = Some x).
    { rewrite list_lookup_lookup_total_lt by lia. unfold l1. rewrite swap_lookup by (cbn; lia).
      case_decide as E; [by rewrite E|]. by rewrite decide_True. }
    rewrite (drop_S _ _ _ Hm). f_equal. apply drop_ge. lia. }
  exists (sift_down gt m (take m l1) 0).
  assert (Hk : length (take m l1) = m) by (rewrite length_take; lia).
  split; [f_equal; rewrite Hs, drop_app_length' by done; done|].
  rewrite sift_down_perm by (destruct (take m l1) as [|y k] eqn:E; [by right|left; cbn; lia]).
  assert (Hp : take m l1 ++ [x] ≡ₚ x :: l) by (rewrite <- Hs; apply swap_perm; cbn; lia).
  rewrite Permutation_app_comm in Hp. cbn in Hp. by apply Permutation_cons_inv in Hp.
Qed.
End HeapPerm.

Lemma make_heap_perm l : make_heap l ≡ₚ l.
Proof.
  unfold make_heap. assert (H : ∀ k, (k ≤ length l / 2)%nat →
    foldr (fun i l => sift_down Z.ltb (length l) l i) l (seq (length l / 2 - k) k) ≡ₚ l).
  { induction k as [|k IH]; intros Hk; [done|]. cbn [seq foldr].
    replace (S (length l / 2 - S k)) with (length l / 2 - k)%nat by lia.
    specialize (IH ltac:(lia)). pose proof (Permutation_length IH) as Hl. rewrite sift_down_perm; [done|].
    rewrite Hl. left. assert (length l / 2 ≤ length l)%nat by (apply Nat.Div0.div_le_upper_bound; lia).
    destruct (decide (length l = 0)%nat) as [E|]; [rewrite E in Hk; cbn in Hk; lia|]. lia. }
  specialize (H (length l / 2)%nat ltac:(lia)). by rewrite Nat.sub_diag in H.
Qed.

(** ** The invariant *)

Section CoroFacts.
Context (max ooo_size : Z) (use_signal_future : bool) (fv_signals : Routine → Z) (all : list Z).
Context (Hmax : 0 < max < 2 ^ 32) (Hsize : 1 ≤ ooo_size ≤ kMaxNrCoroutine - 2).
Context (Hall : NoDup all ∧ 0 ∉ all ∧ len all = kMaxNrCoroutine).

Definition key_range (r : Routine) : Prop := 0 ≤ sched_key r < 2 ^ 63.
Definition piece_of (s : CoroSched) (c : Z) : Routine := c_piece (cos s c).
(** the pieces that wait for a coroutine *)
Definition queued (q : Queue) (ab : list PQValue) : list Routine := zero_list q ++ pending_list max q ++ (v_routine <$> ab).

(** [h]: the coroutine that runs outside of the lists, [w]: it is in a piece *)
Record PInv (s : CoroSched) (ab : list PQValue) (h w : list Z) : Prop := {
  pi_places : free_corostack_list s ++ ooo_buffer s ++ h ++ ready_queue s ++ detached s ≡ₚ all;
  pi_queue : queue_inv max (queue s) ab;
  pi_zero : ∀ r, r ∈ zero_list (queue s) → sched_key r = 0;
  pi_keys : ∀ r, r ∈ queued (queue s) ab → key_range r;
  pi_pieces : ∀ c, c ∈ ooo_buffer s ++ w ++ ready_queue s ++ detached s →
    c_sched_key (cos s c) = sched_key (piece_of s c) ∧ key_range (piece_of s c);
  pi_preempt : ∀ c, c ∈ ooo_buffer s → c_sched_key (cos s c) ≤ c_preempt_key (cos s c);
  pi_conserve : finished s ++ queued (queue s) ab ++ (piece_of s <$> ooo_buffer s ++ w ++ ready_queue s ++ detached s) ≡ₚ
    added s ++ restarted s;
  pi_detached : num_detached_coros s = len (ready_queue s) + len (detached s);
  pi_size : len (ooo_buffer s) ≤ ooo_size;
}.

Definition held (s : CoroSched) : list Z :=
  match stage s with InMain | WaitZero _ | WaitChoose _ => [] | _ => [current s] end.
Definition at_work (s : CoroSched) : list Z := match stage s with InPiece => [current s] | _ => [] end.

Definition wait_ok (s : CoroSched) : Prop :=
  match stage s with
  | WaitZero c | WaitChoose c => current s ∈ ooo_buffer s ∧ ooo_buffer s !! 0%nat = Some c
  | _ => True
  end.
(** without signals nothing is ever detached or paused *)
Definition no_signals (s : CoroSched) : Prop :=
  use_signal_future = false → ready_queue s = [] ∧ detached s = [] ∧ paused_coro s = 0.
Definition has_room (s : CoroSched) : Prop :=
  use_signal_future = false → stage s = InPiece → c_sched_key (cos s (current s)) ≠ 0 → len (ooo_buffer s) < ooo_size.

Record CInv (s : CoroSched) (ab : list PQValue) : Prop := {
  ci_parts : PInv s ab (held s) (at_work s);
  ci_wait : wait_ok s;
  ci_idle : stage s = GetIdle → ooo_buffer s = [] ∧ ab = [];
  ci_main : stage s = InMain → current s = 0;
  ci_off : no_signals s;
  ci_room : has_room s;
}.

(** *** Places *)

Lemma places_nodup s ab h w : PInv s ab h w → NoDup (free_corostack_list s ++ ooo_buffer s ++ h ++ ready_queue s ++ detached s).
Proof using All. intros H. rewrite (pi_places _ _ _ _ H). apply Hall. Qed.

Lemma place_nonzero s ab h w c : PInv s ab h w → c ∈ free_corostack_list s ++ ooo_buffer s ++ h ++ ready_queue s ++ detached s → c ≠ 0.
Proof using All. intros H Hc ->. rewrite (pi_places _ _ _ _ H) in Hc. by apply Hall. Qed.

Lemma current_not_free s ab h w c : PInv s ab h w → c ∈ ooo_buffer s → c ∉ free_corostack_list s.
Proof using All.
  intros H Hc Hf. pose proof (places_nodup s ab h w H) as Hnd. apply NoDup_app in Hnd as (_ & Hd & _). apply (Hd c Hf).
  apply elem_of_app. by left.
Qed.

(** the number of detached coroutines fits in its counter *)
Lemma detached_bound s ab h w : PInv s ab h w → 0 ≤ num_detached_coros s ∧ num_detached_coros s + len h ≤ kMaxNrCoroutine.
Proof using All.
  intros H. rewrite (pi_detached _ _ _ _ H). pose proof (Permutation_length (pi_places _ _ _ _ H)) as Hl. rewrite !length_app in Hl.
  destruct Hall as (_ & _ & Hn). lia.
Qed.

(** *** Switching *)

Lemma switch_ok s ab c : PInv s ab [c] [c] → no_signals s →
  (use_signal_future = false → c_sched_key (cos s c) ≠ 0 → len (ooo_buffer s) < ooo_size) →
  ∃ s', SwitchTo s c = Ok s' ∧ CInv s' ab.
Proof using All.
  intros H Ho Hr. unfold SwitchTo. destruct (Z.eqb_spec c 0) as [->|Hc].
  { exfalso. apply (place_nonzero s ab [0] [0] 0 H); [|done]. rewrite !elem_of_app. right. right. left. left. }
  eexists. split; [done|]. split; try done; [by destruct H; split|].
  intros Hs _ Hk. by apply Hr.
Qed.

Lemma start_new_ok s ab : PInv s ab [] [] → no_signals s →
  (current s ∈ free_corostack_list s → len (ooo_buffer s) < ooo_size ∧
    c_sched_key (cos s (current s)) = sched_key (piece_of s (current s)) ∧ key_range (piece_of s (current s))) →
  match StartNewCoroutine s with Ok s' => CInv s' ab | Err f => use_signal_future = true end.
Proof using All.
  intros H Ho Hc. unfold StartNewCoroutine, GetCoroStack. destruct (free_corostack_list s) as [|c l] eqn:Ef; cbn [mbind result_bind].
  - destruct use_signal_future eqn:Hs; [done|]. exfalso. destruct (Ho Hs) as (E1 & E2 & _).
    pose proof (Permutation_length (pi_places _ _ _ _ H)) as Hl. rewrite Ef, E1, E2, !length_app in Hl. cbn in Hl.
    pose proof (pi_size _ _ _ _ H). destruct Hall as (_ & _ & Hn). lia.
  - cbn [current set_free]. destruct H as [H1 H2 H3 H4 H5 H6 H7 H8 H9]. rewrite Ef in H1. destruct (Z.eqb_spec c (current s)) as [->|Hne].
    + destruct (Hc ltac:(left)) as (Hr & Hk1 & Hk2). split; try done; [|by intros _ _ _].
      split; cbn; try done.
      * perm.
      * intros c. rewrite elem_of_app, elem_of_cons, elem_of_app. intros [Hx|[->|Hx]]; [apply H5; rewrite !elem_of_app; tauto|done|].
        apply H5. rewrite !elem_of_app. tauto.
      * change (piece_of _) with (piece_of s). change (c_piece (cos s (current s))) with (piece_of s (current s)). perm.
    + split; try done. split; cbn; try done. perm.
Qed.

Lemma exit_ok s ab c : PInv s ab [c] [] → no_signals s → current s = c →
  match ExitExecutionRoutine s with Ok s' => CInv s' ab | Err f => use_signal_future = true end.
Proof using All.
  intros H Ho Hc. unfold ExitExecutionRoutine, ReturnCoroStack. cbn.
  assert (Hoff : use_signal_future = false → paused_coro s = 0 ∧ ready_queue s = []) by (intros Hs; destruct (Ho Hs) as (? & ? & ?); done).
  destruct (Z.eqb_spec (paused_coro s) 0) as [Ep|Ep]; cbn.
  2: { destruct use_signal_future; [done|]. by destruct Hoff. }
  case_bool_decide as Er; cbn.
  2: { destruct use_signal_future; [done|]. by destruct Hoff. }
  destruct H as [H1 H2 H3 H4 H5 H6 H7 H8 H9]. split; try done. split; cbn; try done. rewrite Hc. perm.
Qed.

(** *** Queues *)

(** a queue with the same contents but for the piece [r] taken from it *)
Lemma take_piece_ok s ab q' ab' r b : PInv s ab [current s] [] → queue_inv max q' ab' →
  queued (queue s) ab ≡ₚ r :: queued q' ab' → (∀ x, x ∈ zero_list q' → x ∈ zero_list (queue s)) →
  PInv (take_piece (set_queue s q') r b) ab' [current s] [current s] ∧ key_range r.
Proof using All.
  intros H Hq Hp Hz. pose proof (places_nodup s ab _ _ H) as Hnd. destruct H as [H1 H2 H3 H4 H5 H6 H7 H8 H9].
  assert (Hc : ∀ c, c ∈ ooo_buffer s ++ [] ++ ready_queue s ++ detached s → c ≠ current s).
  { intros c Hc ->. apply NoDup_app in Hnd as (_ & _ & Hnd). rewrite app_assoc, (Permutation_app_comm _ [current s]), <- app_assoc in Hnd.
    cbn in Hnd. apply NoDup_cons in Hnd as [Hn _]. by apply Hn. }
  assert (Hk : key_range r) by (apply H4; rewrite Hp; left).
  split; [|done]. set (s' := take_piece _ _ _).
  assert (Ho : ∀ c, c ∈ ooo_buffer s ++ [] ++ ready_queue s ++ detached s → cos s' c = cos s c).
  { intros c Hx. cbn. rewrite fn_lookup_insert_ne; [done|]. intros E. by apply (Hc c Hx). }
  split; cbn [ooo_buffer free_corostack_list ready_queue detached queue finished added restarted num_detached_coros]; try done.
  - intros x Hx. by apply H3, Hz.
  - intros x Hx. apply H4. rewrite Hp. by right.
  - intros c Hx. assert (c = current s ∨ c ∈ ooo_buffer s ++ [] ++ ready_queue s ++ detached s) as [->|Hy].
    { revert Hx. cbn. rewrite !elem_of_app, elem_of_cons, elem_of_app. tauto. }
    + unfold piece_of. cbn. rewrite fn_lookup_insert. done.
    + unfold piece_of. rewrite (Ho c Hy). by apply H5.
  - intros c Hx. rewrite Ho; [by apply H6|]. apply elem_of_app. by left.
  - assert (E : piece_of s' <$> ooo_buffer s ++ [current s] ++ ready_queue s ++ detached s ≡ₚ
      r :: (piece_of s <$> ooo_buffer s ++ [] ++ ready_queue s ++ detached s)).
    { transitivity (piece_of s' <$> current s :: ooo_buffer s ++ [] ++ ready_queue s ++ detached s).
      - apply fmap_Permutation. cbn. by rewrite <- Permutation_middle.
      - rewrite fmap_cons. unfold piece_of at 1. cbn [cos s' take_piece set_stage set_current set_co]. rewrite fn_lookup_insert. constructor.
        apply reflexive_eq, list_fmap_ext. intros i c Hx. unfold piece_of. rewrite Ho; [done|]. by apply list_elem_of_lookup_2 in Hx. }
    change (finished s ++ queued q' ab' ++ (piece_of s' <$> ooo_buffer s ++ [current s] ++ ready_queue s ++ detached s) ≡ₚ added s ++ restarted s).
    rewrite E. clear E Ho. perm.
Qed.

(** a queue with the same contents *)
Lemma same_queue_ok s ab q' ab' h w : PInv s ab h w → queue_inv max q' ab' → queued q' ab' ≡ₚ queued (queue s) ab →
  zero_list q' = zero_list (queue s) → PInv (set_queue s q') ab' h w.
Proof using All.
  intros [H1 H2 H3 H4 H5 H6 H7 H8 H9] Hq Hp Hz. split; cbn; try done.
  - by rewrite Hz.
  - intros r Hr. apply H4. by rewrite <- Hp.
  - change (piece_of (set_queue s q')) with (piece_of s). perm.
Qed.

Lemma with_st_ok q ab x : queue_inv max q ab → queue_inv max (mkQ (pol q) (pending q) (waiting q) (zq q) x) ab.
Proof using All. intros []. by split. Qed.

Lemma process_ok s ab h w : PInv s ab h w →
  PInv (set_queue s (ProcessPending max (queue s))) (ab ++ (fresh <$> pending_list max (queue s))) h w.
Proof using All.
  intros H. destruct (ProcessPending_ok max Hmax (queue s) ab (pi_queue _ _ _ _ H)) as (Hq & Hp & _ & Hz & _).
  assert (Ez : zero_list (ProcessPending max (queue s)) = zero_list (queue s)) by (unfold zero_list; by rewrite Hz).
  apply (same_queue_ok s ab); [done|done| |done]. unfold queued. rewrite Ez, Hp, fmap_app.
  rewrite <- list_fmap_compose. change (v_routine ∘ fresh) with (fun x : Routine => x). rewrite list_fmap_id.
  cbn. by rewrite (Permutation_app_comm (v_routine <$> ab)).
Qed.

(** the least key of the priority queue *)
Lemma top_key_least s ab h w v k : PInv s ab h w → v ∈ ab → pq_is_empty s = false ∧ top_key k s ≤ vkey v.
Proof using All.
  intros H Hv. unfold pq_is_empty, top_key. destruct (pi_queue _ _ _ _ H) as [Q _ _ _ _].
  destruct (top_least (pol (queue s)) ab Q) as (t & r & ? & ? & ? & ? & E & _ & _ & _ & _ & _ & Hm); [by intros ->; apply elem_of_nil in Hv|].
  rewrite E. split; [by case_bool_decide|by apply Hm].
Qed.

(** *** Getting a piece *)

Lemma get_zero_ok ready s ab : CInv s ab → stage s = GetZero →
  match get_zero ready s with Ok s' => ∃ ab', CInv s' ab' | Err f => use_signal_future = true end.
Proof using All.
  intros [H Hw Hi Hm Ho Hr] Es. unfold held, at_work in H. rewrite Es in H. unfold get_zero.
  destruct (Z.ltb_spec (zq_start (zq (queue s))) (zq_end (zq (queue s)))) as [Hz|Hz].
  - destruct (take_piece_ok s ab (mkQ (pol (queue s)) (pending (queue s)) (waiting (queue s))
      (mkZQ (zq_q (zq (queue s))) (zq_end (zq (queue s))) (zq_start (zq (queue s)) + 1)) (set_running (st (queue s)) kRunning)) ab
      (zq_q (zq (queue s)) (zq_start (zq (queue s)))) false H) as [H' Hk].
    + destruct (pi_queue _ _ _ _ H) as [Q1 Q2 Q3 Q4 Q5]. split; cbn; try done. lia.
    + unfold queued. rewrite (zero_list_cons (queue s)) by done. done.
    + intros x Hx. rewrite (zero_list_cons (queue s)) by done. by right.
    + exists ab. split; try done. intros _ _. cbn. rewrite fn_lookup_insert. cbn. intros Hne. exfalso. apply Hne.
      apply (pi_zero _ _ _ _ H). rewrite (zero_list_cons (queue s)) by done. left.
  - assert (Hq : ∀ x, PInv (set_queue s (with_running (queue s) x)) ab [current s] []).
    { intros x. apply (same_queue_ok s ab); [done| |done|done]. apply with_st_ok, (pi_queue _ _ _ _ H). }
    destruct ready; cbn [negb].
    + set (x := if _ && _ then kSleeping else kRunning). cbn [paused_coro set_queue].
      destruct (Z.eqb_spec (paused_coro s) 0) as [Ep|Ep]; cbn [negb].
      * exists ab. split; try done. by destruct (Hq x); split.
      * cbn. destruct use_signal_future eqn:Hu; [done|]. by destruct (Ho Hu) as (_ & _ & ?).
    + pose proof (exit_ok (set_queue s (with_running (queue s) kSleeping)) ab (current s) (Hq kSleeping) Ho eq_refl) as He.
      destruct (ExitExecutionRoutine _); [by exists ab|done].
Qed.

Lemma get_pending_ok s ab : CInv s ab → stage s = GetPending →
  match get_pending max s with Ok s' => ∃ ab', CInv s' ab' | Err f => use_signal_future = true end.
Proof using All.
  intros [H Hw Hi Hm Ho Hr] Es. unfold held, at_work in H. rewrite Es in H. unfold get_pending.
  exists (ab ++ (fresh <$> pending_list max (queue s))). split; try done. by destruct (process_ok s ab _ _ H); split.
Qed.

(** the first entry of the buffer leaves it *)
Lemma pop_ooo_ok s ab h c : PInv s ab h [] → ooo_buffer s !! 0%nat = Some c →
  PInv (pop_ooo fv_signals s) ab (h ++ [c]) [c] ∧ len (ooo_buffer (pop_ooo fv_signals s)) < ooo_size.
Proof using All.
  intros H Hc. destruct (ooo_buffer s) as [|x l] eqn:Eo; [done|]. injection Hc as ->.
  destruct (pop_heap_perm (MinHeapCompare fv_signals (cos s)) c l) as (l' & E & Hp).
  assert (Eo' : ooo_buffer (pop_ooo fv_signals s) = l').
  { cbn. rewrite Eo, E. cbn [length]. replace (S (length l) - 1)%nat with (length l) by lia.
    rewrite <- (Permutation_length Hp). apply take_app_length. }
  pose proof (Permutation_length Hp) as Hl. pose proof (pi_size _ _ _ _ H) as Hs. rewrite Eo in Hs. cbn [length] in Hs.
  split; [|rewrite Eo'; lia].
  assert (Hin : ∀ x, x ∈ l' → x ∈ ooo_buffer s) by (intros x Hx; rewrite Eo; right; by rewrite <- Hp).
  destruct H as [H1 H2 H3 H4 H5 H6 H7 H8 H9]. rewrite Eo in H1, H7.
  split; rewrite ?Eo'; cbn [free_corostack_list ready_queue detached queue cos finished added restarted num_detached_coros pop_ooo set_ooo]; try done.
  - perm.
  - intros x Hx. apply H5. revert Hx. rewrite Eo. cbn. rewrite elem_of_app, !elem_of_cons, !elem_of_app, Hp. tauto.
  - intros x Hx. by apply H6, Hin.
  - change (piece_of (pop_ooo fv_signals s)) with (piece_of s).
    assert (Hp' : piece_of s <$> l' ≡ₚ piece_of s <$> l) by by rewrite Hp. clear Hp. perm.
  - lia.
Qed.

(** a coroutine of the ready queue leaves it *)
Lemma pop_ready_ok s ab h c l : PInv s ab h [] → ready_queue s = c :: l →
  PInv (set_ready s l (u64 (num_detached_coros s - 1))) ab (h ++ [c]) [c].
Proof using All.
  intros H E. pose proof (detached_bound s ab h [] H) as Hb. destruct H as [H1 H2 H3 H4 H5 H6 H7 H8 H9]. rewrite E in *. cbn [length] in *.
  split; cbn; try done.
  - perm.
  - rewrite u64_id; [lia|]. unfold kMaxNrCoroutine in *. lia.
Qed.

(** the running coroutine goes back to the free list, another one takes its place *)
Lemma shutdown_ok s ab c : PInv s ab ([current s] ++ [c]) [c] → no_signals s →
  (use_signal_future = false → c_sched_key (cos s c) ≠ 0 → len (ooo_buffer s) < ooo_size) →
  ∃ s', ShutdownAndSwitchTo s c = Ok s' ∧ CInv s' ab.
Proof using All.
  intros [H1 H2 H3 H4 H5 H6 H7 H8 H9] Ho Hr. unfold ShutdownAndSwitchTo. apply switch_ok; [|done|done].
  split; cbn; try done. perm.
Qed.

Lemma get_choose_ok s ab : CInv s ab → stage s = GetChoose →
  match get_choose ooo_size fv_signals s with Ok s' => ∃ ab', CInv s' ab' | Err f => use_signal_future = true end.
Proof using All.
  intros [H Hw Hi Hm Ho Hr] Es. unfold held, at_work in H. rewrite Es in H. unfold get_choose.
  destruct (ready_queue s) as [|c l] eqn:Er.
  2: { destruct use_signal_future eqn:Hu; [|by destruct (Ho Hu) as (? & _); congruence].
       destruct (shutdown_ok (set_ready s l (u64 (num_detached_coros s - 1))) ab c) as (s' & -> & Hs'); [|intros ?; congruence|intros ?; congruence|by exists ab].
       by apply (pop_ready_ok s ab [current s] c l). }
  destruct (ooo_first ooo_size s (ooo_buffer s !!! 0%nat)) eqn:Ef.
  { assert (Hc : ooo_buffer s !! 0%nat = Some (ooo_buffer s !!! 0%nat)).
    { unfold ooo_first in Ef. zprop. apply list_lookup_lookup_total_lt. lia. }
    destruct (pop_ooo_ok s ab [current s] _ H Hc) as [Hp Hl].
    destruct (shutdown_ok (pop_ooo fv_signals s) ab _ Hp) as (s' & -> & Hs'); [exact Ho|by intros _ _|by exists ab]. }
  unfold pq_is_empty in *. case_bool_decide as Epq; cbn [negb].
  - exists ab. pose proof (pi_queue _ _ _ _ H) as [Q1 Q2 Q3 Q4 Q5].
    pose proof (proj1 (pq_empty _ _ Q1) Epq) as ->.
    assert (Eo : ooo_buffer s = []).
    { unfold ooo_first, pq_is_empty in Ef. rewrite bool_decide_true, orb_true_r, andb_true_r in Ef by done. zprop.
      destruct (ooo_buffer s); [done|cbn in Ef; lia]. }
    split; try done. cbn [held at_work set_stage set_current stage current].
    assert (Hx : PInv (set_queue s (mkQ (pol (queue s)) (pending (queue s)) (waiting (queue s)) (zq (queue s))
      (mkState (current_sched_key (st (queue s))) (ts (st (queue s))) 0 (running (st (queue s)))))) [] [current s] []).
    { apply (same_queue_ok s []); [done|by apply with_st_ok, (pi_queue _ _ _ _ H)|done|done]. }
    by destruct Hx; split.
  - pose proof (pi_queue _ _ _ _ H) as [Q1 Q2 Q3 Q4 Q5].
    destruct (Consume_ok (pol (queue s)) ab Q1) as (v & l1 & l2 & p' & -> & Hfl & -> & Hs'); [intros Hx; by apply (pq_empty _ _ Q1) in Hx|].
    cbn [mbind result_bind]. destruct Hfl as (Eab & _).
    destruct (take_piece_ok s ab (mkQ p' (pending (queue s)) (waiting (queue s)) (zq (queue s)) (st (queue s))) (l1 ++ l2) (v_routine v) true H)
      as [Hp Hk]; [by split|subst ab; unfold queued; rewrite !fmap_app, fmap_cons|done|].
    { change (zero_list (mkQ _ _ _ _ _)) with (zero_list (queue s)). change (pending_list max (mkQ _ _ _ _ _)) with (pending_list max (queue s)).
      clear. perm. }
    exists (l1 ++ l2). split; try done. intros _ _ _. cbn. unfold ooo_first in Ef. apply andb_false_iff in Ef as [Ef|Ef]; zprop; [lia|].
    pose proof (pi_size _ _ _ _ H). lia.
Qed.

Lemma get_idle_ok retry s ab : CInv s ab → stage s = GetIdle →
  match get_idle retry s with Ok s' => ∃ ab', CInv s' ab' | Err f => use_signal_future = true end.
Proof using All.
  intros [H Hw Hi Hm Ho Hr] Es. destruct (Hi Es) as [Eo Ea]. unfold held, at_work in H. rewrite Es in H. unfold get_idle.
  destruct retry; [exists ab; split; try done; by destruct H; split|].
  destruct (Z.ltb_spec 0 (num_detached_coros s)); [exists ab; split; try done; by destruct H; split|].
  pose proof (pi_detached _ _ _ _ H) as Hd. pose proof (Permutation_length (pi_places _ _ _ _ H)) as Hl. rewrite Eo, !length_app in Hl. cbn in Hl.
  destruct Hall as (_ & _ & Hn). destruct (Z.eqb_spec (len (free_corostack_list s)) (kMaxNrCoroutine - 1)) as [|Hne]; [|lia]. cbn.
  pose proof (exit_ok s ab (current s) H Ho eq_refl) as He. destruct (ExitExecutionRoutine s); [by exists ab|done].
Qed.

(** *** Waiting *)

(** the running coroutine enters the buffer; its record keeps its piece *)
Lemma push_ooo_ok s ab co l : PInv s ab [current s] [current s] → len (ooo_buffer s) < ooo_size →
  c_sched_key co = c_sched_key (cos s (current s)) → c_piece co = c_piece (cos s (current s)) → c_sched_key co ≤ c_preempt_key co →
  l ≡ₚ ooo_buffer s ++ [current s] →
  PInv (set_ooo (set_co s (current s) co) l) ab [] [].
Proof using All.
  intros H Hl E1 E2 E3 Hp. set (s' := set_ooo _ _). destruct H as [H1 H2 H3 H4 H5 H6 H7 H8 H9].
  assert (Hin : ∀ x, x ∈ l → x = current s ∨ x ∈ ooo_buffer s) by (intros x; rewrite Hp, elem_of_app, list_elem_of_singleton; tauto).
  assert (Hpiece : ∀ x, piece_of s' x = piece_of s x).
  { intros x. unfold piece_of. cbn. destruct (decide (x = current s)) as [->|]; [by rewrite fn_lookup_insert|by rewrite fn_lookup_insert_ne]. }
  assert (Hkey : ∀ x, c_sched_key (cos s' x) = c_sched_key (cos s x)).
  { intros x. cbn. destruct (decide (x = current s)) as [->|]; [by rewrite fn_lookup_insert|by rewrite fn_lookup_insert_ne]. }
  split; cbn [s' set_ooo set_co free_corostack_list ooo_buffer ready_queue detached queue finished added restarted num_detached_coros]; try done.
  - perm.
  - intros x Hx. fold s'. rewrite Hkey, !Hpiece. apply H5. revert Hx. cbn. rewrite !elem_of_app, elem_of_cons, elem_of_app.
    intros [Hx|Hx]; [destruct (Hin x Hx); tauto|tauto].
  - intros x Hx. cbn. destruct (decide (x = current s)) as [->|]; [by rewrite fn_lookup_insert|rewrite fn_lookup_insert_ne by done].
    destruct (Hin x Hx) as [->|]; [done|by apply H6].
  - fold s'. assert (E : piece_of s' <$> l ++ [] ++ ready_queue s ++ detached s = piece_of s <$> l ++ [] ++ ready_queue s ++ detached s).
    { apply list_fmap_ext. intros. apply Hpiece. }
    rewrite E. clear E Hpiece Hkey. assert (Hp' : piece_of s <$> l ≡ₚ piece_of s <$> ooo_buffer s ++ [current s]) by by rewrite Hp.
    clear Hp. perm.
  - rewrite Hp, length_app. cbn. lia.
Qed.

Lemma wait_call_ok s ab : CInv s ab → stage s = InPiece →
  match wait_call max ooo_size fv_signals s with Ok s' => ∃ ab', CInv s' ab' | Err f => use_signal_future = true end.
Proof using All.
  intros [H Hw Hi Hm Ho Hr] Es. unfold held, at_work in H. rewrite Es in H. unfold wait_call.
  destruct (Z.eqb_spec (paused_coro s) 0) as [Ep|Ep]; cbn [negb abort_if mbind result_bind].
  2: { destruct use_signal_future eqn:Hu; [done|]. by destruct (Ho Hu) as (_ & _ & ?). }
  pose proof (process_ok s ab _ _ H) as Hp. set (s1 := set_queue s _) in *.
  change (cos s1) with (cos s). change (current s1) with (current s). change (ooo_buffer s1) with (ooo_buffer s).
  set (me := cos s (current s)) in *.
  destruct (Z.eqb_spec (c_sched_key me) 0) as [Ek|Ek].
  { exists (ab ++ (fresh <$> pending_list max (queue s))). assert (Es1 : stage s1 = InPiece) by exact Es.
    split; [unfold held, at_work; by rewrite Es1|exact Hw|by rewrite Es1|by rewrite Es1|exact Ho|exact Hr]. }
  destruct (Z.eqb_spec (len (ooo_buffer s)) ooo_size) as [El|El]; cbn [abort_if mbind result_bind].
  { destruct use_signal_future eqn:Hu; [done|]. pose proof (Hr Hu Es Ek). lia. }
  destruct (pi_pieces _ _ _ _ Hp (current s)) as [Hk1 Hk2]; [rewrite !elem_of_app; right; left; left|].
  change (cos s1 (current s)) with me in Hk1. unfold key_range in Hk2. rewrite <- Hk1 in Hk2.
  set (times := u64 (c_preempt_times me + 1)). set (co := mkCoro _ _ _ _). set (l := push_heap _ _).
  assert (Hl : l ≡ₚ ooo_buffer s ++ [current s]) by apply push_heap_perm.
  assert (Hlast : PInv (set_ooo (set_co s1 (current s1) co) l) (ab ++ (fresh <$> pending_list max (queue s))) [] []).
  { apply push_ooo_ok; try done.
    - pose proof (pi_size _ _ _ _ H). cbn. lia.
    - cbn. pose proof (u64_range (c_preempt_times me + 1)) as Ht. fold times in Ht. unfold kPreemptKeyThreshold, kMaxBackoff, key_range in *.
      rewrite u64_id; lia. }
  assert (Hin : current s ∈ l) by (rewrite Hl, elem_of_app; right; left).
  assert (Hhd : l !! 0%nat = Some (l !!! 0%nat)) by (apply list_lookup_lookup_total_lt; rewrite Hl, length_app; cbn; lia).
  exists (ab ++ (fresh <$> pending_list max (queue s))).
  split; [by destruct Hlast; split|exact (conj Hin Hhd)|done|done|exact Ho|done].
Qed.

Lemma wait_zero_ok c s ab : CInv s ab → stage s = WaitZero c →
  match wait_zero c s with Ok s' => ∃ ab', CInv s' ab' | Err f => use_signal_future = true end.
Proof using All.
  intros [H Hw Hi Hm Ho Hr] Es. unfold held, at_work, wait_ok in *. rewrite Es in H, Hw. destruct Hw as [Hc Hf]. unfold wait_zero.
  destruct (Z.eqb_spec (len (ooo_buffer s)) 0) as [El|_]; [destruct (ooo_buffer s); [done|cbn in El; lia]|]. cbn [andb].
  destruct (zq_start _ <? zq_end _).
  - pose proof (start_new_ok s ab H Ho) as Hs. destruct (StartNewCoroutine s); [exists ab|]; apply Hs;
      intros Hx; by destruct (current_not_free s ab [] [] _ H Hc).
  - exists ab. split; try done. by destruct H; split.
Qed.

(** the re-queued coroutines are free, their pieces in the priority queue *)
Lemma requeue_ok stale l : ∀ s ab, queue_inv max (queue s) ab →
  let '(kept, s') := requeue stale l s in
  ∃ rej, l ≡ₚ kept ++ rej ∧ free_corostack_list s' ≡ₚ rej ++ free_corostack_list s ∧ 
    queue_inv max (queue s') (ab ++ (fresh ∘ piece_of s <$> rej)) ∧
    zq (queue s') = zq (queue s) ∧ pending (queue s') = pending (queue s) ∧
    cos s' = cos s ∧ ooo_buffer s' = ooo_buffer s ∧ paused_coro s' = paused_coro s ∧ current s' = current s ∧
    ready_queue s' = ready_queue s ∧ num_detached_coros s' = num_detached_coros s ∧ stage s' = stage s ∧ detached s' = detached s ∧
    added s' = added s ∧ finished s' = finished s ∧ restarted s' = restarted s ∧
    (∀ c k, l = c :: k → top_key stale s ≤ c_sched_key (cos s c) → c ∈ rej).
Proof using All.
  induction l as [|c l IH]; intros s ab Hq; cbn [requeue].
  { exists []. cbn. rewrite app_nil_r. naive_solver. }
  destruct (Z.leb_spec (top_key stale s) (c_sched_key (cos s c))) as [Hk|Hk].
  - set (s1 := ReturnCoroStack _ c).
    assert (Hq1 : queue_inv max (queue s1) (ab ++ [fresh (piece_of s c)])).
    { destruct Hq as [Q1 Q2 Q3 Q4 Q5]. split; cbn; try done. by apply AddToPriorityQueue_ok. }
    specialize (IH s1 _ Hq1). destruct (requeue stale l s1) as [kept s'].
    destruct IH as (rej & H1 & H2 & H3 & H4 & H5 & H6 & H7 & H8 & H9 & H10 & H11 & H12 & H13 & H14 & H15 & H16 & _).
    exists (c :: rej). cbn [s1 ReturnCoroStack set_free set_queue free_corostack_list queue cos] in *.
    split; [clear -H1; perm|]. split; [clear -H2; perm|]. split; [|split_and!; try done; intros ? ? [= -> ->] _; left].
    rewrite <- app_assoc in H3. exact H3.
  - specialize (IH s ab Hq). destruct (requeue stale l s) as [kept s'].
    destruct IH as (rej & H1 & H2 & H3 & H4 & H5 & H6 & H7 & H8 & H9 & H10 & H11 & H12 & H13 & H14 & H15 & H16 & _).
    exists rej. split; [clear -H1; perm|]. split_and!; try done. intros ? ? [= -> ->]. lia.
Qed.

(** after the resolution of a deadlock the candidate is no longer preferred *)
Lemma deadlock_ok stale c s ab : PInv s ab [] [] → ooo_buffer s !! 0%nat = Some c → is_deadlock ooo_size fv_signals stale c s = true →
  let s' := resolve_deadlock ooo_size fv_signals stale c s in
  ∃ ab', PInv s' ab' [] [] ∧ len (ooo_buffer s') < ooo_size ∧ ooo_first ooo_size s' c = false ∧ pq_is_empty s' = false ∧
    cos s' = cos s ∧ current s' = current s ∧ ready_queue s' = ready_queue s ∧ detached s' = detached s ∧ paused_coro s' = paused_coro s.
Proof using All.
  intros H Hc Hd. unfold resolve_deadlock. rewrite Hd.
  pose proof (requeue_ok stale (ooo_buffer s) s ab (pi_queue _ _ _ _ H)) as Hr. destruct (requeue stale (ooo_buffer s) s) as [kept s1].
  destruct Hr as (rej & H1 & H2 & H3 & H4 & H5 & H6 & H7 & H8 & H9 & H10 & H11 & H12 & H13 & H14 & H15 & H16 & Hin).
  assert (Hcr : c ∈ rej).
  { destruct (ooo_buffer s) as [|x k]; [done|]. injection Hc as ->. apply (Hin c k eq_refl). unfold is_deadlock in Hd.
    apply andb_true_iff in Hd as [_ Hd]. apply orb_true_iff in Hd as [Hd|Hd]; zprop; lia. }
  assert (Hlen : len kept < ooo_size).
  { pose proof (pi_size _ _ _ _ H). rewrite H1, length_app in *. destruct rej; [by apply elem_of_nil in Hcr|]. cbn [length] in *. lia. }
  assert (Hmem : ∀ x, x ∈ kept ++ rej → x ∈ ooo_buffer s) by (intros x; by rewrite H1).
  pose proof (make_heap_perm kept) as Hmk. set (s' := set_ooo s1 (make_heap kept)).
  assert (Hmem' : ∀ x, x ∈ make_heap kept → x ∈ ooo_buffer s) by (intros x; rewrite Hmk; intros; apply Hmem, elem_of_app; by left).
  assert (Hz : zero_list (queue s1) = zero_list (queue s)) by (unfold zero_list; by rewrite H4).
  assert (Hpd : pending_list max (queue s1) = pending_list max (queue s)) by (unfold pending_list; by rewrite H5).
  assert (Hqd : queued (queue s1) (ab ++ (fresh ∘ piece_of s <$> rej)) ≡ₚ queued (queue s) ab ++ (piece_of s <$> rej)).
  { unfold queued. rewrite Hz, Hpd, fmap_app, <- list_fmap_compose. change (v_routine ∘ (fresh ∘ piece_of s)) with (piece_of s). by rewrite <- !app_assoc. }
  assert (HP : PInv s' (ab ++ (fresh ∘ piece_of s <$> rej)) [] []).
  { pose proof H as [I1 I2 I3 I4 I5 I6 I7 I8 I9].
    split; cbn [s' set_ooo free_corostack_list ooo_buffer ready_queue detached queue finished added restarted num_detached_coros]; fold s';
      rewrite ?H10, ?H13, ?H11, ?H14, ?H15, ?H16; try done.
    - clear -I1 H1 H2 Hmk. perm.
    - by rewrite Hz.
    - intros r. rewrite Hqd, elem_of_app, list_elem_of_fmap. intros [Hx|(x & -> & Hx)]; [by apply I4|].
      apply I5. rewrite elem_of_app. left. apply Hmem, elem_of_app. by right.
    - intros x Hx. unfold piece_of. change (cos s') with (cos s1). rewrite H6. apply I5. revert Hx. rewrite !elem_of_app. intros [Hx|Hx]; [left; by apply Hmem'|by right].
    - intros x Hx. change (cos s') with (cos s1). rewrite H6. by apply I6, Hmem'.
    - assert (E : piece_of s' = piece_of s) by (unfold piece_of; cbn; by rewrite H6). rewrite E, Hqd.
      assert (Hf1 : piece_of s <$> ooo_buffer s ≡ₚ (piece_of s <$> kept) ++ (piece_of s <$> rej)) by (rewrite <- fmap_app; by rewrite <- H1).
      assert (Hf2 : piece_of s <$> make_heap kept ≡ₚ piece_of s <$> kept) by by rewrite Hmk.
      clear -I7 Hf1 Hf2. perm.
    - rewrite Hmk. lia. }
  destruct (top_key_least s' _ [] [] (fresh (piece_of s c)) 0 HP) as [He Ht].
  { rewrite elem_of_app, list_elem_of_fmap. right. by exists c. }
  eexists. split; [exact HP|]. split; [cbn; rewrite Hmk; lia|]. split; [|split; [done|cbn; by rewrite H6, H8, H9, H10, H13]].
  unfold ooo_first. rewrite He. cbn [orb]. apply andb_false_iff. right. apply orb_false_iff. split.
  - apply Z.eqb_neq. cbn. rewrite Hmk. lia.
  - apply Z.ltb_ge. change (cos s') with (cos s1). rewrite H6. transitivity (vkey (fresh (piece_of s c))); [exact Ht|].
    change (vkey (fresh (piece_of s c))) with (sched_key (piece_of s c)).
    assert (Hco : c ∈ ooo_buffer s) by (apply Hmem, elem_of_app; by right).
    destruct (pi_pieces _ _ _ _ H c) as [<- _]; [apply elem_of_app; by left|]. by apply (pi_preempt _ _ _ _ H).
Qed.

Lemma wait_choose_ok stale c s ab : CInv s ab → stage s = WaitChoose c →
  match wait_choose ooo_size fv_signals stale c s with Ok s' => ∃ ab', CInv s' ab' | Err f => use_signal_future = true end.
Proof using All.
  intros [H Hw Hi Hm Ho Hr] Es. unfold held, at_work, wait_ok in *. rewrite Es in H, Hw. destruct Hw as [Hc Hf]. unfold wait_choose.
  destruct (ready_queue s) as [|r l] eqn:Er.
  2: { destruct use_signal_future eqn:Hu; [|by destruct (Ho Hu) as (? & _); congruence].
       pose proof (pop_ready_ok s ab [] r l H Er) as Hp. set (s1 := set_ready _ _ _) in *.
       assert (Hsw : ∀ p, ∃ s', SwitchTo (set_paused s1 p) r = Ok s' ∧ CInv s' ab).
       { intros p. apply switch_ok; [by destruct Hp; split|intros ?; congruence|intros ?; congruence]. }
       destruct (negb (len _ <? _)).
       - destruct (negb _); [done|]. cbn. destruct (Hsw (current s)) as (s' & -> & Hs'). by exists ab.
       - destruct (switch_ok s1 ab r Hp) as (s' & -> & Hs'); [intros ?; congruence|intros ?; congruence|]. by exists ab. }
  destruct (is_deadlock ooo_size fv_signals stale c s) eqn:Ed.
  - destruct (deadlock_ok stale c s ab H Hf Ed) as (ab' & HP & Hlen & Hof & Hpq & E1 & E2 & E3 & E4 & E5).
    set (s' := resolve_deadlock _ _ _ _ _) in *. rewrite Hof, Hpq. cbn [negb].
    assert (Ho' : no_signals s') by (intros Hu; rewrite E3, E4, E5; by apply Ho).
    pose proof (start_new_ok s' ab' HP Ho') as Hs. destruct (StartNewCoroutine s'); [exists ab'|]; apply Hs;
      intros _; (split; [done|]); unfold piece_of; rewrite E1, E2; apply (pi_pieces _ _ _ _ H), elem_of_app; by left.
  - unfold resolve_deadlock. rewrite Ed. destruct (ooo_first ooo_size s c) eqn:Ef.
    + destruct (pop_ooo_ok s ab [] c H Hf) as [HP Hl]. destruct (Z.eqb_spec c (current (pop_ooo fv_signals s))) as [Ec|_].
      * exists ab. split; [|done|done|done|exact Ho|by intros _ _ _]. cbn. cbn in Ec. rewrite <- Ec. by destruct HP; split.
      * destruct (switch_ok (pop_ooo fv_signals s) ab c HP Ho) as (s' & -> & Hs'); [by intros _ _|by exists ab].
    + destruct (pq_is_empty s) eqn:Epq; cbn [negb].
      * exfalso. unfold ooo_first in Ef. rewrite Epq, orb_true_l, orb_true_r, andb_true_r in Ef. zprop. destruct (ooo_buffer s); [done|cbn in Ef; lia].
      * pose proof (start_new_ok s ab H Ho) as Hs. destruct (StartNewCoroutine s); [exists ab|]; apply Hs;
          intros Hx; by destruct (current_not_free s ab [] [] _ H Hc).
Qed.

(** *** The other events *)

Lemma done_ok s ab : CInv s ab → stage s = InPiece →
  CInv (mkCS (Complete (queue s)) (cos s) (free_corostack_list s) (ooo_buffer s) (paused_coro s) (current s) (ready_queue s)
    (num_detached_coros s) GetZero (detached s) (added s) (c_piece (cos s (current s)) :: finished s) (restarted s)) ab.
Proof using All.
  intros [H Hw Hi Hm Ho Hr] Es. unfold held, at_work in H. rewrite Es in H. split; try done.
  destruct H as [H1 H2 H3 H4 H5 H6 H7 H8 H9]. split; try done.
  - by apply with_st_ok.
  - intros c Hc. apply H5. revert Hc. cbn. rewrite !elem_of_app, elem_of_cons, elem_of_app. tauto.
  - change (queued _ ab) with (queued (queue s) ab). cbn. change (piece_of _) with (piece_of s).
    change (c_piece (cos s (current s))) with (piece_of s (current s)). perm.
Qed.

Lemma attach_ok s ab : CInv s ab → stage s = InPiece → use_signal_future = true →
  match StartNewCoroutine (mkCS (queue s) (cos s) (free_corostack_list s) (ooo_buffer s) (paused_coro s) (current s)
    (ready_queue s) (u64 (num_detached_coros s + 1)) (stage s) (current s :: detached s) (added s) (finished s) (restarted s))
  with Ok s' => CInv s' ab | Err f => use_signal_future = true end.
Proof using All.
  intros [H Hw Hi Hm Ho Hr] Es Hu. unfold held, at_work in H. rewrite Es in H. set (s1 := mkCS _ _ _ _ _ _ _ _ _ _ _ _ _).
  pose proof (places_nodup s ab _ _ H) as Hnd. pose proof (detached_bound s ab _ _ H) as Hb.
  pose proof (start_new_ok s1 ab) as Hs. destruct (StartNewCoroutine s1) as [s'|]; [|done]. apply Hs; [|intros ?; congruence|].
  - destruct H as [H1 H2 H3 H4 H5 H6 H7 H8 H9]. split; cbn; try done.
    + perm.
    + intros c Hc. apply H5. revert Hc. cbn. rewrite !elem_of_app, !elem_of_cons, elem_of_app. tauto.
    + change (piece_of s1) with (piece_of s). perm.
    + cbn [length] in Hb. rewrite u64_id by (unfold kMaxNrCoroutine in *; lia). lia.
  - intros Hf. apply NoDup_app in Hnd as (_ & Hd & _). exfalso. apply (Hd (current s) Hf). rewrite !elem_of_app. right. left. left.
Qed.

Lemma signal_ok c s ab : CInv s ab → c ∈ detached s →
  CInv (mkCS (queue s) (cos s) (free_corostack_list s) (ooo_buffer s) (paused_coro s) (current s) (c :: ready_queue s)
    (num_detached_coros s) (stage s) (filter (fun x => x ≠ c) (detached s)) (added s) (finished s) (restarted s)) ab.
Proof using All.
  intros [H Hw Hi Hm Ho Hr] Hc. set (s1 := mkCS _ _ _ _ _ _ _ _ _ _ _ _ _).
  assert (Hp : detached s ≡ₚ c :: filter (fun x => x ≠ c) (detached s)).
  { pose proof (places_nodup s ab _ _ H) as Hnd. rewrite !NoDup_app in Hnd. destruct Hnd as (_ & _ & _ & _ & _ & _ & _ & _ & Hnd).
    apply list_elem_of_split in Hc as (k1 & k2 & E). rewrite E in *. apply NoDup_app in Hnd as (N1 & N2 & N3). apply NoDup_cons in N3 as [N3 _].
    rewrite filter_app, filter_cons_False by (intros Hx; by apply Hx). rewrite <- Permutation_middle. constructor.
    rewrite !filter_all; [done|..].
    - by intros x Hx ->.
    - intros x Hx ->. apply (N2 c Hx). left. }
  assert (Hon : use_signal_future = true).
  { destruct use_signal_future eqn:Hu; [done|]. destruct (Ho Hu) as (_ & E & _). rewrite E in Hc. by apply elem_of_nil in Hc. }
  split; try done; [|intros ?; congruence].
  change (held s1) with (held s). change (at_work s1) with (at_work s). destruct H as [H1 H2 H3 H4 H5 H6 H7 H8 H9].
  split; cbn [s1 free_corostack_list ooo_buffer ready_queue detached queue finished added restarted num_detached_coros cos]; try done.
  - clear -H1 Hp. perm.
  - intros x Hx. apply H5. revert Hx. rewrite !elem_of_app, elem_of_cons, list_elem_of_filter. intros [?|[?|[[->|?]|[_ ?]]]]; tauto.
  - change (piece_of s1) with (piece_of s). assert (Hp' : piece_of s <$> detached s ≡ₚ piece_of s <$> c :: filter (fun x => x ≠ c) (detached s)) by by apply fmap_Permutation.
    clear -H7 Hp'. perm.
  - pose proof (Permutation_length Hp) as Hl. cbn [length] in Hl |- *. lia.
Qed.

Lemma zeros_ordered rs : rs ≡ₚ zeros rs ++ ordered rs.
Proof using All.
  induction rs as [|r rs IH]; [done|]. destruct (decide (is_zero r)).
  - rewrite (filter_cons_True is_zero), (filter_cons_False (fun r => ¬ is_zero r)) by tauto. cbn. by constructor.
  - rewrite (filter_cons_False is_zero), (filter_cons_True (fun r => ¬ is_zero r)) by tauto. rewrite <- Permutation_middle. by constructor.
Qed.

Lemma add_ok rs s ab : CInv s ab → fits max (queue s) rs = true → forallb key_ok rs = true →
  ∃ q, Dispatch.Add max (queue s) rs [p_start (pending (queue s))] = Ok q ∧
  CInv (mkCS q (cos s) (free_corostack_list s) (ooo_buffer s) (paused_coro s) (current s)
    (ready_queue s) (num_detached_coros s) (stage s) (detached s) (added s ++ rs) (finished s) (restarted s)) ab.
Proof using All.
  intros [H Hw Hi Hm Ho Hr] Hf Hk. unfold fits in Hf. rewrite !andb_true_iff in Hf. destruct Hf as [[Hf1 Hf2] Hf3]. zprop.
  destruct (Add_ok max Hmax (queue s) ab rs [] (pi_queue _ _ _ _ H)) as (q & E & Hq & Hz & Hp & _); [done..|].
  exists q. split; [exact E|]. split; try done. set (s1 := mkCS _ _ _ _ _ _ _ _ _ _ _ _ _).
  change (held s1) with (held s). change (at_work s1) with (at_work s). destruct H as [H1 H2 H3 H4 H5 H6 H7 H8 H9].
  assert (Hrs : rs ≡ₚ zeros rs ++ ordered rs) by apply zeros_ordered.
  assert (Hqd : queued q ab ≡ₚ queued (queue s) ab ++ rs) by (unfold queued; rewrite Hz, Hp; clear -Hrs; perm).
  split; cbn [s1 free_corostack_list ooo_buffer ready_queue detached queue finished added restarted num_detached_coros cos]; try done.
  - intros r. rewrite Hz, elem_of_app, list_elem_of_filter. intros [Hx|[Hx _]]; [by apply H3|done].
  - intros r. rewrite Hqd, elem_of_app. intros [Hx|Hx]; [by apply H4|]. rewrite forallb_forall in Hk.
    specialize (Hk r ltac:(by apply list_elem_of_In)). unfold key_ok in Hk. zprop. unfold key_range. lia.
  - change (piece_of s1) with (piece_of s). clear -H7 Hqd. perm.
Qed.

Lemma coro_step_ok ev s ab : CInv s ab →
  match coro_step max ooo_size use_signal_future fv_signals ev s with
  | Ok s' => ∃ ab', CInv s' ab'
  | Err f => f = Blocked ∨ use_signal_future = true
  end.
Proof using All.
  intros H. assert (Hwrap : ∀ r : result CoroSched, match r with Ok s' => ∃ ab', CInv s' ab' | Err f => use_signal_future = true end →
    match r with Ok s' => ∃ ab', CInv s' ab' | Err f => f = Blocked ∨ use_signal_future = true end) by (intros [|]; [done|by right]).
  unfold coro_step. destruct ev as [|ir rt| | |stale| |c|rs]; destruct (stage s) eqn:Es; try (by left);
    try (cbn [GetNewPiece]; rewrite Es; by left); try (unfold GetNewPiece; rewrite Es).
  all: try (case_bool_decide; [by exists ab; rewrite <- Es; apply signal_ok|by left]).
  all: try (destruct (fits max (queue s) rs) eqn:Ef, (forallb key_ok rs) eqn:Ek; try (by left); cbn [andb];
    destruct (add_ok rs s ab H Ef Ek) as (q & -> & Hq); exists ab; rewrite <- Es; exact Hq).
  all: try (by left).
  - apply Hwrap. destruct H as [HP Hw Hi Hm Ho Hr]. unfold held, at_work in HP. rewrite Es in HP.
    pose proof (start_new_ok s ab HP Ho) as Hs. unfold StartCoroExec. destruct (StartNewCoroutine s); [exists ab|]; apply Hs; intros Hx;
      rewrite (Hm Es) in Hx; exfalso; apply (place_nonzero s ab _ _ 0 HP); rewrite ?elem_of_app; tauto.
  - apply Hwrap. by apply (get_zero_ok ir s ab).
  - apply Hwrap. by apply (get_pending_ok s ab).
  - apply Hwrap. by apply (get_choose_ok s ab).
  - apply Hwrap. by apply (get_idle_ok rt s ab).
  - exists ab. by apply done_ok.
  - apply Hwrap. by apply (wait_call_ok s ab).
  - apply Hwrap. by apply (wait_zero_ok _ s ab).
  - apply Hwrap. by apply (wait_choose_ok stale _ s ab).
  - destruct use_signal_future eqn:Hu; [|by left]. rewrite <- Es. pose proof (attach_ok s ab H Es Hu) as Ha.
    destruct (StartNewCoroutine _); [by exists ab|by right].
Qed.
End CoroFacts.
