(* ===== verification/CoroProps.v ===== *)
(** Theorems on the coroutine scheduler: no coroutine and no piece is lost, the
    window never overflows without signalled futures; and what goes wrong when a
    piece is re-queued or a coroutine paused. *)

From S2P Require Import Prelude Heap SchedQueue Dispatch CoroSched CoroFacts.

(** the state before the first run: all coroutines are free, the queues empty *)
Definition empty_queue (zs ps : Z → Routine) : Queue :=
  mkQ empty_sched (mkPending ps 0 0) (mkWaiting (replicate 25 inhabitant) 0 0) (mkZQ zs 0 0) (mkState 0 0 0 kSleeping).
Definition coro_initial (all : list Z) (zs ps : Z → Routine) (m : Z → CoroStack) : CoroSched :=
  mkCS (empty_queue zs ps) m all [] 0 0 [] 0 InMain [] [] [] [].

Section Runs.
Context (max ooo_size : Z) (use_signal_future : bool) (fv_signals : Routine → Z).
Context (all : list Z) (zs ps : Z → Routine) (m : Z → CoroStack).

Inductive coro_reachable : CoroSched → Prop :=
| cr_init : coro_reachable (coro_initial all zs ps m)
| cr_step s ev s' : coro_reachable s → coro_step max ooo_size use_signal_future fv_signals ev s = Ok s' → coro_reachable s'.

(** the configuration: room for the pieces, a window smaller than the set of
    coroutines, which are distinct *)
Record coro_setup : Prop := {
  cs_max : 0 < max < 2 ^ 32;
  cs_window : 1 ≤ ooo_size ≤ kMaxNrCoroutine - 2;
  cs_all : NoDup all ∧ 0 ∉ all ∧ len all = kMaxNrCoroutine;
}.

Lemma coro_reachable_inv s : coro_setup → coro_reachable s → ∃ ab, CInv max ooo_size use_signal_future all s ab.
Proof.
  intros [S1 S2 S3]. induction 1 as [|s ev s' _ [ab IH] E].
  - exists []. split; try done. cbn. split; cbn; rewrite ?app_nil_r; try done; try (intros ? Hx; by apply elem_of_nil in Hx); try lia.
    split; cbn; try done; try lia. apply empty_sched_ok.
  - pose proof (coro_step_ok max ooo_size use_signal_future fv_signals all S1 S2 S3 ev s ab IH) as H. by rewrite E in H.
Qed.
End Runs.

(** ** Theorems *)


(** Without signalled futures the scheduler never aborts and never switches to a
    null coroutine: in every reachable state each event is possible or does not
    apply; the window is never full when a piece has to wait, there is a free
    coroutine whenever one is needed, and all the coroutines are back when the
    scheduler exits. *)
Theorem coro_never_aborts max ooo_size fv all zs ps m s ev :
  coro_setup max ooo_size all → coro_reachable max ooo_size false fv all zs ps m s →
  match coro_step max ooo_size false fv ev s with Ok _ => True | Err f => f = Blocked end.
Proof.
  intros S Hr. destruct (coro_reachable_inv _ _ _ _ _ _ _ _ s S Hr) as [ab H]. destruct S as [S1 S2 S3].
  pose proof (coro_step_ok max ooo_size false fv all S1 S2 S3 ev s ab H) as Hs.
  destruct (coro_step _ _ _ _ ev s); [done|by destruct Hs].
Qed.

(** a paused coroutine is lost: when the coroutine it made room for asks for its next
    piece, the scheduler has already cleared the pointer it switches to *)
Lemma paused_switches_to_null s :
  zq_end (zq (queue s)) ≤ zq_start (zq (queue s)) → paused_coro s ≠ 0 → get_zero true s = Err OutOfRange.
Proof.
  intros Hz Hp. unfold get_zero. destruct (Z.ltb_spec (zq_start (zq (queue s))) (zq_end (zq (queue s)))); [lia|]. cbn.
  by destruct (Z.eqb_spec (paused_coro s) 0).
Qed.

(** the first test of [WaitForVHandleVal] is never true: the coroutine has been added
    to the buffer before *)
Lemma early_return_dead max ooo_size sig all c s ab : coro_setup max ooo_size all → CInv max ooo_size sig all s ab → stage s = WaitZero c →
  wait_zero c s = if zq_start (zq (queue s)) <? zq_end (zq (queue s)) then StartNewCoroutine s else Ok (set_stage s (WaitChoose c)).
Proof.
  intros _ H Es. pose proof (ci_wait _ _ _ _ _ _ H) as Hw. unfold wait_ok in Hw. rewrite Es in Hw. destruct Hw as [_ Hf]. unfold wait_zero.
  destruct (Z.eqb_spec (len (ooo_buffer s)) 0) as [El|]; [|done]. destruct (ooo_buffer s); [done|cbn in El; lia].
Qed.

(** ** Runs *)

Module CoroSamples.
Definition fv (_ : Routine) : Z := 0.
Definition none (_ : Z) : Routine := mkRt 0 0.
Definition blank (_ : Z) : CoroStack := mkCoro 0 0 0 (mkRt 0 0).
Definition all : list Z := seqZ 1 kMaxNrCoroutine.
Definition init : CoroSched := coro_initial all none none blank.
Definition run (sig : bool) (l : list CoroEvent) : result CoroSched :=
  foldl (fun s ev => s ← s; coro_step 64 1 sig fv ev s) (Ok init) l.
Definition get (r : result CoroSched) : CoroSched := match r with Ok s => s | Err _ => init end.

Lemma sample_coro_setup : coro_setup 64 1 all.
Proof.
  split; [lia|unfold kMaxNrCoroutine; lia|]. unfold all. split; [apply NoDup_seqZ|]. split; [rewrite elem_of_seqZ; lia|].
  rewrite length_seqZ. unfold kMaxNrCoroutine. lia.
Qed.

Lemma coro_run_reachable sig l : match run sig l with Ok _ => true | Err _ => false end = true →
  coro_reachable 64 1 sig fv all none none blank (get (run sig l)).
Proof.
  induction l as [|ev l IH] using rev_ind; intros E; [constructor|].
  unfold run in *. rewrite foldl_app in *. cbn in *. destruct (foldl _ _ l) as [s0|f] eqn:E0; [|done].
  cbn in *. destruct (coro_step 64 1 sig fv ev s0) as [s1|] eqn:E1; [|done]. apply (cr_step _ _ _ _ _ _ _ _ s0 ev); [by apply IH|exact E1].
Qed.

Definition fetch : list CoroEvent := [EvGet true false; EvGet true false; EvGet true false].
Definition wait : list CoroEvent := [EvWait; EvChoose 0; EvChoose 0].
(** a piece waits until it has backed off 40 times; then an older one arrives *)
Definition patient : list CoroEvent :=
  [EvAdd [mkRt 1 500]; EvStart] ++ fetch ++ concat (replicate 40 wait) ++ [EvAdd [mkRt 2 300]] ++ wait.
(** the piece goes on and is finished; so are the older piece and, again, the first one *)
Definition twice : list CoroEvent := patient ++ [EvDone] ++ fetch ++ [EvDone] ++ fetch ++ [EvDone].
(** a coroutine waits for a future; it is woken up while another one fills the window *)
Definition pausing : list CoroEvent :=
  [EvAdd [mkRt 1 500; mkRt 2 700]; EvStart] ++ fetch ++ [EvAttach] ++ fetch ++ [EvSignal 1] ++ wait ++ [EvDone].
End CoroSamples.

(** a piece that is re-queued to resolve a deadlock may go on nevertheless, on the
    coroutine that was just returned to the free list, and is run twice *)
Lemma requeued_piece_runs_twice :
  let s := CoroSamples.get (CoroSamples.run false CoroSamples.twice) in
  coro_reachable 64 1 false CoroSamples.fv CoroSamples.all CoroSamples.none CoroSamples.none CoroSamples.blank s ∧
  added s = [mkRt 1 500; mkRt 2 300] ∧ finished s = [mkRt 1 500; mkRt 2 300; mkRt 1 500] ∧ restarted s = [mkRt 1 500].
Proof.
  cbn zeta. split; [apply CoroSamples.coro_run_reachable; by vm_compute|]. split; [by vm_compute|]. split; by vm_compute.
Qed.

(** with signalled futures a run ends in the switch to the null coroutine *)
Lemma paused_run_crashes :
  let s := CoroSamples.get (CoroSamples.run true CoroSamples.pausing) in
  coro_reachable 64 1 true CoroSamples.fv CoroSamples.all CoroSamples.none CoroSamples.none CoroSamples.blank s ∧
  coro_step 64 1 true CoroSamples.fv (EvGet true false) s = Err OutOfRange.
Proof. cbn zeta. split; [apply CoroSamples.coro_run_reachable; by vm_compute|by vm_compute]. Qed.

(** ** Witnesses *)


Lemma coro_never_aborts_witness :
  let s := CoroSamples.get (CoroSamples.run false CoroSamples.patient) in
  match coro_step 64 1 false CoroSamples.fv EvWait s with Ok _ => True | Err f => f = Blocked end.
Proof.
  apply (coro_never_aborts 64 1 CoroSamples.fv CoroSamples.all CoroSamples.none CoroSamples.none CoroSamples.blank);
    [apply CoroSamples.sample_coro_setup|apply CoroSamples.coro_run_reachable; by vm_compute].
Defined.
