(* ===== verification/Tpcc.v ===== *)
(** The TPC-C workload (benchmark/tpcc): configuration and sharding by warehouse, the
    random numbers of util/random.h, and the generation of transaction inputs. *)

From S2P Require Import Prelude Bits.

(** ** Random numbers (util/random.h) *)

(** [FastRandom]: a linear congruential generator with 48 bits *)
Definition FastRandom_new (seed : Z) : Z := Z.land (Z.lxor seed 25214903917) (2 ^ 48 - 1).
Definition next_bits (bits seed : Z) : Z * Z :=
  let seed := Z.land (u64 (seed * 25214903917 + 11)) (2 ^ 48 - 1) in (Z.shiftr seed (48 - bits), seed).
(** [next_uniform], as a numerator over [2 ^ 53] *)
Definition next_uniform (seed : Z) : Z * Z :=
  let '(hi, seed) := next_bits 26 seed in
  let '(lo, seed) := next_bits 27 seed in (Z.shiftl hi 27 + lo, seed).
(** [double] arithmetic on such numerators: a sum or product is rounded to 53 bits, half to even *)
Definition round53 (x : Z) : Z :=
  let e := Z.log2 x - 52 in
  if e <=? 0 then x else
  let q := x / 2 ^ e in let r := x mod 2 ^ e in
  (if (2 ^ e <? 2 * r) || (2 * r =? 2 ^ e) && Z.odd q then q + 1 else q) * 2 ^ e.
Definition next_u32 (seed : Z) : Z * Z := let '(x, seed) := next_bits 32 seed in (u32 x, seed).

(** ** Generators: the state is the seed *)

Definition Gen (A : Type) : Type := Z → result (A * Z).
#[export] Instance gen_ret : MRet Gen := fun A a s => Ok (a, s).
#[export] Instance gen_bind : MBind Gen := fun A B k g s => '(a, s) ← g s; k a s.
Definition uniform : Gen Z := fun s => Ok (next_uniform s).
Definition gen_err {A} (f : Fault) : Gen A := fun _ => Err f.
(** an assertion *)
Definition CheckBetweenInclusive (v lower upper : Z) : Gen Z := if (lower <=? v) && (v <=? upper) then mret v else gen_err Aborted.

(** [ClientBase::RandomNumber], for [0 <= min <= max] *)
Definition scale (u min max : Z) : Z := round53 (round53 (u * (max - min + 1)) + min * 2 ^ 53) / 2 ^ 53.
Definition RandomNumber (min max : Z) : Gen Z := u ← uniform; CheckBetweenInclusive (scale u min max) min max.
(** a [do ... while] loop *)
Fixpoint repeat_until {A} (fuel : nat) (ok : A → bool) (g : Gen A) : Gen A :=
  match fuel with O => gen_err Blocked | S fuel => x ← g; if ok x then mret x else repeat_until fuel ok g end.
Definition RandomNumberExcept (fuel : nat) (min max exception : Z) : Gen Z :=
  repeat_until fuel (fun r => negb (r =? exception)) (RandomNumber min max).
Definition NonUniformRandom (A C min max : Z) : Gen Z :=
  a ← RandomNumber 0 A; b ← RandomNumber min max; mret ((Z.lor a b + C) mod (max - min + 1) + min).

(** ** Configuration and sharding (tpcc.h, tpcc.cc) *)

Record Config := mkConfig {
  uniform_item_distribution : bool; nr_items : Z; nr_warehouses : Z; districts_per_warehouse : Z; customers_per_district : Z;
  hotspot_warehouse_bitmap : Z; hotspot_load_percentage : Z; shard_by_warehouse : bool }.
Definition default_config : Config := mkConfig false 100000 16 10 3000 0 500 true.
Definition kRandomShardingMaxSliceId : Z := 101.
Definition kPWVExtraPartitions : Z := 2.
Definition kNewOrderMaxItems : Z := 15.

Section Tpcc.
(** [XXH32] is the hash of a key's bytes *)
Context (cfg : Config) (nr_nodes g_nr_threads : Z) (XXH32 : Z → Z).

Definition max_slice_id : Z := if shard_by_warehouse cfg then nr_warehouses cfg else kRandomShardingMaxSliceId.
Definition IsWarehousePinnable : bool := (nr_warehouses cfg) mod (nr_nodes * g_nr_threads) =? 0.
Definition WarehouseToSliceId (w : Z) : Z := u32 (w - 1).
(** [TpccSliceRouter]: the parameter is an [int16_t] *)
Definition SliceToNodeId (slice_id : Z) : Z := 1 + i16 slice_id * nr_nodes / max_slice_id.
Definition SliceToCoreId (slice_id : Z) : Z := u16 (i16 slice_id * nr_nodes * g_nr_threads / max_slice_id) mod g_nr_threads.
Definition WarehouseToCoreId (w : Z) : Z := SliceToCoreId (WarehouseToSliceId w).
Definition PWVDistrictToCoreId (district base : Z) : Z :=
  (district - 1 + base) mod (g_nr_threads - kPWVExtraPartitions) + kPWVExtraPartitions.

(** [ClientBase::is_warehouse_hotspot]: [1 << (wid - 1)] is an [int]; the shift is defined
    below 32 only *)
Definition is_warehouse_hotspot (wid : Z) : result bool :=
  let s := u32 (wid - 1) in
  if s <? 32 then Ok (negb (Z.land (hotspot_warehouse_bitmap cfg) (u64 (i32 (Z.shiftl 1 s))) =? 0)) else Err OutOfRange.
Definition warehouse_load (w : Z) : result Z := hot ← is_warehouse_hotspot w; Ok (if hot : bool then hotspot_load_percentage cfg else 100).

(** the warehouse whose share of the load contains [rand] *)
Fixpoint select_warehouse (ws : list Z) (rand : Z) : result Z :=
  match ws with
  | [] => Ok (-1)
  | w :: ws => l ← warehouse_load w; if rand - l <? 0 then Ok w else select_warehouse ws (rand - l)
  end.
Definition all_warehouses : list Z := seqZ 1 (nr_warehouses cfg).
Definition total_load : result Z := for_each (fun w acc => l ← warehouse_load w; Ok (acc + l)) all_warehouses 0.

(** [ClientBase::PickWarehouse] on node [node_id]; [Locate] is the slice locator of the
    warehouse table ([kWarehouseSpread] is 0) *)
Definition HashKeyToSliceId (k : Z) : Z := XXH32 k mod max_slice_id.
Definition Locate (w : Z) : Z := if shard_by_warehouse cfg then WarehouseToSliceId w else HashKeyToSliceId w.
Definition pick_once (node_id : Z) : Gen Z := fun s =>
  rand_max ← total_load;
  let '(u, s) := next_uniform s in
  selw ← select_warehouse all_warehouses (round53 (u * rand_max) / 2 ^ 53);
  Ok (if SliceToNodeId (Locate selw) =? node_id then selw else -1, s).
Definition PickWarehouse (fuel : nat) (node_id : Z) : Gen Z := repeat_until fuel (fun w => negb (w =? -1)) (pick_once node_id).
Definition PickDistrict : Gen Z := RandomNumber 1 (districts_per_warehouse cfg).
Definition GetItemId : Gen Z :=
  id ← (if uniform_item_distribution cfg then RandomNumber 1 (nr_items cfg) else NonUniformRandom 8191 7911 1 (nr_items cfg));
  CheckBetweenInclusive id 1 (nr_items cfg).
Definition GetCustomerId : Gen Z :=
  id ← NonUniformRandom 1023 259 1 (customers_per_district cfg);
  CheckBetweenInclusive id 1 (customers_per_district cfg).

(** [ClientBase::LoadPercentageByWarehouse] *)
Definition LoadPercentageByWarehouse (node_id : Z) : result Z :=
  if negb (shard_by_warehouse cfg) then Ok 100 else
  '(load, n) ← for_each (fun w '(load, n) =>
      if SliceToNodeId (Locate w) =? node_id then l ← warehouse_load w; Ok (load + l, n + 1) else Ok (load, n)) all_warehouses (0, 0);
  if n =? 0 then Err OutOfRange else Ok (load / n).

(** ** Inputs *)

(** [NewOrderStruct]: the arrays up to [nr_items]; the time stamp is set by the caller *)
Record NewOrderStruct := mkNO {
  no_warehouse_id : Z; no_district_id : Z; no_customer_id : Z;
  item_id : list Z; supplier_warehouse_id : list Z; order_quantities : list Z }.

(** an item that is not in the order yet *)
Definition fresh_item (fuel : nat) (items : list Z) : Gen Z := repeat_until fuel (fun id => negb (bool_decide (id ∈ items))) GetItemId.
(** [int(kNewOrderRemoteItem * 100)] is 1, [int(kPaymentRemoteCustomer * 100)] is 15 *)
Definition pick_supplier (fuel : nat) (w : Z) : Gen Z :=
  local ← (if nr_warehouses cfg =? 1 then mret true else r ← RandomNumber 1 100; mret (1 <? r));
  if local : bool then mret w else RandomNumberExcept fuel 1 (nr_warehouses cfg) w.
Fixpoint gen_items (fuel n : nat) (s : NewOrderStruct) : Gen NewOrderStruct :=
  match n with
  | O => mret s
  | S n =>
      id ← fresh_item fuel (item_id s);
      q ← RandomNumber 1 10;
      w ← pick_supplier fuel (no_warehouse_id s);
      gen_items fuel n (mkNO (no_warehouse_id s) (no_district_id s) (no_customer_id s) (item_id s ++ [id]) (supplier_warehouse_id s ++ [w]) (order_quantities s ++ [q]))
  end.
(** [GenerateTransactionInput<NewOrderStruct>] *)
Definition GenerateNewOrder (fuel : nat) (node_id : Z) : Gen NewOrderStruct :=
  w ← PickWarehouse fuel node_id;
  d ← PickDistrict;
  c ← GetCustomerId;
  n ← RandomNumber 5 kNewOrderMaxItems;
  gen_items fuel (Z.to_nat n) (mkNO w d c [] [] []).

(** [PaymentStruct] and its generation *)
Record PaymentStruct := mkPay {
  p_warehouse_id : Z; p_district_id : Z; customer_warehouse_id : Z; customer_district_id : Z; payment_amount : Z; p_customer_id : Z }.
Definition GeneratePayment (fuel : nat) (node_id : Z) : Gen PaymentStruct :=
  w ← PickWarehouse fuel node_id;
  d ← PickDistrict;
  local ← (if nr_warehouses cfg =? 1 then mret true else r ← RandomNumber 1 100; mret (15 <? r));
  '(cw, cd) ← (if local : bool then mret (w, d) else
    cw ← RandomNumberExcept fuel 1 (nr_warehouses cfg) w; cd ← PickDistrict; mret (cw, cd));
  a ← RandomNumber 100 500000;
  c ← GetCustomerId;
  mret (mkPay w d cw cd a c).

(** [OrderStatusStruct], [StockLevelStruct] and their generation *)
Record OrderStatusStruct := mkOS { os_warehouse_id : Z; os_district_id : Z; os_customer_id : Z }.
Definition GenerateOrderStatus (fuel : nat) (node_id : Z) : Gen OrderStatusStruct :=
  w ← PickWarehouse fuel node_id; d ← PickDistrict; c ← GetCustomerId; mret (mkOS w d c).
Record StockLevelStruct := mkSLS { sl_warehouse_id : Z; sl_district_id : Z; sl_threshold : Z }.
Definition GenerateStockLevel (fuel : nat) (node_id : Z) : Gen StockLevelStruct :=
  w ← PickWarehouse fuel node_id; d ← PickDistrict; t ← RandomNumber 10 20; mret (mkSLS w d t).

(** [Client::CreateTxn]: the type of the next transaction *)
Definition kTPCCTxnMix : list Z := [45; 43; 4; 4; 4].
Fixpoint txn_type (mix : list Z) (id rd : Z) : result Z :=
  match mix with [] => Err OutOfRange | t :: mix => if rd <? t then Ok id else txn_type mix (id + 1) (rd - t) end.
Definition CreateTxn_type : Gen Z := fun s => let '(x, s) := next_u32 s in t ← txn_type kTPCCTxnMix 0 (x mod 100); Ok (t, s).

End Tpcc.

(** * Facts on the TPC-C workload: rounding, ranges of random numbers, sharding, inputs. *)

(** ** Rounding *)

Lemma log2_bounds x : 0 < x → 2 ^ Z.log2 x ≤ x < 2 ^ (Z.log2 x + 1).
Proof. intros Hx. pose proof (Z.log2_spec x Hx). rewrite <- Z.add_1_r in *. lia. Qed.

Lemma round53_nonneg x : 0 ≤ x → 0 ≤ round53 x.
Proof.
  intros Hx. unfold round53. case_match eqn:E; [done|]. assert (0 < 2 ^ (Z.log2 x - 52)) by (apply Z.pow_pos_nonneg; lia).
  assert (0 ≤ x / 2 ^ (Z.log2 x - 52)) by (by apply Z.div_pos). case_match; nia.
Qed.

(** a number that is further than half a unit below a multiple of the unit stays below it *)
Lemma round53_below x y k : 0 < x → Z.log2 x - 52 ≤ k → 0 < k → (2 ^ k | y) → 2 ^ (k - 1) < y - x → x < y → round53 x ≤ y - 1.
Proof.
  intros Hx He Hk Hy Hd Hlt. unfold round53. case_match eqn:E; [lia|]. apply Z.leb_gt in E. set (e := Z.log2 x - 52) in *.
  assert (Hp : 0 < 2 ^ e) by (apply Z.pow_pos_nonneg; lia).
  assert (Hpe : 2 ^ e = 2 * 2 ^ (e - 1)) by (rewrite <- Z.pow_succ_r by lia; f_equal; lia).
  assert (Hdiv : (2 ^ e | y)) by (etransitivity; [|exact Hy]; exists (2 ^ (k - e)); rewrite <- Z.pow_add_r by lia; f_equal; lia).
  assert (Hle : 2 ^ (e - 1) ≤ 2 ^ (k - 1)) by (apply Z.pow_le_mono_r; lia).
  destruct Hdiv as [c ->]. pose proof (Z.div_mod x (2 ^ e) ltac:(lia)) as Hdm. pose proof (Z.mod_pos_bound x (2 ^ e) Hp) as Hr.
  set (q := x / 2 ^ e) in *. set (r := x mod 2 ^ e) in *.
  assert (Hq : q < c) by nia.
  case_match eqn:Eb; [|nia].
  assert (q + 1 < c ∨ q + 1 = c) as [?|Hc] by lia; [nia|].
  apply orb_true_iff in Eb. assert (2 ^ e ≤ 2 * r).
  { destruct Eb as [Hb|Hb]; [apply Z.ltb_lt in Hb; lia|]. apply andb_prop in Hb as [Hb _]. apply Z.eqb_eq in Hb. lia. }
  nia.
Qed.

Lemma round53_above x y k : 0 < x → Z.log2 x - 52 ≤ k → (2 ^ k | y) → y ≤ x → y ≤ round53 x.
Proof.
  intros Hx Hk Hy Hle. unfold round53. case_match eqn:E; [done|]. apply Z.leb_gt in E. set (e := Z.log2 x - 52) in *.
  assert (Hp : 0 < 2 ^ e) by (apply Z.pow_pos_nonneg; lia).
  assert (Hdiv : (2 ^ e | y)) by (etransitivity; [|exact Hy]; exists (2 ^ (k - e)); rewrite <- Z.pow_add_r by lia; f_equal; lia).
  destruct Hdiv as [c ->]. pose proof (Z.div_mod x (2 ^ e) ltac:(lia)) as Hdm. pose proof (Z.mod_pos_bound x (2 ^ e) Hp) as Hr.
  assert (c ≤ x / 2 ^ e) by (apply Z.lt_succ_r; nia). case_match; nia.
Qed.

(** the rounded number is a multiple of its own unit *)
Lemma round53_unit x : 0 < x → 0 < Z.log2 (round53 x) - 52 → (2 ^ (Z.log2 (round53 x) - 52) | round53 x).
Proof.
  intros Hx. unfold round53. case_match eqn:E; [apply Z.leb_le in E; lia|]. apply Z.leb_gt in E. set (e := Z.log2 x - 52) in *.
  pose proof (log2_bounds x Hx) as Hb. assert (Hp : 0 < 2 ^ e) by (apply Z.pow_pos_nonneg; lia).
  pose proof (Z.div_mod x (2 ^ e) ltac:(lia)) as Hdm. pose proof (Z.mod_pos_bound x (2 ^ e) Hp) as Hr.
  assert (H1 : 2 ^ Z.log2 x = 2 ^ 52 * 2 ^ e) by (rewrite <- Z.pow_add_r by lia; f_equal; lia).
  assert (H2 : 2 ^ (Z.log2 x + 1) = 2 ^ 53 * 2 ^ e) by (rewrite <- Z.pow_add_r by lia; f_equal; lia).
  set (q := x / 2 ^ e) in *. assert (Hq : 2 ^ 52 ≤ q < 2 ^ 53) by nia.
  set (q' := if _ : bool then q + 1 else q). assert (Hq' : 2 ^ 52 ≤ q' ≤ 2 ^ 53) by (unfold q'; case_match; lia).
  intros _. assert (q' = 2 ^ 53 ∨ q' < 2 ^ 53) as [->|Hlt] by lia.
  - rewrite <- Z.pow_add_r, Z.log2_pow2 by lia. exists (2 ^ 52). rewrite <- Z.pow_add_r by lia. f_equal. lia.
  - replace (Z.log2 (q' * 2 ^ e) - 52) with e; [by exists q'|].
    rewrite Z.log2_mul_pow2 by lia. assert (Z.log2 q' = 52) as ->; [|lia].
    apply Z.log2_unique; [lia|]. lia.
Qed.

(** ** Random numbers *)

Lemma round53_product u n : 0 ≤ u < 2 ^ 53 → 0 < n < 2 ^ 31 → 0 ≤ round53 (u * n) < n * 2 ^ 53.
Proof.
  intros Hu [Hn Hn31]. split; [apply round53_nonneg; nia|]. assert (u * n = 0 ∨ 0 < u * n) as [->|Hx] by nia; [change (round53 0) with 0; nia|].
  pose proof (log2_bounds n Hn) as Hb. pose proof (Z.log2_nonneg n) as Hk0. set (k := Z.log2 n) in *.
  assert (H2 : 2 ^ (k + 1) = 2 * 2 ^ k) by (rewrite Z.pow_add_r by lia; lia).
  assert (Hlog : ∀ j, 0 ≤ j → u * n < 2 ^ (53 + j) → Z.log2 (u * n) - 52 ≤ j).
  { intros j Hj Hlt. apply Z.log2_lt_pow2 in Hlt; lia. }
  assert (Hpw : ∀ j, 0 ≤ j → 2 ^ (53 + j) = 2 ^ 53 * 2 ^ j) by (intros; apply Z.pow_add_r; lia).
  assert (n = 2 ^ k ∨ 2 ^ k < n) as [Hpow|Hgt] by lia.
  - destruct (decide (0 < k)) as [Hk|Hk].
    + assert (round53 (u * n) ≤ n * 2 ^ 53 - 1); [|lia]. apply (round53_below _ _ k); try done.
      * apply Hlog; [done|]. rewrite Hpw by done. rewrite <- Hpow. nia.
      * exists (2 ^ 53). rewrite Hpow. lia.
      * assert (2 ^ (k - 1) < 2 ^ k) by (apply Z.pow_lt_mono_r; lia). nia.
      * nia.
    + assert (n = 1) as -> by (replace k with 0 in * by lia; lia). rewrite Z.mul_1_r. unfold round53.
      pose proof (Hlog 0 ltac:(lia) ltac:(rewrite Hpw by lia; nia)) as Hl. rewrite Z.mul_1_r in Hl. rewrite (proj2 (Z.leb_le _ _)) by lia. lia.
  - assert (round53 (u * n) ≤ n * 2 ^ 53 - 1); [|lia]. apply (round53_below _ _ (k + 1)); try done; [| lia | | |nia].
    + apply Hlog; [lia|]. rewrite Hpw by lia. nia.
    + exists (n * 2 ^ (52 - k)). destruct (decide (k ≤ 52)).
      * rewrite <- Z.mul_assoc, <- Z.pow_add_r by lia. do 2 f_equal. lia.
      * assert (2 ^ 53 ≤ 2 ^ k) by (apply Z.pow_le_mono_r; lia). lia.
    + replace (k + 1 - 1) with k by lia. nia.
Qed.

Lemma round53_pow2 u k : 0 ≤ u < 2 ^ 53 → 0 ≤ k → round53 (u * 2 ^ k) = u * 2 ^ k.
Proof.
  intros Hu Hk. assert (u = 0 ∨ 0 < u) as [->|Hp] by lia; [done|]. unfold round53. case_match eqn:E; [done|]. apply Z.leb_gt in E.
  rewrite Z.log2_mul_pow2 in * by lia. set (e := k + Z.log2 u - 52) in *.
  assert (Z.log2 u < 53) by (apply Z.log2_lt_pow2; lia). assert (0 < 2 ^ e) by (apply Z.pow_pos_nonneg; lia).
  assert (Hk2 : u * 2 ^ k = u * 2 ^ (k - e) * 2 ^ e) by (rewrite <- Z.mul_assoc, <- Z.pow_add_r by lia; do 2 f_equal; lia).
  rewrite Hk2, Z.div_mul, Z.mod_mul by lia. by rewrite (proj2 (Z.ltb_ge _ _)), (proj2 (Z.eqb_neq _ _)) by lia.
Qed.

(** the sum stays in the binade of the product, so that it is not rounded up *)
Definition exact_range (min max : Z) : bool :=
  let n := max - min + 1 in (min =? 0) || (n + min <=? 2 ^ (Z.log2 n + 1)).

Lemma round53_fix x : 0 ≤ x → round53 (round53 x) = round53 x.
Proof.
  intros Hx. assert (x = 0 ∨ 0 < x) as [->|Hp] by lia; [done|]. pose proof (round53_unit x Hp) as Hu. set (z := round53 x) in *.
  unfold round53. case_match eqn:E; [done|]. apply Z.leb_gt in E. specialize (Hu E). set (e := Z.log2 z - 52) in *.
  assert (0 < 2 ^ e) by (apply Z.pow_pos_nonneg; lia). destruct Hu as [c Hc].
  assert (z mod 2 ^ e = 0) as -> by (rewrite Hc; apply Z.mod_mul; lia). assert (z / 2 ^ e = c) as -> by (rewrite Hc; apply Z.div_mul; lia).
  rewrite (proj2 (Z.ltb_ge _ _)), (proj2 (Z.eqb_neq _ _)) by lia. cbn [orb andb]. exact (eq_sym Hc).
Qed.

Lemma scale_range u min max : 0 ≤ u < 2 ^ 53 - 1 → 0 ≤ min ≤ max → max < 2 ^ 31 - 1 → exact_range min max = true →
  min ≤ scale u min max ≤ max.
Proof.
  intros Hu Hm Hmax Hx. unfold scale. set (n := max - min + 1) in *. assert (Hn : 0 < n < 2 ^ 31) by (unfold n; lia).
  pose proof (round53_product u n ltac:(lia) Hn) as Hz. pose proof (round53_fix (u * n) ltac:(nia)) as Hfix.
  assert (Hun : u * n = 0 ∨ 0 < u * n) by nia. assert (Hunit := round53_unit (u * n)). set (z := round53 (u * n)) in *.
  enough (min * 2 ^ 53 ≤ round53 (z + min * 2 ^ 53) < (n + min) * 2 ^ 53) as Hb.
  { unfold n in Hb. split; [apply Z.div_le_lower_bound; lia|]. apply Z.lt_succ_r, Z.div_lt_upper_bound; lia. }
  assert (min = 0 ∨ 0 < min) as [->|Hmin] by lia; [rewrite !Z.mul_0_l, !Z.add_0_r, Hfix; lia|].
  apply orb_true_iff in Hx as [?%Z.eqb_eq|H2%Z.leb_le]; [lia|]. fold n in H2.
  pose proof (log2_bounds n ltac:(lia)) as Hb. pose proof (Z.log2_nonneg n) as Hk0. set (k := Z.log2 n) in *.
  assert (Hk : k < 31) by (apply Z.log2_lt_pow2; lia).
  assert (Hpw : 2 ^ (53 + (k + 1)) = 2 ^ 53 * 2 ^ (k + 1)) by (apply Z.pow_add_r; lia).
  assert (Hpk : 2 ^ (k + 1) = 2 * 2 ^ k) by (rewrite Z.pow_add_r by lia; lia).
  assert (Hlog : Z.log2 (z + min * 2 ^ 53) - 52 ≤ k + 1).
  { assert (z + min * 2 ^ 53 < 2 ^ (53 + (k + 1))) as Hlt by nia. apply Z.log2_lt_pow2 in Hlt; lia. }
  assert (Hdv : ∀ c, (2 ^ (k + 1) | c * 2 ^ 53)).
  { intros c. exists (c * 2 ^ (52 - k)). rewrite <- Z.mul_assoc, <- Z.pow_add_r by lia. do 2 f_equal. lia. }
  split; [apply (round53_above _ _ (k + 1)); [lia|exact Hlog|apply Hdv|lia]|].
  enough (round53 (z + min * 2 ^ 53) ≤ (n + min) * 2 ^ 53 - 1) by lia.
  apply (round53_below _ _ (k + 1)); [lia|exact Hlog|lia|apply Hdv| |lia].
  replace (k + 1 - 1) with k by lia. assert (Hk53 : 2 ^ k < 2 ^ 53) by (apply Z.pow_lt_mono_r; lia).
  assert (n = 2 ^ k ∨ 2 ^ k < n) as [H1|H1] by lia.
  { enough (z = u * n) as -> by nia. unfold z. rewrite H1. apply round53_pow2; lia. }
  destruct (Z.lt_ge_cases z (2 ^ (53 + k))) as [Hs|Hs].
  { assert (2 ^ (53 + k) = 2 ^ 53 * 2 ^ k) by (apply Z.pow_add_r; lia). nia. }
  assert (Hlz : Z.log2 z = 53 + k).
  { apply Z.log2_unique; [lia|]. split; [done|]. replace (Z.succ (53 + k)) with (53 + (k + 1)) by lia. nia. }
  destruct Hun as [Hun|Hun]; [exfalso; unfold z in Hs; rewrite Hun in Hs; change (round53 0) with 0 in Hs; assert (0 < 2 ^ (53 + k)) by (apply Z.pow_pos_nonneg; lia); lia|].
  specialize (Hunit Hun). rewrite Hlz in Hunit. replace (53 + k - 52) with (k + 1) in Hunit by lia.
  destruct (Hunit ltac:(lia)) as [c Hc], (Hdv n) as [d Hd].
  assert (0 < 2 ^ k) by (apply Z.pow_pos_nonneg; lia). assert (Hcd : c < d) by (apply (Z.mul_lt_mono_pos_r (2 ^ (k + 1))); lia).
  assert (0 ≤ (d - c - 1) * 2 ^ (k + 1)) by (apply Z.mul_nonneg_nonneg; lia). lia.
Qed.

(** the largest number below 1 would be rounded up out of the range *)
Lemma scale_rounds_up : scale (2 ^ 53 - 1) 1 16 = 17.
Proof. by vm_compute. Qed.
(** but no seed gives it: the seeds before and after would both have high bits set only *)
Lemma lcg_not_max s1 s2 z : 2 ^ 48 - 2 ^ 22 ≤ s1 < 2 ^ 48 → 2 ^ 48 - 2 ^ 21 ≤ s2 < 2 ^ 48 →
  s1 * 25214903917 + 11 = s2 + 2 ^ 48 * z → False.
Proof. lia. Qed.

Definition next_seed (s : Z) : Z := (s * 25214903917 + 11) mod 2 ^ 48.
Lemma next_bits_eq b s : 0 ≤ b ≤ 48 → next_bits b s = (next_seed s / 2 ^ (48 - b), next_seed s).
Proof.
  intros Hb. unfold next_bits, next_seed, u64. change (2 ^ 48 - 1) with (Z.ones 48). rewrite Z.land_ones by lia.
  rewrite <- (Znumtheory.Zmod_div_mod (2 ^ 48) (2 ^ 64)) by (try lia; by exists (2 ^ 16)). by rewrite Z.shiftr_div_pow2 by lia.
Qed.
Lemma next_seed_range s : 0 ≤ next_seed s < 2 ^ 48.
Proof. apply Z.mod_pos_bound. lia. Qed.

Lemma uniform_range s : ∃ u s', next_uniform s = (u, s') ∧ 0 ≤ u < 2 ^ 53 - 1 ∧ 0 ≤ s' < 2 ^ 48.
Proof.
  unfold next_uniform. rewrite next_bits_eq by lia. set (s1 := next_seed s). rewrite next_bits_eq by lia. set (s2 := next_seed s1).
  eexists _, _. split; [done|]. pose proof (next_seed_range s : 0 ≤ s1 < _) as H1. pose proof (next_seed_range s1 : 0 ≤ s2 < _) as H2.
  split; [|done]. rewrite Z.shiftl_mul_pow2 by lia. change (48 - 26) with 22. change (48 - 27) with 21.
  assert (Hd : s1 * 25214903917 + 11 = s2 + 2 ^ 48 * ((s1 * 25214903917 + 11) / 2 ^ 48)).
  { unfold s2, next_seed. pose proof (Z.div_mod (s1 * 25214903917 + 11) (2 ^ 48)). lia. }
  set (zz := (_ + 11) / _) in *. pose proof (lcg_not_max s1 s2 zz) as Hn. clearbody s1 s2 zz.
  assert (0 ≤ s1 / 2 ^ 22 < 2 ^ 26) by (split; [apply Z.div_pos; lia|apply Z.div_lt_upper_bound; lia]).
  assert (0 ≤ s2 / 2 ^ 21 < 2 ^ 27) by (split; [apply Z.div_pos; lia|apply Z.div_lt_upper_bound; lia]).
  split; [lia|]. destruct (Z.lt_ge_cases s1 (2 ^ 48 - 2 ^ 22)) as [Hs1|Hs1].
  { assert (s1 / 2 ^ 22 < 2 ^ 26 - 1) by (apply Z.div_lt_upper_bound; lia). lia. }
  destruct (Z.lt_ge_cases s2 (2 ^ 48 - 2 ^ 21)) as [Hs2|Hs2]; [|destruct (Hn ltac:(lia) ltac:(lia) Hd)].
  assert (s2 / 2 ^ 21 < 2 ^ 27 - 1) by (apply Z.div_lt_upper_bound; lia). lia.
Qed.

(** ** Generators *)

Definition seed_ok (s : Z) : Prop := 0 ≤ s < 2 ^ 48.
(** [g] returns a value that satisfies [P] *)
Definition returns {A} (g : Gen A) (P : A → Prop) : Prop := ∀ s, seed_ok s → ∃ a s', g s = Ok (a, s') ∧ P a ∧ seed_ok s'.
(** [g] returns a value that satisfies [P], unless a retry loop runs out of fuel *)
Definition generates {A} (g : Gen A) (P : A → Prop) : Prop :=
  ∀ s, seed_ok s → g s = Err Blocked ∨ ∃ a s', g s = Ok (a, s') ∧ P a ∧ seed_ok s'.

Lemma returns_generates {A} (g : Gen A) P : returns g P → generates g P.
Proof. intros H s Hs. right. by apply H. Qed.
Lemma returns_ret {A} (a : A) (P : A → Prop) : P a → returns (mret a) P.
Proof. intros Ha s Hs. by exists a, s. Qed.
Lemma returns_bind {A B} (g : Gen A) (k : A → Gen B) P Q : returns g P → (∀ a, P a → returns (k a) Q) → returns (g ≫= k) Q.
Proof. intros Hg Hk s Hs. destruct (Hg s Hs) as (a & s' & E & Ha & Hs'). destruct (Hk a Ha s' Hs') as (b & s2 & E2 & Hb & Hs2). exists b, s2. split; [|done]. cbv [mbind gen_bind result_bind]. rewrite E. exact E2. Qed.
Lemma generates_ret {A} (a : A) (P : A → Prop) : P a → generates (mret a) P.
Proof. intros Ha. by apply returns_generates, returns_ret. Qed.
Lemma generates_bind {A B} (g : Gen A) (k : A → Gen B) P Q : generates g P → (∀ a, P a → generates (k a) Q) → generates (g ≫= k) Q.
Proof.
  intros Hg Hk s Hs. cbv [mbind gen_bind result_bind]. destruct (Hg s Hs) as [->|(a & s' & -> & Ha & Hs')]; [by left|]. by apply Hk.
Qed.
Lemma generates_mono {A} (g : Gen A) (P Q : A → Prop) : generates g P → (∀ a, P a → Q a) → generates g Q.
Proof. intros Hg HP s Hs. destruct (Hg s Hs) as [?|(a & s' & ? & ? & ?)]; [by left|]. right. exists a, s'. auto. Qed.
Lemma generates_repeat {A} fuel ok (g : Gen A) P : generates g P → generates (repeat_until fuel ok g) (fun a => P a ∧ ok a = true).
Proof.
  intros Hg. induction fuel as [|fuel IH]; [by left|]. cbn. eapply generates_bind; [exact Hg|]. intros a Ha.
  destruct (ok a) eqn:E; [by apply generates_ret|exact IH].
Qed.

Lemma RandomNumber_returns min max : 0 ≤ min ≤ max → max < 2 ^ 31 - 1 → exact_range min max = true →
  returns (RandomNumber min max) (fun r => min ≤ r ≤ max).
Proof.
  intros Hm Hx He s Hs. destruct (uniform_range s) as (u & s' & E & Hu & Hs'). exists (scale u min max), s'.
  pose proof (scale_range u min max Hu Hm Hx He) as Hr. split; [|done]. unfold RandomNumber, uniform, CheckBetweenInclusive.
  cbv [mbind gen_bind result_bind]. rewrite E, (proj2 (Z.leb_le _ _)), (proj2 (Z.leb_le (scale _ _ _) _)) by lia. done.
Qed.

Lemma NonUniform_returns A C min max : 0 ≤ A < 2 ^ 31 - 1 → 0 ≤ C → 0 ≤ min ≤ max → max < 2 ^ 31 - 1 → exact_range min max = true →
  returns (NonUniformRandom A C min max) (fun r => min ≤ r ≤ max).
Proof.
  intros HA HC Hm Hx He. unfold NonUniformRandom. eapply returns_bind; [apply (RandomNumber_returns 0 A); [lia|lia|done]|].
  intros a Ha. eapply returns_bind; [by apply RandomNumber_returns|]. intros b Hb. apply returns_ret.
  pose proof (Z.mod_pos_bound (Z.lor a b + C) (max - min + 1) ltac:(lia)). lia.
Qed.

(** ** Inputs *)

Section Inputs.
Context (cfg : Config) (nr_nodes : Z) (XXH32 : Z → Z).

Record cfg_ok : Prop := {
  ok_warehouses : 1 ≤ nr_warehouses cfg ≤ 32;
  ok_load : 0 < hotspot_load_percentage cfg < 2 ^ 20;
  ok_items : 15 ≤ nr_items cfg < 2 ^ 31 - 1 ∧ exact_range 1 (nr_items cfg) = true;
  ok_districts : 1 ≤ districts_per_warehouse cfg < 2 ^ 31 - 1 ∧ exact_range 1 (districts_per_warehouse cfg) = true;
  ok_customers : 1 ≤ customers_per_district cfg < 2 ^ 31 - 1 ∧ exact_range 1 (customers_per_district cfg) = true;
}.
Context (Hcfg : cfg_ok).

Lemma warehouses_exact : exact_range 1 (nr_warehouses cfg) = true.
Proof using Hcfg.
  pose proof (ok_warehouses Hcfg) as Hw. unfold exact_range. apply orb_true_iff. right. apply Z.leb_le.
  pose proof (log2_bounds (nr_warehouses cfg) ltac:(lia)). replace (nr_warehouses cfg - 1 + 1) with (nr_warehouses cfg) by lia. lia.
Qed.

Definition load_of (w : Z) : Z := match warehouse_load cfg w with Ok l => l | Err _ => 0 end.
Lemma warehouse_load_eq w : 1 ≤ w ≤ nr_warehouses cfg → warehouse_load cfg w = Ok (load_of w) ∧ 0 < load_of w < 2 ^ 20.
Proof using Hcfg.
  intros Hw. pose proof (ok_warehouses Hcfg). pose proof (ok_load Hcfg). unfold load_of, warehouse_load, is_warehouse_hotspot.
  rewrite u32_id by lia. rewrite (proj2 (Z.ltb_lt (w - 1) 32)) by lia. cbn [mbind result_bind]. split; [done|]. case_match; lia.
Qed.

Lemma select_warehouse_ok ws : ∀ rand, (∀ w, w ∈ ws → 1 ≤ w ≤ nr_warehouses cfg) → 0 ≤ rand < sum_over load_of ws →
  ∃ w, select_warehouse cfg ws rand = Ok w ∧ w ∈ ws.
Proof using Hcfg.
  induction ws as [|w ws IH]; intros rand Hws Hr; [cbn in *; lia|].
  change (sum_over load_of (w :: ws)) with (load_of w + sum_over load_of ws) in Hr. cbn [select_warehouse].
  destruct (warehouse_load_eq w) as [-> Hl]; [apply Hws; by left|]. cbn. destruct (Z.ltb_spec (rand - load_of w) 0) as [Hlt|Hge].
  - exists w. split; [done|by left].
  - destruct (IH (rand - load_of w)) as (w' & -> & Hw'); [intros; apply Hws; by right|lia|]. exists w'. split; [done|by right].
Qed.

Lemma total_load_ok : total_load cfg = Ok (sum_over load_of (all_warehouses cfg)) ∧ 0 < sum_over load_of (all_warehouses cfg) < 2 ^ 25 + 1.
Proof using Hcfg.
  pose proof (ok_warehouses Hcfg) as Hn. unfold total_load, all_warehouses.
  assert (H : ∀ ws acc, (∀ w, w ∈ ws → 1 ≤ w ≤ nr_warehouses cfg) →
    for_each (fun w acc => l ← warehouse_load cfg w; Ok (acc + l)) ws acc = Ok (acc + sum_over load_of ws) ∧
    len ws ≤ sum_over load_of ws ≤ 2 ^ 20 * len ws).
  { induction ws as [|w ws IH]; intros acc Hws; cbn [for_each]; [cbn; split; [f_equal; lia|lia]|].
    destruct (warehouse_load_eq w) as [-> Hl]; [apply Hws; by left|]. cbn [mbind result_bind].
    destruct (IH (acc + load_of w)) as [-> Hb]; [intros; apply Hws; by right|].
    change (sum_over load_of (w :: ws)) with (load_of w + sum_over load_of ws). cbn [length]. split; [f_equal; lia|lia]. }
  destruct (H (seqZ 1 (nr_warehouses cfg)) 0) as [-> Hb]; [intros w Hw%elem_of_seqZ; lia|]. rewrite length_seqZ in Hb. split; [done|lia].
Qed.

(** a warehouse of the configuration that the node owns *)
Definition owned (node_id w : Z) : Prop := 1 ≤ w ≤ nr_warehouses cfg ∧ SliceToNodeId cfg nr_nodes (Locate cfg XXH32 w) = node_id.

Lemma PickWarehouse_generates fuel node_id : generates (PickWarehouse cfg nr_nodes XXH32 fuel node_id) (owned node_id).
Proof using Hcfg.
  eapply generates_mono; [apply (generates_repeat fuel _ (pick_once cfg nr_nodes XXH32 node_id) (fun w => w = -1 ∨ owned node_id w))|].
  - apply returns_generates. intros s Hs. unfold pick_once. destruct total_load_ok as [-> Ht]. cbn [mbind result_bind].
    destruct (uniform_range s) as (u & s' & -> & Hu & Hs').
    pose proof (round53_product u (sum_over load_of (all_warehouses cfg)) ltac:(lia) ltac:(lia)) as Hr.
    destruct (select_warehouse_ok (all_warehouses cfg) (round53 (u * sum_over load_of (all_warehouses cfg)) / 2 ^ 53)) as (w & -> & Hw).
    + intros w Hw%elem_of_seqZ. lia.
    + split; [apply Z.div_pos; lia|]. apply Z.div_lt_upper_bound; lia.
    + cbn [mbind result_bind]. eexists _, _. split; [done|]. split; [|done]. apply elem_of_seqZ in Hw.
      case_match eqn:E; [right|by left]. apply Z.eqb_eq in E. split; [lia|done].
  - intros w [[->|Hw] E]; done.
Qed.

Lemma CheckBetween_returns v lo hi : lo ≤ v ≤ hi → returns (CheckBetweenInclusive v lo hi) (fun r => lo ≤ r ≤ hi).
Proof using Type. intros Hv. unfold CheckBetweenInclusive. rewrite !(proj2 (Z.leb_le _ _)) by lia. by apply returns_ret. Qed.

Lemma GetItemId_returns : returns (GetItemId cfg) (fun i => 1 ≤ i ≤ nr_items cfg).
Proof using Hcfg.
  destruct (ok_items Hcfg) as [Hi Hx]. unfold GetItemId. eapply returns_bind with (P := fun i => 1 ≤ i ≤ nr_items cfg).
  - case_match; [apply RandomNumber_returns|apply NonUniform_returns]; try lia; done.
  - intros i Hr. by apply CheckBetween_returns.
Qed.
Lemma GetCustomerId_returns : returns (GetCustomerId cfg) (fun i => 1 ≤ i ≤ customers_per_district cfg).
Proof using Hcfg.
  destruct (ok_customers Hcfg) as [Hi Hx]. unfold GetCustomerId. eapply returns_bind; [apply NonUniform_returns; try lia; done|].
  intros i Hr. by apply CheckBetween_returns.
Qed.
Lemma PickDistrict_returns : returns (PickDistrict cfg) (fun i => 1 ≤ i ≤ districts_per_warehouse cfg).
Proof using Hcfg. destruct (ok_districts Hcfg) as [Hi Hx]. apply RandomNumber_returns; try lia; done. Qed.
Lemma RandomNumberExcept_generates fuel w : generates (RandomNumberExcept fuel 1 (nr_warehouses cfg) w) (fun r => 1 ≤ r ≤ nr_warehouses cfg).
Proof using Hcfg.
  pose proof (ok_warehouses Hcfg). eapply generates_mono; [apply generates_repeat, returns_generates, RandomNumber_returns; [lia|lia|apply warehouses_exact]|].
  by intros r [? _].
Qed.
(** a local choice with a given percentage *)
Lemma local_returns pct : returns (if nr_warehouses cfg =? 1 then mret true else r ← RandomNumber 1 100; mret (pct <? r)) (fun _ => True).
Proof using Type.
  case_match; [by apply returns_ret|]. eapply returns_bind; [apply (RandomNumber_returns 1 100); [lia|lia|done]|]. intros. by apply returns_ret.
Qed.
Lemma pick_supplier_generates fuel w : 1 ≤ w ≤ nr_warehouses cfg → generates (pick_supplier cfg fuel w) (fun s => 1 ≤ s ≤ nr_warehouses cfg).
Proof using Hcfg.
  intros Hw. unfold pick_supplier. eapply generates_bind; [apply returns_generates, local_returns|].
  intros [] _; [by apply generates_ret|apply RandomNumberExcept_generates].
Qed.

(** a well-formed order *)
Record items_wf (o : NewOrderStruct) : Prop := {
  wf_items : Forall (fun i => 1 ≤ i ≤ nr_items cfg) (item_id o);
  wf_nodup : NoDup (item_id o);
  wf_suppliers : Forall (fun w => 1 ≤ w ≤ nr_warehouses cfg) (supplier_warehouse_id o);
  wf_quantities : Forall (fun q => 1 ≤ q ≤ 10) (order_quantities o);
  wf_lengths : length (supplier_warehouse_id o) = length (item_id o) ∧ length (order_quantities o) = length (item_id o);
}.
Record NewOrder_wf (node_id : Z) (o : NewOrderStruct) : Prop := {
  wf_warehouse : owned node_id (no_warehouse_id o);
  wf_district : 1 ≤ no_district_id o ≤ districts_per_warehouse cfg;
  wf_customer : 1 ≤ no_customer_id o ≤ customers_per_district cfg;
  wf_count : 5 ≤ len (item_id o) ≤ kNewOrderMaxItems;
  wf_detail : items_wf o;
}.

Lemma gen_items_generates fuel n : ∀ o, 1 ≤ no_warehouse_id o ≤ nr_warehouses cfg → items_wf o →
  generates (gen_items cfg fuel n o) (fun o' => items_wf o' ∧ length (item_id o') = (length (item_id o) + n)%nat ∧
    no_warehouse_id o' = no_warehouse_id o ∧ no_district_id o' = no_district_id o ∧ no_customer_id o' = no_customer_id o).
Proof using Hcfg.
  induction n as [|n IH]; intros o Hw Ho; cbn [gen_items].
  { apply generates_ret. split; [done|]. split; [lia|done]. }
  eapply generates_bind; [apply generates_repeat, returns_generates, GetItemId_returns|]. intros i [Hi Hf].
  eapply generates_bind; [apply returns_generates, (RandomNumber_returns 1 10); [lia|lia|done]|]. intros q Hq.
  eapply generates_bind; [by apply pick_supplier_generates|]. intros w Hsw. destruct Ho as [H1 H2 H3 H4 [H5 H6]].
  eapply generates_mono; [apply IH; [done|]|].
  - split; cbn.
    + by apply Forall_app_2; [|constructor].
    + apply NoDup_app. split; [done|]. split; [|apply NoDup_singleton]. intros x Hx ->%list_elem_of_singleton.
      rewrite bool_decide_eq_true_2 in Hf by done. done.
    + by apply Forall_app_2; [|constructor].
    + by apply Forall_app_2; [|constructor].
    + rewrite !length_app. cbn. lia.
  - cbn. intros o' (Hwf & Hl & E). split; [done|]. rewrite length_app in Hl. cbn in Hl. split; [lia|done].
Qed.
End Inputs.
