(* ===== verification/TpccKeys.v ===== *)
(** Keys of the TPC-C tables: their encoding, the hash functions of the tables that are
    hash tables (tpcc.h [HashKey], [kIndexArgs]), and the generated order ids
    (index_common.h [Table::AutoIncrement]). *)

From S2P Require Import Prelude Bits SqlTypes HashIndex.

(** ** Keys and hash functions *)

Inductive TableType := Customer | District | Item | Stock | Warehouse.

(** the encoded key: every field is a [uint32_t] *)
Definition EncodeKey (fields : list Z) : list Z := Field_EncodeTo key_serializer (map (fun _ => FInt 4) fields) (map VInt fields).

(** [HashKey]: the bytes of the result in memory, or the word *)
Definition HashKey (t : TableType) (k : list Z) : Z :=
  match t with
  | Customer => le_combine [k.[11]; u8 (Z.lor (k.[10]) (Z.shiftl (k.[7]) 4)); u8 (k.[3] - 1); 0]
  | District => u32 (Z.shiftl (Z.lor (Z.shiftl (k.[3] - 1) 9) (k.[7] - 1)) 4)
  | Item => le_combine [u8 (k.[3] - 1); k.[2]; k.[1]; 0]
  | Stock => le_combine [k.[7]; k.[6]; u8 (Z.lor (k.[5]) (Z.shiftl (k.[3] - 1) 1)); 0]
  | Warehouse => u32 (Z.shiftl (k.[3] - 1) 9)
  end.
(** the second component of [kIndexArgs] *)
Definition table_buckets (t : TableType) : Z :=
  match t with
  | Customer => Z.shiftl 8 20 | District => Z.shiftl 64 9 | Item => Z.shiftl 2 20 | Stock => Z.shiftl 16 20 | Warehouse => Z.shiftl 64 9
  end.
Definition bucket_of (t : TableType) (fields : list Z) : Z := HashKey t (EncodeKey fields) mod table_buckets t.

(** the keys of a population of 64 warehouses: 15 districts, 4095 customers of a district
    and 131071 items at most *)
Definition populated (t : TableType) (fields : list Z) : bool :=
  match t, fields with
  | Customer, [w; d; c] => (1 <=? w) && (w <=? 64) && (1 <=? d) && (d <=? 15) && (1 <=? c) && (c <=? 4095)
  | District, [w; d] => (1 <=? w) && (w <=? 64) && (1 <=? d) && (d <=? 15)
  | Item, [i] => (1 <=? i) && (i <=? 131071)
  | Stock, [w; i] => (1 <=? w) && (w <=? 64) && (1 <=? i) && (i <=? 131071)
  | Warehouse, [w] => (1 <=? w) && (w <=? 64)
  | _, _ => false
  end.

(** ** Order ids *)

(** [auto_increment_cnt]; [AutoIncrement] on node [node_id], [GetCurrentAutoIncrement],
    [ResetAutoIncrement] *)
Definition kAutoIncrementZones : Z := 2048.
Definition Counters : Type := list Z.
Definition AutoIncrement (node_id zone : Z) (c : Counters) : result (Z * Counters) :=
  ts ← load c zone; c ← store c zone (u64 (ts + 1)); Ok (Z.lor (u64 (Z.shiftl ts 8)) (Z.land node_id 255), c).
Definition GetCurrentAutoIncrement (node_id zone : Z) (c : Counters) : result Z :=
  ts ← load c zone; Ok (Z.lor (u64 (Z.shiftl ts 8)) (Z.land node_id 255)).
Definition ResetAutoIncrement (zone ts : Z) (c : Counters) : result Counters :=
  _ ← abort_if (kAutoIncrementZones <=? zone); store c zone ts.
(** [auto_inc_zone] of a district *)
Definition auto_inc_zone (w d : Z) : Z := u32 (w * 10 + d).

(** ** Facts *)

Lemma be4 x : 0 ≤ x < 2 ^ 24 → EncodeTo (key_serializer (FInt 4)) (VInt x) = [0; x / 65536; x / 256 mod 256; x mod 256].
Proof.
  intros Hx. cbn. rewrite !Z.div_div by lia. change (256 * 256) with 65536. change (256 * 65536) with 16777216.
  assert (x / 16777216 = 0) as -> by (apply Z.div_small; lia). assert (x / 65536 mod 256 = x / 65536) as ->; [|done].
  apply Z.mod_small. split; [apply Z.div_pos; lia|]. apply Z.div_lt_upper_bound; lia.
Qed.

Lemma lor_disjoint a b n : 0 ≤ n → 0 ≤ a < 2 ^ n → Z.lor a (Z.shiftl b n) = a + b * 2 ^ n.
Proof.
  intros Hn Ha. rewrite Z.shiftl_mul_pow2 by done.
  assert (Hz : Z.land a (b * 2 ^ n) = 0).
  { apply Z.bits_inj'. intros i Hi. rewrite Z.land_spec, Z.bits_0. destruct (Z.lt_ge_cases i n).
    - rewrite Z.mul_pow2_bits_low by lia. apply andb_false_r.
    - by rewrite (testbit_high a n i) by lia. }
  by rewrite Z.add_nocarry_lxor, Z.lxor_lor.
Qed.

Ltac split_andb := repeat match goal with H : (_ && _)%bool = true |- _ => apply andb_prop in H as [? ?] end.

(** the bytes of a field *)
Lemma be_small x : 0 ≤ x < 256 → EncodeTo (key_serializer (FInt 4)) (VInt x) = [0; 0; 0; x].
Proof.
  intros Hx. rewrite be4 by lia. rewrite (Z.div_small x 65536), (Z.div_small x 256), (Z.mod_small x) by lia. done.
Qed.
Lemma be_mid x : 0 ≤ x < 65536 → EncodeTo (key_serializer (FInt 4)) (VInt x) = [0; 0; x / 256; x mod 256].
Proof.
  intros Hx. rewrite be4 by lia. rewrite (Z.div_small x 65536), (Z.mod_small (x / 256)); [done| |lia].
  split; [apply Z.div_pos; lia|apply Z.div_lt_upper_bound; lia].
Qed.

Ltac key_bytes := unfold bucket_of, EncodeKey; cbn [map Field_EncodeTo].
Ltac key_at := unfold HashKey, at_; repeat match goal with |- context [Z.to_nat (Zpos ?p)] => let n := eval cbv in (Z.to_nat (Zpos p)) in change (Z.to_nat (Zpos p)) with n end; cbn [app nth le_combine].

(** the arithmetic of the hash functions *)
Lemma bucket_customer w d c : populated Customer [w; d; c] = true → bucket_of Customer [w; d; c] = c + 4096 * d + 65536 * (w - 1).
Proof.
  cbn [populated]. intros H. split_andb. key_bytes. rewrite (be_small w), (be_small d), be_mid by lia. key_at.
  assert (0 ≤ c / 256 < 16) by (split; [apply Z.div_pos|apply Z.div_lt_upper_bound]; lia).
  rewrite (lor_disjoint _ _ 4) by lia. rewrite !u8_id by lia. change (table_buckets Customer) with 8388608.
  pose proof (Z.div_mod c 256). rewrite Z.mod_small by lia. lia.
Qed.
Lemma bytes_of_word i : i = i mod 256 + 256 * (i / 256 mod 256) + 65536 * (i / 65536).
Proof. pose proof (Z.div_mod i 256). pose proof (Z.div_mod (i / 256) 256). rewrite Z.div_div in * by lia. change (256 * 256) with 65536 in *. lia. Qed.
Lemma bucket_item i : populated Item [i] = true → bucket_of Item [i] = (i - 1) mod 256 + 256 * (i / 256).
Proof.
  cbn [populated]. intros H. split_andb. key_bytes. rewrite be4 by lia. key_at. unfold u8. change (2 ^ 8) with 256.
  rewrite Zminus_mod_idemp_l. change (table_buckets Item) with 2097152.
  pose proof (Z.mod_pos_bound (i - 1) 256). pose proof (bytes_of_word i). pose proof (Z.div_mod i 256). pose proof (Z.mod_pos_bound i 256).
  rewrite Z.mod_small by lia. lia.
Qed.
Lemma bucket_stock w i : populated Stock [w; i] = true → bucket_of Stock [w; i] = i + 131072 * (w - 1).
Proof.
  cbn [populated]. intros H. split_andb. key_bytes. rewrite (be_small w), be4 by lia. key_at.
  assert (0 ≤ i / 65536 < 2) by (split; [apply Z.div_pos|apply Z.div_lt_upper_bound]; lia).
  rewrite (lor_disjoint _ _ 1), u8_id by lia. change (table_buckets Stock) with 16777216. pose proof (bytes_of_word i).
  rewrite Z.mod_small; lia.
Qed.
(** only the last two bits of the warehouse number reach the bucket *)
Lemma bucket_district w d : populated District [w; d] = true → bucket_of District [w; d] = 8192 * ((w - 1) mod 4) + 16 * (d - 1).
Proof.
  cbn [populated]. intros H. split_andb. key_bytes. rewrite (be_small w), (be_small d) by lia. key_at.
  rewrite Z.lor_comm, (lor_disjoint _ _ 9), Z.shiftl_mul_pow2, u32_id by lia. change (table_buckets District) with 32768.
  pose proof (Z.div_mod (w - 1) 4). pose proof (Z.mod_pos_bound (w - 1) 4).
  symmetry. apply (Z.mod_unique_pos _ _ ((w - 1) / 4)); lia.
Qed.
Lemma bucket_warehouse w : populated Warehouse [w] = true → bucket_of Warehouse [w] = 512 * (w - 1).
Proof.
  cbn [populated]. intros H. split_andb. key_bytes. rewrite (be_small w) by lia. key_at. rewrite Z.shiftl_mul_pow2, u32_id by lia.
  change (table_buckets Warehouse) with 32768. rewrite Z.mod_small by lia. lia.
Qed.

(** The hash functions of customers, items, stocks and warehouses are perfect: for the keys
    of a population that the tables are sized for, keys of the same bucket are the same,
    so that no search walks a chain. *)
Theorem hash_perfect t k1 k2 : t ≠ District → populated t k1 = true → populated t k2 = true → bucket_of t k1 = bucket_of t k2 → k1 = k2.
Proof.
  intros Ht H1 H2 E. destruct t; try done; cbn [populated] in H1, H2; repeat (destruct k1 as [|? k1]; try done; destruct k2 as [|? k2]; try done).
  - rewrite !bucket_customer in E by done. split_andb. f_equal; [lia|f_equal; [lia|f_equal; lia]].
  - rewrite !bucket_item in E by done. split_andb. f_equal.
    pose proof (Z.div_mod z 256). pose proof (Z.div_mod z0 256). pose proof (Z.mod_pos_bound (z - 1) 256). pose proof (Z.mod_pos_bound (z0 - 1) 256).
    pose proof (Z.div_mod (z - 1) 256). pose proof (Z.div_mod (z0 - 1) 256). pose proof (Z.mod_pos_bound z 256). pose proof (Z.mod_pos_bound z0 256). lia.
  - rewrite !bucket_stock in E by done. split_andb. f_equal; [lia|f_equal; lia].
  - rewrite !bucket_warehouse in E by done. split_andb. f_equal. lia.
Qed.
Lemma hash_perfect_witness : bucket_of Stock [3; 100000] ≠ bucket_of Stock [5; 7].
Proof. intros E. discriminate (hash_perfect Stock [3; 100000] [5; 7] ltac:(done) eq_refl eq_refl E). Defined.
(** districts of warehouses four apart share a bucket *)
Lemma district_bucket_shared w d : populated District [w; d] = true → populated District [w + 4; d] = true →
  bucket_of District [w + 4; d] = bucket_of District [w; d].
Proof.
  intros H1 H2. rewrite !bucket_district by done. do 2 f_equal. replace (w + 4 - 1) with (w - 1 + 1 * 4) by lia. by rewrite Z.mod_add.
Qed.

(** ** Order ids *)

Lemma auto_id_eq ts node : 0 ≤ ts < 2 ^ 56 → 0 ≤ node < 256 → Z.lor (u64 (Z.shiftl ts 8)) (Z.land node 255) = node + 256 * ts.
Proof.
  intros Ht Hn. change 255 with (Z.ones 8). rewrite Z.land_ones, Z.mod_small by lia. rewrite u64_id by (rewrite Z.shiftl_mul_pow2 by lia; lia).
  rewrite Z.lor_comm, (lor_disjoint _ _ 8) by lia. lia.
Qed.
(** an id names the node that made it and the value of its counter *)
Lemma auto_id_inj ts1 n1 ts2 n2 : 0 ≤ ts1 < 2 ^ 56 → 0 ≤ n1 < 256 → 0 ≤ ts2 < 2 ^ 56 → 0 ≤ n2 < 256 →
  Z.lor (u64 (Z.shiftl ts1 8)) (Z.land n1 255) = Z.lor (u64 (Z.shiftl ts2 8)) (Z.land n2 255) → ts1 = ts2 ∧ n1 = n2.
Proof. intros. rewrite !auto_id_eq in * by done. lia. Qed.
Lemma zone_inj w1 d1 w2 d2 : 1 ≤ w1 < 2 ^ 20 → 1 ≤ d1 ≤ 10 → 1 ≤ w2 < 2 ^ 20 → 1 ≤ d2 ≤ 10 →
  auto_inc_zone w1 d1 = auto_inc_zone w2 d2 → w1 = w2 ∧ d1 = d2.
Proof. intros. unfold auto_inc_zone in *. rewrite !u32_id in * by lia. lia. Qed.
