(* ===== verification/TpccTxns.v ===== *)
(** The TPC-C transactions NewOrder, Payment and Delivery (benchmark/tpcc): what they
    prepare, the pieces they attach and what the pieces do to the rows. A row is named by
    its handle, 0 is the null pointer; a piece is a function on the state it finds. *)

From S2P Require Import Prelude Bits EpochMem IndexOp IndexFacts IndexProps Tpcc.

(** ** Rows (table_decl.h), with the fields that transactions change *)

Record StockValue := mkStock { s_quantity : Z; s_ytd : Z; s_order_cnt : Z; s_remote_cnt : Z }.
Record WarehouseValue := mkWarehouse { w_ytd : Z; w_tax : Z }.
Record DistrictValue := mkDistrict { d_ytd : Z }.
Record CustomerValue := mkCustomer { c_balance : Z; c_ytd_payment : Z; c_payment_cnt : Z }.
Record OOrderValue := mkOOrder { o_c_id : Z; o_carrier_id : Z; o_ol_cnt : Z; o_all_local : bool; o_entry_d : Z }.
Record OrderLineValue := mkOrderLine { ol_i_id : Z; ol_delivery_d : Z; ol_amount : Z; ol_supply_w_id : Z; ol_quantity : Z }.

Record DB := mkDB {
  stocks : gmap Z StockValue; warehouses : gmap Z WarehouseValue; districts : gmap Z DistrictValue;
  customers : gmap Z CustomerValue; oorders : gmap Z OOrderValue; order_lines : gmap Z OrderLineValue;
  new_orders : gset Z }.
Definition set_stocks (f : gmap Z StockValue → gmap Z StockValue) (d : DB) : DB :=
  mkDB (f (stocks d)) (warehouses d) (districts d) (customers d) (oorders d) (order_lines d) (new_orders d).
Definition set_warehouses f (d : DB) : DB := mkDB (stocks d) (f (warehouses d)) (districts d) (customers d) (oorders d) (order_lines d) (new_orders d).
Definition set_districts f (d : DB) : DB := mkDB (stocks d) (warehouses d) (f (districts d)) (customers d) (oorders d) (order_lines d) (new_orders d).
Definition set_customers f (d : DB) : DB := mkDB (stocks d) (warehouses d) (districts d) (f (customers d)) (oorders d) (order_lines d) (new_orders d).
Definition set_oorders f (d : DB) : DB := mkDB (stocks d) (warehouses d) (districts d) (customers d) (f (oorders d)) (order_lines d) (new_orders d).
Definition set_order_lines f (d : DB) : DB := mkDB (stocks d) (warehouses d) (districts d) (customers d) (oorders d) (f (order_lines d)) (new_orders d).
Definition set_new_orders f (d : DB) : DB := mkDB (stocks d) (warehouses d) (districts d) (customers d) (oorders d) (order_lines d) (f (new_orders d)).

(** [Read] of a row: the null pointer and rows of other tables have no value *)
Definition row_value {V} (m : gmap Z V) (row : Z) : result V := match m !! row with Some v => Ok v | None => Err OutOfRange end.

(** ** Pieces and [UpdateForKey] (txn_cc.h, txn.cc) *)

(** a future of a transaction: its subscribers, and its value where it is ready *)
Record Fut := mkFut { f_nodes : list Z; f_ready : gmap Z Z }.
Definition new_future : Fut := mkFut [] ∅.
Definition kMaxSubscription : Z := 6.
(** the state of pieces: the rows and the futures *)
Record St := mkSt { db : DB; futures : gmap Z Fut }.
Definition upd_db (f : DB → DB) (s : St) : St := mkSt (f (db s)) (futures s).
Definition upd_fut (i : Z) (f : Fut) (s : St) : St := mkSt (db s) (<[i := f]> (futures s)).
Definition get_fut (i : Z) (s : St) : Fut := default new_future (futures s !! i).

(** [Subscribe], [Signal] ([TransportFutureValue] makes it ready on the subscribed nodes
    only) and [Wait] on a node *)
Definition Subscribe (i node : Z) (s : St) : result St :=
  let f := get_fut i s in
  _ ← abort_if (kMaxSubscription <=? len (f_nodes f)); Ok (upd_fut i (mkFut (f_nodes f ++ [node]) (f_ready f)) s).
Definition Signal (i v : Z) (s : St) : St :=
  let f := get_fut i s in upd_fut i (mkFut (f_nodes f) (foldl (fun r n => <[n := v]> r) (f_ready f) (f_nodes f))) s.
Definition Wait (i node : Z) (s : St) : result (Z * St) :=
  let f := get_fut i s in
  match f_ready f !! node with Some v => Ok (v, upd_fut i (mkFut (f_nodes f) (delete node (f_ready f))) s) | None => Err Blocked end.
Record TxnPiece := mkPiece { p_node : Z; p_aff : Z; p_body : St → result St }.
Definition max_u64 : Z := 2 ^ 64 - 1.

(** [InvokeHandle] of a row function with parameters [A] *)
Record InvokeHandle (A : Type) := mkHandle { rowfunc : option (A → Z → St → result St); ih_row : Z }.
Arguments mkHandle {A} rowfunc ih_row.
Arguments rowfunc {A} i.
Arguments ih_row {A} i.
Definition ClearCallback {A} : InvokeHandle A := mkHandle None 0.
Definition has_callback {A} (h : InvokeHandle A) : bool := bool_decide (is_Some (rowfunc h)).
Definition Invoke {A} (h : InvokeHandle A) (a : A) (s : St) : result St :=
  match rowfunc h with Some f => f a (ih_row h) s | None => Ok s end.

(** the options and the services a transaction sees *)
Record Env := mkEnv {
  node_id : Z; cfg : Config; nr_nodes : Z; g_nr_threads : Z;
  kOnDemandSplitting : bool; kEnablePartition : bool; g_enable_granola : bool; g_enable_pwv : bool;
  contention_affinity : Z → Z; LookupDuplicate : Z → bool; GetScheduleCore : Z → Z }.

Section Txns.
Context (E : Env).
Notation pinnable := (IsWarehousePinnable (cfg E) (nr_nodes E) (g_nr_threads E)).
Notation core_of w := (WarehouseToCoreId (cfg E) (nr_nodes E) (g_nr_threads E) w).

Definition UpdateForKeyAffinity (node row : Z) : result Z :=
  if negb (kOnDemandSplitting E) then Ok (-1) else
  if row =? 0 then Err OutOfRange else
  if (contention_affinity E row =? -1) || (negb (node =? 0) && negb (node_id E =? node)) then Ok (-1) else
  if LookupDuplicate E row then Ok (-1) else Ok (GetScheduleCore E (contention_affinity E row)).
Definition UpdateForKey {A} (node row : Z) (f : A → Z → St → result St) (a : A) : result (InvokeHandle A * list TxnPiece) :=
  aff ← UpdateForKeyAffinity node row;
  let h := mkHandle (Some f) row in
  if negb (aff =? -1) && negb (g_enable_granola E) && negb (g_enable_pwv E)
  then Ok (ClearCallback, [mkPiece node aff (Invoke h a)]) else Ok (h, []).

(** ** NewOrder *)

(** the update of a stock: [quantity] is [unsigned int], so is the comparison *)
Definition update_stock (quantity : Z) (remote : bool) (v : StockValue) : StockValue :=
  let q := if u32 (s_quantity v - quantity) <? 10 then i16 (s_quantity v + 91) else s_quantity v in
  mkStock (i16 (u32 (q - quantity))) (i32 (u32 (s_ytd v + quantity))) (s_order_cnt v) (i32 (s_remote_cnt v + if remote then 1 else 0)).
Definition write_stock (row quantity : Z) (remote : bool) (s : St) : result St :=
  v ← row_value (stocks (db s)) row; Ok (upd_db (set_stocks (<[row := update_stock quantity remote v]>)) s).
Definition stock_rowfunc (a : Z * bool) (row : Z) (s : St) : result St := write_stock row a.1 a.2 s.

(** the loop [for i < kNewOrderMaxItems: if bitmap has i] *)
Definition for_bits (bitmap : Z) (f : Z → St → result St) (s : St) : result St :=
  for_each (fun i s => if Z.testbit bitmap i then f i s else Ok s) (seqZ 0 kNewOrderMaxItems) s.
Definition quantity_of (o : NewOrderStruct) (i : Z) : result Z := nth_r (order_quantities o) i.
Definition supplier_of (o : NewOrderStruct) (i : Z) : result Z := nth_r (supplier_warehouse_id o) i.

(** [state->stocks] of the nodes, and the row of the warehouse *)
Context (stock_row : Z → Z → Z) (warehouse_row : Z).

(** the update of item [i] on a node *)
Definition update_item (o : NewOrderStruct) (node i : Z) (s : St) : result St :=
  q ← quantity_of o i; w ← supplier_of o i; write_stock (stock_row node i) q (negb (w =? no_warehouse_id o)) s.
(** [stock_futures[i]] with the pieces that [UpdateForKey] attaches *)
Definition stock_future (o : NewOrderStruct) (node i : Z) : result (InvokeHandle (Z * bool) * list TxnPiece) :=
  q ← quantity_of o i; w ← supplier_of o i;
  UpdateForKey node (stock_row node i) stock_rowfunc (q, negb (w =? no_warehouse_id o)).
Definition stock_futures (o : NewOrderStruct) (node bitmap : Z) : result (gmap Z (InvokeHandle (Z * bool)) * list TxnPiece) :=
  for_each (fun i '(fs, ps) => if Z.testbit bitmap i then '(h, p) ← stock_future o node i; Ok (<[i := h]> fs, ps ++ p) else Ok (fs, ps))
    (seqZ 0 kNewOrderMaxItems) (∅, []).
Definition invoke_stocks (o : NewOrderStruct) (bitmap : Z) (fs : gmap Z (InvokeHandle (Z * bool))) : St → result St :=
  for_bits bitmap (fun i s => q ← quantity_of o i; w ← supplier_of o i;
    match fs !! i with Some h => Invoke h (q, negb (w =? no_warehouse_id o)) s | None => Ok s end).

(** [unique_warehouses] of [kEnablePartition] *)
Definition unique_warehouses (o : NewOrderStruct) (bitmap : Z) : result (list Z) :=
  for_each (fun i u => if Z.testbit bitmap i then w ← supplier_of o i; Ok (if bool_decide (w ∈ u) then u else u ++ [w]) else Ok u)
    (seqZ 0 kNewOrderMaxItems) [].
Definition partition_piece (o : NewOrderStruct) (node bitmap w : Z) : TxnPiece :=
  mkPiece node (w - 1) (for_bits bitmap (fun i s => w' ← supplier_of o i; if (0 <? w) && negb (w' =? w) then Ok s else update_item o node i s)).

(** [Prepare] under lock elision: groups of items that have the same supplier; a group has
    the items that were picked in one pass, in the order of their keys *)
Record Group := mkGroup { g_warehouse : Z; g_bitmap : Z; g_items : list Z }.
Definition pick (o : NewOrderStruct) (i : Z) (x : Z * Z * list Z) : result (Z * Z * list Z) :=
  let '(w, picked, keys) := x in
  if Z.testbit picked i then Ok x else
  s ← supplier_of o i;
  if (w =? 0) || (w =? s) then Ok (if w =? 0 then s else w, Z.lor picked (Z.shiftl 1 i), keys ++ [i]) else Ok x.
Fixpoint partition_loop (o : NewOrderStruct) (fuel : nat) (picked iend : Z) (groups : list Group) : result (Z * list Group) :=
  match fuel with
  | O => Err Blocked
  | S fuel =>
      '(w, picked', keys) ← for_each (pick o) (seqZ 0 (len (item_id o))) (0, picked, []);
      if len keys =? 0 then Ok (iend, groups) else
      partition_loop o fuel picked' (iend + len keys) (groups ++ [mkGroup w (Z.lxor picked' picked) keys])
  end.
Definition stock_groups (o : NewOrderStruct) : result (list Group) :=
  '(iend, groups) ← partition_loop o (S (length (item_id o))) 0 0 [];
  _ ← abort_if (negb (iend =? len (item_id o))); Ok groups.
(** [stocks_nodes] then *)
Definition elision_nodes (o : NewOrderStruct) : result NodeBitmap := MergeOrAdd 1 (u16 (Z.shiftl 1 (len (item_id o)) - 1)) [].

(** the nodes of the stocks, [KeyParam<Stock>] of all items; [TableType::Stock] is 111 and
    [hash] is [XXH32] of a key; [ASSERT_PWV_CONT] aborts in the first pass *)
Definition LocateStock (hash : Z * Z → Z) (k : Z * Z) : Z :=
  if shard_by_warehouse (cfg E) then WarehouseToSliceId k.1 else hash k mod max_slice_id (cfg E).
Definition stock_keys (o : NewOrderStruct) : list (Z * Z) := zip (supplier_warehouse_id o) (item_id o).
Definition NewOrder_Prepare (hash : Z * Z → Z) (g_lock_elision : bool) (o : NewOrderStruct) : result NodeBitmap :=
  if g_lock_elision then
    _ ← abort_if (negb pinnable && negb (nr_warehouses (cfg E) =? 1) && (0 <? len (item_id o)));
    _ ← stock_groups o; elision_nodes o else
  GenerateNodeBitmap (fun _ => LocateStock hash) (SliceToNodeId (cfg E) (nr_nodes E)) (nr_nodes E) (node_id E) [KeyParam 111 (stock_keys o)].

(** [StocksLookupCompletion]: the item of the key with index [id]; [ctz] of 0 is undefined *)
Fixpoint bit_at (id : nat) (bitmap : Z) : result Z :=
  if bitmap =? 0 then Err OutOfRange else
  let idx := ctz bitmap in
  match id with O => Ok idx | S id => bit_at id (Z.land bitmap (Z.lnot (Z.shiftl 1 idx))) end.
Definition completion_item (arg : Z) (id : nat) : result Z := if arg =? -1 then Ok (Z.of_nat id) else bit_at id arg.

(** [NewOrderTxn::Run], for a pair of [stocks_nodes] and for all *)
Definition new_order_node (o : NewOrderStruct) (e : Z * Z) : result (list TxnPiece) :=
  let (node, bitmap) := e in
  if kEnablePartition E then
    ws ← unique_warehouses o bitmap; Ok (map (partition_piece o node bitmap) ws)
  else if node =? node_id E then
    '(fs, ps) ← stock_futures o node bitmap;
    let aff := if pinnable then core_of (no_warehouse_id o) else max_u64 in
    Ok (ps ++ [mkPiece node aff (invoke_stocks o bitmap fs);
               mkPiece node aff (fun s => _ ← row_value (warehouses (db s)) warehouse_row; Ok s)])
  else Ok [mkPiece node max_u64 (for_bits bitmap (update_item o node))].
Definition NewOrder_Run (o : NewOrderStruct) (stocks_nodes : NodeBitmap) : result (list TxnPiece) :=
  for_each (fun e ps => p ← new_order_node o e; Ok (ps ++ p)) stocks_nodes [].

(** ** Payment *)

(** [PaymentTxn::Prepare]: the nodes of the warehouse (table 113), the district (104) and the
    customer (101), looked up at once or, under lock elision, by partition *)
Definition LocateKey (hash : list Z → Z) (k : list Z) : Z :=
  if shard_by_warehouse (cfg E) then WarehouseToSliceId (k.[0]) else hash k mod max_slice_id (cfg E).
Definition warehouse_param (p : PaymentStruct) : Param (list Z) := KeyParam 113 [[p_warehouse_id p]].
Definition district_param (p : PaymentStruct) : Param (list Z) := KeyParam 104 [[p_warehouse_id p; p_district_id p]].
Definition customer_param (p : PaymentStruct) : Param (list Z) := KeyParam 101 [[customer_warehouse_id p; customer_district_id p; p_customer_id p]].
Definition lookup_nodes (hash : list Z → Z) (ps : list (Param (list Z))) : result NodeBitmap :=
  GenerateNodeBitmap (fun _ => LocateKey hash) (SliceToNodeId (cfg E) (nr_nodes E)) (nr_nodes E) (node_id E) ps.
Definition Payment_Prepare (hash : list Z → Z) (g_lock_elision : bool) (p : PaymentStruct) : result NodeBitmap :=
  if negb g_lock_elision then lookup_nodes hash [warehouse_param p; district_param p; customer_param p]
  else if pinnable then
    n1 ← lookup_nodes hash [warehouse_param p; district_param p];
    n2 ← lookup_nodes hash [PlaceholderParam 2; customer_param p]; NodeBitmap_add n1 n2
  else
    _ ← abort_if (negb (nr_warehouses (cfg E) =? 1));
    n1 ← lookup_nodes hash [warehouse_param p];
    n2 ← lookup_nodes hash [PlaceholderParam 1; district_param p]; n12 ← NodeBitmap_add n1 n2;
    n3 ← lookup_nodes hash [PlaceholderParam 2; customer_param p]; NodeBitmap_add n12 n3.

(** the rows of the state of a node: warehouse 0, district 1, customer 2 *)
Context (pay_row : Z → Z → Z).

Definition UpdateWarehouse (node : Z) (p : PaymentStruct) (row : Z) (s : St) : result St :=
  v ← row_value (warehouses (db s)) row;
  let v' := mkWarehouse (i32 (w_ytd v + payment_amount p)) (w_tax v) in
  let s := upd_db (set_warehouses (<[row := v']>)) s in
  s ← Subscribe 0 (SliceToNodeId (cfg E) (nr_nodes E) (WarehouseToSliceId (customer_warehouse_id p))) s;
  Ok (Signal 0 (w_tax v) s).
Definition UpdateDistrict (p : PaymentStruct) (row : Z) (s : St) : result St :=
  v ← row_value (districts (db s)) row; Ok (upd_db (set_districts (<[row := mkDistrict (i32 (d_ytd v + payment_amount p))]>)) s).
(** [amount + amount * tax / 100] *)
Definition payment_with_tax (amount tax : Z) : Z := i32 (amount + Z.quot (i32 (amount * tax)) 100).
Definition charge (amount : Z) (v : CustomerValue) : CustomerValue :=
  mkCustomer (i32 (c_balance v - amount)) (i32 (c_ytd_payment v + amount)) (i32 (c_payment_cnt v + 1)).
Definition UpdateCustomer (node : Z) (p : PaymentStruct) (row : Z) (s : St) : result St :=
  v ← row_value (customers (db s)) row;
  '(tax, s) ← Wait 0 node s;
  Ok (upd_db (set_customers (<[row := charge (payment_with_tax (payment_amount p) tax) v]>)) s).

(** the three updates, in the order of a piece *)
Definition pay_func (node id : Z) (p : PaymentStruct) (row : Z) : St → result St :=
  if id =? 0 then UpdateWarehouse node p row else if id =? 1 then UpdateDistrict p row else UpdateCustomer node p row.
Definition pay_bits (b : Z) (f : Z → St → result St) : St → result St :=
  for_each (fun id s => if Z.testbit b id then f id s else Ok s) [0; 1; 2].
Definition filters : list Z := if negb (kEnablePartition E) then [7; 0; 0] else if pinnable then [3; 4; 0] else [1; 2; 4].
Definition pay_aff (p : PaymentStruct) (filter : Z) : Z :=
  if pinnable then
    if Z.testbit filter 0 then core_of (p_warehouse_id p) else if filter =? 4 then core_of (customer_warehouse_id p) else max_u64
  else if kEnablePartition E then
    if Z.testbit filter 0 then 1
    else if Z.testbit filter 1 then PWVDistrictToCoreId (g_nr_threads E) (p_district_id p) 0
    else if Z.testbit filter 2 then PWVDistrictToCoreId (g_nr_threads E) (customer_district_id p) 20 else max_u64
  else max_u64.
(** [PaymentTxn::Run] *)
Definition payment_node (p : PaymentStruct) (e : Z * Z) : result (list TxnPiece) :=
  let (node, bitmap) := e in
  if node_id E =? node then
    hs ← mapM (fun id => UpdateForKey node (pay_row node id) (fun (_ : unit) => pay_func node id p) ()) [0; 1; 2];
    let split := concat (map snd hs) in
    if forallb (fun h => negb (has_callback (fst h))) hs then Ok split else
    Ok (split ++ map (fun filter => mkPiece node (pay_aff p filter)
      (pay_bits (Z.land bitmap filter) (fun id s => h ← nth_r hs id; Invoke (fst h) () s))) (filter (fun f => f ≠ 0) filters))
  else Ok [mkPiece node max_u64 (pay_bits bitmap (fun id => pay_func node id p (pay_row node id)))].
Definition Payment_Run (p : PaymentStruct) (nodes : NodeBitmap) : result (list TxnPiece) :=
  for_each (fun e ps => q ← payment_node p e; Ok (ps ++ q)) nodes [].

(** ** Delivery *)

(** the rows of a district [i] (from 0) in the state of this node: the order lines up to the
    first null pointer, the order, the customer and the new-order row *)
Record DistrictRows := mkRows { dl_lines : list Z; dl_oorder : Z; dl_customer : Z; dl_new_order : Z }.
Context (dl : Z → DistrictRows) (dl_warehouse ts carrier_id : Z).

Definition DeleteNewOrder (i : Z) (s : St) : result St :=
  let r := dl_new_order (dl i) in
  if bool_decide (r ∈ new_orders (db s)) then Ok (upd_db (set_new_orders (fun m => m ∖ {[r]})) s) else Err OutOfRange.
Definition deliver_order (v : OOrderValue) : OOrderValue := mkOOrder (o_c_id v) carrier_id (o_ol_cnt v) (o_all_local v) (o_entry_d v).
Definition UpdateOOrder (i : Z) (s : St) : result St :=
  let r := dl_oorder (dl i) in v ← row_value (oorders (db s)) r; Ok (upd_db (set_oorders (<[r := deliver_order v]>)) s).
Definition deliver_line (v : OrderLineValue) : OrderLineValue := mkOrderLine (ol_i_id v) ts (ol_amount v) (ol_supply_w_id v) (ol_quantity v).
Definition sum_line (r : Z) (x : Z * St) : result (Z * St) :=
  let (sum, s) := x in
  v ← row_value (order_lines (db s)) r;
  Ok (i32 (sum + ol_amount v), upd_db (set_order_lines (<[r := deliver_line v]>)) s).
Definition CalcSum (i : Z) (s : St) : result (Z * St) := for_each sum_line (take 15 (dl_lines (dl i))) (0, s).
Definition WriteCustomer (i sum : Z) (s : St) : result St :=
  let r := dl_customer (dl i) in
  v ← row_value (customers (db s)) r;
  Ok (upd_db (set_customers (<[r := mkCustomer (i32 (c_balance v + sum)) (c_ytd_payment v) (c_payment_cnt v)]>)) s).
Definition deliver_customer (i : Z) (_ : Z) (s : St) : result St := '(sum, s) ← CalcSum i s; WriteCustomer i sum s.

(** [DeliveryTxn::Run] for a district, without partitions; the remote state of a node has no
    [customer_future] *)
Definition delivery_body (i node bitmap : Z) (h : InvokeHandle Z) (s : St) : result St :=
  s ← (if Z.testbit bitmap 4 then DeleteNewOrder i s else Ok s);
  s ← (if Z.testbit bitmap 2 then UpdateOOrder i s else Ok s);
  if node =? node_id E then Invoke h i s else Ok s.
(** a round of the loop over the nodes: the pieces find [customer_future[i]] as it is when
    they run, after the loop *)
Definition delivery_step (i : Z) (e : Z * Z) (x : InvokeHandle Z * list (InvokeHandle Z → TxnPiece)) :
  result (InvokeHandle Z * list (InvokeHandle Z → TxnPiece)) :=
  let (node, bitmap) := e in
  if bitmap =? 8 then Ok x else
  '(h, split) ← (if Z.testbit bitmap 0 then UpdateForKey node (dl_customer (dl i)) deliver_customer i else Ok (x.1, []));
  let aff := if kEnablePartition E then core_of dl_warehouse else max_u64 in
  Ok (h, x.2 ++ map (fun p _ => p) split ++
    (if negb (bitmap =? 129) || has_callback h then [fun h => mkPiece node aff (delivery_body i node bitmap h)] else [])).
Definition delivery_district (i : Z) (nodes : NodeBitmap) : result (list TxnPiece) :=
  '(h, ps) ← for_each (delivery_step i) nodes (ClearCallback, []); Ok (map (fun p => p h) ps).

(** the pieces with partitions: nobody subscribes to the future of the sum *)
Definition delivery_parts (i : Z) (e : Z * Z) : list TxnPiece :=
  let (node, bitmap) := e in
  let part base := PWVDistrictToCoreId (g_nr_threads E) (i + 1) base in
  if bitmap =? 8 then [] else
  [mkPiece node (part 30) (fun s => _ ← abort_if (dl_new_order (dl i) =? 0); DeleteNewOrder i s);
   mkPiece node (part 40) (UpdateOOrder i);
   mkPiece node (part 10) (fun s => '(sum, s) ← CalcSum i s; Ok (Signal i sum s));
   mkPiece node (part 20) (fun s => '(sum, s) ← Wait i node s; WriteCustomer i sum s)].
Definition Delivery_Run (nodes : list NodeBitmap) : result (list TxnPiece) :=
  for_each (fun '(i, nb) ps =>
      q ← (if negb (kEnablePartition E) || pinnable then delivery_district i nb else Ok (flat_map (delivery_parts i) nb)); Ok (ps ++ q))
    (zip (seqZ 0 10) nodes) [].
End Txns.

(** * Runs of the pieces of a transaction in any order, and transactions whose pieces are
    sequences of independent actions. *)

(** [exec ps s qs t]: some of the pieces [ps] have run from [s], [qs] are left, the state
    is [t]; a piece that would wait runs when it can run through *)
Inductive exec : list TxnPiece → St → list TxnPiece → St → Prop :=
| exec_done ps s : exec ps s ps s
| exec_piece l1 p l2 s s' qs t : p_body p s = Ok s' → exec (l1 ++ l2) s' qs t → exec (l1 ++ p :: l2) s qs t.

(** a piece that can run *)
Definition can_run (qs : list TxnPiece) (t : St) : Prop := ∃ p t', p ∈ qs ∧ p_body p t = Ok t'.
(** every run of [ps] from [s] goes on until all pieces have run, and ends in [P] *)
Definition completes (ps : list TxnPiece) (s : St) (P : St → Prop) : Prop :=
  ∀ qs t, exec ps s qs t → (qs = [] ∧ P t) ∨ can_run qs t.

(** ** Actions with dependencies *)

Section Enabled.
Context {A : Type} (deps : A → list A).
(** [l] can be done after [X] *)
Fixpoint enabled (X l : list A) : Prop := match l with [] => True | a :: l => deps a ⊆ X ∧ enabled (a :: X) l end.
Lemma enabled_more l : ∀ X Y, X ⊆ Y → enabled X l → enabled Y l.
Proof using Type. induction l as [|a l IH]; intros X Y HXY; cbn; [done|]. intros [Hd He]. split; [set_solver|]. eapply IH; [|exact He]. set_solver. Qed.
Lemma enabled_app l1 l2 : ∀ X, enabled X (l1 ++ l2) ↔ enabled X l1 ∧ enabled (reverse l1 ++ X) l2.
Proof using Type.
  induction l1 as [|a l1 IH]; intros X; [cbn; tauto|]. cbn [app enabled]. rewrite IH, reverse_cons, <- app_assoc. cbn [app]. tauto.
Qed.
(** what is done early enables no less *)
Lemma enabled_pull X u l v : enabled X (u ++ l ++ v) → enabled (l ++ X) (u ++ v).
Proof using Type.
  rewrite !enabled_app. intros (Hu & Hl & Hv). split; (eapply enabled_more; [|eassumption]); [set_solver|].
  intros x. rewrite !elem_of_app, !elem_of_reverse. tauto.
Qed.
End Enabled.
(** without dependencies everything is enabled *)
Lemma enabled_free {A} (l : list A) : ∀ X, enabled (fun _ => []) X l.
Proof. induction l as [|a l IH]; intros X; cbn; [done|]. split; [|apply IH]. intros x Hx. by apply elem_of_nil in Hx. Qed.

Section Plan.
Context {A : Type} (act : A → St → result St) (deps : A → list A).
(** the actions of the transaction, and the states after the actions [X] *)
Context (U : A → Prop) (after : list A → St → Prop).
Context (after_perm : ∀ X Y s, X ≡ₚ Y → after X s → after Y s).
Context (after_step : ∀ X a s, U a → after X s → a ∉ X → deps a ⊆ X → ∃ s', act a s = Ok s' ∧ after (a :: X) s').
Context (after_block : ∀ X a s s', U a → after X s → a ∉ X → act a s = Ok s' → deps a ⊆ X).

Lemma run_actions l : ∀ X s, (∀ a, a ∈ l → U a) → after X s → enabled deps X l → NoDup (l ++ X) → ∃ s', for_each act l s = Ok s' ∧ after (l ++ X) s'.
Proof using after_perm after_step after_block.
  induction l as [|a l IH]; intros X s HU Hs He Hnd; [by exists s|]. destruct He as [Hd He]. cbn in Hnd. apply NoDup_cons in Hnd as [Ha Hnd].
  destruct (after_step X a s (HU a ltac:(left)) Hs) as (s1 & E1 & H1); [set_solver|done|]. cbn [for_each]. rewrite E1. cbn [mbind result_bind].
  destruct (IH (a :: X) s1 (fun b Hb => HU b ltac:(by right)) H1 He) as (s' & -> & H'); [by rewrite <- Permutation_middle; apply NoDup_cons|].
  exists s'. split; [done|]. eapply after_perm; [|exact H']. by rewrite <- Permutation_middle.
Qed.
Lemma actions_enabled l : ∀ X s s', (∀ a, a ∈ l → U a) → after X s → NoDup (l ++ X) → for_each act l s = Ok s' → enabled deps X l.
Proof using after_perm after_step after_block.
  induction l as [|a l IH]; intros X s s' HU Hs Hnd E; [done|]. cbn in Hnd. apply NoDup_cons in Hnd as [Ha Hnd]. cbn [for_each] in E.
  destruct (act a s) as [s1|] eqn:E1; [|done]. cbn [mbind result_bind] in E. assert (Hx : a ∉ X) by set_solver.
  assert (Ha' : U a) by (apply HU; left). assert (Hd := after_block X a s s1 Ha' Hs Hx E1). destruct (after_step X a s Ha' Hs Hx Hd) as (s2 & E2 & H2). rewrite E1 in E2. injection E2 as <-.
  split; [done|]. apply (IH (a :: X) s1 s'); [intros; apply HU; by right|done| |done]. by rewrite <- Permutation_middle; apply NoDup_cons.
Qed.

(** the piece [p] does the actions [l] *)
Definition does (p : TxnPiece) (l : list A) : Prop := ∀ X s, after X s → p_body p s = for_each act l s.

(** If the pieces do disjoint lists of actions that can be done in some order, every run
    completes with all actions done. *)
Lemma plan_completes ps ls s X ls' : Forall2 does ps ls → (∀ a, a ∈ concat ls → U a) → after X s → NoDup (concat ls ++ X) → ls' ≡ₚ ls → enabled deps X (concat ls') →
  completes ps s (after (concat ls ++ X)).
Proof using after_perm after_step after_block.
  intros Hps HU Hs Hnd Hp He qs t Hx. revert X ls ls' Hps HU Hs Hnd Hp He.
  induction Hx as [ps s|l1 p l2 s s' qs t E Hx IH]; intros X ls ls' Hps HU Hs Hnd Hp He.
  - destruct ls' as [|l0 ls'].
    { apply Permutation_nil_l in Hp. subst ls. apply Forall2_nil_inv_r in Hps. by left. }
    right. assert (l0 ∈ ls) as [i Hi]%list_elem_of_lookup by (rewrite <- Hp; left).
    destruct (Forall2_lookup_r _ _ _ _ _ Hps Hi) as (p & Hpi & Hd). cbn in He. apply enabled_app in He as [He _].
    destruct (run_actions l0 X s) as (s' & E & _); [|done|done| |].
    { intros a Ha. apply HU. rewrite <- Hp. cbn. set_solver. }
    { rewrite <- Hp in Hnd. cbn in Hnd. rewrite <- app_assoc in Hnd. rewrite (Permutation_app_comm (concat ls')), app_assoc in Hnd. by apply NoDup_app in Hnd as [? _]. }
    exists p, s'. split; [by eapply list_elem_of_lookup_2|]. by rewrite (Hd X s Hs).
  - apply Forall2_app_inv_l in Hps as (la & lb' & Ha & Hb & ->). apply Forall2_cons_inv_l in Hb as (l & lb & Hl & Hb & ->).
    rewrite (Hl X s Hs) in E. rewrite concat_app in *. cbn [concat] in *.
    assert (Hnd' : NoDup ((concat la ++ concat lb) ++ (l ++ X))).
    { eapply NoDup_Permutation_proper; [|exact Hnd]. solve_Permutation. }
    assert (Hl' : NoDup (l ++ X)) by (by apply NoDup_app in Hnd' as (_ & _ & ?)).
    assert (HUl : ∀ a, a ∈ l → U a) by (intros a Hal; apply HU; set_solver).
    pose proof (actions_enabled l X s s' HUl Hs Hl' E) as Hel. destruct (run_actions l X s HUl Hs Hel Hl') as (s2 & E2 & Hs2). rewrite E in E2. injection E2 as <-.
    assert (l ∈ ls') as (u & v & ->)%list_elem_of_split by (rewrite Hp; set_solver).
    rewrite concat_app in He. cbn [concat] in He. apply enabled_pull in He.
    destruct (IH (l ++ X) (la ++ lb) (u ++ v)) as [[-> Hf]|]; [by apply Forall2_app|intros a Hal; apply HU; rewrite concat_app in Hal; set_solver|done|by rewrite concat_app| | | |by right].
    + apply (Permutation_cons_inv (a := l)). by rewrite !Permutation_middle.
    + by rewrite concat_app.
    + left. split; [done|]. eapply after_perm; [|exact Hf]. rewrite concat_app. solve_Permutation.
Qed.
End Plan.

(** a transaction that attaches pieces for the elements of a list *)
Lemma collect_ok {A B} (act : A → St → result St) after (Q : list A → Prop) (f : B → result (list TxnPiece)) (h : B → list A) nodes :
  (∀ e, e ∈ nodes → ∃ ps ls, f e = Ok ps ∧ Forall2 (does act after) ps ls ∧ Forall Q ls ∧ concat ls ≡ₚ h e) →
  ∃ ps ls, (∀ acc, for_each (fun e ps => p ← f e; Ok (ps ++ p)) nodes acc = Ok (acc ++ ps)) ∧
    Forall2 (does act after) ps ls ∧ Forall Q ls ∧ concat ls ≡ₚ concat (map h nodes).
Proof.
  induction nodes as [|e nodes IH]; intros H.
  { exists [], []. split; [intros acc; by rewrite app_nil_r|]. by split_and!. }
  destruct (H e) as (p1 & l1 & E1 & H1 & Q1 & P1); [left|]. destruct IH as (p2 & l2 & E2 & H2 & Q2 & P2); [intros; apply H; by right|].
  exists (p1 ++ p2), (l1 ++ l2). split_and!; [|by apply Forall2_app|by apply Forall_app_2|].
  - intros acc. cbn [for_each]. rewrite E1. cbn [mbind result_bind]. rewrite E2. by rewrite app_assoc.
  - rewrite concat_app. cbn. by rewrite P1, P2.
Qed.

(** ** Loops over bits *)

Lemma for_each_filter {A S} (P : A → bool) (f : A → S → result S) l : ∀ s,
  for_each (fun i s => if P i then f i s else Ok s) l s = for_each f (filter (fun i => P i = true) l) s.
Proof.
  induction l as [|x l IH]; intros s; cbn [for_each]; [done|]. destruct (P x) eqn:E.
  - rewrite filter_cons_True by done. cbn [for_each]. destruct (f x s); cbn; [apply IH|done].
  - rewrite filter_cons_False by congruence. apply IH.
Qed.
Lemma for_bits_sel b f s : for_bits b f s = for_each f (sel b) s.
Proof. apply for_each_filter. Qed.

(** grouping a list by a key *)
Lemma group_by {A} (f : A → Z) ws : ∀ l, NoDup ws → (∀ i, i ∈ l → f i ∈ ws) → concat (map (fun w => filter (fun i => f i = w) l) ws) ≡ₚ l.
Proof.
  induction ws as [|w ws IH]; intros l Hnd Hin; cbn.
  { destruct l as [|x l]; [done|]. destruct (not_elem_of_nil (f x)). apply Hin. left. }
  apply NoDup_cons in Hnd as [Hw Hnd].
  etransitivity; [|apply (filter_app_complement (fun i => f i = w) l)]. apply Permutation_app_head.
  etransitivity; [|apply (IH (filter (fun i => f i ≠ w) l)); [done|]].
  - apply reflexive_eq. f_equal. apply map_ext_in. intros w' Hw'%list_elem_of_In. rewrite list_filter_filter.
    apply list_filter_iff. intros i. split; [|tauto]. intros <-. split; [done|]. intros Hfi. apply Hw. by rewrite <- Hfi.
  - intros i [Hne Hi]%list_elem_of_filter. apply Hin in Hi. apply elem_of_cons in Hi as [|]; done.
Qed.

(** ** Nodes *)

Lemma SliceToNodeId_range cfg nr_nodes s : 0 < nr_nodes → max_slice_id cfg ≤ 2 ^ 15 → 0 ≤ s < max_slice_id cfg → 1 ≤ SliceToNodeId cfg nr_nodes s ≤ nr_nodes.
Proof.
  intros Hn Hm Hs. unfold SliceToNodeId. rewrite i16_id by lia. assert (0 ≤ s * nr_nodes / max_slice_id cfg) by (apply Z.div_pos; nia).
  assert (s * nr_nodes / max_slice_id cfg < nr_nodes) by (apply Z.div_lt_upper_bound; nia). lia.
Qed.

(** the bitmaps assign [n] keys to their homes *)
Record bits_ready (n : Z) (home : Z → Z) (nodes : NodeBitmap) : Prop := {
  br_items : concat (map (fun e => sel e.2) nodes) ≡ₚ seqZ 0 n;
  br_homes : ∀ e i, e ∈ nodes → i ∈ sel e.2 → home i = e.1;
  br_nodup : NoDup nodes.*1;
  br_used : ∀ e, e ∈ nodes → ∃ i, i ∈ sel e.2;
}.
Lemma bits_ready_range n home nodes e i : bits_ready n home nodes → e ∈ nodes → i ∈ sel e.2 → 0 ≤ i < n.
Proof.
  intros [Hb _ _ _] He Hi. assert (i ∈ seqZ 0 n) as ?%elem_of_seqZ; [|lia]. rewrite <- Hb.
  apply list_elem_of_In, in_concat. exists (sel e.2). rewrite <- !list_elem_of_In. split; [|done]. by apply (list_elem_of_fmap_2 (fun e => sel e.2)).
Qed.

Lemma bits_ready_home n home nodes e i : bits_ready n home nodes → e ∈ nodes → 0 ≤ i < n → home i = e.1 → i ∈ sel e.2.
Proof.
  intros [Hb Hh Hnd _] He Hi Hhi. assert (Hin : i ∈ seqZ 0 n) by (apply elem_of_seqZ; lia). rewrite <- Hb in Hin.
  apply list_elem_of_In, in_concat in Hin as (l & Hl & Hil). apply list_elem_of_In in Hl, Hil.
  change (map ?f ?l) with (f <$> l) in Hl. apply list_elem_of_fmap in Hl as (e' & -> & He').
  enough (e = e') as -> by done. pose proof (Hh e' i He' Hil) as Hh'. destruct e as [m b], e' as [m' b']. cbn in *. assert (m' = m) as -> by congruence.
  f_equal. apply list_elem_of_lookup in He as [x Hx], He' as [y Hy].
  assert (x = y) as -> by (apply (NoDup_lookup _ _ _ m Hnd); rewrite list_lookup_fmap; [by rewrite Hx|by rewrite Hy]). congruence.
Qed.

Lemma home_bits_ready n (home : Z → Z) nodes : NoDup nodes.*1 → 0 ≤ n ≤ kMaxPackedKeys → (∀ i, 0 ≤ i < n → home i ∈ nodes.*1) →
  (∀ e, e ∈ nodes → ∃ i, 0 ≤ i < n ∧ home i = e.1) →
  (∀ e i, e ∈ nodes → 0 ≤ i → Z.testbit e.2 i = true ↔ home i = e.1 ∧ i < n) → bits_ready n home nodes.
Proof.
  intros Hnd Hn Hh Hu Hb. assert (Hsel : ∀ e, e ∈ nodes → sel e.2 = filter (fun i => home i = e.1) (seqZ 0 n)).
  { intros e He. unfold sel. replace kMaxPackedKeys with (n + (kMaxPackedKeys - n)) by lia.
    rewrite seqZ_app by lia. rewrite filter_app, (filter_none _ (seqZ (0 + _) _)), app_nil_r.
    - apply filter_ext_in. intros i Hi%elem_of_seqZ. rewrite (Hb e) by (done || lia). naive_solver lia.
    - intros i Hi%elem_of_seqZ. rewrite (Hb e) by (done || lia). lia. }
  split; [| |done|].
  - rewrite (map_ext_in _ (fun e => filter (fun i => home i = e.1) (seqZ 0 n))) by (intros e He%list_elem_of_In; by apply Hsel).
    etransitivity; [|apply (group_by home nodes.*1); [done|intros i Hi%elem_of_seqZ; apply Hh; lia]].
    apply reflexive_eq. f_equal. unfold fmap, list_fmap. clear. induction nodes as [|e l IH]; cbn; congruence.
  - intros e i He Hi. rewrite Hsel in Hi by done. apply list_elem_of_filter in Hi. tauto.
  - intros e He. destruct (Hu e He) as (i & Hi & Hhi). exists i. rewrite Hsel by done. apply list_elem_of_filter. split; [done|]. apply elem_of_seqZ. lia.
Qed.

(** [GenerateNodeBitmap] of keys that have homes *)
Lemma generate_ready {K} (Locate : Z → K → Z) (route : Z → Z) (nr_nodes node_id n : Z) (ps : list (Param K)) (home : Z → Z) :
  let sl := slots (fun _ => []) Locate route node_id ps in
  0 < nr_nodes → Forall param_ok ps → len sl = n → n ≤ kMaxPackedKeys →
  (∀ i, 0 ≤ i < n → ∃ s, sl !! Z.to_nat i = Some (Some s) ∧ s_home s = home i) → (∀ i, 0 ≤ i < n → 1 ≤ home i ≤ nr_nodes) →
  ∃ nodes, GenerateNodeBitmap Locate route nr_nodes node_id ps = Ok nodes ∧ bits_ready n home nodes.
Proof.
  intros sl Hnn Hps Hls Hn Hsl Hhome. assert (Hlk : len sl ≤ kMaxPackedKeys) by lia.
  assert (Hho : homes_ok (nr_nodes + 1) sl).
  { intros i s Hi. pose proof (lookup_lt_Some _ _ _ Hi) as Hlt. destruct (Hsl (Z.of_nat i) ltac:(lia)) as (s' & Hs' & Hh). rewrite Nat2Z.id, Hi in Hs'. injection Hs' as <-.
    rewrite Hh. specialize (Hhome (Z.of_nat i) ltac:(lia)). lia. }
  rewrite (GenerateNodeBitmap_eq (fun _ => []) Locate route nr_nodes node_id ps); [|lia|done|exact Hlk|exact Hho].
  fold sl. eexists. split; [done|].
  assert (Hspec : ∀ m j, 0 ≤ m ≤ nr_nodes → 0 ≤ j → Z.testbit ((node_bits nr_nodes sl).[m]) j = true ↔ ∃ s, sl !! Z.to_nat j = Some (Some s) ∧ s_home s = m).
  { intros m j Hm Hj. by apply node_bits_spec; [lia|..]. }
  assert (Hfst : (map (fun m => (m, (node_bits nr_nodes sl).[m])) (used nr_nodes sl (seqZ 1 nr_nodes))).*1 = used nr_nodes sl (seqZ 1 nr_nodes)).
  { generalize (used nr_nodes sl (seqZ 1 nr_nodes)). intros l. induction l as [|m l IH]; [done|]. cbn [map fmap list_fmap]. f_equal. exact IH. }
  apply home_bits_ready; [| lia | | |].
  + rewrite Hfst. apply NoDup_filter, NoDup_seqZ.
  + intros i Hi. rewrite Hfst. apply list_elem_of_filter. specialize (Hhome i Hi). split; [|apply elem_of_seqZ; lia].
    intros Hz. destruct (Hsl i Hi) as (s & Hsi & Hh). assert (Ht : Z.testbit ((node_bits nr_nodes sl).[home i]) i = true) by (apply Hspec; [lia|lia|by exists s]).
    by rewrite Hz, Z.bits_0 in Ht.
  + intros e He. change (map ?f ?l) with (f <$> l) in He. apply list_elem_of_fmap in He as (m & -> & [Hb Hm%elem_of_seqZ]%list_elem_of_filter). cbn [fst].
    destruct (used_bit nr_nodes sl ltac:(lia) Hlk Hho m) as (s & Hs & <- & Hc); [lia|done|]. pose proof (lookup_lt_Some _ _ _ Hs).
    eexists. split; [|destruct (Hsl _ ltac:(split; [apply Hc|lia])) as (s' & Hs' & <-); rewrite Hs in Hs'; by injection Hs' as ->]. lia.
  + intros e i He Hi. change (map ?f ?l) with (f <$> l) in He. apply list_elem_of_fmap in He as (m & -> & [_ Hm%elem_of_seqZ]%list_elem_of_filter). cbn [fst snd].
    rewrite Hspec by lia. split.
    * intros (s & Hsi & <-). pose proof (lookup_lt_Some _ _ _ Hsi). destruct (Hsl i ltac:(lia)) as (s' & Hs' & Hh). rewrite Hsi in Hs'. injection Hs' as <-. split; [done|lia].
    * intros [<- Hlt]. apply Hsl. lia.
Qed.

(** ** [UpdateForKey] *)

Section Split.
Context (E : Env).
Definition aff_of (node row : Z) : Z := match UpdateForKeyAffinity E node row with Ok a => a | Err _ => -1 end.
Definition will_split (node row : Z) : bool := negb (aff_of node row =? -1) && negb (g_enable_granola E) && negb (g_enable_pwv E).
(** of a row that is not null, or without splitting *)
Lemma UpdateForKey_eq {A} node row (f : A → Z → St → result St) a : row ≠ 0 ∨ kOnDemandSplitting E = false →
  UpdateForKey E node row f a = Ok (if will_split node row
    then (ClearCallback, [mkPiece node (aff_of node row) (Invoke (mkHandle (Some f) row) a)]) else (mkHandle (Some f) row, [])).
Proof using Type.
  intros Hrow. assert (Ha : UpdateForKeyAffinity E node row = Ok (aff_of node row)).
  { unfold aff_of, UpdateForKeyAffinity. destruct Hrow as [Hrow| ->]; [|done]. rewrite (proj2 (Z.eqb_neq row 0)) by done. repeat case_match; done. }
  unfold UpdateForKey, will_split. rewrite Ha. cbn [mbind result_bind]. by case_match.
Qed.
Lemma no_split node row : kOnDemandSplitting E = false → will_split node row = false.
Proof using Type. intros H. unfold will_split, aff_of, UpdateForKeyAffinity. by rewrite H. Qed.
End Split.
