(* ===== verification/TpccOrder.v ===== *)
(** NewOrder: the partition of its stocks in the initialization, and its pieces, which
    update every stock of the order once, in whatever order they run. *)

From S2P Require Import Prelude Bits EpochMem IndexOp IndexFacts IndexProps Tpcc TpccTxns.

(** ** Stock updates *)

Definition stock_ok (v : StockValue) : Prop := 10 ≤ s_quantity v ≤ 100.

(** the TPC-C rule: a quantity that would fall below 10 is restocked by 91 *)
Lemma update_stock_quantity q r v : stock_ok v → 1 ≤ q ≤ 10 →
  s_quantity (update_stock q r v) = (if s_quantity v - q <? 10 then s_quantity v - q + 91 else s_quantity v - q) ∧ stock_ok (update_stock q r v).
Proof.
  intros Hv Hq. unfold stock_ok, update_stock in *. cbn [s_quantity]. rewrite (u32_id (s_quantity v - q)) by lia.
  assert (Hi : ∀ x, 0 ≤ x < 2 ^ 15 → i16 x = x) by (intros x Hx; unfold i16; rewrite Z.mod_small; lia).
  destruct (Z.ltb_spec (s_quantity v - q) 10); [rewrite (Hi (s_quantity v + 91)), (u32_id (s_quantity v + 91 - q)), Hi by lia; lia|].
  rewrite ?(u32_id (s_quantity v - q)), Hi by lia. lia.
Qed.

(** ** The pieces of an order *)

Section Order.
Context (E : Env) (o : NewOrderStruct) (stock_row : Z → Z → Z) (warehouse_row : Z) (s0 : St).
Notation n := (len (item_id o)).

(** the rows that [Prepare] found: on the node [home i] of the item *)
Context (home : Z → Z).
Definition row_of (i : Z) : Z := stock_row (home i) i.

Definition item_quantity (i : Z) : Z := default 0 (order_quantities o !! Z.to_nat i).
Definition item_remote (i : Z) : bool := negb (default 0 (supplier_warehouse_id o !! Z.to_nat i) =? no_warehouse_id o).
Definition item_supplier (i : Z) : Z := default 0 (supplier_warehouse_id o !! Z.to_nat i).

Record order_ready : Prop := {
  or_count : n ≤ kNewOrderMaxItems;
  or_lengths : length (supplier_warehouse_id o) = length (item_id o) ∧ length (order_quantities o) = length (item_id o);
  or_suppliers : Forall (fun w => 1 ≤ w) (supplier_warehouse_id o);
  or_rows : ∀ i, 0 ≤ i < n → row_of i ≠ 0 ∧ is_Some (stocks (db s0) !! row_of i);
  or_distinct : ∀ i j, 0 ≤ i < n → 0 ≤ j < n → row_of i = row_of j → i = j;
  or_warehouse : is_Some (warehouses (db s0) !! warehouse_row);
}.
Context (Hr : order_ready).

Lemma item_fields i : 0 ≤ i < n → quantity_of o i = Ok (item_quantity i) ∧ supplier_of o i = Ok (item_supplier i) ∧ 1 ≤ item_supplier i.
Proof using Hr.
  intros Hi. destruct (or_lengths Hr) as [H1 H2]. unfold quantity_of, supplier_of, item_quantity, item_supplier.
  destruct (lookup_lt_is_Some_2 (order_quantities o) (Z.to_nat i)) as [q Hq]; [lia|].
  destruct (lookup_lt_is_Some_2 (supplier_warehouse_id o) (Z.to_nat i)) as [w Hw]; [lia|].
  rewrite (nth_r_in _ i q), (nth_r_in _ i w), Hq, Hw by (done || lia). split_and!; try done.
  cbn. exact (proj1 (Forall_lookup _ _) (or_suppliers Hr) _ _ Hw).
Qed.

(** the action on an item, and the states after some items *)
Definition act_item (i : Z) (s : St) : result St := write_stock (row_of i) (item_quantity i) (item_remote i) s.
Record after_items (X : list Z) (s : St) : Prop := {
  ai_sub : ∀ i, i ∈ X → 0 ≤ i < n;
  ai_rest : s = mkSt (set_stocks (fun _ => stocks (db s)) (db s0)) (futures s0);
  ai_items : ∀ i, 0 ≤ i < n → stocks (db s) !! row_of i =
    (if bool_decide (i ∈ X) then update_stock (item_quantity i) (item_remote i) else fun v => v) <$> stocks (db s0) !! row_of i;
  ai_others : ∀ r, (∀ i, 0 ≤ i < n → row_of i ≠ r) → stocks (db s) !! r = stocks (db s0) !! r;
}.

Lemma after_items_perm X Y s : X ≡ₚ Y → after_items X s → after_items Y s.
Proof using Type.
  intros HXY [H1 H2 H3 H4]. split; try done.
  - intros i. rewrite <- HXY. apply H1.
  - intros i Hi. rewrite H3 by done. by rewrite (bool_decide_ext _ (i ∈ Y)) by (by rewrite HXY).
Qed.
Lemma after_items_step X i s : 0 ≤ i < n → after_items X s → i ∉ X → ∃ s', act_item i s = Ok s' ∧ after_items (i :: X) s'.
Proof using Hr.
  intros Hi [H1 H2 H3 H4] Hx. destruct (or_rows Hr i Hi) as [_ [v Hv]]. unfold act_item, write_stock, row_value.
  rewrite H3, Hv, bool_decide_eq_false_2 by done. cbn [fmap option_fmap option_map mbind result_bind]. eexists. split; [done|]. split; cbn.
  - intros j [->|Hj]%elem_of_cons; auto.
  - pose proof (f_equal futures H2) as Hf. pose proof (f_equal db H2) as Hd. cbn [db futures] in Hf, Hd. unfold upd_db. rewrite Hf. f_equal. by rewrite Hd.
  - intros j Hj. destruct (decide (i = j)) as [->|Hne].
    + rewrite lookup_insert_eq, Hv, bool_decide_eq_true_2 by left. done.
    + rewrite lookup_insert_ne by (intros ?; by apply Hne, (or_distinct Hr)). rewrite H3 by done.
      by rewrite (bool_decide_ext (j ∈ i :: X) (j ∈ X)) by set_solver.
  - intros r Hrr. rewrite lookup_insert_ne by by apply Hrr. by apply H4.
Qed.

Notation will_split := (will_split E).
Notation aff_of := (aff_of E).
Notation arg i := (item_quantity i, item_remote i).
Definition item_handle (i : Z) : InvokeHandle (Z * bool) :=
  if will_split (home i) (row_of i) then ClearCallback else mkHandle (Some stock_rowfunc) (row_of i).
Definition item_pieces (i : Z) : list TxnPiece :=
  if will_split (home i) (row_of i) then [mkPiece (home i) (aff_of (home i) (row_of i)) (Invoke (mkHandle (Some stock_rowfunc) (row_of i)) (arg i))] else [].

Context (node bitmap : Z) (Hbits : ∀ i, i ∈ sel bitmap → 0 ≤ i < n ∧ home i = node).

Lemma stock_future_eq i : i ∈ sel bitmap → stock_future E stock_row o node i = Ok (item_handle i, item_pieces i).
Proof using Hr Hbits.
  intros Hi. destruct (Hbits i Hi) as [Hn Hh]. unfold stock_future. destruct (item_fields i Hn) as (-> & -> & _). cbn [mbind result_bind].
  destruct (or_rows Hr i Hn) as [Hnz _]. unfold row_of, item_handle, item_pieces in *. rewrite Hh in *. rewrite UpdateForKey_eq by (by left).
  unfold row_of. rewrite Hh. by case_match.
Qed.
Lemma stock_futures_eq : ∃ fs, stock_futures E stock_row o node bitmap = Ok (fs, concat (map item_pieces (sel bitmap))) ∧
  ∀ i, i ∈ sel bitmap → fs !! i = Some (item_handle i).
Proof using Hr Hbits.
  unfold stock_futures.
  destruct (for_each_inv (fun i '(fs, ps) => if Z.testbit bitmap i then '(h, p) ← stock_future E stock_row o node i; Ok (<[i := h]> fs, ps ++ p) else Ok (fs, ps))
    (fun d (x : gmap Z (InvokeHandle (Z * bool)) * list TxnPiece) => x.2 = concat (map item_pieces (filter (fun i => Z.testbit bitmap i = true) d)) ∧
       ∀ i, i ∈ d → i ∈ sel bitmap → x.1 !! i = Some (item_handle i)) (seqZ 0 kNewOrderMaxItems) (∅, [])) as ([fs ps] & -> & Hp & Hf).
  - split; [done|]. intros i Hi. by apply elem_of_nil in Hi.
  - intros d x r [fs ps] Hd [Hp Hf]. cbn [fst snd] in *. subst ps. destruct (Z.testbit bitmap x) eqn:Ex.
    + assert (Hx : x ∈ sel bitmap).
      { apply list_elem_of_filter. split; [done|]. change kMaxPackedKeys with kNewOrderMaxItems. rewrite Hd. set_solver. }
      rewrite stock_future_eq by done. cbn [mbind result_bind]. eexists. split; [done|]. cbn [fst snd]. split.
      * rewrite filter_app, filter_cons_True, filter_nil by done. rewrite map_app, concat_app. cbn. by rewrite app_nil_r.
      * intros i Hi Hs. destruct (decide (i = x)) as [->|Hne]; [by rewrite lookup_insert_eq|]. rewrite lookup_insert_ne by done.
        apply Hf; [set_solver|done].
    + eexists. split; [done|]. cbn [fst snd]. split; [by rewrite filter_app, filter_cons_False, filter_nil, app_nil_r by congruence|].
      intros i [Hi| ->%list_elem_of_singleton]%elem_of_app Hs; [by apply Hf|]. apply elem_of_sel in Hs as [_ Hs]. congruence.
  - exists fs. cbn in Hp. subst ps. split; [done|]. intros i Hi. apply Hf; [|done]. apply list_elem_of_filter in Hi. tauto.
Qed.

Notation does := (does act_item after_items).

Lemma invoke_stocks_eq fs s : (∀ i, i ∈ sel bitmap → fs !! i = Some (item_handle i)) →
  invoke_stocks o bitmap fs s = for_each act_item (filter (fun i => negb (will_split (home i) (row_of i)) = true) (sel bitmap)) s.
Proof using Hr Hbits.
  intros Hfs. unfold invoke_stocks. rewrite for_bits_sel, <- for_each_filter. apply for_each_ext. intros i t Hi.
  destruct (item_fields i) as (-> & -> & _); [by apply Hbits|]. cbn [mbind result_bind]. rewrite Hfs by done. unfold item_handle.
  by destruct (will_split (home i) (row_of i)).
Qed.
Lemma split_pieces_do : Forall2 does (concat (map item_pieces (sel bitmap)))
  (map (fun i => [i]) (filter (fun i => will_split (home i) (row_of i) = true) (sel bitmap))).
Proof using Type.
  generalize (sel bitmap). intros l. induction l as [|i l IH]; [done|]. cbn [map concat]. rewrite filter_cons. unfold item_pieces at 1.
  destruct (will_split (home i) (row_of i)); cbn; [|done]. constructor; [|done]. intros X s _. cbn.
  unfold stock_rowfunc, act_item. cbn. by destruct (write_stock _ _ _ s).
Qed.
Lemma partition_piece_does w : w ≠ 0 → 0 ≤ w → does (partition_piece stock_row o node bitmap w) (filter (fun i => item_supplier i = w) (sel bitmap)).
Proof using Hr Hbits.
  intros Hw0 Hw X s _. cbn [p_body partition_piece]. rewrite for_bits_sel.
  rewrite (list_filter_iff _ (fun i => (item_supplier i =? w) = true)) by (intros; by rewrite Z.eqb_eq). rewrite <- for_each_filter.
  apply for_each_ext. intros i t Hi. destruct (Hbits i Hi) as [Hn Hh]. destruct (item_fields i Hn) as (Hq & Hs & _). rewrite Hs. cbn [mbind result_bind].
  rewrite (proj2 (Z.ltb_lt 0 w)) by lia. cbn [andb]. destruct (item_supplier i =? w); cbn [negb]; [|done].
  unfold update_item. rewrite Hq, Hs. cbn [mbind result_bind]. unfold act_item, row_of. by rewrite Hh.
Qed.
Lemma unique_warehouses_ok : ∃ ws, unique_warehouses o bitmap = Ok ws ∧ NoDup ws ∧ (∀ w, w ∈ ws → 1 ≤ w) ∧ ∀ i, i ∈ sel bitmap → item_supplier i ∈ ws.
Proof using Hr Hbits.
  unfold unique_warehouses. rewrite (for_each_filter (Z.testbit bitmap)). change (filter _ _) with (sel bitmap).
  destruct (for_each_inv (fun i u => w ← supplier_of o i; Ok (if bool_decide (w ∈ u) then u else u ++ [w]))
    (fun d u => NoDup u ∧ (∀ w, w ∈ u → 1 ≤ w) ∧ ∀ i, i ∈ d → item_supplier i ∈ u) (sel bitmap) []) as (u & -> & Hu).
  - split_and!; [constructor|intros ? Hx; by apply elem_of_nil in Hx|intros ? Hx; by apply elem_of_nil in Hx].
  - intros d i r u Hd (H1 & H2 & H3). assert (Hi : i ∈ sel bitmap) by (rewrite Hd; set_solver). destruct (item_fields i) as (_ & -> & Hs); [by apply Hbits|].
    cbn [mbind result_bind]. eexists. split; [done|]. case_bool_decide as Hin.
    + split_and!; [done|done|]. intros j [Hj| ->%list_elem_of_singleton]%elem_of_app; auto.
    + split_and!.
      * apply NoDup_app. split_and!; [done| |apply NoDup_singleton]. by intros x Hx ->%list_elem_of_singleton.
      * intros w [Hw| ->%list_elem_of_singleton]%elem_of_app; auto.
      * intros j [Hj| ->%list_elem_of_singleton]%elem_of_app; set_solver.
  - by exists u.
Qed.

Lemma new_order_node_ok : ∃ ps ls, new_order_node E stock_row warehouse_row o (node, bitmap) = Ok ps ∧ Forall2 does ps ls ∧ Forall (fun _ => True) ls ∧ concat ls ≡ₚ sel bitmap.
Proof using Hr Hbits.
  unfold new_order_node. destruct (kEnablePartition E).
  - destruct unique_warehouses_ok as (ws & -> & Hnd & Hpos & Hin). cbn [mbind result_bind].
    eexists _, (map (fun w => filter (fun i => item_supplier i = w) (sel bitmap)) ws). split; [done|]. split; [|split; [by apply Forall_true|by apply group_by]].
    apply Forall2_fmap, Forall_Forall2_diag, Forall_forall. intros w Hw. apply Hpos in Hw. by apply partition_piece_does; lia.
  - destruct (node =? node_id E).
    + destruct stock_futures_eq as (fs & -> & Hfs). cbn [mbind result_bind]. eexists _, (_ ++ [_; []]). split; [done|]. split; [|split; [by apply Forall_true|]].
      * apply Forall2_app; [apply split_pieces_do|]. constructor; [|constructor; [|done]].
        -- intros X s _. by apply invoke_stocks_eq.
        -- intros X s [_ Hs _ _]. cbn. destruct (or_warehouse Hr) as [v Hv]. unfold row_value. rewrite Hs. cbn. by rewrite Hv.
      * rewrite concat_app. cbn. rewrite !app_nil_r.
        etransitivity; [|apply (filter_app_complement (fun i => will_split (home i) (row_of i) = true))]. apply Permutation_app.
        -- apply reflexive_eq. generalize (filter (fun i => will_split (home i) (row_of i) = true) (sel bitmap)). intros l. induction l as [|x l IH]; cbn; congruence.
        -- apply reflexive_eq, list_filter_iff. intros i. by destruct (will_split (home i) (row_of i)).
    + eexists _, [sel bitmap]. split; [done|]. split; [|split; [by apply Forall_true|cbn; by rewrite app_nil_r]]. constructor; [|done].
      intros X s _. cbn [p_body]. rewrite for_bits_sel. apply for_each_ext. intros i t Hi. destruct (Hbits i Hi) as [Hn Hh].
      unfold update_item. destruct (item_fields i Hn) as (-> & -> & _). cbn [mbind result_bind]. unfold act_item, row_of. by rewrite Hh.
Qed.
End Order.

(** ** The partition of the stocks under lock elision *)

Section Groups.
Context (o : NewOrderStruct).
Notation n := (len (item_id o)).
Context (Hn : n ≤ kNewOrderMaxItems) (Hl : length (supplier_warehouse_id o) = length (item_id o)).
Context (Hs : Forall (fun w => 1 ≤ w) (supplier_warehouse_id o)).
Notation sup := (item_supplier o).

Lemma supplier_eq i : 0 ≤ i < n → supplier_of o i = Ok (sup i) ∧ 1 ≤ sup i.
Proof using Hl Hs.
  intros Hi. destruct (lookup_lt_is_Some_2 (supplier_warehouse_id o) (Z.to_nat i)) as [w Hw]; [lia|].
  unfold supplier_of, item_supplier. rewrite (nth_r_in _ i w), Hw by (done || lia). split; [done|]. cbn. exact (proj1 (Forall_lookup _ _) Hs _ _ Hw).
Qed.

(** a pass picks the items that are left and have the supplier of the first of them *)
Definition left_items (picked : Z) : list Z := filter (fun i => Z.testbit picked i = false) (seqZ 0 n).
Definition first_supplier (picked : Z) : Z := match left_items picked with i :: _ => sup i | [] => 0 end.
Definition picked_items (picked : Z) : list Z := filter (fun i => sup i = first_supplier picked) (left_items picked).

Lemma pick_pass picked : 0 ≤ picked → ∃ pk, for_each (pick o) (seqZ 0 n) (0, picked, []) = Ok (first_supplier picked, pk, picked_items picked) ∧
  0 ≤ pk ∧ ∀ j, 0 ≤ j → Z.testbit pk j = Z.testbit picked j || bool_decide (j ∈ picked_items picked).
Proof using Hl Hs Hn.
  intros Hp. destruct (for_each_inv (pick o) (fun d x =>
    let lf := filter (fun i => Z.testbit picked i = false) d in
    x.1.1 = match lf with i :: _ => sup i | [] => 0 end ∧ x.2 = filter (fun i => sup i = x.1.1) lf ∧ 0 ≤ x.1.2 ∧
    ∀ j, 0 ≤ j → Z.testbit x.1.2 j = Z.testbit picked j || bool_decide (j ∈ x.2)) (seqZ 0 n) (0, picked, [])) as ([[w pk] ks] & -> & Hx).
  - cbn. split_and!; try done. intros j Hj. by rewrite bool_decide_eq_false_2, orb_false_r by apply not_elem_of_nil.
  - intros d x r [[w pk] ks] Hd (Hw & Hk & Hpk & Hb). cbn [fst snd] in *.
    assert (Hx : 0 ≤ x < n) by (assert (x ∈ seqZ 0 n) as ?%elem_of_seqZ by (rewrite Hd; set_solver); lia).
    assert (Hxd : x ∉ d).
    { pose proof (NoDup_seqZ 0 n) as Hnd. rewrite Hd in Hnd. apply NoDup_app in Hnd as (_ & Hnd & _). intros Hx'. by apply (Hnd x Hx'); left. }
    unfold pick. rewrite Hb by lia. rewrite bool_decide_eq_false_2, orb_false_r.
    2: { rewrite Hk. intros [_ [_ ?]%list_elem_of_filter]%list_elem_of_filter. done. }
    rewrite filter_app. destruct (Z.testbit picked x) eqn:Ex.
    { eexists. split; [done|]. cbn [fst snd]. by rewrite filter_cons_False, filter_nil, app_nil_r by congruence. }
    rewrite filter_cons_True, filter_nil by done. destruct (supplier_eq x Hx) as [-> Hsx]. cbn [mbind result_bind].
    set (lf := filter (fun i => Z.testbit picked i = false) d) in *.
    assert (Hlf : ∀ i, i ∈ lf → 0 ≤ i < n).
    { intros i [_ Hi]%list_elem_of_filter. assert (i ∈ seqZ 0 n) as ?%elem_of_seqZ by (rewrite Hd; set_solver). lia. }
    assert (Hset : ∀ j, 0 ≤ j → Z.testbit (Z.lor pk (Z.shiftl 1 x)) j = Z.testbit picked j || bool_decide (j ∈ ks ++ [x])).
    { intros j Hj. rewrite testbit_set by lia. rewrite Hb by done. rewrite <- orb_assoc. f_equal. apply eq_true_iff_eq.
      rewrite orb_true_iff, !bool_decide_eq_true, Z.eqb_eq, elem_of_app, list_elem_of_singleton. done. }
    assert (Hge : 0 ≤ Z.lor pk (Z.shiftl 1 x)) by (apply Z.lor_nonneg; split; [done|]; apply Z.shiftl_nonneg; lia).
    destruct lf as [|i0 lf].
    + subst w ks. cbn [Z.eqb orb]. eexists. split; [done|]. cbn [fst snd app]. split_and!; try done. by rewrite filter_cons_True, filter_nil.
    + assert (Hi0 : 1 ≤ sup i0) by (apply supplier_eq, Hlf; by left). subst w. rewrite (proj2 (Z.eqb_neq (sup i0) 0)) by lia. cbn [orb].
      destruct (Z.eqb_spec (sup i0) (sup x)) as [Heq|Hne]; eexists; (split; [done|]); cbn [fst snd]; (split; [done|]).
      * rewrite filter_app, (filter_cons_True _ x), filter_nil by done. by rewrite <- Hk.
      * rewrite filter_app, (filter_cons_False _ x), filter_nil, app_nil_r by done. done.
  - cbn [fst snd] in Hx. destruct Hx as (-> & -> & Hpk & Hb). exists pk. split; [done|]. done.
Qed.

Record group_ok (g : Group) : Prop := {
  go_bits : sel (g_bitmap g) = g_items g;
  go_range : 0 ≤ g_bitmap g < 2 ^ 15;
  go_supplier : ∀ i, i ∈ g_items g → sup i = g_warehouse g;
}.

(** a bitmap of some of the items, in order *)
Lemma sel_filter b (P : Z → Prop) `{∀ i, Decision (P i)} : (∀ i, 0 ≤ i → Z.testbit b i = true ↔ P i ∧ i < n) →
  sel b = filter P (seqZ 0 n).
Proof using Hl Hs Hn.
  intros Hb. unfold sel. replace kMaxPackedKeys with (n + (kMaxPackedKeys - n)) by lia. change kMaxPackedKeys with kNewOrderMaxItems.
  rewrite seqZ_app by lia. rewrite filter_app. rewrite (filter_none _ (seqZ (0 + n) _)), app_nil_r.
  - apply filter_ext_in. intros i Hi%elem_of_seqZ. rewrite Hb by lia. naive_solver lia.
  - intros i Hi%elem_of_seqZ. rewrite Hb by lia. lia.
Qed.
Lemma mask_range b : 0 ≤ b → (∀ i, 0 ≤ i → Z.testbit b i = true → i < n) → 0 ≤ b < 2 ^ 15.
Proof using Hl Hs Hn.
  intros Hb Hi. split; [done|]. destruct (Z.eq_dec b 0) as [->|Hnz]; [lia|]. apply Z.log2_lt_pow2; [lia|].
  unfold kNewOrderMaxItems in Hn. assert (Z.log2 b < n); [|lia]. apply Hi; [apply Z.log2_nonneg|]. apply Z.bit_log2. lia.
Qed.

Lemma partition_loop_ok fuel : ∀ picked iend groups, 0 ≤ picked → len (left_items picked) < Z.of_nat fuel →
  ∃ gs, partition_loop o fuel picked iend groups = Ok (iend + len (left_items picked), groups ++ gs) ∧
    Forall group_ok gs ∧ concat (map g_items gs) ≡ₚ left_items picked ∧ NoDup (map g_warehouse gs) ∧
    ∀ g, g ∈ gs → ∃ i, i ∈ left_items picked ∧ sup i = g_warehouse g.
Proof using Hl Hs Hn.
  induction fuel as [|fuel IH]; intros picked iend groups Hp Hf; [lia|]. cbn [partition_loop].
  destruct (pick_pass picked Hp) as (pk & -> & Hpk & Hb). cbn [mbind result_bind].
  assert (Hmem : ∀ i, i ∈ picked_items picked ↔ (sup i = first_supplier picked ∧ Z.testbit picked i = false) ∧ 0 ≤ i < n).
  { intros i. unfold picked_items, left_items. rewrite !list_elem_of_filter, elem_of_seqZ. naive_solver lia. }
  assert (Hleft : left_items pk = filter (fun i => sup i ≠ first_supplier picked) (left_items picked)).
  { unfold left_items. rewrite list_filter_filter. apply filter_ext_in. intros i Hi%elem_of_seqZ.
    rewrite Hb by lia. rewrite orb_false_iff, bool_decide_eq_false, Hmem. destruct (Z.testbit picked i); naive_solver lia. }
  assert (Hsplit : picked_items picked ++ left_items pk ≡ₚ left_items picked).
  { rewrite Hleft. etransitivity; [|apply (filter_app_complement (fun i => sup i = first_supplier picked))]. apply Permutation_app; [done|].
    by apply reflexive_eq, list_filter_iff. }
  pose proof (Permutation_length Hsplit) as Hlen. rewrite length_app in Hlen.
  destruct (Z.eqb_spec (len (picked_items picked)) 0) as [E0|E0].
  - assert (left_items picked = []) as El.
    { unfold picked_items, first_supplier in E0. destruct (left_items picked) as [|i l]; [done|]. rewrite filter_cons_True in E0 by done. cbn in E0. lia. }
    exists []. rewrite El. cbn. rewrite app_nil_r. split_and!; try done; [do 2 f_equal; lia|constructor|]. intros g Hg. by apply elem_of_nil in Hg.
  - destruct (IH pk (iend + len (picked_items picked)) (groups ++ [mkGroup (first_supplier picked) (Z.lxor pk picked) (picked_items picked)]) Hpk) as (gs & -> & H1 & H2 & H3 & H4); [lia|].
    exists (mkGroup (first_supplier picked) (Z.lxor pk picked) (picked_items picked) :: gs). rewrite <- app_assoc. cbn [map concat].
    assert (Hx : ∀ i, 0 ≤ i → Z.testbit (Z.lxor pk picked) i = true ↔ (sup i = first_supplier picked ∧ Z.testbit picked i = false) ∧ i < n).
    { intros i Hi. rewrite Z.lxor_spec, Hb by done. rewrite <- (bool_decide_eq_true ((_ ∧ _) ∧ _)).
      rewrite (bool_decide_ext (i ∈ picked_items picked) ((sup i = first_supplier picked ∧ Z.testbit picked i = false) ∧ i < n)) by (rewrite Hmem; naive_solver lia).
      destruct (Z.testbit picked i) eqn:Et; cbn; [|by rewrite xorb_false_r]. rewrite !bool_decide_eq_true. naive_solver. }
    split_and!.
    + do 2 f_equal. lia.
    + constructor; [|done]. split; cbn.
      * rewrite (sel_filter _ (fun i => sup i = first_supplier picked ∧ Z.testbit picked i = false)) by done. unfold picked_items, left_items. by rewrite list_filter_filter.
      * apply mask_range; [by apply Z.lxor_nonneg|]. intros i Hi. rewrite Hx by done. tauto.
      * intros i Hi%Hmem. tauto.
    + by rewrite H2.
    + cbn. constructor; [|done]. intros Hin. change (map g_warehouse gs) with (g_warehouse <$> gs) in Hin. apply list_elem_of_fmap in Hin as (g & Hg & Hin).
      destruct (H4 g Hin) as (i & Hi & Hsi). rewrite Hleft in Hi. apply list_elem_of_filter in Hi as [Hne _]. congruence.
    + intros g [->|Hg]%elem_of_cons; cbn.
      * destruct (picked_items picked) as [|i l] eqn:Ei; [done|]. exists i. assert (Hi : i ∈ picked_items picked) by (rewrite Ei; left).
        apply list_elem_of_filter in Hi. tauto.
      * destruct (H4 g Hg) as (i & Hi & Hsi). rewrite Hleft in Hi. apply list_elem_of_filter in Hi. exists i. tauto.
Qed.
End Groups.

(** ** Completions *)

Lemma sel_ctz b : 0 < b < 2 ^ 15 → sel b = ctz b :: sel (Z.land b (Z.lnot (Z.shiftl 1 (ctz b)))).
Proof.
  intros Hb. pose proof (ctz_bound b 15 Hb) as Hc. destruct (ctz_testbit b) as [Ht _]; [lia|]. set (c := ctz b) in *.
  assert (Hbits : ∀ j, 0 ≤ j → Z.testbit (Z.land b (Z.lnot (Z.shiftl 1 c))) j = Z.testbit b j && negb (j =? c)).
  { intros j Hj. rewrite Z.land_spec, Z.lnot_spec, Z.shiftl_1_l, Z.pow2_bits_eqb by lia. by rewrite Z.eqb_sym. }
  unfold sel. assert (Hsplit : seqZ 0 kMaxPackedKeys = seqZ 0 c ++ c :: seqZ (c + 1) (14 - c)).
  { replace kMaxPackedKeys with (c + (1 + (14 - c))) by (unfold kMaxPackedKeys; lia). rewrite seqZ_app by lia. f_equal.
    rewrite seqZ_cons by lia. by replace (Z.pred (1 + (14 - c))) with (14 - c) by lia. }
  rewrite Hsplit, !filter_app, !(filter_none _ (seqZ 0 c)); cbn [app].
  - rewrite filter_cons_True by done. rewrite filter_cons_False by (rewrite Hbits, Z.eqb_refl, andb_false_r by lia; done). f_equal.
    apply filter_ext_in. intros j Hj%elem_of_seqZ. rewrite Hbits, (proj2 (Z.eqb_neq j c)), andb_true_r by lia. done.
  - intros j Hj%elem_of_seqZ. rewrite Hbits by lia. rewrite (ctz_below b j) by (unfold c in *; lia). done.
  - intros j Hj%elem_of_seqZ. rewrite (ctz_below b j) by (unfold c in *; lia). done.
Qed.

Lemma bit_at_sel id : ∀ b i, 0 ≤ b < 2 ^ 15 → sel b !! id = Some i → bit_at id b = Ok i.
Proof.
  induction id as [|id IH]; intros b i Hb Hi; cbn [bit_at]; (destruct (Z.eqb_spec b 0) as [->|Hnz]; [by rewrite (eq_refl : sel 0 = []), lookup_nil in Hi|]);
    rewrite sel_ctz in Hi by lia; [by injection Hi as ->|]. apply IH; [|done].
  pose proof (ctz_bound b 15 ltac:(lia)) as Hc. set (m := Z.land b (Z.lnot (Z.shiftl 1 (ctz b)))). assert (Hm : 0 ≤ m) by (apply Z.land_nonneg; lia).
  split; [done|]. destruct (Z.eq_dec m 0) as [->|Hm0]; [lia|]. apply Z.log2_lt_pow2; [lia|].
  assert (Ht : Z.testbit m (Z.log2 m) = true) by (apply Z.bit_log2; lia). unfold m in Ht at 1. rewrite Z.land_spec in Ht. apply andb_prop in Ht as [Ht _].
  destruct (Z.lt_ge_cases (Z.log2 m) 15); [done|]. by rewrite (testbit_high b 15) in Ht by lia.
Qed.

(** The initialization under lock elision partitions the stocks of an order: the groups
    have different suppliers and hold every item once, each with its supplier, and the
    completion of the lookup of a group stores the row of a key at the key's item. *)
Theorem stock_groups_partition o :
  len (item_id o) ≤ kNewOrderMaxItems → length (supplier_warehouse_id o) = length (item_id o) → Forall (fun w => 1 ≤ w) (supplier_warehouse_id o) →
  ∃ groups, stock_groups o = Ok groups ∧ concat (map g_items groups) ≡ₚ seqZ 0 (len (item_id o)) ∧ NoDup (map g_warehouse groups) ∧
    ∀ g, g ∈ groups → (∀ i, i ∈ g_items g → supplier_of o i = Ok (g_warehouse g)) ∧
      ∀ id i, g_items g !! id = Some i → completion_item (g_bitmap g) id = Ok i.
Proof.
  intros Hn Hl Hs. destruct (partition_loop_ok o Hn Hl Hs (S (length (item_id o))) 0 0 []) as (gs & E & H1 & H2 & H3 & _); [lia| |].
  { unfold left_items. pose proof (length_filter (fun i => Z.testbit 0 i = false) (seqZ 0 (len (item_id o)))) as Hf. rewrite length_seqZ in Hf. lia. }
  assert (El : left_items o 0 = seqZ 0 (len (item_id o))) by (unfold left_items; apply filter_all; intros; apply Z.bits_0).
  rewrite El in *. exists gs. unfold stock_groups. rewrite E. cbn [mbind result_bind]. rewrite length_seqZ.
  replace (0 + Z.of_nat (Z.to_nat (len (item_id o)))) with (len (item_id o)) by lia. rewrite Z.eqb_refl. cbn [negb abort_if mbind result_bind app].
  split; [done|]. split; [done|]. split; [done|]. intros g Hg. destruct (proj1 (Forall_forall _ _) H1 g Hg) as [Hb Hr Hsu]. split.
  - intros i Hi. rewrite <- (Hsu i Hi). apply supplier_eq; [done|done|]. assert (i ∈ seqZ 0 (len (item_id o))) as ?%elem_of_seqZ; [|lia].
    rewrite <- H2. apply list_elem_of_In, in_concat. exists (g_items g). rewrite <- !list_elem_of_In. split; [|done]. by apply (list_elem_of_fmap_2 g_items).
  - intros id i Hi. unfold completion_item. rewrite (proj2 (Z.eqb_neq _ _)) by lia. apply bit_at_sel; [done|]. by rewrite Hb.
Qed.

(** ** The initialization *)

Section Prepare.
Context (E : Env) (hash : Z * Z → Z) (o : NewOrderStruct) (elision : bool).
Notation n := (len (item_id o)).

(** the node that serves an item *)
Definition item_home (i : Z) : Z :=
  if elision then 1 else SliceToNodeId (cfg E) (nr_nodes E) (LocateStock E hash (item_supplier o i, default 0 (item_id o !! Z.to_nat i))).

Context (Hmax : 0 < max_slice_id (cfg E) ≤ 2 ^ 15) (Hnodes : 0 < nr_nodes E) (Hel : elision = true → nr_nodes E = 1 ∧ (IsWarehousePinnable (cfg E) (nr_nodes E) (g_nr_threads E) = true ∨ nr_warehouses (cfg E) = 1)).
Context (Hn : 1 ≤ n ≤ kNewOrderMaxItems) (Hl : length (supplier_warehouse_id o) = length (item_id o)).
Context (Hs : Forall (fun w => 1 ≤ w ≤ nr_warehouses (cfg E)) (supplier_warehouse_id o)) (Hw : nr_warehouses (cfg E) < 2 ^ 15).

Lemma stock_slice_range i : 0 ≤ i < n → 0 ≤ LocateStock E hash (item_supplier o i, default 0 (item_id o !! Z.to_nat i)) < max_slice_id (cfg E).
Proof using Hmax Hl Hs Hw.
  intros Hi. destruct (lookup_lt_is_Some_2 (supplier_warehouse_id o) (Z.to_nat i)) as [w Hwi]; [lia|].
  pose proof (proj1 (Forall_lookup _ _) Hs _ _ Hwi) as Hwr. cbn in Hwr. unfold LocateStock, item_supplier. rewrite Hwi. cbn [default fst id]. destruct (shard_by_warehouse (cfg E)) eqn:Es.
  - unfold WarehouseToSliceId. unfold max_slice_id. rewrite Es. rewrite u32_id by lia. lia.
  - apply Z.mod_pos_bound. lia.
Qed.

Lemma Prepare_nodes_ready : ∃ nodes, NewOrder_Prepare E hash elision o = Ok nodes ∧ bits_ready n item_home nodes.
Proof using All.
  unfold NewOrder_Prepare. unfold kNewOrderMaxItems in Hn. destruct elision eqn:Eel.
  - destruct (Hel eq_refl) as [_ Hpin]. rewrite (proj2 (andb_false_iff _ _)); cbn [abort_if mbind result_bind].
    2: { left. apply andb_false_iff. destruct Hpin as [-> | ->]; [by left|by right]. }
    destruct (stock_groups_partition o) as (gs & -> & _); [unfold kNewOrderMaxItems; lia|done|by eapply Forall_impl; [exact Hs|cbn; lia]|]. cbn [mbind result_bind].
    unfold elision_nodes, MergeOrAdd, Add. cbn. eexists. split; [done|]. unfold item_home. rewrite Eel.
    apply home_bits_ready; [apply NoDup_singleton|unfold kMaxPackedKeys; lia|intros; by left|by intros e ->%list_elem_of_singleton; exists 0; split; [lia|]|]. intros e i ->%list_elem_of_singleton Hi. cbn [fst snd].
    unfold u16. rewrite Z.shiftl_1_l. replace (2 ^ n - 1) with (Z.ones n) by (rewrite Z.ones_equiv; lia).
    assert (0 ≤ Z.ones n < 2 ^ 16).
    { rewrite Z.ones_equiv. assert (2 ^ n ≤ 2 ^ 15) by (apply Z.pow_le_mono_r; lia). assert (0 < 2 ^ n) by (apply Z.pow_pos_nonneg; lia). lia. }
    rewrite Z.mod_small by done. destruct (Z.lt_ge_cases i n).
    + rewrite Z.ones_spec_low by lia. naive_solver.
    + rewrite Z.ones_spec_high by lia. naive_solver lia.
  - assert (Hlen : len (stock_keys o) = n) by (unfold stock_keys; rewrite length_zip_with; lia).
    apply generate_ready; [done|by apply Forall_cons; split; [|apply Forall_nil]| |unfold kMaxPackedKeys; lia| |].
    + unfold slots. cbn. by rewrite app_nil_r, length_map.
    + intros i Hi. destruct (lookup_lt_is_Some_2 (supplier_warehouse_id o) (Z.to_nat i)) as [w Hwi]; [lia|].
      destruct (lookup_lt_is_Some_2 (item_id o) (Z.to_nat i)) as [it Hit]; [lia|].
      assert (Hk : stock_keys o !! Z.to_nat i = Some (w, it)) by (unfold stock_keys; by rewrite lookup_zip_with, Hwi; cbn; rewrite Hit).
      unfold slots. cbn [flat_map param_slots]. rewrite app_nil_r. change (map ?f ?l) with (f <$> l). rewrite list_lookup_fmap, Hk. eexists. split; [done|].
      cbn [s_home key_slot]. unfold home, item_home. rewrite Eel. pose proof (stock_slice_range i Hi) as Hr. unfold item_supplier in *. rewrite Hwi, Hit in *. cbn [default id] in *.
      by rewrite (proj2 (Z.leb_le 0 _)) by lia.
    + intros i Hi. unfold item_home. rewrite Eel. apply SliceToNodeId_range; [done|lia|by apply stock_slice_range].
Qed.
End Prepare.

(** ** The theorem on orders *)

Definition all_stock_ok (s : St) : Prop := ∀ r v, stocks (db s) !! r = Some v → stock_ok v.

(** C19. NewOrder in any configuration (sharded or not, with or without partitioning, with
    stock updates split off or not): the initialization assigns every item to the node of
    its stock; then every run of the attached pieces, in whatever order, goes on until all
    have run, and updates the stock of every item once, with its quantity, and nothing
    else. Stock levels stay between 10 and 100. *)
Theorem new_order_stocks_once E hash o elision stock_row warehouse_row s0 :
  0 < nr_nodes E →
  (elision = true → nr_nodes E = 1 ∧ (IsWarehousePinnable (cfg E) (nr_nodes E) (g_nr_threads E) = true ∨ nr_warehouses (cfg E) = 1)) →
  1 ≤ nr_warehouses (cfg E) < 2 ^ 15 →
  5 ≤ len (item_id o) ≤ kNewOrderMaxItems → items_wf (cfg E) o →
  let row := row_of stock_row (item_home E hash o elision) in
  order_ready o stock_row warehouse_row s0 (item_home E hash o elision) →
  ∃ nodes pieces, NewOrder_Prepare E hash elision o = Ok nodes ∧ NewOrder_Run E stock_row warehouse_row o nodes = Ok pieces ∧
    completes pieces s0 (fun t =>
      (∀ i, 0 ≤ i < len (item_id o) → stocks (db t) !! row i = update_stock (item_quantity o i) (item_remote o i) <$> stocks (db s0) !! row i) ∧
      (∀ r, (∀ i, 0 ≤ i < len (item_id o) → row i ≠ r) → stocks (db t) !! r = stocks (db s0) !! r) ∧
      t = mkSt (set_stocks (fun _ => stocks (db t)) (db s0)) (futures s0) ∧
      (all_stock_ok s0 → all_stock_ok t)).
Proof.
  intros Hnn Hel Hw Hn Hwf row Hr. destruct Hwf as [_ _ Hsup Hq [Hl1 Hl2]].
  destruct (Prepare_nodes_ready E hash o elision) as (nodes & EP & Hb); [|done|done|lia|done|done|lia|].
  { unfold max_slice_id, kRandomShardingMaxSliceId. case_match; lia. }
  exists nodes. pose proof (br_items _ _ _ Hb) as Hitems.
  destruct (collect_ok (act_item o stock_row (item_home E hash o elision)) (after_items o stock_row s0 (item_home E hash o elision)) (fun _ => True)
    (new_order_node E stock_row warehouse_row o) (fun e => sel e.2) nodes) as (pieces & ls & ER & Hd & _ & Hp).
  { intros [node bitmap] He. apply (new_order_node_ok E o stock_row warehouse_row s0 (item_home E hash o elision) Hr node bitmap).
    intros i Hi. split; [by apply (bits_ready_range _ _ _ _ _ Hb He)|by apply (br_homes _ _ _ Hb (node, bitmap))]. }
  exists pieces. split; [done|]. split; [exact (ER [])|]. rewrite Hitems in Hp.
  set (after := after_items o stock_row s0 (item_home E hash o elision)) in *. set (act := act_item o stock_row (item_home E hash o elision)) in *.
  assert (H0 : after [] s0) by (split; [intros i Hi; by apply elem_of_nil in Hi|by destruct s0 as [[] ?]|intros i Hi; by destruct (stocks (db s0) !! _)|done]).
  assert (Hc : completes pieces s0 (after (concat ls ++ []))).
  { apply (plan_completes act (fun _ => []) (fun i => 0 ≤ i < len (item_id o)) after) with (ls' := ls); try done.
    - intros X Y s. apply after_items_perm.
    - intros X i s Hi Hs Hx _. by apply (after_items_step o stock_row warehouse_row s0).
    - intros X a s s' _ _ _ _ x Hx. by apply elem_of_nil in Hx.
    - intros i Hi. rewrite Hp in Hi. apply elem_of_seqZ in Hi. lia.
    - rewrite app_nil_r, Hp. apply NoDup_seqZ.
    - apply enabled_free. }
  intros qs t Hx. destruct (Hc qs t Hx) as [[-> [_ H2 H3 H4]]|]; [left|by right]. split; [done|]. rewrite app_nil_r in H3.
  assert (H3' : ∀ i, 0 ≤ i < len (item_id o) → stocks (db t) !! row i = update_stock (item_quantity o i) (item_remote o i) <$> stocks (db s0) !! row i).
  { intros i Hi. unfold row. rewrite (H3 i Hi), bool_decide_eq_true_2; [done|]. rewrite Hp. apply elem_of_seqZ. lia. }
  split; [done|]. split; [done|]. split; [done|]. intros Hok r v Hv.
  destruct (decide (r ∈ row <$> seqZ 0 (len (item_id o)))) as [(i & -> & Hi%elem_of_seqZ)%list_elem_of_fmap|Hno].
  - rewrite H3' in Hv by lia. destruct (stocks (db s0) !! row i) as [v0|] eqn:Ev; [|done]. injection Hv as <-.
    apply update_stock_quantity; [by eapply Hok|]. unfold item_quantity.
    destruct (lookup_lt_is_Some_2 (order_quantities o) (Z.to_nat i)) as [q Eq]; [lia|]. rewrite Eq. exact (proj1 (Forall_lookup _ _) Hq _ _ Eq).
  - rewrite H4 in Hv; [by eapply Hok|]. intros i Hi He. apply Hno, list_elem_of_fmap. exists i. split; [done|]. apply elem_of_seqZ. lia.
Qed.
