(* ===== verification/TpccPayment.v ===== *)
(** Payment: every run of its pieces pays once, with the tax of the warehouse that travels
    in a future to the node of the customer. *)

From S2P Require Import Prelude Bits EpochMem IndexOp IndexFacts IndexProps Tpcc TpccTxns.

(** loops over the three rows *)
Definition pick3 (P : Z → bool) : list Z := (if P 0 then [0] else []) ++ (if P 1 then [1] else []) ++ (if P 2 then [2] else []).
Lemma filter3 (P : Z → bool) : filter (fun i => P i = true) [0; 1; 2] = pick3 P.
Proof. unfold pick3. rewrite !filter_cons, filter_nil. by destruct (P 0), (P 1), (P 2). Qed.

Section Payment.
Context (E : Env) (hash : list Z → Z) (p : PaymentStruct) (pay_row : Z → Z → Z) (s0 : St).
Notation route := (SliceToNodeId (cfg E) (nr_nodes E)).

(** the nodes of the three rows *)
Definition warehouse_node : Z := route (LocateKey E hash [p_warehouse_id p]).
Definition customer_node : Z := route (LocateKey E hash [customer_warehouse_id p; customer_district_id p; p_customer_id p]).
Definition district_node : Z := route (LocateKey E hash [p_warehouse_id p; p_district_id p]).
Definition pay_home (id : Z) : Z := if id =? 0 then warehouse_node else if id =? 1 then district_node else customer_node.
Definition prow (id : Z) : Z := pay_row (pay_home id) id.

(** the node that the tax is sent to *)
Definition tax_node : Z := route (WarehouseToSliceId (customer_warehouse_id p)).

Context (w0 : WarehouseValue) (d0 : DistrictValue) (c0 : CustomerValue).
Record payment_ready : Prop := {
  pr_shard : shard_by_warehouse (cfg E) = true;
  pr_nodes : 0 < nr_nodes E;
  pr_warehouse : 1 ≤ p_warehouse_id p ≤ nr_warehouses (cfg E);
  pr_customer : 1 ≤ customer_warehouse_id p ≤ nr_warehouses (cfg E);
  pr_count : nr_warehouses (cfg E) < 2 ^ 15;
  pr_rows : (∀ id, 0 ≤ id < 3 → prow id ≠ 0) ∧ warehouses (db s0) !! prow 0 = Some w0 ∧ districts (db s0) !! prow 1 = Some d0 ∧ customers (db s0) !! prow 2 = Some c0;
  pr_future : get_fut 0 s0 = new_future;
  (** [UpdateForKey] reads the rows of the local node *)
  pr_split : kOnDemandSplitting E = true → customer_node = warehouse_node;
}.
Context (Hr : payment_ready).

Lemma slice_by_warehouse w : 1 ≤ w ≤ nr_warehouses (cfg E) → WarehouseToSliceId w = w - 1 ∧ 0 ≤ w - 1 < max_slice_id (cfg E) ∧ max_slice_id (cfg E) ≤ 2 ^ 15.
Proof using Hr.
  intros Hw. pose proof (pr_count Hr). unfold WarehouseToSliceId, max_slice_id. rewrite (pr_shard Hr), u32_id by lia. lia.
Qed.
Lemma nodes_eq : district_node = warehouse_node ∧ tax_node = customer_node ∧ (∀ id, 1 ≤ pay_home id ≤ nr_nodes E).
Proof using Hr.
  pose proof (slice_by_warehouse _ (pr_warehouse Hr)) as (Hw1 & Hw2). pose proof (slice_by_warehouse _ (pr_customer Hr)) as (Hc1 & Hc2).
  assert (Hd : district_node = warehouse_node) by (unfold district_node, warehouse_node, LocateKey; by rewrite (pr_shard Hr)).
  split; [done|]. split.
  - unfold tax_node, customer_node, LocateKey. by rewrite (pr_shard Hr).
  - assert (1 ≤ warehouse_node ≤ nr_nodes E).
    { unfold warehouse_node, LocateKey. rewrite (pr_shard Hr). change ([p_warehouse_id p].[0]) with (p_warehouse_id p). rewrite Hw1. apply SliceToNodeId_range; [apply Hr|lia|lia]. }
    assert (1 ≤ customer_node ≤ nr_nodes E).
    { unfold customer_node, LocateKey. rewrite (pr_shard Hr). change (WarehouseToSliceId _) with (WarehouseToSliceId (customer_warehouse_id p)). rewrite Hc1. apply SliceToNodeId_range; [apply Hr|lia|lia]. }
    intros id. unfold pay_home. repeat case_match; lia.
Qed.

(** the values that a payment leaves *)
Definition w1 : WarehouseValue := mkWarehouse (i32 (w_ytd w0 + payment_amount p)) (w_tax w0).
Definition d1 : DistrictValue := mkDistrict (i32 (d_ytd d0 + payment_amount p)).
Definition c1 : CustomerValue := charge (payment_with_tax (payment_amount p) (w_tax w0)) c0.
Definition paid (X : list Z) : DB :=
  (if bool_decide (0 ∈ X) then set_warehouses (<[prow 0 := w1]>) else fun d => d)
  ((if bool_decide (1 ∈ X) then set_districts (<[prow 1 := d1]>) else fun d => d)
  ((if bool_decide (2 ∈ X) then set_customers (<[prow 2 := c1]>) else fun d => d) (db s0))).
Definition tax_future (X : list Z) : Fut :=
  if bool_decide (0 ∈ X) then mkFut [customer_node] (if bool_decide (2 ∈ X) then ∅ else {[customer_node := w_tax w0]}) else new_future.
Definition after_pay (X : list Z) (s : St) : Prop := db s = paid X ∧ get_fut 0 s = tax_future X ∧ (2 ∈ X → 0 ∈ X).

Definition pay_deps (id : Z) : list Z := if id =? 2 then [0] else [].
Definition act_pay (id : Z) : St → result St := pay_func E (pay_home id) id p (prow id).
Definition is_pay (id : Z) : Prop := id ∈ [0; 1; 2].

Lemma after_pay_perm X Y s : X ≡ₚ Y → after_pay X s → after_pay Y s.
Proof using Hr.
  intros HXY (H1 & H2 & H3). unfold after_pay, paid, tax_future in *.
  rewrite <- !(bool_decide_ext (_ ∈ X) (_ ∈ Y)) by (by rewrite HXY). split_and!; [done|done|]. by rewrite <- HXY.
Qed.
Lemma paid_fields X :
  warehouses (paid X) = (if bool_decide (0 ∈ X) then <[prow 0 := w1]> else fun m => m) (warehouses (db s0)) ∧
  districts (paid X) = (if bool_decide (1 ∈ X) then <[prow 1 := d1]> else fun m => m) (districts (db s0)) ∧
  customers (paid X) = (if bool_decide (2 ∈ X) then <[prow 2 := c1]> else fun m => m) (customers (db s0)).
Proof using Type. unfold paid. by destruct (bool_decide (0 ∈ X)), (bool_decide (1 ∈ X)), (bool_decide (2 ∈ X)). Qed.
(** the action on a row adds it *)
Lemma paid_cons X id : id ∉ X → is_pay id →
  paid (id :: X) = (if id =? 0 then set_warehouses (<[prow 0 := w1]>) else if id =? 1 then set_districts (<[prow 1 := d1]>) else set_customers (<[prow 2 := c1]>)) (paid X).
Proof using Hr.
  intros Hx Hid. unfold is_pay in Hid. unfold paid.
  apply elem_of_cons in Hid as [->|[->|[->|Hid%elem_of_nil]%elem_of_cons]%elem_of_cons]; [| | |done]; cbn [Z.eqb Pos.eqb].
  - rewrite (bool_decide_eq_true_2 (0 ∈ 0 :: X)), (bool_decide_eq_false_2 (0 ∈ X)) by (done || left).
    rewrite (bool_decide_ext (1 ∈ 0 :: X) (1 ∈ X)), (bool_decide_ext (2 ∈ 0 :: X) (2 ∈ X)) by set_solver. done.
  - rewrite (bool_decide_eq_true_2 (1 ∈ 1 :: X)), (bool_decide_eq_false_2 (1 ∈ X)) by (done || left).
    rewrite (bool_decide_ext (0 ∈ 1 :: X) (0 ∈ X)), (bool_decide_ext (2 ∈ 1 :: X) (2 ∈ X)) by set_solver.
    by destruct (bool_decide (0 ∈ X)), (bool_decide (2 ∈ X)).
  - rewrite (bool_decide_eq_true_2 (2 ∈ 2 :: X)), (bool_decide_eq_false_2 (2 ∈ X)) by (done || left).
    rewrite (bool_decide_ext (0 ∈ 2 :: X) (0 ∈ X)), (bool_decide_ext (1 ∈ 2 :: X) (1 ∈ X)) by set_solver.
    by destruct (bool_decide (0 ∈ X)), (bool_decide (1 ∈ X)).
Qed.

Lemma get_upd_fut i f s : get_fut i (upd_fut i f s) = f.
Proof using Type. unfold get_fut, upd_fut. cbn. by rewrite lookup_insert_eq. Qed.

Lemma after_pay_step X id s : is_pay id → after_pay X s → id ∉ X → pay_deps id ⊆ X → ∃ s', act_pay id s = Ok s' ∧ after_pay (id :: X) s'.
Proof using Hr.
  intros Hid (H1 & H2 & H3) Hx Hd. destruct (pr_rows Hr) as (_ & Hw & Hdr & Hc). destruct nodes_eq as (_ & Ht & _).
  destruct (paid_fields X) as (F1 & F2 & F3). pose proof (paid_cons X id Hx Hid) as Hcons.
  unfold is_pay in Hid. apply elem_of_cons in Hid as [->|[->|[->|Hid%elem_of_nil]%elem_of_cons]%elem_of_cons]; [| | |done]; unfold act_pay, pay_func; cbn [Z.eqb Pos.eqb] in *.
  - assert (H2X : 2 ∉ X) by auto. unfold UpdateWarehouse, row_value. rewrite H1, F1, bool_decide_eq_false_2, Hw by done. cbn [mbind result_bind]. fold tax_node. rewrite Ht.
    unfold Subscribe. assert (Hg : get_fut 0 (upd_db (set_warehouses (<[prow 0:=w1]>)) s) = new_future).
    { unfold get_fut, upd_db in *. cbn. rewrite H2. unfold tax_future. by rewrite bool_decide_eq_false_2. }
    fold w1. rewrite Hg. cbn [f_nodes new_future length abort_if mbind result_bind]. eexists. split; [done|]. split; [|split].
    + rewrite Hcons, <- H1. done.
    + unfold Signal. rewrite !get_upd_fut. cbn. unfold tax_future. rewrite bool_decide_eq_true_2 by left. rewrite bool_decide_eq_false_2 by set_solver. done.
    + intros _. left.
  - unfold UpdateDistrict, row_value. rewrite H1, F2, bool_decide_eq_false_2, Hdr by done. cbn [mbind result_bind]. eexists. split; [done|]. split; [|split].
    + rewrite Hcons, <- H1. done.
    + change (get_fut 0 (upd_db ?f ?t)) with (get_fut 0 t). rewrite H2. unfold tax_future.
      rewrite (bool_decide_ext (0 ∈ 1 :: X) (0 ∈ X)), (bool_decide_ext (2 ∈ 1 :: X) (2 ∈ X)) by set_solver. done.
    + set_solver.
  - assert (H0X : 0 ∈ X) by (apply Hd; left). unfold UpdateCustomer, row_value. rewrite H1, F3, bool_decide_eq_false_2, Hc by done. cbn [mbind result_bind].
    change (pay_home 2) with customer_node. unfold Wait. rewrite H2. unfold tax_future at 1. rewrite bool_decide_eq_true_2, bool_decide_eq_false_2 by done. cbn [f_ready].
    rewrite lookup_singleton_eq. cbn [mbind result_bind]. eexists. split; [done|]. split; [|split].
    + rewrite Hcons, <- H1. done.
    + change (get_fut 0 (upd_db ?f ?t)) with (get_fut 0 t). rewrite get_upd_fut. unfold tax_future. rewrite (bool_decide_eq_true_2 (0 ∈ X)), (bool_decide_eq_true_2 (0 ∈ 2 :: X)), (bool_decide_eq_true_2 (2 ∈ 2 :: X)), (bool_decide_eq_false_2 (2 ∈ X)) by (done || left || by right).
      cbn. by rewrite delete_singleton_eq.
    + set_solver.
Qed.
Lemma after_pay_block X id s s' : is_pay id → after_pay X s → id ∉ X → act_pay id s = Ok s' → pay_deps id ⊆ X.
Proof using Hr.
  intros Hid (H1 & H2 & H3) Hx Ha. unfold pay_deps. destruct (Z.eqb_spec id 2) as [->|]; [|set_solver].
  destruct (decide (0 ∈ X)) as [|Hn]; [set_solver|exfalso]. unfold act_pay, pay_func in Ha. cbn [Z.eqb Pos.eqb] in Ha. unfold UpdateCustomer, Wait in Ha. rewrite H2 in Ha.
  unfold tax_future in Ha. rewrite bool_decide_eq_false_2 in Ha by done. cbn in Ha. by destruct (row_value _ _).
Qed.

(** ** The pieces of a pair of the bitmaps *)

Section Node.
Context (node bitmap : Z) (Hbits : ∀ i, i ∈ sel bitmap → is_pay i ∧ pay_home i = node) (Hused : ∃ i, i ∈ sel bitmap).
Context (Hfull : ∀ i, is_pay i → pay_home i = node → i ∈ sel bitmap).
Notation does := (does act_pay after_pay).
(** the wait comes last *)
Definition tax_first (l : list Z) : Prop := 0 ∈ l → ∃ tl, l = 0 :: tl.
Lemma tax_first_filter (P : Z → bool) : tax_first (filter (fun i => P i = true) [0; 1; 2]).
Proof using Type.
  intros H0. apply list_elem_of_filter in H0 as [H0 _]. rewrite filter_cons_True by done. by eexists.
Qed.

Lemma sel_pay : sel bitmap = filter (fun i => Z.testbit bitmap i = true) [0; 1; 2].
Proof using Hbits.
  unfold sel. change (seqZ 0 kMaxPackedKeys) with ([0; 1; 2] ++ seqZ 3 12). rewrite filter_app, (filter_none _ (seqZ 3 12)), app_nil_r; [done|].
  intros i Hi Ht. apply elem_of_seqZ in Hi. destruct (Hbits i) as [Hp _]; [apply elem_of_sel; split; [unfold kMaxPackedKeys; lia|done]|].
  unfold is_pay in Hp. rewrite !elem_of_cons, elem_of_nil in Hp. lia.
Qed.

Notation sp id := (will_split E node (pay_row node id)).
Notation func id := (fun _ : unit => pay_func E node id p).
Definition pay_handle (id : Z) : InvokeHandle unit * list TxnPiece :=
  if sp id then (ClearCallback, [mkPiece node (aff_of E node (pay_row node id)) (Invoke (mkHandle (Some (func id)) (pay_row node id)) ())])
  else (mkHandle (Some (func id)) (pay_row node id), []).

(** with splitting, all rows are here *)
Lemma split_all : kOnDemandSplitting E = true → ∀ id, is_pay id → pay_home id = node ∧ Z.testbit bitmap id = true.
Proof using Hr Hbits Hused Hfull.
  intros Es. assert (Hall : ∀ id, is_pay id → pay_home id = warehouse_node).
  { intros id _. unfold pay_home. destruct nodes_eq as (-> & _ & _). rewrite (pr_split Hr Es). by repeat case_match. }
  destruct Hused as [i Hi]. destruct (Hbits i Hi) as [Hp Hpn]. intros id Hid. assert (Heq : pay_home id = pay_home i) by (by rewrite (Hall id), (Hall i)). split; [congruence|].
  assert (Hs : id ∈ sel bitmap) by (apply Hfull; [done|]; congruence). by apply elem_of_sel in Hs as [_ ?].
Qed.
Lemma handles_eq : mapM (fun id => UpdateForKey E node (pay_row node id) (func id) ()) [0; 1; 2] = Ok (map pay_handle [0; 1; 2]).
Proof using Hr Hbits Hused Hfull.
  assert (H : ∀ id, is_pay id → UpdateForKey E node (pay_row node id) (func id) () = Ok (pay_handle id)).
  { intros id Hid. apply UpdateForKey_eq. destruct (kOnDemandSplitting E) eqn:Es; [left|by right].
    destruct (split_all Es id Hid) as [<- _]. apply (proj1 (pr_rows Hr)). unfold is_pay in Hid. rewrite !elem_of_cons, elem_of_nil in Hid. lia. }
  cbn [mapM]. rewrite !H by (unfold is_pay; set_solver). done.
Qed.
Lemma split_bit id : is_pay id → sp id = true → pay_home id = node ∧ Z.testbit bitmap id = true.
Proof using Hr Hbits Hused Hfull.
  intros Hid Hs. destruct (kOnDemandSplitting E) eqn:Es; [by apply split_all|]. by rewrite no_split in Hs.
Qed.
Lemma func_act id s : pay_home id = node → pay_func E node id p (pay_row node id) s = act_pay id s.
Proof using Type. intros H. unfold act_pay, prow. by rewrite H. Qed.

Lemma split_does : Forall2 does (concat (map snd (map pay_handle [0; 1; 2]))) (map (fun id => [id]) (filter (fun id => sp id = true) [0; 1; 2])).
Proof using Hr Hbits Hused Hfull.
  assert (H : ∀ l, (∀ id, id ∈ l → is_pay id) → Forall2 does (concat (map snd (map pay_handle l))) (map (fun id => [id]) (filter (fun id => sp id = true) l))).
  { induction l as [|id l IH]; intros Hl; [done|]. cbn [map concat]. rewrite filter_cons. unfold pay_handle at 1. destruct (sp id) eqn:Es.
    - cbn. constructor; [|apply IH; intros; apply Hl; by right]. intros X s _. cbn. rewrite func_act by (apply split_bit; [apply Hl; left|done]).
      by destruct (act_pay id s).
    - cbn. apply IH. intros. apply Hl. by right. }
  apply H. unfold is_pay. done.
Qed.

Lemma filter_does aff f : does (mkPiece node aff (pay_bits (Z.land bitmap f) (fun id s => h ← nth_r (map pay_handle [0; 1; 2]) id; Invoke h.1 () s)))
  (filter (fun id => (Z.testbit bitmap id && Z.testbit f id && negb (sp id)) = true) [0; 1; 2]).
Proof using Hr Hbits Hused Hfull.
  intros X s _. cbn [p_body]. unfold pay_bits. rewrite <- for_each_filter. apply for_each_ext. intros id t Hid.
  assert (Hn : nth_r (map pay_handle [0; 1; 2]) id = Ok (pay_handle id)).
  { rewrite !elem_of_cons, elem_of_nil in Hid. by destruct Hid as [->|[->|[->|[]]]]. }
  rewrite Z.land_spec. destruct (Z.testbit bitmap id) eqn:Eb, (Z.testbit f id); cbn [andb]; try done. rewrite Hn. cbn [mbind result_bind]. unfold pay_handle.
  destruct (sp id); cbn; [done|]. apply func_act. apply Hbits. rewrite sel_pay. by apply list_elem_of_filter.
Qed.

Lemma split_perm (b s : Z → bool) : (s 0 = true → pay_home 0 = node ∧ b 0 = true) → (s 1 = true → pay_home 1 = node ∧ b 1 = true) → (s 2 = true → pay_home 2 = node ∧ b 2 = true) →
  concat (map (fun id => [id]) (pick3 s)) ++ concat (map (fun f => filter (fun id => (b id && Z.testbit f id && negb (s id)) = true) [0; 1; 2]) (filter (fun f => f ≠ 0) (filters E))) ≡ₚ pick3 b.
Proof using Type.
  intros S0 S1 S2. assert (Hf : filter (fun f => f ≠ 0) (filters E) = [7] ∨ filter (fun f => f ≠ 0) (filters E) = [3; 4] ∨ filter (fun f => f ≠ 0) (filters E) = [1; 2; 4]).
  { unfold filters. destruct (negb (kEnablePartition E)); [by left|]. destruct (IsWarehousePinnable _ _ _); [by right; left|by right; right]. }
  destruct Hf as [->|[->| ->]]; cbn [map concat]; rewrite !filter3; unfold pick3;
    destruct (s 0), (s 1), (s 2); try (destruct (S0 eq_refl) as [_ ->]); try (destruct (S1 eq_refl) as [_ ->]); try (destruct (S2 eq_refl) as [_ ->]);
    repeat match goal with |- context [b ?i] => destruct (b i) end; apply (bool_decide_unpack _); vm_compute; exact I.
Qed.

Lemma payment_node_ok : ∃ ps ls, payment_node E pay_row p (node, bitmap) = Ok ps ∧ Forall2 does ps ls ∧ Forall tax_first ls ∧ concat ls ≡ₚ sel bitmap.
Proof using Hr Hbits Hused Hfull.
  unfold payment_node. destruct (node_id E =? node).
  - change (mapM _ _) with (mapM (fun id => UpdateForKey E node (pay_row node id) (func id) ()) [0; 1; 2]). rewrite handles_eq. cbn [mbind result_bind].
    assert (Hone : ∀ l, Forall tax_first (map (fun id => [id]) l)).
    { intros l. apply Forall_forall. intros x Hx. change (map ?f ?l) with (f <$> l) in Hx. apply list_elem_of_fmap in Hx as (id & -> & _).
      intros ->%list_elem_of_singleton. by eexists. }
    pose proof (split_bit 0 ltac:(unfold is_pay; set_solver)) as S0. pose proof (split_bit 1 ltac:(unfold is_pay; set_solver)) as S1.
    pose proof (split_bit 2 ltac:(unfold is_pay; set_solver)) as S2.
    destruct (forallb _ _) eqn:Ef.
    + eexists _, _. split; [done|]. split; [apply split_does|]. split; [apply Hone|]. rewrite sel_pay, !filter3. unfold pick3. unfold pay_handle in Ef. cbn [map forallb fst] in Ef.
      destruct (sp 0), (sp 1), (sp 2); try discriminate Ef. destruct (S0 eq_refl) as [_ ->], (S1 eq_refl) as [_ ->], (S2 eq_refl) as [_ ->]. done.
    + eexists _, (_ ++ map (fun f => filter (fun id => (Z.testbit bitmap id && Z.testbit f id && negb (sp id)) = true) [0; 1; 2]) _).
      split; [done|]. split; [|split].
      * apply Forall2_app; [apply split_does|]. apply Forall2_fmap, Forall_Forall2_diag, Forall_forall. intros f _. apply filter_does.
      * apply Forall_app_2; [apply Hone|]. apply Forall_forall. intros l Hl. change (map ?f ?l) with (f <$> l) in Hl. apply list_elem_of_fmap in Hl as (f & -> & _). apply tax_first_filter.
      * rewrite sel_pay, concat_app, !filter3. apply (split_perm _ _ S0 S1 S2).
  - eexists _, [sel bitmap]. split; [done|]. split; [|split].
    + constructor; [|done]. intros X s _. cbn [p_body]. unfold pay_bits. rewrite for_each_filter, <- sel_pay. apply for_each_ext. intros id t Hid.
      apply func_act. by apply Hbits.
    + constructor; [|done]. rewrite sel_pay. apply tax_first_filter.
    + cbn. by rewrite app_nil_r.
Qed.
End Node.

(** ** The nodes *)

Lemma key_home rel k w : k.[0] = w → 1 ≤ w ≤ nr_warehouses (cfg E) → home (fun _ => LocateKey E hash) route (node_id E) rel k = route (LocateKey E hash k).
Proof using Hr.
  intros Hk Hw. unfold home, LocateKey. rewrite (pr_shard Hr), Hk. destruct (slice_by_warehouse w Hw) as (-> & _ & Hs). by rewrite (proj2 (Z.leb_le 0 _)) by lia.
Qed.
(** on a single node *)
Lemma lookup_single ps sl : nr_nodes E = 1 → Forall param_ok ps → slots (fun _ => []) (fun _ => LocateKey E hash) route (node_id E) ps = sl →
  len sl ≤ kMaxPackedKeys → Forall (fun o => match o with Some s => s_home s = 1 | None => True end) sl →
  lookup_nodes E hash ps = Ok (map (fun n => (n, (node_bits 1 sl).[n])) (used 1 sl [1])).
Proof using Type.
  intros H1 Hp <- Hl Hh. unfold lookup_nodes. rewrite (GenerateNodeBitmap_eq (fun _ => [])); [by rewrite H1|lia|done|done|].
  intros i s Hi. pose proof (proj1 (Forall_lookup _ _) Hh _ _ Hi) as Hs. cbn in Hs. lia.
Qed.
Lemma Payment_nodes_ready elision : (elision = true → nr_nodes E = 1 ∧ (nr_warehouses (cfg E) = 1 ∨ IsWarehousePinnable (cfg E) (nr_nodes E) (g_nr_threads E) = true)) →
  ∃ nodes, Payment_Prepare E hash elision p = Ok nodes ∧ bits_ready 3 pay_home nodes.
Proof using Hr.
  intros Hel. pose proof (pr_nodes Hr). destruct nodes_eq as (_ & _ & Hhome).
  pose proof (key_home 113 [p_warehouse_id p] _ eq_refl (pr_warehouse Hr)) as K0.
  pose proof (key_home 104 [p_warehouse_id p; p_district_id p] _ eq_refl (pr_warehouse Hr)) as K1.
  pose proof (key_home 101 [customer_warehouse_id p; customer_district_id p; p_customer_id p] _ eq_refl (pr_customer Hr)) as K2.
  unfold Payment_Prepare. destruct elision; cbn [negb].
  - destruct (Hel eq_refl) as [H1 Hp]. assert (Hh : ∀ id, pay_home id = 1) by (intros id; specialize (Hhome id); lia).
    change (route (LocateKey E hash [p_warehouse_id p])) with (pay_home 0) in K0. change (route (LocateKey E hash [p_warehouse_id p; p_district_id p])) with (pay_home 1) in K1.
    change (route (LocateKey E hash [customer_warehouse_id p; customer_district_id p; p_customer_id p])) with (pay_home 2) in K2. rewrite Hh in K0, K1, K2.
    exists [(1, 7)]. split.
    + set (S0 := key_slot (fun _ => []) (fun _ => LocateKey E hash) route (node_id E) 113 (LocateKey E hash [p_warehouse_id p]) [p_warehouse_id p]).
      set (S1 := key_slot (fun _ => []) (fun _ => LocateKey E hash) route (node_id E) 104 (LocateKey E hash [p_warehouse_id p; p_district_id p]) [p_warehouse_id p; p_district_id p]).
      set (S2 := key_slot (fun _ => []) (fun _ => LocateKey E hash) route (node_id E) 101 (LocateKey E hash [customer_warehouse_id p; customer_district_id p; p_customer_id p]) [customer_warehouse_id p; customer_district_id p; p_customer_id p]).
      assert (h0 : s_home S0 = 1) by exact K0. assert (h1 : s_home S1 = 1) by exact K1. assert (h2 : s_home S2 = 1) by exact K2.
      assert (Hok : ∀ ps sl, Forall param_ok ps → slots (fun _ => []) (fun _ => LocateKey E hash) route (node_id E) ps = sl → len sl ≤ kMaxPackedKeys →
        Forall (fun o => match o with Some s => s_home s = 1 | None => True end) sl → lookup_nodes E hash ps = Ok (map (fun n => (n, (node_bits 1 sl).[n])) (used 1 sl [1])))
        by (intros; by apply lookup_single).
      assert (L01 := Hok [warehouse_param p; district_param p] [Some S0; Some S1] ltac:(by repeat (apply Forall_cons; split; [done|])) eq_refl ltac:(done) ltac:(by repeat (apply Forall_cons; split; [done|]))).
      assert (L0 := Hok [warehouse_param p] [Some S0] ltac:(by repeat (apply Forall_cons; split; [done|])) eq_refl ltac:(done) ltac:(by repeat (apply Forall_cons; split; [done|]))).
      assert (L1 := Hok [PlaceholderParam 1; district_param p] [None; Some S1] ltac:(by repeat (apply Forall_cons; split; [done|])) eq_refl ltac:(done) ltac:(by repeat (apply Forall_cons; split; [done|]))).
      assert (L2 := Hok [PlaceholderParam 2; customer_param p] [None; None; Some S2] ltac:(by repeat (apply Forall_cons; split; [done|])) eq_refl ltac:(done) ltac:(by repeat (apply Forall_cons; split; [done|]))).
      clear Hok K0 K1 K2. clearbody S0 S1 S2. destruct S0 as [? ? ? m0], S1 as [? ? ? m1], S2 as [? ? ? m2]. cbn in h0, h1, h2. subst m0 m1 m2.
      destruct (IsWarehousePinnable _ _ _) eqn:Ep.
      * rewrite L01, L2. by vm_compute.
      * destruct Hp as [Hp|?]; [|done]. rewrite (proj2 (Z.eqb_eq _ _) Hp). cbn [negb abort_if mbind result_bind]. rewrite L0, L1, L2. by vm_compute.
    + apply home_bits_ready; [apply NoDup_singleton|done|intros i _; rewrite Hh; left|intros e ->%list_elem_of_singleton; exists 0; rewrite Hh; done|].
      intros e i ->%list_elem_of_singleton Hi. cbn [fst snd]. rewrite Hh. change 7 with (Z.ones 3). destruct (Z.lt_ge_cases i 3).
      * rewrite Z.ones_spec_low by lia. naive_solver.
      * rewrite Z.ones_spec_high by lia. naive_solver lia.
  - apply generate_ready; [done|by repeat (apply Forall_cons; split; [done|])|done|done| |intros i _; apply Hhome].
    intros i Hi. assert (i = 0 ∨ i = 1 ∨ i = 2) as [->|[->| ->]] by lia; eexists; (split; [reflexivity|]); cbn [s_home key_slot]; done.
Qed.

(** ** Order of the actions *)

Lemma enabled_taxed l : ∀ X, 0 ∈ X → enabled pay_deps X l.
Proof using Type.
  induction l as [|a l IH]; intros X H0; cbn; [done|]. split; [|apply IH; by right]. unfold pay_deps. case_match; [|intros x Hx; by apply elem_of_nil in Hx].
  by intros x ->%list_elem_of_singleton.
Qed.
Lemma pay_order ls : Forall tax_first ls → 0 ∈ concat ls → ∃ ls', ls' ≡ₚ ls ∧ enabled pay_deps [] (concat ls').
Proof using Type.
  intros Hq H0. apply list_elem_of_In, in_concat in H0 as (l & Hl & H0). apply list_elem_of_In in Hl, H0.
  pose proof (proj1 (Forall_forall _ _) Hq l Hl H0) as [tl ->]. apply list_elem_of_split in Hl as (u & v & ->).
  exists ((0 :: tl) :: u ++ v). split; [by rewrite Permutation_middle|]. cbn. split; [intros x Hx; by apply elem_of_nil in Hx|]. apply enabled_taxed. left.
Qed.
End Payment.

