(* ===== verification/TpccDelivery.v ===== *)
(** Delivery: without partitions every run of its pieces delivers the orders of all
    districts; with partitions the piece of the customer waits for ever. *)

From S2P Require Import Prelude Bits EpochMem IndexOp IndexFacts IndexProps Tpcc TpccTxns.

Section Delivery.
Context (E : Env) (dl : Z → DistrictRows) (dl_warehouse ts carrier_id : Z) (s0 : St).
(** the districts that have an order to deliver *)
Context (due : list Z).
Notation CalcSum := (CalcSum dl ts).
Notation sum_line := (sum_line ts).

Record delivery_ready : Prop := {
  dr_due : NoDup due;
  dr_lines : ∀ i, i ∈ due → len (dl_lines (dl i)) ≤ 15 ∧ NoDup (dl_lines (dl i)) ∧ ∀ r, r ∈ dl_lines (dl i) → is_Some (order_lines (db s0) !! r);
  dr_lines_apart : ∀ i j r, i ∈ due → j ∈ due → r ∈ dl_lines (dl i) → r ∈ dl_lines (dl j) → i = j;
  dr_oorder : ∀ i, i ∈ due → is_Some (oorders (db s0) !! dl_oorder (dl i));
  dr_customer : ∀ i, i ∈ due → dl_customer (dl i) ≠ 0 ∧ is_Some (customers (db s0) !! dl_customer (dl i));
  dr_new_order : ∀ i, i ∈ due → dl_new_order (dl i) ≠ 0 ∧ dl_new_order (dl i) ∈ new_orders (db s0);
  dr_apart : ∀ i j, i ∈ due → j ∈ due → i ≠ j →
    dl_oorder (dl i) ≠ dl_oorder (dl j) ∧ dl_customer (dl i) ≠ dl_customer (dl j) ∧ dl_new_order (dl i) ≠ dl_new_order (dl j);
}.
Context (Hr : delivery_ready).

(** the amount of an order *)
Definition line_amount (r : Z) : Z := match order_lines (db s0) !! r with Some v => ol_amount v | None => 0 end.
Definition order_sum (i : Z) : Z := foldl (fun sum r => i32 (sum + line_amount r)) 0 (dl_lines (dl i)).
Definition add_balance (sum : Z) (v : CustomerValue) : CustomerValue := mkCustomer (i32 (c_balance v + sum)) (c_ytd_payment v) (c_payment_cnt v).

(** the actions: delete the new-order row, update the order, sum up and pay *)
Inductive Action := ADelete (i : Z) | AOrder (i : Z) | APay (i : Z).
#[export] Instance action_dec : EqDecision Action.
Proof using Type. solve_decision. Defined.
Definition action_of (a : Action) : Z := match a with ADelete i | AOrder i | APay i => i end.
Definition act_dl (a : Action) : St → result St :=
  match a with ADelete i => DeleteNewOrder dl i | AOrder i => UpdateOOrder dl carrier_id i | APay i => deliver_customer dl ts i 0 end.
Definition when {A} (b : Prop) `{Decision b} (f : A → A) : A → A := if decide b then f else fun x => x.

Record after_dl (X : list Action) (s : St) : Prop := {
  ad_rest : s = mkSt (mkDB (stocks (db s0)) (warehouses (db s0)) (districts (db s0)) (customers (db s)) (oorders (db s)) (order_lines (db s)) (new_orders (db s))) (futures s0);
  ad_new : ∀ r, r ∈ new_orders (db s) ↔ r ∈ new_orders (db s0) ∧ ∀ i, i ∈ due → ADelete i ∈ X → r ≠ dl_new_order (dl i);
  ad_order : ∀ i, i ∈ due → oorders (db s) !! dl_oorder (dl i) = when (AOrder i ∈ X) (deliver_order carrier_id) <$> oorders (db s0) !! dl_oorder (dl i);
  ad_orders : ∀ r, (∀ i, i ∈ due → r ≠ dl_oorder (dl i)) → oorders (db s) !! r = oorders (db s0) !! r;
  ad_customer : ∀ i, i ∈ due → customers (db s) !! dl_customer (dl i) = when (APay i ∈ X) (add_balance (order_sum i)) <$> customers (db s0) !! dl_customer (dl i);
  ad_customers : ∀ r, (∀ i, i ∈ due → r ≠ dl_customer (dl i)) → customers (db s) !! r = customers (db s0) !! r;
  ad_line : ∀ i r, i ∈ due → r ∈ dl_lines (dl i) → order_lines (db s) !! r = when (APay i ∈ X) (deliver_line ts) <$> order_lines (db s0) !! r;
  ad_lines : ∀ r, (∀ i, i ∈ due → r ∉ dl_lines (dl i)) → order_lines (db s) !! r = order_lines (db s0) !! r;
}.

Lemma when_ext {A} (P Q : Prop) `{Decision P} `{Decision Q} (f : A → A) : (P ↔ Q) → when P f = when Q f.
Proof using Hr. intros HPQ. unfold when. destruct (decide P), (decide Q); tauto. Qed.

Lemma after_dl_perm X Y s : X ≡ₚ Y → after_dl X s → after_dl Y s.
Proof using Hr.
  intros HXY [H1 H2 H3 H4 H5 H6 H7 H8]. split; try done.
  - intros r. rewrite H2. split; intros [? Hx]; (split; [done|]); intros i Hi Hin; apply Hx; try done; by rewrite HXY || rewrite <- HXY.
  - intros i Hi. rewrite H3 by done. by rewrite (when_ext _ (AOrder i ∈ Y)) by (by rewrite HXY).
  - intros i Hi. rewrite H5 by done. by rewrite (when_ext _ (APay i ∈ Y)) by (by rewrite HXY).
  - intros i r Hi Hl. rewrite (H7 i) by done. by rewrite (when_ext _ (APay i ∈ Y)) by (by rewrite HXY).
Qed.

Lemma sum_lines_ok l : ∀ sum s, NoDup l → (∀ r, r ∈ l → order_lines (db s) !! r = order_lines (db s0) !! r ∧ is_Some (order_lines (db s0) !! r)) →
  ∃ m, for_each sum_line l (sum, s) = Ok (foldl (fun sum r => i32 (sum + line_amount r)) sum l, upd_db (set_order_lines (fun _ => m)) s) ∧
    ∀ r, m !! r = when (r ∈ l) (deliver_line ts) <$> order_lines (db s) !! r.
Proof using Hr.
  induction l as [|r l IH]; intros sum s Hnd Hl.
  { exists (order_lines (db s)). split; [by destruct s as [[] ?]|]. intros r. unfold when. destruct (decide (r ∈ [])) as [Hx|]; [by apply elem_of_nil in Hx|]. by rewrite option_fmap_id. }
  apply NoDup_cons in Hnd as [Hr0 Hnd]. destruct (Hl r) as [Heq [v Hv]]; [left|]. cbn [for_each].
  assert (E1 : sum_line r (sum, s) = Ok (i32 (sum + ol_amount v), upd_db (set_order_lines (<[r := deliver_line ts v]>)) s)) by (cbn; unfold row_value; by rewrite Heq, Hv).
  rewrite E1. cbn [mbind result_bind]. set (s1 := upd_db (set_order_lines (<[r := deliver_line ts v]>)) s).
  destruct (IH (i32 (sum + ol_amount v)) s1 Hnd) as (m & -> & Hm).
  { intros r' Hr'. destruct (Hl r') as [H1 H2]; [by right|]. split; [|done]. cbn. rewrite lookup_insert_ne by (by intros ->). done. }
  exists m. split.
  - cbn [foldl]. assert (line_amount r = ol_amount v) as -> by (unfold line_amount; by rewrite Hv). by destruct s as [[] ?].
  - intros r'. rewrite Hm. cbn. destruct (decide (r' = r)) as [->|Hne].
    + rewrite lookup_insert_eq, Heq, Hv. unfold when. destruct (decide (r ∈ l)); [done|]. by rewrite decide_True by left.
    + rewrite lookup_insert_ne by done. f_equal. apply when_ext. set_solver.
Qed.

Lemma when_now {A} (X : list Action) a b (f : A → A) : a ∉ X → when (a ∈ b :: X) f = if decide (a = b) then f else when (a ∈ X) f.
Proof using Hr.
  intros Ha. unfold when. destruct (decide (a = b)) as [->|Hne]; [by rewrite decide_True by left|]. rewrite !decide_False by set_solver. done.
Qed.
Lemma when_later {A} (X : list Action) a b (f : A → A) : a ≠ b → when (a ∈ b :: X) f = when (a ∈ X) f.
Proof using Hr. intros Hne. apply when_ext. set_solver. Qed.

Lemma delete_step X i s : i ∈ due → after_dl X s → ADelete i ∉ X → ∃ s', act_dl (ADelete i) s = Ok s' ∧ after_dl (ADelete i :: X) s'.
Proof using Hr.
  intros Hi [H1 H2 H3 H4 H5 H6 H7 H8] Hx. cbn [act_dl]. unfold DeleteNewOrder. rewrite bool_decide_eq_true_2.
  2: { apply H2. split; [by apply (dr_new_order Hr)|]. intros j Hj Hin He. destruct (decide (i = j)) as [->|Hne]; [done|]. by apply (dr_apart Hr i j). }
  eexists. split; [done|]. split; cbn; try done.
  - rewrite H1 at 1. done.
  - intros r. rewrite elem_of_difference, H2, elem_of_singleton. split.
    + intros [[Ha Hb] Hne]. split; [done|]. intros j Hj [[= ->]|Hin]%elem_of_cons; [done|]. by apply Hb.
    + intros [Ha Hb]. split; [split; [done|]|].
      * intros j Hj Hin. apply Hb; [done|by right].
      * apply Hb; [done|left].
  - intros j Hj. rewrite when_later by done. by apply H3.
  - intros j Hj. rewrite when_later by done. by apply H5.
  - intros j r Hj Hl. rewrite when_later by done. by apply H7.
Qed.
Lemma order_step X i s : i ∈ due → after_dl X s → AOrder i ∉ X → ∃ s', act_dl (AOrder i) s = Ok s' ∧ after_dl (AOrder i :: X) s'.
Proof using Hr.
  intros Hi [H1 H2 H3 H4 H5 H6 H7 H8] Hx. cbn [act_dl]. destruct (dr_oorder Hr i Hi) as [v Hv]. unfold UpdateOOrder, row_value.
  rewrite H3, Hv by done. unfold when. rewrite decide_False by done. cbn [fmap option_fmap option_map mbind result_bind].
  eexists. split; [done|]. split; cbn; try done.
  - rewrite H1 at 1. done.
  - intros r. rewrite H2. split; intros [Ha Hb]; (split; [done|]); intros j Hj Hin; apply Hb; try done; [by apply elem_of_cons in Hin as [|]|by right].
  - intros j Hj. destruct (decide (i = j)) as [->|Hne].
    + rewrite lookup_insert_eq, Hv. unfold when. by rewrite decide_True by left.
    + rewrite lookup_insert_ne by (by apply (dr_apart Hr)). rewrite when_later by congruence. by apply H3.
  - intros r Hrr. rewrite lookup_insert_ne by (intros <-; by apply (Hrr i)). by apply H4.
  - intros j Hj. rewrite when_later by done. by apply H5.
  - intros j r Hj Hl. rewrite when_later by done. by apply H7.
Qed.
Lemma pay_step X i s : i ∈ due → after_dl X s → APay i ∉ X → ∃ s', act_dl (APay i) s = Ok s' ∧ after_dl (APay i :: X) s'.
Proof using Hr.
  intros Hi [H1 H2 H3 H4 H5 H6 H7 H8] Hx. cbn [act_dl]. unfold deliver_customer, CalcSum. destruct (dr_lines Hr i Hi) as (Hl & Hnd & Hls).
  rewrite take_ge by lia. destruct (sum_lines_ok (dl_lines (dl i)) 0 s Hnd) as (m & -> & Hm).
  { intros r Hrl. split; [|by apply Hls]. rewrite (H7 i) by done. unfold when. rewrite decide_False by done. by rewrite option_fmap_id. }
  fold (order_sum i). cbn [mbind result_bind]. destruct (dr_customer Hr i Hi) as [_ [c Hc]]. unfold WriteCustomer, row_value. cbn [db upd_db set_order_lines customers].
  rewrite H5, Hc by done. unfold when at 1. rewrite decide_False by done. cbn [fmap option_fmap option_map mbind result_bind].
  eexists. split; [done|]. split; cbn; try done.
  - rewrite H1 at 1. done.
  - intros r. rewrite H2. split; intros [Ha Hb]; (split; [done|]); intros j Hj Hin; apply Hb; try done; [by apply elem_of_cons in Hin as [|]|by right].
  - intros j Hj. rewrite when_later by done. by apply H3.
  - intros j Hj. destruct (decide (i = j)) as [->|Hne].
    + rewrite lookup_insert_eq, Hc. unfold when. by rewrite decide_True by left.
    + rewrite lookup_insert_ne by (by apply (dr_apart Hr)). rewrite when_later by congruence. by apply H5.
  - intros r Hrr. rewrite lookup_insert_ne by (intros <-; by apply (Hrr i)). by apply H6.
  - intros j r Hj Hrl. rewrite Hm. destruct (decide (i = j)) as [->|Hne].
    + rewrite (H7 j) by done. unfold when. rewrite (decide_False (P := APay j ∈ X)), (decide_True (P := r ∈ dl_lines (dl j))), (decide_True (P := APay j ∈ APay j :: X)) by (done || left).
      by rewrite option_fmap_id.
    + rewrite when_later by congruence. unfold when at 1. rewrite decide_False by (intros Hri; by apply Hne, (dr_lines_apart Hr i j r)). rewrite option_fmap_id. by apply H7.
  - intros r Hrr. rewrite Hm. unfold when. rewrite decide_False by (by apply Hrr). rewrite option_fmap_id. by apply H8.
Qed.

Lemma act_dl_step X a s : action_of a ∈ due → after_dl X s → a ∉ X → [] ⊆ X → ∃ s', act_dl a s = Ok s' ∧ after_dl (a :: X) s'.
Proof using Hr. destruct a; cbn [action_of]; intros; [by apply delete_step|by apply order_step|by apply pay_step]. Qed.

(** ** The pieces of a district *)

Notation does := (does act_dl after_dl).
Notation district := (delivery_district E dl dl_warehouse ts carrier_id).
Definition district_actions (i : Z) : list Action := [ADelete i; AOrder i; APay i].

(** the rows of a warehouse are on one node *)
Lemma single_entry n nb : 0 < n → bits_ready n (fun _ => node_id E) nb → ∃ b, nb = [(node_id E, b)] ∧ sel b ≡ₚ seqZ 0 n.
Proof using Type.
  intros Hn Hb. assert (Hall : ∀ e, e ∈ nb → e.1 = node_id E).
  { intros e He. destruct (br_used _ _ _ Hb e He) as [i Hi]. symmetry. by apply (br_homes _ _ _ Hb e i). }
  pose proof (br_nodup _ _ _ Hb) as Hnd. pose proof (br_items _ _ _ Hb) as Hp. destruct nb as [|[m b] [|[m' b'] nb]].
  - apply Permutation_nil_l in Hp. rewrite seqZ_cons in Hp by lia. done.
  - specialize (Hall (m, b) ltac:(left)) as Hm. cbn in Hm. subst m. exists b. split; [done|]. cbn in Hp. by rewrite app_nil_r in Hp.
  - exfalso. cbn in Hnd. apply NoDup_cons in Hnd as [Hnd _]. apply Hnd. pose proof (Hall (m, b) ltac:(left)) as Hm. pose proof (Hall (m', b') ltac:(right; left)) as Hm'. cbn in *. subst. left.
Qed.

Lemma district_ok i nb : i ∈ due → bits_ready 5 (fun _ => node_id E) nb →
  ∃ ps ls, district i nb = Ok ps ∧ Forall2 does ps ls ∧ Forall (fun _ => True) ls ∧ concat ls ≡ₚ district_actions i.
Proof using Hr.
  intros Hi Hb. destruct (single_entry 5 nb ltac:(lia) Hb) as (b & -> & Hsel). clear Hb.
  assert (Hbit : ∀ j, 0 ≤ j < kMaxPackedKeys → Z.testbit b j = true ↔ j < 5).
  { intros j Hj. assert (Hin : j ∈ sel b ↔ j ∈ seqZ 0 5) by (by rewrite Hsel). rewrite elem_of_sel, elem_of_seqZ in Hin. naive_solver lia. }
  assert (B0 : Z.testbit b 0 = true) by (by apply Hbit). assert (B2 : Z.testbit b 2 = true) by (by apply Hbit). assert (B4 : Z.testbit b 4 = true) by (by apply Hbit).
  assert (B7 : Z.testbit b 7 ≠ true) by (by rewrite Hbit). assert (N8 : (b =? 8) = false) by (apply Z.eqb_neq; intros ->; done).
  assert (N129 : (b =? 129) = false) by (apply Z.eqb_neq; intros ->; done).
  unfold delivery_district. cbn [for_each delivery_step]. rewrite N8, B0, N129. cbn [orb negb]. destruct (dr_customer Hr i Hi) as [Hnz _].
  rewrite UpdateForKey_eq by (by left). cbn [mbind result_bind].
  assert (Hbody : ∀ h s, delivery_body E dl carrier_id i (node_id E) b h s = (s ← for_each act_dl [ADelete i; AOrder i] s; Invoke h i s)).
  { intros h s. unfold delivery_body. rewrite B4, B2, Z.eqb_refl. cbn. destruct (DeleteNewOrder dl i s); cbn; [|done]. by destruct (UpdateOOrder dl carrier_id i a). }
  destruct (will_split E (node_id E) (dl_customer (dl i))).
  - eexists _, [[APay i]; [ADelete i; AOrder i]]. split; [done|]. split; [|split; [by apply Forall_true|]].
    + constructor; [|constructor; [|done]].
      * intros X s _. cbn [p_body for_each act_dl]. change (Invoke _ i s) with (deliver_customer dl ts i 0 s). by destruct (deliver_customer dl ts i 0 s).
      * intros X s _. cbn [p_body]. rewrite Hbody. by destruct (for_each act_dl _ s).
    + cbn. unfold district_actions. apply (Permutation_app_comm [APay i] [ADelete i; AOrder i]).
  - eexists _, [[ADelete i; AOrder i; APay i]]. split; [done|]. split; [|split; [by apply Forall_true|done]]. constructor; [|done].
    intros X s _. cbn [p_body]. rewrite Hbody. change [ADelete i; AOrder i; APay i] with ([ADelete i; AOrder i] ++ [APay i]). rewrite for_each_app.
    destruct (for_each act_dl _ s) as [t|]; [|done]. cbn [mbind result_bind for_each act_dl]. change (Invoke _ i t) with (deliver_customer dl ts i 0 t).
    by destruct (deliver_customer dl ts i 0 t).
Qed.
End Delivery.

Lemma actions_of_districts (due : list Z) (l : list (Z * NodeBitmap)) :
  concat (map (fun x => if decide (x.1 ∈ due) then district_actions x.1 else []) l) = flat_map district_actions (filter (fun i => i ∈ due) l.*1).
Proof.
  induction l as [|x l IH]; [done|]. cbn [map concat fmap list_fmap]. rewrite filter_cons, IH. by destruct (decide (x.1 ∈ due)).
Qed.
Lemma NoDup_actions (due : list Z) : NoDup due → NoDup (flat_map district_actions due).
Proof.
  induction 1 as [|i l Hi _ IH]; [constructor|]. cbn [flat_map]. apply NoDup_app. split; [|split; [|done]].
  - unfold district_actions. repeat (apply NoDup_cons; split; [set_solver|]). constructor.
  - intros a Ha Hin. apply Hi. apply list_elem_of_In, in_flat_map in Hin as (j & Hj & Haj). apply list_elem_of_In in Hj, Haj.
    assert (i = j) as -> by (unfold district_actions in *; set_solver). done.
Qed.


(** ** Partitions *)

Definition no_subscriber (s : St) : Prop := ∀ j, get_fut j s = new_future.

Lemma parts_keep E dl ts carrier_id i e pc s s' : pc ∈ delivery_parts E dl ts carrier_id i e → no_subscriber s → p_body pc s = Ok s' → no_subscriber s'.
Proof.
  destruct e as [node bitmap]. unfold delivery_parts. destruct (bitmap =? 8); [intros Hx; by apply elem_of_nil in Hx|].
  assert (Hdb : ∀ f t, no_subscriber t → no_subscriber (upd_db f t)) by done.
  assert (Hw : ∀ sum t t', no_subscriber t → WriteCustomer dl i sum t = Ok t' → no_subscriber t').
  { intros sum t t' Ht. unfold WriteCustomer. destruct (row_value _ _); cbn; [|done]. intros [= <-]. by apply Hdb. }
  assert (Hc : ∀ x, CalcSum dl ts i s = Ok x → no_subscriber s → no_subscriber x.2).
  { intros x Hx Hs. unfold CalcSum in Hx. revert Hx. generalize (take 15 (dl_lines (dl i))) 0. intros l. revert s Hs. induction l as [|r l IH]; intros s1 Hs1 z; cbn [for_each].
    - by intros [= <-].
    - cbn. destruct (row_value _ _); cbn; [|done]. apply IH. by apply Hdb. }
  intros [->|[->|[->|[->|Hx%elem_of_nil]%elem_of_cons]%elem_of_cons]%elem_of_cons]%elem_of_cons Hs; [| | | |done]; cbn [p_body].
  - unfold DeleteNewOrder. destruct (_ =? 0); cbn; [done|]. case_bool_decide; [|done]. intros [= <-]. by apply Hdb.
  - unfold UpdateOOrder. destruct (row_value _ _); cbn; [|done]. intros [= <-]. by apply Hdb.
  - destruct (CalcSum dl ts i s) as [[sum t]|] eqn:Ec; cbn; [|done]. intros [= <-]. pose proof (Hc _ eq_refl Hs) as Ht. cbn in Ht.
    intros j. unfold Signal. rewrite (Ht i). cbn. destruct (decide (i = j)) as [->|Hne].
    + unfold get_fut, upd_fut. cbn. by rewrite lookup_insert_eq.
    + unfold get_fut, upd_fut. cbn. rewrite lookup_insert_ne by done. apply Ht.
  - unfold Wait. rewrite (Hs i). done.
Qed.

(** With partitions the transaction never completes: [Signal] makes the sum ready for the
    subscribed nodes only, and no node has subscribed, so that the piece of the customer
    is still there after every run. *)
Theorem delivery_partition_blocks E dl dl_warehouse ts carrier_id s0 nodes pieces i nb e :
  kEnablePartition E = true → IsWarehousePinnable (cfg E) (nr_nodes E) (g_nr_threads E) = false → no_subscriber s0 →
  zip (seqZ 0 10) nodes !! i = Some nb → e ∈ nb.2 → e.2 ≠ 8 →
  Delivery_Run E dl dl_warehouse ts carrier_id nodes = Ok pieces → ∀ qs t, exec pieces s0 qs t → qs ≠ [].
Proof.
  intros Hpart Hpin H0 Hi He Hne HR. unfold Delivery_Run in HR. rewrite Hpart, Hpin in HR. cbn [negb orb] in HR.
  assert (HR' : ∀ l acc, for_each (fun '(i, nb) ps => q ← Ok (flat_map (delivery_parts E dl ts carrier_id i) nb); Ok (ps ++ q)) l acc =
    Ok (acc ++ flat_map (fun x : Z * NodeBitmap => flat_map (delivery_parts E dl ts carrier_id x.1) x.2) l)).
  { induction l as [|[j b] l IH]; intros acc; cbn; [by rewrite app_nil_r|]. rewrite IH. by rewrite <- app_assoc. }
  rewrite HR' in HR. cbn [app] in HR. injection HR as <-.
  set (P := fun pc => ∀ s s', no_subscriber s → p_body pc s = Ok s' → no_subscriber s').
  set (ps := flat_map _ _). assert (Hkeep : ∀ pc, pc ∈ ps → P pc).
  { intros pc Hpc. apply list_elem_of_In, in_flat_map in Hpc as (x & _ & Hx). apply in_flat_map in Hx as (e' & _ & Hx). apply list_elem_of_In in Hx.
    intros s s' Hs Hb. by eapply parts_keep. }
  assert (Hstuck : ∃ pc, pc ∈ ps ∧ ∀ s s', no_subscriber s → p_body pc s ≠ Ok s').
  { eexists (mkPiece e.1 _ (fun s => '(sum, s) ← Wait nb.1 e.1 s; WriteCustomer dl nb.1 sum s)). split.
    - apply list_elem_of_In, in_flat_map. exists nb. split; [by apply list_elem_of_In; eapply list_elem_of_lookup_2|].
      apply in_flat_map. exists e. split; [by apply list_elem_of_In|]. destruct e as [node bitmap]. cbn [fst snd] in *. unfold delivery_parts.
      rewrite (proj2 (Z.eqb_neq bitmap 8)) by done. right. right. right. left. reflexivity.
    - intros s s' Hs. cbn [p_body]. unfold Wait. rewrite (Hs nb.1). done. }
  clearbody ps. intros qs t Hx. revert H0 Hkeep Hstuck. induction Hx as [ps s|l1 pc l2 s s' qs t Hb Hx IH]; intros H0 Hkeep (p0 & Hp0 & Hst).
  - intros ->. by apply elem_of_nil in Hp0.
  - apply IH; [by apply (Hkeep pc ltac:(set_solver) s)|intros; apply Hkeep; set_solver|]. exists p0. split; [|done].
    assert (p0 ≠ pc) by (intros ->; by apply (Hst s s' H0)). set_solver.
Qed.
