(* ===== verification/TpccProps.v ===== *)
(** Properties of the TPC-C inputs, and concrete transactions. *)

From S2P Require Import Prelude Bits EpochMem IndexOp IndexFacts IndexProps Tpcc TpccTxns TpccOrder TpccPayment TpccDelivery.

(** C23. Inputs of NewOrder are well formed for every seed: no assertion of the generator fails,
    although the ranges are computed in floating point; unless a retry loop is cut short,
    the order has its own warehouse on this node, 5 to 15 items that are all different, and
    every district, customer, item, supplier and quantity lies in its range. *)
Theorem new_order_input_wf cfg nr_nodes XXH32 fuel node s : cfg_ok cfg → seed_ok s →
  GenerateNewOrder cfg nr_nodes XXH32 fuel node s = Err Blocked ∨
  ∃ o s', GenerateNewOrder cfg nr_nodes XXH32 fuel node s = Ok (o, s') ∧ NewOrder_wf cfg nr_nodes XXH32 node o ∧ seed_ok s'.
Proof.
  intros Hc Hs. revert s Hs. change (generates (GenerateNewOrder cfg nr_nodes XXH32 fuel node) (NewOrder_wf cfg nr_nodes XXH32 node)).
  unfold GenerateNewOrder. eapply generates_bind; [by apply PickWarehouse_generates|]. intros w Hw.
  eapply generates_bind; [by apply returns_generates, PickDistrict_returns|]. intros d Hd.
  eapply generates_bind; [by apply returns_generates, GetCustomerId_returns|]. intros c Hcu.
  eapply generates_bind; [apply returns_generates, (RandomNumber_returns 5 kNewOrderMaxItems); [unfold kNewOrderMaxItems; lia|unfold kNewOrderMaxItems; lia|done]|].
  intros n Hn. eapply generates_mono; [apply gen_items_generates; [done|apply Hw|split; cbn; [constructor|constructor|constructor|constructor|done]]|].
  cbn. unfold kNewOrderMaxItems in *. intros o (Hwf & Hl & E1 & E2 & E3). split; [by rewrite E1|by rewrite E2|by rewrite E3|unfold kNewOrderMaxItems; lia|done].
Qed.

(** the same for payments *)
Record Payment_wf (cfg : Config) (nr_nodes : Z) (XXH32 : Z → Z) (node : Z) (p : PaymentStruct) : Prop := {
  pw_warehouse : owned cfg nr_nodes XXH32 node (p_warehouse_id p);
  pw_district : 1 ≤ p_district_id p ≤ districts_per_warehouse cfg;
  pw_customer_warehouse : 1 ≤ customer_warehouse_id p ≤ nr_warehouses cfg;
  pw_customer_district : 1 ≤ customer_district_id p ≤ districts_per_warehouse cfg;
  pw_amount : 100 ≤ payment_amount p ≤ 500000;
  pw_customer : 1 ≤ p_customer_id p ≤ customers_per_district cfg;
}.
Lemma payment_input_wf cfg nr_nodes XXH32 fuel node : cfg_ok cfg →
  generates (GeneratePayment cfg nr_nodes XXH32 fuel node) (Payment_wf cfg nr_nodes XXH32 node).
Proof.
  intros Hc. unfold GeneratePayment. eapply generates_bind; [by apply PickWarehouse_generates|]. intros w Hw.
  eapply generates_bind; [by apply returns_generates, PickDistrict_returns|]. intros d Hd.
  eapply generates_bind; [apply returns_generates, local_returns|]. intros local _.
  eapply generates_bind with (P := fun x => 1 ≤ x.1 ≤ nr_warehouses cfg ∧ 1 ≤ x.2 ≤ districts_per_warehouse cfg).
  { destruct local; [apply generates_ret; split; [apply Hw|exact Hd]|]. eapply generates_bind; [by apply RandomNumberExcept_generates|]. intros cw Hcw.
    eapply generates_bind; [by apply returns_generates, PickDistrict_returns|]. intros cd Hcd. by apply generates_ret. }
  intros [cw cd] [Hcw Hcd]. eapply generates_bind; [apply returns_generates, (RandomNumber_returns 100 500000); [lia|lia|done]|]. intros a Ha.
  eapply generates_bind; [by apply returns_generates, GetCustomerId_returns|]. intros c Hcu. by apply generates_ret.
Qed.

(** ** Witnesses *)

Lemma default_config_ok : cfg_ok default_config.
Proof. split; cbn; try lia; (split; [lia|done]). Qed.

Module TpccSamples.
Definition order : NewOrderStruct :=
  match GenerateNewOrder default_config 1 (fun _ => 0) 100 1 (FastRandom_new 0xdeadbeef) with Ok (o, _) => o | Err _ => mkNO 0 0 0 [] [] [] end.
Definition generated : bool :=
  match GenerateNewOrder default_config 1 (fun _ => 0) 100 1 (FastRandom_new 0xdeadbeef) with Ok (o, _) => 5 <=? len (item_id o) | Err _ => false end.

(** two nodes with a warehouse each; stocks of the first row of the order are contended *)
Definition sample_cfg (shard : bool) : Config := mkConfig true 100 2 10 100 0 500 shard.
Definition env (split shard : bool) : Env := mkEnv 1 (sample_cfg shard) 2 4 split false false false (fun r => if r =? 101 then 5 else -1) (fun _ => false) (fun a => a mod 4).
Definition no : NewOrderStruct := mkNO 1 1 1 [7; 8; 9; 10; 11] [1; 2; 1; 1; 2] [1; 2; 3; 4; 5].
Definition stock_row (node i : Z) : Z := 100 * node + i + 1.
Definition stocks0 : gmap Z StockValue := list_to_map (map (fun r => (r, mkStock 12 0 0 0)) [101; 202; 103; 104; 205; 900]).
Definition empty_db : DB := mkDB ∅ ∅ ∅ ∅ ∅ ∅ ∅.
Definition no_state : St := mkSt (set_warehouses (fun _ => {[50 := mkWarehouse 0 7]}) (set_stocks (fun _ => stocks0) empty_db)) ∅.

Lemma order_ready_sample : order_ready no stock_row 50 no_state (item_home (env true true) (fun _ => 0) no false).
Proof.
  assert (H : ∀ i, 0 ≤ i < 5 → i = 0 ∨ i = 1 ∨ i = 2 ∨ i = 3 ∨ i = 4) by lia. split; cbn [item_id no length].
  - vm_compute. discriminate.
  - done.
  - repeat constructor; vm_compute; discriminate.
  - intros i Hi. destruct (H i Hi) as [->|[->|[->|[->| ->]]]]; (split; [vm_compute; discriminate|eexists; vm_compute; reflexivity]).
  - intros i j Hi Hj. destruct (H i Hi) as [->|[->|[->|[->| ->]]]], (H j Hj) as [->|[->|[->|[->| ->]]]]; vm_compute; congruence.
  - eexists. vm_compute. reflexivity.
Qed.
Lemma items_wf_sample : items_wf (sample_cfg true) no.
Proof. split; cbn; [|apply (bool_decide_unpack _); by vm_compute| | |done]; repeat (apply Forall_cons; split; [lia|]); by apply Forall_nil. Qed.

(** a payment at warehouse 1 for a customer of warehouse 2 *)
Definition pay : PaymentStruct := mkPay 1 3 2 4 1000 9.
Definition pay_row (node id : Z) : Z := if (node =? 1) && (id <? 2) || (node =? 2) && (id =? 2) then 10 * node + id else 0.
Definition pay_db : DB := set_warehouses (fun _ => {[10 := mkWarehouse 500 7]}) (set_districts (fun _ => {[11 := mkDistrict 50]})
  (set_customers (fun _ => {[22 := mkCustomer 5000 0 1]}) empty_db)).
Definition pay_state : St := mkSt pay_db ∅.
Lemma payment_ready_sample : payment_ready (env false true) (fun _ => 0) pay pay_row pay_state (mkWarehouse 500 7) (mkDistrict 50) (mkCustomer 5000 0 1).
Proof.
  split; try (vm_compute; reflexivity); try (cbn; lia).
  split; [|by split_and!; vm_compute]. intros id Hid. assert (id = 0 ∨ id = 1 ∨ id = 2) as [->|[->| ->]] by lia; vm_compute; discriminate.
Qed.

(** a delivery in districts 1 and 3 *)
Definition dl (i : Z) : DistrictRows := mkRows [100 * i + 1; 100 * i + 2] (100 * i + 3) (100 * i + 4) (100 * i + 5).
Definition due : list Z := [0; 2].
Definition dl_db : DB :=
  mkDB ∅ ∅ ∅ (list_to_map (map (fun i => (100 * i + 4, mkCustomer 0 0 0)) due)) (list_to_map (map (fun i => (100 * i + 3, mkOOrder 1 0 2 true 9)) due))
    (list_to_map (map (fun r => (r, mkOrderLine 5 0 30 1 3)) [1; 2; 201; 202])) (list_to_set [5; 205; 777]).
Definition dl_state : St := mkSt dl_db ∅.
Definition dl_nodes : list NodeBitmap := map (fun i => if bool_decide (i ∈ due) then [(1, 31)] else []) (seqZ 0 10).
Lemma delivery_ready_sample : delivery_ready dl dl_state due.
Proof.
  assert (H : ∀ i, i ∈ due → i = 0 ∨ i = 2) by (intros i; unfold due; rewrite !elem_of_cons, elem_of_nil; tauto).
  assert (Hl : ∀ i r, r ∈ dl_lines (dl i) → r = 100 * i + 1 ∨ r = 100 * i + 2) by (intros i r; cbn; rewrite !elem_of_cons, elem_of_nil; tauto).
  split.
  - apply (bool_decide_unpack _). by vm_compute.
  - intros i Hi. split; [done|]. split.
    + destruct (H i Hi) as [->| ->]; apply (bool_decide_unpack _); by vm_compute.
    + intros r Hr. destruct (H i Hi) as [->| ->], (Hl _ _ Hr) as [->| ->]; eexists; vm_compute; reflexivity.
  - intros i j r Hi Hj H1 H2. destruct (H i Hi), (H j Hj), (Hl _ _ H1), (Hl _ _ H2); lia.
  - intros i Hi. destruct (H i Hi) as [->| ->]; eexists; vm_compute; reflexivity.
  - intros i Hi. destruct (H i Hi) as [->| ->]; (split; [vm_compute; discriminate|eexists; vm_compute; reflexivity]).
  - intros i Hi. destruct (H i Hi) as [->| ->]; (split; [vm_compute; discriminate|apply (bool_decide_unpack _); by vm_compute]).
  - intros i j _ _ Hne. cbn. lia.
Qed.
Lemma dl_nodes_sample : ∀ i nb, dl_nodes !! i = Some nb → if decide (Z.of_nat i ∈ due) then bits_ready 5 (fun _ => 1) nb else nb = [].
Proof.
  assert (Hb : bits_ready 5 (fun _ => 1) [(1, 31)]).
  { apply home_bits_ready; [apply NoDup_singleton|done|intros; by left|by intros e ->%list_elem_of_singleton; exists 0|].
    intros e i ->%list_elem_of_singleton Hi. cbn [fst snd]. change 31 with (Z.ones 5). destruct (Z.lt_ge_cases i 5).
    - rewrite Z.ones_spec_low by lia. naive_solver.
    - rewrite Z.ones_spec_high by lia. naive_solver lia. }
  intros i nb Hi. unfold dl_nodes in Hi. change (map ?f ?l) with (f <$> l) in Hi. rewrite list_lookup_fmap in Hi.
  destruct (seqZ 0 10 !! i) as [j|] eqn:Ej; [|done]. apply lookup_seqZ in Ej as [-> _]. cbn in Hi. injection Hi as <-. rewrite Z.add_0_l.
  destruct (decide (Z.of_nat i ∈ due)) as [Hin|Hn]; [by rewrite bool_decide_eq_true_2|by rewrite bool_decide_eq_false_2].
Qed.
End TpccSamples.

Lemma new_order_input_wf_witness : NewOrder_wf default_config 1 (fun _ => 0) 1 TpccSamples.order.
Proof.
  unfold TpccSamples.order.
  destruct (new_order_input_wf default_config 1 (fun _ => 0) 100 1 (FastRandom_new 0xdeadbeef) default_config_ok) as [E|(o & s' & E & Hw & _)].
  - split; apply Z.leb_le || apply Z.ltb_lt; reflexivity.
  - exfalso. assert (Ht : TpccSamples.generated = true) by (vm_compute; reflexivity). unfold TpccSamples.generated in Ht. rewrite E in Ht. discriminate Ht.
  - rewrite E. exact Hw.
Defined.

Lemma new_order_stocks_once_witness :
  ∃ nodes pieces, NewOrder_Prepare (TpccSamples.env true true) (fun _ => 0) false TpccSamples.no = Ok nodes ∧
    NewOrder_Run (TpccSamples.env true true) TpccSamples.stock_row 50 TpccSamples.no nodes = Ok pieces ∧
    completes pieces TpccSamples.no_state (fun t => stocks (db t) !! 101 = Some (mkStock 11 1 0 0) ∧ stocks (db t) !! 205 = Some (mkStock 98 5 0 1)).
Proof.
  destruct (new_order_stocks_once (TpccSamples.env true true) (fun _ => 0) TpccSamples.no false TpccSamples.stock_row 50 TpccSamples.no_state)
    as (nodes & pieces & E1 & E2 & Hc).
  - reflexivity.
  - discriminate.
  - cbn. lia.
  - cbn. unfold kNewOrderMaxItems. lia.
  - exact TpccSamples.items_wf_sample.
  - exact TpccSamples.order_ready_sample.
  - exists nodes, pieces. split; [exact E1|]. split; [exact E2|]. intros qs t Hx. destruct (Hc qs t Hx) as [[-> [Hi _]]|Hrun]; [left|by right].
    split; [done|]. split; [exact (Hi 0 ltac:(cbn; lia))|exact (Hi 4 ltac:(cbn; lia))].
Defined.

Lemma stock_groups_partition_witness : ∃ groups, stock_groups TpccSamples.no = Ok groups ∧ NoDup (map g_warehouse groups).
Proof.
  destruct (stock_groups_partition TpccSamples.no) as (groups & E & _ & Hn & _).
  - vm_compute. discriminate.
  - reflexivity.
  - cbn. repeat (apply Forall_cons; split; [lia|]). apply Forall_nil. exact I.
  - exists groups. split; [exact E|exact Hn].
Defined.



(** ** Payments that do not complete *)

(** Sharded by hash, the customer of warehouse 1 can lie on node 2; the tax is sent to the
    node of the customer's warehouse, and the piece of the customer waits for ever. *)
Lemma payment_hash_shard_blocks :
  ∃ (hash : list Z → Z) p pay_row s0 nodes pieces, Payment_Prepare (TpccSamples.env false false) hash false p = Ok nodes ∧
    Payment_Run (TpccSamples.env false false) pay_row p nodes = Ok pieces ∧ ¬ completes pieces s0 (fun _ => True).
Proof.
  set (hash := fun k : list Z => if len k =? 3 then 100 else 0). set (p := mkPay 1 3 1 3 1000 9).
  set (ps := match Payment_Run (TpccSamples.env false false) TpccSamples.pay_row p [(1, 3); (2, 4)] with Ok ps => ps | Err _ => [] end).
  exists hash, p, TpccSamples.pay_row, TpccSamples.pay_state, [(1, 3); (2, 4)], ps. split; [by vm_compute|]. split; [reflexivity|].
  set (d := mkPiece 0 0 Ok). set (q1 := nth 0 ps d). set (q2 := nth 1 ps d).
  set (t := match p_body q1 TpccSamples.pay_state with Ok t => t | Err _ => TpccSamples.pay_state end).
  intros Hc. destruct (Hc [q2] t) as [[? _]|(pc & t' & Hp & Eb)]; [|done|].
  - change ps with ([] ++ q1 :: [q2]). apply (exec_piece [] q1 [q2] _ t); [by vm_compute|]. apply exec_done.
  - apply list_elem_of_singleton in Hp. subst pc. assert (Eb' : p_body q2 t = Err Blocked) by by vm_compute. congruence.
Qed.

(** With on-demand splitting, [UpdateForKey] reads the customer row that another node holds *)
Lemma payment_split_null : Payment_Run (TpccSamples.env true true) TpccSamples.pay_row TpccSamples.pay [(1, 3); (2, 4)] = Err OutOfRange.
Proof. by vm_compute. Qed.
