(* ===== verification/TpccQueries.v ===== *)
(** The read-only TPC-C transactions StockLevel and OrderStatus (benchmark/tpcc). *)

From stdpp Require Import sorting.
From S2P Require Import Prelude Tpcc TpccTxns.

(** ** StockLevel *)

(** [StockLevelState]: [n], [items] and [item_ids], arrays of 300 *)
Record SLState := mkSL { sl_n : Z; sl_items : list Z; sl_ids : list Z }.
Definition kStockLevelItems : Z := 300.

Section StockLevel.
(** the index scan of order lines between two order ids of the district, as rows in the
    order of their keys; [skip] is [ShouldScanSkip]; the tables *)
Context (scan_lines : Z → Z → list Z) (skip : Z → bool) (kTpccReadOnlyDelayQuery : bool).
Context (d : DB) (stock_of : Z → Z) (current_oid threshold : Z).

(** [items.at(n++)] throws behind the end *)
Definition ScanOrderLineIndex (st : SLState) : result SLState :=
  let lower := Z.max (i32 (current_oid - Z.shiftl 20 8)) 0 in
  let upper := Z.max current_oid 0 in
  for_each (fun row st => if skip row then Ok st else
      if sl_n st <? kStockLevelItems then Ok (mkSL (sl_n st + 1) (sl_items st ++ [row]) (sl_ids st)) else Err OutOfRange)
    (scan_lines lower upper) (mkSL 0 [] (sl_ids st)).
Definition StockLevel_Prepare (st : SLState) : result SLState := if negb kTpccReadOnlyDelayQuery then ScanOrderLineIndex st else Ok st.
(** [Run] before the piece *)
Definition StockLevel_Run (st : SLState) : SLState := mkSL 0 (sl_items st) (sl_ids st).

(** the piece *)
Definition ScanOrderLine (st : SLState) : result SLState :=
  ids ← mapM (fun i => r ← nth_r (sl_items st) i; v ← row_value (order_lines d) r; Ok (u32 (ol_i_id v))) (seqZ 0 (sl_n st));
  Ok (mkSL (sl_n st) (sl_items st) (merge_sort Z.le ids)).
Fixpoint scan_stocks (ids : list Z) (last acc : Z) : result Z :=
  match ids with
  | [] => Ok acc
  | id :: ids =>
      if u32 last =? id then scan_stocks ids last acc else
      v ← row_value (stocks d) (stock_of id);
      scan_stocks ids id (if s_quantity v <? threshold then acc + 1 else acc)
  end.
Definition ScanStocks (st : SLState) : result Z := scan_stocks (take (Z.to_nat (sl_n st)) (sl_ids st)) (-1) 0.
Definition StockLevel_piece (st : SLState) : result Z :=
  st ← (if kTpccReadOnlyDelayQuery then ScanOrderLineIndex st else Ok st); st ← ScanOrderLine st; ScanStocks st.
Definition StockLevel (st : SLState) : result Z := st ← StockLevel_Prepare st; StockLevel_piece (StockLevel_Run st).
End StockLevel.

(** ** OrderStatus *)

Section OrderStatus.
(** the orders of the customer by the reverse iterator, as pairs of id and row; the order
    lines of an order *)
Context (customer_orders : list (Z * Z)) (order_rows : Z → list Z) (skip : Z → bool).

Fixpoint first_order (l : list (Z * Z)) : result Z :=
  match l with [] => Err Aborted | (oid, row) :: l => if skip row then first_order l else Ok oid end.
(** [ScanOrdersIndex]: the order id and the 15 row pointers *)
Definition ScanOrdersIndex : result (Z * list (option Z)) :=
  oid ← first_order customer_orders;
  let rows := take 15 (filter (fun r => skip r = false) (order_rows oid)) in
  Ok (oid, map Some rows ++ replicate (15 - length rows) None).
End OrderStatus.

(** ** Facts *)

Lemma scan_index_ok scan_lines skip oid st :
  let rows := filter (fun r => skip r = false) (scan_lines (Z.max (i32 (oid - Z.shiftl 20 8)) 0) (Z.max oid 0)) in
  len rows ≤ kStockLevelItems → ScanOrderLineIndex scan_lines skip oid st = Ok (mkSL (len rows) rows (sl_ids st)).
Proof.
  intros rows Hl. unfold ScanOrderLineIndex. set (l := scan_lines _ _) in *.
  destruct (for_each_inv (fun row st => if skip row then Ok st else
      if sl_n st <? kStockLevelItems then Ok (mkSL (sl_n st + 1) (sl_items st ++ [row]) (sl_ids st)) else Err OutOfRange)
    (fun dn st' => st' = mkSL (len (filter (fun r => skip r = false) dn)) (filter (fun r => skip r = false) dn) (sl_ids st)) l (mkSL 0 [] (sl_ids st))) as (s' & -> & ->); [done| |done].
  intros dn x r s' Hd ->. rewrite filter_app. destruct (skip x) eqn:Ex.
  - rewrite filter_cons_False, filter_nil, app_nil_r by congruence. by eexists.
  - rewrite filter_cons_True, filter_nil by done. cbn [sl_n sl_items sl_ids]. rewrite (proj2 (Z.ltb_lt _ _)).
    + eexists. split; [done|]. f_equal. rewrite length_app. cbn. lia.
    + unfold rows in Hl. rewrite Hd in Hl. change (x :: r) with ([x] ++ r) in Hl. rewrite !filter_app, (filter_cons_True _ x), filter_nil, !length_app in Hl by done. cbn in Hl. lia.
Qed.

(** the distinct items whose stock is low *)
Definition is_low (d : DB) (stock_of : Z → Z) (threshold id : Z) : bool :=
  match stocks d !! stock_of id with Some v => s_quantity v <? threshold | None => false end.
Definition low_items (d : DB) (stock_of : Z → Z) (threshold : Z) (ids : gset Z) : gset Z :=
  filter (fun id => is_low d stock_of threshold id = true) ids.

Lemma scan_stocks_ok d stock_of threshold ids : ∀ last acc, StronglySorted Z.le ids →
  (∀ id, id ∈ ids → 0 ≤ id < 2 ^ 31 ∧ is_Some (stocks d !! stock_of id)) → last = -1 ∨ (0 ≤ last < 2 ^ 31 ∧ ∀ id, id ∈ ids → last ≤ id) →
  scan_stocks d stock_of threshold ids last acc = Ok (acc + Z.of_nat (size (low_items d stock_of threshold (list_to_set ids ∖ {[last]})))).
Proof.
  induction ids as [|id ids IH]; intros last acc Hs Hid Hlast; cbn [scan_stocks].
  { f_equal. assert (low_items d stock_of threshold (list_to_set [] ∖ {[last]}) = ∅) as -> by (unfold low_items; set_solver). rewrite size_empty. lia. }
  inversion Hs as [|? ? Hs' Hle]; subst. rewrite Forall_forall in Hle. destruct (Hid id) as [Hr [v Hv]]; [left|].
  destruct (Z.eqb_spec (u32 last) id) as [He|Hne].
  - destruct Hlast as [->|[Hl1 Hl2]]; [exfalso; change (u32 (-1)) with (2 ^ 32 - 1) in He; lia|]. rewrite u32_id in He by lia. subst last.
    rewrite IH; [|done|intros; apply Hid; by right|right; split; [done|]; intros; apply Hl2; by right]. do 4 f_equal. set_solver.
  - assert (Hnl : last ≠ id) by (destruct Hlast as [->|[? _]]; [lia|]; intros ->; apply Hne, u32_id; lia).
    assert (Hnot : last ∉ ids).
    { intros Hin. destruct Hlast as [->|[? Hl]]; [destruct (Hid (-1)) as [? _]; [by right|lia]|]. specialize (Hle last Hin). specialize (Hl id ltac:(left)). lia. }
    unfold row_value. rewrite Hv. cbn [mbind result_bind].
    rewrite IH; [|done|intros; apply Hid; by right|right; split; [done|exact Hle]]. f_equal.
    assert (Hset : low_items d stock_of threshold (list_to_set (id :: ids) ∖ {[last]}) =
      (if s_quantity v <? threshold then {[id]} else ∅) ∪ low_items d stock_of threshold (list_to_set ids ∖ {[id]})).
    { apply set_eq. intros x. unfold low_items. rewrite elem_of_union, !elem_of_filter, !elem_of_difference, !elem_of_singleton. cbn [list_to_set].
      rewrite elem_of_union, elem_of_singleton, !elem_of_list_to_set. destruct (decide (x = id)) as [->|Hx].
      - unfold is_low. rewrite Hv. destruct (s_quantity v <? threshold); set_solver.
      - assert (Hxx : x ∉ (if s_quantity v <? threshold then {[id]} else ∅ : gset Z)) by (destruct (s_quantity v <? threshold); set_solver).
        split; [intros (Hlow & [->|Hin] & _); [done|]; right; tauto|]. intros [?|(Hlow & Hin & _)]; [done|]. split; [done|]. split; [by right|]. by intros ->. }
    rewrite Hset, size_union by (unfold low_items; destruct (s_quantity v <? threshold); set_solver). destruct (s_quantity v <? threshold).
    + rewrite size_singleton. lia.
    + rewrite size_empty. lia.
Qed.

(** StockLevel with delayed queries counts the distinct items of the visible order lines
    of the last twenty orders whose stock is below the threshold. *)
Theorem stock_level_counts scan_lines skip d stock_of oid threshold st :
  let rows := filter (fun r => skip r = false) (scan_lines (Z.max (i32 (oid - Z.shiftl 20 8)) 0) (Z.max oid 0)) in
  let item r := match order_lines d !! r with Some v => ol_i_id v | None => 0 end in
  len rows ≤ kStockLevelItems → (∀ r, r ∈ rows → is_Some (order_lines d !! r) ∧ 0 ≤ item r < 2 ^ 31 ∧ is_Some (stocks d !! stock_of (item r))) →
  StockLevel scan_lines skip true d stock_of oid threshold st =
    Ok (Z.of_nat (size (low_items d stock_of threshold (list_to_set (map item rows))))).
Proof.
  intros rows item Hl Hrows. unfold StockLevel, StockLevel_Prepare, StockLevel_piece. cbn [negb mbind result_bind].
  rewrite scan_index_ok by done. fold rows. cbn [mbind result_bind]. unfold ScanOrderLine. cbn [sl_n sl_items].
  assert (Hm : mapM (fun i => r ← nth_r rows i; v ← row_value (order_lines d) r; Ok (u32 (ol_i_id v))) (seqZ 0 (len rows)) = Ok (map item rows)).
  { assert (H : ∀ r dn, rows = dn ++ r → mapM (fun i => r ← nth_r rows i; v ← row_value (order_lines d) r; Ok (u32 (ol_i_id v))) (seqZ (len dn) (len r)) = Ok (map item r)); [|by apply (H rows [])].
    intros r. induction r as [|x r IH]; intros dn Hd; [done|]. assert (Hlen : len (x :: r) = 1 + len r) by (cbn [length]; lia). rewrite Hlen, seqZ_cons by lia. cbn [mapM].
    destruct (Hrows x) as ([v Hv] & Hr & _); [rewrite Hd; set_solver|]. rewrite (nth_r_in rows (len dn) x); [|lia|rewrite Hd, Nat2Z.id; by apply list_lookup_middle].
    cbn [mbind result_bind]. assert (Er : row_value (order_lines d) x = Ok v) by (unfold row_value; by rewrite Hv). rewrite Er. cbn [mbind result_bind]. specialize (IH (dn ++ [x])). rewrite length_app, Nat2Z.inj_add in IH. cbn [length] in IH.
    replace (Z.pred (1 + len r)) with (len r) by lia. replace (Z.succ (len dn)) with (len dn + Z.of_nat 1) by lia. rewrite IH by (rewrite Hd, <- app_assoc; done). cbn [mbind result_bind map].
    assert (item x = ol_i_id v) as Hi by (unfold item; by rewrite Hv). by rewrite Hi, u32_id by lia. }
  rewrite Hm. cbn [mbind result_bind]. unfold ScanStocks. cbn [sl_n sl_ids].
  assert (Hp : merge_sort Z.le (map item rows) ≡ₚ map item rows) by apply merge_sort_Permutation.
  rewrite take_ge by (rewrite (Permutation_length Hp), length_map; lia). rewrite scan_stocks_ok.
  - rewrite Z.add_0_l. do 3 f_equal. apply set_eq. intros x. unfold low_items. rewrite !elem_of_filter, elem_of_difference, !elem_of_list_to_set, Hp, elem_of_singleton.
    split; [tauto|]. intros [Hx Hin]. split; [done|]. split; [done|]. intros ->. change (map ?f ?l) with (f <$> l) in Hin. apply list_elem_of_fmap in Hin as (r & Hr & Hin).
    destruct (Hrows r Hin) as (_ & ? & _). lia.
  - apply StronglySorted_merge_sort; [intros ? ? ?; lia|]. intros x y. lia.
  - intros id Hid. rewrite Hp in Hid. change (map ?f ?l) with (f <$> l) in Hid. apply list_elem_of_fmap in Hid as (r & -> & Hin). destruct (Hrows r Hin) as (_ & ? & ?). done.
  - by left.
Qed.

(** Without delayed queries [Run] resets the count that the initialization filled in, and the
    query sees no order line at all. *)
Lemma stock_level_sees_nothing scan_lines skip d stock_of oid threshold st st' :
  ScanOrderLineIndex scan_lines skip oid st = Ok st' → StockLevel scan_lines skip false d stock_of oid threshold st = Ok 0.
Proof. intros E. unfold StockLevel, StockLevel_Prepare. cbn [negb]. by rewrite E. Qed.

(** OrderStatus reads the newest order that is visible *)
Lemma first_order_newest skip l oid : StronglySorted (fun a b => b.1 ≤ a.1) l → first_order skip l = Ok oid →
  ∃ row, (oid, row) ∈ l ∧ skip row = false ∧ ∀ o r, (o, r) ∈ l → skip r = false → o ≤ oid.
Proof.
  induction 1 as [|[o r] l Hs IH Hle]; cbn; [done|]. destruct (skip r) eqn:Er.
  - intros E. destruct (IH E) as (row & Hin & Hr & Hmax). exists row. split; [by right|]. split; [done|]. intros o' r' [[= -> ->]|Hin']%elem_of_cons Hr'; [congruence|by eapply Hmax].
  - intros [= ->]. exists r. split; [left|]. split; [done|]. intros o' r' [[= -> ->]|Hin']%elem_of_cons Hr'; [done|]. rewrite Forall_forall in Hle. exact (Hle _ Hin').
Qed.
