(* ===== verification/TpccLoad.v ===== *)
(** Loading the TPC-C tables (benchmark/tpcc/tpcc.cc [loaders], tpcc.h [DoOnSlice]): which
    core loads which row, the shuffle of the customers that have orders, the random strings and
    the values of the rows with their checks, and the order ids that Delivery starts from.
    The generator of random numbers has the full period, so that the retries end. *)

From S2P Require Import Prelude Bits SqlTypes Tpcc TpccTxns TpccKeys TpccOrder.

(** ** Ownership *)

(** [DoOnSlice] on core [core] of node [node] *)
Definition DoOnSlice (cfg : Config) (nr_nodes g_nr_threads node core slice : Z) : bool :=
  (SliceToNodeId cfg nr_nodes slice =? node) && (SliceToCoreId cfg nr_nodes g_nr_threads slice =? core).

(** ** Values *)

(** the random shuffle of the customer ids; [c_ids] may hold anything before *)
Definition put_customer (c j : Z) (ids : list Z) : result (list Z) :=
  ids ← (if j =? c - 1 then Ok ids else x ← load ids j; store ids (c - 1) x); store ids j c.
Definition shuffle_step (c : Z) (ids : list Z) : Gen (list Z) :=
  j ← RandomNumber 0 (c - 1); (fun s => l ← put_customer c j ids; Ok (l, s)) : Gen (list Z).
Fixpoint shuffle_from (cs : list Z) (ids : list Z) : Gen (list Z) :=
  match cs with [] => mret ids | c :: cs => ids ← shuffle_step c ids; shuffle_from cs ids end.
Definition shuffle_customers (n : Z) (ids : list Z) : Gen (list Z) := shuffle_from (seqZ 1 n) ids.

Definition load_stock : Gen StockValue := q ← RandomNumber 10 100; mret (mkStock q 0 0 0).
(** an order of customer number [c]; its id is [c << 8] *)
Definition order_key (c : Z) : Z := u32 (Z.shiftl c 8).
Definition load_order (c customer ol_cnt ts_now : Z) : Gen OOrderValue :=
  carrier ← (if Z.shiftr (order_key c) 8 <? 2101 then RandomNumber 1 10 else mret 0);
  mret (mkOOrder customer carrier (u8 ol_cnt) true (u32 ts_now)).
Definition load_order_line (c w ts_now : Z) : Gen OrderLineValue :=
  i ← RandomNumber 1 100000;
  if order_key c <? 2101 then mret (mkOrderLine i (u32 ts_now) 0 w 5) else
  a ← RandomNumber 1 999999; mret (mkOrderLine i 0 a w 5).

(** [ClientBase::AcquireLastNewOrderId]: the counters of the node start at 2101 *)
Definition last_no_start : Z := 2101.
Definition AcquireLastNewOrderId (cfg : Config) (node_id w d : Z) (counters : list Z) : result (Z * list Z) :=
  _ ← abort_if (negb (shard_by_warehouse cfg));
  let idx := (w - 1) * districts_per_warehouse cfg + d - 1 in
  n ← load counters idx; counters ← store counters idx (u64 (n + 1));
  Ok (u32 (Z.lor (u64 (Z.shiftl n 8)) node_id), counters).

(** ** Strings *)

Definition lift {A} (r : result A) : Gen A := fun s => a ← r; Ok (a, s).
(** [FastRandom::next_char], as an unsigned number, and [FastRandom::next] *)
Definition next_char : Gen Z := fun s => let '(c, s) := next_bits 8 s in Ok (c mod 256, s).
Definition next_ulong : Gen Z := fun s =>
  let '(hi, s) := next_bits 32 s in let '(lo, s) := next_bits 32 s in Ok (u64 (Z.shiftl hi 32 + lo), s).
Definition isalnum (c : Z) : bool := (48 <=? c) && (c <=? 57) || (65 <=? c) && (c <=? 90) || (97 <=? c) && (c <=? 122).
Fixpoint chars (n : nat) (g : Gen Z) : Gen (list Z) := match n with O => mret [] | S n => c ← g; l ← chars n g; mret (c :: l) end.
(** [ClientBase::RandomStr]: a string of [len - 1] characters; [ClientBase::RandomNStr] *)
Definition RandomStr (fuel : nat) (n : Z) : Gen (list Z) :=
  if n =? 0 then mret [] else chars (Z.to_nat (n - 1)) (repeat_until fuel isalnum next_char).
Definition RandomNStr (n : Z) : Gen (list Z) := chars (Z.to_nat n) (x ← next_ulong; mret (48 + x mod 10)).
Definition random_str (fuel : nat) (min max : Z) : Gen (list Z) := n ← RandomNumber min max; RandomStr fuel n.

(** the tokens of last names: BAR, OUGHT, ABLE, PRI, PRES, ESE, ANTI, CALLY, ATION, EING *)
Definition NameTokens : list (list Z) :=
  [[66; 65; 82]; [79; 85; 71; 72; 84]; [65; 66; 76; 69]; [80; 82; 73]; [80; 82; 69; 83]; [69; 83; 69]; [65; 78; 84; 73];
   [67; 65; 76; 76; 89]; [65; 84; 73; 79; 78]; [69; 73; 78; 71]].
Definition GetCustomerLastName (num : Z) : result (list Z) :=
  s0 ← nth_r NameTokens (num / 100); s1 ← nth_r NameTokens ((num / 10) mod 10); s2 ← nth_r NameTokens (num mod 10); Ok (s0 ++ s1 ++ s2).
Definition GetNonUniformCustomerLastNameLoad : Gen (list Z) := num ← NonUniformRandom 255 157 0 999; lift (GetCustomerLastName num).

(** [assign] to a column [inline_str<N>] (its characters) and to [Char<N>] *)
Definition str_column (N : Z) (s : list Z) : Gen (list Z) := lift (p ← str_assign N (mkStr 0 (replicate (Z.to_nat (N + 1)) 0)) s; Ok (str_data p)).
Definition char_column (N : Z) (s : list Z) : Gen (list Z) := lift (Char_assign N 32 s).
Definition zip_code : list Z := [49; 50; 51; 52; 53; 54; 55; 56; 57].

(** ** The rows of warehouses, items, districts and customers *)

Record WarehouseRow := mkWRow { wr_ytd : Z; wr_tax : Z; wr_name : list Z; wr_street_1 : list Z; wr_street_2 : list Z; wr_city : list Z; wr_state : list Z; wr_zip : list Z }.
Record ItemRow := mkIRow { i_name : list Z; i_price : Z; i_data : list Z; i_im_id : Z }.
Record DistrictRow := mkDRow { dr_ytd : Z; dr_tax : Z; dr_next_o_id : Z; dr_name : list Z; dr_street_1 : list Z; dr_street_2 : list Z; dr_city : list Z; dr_state : list Z; dr_zip : list Z }.
Record CustomerRow := mkCRow { cr_balance : Z; cr_ytd_payment : Z; cr_payment_cnt : Z; cr_delivery_cnt : Z; cr_discount : Z; cr_credit_lim : Z; cr_credit : list Z }.
Record CustomerInfoRow := mkCIRow {
  c_last : list Z; c_first : list Z; c_street_1 : list Z; c_street_2 : list Z; c_city : list Z; c_state : list Z; c_zip : list Z; c_phone : list Z; c_since : Z; c_middle : list Z; c_data : list Z }.

Section Loaders.
Context (cfg : Config) (fuel : nat).

(** an [assert] of [Checker] *)
Definition sanity (b : bool) : Gen unit := lift (abort_if (negb b)).
Definition between (lo v hi : Z) : bool := (lo <=? v) && (v <=? hi).
Definition SanityCheckWarehouse (w : Z) (v : WarehouseRow) : Gen unit :=
  sanity (between 1 w (nr_warehouses cfg) && (len (wr_state v) =? 2) && bool_decide (wr_zip v = zip_code)).
Definition SanityCheckItem (i : Z) (v : ItemRow) : Gen unit := sanity (between 1 i (nr_items cfg) && between 100 (i_price v) 10000).
Definition SanityCheckDistrict (w d : Z) (v : DistrictRow) : Gen unit :=
  sanity (between 1 w (nr_warehouses cfg) && between 1 d (districts_per_warehouse cfg) && (3001 <=? dr_next_o_id v) &&
    (len (dr_state v) =? 2) && bool_decide (dr_zip v = zip_code)).
Definition SanityCheckCustomer (w d c : Z) (v : CustomerRow) : Gen unit :=
  sanity (between 1 w (nr_warehouses cfg) && between 1 d (districts_per_warehouse cfg) && between 1 c (customers_per_district cfg) &&
    (bool_decide (cr_credit v = [66; 67]) || bool_decide (cr_credit v = [71; 67]))).

Definition load_warehouse (w : Z) : Gen WarehouseRow :=
  name ← random_str fuel 6 10; street_1 ← random_str fuel 10 20; street_2 ← random_str fuel 10 20; city ← random_str fuel 10 20;
  state ← RandomStr fuel 3;
  tax ← RandomNumber 0 2000;
  name ← str_column 10 name; street_1 ← str_column 20 street_1; street_2 ← str_column 20 street_2; city ← str_column 20 city;
  state ← char_column 2 state; zip ← char_column 9 zip_code;
  let v := mkWRow 30000000 (Z.quot tax 100) name street_1 street_2 city state zip in
  _ ← SanityCheckWarehouse w v; mret v.

(** the two random parts in the order in which they are written *)
Definition item_data (n : Z) : Gen (list Z) :=
  x ← RandomNumber 1 100;
  if 10 <? x then RandomStr fuel n else
  start ← RandomNumber 2 (n - 8);
  a ← RandomStr fuel (start + 1); b ← RandomStr fuel (n - start - 7);
  mret (a ++ [79; 82; 73; 71; 73; 78; 65; 76] ++ b).
Definition load_item (i : Z) : Gen ItemRow :=
  name ← random_str fuel 14 24; name ← str_column 24 name;
  price ← RandomNumber 100 10000;
  n ← RandomNumber 26 50; data ← item_data n; data ← str_column 50 data;
  im ← RandomNumber 1 10000;
  let v := mkIRow name price data im in
  _ ← SanityCheckItem i v; mret v.

Definition load_district (w d : Z) : Gen DistrictRow :=
  tax ← RandomNumber 0 2000;
  name ← random_str fuel 6 10; name ← str_column 10 name;
  street_1 ← random_str fuel 10 20; street_1 ← str_column 20 street_1;
  street_2 ← random_str fuel 10 20; street_2 ← str_column 20 street_2;
  city ← random_str fuel 10 20; city ← str_column 20 city;
  state ← RandomStr fuel 3; state ← char_column 2 state; zip ← char_column 9 zip_code;
  let v := mkDRow 3000000 (Z.quot tax 100) 3001 name street_1 street_2 city state zip in
  _ ← SanityCheckDistrict w d v; mret v.

(** [since] is the time of [GetCurrentTime] *)
Definition load_customer (since w d c : Z) : Gen (CustomerRow * CustomerInfoRow) :=
  discount ← RandomNumber 1 5000;
  x ← RandomNumber 1 100;
  credit ← char_column 2 (if x <=? 10 then [66; 67] else [71; 67]);
  name ← (if c <=? 1000 then lift (GetCustomerLastName (c - 1)) else GetNonUniformCustomerLastNameLoad); name ← str_column 16 name;
  first ← random_str fuel 8 16; first ← str_column 16 first;
  street_1 ← random_str fuel 10 20; street_1 ← str_column 20 street_1;
  street_2 ← random_str fuel 10 20; street_2 ← str_column 20 street_2;
  city ← random_str fuel 10 20; city ← str_column 20 city;
  state ← RandomStr fuel 3; state ← char_column 2 state;
  z ← RandomNStr 4; zip ← char_column 9 (z ++ [49; 49; 49; 49; 49]);
  phone ← RandomNStr 16; phone ← char_column 16 phone;
  middle ← char_column 2 [79; 69];
  data ← random_str fuel 300 500; data ← str_column 500 data;
  let v := mkCRow (-1000) 1000 1 0 (Z.quot discount 100) 50000 credit in
  _ ← SanityCheckCustomer w d c v;
  mret (v, mkCIRow name first street_1 street_2 city state zip phone since middle data).

(** the rows of stocks and orders with their checks *)
Definition SanityCheckStock (w i : Z) : Gen unit := sanity (between 1 w (nr_warehouses cfg) && between 1 i (nr_items cfg)).
Definition SanityCheckNewOrder (w d : Z) : Gen unit := sanity (between 1 w (nr_warehouses cfg) && between 1 d (districts_per_warehouse cfg)).
Definition SanityCheckOOrder (w d : Z) (v : OOrderValue) : Gen unit :=
  sanity (between 1 w (nr_warehouses cfg) && between 1 d (districts_per_warehouse cfg) && between 1 (o_c_id v) (customers_per_district cfg) &&
    between 0 (o_carrier_id v) (districts_per_warehouse cfg) && between 5 (o_ol_cnt v) 15).
Definition SanityCheckOrderLine (w d l : Z) (v : OrderLineValue) : Gen unit :=
  sanity (between 1 w (nr_warehouses cfg) && between 1 d (districts_per_warehouse cfg) && between 1 l 15 && between 1 (ol_i_id v) (nr_items cfg)).
Definition load_stock_row (w i : Z) : Gen StockValue := v ← load_stock; _ ← SanityCheckStock w i; mret v.
(** [ts_now] and [ol_cnt] of order [c] *)
Definition order_ts (w d c : Z) : Z := w * customers_per_district cfg * districts_per_warehouse cfg + d * customers_per_district cfg + c.
Definition order_ol_cnt (w d c : Z) : Z := order_ts w d c mod 11 + 5.
Definition load_order_row (w d c customer : Z) : Gen OOrderValue :=
  v ← load_order c customer (order_ol_cnt w d c) (order_ts w d c); _ ← SanityCheckOOrder w d v; mret v.
Definition load_order_line_row (w d c l : Z) : Gen OrderLineValue :=
  v ← load_order_line c w (order_ts w d c); _ ← SanityCheckOrderLine w d l v; mret v.
(** the core that loads an item *)
Definition item_core (g_nr_threads i : Z) : Z := (i - 1) * g_nr_threads / nr_items cfg.
End Loaders.

(** ** Ownership: every row is loaded once *)

Lemma SliceToCoreId_range cfg nr_nodes t s : 0 < t → 0 ≤ SliceToCoreId cfg nr_nodes t s < t.
Proof. intros Ht. apply Z.mod_pos_bound. done. Qed.

(** Each row of a table is loaded by exactly one core of one node. *)
Lemma load_once cfg nr_nodes t s : 0 < nr_nodes → 0 < t → max_slice_id cfg ≤ 2 ^ 15 → 0 ≤ s < max_slice_id cfg →
  ∃ node core, 1 ≤ node ≤ nr_nodes ∧ 0 ≤ core < t ∧ ∀ n c, DoOnSlice cfg nr_nodes t n c s = true ↔ n = node ∧ c = core.
Proof.
  intros Hn Ht Hm Hs. exists (SliceToNodeId cfg nr_nodes s), (SliceToCoreId cfg nr_nodes t s). split; [by apply SliceToNodeId_range|].
  split; [by apply SliceToCoreId_range|]. intros n c. unfold DoOnSlice. rewrite andb_true_iff, !Z.eqb_eq. naive_solver.
Qed.

(** If warehouses can be pinned, every core gets the same number of consecutive warehouses:
    core [c] of node [m] those numbered from [((m - 1) * threads + c) * k] on. *)
Theorem pinned_balanced cfg nr_nodes t s node core :
  0 < nr_nodes → 0 < t → nr_nodes * t < 2 ^ 16 → shard_by_warehouse cfg = true → IsWarehousePinnable cfg nr_nodes t = true →
  0 ≤ s < nr_warehouses cfg → nr_warehouses cfg ≤ 2 ^ 15 → 1 ≤ node ≤ nr_nodes → 0 ≤ core < t →
  let k := nr_warehouses cfg / (nr_nodes * t) in
  DoOnSlice cfg nr_nodes t node core s = true ↔ ((node - 1) * t + core) * k ≤ s < ((node - 1) * t + core + 1) * k.
Proof.
  intros Hn Ht Hnt Hsh Hpin Hs H15 Hnode Hcore k. unfold IsWarehousePinnable in Hpin. apply Z.eqb_eq in Hpin.
  assert (Hw : nr_warehouses cfg = k * (nr_nodes * t)) by (unfold k; pose proof (Z.div_mod (nr_warehouses cfg) (nr_nodes * t)); nia).
  clearbody k. assert (Hk : 0 < k) by nia.
  assert (Hmax : max_slice_id cfg = k * (nr_nodes * t)) by (unfold max_slice_id; by rewrite Hsh).
  assert (E1 : SliceToNodeId cfg nr_nodes s = 1 + s / k / t).
  { unfold SliceToNodeId. rewrite i16_id, Hmax, Z.div_div by lia. f_equal. replace (k * (nr_nodes * t)) with (k * t * nr_nodes) by lia. apply Z.div_mul_cancel_r; nia. }
  assert (Hb : 0 ≤ s / k < nr_nodes * t) by (split; [apply Z.div_pos; lia|apply Z.div_lt_upper_bound; nia]).
  assert (E2 : SliceToCoreId cfg nr_nodes t s = (s / k) mod t).
  { unfold SliceToCoreId. rewrite i16_id, Hmax by lia. replace (s * nr_nodes * t) with (s * (nr_nodes * t)) by lia. rewrite Z.div_mul_cancel_r by nia. f_equal. apply Z.mod_small. lia. }
  unfold DoOnSlice. rewrite E1, E2, andb_true_iff, !Z.eqb_eq. set (q := s / k) in *.
  assert (Hq : (node - 1) * t + core = q ↔ ((node - 1) * t + core) * k ≤ s < ((node - 1) * t + core + 1) * k).
  { pose proof (Z.div_mod s k ltac:(lia)) as Hd. pose proof (Z.mod_pos_bound s k Hk). fold q in Hd. split; [intros ->; nia|]. intros Hr. nia. }
  rewrite <- Hq. pose proof (Z.div_mod q t ltac:(lia)). pose proof (Z.mod_pos_bound q t Ht). split; [intros [? ?]; nia|]. intros Hc.
  assert (q / t = node - 1) by (symmetry; apply (Z.div_unique_pos _ _ _ core); lia). lia.
Qed.

(** the cores of a node share the items *)
Lemma item_core_range cfg t i : 0 < t → 1 ≤ i ≤ nr_items cfg → 0 ≤ item_core cfg t i < t.
Proof. intros Ht Hi. unfold item_core. split; [apply Z.div_pos; nia|apply Z.div_lt_upper_bound; nia]. Qed.

(** ** The shuffle *)

Lemma seqZ_snoc m : 0 ≤ m → seqZ 1 (m + 1) = seqZ 1 m ++ [m + 1].
Proof.
  intros Hm. rewrite seqZ_app by lia. rewrite (seqZ_cons (1 + m)), (seqZ_nil (Z.succ (1 + m))) by lia. by replace (1 + m) with (m + 1) by lia.
Qed.
Lemma put_customer_ok n m j ids : 0 ≤ j ≤ m → m < n → len ids = n → take (Z.to_nat m) ids ≡ₚ seqZ 1 m →
  ∃ l, put_customer (m + 1) j ids = Ok l ∧ len l = n ∧ take (Z.to_nat (m + 1)) l ≡ₚ seqZ 1 (m + 1).
Proof.
  intros Hj Hm Hl Hp. unfold put_customer. replace (m + 1 - 1) with m by lia.
  assert (Hgoal := seqZ_snoc m ltac:(lia)).
  replace (Z.to_nat (m + 1)) with (S (Z.to_nat m)) by lia. rewrite Hgoal. destruct (Z.eqb_spec j m) as [->|Hne]; cbn [mbind result_bind].
  - rewrite store_in by lia. eexists. split; [done|]. split; [by rewrite length_insert|].
    rewrite (take_S_r _ _ (m + 1)) by (apply list_lookup_insert_eq; lia). rewrite take_insert_ge by lia. by rewrite Hp.
  - rewrite load_in by lia. cbn [mbind result_bind]. rewrite store_in by lia. cbn [mbind result_bind]. rewrite store_in by (rewrite length_insert; lia).
    eexists. split; [done|]. split; [by rewrite !length_insert|]. rewrite (take_S_r _ _ (ids.[j])).
    2: { rewrite list_lookup_insert_ne by lia. apply list_lookup_insert_eq. lia. }
    rewrite take_insert_lt, take_insert_ge by lia. rewrite <- Hp.
    assert (Hx : take (Z.to_nat m) ids !! Z.to_nat j = Some (ids.[j])) by (rewrite lookup_take_lt by lia; apply lookup_at; lia).
    rewrite insert_take_drop by (apply lookup_lt_Some in Hx; done).
    etransitivity; [|apply Permutation_app_tail, reflexive_eq, (take_drop_middle _ _ _ Hx)]. rewrite <- !app_assoc. apply Permutation_app_head.
    cbn [app]. rewrite <- !Permutation_cons_append. apply Permutation_swap.
Qed.

(** The shuffle of the customers of a district returns a permutation of their ids for
    every seed, so that every customer has exactly one of the orders that are loaded. *)
Theorem shuffle_permutes n ids s : 0 ≤ n < 2 ^ 31 - 1 → len ids = n → seed_ok s →
  ∃ l s', shuffle_customers n ids s = Ok (l, s') ∧ l ≡ₚ seqZ 1 n ∧ seed_ok s'.
Proof.
  intros Hn Hl Hs. unfold shuffle_customers.
  assert (H : ∀ cs m ids, seqZ 1 n = seqZ 1 m ++ cs → 0 ≤ m → m + len cs = n → len ids = n → take (Z.to_nat m) ids ≡ₚ seqZ 1 m →
    returns (shuffle_from cs ids) (fun l => l ≡ₚ seqZ 1 n)).
  { intros cs. induction cs as [|c cs IH]; intros m l Hsplit Hm Hlen Hll Hp; cbn [shuffle_from].
    - cbn in Hlen. apply returns_ret. assert (m = n) as -> by lia. by rewrite take_ge in Hp by lia.
    - cbn [length] in Hlen. assert (c = m + 1) as ->.
      { assert (Hc : seqZ 1 n !! Z.to_nat m = Some c) by (rewrite Hsplit; rewrite lookup_app_r by (rewrite length_seqZ; lia); by rewrite length_seqZ, Nat.sub_diag).
        apply lookup_seqZ in Hc as [-> _]. lia. }
      eapply returns_bind with (P := fun l' => len l' = n ∧ take (Z.to_nat (m + 1)) l' ≡ₚ seqZ 1 (m + 1)).
      + unfold shuffle_step. eapply returns_bind; [apply (RandomNumber_returns 0 (m + 1 - 1)); [lia|lia|done]|]. intros j Hj s1 Hs1.
        cbn in Hj. destruct (put_customer_ok n m j l) as (l' & E & H'); [lia|lia|done|done|]. exists l', s1. split; [by rewrite E|done].
      + intros l' [Hl' Hp']. apply (IH (m + 1)); [|lia|lia|done|done]. rewrite Hsplit, seqZ_snoc, <- app_assoc by lia. done. }
  destruct (H (seqZ 1 n) 0 ids) with (s := s) as (l & s' & E & Hl' & Hs'); try done; [rewrite length_seqZ; lia|]. by exists l, s'.
Qed.

(** ** Ids of loaded orders *)

(** the lines of every order from the ninth on have no delivery date, delivered or not *)
Lemma loaded_line_undelivered c w ts_now : 9 ≤ c < 2 ^ 24 → returns (load_order_line c w ts_now) (fun v => ol_delivery_d v = 0 ∧ 1 ≤ ol_amount v ≤ 999999).
Proof.
  intros Hc. unfold load_order_line, order_key. eapply returns_bind; [apply (RandomNumber_returns 1 100000); [lia|lia|done]|]. intros i _. rewrite Z.shiftl_mul_pow2 by lia.
  rewrite u32_id by lia. rewrite (proj2 (Z.ltb_ge _ 2101)) by lia. eapply returns_bind; [apply (RandomNumber_returns 1 999999); [lia|lia|done]|].
  intros a Ha. by apply returns_ret.
Qed.
(** the first id that Delivery asks for lies behind the loaded order 2101 *)
Lemma delivery_skips_2101 cfg node_id w d counters : 1 ≤ node_id < 256 → shard_by_warehouse cfg = true →
  load counters ((w - 1) * districts_per_warehouse cfg + d - 1) = Ok last_no_start →
  ∃ id counters', AcquireLastNewOrderId cfg node_id w d counters = Ok (id, counters') ∧ order_key 2101 < id.
Proof.
  intros Hn Hs Hl. unfold AcquireLastNewOrderId. rewrite Hs, Hl. cbn [negb abort_if mbind result_bind]. apply load_ok in Hl as [Hi _].
  rewrite store_in by done. cbn [mbind result_bind]. eexists _, _. split; [done|]. unfold last_no_start, order_key.
  change (u64 (Z.shiftl 2101 8)) with (Z.shiftl 2101 8). rewrite Z.lor_comm, (lor_disjoint node_id 2101 8), (u32_id (node_id + _)) by lia. change (u32 (Z.shiftl 2101 8)) with 537856. lia.
Qed.

(** ** The random generator runs through all its states *)

(** [next_seed] before it is taken modulo [2 ^ 48] *)
Definition lcg (s : Z) : Z := s * 25214903917 + 11.

Lemma lcg_power j : ∃ A C q r, (∀ s, Nat.iter (2 ^ j) lcg s = A * s + C) ∧ A = 1 + 2 ^ (Z.of_nat j + 2) * q ∧ C = 2 ^ Z.of_nat j * (1 + 2 * r).
Proof.
  induction j as [|j (A & C & q & r & Hi & HA & HC)].
  - exists 25214903917, 11, 6303725979, 5. split_and!; [|done|done]. intros s. cbn. unfold lcg. lia.
  - exists (A * A), (A * C + C), (q + 2 ^ (Z.of_nat j + 1) * (q * q)), (r + 2 ^ Z.of_nat j * q + 2 ^ (Z.of_nat j + 1) * q * r). split_and!.
    + intros s. rewrite Nat.pow_succ_r', Nat.mul_succ_l, Nat.mul_1_l, Nat.iter_add, !Hi. lia.
    + rewrite HA. replace (Z.of_nat (S j) + 2) with (Z.of_nat j + 2 + 1) by lia. rewrite !Z.pow_add_r by lia. change (2 ^ 1) with 2. change (2 ^ 2) with 4. ring.
    + rewrite HA, HC. replace (Z.of_nat (S j)) with (Z.of_nat j + 1) by lia. rewrite !Z.pow_add_r by lia. change (2 ^ 1) with 2. change (2 ^ 2) with 4. ring.
Qed.

Lemma lcg_reaches k x y : ∃ n, Z.of_nat n < 2 ^ Z.of_nat k ∧ (2 ^ Z.of_nat k | Nat.iter n lcg x - y).
Proof.
  induction k as [|k (n & Hn & e & He)]; [exists 0%nat; split; [done|exists (x - y); cbn; lia]|].
  replace (Z.of_nat (S k)) with (Z.of_nat k + 1) by lia. rewrite Z.pow_add_r by lia. change (2 ^ 1) with 2.
  destruct (Z.Even_or_Odd e) as [[f Hf]|[f Hf]].
  - exists n. split; [lia|]. exists f. rewrite He, Hf. ring.
  - destruct (lcg_power k) as (A & C & q & r & Hi & HA & HC). exists (2 ^ k + n)%nat. split; [rewrite Nat2Z.inj_add, Nat2Z.inj_pow; lia|].
    exists (f + 1 + r + 2 * (q * Nat.iter n lcg x)). rewrite Nat.iter_add, Hi, HA, HC, Z.pow_add_r by lia. change (2 ^ 2) with 4.
    replace (Nat.iter n lcg x) with (y + e * 2 ^ Z.of_nat k) at 1 by lia. rewrite Hf. replace (Nat.iter n lcg x) with (y + (2 * f + 1) * 2 ^ Z.of_nat k) by lia. ring.
Qed.

Lemma iter_next_seed n s : seed_ok s → Nat.iter n next_seed s = Nat.iter n lcg s mod 2 ^ 48.
Proof.
  intros Hs. induction n as [|n IH]; [symmetry; by apply Z.mod_small|]. change (Nat.iter (S n) ?f s) with (f (Nat.iter n f s)).
  rewrite IH. unfold next_seed at 1, lcg at 2. rewrite <- Z.add_mod_idemp_l, Z.mul_mod_idemp_l, Z.add_mod_idemp_l by lia. done.
Qed.

(** The generator has the full period: from every seed it reaches every other within [2 ^ 48]
    steps. *)
Lemma lcg_full_period x y : seed_ok x → seed_ok y → ∃ n, Z.of_nat n < 2 ^ 48 ∧ Nat.iter n next_seed x = y.
Proof.
  intros Hx Hy. destruct (lcg_reaches 48 x y) as (n & Hn & e & He). exists n. split; [exact Hn|]. rewrite iter_next_seed by done.
  change (Z.of_nat 48) with 48 in He. replace (Nat.iter n lcg x) with (y + e * 2 ^ 48) by lia. rewrite Z.mod_add by lia. by apply Z.mod_small.
Qed.

(** ** Ranges of random numbers *)

Lemma lcg_far s1 s2 z : 2 ^ 48 - 2 ^ 22 ≤ s1 < 2 ^ 48 → 2 ^ 48 - 35 * 2 ^ 21 ≤ s2 < 2 ^ 48 →
  s1 * 25214903917 + 11 = s2 + 2 ^ 48 * z → False.
Proof. lia. Qed.
(** no seed gives one of the 35 largest numbers below 1 *)
Lemma uniform_far s : ∃ u, next_uniform s = (u, next_seed (next_seed s)) ∧ 0 ≤ u ≤ 2 ^ 53 - 36.
Proof.
  unfold next_uniform. rewrite next_bits_eq by lia. set (s1 := next_seed s). rewrite next_bits_eq by lia. set (s2 := next_seed s1).
  eexists. split; [done|]. pose proof (next_seed_range s : 0 ≤ s1 < _) as H1. pose proof (next_seed_range s1 : 0 ≤ s2 < _) as H2.
  rewrite Z.shiftl_mul_pow2 by lia. change (48 - 26) with 22. change (48 - 27) with 21.
  pose proof (lcg_far s1 s2 ((s1 * 25214903917 + 11) / 2 ^ 48)) as Hn.
  assert (Hd : s1 * 25214903917 + 11 = s2 + 2 ^ 48 * ((s1 * 25214903917 + 11) / 2 ^ 48)).
  { unfold s2, next_seed. pose proof (Z.div_mod (s1 * 25214903917 + 11) (2 ^ 48)). lia. }
  clearbody s1 s2. pose proof (Z.div_mod s1 (2 ^ 22)). pose proof (Z.mod_pos_bound s1 (2 ^ 22)).
  pose proof (Z.div_mod s2 (2 ^ 21)). pose proof (Z.mod_pos_bound s2 (2 ^ 21)). split; [lia|].
  destruct (Z.lt_ge_cases s1 (2 ^ 48 - 2 ^ 22)); [lia|]. destruct (Z.lt_ge_cases s2 (2 ^ 48 - 35 * 2 ^ 21)); [lia|]. destruct (Hn ltac:(lia) ltac:(lia) Hd).
Qed.

(** rounding to 53 bits is off by half a unit at most *)
Lemma round53_error x j : 0 ≤ x < 2 ^ (53 + j) → 0 ≤ j → 2 * round53 x ≤ 2 * x + 2 ^ j.
Proof.
  intros Hx Hj. assert (Hp : 0 < 2 ^ j) by (apply Z.pow_pos_nonneg; lia). unfold round53. case_match eqn:E; [lia|]. apply Z.leb_gt in E. set (e := Z.log2 x - 52) in *.
  assert (Hx0 : 0 < x) by (destruct (Z.eq_dec x 0) as [->|]; [unfold e in E; cbn in E; lia|lia]).
  assert (Hlog : Z.log2 x < 53 + j) by (apply Z.log2_lt_pow2; lia). assert (He : 2 ^ e ≤ 2 ^ j) by (apply Z.pow_le_mono_r; lia).
  assert (Hpe : 0 < 2 ^ e) by (apply Z.pow_pos_nonneg; lia). pose proof (Z.div_mod x (2 ^ e)). pose proof (Z.mod_pos_bound x (2 ^ e) Hpe).
  case_match eqn:Eb; [|nia]. apply orb_true_iff in Eb as [Hb%Z.ltb_lt|[Hb%Z.eqb_eq _]%andb_true_iff]; nia.
Qed.

(** A range whose least number is at most 34 times its size is exact for the numbers that the
    generator gives, whatever is rounded. *)
Lemma scale_wide u min max : 0 ≤ u ≤ 2 ^ 53 - 36 → 0 ≤ min ≤ max → max < 2 ^ 31 - 1 → min < 34 * (max - min + 1) → min ≤ scale u min max ≤ max.
Proof.
  intros Hu Hm Hmax Hw. unfold scale. set (n := max - min + 1) in *. assert (Hn : 0 < n < 2 ^ 31) by (unfold n; lia).
  pose proof (log2_bounds n ltac:(lia)) as Hb. pose proof (Z.log2_nonneg n). pose proof (log2_bounds (n + min) ltac:(lia)) as Hb2. pose proof (Z.log2_nonneg (n + min)).
  assert (HL : Z.log2 (n + min) < 31) by (apply Z.log2_lt_pow2; lia).
  set (k := Z.log2 n) in *. set (L := Z.log2 (n + min)) in *.
  assert (2 ^ (53 + (k + 1)) = 2 ^ 53 * 2 ^ (k + 1)) by (apply Z.pow_add_r; lia). assert (2 ^ (53 + (L + 1)) = 2 ^ 53 * 2 ^ (L + 1)) by (apply Z.pow_add_r; lia).
  assert (Hpk : 2 ^ (k + 1) = 2 * 2 ^ k) by (rewrite Z.pow_add_r by lia; lia). assert (HpL : 2 ^ (L + 1) = 2 * 2 ^ L) by (rewrite Z.pow_add_r by lia; lia).
  pose proof (round53_error (u * n) (k + 1) ltac:(nia) ltac:(lia)) as He1. pose proof (round53_nonneg (u * n) ltac:(nia)) as He0. set (z := round53 (u * n)) in *.
  assert (Hz : z ≤ n * 2 ^ 53 - 35 * n) by nia.
  pose proof (round53_error (z + min * 2 ^ 53) (L + 1) ltac:(nia) ltac:(lia)) as He2.
  split; [apply Z.div_le_lower_bound; [lia|]|apply Z.lt_succ_r, Z.div_lt_upper_bound; [lia|unfold n in *; nia]].
  assert (z + min * 2 ^ 53 = 0 ∨ 0 < z + min * 2 ^ 53) as [E|Hpos] by nia; [rewrite E; change (round53 0) with 0; nia|].
  rewrite Z.mul_comm. apply (round53_above _ _ 53); [done| |by exists min|lia].
  assert (z + min * 2 ^ 53 < 2 ^ (53 + (L + 1))) as Hlt by nia. apply Z.log2_lt_pow2 in Hlt; lia.
Qed.
Lemma RandomNumber_wide min max : 0 ≤ min ≤ max → max < 2 ^ 31 - 1 → min < 34 * (max - min + 1) → returns (RandomNumber min max) (fun r => min ≤ r ≤ max).
Proof.
  intros Hm Hx Hw s Hs. destruct (uniform_far s) as (u & E & Hu). pose proof (scale_wide u min max Hu Hm Hx Hw) as Hr.
  exists (scale u min max), (next_seed (next_seed s)). split; [|split; [done|apply next_seed_range]]. unfold RandomNumber, uniform. cbv [mbind gen_bind result_bind]. rewrite E.
  unfold CheckBetweenInclusive. by rewrite !(proj2 (Z.leb_le _ _)) by lia.
Qed.

(** ** Retries end *)

(** a retry loop that makes one step of the generator per round ends when some state is good *)
Lemma repeat_draw fuel (ok : Z → bool) (h : Z → Z) y : seed_ok y → ok (h y) = true → 2 ^ 48 ≤ Z.of_nat fuel →
  returns (repeat_until fuel ok (fun s => Ok (h (next_seed s), next_seed s))) (fun c => ok c = true).
Proof.
  intros Hy Hok Hfuel s Hs. destruct (lcg_full_period (next_seed s) y) as (n & Hn & Hi); [apply next_seed_range|done|].
  assert (Hlt : (n < fuel)%nat) by lia. clear Hn Hfuel Hs. revert s fuel Hi Hlt. induction n as [|n IH]; intros s fuel Hi Hlt; destruct fuel as [|fuel]; try lia; cbn [repeat_until].
  - cbn in Hi. unfold mbind, gen_bind, result_bind. cbn. rewrite Hi, Hok. by exists (h y), y.
  - unfold mbind, gen_bind, result_bind. cbn [mbind result_bind]. destruct (ok (h (next_seed s))) eqn:E.
    + exists (h (next_seed s)), (next_seed s). split; [done|]. split; [done|apply next_seed_range].
    + apply IH; [|lia]. by rewrite <- Nat.iter_succ_r.
Qed.

Lemma chars_returns n g (P : Z → Prop) : returns g P → returns (chars n g) (fun l => len l = Z.of_nat n ∧ Forall P l).
Proof.
  intros Hg. induction n as [|n IH]; cbn [chars]; [by apply returns_ret|]. eapply returns_bind; [exact Hg|]. intros c Hc. eapply returns_bind; [exact IH|].
  intros l [Hl HF]. apply returns_ret. split; [cbn; lia|by constructor].
Qed.

Definition alnum (l : list Z) : Prop := Forall (fun c => isalnum c = true) l.
(** the character A comes from the seed [65 * 2 ^ 40] *)
Lemma RandomStr_returns fuel n : 2 ^ 48 ≤ Z.of_nat fuel → 1 ≤ n → returns (RandomStr fuel n) (fun l => len l = n - 1 ∧ alnum l).
Proof.
  intros Hf Hn. unfold RandomStr. rewrite (proj2 (Z.eqb_neq n 0)) by lia.
  assert (Hc : ∀ s, next_char s = Ok (next_seed s / 2 ^ 40 mod 256, next_seed s)) by (intros s; unfold next_char; by rewrite next_bits_eq by lia).
  assert (Hr : returns (repeat_until fuel isalnum next_char) (fun c => isalnum c = true)).
  { intros s Hs. destruct (repeat_draw fuel isalnum (fun x => x / 2 ^ 40 mod 256) (65 * 2 ^ 40)) with (s := s) as (c & s' & E & H); [done|done|done|done|].
    exists c, s'. split; [|done]. rewrite <- E. clear -Hc. revert s. induction fuel as [|fuel IH]; intros s; [done|]. cbn [repeat_until]. cbv [mbind gen_bind result_bind]. rewrite Hc. by case_match. }
  intros s Hs. destruct (chars_returns (Z.to_nat (n - 1)) _ _ Hr s Hs) as (l & s' & E & [Hl HF] & Hs'). exists l, s'. split; [done|]. split; [|done]. split; [lia|done].
Qed.
Lemma random_str_returns fuel min max : 2 ^ 48 ≤ Z.of_nat fuel → 1 ≤ min ≤ max → max < 2 ^ 31 - 1 → min < 34 * (max - min + 1) →
  returns (random_str fuel min max) (fun l => min ≤ len l + 1 ≤ max ∧ alnum l).
Proof.
  intros Hf Hm Hx He. unfold random_str. eapply returns_bind; [by apply RandomNumber_wide; [lia|..]|]. intros n Hn s Hs. cbn beta in Hn.
  destruct (RandomStr_returns fuel n Hf ltac:(lia) s Hs) as (l & s' & E & [Hl Ha] & Hs'). exists l, s'. split; [done|]. split; [|done]. split; [lia|done].
Qed.
Definition digits (l : list Z) : Prop := Forall (fun c => 48 ≤ c ≤ 57) l.
Lemma RandomNStr_returns n : 0 ≤ n → returns (RandomNStr n) (fun l => len l = n ∧ digits l).
Proof.
  intros Hn. unfold RandomNStr. intros s Hs. destruct (chars_returns (Z.to_nat n) (x ← next_ulong; mret (48 + x mod 10)) (fun c => 48 ≤ c ≤ 57)) with (s := s)
    as (l & s' & E & [Hl Hd] & Hs'); [|done|exists l, s'; split; [done|]; split; [split; [lia|done]|done]].
  intros t Ht. unfold next_ulong. cbv [mbind gen_bind result_bind mret gen_ret]. rewrite next_bits_eq by lia. rewrite next_bits_eq by lia. eexists _, _. split; [done|].
  split; [|apply next_seed_range]. match goal with |- context [?x mod 10] => pose proof (Z.mod_pos_bound x 10) end. lia.
Qed.
Lemma lift_returns {A} (r : result A) a (P : A → Prop) : r = Ok a → P a → returns (lift r) P.
Proof. intros -> HP s Hs. by exists a, s. Qed.
Lemma str_column_returns N s : len s ≤ N → returns (str_column N s) (fun l => l = s).
Proof.
  intros Hl. unfold str_column, str_assign. rewrite (proj2 (Z.leb_le _ _)) by lia. eapply lift_returns; [done|]. unfold str_data. cbn [sz buf].
  rewrite Nat2Z.id. apply take_app_length.
Qed.
Lemma char_column_returns N s : len s ≤ N → returns (char_column N s) (fun l => l = s ++ replicate (Z.to_nat (N - len s)) 32).
Proof. intros Hl. unfold char_column, Char_assign. rewrite (proj2 (Z.leb_le _ _)) by lia. by eapply lift_returns. Qed.
Lemma sanity_returns b : b = true → returns (sanity b) (fun _ => True).
Proof. intros ->. by eapply lift_returns. Qed.
Lemma GetCustomerLastName_ok num : 0 ≤ num ≤ 999 → ∃ l, GetCustomerLastName num = Ok l ∧ 9 ≤ len l ≤ 15.
Proof.
  intros Hn. unfold GetCustomerLastName.
  assert (H : ∀ i, 0 ≤ i < 10 → ∃ t, nth_r NameTokens i = Ok t ∧ 3 ≤ len t ≤ 5).
  { intros i Hi. assert (i = 0 ∨ i = 1 ∨ i = 2 ∨ i = 3 ∨ i = 4 ∨ i = 5 ∨ i = 6 ∨ i = 7 ∨ i = 8 ∨ i = 9) as Hc by lia.
    destruct_or! Hc; subst i; by eexists. }
  destruct (H (num / 100)) as (t0 & -> & H0); [split; [apply Z.div_pos|apply Z.div_lt_upper_bound]; lia|].
  destruct (H ((num / 10) mod 10)) as (t1 & -> & H1); [apply Z.mod_pos_bound; lia|].
  destruct (H (num mod 10)) as (t2 & -> & H2); [apply Z.mod_pos_bound; lia|]. cbn [mbind result_bind].
  eexists. split; [done|]. rewrite !length_app. lia.
Qed.

(** ** Every loader returns a sane row *)

(** one call of a loader: a random number, a string, a column or a check *)
Ltac draw_with t := (eapply returns_bind; [t|]; let v := fresh "v" in let H := fresh "H" in intros v H; cbn beta in H).
Ltac number := draw_with ltac:(apply RandomNumber_wide; lia).
Ltac text := draw_with ltac:(first [apply random_str_returns; [done|lia..]|apply RandomStr_returns; [done|lia]]).
Ltac column := eapply returns_bind; [first [apply str_column_returns|apply char_column_returns]|intros ? ->; cbn beta].

(** the characters and the sizes of the address that warehouses, districts and customers share *)
Definition address (street_1 street_2 city state : list Z) : Prop :=
  alnum street_1 ∧ 9 ≤ len street_1 ≤ 19 ∧ alnum street_2 ∧ 9 ≤ len street_2 ≤ 19 ∧ alnum city ∧ 9 ≤ len city ≤ 19 ∧ alnum state ∧ len state = 2.
Definition sane_warehouse (v : WarehouseRow) : Prop :=
  wr_ytd v = 30000000 ∧ 0 ≤ wr_tax v ≤ 20 ∧ alnum (wr_name v) ∧ 5 ≤ len (wr_name v) ≤ 9 ∧
  address (wr_street_1 v) (wr_street_2 v) (wr_city v) (wr_state v) ∧ wr_zip v = zip_code.
Definition sane_district (v : DistrictRow) : Prop :=
  dr_ytd v = 3000000 ∧ 0 ≤ dr_tax v ≤ 20 ∧ dr_next_o_id v = 3001 ∧ alnum (dr_name v) ∧ 5 ≤ len (dr_name v) ≤ 9 ∧
  address (dr_street_1 v) (dr_street_2 v) (dr_city v) (dr_state v) ∧ dr_zip v = zip_code.
Definition sane_item (v : ItemRow) : Prop :=
  alnum (i_name v) ∧ 13 ≤ len (i_name v) ≤ 23 ∧ 100 ≤ i_price v ≤ 10000 ∧ alnum (i_data v) ∧ 25 ≤ len (i_data v) ≤ 50 ∧ 1 ≤ i_im_id v ≤ 10000.
Definition sane_customer (since : Z) (v : CustomerRow) (i : CustomerInfoRow) : Prop :=
  cr_balance v = -1000 ∧ cr_ytd_payment v = 1000 ∧ 0 ≤ cr_discount v ≤ 50 ∧ (cr_credit v = [66; 67] ∨ cr_credit v = [71; 67]) ∧
  9 ≤ len (c_last i) ≤ 15 ∧ alnum (c_first i) ∧ 7 ≤ len (c_first i) ≤ 15 ∧ address (c_street_1 i) (c_street_2 i) (c_city i) (c_state i) ∧
  len (c_zip i) = 9 ∧ len (c_phone i) = 16 ∧ digits (c_zip i ++ c_phone i) ∧ c_since i = since ∧ alnum (c_data i) ∧ 299 ≤ len (c_data i) ≤ 499.

Lemma app_nil_pad (l : list Z) N : len l = N → l ++ replicate (Z.to_nat (N - len l)) 32 = l.
Proof. intros <-. by rewrite Z.sub_diag, app_nil_r. Qed.
Lemma quot_100 x m : 0 ≤ x ≤ 100 * m → 0 ≤ Z.quot x 100 ≤ m.
Proof. intros Hx. rewrite Z.quot_div_nonneg by lia. split; [apply Z.div_pos; lia|apply Z.div_le_upper_bound; lia]. Qed.
Lemma between_in lo v hi : lo ≤ v ≤ hi → between lo v hi = true.
Proof. intros. unfold between. by rewrite !(proj2 (Z.leb_le _ _)) by lia. Qed.

Lemma last_name_returns c : 1 ≤ c → returns (if c <=? 1000 then lift (GetCustomerLastName (c - 1)) else GetNonUniformCustomerLastNameLoad) (fun l => 9 ≤ len l ≤ 15).
Proof.
  intros Hc. assert (H : ∀ num, 0 ≤ num ≤ 999 → returns (lift (GetCustomerLastName num)) (fun l => 9 ≤ len l ≤ 15)).
  { intros num Hn. destruct (GetCustomerLastName_ok num Hn) as (l & E & Hl). by eapply lift_returns. }
  destruct (Z.leb_spec c 1000); [apply H; lia|]. unfold GetNonUniformCustomerLastNameLoad. eapply returns_bind; [apply NonUniform_returns; try lia; done|]. exact H.
Qed.

Section Sane.
Context (cfg : Config) (fuel : nat) (Hfuel : 2 ^ 48 ≤ Z.of_nat fuel).

Lemma load_warehouse_sane w : 1 ≤ w ≤ nr_warehouses cfg → returns (load_warehouse cfg fuel w) sane_warehouse.
Proof using Hfuel.
  intros Hw. unfold load_warehouse. text. text. text. text. text. number. destruct_and!.
  do 6 (column; [rewrite ?app_nil_pad by lia; done || lia|]). rewrite !app_nil_pad by done.
  eapply returns_bind; [apply sanity_returns; cbn; rewrite between_in by lia; rewrite (proj2 (Z.eqb_eq _ 2)) by lia; done|].
  intros _ _. apply returns_ret. pose proof (quot_100 v4 20). unfold sane_warehouse, address. cbn. split_and!; done || lia.
Qed.
Lemma load_district_sane w d : 1 ≤ w ≤ nr_warehouses cfg → 1 ≤ d ≤ districts_per_warehouse cfg → returns (load_district cfg fuel w d) sane_district.
Proof using Hfuel.
  intros Hw Hd. unfold load_district. number. do 4 (text; destruct_and!; column; [lia|]). text. destruct_and!. column; [lia|]. column; [done|].
  rewrite !app_nil_pad by done.
  eapply returns_bind; [apply sanity_returns; cbn; rewrite !between_in by lia; rewrite (proj2 (Z.eqb_eq _ 2)) by lia; done|].
  intros _ _. apply returns_ret. pose proof (quot_100 v 20). unfold sane_district, address. cbn. split_and!; done || lia.
Qed.

Lemma item_data_returns n : 26 ≤ n ≤ 50 → returns (item_data fuel n) (fun l => alnum l ∧ 25 ≤ len l ≤ 50).
Proof using Hfuel.
  intros Hn. unfold item_data. number. case_match.
  - intros s Hs. destruct (RandomStr_returns fuel n Hfuel ltac:(lia) s Hs) as (l & s' & E & [Hl Ha] & Hs'). exists l, s'. split; [done|]. split; [|done]. split; [done|lia].
  - number. text. text. destruct_and!. apply returns_ret. split; [apply Forall_app; split; [done|apply Forall_app; split; [|done]]; by repeat constructor|].
    rewrite !length_app. cbn [length]. lia.
Qed.
Lemma load_item_sane i : 1 ≤ i ≤ nr_items cfg → returns (load_item cfg fuel i) sane_item.
Proof using Hfuel.
  intros Hi. unfold load_item. text. destruct_and!. column; [lia|]. number. number. draw_with ltac:(by apply item_data_returns). destruct_and!. column; [lia|]. number.
  eapply returns_bind; [apply sanity_returns; cbn; by rewrite !between_in by lia|]. intros _ _. apply returns_ret. unfold sane_item. cbn. split_and!; done || lia.
Qed.

Lemma load_customer_sane since w d c : 1 ≤ w ≤ nr_warehouses cfg → 1 ≤ d ≤ districts_per_warehouse cfg → 1 ≤ c ≤ customers_per_district cfg →
  returns (load_customer cfg fuel since w d c) (fun '(v, i) => sane_customer since v i).
Proof using Hfuel.
  intros Hw Hd Hc. unfold load_customer. number. number.
  eapply returns_bind with (P := fun l => l = [66; 67] ∨ l = [71; 67]).
  { case_match; intros s Hs; eexists _, s; (split; [done|]); (split; [|done]); [by left|by right]. }
  intros credit Hcredit. draw_with ltac:(apply last_name_returns; lia). column; [lia|].
  do 4 (text; destruct_and!; column; [lia|]). text. destruct_and!. column; [lia|]. rewrite app_nil_pad by done.
  draw_with ltac:(apply RandomNStr_returns; lia). destruct_and!. column; [rewrite length_app; cbn [length]; lia|]. rewrite app_nil_pad by (rewrite length_app; cbn [length]; lia).
  draw_with ltac:(apply RandomNStr_returns; lia). destruct_and!. column; [lia|]. rewrite app_nil_pad by done.
  column; [done|]. text. destruct_and!. column; [lia|].
  eapply returns_bind; [apply sanity_returns; cbn; rewrite !between_in by lia; destruct Hcredit as [-> | ->]; done|]. intros _ _. apply returns_ret.
  pose proof (quot_100 v 50). unfold sane_customer, address. cbn [cr_balance cr_ytd_payment cr_discount cr_credit c_last c_first c_street_1 c_street_2 c_city c_state c_zip c_phone c_since c_data].
  split_and!; try done; try lia; [rewrite length_app; cbn [length]; lia|]. unfold digits. rewrite !Forall_app. split; [split; [done|]|done]. repeat (constructor; [lia|]). constructor.
Qed.

(** [order_ol_cnt] lines, numbered from 1 on, that fit in the key *)
Lemma order_ol_cnt_range w d c : 5 ≤ order_ol_cnt cfg w d c ≤ 15.
Proof using Type. clear Hfuel. unfold order_ol_cnt. pose proof (Z.mod_pos_bound (order_ts cfg w d c) 11). lia. Qed.
Lemma load_order_sane w d c customer : 10 ≤ districts_per_warehouse cfg → 1 ≤ w ≤ nr_warehouses cfg → 1 ≤ d ≤ districts_per_warehouse cfg →
  1 ≤ customer ≤ customers_per_district cfg → 1 ≤ c < 2 ^ 24 →
  returns (load_order_row cfg w d c customer) (fun v => o_c_id v = customer ∧ (o_carrier_id v = 0 ↔ 2101 ≤ c) ∧ o_ol_cnt v = order_ol_cnt cfg w d c).
Proof using Type.
  clear Hfuel. intros H10 Hw Hd Hcu Hc. pose proof (order_ol_cnt_range w d c) as Hn. unfold load_order_row, load_order, order_key. rewrite Z.shiftl_mul_pow2, (u32_id (c * 2 ^ 8)) by lia.
  rewrite Z.shiftr_div_pow2, Z.div_mul by lia. rewrite u8_id by lia.
  eapply returns_bind with (P := fun v => o_c_id v = customer ∧ 0 ≤ o_carrier_id v ≤ 10 ∧ (o_carrier_id v = 0 ↔ 2101 ≤ c) ∧ o_ol_cnt v = order_ol_cnt cfg w d c).
  - destruct (Z.ltb_spec c 2101); [number|eapply returns_bind; [by apply (returns_ret 0 (eq 0))|]; intros v <-]; apply returns_ret; cbn; split_and!; lia.
  - intros v (E & Hv & Hcar & Ho). eapply returns_bind; [apply sanity_returns; rewrite E, Ho; by rewrite !between_in by lia|]. intros _ _. by apply returns_ret.
Qed.
Lemma load_order_line_sane w d c l : 100000 ≤ nr_items cfg → 1 ≤ w ≤ nr_warehouses cfg → 1 ≤ d ≤ districts_per_warehouse cfg → 1 ≤ l ≤ order_ol_cnt cfg w d c →
  returns (load_order_line_row cfg w d c l) (fun v => 1 ≤ ol_i_id v ≤ nr_items cfg ∧ ol_supply_w_id v = w ∧ ol_quantity v = 5).
Proof using Type.
  clear Hfuel. intros Hi Hw Hd Hl. pose proof (order_ol_cnt_range w d c) as Hn. unfold load_order_line_row, load_order_line.
  eapply returns_bind with (P := fun v => 1 ≤ ol_i_id v ≤ nr_items cfg ∧ ol_supply_w_id v = w ∧ ol_quantity v = 5).
  - number. case_match; [|number]; apply returns_ret; cbn; lia.
  - intros v (Hv & E). eapply returns_bind; [apply sanity_returns; by rewrite !between_in by lia|]. intros _ _. by apply returns_ret.
Qed.
Lemma load_stock_sane w i : 1 ≤ w ≤ nr_warehouses cfg → 1 ≤ i ≤ nr_items cfg → returns (load_stock_row cfg w i) (fun v => 10 ≤ s_quantity v ≤ 100 ∧ s_ytd v = 0).
Proof using Type.
  clear Hfuel. intros Hw Hi. unfold load_stock_row, load_stock. eapply returns_bind with (P := fun v => 10 ≤ s_quantity v ≤ 100 ∧ s_ytd v = 0); [number; by apply returns_ret|].
  intros v Hv. eapply returns_bind; [apply sanity_returns; by rewrite !between_in by lia|]. intros _ _. by apply returns_ret.
Qed.
End Sane.


(** The orders, order lines and stocks of a configuration with enough districts and items. *)
Lemma order_loaders_succeed cfg w d c customer l i :
  10 ≤ districts_per_warehouse cfg → 100000 ≤ nr_items cfg → 1 ≤ w ≤ nr_warehouses cfg → 1 ≤ d ≤ districts_per_warehouse cfg →
  1 ≤ customer ≤ customers_per_district cfg → 1 ≤ c < 2 ^ 24 → 1 ≤ l ≤ order_ol_cnt cfg w d c → 1 ≤ i ≤ nr_items cfg →
  returns (load_order_row cfg w d c customer) (fun v => o_c_id v = customer ∧ (o_carrier_id v = 0 ↔ 2101 ≤ c) ∧ o_ol_cnt v = order_ol_cnt cfg w d c) ∧
  returns (load_order_line_row cfg w d c l) (fun v => 1 ≤ ol_i_id v ≤ nr_items cfg ∧ ol_supply_w_id v = w ∧ ol_quantity v = 5) ∧
  returns (load_stock_row cfg w i) (fun v => 10 ≤ s_quantity v ≤ 100 ∧ s_ytd v = 0) ∧ returns (SanityCheckNewOrder cfg w d) (fun _ => True).
Proof.
  intros. split; [by apply load_order_sane|]. split; [by apply (load_order_line_sane _ _ _ c)|]. split; [by apply load_stock_sane|].
  apply sanity_returns. by rewrite !between_in.
Qed.
(** the generator of strings on a seed *)
Example random_str_small : match random_str 30 6 10 12345 with Ok (l, _) => forallb isalnum l && between 5 (len l) 9 | Err _ => false end = true.
Proof. by vm_compute. Qed.
