(* ===== verification/TpccInsert.v ===== *)
(** The rows that NewOrder inserts ([NewOrderTxn::PrepareInsert] with its completions), and
    the rows that Delivery looks up ([DeliveryTxn::Prepare]): both go through the index
    operations of transactions, and the pieces of an insertion may run in any order. *)

From S2P Require Import Prelude Bits SqlTypes EpochMem IndexOp IndexFacts IndexProps Tpcc TpccTxns TpccKeys TpccLoad TpccProps.

(** ** Tables *)

(** [TableType] of the tables of orders *)
Definition tNewOrder : Z := 107.
Definition tOOrder : Z := 108.
Definition tOOrderCIdIdx : Z := 109.
Definition tOrderLine : Z := 110.

(** what an insertion promises: a key that is present keeps its row, another one gets a row
    of its own *)
Class TableLaws (T : Type) `{Tables T} : Prop := {
  soc_found t rel k r : Search t rel k = Some r → SearchOrCreate t rel k = (r, false, t);
  soc_new t rel k : Search t rel k = None → ∃ r t', SearchOrCreate t rel k = (r, true, t') ∧ Search t' rel k = Some r ∧
    (∀ rel' k', (rel', k') ≠ (rel, k) → Search t' rel' k' = Search t rel' k') ∧ (∀ rel' k', Search t rel' k' ≠ Some r);
}.

Section Insert.
Context (E : Env) (hash : list Z → Z) (sid epoch : Z) (state : EpochObject) (gap : Z).
Context `{Tables T}.
Notation pinnable := (IsWarehousePinnable (cfg E) (nr_nodes E) (g_nr_threads E)).
Notation core_of w := (WarehouseToCoreId (cfg E) (nr_nodes E) (g_nr_threads E) w).
Notation route := (SliceToNodeId (cfg E) (nr_nodes E)).

(** [SliceLocator] of the tables; the hash of an order line leaves out the line number *)
Definition LocateRow (rel : Z) (k : list Z) : Z :=
  if shard_by_warehouse (cfg E) then WarehouseToSliceId (k.[0])
  else hash (if rel =? tOrderLine then take 3 k else k) mod max_slice_id (cfg E).

(** ** NewOrder *)

(** the tables, the values of the rows, and the rows of [NewOrderState] *)
Record InsSt := mkIns {
  in_tables : T * list NewRow; in_db : DB; in_cididx : gset Z;
  st_orderlines : gmap Z Z; st_oorder : Z; st_neworder : Z; st_cididx : Z }.
Definition set_tables (s : InsSt) (x : T * list NewRow) : InsSt :=
  mkIns x (in_db s) (in_cididx s) (st_orderlines s) (st_oorder s) (st_neworder s) (st_cididx s).

(** [OrderLinesInsertCompletion] and [OtherInsertCompletion]; the first version of a row
    is its value *)
Definition line_value (o : NewOrderStruct) (unit_price : list Z) (id : Z) : result OrderLineValue :=
  p ← nth_r unit_price id; q ← nth_r (order_quantities o) id; i ← nth_r (item_id o) id; w ← nth_r (supplier_warehouse_id o) id;
  Ok (mkOrderLine (i32 i) 0 (i32 (u32 (p * q))) (i32 w) (u8 q)).
Definition OrderLinesInsertCompletion (o : NewOrderStruct) (unit_price : list Z) (_ : list Z) (id row : Z) (s : InsSt) : result InsSt :=
  v ← line_value o unit_price id;
  Ok (mkIns (in_tables s) (set_order_lines (<[row := v]>) (in_db s)) (in_cididx s) (<[id := row]> (st_orderlines s)) (st_oorder s) (st_neworder s) (st_cididx s)).
Definition OtherInsertCompletion (args : OOrderValue) (_ : list Z) (id row : Z) (s : InsSt) : result InsSt :=
  Ok (if id =? 0 then mkIns (in_tables s) (set_oorders (<[row := args]>) (in_db s)) (in_cididx s) (st_orderlines s) row (st_neworder s) (st_cididx s)
      else if id =? 1 then mkIns (in_tables s) (set_new_orders (fun m => m ∪ {[row]}) (in_db s)) (in_cididx s) (st_orderlines s) (st_oorder s) row (st_cididx s)
      else if id =? 2 then mkIns (in_tables s) (in_db s) (in_cididx s ∪ {[row]}) (st_orderlines s) (st_oorder s) (st_neworder s) row
      else s).

(** [TxnIndexInsert], with the pieces as functions on the state where they run *)
Record InsPiece := mkInsPiece { ip_node : Z; ip_aff : Z; ip_body : InsSt → result InsSt }.
Definition TxnIndexInsert (completion : list Z → Z → Z → InsSt → result InsSt) (aff : Z) (ps : list (Param (list Z))) (s : InsSt) :
  result (NodeBitmap * (InsSt * list InsPiece)) :=
  let op := insert_op in_tables set_tables in
  '(nb, (s, l)) ← TxnIndexOp EncodeKey LocateRow route (nr_nodes E) (node_id E) op completion sid epoch state gap aff [] ps s;
  Ok (nb, (s, map (fun p => mkInsPiece (at_node p) (at_aff p) (run_piece op completion (at_capture p))) l)).

(** the keys and the value of the order *)
Definition oorder_key (o : NewOrderStruct) (oid : Z) : list Z := [no_warehouse_id o; no_district_id o; oid].
Definition neworder_key (o : NewOrderStruct) (oid : Z) : list Z := [no_warehouse_id o; no_district_id o; oid; no_customer_id o].
Definition cididx_key (o : NewOrderStruct) (oid : Z) : list Z := [no_warehouse_id o; no_district_id o; no_customer_id o; oid].
Definition orderline_key (o : NewOrderStruct) (oid i : Z) : list Z := [no_warehouse_id o; no_district_id o; oid; i + 1].
Definition orderline_keys (o : NewOrderStruct) (oid : Z) : list (list Z) := map (orderline_key o oid) (seqZ 0 (len (item_id o))).
Definition all_local (o : NewOrderStruct) : bool := forallb (fun w => w =? no_warehouse_id o) (supplier_warehouse_id o).
Definition order_value (o : NewOrderStruct) (ts_now : Z) : OOrderValue := mkOOrder (no_customer_id o) 0 (u8 (len (item_id o))) (all_local o) ts_now.

(** [price] reads the row of an item *)
Definition NewOrder_PrepareInsert (g_lock_elision : bool) (price : Z → result Z) (o : NewOrderStruct) (ts_now : Z) (c : Counters) (s : InsSt) :
  result (Z * Counters * (NodeBitmap * NodeBitmap) * (InsSt * list InsPiece)) :=
  '(oid, c) ← AutoIncrement (node_id E) (auto_inc_zone (no_warehouse_id o) (no_district_id o)) c;
  let oid := u32 oid in
  unit_price ← mapM price (item_id o);
  let lines := KeyParam tOrderLine (orderline_keys o oid) in
  let oorder := KeyParam tOOrder [oorder_key o oid] in
  let neworder := KeyParam tNewOrder [neworder_key o oid] in
  let cididx := KeyParam tOOrderCIdIdx [cididx_key o oid] in
  let args1 := order_value o ts_now in
  if pinnable || negb g_lock_elision then
    let aff := if pinnable then core_of (no_warehouse_id o) else kIndexOpFlatten in
    '(n1, (s, p1)) ← TxnIndexInsert (OrderLinesInsertCompletion o unit_price) aff [lines] s;
    '(n2, (s, p2)) ← TxnIndexInsert (OtherInsertCompletion args1) aff [oorder; neworder; cididx] s;
    Ok (oid, c, (n1, n2), (s, p1 ++ p2))
  else
    _ ← abort_if (negb (nr_warehouses (cfg E) =? 1));
    let aff := kIndexOpFlatten in
    '(n1, (s, p1)) ← TxnIndexInsert (OrderLinesInsertCompletion o unit_price) aff [lines] s;
    '(n2, (s, p2)) ← TxnIndexInsert (OtherInsertCompletion args1) aff [oorder; PlaceholderParam 1; cididx] s;
    (* no parameter: the value of a default-constructed completion *)
    '(n3, (s, p3)) ← TxnIndexInsert (OtherInsertCompletion (mkOOrder 0 0 0 false 0)) aff [PlaceholderParam 1; neworder] s;
    n23 ← NodeBitmap_add n2 n3;
    Ok (oid, c, (n1, n23), (s, p1 ++ p2 ++ p3)).

(** ** Delivery *)

Definition tCustomer : Z := 101.

(** [GenerateTransactionInput<DeliveryStruct>]: the warehouse, the carrier and an order id
    per district *)
Definition GenerateDelivery (XXH32 : Z → Z) (fuel : nat) (counters : list Z) : Gen (Z * Z * list Z * list Z) :=
  w ← PickWarehouse (cfg E) (nr_nodes E) XXH32 fuel (node_id E);
  carrier ← PickDistrict (cfg E);
  (fun s => '(oids, counters) ← for_each (fun i '(oids, cs) => '(oid, cs) ← AcquireLastNewOrderId (cfg E) (node_id E) w (i + 1) cs; Ok (oids ++ [i32 oid], cs))
       (seqZ 0 (districts_per_warehouse (cfg E))) ([], counters);
     Ok (w, carrier, oids, counters, s)) : Gen (Z * Z * list Z * list Z).

(** [Completion]: the rows of district [i]; [skip] is [ShouldScanSkip] *)
Fixpoint lines_until_null (l : list (option Z)) : list Z := match l with Some r :: l => r :: lines_until_null l | _ => [] end.
Definition DeliveryCompletion (skip : Z → bool) (id : Z) (rows : list (option Z)) (d : DistrictRows) : result DistrictRows :=
  let row := default 0 (default None (rows !! 0%nat)) in
  if id =? 0 then
    let lines := lines_until_null (take 15 rows) in
    _ ← abort_if (existsb skip lines); Ok (mkRows lines (dl_oorder d) (dl_customer d) (dl_new_order d))
  else if id =? 2 then Ok (mkRows (dl_lines d) row (dl_customer d) (dl_new_order d))
  else if id =? 3 then Ok (mkRows (dl_lines d) (dl_oorder d) row (dl_new_order d))
  else if id =? 4 then Ok (mkRows (dl_lines d) (dl_oorder d) (dl_customer d) row)
  else Ok d.

(** the scan of new orders from [oid_min] on: the first one, unless it must be skipped *)
Definition find_new_order (new_orders : list (list Z * Z)) (skip : Z → bool) : option (Z * Z) :=
  match new_orders with [] => None | (k, row) :: _ => if skip row then None else Some (k.[2], k.[3]) end.
(** the parameters of the lookups *)
Definition delivery_range (w d oid : Z) : Param (list Z) := RangeParam tOrderLine [w; d; oid; 0] [w; d; oid; 16].
Definition delivery_params (w d oid c : Z) : list (Param (list Z)) :=
  [delivery_range w d oid; KeyParam tOOrder [[w; d; oid]]; KeyParam tCustomer [[w; d; c]]; KeyParam tNewOrder [[w; d; oid; c]]].
Definition delivery_bitmap (ps : list (Param (list Z))) : result NodeBitmap :=
  GenerateNodeBitmap LocateRow route (nr_nodes E) (node_id E) ps.
(** [state->nodes[i]] *)
Definition Delivery_Prepare (g_lock_elision : bool) (w i : Z) (new_orders : list (list Z * Z)) (skip : Z → bool) : result NodeBitmap :=
  match find_new_order new_orders skip with
  | None => Ok []
  | Some (oid, c) =>
      let d := i + 1 in
      if negb g_lock_elision || pinnable then delivery_bitmap (delivery_params w d oid c) else
      n1 ← delivery_bitmap [delivery_range w d oid];
      n2 ← delivery_bitmap [PlaceholderParam 2; PlaceholderParam 1; PlaceholderParam 1; KeyParam tNewOrder [[w; d; oid; c]]];
      n12 ← NodeBitmap_add n1 n2;
      n3 ← delivery_bitmap [PlaceholderParam 2; KeyParam tOOrder [[w; d; oid]]];
      n123 ← NodeBitmap_add n12 n3;
      n4 ← delivery_bitmap [PlaceholderParam 2; PlaceholderParam 1; KeyParam tCustomer [[w; d; c]]];
      NodeBitmap_add n123 n4
  end.
End Insert.

(** ** The rows of an order *)

Inductive InsRow := IRLine (i : Z) | IROrder | IRNew | IRCid.
#[export] Instance insrow_dec : EqDecision InsRow.
Proof. solve_decision. Defined.

Lemma length_EncodeKey k : len (EncodeKey k) = 4 * len k.
Proof. unfold EncodeKey. induction k as [|x k IH]; [done|]. cbn [map Field_EncodeTo]. rewrite length_app, Nat2Z.inj_add, IH. cbn [length]. change (len (EncodeTo _ _)) with 4. lia. Qed.
Lemma view_key k : len k ≤ 63 → view_of EncodeKey k = EncodeKey k.
Proof.
  intros Hk. unfold view_of. change 255 with (Z.ones 8). rewrite Z.land_comm, Z.land_ones, length_EncodeKey, Z.mod_small by lia.
  rewrite <- (length_EncodeKey k), Nat2Z.id. apply firstn_all.
Qed.
Lemma EncodeKey_bytes k : Forall byte_ok (EncodeKey k).
Proof.
  unfold EncodeKey. induction k as [|x k IH]; [constructor|]. cbn [map Field_EncodeTo]. apply Forall_app. split; [|exact IH].
  cbn [EncodeTo key_serializer key_u32]. apply Forall_rev, le_split_bytes.
Qed.

Section Rows.
Context (o : NewOrderStruct) (oid ts_now : Z) (unit_price : list Z).
Notation n := (len (item_id o)).

Definition ins_rel (x : InsRow) : Z := match x with IRLine _ => tOrderLine | IROrder => tOOrder | IRNew => tNewOrder | IRCid => tOOrderCIdIdx end.
Definition ins_key (x : InsRow) : list Z :=
  match x with IRLine i => orderline_key o oid i | IROrder => oorder_key o oid | IRNew => neworder_key o oid | IRCid => cididx_key o oid end.
Definition ins_rows : list InsRow := map IRLine (seqZ 0 n) ++ [IROrder; IRNew; IRCid].
(** where a row is found *)
Definition ins_at (x : InsRow) : Z * list Z := (ins_rel x, EncodeKey (ins_key x)).

Lemma elem_of_ins_rows x : x ∈ ins_rows ↔ match x with IRLine i => 0 ≤ i < n | _ => True end.
Proof.
  unfold ins_rows. rewrite elem_of_app. change (map ?f ?l) with (f <$> l). rewrite list_elem_of_fmap. split.
  - intros [(i & -> & Hi%elem_of_seqZ)|Hx]; [lia|]. destruct x; set_solver.
  - destruct x as [i| | |]; [|set_solver..]. intros Hi. left. exists i. split; [done|]. apply elem_of_seqZ. lia.
Qed.
Lemma NoDup_ins_rows : NoDup ins_rows.
Proof.
  unfold ins_rows. apply NoDup_app. split_and!.
  - apply NoDup_fmap_2; [by intros i j [= ->]|apply NoDup_seqZ].
  - intros x (i & -> & _)%list_elem_of_fmap. set_solver.
  - repeat (apply NoDup_cons; split; [set_solver|]). constructor.
Qed.
Lemma ins_at_inj x y : n ≤ 15 → x ∈ ins_rows → y ∈ ins_rows → ins_at x = ins_at y → x = y.
Proof.
  intros Hn Hx Hy E. apply elem_of_ins_rows in Hx, Hy. unfold ins_at in E. injection E as E1 E2. destruct x as [i| | |], y as [j| | |]; try done; try discriminate E1.
  f_equal. unfold ins_key, orderline_key, EncodeKey in E2. cbn [map Field_EncodeTo] in E2. rewrite !app_nil_r in E2.
  do 3 apply app_inv_head in E2. rewrite !be_small in E2 by lia. injection E2 as E2. lia.
Qed.
Lemma ins_key_short x : len (ins_key x) ≤ 63.
Proof. destruct x; cbn; lia. Qed.

Context `{Tables T} `{!TableLaws T} (slice : InsRow → Z).
Notation St := (@InsSt T).
Notation find s := (Search (in_tables s).1).

(** the values *)
Definition write_row (x : InsRow) (r : Z) (s : St) : result St :=
  match x with
  | IRLine i => OrderLinesInsertCompletion o unit_price [] i r s
  | IROrder => OtherInsertCompletion (order_value o ts_now) [] 0 r s
  | IRNew => OtherInsertCompletion (order_value o ts_now) [] 1 r s
  | IRCid => OtherInsertCompletion (order_value o ts_now) [] 2 r s
  end.
Definition stored (x : InsRow) (r : Z) (s : St) : Prop :=
  match x with
  | IRLine i => (∃ v, line_value o unit_price i = Ok v ∧ order_lines (in_db s) !! r = Some v) ∧ st_orderlines s !! i = Some r
  | IROrder => oorders (in_db s) !! r = Some (order_value o ts_now) ∧ st_oorder s = r
  | IRNew => r ∈ new_orders (in_db s) ∧ st_neworder s = r
  | IRCid => r ∈ in_cididx s ∧ st_cididx s = r
  end.
(** the row has the same value in two states *)
Definition same_row (r : Z) (s t : St) : Prop :=
  order_lines (in_db t) !! r = order_lines (in_db s) !! r ∧ oorders (in_db t) !! r = oorders (in_db s) !! r ∧
  (r ∈ new_orders (in_db t) ↔ r ∈ new_orders (in_db s)) ∧ (r ∈ in_cididx t ↔ r ∈ in_cididx s).

(** after the rows [X] have been inserted *)
Record after_ins (s0 : St) (X : list InsRow) (s : St) : Prop := {
  ai_done : ∀ x, x ∈ X → ∃ r, find s (ins_rel x) (EncodeKey (ins_key x)) = Some r ∧ stored x r s ∧
    (slice x, ins_rel x, EncodeKey (ins_key x), r) ∈ (in_tables s).2;
  ai_todo : ∀ x, x ∈ ins_rows → x ∉ X → find s (ins_rel x) (EncodeKey (ins_key x)) = None;
  ai_apart : ∀ x y r, x ∈ X → y ∈ X → find s (ins_rel x) (EncodeKey (ins_key x)) = Some r → find s (ins_rel y) (EncodeKey (ins_key y)) = Some r → x = y;
  ai_others : ∀ rel k, (∀ x, x ∈ ins_rows → ins_at x ≠ (rel, k)) → find s rel k = find s0 rel k;
  ai_values : ∀ rel k r, find s0 rel k = Some r → same_row r s0 s;
  ai_rest : in_db s = mkDB (stocks (in_db s0)) (warehouses (in_db s0)) (districts (in_db s0)) (customers (in_db s0)) (oorders (in_db s)) (order_lines (in_db s)) (new_orders (in_db s));
}.

(** the insertion of a row *)
Definition ins (x : InsRow) (s : St) : result St :=
  let '(r, created, t) := SearchOrCreate (in_tables s).1 (ins_rel x) (EncodeKey (ins_key x)) in
  write_row x r (set_tables s (t, (in_tables s).2 ++ if created : bool then [(slice x, ins_rel x, EncodeKey (ins_key x), r)] else [])).

Context (Hn : n ≤ 15) (Hl : length (supplier_warehouse_id o) = length (item_id o) ∧ length (order_quantities o) = length (item_id o) ∧ length unit_price = length (item_id o)).

Lemma line_value_ok i : 0 ≤ i < n → ∃ v, line_value o unit_price i = Ok v.
Proof using Hn Hl TableLaws0.
  intros Hi. destruct Hl as (L1 & L2 & L3).
  destruct (lookup_lt_is_Some_2 unit_price (Z.to_nat i)) as [p Hp]; [lia|]. destruct (lookup_lt_is_Some_2 (order_quantities o) (Z.to_nat i)) as [q Hq]; [lia|].
  destruct (lookup_lt_is_Some_2 (item_id o) (Z.to_nat i)) as [it Hit]; [lia|]. destruct (lookup_lt_is_Some_2 (supplier_warehouse_id o) (Z.to_nat i)) as [w Hw]; [lia|].
  unfold line_value. rewrite (nth_r_in unit_price i p), (nth_r_in (order_quantities o) i q), (nth_r_in (item_id o) i it), (nth_r_in (supplier_warehouse_id o) i w) by (done || lia).
  by eexists.
Qed.

(** what writing a row leaves as it is *)
Lemma write_row_ok x r s : x ∈ ins_rows → ∃ s', write_row x r s = Ok s' ∧ in_tables s' = in_tables s ∧ stored x r s' ∧
  (∀ y r', y ≠ x → r' ≠ r → stored y r' s → stored y r' s') ∧ (∀ r', r' ≠ r → same_row r' s s') ∧
  in_db s' = mkDB (stocks (in_db s)) (warehouses (in_db s)) (districts (in_db s)) (customers (in_db s)) (oorders (in_db s')) (order_lines (in_db s')) (new_orders (in_db s')).
Proof using Hn Hl TableLaws0.
  intros Hx. apply elem_of_ins_rows in Hx. destruct x as [i| | |]; cbn [write_row].
  - destruct (line_value_ok i Hx) as [v Ev]. unfold OrderLinesInsertCompletion. rewrite Ev. cbn [mbind result_bind]. eexists. split; [done|]. split; [done|].
    split; [cbn; split; [exists v; split; [done|]; apply lookup_insert_eq|apply lookup_insert_eq]|]. split; [|split; [|done]].
    + intros y r' Hy Hr'. destruct y; cbn; try done. rewrite !lookup_insert_ne by congruence. done.
    + intros r' Hr'. unfold same_row. cbn. by rewrite lookup_insert_ne.
  - eexists. split; [done|]. split; [done|]. split; [cbn; by rewrite lookup_insert_eq|]. split; [|split; [|done]].
    + intros y r' Hy Hr'. destruct y; cbn; done.
    + intros r' Hr'. unfold same_row. cbn. by rewrite lookup_insert_ne.
  - eexists. split; [done|]. split; [done|]. split; [cbn; set_solver|]. split; [|split; [|done]].
    + intros y r' Hy Hr'. destruct y; cbn; done.
    + intros r' Hr'. unfold same_row. cbn. split_and!; try done. set_solver.
  - eexists. split; [done|]. split; [done|]. split; [cbn; set_solver|]. split; [|split; [|by destruct s as [? []]]].
    + intros y r' Hy Hr'. destruct y; cbn; done.
    + intros r' Hr'. unfold same_row. cbn. split_and!; try done. set_solver.
Qed.

Lemma after_ins_step s0 X x s : (∀ x, x ∈ ins_rows → find s0 (ins_rel x) (EncodeKey (ins_key x)) = None) → after_ins s0 X s → x ∈ ins_rows → x ∉ X → X ⊆ ins_rows → ∃ s', ins x s = Ok s' ∧ after_ins s0 (x :: X) s'.
Proof using Hn Hl TableLaws0.
  intros Hfresh [A1 A2 A3 A4 A5 A6] Hx HxX HX. unfold ins. destruct (soc_new _ _ _ (A2 x Hx HxX)) as (r & t' & -> & B1 & B2 & B3).
  set (s1 := set_tables s _). destruct (write_row_ok x r s1 Hx) as (s' & -> & Et & C1 & C2 & C3 & C4). exists s'. split; [done|].
  assert (Hf : ∀ y, y ∈ ins_rows → y ≠ x → find s' (ins_rel y) (EncodeKey (ins_key y)) = find s (ins_rel y) (EncodeKey (ins_key y))).
  { intros y Hy Hne. rewrite Et. apply B2. intros E. apply Hne. by apply ins_at_inj. }
  assert (Hfx : find s' (ins_rel x) (EncodeKey (ins_key x)) = Some r) by (rewrite Et; exact B1).
  assert (Hlog : (in_tables s').2 = (in_tables s).2 ++ [(slice x, ins_rel x, EncodeKey (ins_key x), r)]) by (rewrite Et; done).
  split.
  - intros y [->|Hy]%elem_of_cons.
    + exists r. split; [done|]. split; [done|]. rewrite Hlog. set_solver.
    + destruct (A1 y Hy) as (ry & D1 & D2 & D3). assert (y ≠ x) by (by intros ->). exists ry. rewrite Hf by (by try apply HX). split; [done|].
      split; [|rewrite Hlog; set_solver]. apply C2; [done| |by destruct y]. intros ->. by apply (B3 _ _ D1).
  - intros y Hy Hny. apply not_elem_of_cons in Hny as [Hne Hny]. rewrite Hf by done. by apply A2.
  - assert (Hnew : ∀ y ry, y ∈ X → find s' (ins_rel y) (EncodeKey (ins_key y)) = Some ry → ry ≠ r).
    { intros y ry Hy Hfy ->. rewrite Hf in Hfy; [by apply (B3 _ _ Hfy)|by apply HX|by intros ->]. }
    intros y z ry [->|Hy]%elem_of_cons [->|Hz]%elem_of_cons Hfy Hfz; [done| | |].
    + rewrite Hfx in Hfy. injection Hfy as <-. by destruct (Hnew z r Hz Hfz).
    + rewrite Hfx in Hfz. injection Hfz as <-. by destruct (Hnew y r Hy Hfy).
    + assert (y ≠ x) by (by intros ->). assert (z ≠ x) by (by intros ->). rewrite Hf in Hfy, Hfz by auto. by apply (A3 y z ry).
  - intros rel k Hk. rewrite Et. cbn. rewrite B2 by (intros E; by apply (Hk x Hx)). by apply A4.
  - intros rel k r0 Hr0. assert (Hne : r0 ≠ r).
    { intros ->. destruct (decide ((rel, k) ∈ map ins_at ins_rows)) as [Hin|Hnin].
      - apply list_elem_of_fmap in Hin as (y & E & Hy). injection E as -> ->. by rewrite (Hfresh y Hy) in Hr0.
      - apply (B3 rel k). rewrite A4; [done|]. intros y Hy E. apply Hnin. apply list_elem_of_fmap. by exists y. }
    destruct (C3 r0 Hne) as (D1 & D2 & D3 & D4), (A5 rel k r0 Hr0) as (F1 & F2 & F3 & F4). unfold same_row in *. cbn in *. rewrite D1, D2, D3, D4. done.
  - change (in_db s1) with (in_db s) in C4. rewrite A6 in C4. exact C4.
Qed.
End Rows.

(** ** Index operations on the rows of an order *)

Lemma MergeOrAdd_ok node bitmap b : len b < kMaxPackedKeys → ∃ b', MergeOrAdd node bitmap b = Ok b' ∧ len b' ≤ len b + 1.
Proof.
  intros Hb. unfold MergeOrAdd, Add. destruct (merge b node bitmap) as [b'|] eqn:Em.
  - exists b'. split; [done|]. enough (length b' = length b) by lia. revert b' Em. clear Hb. induction b as [|[m old] b IH]; intros b'; cbn; [done|].
    destruct (m =? node); [by intros [= <-]|]. destruct (merge b node bitmap) as [b1|]; cbn; [|done]. intros [= <-]. cbn. by rewrite (IH b1).
  - rewrite (proj2 (Z.ltb_lt _ _)) by done. eexists. split; [done|]. rewrite length_app. cbn. lia.
Qed.
Lemma NodeBitmap_add_ok rhs : ∀ b, len b + len rhs ≤ kMaxPackedKeys → ∃ b', NodeBitmap_add b rhs = Ok b'.
Proof.
  unfold NodeBitmap_add. induction rhs as [|e rhs IH]; intros b Hb; [by eexists|]. cbn [length] in Hb. cbn [for_each].
  destruct (MergeOrAdd_ok e.1 e.2 b) as (b' & -> & Hl); [lia|]. cbn [mbind result_bind]. apply IH. lia.
Qed.
Lemma GenerateNodeBitmap_len {K} Locate route nr_nodes node_id (ps : list (Param K)) nb : 0 ≤ nr_nodes →
  GenerateNodeBitmap Locate route nr_nodes node_id ps = Ok nb → len nb ≤ nr_nodes.
Proof.
  intros Hn. unfold GenerateNodeBitmap. destruct (KeyParamsToBitmap _ _ _ _ _ _) as [bm|]; [|done]. cbn [mbind result_bind]. intros E.
  assert (H : ∀ l b nb, for_each (fun node b => v ← load bm node; if v =? 0 then Ok b else Add b node v) l b = Ok nb → len nb ≤ len b + len l).
  { clear. intros l. induction l as [|m l IH]; intros b nb; cbn [for_each]; [intros [= ->]; cbn; lia|]. destruct (load bm m) as [v|]; [|done]. cbn [mbind result_bind length].
    destruct (v =? 0); cbn [mbind result_bind]; [intros E%IH; lia|]. unfold Add. destruct (len b <? kMaxPackedKeys); [|done]. cbn [mbind result_bind].
    intros E%IH. rewrite length_app in E. cbn [length] in E. lia. }
  apply H in E. rewrite length_seqZ in E. cbn in E. lia.
Qed.

(** pieces that run lists of rows, in another order *)
Lemma Forall2_permuted {A B} (P : A → B → Prop) l l' k : l ≡ₚ l' → Forall2 P l k → ∃ k', k ≡ₚ k' ∧ Forall2 P l' k'.
Proof.
  intros Hp. revert k. induction Hp as [|x l l' _ IH|x y l|l1 l2 l3 _ IH1 _ IH2]; intros k HF.
  - apply Forall2_nil_inv_l in HF as ->. by exists [].
  - apply Forall2_cons_inv_l in HF as (y & k1 & Hy & HF & ->). destruct (IH k1 HF) as (k' & Hk & HF'). exists (y :: k'). split; [by rewrite Hk|by constructor].
  - apply Forall2_cons_inv_l in HF as (b & k1 & Hb & HF & ->). apply Forall2_cons_inv_l in HF as (a & k2 & Ha & HF & ->).
    exists (a :: b :: k2). split; [apply Permutation_swap|by repeat constructor].
  - destruct (IH1 k HF) as (k1 & Hk1 & HF1). destruct (IH2 k1 HF1) as (k2 & Hk2 & HF2). exists k2. split; [by rewrite Hk1|done].
Qed.

Section Order.
Context (E : Env) (hash : list Z → Z) (sid epoch : Z) (state : EpochObject) (gap : Z) (o : NewOrderStruct) (oid ts_now : Z) (unit_price : list Z).
Context `{Tables T} `{!TableLaws T}.
Notation n := (len (item_id o)).
Notation route := (SliceToNodeId (cfg E) (nr_nodes E)).
Notation St := (@InsSt T).

(** the request of an order *)
Record insert_ready : Prop := {
  ir_nodes : 1 ≤ nr_nodes E ≤ 254;
  ir_node : 1 ≤ node_id E ≤ nr_nodes E;
  ir_words : 0 ≤ sid < 2 ^ 64 ∧ 0 ≤ epoch < 2 ^ 64 ∧ 0 ≤ o_epoch state < 2 ^ 64 ∧ - 2 ^ 31 ≤ o_node state < 2 ^ 31 ∧
             0 ≤ gap < 2 ^ 32 ∧ 0 ≤ o_offset state < 2 ^ 64;
  ir_warehouse : 1 ≤ no_warehouse_id o ≤ nr_warehouses (cfg E);
  ir_warehouses : nr_warehouses (cfg E) < 2 ^ 15;
  ir_items : n ≤ 15;
  ir_arrays : length (supplier_warehouse_id o) = length (item_id o) ∧ length (order_quantities o) = length (item_id o) ∧ length unit_price = length (item_id o);
}.
Context (Hr : insert_ready).

Definition row_slice (x : InsRow) : Z := i16 (LocateRow E hash (ins_rel x) (ins_key o oid x)).
Definition ins_slot (x : InsRow) : Slot :=
  key_slot EncodeKey (LocateRow E hash) route (node_id E) (ins_rel x) (LocateRow E hash (ins_rel x) (ins_key o oid x)) (ins_key o oid x).
Notation ins := (ins o oid ts_now unit_price row_slice).
Notation write_row := (write_row o ts_now unit_price).

Lemma ins_home x : 1 ≤ s_home (ins_slot x) ≤ nr_nodes E.
Proof using Hr.
  pose proof (ir_warehouse Hr). pose proof (ir_warehouses Hr). pose proof (ir_nodes Hr). cbn [s_home ins_slot key_slot]. unfold home.
  assert (Hk : (ins_key o oid x).[0] = no_warehouse_id o) by (by destruct x).
  assert (Hloc : 0 ≤ LocateRow E hash (ins_rel x) (ins_key o oid x) < max_slice_id (cfg E) ∧ max_slice_id (cfg E) ≤ 2 ^ 15).
  { unfold LocateRow, max_slice_id. destruct (shard_by_warehouse (cfg E)).
    - rewrite Hk. unfold WarehouseToSliceId. rewrite u32_id by lia. lia.
    - unfold kRandomShardingMaxSliceId. split; [apply Z.mod_pos_bound; lia|lia]. }
  destruct Hloc as [Hloc H15]. rewrite (proj2 (Z.leb_le 0 _)) by lia. by apply SliceToNodeId_range; [lia|..].
Qed.

(** the slots of the parameters of an insertion are those of rows *)
Section Call.
Context (ps : list (Param (list Z))) (l : list (option InsRow)) (completion : list Z → Z → Z → St → result St).
Notation sl := (slots EncodeKey (LocateRow E hash) route (node_id E) ps).
Context (Hsl : sl = map (option_map ins_slot) l) (Hps : Forall param_ok ps) (Hlen : len l ≤ 15).
Context (Hc : ∀ i x, 0 ≤ i → l !! Z.to_nat i = Some (Some x) → ∀ r s, completion [] i r s = write_row x r s).

Lemma slot_lookup k : sl !! k = option_map (option_map ins_slot) (l !! k).
Proof using Hsl. rewrite Hsl. exact (list_lookup_fmap (option_map ins_slot) l k). Qed.

Lemma insert_request : request_ok EncodeKey (LocateRow E hash) route (nr_nodes E) (node_id E) sid epoch state gap ps.
Proof using Hr Hsl Hps Hlen.
  split; try apply Hr; [done| | |exact EncodeKey_bytes].
  - rewrite Hsl, length_map. unfold kMaxPackedKeys. lia.
  - intros i s Hi. rewrite slot_lookup in Hi.
    destruct (l !! i) as [[x|]|]; [|done|done]. injection Hi as <-. apply ins_home.
Qed.

Definition row_at (i : Z) : InsRow := match l !! Z.to_nat i with Some (Some x) => x | _ => IRCid end.
Lemma rows_of_ids : map row_at (key_ids sl) = omap id l.
Proof using Hsl.
  unfold key_ids. assert (length sl = length l) as -> by (by rewrite Hsl, length_map).
  assert (H' : ∀ r d, l = d ++ r → map row_at (filter (fun i => is_key (sl !! Z.to_nat i) = true) (seqZ (len d) (len r))) = omap id r).
  { intros r. induction r as [|x r IH]; intros d Hd; [done|]. assert (Hl : len (x :: r) = 1 + len r) by (cbn [length]; lia). rewrite Hl, seqZ_cons by lia.
    assert (Hx : l !! Z.to_nat (len d) = Some x) by (rewrite Nat2Z.id, Hd; by apply list_lookup_middle).
    specialize (IH (d ++ [x])). rewrite length_app, Nat2Z.inj_add in IH. cbn [length] in IH. rewrite filter_cons.
    rewrite slot_lookup, Hx. replace (Z.pred (1 + len r)) with (len r) by lia. replace (Z.succ (len d)) with (len d + Z.of_nat 1) by lia.
    destruct x as [x|]; cbn [is_key option_map]; [rewrite decide_True by done|rewrite decide_False by done].
    - cbn [map]. rewrite IH by (by rewrite Hd, <- app_assoc). unfold row_at at 1. rewrite Hx. done.
    - by rewrite IH by (by rewrite Hd, <- app_assoc). }
  apply (H' l []). done.
Qed.

Lemma serve_ins ids : (∀ i, i ∈ ids → i ∈ key_ids sl) → ∀ s,
  for_each (serve [] completion (insert_key EncodeKey (LocateRow E hash) route (node_id E) ps in_tables set_tables)) ids s = for_each ins (map row_at ids) s.
Proof using Hsl Hc.
  induction ids as [|i ids IH]; intros Hi s; [done|]. cbn [for_each map].
  assert (Hik : i ∈ key_ids sl) by (apply Hi; left). apply elem_of_key_ids in Hik as (Hi0 & sx & Hsx). rewrite slot_lookup in Hsx. destruct (l !! Z.to_nat i) as [[x|]|] eqn:Hx; [|done|done].
  assert (Hrow : row_at i = x) by (unfold row_at; by rewrite Hx). rewrite Hrow.
  assert (Hs : serve [] completion (insert_key EncodeKey (LocateRow E hash) route (node_id E) ps in_tables set_tables) i s = ins x s).
  { unfold serve, insert_key. rewrite slot_lookup, Hx. cbn [option_map ins_slot key_slot s_rel s_key s_slice]. rewrite view_key by apply ins_key_short.
    assert (Hrel : i16 (ins_rel x) = ins_rel x) by (by destruct x). rewrite Hrel. unfold TpccInsert.ins.
    destruct (SearchOrCreate _ _ _) as [[r created] t']. cbn [mbind result_bind]. rewrite (Hc i x Hi0 Hx). done. }
  rewrite Hs. destruct (ins x s); cbn [mbind result_bind]; [|done]. apply IH. intros j Hj. apply Hi. by right.
Qed.

Lemma insert_call aff s : ∃ nb here pieces ls,
  (TxnIndexInsert E hash sid epoch state gap completion aff ps s = s' ← for_each ins here s; Ok (nb, (s', pieces))) ∧
  Forall2 (fun p l => ∀ s, ip_body p s = for_each ins l s) pieces ls ∧ here ++ concat ls ≡ₚ omap id l ∧ len nb ≤ nr_nodes E.
Proof using Hr Hsl Hps Hlen Hc TableLaws0.
  destruct (index_insert_exactly_once EncodeKey (LocateRow E hash) route (nr_nodes E) (node_id E) sid epoch state gap aff [] ps in_tables set_tables completion s insert_request)
    as (nb & here & pieces & keys & EI & Hp & Hperm).
  assert (Hin : ∀ i, i ∈ here ++ concat keys → i ∈ key_ids sl) by (intros i; by rewrite Hperm).
  assert (Hnb : ∃ nb', GenerateNodeBitmap (LocateRow E hash) route (nr_nodes E) (node_id E) ps = Ok nb' ∧ len nb' ≤ nr_nodes E ∧
    ∀ y, TxnIndexOp EncodeKey (LocateRow E hash) route (nr_nodes E) (node_id E) (insert_op in_tables set_tables) completion sid epoch state gap aff [] ps s = Ok y → y.1 = nb').
  { pose proof insert_request as Hrq. pose proof (ir_nodes Hr). assert (Hho := rq_homes_ok _ _ _ _ _ _ _ _ _ _ Hrq).
    rewrite (GenerateNodeBitmap_eq EncodeKey) by (try apply Hrq; try exact Hho; lia). eexists. split; [done|]. split.
    - apply (GenerateNodeBitmap_len (LocateRow E hash) route (nr_nodes E) (node_id E) ps); [lia|]. apply (GenerateNodeBitmap_eq EncodeKey); try apply Hrq; try exact Hho; lia.
    - intros y. unfold TxnIndexOp. rewrite (GenerateNodeBitmap_eq EncodeKey) by (try apply Hrq; try exact Hho; lia). cbn [mbind result_bind].
      destruct (TxnIndexOpWithNodeBitmap _ _ _ _ _ _ _ _ _ _ _ _ _ _); cbn [mbind result_bind]; [|done]. by intros [= <-]. }
  destruct Hnb as (nb' & _ & Hlnb & Hnb). exists nb', (map row_at here), (map (fun p => mkInsPiece (at_node p) (at_aff p) (run_piece (insert_op in_tables set_tables) completion (at_capture p))) pieces), (map (map row_at) keys).
  split; [|split; [|split; [|done]]].
  - unfold TxnIndexInsert. rewrite EI, serve_ins in * by (intros; apply Hin; set_solver). destruct (for_each ins (map row_at here) s); cbn [mbind result_bind]; [|done].
    specialize (Hnb _ eq_refl). cbn in Hnb. by rewrite Hnb.
  - apply Forall2_fmap. assert (Hk : ∀ k i, k ∈ keys → i ∈ k → i ∈ key_ids sl).
    { intros k i Hk Hi. apply Hin, elem_of_app. right. apply list_elem_of_In, in_concat. exists k. split; by apply list_elem_of_In. }
    clear -Hp Hk Hsl Hc. induction Hp as [|p k pieces keys Hpk _ IH]; [constructor|]. constructor.
    + intros s'. cbn [ip_body]. rewrite Hpk. apply serve_ins. intros i Hi. by apply (Hk k); [left|].
    + apply IH. intros k' i Hk'. apply Hk. by right.
  - rewrite <- rows_of_ids, <- Hperm, map_app, concat_map. done.
Qed.
End Call.

(** no row of the order is there *)
Definition no_rows (s0 : St) : Prop := ∀ x, x ∈ ins_rows o → Search (in_tables s0).1 (ins_rel x) (EncodeKey (ins_key o oid x)) = None.

(** a run of lists of rows *)
Lemma run_ins (s0 : St) : no_rows s0 →
  ∀ l X s, after_ins o oid ts_now unit_price row_slice s0 X s → NoDup (l ++ X) → l ++ X ⊆ ins_rows o →
  ∃ t, for_each ins l s = Ok t ∧ after_ins o oid ts_now unit_price row_slice s0 (reverse l ++ X) t.
Proof using Hr TableLaws0.
  intros Hfresh l. induction l as [|x l IH]; intros X s Ha Hnd Hsub; cbn [for_each]; [by eexists|].
  apply NoDup_cons in Hnd as [Hx Hnd]. apply not_elem_of_app in Hx as [Hxl HxX].
  destruct (after_ins_step o oid ts_now unit_price row_slice (ir_items Hr) (ir_arrays Hr) s0 X x s Hfresh Ha) as (s1 & -> & Ha1); [set_solver|done|set_solver|].
  cbn [mbind result_bind]. rewrite reverse_cons, <- app_assoc. apply IH; [done| |set_solver].
  change ([x] ++ X) with (x :: X). rewrite <- Permutation_middle. apply NoDup_cons. split; [set_solver|done].
Qed.
Lemma after_ins_perm s0 X Y s : X ≡ₚ Y → after_ins o oid ts_now unit_price row_slice s0 X s → after_ins o oid ts_now unit_price row_slice s0 Y s.
Proof using Type.
  intros HXY [A1 A2 A3 A4 A5 A6]. split; try done.
  - intros x Hx. apply A1. by rewrite HXY.
  - intros x Hx HxY. apply A2; [done|]. by rewrite HXY.
  - intros x y r Hx Hy. apply A3; by rewrite HXY.
Qed.
Lemma for_each_pieces ps ls (s : St) : Forall2 (fun p l => ∀ s, ip_body p s = for_each ins l s) ps ls → for_each ip_body ps s = for_each ins (concat ls) s.
Proof using Type.
  intros HF. revert s. induction HF as [|p l ps ls Hp _ IH]; intros s; [done|]. cbn [for_each concat]. rewrite for_each_app, Hp.
  destruct (for_each ins l s); cbn [mbind result_bind]; [apply IH|done].
Qed.

Lemma after_ins_start s0 : no_rows s0 →
  after_ins o oid ts_now unit_price row_slice s0 [] s0.
Proof using Type.
  intros Hf. split; [intros x Hx; by apply elem_of_nil in Hx|auto|intros x y r Hx; by apply elem_of_nil in Hx|done|by intros|by destruct (in_db s0)].
Qed.

(** pieces and rows done here that make up the order, in whatever order the pieces run *)
Lemma all_rows_inserted s0 here s1 pieces ls ps' : no_rows s0 →
  for_each ins here s0 = Ok s1 → Forall2 (fun p l => ∀ s, ip_body p s = for_each ins l s) pieces ls → here ++ concat ls ≡ₚ ins_rows o → ps' ≡ₚ pieces →
  ∃ t, for_each ip_body ps' s1 = Ok t ∧ after_ins o oid ts_now unit_price row_slice s0 (ins_rows o) t.
Proof using Hr TableLaws0.
  intros Hfresh Eh HF Hrows Hps. destruct (Forall2_permuted _ _ ps' _ (symmetry Hps) HF) as (ls' & Hls & HF').
  assert (Hall : here ++ concat ls' ≡ₚ ins_rows o) by (rewrite <- Hrows; apply Permutation_app_head; by rewrite Hls).
  destruct (run_ins s0 Hfresh (here ++ concat ls') [] s0) as (t & Et & Ha).
  - by apply after_ins_start.
  - rewrite app_nil_r, Hall. apply NoDup_ins_rows.
  - rewrite app_nil_r. intros x. by rewrite Hall.
  - rewrite for_each_app, Eh in Et. cbn [mbind result_bind] in Et. exists t. split; [by rewrite (for_each_pieces _ _ _ HF')|].
    eapply after_ins_perm; [|exact Ha]. by rewrite app_nil_r, reverse_Permutation.
Qed.

Lemma here_inserted s0 l : no_rows s0 →
  NoDup l → l ⊆ ins_rows o → ∃ s1, for_each ins l s0 = Ok s1.
Proof using Hr TableLaws0.
  intros Hfresh Hnd Hsub. destruct (run_ins s0 Hfresh l [] s0) as (t & Et & _); [by apply after_ins_start|by rewrite app_nil_r|by rewrite app_nil_r|by exists t].
Qed.
(** the calls of [PrepareInsert] *)
Lemma nth_cases (l : list (option InsRow)) i x : 0 ≤ i → l !! Z.to_nat i = Some (Some x) → i < len l.
Proof using Type. intros Hi Hx. apply lookup_lt_Some in Hx. lia. Qed.
Lemma lines_call aff (s : St) : ∃ nb here pieces ls,
  (TxnIndexInsert E hash sid epoch state gap (OrderLinesInsertCompletion o unit_price) aff [KeyParam tOrderLine (orderline_keys o oid)] s =
    s' ← for_each ins here s; Ok (nb, (s', pieces))) ∧
  Forall2 (fun p l => ∀ s, ip_body p s = for_each ins l s) pieces ls ∧ here ++ concat ls ≡ₚ map IRLine (seqZ 0 n) ∧ len nb ≤ nr_nodes E.
Proof using Hr TableLaws0.
  assert (Hom : omap id (map (fun i => Some (IRLine i)) (seqZ 0 n)) = map IRLine (seqZ 0 n)).
  { generalize (seqZ 0 n). intros l. induction l as [|i l IH]; [done|]. cbn [map]. rewrite <- IH. done. }
  rewrite <- Hom. pose proof (ir_items Hr). apply insert_call.
  - unfold slots, orderline_keys. cbn [flat_map param_slots]. rewrite app_nil_r, !map_map. done.
  - by repeat constructor.
  - rewrite length_map, length_seqZ. lia.
  - intros i x Hi Hx r s'. change (map ?f ?l) with (f <$> l) in Hx. rewrite list_lookup_fmap in Hx. destruct (seqZ 0 n !! Z.to_nat i) as [j|] eqn:Ej; [|done].
    apply lookup_seqZ in Ej as [-> ?]. injection Hx as <-. replace (0 + Z.of_nat (Z.to_nat i)) with i by lia. done.
Qed.
Lemma other_call aff l ps args (s : St) : slots EncodeKey (LocateRow E hash) route (node_id E) ps = map (option_map ins_slot) l → Forall param_ok ps → len l ≤ 3 →
  (∀ x, l !! 0%nat = Some (Some x) → x = IROrder ∧ args = order_value o ts_now) → (∀ x, l !! 1%nat = Some (Some x) → x = IRNew) → (∀ x, l !! 2%nat = Some (Some x) → x = IRCid) →
  ∃ nb here pieces ls, (TxnIndexInsert E hash sid epoch state gap (OtherInsertCompletion args) aff ps s = s' ← for_each ins here s; Ok (nb, (s', pieces))) ∧
  Forall2 (fun p l => ∀ s, ip_body p s = for_each ins l s) pieces ls ∧ here ++ concat ls ≡ₚ omap id l ∧ len nb ≤ nr_nodes E.
Proof using Hr TableLaws0.
  intros Hsl Hps Hlen H0 H1 H2. apply insert_call; [done|done|lia|]. intros i x Hi Hx r s'. pose proof (nth_cases l i x Hi Hx).
  assert (i = 0 ∨ i = 1 ∨ i = 2) as [-> |[-> | ->]] by lia.
  - destruct (H0 x Hx) as [-> ->]. done.
  - by rewrite (H1 x Hx).
  - by rewrite (H2 x Hx).
Qed.
Lemma here_ok s0 l r : no_rows s0 → l ++ r ≡ₚ ins_rows o → ∃ s1, for_each ins l s0 = Ok s1.
Proof using Hr TableLaws0.
  intros Hf Hp. apply here_inserted; [done| |].
  - pose proof (NoDup_ins_rows o) as Hnd. rewrite <- Hp in Hnd. by apply NoDup_app in Hnd as [? _].
  - intros x Hx. rewrite <- Hp. apply elem_of_app. by left.
Qed.

(** all rows are there when the pieces have run, in whatever order *)
Definition all_inserted (s0 s1 : St) (pieces : list InsPiece) : Prop :=
  ∀ ps', ps' ≡ₚ pieces → ∃ t, for_each ip_body ps' s1 = Ok t ∧ after_ins o oid ts_now unit_price row_slice s0 (ins_rows o) t.
Notation call := (TxnIndexInsert E hash sid epoch state gap).
Notation lines := (KeyParam tOrderLine (orderline_keys o oid)).
Notation oorder := (KeyParam tOOrder [oorder_key o oid]).
Notation neworder := (KeyParam tNewOrder [neworder_key o oid]).
Notation cididx := (KeyParam tOOrderCIdIdx [cididx_key o oid]).

(** the insertion in two calls *)
Lemma insert_two aff s0 : no_rows s0 → ∃ n1 s1 p1 n2 s2 p2,
  call (OrderLinesInsertCompletion o unit_price) aff [lines] s0 = Ok (n1, (s1, p1)) ∧
  call (OtherInsertCompletion (order_value o ts_now)) aff [oorder; neworder; cididx] s1 = Ok (n2, (s2, p2)) ∧ all_inserted s0 s2 (p1 ++ p2).
Proof using Hr TableLaws0.
  intros Hf. destruct (lines_call aff s0) as (n1 & h1 & p1 & l1 & E1 & F1 & P1 & _).
  destruct (here_ok s0 h1 (concat l1 ++ [IROrder; IRNew; IRCid])) as [s1 Es1]; [done|by rewrite app_assoc, P1|].
  destruct (other_call aff [Some IROrder; Some IRNew; Some IRCid] [oorder; neworder; cididx] (order_value o ts_now) s1)
    as (n2 & h2 & p2 & l2 & E2 & F2 & P2 & _); [done|by repeat constructor|done|by intros x [= <-]|by intros x [= <-]|by intros x [= <-]|].
  assert (Hall : (h1 ++ h2) ++ concat (l1 ++ l2) ≡ₚ ins_rows o).
  { unfold ins_rows. rewrite <- P1. change [IROrder; IRNew; IRCid] with (omap id [Some IROrder; Some IRNew; Some IRCid]). rewrite <- P2, concat_app.
    clear. rewrite <- !app_assoc. apply Permutation_app_head. by rewrite (Permutation_app_swap_app h2). }
  destruct (here_ok s0 (h1 ++ h2) _ Hf Hall) as [s2 Es2]. assert (Es2' := Es2). rewrite for_each_app, Es1 in Es2'. cbn [mbind result_bind] in Es2'.
  exists n1, s1, p1, n2, s2, p2. split; [by rewrite E1, Es1|]. split; [by rewrite E2, Es2'|]. intros ps' Hps.
  by apply (all_rows_inserted s0 (h1 ++ h2) s2 (p1 ++ p2) (l1 ++ l2)); [..|apply Forall2_app| |].
Qed.

(** the insertion in three calls, on a single node *)
Lemma insert_three aff s0 : no_rows s0 → nr_nodes E = 1 → ∃ n1 s1 p1 n2 s2 p2 n3 s3 p3 n23,
  call (OrderLinesInsertCompletion o unit_price) aff [lines] s0 = Ok (n1, (s1, p1)) ∧
  call (OtherInsertCompletion (order_value o ts_now)) aff [oorder; PlaceholderParam 1; cididx] s1 = Ok (n2, (s2, p2)) ∧
  call (OtherInsertCompletion (mkOOrder 0 0 0 false 0)) aff [PlaceholderParam 1; neworder] s2 = Ok (n3, (s3, p3)) ∧
  NodeBitmap_add n2 n3 = Ok n23 ∧ all_inserted s0 s3 (p1 ++ p2 ++ p3).
Proof using Hr TableLaws0.
  intros Hf Hone. destruct (lines_call aff s0) as (n1 & h1 & p1 & l1 & E1 & F1 & P1 & _).
  assert (Hrows : map IRLine (seqZ 0 n) ++ [IROrder; IRCid] ++ [IRNew] ≡ₚ ins_rows o) by (apply Permutation_app_head; constructor; apply Permutation_swap).
  destruct (here_ok s0 h1 (concat l1 ++ [IROrder; IRNew; IRCid])) as [s1 Es1]; [done|by rewrite app_assoc, P1|].
  destruct (other_call aff [Some IROrder; None; Some IRCid] [oorder; PlaceholderParam 1; cididx] (order_value o ts_now) s1)
    as (n2 & h2 & p2 & l2 & E2 & F2 & P2 & Hn2); [done|by repeat constructor|done|by intros x [= <-]|done|by intros x [= <-]|].
  change (omap id [Some IROrder; None; Some IRCid]) with [IROrder; IRCid] in P2.
  destruct (here_ok s0 (h1 ++ h2) (concat l1 ++ concat l2 ++ [IRNew])) as [s2 Es2]; [done| |].
  { rewrite <- Hrows, <- P1, <- P2. clear. rewrite <- !app_assoc. apply Permutation_app_head. by rewrite (Permutation_app_swap_app h2). }
  destruct (other_call aff [None; Some IRNew] [PlaceholderParam 1; neworder] (mkOOrder 0 0 0 false 0) s2)
    as (n3 & h3 & p3 & l3 & E3 & F3 & P3 & Hn3); [done|by repeat constructor|done|done|by intros x [= <-]|done|].
  change (omap id [None; Some IRNew]) with [IRNew] in P3.
  assert (Hall : ((h1 ++ h2) ++ h3) ++ concat (l1 ++ l2 ++ l3) ≡ₚ ins_rows o).
  { rewrite <- Hrows, <- P1, <- P2, <- P3, !concat_app. clear. rewrite <- !app_assoc. apply Permutation_app_head.
    rewrite (Permutation_app_swap_app h3), (Permutation_app_swap_app h2). do 2 apply Permutation_app_head. by rewrite (Permutation_app_swap_app h3). }
  destruct (here_ok s0 ((h1 ++ h2) ++ h3) _ Hf Hall) as [s3 Es3].
  assert (Es2' := Es2). rewrite for_each_app, Es1 in Es2'. assert (Es3' := Es3). rewrite for_each_app, Es2 in Es3'. cbn [mbind result_bind] in Es2', Es3'.
  destruct (NodeBitmap_add_ok n3 n2) as [n23 En]; [unfold kMaxPackedKeys; lia|].
  exists n1, s1, p1, n2, s2, p2, n3, s3, p3, n23. split; [by rewrite E1, Es1|]. split; [by rewrite E2, Es2'|]. split; [by rewrite E3, Es3'|]. split; [done|].
  intros ps' Hps. by apply (all_rows_inserted s0 ((h1 ++ h2) ++ h3) s3 (p1 ++ p2 ++ p3) (l1 ++ l2 ++ l3)); [..|repeat apply Forall2_app| |].
Qed.
End Order.


(** ** The lookups of Delivery *)

(** The node bitmap of a district with an order to deliver assigns the five keys to this
    node, when this node owns the warehouse: what [DeliveryTxn::Run] relies on. *)
Lemma delivery_prepare_local E hash elision w i new_orders skip oid c :
  shard_by_warehouse (cfg E) = true → 1 ≤ w ≤ nr_warehouses (cfg E) → nr_warehouses (cfg E) < 2 ^ 15 → 0 < nr_nodes E →
  SliceToNodeId (cfg E) (nr_nodes E) (WarehouseToSliceId w) = node_id E →
  elision = false ∨ IsWarehousePinnable (cfg E) (nr_nodes E) (g_nr_threads E) = true →
  find_new_order new_orders skip = Some (oid, c) →
  ∃ nb, Delivery_Prepare E hash elision w i new_orders skip = Ok nb ∧ bits_ready 5 (fun _ => node_id E) nb.
Proof.
  intros Hs Hw H15 Hn Hnode Hmode Hfind. unfold Delivery_Prepare. rewrite Hfind.
  assert (Hm : negb elision || IsWarehousePinnable (cfg E) (nr_nodes E) (g_nr_threads E) = true) by (destruct Hmode as [-> | ->]; [done|apply orb_true_r]).
  assert (Hsl : WarehouseToSliceId w = w - 1) by (unfold WarehouseToSliceId; apply u32_id; lia).
  assert (Hmax : max_slice_id (cfg E) = nr_warehouses (cfg E)) by (unfold max_slice_id; by rewrite Hs).
  rewrite Hm. apply generate_ready; [done|by repeat constructor|done|unfold kMaxPackedKeys; lia| |].
  - intros j Hj. assert (Hh : ∀ rel k, k.[0] = w → home (LocateRow E hash) (SliceToNodeId (cfg E) (nr_nodes E)) (node_id E) rel k = node_id E).
    { intros rel k Hk. unfold home, LocateRow. rewrite Hs, Hk, Hsl, (proj2 (Z.leb_le 0 _)) by lia. by rewrite <- Hsl. }
    unfold slots, delivery_params. cbn [flat_map param_slots delivery_range map app].
    assert (j = 0 ∨ j = 1 ∨ j = 2 ∨ j = 3 ∨ j = 4) as [-> |[-> |[-> |[-> | ->]]]] by lia; (eexists; split; [reflexivity|]; cbn [s_home key_slot]; by apply Hh).
  - intros j Hj. rewrite <- Hnode. apply SliceToNodeId_range; [done|lia|]. rewrite Hsl, Hmax. lia.
Qed.
(** districts without an order, or whose next order is not visible yet, are left out *)
Lemma delivery_prepare_none E hash elision w i new_orders skip :
  find_new_order new_orders skip = None → Delivery_Prepare E hash elision w i new_orders skip = Ok [].
Proof. intros H. unfold Delivery_Prepare. by rewrite H. Qed.

(** ** Witnesses *)

Module InsertSamples.
(** tables as maps from keys to rows; insertions do not scan *)
#[global] Instance map_tables : Tables (gmap (Z * list Z) Z) := {
  Search t rel k := t !! (rel, k);
  Scan _ _ _ _ := [];
  SearchOrCreate t rel k :=
    match t !! (rel, k) with Some r => (r, false, t) | None => let r := fresh (map_img (SA := gset Z) t) in (r, true, <[(rel, k) := r]> t) end;
}.
#[global] Instance map_laws : TableLaws (gmap (Z * list Z) Z).
Proof.
  split; cbn.
  - by intros t rel k r ->.
  - intros t rel k ->. eexists _, _. split; [done|]. split; [apply lookup_insert_eq|]. split; [intros; by apply lookup_insert_ne|].
    intros rel' k' Hk. apply (is_fresh (map_img (SA := gset Z) t)). by apply (elem_of_map_img_2 _ (rel', k')).
Qed.
(** orders and lines on the first node, the other rows on the second *)
Definition hash (k : list Z) : Z := if len k =? 3 then 0 else 100.
Definition env : Env := TpccSamples.env false false.
Definition empty_state : @InsSt (gmap (Z * list Z) Z) := mkIns (∅, []) (mkDB ∅ ∅ ∅ ∅ ∅ ∅ ∅) ∅ ∅ 0 0 0.
Definition counters : list Z := replicate 32 3001.
Lemma insert_sample : insert_ready env 8 1 (mkObj 1 1 64) 0 TpccSamples.no [107; 108; 109; 110; 111].
Proof. split; cbn; lia. Qed.
End InsertSamples.

