(* ===== verification/Ermia.v ===== *)
(** Checkpoint files in the format of ERMIA (chkpt/ermia.cc): the header, tables and
    entries as bytes, the export of relations, and the reader that dumps a file. *)

From S2P Require Import Prelude SqlTypes SizeCode.

(** ** Raw structures *)

(** [fread] of one item: it returns 0, and [ABORT_IF] aborts, at the end of the file and
    also for an item of 0 bytes *)
Definition fread (n : Z) (p : list Z) : result (list Z * list Z) :=
  if (n =? 0) || (len p <? n) then Err Aborted else Ok (take (Z.to_nat n) p, drop (Z.to_nat n) p).
(** [fwrite] of one item from memory; it reads [n] bytes behind the pointer *)
Definition fwrite (n : Z) (mem : list Z) : result (list Z) :=
  if len mem <? n then Err OutOfRange else Ok (take (Z.to_nat n) mem).

(** a [struct] of little-endian words without padding, by the widths of its words *)
Definition WriteStruct_raw (ws : list nat) (xs : list Z) : list Z := concat (zip_with le_split ws xs).
Fixpoint split_words (ws : list nat) (b : list Z) : list Z :=
  match ws with [] => [] | w :: ws => le_combine (take w b) :: split_words ws (drop w b) end.
Definition ReadStruct_raw (ws : list nat) (p : list Z) : result (list Z * list Z) :=
  '(b, p) ← fread (Z.of_nat (sum_list ws)) p; Ok (split_words ws b, p).
Definition ReadWord (w : nat) (p : list Z) : result (Z * list Z) := '(xs, p) ← ReadStruct_raw [w] p; Ok (default 0 (head xs), p).

(** [std::string]; the reader makes the string from a C string *)
Fixpoint c_str (s : list Z) : list Z := match s with [] => [] | c :: s => if c =? 0 then [] else c :: c_str s end.
Definition WriteString (s : list Z) : list Z := le_split 8 (len s) ++ s.
Definition ReadString (p : list Z) : result (list Z * list Z) :=
  '(n, p) ← ReadWord 8 p; '(s, p) ← fread n p; Ok (c_str s, p).

(** ** Header *)

Record ErmiaTableDesc := mkDesc { td_name : list Z; td_fid : Z; td_max_oid : Z }.
Definition WriteDesc (d : ErmiaTableDesc) : list Z := WriteString (td_name d) ++ le_split 4 (td_fid d) ++ le_split 4 (td_max_oid d).
Definition ReadDesc (p : list Z) : result (ErmiaTableDesc * list Z) :=
  '(name, p) ← ReadString p; '(fid, p) ← ReadWord 4 p; '(max_oid, p) ← ReadWord 4 p; Ok (mkDesc name fid max_oid, p).
Definition WriteHeader (ds : list ErmiaTableDesc) : list Z := le_split 4 (len ds) ++ flat_map WriteDesc ds.
Fixpoint read_descs (n : nat) (p : list Z) : result (list ErmiaTableDesc * list Z) :=
  match n with O => Ok ([], p) | S n => '(d, p) ← ReadDesc p; '(ds, p) ← read_descs n p; Ok (d :: ds, p) end.
Definition ReadHeader (p : list Z) : result (list ErmiaTableDesc * list Z) := '(n, p) ← ReadWord 4 p; read_descs (Z.to_nat n) p.

(** ** Entries *)

Record ErmiaObjectHeader := mkObjHdr { pdest : Z; oh_next : Z; clsn : Z; oh_epoch : Z }.
Record ErmiaTupleHeader := mkTupHdr {
  th_bitmap : list Z; sstamp : Z; xstamp : Z; preader : Z; th_s2 : Z; th_size : Z; th_pad : Z; pvalue_garbage : Z }.
Definition object_words : list nat := [8; 8; 8; 8]%nat.
Definition tuple_words : list nat := [8; 8; 8; 8; 8; 8; 8; 8; 4; 4; 8]%nat.
Definition object_vals (o : ErmiaObjectHeader) : list Z := [pdest o; oh_next o; clsn o; oh_epoch o].
Definition tuple_vals (t : ErmiaTupleHeader) : list Z :=
  take 4 (th_bitmap t ++ [0; 0; 0; 0]) ++ [sstamp t; xstamp t; preader t; th_s2 t; th_size t; th_pad t; pvalue_garbage t].
Definition to_object (xs : list Z) : ErmiaObjectHeader := mkObjHdr (xs.[0]) (xs.[1]) (xs.[2]) (xs.[3]).
Definition to_tuple (xs : list Z) : ErmiaTupleHeader :=
  mkTupHdr (take 4 xs) (xs.[4]) (xs.[5]) (xs.[6]) (xs.[7]) (xs.[8]) (xs.[9]) (xs.[10]).
(** [sizeof(ErmiaObjectHeader) + sizeof(ErmiaTupleHeader)] *)
Definition hdr_offset : Z := 32 + 80.

(** an entry: [key_data] and [value_data] are the memory behind the pointers; the entry
    with [oid = max_oid] is the end *)
Record ErmiaEntry := mkEntry {
  e_oid : Z; object_hdr : ErmiaObjectHeader; tuple_hdr : ErmiaTupleHeader; key_size : Z; key_data : list Z; value_data : list Z }.

Definition ReadEntry (max_oid : Z) (p : list Z) : result (option ErmiaEntry * list Z) :=
  '(oid, p) ← ReadWord 4 p;
  if oid =? max_oid then Ok (None, p) else
  '(ks, p) ← ReadWord 4 p;
  '(key, p) ← fread ks p;
  '(vscode, p) ← ReadWord 1 p;
  '(o, p) ← ReadStruct_raw object_words p;
  '(t, p) ← ReadStruct_raw tuple_words p;
  let storage := DecodeSizeAligned vscode 4 in
  _ ← abort_if (storage <? th_size (to_tuple t) + hdr_offset);
  '(v, p) ← fread (storage - hdr_offset) p;
  Ok (Some (mkEntry oid (to_object o) (to_tuple t) ks key v), p).

(** [EncodeSizeAligned] rounds [storage_size] up, by reference *)
Definition WriteEntry (max_oid : Z) (e : ErmiaEntry) : result (list Z) :=
  if e_oid e =? max_oid then Ok (le_split 4 (e_oid e)) else
  key ← fwrite (key_size e) (key_data e);
  _ ← abort_if (key_size e =? 0);
  match EncodeSizeAligned (hdr_offset + th_size (tuple_hdr e)) 4 with
  | None => Err Blocked
  | Some (vscode, storage) =>
      value ← fwrite (storage - hdr_offset) (value_data e);
      _ ← abort_if (storage - hdr_offset =? 0);
      Ok (le_split 4 (e_oid e) ++ le_split 4 (key_size e) ++ key ++ [vscode] ++
          WriteStruct_raw object_words (object_vals (object_hdr e)) ++ WriteStruct_raw tuple_words (tuple_vals (tuple_hdr e)) ++ value)
  end.

(** ** Tables *)

Record ErmiaTable := mkTable { t_max_oid : Z; t_fid : Z; t_entries : list ErmiaEntry }.
(** the loop over [ReadIterator] until an entry equals the end *)
Fixpoint read_entries (fuel : nat) (max_oid : Z) (p : list Z) : result (list ErmiaEntry * list Z) :=
  match fuel with
  | O => Err Blocked
  | S fuel =>
      '(o, p) ← ReadEntry max_oid p;
      match o with None => Ok ([], p) | Some e => '(es, p) ← read_entries fuel max_oid p; Ok (e :: es, p) end
  end.
Definition ReadTable (p : list Z) : result (ErmiaTable * list Z) :=
  '(max_oid, p) ← ReadWord 4 p; '(fid, p) ← ReadWord 4 p;
  '(es, p) ← read_entries (S (length p)) max_oid p; Ok (mkTable max_oid fid es, p).
Fixpoint read_tables (n : nat) (p : list Z) : result (list ErmiaTable * list Z) :=
  match n with O => Ok ([], p) | S n => '(t, p) ← ReadTable p; '(ts, p) ← read_tables n p; Ok (t :: ts, p) end.
(** [main] of the stand-alone program *)
Definition ReadCheckpoint (p : list Z) : result (list ErmiaTableDesc * list ErmiaTable * list Z) :=
  '(ds, p) ← ReadHeader p; '(ts, p) ← read_tables (length ds) p; Ok (ds, ts, p).

(** ** Export *)

(** what the code reads of a relation, through an interface ([nr_unique_keys], [key_length],
    [SearchIterator]) that is not part of the repository: its rows in key order, each with its
    key and its newest value, if there is one: the length and the memory behind the pointer *)
Record Relation := mkRel { r_name : list Z; r_fid : Z; key_length : Z; nr_unique_keys : Z; r_rows : list (list Z * option (Z * list Z)) }.

(** the entry of a row at position [pos] of the file ([TableDataIterator::operator*]) *)
Definition row_entry (pos oid key_size : Z) (key : list Z) (vlen : Z) (v : list Z) : ErmiaEntry :=
  mkEntry oid (mkObjHdr (u64 (Z.lor (Z.shiftl pos 16) 0x5000)) 0 (Z.lor (Z.shiftl 1 16) 0x1000) 0)
    (mkTupHdr [0; 0; 0; 0] 0 0 0 0 vlen 0 0) key_size key v.
(** [operator++] skips rows without a value *)
Fixpoint skip_deleted (rows : list (list Z * option (Z * list Z))) : list (list Z * option (Z * list Z)) :=
  match rows with (_, None) :: rows => skip_deleted rows | rows => rows end.
(** the loop of [WriteStruct(ErmiaTableData)]; the value of the first row is not tested *)
Fixpoint export_rows (fuel : nat) (pos oid : Z) (r : Relation) (rows : list (list Z * option (Z * list Z))) : result (list Z) :=
  match fuel, rows with
  | O, _ => Err Blocked
  | _, [] => Ok (le_split 4 (nr_unique_keys r))
  | _, (_, None) :: _ => Err OutOfRange
  | S fuel, (key, Some (vlen, v)) :: rows =>
      b ← WriteEntry (nr_unique_keys r) (row_entry pos oid (key_length r) key vlen v);
      rest ← export_rows fuel (pos + len b) (u32 (oid + 1)) r (skip_deleted rows); Ok (b ++ rest)
  end.
Definition ExportRelation (pos : Z) (r : Relation) : result (list Z) :=
  b ← export_rows (S (length (r_rows r))) (pos + 8) 0 r (r_rows r);
  Ok (le_split 4 (nr_unique_keys r) ++ le_split 4 (r_fid r) ++ b).
Definition rel_desc (r : Relation) : ErmiaTableDesc := mkDesc (r_name r) (r_fid r) (nr_unique_keys r).
Definition Export (rels : list Relation) : result (list Z) :=
  let hdr := WriteHeader (map rel_desc rels) in
  for_each (fun r out => b ← ExportRelation (len out) r; Ok (out ++ b)) rels hdr.

(** ** Reading back what was written *)

Lemma fread_app l rest : l ≠ [] → fread (len l) (l ++ rest) = Ok (l, rest).
Proof.
  intros H. unfold fread. rewrite length_app, Nat2Z.id, take_app_length, drop_app_length.
  destruct (Z.eqb_spec (len l) 0) as [E|_]; [by destruct l|]. cbn. by destruct (Z.ltb_spec (Z.of_nat (length l + length rest)) (len l)); [lia|].
Qed.

Definition words_ok (ws : list nat) (xs : list Z) : Prop := Forall2 (fun w x => 0 ≤ x < 2 ^ (8 * Z.of_nat w)) ws xs.

Lemma length_WriteStruct ws xs : words_ok ws xs → length (WriteStruct_raw ws xs) = sum_list ws.
Proof.
  unfold WriteStruct_raw. induction 1 as [|w x ws xs _ _ IH]; [done|]. cbn [zip_with concat sum_list].
  by rewrite length_app, length_le_split, IH.
Qed.

Lemma split_words_write ws xs : words_ok ws xs → split_words ws (WriteStruct_raw ws xs) = xs.
Proof.
  unfold WriteStruct_raw. induction 1 as [|w x ws xs Hx _ IH]; [done|]. cbn [zip_with concat split_words].
  rewrite take_app_length', drop_app_length' by (by rewrite length_le_split). by rewrite le_combine_split, IH by done.
Qed.

Lemma ReadStruct_write ws xs rest : words_ok ws xs → sum_list ws ≠ 0%nat →
  ReadStruct_raw ws (WriteStruct_raw ws xs ++ rest) = Ok (xs, rest).
Proof.
  intros H Hn. unfold ReadStruct_raw. rewrite <- (length_WriteStruct ws xs H). rewrite fread_app.
  - cbn. by rewrite split_words_write by done.
  - rewrite <- (length_WriteStruct ws xs H) in Hn. by intros E; rewrite E in Hn.
Qed.

Lemma ReadWord_write w x rest : w ≠ 0%nat → 0 ≤ x < 2 ^ (8 * Z.of_nat w) → ReadWord w (le_split w x ++ rest) = Ok (x, rest).
Proof.
  intros Hw Hx. unfold ReadWord. assert (E : le_split w x = WriteStruct_raw [w] [x]) by (unfold WriteStruct_raw; cbn; by rewrite app_nil_r).
  rewrite E, ReadStruct_write; [done| |cbn; lia]. constructor; [done|constructor].
Qed.

Lemma c_str_id s : 0 ∉ s → c_str s = s.
Proof.
  induction s as [|c s IH]; [done|]. intros [Hc Hs]%not_elem_of_cons. cbn. rewrite IH by done.
  by destruct (Z.eqb_spec c 0) as [E|_]; [congruence|].
Qed.

Definition desc_ok (d : ErmiaTableDesc) : Prop :=
  (td_name d ≠ [] ∧ 0 ∉ td_name d ∧ len (td_name d) < 2 ^ 64) ∧ 0 ≤ td_fid d < 2 ^ 32 ∧ 0 ≤ td_max_oid d < 2 ^ 32.

Lemma ReadDesc_write d rest : desc_ok d → ReadDesc (WriteDesc d ++ rest) = Ok (d, rest).
Proof.
  intros ((Hn & H0 & Hl) & Hf & Hm). unfold ReadDesc, ReadString, WriteDesc, WriteString. rewrite <- !app_assoc.
  rewrite ReadWord_write by (try done; cbn; lia). cbn [mbind result_bind]. rewrite fread_app by done. cbn [mbind result_bind].
  rewrite ReadWord_write by (try done; cbn; lia). cbn [mbind result_bind].
  rewrite ReadWord_write by (try done; cbn; lia). cbn [mbind result_bind]. rewrite c_str_id by done. by destruct d.
Qed.

Lemma ReadHeader_write ds rest : Forall desc_ok ds → len ds < 2 ^ 32 → ReadHeader (WriteHeader ds ++ rest) = Ok (ds, rest).
Proof.
  intros H Hn. unfold ReadHeader, WriteHeader. rewrite <- app_assoc, ReadWord_write by (try done; cbn; lia). cbn [mbind result_bind].
  rewrite Nat2Z.id. clear Hn. induction H as [|d ds Hd _ IH]; [done|]. cbn [read_descs length flat_map]. rewrite <- app_assoc, ReadDesc_write by done.
  cbn [mbind result_bind]. by rewrite IH.
Qed.

(** an entry that can be written: the key and the value are in memory, the value with the
    bytes that its storage size rounds up to *)
Definition padded (n : Z) : Z := DecodeSizeAligned (EncodeSize ((hdr_offset + n + 15) / 16)) 4 - hdr_offset.
Record entry_ok (max_oid : Z) (e : ErmiaEntry) : Prop := {
  eo_oid : 0 ≤ e_oid e < 2 ^ 32 ∧ e_oid e ≠ max_oid;
  eo_key : 0 < key_size e < 2 ^ 32 ∧ key_size e ≤ len (key_data e);
  eo_obj : words_ok object_words (object_vals (object_hdr e));
  eo_tup : words_ok tuple_words (tuple_vals (tuple_hdr e)) ∧ length (th_bitmap (tuple_hdr e)) = 4%nat;
  eo_val : 0 < th_size (tuple_hdr e) < 2 ^ 16 ∧ padded (th_size (tuple_hdr e)) ≤ len (value_data e) }.

(** what a reader makes of an entry *)
Definition stored (e : ErmiaEntry) : ErmiaEntry :=
  mkEntry (e_oid e) (object_hdr e) (tuple_hdr e) (key_size e) (take (Z.to_nat (key_size e)) (key_data e))
    (take (Z.to_nat (padded (th_size (tuple_hdr e)))) (value_data e)).

Lemma encode_padded n : 0 < n < 2 ^ 16 → ∃ c, EncodeSizeAligned (hdr_offset + n) 4 = Some (c, hdr_offset + padded n) ∧
  0 ≤ c < 256 ∧ DecodeSizeAligned c 4 = hdr_offset + padded n ∧ n ≤ padded n.
Proof.
  intros Hn. destruct (encode_aligned_equiv (hdr_offset + n) 4) as (s & E & Hs & Hle); [unfold hdr_offset in *; lia..|].
  change (2 ^ 4) with 16 in E, Hs, Hle. replace (hdr_offset + n + 16 - 1) with (hdr_offset + n + 15) in E, Hs, Hle by lia.
  assert (Hu : 0 ≤ (hdr_offset + n + 15) / 16 ≤ kMaxEncodableSize).
  { unfold hdr_offset, kMaxEncodableSize. split; [apply Z.div_pos; lia|apply Z.div_le_upper_bound; lia]. }
  destruct (encode_least _ Hu) as [Hc _ _]. specialize (Hle (proj2 Hu)).
  exists (EncodeSize ((hdr_offset + n + 15) / 16)). unfold padded. rewrite <- Hs.
  split; [rewrite E; do 2 f_equal; lia|]. split; [lia|]. split; lia.
Qed.

Lemma to_object_vals o : to_object (object_vals o) = o.
Proof. by destruct o. Qed.
Lemma to_tuple_vals t : length (th_bitmap t) = 4%nat → to_tuple (tuple_vals t) = t.
Proof. destruct t as [l]; cbn. by destruct l as [|? [|? [|? [|? [|]]]]]. Qed.

Lemma fwrite_ok n mem : n ≤ len mem → fwrite n mem = Ok (take (Z.to_nat n) mem).
Proof. intros H. unfold fwrite. by rewrite (proj2 (Z.ltb_ge _ _) H). Qed.

Lemma fread_take n mem rest : 0 < n ≤ len mem → fread n (take (Z.to_nat n) mem ++ rest) = Ok (take (Z.to_nat n) mem, rest).
Proof.
  intros H. assert (E : len (take (Z.to_nat n) mem) = n) by (rewrite length_take; lia). rewrite <- E at 1. apply fread_app.
  intros E'. rewrite E' in E. cbn in E. lia.
Qed.

(** an entry is read back as it was stored *)
Lemma entry_roundtrip max_oid e : entry_ok max_oid e →
  ∃ b, WriteEntry max_oid e = Ok b ∧ b ≠ [] ∧ ∀ rest, ReadEntry max_oid (b ++ rest) = Ok (Some (stored e), rest).
Proof.
  intros [[Ho Hne] [Hk Hkl] Hobj [Htup Hbm] [Hv Hvl]]. destruct (encode_padded _ Hv) as (c & E & Hc & Hd & Hle).
  unfold WriteEntry. rewrite (proj2 (Z.eqb_neq _ _) Hne), fwrite_ok by done. cbn [mbind result_bind].
  rewrite (proj2 (Z.eqb_neq (key_size e) 0)) by lia. cbn [abort_if mbind result_bind]. rewrite E.
  replace (hdr_offset + padded (th_size (tuple_hdr e)) - hdr_offset) with (padded (th_size (tuple_hdr e))) by lia.
  rewrite fwrite_ok by done. cbn [mbind result_bind]. rewrite (proj2 (Z.eqb_neq (padded _) 0)) by lia. cbn [abort_if mbind result_bind].
  eexists. split; [done|]. split; [done|]. intros rest. rewrite <- !app_assoc. unfold ReadEntry.
  rewrite ReadWord_write by (try done; cbn; lia). cbn [mbind result_bind]. rewrite (proj2 (Z.eqb_neq _ _) Hne).
  rewrite ReadWord_write by (try done; cbn; lia). cbn [mbind result_bind]. rewrite fread_take by lia. cbn [mbind result_bind].
  assert (Ec : [c] = le_split 1 c) by (cbn; rewrite Z.mod_small by lia; done). rewrite Ec.
  rewrite ReadWord_write by (try done; cbn; lia). cbn [mbind result_bind].
  rewrite ReadStruct_write by done. cbn [mbind result_bind]. rewrite ReadStruct_write by done. cbn [mbind result_bind].
  rewrite to_tuple_vals, to_object_vals, Hd by done. rewrite (proj2 (Z.ltb_ge _ _)) by lia. cbn [abort_if mbind result_bind].
  replace (hdr_offset + padded (th_size (tuple_hdr e)) - hdr_offset) with (padded (th_size (tuple_hdr e))) by lia.
  rewrite fread_take by lia. cbn [mbind result_bind]. done.
Qed.

(** ** A whole checkpoint *)

(** the rows that have a value, as a reader should see them *)
Definition row_value (row : list Z * option (Z * list Z)) : option (list Z * list Z) :=
  '(n, v) ← row.2; Some (row.1, take (Z.to_nat n) v).
Definition visible (rows : list (list Z * option (Z * list Z))) : list (list Z * list Z) := omap row_value rows.
Definition entry_row (e : ErmiaEntry) : list Z * list Z := (key_data e, take (Z.to_nat (th_size (tuple_hdr e))) (value_data e)).

(** every key has the key length of the relation; every value is non-empty, and its memory is
    as long as its padded size *)
Definition row_ok (r : Relation) (row : list Z * option (Z * list Z)) : Prop :=
  len row.1 = key_length r ∧ ∀ n v, row.2 = Some (n, v) → 0 < n < 2 ^ 16 ∧ padded n ≤ len v.

Record rel_ok (r : Relation) : Prop := {
  ro_desc : desc_ok (rel_desc r);
  ro_keylen : 0 < key_length r < 2 ^ 16;
  ro_count : len (visible (r_rows r)) ≤ nr_unique_keys r;
  ro_first : skip_deleted (r_rows r) = r_rows r;
  ro_rows : Forall (row_ok r) (r_rows r) }.

Lemma length_skip_deleted rows : (length (skip_deleted rows) ≤ length rows)%nat.
Proof. induction rows as [|[k [?|]] rows IH]; cbn; lia. Qed.
Lemma skip_deleted_idem rows : skip_deleted (skip_deleted rows) = skip_deleted rows.
Proof. by induction rows as [|[k [?|]] rows IH]; cbn. Qed.
Lemma skip_deleted_ok r rows : Forall (row_ok r) rows → Forall (row_ok r) (skip_deleted rows).
Proof. induction 1 as [|[k [?|]] rows H Hs IH]; cbn; [constructor|by constructor|done]. Qed.
Lemma visible_skip_deleted rows : visible (skip_deleted rows) = visible rows.
Proof. by induction rows as [|[k [?|]] rows IH]; cbn. Qed.
Lemma skip_deleted_live k rows : skip_deleted ((k, None) :: rows) ≠ (k, None) :: rows.
Proof. cbn. intros E. pose proof (length_skip_deleted rows) as H. rewrite E in H. cbn in H. lia. Qed.

Lemma row_entry_ok r pos oid k n v :
  row_ok r (k, Some (n, v)) → 0 < key_length r < 2 ^ 16 → 0 ≤ oid < nr_unique_keys r → nr_unique_keys r < 2 ^ 32 →
  entry_ok (nr_unique_keys r) (row_entry pos oid (key_length r) k n v).
Proof.
  intros [Hk Hv] Hkl Ho Hm. destruct (Hv n v eq_refl) as [Hn Hp]. cbn in Hk. constructor; cbn; [lia|lia| | |by split].
  - pose proof (u64_range (Z.lor (Z.shiftl pos 16) 0x5000)). repeat constructor; cbn; try lia; done.
  - split; [|done]. repeat constructor; cbn; lia.
Qed.

Lemma stored_row r pos oid k n v : row_ok r (k, Some (n, v)) →
  e_oid (stored (row_entry pos oid (key_length r) k n v)) = oid ∧
  entry_row (stored (row_entry pos oid (key_length r) k n v)) = (k, take (Z.to_nat n) v).
Proof.
  intros [Hk Hv]. destruct (Hv n v eq_refl) as [Hn Hp]. split; [done|]. unfold entry_row. cbn. cbn in Hk.
  destruct (encode_padded n Hn) as (c & _ & _ & _ & Hle). rewrite take_ge, take_take by lia.
  by rewrite Nat.min_l by lia.
Qed.

(** the entries of a relation *)
Lemma export_rows_roundtrip r fuel : 0 < key_length r < 2 ^ 16 → nr_unique_keys r < 2 ^ 32 → ∀ rows pos oid,
  (length rows < fuel)%nat → Forall (row_ok r) rows → skip_deleted rows = rows →
  0 ≤ oid → oid + len (visible rows) ≤ nr_unique_keys r →
  ∃ b, export_rows fuel pos oid r rows = Ok b ∧ (length (visible rows) < length b)%nat ∧
    ∀ rest fuel', (length (visible rows) < fuel')%nat → ∃ es, read_entries fuel' (nr_unique_keys r) (b ++ rest) = Ok (es, rest) ∧
      map e_oid es = seqZ oid (len (visible rows)) ∧ map entry_row es = visible rows.
Proof.
  intros Hk Hm. induction fuel as [|fuel IH]; [lia|]. intros rows pos oid Hf Hok Hs Ho Hc.
  destruct rows as [|[k [[n v]|]] rows]; [| |by destruct (skip_deleted_live k rows)]; cbn [export_rows].
  - eexists. split; [done|]. split; [rewrite length_le_split; cbn; lia|]. intros rest [|fuel']; [lia|]. intros _. exists []. split; [|done].
    cbn [read_entries]. unfold ReadEntry. cbn in Hc. rewrite ReadWord_write by (try done; cbn; lia). cbn [mbind result_bind].
    by rewrite Z.eqb_refl.
  - apply Forall_cons in Hok as [Hr Hok]. destruct (stored_row r pos oid k n v Hr) as [Eo Er].
    assert (Ev : visible ((k, Some (n, v)) :: rows) = (k, take (Z.to_nat n) v) :: visible rows) by done.
    rewrite Ev in *. cbn [length] in *.
    destruct (entry_roundtrip _ _ (row_entry_ok r pos oid k n v Hr Hk ltac:(lia) Hm)) as (b & Eb & Hb & Hread).
    rewrite Eb. cbn [mbind result_bind]. pose proof (length_skip_deleted rows).
    destruct (IH (skip_deleted rows) (pos + len b) (u32 (oid + 1))) as (b' & Eb' & Hl & Hrest); [|by apply skip_deleted_ok|apply skip_deleted_idem|..];
      rewrite ?visible_skip_deleted, ?u32_id in * by lia; [lia..|].
    rewrite Eb'. eexists. split; [done|]. assert (length b ≠ 0)%nat by by destruct b.
    split; [rewrite length_app; lia|]. intros rest [|fuel'] Hf'; [lia|]. destruct (Hrest rest fuel' ltac:(lia)) as (es & Ees & Eoid & Erow).
    eexists. rewrite <- app_assoc. cbn [read_entries]. rewrite Hread. cbn [mbind result_bind]. rewrite Ees. cbn [mbind result_bind].
    split; [done|]. cbn [map]. rewrite Eo, Eoid, Er, Erow. split; [|done].
    rewrite (seqZ_cons oid (Z.of_nat (S _))) by lia. f_equal. f_equal; lia.
Qed.

(** what a reader should see of a table *)
Definition table_is (r : Relation) (t : ErmiaTable) : Prop :=
  t_max_oid t = nr_unique_keys r ∧ t_fid t = r_fid r ∧
  map e_oid (t_entries t) = seqZ 0 (len (visible (r_rows r))) ∧ map entry_row (t_entries t) = visible (r_rows r).

Lemma relation_roundtrip r pos : rel_ok r → ∃ b, ExportRelation pos r = Ok b ∧
  ∀ rest, ∃ t, ReadTable (b ++ rest) = Ok (t, rest) ∧ table_is r t.
Proof.
  intros [(_ & Hf & Hm) Hk Hc Hs Hr]. cbn in Hf, Hm. unfold ExportRelation.
  destruct (export_rows_roundtrip r (S (length (r_rows r))) Hk (proj2 Hm) (r_rows r) (pos + 8) 0) as (b & -> & Hl & Hread); [lia|done|done|lia..|].
  eexists. split; [done|]. intros rest. unfold ReadTable. rewrite <- !app_assoc.
  rewrite ReadWord_write by (try done; cbn; lia). cbn [mbind result_bind]. rewrite ReadWord_write by (try done; cbn; lia). cbn [mbind result_bind].
  destruct (Hread rest (S (length (b ++ rest)))) as (es & -> & Ho & He); [rewrite length_app; lia|].
  eexists. split; [done|]. done.
Qed.

Lemma export_tables_roundtrip rels : Forall rel_ok rels → ∀ hdr, ∃ b,
  for_each (fun r out => b ← ExportRelation (len out) r; Ok (out ++ b)) rels hdr = Ok (hdr ++ b) ∧
  ∀ rest, ∃ ts, read_tables (length rels) (b ++ rest) = Ok (ts, rest) ∧ Forall2 table_is rels ts.
Proof.
  induction 1 as [|r rels Hr _ IH]; intros hdr; cbn [for_each].
  - exists []. split; [by rewrite app_nil_r|]. intros rest. by exists [].
  - destruct (relation_roundtrip r (len hdr) Hr) as (b & -> & Hread). cbn [mbind result_bind].
    destruct (IH (hdr ++ b)) as (b' & -> & Hrest). exists (b ++ b'). split; [by rewrite app_assoc|]. intros rest.
    rewrite <- app_assoc. destruct (Hread (b' ++ rest)) as (t & Et & Ht). destruct (Hrest rest) as (ts & Ets & Hts).
    exists (t :: ts). cbn [length read_tables]. rewrite Et. cbn [mbind result_bind]. rewrite Ets. split; [done|by constructor].
Qed.


(** two relations, the first with a deleted row *)
Definition sample_rels : list Relation :=
  [ mkRel [116; 49] 1 2 3 [([0; 1], Some (3, replicate 16 7)); ([0; 2], None); ([0; 3], Some (20, replicate 32 9))];
    mkRel [116; 50] 2 4 1 [([1; 2; 3; 4], Some (100, replicate 112 5))] ].


(** ** What the format cannot hold *)

(** The writer copies the rounded-up size from the value: a value whose size is not exactly
    encodable is read past its end. *)
Lemma writer_overreads max_oid e :
  e_oid e ≠ max_oid → 0 < key_size e ≤ len (key_data e) → 0 < th_size (tuple_hdr e) < 2 ^ 16 →
  len (value_data e) = th_size (tuple_hdr e) → padded (th_size (tuple_hdr e)) ≠ th_size (tuple_hdr e) →
  WriteEntry max_oid e = Err OutOfRange.
Proof.
  intros Hne Hk Hv Hl Hp. destruct (encode_padded _ Hv) as (c & E & _ & _ & Hle).
  unfold WriteEntry. rewrite (proj2 (Z.eqb_neq _ _) Hne), fwrite_ok by lia. cbn [mbind result_bind].
  rewrite (proj2 (Z.eqb_neq (key_size e) 0)) by lia. cbn [abort_if mbind result_bind]. rewrite E. unfold fwrite.
  by rewrite (proj2 (Z.ltb_lt _ _)) by lia.
Qed.

(** A value without bytes aborts the export. *)
Lemma empty_value_aborts max_oid pos oid key v : oid ≠ max_oid → key ≠ [] →
  WriteEntry max_oid (row_entry pos oid (len key) key 0 v) = Err Aborted.
Proof.
  intros Ho Hk. unfold WriteEntry, row_entry. cbn [e_oid key_size key_data tuple_hdr th_size value_data].
  rewrite (proj2 (Z.eqb_neq _ _) Ho), fwrite_ok by lia. cbn [mbind result_bind].
  assert (len key ≠ 0) by by destruct key. rewrite (proj2 (Z.eqb_neq _ _)) by done. cbn [abort_if mbind result_bind].
  change (EncodeSizeAligned (hdr_offset + 0) 4) with (Some (7, 112)). cbv beta iota. change (112 - hdr_offset) with 0. by rewrite fwrite_ok by lia.
Qed.

(** A relation whose first row has no value is not exported: only [operator++] tests the value. *)
Lemma deleted_first_row pos r k rows : r_rows r = (k, None) :: rows → ExportRelation pos r = Err OutOfRange.
Proof. intros E. unfold ExportRelation. rewrite E. done. Qed.

(** A name with a NUL byte is cut, and an empty name aborts the reader. *)
Lemma name_cut : ReadString (WriteString [97; 0; 98]) = Ok ([97], []).
Proof. reflexivity. Qed.
Lemma empty_name_aborts rest : ReadString (WriteString [] ++ rest) = Err Aborted.
Proof. unfold ReadString, WriteString. rewrite app_nil_r, ReadWord_write by (try done; cbn; lia). done. Qed.

(** With more rows than [nr_unique_keys], a row gets the number that ends the table: the writer
    stores only the number, and a reader takes it for the end. *)
Lemma entry_at_end pos ks key n v max_oid rest : 0 ≤ max_oid < 2 ^ 32 →
  ∃ b, WriteEntry max_oid (row_entry pos max_oid ks key n v) = Ok b ∧ ReadEntry max_oid (b ++ rest) = Ok (None, rest).
Proof.
  intros Hm. unfold WriteEntry. cbn [e_oid row_entry]. rewrite Z.eqb_refl. eexists. split; [done|]. unfold ReadEntry.
  rewrite ReadWord_write by (try done; cbn; lia). cbn [mbind result_bind]. by rewrite Z.eqb_refl.
Qed.

(** ** The reader ends on every file *)

(** a step of the reader aborts or leaves no more bytes than there were *)
Definition shrinks {A} (p : list Z) (x : result (A * list Z)) : Prop :=
  x = Err Aborted ∨ ∃ a p', x = Ok (a, p') ∧ (length p' ≤ length p)%nat.

Lemma fread_shrinks n p : shrinks p (fread n p).
Proof. unfold fread. destruct (_ || _); [by left|]. right. do 2 eexists. split; [done|]. rewrite length_drop. lia. Qed.

Lemma shrinks_bind {A B} p (x : result (A * list Z)) (k : A * list Z → result (B * list Z)) :
  shrinks p x → (∀ a p', (length p' ≤ length p)%nat → shrinks p' (k (a, p'))) → shrinks p (x ≫= k).
Proof.
  intros [-> | (a & p' & -> & Hp)] Hk; [by left|]. cbn. destruct (Hk a p' Hp) as [-> | (b & p'' & -> & Hp')]; [by left|].
  right. do 2 eexists. split; [done|]. lia.
Qed.

Lemma shrinks_ret {A} p (a : A) : shrinks p (Ok (a, p)).
Proof. right. eauto. Qed.

Lemma shrinks_abort {A} p b (x : result (A * list Z)) : shrinks p x → shrinks p (_ ← abort_if b; x).
Proof. by destruct b; [left|]. Qed.

Lemma ReadStruct_shrinks ws p : shrinks p (ReadStruct_raw ws p).
Proof. apply shrinks_bind; [apply fread_shrinks|]. intros b p' _. apply shrinks_ret. Qed.
Lemma ReadWord_shrinks w p : shrinks p (ReadWord w p).
Proof. apply shrinks_bind; [apply ReadStruct_shrinks|]. intros b p' _. apply shrinks_ret. Qed.
#[local] Hint Resolve fread_shrinks shrinks_ret ReadStruct_shrinks ReadWord_shrinks shrinks_abort : core.

Lemma ReadWord_strict w p x p' : w ≠ 0%nat → ReadWord w p = Ok (x, p') → (length p' < length p)%nat.
Proof.
  intros Hw. unfold ReadWord, ReadStruct_raw, fread. cbn [sum_list]. case_match eqn:E; [done|]. cbn. intros [= _ <-].
  apply orb_false_iff in E as [_ E%Z.ltb_ge]. unfold id in E. rewrite length_drop. lia.
Qed.

Lemma ReadEntry_shrinks max_oid p :
  ReadEntry max_oid p = Err Aborted ∨ ∃ o p', ReadEntry max_oid p = Ok (o, p') ∧ (length p' < length p)%nat.
Proof.
  unfold ReadEntry. destruct (ReadWord_shrinks 4 p) as [-> | (oid & p1 & E & _)]; [by left|].
  rewrite E. cbn [mbind result_bind]. apply ReadWord_strict in E; [|done].
  enough (H : shrinks p1 (if oid =? max_oid then Ok (None, p1) else
    '(ks, p) ← ReadWord 4 p1; '(key, p) ← fread ks p; '(vscode, p) ← ReadWord 1 p;
    '(o, p) ← ReadStruct_raw object_words p; '(t, p) ← ReadStruct_raw tuple_words p;
    _ ← abort_if (DecodeSizeAligned vscode 4 <? th_size (to_tuple t) + hdr_offset);
    '(v, p) ← fread (DecodeSizeAligned vscode 4 - hdr_offset) p;
    Ok (Some (mkEntry oid (to_object o) (to_tuple t) ks key v), p))).
  { destruct H as [-> | (o & p' & -> & Hp)]; [by left|]. right. do 2 eexists. split; [done|]. lia. }
  destruct (oid =? max_oid); [auto|].
  repeat first [apply shrinks_abort | apply shrinks_bind; [by auto|intros ? ? _]]. auto.
Qed.

(** The fuel of [ReadTable] is enough: on any bytes the loop over the entries aborts or ends. *)
Lemma read_entries_ends max_oid fuel p : (length p < fuel)%nat →
  read_entries fuel max_oid p = Err Aborted ∨ ∃ es p', read_entries fuel max_oid p = Ok (es, p').
Proof.
  revert p. induction fuel as [|fuel IH]; intros p Hp; [lia|]. cbn [read_entries].
  destruct (ReadEntry_shrinks max_oid p) as [-> | (o & p' & -> & Hp')]; [by left|]. cbn [mbind result_bind].
  destruct o as [e|]; [|eauto]. destruct (IH p' ltac:(lia)) as [-> | (es & p'' & ->)]; [by left|]. eauto.
Qed.
