(* ===== verification/VHandleReplay.v ===== *)
(** The row formats for replaying other systems (vhandle.h, vhandle.cc): the linked list of
    versions ([LinkListVHandle]) and the ordered accesses of Calvin ([CalvinVHandle]). Their
    [gc_rule] is not in the repository: its decisions are arguments. *)

From S2P Require Import Prelude LowerBound Sync GarbageSlab VHandle VHandleFacts RowStore Execution.

(** * Calvin *)

Module Calvin.

(** [accesses] are the [capacity] cells of the array; [freed] logs the arrays given back to
    the data region (pointer, core, bytes) and [deleted] the objects *)
Record CalvinVHandle := mkCalvin {
  lock : bool; alloc_by_coreid : Z; this_coreid : Z; capacity : Z; size : Z; pos : Z; accesses_ptr : Z; accesses : list Z; obj : Z;
  freed : list (Z * Z * Z); deleted : list Z }.
Definition set_size (h : CalvinVHandle) (n p : Z) : CalvinVHandle :=
  mkCalvin (lock h) (alloc_by_coreid h) (this_coreid h) (capacity h) n p (accesses_ptr h) (accesses h) (obj h) (freed h) (deleted h).
Definition set_accesses (h : CalvinVHandle) (a : list Z) : CalvinVHandle :=
  mkCalvin (lock h) (alloc_by_coreid h) (this_coreid h) (capacity h) (size h) (pos h) (accesses_ptr h) a (obj h) (freed h) (deleted h).

Definition CalvinVHandle_new (env : Env) : CalvinVHandle :=
  mkCalvin false (env_affinity env) (env_affinity env) 4 0 0 (env_alloc env (4 * 8)) (tab 4 (env_junk env)) 0 [] [].

Definition GarbageCollect (h : CalvinVHandle) : CalvinVHandle := set_size h 0 0.

Definition EnsureSpace (env : Env) (h : CalvinVHandle) : CalvinVHandle :=
  if size h =? capacity h then
    mkCalvin (lock h) (env_affinity env) (this_coreid h) (capacity h * 2) (size h) (pos h) (env_alloc env (capacity h * 2 * 8))
      (accesses h ++ tab (capacity h) (fun i => env_junk env (capacity h + i))) (obj h)
      (freed h ++ [(accesses_ptr h, alloc_by_coreid h, capacity h * 8)]) (deleted h)
  else h.

Definition access_turn (sid : Z) (is_read : bool) : Z :=
  let t := u64 (Z.shiftl sid 1) in if is_read then t else Z.lor t 1.
(** the loop [while (i > 0 && accesses[i - 1] > last) i--] *)
Fixpoint turn_index (i : nat) (a : list Z) (last : Z) : result Z :=
  match i with
  | O => Ok 0
  | S j => x ← load a (Z.of_nat j); if last <? x then turn_index j a last else Ok (Z.of_nat i)
  end.
Definition AppendNewAccess (env : Env) (gc_rule : bool) (sid : Z) (is_read : bool) (h : CalvinVHandle) : result (CalvinVHandle * bool) :=
  if lock h then Ok (h, false) else
  let h := if gc_rule then GarbageCollect h else h in
  let h := EnsureSpace env (set_size h (size h + 1) (pos h)) in
  let last := access_turn sid is_read in
  a ← store (accesses h) (size h - 1) last;
  i ← turn_index (Z.to_nat (size h - 1)) a last;
  a ← memmove a i (size h - 1) (i + 1);
  a ← store a i last;
  Ok (set_accesses h a, true).
Definition AppendNewVersion (env : Env) (gc_rule : bool) (sid : Z) (h : CalvinVHandle) : result (CalvinVHandle * bool) :=
  AppendNewAccess env gc_rule sid false h.

(** a spin loop: [Blocked] until the turn is the transaction's *)
Definition WaitForTurn (h : CalvinVHandle) (sid : Z) : result Z :=
  turn ← load (accesses h) (pos h); if Z.shiftr turn 1 =? sid then Ok turn else Err Blocked.
Definition PeekForTurn (h : CalvinVHandle) (sid : Z) : result bool :=
  it ← lower_bound (accesses h) 0 (size h) (u64 (Z.shiftl sid 1));
  if it =? size h then Ok false else x ← load (accesses h) it; Ok (Z.shiftr x 1 =? sid).
Definition WriteWithVersion (h : CalvinVHandle) (sid o : Z) (dry_run : bool) : result CalvinVHandle :=
  _ ← WaitForTurn h sid;
  if dry_run then Ok h else
  Ok (mkCalvin (lock h) (alloc_by_coreid h) (this_coreid h) (capacity h) (size h) (pos h + 1) (accesses_ptr h) (accesses h) o (freed h) (deleted h ++ [obj h])).
(** 0 is [nullptr] *)
Definition ReadWithVersion (h : CalvinVHandle) (sid : Z) : result (Z * CalvinVHandle) :=
  peek ← PeekForTurn h sid;
  if negb peek then Ok (0, h) else
  turn ← WaitForTurn h sid;
  Ok (obj h, if Z.land turn 1 =? 0 then set_size h (size h) (pos h + 1) else h).
Definition DirectRead (h : CalvinVHandle) : Z := obj h.

(** ** The order of accesses *)

Definition turns (h : CalvinVHandle) : list Z := seg (accesses h) 0 (size h).
Record wf (h : CalvinVHandle) : Prop := {
  wf_cells : len (accesses h) = capacity h;
  wf_size : 0 ≤ size h < capacity h;
  wf_sorted : sorted_in (accesses h) 0 (size h);
  wf_lock : lock h = false }.

Lemma new_wf env : wf (CalvinVHandle_new env).
Proof. constructor; cbn; try done. intros i j; lia. Qed.
Lemma collect_wf h : wf h → wf (GarbageCollect h) ∧ turns (GarbageCollect h) = [].
Proof. intros [Hc Hs _ Hl]. split; [|done]. constructor; cbn; try done; [lia|intros i j; lia]. Qed.

Lemma at_app_l l1 l2 k : 0 ≤ k < len l1 → (l1 ++ l2).[k] = l1.[k].
Proof. intros H. apply app_nth1. lia. Qed.

Lemma EnsureSpace_facts env h : len (accesses h) = capacity h → 0 < size h ≤ capacity h →
  let h' := EnsureSpace env h in
  len (accesses h') = capacity h' ∧ size h' = size h ∧ pos h' = pos h ∧ obj h' = obj h ∧ lock h' = lock h ∧ size h < capacity h' ∧
  ∀ k, 0 ≤ k < capacity h → (accesses h').[k] = (accesses h).[k].
Proof.
  intros Hl Hs. unfold EnsureSpace. destruct (Z.eqb_spec (size h) (capacity h)) as [E|E]; cbn; split_and!; try done; try lia.
  - rewrite length_app. pose proof (len_tab (capacity h) (fun i => env_junk env (capacity h + i)) ltac:(lia)). lia.
  - intros k Hk. apply at_app_l. lia.
Qed.

Lemma turn_index_spec n a last : Z.of_nat n ≤ len a → sorted_in a 0 (Z.of_nat n) →
  ∃ i, turn_index n a last = Ok i ∧ 0 ≤ i ≤ Z.of_nat n ∧ (∀ k, 0 ≤ k < i → a.[k] ≤ last) ∧ (∀ k, i ≤ k < Z.of_nat n → last < a.[k]).
Proof.
  induction n as [|n IH]; intros Hn Hs; cbn [turn_index].
  - exists 0. split; [done|]. split; [lia|]. split; intros k; lia.
  - rewrite load_in by lia. cbn [mbind result_bind]. destruct (Z.ltb_spec last (a.[Z.of_nat n])) as [Hlt|Hge].
    + destruct IH as (i & E & Hi & Hl & Hg); [lia|intros x y ???; apply Hs; lia|]. exists i. split; [done|]. split; [lia|]. split; [done|].
      intros k Hk. destruct (Z.eq_dec k (Z.of_nat n)) as [->|]; [done|apply Hg; lia].
    + exists (Z.of_nat (S n)). split; [done|]. split; [lia|]. split; [|intros k; lia].
      intros k Hk. etransitivity; [|exact Hge]. apply Hs; lia.
Qed.

(** [last] inserted at [i] into the [n] cells of [a] *)
Definition inserted (a a' : list Z) (n i last : Z) : Prop :=
  ∀ k, 0 ≤ k ≤ n → a'.[k] = if k <? i then a.[k] else if k =? i then last else a.[k - 1].

Lemma inserted_perm a a' n i last : 0 ≤ i ≤ n → inserted a a' n i last → seg a' 0 (n + 1) ≡ₚ last :: seg a 0 n.
Proof.
  intros Hi Ha. replace (n + 1) with (i + (1 + (n - i))) by lia. rewrite seg_app, seg_app by lia.
  replace n with (i + (n - i)) at 2 by lia. rewrite (seg_app a) by lia.
  rewrite (seg_ext a' a 0 i) by (intros k Hk; rewrite Ha by lia; destruct (Z.ltb_spec k i); [done|lia]).
  rewrite (seg_cons a' (0 + i) 1), (seg_nil a' (0 + i + 1) (1 - 1)), (Ha (0 + i)) by lia.
  destruct (Z.ltb_spec (0 + i) i); [lia|]. destruct (Z.eqb_spec (0 + i) i); [|lia].
  assert (E : seg a' (0 + i + 1) (n - i) = seg a (0 + i) (n - i)).
  { unfold seg. apply list_eq. intros m. rewrite !list_lookup_fmap. destruct (decide (Z.of_nat m < n - i)) as [Hm|Hm].
    - rewrite !lookup_seqZ_lt by lia. cbn. f_equal. rewrite Ha by lia. destruct (Z.ltb_spec (0 + i + 1 + Z.of_nat m) i); [lia|].
      destruct (Z.eqb_spec (0 + i + 1 + Z.of_nat m) i); [lia|]. f_equal. lia.
    - by rewrite !lookup_seqZ_ge by lia. }
  rewrite E. cbn [app]. by rewrite Permutation_middle.
Qed.

Lemma inserted_sorted a a' n i last : 0 ≤ i ≤ n → inserted a a' n i last → sorted_in a 0 n →
  (∀ k, 0 ≤ k < i → a.[k] ≤ last) → (∀ k, i ≤ k < n → last < a.[k]) → sorted_in a' 0 (n + 1).
Proof.
  intros Hi Ha Hs Hle Hgt x y Hx Hxy Hy. rewrite !Ha by lia.
  destruct (Z.ltb_spec x i), (Z.ltb_spec y i); try lia; [apply Hs; lia| |];
    destruct (Z.eqb_spec y i); try lia; try (destruct (Z.eqb_spec x i); try lia).
  - apply Hle. lia.
  - apply Hs; lia.
  - apply Z.lt_le_incl, Hgt. lia.
  - apply Hs; lia.
Qed.

(** an access is inserted behind those that are not later *)
Lemma append_access env sid b h : wf h → ∃ h', AppendNewAccess env false sid b h = Ok (h', true) ∧ wf h' ∧
  obj h' = obj h ∧ pos h' = pos h ∧ size h' = size h + 1 ∧ turns h' ≡ₚ access_turn sid b :: turns h.
Proof.
  intros [Hc Hs Hso Hl]. unfold AppendNewAccess. rewrite Hl. cbv zeta. set (h0 := set_size h (size h + 1) (pos h)).
  destruct (EnsureSpace_facts env h0) as (Hc1 & Hs1 & Hp1 & Ho1 & Hl1 & Hcap & Hcell); [done|cbn; lia|]. set (h1 := EnsureSpace env h0) in *.
  cbn [h0 set_size size pos obj lock capacity accesses] in Hs1, Hp1, Ho1, Hl1, Hcap, Hcell.
  set (last := access_turn sid b). rewrite Hs1. replace (size h + 1 - 1) with (size h) by lia. rewrite store_in by lia. cbn [mbind result_bind].
  set (a1 := <[_ := last]> _). assert (Hla : len a1 = capacity h1) by (unfold a1; rewrite len_insert; done).
  assert (Ha : ∀ k, 0 ≤ k < size h → a1.[k] = (accesses h).[k]).
  { intros k Hk. unfold a1. rewrite at_insert by lia. destruct (Z.eqb_spec k (size h)); [lia|]. apply Hcell. lia. }
  destruct (turn_index_spec (Z.to_nat (size h)) a1 last) as (i & -> & Hi & Hle & Hgt); [lia|intros x y ???; rewrite !Ha by lia; apply Hso; lia|].
  cbn [mbind result_bind]. destruct (memmove_in a1 i (size h) (i + 1)) as (a2 & -> & Hl2 & Ha2); [lia..|]. cbn [mbind result_bind].
  rewrite store_in by lia. cbn [mbind result_bind]. eexists. split; [done|]. set (a3 := <[Z.to_nat i := last]> a2).
  assert (Ha3 : inserted (accesses h) a3 (size h) i last).
  { intros k Hk. unfold a3. rewrite at_insert by lia. destruct (Z.eqb_spec k i) as [->|Hne]; [by rewrite Z.ltb_irrefl|].
    rewrite Ha2 by lia. destruct (Z.ltb_spec k i), (Z.leb_spec (i + 1) k), (Z.ltb_spec k (i + 1 + (size h - i))); cbn [andb]; try lia;
      rewrite Ha by lia; f_equal; lia. }
  split; [|split_and!; [done|done|done|]].
  - constructor; cbn [set_accesses accesses capacity size lock]; [unfold a3; rewrite len_insert; lia|lia| |congruence].
    rewrite Hs1. apply (inserted_sorted (accesses h) a3 _ i last); [lia|done|done| |];
      intros k Hk; rewrite <- Ha by lia; [apply Hle; lia|apply Hgt; lia].
  - unfold turns. cbn [set_accesses accesses size]. rewrite Hs1. apply (inserted_perm _ _ _ i); [lia|done].
Qed.

(** ** Transactions *)

(** a transaction ([Execution.Prog]) uses the accesses it declared (true: a read): a row that it only reads it reads once,
    a row that it writes it may read before, and it writes it once *)
Fixpoint follows (p : Prog) (A : gmap Z bool) : Prop :=
  match p with
  | Done => A = ∅
  | Read r k => ∃ b : bool, A !! r = Some b ∧ ∀ v, follows (k v) (if b then delete r A else A)
  | Write r v k => A !! r = Some false ∧ follows k (delete r A)
  end.

(** on its own, on a store of objects *)
Fixpoint run (p : Prog) (st : gmap Z Z) : gmap Z Z :=
  match p with
  | Done => st
  | Read r k => run (k (default 0 (st !! r))) st
  | Write r v k => run k (<[r := v]> st)
  end.
Definition serial (ps : list Prog) (st : gmap Z Z) : gmap Z Z := foldl (fun st p => run p st) st ps.

(** together: a step is one call that does not block *)
Record Sys := mkSys { rows : gmap Z CalvinVHandle; progs : list (Z * Prog) }.
Inductive cstep : Sys → Sys → Prop :=
| read_step s i sid r k h v h' :
    progs s !! i = Some (sid, Read r k) → rows s !! r = Some h → ReadWithVersion h sid = Ok (v, h') →
    cstep s (mkSys (<[r := h']> (rows s)) (<[i := (sid, k v)]> (progs s)))
| write_step s i sid r v k h h' :
    progs s !! i = Some (sid, Write r v k) → rows s !! r = Some h → WriteWithVersion h sid v false = Ok h' →
    cstep s (mkSys (<[r := h']> (rows s)) (<[i := (sid, k)]> (progs s))).
Definition all_done (s : Sys) : Prop := Forall (fun tp => tp.2 = Done) (progs s).
Definition objects (m : gmap Z CalvinVHandle) : gmap Z Z := obj <$> m.

(** the declarations of an epoch, in the order they are made *)
Definition declare (env : Env) (d : Z * Z * bool) (m : gmap Z CalvinVHandle) : result (gmap Z CalvinVHandle) :=
  let '(sid, r, is_read) := d in
  match m !! r with
  | None => Err OutOfRange
  | Some h => '(h, ok) ← AppendNewAccess env false sid is_read h; if ok : bool then Ok (<[r := h]> m) else Err Blocked
  end.

(** ** Rows a program does not use *)

Lemma run_frame p : ∀ A st r, follows p A → A !! r = None → run p st !! r = st !! r.
Proof.
  induction p as [|r' k IH|r' v k IH]; intros A st r; cbn; [done| |].
  - intros (b & Hb & Hk) Hr. apply (IH _ (if b then delete r' A else A)); [done|]. destruct b; [|done]. rewrite lookup_delete_None. by right.
  - intros [Hb Hk] Hr. rewrite (IH (delete r' A)) by (done || rewrite lookup_delete_None; by right).
    rewrite lookup_insert_ne; [done|congruence].
Qed.

Lemma run_commute p : ∀ A st r v, follows p A → A !! r = None → run p (<[r := v]> st) = <[r := v]> (run p st).
Proof.
  induction p as [|r' k IH|r' w k IH]; intros A st r v; cbn; [done| |].
  - intros (b & Hb & Hk) Hr. rewrite lookup_insert_ne by congruence.
    apply (IH _ (if b then delete r' A else A)); [done|]. destruct b; [|done]. rewrite lookup_delete_None. by right.
  - intros [Hb Hk] Hr. rewrite insert_insert_ne by congruence. apply (IH (delete r' A)); [done|]. rewrite lookup_delete_None. by right.
Qed.

Lemma serial_frame ps As st r : Forall2 follows ps As → Forall (fun A : gmap Z bool => A !! r = None) As → serial ps st !! r = st !! r.
Proof.
  intros H. revert st. induction H as [|p A ps As Hp _ IH]; intros st; [done|]. intros [Hr Hrs]%Forall_cons. cbn.
  unfold serial in IH. rewrite IH by done. by apply (run_frame p A).
Qed.
Lemma serial_commute ps As st r v : Forall2 follows ps As → Forall (fun A : gmap Z bool => A !! r = None) As →
  serial ps (<[r := v]> st) = <[r := v]> (serial ps st).
Proof.
  intros H. revert st. induction H as [|p A ps As Hp _ IH]; intros st; [done|]. intros [Hr Hrs]%Forall_cons. cbn.
  unfold serial in IH. rewrite (run_commute p A) by done. by apply IH.
Qed.

(** ** Turns *)

Lemma access_turn_eq sid b : 0 ≤ sid < 2 ^ 63 → access_turn sid b = 2 * sid + if b then 0 else 1.
Proof.
  intros H. unfold access_turn. rewrite Z.shiftl_mul_pow2, u64_id by lia. change (2 ^ 1) with 2. replace (sid * 2) with (2 * sid) by lia.
  destruct b; [lia|]. by destruct sid as [|p|p]; [| |lia].
Qed.
Lemma turn_sid sid b : 0 ≤ sid < 2 ^ 63 → Z.shiftr (access_turn sid b) 1 = sid.
Proof.
  intros H. rewrite access_turn_eq, Z.shiftr_div_pow2 by lia. change (2 ^ 1) with 2.
  symmetry. apply (Z.div_unique _ _ _ (if b then 0 else 1)); destruct b; lia.
Qed.
Lemma turn_kind sid b : 0 ≤ sid < 2 ^ 63 → (Z.land (access_turn sid b) 1 =? 0) = b.
Proof.
  intros H. rewrite access_turn_eq by done. change 1 with (Z.ones 1) at 2. rewrite Z.land_ones by lia. change (2 ^ 1) with 2.
  destruct b.
  - replace (2 * sid + 0) with (sid * 2) by lia. by rewrite Z.mod_mul.
  - replace (2 * sid + 1) with (1 + sid * 2) by lia. by rewrite Z.mod_add.
Qed.

(** ** The invariant of execution *)

Definition remaining (h : CalvinVHandle) : list Z := seg (accesses h) (pos h) (size h - pos h).
(** the turn [x] of row [r] is still to be taken, by accesses [As] of the transactions [sids] *)
Definition owed (sids : list Z) (As : list (gmap Z bool)) (r x : Z) : Prop :=
  ∃ i sid A b, sids !! i = Some sid ∧ As !! i = Some A ∧ A !! r = Some b ∧ x = access_turn sid b.
Record row_inv (sids : list Z) (As : list (gmap Z bool)) (r : Z) (h : CalvinVHandle) : Prop := {
  ri_wf : wf h;
  ri_nodup : NoDup (turns h);
  ri_pos : 0 ≤ pos h ≤ size h;
  ri_owed : ∀ x, x ∈ remaining h ↔ owed sids As r x }.
Record rows_inv (m : gmap Z CalvinVHandle) (sids : list Z) (As : list (gmap Z bool)) : Prop := {
  rs_sids : StronglySorted Z.lt sids;
  rs_range : Forall (fun sid => 0 ≤ sid < 2 ^ 63) sids;
  rs_rows : ∀ r h, m !! r = Some h → row_inv sids As r h;
  rs_dom : ∀ i A r b, As !! i = Some A → A !! r = Some b → is_Some (m !! r) }.

Lemma turns_remaining h : 0 ≤ pos h ≤ size h → turns h = seg (accesses h) 0 (pos h) ++ remaining h.
Proof. intros H. unfold turns, remaining. rewrite <- (seg_app _ 0) by lia. f_equal. lia. Qed.

Lemma remaining_cons h : pos h < size h → remaining h = (accesses h).[pos h] :: seg (accesses h) (pos h + 1) (size h - (pos h + 1)).
Proof. intros H. unfold remaining. rewrite seg_cons by lia. do 2 f_equal. lia. Qed.

Lemma remaining_head h x : wf h → 0 ≤ pos h → x ∈ remaining h → pos h < size h ∧ (accesses h).[pos h] ≤ x.
Proof.
  intros [_ _ Hs _] Hp (k & -> & Hk%elem_of_seqZ)%list_elem_of_fmap. split; [lia|]. apply Hs; lia.
Qed.

Lemma peek_true h sid b : wf h → 0 ≤ sid < 2 ^ 63 → access_turn sid b ∈ turns h → PeekForTurn h sid = Ok true.
Proof.
  intros [Hc Hsz Hs _] Hr (k & E & Hk%elem_of_seqZ)%list_elem_of_fmap. rewrite access_turn_eq in E by done.
  unfold PeekForTurn. rewrite Z.shiftl_mul_pow2, u64_id by lia. change (2 ^ 1) with 2.
  destruct (lower_bound_spec (accesses h) 0 (size h) (sid * 2)) as (i & -> & Hi & Hlt & Hge); [lia|lia|done|]. cbn [mbind result_bind].
  assert (i ≤ k) by (destruct (Z_lt_ge_dec k i) as [Hki|]; [specialize (Hlt k ltac:(lia)); destruct b; lia|lia]).
  destruct (Z.eqb_spec i (size h)); [lia|]. rewrite load_in by lia. cbn [mbind result_bind]. f_equal. apply Z.eqb_eq.
  specialize (Hge i ltac:(lia)). specialize (Hs i k ltac:(lia) ltac:(lia) ltac:(lia)).
  rewrite Z.shiftr_div_pow2 by lia. symmetry. apply (Z.div_unique _ _ _ ((accesses h).[i] - 2 * sid)); change (2 ^ 1) with 2; destruct b; lia.
Qed.

Lemma sids_mono (sids : list Z) i j a b : StronglySorted Z.lt sids → sids !! i = Some a → sids !! j = Some b → (i < j)%nat → a < b.
Proof.
  intros Hs. revert i j. induction Hs as [|x l _ IH Hf]; intros [|i] [|j] Ha Hb H; try done || lia; cbn in *.
  - injection Ha as ->. rewrite Forall_forall in Hf. by apply list_elem_of_lookup_2, Hf in Hb.
  - apply (IH i j); [done..|lia].
Qed.
Lemma sids_order (sids : list Z) i j a b : StronglySorted Z.lt sids → sids !! i = Some a → sids !! j = Some b → a ≤ b → (i ≤ j)%nat.
Proof. intros Hs Ha Hb Hab. destruct (decide (i ≤ j)%nat) as [|H]; [done|]. pose proof (sids_mono sids j i b a Hs Hb Ha). lia. Qed.
Lemma sids_inj (sids : list Z) i j a : StronglySorted Z.lt sids → sids !! i = Some a → sids !! j = Some a → i = j.
Proof. intros Hs Hi Hj. pose proof (sids_order _ i j a a Hs Hi Hj). pose proof (sids_order _ j i a a Hs Hj Hi). lia. Qed.

(** the owner of a turn that is owed *)
Lemma owed_owner m sids As r i sid A x : rows_inv m sids As → sids !! i = Some sid → As !! i = Some A →
  owed sids As r x → Z.shiftr x 1 = sid → ∃ b, A !! r = Some b ∧ x = access_turn sid b.
Proof.
  intros [Hs Hr _ _] Hi HA (j & sid' & A' & b & Hj & HA' & Hb & ->) E. rewrite Forall_forall in Hr.
  rewrite turn_sid in E by (eapply Hr, list_elem_of_lookup_2, Hj). subst sid'.
  assert (j = i) as -> by (by eapply sids_inj). rewrite HA in HA'. injection HA' as <-. eauto.
Qed.

(** at its turn, a transaction is the first that owes the row an access *)
Lemma at_turn m sids As r h i sid A b t : rows_inv m sids As → sids !! i = Some sid → As !! i = Some A → A !! r = Some b →
  m !! r = Some h → WaitForTurn h sid = Ok t →
  t = access_turn sid b ∧ pos h < size h ∧ (accesses h).[pos h] = t ∧ ∀ j A', (j < i)%nat → As !! j = Some A' → sids !! j ≠ None → A' !! r = None.
Proof.
  intros Hinv Hi HA Hb Hh Hw. destruct (Hinv) as [Hs Hr Hrows _]. destruct (Hrows r h Hh) as [Hwf _ Hp Ho].
  assert (Hin : access_turn sid b ∈ remaining h) by (apply Ho; by exists i, sid, A, b).
  destruct (remaining_head h _ Hwf ltac:(lia) Hin) as [Hlt Hle]. destruct (Hwf) as [Hc Hsz _ _].
  unfold WaitForTurn in Hw. rewrite load_in in Hw by lia. cbn [mbind result_bind] in Hw.
  destruct (Z.eqb_spec (Z.shiftr ((accesses h).[pos h]) 1) sid) as [Et|]; [|done]. injection Hw as <-.
  assert (Hhead : owed sids As r ((accesses h).[pos h])) by (apply Ho; rewrite remaining_cons by done; left).
  destruct (owed_owner _ _ _ _ i sid A _ Hinv Hi HA Hhead Et) as (b' & Hb' & Ex). assert (b' = b) as -> by congruence.
  split_and!; [done|done|done|]. intros j A' Hj HA' Hnone. destruct (A' !! r) as [b'|] eqn:E; [exfalso|done].
  destruct (sids !! j) as [sid'|] eqn:Ej; [|done]. assert (Hin' : access_turn sid' b' ∈ remaining h) by (apply Ho; by exists j, sid', A', b').
  apply (remaining_head h) in Hin' as [_ Hle']; [|done|lia]. rewrite Ex in Hle'. pose proof (sids_mono _ _ _ _ _ Hs Ej Hi Hj). rewrite Forall_forall in Hr.
  rewrite !access_turn_eq in Hle' by (eapply Hr, list_elem_of_lookup_2; done). destruct b, b'; lia.
Qed.

Lemma owed_other sids As r r' i A x : r' ≠ r → As !! i = Some A → owed sids (<[i := delete r A]> As) r' x ↔ owed sids As r' x.
Proof.
  intros Hne HA. pose proof (lookup_lt_Some _ _ _ HA) as Hlt. split; intros (j & sid & A' & b & Hj & HA' & Hb & ->).
  - destruct (decide (j = i)) as [->|Hji].
    + rewrite list_lookup_insert_eq in HA' by done. injection HA' as <-. rewrite lookup_delete_ne in Hb by done. by exists i, sid, A, b.
    + rewrite list_lookup_insert_ne in HA' by done. by exists j, sid, A', b.
  - destruct (decide (j = i)) as [->|Hji].
    + exists i, sid, (delete r A), b. rewrite list_lookup_insert_eq by done. rewrite HA in HA'. injection HA' as <-. by rewrite lookup_delete_ne by done.
    + exists j, sid, A', b. by rewrite list_lookup_insert_ne by done.
Qed.

(** a turn that is taken is no longer owed *)
Lemma advance_row m sids As r h h' i sid A b : rows_inv m sids As → sids !! i = Some sid → As !! i = Some A → A !! r = Some b →
  row_inv sids As r h → pos h < size h → (accesses h).[pos h] = access_turn sid b →
  accesses h' = accesses h → size h' = size h → capacity h' = capacity h → lock h' = lock h → pos h' = pos h + 1 →
  row_inv sids (<[i := delete r A]> As) r h'.
Proof.
  intros [Hs Hr _ _] Hi HA Hb [Hwf Hnd Hp Ho] Hlt Hx Ea Es Ec El Ep. pose proof (lookup_lt_Some _ _ _ HA) as Hil.
  assert (Er : remaining h = (accesses h).[pos h] :: remaining h').
  { rewrite remaining_cons by done. unfold remaining. by rewrite Ea, Es, Ep. }
  assert (Hnot : (accesses h).[pos h] ∉ remaining h').
  { rewrite turns_remaining, Er in Hnd by done. apply NoDup_app in Hnd as (_ & _ & Hnd). by apply NoDup_cons in Hnd as [? _]. }
  constructor; [by destruct Hwf; constructor; rewrite ?Ea, ?Es, ?Ec, ?El|unfold turns; by rewrite Ea, Es|lia|]. intros x. split.
  - intros Hin. assert (Hin0 : x ∈ remaining h) by (rewrite Er; by right). apply Ho in Hin0 as (j & sid' & A' & b' & Hj & HA' & Hb' & ->).
    exists j, sid', A', b'. rewrite list_lookup_insert_ne; [done|]. intros <-. rewrite HA in HA'. injection HA' as <-. rewrite Hi in Hj. injection Hj as <-.
    apply Hnot. rewrite Hx. by replace b with b' by congruence.
  - intros (j & sid' & A' & b' & Hj & HA' & Hb' & ->). destruct (decide (j = i)) as [->|Hji].
    { rewrite list_lookup_insert_eq in HA' by done. injection HA' as <-. by rewrite lookup_delete_eq in Hb'. }
    rewrite list_lookup_insert_ne in HA' by done. assert (Hin : access_turn sid' b' ∈ remaining h) by (apply Ho; by exists j, sid', A', b').
    rewrite Er in Hin. apply elem_of_cons in Hin as [E|]; [exfalso|done]. rewrite Hx in E. apply (f_equal (fun t => Z.shiftr t 1)) in E.
    rewrite Forall_forall in Hr. rewrite !turn_sid in E by (eapply Hr, list_elem_of_lookup_2; done). subst sid'. apply Hji. by eapply sids_inj.
Qed.

Lemma advance_rows m sids As r h h' i sid A b : rows_inv m sids As → sids !! i = Some sid → As !! i = Some A → A !! r = Some b →
  m !! r = Some h → pos h < size h → (accesses h).[pos h] = access_turn sid b →
  accesses h' = accesses h → size h' = size h → capacity h' = capacity h → lock h' = lock h → pos h' = pos h + 1 →
  rows_inv (<[r := h']> m) sids (<[i := delete r A]> As).
Proof.
  intros Hinv Hi HA Hb Hh. intros. destruct (Hinv) as [Hs Hr Hrows Hd]. constructor; [done|done| |].
  - intros r' g Hg. destruct (decide (r' = r)) as [->|Hne].
    + rewrite lookup_insert_eq in Hg. injection Hg as <-. by eapply advance_row; [done..|apply Hrows| | | | | | |].
    + rewrite lookup_insert_ne in Hg by done. destruct (Hrows r' g Hg) as [Hwf Hnd Hp Ho]. constructor; [done..|].
      intros x. by rewrite Ho, owed_other.
  - intros j A' r' b' HA' Hb'. destruct (decide (r' = r)) as [->|Hne]; [rewrite lookup_insert_eq; eauto|]. rewrite lookup_insert_ne by done.
    destruct (decide (j = i)) as [->|Hji].
    + rewrite list_lookup_insert_eq in HA' by by eapply lookup_lt_Some. injection HA' as <-. rewrite lookup_delete_ne in Hb' by done. eauto.
    + rewrite list_lookup_insert_ne in HA' by done. eauto.
Qed.

(** ** Steps *)

Definition sys_inv (st : gmap Z Z) (s : Sys) : Prop :=
  ∃ As, rows_inv (rows s) (progs s).*1 As ∧ Forall2 follows (progs s).*2 As ∧ serial (progs s).*2 (objects (rows s)) = st.

(** the programs before the one that steps leave its row alone *)
Lemma serial_split (ps : list Prog) As i p r : Forall2 follows ps As → ps !! i = Some p → (∀ j A, (j < i)%nat → As !! j = Some A → A !! r = None) →
  (∀ st, serial ps st = serial (drop (S i) ps) (run p (serial (take i ps) st))) ∧
  (∀ st, serial (take i ps) st !! r = st !! r) ∧ (∀ st v, serial (take i ps) (<[r := v]> st) = <[r := v]> (serial (take i ps) st)).
Proof.
  intros HF Hp Hb. assert (HF' : Forall2 follows (take i ps) (take i As)) by by apply Forall2_take.
  assert (Hn : Forall (fun A : gmap Z bool => A !! r = None) (take i As)).
  { apply Forall_forall. intros A [j Hj]%list_elem_of_lookup. apply lookup_take_Some in Hj as [Hj Hlt]. by apply (Hb j). }
  split_and!.
  - intros st. rewrite <- (take_drop_middle ps i p Hp) at 1. unfold serial. by rewrite foldl_app.
  - intros st. by apply (serial_frame _ (take i As)).
  - intros st v. by apply (serial_commute _ (take i As)).
Qed.

Lemma read_at_turn h sid v h' : PeekForTurn h sid = Ok true → ReadWithVersion h sid = Ok (v, h') →
  ∃ t, WaitForTurn h sid = Ok t ∧ v = obj h ∧ h' = if Z.land t 1 =? 0 then set_size h (size h) (pos h + 1) else h.
Proof.
  intros Hp. unfold ReadWithVersion. rewrite Hp. cbn [mbind result_bind negb]. destruct (WaitForTurn h sid) as [t|]; [|done].
  cbn [mbind result_bind]. intros [= <- <-]. eauto.
Qed.
Lemma write_at_turn h sid v h' : WriteWithVersion h sid v false = Ok h' →
  ∃ t, WaitForTurn h sid = Ok t ∧ obj h' = v ∧ accesses h' = accesses h ∧ size h' = size h ∧ capacity h' = capacity h ∧ lock h' = lock h ∧ pos h' = pos h + 1.
Proof. unfold WriteWithVersion. destruct (WaitForTurn h sid) as [t|]; [|done]. cbn. intros [= <-]. eauto 10. Qed.

Lemma owner_peek m sids As r h i sid A b : rows_inv m sids As → sids !! i = Some sid → As !! i = Some A → A !! r = Some b → m !! r = Some h →
  PeekForTurn h sid = Ok true.
Proof.
  intros [_ Hr Hrows _] Hi HA Hb Hh. destruct (Hrows r h Hh) as [Hwf _ Hp Ho]. rewrite Forall_forall in Hr.
  apply (peek_true h sid b); [done|by eapply Hr, list_elem_of_lookup_2|]. rewrite turns_remaining by done. apply elem_of_app. right.
  apply Ho. by exists i, sid, A, b.
Qed.

Lemma sys_update s i sid p p' : progs s !! i = Some (sid, p) →
  (<[i := (sid, p')]> (progs s)).*1 = (progs s).*1 ∧ (<[i := (sid, p')]> (progs s)).*2 = <[i := p']> (progs s).*2 ∧
  (progs s).*1 !! i = Some sid ∧ (progs s).*2 !! i = Some p.
Proof.
  intros H. assert (H1 : (progs s).*1 !! i = Some sid) by by rewrite list_lookup_fmap, H. rewrite !list_fmap_insert. cbn.
  split_and!; [by apply list_insert_id|done|done|by rewrite list_lookup_fmap, H].
Qed.

Lemma serial_update (ps : list Prog) i p' st : (i < length ps)%nat →
  serial (<[i := p']> ps) st = serial (drop (S i) ps) (run p' (serial (take i ps) st)).
Proof.
  intros H. rewrite <- (take_drop_middle (<[i := p']> ps) i p') by by apply list_lookup_insert_eq. unfold serial. rewrite foldl_app. cbn.
  by rewrite take_insert_ge, drop_insert_lt by lia.
Qed.

Lemma calvin_step_inv st s s' : cstep s s' → sys_inv st s → sys_inv st s'.
Proof.
  intros Hstep (As & Hinv & Hfol & Hst). destruct Hstep as [s i sid r k h v h' Hp Hh Hread|s i sid r v k h h' Hp Hh Hwrite];
    (eapply sys_update in Hp as (E1 & E2 & Hi & Hpi)); cbn [rows progs] in *; unfold sys_inv; cbn [rows progs]; rewrite E1, E2;
    destruct (Forall2_lookup_l _ _ _ _ _ Hfol Hpi) as (A & HA & Hfi); cbn in Hfi; pose proof (lookup_lt_Some _ _ _ Hpi) as Hlt.
  - destruct Hfi as (b & Hb & Hk). destruct (read_at_turn h sid v h') as (t & Hw & -> & ->); [by eapply owner_peek|done|].
    destruct (at_turn _ _ _ _ _ _ _ _ _ _ Hinv Hi HA Hb Hh Hw) as (-> & Hps & Ha & Hfirst).
    assert (Hsid : 0 ≤ sid < 2 ^ 63) by (destruct Hinv as [_ Hr _ _]; rewrite Forall_forall in Hr; by eapply Hr, list_elem_of_lookup_2).
    rewrite turn_kind by done. exists (<[i := if b then delete r A else A]> As). split; [|split].
    + destruct b; [by eapply advance_rows|]. by rewrite (insert_id (rows s)), list_insert_id by done.
    + by apply Forall2_insert.
    + rewrite serial_update by done. destruct (serial_split (progs s).*2 As i (Read r k) r Hfol Hpi) as (Hall & Hfr & _).
      { intros j A' Hj HA'. apply (Hfirst j A' Hj HA'). intros Hnone%lookup_ge_None. apply lookup_lt_Some in Hi. lia. }
      rewrite <- Hst, Hall. unfold objects. rewrite fmap_insert. assert (Hr : (obj <$> rows s) !! r = Some (obj h)) by by rewrite lookup_fmap, Hh.
      rewrite insert_id by (by destruct b). cbn. by rewrite Hfr, Hr.
  - destruct Hfi as [Hb Hk]. destruct (write_at_turn _ _ _ _ Hwrite) as (t & Hw & Eo & Ea & Es & Ec & El & Ep).
    destruct (at_turn _ _ _ _ _ _ _ _ _ _ Hinv Hi HA Hb Hh Hw) as (-> & Hps & Ha & Hfirst).
    exists (<[i := delete r A]> As). split; [by eapply advance_rows|]. split; [by apply Forall2_insert|].
    rewrite serial_update by done. destruct (serial_split (progs s).*2 As i (Write r v k) r Hfol Hpi) as (Hall & _ & Hcomm).
    { intros j A' Hj HA'. apply (Hfirst j A' Hj HA'). intros Hnone%lookup_ge_None. apply lookup_lt_Some in Hi. lia. }
    rewrite <- Hst, Hall. unfold objects. rewrite fmap_insert, Eo, Hcomm. done.
Qed.

(** ** Progress and termination *)

Lemma first_not_done (l : list (Z * Prog)) : ¬ Forall (fun tp => tp.2 = Done) l →
  ∃ i sid p, l !! i = Some (sid, p) ∧ p ≠ Done ∧ ∀ j q, (j < i)%nat → l !! j = Some q → q.2 = Done.
Proof.
  induction l as [|[sid p] l IH]; intros H; [by destruct H|]. assert (p = Done ∨ p ≠ Done) as [->|Hp] by (destruct p; auto).
  - destruct IH as (i & sid' & p & Hi & Hp & Hl); [intros HF; apply H; by constructor|]. exists (S i), sid', p. split_and!; [done|done|].
    intros [|j] q Hj Hq; [by injection Hq as <-|]. apply (Hl j); [lia|done].
  - exists 0%nat, sid, p. split_and!; [done|done|]. intros j q Hj. lia.
Qed.

(** the first transaction that is not done has its turn on every row *)
Lemma first_turn m sids As r i sid A b : rows_inv m sids As → sids !! i = Some sid → As !! i = Some A → A !! r = Some b →
  (∀ j A', (j < i)%nat → As !! j = Some A' → A' = ∅) → ∃ h t, m !! r = Some h ∧ WaitForTurn h sid = Ok t.
Proof.
  intros [Hs Hr Hrows Hd] Hi HA Hb Hfirst. destruct (Hd i A r b HA Hb) as [h Hh]. exists h. destruct (Hrows r h Hh) as [Hwf _ Hp Ho].
  assert (Hin : access_turn sid b ∈ remaining h) by (apply Ho; by exists i, sid, A, b).
  destruct (remaining_head h _ Hwf ltac:(lia) Hin) as [Hlt Hle]. destruct (Hwf) as [Hc Hsz _ _]. rewrite Forall_forall in Hr.
  assert (owed sids As r ((accesses h).[pos h])) as (j & sid' & A' & b' & Hj & HA' & Hb' & Ex) by (apply Ho; rewrite remaining_cons by done; left).
  assert (Hr1 : 0 ≤ sid < 2 ^ 63) by (by eapply Hr, list_elem_of_lookup_2). assert (Hr2 : 0 ≤ sid' < 2 ^ 63) by (by eapply Hr, list_elem_of_lookup_2).
  assert (j = i) as ->.
  { destruct (decide (j < i)%nat) as [Hji|]; [by rewrite (Hfirst j A' Hji HA') in Hb'|]. rewrite Ex, !access_turn_eq in Hle by done.
    pose proof (sids_order _ j i _ _ Hs Hj Hi). destruct b, b'; lia. }
  rewrite Hi in Hj. injection Hj as <-. eexists. split; [done|]. unfold WaitForTurn. rewrite load_in by lia. cbn [mbind result_bind].
  by rewrite Ex, turn_sid, Z.eqb_refl by done.
Qed.

Lemma calvin_progress st s : sys_inv st s → ¬ all_done s → ∃ s', cstep s s'.
Proof.
  intros (As & Hinv & Hfol & _) (i & sid & p & Hpi & Hp & Hfirst)%first_not_done.
  destruct (sys_update s i sid p p Hpi) as (_ & _ & Hi & Hpp). destruct (Forall2_lookup_l _ _ _ _ _ Hfol Hpp) as (A & HA & Hfi).
  assert (He : ∀ j A', (j < i)%nat → As !! j = Some A' → A' = ∅).
  { intros j A' Hj HA'. destruct (Forall2_lookup_r _ _ _ _ _ Hfol HA') as (q & Hq & Hfq). rewrite list_lookup_fmap in Hq.
    destruct (progs s !! j) as [[sid' q']|] eqn:Ej; [|done]. injection Hq as <-. specialize (Hfirst j _ Hj Ej). cbn in Hfirst. by subst q'. }
  destruct p as [|r k|r v k]; [done|..]; cbn in Hfi.
  - destruct Hfi as (b & Hb & _). destruct (first_turn _ _ _ _ _ _ _ _ Hinv Hi HA Hb He) as (h & t & Hh & Hw).
    eexists. eapply read_step; [done|done|]. unfold ReadWithVersion. rewrite (owner_peek _ _ _ _ _ _ _ _ _ Hinv Hi HA Hb Hh). cbn [mbind result_bind negb]. by rewrite Hw.
  - destruct Hfi as [Hb _]. destruct (first_turn _ _ _ _ _ _ _ _ Hinv Hi HA Hb He) as (h & t & Hh & Hw).
    eexists. eapply write_step; [done|done|]. unfold WriteWithVersion. by rewrite Hw.
Qed.

(** a step leaves a smaller program *)
Definition psub_at (l' l : list Prog) : Prop := ∃ i p p', l !! i = Some p ∧ child p' p ∧ l' = <[i := p']> l.

Lemma psub_at_cons p : Acc child p → ∀ l, Acc psub_at l → Acc psub_at (p :: l).
Proof.
  induction 1 as [p _ IHp]. intros l Hl. induction Hl as [l Hl IHl]. constructor. intros l' ([|i] & q & q' & Hq & Hs & ->); cbn in *.
  - injection Hq as ->. apply IHp; [done|by constructor].
  - apply IHl. by exists i, q, q'.
Qed.
Lemma psub_at_acc l : Acc psub_at l.
Proof.
  induction l as [|p l IH]; [|apply psub_at_cons; [apply child_wf|done]]. constructor. intros l' (i & p & p' & Hp & _). by rewrite lookup_nil in Hp.
Qed.
Lemma step_smaller s s' : cstep s s' → psub_at (progs s').*2 (progs s).*2.
Proof.
  intros [s0 i sid r k h v h' Hp _ _|s0 i sid r v k h h' Hp _ _]; cbn [progs]; eapply sys_update in Hp as (_ & -> & _ & Hpi);
    (do 3 eexists; split; [exact Hpi|split; [cbn; eauto|done]]).
Qed.
Lemma steps_end s : Acc (fun s' s => cstep s s') s.
Proof.
  remember (progs s).*2 as l eqn:E. revert s E. induction (psub_at_acc l) as [l _ IH]. intros s ->. constructor. intros s' Hs.
  eapply IH; [by apply step_smaller|done].
Qed.

(** ** Declarations *)

Definition decl_turn (r : Z) (d : Z * Z * bool) : option Z :=
  let '(sid, r', b) := d in if r' =? r then Some (access_turn sid b) else None.

Lemma declare_eq env sid r b m h h' : m !! r = Some h → AppendNewAccess env false sid b h = Ok (h', true) →
  declare env (sid, r, b) m = Ok (<[r := h']> m).
Proof. intros Hh E. unfold declare. by rewrite Hh, E. Qed.

Lemma calvin_declare_all env ds : ∀ m,
  (∀ r h, m !! r = Some h → wf h) → (∀ sid r b, (sid, r, b) ∈ ds → is_Some (m !! r)) →
  ∃ m', for_each (declare env) ds m = Ok m' ∧ objects m' = objects m ∧
    ∀ r, match m !! r, m' !! r with
         | Some h, Some h' => wf h' ∧ pos h' = pos h ∧ turns h' ≡ₚ omap (decl_turn r) ds ++ turns h
         | None, None => True
         | _, _ => False
         end.
Proof.
  induction ds as [|[[sid r] b] ds IH]; intros m Hwf Hdom; cbn [for_each].
  { exists m. split; [done|]. split; [done|]. intros r. destruct (m !! r) as [h|] eqn:E; [|done]. cbn. split; [by eapply Hwf|done]. }
  destruct (Hdom sid r b) as [h Hh]; [left|].
  destruct (append_access env sid b h (Hwf r h Hh)) as (h1 & Ea & Hwf1 & Ho & Hp & _ & Ht). rewrite (declare_eq _ _ _ _ _ _ _ Hh Ea). cbn [mbind result_bind].
  destruct (IH (<[r := h1]> m)) as (m' & E & Eo & Hm').
  { intros r' g. destruct (decide (r' = r)) as [->|]; [rewrite lookup_insert_eq; by intros [= <-]|rewrite lookup_insert_ne by done; apply Hwf]. }
  { intros sid' r' b' Hin. destruct (decide (r' = r)) as [->|]; [rewrite lookup_insert_eq; eauto|]. rewrite lookup_insert_ne by done.
    apply (Hdom sid' r' b'). by right. }
  exists m'. split; [done|]. split.
  { rewrite Eo. unfold objects. rewrite fmap_insert. apply insert_id. by rewrite lookup_fmap, Hh, Ho. }
  intros r'. specialize (Hm' r'). cbn [omap list_omap decl_turn]. destruct (decide (r' = r)) as [->|Hne].
  - rewrite lookup_insert_eq in Hm'. rewrite Hh. destruct (m' !! r) as [h'|]; [|done]. destruct Hm' as (Hw & Hp' & Ht').
    rewrite Z.eqb_refl. split_and!; [done|congruence|]. rewrite Ht', Ht. by rewrite <- Permutation_middle.
  - rewrite lookup_insert_ne in Hm' by done. destruct (m !! r') as [g|], (m' !! r') as [g'|]; try done.
    by rewrite (proj2 (Z.eqb_neq r r')) by done.
Qed.

(** ** An epoch *)

Record Txn := mkTxn { t_sid : Z; t_accesses : gmap Z bool; t_prog : Prog }.
Record epoch_ok (m : gmap Z CalvinVHandle) (txns : list Txn) (ds : list (Z * Z * bool)) : Prop := {
  eo_sids : StronglySorted Z.lt (map t_sid txns);
  eo_range : Forall (fun t => 0 ≤ t_sid t < 2 ^ 63) txns;
  eo_follows : Forall (fun t => follows (t_prog t) (t_accesses t)) txns;
  eo_nodup : NoDup ds;
  eo_decl : ∀ sid r b, (sid, r, b) ∈ ds ↔ ∃ t, t ∈ txns ∧ t_sid t = sid ∧ t_accesses t !! r = Some b;
  eo_rows : ∀ r h, m !! r = Some h → wf h ∧ size h = 0 ∧ pos h = 0;
  eo_dom : ∀ sid r b, (sid, r, b) ∈ ds → is_Some (m !! r) }.
Definition start (m : gmap Z CalvinVHandle) (txns : list Txn) : Sys := mkSys m (map (fun t => (t_sid t, t_prog t)) txns).

Lemma lookup_map {A B} (f : A → B) l i : map f l !! i = f <$> l !! i.
Proof. apply (list_lookup_fmap f l i). Qed.
Lemma start_lists m txns : (progs (start m txns)).*1 = map t_sid txns ∧ (progs (start m txns)).*2 = map t_prog txns.
Proof. cbn. split; induction txns as [|t l IH]; cbn; congruence. Qed.

Lemma decl_turns_nodup r ds : NoDup ds → (∀ sid r b, (sid, r, b) ∈ ds → 0 ≤ sid < 2 ^ 63) → NoDup (omap (decl_turn r) ds).
Proof.
  induction 1 as [|[[sid r'] b] ds Hnin Hnd IH]; intros Hr; cbn; [constructor|]. unfold decl_turn at 1. destruct (Z.eqb_spec r' r) as [->|_].
  - constructor; [|apply IH; intros; eapply Hr; right; done]. intros ([[sid' r'] b'] & Hin & E)%list_elem_of_omap.
    unfold decl_turn in E. destruct (Z.eqb_spec r' r) as [->|]; [|done]. injection E as E.
    assert (H1 : 0 ≤ sid < 2 ^ 63) by (eapply Hr; left). assert (H2 : 0 ≤ sid' < 2 ^ 63) by (eapply Hr; right; done).
    rewrite !access_turn_eq in E by done. assert (sid' = sid ∧ b' = b) as [-> ->] by (destruct b, b'; (split; [lia|]; done || lia)). done.
  - apply IH. intros; eapply Hr; right; done.
Qed.

Lemma calvin_start_inv env m txns ds : epoch_ok m txns ds →
  ∃ m', for_each (declare env) ds m = Ok m' ∧ sys_inv (serial (map t_prog txns) (objects m)) (start m' txns).
Proof.
  intros [Hs Hr Hf Hnd Hd Hrows Hdom]. destruct (calvin_declare_all env ds m) as (m' & E & Eo & Hm'); [intros r h Hh; by apply (Hrows r)|done|].
  exists m'. split; [done|]. exists (map t_accesses txns). destruct (start_lists m' txns) as [E1 E2]. rewrite E1, E2.
  assert (HrF : ∀ t, t ∈ txns → 0 ≤ t_sid t < 2 ^ 63) by by apply Forall_forall.
  change (rows (start m' txns)) with m'. split; [constructor; [done|by apply Forall_map| |]|split; [|by rewrite Eo]].
  - intros r h' Hh'. specialize (Hm' r). rewrite Hh' in Hm'. destruct (m !! r) as [h|] eqn:Hh; [|done]. destruct Hm' as (Hw & Hp & Ht).
    destruct (Hrows r h Hh) as (_ & Hz & Hp0). assert (Et : turns h = []) by (unfold turns; rewrite Hz; apply seg_nil; lia). rewrite Et, app_nil_r in Ht.
    constructor; [done| |destruct Hw; lia|].
    + rewrite Ht. apply decl_turns_nodup; [done|]. intros sid r' b Hin. apply Hd in Hin as (t & Hin & <- & _). by apply HrF.
    + intros x. assert (Er : remaining h' = turns h') by (unfold remaining, turns; rewrite Hp, Hp0, Z.sub_0_r; done). rewrite Er, Ht, list_elem_of_omap. split.
      * intros ([[sid r'] b] & Hin & Ex). unfold decl_turn in Ex. destruct (Z.eqb_spec r' r) as [->|]; [|done]. injection Ex as <-.
        apply Hd in Hin as (t & [i Hi]%list_elem_of_lookup & <- & Hb). exists i, (t_sid t), (t_accesses t), b.
        split_and!; [by rewrite lookup_map, Hi..|done|done].
      * intros (i & sid & A & b & Hi & HA & Hb & ->). rewrite lookup_map in Hi. rewrite lookup_map in HA.
        destruct (txns !! i) as [t|] eqn:Et'; [|done]. injection Hi as <-. injection HA as <-. exists (t_sid t, r, b). unfold decl_turn. rewrite Z.eqb_refl.
        split; [|done]. apply Hd. exists t. split_and!; [by eapply list_elem_of_lookup_2|done|done].
  - intros i A r b HA Hb. rewrite lookup_map in HA. destruct (txns !! i) as [t|] eqn:Et; [|done]. injection HA as <-.
    assert (is_Some (m !! r)) as [h Hh]. { apply (Hdom (t_sid t) r b), Hd. exists t. split_and!; [by eapply list_elem_of_lookup_2|done|done]. }
    specialize (Hm' r). rewrite Hh in Hm'. destruct (m' !! r); [eauto|done].
  - clear -Hf. induction Hf as [|t l Ht _ IH]; cbn; [constructor|by constructor].
Qed.


(** three transactions on two rows, declared out of order *)
Definition sample_env : Env := mkEnv 0 0 (fun n => 4096 + n) (fun i => 7 * i) (fun _ => 0) (fun _ => 0).
Definition sample_rows : gmap Z CalvinVHandle := {[1 := CalvinVHandle_new sample_env; 2 := CalvinVHandle_new sample_env]}.
Definition txn1 : Txn := mkTxn 1 {[1 := false]} (Read 1 (fun v => Write 1 (v + 10) Done)).
Definition txn2 : Txn := mkTxn 2 {[1 := true; 2 := false]} (Read 1 (fun v => Write 2 (v + 5) Done)).
Definition txn3 : Txn := mkTxn 3 {[1 := false; 2 := true]} (Read 2 (fun v => Write 1 (2 * v) Done)).
Definition sample_txns : list Txn := [txn1; txn2; txn3].
Definition sample_decls : list (Z * Z * bool) := [(3, 1, false); (2, 2, false); (2, 1, true); (1, 1, false); (3, 2, true)].

Lemma sample_ok : epoch_ok sample_rows sample_txns sample_decls.
Proof.
  constructor.
  - repeat constructor.
  - by repeat constructor.
  - repeat (apply Forall_cons_2 || apply Forall_nil_2); cbn.
    + exists false. split; [done|]. intros v. split; [done|]. reflexivity.
    + exists true. split; [done|]. intros v. split; [done|]. reflexivity.
    + exists true. split; [done|]. intros v. split; [done|]. reflexivity.
  - apply (bool_decide_unpack _). reflexivity.
  - intros sid r b. split.
    + intros H. repeat (apply elem_of_cons in H as [[= -> -> ->]|H]); [..|by apply elem_of_nil in H];
        [exists txn3|exists txn2|exists txn2|exists txn1|exists txn3]; (split; [unfold sample_txns; set_solver|split; reflexivity]).
    + intros (t & Ht & <- & Hb). unfold sample_decls. repeat (apply elem_of_cons in Ht as [->|Ht]); [..|by apply elem_of_nil in Ht];
        cbn in Hb; repeat (apply lookup_insert_Some in Hb as [[<- <-]|[_ Hb]]); try (apply lookup_singleton_Some in Hb as [<- <-]); set_solver.
  - intros r h Hh. unfold sample_rows in Hh. apply lookup_insert_Some in Hh as [[<- <-]|[_ [<- <-]%lookup_singleton_Some]]; (split; [apply new_wf|done]).
  - intros sid r b H. repeat (apply elem_of_cons in H as [[= -> -> ->]|H]); [..|by apply elem_of_nil in H]; eauto.
Qed.


(** A transaction that only reads a row takes its turn with the first read; a second read waits
    for a turn that has passed. *)
Lemma second_read_blocks h sid v h' : wf h → 0 ≤ sid < 2 ^ 63 → access_turn sid true ∈ turns h → 0 ≤ pos h < size h →
  (accesses h).[pos h] = access_turn sid true → Z.shiftr ((accesses h).[pos h + 1]) 1 ≠ sid →
  ReadWithVersion h sid = Ok (v, h') → ReadWithVersion h' sid = Err Blocked.
Proof.
  intros Hwf Hsid Hin Hp Ht Hn Hr. pose proof (peek_true h sid true Hwf Hsid Hin) as Hpeek.
  destruct (read_at_turn _ _ _ _ Hpeek Hr) as (t & Hw & _ & ->). destruct Hwf as [Hc Hs Hso Hl].
  unfold WaitForTurn in Hw. rewrite load_in in Hw by lia. cbn [mbind result_bind] in Hw. rewrite Ht, turn_sid, Z.eqb_refl in Hw by done.
  assert (t = access_turn sid true) as -> by congruence. rewrite turn_kind by done.
  unfold ReadWithVersion. change (PeekForTurn (set_size h (size h) (pos h + 1)) sid) with (PeekForTurn h sid). rewrite Hpeek. cbn [mbind result_bind negb].
  unfold WaitForTurn. cbn [set_size accesses pos]. rewrite load_in by lia. cbn [mbind result_bind]. by rewrite (proj2 (Z.eqb_neq _ _) Hn).
Qed.
End Calvin.

(** * Linked lists of versions *)

Module LinkList.

Section Ops.
Context `{SyncService}.

Record Entry := mkEntry { version : Z; object : Z; e_coreid : Z }.
(** [head] is the entry with the largest version; [deleted] logs the objects of the entries
    that garbage collection deletes *)
Record LinkListVHandle := mkLinkList { this_coreid : Z; lock : bool; head : list Entry; size : Z; deleted : list Z }.
Definition LinkListVHandle_new (core : Z) : LinkListVHandle := mkLinkList core false [] 0 [].

(** the two loops of [GarbageCollect] *)
Fixpoint cut (min_of_epoch : Z) (l : list Entry) : list Entry * list Entry :=
  match l with
  | [] => ([], [])
  | e :: l' => if min_of_epoch <=? version e then let '(keep, old) := cut min_of_epoch l' in (e :: keep, old) else ([], l)
  end.
Definition GarbageCollect (min_of_epoch : Z) (h : LinkListVHandle) : LinkListVHandle :=
  match head h with
  | [] | [_] => h
  | _ => let '(keep, old) := cut min_of_epoch (head h) in
         mkLinkList (this_coreid h) (lock h) keep (size h - len old) (deleted h ++ map object old)
  end.

(** the loop of [AppendNewVersion]; [None] when the version exists *)
Fixpoint insert_version (core sid : Z) (l : list Entry) : option (list Entry) :=
  match l with
  | [] => Some [mkEntry sid kPendingValue core]
  | e :: l' =>
      if version e <? sid then Some (mkEntry sid kPendingValue core :: l) else
      if version e =? sid then None else cons e <$> insert_version core sid l'
  end.
(** [gc_rule] decides whether to collect, with the least version to keep *)
Definition AppendNewVersion (core : Z) (gc_rule : option Z) (sid : Z) (h : LinkListVHandle) : LinkListVHandle * bool :=
  if lock h then (h, false) else
  let h := match gc_rule with Some min => GarbageCollect min h | None => h end in
  match insert_version core sid (head h) with
  | Some l => (mkLinkList (this_coreid h) false l (size h + 1) (deleted h), true)
  | None => (h, true)
  end.

Fixpoint find_below (sid : Z) (l : list Entry) : option Entry :=
  match l with [] => None | e :: l => if sid <=? version e then find_below sid l else Some e end.
(** [None] is [nullptr]; a pending object is waited for *)
Definition ReadWithVersion (h : LinkListVHandle) (sid : Z) : result (option Z) :=
  match find_below sid (head h) with
  | None => Ok None
  | Some e => if IsPendingVal (object e) then Err Blocked else Ok (Some (object e))
  end.

Fixpoint offer (sid o : Z) (l : list Entry) : option (list Entry) :=
  match l with
  | [] => None
  | e :: l' => if version e =? sid then Some (mkEntry (version e) o (e_coreid e) :: l') else cons e <$> offer sid o l'
  end.
(** it returns false for "Diverging outcomes" *)
Definition WriteWithVersion (h : LinkListVHandle) (sid o : Z) (dry_run : bool) : LinkListVHandle * bool :=
  match offer sid o (head h) with
  | None => (h, false)
  | Some l => if dry_run then (h, true) else (mkLinkList (this_coreid h) (lock h) l (size h) (deleted h), true)
  end.
Definition nr_versions (h : LinkListVHandle) : Z := size h.

(** ** Rows *)

Definition pair_of (e : Entry) : Z * Z := (version e, object e).
(** in ascending order, as the rows of [MVStore] *)
Definition entries (h : LinkListVHandle) : list (Z * Z) := reverse (pair_of <$> head h).
Record wf (h : LinkListVHandle) : Prop := {
  wf_sorted : StronglySorted (fun a b => version b < version a) (head h);
  wf_size : size h = len (head h);
  wf_lock : lock h = false }.

Lemma read_law h sid : ReadWithVersion h sid = read_result (read_entry sid (entries h)).
Proof.
  unfold ReadWithVersion, read_entry, entries. induction (head h) as [|e l IH]; [done|]. cbn [find_below fmap list_fmap].
  rewrite reverse_cons, filter_app. destruct (Z.leb_spec sid (version e)) as [Hle|Hlt].
  - rewrite IH. rewrite (filter_cons_False _ (pair_of e)), filter_nil by (cbn; lia). by rewrite app_nil_r.
  - rewrite (filter_cons_True _ (pair_of e)), filter_nil by (cbn; lia). by rewrite last_snoc.
Qed.

Lemma offer_spec sid o l : match offer sid o l with
  | Some l' => ∃ l1 x c l2, l = l1 ++ mkEntry sid x c :: l2 ∧ l' = l1 ++ mkEntry sid o c :: l2
  | None => ∀ e, e ∈ l → version e ≠ sid end.
Proof.
  induction l as [|e l IH]; cbn [offer]; [by intros e ?%elem_of_nil|]. destruct (Z.eqb_spec (version e) sid) as [<-|Hne].
  - exists [], (object e), (e_coreid e), l. by destruct e.
  - destruct (offer sid o l) as [l'|]; cbn.
    + destruct IH as (l1 & x & c & l2 & -> & ->). by exists (e :: l1), x, c, l2.
    + intros e' [->|He]%elem_of_cons; [done|by apply IH].
Qed.

Lemma entries_app (h : LinkListVHandle) l1 l2 : head h = l1 ++ l2 → entries h = reverse (pair_of <$> l2) ++ reverse (pair_of <$> l1).
Proof. intros E. unfold entries. by rewrite E, fmap_app, reverse_app. Qed.

(** the versions of a list are distinct *)
Lemma versions_around l1 e l2 : StronglySorted (fun a b => version b < version a) (l1 ++ e :: l2) →
  (∀ x, x ∈ l1 → version e < version x) ∧ (∀ x, x ∈ l2 → version x < version e).
Proof.
  intros (H1 & _ & H2)%StronglySorted_app. split; [intros x Hx; apply H1; [done|left]|].
  apply StronglySorted_cons in H2 as [H2 _]. by apply Forall_forall.
Qed.

Lemma sorted_replace l1 e e' l2 : version e' = version e → StronglySorted (fun a b => version b < version a) (l1 ++ e :: l2) →
  StronglySorted (fun a b => version b < version a) (l1 ++ e' :: l2).
Proof.
  intros E Hs. pose proof (versions_around _ _ _ Hs) as [Hl Hr]. apply StronglySorted_app in Hs as (H1 & Hs1 & Hs2).
  apply StronglySorted_cons in Hs2 as [_ Hs2]. apply StronglySorted_app. split; [|split; [done|apply StronglySorted_cons; split; [|done]]].
  - intros x y Hx [->|Hy]%elem_of_cons; [rewrite E; by apply Hl|]. apply H1; [done|by right].
  - apply Forall_forall. intros x Hx. rewrite E. by apply Hr.
Qed.

(** a write fills in the writer's version *)
Lemma write_law h sid o : wf h → match WriteWithVersion h sid o false with
  | (h', true) => wf h' ∧ sid ∈ (entries h).*1 ∧ entries h' = write_entry sid o (entries h)
  | (h', false) => h' = h ∧ sid ∉ (entries h).*1 end.
Proof.
  intros [Hs Hz Hl]. unfold WriteWithVersion. pose proof (offer_spec sid o (head h)) as Ho. destruct (offer sid o (head h)) as [l'|].
  - destruct Ho as (l1 & x & c & l2 & E & ->). set (h' := mkLinkList _ _ _ _ _). rewrite E in Hs. pose proof (versions_around _ _ _ Hs) as [H1 H2]. cbn in H1, H2.
    split; [|split].
    + constructor; cbn; [by apply (sorted_replace _ _ _ _ (eq_refl : version (mkEntry sid o c) = version (mkEntry sid x c)))| |done].
      rewrite Hz, E, !length_app. done.
    + rewrite (entries_app h _ _ E). rewrite !fmap_cons, !reverse_cons, !fmap_app. cbn. set_solver.
    + rewrite (entries_app h _ _ E), (entries_app h' l1 (mkEntry sid o c :: l2)) by done. unfold write_entry. rewrite !fmap_cons, !reverse_cons, !fmap_app. cbn. rewrite Z.eqb_refl.
      assert (Hid : ∀ l, (∀ y, y ∈ l → version y ≠ sid) → (fun e : Z * Z => if e.1 =? sid then (sid, o) else e) <$> reverse (pair_of <$> l) = reverse (pair_of <$> l)).
      { intros l Hne. rewrite <- (list_fmap_id (reverse (pair_of <$> l))) at 2. apply list_fmap_ext. intros i y Hy%list_elem_of_lookup_2.
        rewrite elem_of_reverse in Hy. apply list_elem_of_fmap in Hy as (z & -> & Hz'). cbn. by rewrite (proj2 (Z.eqb_neq _ _) (Hne z Hz')). }
      rewrite !Hid; [done|..]; intros y Hy; [specialize (H1 y Hy)|specialize (H2 y Hy)]; lia.
  - split; [done|]. unfold entries. intros (y & -> & Hy)%list_elem_of_fmap. rewrite elem_of_reverse in Hy.
    apply list_elem_of_fmap in Hy as (z & -> & Hz'). by apply (Ho z Hz').
Qed.

(** a new version is inserted in its place, pending *)
Lemma insert_spec core sid l : StronglySorted (fun a b => version b < version a) l → match insert_version core sid l with
  | Some l' => ∃ l1 l2, l = l1 ++ l2 ∧ l' = l1 ++ mkEntry sid kPendingValue core :: l2 ∧ StronglySorted (fun a b => version b < version a) l'
  | None => ∃ e, e ∈ l ∧ version e = sid end.
Proof.
  induction l as [|e l IH]; intros Hs; cbn [insert_version].
  { exists [], []. split_and!; [done|done|repeat constructor]. }
  apply StronglySorted_cons in Hs as [Hf Hs]. rewrite Forall_forall in Hf. destruct (Z.ltb_spec (version e) sid) as [Hlt|Hge].
  - exists [], (e :: l). split_and!; [done|done|]. apply StronglySorted_cons. split; [|apply StronglySorted_cons; by rewrite Forall_forall].
    apply Forall_forall. intros x [->|Hx]%elem_of_cons; [done|]. specialize (Hf x Hx). cbn in *. lia.
  - destruct (Z.eqb_spec (version e) sid) as [He|Hne]; [exists e; split; [left|done]|]. specialize (IH Hs).
    destruct (insert_version core sid l) as [l'|]; cbn; [|destruct IH as (x & Hx & E); exists x; split; [by right|done]].
    destruct IH as (l1 & l2 & -> & -> & Hs'). exists (e :: l1), l2. split_and!; [done|done|]. apply StronglySorted_cons. split; [|done].
    apply Forall_forall. intros x Hx. apply elem_of_app in Hx as [Hx|[->|Hx]%elem_of_cons]; [apply Hf; set_solver|cbn; lia|apply Hf; set_solver].
Qed.
Lemma append_law core sid h : wf h → let '(h', ok) := AppendNewVersion core None sid h in
  ok = true ∧ wf h' ∧ if decide (sid ∈ (entries h).*1) then h' = h else entries h' ≡ₚ (sid, kPendingValue) :: entries h.
Proof.
  intros [Hs Hz Hl]. unfold AppendNewVersion. rewrite Hl. pose proof (insert_spec core sid (head h) Hs) as Hi.
  assert (Hin : sid ∈ (entries h).*1 ↔ ∃ e, e ∈ head h ∧ version e = sid).
  { unfold entries. rewrite list_elem_of_fmap. split.
    - intros (y & -> & (z & -> & Hz')%elem_of_reverse%list_elem_of_fmap). eauto.
    - intros (e & He & <-). exists (pair_of e). split; [done|]. apply elem_of_reverse, list_elem_of_fmap. eauto. }
  destruct (insert_version core sid (head h)) as [l'|].
  - destruct Hi as (l1 & l2 & E & -> & Hs'). rewrite decide_False.
    + split_and!; [done|constructor; cbn; [done|rewrite Hz, E, !length_app; cbn; lia|done]|].
      rewrite (entries_app h _ _ E), (entries_app _ l1 (mkEntry sid kPendingValue core :: l2)) by done. rewrite fmap_cons, reverse_cons, <- app_assoc. cbn.
      by rewrite <- Permutation_middle.
    + intros (e & He & Ev)%Hin. pose proof (versions_around _ _ _ Hs') as [H1 H2]. cbn in H1, H2. rewrite E in He.
      apply elem_of_app in He as [He|He]; [specialize (H1 e He)|specialize (H2 e He)]; lia.
  - rewrite decide_True by by apply Hin. done.
Qed.

Lemma entries_sorted h : wf h → StronglySorted (fun a b : Z * Z => a.1 < b.1) (entries h).
Proof.
  intros [Hs _ _]. unfold entries. induction Hs as [|e l Hs IH Hf]; [constructor|]. rewrite fmap_cons, reverse_cons. apply StronglySorted_app.
  split_and!; [|done|repeat constructor]. intros x y Hx ->%list_elem_of_singleton. rewrite elem_of_reverse, list_elem_of_fmap in Hx.
  destruct Hx as (z & -> & Hz). rewrite Forall_forall in Hf. by apply Hf.
Qed.

(** ** Garbage collection: a reader whose version is not older than [min_of_epoch] is not affected *)

Lemma cut_spec min l : StronglySorted (fun a b => version b < version a) l → let '(keep, old) := cut min l in
  l = keep ++ old ∧ (∀ e, e ∈ keep → min ≤ version e) ∧ ∀ e, e ∈ old → version e < min.
Proof.
  induction 1 as [|e l Hs IH Hf]; cbn [cut]; [split_and!; [done|intros e ?%elem_of_nil; done..]|].
  destruct (Z.leb_spec min (version e)) as [Hle|Hlt].
  - destruct (cut min l) as [keep old]. destruct IH as (-> & H1 & H2). split_and!; [done| |done]. intros x [->|Hx]%elem_of_cons; auto.
  - split_and!; [done|intros x ?%elem_of_nil; done|]. rewrite Forall_forall in Hf. intros x [->|Hx]%elem_of_cons; [done|]. specialize (Hf x Hx). cbn in *. lia.
Qed.
Lemma collect_entries min h : wf h → wf (GarbageCollect min h) ∧
  entries (GarbageCollect min h) = if decide (len (head h) ≤ 1) then entries h else filter (fun e => min ≤ e.1) (entries h).
Proof.
  intros [Hs Hz Hl]. pose proof (cut_spec min (head h) Hs) as Hc. unfold GarbageCollect. destruct (head h) as [|e1 [|e2 l]] eqn:E; [split; [by constructor; rewrite ?E|done]..|].
  rewrite decide_False by (cbn; lia). rewrite <- E in *. destruct (cut min (head h)) as [keep old]. destruct Hc as (Eh & H1 & H2). split.
  - constructor; cbn; [rewrite Eh in Hs; by apply StronglySorted_app_1_l in Hs|rewrite Hz, Eh, length_app; lia|done].
  - rewrite (entries_app h _ _ Eh), filter_app, filter_none, filter_all; [done|..]; intros x Hx; rewrite elem_of_reverse in Hx;
      apply list_elem_of_fmap in Hx as (y & -> & Hy); cbn; [by apply H1|specialize (H2 y Hy); lia].
Qed.
Lemma collect_keeps_reads min h sid v o : wf h → read_entry sid (entries h) = Some (v, o) → min ≤ v →
  ReadWithVersion (GarbageCollect min h) sid = ReadWithVersion h sid.
Proof.
  intros Hwf Hr Hv. destruct (collect_entries min h Hwf) as [_ E]. rewrite !read_law, E. case_decide; [done|]. f_equal. rewrite Hr.
  pose proof (entries_sorted h Hwf) as Hs. revert Hr. unfold read_entry. intros Hr. apply last_Some in Hr as (l & Hl).
  assert (Ef : filter (fun e => min ≤ e.1) (filter (fun e : Z * Z => e.1 < sid) (entries h)) = filter (fun e : Z * Z => e.1 < sid) (filter (fun e => min ≤ e.1) (entries h))).
  { rewrite !list_filter_filter. apply list_filter_iff. tauto. }
  rewrite <- Ef, Hl, filter_app, filter_cons_True by done. rewrite filter_nil. by rewrite last_snoc.
Qed.
Lemma sorted_filter {A} (R : A → A → Prop) (P : A → Prop) `{∀ x, Decision (P x)} l : StronglySorted R l → StronglySorted R (filter P l).
Proof.
  induction 1 as [|x l Hs IH Hf]; [constructor|]. rewrite filter_cons. case_decide; [|done]. constructor; [done|].
  apply Forall_forall. intros y [_ Hy]%list_elem_of_filter. rewrite Forall_forall in Hf. by apply Hf.
Qed.
(** but a reader whose version is older finds nothing when the row has more than one version *)
Lemma collect_loses_old min h sid : wf h → 1 < len (head h) → (∀ v o, read_entry sid (entries h) = Some (v, o) → v < min) →
  ReadWithVersion (GarbageCollect min h) sid = Ok None.
Proof.
  intros Hwf Hlen Hr. destruct (collect_entries min h Hwf) as [_ E]. rewrite read_law, E, decide_False by lia.
  pose proof (entries_sorted h Hwf) as Hs. unfold read_entry in *. rewrite list_filter_filter, filter_none; [done|]. intros e He [Hlt Hmin].
  destruct (last (filter (fun e : Z * Z => e.1 < sid) (entries h))) as [[v o]|] eqn:El.
  - specialize (Hr v o eq_refl). apply last_Some in El as (l & El). assert (Hin : e ∈ filter (fun e : Z * Z => e.1 < sid) (entries h)) by by apply list_elem_of_filter.
    assert (Hsf : StronglySorted (fun a b : Z * Z => a.1 < b.1) (filter (fun e : Z * Z => e.1 < sid) (entries h))) by by apply sorted_filter.
    rewrite El in Hin, Hsf. apply elem_of_app in Hin as [Hin|Hin]; [|apply list_elem_of_singleton in Hin as ->; cbn in *; lia].
    pose proof (StronglySorted_app_1_elem_of _ _ _ _ _ Hsf Hin ltac:(left)) as Hx. cbn in Hx. lia.
  - apply last_None in El. assert (Hin : e ∈ filter (fun e : Z * Z => e.1 < sid) (entries h)) by by apply list_elem_of_filter. rewrite El in Hin. by apply elem_of_nil in Hin.
Qed.
End Ops.

(** ** The rows of an epoch as linked lists *)

Section Store.
Context `{SS : SyncService} (E : Z → Prop).

Abbreviation LLStore := (Z → LinkListVHandle).
Definition ll_write (s : LLStore) (r sid o : Z) : result LLStore :=
  let '(h, ok) := WriteWithVersion (s r) sid o false in if ok : bool then Ok (<[r := h]> s) else Err Aborted.

#[export, refine] Instance ll_store : MVStore E LLStore := {|
  st_entries s r := entries (s r);
  st_ok s := ∀ r, wf (s r);
  st_room _ := True;
  st_val_ok _ o := IsPendingVal o = false;
  st_read s r sid := ReadWithVersion (s r) sid;
  st_write := ll_write |}.
Proof.
  - done.
  - intros s r sid _ _ _. apply read_law.
  - intros s r sid o l1 x l2 Hok _ _ _ _ _ s' Hw. unfold ll_write in Hw. pose proof (write_law (s r) sid o (Hok r)) as Hl.
    destruct (WriteWithVersion (s r) sid o false) as [h ok]. destruct ok; [|done]. injection Hw as <-. destruct Hl as (Hwf & _ & He). split.
    + intros r'. destruct (decide (r = r')) as [<-|]; [by rewrite fn_lookup_insert|by rewrite fn_lookup_insert_ne].
    + intros r'. case_decide as Hr; [subst r'; by rewrite fn_lookup_insert|by rewrite fn_lookup_insert_ne].
  - intros s r sid o l1 x l2 Hok _ _ _ He _ _. unfold ll_write. pose proof (write_law (s r) sid o (Hok r)) as Hl.
    destruct (WriteWithVersion (s r) sid o false) as [h ok]. destruct ok; [by eexists|]. destruct Hl as [_ Hn]. destruct Hn.
    rewrite He, fmap_app. cbn. set_solver.
Defined.

(** the initialization phase: the writers of the rows, in the order they append *)
Definition declare (core : Z) (d : Z * Z) (s : LLStore) : result LLStore :=
  let '(h, ok) := AppendNewVersion core None d.1 (s d.2) in if ok : bool then Ok (<[d.2 := h]> s) else Err Blocked.

Lemma declare_at core sid r s h : AppendNewVersion core None sid (s r) = (h, true) → declare core (sid, r) s = Ok (<[r := h]> s).
Proof. intros Ea. unfold declare. cbn [fst snd]. by rewrite Ea. Qed.

Definition writer_of (r : Z) (d : Z * Z) : option (Z * Z) := if d.2 =? r then Some (d.1, kPendingValue) else None.

Lemma ll_declare_all core ds : ∀ s, (∀ r, wf (s r)) → NoDup ds → (∀ sid r, (sid, r) ∈ ds → sid ∉ (entries (s r)).*1) →
  ∃ s', for_each (declare core) ds s = Ok s' ∧ ∀ r, wf (s' r) ∧ entries (s' r) ≡ₚ omap (writer_of r) ds ++ entries (s r).
Proof.
  induction ds as [|[sid r] ds IH]; intros s Hwf Hnd Hnew; cbn [for_each]; [by exists s|]. apply NoDup_cons in Hnd as [Hnin Hnd].
  pose proof (append_law core sid (s r) (Hwf r)) as Ha. destruct (AppendNewVersion core None sid (s r)) as [h ok] eqn:Ea.
  destruct Ha as (-> & Hwf' & He). rewrite (declare_at _ _ _ _ _ Ea). rewrite decide_False in He by (apply Hnew; left). cbn [mbind result_bind].
  destruct (IH (<[r := h]> s)) as (s' & Es & Hs').
  { intros r'. destruct (decide (r = r')) as [<-|]; [by rewrite fn_lookup_insert|by rewrite fn_lookup_insert_ne]. }
  { done. }
  { intros sid' r' Hin. destruct (decide (r = r')) as [<-|]; [|rewrite fn_lookup_insert_ne by done; apply Hnew; by right].
    rewrite fn_lookup_insert, He. cbn. intros [->|Hin']%elem_of_cons; [done|]. by apply (Hnew sid' r); [right|]. }
  exists s'. split; [done|]. intros r'. destruct (Hs' r') as [Hw Hp]. split; [done|]. rewrite Hp. cbn [omap list_omap]. unfold writer_of at 2. cbn [fst snd].
  destruct (Z.eqb_spec r r') as [<-|Hne]; [|by rewrite fn_lookup_insert_ne].
  rewrite fn_lookup_insert, He. cbn. by rewrite Permutation_middle.
Qed.

Context (prog : Z → Prog) (sids : list Z) (σ0 : Z → Z).
(** the rows before the epoch and the writers that are declared *)
Record epoch_ok (s : LLStore) (ds : list (Z * Z)) : Prop := {
  eo_sids : StronglySorted Z.lt sids;
  eo_epoch : ∀ sid, sid ∈ sids → E sid;
  eo_rows : ∀ r, wf (s r);
  eo_old : ∀ r sid, sid ∈ sids → ∀ e, e ∈ entries (s r) → e.1 < sid;
  eo_base : ∀ r, ∃ v, last (entries (s r)) = Some (v, σ0 r) ∧ IsPendingVal (σ0 r) = false;
  eo_once : ∀ sid, sid ∈ sids → write_once (fun _ o => IsPendingVal o = false) (before prog sids σ0 sid) (prog sid) (fun _ => None);
  eo_nodup : NoDup ds;
  eo_decl : ∀ sid r, (sid, r) ∈ ds ↔ sid ∈ sids ∧ writes prog sids σ0 sid r ≠ None }.

Lemma new_entries_sorted acc r l : StronglySorted Z.lt l → StronglySorted (fun a b : Z * Z => a.1 < b.1) (omap (new_entry prog sids σ0 acc r) l).
Proof.
  induction 1 as [|sid l Hs IH Hf]; [constructor|]. cbn. destruct (new_entry prog sids σ0 acc r sid) as [e|] eqn:Ee; [|done]. constructor; [done|].
  apply Forall_forall. intros x Hx%elem_of_new. rewrite Forall_forall in Hf. apply new_entry_key in Ee as ->. by apply Hf.
Qed.
Lemma sorted_nodup (l : list (Z * Z)) : StronglySorted (fun a b => a.1 < b.1) l → NoDup l.
Proof. induction 1 as [|x l _ IH Hf]; constructor; [|done]. intros Hx. rewrite Forall_forall in Hf. specialize (Hf x Hx). cbn in Hf. lia. Qed.

Lemma declared_initialized core s ds : epoch_ok s ds →
  ∃ s', for_each (declare core) ds s = Ok s' ∧ initialized E prog sids σ0 (fun r => entries (s r)) (mkExec s' prog).
Proof.
  intros [Hs HE Hwf Hold Hb Ho Hnd Hd]. destruct (ll_declare_all core ds s Hwf Hnd) as (s' & Es & Hs').
  { intros sid r [Hin _]%Hd (e & -> & He)%list_elem_of_fmap. specialize (Hold r _ Hin e He). lia. }
  exists s'. split; [done|]. constructor; [done|done|done|done|exact Ho|intros r; apply Hs'|done|]. intros r. cbn [ex_store st_entries ll_store]. destruct (Hs' r) as [Hw Hp].
  apply (StronglySorted_unique_strong (fun a b : Z * Z => a.1 < b.1)); [intros; lia|by apply entries_sorted| |].
  - unfold row_entries. apply StronglySorted_app. split_and!; [|by apply entries_sorted|].
    + intros x y Hx Hy. apply elem_of_new in Hy. by apply (Hold r).
    + by apply new_entries_sorted.
  - rewrite Hp. unfold row_entries. rewrite Permutation_app_comm. apply Permutation_app_head. apply NoDup_Permutation.
    + clear -Hnd. induction Hnd as [|[sid r'] ds Hn Hnd IH]; [constructor|]. cbn. unfold writer_of at 1. cbn. destruct (Z.eqb_spec r' r) as [->|]; [|done].
      constructor; [|done]. intros ([sid' r'] & Hin & Ex)%list_elem_of_omap. unfold writer_of in Ex. cbn in Ex. destruct (Z.eqb_spec r' r) as [->|]; [|done].
      injection Ex as ->. done.
    + by apply sorted_nodup, new_entries_sorted.
    + intros [v o]. rewrite !list_elem_of_omap. unfold writer_of, new_entry. cbn. split.
      * intros ([sid r'] & Hin & Ex). cbn in Ex. destruct (Z.eqb_spec r' r) as [->|]; [|done]. injection Ex as <- <-. apply Hd in Hin as [Hin Hw'].
        exists sid. split; [done|]. by destruct (writes prog sids σ0 sid r).
      * intros (sid & Hin & Ex). destruct (writes prog sids σ0 sid r) eqn:Ew; [|done]. injection Ex as <- <-. exists (sid, r). split; [apply Hd; by rewrite Ew|].
        cbn. by rewrite Z.eqb_refl.
Qed.

End Store.

(** two transactions that both read and write row 0 *)
Definition sample_prog (sid : Z) : Prog :=
  if sid =? 10 then Read 0 (fun o => Write 0 (o + 4096) Done)
  else if sid =? 20 then Read 0 (fun o => Write 0 (2 * o) Done) else Done.
Definition sample_store : Z → LinkListVHandle := fun _ => mkLinkList 0 false [mkEntry 5 4096 0] 1 [].

Lemma sample_writes r s : s = 10 ∨ s = 20 →
  writes sample_prog [10; 20] (fun _ => 4096) s r = if r =? 0 then Some (if s =? 10 then 8192 else 16384) else None.
Proof.
  intros [-> | ->]; unfold writes; cbn; destruct (Z.eqb_spec r 0) as [->|].
  - by rewrite fn_lookup_insert.
  - by rewrite fn_lookup_insert_ne.
  - by rewrite fn_lookup_insert.
  - by rewrite fn_lookup_insert_ne.
Qed.

End LinkList.
