(* ===== verification/Ycsb.v ===== *)
(** The YCSB workload (benchmark/ycsb/ycsb.cc): the keys of a transaction, its pieces in the
    four modes and what they do, and the loader. *)

From S2P Require Import Prelude Bits EpochMem IndexOp IndexFacts IndexProps Tpcc TpccTxns.

#[local] Set Default Proof Using "Type".

Definition kTotal : Z := 10.
Definition kNrMSBContentionKey : Z := 6.

(** the options of [Client], and whether versions are appended without locks *)
Record Opts := mkOpts { g_table_size : Z; g_extra_read : Z; g_contention_key : Z; g_dependency : bool; g_lock_elision : bool }.

(** ** Keys *)

(** [1 << nr_lsb] is an [int] *)
Definition key_mask (size : Z) : result Z :=
  let nr_lsb := 63 - clz64 size - kNrMSBContentionKey in
  if 0 <? nr_lsb then (if nr_lsb <? 31 then Ok (Z.shiftl 1 nr_lsb - 1) else Err OutOfRange) else Ok 0.
(** the numbers that [rand.next()] returns are an argument; [Blocked] when there are no more *)
Fixpoint pick_key (o : Opts) (mask : Z) (keys rs : list Z) : result (Z * list Z) :=
  match rs with
  | [] => Err Blocked
  | x :: rs =>
      let k := x mod g_table_size o in
      if len keys <? g_contention_key o then
        let k := Z.land k (u64 (Z.lnot mask)) in
        if bool_decide (k ∈ keys) then pick_key o mask keys rs else Ok (k, rs)
      else if Z.land k mask =? 0 then pick_key o mask keys rs
      else if bool_decide (k ∈ keys) then pick_key o mask keys rs else Ok (k, rs)
  end.
Fixpoint pick_keys (n : nat) (o : Opts) (mask : Z) (keys rs : list Z) : result (list Z) :=
  match n with O => Ok keys | S n => '(k, rs) ← pick_key o mask keys rs; pick_keys n o mask (keys ++ [k]) rs end.
Definition GenerateTransactionInput (o : Opts) (rs : list Z) : result (list Z) :=
  mask ← key_mask (g_table_size o); pick_keys (Z.to_nat kTotal) o mask [] rs.

(** ** Pieces *)

(** what a piece does, one shared access at a time: reading and writing the row [i] (with the
    size of the new value), [signal.fetch_add(1)] (which goes on to signal [deps] when the
    argument is reached), [deps.Signal()], spinning on [signal], [deps.Wait()] and the
    activation of a resource *)
Inductive Op := ORead (i : Z) | OWrite (i n : Z) | OAdd (k : option Z) | OSignal | OSpin (v : Z) | OWait | OActivate (i : Z).
Record Piece := mkYPiece { y_aff : Z; y_ops : list Op }.

Section Run.
Context (E : Env) (o : Opts) (row : Z → Z) (keys : list Z).

(** [kTotal - g_extra_read]: the rows that are written *)
Definition nr_writes : Z := kTotal - g_extra_read o.
Definition last_write : Z := nr_writes - 1.

(** [LookupCompletion], and [LookupIndex] under lock elision: the versions that row [i] gets,
    with the argument of [AppendNewVersion] *)
Definition LookupCompletion (id : Z) : option (Z * Z) :=
  if id <? nr_writes then Some (id, if id =? nr_writes - 1 then 0 else 1) else None.
Definition LookupIndex (i : Z) : option (Z * Z) := if i <? nr_writes then Some (i, 0) else None.
Definition partition_of (k : Z) : Z := u64 (k * g_nr_threads E) / g_table_size o.
Definition RunOnPartition {A} (f : Z → Z → Z → list A) : list A :=
  concat (map (fun i => f (partition_of (keys.[i])) (keys.[i]) i) (seqZ 0 kTotal)).
Definition Prepare : list (Z * Z) :=
  if negb (g_lock_elision o) then omap LookupCompletion (seqZ 0 kTotal)
  else RunOnPartition (fun part k i => match LookupIndex i with Some d => [d] | None => [] end).

(** the resources of piecewise execution: the partitions whose graph reserves an edge and the
    rows that are added there *)
Definition Prepare_edges : list Z := if g_lock_elision o && g_enable_pwv E then RunOnPartition (fun part k i => [part]) else [].
Definition Prepare_resources : list (Z * Z) := if g_lock_elision o && g_enable_pwv E then RunOnPartition (fun part k i => [(part, i)]) else [].

Definition WriteRow (i : Z) : list Op := [ORead i; OWrite i 999].
(** the function given to [UpdateForKey] *)
Definition update_ops (i : Z) : list Op := WriteRow i ++ if g_dependency o then [OAdd (Some (nr_writes - 1))] else [].
(** the pieces that [UpdateForKey] attaches and the rows that keep their callback *)
Definition update_rows : result (list Piece * list Z) :=
  for_each (fun i '(ps, cs) =>
      aff ← UpdateForKeyAffinity E 1 (row i);
      Ok (if negb (aff =? -1) && negb (g_enable_granola E) && negb (g_enable_pwv E) then (ps ++ [mkYPiece aff (update_ops i)], cs) else (ps, cs ++ [i])))
    (seqZ 0 (nr_writes - 1)) ([], []).
Definition main_piece (callbacks : list Z) : Piece :=
  mkYPiece max_u64 (concat (map update_ops callbacks) ++ (if g_dependency o then [OWait] else []) ++ WriteRow (nr_writes - 1) ++
    map ORead (seqZ nr_writes (kTotal - nr_writes))).
(** the piece of a partition in Granola and in piecewise execution *)
Definition partition_ops (i : Z) : list Op :=
  (if g_dependency o && (i =? nr_writes - 1) then [OSpin i] else []) ++ [ORead i] ++
  (if i <? nr_writes then OWrite i 90 :: (if g_dependency o && (i <? nr_writes - 1) then [OAdd None] else []) else []) ++
  (if g_enable_pwv E then [OActivate i] else []).
(** and in Bohm *)
Definition bohm_piece (part i : Z) : list Piece :=
  if nr_writes <? i then [] else
  if i =? nr_writes then [mkYPiece max_u64 [ORead i]] else
  [mkYPiece part ((if g_dependency o && (i =? nr_writes - 1) then [OSpin i] else []) ++ [ORead i; OWrite i 90; OAdd None])].
Definition Run : result (list Piece) :=
  if negb (kEnablePartition E) then '(ps, cs) ← update_rows; Ok (ps ++ [main_piece cs])
  else if g_enable_granola E || g_enable_pwv E then Ok (RunOnPartition (fun part k i => [mkYPiece part (partition_ops i)]))
  else Ok (RunOnPartition (fun part k i => bohm_piece part i)).

(** ** Execution *)

Inductive Event := ERead (i : Z) | EWrite (i n : Z) | EActivate (i : Z).
(** [signal], [deps] and the accesses to the rows, in their order *)
Record YState := mkY { signal : Z; deps : bool; y_log : list Event }.
(** an operation, before the rest of its piece; [None] when it waits *)
Definition exec_op (op : Op) (l : list Op) (s : YState) : option (list Op * YState) :=
  match op with
  | ORead i => Some (l, mkY (signal s) (deps s) (y_log s ++ [ERead i]))
  | OWrite i n => Some (l, mkY (signal s) (deps s) (y_log s ++ [EWrite i n]))
  | OActivate i => Some (l, mkY (signal s) (deps s) (y_log s ++ [EActivate i]))
  | OAdd k => Some (if bool_decide (k = Some (signal s + 1)) then OSignal :: l else l, mkY (signal s + 1) (deps s) (y_log s))
  | OSignal => Some (l, mkY (signal s) true (y_log s))
  | OSpin v => if signal s =? v then Some (l, s) else None
  | OWait => if deps s then Some (l, s) else None
  end.
End Run.

Inductive ystep : list (list Op) * YState → list (list Op) * YState → Prop :=
| ystep_at ps s j op l l' s' : ps !! j = Some (op :: l) → exec_op op l s = Some (l', s') → ystep (ps, s) (<[j := l']> ps, s').
(** [signal] is 0 when the pieces start *)
Definition y_start : YState := mkY 0 false [].

(** ** The loader *)

Definition loader_start (size nr_threads t : Z) : Z := t * size / nr_threads.
Definition loader_keys (size nr_threads t : Z) : list Z :=
  seqZ (loader_start size nr_threads t) (loader_start size nr_threads (t + 1) - loader_start size nr_threads t).
Definition YcsbLoader_Run (size nr_threads : Z) : list Z := concat (map (loader_keys size nr_threads) (seqZ 0 nr_threads)).

(** ** Steps conserve the accesses and end *)

Definition ev (op : Op) : option Event :=
  match op with ORead i => Some (ERead i) | OWrite i n => Some (EWrite i n) | OActivate i => Some (EActivate i) | _ => None end.
Definition count (p : Op → bool) (l : list Op) : Z := len (filter (fun op => p op = true) l).
Definition is_add (op : Op) : bool := match op with OAdd _ => true | _ => false end.
Definition is_sig (op : Op) : bool := match op with OSignal => true | _ => false end.
Definition is_gate (op : Op) : bool := match op with OSpin _ | OWait => true | _ => false end.
Definition weight (l : list Op) : Z := len l + count is_add l.

Lemma count_cons p op l : count p (op :: l) = (if p op then 1 else 0) + count p l.
Proof. unfold count. rewrite filter_cons. case_decide as E; [rewrite E; cbn; lia|]. destruct (p op); [done|lia]. Qed.
Lemma count_app p l1 l2 : count p (l1 ++ l2) = count p l1 + count p l2.
Proof. unfold count. rewrite filter_app, length_app. lia. Qed.
Lemma count_nonneg p l : 0 ≤ count p l.
Proof. unfold count. lia. Qed.

Lemma sum_insert {A} (f : A → Z) (ps : list A) j x y : ps !! j = Some x → sum_over f (<[j := y]> ps) = sum_over f ps - f x + f y.
Proof.
  revert j. induction ps as [|p ps IH]; intros [|j] H; try done.
  - injection H as ->. unfold sum_over. cbn. lia.
  - change (<[S j := y]> (p :: ps)) with (p :: <[j := y]> ps). specialize (IH j H). unfold sum_over in *. cbn [foldr]. lia.
Qed.

Lemma concat_insert {A} (ps : list (list A)) j x : ps !! j = Some x →
  ∃ others, concat ps ≡ₚ x ++ others ∧ ∀ y, concat (<[j := y]> ps) ≡ₚ y ++ others.
Proof.
  revert j. induction ps as [|p ps IH]; intros [|j] H; try done.
  - injection H as ->. by exists (concat ps).
  - destruct (IH j H) as (others & E & Hy). exists (p ++ others). cbn [concat insert list_insert]. split; [|intros y].
    + rewrite E, !app_assoc. by rewrite (Permutation_app_comm p).
    + cbn. rewrite Hy, !app_assoc. by rewrite (Permutation_app_comm p).
Qed.

(** a step runs the head of a piece *)
Lemma exec_weight op l s l' s' : exec_op op l s = Some (l', s') → weight l' < weight (op :: l).
Proof.
  unfold weight. rewrite count_cons. destruct op; cbn [exec_op is_add length]; intros H; repeat case_match; simplify_eq; rewrite ?count_cons; cbn [is_add length]; lia.
Qed.
Lemma exec_events op l s l' s' : exec_op op l s = Some (l', s') →
  y_log s' ++ omap ev l' = y_log s ++ omap ev (op :: l).
Proof.
  destruct op; cbn [exec_op omap list_omap ev]; intros H; repeat case_match; simplify_eq; cbn [y_log omap list_omap ev]; by rewrite <- ?app_assoc.
Qed.

Lemma ystep_events ps s ps' s' : ystep (ps, s) (ps', s') → y_log s' ++ omap ev (concat ps') ≡ₚ y_log s ++ omap ev (concat ps).
Proof.
  intros H. inversion H as [? ? j op l l' ? Hj He]; subst. destruct (concat_insert ps j _ Hj) as (others & E1 & E2).
  rewrite E1, E2, !omap_app, !app_assoc. by rewrite (exec_events _ _ _ _ _ He).
Qed.
Lemma ysteps_events x y : rtc ystep x y → y_log y.2 ++ omap ev (concat y.1) ≡ₚ y_log x.2 ++ omap ev (concat x.1).
Proof. induction 1 as [|[ps s] [ps' s'] z H _ IH]; [done|]. rewrite IH. by apply ystep_events. Qed.

Lemma ysteps_end x : Acc (fun y x => ystep x y) x.
Proof.
  remember (Z.to_nat (sum_over weight x.1)) as n eqn:E. revert x E. induction (lt_wf n) as [n _ IH]. intros x ->. constructor. intros y H.
  apply (IH (Z.to_nat (sum_over weight y.1))); [|done]. inversion H as [ps s j op l l' s' Hj He]; subst. cbn [fst].
  rewrite (sum_insert weight _ _ _ l' Hj). pose proof (exec_weight _ _ _ _ _ He).
  assert (Hn : ∀ l, 0 ≤ weight l) by (intros l0; unfold weight; pose proof (count_nonneg is_add l0); lia).
  assert (weight (op :: l) ≤ sum_over weight ps).
  { pose proof (sum_insert weight ps j _ [] Hj) as Hs. assert (0 ≤ sum_over weight (<[j := []]> ps)) by (apply sum_over_nonneg; auto). change (weight []) with 0 in Hs. lia. }
  specialize (Hn l'). lia.
Qed.

(** ** The gate before the last write *)

Section Gate.
(** [k] is the last row that is written; [w] when its piece waits for [deps], otherwise it spins *)
Context (k : Z) (w : bool).

Definition early (op : Op) : bool := match op with OWrite i _ => negb (i =? k) | _ => false end.
(** behind the gate *)
Definition behind (l : list Op) : Prop := count early l = 0 ∧ count is_gate l = 0 ∧ count is_sig l = 0 ∧ ∀ c, OAdd c ∈ l → c = None.
(** the additions in front of the gate *)
Fixpoint adds (l : list Op) : Z := match l with [] => 0 | op :: l => if is_gate op then 0 else (if is_add op then 1 else 0) + adds l end.
(** every other write is followed by an addition, the last one comes behind the gate *)
Fixpoint ok (l : list Op) : Prop :=
  match l with
  | [] => True
  | op :: l => match op with
      | OWrite i _ => i ≠ k ∧ (∃ c l', l = OAdd c :: l') ∧ ok l
      | OAdd c => c = (if w then Some k else None) ∧ ok l
      | OSpin v => w = false ∧ v = k ∧ behind l
      | OWait => w = true ∧ behind l
      | _ => ok l
      end
  end.

Record before_gate (ps : list (list Op)) (s : YState) : Prop := {
  bg_ok : Forall ok ps;
  bg_gate : sum_over (count is_gate) ps = 1;
  bg_signal : signal s + sum_over adds ps = k;
  bg_deps : w = true → (deps s = true ∨ 0 < sum_over (count is_sig) ps ↔ signal s = k);
  bg_log : ∀ n, EWrite k n ∉ y_log s }.
Definition last_in (l : list Event) : Prop :=
  (∀ n, EWrite k n ∉ l) ∨ (∃ l1 n l2, l = l1 ++ EWrite k n :: l2 ∧ ∀ i m, EWrite i m ∉ l2).
Record behind_gate (ps : list (list Op)) (s : YState) : Prop := {
  ag_gate : sum_over (count is_gate) ps = 0;
  ag_early : sum_over (count early) ps = 0;
  ag_log : last_in (y_log s) }.

Lemma log_snoc l e : last_in l → (∀ i n, e ≠ EWrite i n) → last_in (l ++ [e]).
Proof.
  intros [Hl|(l1 & n & l2 & -> & Hw)] He.
  - left. intros n Hn. apply elem_of_app in Hn as [Hn|Hn]; [by apply Hl in Hn|]. apply list_elem_of_singleton in Hn. by apply (He k n).
  - right. exists l1, n, (l2 ++ [e]). rewrite <- app_assoc. split; [done|]. intros i m Hm.
    apply elem_of_app in Hm as [Hm|Hm]; [by apply Hw in Hm|]. apply list_elem_of_singleton in Hm. by apply (He i m).
Qed.

Lemma adds_nonneg l : 0 ≤ adds l.
Proof. induction l as [|op l IH]; cbn [adds]; [lia|]. repeat case_match; lia. Qed.
Lemma ok_early l : ok l → count early l ≤ adds l.
Proof.
  remember (length l) as n eqn:E. revert l E. induction (lt_wf n) as [n _ IH]. intros [|op l] -> H; [done|].
  assert (IHl : ∀ l', (length l' ≤ length l)%nat → ok l' → count early l' ≤ adds l') by (intros l' Hl; apply (IH (length l')); [cbn; lia|done]).
  rewrite count_cons. cbn [adds]. destruct op; cbn in H |- *.
  - by apply IHl.
  - destruct H as (Hi & (c & l' & ->) & Hok). rewrite (proj2 (Z.eqb_neq _ _) Hi). cbn [negb]. rewrite count_cons. cbn [early is_gate is_add adds].
    specialize (IHl l' ltac:(cbn; lia) (proj2 Hok)). lia.
  - specialize (IHl l ltac:(lia) (proj2 H)). lia.
  - specialize (IHl l ltac:(lia) H). lia.
  - destruct H as (_ & _ & H & _). lia.
  - destruct H as (_ & H & _). lia.
  - specialize (IHl l ltac:(lia) H). lia.
Qed.

Lemma sum_nonneg (f : list Op → Z) (ps : list (list Op)) j x : (∀ l, 0 ≤ f l) → ps !! j = Some x → f x ≤ sum_over f ps.
Proof.
  intros Hf Hj. revert j Hj. induction ps as [|p ps IH]; intros [|j] Hj; try done; unfold sum_over in *; cbn [foldr].
  - injection Hj as ->. assert (0 ≤ foldr (fun x s => f x + s) 0 ps) by (apply (sum_over_nonneg f); auto). lia.
  - specialize (IH j Hj). specialize (Hf p). lia.
Qed.
Lemma sum_zero (f : list Op → Z) (ps : list (list Op)) : (∀ l, 0 ≤ f l) → sum_over f ps = 0 ↔ ∀ l, l ∈ ps → f l = 0.
Proof.
  intros Hf. split.
  - intros H l [j Hj]%list_elem_of_lookup. pose proof (sum_nonneg f ps j l Hf Hj). specialize (Hf l). lia.
  - intros H. rewrite (sum_over_ext f (fun _ => 0)) by done. rewrite sum_over_const. lia.
Qed.

(** a step in front of the gate, or through it *)
Lemma before_gate_step ps s ps' s' : before_gate ps s → ystep (ps, s) (ps', s') → before_gate ps' s' ∨ behind_gate ps' s'.
Proof.
  intros [Hok Hg Hsig Hd Hl] H. inversion H as [? ? j op l l' ? Hj He]; subst.
  assert (Hokj : ok (op :: l)) by (rewrite Forall_forall in Hok; by eapply Hok, list_elem_of_lookup_2).
  pose proof (fun f => sum_insert f ps j (op :: l) l' Hj) as Hsum. pose proof (Hsum adds) as Ha. pose proof (Hsum (count is_gate)) as Hgt. pose proof (Hsum (count is_sig)) as Hs.
  destruct (is_gate op) eqn:Eg.
  - right. assert (Hb : behind l ∧ l' = l ∧ s' = s ∧ signal s = k).
    { destruct op; try done; cbn in He, Hokj; case_match; simplify_eq.
      - destruct Hokj as (_ & -> & Hb). split_and!; [done|done|done|]. by apply Z.eqb_eq.
      - destruct Hokj as [Ew Hb]. split_and!; [done|done|done|]. apply (Hd Ew). by left. }
    destruct Hb as ((He0 & Hg0 & _ & _) & -> & -> & Hk). rewrite count_cons, Eg in Hgt. constructor; [lia| |by left].
    assert (Hz : sum_over adds ps = 0) by lia. pose proof (proj1 (sum_zero adds ps adds_nonneg) Hz) as Hz'.
    apply (sum_zero (count early) _ (count_nonneg early)). intros x [i Hi]%list_elem_of_lookup. destruct (decide (i = j)) as [->|Hij].
    + rewrite list_lookup_insert_eq in Hi by by eapply lookup_lt_Some. by injection Hi as <-.
    + rewrite list_lookup_insert_ne in Hi by done. apply list_elem_of_lookup_2 in Hi. rewrite Forall_forall in Hok.
      pose proof (ok_early x (Hok x Hi)). rewrite (Hz' x Hi) in *. pose proof (count_nonneg early x). lia.
  - left. rewrite count_cons, Eg in Hgt. rewrite count_cons in Hs. cbn [adds] in Ha. rewrite Eg in Ha.
    assert (Hnew : ok l' ∧ count is_gate l' = count is_gate l ∧ (∀ n, EWrite k n ∉ y_log s') ∧
      signal s' + adds l' = signal s + (if is_add op then 1 else 0) + adds l ∧
      (w = true → deps s' = true ∨ 0 < sum_over (count is_sig) (<[j := l']> ps) ↔ signal s' = k)).
    { assert (Hs0 : ∀ x, 0 ≤ sum_over (count is_sig) x) by (intros x; apply sum_over_nonneg; intros; apply count_nonneg).
      destruct op; try done; cbn in He, Hokj; simplify_eq; cbn [is_add is_sig signal deps y_log] in *.
      - split_and!; [done|done| |lia|]; [intros n Hn; apply elem_of_app in Hn as [Hn|Hn]; [by apply Hl in Hn|by apply list_elem_of_singleton in Hn]|].
        intros Ew. rewrite <- (Hd Ew). rewrite Hs. naive_solver lia.
      - destruct Hokj as (Hi & _ & Hokl). split_and!; [done|done| |lia|].
        + intros m Hm. apply elem_of_app in Hm as [Hm|Hm]; [by apply Hl in Hm|]. apply list_elem_of_singleton in Hm. congruence.
        + intros Ew. rewrite <- (Hd Ew), Hs. naive_solver lia.
      - destruct Hokj as [-> Hokl]. destruct w.
        + case_bool_decide as Eb; simplify_eq; split_and!; [done|rewrite count_cons; cbn; lia|done|cbn [adds is_gate is_add signal]; lia| |done|done|done|cbn [signal]; lia|]; intros _; rewrite Hs, ?count_cons; cbn [is_sig].
          * specialize (Hs0 ps). split; [lia|]. intros _. right. lia.
          * pose proof (Hd eq_refl) as Hd'. pose proof (adds_nonneg l). assert (0 ≤ sum_over adds (<[j := l]> ps)) by (apply sum_over_nonneg; intros; apply adds_nonneg).
            split; [|intros E; destruct Eb; f_equal; lia]. intros Hor. assert (signal s = k) by (apply Hd'; destruct Hor; [by left|right; lia]). lia.
        + rewrite bool_decide_eq_false_2 by done. split_and!; [done|done|done|lia|done].
      - split_and!; [done|done|done|lia|]. intros Ew. rewrite <- (Hd Ew). split; [|by left]. intros _.
        right. pose proof (sum_nonneg (count is_sig) ps j _ (count_nonneg is_sig) Hj) as Hx. rewrite count_cons in Hx. cbn in Hx. pose proof (count_nonneg is_sig l'). lia.
      - split_and!; [done|done| |lia|]; [intros n Hn; apply elem_of_app in Hn as [Hn|Hn]; [by apply Hl in Hn|by apply list_elem_of_singleton in Hn]|].
        intros Ew. rewrite <- (Hd Ew). rewrite Hs. naive_solver lia. }
    destruct Hnew as (Hn1 & Hn2 & Hn3 & Hn4 & Hn5). constructor; [by apply Forall_insert|lia|lia|done|done].
Qed.

Definition is_last (e : Event) : bool := match e with EWrite i _ => i =? k | _ => false end.
Definition lasts (l : list Event) : Z := len (filter (fun e => is_last e = true) l).
Lemma lasts_app l1 l2 : lasts (l1 ++ l2) = lasts l1 + lasts l2.
Proof. unfold lasts. rewrite filter_app, length_app. lia. Qed.
Lemma lasts_in l n : EWrite k n ∈ l → 0 < lasts l.
Proof.
  intros H. unfold lasts. destruct (filter (fun e => is_last e = true) l) as [|e l'] eqn:E; [|cbn; lia].
  assert (Hin : EWrite k n ∈ filter (fun e => is_last e = true) l) by (apply list_elem_of_filter; split; [cbn; apply Z.eqb_refl|done]). rewrite E in Hin. by apply elem_of_nil in Hin.
Qed.

Lemma behind_gate_step ps s ps' s' : behind_gate ps s → ystep (ps, s) (ps', s') → behind_gate ps' s'.
Proof.
  intros [Hg He Hl] H. inversion H as [? ? j op l l' ? Hj Hx]; subst.
  pose proof (proj1 (sum_zero (count is_gate) ps (count_nonneg is_gate)) Hg _ ltac:(by eapply list_elem_of_lookup_2)) as Hgj.
  pose proof (proj1 (sum_zero (count early) ps (count_nonneg early)) He _ ltac:(by eapply list_elem_of_lookup_2)) as Hej.
  rewrite count_cons in Hgj, Hej. pose proof (count_nonneg is_gate l). pose proof (count_nonneg early l).
  pose proof (sum_insert (count is_gate) ps j _ l' Hj) as Sg. pose proof (sum_insert (count early) ps j _ l' Hj) as Se. rewrite count_cons in Sg, Se.
  assert (Hl' : (count is_gate l' = count is_gate l ∧ count early l' = count early l)).
  { destruct op; cbn in Hx; repeat case_match; simplify_eq; rewrite ?count_cons; done. }
  constructor; [destruct (is_gate op); lia|destruct (early op); lia|]. destruct op; cbn in Hx; repeat case_match; simplify_eq; cbn [y_log]; try done.
  all: try by apply log_snoc.
  - lia.
  - match goal with Hn : early _ = false |- _ => cbn in Hn; apply negb_false_iff, Z.eqb_eq in Hn as -> end.
    right. exists (y_log s), n, []. split; [done|]. by intros ? ? ?%elem_of_nil.
Qed.

Definition free_head (l : list Op) : bool := match l with op :: _ => negb (is_gate op) | [] => false end.
Lemma gate_progress ps s : before_gate ps s ∨ behind_gate ps s → (∃ l, l ∈ ps ∧ l ≠ []) → ∃ x, ystep (ps, s) x.
Proof.
  assert (Hfree : ∀ j op l, ps !! j = Some (op :: l) → is_gate op = false → ∃ x, ystep (ps, s) x).
  { intros j op l Hj Hop. destruct op; try done; (eexists; by eapply ystep_at). }
  intros Hinv (l0 & [j Hj]%list_elem_of_lookup & Hne). destruct l0 as [|op l]; [done|]. destruct (is_gate op) eqn:Eg; [|by eapply Hfree]. destruct Hinv as [[Hok Hg Hsig Hd _]|[Hg _ _]].
  2: { pose proof (proj1 (sum_zero (count is_gate) ps (count_nonneg is_gate)) Hg _ ltac:(by eapply list_elem_of_lookup_2)) as Hz. rewrite count_cons, Eg in Hz.
       pose proof (count_nonneg is_gate l). lia. }
  destruct (decide (Exists (fun l => free_head l = true) ps)) as [Hex|Hnex].
  { apply Exists_exists in Hex as ([|op' l'] & [j' Hj']%list_elem_of_lookup & Hop); [done|]. apply negb_true_iff in Hop. by eapply Hfree. }
  assert (Hall : ∀ l, l ∈ ps → adds l = 0 ∧ count is_sig l = 0).
  { intros l' Hl'. destruct l' as [|op' l']; [done|]. assert (Hop : is_gate op' = true).
    { destruct (is_gate op') eqn:E'; [done|]. destruct Hnex. apply Exists_exists. exists (op' :: l'). cbn. by rewrite E'. }
    cbn [adds]. rewrite Hop, count_cons. split; [done|]. rewrite Forall_forall in Hok. apply Hok in Hl'. destruct op'; try done; cbn in Hl' |- *.
    - by destruct Hl' as (_ & _ & _ & _ & -> & _).
    - by destruct Hl' as (_ & _ & _ & -> & _). }
  pose proof (proj2 (sum_zero adds ps adds_nonneg) (fun l Hl => proj1 (Hall l Hl))) as Ha.
  pose proof (proj2 (sum_zero (count is_sig) ps (count_nonneg is_sig)) (fun l Hl => proj2 (Hall l Hl))) as Hs.
  assert (Hokj : ok (op :: l)) by (rewrite Forall_forall in Hok; by eapply Hok, list_elem_of_lookup_2).
  destruct op; try done; cbn in Hokj; (eexists; eapply ystep_at; [exact Hj|]); cbn [exec_op].
  - destruct Hokj as (_ & -> & _). by rewrite (proj2 (Z.eqb_eq (signal s) k)) by lia.
  - destruct Hokj as (Ew & _). destruct (proj2 (Hd Ew)) as [->|]; [lia|done|lia].
Qed.

(** what the gate guarantees of every run *)
Lemma gate_run ps0 x : before_gate ps0 y_start → lasts (omap ev (concat ps0)) = 1 → rtc ystep (ps0, y_start) x →
  ((∃ l, l ∈ x.1 ∧ l ≠ []) → ∃ y, ystep x y) ∧
  ((∀ l, l ∈ x.1 → l = []) → ∃ l1 n l2, y_log x.2 = l1 ++ EWrite k n :: l2 ∧ ∀ i m, EWrite i m ∉ l2).
Proof.
  intros H0 Hone Hx. pose proof (ysteps_events _ _ Hx) as Hev. cbn [y_log y_start fst snd app] in Hev.
  assert (Hinv : before_gate x.1 x.2 ∨ behind_gate x.1 x.2).
  { apply (rtc_ind_r (R := ystep) (fun x => before_gate x.1 x.2 ∨ behind_gate x.1 x.2) (ps0, y_start)); [by left| |done].
    intros [ps s] [ps' s'] _ Hstep [IH|IH]; [by eapply before_gate_step|right; by eapply behind_gate_step]. }
  destruct x as [ps s]; cbn [fst snd] in *. split; [by apply gate_progress|]. intros Hdone. assert (Ec : concat ps = []).
  { clear -Hdone. induction ps as [|l ps IH]; [done|]. cbn. rewrite (Hdone l) by left. apply IH. intros; apply Hdone; by right. }
  rewrite Ec, app_nil_r in Hev. destruct Hinv as [[_ Hg _ _ _]|[_ _ Hl]].
  - assert (Hz : sum_over (count is_gate) ps = 0) by (apply (sum_zero _ _ (count_nonneg is_gate)); intros l Hl; by rewrite (Hdone l Hl)). lia.
  - destruct Hl as [Hl|?]; [|done]. exfalso. assert (Hz : lasts (y_log s) = 1) by (unfold lasts; by rewrite Hev).
    unfold lasts in Hz. destruct (filter (fun e => is_last e = true) (y_log s)) as [|e l] eqn:E; [done|].
    assert (Hin : e ∈ filter (fun e => is_last e = true) (y_log s)) by (rewrite E; left). apply list_elem_of_filter in Hin as [He Hin].
    destruct e as [|i n|]; try done. cbn in He. apply Z.eqb_eq in He as ->. by apply Hl in Hin.
Qed.
End Gate.

(** without a gate nothing waits *)
Lemma free_progress ps s : (∀ l op, l ∈ ps → op ∈ l → is_gate op = false) → (∃ l, l ∈ ps ∧ l ≠ []) → ∃ x, ystep (ps, s) x.
Proof.
  intros Hf (l & [j Hj]%list_elem_of_lookup & Hne). destruct l as [|op l]; [done|].
  assert (Hg : is_gate op = false) by (eapply Hf; [by eapply list_elem_of_lookup_2|left]). destruct op; try done; (eexists; by eapply ystep_at).
Qed.
Lemma free_step ps s ps' s' : (∀ l op, l ∈ ps → op ∈ l → is_gate op = false) → ystep (ps, s) (ps', s') → ∀ l op, l ∈ ps' → op ∈ l → is_gate op = false.
Proof.
  intros Hf H l0 op0 Hl0 Hop0. inversion H as [? ? j op l l' ? Hj Hx]; subst. apply list_elem_of_lookup in Hl0 as [i Hi]. destruct (decide (i = j)) as [->|Hij].
  - rewrite list_lookup_insert_eq in Hi by by eapply lookup_lt_Some. injection Hi as <-. apply list_elem_of_lookup_2 in Hj.
    destruct op; cbn in Hx; repeat case_match; simplify_eq; repeat case_bool_decide; try (by eapply Hf; [done|right]).
    apply elem_of_cons in Hop0 as [->|Hop0]; [done|]. by eapply Hf; [done|right].
  - rewrite list_lookup_insert_ne in Hi by done. apply (Hf l0 op0); [by eapply list_elem_of_lookup_2|done].
Qed.

(** ** The pieces of a transaction *)

Definition e_write (e : Event) : option Z := match e with EWrite i _ => Some i | _ => None end.
Definition e_read (e : Event) : option Z := match e with ERead i => Some i | _ => None end.

Lemma seqZ_last m : 0 < m → seqZ 0 m = seqZ 0 (m - 1) ++ [m - 1].
Proof. intros H. replace m with ((m - 1) + 1) at 1 by lia. rewrite seqZ_app by lia. f_equal. Qed.

Section Pieces.
Context (E : Env) (o : Opts) (row : Z → Z) (keys : list Z).
Notation n := (nr_writes o).

Record ycsb_ok : Prop := {
  yo_extra : 0 ≤ g_extra_read o ≤ 9;
  yo_rows : (∀ i, row i ≠ 0) ∨ kOnDemandSplitting E = false;
  yo_dep : kEnablePartition E = false → g_dependency o = true → g_extra_read o ≤ 8 }.

(** what the pieces of a transaction have to be, for rows [reads] to be read *)
Record good (ps : list (list Op)) (reads : list Z) : Prop := {
  gd_writes : omap e_write (omap ev (concat ps)) ≡ₚ seqZ 0 n;
  gd_reads : omap e_read (omap ev (concat ps)) ≡ₚ reads;
  gd_gate : g_dependency o = true → ∃ w, before_gate (n - 1) w ps y_start;
  gd_free : g_dependency o = false → ∀ l op, l ∈ ps → op ∈ l → is_gate op = false }.

Lemma lasts_writes (l : list Event) : omap e_write l ≡ₚ seqZ 0 n → 0 < n → lasts (n - 1) l = 1.
Proof.
  intros Hp Hn. assert (E1 : lasts (n - 1) l = len (filter (fun i => i = n - 1) (omap e_write l))).
  { unfold lasts. f_equal. clear. induction l as [|e l IH]; [done|]. rewrite filter_cons. destruct e as [i|i m|i]; cbn [omap list_omap e_write is_last].
    - by rewrite decide_False.
    - rewrite filter_cons. destruct (Z.eqb_spec i (n - 1)) as [->|Hne]; [|by rewrite !decide_False].
      rewrite !decide_True by done. cbn [length]. by rewrite IH.
    - by rewrite decide_False. }
  rewrite E1, Hp, seqZ_last, filter_app, filter_none by (done || intros i Hi%elem_of_seqZ; lia). cbn [app].
  by rewrite filter_cons_True by lia.
Qed.

(** every run of good pieces *)
Lemma good_run ps reads x : good ps reads → 0 < n → rtc ystep (ps, y_start) x →
  ((∃ l, l ∈ x.1 ∧ l ≠ []) → ∃ y, ystep x y) ∧
  ((∀ l, l ∈ x.1 → l = []) → omap e_write (y_log x.2) ≡ₚ seqZ 0 n ∧ omap e_read (y_log x.2) ≡ₚ reads ∧
    (g_dependency o = true → ∃ l1 m l2, y_log x.2 = l1 ++ EWrite (n - 1) m :: l2 ∧ ∀ i m, EWrite i m ∉ l2)).
Proof.
  intros [Hw Hr Hg Hf] Hn Hx. pose proof (ysteps_events _ _ Hx) as Hev. cbn [y_log y_start fst snd app] in Hev.
  assert (Hdep : g_dependency o = true → _) by (intros Hd; destruct (Hg Hd) as [w H0]; exact (gate_run (n - 1) w ps x H0 (lasts_writes _ Hw Hn) Hx)).
  split.
  - destruct (g_dependency o) eqn:Ed; [by apply Hdep|]. assert (Hfree : ∀ l op, l ∈ x.1 → op ∈ l → is_gate op = false).
    { apply (rtc_ind_r (R := ystep) (fun x => ∀ l op, l ∈ x.1 → op ∈ l → is_gate op = false) (ps, y_start)); [by apply Hf| |done].
      intros [ps1 s1] [ps2 s2] _ Hstep IH. by apply (free_step ps1 s1 ps2 s2). }
    destruct x as [ps' s']. by apply free_progress.
  - intros Hdone. assert (Ec : concat x.1 = []).
    { clear -Hdone. induction x.1 as [|l ps IH]; [done|]. cbn. rewrite (Hdone l) by left. apply IH. intros; apply Hdone; by right. }
    rewrite Ec, app_nil_r in Hev. split_and!; [by rewrite Hev|by rewrite Hev|]. intros Hd. by apply Hdep.
Qed.

(** ** One piece and the updates that are split off *)

Definition main_ops (cs : list Z) : list Op :=
  concat (map (update_ops o) cs) ++ (if g_dependency o then [OWait] else []) ++ WriteRow (n - 1) ++ map ORead (seqZ n (kTotal - n)).

Lemma update_rows_spec : (∀ i, row i ≠ 0) ∨ kOnDemandSplitting E = false →
  ∃ ps cs ss, update_rows E o row = Ok (ps, cs) ∧ map y_ops ps = map (update_ops o) ss ∧ ss ++ cs ≡ₚ seqZ 0 (n - 1).
Proof.
  intros Hrow. unfold update_rows.
  destruct (for_each_inv (fun i '(ps, cs) => aff ← UpdateForKeyAffinity E 1 (row i);
      Ok (if negb (aff =? -1) && negb (g_enable_granola E) && negb (g_enable_pwv E) then (ps ++ [mkYPiece aff (update_ops o i)], cs) else (ps, cs ++ [i])))
    (fun done x => ∃ ss, map y_ops x.1 = map (update_ops o) ss ∧ ss ++ x.2 ≡ₚ done) (seqZ 0 (n - 1)) ([], [])) as ([ps cs] & -> & ss & H1 & H2).
  - by exists [].
  - intros d i r [ps cs] _ (ss & H1 & H2). assert (∃ aff, UpdateForKeyAffinity E 1 (row i) = Ok aff) as [aff ->].
    { unfold UpdateForKeyAffinity. destruct Hrow as [Hr| ->]; [|by eexists]. rewrite (proj2 (Z.eqb_neq _ _) (Hr i)). repeat case_match; by eexists. }
    cbn [mbind result_bind]. eexists. split; [done|]. cbn [fst snd] in *. destruct (negb (aff =? -1) && _ && _); cbn [fst snd].
    + exists (ss ++ [i]). rewrite !map_app, H1. split; [done|]. rewrite <- app_assoc, (Permutation_app_comm [i]), app_assoc, H2. done.
    + exists ss. split; [done|]. by rewrite app_assoc, H2.
  - by exists ps, cs, ss.
Qed.

Lemma updates_events (l : list Z) : omap e_write (omap ev (concat (map (update_ops o) l))) = l ∧ omap e_read (omap ev (concat (map (update_ops o) l))) = l.
Proof. induction l as [|i l [IH1 IH2]]; [done|]. cbn [map concat]. rewrite !omap_app. rewrite IH1, IH2. unfold update_ops. by destruct (g_dependency o). Qed.
Lemma reads_events (l : list Z) : omap e_write (omap ev (map ORead l)) = [] ∧ omap e_read (omap ev (map ORead l)) = l.
Proof. induction l as [|i l [IH1 IH2]]; [done|]. cbn in *. by rewrite IH2. Qed.

Lemma updates_ok (l : list Z) rest : g_dependency o = true → (∀ i, i ∈ l → i ≠ n - 1) → ok (n - 1) true rest →
  ok (n - 1) true (concat (map (update_ops o) l) ++ rest) ∧ adds (concat (map (update_ops o) l) ++ rest) = len l + adds rest ∧
  count is_gate (concat (map (update_ops o) l) ++ rest) = count is_gate rest ∧ count is_sig (concat (map (update_ops o) l) ++ rest) = count is_sig rest.
Proof.
  intros Ed Hl Hr. induction l as [|i l IH]; [done|]. destruct IH as (H1 & H2 & H3 & H4); [intros; apply Hl; by right|]. cbn [map concat]. 
  assert (Eu : update_ops o i = [ORead i; OWrite i 999; OAdd (Some (n - 1))]) by (unfold update_ops; by rewrite Ed). rewrite Eu, <- app_assoc. cbn [app ok adds is_gate is_add].
  rewrite !count_cons. cbn [is_gate is_sig length]. split_and!; [apply Hl; left|by do 2 eexists|done|done|lia|lia|lia].
Qed.
Lemma post_behind : behind (n - 1) (WriteRow (n - 1) ++ map ORead (seqZ n (kTotal - n))).
Proof.
  assert (H : ∀ l, count (early (n - 1)) (map ORead l) = 0 ∧ count is_gate (map ORead l) = 0 ∧ count is_sig (map ORead l) = 0).
  { induction l as [|i l (H1 & H2 & H3)]; [done|]. cbn [map]. rewrite !count_cons, H1, H2, H3. done. }
  destruct (H (seqZ n (kTotal - n))) as (H1 & H2 & H3). unfold behind. rewrite !count_app, H1, H2, H3. unfold WriteRow. rewrite !count_cons. cbn. rewrite Z.eqb_refl. split_and!; [done..|].
  intros c Hc. apply elem_of_cons in Hc as [Hc|Hc]; [done|]. apply elem_of_cons in Hc as [Hc|Hc]; [done|].
  apply (list_elem_of_fmap ORead (seqZ n (kTotal - n)) (OAdd c)) in Hc as (i & Hi & _). done.
Qed.

Lemma main_good ss cs : 0 < n ≤ 10 → (g_dependency o = true → 1 < n) → ss ++ cs ≡ₚ seqZ 0 (n - 1) → good (map (update_ops o) ss ++ [main_ops cs]) (seqZ 0 kTotal).
Proof.
  clear E row keys. intros Hn Hd Hp. assert (Hin : ∀ i, i ∈ ss ++ cs → 0 ≤ i < n - 1) by (intros i Hi; rewrite Hp in Hi; apply elem_of_seqZ in Hi; lia).
  assert (Hlen : len ss + len cs = n - 1) by (apply Permutation_length in Hp; rewrite length_app, length_seqZ in Hp; lia).
  assert (Hev : ∀ l, (if g_dependency o then [OWait] else []) = l → omap ev l = []) by (intros l <-; by destruct (g_dependency o)).
  specialize (Hev _ eq_refl). destruct (reads_events (seqZ n (kTotal - n))) as [R1 R2]. destruct (updates_events ss) as [S1 S2]. destruct (updates_events cs) as [C1 C2].
  constructor.
  - rewrite concat_app. cbn [concat]. rewrite app_nil_r. unfold main_ops. rewrite !omap_app, Hev, S1, C1, R1. cbn. by rewrite app_assoc, Hp, <- seqZ_last by lia.
  - rewrite concat_app. cbn [concat]. rewrite app_nil_r. unfold main_ops. rewrite !omap_app, Hev, S2, C2, R2. cbn. rewrite app_assoc, Hp.
    change (n - 1 :: seqZ n (kTotal - n)) with ([n - 1] ++ seqZ n (kTotal - n)). rewrite app_assoc, <- seqZ_last by lia. change (seqZ n) with (seqZ (0 + n)). rewrite <- seqZ_app by (unfold kTotal; lia).
    by replace (n + (kTotal - n)) with kTotal by lia.
  - intros Ed. exists true. specialize (Hd Ed).
    assert (Hm : ok (n - 1) true (main_ops cs) ∧ adds (main_ops cs) = len cs ∧ count is_gate (main_ops cs) = 1 ∧ count is_sig (main_ops cs) = 0).
    { unfold main_ops. rewrite Ed. pose proof post_behind as Hb. cbn [app]. destruct (updates_ok cs (OWait :: WriteRow (n - 1) ++ map ORead (seqZ n (kTotal - n))) Ed) as (H1 & H2 & H3 & H4).
      - intros i Hi. specialize (Hin i ltac:(apply elem_of_app; by right)). lia.
      - by cbn.
      - destruct Hb as (_ & Hb1 & Hb2 & _). rewrite H3, H4, H2, !count_cons. cbn [adds is_gate is_sig]. rewrite Hb1, Hb2. split_and!; [done|lia|lia|lia]. }
    destruct Hm as (Hm1 & Hm2 & Hm3 & Hm4).
    assert (Hs : ∀ l, (∀ i, i ∈ l → i ≠ n - 1) → Forall (ok (n - 1) true) (map (update_ops o) l) ∧ sum_over adds (map (update_ops o) l) = len l ∧
      sum_over (count is_gate) (map (update_ops o) l) = 0 ∧ sum_over (count is_sig) (map (update_ops o) l) = 0).
    { induction l as [|i l IH]; intros Hl; [by split_and!|]. destruct IH as (I1 & I2 & I3 & I4); [intros; apply Hl; by right|].
      destruct (updates_ok [i] [] Ed) as (U1 & U2 & U3 & U4); [intros j ->%list_elem_of_singleton; apply Hl; left|done|]. cbn [map concat] in U1, U2, U3, U4. rewrite !app_nil_r in U1, U2, U3, U4.
      unfold sum_over in *. cbn [map foldr]. rewrite I2, I3, I4, U2, U3, U4. split_and!; [by constructor|cbn; lia|done|done]. }
    destruct (Hs ss) as (I1 & I2 & I3 & I4); [intros i Hi; specialize (Hin i ltac:(apply elem_of_app; by left)); lia|].
    constructor; rewrite ?sum_over_app; [apply Forall_app; split; [done|by constructor]|..]; unfold sum_over in *; cbn [foldr y_start signal deps y_log].
    + lia.
    + lia.
    + intros _. rewrite I4, Hm4. split; [intros [|]; [done|lia]|lia].
    + by intros m ?%elem_of_nil.
  - intros Ed l op Hl Hop. apply elem_of_app in Hl as [Hl|Hl].
    + apply (list_elem_of_fmap (update_ops o) ss l) in Hl as (i & -> & _). unfold update_ops in Hop. rewrite Ed, app_nil_r in Hop. unfold WriteRow in Hop. set_solver.
    + apply list_elem_of_singleton in Hl as ->. unfold main_ops in Hop. rewrite Ed in Hop. apply elem_of_app in Hop as [Hop|Hop].
      * apply list_elem_of_In, in_concat in Hop as (l & Hl & Hop). apply list_elem_of_In in Hl, Hop. apply (list_elem_of_fmap (update_ops o) cs l) in Hl as (i & -> & _).
        unfold update_ops in Hop. rewrite Ed, app_nil_r in Hop. unfold WriteRow in Hop. set_solver.
      * cbn [app] in Hop. unfold WriteRow in Hop. apply elem_of_app in Hop as [Hop|Hop]; [set_solver|]. apply (list_elem_of_fmap ORead _ op) in Hop as (i & -> & _). done.
Qed.
End Pieces.

(** ** One piece per partition: the pieces depend on the number of writes and two options only *)

Definition spin_ops (m : Z) (dep pwv : bool) (i : Z) : list Op :=
  (if dep && (i =? m - 1) then [OSpin i] else []) ++ [ORead i] ++
  (if i <? m then OWrite i 90 :: (if dep && (i <? m - 1) then [OAdd None] else []) else []) ++ (if pwv then [OActivate i] else []).
Definition bohm_ops (m : Z) (dep : bool) (i : Z) : list (list Op) :=
  if m <? i then [] else if i =? m then [[ORead i]] else [(if dep && (i =? m - 1) then [OSpin i] else []) ++ [ORead i; OWrite i 90; OAdd None]].
Lemma partition_pieces E o keys : map y_ops (RunOnPartition E o keys (fun part k i => [mkYPiece part (partition_ops E o i)])) =
  map (spin_ops (nr_writes o) (g_dependency o) (g_enable_pwv E)) (seqZ 0 kTotal).
Proof. reflexivity. Qed.
Lemma bohm_pieces E o keys : map y_ops (RunOnPartition E o keys (fun part k i => bohm_piece o part i)) =
  concat (map (bohm_ops (nr_writes o) (g_dependency o)) (seqZ 0 kTotal)).
Proof.
  assert (H : ∀ l, map y_ops (concat (map (fun i => bohm_piece o (partition_of E o (keys.[i])) i) l)) = concat (map (bohm_ops (nr_writes o) (g_dependency o)) l)).
  { induction l as [|i l IH]; [done|]. cbn [map concat]. rewrite map_app, IH. f_equal. unfold bohm_piece, bohm_ops. repeat case_match; done. }
  apply H.
Qed.

(** [ok] by computation *)
Definition behindb (k : Z) (l : list Op) : bool :=
  (count (early k) l =? 0) && (count is_gate l =? 0) && (count is_sig l =? 0) && forallb (fun op => match op with OAdd (Some _) => false | _ => true end) l.
Fixpoint okb (k : Z) (l : list Op) : bool :=
  match l with
  | [] => true
  | op :: l => match op with
      | OWrite i _ => negb (i =? k) && match l with OAdd _ :: _ => true | _ => false end && okb k l
      | OAdd c => match c with None => true | _ => false end && okb k l
      | OSpin v => (v =? k) && behindb k l
      | OWait => false
      | _ => okb k l
      end
  end.
Lemma okb_ok k l : okb k l = true → ok k false l.
Proof.
  induction l as [|op l IH]; [done|]. destruct op; cbn [okb ok]; intros H; [by apply IH| | |by apply IH| |done|by apply IH].
  - apply andb_true_iff in H as [H H2]. apply andb_true_iff in H as [H0 H1]. apply negb_true_iff, Z.eqb_neq in H0. split_and!; [done| |by apply IH].
    destruct l as [|[] l]; try done. by do 2 eexists.
  - apply andb_true_iff in H as [H1 H2]. split; [by destruct k0|by apply IH].
  - apply andb_true_iff in H as [H1 H2]. apply Z.eqb_eq in H1 as ->. split; [done|]. split; [done|]. unfold behindb in H2. zprop. split_and!; try lia.
    intros c Hc. match goal with Hf : forallb _ _ = true |- _ => rewrite forallb_forall in Hf; apply list_elem_of_In in Hc; specialize (Hf _ Hc) end. by destruct c.
Qed.
Definition goodb (m : Z) (dep : bool) (ps : list (list Op)) (reads : list Z) : bool :=
  bool_decide (omap e_write (omap ev (concat ps)) = seqZ 0 m) && bool_decide (omap e_read (omap ev (concat ps)) = reads) &&
  if dep then forallb (okb (m - 1)) ps && (sum_over (count is_gate) ps =? 1) && (sum_over adds ps =? m - 1)
  else forallb (fun l => count is_gate l =? 0) ps.
Lemma goodb_good o ps reads : goodb (nr_writes o) (g_dependency o) ps reads = true → good o ps reads.
Proof.
  unfold goodb. intros H. apply andb_true_iff in H as [H H2]. apply andb_true_iff in H as [H0 H1]. apply bool_decide_eq_true in H0, H1.
  constructor; [by rewrite H0|by rewrite H1| |].
  - intros Ed. rewrite Ed in H2. zprop. exists false. constructor; cbn [y_start signal deps y_log]; [|lia|lia|done|by intros ? ?%elem_of_nil].
    apply Forall_forall. intros l Hl. apply okb_ok. match goal with Hf : forallb _ _ = true |- _ => rewrite forallb_forall in Hf; apply Hf end. by apply list_elem_of_In.
  - intros Ed l op Hl Hop. rewrite Ed in H2. rewrite forallb_forall in H2. apply list_elem_of_In in Hl. specialize (H2 l Hl). apply Z.eqb_eq in H2. unfold count in H2.
    destruct (is_gate op) eqn:Eg; [|done]. assert (Hin : op ∈ filter (fun op => is_gate op = true) l) by by apply list_elem_of_filter.
    destruct (filter (fun op => is_gate op = true) l); [by apply elem_of_nil in Hin|done].
Qed.

Lemma modes_good m dep pwv : 1 ≤ m ≤ 10 →
  goodb m dep (map (spin_ops m dep pwv) (seqZ 0 kTotal)) (seqZ 0 kTotal) = true ∧
  goodb m dep (concat (map (bohm_ops m dep) (seqZ 0 kTotal))) (seqZ 0 (Z.min kTotal (m + 1))) = true.
Proof.
  intros Hm. assert (H : m = 1 ∨ m = 2 ∨ m = 3 ∨ m = 4 ∨ m = 5 ∨ m = 6 ∨ m = 7 ∨ m = 8 ∨ m = 9 ∨ m = 10) by lia. clear Hm.
  repeat destruct H as [-> |H]; [..|subst m]; destruct dep, pwv; vm_compute; done.
Qed.

(** ** Properties *)

(** the rows that a transaction reads: Bohm reads only one of the rows that it does not write *)
Definition rows_read (E : Env) (o : Opts) : list Z :=
  if kEnablePartition E && negb (g_enable_granola E || g_enable_pwv E) then seqZ 0 (Z.min kTotal (nr_writes o + 1)) else seqZ 0 kTotal.

Lemma prepare_rows E o keys : 1 ≤ nr_writes o ≤ 10 → map fst (Prepare E o keys) = seqZ 0 (nr_writes o).
Proof.
  intros Hn. unfold Prepare, RunOnPartition, LookupCompletion, LookupIndex.
  assert (H : nr_writes o = 1 ∨ nr_writes o = 2 ∨ nr_writes o = 3 ∨ nr_writes o = 4 ∨ nr_writes o = 5 ∨ nr_writes o = 6 ∨ nr_writes o = 7 ∨ nr_writes o = 8 ∨ nr_writes o = 9 ∨ nr_writes o = 10) by lia.
  destruct (g_lock_elision o); repeat destruct H as [H|H]; rewrite H; reflexivity.
Qed.


Definition sample_env : Env := mkEnv 1 default_config 1 4 true false false false (fun r => r mod 3 - 1) (fun _ => false) (fun a => a).
Definition sample_opts : Opts := mkOpts 1000 4 0 true false.

(** With one row to write, [g_dependency] and no partitions, the transaction waits forever: no
    update is left that could signal. *)
Lemma one_write_waits E row keys size c el : kEnablePartition E = false →
  ∃ ps, Run E (mkOpts size 9 c true el) row keys = Ok ps ∧ (∃ l, l ∈ map y_ops ps ∧ l ≠ []) ∧ ∀ y, ¬ ystep (map y_ops ps, y_start) y.
Proof.
  intros Ep. unfold Run. rewrite Ep. cbn. eexists. split; [done|]. cbn. split; [eexists; split; [left|done]|].
  intros y H. inversion H as [? ? j op l l' ? Hj He]; subst. destruct j as [|j]; [|done]. cbn in Hj. injection Hj as <- <-. done.
Qed.

(** ** Keys *)

(** a mask of low bits *)
Lemma mask_land k b : 0 ≤ b → 0 ≤ k < 2 ^ 64 → Z.land (Z.land k (u64 (Z.lnot (Z.ones b)))) (Z.ones b) = 0 ∧ 0 ≤ Z.land k (u64 (Z.lnot (Z.ones b))) ≤ k.
Proof.
  intros Hb Hk. assert (E : Z.land k (u64 (Z.lnot (Z.ones b))) = Z.ldiff k (Z.ones b)).
  { unfold u64. apply Z.bits_inj'. intros i Hi. rewrite Z.land_spec, Z.ldiff_spec. destruct (Z_lt_ge_dec i 64) as [Hlt|Hge].
    - by rewrite Z.mod_pow2_bits_low, Z.lnot_spec by lia.
    - rewrite Z.mod_pow2_bits_high, andb_false_r by lia. assert (Hz : Z.testbit k i = false) by (rewrite <- (Z.mod_small k (2 ^ 64)) by lia; apply Z.mod_pow2_bits_high; lia). by rewrite Hz. }
  rewrite E. split; [apply Z.bits_inj'; intros i Hi; rewrite Z.land_spec, Z.ldiff_spec, Z.bits_0; by destruct (Z.testbit k i), (Z.testbit (Z.ones b) i)|].
  split; [apply Z.ldiff_nonneg; lia|]. rewrite Z.ldiff_ones_r by lia. rewrite Z.shiftr_div_pow2, Z.shiftl_mul_pow2 by lia. pose proof (Z.mul_div_le k (2 ^ b) ltac:(lia)). lia.
Qed.

Lemma key_mask_ones size mask : key_mask size = Ok mask → mask = Z.ones (Z.max 0 (Z.log2 size - 6)).
Proof.
  unfold key_mask, clz64, kNrMSBContentionKey. replace (63 - (63 - Z.log2 size) - 6) with (Z.log2 size - 6) by lia.
  destruct (Z.ltb_spec 0 (Z.log2 size - 6)); [|intros [= <-]; rewrite Z.max_l by lia; done]. destruct (_ <? 31); [|done]. intros [= <-].
  rewrite Z.max_r, Z.ones_equiv, Z.shiftl_1_l by lia. lia.
Qed.

(** what the [i]-th key has to be *)
Definition key_ok (o : Opts) (mask : Z) (i k : Z) : Prop :=
  0 ≤ k < g_table_size o ∧ if i <? g_contention_key o then Z.land k mask = 0 else Z.land k mask ≠ 0.

Lemma pick_key_ok o mask b keys rs k rs' : 0 < g_table_size o < 2 ^ 64 → mask = Z.ones b → 0 ≤ b → pick_key o mask keys rs = Ok (k, rs') →
  key_ok o mask (len keys) k ∧ k ∉ keys.
Proof.
  intros Hs -> Hb. unfold key_ok. revert rs'. destruct (len keys <? g_contention_key o) eqn:Ec; induction rs as [|x rs IH]; intros rs' H; try done; cbn [pick_key] in H; rewrite Ec in H;
    pose proof (Z.mod_pos_bound x (g_table_size o) ltac:(lia)) as Hm; destruct (mask_land (x mod g_table_size o) b Hb ltac:(lia)) as [Hz Hr].
  - case_bool_decide; [by eapply IH|]. injection H as <- <-. split; [|done]. split; [lia|done].
  - destruct (Z.eqb_spec (Z.land (x mod g_table_size o) (Z.ones b)) 0); [by eapply IH|]. case_bool_decide; [by eapply IH|]. injection H as <- <-. by split.
Qed.

(** The ten keys of a transaction are distinct keys of the table; the first [g_contention_key] of
    them have only high bits, the others have a low bit. *)
Lemma ycsb_keys o rs keys mask : 0 < g_table_size o < 2 ^ 64 → key_mask (g_table_size o) = Ok mask → GenerateTransactionInput o rs = Ok keys →
  len keys = kTotal ∧ NoDup keys ∧ ∀ i, 0 ≤ i < kTotal → key_ok o mask i (keys.[i]).
Proof.
  intros Hs Hm. unfold GenerateTransactionInput. rewrite Hm. cbn [mbind result_bind]. pose proof (key_mask_ones _ _ Hm) as Hones.
  assert (H : ∀ n ks rs, pick_keys n o mask ks rs = Ok keys → NoDup ks → (∀ i, 0 ≤ i < len ks → key_ok o mask i (ks.[i])) →
    len keys = len ks + Z.of_nat n ∧ NoDup keys ∧ ∀ i, 0 ≤ i < len keys → key_ok o mask i (keys.[i])).
  { induction n as [|n IH]; intros ks rs0 H Hnd Hk; cbn [pick_keys] in H; [injection H as <-; split_and!; [lia|done|done]|].
    destruct (pick_key o mask ks rs0) as [[k rs1]|] eqn:E; [|done]. cbn [mbind result_bind] in H.
    destruct (pick_key_ok o mask _ ks rs0 k rs1 Hs Hones ltac:(lia) E) as [Hko Hnin]. destruct (IH (ks ++ [k]) rs1 H) as (H1 & H2 & H3).
    - apply NoDup_app. split_and!; [done| |apply NoDup_singleton]. intros x Hx ->%list_elem_of_singleton. done.
    - intros i Hi. rewrite length_app in Hi. cbn in Hi. unfold at_. destruct (decide (i = len ks)) as [->|Hne].
      + by rewrite Nat2Z.id, nth_middle.
      + rewrite app_nth1 by lia. apply Hk. lia.
    - rewrite length_app in H1. cbn in H1. split_and!; [lia|done|done]. }
  intros Hk. destruct (H _ _ _ Hk) as (H1 & H2 & H3); [constructor|cbn; intros i; lia|]. unfold kTotal in *. cbn in H1. split_and!; [lia|done|]. intros i Hi. apply H3. lia.
Qed.

(** A table of less than 128 rows has no key with a low bit: without contended keys no input is
    ever generated. *)
Lemma small_table_spins o rs : 0 < g_table_size o < 128 → g_contention_key o < kTotal → ∀ keys, GenerateTransactionInput o rs ≠ Ok keys.
Proof.
  intros Hs Hc keys Hk. assert (Hl : Z.log2 (g_table_size o) < 7) by (apply Z.log2_lt_pow2; lia).
  assert (Hm : key_mask (g_table_size o) = Ok 0).
  { unfold key_mask, clz64, kNrMSBContentionKey. destruct (Z.ltb_spec 0 (63 - (63 - Z.log2 (g_table_size o)) - 6)); [lia|done]. }
  destruct (ycsb_keys o rs keys 0 ltac:(lia) Hm Hk) as (_ & _ & H). destruct (H 9 ltac:(unfold kTotal; lia)) as [_ Ho].
  rewrite Z.land_0_r in Ho. unfold kTotal in Hc. destruct (Z.ltb_spec 9 (g_contention_key o)); [lia|done].
Qed.

(** ** The loader *)

Lemma loader_mono size nr t : 0 ≤ size → 0 < nr → loader_start size nr t ≤ loader_start size nr (t + 1).
Proof. intros Hs Hn. apply Z.div_le_mono; nia. Qed.

(** Every key is loaded once, by the threads in the order of the keys. *)
Lemma loader_loads_all size nr : 0 ≤ size → 0 < nr → YcsbLoader_Run size nr = seqZ 0 size.
Proof.
  intros Hs Hn. assert (H : ∀ m : nat, concat (map (loader_keys size nr) (seqZ 0 (Z.of_nat m))) = seqZ 0 (loader_start size nr (Z.of_nat m))).
  { induction m as [|m IH]; [done|]. replace (Z.of_nat (S m)) with (Z.of_nat m + 1) by lia. rewrite seqZ_app by lia. rewrite map_app, concat_app, IH, Z.add_0_l.
    rewrite (seqZ_cons (Z.of_nat m) 1), (seqZ_nil _ (Z.pred 1)) by lia. cbn [map concat]. rewrite app_nil_r. unfold loader_keys. pose proof (loader_mono size nr (Z.of_nat m) Hs Hn). assert (0 ≤ loader_start size nr (Z.of_nat m)) by (apply Z.div_pos; nia).
    change (seqZ (loader_start size nr (Z.of_nat m))) with (seqZ (0 + loader_start size nr (Z.of_nat m))). rewrite <- seqZ_app by lia. f_equal. lia. }
  unfold YcsbLoader_Run. replace nr with (Z.of_nat (Z.to_nat nr)) at 2 by lia. rewrite H. f_equal. unfold loader_start. rewrite Z2Nat.id by lia. rewrite Z.mul_comm. by apply Z.div_mul; lia.
Qed.

(** A key is run on the core that loaded it when the threads divide the table. *)
Lemma partition_is_loader E o k : 0 < g_nr_threads E → 0 < g_table_size o → (g_nr_threads E | g_table_size o) → 0 ≤ k < g_table_size o →
  k * g_nr_threads E < 2 ^ 64 → k ∈ loader_keys (g_table_size o) (g_nr_threads E) (partition_of E o k).
Proof.
  intros Hn Hs [q Hq] Hk Ho. unfold partition_of, loader_keys, loader_start. rewrite u64_id, Hq by nia. set (nr := g_nr_threads E) in *. assert (0 < q) by nia.
  rewrite Z.div_mul_cancel_r by lia. assert (E1 : ∀ t, t * (q * nr) / nr = t * q) by (intros t; rewrite Z.mul_assoc; apply Z.div_mul; lia). rewrite !E1.
  apply elem_of_seqZ. pose proof (Z.mul_div_le k q ltac:(lia)). pose proof (Z.mul_succ_div_gt k q ltac:(lia)). lia.
Qed.
(** but not in general *)
Lemma partition_differs : partition_of (mkEnv 1 default_config 1 3 false true false false (fun _ => -1) (fun _ => false) (fun a => a)) (mkOpts 10 0 0 false true) 3 = 0 ∧
  3 ∈ loader_keys 10 3 1.
Proof. split; [reflexivity|]. by left. Qed.
